(* ===== verification/_CoqProject ===== *)
-Q . S2P
Prelude.v
Codec.v
CrushHash.v
CrushLn.v
CrushMap.v
CrushPlace.v
Frame.v
Message.v
Address.v
Control.v
Secure.v
Banner.v
SessionState.v
Session.v
SessionInv.v
SessionProps.v
SessionReplay.v
BTree.v
MapBase.v
Text.v
IpText.v
MonMap.v
Pool.v
OsdMap.v
Backoff.v
MapStore.v
Incremental.v
IncrementalProps.v
IncrementalOrder.v
MapPlacement.v
MapPlacementProps.v
OsdMapTyped.v
Interaction.v
Transport.v
Supervisor.v
SupervisorProps.v
CephxCrypto.v
CephxCore.v
CephxProps.v
CephxConnector.v
CephxHandshake.v
CephxKeys.v
Config.v
ConfigProps.v
OsdMessages.v
OsdMetadata.v
OsdWatch.v
OsdCommand.v
OpBuilder.v
OsdClient.v
OsdSession.v
OsdExecute.v
OsdExecuteProps.v
MonMessages.v
MonClient.v
MonClientProps.v
MonClientTheorems.v
Seeds.v
SeedsProps.v
Manager.v
ManagerProps.v
Opening.v
