(* ===== verification/Prelude.v ===== *)
(** * Verification of rados-rs: a native Rust client for Ceph RADOS

    The client reaches a Ceph cluster in layers.  A bounded codec
    ([src/src/wire]) carries every format.  The messenger ([src/src/msgr])
    exchanges banners, frames (with checksums or encrypted), control messages
    and messages; a session state machine numbers, sends, replays and answers
    them, and a supervisor with reader and writer tasks runs it on a
    connection.  Connections are authenticated with CephX ([src/src/cephx]).
    The monitor client ([src/src/mon]) finds the monitors from its
    configuration, keeps a session to one of them, subscribes to the cluster
    maps ([src/src/maps]) and issues the requests of its callers.  The OSD map
    and the CRUSH map inside it ([src/src/crush]) decide on which OSDs an
    object lives; the OSD client ([src/src/osd]) sends the operations there and
    retries them as far as their outcome is known.  The manager client
    ([src/src/mgr]) sends commands to the active manager.

    ** How the code is modelled

    A function of the source is a Rocq function of the same name; a method
    carries the name of its type where that is needed.  Integers are [Z] with
    their width written out; bytes are [Strings.Byte.byte]; a [HashMap] is a
    [gmap], a [BTreeMap] that is walked the list of its entries in key order
    (BTree).  A fallible function returns [result]; a method on [&mut self]
    that can return early is in the monad [St], so that what it changed before
    an error stays changed; a decoder is in [DM].  The session machine and the
    monitor owner return, besides their state, the effects they produce.  A
    Rust panic (an index, an [expect], an overflow) is a value of its own, and
    theorems show that it is not reached.

    An asynchronous function is a program (Interaction): a tree of the calls
    at which it suspends or touches shared state, with a continuation for
    every answer.  A theorem about [always] holds for every environment, that
    is for every interleaving with other tasks, every order of events, every
    cancellation and everything a peer may send.

    Code outside the repository is a class with the law the client relies on,
    and an instance that meets it: [Base64Engine] (CrushLn), [Crc32cCrate]
    (Frame), [AesGcmCrate] (Secure), [CephxCrates] (CephxCrypto),
    [Sha256Crate] (CephxConnector) and [HashOrder] (Incremental), the order in
    which Rust walks a hash map, about which only that it is a permutation is
    known.  The DNS library is a signature of calls (Seeds).

    ** The files

    - Prelude: results, the state monad, machine integers, little-endian
      bytes, and the tactics and lemmas the other files share.
    - Codec: [wire/codec.rs].  What an [Encoder] writes a [Decoder] reads, and
      a successful read determines its bytes ([WireFormat]).
    - CrushHash, CrushLn: [crush/hash.rs], [crush/ln.rs].
    - CrushMap: [crush/map.rs].  A decoded map is well formed and its bucket
      graph acyclic and of bounded depth.
    - CrushPlace: [crush/place.rs].  Placement ends without panic, on devices
      that are distinct, below the root and not weighted out, one per failure
      domain for chooseleaf rules; straw2 elects by draw and moves little.
    - Frame, Message, Address, Control, Secure, Banner: [wire/crc.rs],
      [msgr/frame.rs], [msgr/message.rs], [protocol/address.rs] with
      [protocol/features.rs], [msgr/control.rs], [msgr/secure.rs],
      [msgr/banner.rs].  Round trips, what a reader accepts, nonces that never
      repeat, agreement of both ends.
    - SessionState, Session: the data and [Machine] of [msgr/session.rs].
      SessionInv, SessionProps, SessionReplay: its invariant over all runs,
      the account of every request, dispatch order, delivery at most once,
      replay after a reconnect, and that a session gives up.
    - BTree, MapBase, Text, IpText: sorted association lists, the limits and
      identities of [maps/mod.rs], and the text functions of the standard
      library the client uses (numbers, UTF-8, lines, IP and socket addresses,
      which are read back as they are printed).
    - MonMap, Pool, OsdMap: the map decoders of [maps/monmap.rs],
      [maps/mgrmap.rs], [maps/pool.rs] and [maps/osdmap.rs].  MapStore:
      [maps/store.rs], which is the head of the log of what was published.
    - Incremental: [maps/incremental.rs].  IncrementalProps: applying an
      incremental keeps maps well formed and does not panic.
      IncrementalOrder: the result does not depend on the order of hash maps
      when the index of names is right and renames take distinct, nonempty
      names that no other pool has.
    - MapPlacement, MapPlacementProps: [maps/placement.rs], from the name of
      an object to its up and acting OSDs, on top of CrushPlace, OsdMap and
      the invariant of IncrementalProps.  OsdMapTyped: every map the client
      comes by has sizes and numbers that fit their types, so that placing an
      object in it does not panic.
    - Interaction: programs and what holds of all their runs.
    - Transport, Supervisor: [msgr/transport.rs], [msgr/budget.rs] and
      [msgr/supervisor.rs].  A reader delivers the frames the writer at the
      other end was given; SupervisorProps: every request put into a command
      channel is answered once, and the rounds of the owner end.
    - CephxCrypto, CephxCore, CephxKeys: [cephx/crypto.rs], [cephx/core.rs]
      and [cephx/mod.rs].  CephxProps: what is encrypted is decrypted, which
      replies are accepted, and that client and server agree.
      CephxConnector: [cephx/connector.rs].  CephxHandshake: a handshake that
      succeeds has authenticated the peer and both transcripts.
    - Config, ConfigProps: [config.rs].  Every configuration within reach is
      in order; durations and keyrings are read as they are printed.
    - Backoff: [osd/backoff.rs] and the cursors and pages of
      [osd/enumeration.rs].  The order of objects is total, ranges split
      without overlap, and backoffs and cursors survive the wire.
    - OsdMessages, OsdMetadata, OsdWatch, OsdCommand: [osd/messages.rs],
      [osd/metadata.rs] with [osd/special.rs], [osd/watch.rs] with
      [osd/lock.rs], [osd/command.rs] with [osd/inconsistent.rs].  OpBuilder:
      [operation.rs].
    - OsdClient, OsdSession, OsdExecute: [osd/client.rs]: the accounting of
      mutations and the table of sessions, a session with its backoffs and
      submissions, and the execution of operations.  OsdExecuteProps: for
      which target every request is sent and to whom, what a success stands on,
      from the caller's target and the map to the reply on the wire, and when
      an operation may be sent again.  Its client runs also over the sessions
      of OsdSession ([with_sessions], [played]), where lemmas show the ways in
      which an unknown outcome is lost.
    - MonMessages: [mon/messages.rs].  MonClient: the owner task of
      [mon/client.rs], with MonMessages, the map decoders and Incremental.
      MonClientProps, MonClientTheorems: its invariant over all runs (maps
      never go back, one cluster, no panic, callers are shown the owner's
      state), the account of its callers' requests, answers only from matching
      replies, and that its OSD map is reached from the newest full map, or the
      map it had, by consecutive incrementals.
    - Seeds, SeedsProps: [mon/seeds.rs].  The endpoints resolved are distinct,
      bounded and carry the entity address of what is dialled.
    - Manager, ManagerProps: [mgr/messages.rs] and [mgr/client.rs].  A command
      is sent under one number and not again after an unknown outcome, and no
      session is left behind.
    - Opening: the session factories of the three clients.  No session works
      on a connection that has not passed its handshake.

    ** Fuel

    Loops that are not structural take fuel, and theorems show it is enough.
    [visit_bucket] has the 64 levels its depth check allows
    ([validate_graph_correct]).  The choosers of CrushPlace have 65 steps per
    try, one more than the depth of a well-formed map, and [place_outcome]
    shows that running out does not happen.  [transaction_loop] has one step
    more than there are transactions in use ([transaction_first_free]).  Runs
    of the session and of the monitor owner are lists of inputs of any length.
    The rounds of the supervisor's owner end ([owner_rounds_end]).  Loops that
    wait, for a reply, a deadline or a random number in range, may run as long
    as the environment lets them: they stop as [StillRunning] when the fuel
    ends, and their theorems hold for every amount of it.

    ** Not modelled

    Sockets, timers, channels and the spawning and joining of tasks, which are
    the environment of the programs.  The polling loops of the monitor
    client's callers.  The public interface ([client.rs] and the types it
    shows), which passes its arguments on to the parts above.  Tests and
    integration drivers. *)

From Stdlib Require Import ZArith Lia Strings.Byte.
From stdpp Require Import base option list gmap sorting numbers.

Open Scope Z_scope.

(** ** Results *)

(** Rust's [Result<A, E>]. *)
Inductive result (E A : Type) : Type :=
| Ok (a : A)
| Err (e : E).
Arguments Ok {E A} a.
Arguments Err {E A} e.

#[export] Instance result_ret {E} : MRet (result E) := fun A a => Ok a.
#[export] Instance result_bind {E} : MBind (result E) := fun A B f r =>
  match r with
  | Ok a => f a
  | Err e => Err e
  end.
#[export] Instance result_fmap {E} : FMap (result E) := fun A B f r =>
  match r with
  | Ok a => Ok (f a)
  | Err e => Err e
  end.

(** [Result::map_err]. *)
Definition map_err {E F A} (f : E -> F) (r : result E A) : result F A :=
  match r with
  | Ok a => Ok a
  | Err e => Err (f e)
  end.

(** [Option::ok_or]. *)
Definition ok_or {E A} (o : option A) (e : E) : result E A :=
  match o with
  | Some a => Ok a
  | None => Err e
  end.

Definition is_ok {E A} (r : result E A) : bool :=
  match r with Ok _ => true | Err _ => false end.

(** ** State and failure

    A method on [&mut self] that may return early: what it did to the state
    before an error remains done. *)
Definition St (S E A : Type) : Type := S -> result E A * S.

#[export] Instance St_ret {S E} : MRet (St S E) := fun A a s => (Ok a, s).
#[export] Instance St_bind {S E} : MBind (St S E) := fun A B f m s =>
  match m s with
  | (Ok a, s) => f a s
  | (Err e, s) => (Err e, s)
  end.

(** A fallible step that leaves the state alone. *)
Definition st_lift {S E A} (r : result E A) : St S E A := fun s => (r, s).

(** A fallible step that looks at the state. *)
Definition st_gets {S E A} (f : S -> result E A) : St S E A := fun s => (f s, s).

(** [if cond { return Err(e) }]. *)
Definition st_fail_if {S E} (cond : bool) (e : E) : St S E unit :=
  st_lift (if cond then Err e else Ok tt).

(** ** Machine integers

    A [w]-bit unsigned integer is a [Z] in [0 <= z < 2 ^ w]; a signed one is a
    [Z] in [- 2 ^ (w - 1) <= z < 2 ^ (w - 1)].  [usize] is 64 bits wide. *)
Definition wrap (w z : Z) : Z := z mod 2 ^ w.
Definition swrap (w z : Z) : Z :=
  let m := z mod 2 ^ w in if m <? 2 ^ (w - 1) then m else m - 2 ^ w.

Definition in_u (w z : Z) : Prop := 0 <= z < 2 ^ w.
Definition in_i (w z : Z) : Prop := - 2 ^ (w - 1) <= z < 2 ^ (w - 1).

Definition u32_max : Z := 4294967295.
Definition u64_max : Z := 18446744073709551615.
Definition i32_max : Z := 2147483647.

(** [checked_add] at width [w]. *)
Definition checked_add (w a b : Z) : option Z :=
  if a + b <? 2 ^ w then Some (a + b) else None.

(** [saturating_sub]. *)
Definition saturating_sub (a b : Z) : Z := Z.max 0 (a - b).

(** [try_from] into an unsigned type of width [w]. *)
Definition try_u (w z : Z) : option Z :=
  if (0 <=? z) && (z <? 2 ^ w) then Some z else None.

(** [checked_mul] of values that are not negative, at width [w]. *)
Definition checked_mul (w a b : Z) : option Z := if a * b <? 2 ^ w then Some (a * b) else None.

(** [len()] of a slice, as a [usize]. *)
Definition zlen {A} (l : list A) : Z := Z.of_nat (length l).

(** [slice.get(i)] for a [usize] index. *)
Definition zget {A} (l : list A) (i : Z) : option A :=
  if i <? 0 then None else l !! Z.to_nat i.

(** ** Bytes *)

#[export] Instance byte_eq_dec : EqDecision byte := Byte.byte_eq_dec.

Definition Z_of_byte (b : byte) : Z := Z.of_N (Byte.to_N b).
Definition byte_of_Z (z : Z) : byte :=
  match Byte.of_N (Z.to_N (z mod 256)) with
  | Some b => b
  | None => x00
  end.

(** [to_le_bytes] of an integer [n] bytes wide, and [from_le_bytes]. *)
Fixpoint le_bytes (n : nat) (z : Z) : list byte :=
  match n with
  | O => []
  | S n => byte_of_Z z :: le_bytes n (z / 256)
  end.

Fixpoint le_value (l : list byte) : Z :=
  match l with
  | [] => 0
  | b :: l => Z_of_byte b + 256 * le_value l
  end.

(** [to_be_bytes] and [from_be_bytes]. *)
Definition be_bytes (n : nat) (z : Z) : list byte := rev (le_bytes n z).
Definition be_value (l : list byte) : Z := le_value (rev l).

(** ** Generic lemmas *)

Lemma bind_Ok {E A B} (a : A) (f : A -> result E B) : (Ok a ≫= f) = f a.
Proof. reflexivity. Qed.

Lemma ok_or_Some {E A} (a : A) (e : E) : ok_or (Some a) e = Ok a.
Proof. reflexivity. Qed.

Lemma Ok_inj {E A} (a b : A) : @Ok E A a = Ok b -> a = b.
Proof. congruence. Qed.

Lemma bind_inv {E A B} (r : result E A) (f : A -> result E B) b :
  (r ≫= f) = Ok b -> exists a, r = Ok a /\ f a = Ok b.
Proof. destruct r as [a|e]; [|done]. intros H. by exists a. Qed.

Lemma St_bind_Ok {S E A B} (m : St S E A) (k : A -> St S E B) s a s' :
  m s = (Ok a, s') -> (m ≫= k) s = k a s'.
Proof. intros H. unfold mbind, St_bind. by rewrite H. Qed.

Lemma St_bind_inv {S E A B} (m : St S E A) (k : A -> St S E B) s b s' :
  (m ≫= k) s = (Ok b, s') -> exists a s1, m s = (Ok a, s1) /\ k a s1 = (Ok b, s').
Proof. unfold mbind, St_bind. destruct (m s) as [[a|e] s1]; [|done]. intros H. by exists a, s1. Qed.

Lemma st_lift_Ok {S E A B} (r : result E A) (k : A -> St S E B) s a :
  r = Ok a -> (st_lift r ≫= k) s = k a s.
Proof. by intros ->. Qed.

Lemma st_fail_if_false {S E B} c (e : E) (k : unit -> St S E B) s :
  c = false -> (st_fail_if c e ≫= k) s = k tt s.
Proof. by intros ->. Qed.

Lemma zlen_nonneg {A} (l : list A) : 0 <= zlen l.
Proof. unfold zlen. lia. Qed.

Lemma zlen_app {A} (l k : list A) : zlen (l ++ k) = zlen l + zlen k.
Proof. unfold zlen. rewrite length_app. lia. Qed.

Lemma zlen_nil {A} : zlen (@nil A) = 0.
Proof. reflexivity. Qed.

Lemma zlen_cons {A} (x : A) l : zlen (x :: l) = 1 + zlen l.
Proof. unfold zlen. simpl length. lia. Qed.

Lemma zlen_0_nil {A} (l : list A) : zlen l = 0 -> l = [].
Proof. destruct l; [done|]. rewrite zlen_cons. pose proof (zlen_nonneg l). lia. Qed.

Lemma wrap_range w z : 0 <= w -> in_u w (wrap w z).
Proof. intros. unfold in_u, wrap. apply Z.mod_pos_bound. lia. Qed.

Lemma wrap_id w z : in_u w z -> wrap w z = z.
Proof. unfold in_u, wrap. intros. by apply Z.mod_small. Qed.

Lemma swrap_id w z : 0 < w -> in_i w z -> swrap w z = z.
Proof.
  unfold in_i, swrap. intros Hw Hz.
  assert (2 ^ w = 2 * 2 ^ (w - 1)) as E.
  { rewrite <- Z.pow_succ_r by lia. f_equal. lia. }
  destruct (Z.ltb_spec z 0).
  - assert (z mod 2 ^ w = z + 2 ^ w) as ->.
    { rewrite <- (Z.mod_small (z + 2 ^ w) (2 ^ w)) by lia.
      rewrite <- (Z.mul_1_l (2 ^ w)) at 2. by rewrite Z.mod_add by lia. }
    destruct (Z.ltb_spec (z + 2 ^ w) (2 ^ (w - 1))); lia.
  - rewrite Z.mod_small by lia. destruct (Z.ltb_spec z (2 ^ (w - 1))); lia.
Qed.

Lemma swrap_range w z : 0 < w -> in_i w (swrap w z).
Proof.
  unfold in_i, swrap. intros Hw.
  assert (2 ^ w = 2 * 2 ^ (w - 1)) as E.
  { rewrite <- Z.pow_succ_r by lia. f_equal. lia. }
  pose proof (Z.mod_pos_bound z (2 ^ w)).
  destruct (Z.ltb_spec (z mod 2 ^ w) (2 ^ (w - 1))); lia.
Qed.

Lemma swrap_wrap w z : 0 < w -> swrap w (wrap w z) = swrap w z.
Proof. intros. unfold swrap, wrap. rewrite Z.mod_mod by lia. done. Qed.

Lemma lxor_range w a b : 0 <= w -> in_u w a -> in_u w b -> in_u w (Z.lxor a b).
Proof.
  unfold in_u. intros Hw [Ha Ha'] [Hb Hb']. split; [by apply Z.lxor_nonneg|].
  destruct (Z.eq_dec (Z.lxor a b) 0) as [->|Hn]; [by apply Z.pow_pos_nonneg|].
  apply Z.log2_lt_pow2; [pose proof (proj2 (Z.lxor_nonneg a b)); lia|].
  pose proof (Z.log2_lxor a b Ha Hb).
  assert (forall x, 0 <= x -> x < 2 ^ w -> x <> 0 -> Z.log2 x < w) as HL.
  { intros. apply Z.log2_lt_pow2; lia. }
  destruct (Z.eq_dec a 0) as [->|Na], (Z.eq_dec b 0) as [->|Nb].
  - done.
  - rewrite Z.lxor_0_l in *. by apply HL.
  - rewrite Z.lxor_0_r in *. by apply HL.
  - specialize (HL a Ha Ha' Na) as La. specialize (HL b Hb Hb' Nb) as Lb. lia.
Qed.

Lemma shiftr_range w a n : 0 <= n -> in_u w a -> in_u w (Z.shiftr a n).
Proof.
  unfold in_u. intros Hn [Ha Ha']. rewrite Z.shiftr_div_pow2 by done.
  pose proof (Z.pow_pos_nonneg 2 n). split; [by apply Z.div_pos; lia|].
  apply Z.le_lt_trans with a; [|done]. apply Z.div_le_upper_bound; nia.
Qed.

Lemma Z_of_byte_range b : 0 <= Z_of_byte b < 256.
Proof.
  unfold Z_of_byte. pose proof (Byte.to_N_bounded b). lia.
Qed.

Lemma Z_of_byte_of_Z z : Z_of_byte (byte_of_Z z) = z mod 256.
Proof.
  unfold Z_of_byte, byte_of_Z.
  pose proof (Z.mod_pos_bound z 256).
  destruct (Byte.of_N (Z.to_N (z mod 256))) as [b|] eqn:E.
  - apply Byte.to_of_N in E. rewrite E. lia.
  - apply Byte.of_N_None_iff in E. lia.
Qed.

Lemma byte_of_Z_of_byte b : byte_of_Z (Z_of_byte b) = b.
Proof.
  unfold byte_of_Z. rewrite Z.mod_small by apply Z_of_byte_range.
  unfold Z_of_byte. rewrite N2Z.id, Byte.of_to_N. done.
Qed.

Lemma Z_of_byte_inj b c : Z_of_byte b = Z_of_byte c -> b = c.
Proof. intros H. by rewrite <- (byte_of_Z_of_byte b), H, byte_of_Z_of_byte. Qed.

Lemma length_le_bytes n z : length (le_bytes n z) = n.
Proof. revert z. induction n; simpl; auto. Qed.

Lemma le_value_bytes n z : le_value (le_bytes n z) = z mod 2 ^ (8 * Z.of_nat n).
Proof.
  revert z. induction n as [|n IH]; intros z; cbn [le_bytes le_value].
  - by rewrite Z.mul_0_r, Z.pow_0_r, Z.mod_1_r.
  - rewrite IH, Z_of_byte_of_Z.
    replace (8 * Z.of_nat (S n)) with (8 + 8 * Z.of_nat n) by lia.
    rewrite Z.pow_add_r by lia. change (2 ^ 8) with 256.
    rewrite Z.rem_mul_r by lia. lia.
Qed.

Lemma le_value_range l : 0 <= le_value l < 2 ^ (8 * zlen l).
Proof.
  induction l as [|b l IH]; cbn [le_value].
  - done.
  - rewrite zlen_cons. replace (8 * (1 + zlen l)) with (8 + 8 * zlen l) by lia.
    pose proof (zlen_nonneg l). rewrite Z.pow_add_r by lia. change (2 ^ 8) with 256.
    pose proof (Z_of_byte_range b). lia.
Qed.

Lemma le_bytes_value l : le_bytes (length l) (le_value l) = l.
Proof.
  induction l as [|b l IH]; [done|]. cbn [length le_value le_bytes].
  pose proof (Z_of_byte_range b).
  assert (byte_of_Z (Z_of_byte b + 256 * le_value l) = b) as ->.
  { apply Z_of_byte_inj. rewrite Z_of_byte_of_Z, Z.mul_comm, Z.mod_add by lia.
    by apply Z.mod_small. }
  assert ((Z_of_byte b + 256 * le_value l) / 256 = le_value l) as ->.
  { rewrite Z.mul_comm, Z.div_add by lia. rewrite Z.div_small by lia. lia. }
  by rewrite IH.
Qed.

Lemma zlen_le_bytes n z : zlen (le_bytes n z) = Z.of_nat n.
Proof. unfold zlen. by rewrite length_le_bytes. Qed.

#[global] Arguments le_bytes : simpl never.
#[global] Arguments le_value : simpl never.

(** ** Automation *)

Create HintDb rados.
#[export] Hint Resolve zlen_nonneg Z_of_byte_range wrap_range lxor_range shiftr_range : rados.

Create Rewrite HintDb zlen.
#[export] Hint Rewrite @zlen_app @zlen_nil @zlen_cons zlen_le_bytes : zlen.

(** Splits the conditionals and matches of the hypotheses and the goal, and
    closes the branches that are contradictory. *)
Ltac split_if :=
  repeat match goal with
  | H : context [if ?b then _ else _] |- _ => destruct b eqn:?; try discriminate
  | |- context [if ?b then _ else _] => destruct b eqn:?; try discriminate
  end.

(** Turns boolean tests of [Z] and of [bool] into propositions. *)
Ltac bool_prop :=
  repeat match goal with
  | H : (_ && _)%bool = true |- _ => apply andb_prop in H; destruct H
  | H : (_ || _)%bool = false |- _ => apply orb_false_elim in H; destruct H
  | H : negb _ = true |- _ => apply negb_true_iff in H
  | H : negb _ = false |- _ => apply negb_false_iff in H
  | H : (_ <? _) = true |- _ => apply Z.ltb_lt in H
  | H : (_ <? _) = false |- _ => apply Z.ltb_ge in H
  | H : (_ <=? _) = true |- _ => apply Z.leb_le in H
  | H : (_ <=? _) = false |- _ => apply Z.leb_gt in H
  | H : (_ =? _) = true |- _ => apply Z.eqb_eq in H
  | H : (_ =? _) = false |- _ => apply Z.eqb_neq in H
  | H : bool_decide _ = true |- _ => apply bool_decide_eq_true in H
  | H : bool_decide _ = false |- _ => apply bool_decide_eq_false in H
  end.

(** Takes a successful chain of results apart. *)
Ltac ok_inv :=
  repeat match goal with
  | H : (_ ≫= _) = Ok _ |- _ =>
      let a := fresh "a" in let R := fresh "R" in apply bind_inv in H as (a & R & H)
  | H : Ok _ = Ok _ |- _ => apply Ok_inj in H
  | H : Err _ = Ok _ |- _ => discriminate H
  | H : (let '(_, _) := ?p in _) = Ok _ |- _ => is_var p; destruct p
  | H : (_, _) = (_, _) |- _ => apply pair_equal_spec in H; destruct H
  end.

Lemma try_u_inv w z v : try_u w z = Some v -> v = z /\ in_u w z.
Proof. unfold try_u, in_u. destruct (_ && _) eqn:E; [|done]. intros [= <-]. bool_prop. lia. Qed.

Lemma map_err_inv {E F A} (f : E -> F) (r : result E A) a : map_err f r = Ok a -> r = Ok a.
Proof. destruct r; cbn; [by intros [= ->]|done]. Qed.

Lemma ok_or_inv {E A} (o : option A) (e : E) a : ok_or o e = Ok a -> o = Some a.
Proof. destruct o; by intros [= ->]. Qed.
