(* ===== verification/Codec.v ===== *)
(** * The bounded little-endian codec (src/wire/codec.rs)

    [Encoder] appends to a byte vector up to a limit and remembers its first
    failure; [Decoder] reads a slice through an offset, answers zeros once it
    has failed, and bounds every length prefix by [max_bytes].  Every other
    format of the client is built from these operations, so the file ends with
    the interface its clients are verified against: a class [WireFormat] of a
    writer, a reader and the bytes that relate them, one instance per
    primitive. *)

From S2P Require Import Prelude.
From Stdlib Require Import ZArith Lia Strings.Byte.
From stdpp Require Import base option list numbers.

Open Scope Z_scope.

(** ** Errors *)

Inductive WireError : Type :=
| LimitExceeded
| Malformed
| UnsupportedVersion (local required : Z).

#[export] Instance WireError_eq_dec : EqDecision WireError.
Proof. solve_decision. Defined.

(** ** Encoder *)

Record Encoder : Type := mkEncoder {
  enc_bytes : list byte;
  enc_limit : Z;
  enc_error : option WireError
}.

Definition Encoder_new (limit : Z) : Encoder := mkEncoder [] limit None.

Definition Encoder_fail (e : Encoder) (err : WireError) : Encoder :=
  mkEncoder (enc_bytes e) (enc_limit e) (Some err).

Definition Encoder_reserve (e : Encoder) (len : Z) : bool * Encoder :=
  match enc_error e with
  | Some _ => (false, e)
  | None =>
      if saturating_sub (enc_limit e) (zlen (enc_bytes e)) <? len
      then (false, Encoder_fail e LimitExceeded)
      else (true, e)
  end.

Definition Encoder_raw (e : Encoder) (value : list byte) : Encoder :=
  let '(granted, e) := Encoder_reserve e (zlen value) in
  if granted
  then mkEncoder (enc_bytes e ++ value) (enc_limit e) (enc_error e)
  else e.

Definition Encoder_u8 (e : Encoder) (v : Z) : Encoder := Encoder_raw e (le_bytes 1 v).
Definition Encoder_u16 (e : Encoder) (v : Z) : Encoder := Encoder_raw e (le_bytes 2 v).
Definition Encoder_u32 (e : Encoder) (v : Z) : Encoder := Encoder_raw e (le_bytes 4 v).
Definition Encoder_u64 (e : Encoder) (v : Z) : Encoder := Encoder_raw e (le_bytes 8 v).
Definition Encoder_i8 (e : Encoder) (v : Z) : Encoder := Encoder_raw e (le_bytes 1 v).
Definition Encoder_i16 (e : Encoder) (v : Z) : Encoder := Encoder_raw e (le_bytes 2 v).
Definition Encoder_i32 (e : Encoder) (v : Z) : Encoder := Encoder_raw e (le_bytes 4 v).
Definition Encoder_i64 (e : Encoder) (v : Z) : Encoder := Encoder_raw e (le_bytes 8 v).

Definition Encoder_bool (e : Encoder) (v : bool) : Encoder :=
  Encoder_u8 e (if v then 1 else 0).

Definition Encoder_bytes (e : Encoder) (value : list byte) : Encoder :=
  match try_u 32 (zlen value) with
  | None => Encoder_fail e LimitExceeded
  | Some len => Encoder_raw (Encoder_u32 e len) value
  end.

Definition Encoder_finish (e : Encoder) : result WireError (list byte) :=
  match enc_error e with
  | Some err => Err err
  | None => Ok (enc_bytes e)
  end.

Definition Encoder_versioned (e : Encoder) (version compatible : Z)
    (encode : Encoder -> Encoder) : Encoder :=
  let payload := encode (Encoder_new (Z.min (enc_limit e) u32_max)) in
  match Encoder_finish payload with
  | Err _ => Encoder_fail e LimitExceeded
  | Ok payload =>
      match try_u 32 (zlen payload) with
      | None => Encoder_fail e LimitExceeded
      | Some len =>
          Encoder_raw (Encoder_u32 (Encoder_u8 (Encoder_u8 e version) compatible) len)
            payload
      end
  end.

(** ** Decoder *)

Record Decoder : Type := mkDecoder {
  dec_bytes : list byte;
  dec_offset : Z;
  dec_max_bytes : Z;
  dec_error : option WireError
}.

Definition Decoder_new (bytes : list byte) (max_bytes : Z) : Decoder :=
  mkDecoder bytes 0 max_bytes None.

Definition Decoder_fail (d : Decoder) (err : WireError) : Decoder :=
  mkDecoder (dec_bytes d) (dec_offset d) (dec_max_bytes d) (Some err).

(** [self.error.get_or_insert(err)]. *)
Definition Decoder_fail_once (d : Decoder) (err : WireError) : Decoder :=
  match dec_error d with
  | Some _ => d
  | None => Decoder_fail d err
  end.

Definition Decoder_remaining (d : Decoder) : Z :=
  saturating_sub (zlen (dec_bytes d)) (dec_offset d).

Definition Decoder_take (d : Decoder) (len : Z) : list byte * Decoder :=
  if bool_decide (is_Some (dec_error d))
     || (saturating_sub (zlen (dec_bytes d)) (dec_offset d) <? len)
  then ([], Decoder_fail_once d Malformed)
  else
    (take (Z.to_nat len) (drop (Z.to_nat (dec_offset d)) (dec_bytes d)),
     mkDecoder (dec_bytes d) (dec_offset d + len) (dec_max_bytes d) (dec_error d)).

Definition Decoder_raw (d : Decoder) (len : Z) : list byte * Decoder :=
  Decoder_take d len.

(** [u8::from_le_bytes] of what [take] gave, zero where it gave nothing. *)
Definition Decoder_uint (n : nat) (d : Decoder) : Z * Decoder :=
  let '(data, d) := Decoder_take d (Z.of_nat n) in
  (if (length data =? n)%nat then le_value data else 0, d).

Definition Decoder_u8 : Decoder -> Z * Decoder := Decoder_uint 1.
Definition Decoder_u16 : Decoder -> Z * Decoder := Decoder_uint 2.
Definition Decoder_u32 : Decoder -> Z * Decoder := Decoder_uint 4.
Definition Decoder_u64 : Decoder -> Z * Decoder := Decoder_uint 8.

(** [iN::from_le_bytes] of the unsigned value's bytes. *)
Definition Decoder_i8 (d : Decoder) : Z * Decoder :=
  let '(v, d) := Decoder_u8 d in (swrap 8 v, d).
Definition Decoder_i16 (d : Decoder) : Z * Decoder :=
  let '(v, d) := Decoder_u16 d in (swrap 16 v, d).
Definition Decoder_i32 (d : Decoder) : Z * Decoder :=
  let '(v, d) := Decoder_u32 d in (swrap 32 v, d).
Definition Decoder_i64 (d : Decoder) : Z * Decoder :=
  let '(v, d) := Decoder_u64 d in (swrap 64 v, d).

Definition Decoder_bool (d : Decoder) : bool * Decoder :=
  let '(v, d) := Decoder_u8 d in (negb (v =? 0), d).

Definition Decoder_bytes (d : Decoder) : list byte * Decoder :=
  let '(len, d) := Decoder_u32 d in
  match dec_error d with
  | Some _ => ([], d)
  | None =>
      if dec_max_bytes d <? len
      then ([], Decoder_fail d LimitExceeded)
      else Decoder_raw d len
  end.

Definition Decoder_versioned (d : Decoder) (local : Z) : (Z * Decoder) * Decoder :=
  let '(version, d) := Decoder_u8 d in
  let '(compatible, d) := Decoder_u8 d in
  let '(len, d) := Decoder_u32 d in
  let nothing := (0, Decoder_new [] (dec_max_bytes d)) in
  match dec_error d with
  | Some _ => (nothing, d)
  | None =>
      if local <? compatible
      then (nothing, Decoder_fail d (UnsupportedVersion local compatible))
      else if dec_max_bytes d <? len
      then (nothing, Decoder_fail d LimitExceeded)
      else
        let '(payload, d) := Decoder_take d len in
        ((version, Decoder_new payload (dec_max_bytes d)), d)
  end.

Definition Decoder_finish (d : Decoder) : result WireError unit :=
  match dec_error d with
  | Some err => Err err
  | None => Ok tt
  end.

(** ** The decoding monad

    A decoding function of the client takes [&mut Decoder] and may return
    early with an error of its own type; after an error the decoder is not
    read again, so an error carries no decoder. *)
Definition DM (E A : Type) : Type := Decoder -> result E (A * Decoder).

#[export] Instance DM_ret {E} : MRet (DM E) := fun A a d => Ok (a, d).
#[export] Instance DM_bind {E} : MBind (DM E) := fun A B f m d =>
  match m d with
  | Ok (a, d) => f a d
  | Err e => Err e
  end.

(** A read that cannot return early. *)
Definition rd {E A} (read : Decoder -> A * Decoder) : DM E A := fun d => Ok (read d).

(** [return Err(e)]. *)
Definition throw {E A} (e : E) : DM E A := fun _ => Err e.

(** [if cond { return Err(e) }]. *)
Definition throw_if {E} (cond : bool) (e : E) : DM E unit :=
  if cond then throw e else mret tt.

(** [decoder.finish()?] under the caller's error conversion. *)
Definition finish_with {E} (conv : WireError -> E) : DM E unit := fun d =>
  match Decoder_finish d with
  | Ok _ => Ok (tt, d)
  | Err e => Err (conv e)
  end.

Definition remaining {E} : DM E Z := fun d => Ok (Decoder_remaining d, d).

(** [for _ in 0..n { values.push(read) }]. *)
Fixpoint repeat_read {E A} (n : nat) (m : DM E A) : DM E (list A) :=
  match n with
  | O => mret []
  | S n => a ← m; l ← repeat_read n m; mret (a :: l)
  end.

(** Inversion of the monad's operations. *)
Lemma DM_bind_inv {E A B} (m : DM E A) (f : A -> DM E B) d b d' :
  (m ≫= f) d = Ok (b, d') -> exists a d1, m d = Ok (a, d1) /\ f a d1 = Ok (b, d').
Proof.
  unfold mbind, DM_bind. destruct (m d) as [[a d1]|e]; [|done]. intros H. by exists a, d1.
Qed.

Lemma DM_ret_inv {E A} (a b : A) d d' : (mret a : DM E A) d = Ok (b, d') -> b = a /\ d' = d.
Proof. unfold mret, DM_ret. intros H. by simplify_eq. Qed.

Lemma rd_inv {E A} (read : Decoder -> A * Decoder) d a d' :
  (rd read : DM E A) d = Ok (a, d') -> read d = (a, d').
Proof. unfold rd. intros H. by simplify_eq. Qed.

Lemma throw_if_inv {E} c (e : E) d u d' : throw_if c e d = Ok (u, d') -> c = false /\ d' = d.
Proof. unfold throw_if. destruct c; [done|]. intros H. by apply DM_ret_inv in H as [_ ->]. Qed.

(** Takes a successful run of a monadic decoder apart, step by step. *)
Ltac dm_inv :=
  repeat match goal with
  | H : (_ ≫= _) _ = Ok (_, _) |- _ =>
      let a := fresh "v" in let d1 := fresh "d" in let H1 := fresh "R" in
      apply DM_bind_inv in H as (a & d1 & H1 & H)
  | H : mret _ _ = Ok (_, _) |- _ => apply DM_ret_inv in H as [? ->]; simplify_eq
  | H : rd _ _ = Ok (_, _) |- _ => apply rd_inv in H
  | H : throw_if _ _ _ = Ok (_, _) |- _ => apply throw_if_inv in H as [? ->]
  | H : (let '(_, _) := ?p in _) _ = Ok (_, _) |- _ => is_var p; destruct p
  end.

Lemma repeat_read_length {E A} n (m : DM E A) d l d' :
  repeat_read n m d = Ok (l, d') -> length l = n.
Proof.
  revert d l d'. induction n as [|n IH]; intros d l d' H; cbn [repeat_read] in H; dm_inv; [done|].
  simpl. f_equal. eauto.
Qed.

(** ** What a writer and a reader do when nothing fails *)

(** [e] after appending [p]. *)
Definition written (e : Encoder) (p : list byte) : Encoder :=
  mkEncoder (enc_bytes e ++ p) (enc_limit e) (enc_error e).

(** [e] has not failed and has room for [p]. *)
Definition fits (e : Encoder) (p : list byte) : Prop :=
  enc_error e = None /\ zlen (enc_bytes e) + zlen p <= enc_limit e.

(** [d] after consuming [n] bytes. *)
Definition advanced (d : Decoder) (n : Z) : Decoder :=
  mkDecoder (dec_bytes d) (dec_offset d + n) (dec_max_bytes d) (dec_error d).

(** [d] has not failed and its unread bytes are [p]. *)
Definition unread (d : Decoder) (p : list byte) : Prop :=
  dec_error d = None /\ 0 <= dec_offset d
  /\ drop (Z.to_nat (dec_offset d)) (dec_bytes d) = p.

(** The contract of one wire format: [put] appends [image a], and [get] reads
    it back whatever follows it. [valid] restricts the values that have an
    encoding, [bounded] what a decoder of a given [max_bytes] accepts. *)
Class WireFormat {A} (put : Encoder -> A -> Encoder) (get : Decoder -> A * Decoder)
    (image : A -> list byte) (valid : A -> Prop) (bounded : Z -> A -> Prop) : Prop := {
  put_image e a : valid a -> fits e (image a) -> put e a = written e (image a);
  get_image d a rest :
    valid a -> bounded (dec_max_bytes d) a -> unread d (image a ++ rest) ->
    get d = (a, advanced d (zlen (image a)))
}.

(** A value of one of the primitive formats. *)
Inductive Field : Type :=
| F_u8 (v : Z) | F_u16 (v : Z) | F_u32 (v : Z) | F_u64 (v : Z)
| F_i8 (v : Z) | F_i16 (v : Z) | F_i32 (v : Z) | F_i64 (v : Z)
| F_bool (v : bool)
| F_bytes (v : list byte).

Definition put_field (e : Encoder) (f : Field) : Encoder :=
  match f with
  | F_u8 v => Encoder_u8 e v | F_u16 v => Encoder_u16 e v
  | F_u32 v => Encoder_u32 e v | F_u64 v => Encoder_u64 e v
  | F_i8 v => Encoder_i8 e v | F_i16 v => Encoder_i16 e v
  | F_i32 v => Encoder_i32 e v | F_i64 v => Encoder_i64 e v
  | F_bool v => Encoder_bool e v
  | F_bytes v => Encoder_bytes e v
  end.

(** Reads a field of the same format as [f]. *)
Definition get_field (f : Field) (d : Decoder) : Field * Decoder :=
  match f with
  | F_u8 _ => let '(v, d) := Decoder_u8 d in (F_u8 v, d)
  | F_u16 _ => let '(v, d) := Decoder_u16 d in (F_u16 v, d)
  | F_u32 _ => let '(v, d) := Decoder_u32 d in (F_u32 v, d)
  | F_u64 _ => let '(v, d) := Decoder_u64 d in (F_u64 v, d)
  | F_i8 _ => let '(v, d) := Decoder_i8 d in (F_i8 v, d)
  | F_i16 _ => let '(v, d) := Decoder_i16 d in (F_i16 v, d)
  | F_i32 _ => let '(v, d) := Decoder_i32 d in (F_i32 v, d)
  | F_i64 _ => let '(v, d) := Decoder_i64 d in (F_i64 v, d)
  | F_bool _ => let '(v, d) := Decoder_bool d in (F_bool v, d)
  | F_bytes _ => let '(v, d) := Decoder_bytes d in (F_bytes v, d)
  end.

Definition put_fields (e : Encoder) (fs : list Field) : Encoder :=
  fold_left put_field fs e.

Fixpoint get_fields (fs : list Field) (d : Decoder) : list Field * Decoder :=
  match fs with
  | [] => ([], d)
  | f :: fs =>
      let '(f, d) := get_field f d in
      let '(fs, d) := get_fields fs d in (f :: fs, d)
  end.

Definition field_image (f : Field) : list byte :=
  match f with
  | F_u8 v | F_i8 v => le_bytes 1 v
  | F_u16 v | F_i16 v => le_bytes 2 v
  | F_u32 v | F_i32 v => le_bytes 4 v
  | F_u64 v | F_i64 v => le_bytes 8 v
  | F_bool v => le_bytes 1 (if v then 1 else 0)
  | F_bytes v => le_bytes 4 (zlen v) ++ v
  end.

(** The value is in the range of its Rust type. *)
Definition field_valid (f : Field) : Prop :=
  match f with
  | F_u8 v => in_u 8 v | F_u16 v => in_u 16 v | F_u32 v => in_u 32 v | F_u64 v => in_u 64 v
  | F_i8 v => in_i 8 v | F_i16 v => in_i 16 v | F_i32 v => in_i 32 v | F_i64 v => in_i 64 v
  | F_bool _ => True
  | F_bytes v => in_u 32 (zlen v)
  end.

Definition field_bounded (max : Z) (f : Field) : Prop :=
  match f with
  | F_bytes v => zlen v <= max
  | _ => True
  end.

(** ** Lemmas on single operations *)

Lemma fits_app e p q : fits e (p ++ q) -> fits e p /\ fits (written e p) q.
Proof.
  unfold fits, written. simpl. autorewrite with zlen.
  pose proof (zlen_nonneg q). intuition lia.
Qed.

Lemma written_app e p q : written (written e p) q = written e (p ++ q).
Proof. unfold written. simpl. by rewrite app_assoc. Qed.

Lemma Encoder_raw_fits e p : fits e p -> Encoder_raw e p = written e p.
Proof.
  intros [He Hl]. unfold Encoder_raw, Encoder_reserve, saturating_sub.
  rewrite He. destruct (Z.ltb_spec (Z.max 0 (enc_limit e - zlen (enc_bytes e))) (zlen p)).
  - pose proof (zlen_nonneg p). lia.
  - done.
Qed.

Lemma Encoder_raw_overflow e p :
  enc_error e = None -> zlen (enc_bytes e) <= enc_limit e ->
  enc_limit e < zlen (enc_bytes e) + zlen p ->
  Encoder_raw e p = Encoder_fail e LimitExceeded.
Proof.
  intros He Hb Hl. unfold Encoder_raw, Encoder_reserve, saturating_sub. rewrite He.
  destruct (Z.ltb_spec (Z.max 0 (enc_limit e - zlen (enc_bytes e))) (zlen p)); [done|lia].
Qed.

Lemma Encoder_raw_failed e p : enc_error e <> None -> Encoder_raw e p = e.
Proof.
  intros He. unfold Encoder_raw, Encoder_reserve. by destruct (enc_error e).
Qed.

Lemma unread_app d p q :
  unread d (p ++ q) -> unread (advanced d (zlen p)) q.
Proof.
  intros (He & Ho & Hd). unfold unread, advanced. simpl.
  pose proof (zlen_nonneg p). split_and!; [done|lia|].
  rewrite Z2Nat.inj_add by lia. rewrite <- drop_drop, Hd.
  unfold zlen. rewrite Nat2Z.id. by rewrite drop_app_length.
Qed.

Lemma unread_remaining d p : unread d p -> Decoder_remaining d = zlen p.
Proof.
  intros (He & Ho & Hd). unfold Decoder_remaining, saturating_sub, zlen.
  rewrite <- Hd, length_drop. lia.
Qed.

Lemma Decoder_take_unread d p q :
  unread d (p ++ q) -> Decoder_take d (zlen p) = (p, advanced d (zlen p)).
Proof.
  intros Hu. pose proof (unread_remaining _ _ Hu) as Hr. destruct Hu as (He & Ho & Hd).
  unfold Decoder_take. unfold Decoder_remaining in Hr. rewrite Hr, He. simpl.
  autorewrite with zlen in *. pose proof (zlen_nonneg q).
  destruct (Z.ltb_spec (zlen p + zlen q) (zlen p)); [lia|].
  rewrite Hd. unfold zlen at 1. rewrite Nat2Z.id, take_app_length.
  unfold advanced. by rewrite He.
Qed.

Lemma Decoder_uint_unread n d z q :
  unread d (le_bytes n z ++ q) ->
  Decoder_uint n d = (z mod 2 ^ (8 * Z.of_nat n), advanced d (Z.of_nat n)).
Proof.
  intros Hu. unfold Decoder_uint.
  pose proof (Decoder_take_unread _ _ _ Hu) as Ht. rewrite zlen_le_bytes in Ht.
  rewrite Ht, length_le_bytes, Nat.eqb_refl. by rewrite le_value_bytes.
Qed.

Lemma written_dec_max d n : dec_max_bytes (advanced d n) = dec_max_bytes d.
Proof. done. Qed.

(** ** The primitives implement the interface *)

#[export] Hint Opaque Encoder_u8 Encoder_u16 Encoder_u32 Encoder_u64
  Encoder_i8 Encoder_i16 Encoder_i32 Encoder_i64 Encoder_bool Encoder_bytes
  Decoder_u8 Decoder_u16 Decoder_u32 Decoder_u64
  Decoder_i8 Decoder_i16 Decoder_i32 Decoder_i64 Decoder_bool Decoder_bytes
  : typeclass_instances.

#[export] Instance u8_format :
  WireFormat Encoder_u8 Decoder_u8 (le_bytes 1) (in_u 8) (fun _ _ => True).
Proof.
  split; intros; [by apply Encoder_raw_fits|].
  unfold Decoder_u8. erewrite Decoder_uint_unread by done.
  rewrite zlen_le_bytes. by rewrite Z.mod_small.
Qed.

#[export] Instance u16_format :
  WireFormat Encoder_u16 Decoder_u16 (le_bytes 2) (in_u 16) (fun _ _ => True).
Proof.
  split; intros; [by apply Encoder_raw_fits|].
  unfold Decoder_u16. erewrite Decoder_uint_unread by done.
  rewrite zlen_le_bytes. by rewrite Z.mod_small.
Qed.

#[export] Instance u32_format :
  WireFormat Encoder_u32 Decoder_u32 (le_bytes 4) (in_u 32) (fun _ _ => True).
Proof.
  split; intros; [by apply Encoder_raw_fits|].
  unfold Decoder_u32. erewrite Decoder_uint_unread by done.
  rewrite zlen_le_bytes. by rewrite Z.mod_small.
Qed.

#[export] Instance u64_format :
  WireFormat Encoder_u64 Decoder_u64 (le_bytes 8) (in_u 64) (fun _ _ => True).
Proof.
  split; intros; [by apply Encoder_raw_fits|].
  unfold Decoder_u64. erewrite Decoder_uint_unread by done.
  rewrite zlen_le_bytes. by rewrite Z.mod_small.
Qed.

(** Reading a signed integer inverts writing it. *)
Lemma signed_read n d z q :
  (0 < n)%nat -> in_i (8 * Z.of_nat n) z -> unread d (le_bytes n z ++ q) ->
  (let '(v, d) := Decoder_uint n d in (swrap (8 * Z.of_nat n) v, d))
  = (z, advanced d (Z.of_nat n)).
Proof.
  intros Hn Hz Hu. rewrite (Decoder_uint_unread _ _ _ _ Hu).
  change (z mod 2 ^ (8 * Z.of_nat n)) with (wrap (8 * Z.of_nat n) z).
  rewrite swrap_wrap, swrap_id by (lia || done). done.
Qed.

#[export] Instance i8_format :
  WireFormat Encoder_i8 Decoder_i8 (le_bytes 1) (in_i 8) (fun _ _ => True).
Proof.
  split; intros; [by apply Encoder_raw_fits|].
  rewrite zlen_le_bytes. eapply (signed_read 1); [lia|done..].
Qed.

#[export] Instance i16_format :
  WireFormat Encoder_i16 Decoder_i16 (le_bytes 2) (in_i 16) (fun _ _ => True).
Proof.
  split; intros; [by apply Encoder_raw_fits|].
  rewrite zlen_le_bytes. eapply (signed_read 2); [lia|done..].
Qed.

#[export] Instance i32_format :
  WireFormat Encoder_i32 Decoder_i32 (le_bytes 4) (in_i 32) (fun _ _ => True).
Proof.
  split; intros; [by apply Encoder_raw_fits|].
  rewrite zlen_le_bytes. eapply (signed_read 4); [lia|done..].
Qed.

#[export] Instance i64_format :
  WireFormat Encoder_i64 Decoder_i64 (le_bytes 8) (in_i 64) (fun _ _ => True).
Proof.
  split; intros; [by apply Encoder_raw_fits|].
  rewrite zlen_le_bytes. eapply (signed_read 8); [lia|done..].
Qed.

#[export] Instance bool_format :
  WireFormat Encoder_bool Decoder_bool (fun v => le_bytes 1 (if v then 1 else 0))
    (fun _ => True) (fun _ _ => True).
Proof.
  split; intros; [by apply Encoder_raw_fits|].
  unfold Decoder_bool, Decoder_u8. erewrite Decoder_uint_unread by done.
  rewrite zlen_le_bytes. by destruct a.
Qed.

#[export] Instance bytes_format :
  WireFormat Encoder_bytes Decoder_bytes (fun v => le_bytes 4 (zlen v) ++ v)
    (fun v => in_u 32 (zlen v)) (fun max v => zlen v <= max).
Proof.
  split.
  - intros e v Hv Hf. unfold Encoder_bytes, try_u.
    pose proof Hv as Hv'. unfold in_u in Hv'.
    destruct (Z.leb_spec 0 (zlen v)), (Z.ltb_spec (zlen v) (2 ^ 32)); try lia. simpl.
    apply fits_app in Hf as [Hf1 Hf2].
    rewrite (put_image (put := Encoder_u32) e (zlen v)) by done.
    rewrite Encoder_raw_fits by done. apply written_app.
  - intros d v rest Hv Hb Hu. rewrite <- app_assoc in Hu. unfold Decoder_bytes.
    rewrite (get_image (get := Decoder_u32) d (zlen v) (v ++ rest)) by done.
    apply unread_app in Hu. rewrite zlen_le_bytes in *.
    pose proof Hu as (He & _ & _). rewrite He. simpl dec_max_bytes.
    destruct (Z.ltb_spec (dec_max_bytes d) (zlen v)); [lia|].
    unfold Decoder_raw. rewrite (Decoder_take_unread _ _ _ Hu).
    rewrite zlen_app, zlen_le_bytes. unfold advanced. simpl. by rewrite Z.add_assoc.
Qed.

(** ** Sequences of fields *)

Definition fields_image (fs : list Field) : list byte := concat (map field_image fs).

(** The cursor of [d] is inside its input. *)
Definition cursor_ok (d : Decoder) : Prop := 0 <= dec_offset d <= zlen (dec_bytes d).

(** The bytes between the cursors of two decoders of one input. *)
Definition consumed (d d' : Decoder) : list byte :=
  take (Z.to_nat (dec_offset d' - dec_offset d))
    (drop (Z.to_nat (dec_offset d)) (dec_bytes d)).

(** [d'] is [d] after some reads. *)
Definition read_to (d d' : Decoder) : Prop :=
  dec_bytes d' = dec_bytes d /\ dec_max_bytes d' = dec_max_bytes d
  /\ cursor_ok d' /\ dec_offset d <= dec_offset d'
  /\ (dec_error d' = None -> dec_error d = None).

Definition is_bool_field (f : Field) : bool :=
  match f with F_bool _ => true | _ => false end.

Lemma put_field_image e f :
  field_valid f -> fits e (field_image f) -> put_field e f = written e (field_image f).
Proof.
  destruct f; simpl; intros; try by apply put_image.
  - by rewrite (put_image (put := Encoder_bool)).
  - by rewrite (put_image (put := Encoder_bytes)).
Qed.

Lemma get_field_image d f rest :
  field_valid f -> field_bounded (dec_max_bytes d) f -> unread d (field_image f ++ rest) ->
  get_field f d = (f, advanced d (zlen (field_image f))).
Proof.
  intros Hv Hb Hu. destruct f; simpl in *.
  - by rewrite (get_image (get := Decoder_u8) d v rest).
  - by rewrite (get_image (get := Decoder_u16) d v rest).
  - by rewrite (get_image (get := Decoder_u32) d v rest).
  - by rewrite (get_image (get := Decoder_u64) d v rest).
  - by rewrite (get_image (get := Decoder_i8) d v rest).
  - by rewrite (get_image (get := Decoder_i16) d v rest).
  - by rewrite (get_image (get := Decoder_i32) d v rest).
  - by rewrite (get_image (get := Decoder_i64) d v rest).
  - by rewrite (get_image (get := Decoder_bool) d v rest).
  - by rewrite (get_image (get := Decoder_bytes) d v rest).
Qed.

Lemma get_fields_image fs d rest :
  Forall field_valid fs -> Forall (field_bounded (dec_max_bytes d)) fs ->
  unread d (fields_image fs ++ rest) ->
  get_fields fs d = (fs, advanced d (zlen (fields_image fs))).
Proof.
  revert d. induction fs as [|f fs IH]; intros d Hv Hb Hu; simpl.
  - unfold fields_image, advanced. simpl. rewrite zlen_nil, Z.add_0_r. by destruct d.
  - inversion Hv; inversion Hb; subst. unfold fields_image in Hu. simpl in Hu.
    rewrite <- app_assoc in Hu. rewrite (get_field_image _ _ _ H1 H5 Hu).
    apply unread_app in Hu. rewrite IH by done.
    unfold fields_image. simpl. rewrite zlen_app. unfold advanced. simpl.
    by rewrite Z.add_assoc.
Qed.

Lemma put_field_failed e f :
  field_valid f -> enc_error e <> None -> put_field e f = e.
Proof.
  intros Hv He. destruct f; simpl; try by apply Encoder_raw_failed.
  unfold Encoder_bytes, try_u, Encoder_u32. simpl in Hv. unfold in_u in Hv.
  destruct (Z.leb_spec 0 (zlen v)), (Z.ltb_spec (zlen v) (2 ^ 32)); try lia. simpl.
  rewrite (Encoder_raw_failed e) by done. by apply Encoder_raw_failed.
Qed.

(** A field that does not fit leaves [LimitExceeded] behind. *)
Lemma put_field_overflow e f :
  field_valid f -> enc_error e = None -> zlen (enc_bytes e) <= enc_limit e ->
  enc_limit e < zlen (enc_bytes e) + zlen (field_image f) ->
  enc_error (put_field e f) = Some LimitExceeded.
Proof.
  intros Hv He Hb Hl.
  destruct f; cbn [field_image put_field] in Hl |- *;
    try exact (f_equal enc_error (Encoder_raw_overflow _ _ He Hb Hl)).
  unfold Encoder_bytes, try_u. simpl in Hv. unfold in_u in Hv.
  destruct (Z.leb_spec 0 (zlen v)), (Z.ltb_spec (zlen v) (2 ^ 32)); try lia. simpl.
  rewrite zlen_app, zlen_le_bytes in Hl. unfold Encoder_u32.
  destruct (Z.le_gt_cases (zlen (enc_bytes e) + 4) (enc_limit e)).
  - rewrite (Encoder_raw_fits e) by (split; rewrite ?zlen_le_bytes; done).
    rewrite Encoder_raw_overflow; simpl; autorewrite with zlen; done || lia.
  - rewrite (Encoder_raw_overflow e) by (rewrite ?zlen_le_bytes; done || lia).
    by rewrite Encoder_raw_failed.
Qed.

Lemma put_fields_failed e fs :
  Forall field_valid fs -> enc_error e <> None -> put_fields e fs = e.
Proof.
  intros Hv He. induction Hv as [|f fs Hf Hv IH]; [done|].
  unfold put_fields. simpl. rewrite put_field_failed by done. apply IH.
Qed.

Lemma put_fields_spec e fs :
  Forall field_valid fs -> enc_error e = None -> zlen (enc_bytes e) <= enc_limit e ->
  Encoder_finish (put_fields e fs) =
    if zlen (enc_bytes e ++ fields_image fs) <=? enc_limit e
    then Ok (enc_bytes e ++ fields_image fs) else Err LimitExceeded.
Proof.
  intros Hv. revert e. induction Hv as [|f fs Hf Hv IH]; intros e He Hb.
  - unfold put_fields, Encoder_finish, fields_image. simpl. rewrite He, app_nil_r.
    destruct (Z.leb_spec (zlen (enc_bytes e)) (enc_limit e)); [done|lia].
  - unfold put_fields, fields_image in *. simpl.
    destruct (Z.le_gt_cases (zlen (enc_bytes e) + zlen (field_image f)) (enc_limit e)).
    + rewrite put_field_image by (done || by split). rewrite IH by
        (done || simpl; rewrite zlen_app; lia). simpl. by rewrite app_assoc.
    + change (fold_left put_field fs (put_field e f)) with (put_fields (put_field e f) fs).
      rewrite put_fields_failed; [|done|by rewrite put_field_overflow].
      unfold Encoder_finish. rewrite put_field_overflow by done.
      rewrite !zlen_app. pose proof (zlen_nonneg (concat (map field_image fs))).
      destruct (Z.leb_spec (zlen (enc_bytes e) + (zlen (field_image f) +
        zlen (concat (map field_image fs)))) (enc_limit e)); [lia|done].
Qed.

(** ** Reading arbitrary input *)

Lemma read_to_refl d : cursor_ok d -> read_to d d.
Proof. unfold read_to. intuition lia. Qed.

Lemma read_to_trans d1 d2 d3 : read_to d1 d2 -> read_to d2 d3 -> read_to d1 d3.
Proof.
  unfold read_to. intros (B1&M1&C1&O1&E1) (B2&M2&C2&O2&E2).
  split_and!; try congruence; try done; try lia. auto.
Qed.

Lemma consumed_trans d1 d2 d3 :
  cursor_ok d1 -> read_to d1 d2 -> read_to d2 d3 ->
  consumed d1 d3 = consumed d1 d2 ++ consumed d2 d3.
Proof.
  unfold read_to, cursor_ok, consumed. intros C (B1&_&C1&O1&_) (B2&_&C2&O2&_).
  rewrite B1 in *. replace (dec_offset d3 - dec_offset d1)
    with ((dec_offset d2 - dec_offset d1) + (dec_offset d3 - dec_offset d2)) by lia.
  rewrite Z2Nat.inj_add by lia. rewrite <- take_take_drop, drop_drop. do 3 f_equal. lia.
Qed.

Lemma Decoder_take_spec d n p d' :
  cursor_ok d -> 0 <= n -> Decoder_take d n = (p, d') ->
  read_to d d'
  /\ (dec_error d' = None -> zlen p = n /\ consumed d d' = p /\ dec_offset d' = dec_offset d + n)
  /\ (dec_error d' <> None -> p = []).
Proof.
  unfold Decoder_take, cursor_ok. intros C Hn H.
  destruct (dec_error d) as [err|] eqn:E; simpl in H.
  - simplify_eq. unfold Decoder_fail_once. rewrite E.
    split_and!; [by apply read_to_refl|congruence|done].
  - unfold saturating_sub in H.
    destruct (Z.ltb_spec (Z.max 0 (zlen (dec_bytes d) - dec_offset d)) n); simplify_eq.
    + unfold Decoder_fail_once. rewrite E. split_and!; [|done|done].
      unfold read_to, cursor_ok. simpl. split_and!; try done; lia.
    + unfold read_to, cursor_ok, consumed. simpl. rewrite E.
      split_and!; try done; try lia.
      intros _. split_and!; [|by replace (dec_offset d + n - dec_offset d) with n by lia|done].
      unfold zlen in *. rewrite length_take, length_drop. lia.
Qed.

Lemma Decoder_uint_spec k d v d' :
  cursor_ok d -> Decoder_uint k d = (v, d') ->
  read_to d d' /\ in_u (8 * Z.of_nat k) v
  /\ (dec_error d' = None -> consumed d d' = le_bytes k v /\ dec_offset d' = dec_offset d + Z.of_nat k).
Proof.
  unfold Decoder_uint. intros C H. destruct (Decoder_take d (Z.of_nat k)) as [p d''] eqn:T.
  simplify_eq. apply Decoder_take_spec in T as (R & Hok & Hbad); [|done|lia].
  split; [done|]. destruct (Nat.eqb_spec (length p) k) as [<-|Hk].
  - split; [apply le_value_range|]. intros E. destruct (Hok E) as (Hl & Hc & Ho).
    by rewrite le_bytes_value.
  - split; [unfold in_u; split; [lia|apply Z.pow_pos_nonneg; lia]|].
    intros E. destruct (Hok E) as (Hl & _). unfold zlen in Hl. lia.
Qed.

Lemma le_bytes_swrap n v :
  in_u (8 * Z.of_nat n) v -> (0 < n)%nat ->
  le_bytes n (swrap (8 * Z.of_nat n) v) = le_bytes n v.
Proof.
  intros Hv Hn. pose proof (le_bytes_value (le_bytes n (swrap (8 * Z.of_nat n) v))) as H1.
  pose proof (le_bytes_value (le_bytes n v)) as H2.
  rewrite length_le_bytes, le_value_bytes in H1, H2. rewrite <- H1, <- H2. f_equal.
  unfold in_u in Hv. unfold swrap. rewrite (Z.mod_small v) by done.
  destruct (Z.ltb_spec v (2 ^ (8 * Z.of_nat n - 1))).
  - by rewrite Z.mod_small.
  - rewrite <- (Z.mul_1_l (2 ^ (8 * Z.of_nat n))) at 1.
    rewrite <- Z.add_opp_r, <- Z.mul_opp_l, Z.mod_add by lia. by rewrite Z.mod_small.
Qed.

Lemma Decoder_bytes_spec d v d' :
  cursor_ok d -> Decoder_bytes d = (v, d') ->
  read_to d d' /\ in_u 32 (zlen v)
  /\ (dec_error d' = None -> consumed d d' = le_bytes 4 (zlen v) ++ v).
Proof.
  unfold Decoder_bytes, Decoder_u32. intros C H.
  destruct (Decoder_uint 4 d) as [len d1] eqn:U.
  apply Decoder_uint_spec in U as (R & Hr & Hok); [|done]. change (8 * Z.of_nat 4) with 32 in Hr.
  destruct (dec_error d1) as [err|] eqn:E1; simplify_eq.
  { split_and!; [done|done|congruence]. }
  destruct (dec_max_bytes d1 <? len); simplify_eq.
  { split_and!; [|done|done].
    unfold read_to, cursor_ok in *. simpl. intuition. }
  unfold Decoder_raw in H. unfold in_u in Hr.
  pose proof R as (_ & _ & C1 & _).
  apply Decoder_take_spec in H as (R2 & Hok2 & Hbad2); [|done|lia].
  split; [by eapply read_to_trans|]. destruct (dec_error d') eqn:E2.
  - rewrite Hbad2 by done. done.
  - destruct (Hok2 eq_refl) as (Hl & Hc & _). subst len. split; [done|]. intros _.
    rewrite (consumed_trans d d1 d') by done. rewrite Hc. f_equal. by apply Hok.
Qed.

(** What reading one field of the format of [f] gives on any input. *)
Lemma get_field_spec f d f' d' :
  cursor_ok d -> get_field f d = (f', d') ->
  read_to d d' /\ field_valid f' /\ is_bool_field f' = is_bool_field f
  /\ (dec_error d' = None -> is_bool_field f = false -> consumed d d' = field_image f').
Proof.
  intros C H. destruct f; simpl in H;
    unfold Decoder_i8, Decoder_i16, Decoder_i32, Decoder_i64, Decoder_bool, Decoder_u8,
      Decoder_u16, Decoder_u32, Decoder_u64 in H;
    try (destruct (Decoder_bytes d) as [w d''] eqn:U; simplify_eq;
         apply Decoder_bytes_spec in U as (R & Hv & Hok); [by split_and!; auto|done]);
    match type of H with context [Decoder_uint ?k d] =>
      destruct (Decoder_uint k d) as [w d''] eqn:U; simplify_eq;
      apply Decoder_uint_spec in U as (R & Hv & Hok); [|done] end.
  all: split; [done|]; split; [try done; try by apply swrap_range|]; split; [done|];
    intros E Hb; try done; destruct (Hok E) as [-> _]; cbn [field_image]; try done.
  - symmetry. by apply (le_bytes_swrap 1); [|lia].
  - symmetry. by apply (le_bytes_swrap 2); [|lia].
  - symmetry. by apply (le_bytes_swrap 4); [|lia].
  - symmetry. by apply (le_bytes_swrap 8); [|lia].
Qed.

Lemma get_fields_spec fs d vs d' :
  cursor_ok d -> get_fields fs d = (vs, d') ->
  read_to d d' /\ Forall field_valid vs /\ length vs = length fs
  /\ (dec_error d' = None -> Forall (fun f => is_bool_field f = false) fs ->
      consumed d d' = fields_image vs).
Proof.
  revert d vs. induction fs as [|f fs IH]; intros d vs C H; simpl in H.
  - simplify_eq. split_and!; [by apply read_to_refl|done|done|].
    intros _ _. unfold consumed. by rewrite Z.sub_diag.
  - destruct (get_field f d) as [f1 d1] eqn:G. destruct (get_fields fs d1) as [fs1 d2] eqn:Gs.
    simplify_eq. apply get_field_spec in G as (R1 & V1 & _ & Hok1); [|done].
    pose proof R1 as (_ & _ & C1 & _).
    apply IH in Gs as (R2 & V2 & L2 & Hok2); [|done].
    split_and!; [by eapply read_to_trans|by constructor|simpl; congruence|].
    intros E Hb. inversion Hb; subst. rewrite (consumed_trans d d1 d') by done.
    unfold fields_image. simpl. rewrite Hok1, Hok2; [done..| |done].
    destruct R2 as (_ & _ & _ & _ & HE). auto.
Qed.

(** A decoder that has failed reads nothing more and keeps its error. *)
Lemma get_field_failed f d f' d' :
  dec_error d <> None -> get_field f d = (f', d') -> d' = d.
Proof.
  intros He H. assert (forall k, Decoder_uint k d = (0, d)) as HU.
  { intros k. unfold Decoder_uint, Decoder_take. destruct (dec_error d) eqn:E; [|done]. simpl.
    unfold Decoder_fail_once. rewrite E. f_equal.
    by destruct k. }
  destruct f; simpl in H; unfold Decoder_bytes, Decoder_i8, Decoder_i16, Decoder_i32,
    Decoder_i64, Decoder_bool, Decoder_u8, Decoder_u16, Decoder_u32, Decoder_u64 in H;
    rewrite HU in H; try by simplify_eq.
  destruct (dec_error d); by simplify_eq.
Qed.

(** ** Versioned payloads *)

(** The bytes of a versioned payload. *)
Definition versioned_image (version compatible : Z) (payload : list byte) : list byte :=
  le_bytes 1 version ++ le_bytes 1 compatible ++ le_bytes 4 (zlen payload) ++ payload.

Lemma Encoder_versioned_image e version compatible encode payload :
  in_u 8 version -> in_u 8 compatible -> in_u 32 (zlen payload) ->
  encode (Encoder_new (Z.min (enc_limit e) u32_max)) =
    written (Encoder_new (Z.min (enc_limit e) u32_max)) payload ->
  fits e (versioned_image version compatible payload) ->
  Encoder_versioned e version compatible encode =
    written e (versioned_image version compatible payload).
Proof.
  intros Hv Hc Hl Hp Hf. unfold Encoder_versioned. rewrite Hp. simpl.
  unfold try_u. pose proof Hl as Hl'. unfold in_u in Hl'.
  destruct (Z.leb_spec 0 (zlen payload)), (Z.ltb_spec (zlen payload) (2 ^ 32)); try lia. simpl.
  unfold versioned_image in *.
  apply fits_app in Hf as [F1 Hf]. rewrite (put_image (put := Encoder_u8) e) by done.
  apply fits_app in Hf as [F2 Hf]. rewrite (put_image (put := Encoder_u8)) by done.
  apply fits_app in Hf as [F3 Hf]. rewrite (put_image (put := Encoder_u32)) by done.
  rewrite Encoder_raw_fits by done. by rewrite !written_app.
Qed.

Lemma Decoder_versioned_image d local version compatible payload rest :
  in_u 8 version -> in_u 8 compatible -> in_u 32 (zlen payload) ->
  compatible <= local -> zlen payload <= dec_max_bytes d ->
  unread d (versioned_image version compatible payload ++ rest) ->
  Decoder_versioned d local =
    ((version, Decoder_new payload (dec_max_bytes d)),
     advanced d (zlen (versioned_image version compatible payload))).
Proof.
  intros Hv Hc Hl Hlocal Hmax Hu. unfold versioned_image in *. rewrite <- !app_assoc in Hu.
  unfold Decoder_versioned. rewrite (get_image (get := Decoder_u8) d version _ Hv I Hu).
  apply unread_app in Hu. rewrite (get_image (get := Decoder_u8) _ compatible _ Hc I Hu).
  apply unread_app in Hu. rewrite (get_image (get := Decoder_u32) _ (zlen payload) _ Hl I Hu).
  apply unread_app in Hu. rewrite !zlen_le_bytes in *. pose proof Hu as (He & _).
  rewrite He. simpl dec_max_bytes.
  destruct (Z.ltb_spec local compatible); [lia|].
  destruct (Z.ltb_spec (dec_max_bytes d) (zlen payload)); [lia|].
  rewrite (Decoder_take_unread _ _ _ Hu). autorewrite with zlen.
  unfold advanced. simpl. do 2 f_equal. lia.
Qed.

(** ** Running decoders on images *)

Lemma put_fields_image fs : forall e,
  Forall field_valid fs -> fits e (fields_image fs) ->
  put_fields e fs = written e (fields_image fs).
Proof.
  induction fs as [|f fs IH]; intros e Hv Hf.
  - unfold written, fields_image. simpl. rewrite app_nil_r. by destruct e.
  - inversion Hv; subst. unfold fields_image in *. cbn [map concat put_fields fold_left] in *.
    apply fits_app in Hf as [Hf1 Hf2]. rewrite put_field_image by done.
    change (fold_left put_field fs) with (fun e => put_fields e fs).
    cbv beta. rewrite IH by done. apply written_app.
Qed.

(** A monadic read of the image of a value. *)
Lemma rd_step {E A B} {put get image valid bounded} `{!WireFormat put get image valid bounded}
    (k : A -> DM E B) d a rest :
  valid a -> bounded (dec_max_bytes d) a -> unread d (image a ++ rest) ->
  (rd get ≫= k) d = k a (advanced d (zlen (image a))).
Proof.
  intros Hv Hb Hu. unfold mbind, DM_bind, rd. by rewrite (get_image d a rest Hv Hb Hu).
Qed.

Lemma DM_bind_Ok {E A B} (m : DM E A) (k : A -> DM E B) d a d' :
  m d = Ok (a, d') -> (m ≫= k) d = k a d'.
Proof. intros H. unfold mbind, DM_bind. by rewrite H. Qed.

Lemma throw_if_false {E B} c (e : E) (k : unit -> DM E B) d :
  c = false -> (throw_if c e ≫= k) d = k tt d.
Proof. by intros ->. Qed.

Lemma finish_with_unread {E B} (conv : WireError -> E) (k : unit -> DM E B) d rest :
  unread d rest -> (finish_with conv ≫= k) d = k tt d.
Proof.
  intros (He & _). unfold mbind, DM_bind, finish_with, Decoder_finish. by rewrite He.
Qed.

Lemma remaining_unread {E B} (k : Z -> DM E B) d rest :
  unread d rest -> (remaining ≫= k) d = k (zlen rest) d.
Proof. intros Hu. unfold mbind, DM_bind, remaining. by rewrite (unread_remaining _ _ Hu). Qed.

(** Runs one monadic read whose image is what is left to read. *)
Ltac read_step :=
  lazymatch goal with
  | Hu : unread ?d (?img ++ ?rest) |- @mbind (DM _) _ _ _ _ (rd _) ?d = _ =>
      (erewrite (rd_step _ d _ rest); [| | |exact Hu]); [|try done|try exact I]; apply unread_app in Hu
  end.

(** ** Properties *)

(** Round trip of the codec: a sequence of values of the primitive formats,
    each in the range of its Rust type and each byte string within the
    decoder's bound, that fits the encoder's limit, is encoded without error,
    and reading fields of the same formats from the result gives back the same
    values, no error, and an exhausted input. *)
Theorem codec_roundtrip limit max fs :
  Forall field_valid fs -> Forall (field_bounded max) fs ->
  zlen (fields_image fs) <= limit ->
  exists bs d,
    Encoder_finish (put_fields (Encoder_new limit) fs) = Ok bs
    /\ get_fields fs (Decoder_new bs max) = (fs, d)
    /\ Decoder_finish d = Ok tt /\ Decoder_remaining d = 0.
Proof.
  intros Hv Hb Hl. pose proof (zlen_nonneg (fields_image fs)).
  exists (fields_image fs),
    (advanced (Decoder_new (fields_image fs) max) (zlen (fields_image fs))).
  rewrite put_fields_spec by (done || simpl; rewrite zlen_nil; lia). simpl.
  destruct (Z.leb_spec (zlen (fields_image fs)) limit); [|lia].
  assert (unread (Decoder_new (fields_image fs) max) (fields_image fs ++ [])) as Hu.
  { by rewrite app_nil_r. }
  split; [done|]. split; [by eapply get_fields_image|]. split; [done|].
  apply unread_app in Hu. by rewrite (unread_remaining _ _ Hu).
Qed.

Lemma codec_roundtrip_witness :
  exists bs d,
    Encoder_finish (put_fields (Encoder_new 32)
      [F_u16 513; F_i32 (-5); F_bool true; F_bytes [x61; x62]]) = Ok bs
    /\ get_fields [F_u16 513; F_i32 (-5); F_bool true; F_bytes [x61; x62]]
         (Decoder_new bs 2) = ([F_u16 513; F_i32 (-5); F_bool true; F_bytes [x61; x62]], d)
    /\ Decoder_finish d = Ok tt /\ Decoder_remaining d = 0.
Proof.
  apply codec_roundtrip.
  - repeat constructor; done.
  - repeat constructor; done.
  - vm_compute. discriminate.
Defined.

(** The encoder is exact about its limit: finishing a sequence of writes
    gives the concatenation of the encodings when it fits the limit and
    [LimitExceeded] when it does not; it never yields a truncated buffer. *)
Theorem encoder_exact limit fs :
  Forall field_valid fs -> 0 <= limit ->
  Encoder_finish (put_fields (Encoder_new limit) fs) =
    if zlen (fields_image fs) <=? limit then Ok (fields_image fs) else Err LimitExceeded.
Proof. intros Hv Hl. rewrite put_fields_spec by done. done. Qed.

Lemma encoder_exact_witness :
  Encoder_finish (put_fields (Encoder_new 5) [F_u32 7; F_bytes []]) = Err LimitExceeded.
Proof. rewrite encoder_exact; [reflexivity|repeat constructor; done|lia]. Defined.

(** Reading is safe and canonical on arbitrary input: whatever the bytes,
    the cursor stays inside the input, every value read is in the range of its
    Rust type, and when no error occurred the bytes consumed are exactly the
    encoding of the values read (booleans aside, which accept any nonzero
    byte). *)
Theorem decoder_canonical bytes max fs vs d :
  get_fields fs (Decoder_new bytes max) = (vs, d) ->
  0 <= dec_offset d <= zlen bytes /\ Forall field_valid vs
  /\ (Decoder_finish d = Ok tt -> Forall (fun f => is_bool_field f = false) fs ->
      take (Z.to_nat (dec_offset d)) bytes = fields_image vs).
Proof.
  intros H. apply get_fields_spec in H as (R & V & _ & Hok);
    [|unfold cursor_ok; simpl; pose proof (zlen_nonneg bytes); lia].
  destruct R as (B & _ & C & _ & _). unfold cursor_ok in C. rewrite B in C. simpl in C.
  split_and!; [lia..|done|]. intros Hf Hb. rewrite <- Hok; [|by unfold Decoder_finish in Hf; destruct (dec_error d)|done].
  unfold consumed. simpl. by rewrite Z.sub_0_r.
Qed.

Lemma decoder_canonical_witness :
  0 <= 6 <= zlen [x05; x00; x00; x00; x2a; x01; xff]
  /\ Forall field_valid [F_u32 5; F_i16 298]
  /\ (Decoder_finish (mkDecoder [x05; x00; x00; x00; x2a; x01; xff] 6 9 None) = Ok tt ->
      Forall (fun f => is_bool_field f = false) [F_u32 0; F_i16 0] ->
      take (Z.to_nat 6) [x05; x00; x00; x00; x2a; x01; xff]
      = fields_image [F_u32 5; F_i16 298]).
Proof.
  exact (decoder_canonical [x05; x00; x00; x00; x2a; x01; xff] 9 [F_u32 0; F_i16 0]
    [F_u32 5; F_i16 298] (mkDecoder [x05; x00; x00; x00; x2a; x01; xff] 6 9 None) eq_refl).
Defined.

(** Versioned payloads are skippable: after [versioned], the outer decoder
    stands exactly behind the payload whatever the inner decoder reads, the
    inner decoder sees the payload and nothing else, and a reader older than
    [compatible] is refused with [UnsupportedVersion]. *)
Theorem versioned_roundtrip e max local version compatible encode payload rest :
  in_u 8 version -> in_u 8 compatible -> in_u 32 (zlen payload) -> zlen payload <= max ->
  encode (Encoder_new (Z.min (enc_limit e) u32_max)) =
    written (Encoder_new (Z.min (enc_limit e) u32_max)) payload ->
  fits e (versioned_image version compatible payload) ->
  let out := Encoder_versioned e version compatible encode in
  let input := drop (length (enc_bytes e)) (enc_bytes out) ++ rest in
  let '((v, inner), outer) := Decoder_versioned (Decoder_new input max) local in
  if local <? compatible
  then Decoder_finish outer = Err (UnsupportedVersion local compatible)
  else v = version /\ inner = Decoder_new payload max /\ unread outer rest.
Proof.
  intros Hv Hc Hl Hmax Hp Hf. cbv zeta.
  rewrite (Encoder_versioned_image _ _ _ _ payload) by done. unfold written.
  cbn [enc_bytes]. rewrite drop_app_length.
  assert (unread (Decoder_new (versioned_image version compatible payload ++ rest) max)
    (versioned_image version compatible payload ++ rest)) as Hu by done.
  destruct (Z.ltb_spec local compatible) as [Hlt|Hge].
  - unfold Decoder_versioned. pose proof Hu as Hu'. unfold versioned_image in Hu' at 2.
    rewrite <- !app_assoc in Hu'.
    rewrite (get_image (get := Decoder_u8) _ version _ Hv I Hu').
    apply unread_app in Hu'. rewrite (get_image (get := Decoder_u8) _ compatible _ Hc I Hu').
    apply unread_app in Hu'.
    rewrite (get_image (get := Decoder_u32) _ (zlen payload) _ Hl I Hu').
    apply unread_app in Hu'. destruct Hu' as (He & _). rewrite He.
    by destruct (Z.ltb_spec local compatible); [|lia].
  - rewrite (Decoder_versioned_image _ local version compatible payload rest) by done.
    split_and!; [done|done|]. by apply unread_app.
Qed.

Lemma versioned_roundtrip_witness :
  let out := Encoder_versioned (Encoder_new 64) 3 2 (fun e => Encoder_u16 e 7) in
  let input := drop (length (enc_bytes (Encoder_new 64))) (enc_bytes out) ++ [xff] in
  let '((v, inner), outer) := Decoder_versioned (Decoder_new input 16) 2 in
  if 2 <? 2
  then Decoder_finish outer = Err (UnsupportedVersion 2 2)
  else v = 3 /\ inner = Decoder_new [x07; x00] 16 /\ unread outer [xff].
Proof.
  apply (versioned_roundtrip (Encoder_new 64) 16 2 3 2 (fun e => Encoder_u16 e 7) [x07; x00] [xff]).
  1-4: vm_compute; intuition discriminate.
  - reflexivity.
  - split; [reflexivity|]. vm_compute. discriminate.
Defined.
