(* ===== verification/CrushHash.v ===== *)
(** * Object and CRUSH hashing (src/crush/hash.rs)

    The Robert Jenkins mix on three 32-bit words, the hash of an object name,
    the two- and three-word integer hashes CRUSH draws from, and [stable_mod],
    which folds a hash onto a number of placement groups so that growing the
    number moves objects only into the new groups. *)

From S2P Require Import Prelude.
From Stdlib Require Import ZArith Lia Strings.Byte.
From stdpp Require Import base list numbers.

Open Scope Z_scope.

Definition NAMESPACE_SEPARATOR : byte := x1f.

(** ** 32-bit operations *)

Definition wadd (a b : Z) : Z := wrap 32 (a + b).
Definition wsub (a b : Z) : Z := wrap 32 (a - b).
Definition wshl (a n : Z) : Z := wrap 32 (Z.shiftl a n).

Definition leading_zeros (x : Z) : Z := if x =? 0 then 32 else 31 - Z.log2 x.

(** [1_u32.checked_shl(n)]. *)
Definition checked_shl_one (n : Z) : option Z := if n <? 32 then Some (2 ^ n) else None.

(** ** The hash functions *)

Definition mix (first second third : Z) : Z * Z * Z :=
  let first := Z.lxor (wsub (wsub first second) third) (Z.shiftr third 13) in
  let second := Z.lxor (wsub (wsub second third) first) (wshl first 8) in
  let third := Z.lxor (wsub (wsub third first) second) (Z.shiftr second 13) in
  let first := Z.lxor (wsub (wsub first second) third) (Z.shiftr third 12) in
  let second := Z.lxor (wsub (wsub second third) first) (wshl first 16) in
  let third := Z.lxor (wsub (wsub third first) second) (Z.shiftr second 5) in
  let first := Z.lxor (wsub (wsub first second) third) (Z.shiftr third 3) in
  let second := Z.lxor (wsub (wsub second third) first) (wshl first 10) in
  let third := Z.lxor (wsub (wsub third first) second) (Z.shiftr second 15) in
  (first, second, third).

Definition HASH_SEED : Z := 0x4e67c6a7.

Definition hash32_pair (first second : Z) : Z :=
  let hash := Z.lxor (Z.lxor HASH_SEED first) second in
  let '(first, second, hash) := mix first second hash in
  let '(_, _, hash) := mix 231232 first hash in
  let '(_, _, hash) := mix second 1232 hash in
  hash.

Definition hash32_triple (first second third : Z) : Z :=
  let hash := Z.lxor (Z.lxor (Z.lxor HASH_SEED first) second) third in
  let x := 231232 in
  let y := 1232 in
  let '(first, second, hash) := mix first second hash in
  let '(third, x, hash) := mix third x hash in
  let '(y, _, hash) := mix y first hash in
  let '(_, _, hash) := mix second x hash in
  let '(_, _, hash) := mix y third hash in
  hash.

(** The chunks of twelve bytes, mixed in one by one, and the remainder. *)
Fixpoint rjenkins_chunks (value : list byte) (state : Z * Z * Z) : (Z * Z * Z) * list byte :=
  match value with
  | b0 :: b1 :: b2 :: b3 :: b4 :: b5 :: b6 :: b7 :: b8 :: b9 :: b10 :: b11 :: rest =>
      let '(first, second, hash) := state in
      let first := wadd first (le_value [b0; b1; b2; b3]) in
      let second := wadd second (le_value [b4; b5; b6; b7]) in
      let hash := wadd hash (le_value [b8; b9; b10; b11]) in
      rjenkins_chunks rest (mix first second hash)
  | remainder => (state, remainder)
  end.

Fixpoint rjenkins_remainder (index : Z) (remainder : list byte) (state : Z * Z * Z)
    : Z * Z * Z :=
  match remainder with
  | [] => state
  | b :: remainder =>
      let '(first, second, hash) := state in
      let state :=
        if index <=? 3 then (wadd first (Z.shiftl (Z_of_byte b) (index * 8)), second, hash)
        else if index <=? 7 then
          (first, wadd second (Z.shiftl (Z_of_byte b) ((index - 4) * 8)), hash)
        else (first, second, wadd hash (Z.shiftl (Z_of_byte b) ((index - 7) * 8))) in
      rjenkins_remainder (index + 1) remainder state
  end.

Definition rjenkins (value : list byte) : Z :=
  let '((first, second, hash), remainder) :=
    rjenkins_chunks value (0x9e3779b9, 0x9e3779b9, 0) in
  let len := match try_u 32 (zlen value) with Some n => n | None => u32_max end in
  let hash := wadd hash len in
  let '(first, second, hash) := rjenkins_remainder 0 remainder (first, second, hash) in
  let '(_, _, hash) := mix first second hash in
  hash.

Definition object_hash (object locator namespace : list byte) : Z :=
  let key := match locator with [] => object | _ => locator end in
  match namespace with
  | [] => rjenkins key
  | _ => rjenkins (namespace ++ [NAMESPACE_SEPARATOR] ++ key)
  end.

Definition stable_mod (value count : Z) : Z :=
  if count =? 0 then 0
  else
    let mask :=
      wsub (match checked_shl_one (32 - leading_zeros (count - 1)) with
            | Some m => m
            | None => 0
            end) 1 in
    if Z.land value mask <? count
    then Z.land value mask
    else Z.land value (Z.shiftr mask 1).

(** The pinned vectors of the source's tests. *)
Example hash32_triple_vectors :
  hash32_triple 0 0 0 = 0x7a3bf3b2 /\ hash32_triple 1 2 3 = 0x735ad42b
  /\ hash32_triple 0xdeadbeef 0xffffffff 17 = 0xe8247cea
  /\ hash32_triple 123456789 0xfffffffe 42 = 0x6d589f4b.
Proof. vm_compute. auto. Qed.

Example object_hash_vectors :
  object_hash [xde; xad] [x81; x00; x7f] [xff; x1f] = 0x8144448c
  /\ object_hash [x00; xff; x80; x6f] [] [x6e; x00; xfe] = 0xa662caa3.
Proof. vm_compute. auto. Qed.

(** ** Ranges *)

Lemma wsub_range a b : in_u 32 (wsub a b).
Proof. by apply wrap_range. Qed.
Lemma wshl_range a n : in_u 32 (wshl a n).
Proof. by apply wrap_range. Qed.
Lemma wadd_range a b : in_u 32 (wadd a b).
Proof. by apply wrap_range. Qed.

#[export] Hint Resolve wsub_range wshl_range wadd_range : rados.

(** A mixing step is undone by the same exclusive or and two additions. *)
Lemma unmix_step a b c k :
  in_u 32 a -> wadd (wadd (Z.lxor (Z.lxor (wsub (wsub a b) c) k) k) c) b = a.
Proof.
  intros Ha. rewrite Z.lxor_assoc, Z.lxor_nilpotent, Z.lxor_0_r.
  unfold wadd, wsub, wrap. rewrite Zplus_mod_idemp_l.
  replace ((((a - b) mod 2 ^ 32 - c) mod 2 ^ 32 + c) + b)
    with ((((a - b) mod 2 ^ 32 - c) mod 2 ^ 32) + (c + b)) by lia.
  rewrite Zplus_mod_idemp_l.
  replace ((a - b) mod 2 ^ 32 - c + (c + b)) with ((a - b) mod 2 ^ 32 + b) by lia.
  rewrite Zplus_mod_idemp_l. replace (a - b + b) with a by lia. by apply Z.mod_small.
Qed.

(** The inverse of [mix]. *)
Definition unmix (first second third : Z) : Z * Z * Z :=
  let third := wadd (wadd (Z.lxor third (Z.shiftr second 15)) second) first in
  let second := wadd (wadd (Z.lxor second (wshl first 10)) first) third in
  let first := wadd (wadd (Z.lxor first (Z.shiftr third 3)) third) second in
  let third := wadd (wadd (Z.lxor third (Z.shiftr second 5)) second) first in
  let second := wadd (wadd (Z.lxor second (wshl first 16)) first) third in
  let first := wadd (wadd (Z.lxor first (Z.shiftr third 12)) third) second in
  let third := wadd (wadd (Z.lxor third (Z.shiftr second 13)) second) first in
  let second := wadd (wadd (Z.lxor second (wshl first 8)) first) third in
  let first := wadd (wadd (Z.lxor first (Z.shiftr third 13)) third) second in
  (first, second, third).

Definition u32_triple (t : Z * Z * Z) : Prop :=
  let '(a, b, c) := t in in_u 32 a /\ in_u 32 b /\ in_u 32 c.

(** One round of [mix], with its shift amounts. *)
Definition mix_round (s1 s2 s3 : Z) (t : Z * Z * Z) : Z * Z * Z :=
  let '(a, b, c) := t in
  let a := Z.lxor (wsub (wsub a b) c) (Z.shiftr c s1) in
  let b := Z.lxor (wsub (wsub b c) a) (wshl a s2) in
  let c := Z.lxor (wsub (wsub c a) b) (Z.shiftr b s3) in
  (a, b, c).

Definition unmix_round (s1 s2 s3 : Z) (t : Z * Z * Z) : Z * Z * Z :=
  let '(a, b, c) := t in
  let c := wadd (wadd (Z.lxor c (Z.shiftr b s3)) b) a in
  let b := wadd (wadd (Z.lxor b (wshl a s2)) a) c in
  let a := wadd (wadd (Z.lxor a (Z.shiftr c s1)) c) b in
  (a, b, c).

Lemma mix_rounds a b c :
  mix a b c = mix_round 3 10 15 (mix_round 12 16 5 (mix_round 13 8 13 (a, b, c))).
Proof. done. Qed.

Lemma unmix_rounds a b c :
  unmix a b c = unmix_round 13 8 13 (unmix_round 12 16 5 (unmix_round 3 10 15 (a, b, c))).
Proof. done. Qed.

Lemma mix_round_range s1 s2 s3 t :
  0 <= s1 -> 0 <= s3 -> u32_triple t -> u32_triple (mix_round s1 s2 s3 t).
Proof.
  destruct t as [[a b] c]. simpl. intros H1 H3 (Ha & Hb & Hc).
  split_and!; auto 8 with rados lia.
Qed.

Lemma unmix_mix_round s1 s2 s3 t :
  0 <= s1 -> 0 <= s3 -> u32_triple t -> unmix_round s1 s2 s3 (mix_round s1 s2 s3 t) = t.
Proof.
  destruct t as [[a b] c]. unfold mix_round, unmix_round. cbn zeta.
  intros H1 H3 (Ha & Hb & Hc). by rewrite !unmix_step.
Qed.

Lemma mix_range a b c : u32_triple (a, b, c) -> u32_triple (mix a b c).
Proof. intros H. rewrite mix_rounds. by repeat apply mix_round_range. Qed.

Lemma hash_third t : u32_triple t -> in_u 32 (snd t).
Proof. destruct t as [[a b] c]. by intros (_ & _ & H). Qed.

Lemma rjenkins_chunks_range fuel value state :
  (length value <= fuel)%nat -> u32_triple state ->
  u32_triple (fst (rjenkins_chunks value state)).
Proof.
  revert value state. induction fuel as [|fuel IH]; intros value state Hl Hs.
  { by destruct value; [|simpl in Hl; lia]. }
  do 12 (destruct value as [|? value]; [done|]).
  cbn [rjenkins_chunks]. destruct state as [[f s] h]. destruct (mix _ _ _) as [[f' s'] h'] eqn:E.
  apply IH; [simpl in Hl; lia|]. rewrite <- E. apply mix_range.
  split_and!; apply wadd_range.
Qed.

Lemma rjenkins_remainder_range index l state :
  u32_triple state -> u32_triple (rjenkins_remainder index l state).
Proof.
  revert index state. induction l as [|b l IH]; intros index [[f s] h] (Hf & Hs & Hh); [done|].
  simpl. split_if; apply IH; split_and!; auto with rados.
Qed.

Lemma rjenkins_range value : in_u 32 (rjenkins value).
Proof.
  unfold rjenkins.
  pose proof (rjenkins_chunks_range _ value (0x9e3779b9, 0x9e3779b9, 0) (Nat.le_refl _)) as Hc.
  destruct (rjenkins_chunks _ _) as [[[f s] h] r]. simpl in Hc.
  destruct Hc as (Hf & Hs & Hh); [by split_and!|].
  destruct (rjenkins_remainder _ _ _) as [[f' s'] h'] eqn:E.
  pose proof (rjenkins_remainder_range 0 r (f, s, wadd h (match try_u 32 (zlen value) with
    Some n => n | None => u32_max end))) as Hr. rewrite E in Hr.
  apply hash_third in Hr; [|by split_and!; auto with rados].
  pose proof (rjenkins_remainder_range 0 r (f, s, wadd h (match try_u 32 (zlen value) with
    Some n => n | None => u32_max end))) as Hr'. rewrite E in Hr'.
  pose proof (mix_range f' s' h' (Hr' ltac:(by split_and!; auto with rados))) as Hm.
  destruct (mix f' s' h') as [[? ?] ?]. by apply Hm.
Qed.

Lemma object_hash_range object locator namespace :
  in_u 32 (object_hash object locator namespace).
Proof. unfold object_hash. destruct namespace; apply rjenkins_range. Qed.

Lemma hash32_pair_range a b : in_u 32 a -> in_u 32 b -> in_u 32 (hash32_pair a b).
Proof.
  intros Ha Hb. unfold hash32_pair.
  assert (in_u 32 HASH_SEED) as HS by done.
  pose proof (mix_range a b (Z.lxor (Z.lxor HASH_SEED a) b)
    ltac:(split_and!; auto 6 with rados lia)) as H1.
  destruct (mix a b _) as [[f s] h]. destruct H1 as (Hf & Hs & Hh).
  pose proof (mix_range 231232 f h ltac:(by split_and!)) as H2.
  destruct (mix 231232 f h) as [[? ?] h']. destruct H2 as (_ & _ & Hh').
  pose proof (mix_range s 1232 h' ltac:(by split_and!)) as H3.
  destruct (mix s 1232 h') as [[? ?] ?]. apply H3.
Qed.

Lemma hash32_triple_range a b c :
  in_u 32 a -> in_u 32 b -> in_u 32 c -> in_u 32 (hash32_triple a b c).
Proof.
  intros Ha Hb Hc. unfold hash32_triple.
  assert (in_u 32 HASH_SEED) as HS by done.
  pose proof (mix_range a b (Z.lxor (Z.lxor (Z.lxor HASH_SEED a) b) c)
    ltac:(split_and!; auto 8 with rados lia)) as H1.
  destruct (mix a b _) as [[f s] h]. destruct H1 as (Hf & Hs & Hh).
  pose proof (mix_range c 231232 h ltac:(by split_and!)) as H2.
  destruct (mix c 231232 h) as [[t x] h2]. destruct H2 as (Ht & Hx & Hh2).
  pose proof (mix_range 1232 f h2 ltac:(by split_and!)) as H3.
  destruct (mix 1232 f h2) as [[y ?] h3]. destruct H3 as (Hy & _ & Hh3).
  pose proof (mix_range s x h3 ltac:(by split_and!)) as H4.
  destruct (mix s x h3) as [[? ?] h4]. destruct H4 as (_ & _ & Hh4).
  pose proof (mix_range y t h4 ltac:(by split_and!)) as H5.
  destruct (mix y t h4) as [[? ?] ?]. apply H5.
Qed.

(** ** Placement-group folding *)

Lemma leading_zeros_log2_up count :
  1 <= count < 2 ^ 32 -> 32 - leading_zeros (count - 1) = Z.log2_up count.
Proof.
  intros H. unfold leading_zeros. destruct (Z.eqb_spec (count - 1) 0).
  - by replace count with 1 by lia.
  - rewrite Z.log2_up_eqn by lia. replace (Z.pred count) with (count - 1) by lia. lia.
Qed.

Lemma log2_up_range count : 1 <= count < 2 ^ 32 -> 0 <= Z.log2_up count <= 32.
Proof.
  intros H. split; [apply Z.log2_up_nonneg|].
  change 32 with (Z.log2_up (2 ^ 32)) at 1. apply Z.log2_up_le_mono. lia.
Qed.

(** The closed form of [stable_mod]. *)
Lemma stable_mod_eq value count :
  1 <= count < 2 ^ 32 ->
  let bits := Z.log2_up count in
  stable_mod value count =
    if value mod 2 ^ bits <? count then value mod 2 ^ bits else value mod 2 ^ (bits - 1).
Proof.
  intros H bits. unfold stable_mod. destruct (Z.eqb_spec count 0); [lia|].
  rewrite leading_zeros_log2_up by done. fold bits. pose proof (log2_up_range _ H) as Hb.
  fold bits in Hb.
  assert (wsub match checked_shl_one bits with Some m => m | None => 0 end 1 = Z.ones bits) as ->.
  { unfold checked_shl_one. rewrite Z.ones_equiv. unfold wsub, wrap.
    destruct (Z.ltb_spec bits 32).
    - assert (2 ^ bits <= 2 ^ 32) by (apply Z.pow_le_mono_r; lia).
      pose proof (Z.pow_pos_nonneg 2 bits). rewrite Z.mod_small; lia.
    - replace bits with 32 by lia. done. }
  rewrite Z.land_ones by lia. split_if; [done|].
  destruct (Z.eq_dec bits 0) as [E|E].
  - bool_prop. rewrite E, Z.pow_0_r, Z.mod_1_r in *. lia.
  - rewrite Z.shiftr_div_pow2 by lia. rewrite Z.ones_div_pow2 by lia. by rewrite Z.land_ones by lia.
Qed.

Lemma log2_up_pow count :
  2 <= count -> 2 ^ (Z.log2_up count - 1) < count <= 2 ^ Z.log2_up count.
Proof. intros. pose proof (Z.log2_up_spec count). rewrite Z.sub_1_r. lia. Qed.

(** Adding one placement group moves objects only into the new group. *)
Lemma stable_mod_succ value count :
  0 <= value -> 1 <= count -> count + 1 < 2 ^ 32 ->
  stable_mod value (count + 1) = stable_mod value count
  \/ stable_mod value (count + 1) = count.
Proof.
  intros Hv Hc Hc'. rewrite !stable_mod_eq by lia.
  destruct (Z.eq_dec count 1) as [->|N1].
  { change (Z.log2_up (1 + 1)) with 1. change (Z.log2_up 1) with 0.
    rewrite Z.pow_0_r, Z.mod_1_r, Z.pow_1_r. change (2 ^ (1 - 1)) with 1.
    rewrite ?Z.mod_1_r. pose proof (Z.mod_pos_bound value 2). split_if; bool_prop; lia. }
  pose proof (log2_up_pow count ltac:(lia)) as P1.
  pose proof (log2_up_pow (count + 1) ltac:(lia)) as P2.
  pose proof (Z.log2_up_le_mono count (count + 1) ltac:(lia)) as M.
  set (b := Z.log2_up count) in *. set (b' := Z.log2_up (count + 1)) in *.
  assert (0 < b) by (apply Z.log2_up_pos; lia).
  destruct (Z.eq_dec b b') as [<-|Nb].
  - pose proof (Z.mod_pos_bound value (2 ^ b) ltac:(apply Z.pow_pos_nonneg; lia)).
    split_if; bool_prop; lia.
  - assert (count = 2 ^ b) as E.
    { assert (2 ^ b <= 2 ^ (b' - 1)) by (apply Z.pow_le_mono_r; lia). lia. }
    assert (b' = b + 1) as ->.
    { destruct (Z.le_gt_cases b' (b + 1)); [lia|].
      assert (2 ^ (b + 1) <= 2 ^ (b' - 1)) as Hp by (apply Z.pow_le_mono_r; lia).
      rewrite Z.pow_add_r in Hp by lia. lia. }
    replace (b + 1 - 1) with b by lia.
    assert (2 ^ (b + 1) = 2 ^ b * 2) as E2 by (rewrite Z.pow_add_r by lia; done).
    pose proof (Z.mod_pos_bound value (2 ^ b) ltac:(apply Z.pow_pos_nonneg; lia)).
    rewrite E2, Z.rem_mul_r by lia.
    pose proof (Z.mod_pos_bound (value / 2 ^ b) 2).
    split_if; bool_prop; nia.
Qed.

Lemma stable_mod_range value count :
  0 <= value -> 1 <= count < 2 ^ 32 -> 0 <= stable_mod value count < count.
Proof.
  intros Hv Hc. rewrite stable_mod_eq by done.
  pose proof (log2_up_range _ Hc).
  pose proof (Z.mod_pos_bound value (2 ^ Z.log2_up count) ltac:(apply Z.pow_pos_nonneg; lia)).
  split_if; bool_prop; [lia|].
  destruct (Z.eq_dec count 1) as [->|N].
  - change (Z.log2_up 1) with 0 in *. rewrite Z.pow_0_r, Z.mod_1_r in *. lia.
  - pose proof (log2_up_pow count ltac:(lia)).
    assert (0 < Z.log2_up count) by (apply Z.log2_up_pos; lia).
    pose proof (Z.mod_pos_bound value (2 ^ (Z.log2_up count - 1))
      ltac:(apply Z.pow_pos_nonneg; lia)). lia.
Qed.

(** ** Properties *)

(** Splitting placement groups is stable: when a pool grows from [count] to
    [count'] groups, an object keeps its group unless it moves into one of the
    groups that were added. *)
Theorem stable_mod_growth value count count' :
  0 <= value -> 1 <= count -> count <= count' -> count' < 2 ^ 32 ->
  stable_mod value count' = stable_mod value count
  \/ count <= stable_mod value count' < count'.
Proof.
  intros Hv Hc Hle Hc'.
  pose proof (stable_mod_range value count' Hv ltac:(lia)) as Hr'.
  enough (stable_mod value count' = stable_mod value count \/ count <= stable_mod value count')
    by lia.
  clear Hr'. revert Hc'. replace count' with (count + Z.of_nat (Z.to_nat (count' - count))) by lia.
  induction (Z.to_nat (count' - count)) as [|n IH]; intros Hc'.
  - left. f_equal. lia.
  - replace (count + Z.of_nat (S n)) with ((count + Z.of_nat n) + 1) by lia.
    destruct (stable_mod_succ value (count + Z.of_nat n) Hv) as [->| ->]; [lia|lia| |].
    + apply IH. lia.
    + right. lia.
Qed.

Lemma stable_mod_growth_witness :
  stable_mod 27 20 = stable_mod 27 12 \/ 12 <= stable_mod 27 20 < 20.
Proof. apply stable_mod_growth; lia. Defined.

(** [stable_mod] lands in the group range, fixes every group number below
    the count, and is the plain remainder when the count is a power of two. *)
Theorem stable_mod_correct value count :
  0 <= value -> 1 <= count < 2 ^ 32 ->
  0 <= stable_mod value count < count
  /\ (value < count -> stable_mod value count = value)
  /\ (forall k, 0 <= k -> count = 2 ^ k -> stable_mod value count = value mod count).
Proof.
  intros Hv Hc. split; [by apply stable_mod_range|]. rewrite stable_mod_eq by done.
  pose proof (log2_up_range _ Hc). split.
  - intros Hlt. rewrite Z.mod_small; [by destruct (Z.ltb_spec value count); [|lia]|].
    split; [done|]. destruct (Z.eq_dec count 1) as [->|N]; [by simpl|].
    pose proof (log2_up_pow count ltac:(lia)). lia.
  - intros k Hk ->. rewrite Z.log2_up_pow2 by done.
    pose proof (Z.mod_pos_bound value (2 ^ k)).
    by destruct (Z.ltb_spec (value mod 2 ^ k) (2 ^ k)); [|lia].
Qed.

Lemma stable_mod_correct_witness :
  0 <= stable_mod 0x96fc93a8 32 < 32
  /\ (0x96fc93a8 < 32 -> stable_mod 0x96fc93a8 32 = 0x96fc93a8)
  /\ (forall k, 0 <= k -> 32 = 2 ^ k -> stable_mod 0x96fc93a8 32 = 0x96fc93a8 mod 32).
Proof. apply stable_mod_correct; lia. Defined.

(** The Jenkins mix loses nothing: on 32-bit words it is undone by
    [unmix], so two different inputs never mix to the same triple. *)
Theorem mix_invertible a b c :
  in_u 32 a -> in_u 32 b -> in_u 32 c ->
  u32_triple (mix a b c) /\ (let '(x, y, z) := mix a b c in unmix x y z = (a, b, c)).
Proof.
  intros Ha Hb Hc. split; [by apply mix_range|].
  destruct (mix a b c) as [[x y] z] eqn:E. rewrite unmix_rounds, <- E, mix_rounds.
  rewrite !unmix_mix_round; [done|..]; try lia; repeat apply mix_round_range; try lia; by split_and!.
Qed.

Lemma mix_invertible_witness :
  u32_triple (mix 1 2 3) /\ (let '(x, y, z) := mix 1 2 3 in unmix x y z = (1, 2, 3)).
Proof. apply mix_invertible; vm_compute; intuition discriminate. Defined.
