(* ===== verification/CrushLn.v ===== *)
(** * The fixed-point logarithm of CRUSH (src/crush/ln.rs)

    [crush_ln] reads two tables that the source keeps as base64 text and
    decodes, once, with the [base64] crate.  That crate is not part of the
    repository: it is the class [Base64Engine] below, a decoder together with
    the one law of it the client relies on, that it inverts the RFC 4648
    encoding.  [reference_engine] shows that the law can be met. *)

From S2P Require Import Prelude.
From Stdlib Require Import ZArith Lia String Strings.Byte.
From stdpp Require Import base option list numbers.

Open Scope string_scope.
Open Scope list_scope.
Open Scope Z_scope.

(** ** RFC 4648 base64 *)

Definition base64_alphabet : list byte :=
  list_byte_of_string "ABCDEFGHIJKLMNOPQRSTUVWXYZabcdefghijklmnopqrstuvwxyz0123456789+/".

Definition base64_pad : byte := x3d.

Definition sextet (n : Z) : byte := nth (Z.to_nat (n mod 64)) base64_alphabet x00.

(** The big-endian value of three bytes. *)
Definition group24 (a b c : byte) : Z :=
  Z_of_byte a * 65536 + Z_of_byte b * 256 + Z_of_byte c.

Fixpoint base64_encode (l : list byte) : list byte :=
  match l with
  | [] => []
  | [a] =>
      let n := group24 a x00 x00 in
      [sextet (n / 262144); sextet (n / 4096); base64_pad; base64_pad]
  | [a; b] =>
      let n := group24 a b x00 in
      [sextet (n / 262144); sextet (n / 4096); sextet (n / 64); base64_pad]
  | a :: b :: c :: rest =>
      let n := group24 a b c in
      sextet (n / 262144) :: sextet (n / 4096) :: sextet (n / 64) :: sextet n
      :: base64_encode rest
  end.

(** The third-party decoder and the law the client uses. *)
Class Base64Engine : Type := {
  STANDARD_decode : list byte -> option (list byte);
  STANDARD_decode_encode l : STANDARD_decode (base64_encode l) = Some l
}.

(** ** The tables *)

Definition concat_str (lines : list string) : list byte :=
  concat (map list_byte_of_string lines).

Definition CRUSH_LN_LH_BASE64 : list byte :=
  concat_str [
    "AAAAAAAAAAAAAALfyhbd4QAABbnloXC0AAAIjmjqiZoAAAtdabrHfgAADib9XIVV";
    "AAAQ6zifop8AABOqL90n8QAAFmP2+skTAAAZGKFuRjMAABvIQkCtqwAAHnLsEX+l";
    "AAAhGLEZtPMAACO5oy6qVgAAJlXTxPFcAAAo7VPzB+4AACuANHP3rQAALg6Fqd4E";
    "AAAwmFegXgcAADMdug784QAANZ68W2nZAAA4G22bspsAADqT3JhksgAAPQgXzpzU";
    "AAA/eC1yBNAAAEHkK27AwAAAREwfa0wtAABGsBbKR8EAAEkQHqw4HAAAS2xD8TZq";
    "AABNxJM6kzcAAFAZGOxsEQAAUmnhLzRuAABUtvfxMloAAFcAaOfvWgAAWUY/kZ3u";
    "AABbiIc2dDMAAF3HSun77AAAYAKVjFhxAABiOnHLgsgAAGRu6iR8XAAAZqAI5HiM";
    "AABozdgp/YEAAGr4YeX8fQAAbR+v3OIKAABvQ8unnkAAAHFkvrSlbQAAc4KSSOlh";
    "AAB1nU+Ay6gAAHe0/1EI2QAAecmqh51TAAB721nMo4gAAH3qFaMsGwAAf/Xmag/+";
    "AACB/tRcvMsAAIQE55P7gQAAhggoBrHVAACICJ2KnkcAAIoGT9UPKgAAjAFGe5S7";
    "AACN+Yj0roAAAI/vHph0CQAAkeIOoTk+AACT0mAsLl8AAJXAGjn71gAAl6tDr1n5";
    "AACZk+NVpOUAAJt5/9tsiwAAnV2f1QELAACfPsm8+4AAAKEdg/TDVQAAovnUxRA5";
    "AACk08JeaNwAAKarUtmedgAAqICMOEVHAACqU3RlKhwAAKwkETTE6QAArfJoZaih";
    "AACvvn+g8E0AALGIXHqpggAAs1AEcjxGAAC1FXzy0HgAALbYy1OwygAAuJn02Ktj";
    "AAC6WP6ycDoAALwV7f7tMgAAvdDHyagXAAC/iZEMFngAAMFATq3zgwAAwvUFhZPZ";
    "AADEp7pYN3wAAMZYcdpZ3QAAyAcwsAAWAADJs/ttBVkAAMte1pVlrwAAzQfGnYcC";
    "AADOrs/qgIUAANBT9tJgiQAA0fc/nHDAAADTmK6BeQYAANU4R6wApgAA1tYPOI5B";
    "AADYcgk15kMAANoMOaVIBAAA26SkeqmWAADdO02c8ksAAN7QOOYz8wAA4GNqI+Lu";
    "AADh9OUXDQIAAOOErXSPDgAA5RLG5UmYAADmnzUGVEgAAOgp+2kwRAAA6bMdk/mO";
    "AADrOp8Bl1AAAOzAgyHrMAAA7kTNWf+rAADvx4EENXkAAPFIoXBwCgAA8sgx5EEW";
    "AAD0RjWbE1MAAPXCr8ZURwAA9z2jjZ1KAAD4txQO27EAAPovBF54MgAA+6V3h319";
    "AAD9GnCLvhEAAP6N8mP5VwAA//8AAAAA"
  ].

Definition CRUSH_LN_LL_BASE64 : list byte :=
  concat_str [
    "AAAAAAAAAAAAAAAC4qYKAAAAAAcMtk7FAAAACe9QzmcAAAAM0eWI/QAAAA+0dH6c";
    "AAAAEpb9r14AAAAVeYEbWAAAABhb/sKhAAAAGz52pVIAAAAeIOjDgAAAACEDVR1D";
    "AAAAI+W7srIAAAAmyByD5AAAACmqd5DwAAAALIzM2e0AAAAvbxxe8gAAADJRZiAX";
    "AAAANTOqHXEAAAA4FehXGgAAADr4IM0mAAAAPdpTf64AAABAvIBuyAAAAEOep5qM";
    "AAAARoDJAxAAAABJYuSobAAAAExE+oq2AAAATycKqgYAAABSCRUGcgAAAFTrGaAT";
    "AAAAV80Ydv0AAABarxGLSgAAAF2RBN0PAAAAYHLybGQAAABjVNo5YAAAAGY2vEQa";
    "AAAAaRiYjKgAAABr+m8TIgAAAG7cP9efAAAAcb4K2jUAAAB0n9Aa/QAAAHeBj5oM";
    "AAAAemNJV3oAAAB9RP1TXgAAAIAmq43OAAAAgwhUBuMAAACF6fa+sgAAAIjLk7VS";
    "AAAAi60q6twAAACOjrxfZQAAAJFwSBMFAAAAlFHOBdMAAACXM0435QAAAJoUyKlT";
    "AAAAnPY9WjMAAACf16xKnQAAAKKwfzRYAAAApZp46moAAACoe9aZ+wAAAKtdLolw";
    "AAAArj6AuOMAAACxH80oaQAAALQBE9gYAAAAtuJUyAoAAAC5w4/4UwAAALykxWkM";
    "AAAAv4X1GkoAAADCZx8MJgAAAMVIQz62AAAAyClhshEAAADLCnpmTQAAAM3rjVuC";
    "AAAA0MyakcgAAADTraIJMwAAANaOo8HdAAAA2W+fu9sAAADcUJX3RAAAAN8xhnQw";
    "AAAA4hJxMrUAAADk81Yy6gAAAOfUNXTmAAAA6rUO+MEAAADtleK+kAAAAPB2sMZs";
    "AAAA81d5EGoAAAD2ODucogAAAPkY+GsqAAAA+/mvfBoAAAD+2mDPiAAAAQG7DGWM";
    "AAABBJuyPjwAAAEHfFJZrwAAAQpc7Lf8AAABDT2BWToAAAEQHhA9fwAAARL+mWTk";
    "AAABFd8cz34AAAEYv5p9ZAAAARugEm6tAAABHoCEo3EAAAEhYPEbxgAAASRBV9fD";
    "AAABJyG4138AAAEqAhQbEAAAASziaaKOAAABL8K5bg8AAAEyowN9qgAAATWDR9F3";
    "AAABOGOGaYwAAAE7Q79F/wAAAT4j8mbpAAABQQQfzF4AAAFD5Ed2eAAAAUbEaWVL";
    "AAABSaSFmPAAAAFMhJwRfAAAAU9krM8IAAABUkS30akAAAFVJL0ZdgAAAVgEvKaH";
    "AAABWuS2ePIAAAFdxKqQzgAAAWCkmO4xAAABY4SBkTQAAAFmZGR57AAAAWlEQahw";
    "AAABbCQZHNcAAAFt9soZvQAAAXHjtteqAAABdMN9HkQAAAF3oz2rHAAAAXqC+H5J";
    "AAABfWKtl+IAAAGAQlz3/gAAAYKwfzRYAAABhgGqjBkAAAGI4UjARgAAAYvA4TtS";
    "AAABjqBz/VIAAAGRgAEGXQAAAZRfiFaLAAABlz8J7fIAAAGaHoXMqgAAAZz9+/LI";
    "AAABn91sYGMAAAGivNcVkwAAAaWcPBJuAAABqHubVwsAAAGrWvTjgAAAAa46SLfl";
    "AAABsRmW1FAAAAGz+N842QAAAbbYIeWVAAABubde2psAAAG8lpYYAwAAAb91x53j";
    "AAABwlTzbFEAAAHFNBmDZQAAAcgTOeM2AAAByvJUi9kAAAHN0Wl9ZwAAAdCweLf1";
    "AAAB04+CO5oAAAHWboYIbQAAAdlNhB6GAAAB3Cx8ffkAAAHfC28m3wAAAeHqXBlO";
    "AAAB5MlDVV0AAAHnqCTbIwAAAeqHAKq1AAAB7WXWxCsAAAHwRKcnnQAAAfMjcdUf";
    "AAAB9gI2zMoAAAH44PYOswAAAfu/r5rzAAAB/p5jcZ4AAAIBfRGSzAAAAgRbuf6U";
    "AAACBzpctQ0AAAIJwG5iEgAAAgz3kQJqAAACD9YimXwAAAISsH80WAAAAhWTNKjY";
    "AAACGHG1IVAAAAIbUC/lFwAAAh1qc6ePAAACIQ0UTu4AAAIj6331LAAAAibJ4ecT";
    "AAACKahAJLsAAAIsI2ebTgAAAi9k64OoAAACMkM4pRsAAAI1IYASqQAAAjf/wcxp";
    "AAACOiw7DqQAAAI9E+6AWwAAAkA16SIfAAACQ3iPryUAAAJGVrTnNQAAAkftZGv+";
    "AAACTBLuPZgAAAJO8QJcGgAAAlHPEMeZAAACVJJkTWUAAAJXixyF7gAAAlppGdjw";
    "AAACXRPugFsAAAJgJQNnFgAAAmKWRTiCAAACZeDWK1MAAAJovrcB8wAAAmuckiZe";
    "AAACbTL3mKkAAAJxWDdY6wAAAnQ2AWc7AAACdxPFw7AAAAJ58YRuXwAAAnzPPWdh";
    "AAACfmWArssAAAKCip5EswAAAoVoRikyAAACh72/UlUAAAKLI4TeSgAAAo0T7oBb";
    "AAACkDXpIh8AAAKSlkU4ggAAApaZvfthAAACmQKjeqsAAAKcVLhkyQAAAp3qvRCD";
    "AAACog+cC7UAAAKkx2BdYQAAAqe9v1JVAAACqWBW2vwAAAKsPa8U7wAAAq8bAZ7K";
    "AAACspZFOIIAAAK10CLYDwAAArj6RxyzAAACupAS5xMAAAK9bUkBzAAAAsBKeWz2";
    "AAACwyekKKYAAALGGl6PTAAAAsjh6JH2AAACy78CP8IAAALOnBY+bgAAAtF5JI4T";
    "AAAC1FYtLsYAAALXMzAgnQAAAtoQLWOwAAAC3O0k+BQ="
  ].

(** ** The logarithm

    [None] is a panic: a table that does not decode, a row out of range, a
    subtraction below zero, a division by zero or a product beyond 64 bits. *)

(** [table_u64]. *)
Definition table_u64 (table : list byte) (index : Z) : option Z :=
  let offset := index * 8 in
  if zlen table <? offset + 8 then None
  else Some (be_value (take 8 (drop (Z.to_nat offset) table))).

Definition leading_zeros_u32 (x : Z) : Z := if x =? 0 then 32 else 31 - Z.log2 x.

(** [a.div_ceil(b)]. *)
Definition div_ceil (a b : Z) : Z := (a + b - 1) / b.

(** The normalisation of [x] into [0x8000 ..= 0x10000], with its exponent. *)
Definition ln_normalize (x : Z) : option (Z * Z) :=
  if Z.land x 0x18000 =? 0 then
    let shift := leading_zeros_u32 (Z.land x 0x1ffff) - 16 in
    if 15 <? shift then None else Some (wrap 32 (Z.shiftl x shift), 15 - shift)
  else Some (x, 15).

Section Logarithm.
  Context {base64 : Base64Engine}.

Definition crush_ln_lh : option (list byte) := STANDARD_decode CRUSH_LN_LH_BASE64.
Definition crush_ln_ll : option (list byte) := STANDARD_decode CRUSH_LN_LL_BASE64.

Definition crush_ln (input : Z) : option Z :=
  let x := wrap 32 (input + 1) in
  '(x, exponent) ← ln_normalize x;
  let coarse := Z.shiftr x 8 in
  if (coarse <? 128) then None else
  let reciprocal := div_ceil (Z.shiftl 1 55) coarse in
  if 2 ^ 64 <=? x * reciprocal then None else
  let fraction := Z.land (Z.shiftr (x * reciprocal) 48) 0xff in
  lh ← crush_ln_lh;
  ll ← crush_ln_ll;
  high ← table_u64 lh (coarse - 128);
  low ← table_u64 ll fraction;
  let logarithm := high + low in
  Some (Z.shiftl exponent 44 + Z.shiftr logarithm 4).

End Logarithm.

(** ** A reference decoder *)

Definition unsextet (b : byte) : option Z :=
  match list_find (fun c => c = b) base64_alphabet with
  | Some (i, _) => Some (Z.of_nat i)
  | None => None
  end.

Definition ungroup24 (n : Z) : byte * byte * byte :=
  (byte_of_Z (n / 65536), byte_of_Z (n / 256), byte_of_Z n).

(** The bytes of one padded or full group of four characters. *)
Definition base64_decode_group (p q r s : byte) : option (list byte) :=
  a ← unsextet p;
  b ← unsextet q;
  if decide (r = base64_pad) then
    let '(x, _, _) := ungroup24 (a * 262144 + b * 4096) in Some [x]
  else
    c ← unsextet r;
    if decide (s = base64_pad) then
      let '(x, y, _) := ungroup24 (a * 262144 + b * 4096 + c * 64) in Some [x; y]
    else
      d ← unsextet s;
      let '(x, y, z) := ungroup24 (a * 262144 + b * 4096 + c * 64 + d) in Some [x; y; z].

Fixpoint base64_decode (l : list byte) : option (list byte) :=
  match l with
  | [] => Some []
  | p :: q :: r :: s :: rest =>
      g ← base64_decode_group p q r s;
      tail ← base64_decode rest;
      Some (g ++ tail)
  | _ => None
  end.

Lemma unsextet_sextet n : unsextet (sextet n) = Some (n mod 64).
Proof.
  assert (forallb (fun k => bool_decide (unsextet (sextet (Z.of_nat k)) = Some (Z.of_nat k)))
    (seq 0 64) = true) as H by (vm_compute; done).
  rewrite forallb_forall in H. pose proof (Z.mod_pos_bound n 64 eq_refl) as Hn.
  specialize (H (Z.to_nat (n mod 64))). rewrite in_seq in H.
  specialize (H ltac:(lia)). apply bool_decide_eq_true in H.
  rewrite Z2Nat.id in H by lia. unfold sextet in *. by rewrite Z.mod_mod in H by lia.
Qed.

Lemma sextet_not_pad n : sextet n <> base64_pad.
Proof.
  intros H. assert (unsextet (sextet n) = unsextet base64_pad) as E by by rewrite H.
  rewrite unsextet_sextet in E. by vm_compute in E.
Qed.

(** Four sextets carry the 24 bits of their group. *)
Lemma sextets_value n :
  0 <= n < 16777216 ->
  (n / 262144) mod 64 * 262144 + (n / 4096) mod 64 * 4096 + (n / 64) mod 64 * 64 + n mod 64 = n.
Proof. intros. Z.to_euclidean_division_equations. lia. Qed.

Lemma ungroup_group a b c : ungroup24 (group24 a b c) = (a, b, c).
Proof.
  unfold ungroup24, group24.
  pose proof (Z_of_byte_range a). pose proof (Z_of_byte_range b). pose proof (Z_of_byte_range c).
  assert ((Z_of_byte a * 65536 + Z_of_byte b * 256 + Z_of_byte c) / 65536 = Z_of_byte a) as ->.
  { Z.to_euclidean_division_equations. lia. }
  assert (forall x y, 0 <= Z_of_byte x -> byte_of_Z (y * 256 + Z_of_byte x) = x) as HB.
  { intros x y _. apply Z_of_byte_inj. rewrite Z_of_byte_of_Z, Z.add_comm, Z.mod_add by lia.
    apply Z.mod_small, Z_of_byte_range. }
  assert ((Z_of_byte a * 65536 + Z_of_byte b * 256 + Z_of_byte c) / 256
    = Z_of_byte a * 256 + Z_of_byte b) as ->.
  { Z.to_euclidean_division_equations. lia. }
  replace (Z_of_byte a * 65536 + Z_of_byte b * 256 + Z_of_byte c)
    with ((Z_of_byte a * 256 + Z_of_byte b) * 256 + Z_of_byte c) by lia.
  by rewrite byte_of_Z_of_byte, !HB by lia.
Qed.

Lemma group24_range a b c : 0 <= group24 a b c < 16777216.
Proof.
  unfold group24. pose proof (Z_of_byte_range a). pose proof (Z_of_byte_range b).
  pose proof (Z_of_byte_range c). lia.
Qed.

Lemma base64_decode_encode_aux n l :
  (length l <= n)%nat -> base64_decode (base64_encode l) = Some l.
Proof.
  revert l. induction n as [|n IH]; intros l Hl.
  { by destruct l; [|simpl in Hl; lia]. }
  destruct l as [|a [|b [|c rest]]]; [done|..].
  - cbn [base64_encode base64_decode]. unfold base64_decode_group.
    rewrite !unsextet_sextet. cbn [mbind option_bind]. rewrite decide_True by done.
    assert ((group24 a x00 x00 / 262144) mod 64 * 262144 + (group24 a x00 x00 / 4096) mod 64 * 4096
      = group24 a x00 x00) as ->.
    { pose proof (group24_range a x00 x00). unfold group24 in *. change (Z_of_byte x00) with 0 in *.
      Z.to_euclidean_division_equations. lia. }
    by rewrite ungroup_group.
  - cbn [base64_encode base64_decode]. unfold base64_decode_group.
    rewrite !unsextet_sextet. cbn [mbind option_bind]. rewrite decide_False by apply sextet_not_pad.
    rewrite decide_True by done.
    assert ((group24 a b x00 / 262144) mod 64 * 262144 + (group24 a b x00 / 4096) mod 64 * 4096
      + (group24 a b x00 / 64) mod 64 * 64 = group24 a b x00) as ->.
    { pose proof (group24_range a b x00). unfold group24 in *. change (Z_of_byte x00) with 0 in *.
      Z.to_euclidean_division_equations. lia. }
    by rewrite ungroup_group.
  - cbn [base64_encode base64_decode]. unfold base64_decode_group.
    rewrite !unsextet_sextet. cbn [mbind option_bind]. rewrite !decide_False by apply sextet_not_pad.
    rewrite sextets_value by apply group24_range. rewrite ungroup_group.
    rewrite IH by (simpl in Hl; lia). done.
Qed.

Lemma base64_decode_encode l : base64_decode (base64_encode l) = Some l.
Proof. by eapply base64_decode_encode_aux. Qed.

Definition reference_engine : Base64Engine :=
  {| STANDARD_decode := base64_decode; STANDARD_decode_encode := base64_decode_encode |}.

(** The pinned vectors of the source's test. *)
Example crush_ln_vectors :
  map (crush_ln (base64 := reference_engine)) [0; 1; 2; 255; 256; 32767; 65534; 65535]
  = map Some [0; 0x100000000000; 0x195c01a39fbd; 0x800000000000; 0x80171e3b6d7a;
              0xf00000000000; 0xfffffd61ad10; 0xfffff0000000].
Proof. vm_compute. done. Qed.

(** ** The decoded tables *)

Definition lh_table : list byte := default [] (base64_decode CRUSH_LN_LH_BASE64).
Definition ll_table : list byte := default [] (base64_decode CRUSH_LN_LL_BASE64).

Definition row (table : list byte) (i : nat) : Z := be_value (take 8 (drop (i * 8) table)).

Lemma lh_table_encoded : CRUSH_LN_LH_BASE64 = base64_encode lh_table.
Proof. vm_compute. done. Qed.
Lemma ll_table_encoded : CRUSH_LN_LL_BASE64 = base64_encode ll_table.
Proof. vm_compute. done. Qed.

Lemma lh_table_length : zlen lh_table = 1032.
Proof. vm_compute. done. Qed.
Lemma ll_table_length : zlen ll_table = 2048.
Proof. vm_compute. done. Qed.

Lemma crush_ln_tables `{Base64Engine} :
  crush_ln_lh = Some lh_table /\ crush_ln_ll = Some ll_table.
Proof.
  unfold crush_ln_lh, crush_ln_ll. rewrite lh_table_encoded, ll_table_encoded.
  by rewrite !STANDARD_decode_encode.
Qed.

Lemma table_u64_row table i :
  0 <= i -> (i + 1) * 8 <= zlen table -> table_u64 table i = Some (row table (Z.to_nat i)).
Proof.
  intros Hi Hl. unfold table_u64, row.
  destruct (Z.ltb_spec (zlen table) (i * 8 + 8)); [lia|].
  by rewrite Z2Nat.inj_mul by lia.
Qed.

(** The fraction the reciprocal of a coarse step gives. *)
Definition ln_fraction (x : Z) : Z :=
  Z.land (Z.shiftr (x * div_ceil (Z.shiftl 1 55) (Z.shiftr x 8)) 48) 0xff.

(** The second table is increasing. *)
Lemma ll_rows_sorted i j : (i <= j < 256)%nat -> row ll_table i <= row ll_table j.
Proof.
  assert (forallb (fun k => row ll_table k <=? row ll_table (S k)) (seq 0 255) = true) as H
    by (vm_compute; done).
  rewrite forallb_forall in H. intros [Hij Hj]. induction Hij as [|j Hij IH]; [lia|].
  transitivity (row ll_table j); [apply IH; lia|].
  apply Z.leb_le, H, in_seq. lia.
Qed.

Lemma row_nonneg table i : 0 <= row table i.
Proof. unfold row, be_value. apply le_value_range. Qed.

(** For every coarse step, the row of the first table plus the row of the
    second at the greatest fraction of that step stays below [2 ^ 48]. *)
Lemma ln_rows_bounded c :
  (128 <= c < 256)%nat ->
  row lh_table (c - 128) + row ll_table (Z.to_nat (ln_fraction (Z.of_nat c * 256 + 255))) < 2 ^ 48.
Proof.
  assert (forallb (fun c => row lh_table (c - 128)
    + row ll_table (Z.to_nat (ln_fraction (Z.of_nat c * 256 + 255))) <? 2 ^ 48) (seq 128 128) = true)
    as H by (vm_compute; done).
  rewrite forallb_forall in H. intros Hc. apply Z.ltb_lt, H, in_seq. lia.
Qed.

Lemma land_ff n : Z.land n 0xff = n mod 256.
Proof. change 0xff with (Z.ones 8). by rewrite Z.land_ones. Qed.

(** The scaled quotient of a normalised input, before its low byte is taken. *)
Lemma ln_quotient_range x :
  32768 <= x < 65536 ->
  let coarse := x / 256 in
  32768 <= x * div_ceil (2 ^ 55) coarse / 2 ^ 48 < 33024
  /\ x * div_ceil (2 ^ 55) coarse < 2 ^ 64.
Proof.
  intros Hx coarse. assert (128 <= coarse < 256) as Hc.
  { unfold coarse. Z.to_euclidean_division_equations. lia. }
  assert (coarse * 256 <= x < coarse * 256 + 256) as Hxc.
  { unfold coarse. Z.to_euclidean_division_equations. lia. }
  clearbody coarse. unfold div_ceil.
  set (r := (2 ^ 55 + coarse - 1) / coarse).
  assert (2 ^ 55 <= r * coarse < 2 ^ 55 + coarse) as Hr.
  { unfold r. Z.to_euclidean_division_equations. nia. }
  clearbody r. assert (x * r < 33024 * 2 ^ 48) by nia.
  assert (32768 * 2 ^ 48 <= x * r) by nia.
  split; [|lia]. split.
  - apply Z.div_le_lower_bound; lia.
  - apply Z.div_lt_upper_bound; lia.
Qed.

Lemma ln_fraction_eq x :
  32768 <= x < 65536 ->
  ln_fraction x = x * div_ceil (2 ^ 55) (x / 256) / 2 ^ 48 - 32768
  /\ 0 <= ln_fraction x < 256.
Proof.
  intros Hx. pose proof (ln_quotient_range x Hx) as [Hq _]. cbv zeta in Hq.
  unfold ln_fraction. rewrite land_ff, !Z.shiftr_div_pow2 by lia.
  change (2 ^ 8) with 256. change (Z.shiftl 1 55) with (2 ^ 55).
  set (q := x * div_ceil (2 ^ 55) (x / 256) / 2 ^ 48) in *. clearbody q.
  replace q with (q - 32768 + 128 * 256) by lia. rewrite Z.mod_add by lia.
  rewrite Z.mod_small; lia.
Qed.

Lemma ln_fraction_mono x :
  32768 <= x < 65536 -> ln_fraction x <= ln_fraction (x / 256 * 256 + 255).
Proof.
  intros Hx. assert (x <= x / 256 * 256 + 255 < 65536) as Hm.
  { Z.to_euclidean_division_equations. lia. }
  destruct (ln_fraction_eq x Hx) as [-> _].
  destruct (ln_fraction_eq (x / 256 * 256 + 255) ltac:(lia)) as [-> _].
  assert ((x / 256 * 256 + 255) / 256 = x / 256) as ->.
  { rewrite Z.div_add_l by lia. change (255 / 256) with 0. lia. }
  apply Z.sub_le_mono_r, Z.div_le_mono; [lia|]. apply Z.mul_le_mono_nonneg_r; [|lia].
  unfold div_ceil. apply Z.div_pos; Z.to_euclidean_division_equations; lia.
Qed.

Lemma ln_normalize_spec x :
  1 <= x <= 65536 ->
  exists y e, ln_normalize x = Some (y, e) /\ 32768 <= y <= 65536 /\ 0 <= e <= 15.
Proof.
  intros Hx. unfold ln_normalize. destruct (Z.eq_dec x 65536) as [->|N].
  { exists 65536, 15. split; [done|lia]. }
  assert (Z.land x 0x1ffff = x) as ->.
  { change 0x1ffff with (Z.ones 17). rewrite Z.land_ones by lia. apply Z.mod_small. lia. }
  destruct (Z.eqb_spec (Z.land x 0x18000) 0) as [E|E].
  - assert (x < 32768) as Hlt.
    { destruct (Z.lt_ge_cases x 32768); [done|]. exfalso.
      assert (Z.testbit (Z.land x 0x18000) 15 = true) as T.
      { rewrite Z.land_spec. apply andb_true_intro. split; [|done].
        apply Z.testbit_true; [lia|].
        assert (x / 2 ^ 15 = 1) as -> by (Z.to_euclidean_division_equations; lia). done. }
      by rewrite E, Z.bits_0 in T. }
    unfold leading_zeros_u32. destruct (Z.eqb_spec x 0); [lia|].
    pose proof (Z.log2_spec x ltac:(lia)) as [L1 L2]. pose proof (Z.log2_nonneg x).
    assert (Z.log2 x < 15) by (apply Z.log2_lt_pow2; lia).
    replace (31 - Z.log2 x - 16) with (15 - Z.log2 x) by lia.
    destruct (Z.ltb_spec 15 (15 - Z.log2 x)); [lia|].
    assert (32768 <= x * 2 ^ (15 - Z.log2 x) < 65536) as Hr.
    { rewrite Z.pow_succ_r in L2 by lia.
      assert (2 ^ Z.log2 x * 2 ^ (15 - Z.log2 x) = 32768) as P.
      { rewrite <- Z.pow_add_r by lia. by replace (Z.log2 x + (15 - Z.log2 x)) with 15 by lia. }
      pose proof (Z.pow_pos_nonneg 2 (15 - Z.log2 x)). nia. }
    eexists _, _. split; [done|]. rewrite Z.shiftl_mul_pow2 by lia.
    rewrite wrap_id; [lia|]. unfold in_u. lia.
  - exists x, 15. split; [done|]. split; [|lia]. split; [|lia].
    destruct (Z.le_gt_cases 32768 x); [done|]. exfalso. apply E.
    apply Z.bits_inj'. intros n Hn. rewrite Z.land_spec, Z.bits_0.
    destruct (Z.lt_ge_cases n 15).
    + assert (Z.testbit 0x18000 n = false) as ->; [|by rewrite andb_false_r].
      change 0x18000 with (3 * 2 ^ 15). by apply Z.mul_pow2_bits_low.
    + rewrite (Z.bits_above_log2 x n); [done|lia|]. apply Z.log2_lt_pow2; [lia|].
      assert (2 ^ 15 <= 2 ^ n) by (apply Z.pow_le_mono_r; lia). lia.
Qed.

(** The rows read for a normalised input, and their sum. *)
Lemma ln_rows y :
  32768 <= y <= 65536 ->
  exists high low,
    table_u64 lh_table (Z.shiftr y 8 - 128) = Some high
    /\ table_u64 ll_table (ln_fraction y) = Some low
    /\ 0 <= high + low < 2 ^ 48.
Proof.
  intros Hy. destruct (Z.eq_dec y 65536) as [->|N].
  { exists (row lh_table 128), (row ll_table 0).
    split; [vm_compute; done|]. split; [vm_compute; done|].
    split; vm_compute; [discriminate|done]. }
  assert (32768 <= y < 65536) as Hy' by lia. rewrite Z.shiftr_div_pow2 by lia.
  change (2 ^ 8) with 256.
  assert (128 <= y / 256 < 256) as Hc by (Z.to_euclidean_division_equations; lia).
  destruct (ln_fraction_eq y Hy') as [_ Hf].
  eexists _, _. split; [apply table_u64_row; rewrite ?lh_table_length; lia|].
  split; [apply table_u64_row; rewrite ?ll_table_length; lia|].
  split; [apply Z.add_nonneg_nonneg; apply row_nonneg|].
  pose proof (ln_rows_bounded (Z.to_nat (y / 256)) ltac:(lia)) as Hb.
  rewrite Z2Nat.id in Hb by lia.
  replace (Z.to_nat (y / 256 - 128)) with (Z.to_nat (y / 256) - 128)%nat by lia.
  eapply Z.le_lt_trans; [|exact Hb]. apply Z.add_le_mono_l.
  pose proof (ln_fraction_mono y Hy').
  assert (32768 <= y / 256 * 256 + 255 < 65536) as Hm by (Z.to_euclidean_division_equations; lia).
  destruct (ln_fraction_eq _ Hm) as [_ Hf']. apply ll_rows_sorted. lia.
Qed.

Lemma ln_product_bounded y :
  32768 <= y <= 65536 -> y * div_ceil (Z.shiftl 1 55) (Z.shiftr y 8) < 2 ^ 64.
Proof.
  intros Hy. destruct (Z.eq_dec y 65536) as [->|N]; [vm_compute; reflexivity|].
  pose proof (ln_quotient_range y ltac:(lia)) as [_ Hq]. cbv zeta in Hq.
  rewrite Z.shiftr_div_pow2 by lia. exact Hq.
Qed.

(** The logarithm of a 16-bit input. *)
Lemma crush_ln_total `{Base64Engine} input :
  0 <= input <= 0xffff -> exists v, crush_ln input = Some v /\ 0 <= v < 2 ^ 48.
Proof.
  intros Hi. unfold crush_ln. rewrite wrap_id by (unfold in_u; lia).
  destruct (ln_normalize_spec (input + 1) ltac:(lia)) as (y & e & -> & Hy & He).
  cbn [mbind option_bind]. destruct crush_ln_tables as [-> ->].
  destruct (ln_rows y Hy) as (high & low & Hh & Hl & Hb).
  assert (128 <= Z.shiftr y 8) as Hc.
  { rewrite Z.shiftr_div_pow2 by lia. change (2 ^ 8) with 256.
    Z.to_euclidean_division_equations. lia. }
  destruct (Z.ltb_spec (Z.shiftr y 8) 128); [lia|].
  pose proof (ln_product_bounded y Hy).
  destruct (Z.leb_spec (2 ^ 64) (y * div_ceil (Z.shiftl 1 55) (Z.shiftr y 8))); [lia|].
  fold (ln_fraction y). cbn [mbind option_bind]. rewrite Hh, Hl. cbn [mbind option_bind].
  eexists. split; [reflexivity|]. rewrite Z.shiftl_mul_pow2, Z.shiftr_div_pow2 by lia.
  assert (0 <= (high + low) / 2 ^ 4 < 2 ^ 44).
  { split; [apply Z.div_pos; lia|]. apply Z.div_lt_upper_bound; lia. }
  lia.
Qed.

(** ** Properties *)

(** C40. The logarithm is total on the domain CRUSH uses it on and stays below
    [2 ^ 48]: for a 16-bit input no table row, subtraction, division or product
    goes out of range, whatever engine decodes the tables, and the result minus
    [2 ^ 48] is negative. *)
Theorem crush_ln_bounded `{Base64Engine} input :
  0 <= input <= 0xffff -> exists v, crush_ln input = Some v /\ 0 <= v < 2 ^ 48.
Proof. apply crush_ln_total. Qed.

Lemma crush_ln_bounded_witness :
  exists v, crush_ln (base64 := reference_engine) 65534 = Some v /\ 0 <= v < 2 ^ 48.
Proof. apply (crush_ln_bounded (H := reference_engine) 65534). lia. Defined.
