(* ===== verification/CrushMap.v ===== *)
(** * CRUSH maps (src/crush/map.rs)

    The data of a CRUSH map, its decoder with the limits that bound every
    count, and the depth-first validation of the bucket graph. *)

From S2P Require Import Prelude Codec.
From Stdlib Require Import ZArith Lia Strings.Byte.
From stdpp Require Import base option list gmap sorting numbers.

Open Scope Z_scope.

Definition MAGIC : Z := 0x00010000.
Definition BUCKET_STRAW2 : Z := 5.
Definition HASH_RJENKINS1 : Z := 0.
Definition RULE_TAKE : Z := 1.
Definition RULE_CHOOSE_FIRST_N : Z := 2.
Definition RULE_CHOOSE_INDEP : Z := 3.
Definition RULE_EMIT : Z := 4.
Definition RULE_CHOOSELEAF_FIRST_N : Z := 6.
Definition RULE_CHOOSELEAF_INDEP : Z := 7.
Definition RULE_SET_CHOOSE_TRIES : Z := 8.
Definition RULE_SET_CHOOSELEAF_TRIES : Z := 9.
Definition RULE_TYPE_REPLICATED : Z := 1.
Definition RULE_TYPE_ERASURE : Z := 3.

Definition MAX_CERTIFIED_RETRIES : Z := 1000.
Definition MAX_CERTIFIED_DEPTH : Z := 64.

(** ** Data *)

Inductive DecodeError : Type :=
| DE_Wire (e : WireError)
| DE_Unsupported.

Inductive GraphError : Type :=
| GE_Malformed
| GE_DepthExceeded.

Record DecodeLimits : Type := mkDecodeLimits {
  dl_max_bytes : Z;
  dl_max_buckets : Z;
  dl_max_rules : Z;
  dl_max_items : Z;
  dl_max_names : Z
}.

Record Bucket : Type := mkBucket {
  bucket_id : Z;
  bucket_type : Z;
  bucket_weight : Z;
  items : list Z;
  item_weights : list Z
}.

Record RuleStep : Type := mkRuleStep {
  operation : Z;
  argument1 : Z;
  argument2 : Z
}.

#[export] Instance RuleStep_eq_dec : EqDecision RuleStep.
Proof. solve_decision. Defined.

Record Rule : Type := mkRule {
  rule_type : Z;
  min_size : Z;
  max_size : Z;
  steps : list RuleStep
}.

Record Map : Type := mkMap {
  max_devices : Z;
  buckets : gmap Z Bucket;
  rules : gmap Z Rule;
  choose_local_tries : Z;
  choose_local_fallback_tries : Z;
  choose_total_tries : Z;
  chooseleaf_descend_once : Z;
  chooseleaf_vary_r : Z;
  straw_calc_version : Z;
  allowed_bucket_algorithms : Z;
  chooseleaf_stable : Z;
  msr_descents : Z;
  msr_collision_tries : Z;
  class_shadow_buckets : gset Z
}.

(** The keys of a [BTreeMap], in the order its iterators visit them. *)
Definition btree_keys {A} (m : gmap Z A) : list Z := merge_sort Z.le (map_to_list m).*1.

(** ** Graph validation *)

(** The colours (1 while a bucket is being visited, 2 once it is done) and the
    heights of the buckets that are done. *)
Definition Visited : Type := gmap Z Z * gmap Z Z.

(** The loop over the items of a bucket; [visit] visits one child. *)
Fixpoint visit_items (m : Map) (visit : Z -> Visited -> result GraphError (Z * Visited))
    (l : list Z) (height : Z) (st : Visited) : result GraphError (Z * Visited) :=
  match l with
  | [] => Ok (height, st)
  | item :: l =>
      if 0 <=? item then
        if max_devices m <=? item then Err GE_Malformed
        else visit_items m visit l height st
      else if bool_decide (buckets m !! item = None) then Err GE_Malformed
      else
        '(child_height, st) ← visit item st;
        visit_items m visit l (Z.max height (child_height + 1)) st
  end.

(** The recursion is bounded by the depth check; [fuel] is the number of
    levels left below [MAX_CERTIFIED_DEPTH], so it cannot run out first. *)
Fixpoint visit_bucket (fuel : nat) (m : Map) (id depth : Z) (st : Visited)
    : result GraphError (Z * Visited) :=
  if MAX_CERTIFIED_DEPTH <? depth then Err GE_DepthExceeded
  else
    let '(states, heights) := st in
    if decide (states !! id = Some 1) then Err GE_Malformed
    else if decide (states !! id = Some 2) then
      let height := default 0 (heights !! id) in
      if MAX_CERTIFIED_DEPTH <? depth + height - 1 then Err GE_DepthExceeded
      else Ok (height, st)
    else
      match buckets m !! id, fuel with
      | None, _ => Err GE_Malformed
      | Some _, O => Err GE_DepthExceeded
      | Some bucket, S fuel =>
          '(height, (states, heights)) ←
            visit_items m (fun item st => visit_bucket fuel m item (depth + 1) st)
              (items bucket) 1 (<[id := 1]> states, heights);
          Ok (height, (<[id := 2]> states, <[id := height]> heights))
      end.

Definition GRAPH_FUEL : nat := 64.

Fixpoint visit_keys (m : Map) (keys : list Z) (st : Visited) : result GraphError unit :=
  match keys with
  | [] => Ok tt
  | id :: keys =>
      '(_, st) ← visit_bucket GRAPH_FUEL m id 1 st;
      visit_keys m keys st
  end.

Definition validate_graph (m : Map) : result GraphError unit :=
  visit_keys m (btree_keys (buckets m)) (∅, ∅).

Definition map_graph_decode_error (e : GraphError) : DecodeError :=
  match e with
  | GE_Malformed => DE_Wire Malformed
  | GE_DepthExceeded => DE_Unsupported
  end.

Definition has_bucket_type (m : Map) (t : Z) : bool :=
  existsb (fun b => bucket_type b =? t) (map_to_list (buckets m)).*2.

(** ** Decoding *)

Definition bounded_count (maximum minimum_bytes : Z) : DM WireError Z :=
  count ← rd Decoder_u32;
  _ ← finish_with id;
  _ ← throw_if (maximum <? count) LimitExceeded;
  left ← remaining;
  _ ← throw_if (negb (minimum_bytes =? 0) && (left / minimum_bytes <? count)) Malformed;
  mret count.

(** The text of a name is read and dropped. *)
Definition consume_name_map (maximum : Z) : DM WireError unit :=
  count ← bounded_count maximum 4;
  _ ← repeat_read (Z.to_nat count) (_ ← rd Decoder_i32; rd Decoder_bytes);
  finish_with id.

Definition consume_int_map (maximum : Z) : DM WireError unit :=
  count ← bounded_count maximum 8;
  _ ← repeat_read (Z.to_nat count) (_ ← rd Decoder_i32; rd Decoder_i32);
  finish_with id.

Definition consume_nested_int_map (maximum : Z) : DM WireError (gset Z) :=
  count ← bounded_count maximum 8;
  values ← repeat_read (Z.to_nat count)
    (_ ← rd Decoder_i32;
     inner ← bounded_count maximum 8;
     repeat_read (Z.to_nat inner) (_ ← rd Decoder_i32; rd Decoder_i32));
  _ ← finish_with id;
  mret (list_to_set (concat values)).

(** [?] with [From<WireError> for DecodeError]. *)
Definition wire {A} (m : DM WireError A) : DM DecodeError A := fun d => map_err DE_Wire (m d).

Fixpoint decode_buckets (n : nat) (index : Z) (limits : DecodeLimits) (acc : gmap Z Bucket)
    : DM DecodeError (gmap Z Bucket) :=
  match n with
  | O => mret acc
  | S n =>
      algorithm ← rd Decoder_u32;
      if algorithm =? 0 then decode_buckets n (index + 1) limits acc
      else
        _ ← throw_if (negb (algorithm =? BUCKET_STRAW2)) DE_Unsupported;
        id ← rd Decoder_i32;
        btype ← rd Decoder_u16;
        encoded_algorithm ← rd Decoder_u8;
        hash ← rd Decoder_u8;
        weight ← rd Decoder_u32;
        count ← rd Decoder_u32;
        _ ← finish_with DE_Wire;
        _ ← throw_if (negb (id =? -1 - index) || negb (encoded_algorithm =? BUCKET_STRAW2)
                      || negb (hash =? HASH_RJENKINS1)) (DE_Wire Malformed);
        _ ← throw_if (dl_max_items limits <? count) (DE_Wire LimitExceeded);
        left ← remaining;
        _ ← throw_if (left <? count * 8) (DE_Wire Malformed);
        its ← repeat_read (Z.to_nat count) (rd Decoder_i32);
        ws ← repeat_read (Z.to_nat count) (rd Decoder_u32);
        decode_buckets n (index + 1) limits
          (<[id := mkBucket id btype weight its ws]> acc)
  end.

Definition decode_step : DM DecodeError RuleStep :=
  op ← rd Decoder_u32;
  a1 ← rd Decoder_i32;
  a2 ← rd Decoder_i32;
  mret (mkRuleStep op a1 a2).

Fixpoint decode_rules (n : nat) (index : Z) (limits : DecodeLimits) (acc : gmap Z Rule)
    : DM DecodeError (gmap Z Rule) :=
  match n with
  | O => mret acc
  | S n =>
      present ← rd Decoder_u32;
      if present =? 0 then decode_rules n (index + 1) limits acc
      else
        count ← rd Decoder_u32;
        _ ← throw_if (dl_max_items limits <? count) (DE_Wire LimitExceeded);
        left ← remaining;
        _ ← throw_if (left <? count * 12 + 4) (DE_Wire Malformed);
        rule_id ← rd Decoder_u8;
        rtype ← rd Decoder_u8;
        min ← rd Decoder_u8;
        max ← rd Decoder_u8;
        _ ← throw_if (negb (rule_id =? index)) (DE_Wire Malformed);
        sts ← repeat_read (Z.to_nat count) decode_step;
        decode_rules n (index + 1) limits (<[index := mkRule rtype min max sts]> acc)
  end.

(** [if decoder.remaining() >= n { read } else { default }]. *)
Definition if_remaining {A} (n : Z) (read : DM DecodeError A) (dflt : A) : DM DecodeError A :=
  left ← remaining;
  if n <=? left then read else mret dflt.

Definition decode_tries : DM DecodeError (Z * Z * Z) :=
  local ← rd Decoder_u32;
  fallback ← rd Decoder_u32;
  total ← rd Decoder_u32;
  _ ← throw_if ((MAX_CERTIFIED_RETRIES <? local) || (MAX_CERTIFIED_RETRIES <? fallback)
                || (MAX_CERTIFIED_RETRIES <=? total)) DE_Unsupported;
  mret (local, fallback, total).

Definition decode_classes (limits : DecodeLimits) : DM DecodeError (gset Z) :=
  left ← remaining;
  if left =? 0 then mret ∅
  else
    _ ← wire (consume_int_map (dl_max_names limits));
    _ ← wire (consume_name_map (dl_max_names limits));
    shadow ← wire (consume_nested_int_map (dl_max_names limits));
    args ← rd Decoder_u32;
    _ ← throw_if (negb (args =? 0)) DE_Unsupported;
    mret shadow.

Definition decode_map (limits : DecodeLimits) : DM DecodeError Map :=
  magic ← rd Decoder_u32;
  _ ← throw_if (negb (magic =? MAGIC)) (DE_Wire Malformed);
  max_buckets ← rd Decoder_i32;
  max_rules ← rd Decoder_u32;
  max_devs ← rd Decoder_i32;
  _ ← finish_with DE_Wire;
  _ ← throw_if ((max_buckets <? 0) || (dl_max_buckets limits <? max_buckets)
                || (dl_max_rules limits <? max_rules)
                || (max_devs <? 0) || (dl_max_items limits <? max_devs)) (DE_Wire LimitExceeded);
  bs ← decode_buckets (Z.to_nat max_buckets) 0 limits ∅;
  rs ← decode_rules (Z.to_nat max_rules) 0 limits ∅;
  _ ← wire (consume_name_map (dl_max_names limits));
  _ ← wire (consume_name_map (dl_max_names limits));
  _ ← wire (consume_name_map (dl_max_names limits));
  '(local, fallback, total) ← if_remaining 12 decode_tries (2, 5, 19);
  descend_once ← if_remaining 4 (rd Decoder_u32) 0;
  vary_r ← if_remaining 1 (rd Decoder_u8) 0;
  straw_calc ← if_remaining 1 (rd Decoder_u8) 0;
  algorithms ← if_remaining 4 (rd Decoder_u32) 22;
  stable ← if_remaining 1 (rd Decoder_u8) 0;
  shadow ← decode_classes limits;
  '(descents, collision) ← if_remaining 8 (a ← rd Decoder_u32; b ← rd Decoder_u32; mret (a, b))
                            (100, 100);
  left ← remaining;
  _ ← throw_if (negb (left =? 0)) (DE_Wire Malformed);
  _ ← finish_with DE_Wire;
  let m := mkMap max_devs bs rs local fallback total descend_once vary_r straw_calc algorithms
             stable descents collision shadow in
  _ ← (fun d => _ ← map_err map_graph_decode_error (validate_graph m); Ok (tt, d));
  mret m.

Definition Map_decode (data : list byte) (limits : DecodeLimits) : result DecodeError Map :=
  if (dl_max_bytes limits =? 0) || (dl_max_buckets limits =? 0) || (dl_max_rules limits =? 0)
     || (dl_max_items limits =? 0) || (dl_max_names limits =? 0)
  then Err (DE_Wire LimitExceeded)
  else fst <$> decode_map limits (Decoder_new data (dl_max_bytes limits)).

(** ** The bucket graph

    A ranking gives every bucket a height of at most [MAX_CERTIFIED_DEPTH]
    that exceeds the height of each child bucket, and every other item is a
    device of the map.  It exists exactly when the graph has no dangling item,
    no cycle and no chain of more than 64 buckets. *)

Definition item_ranked (m : Map) (h : Z -> Z) (id item : Z) : Prop :=
  0 <= item < max_devices m
  \/ (item < 0 /\ is_Some (buckets m !! item) /\ h item < h id).

Definition ranked (m : Map) (h : Z -> Z) : Prop :=
  forall id b, buckets m !! id = Some b ->
    1 <= h id <= MAX_CERTIFIED_DEPTH /\ Forall (item_ranked m h id) (items b).

Section Graph.
  Context (m : Map).

Definition grey (st : Visited) (k : Z) : Prop := st.1 !! k = Some 1.
Definition black (st : Visited) (k h : Z) : Prop := st.1 !! k = Some 2 /\ st.2 !! k = Some h.

(** A finished item of a finished bucket of height [h]. *)
Definition item_done (st : Visited) (h item : Z) : Prop :=
  0 <= item < max_devices m \/ (item < 0 /\ exists ch, black st item ch /\ ch < h).

(** Every finished bucket is in the map, has a height, and its items are
    devices or finished buckets of lesser height. *)
Definition done_ok (st : Visited) : Prop :=
  forall k, st.1 !! k = Some 2 ->
    exists b h, buckets m !! k = Some b /\ black st k h /\ 1 <= h
      /\ Forall (item_done st h) (items b).

(** A visit keeps the buckets in progress and the finished ones. *)
Definition extends (st st' : Visited) : Prop :=
  (forall k, grey st k <-> grey st' k) /\ (forall k h, black st k h -> black st' k h).

Lemma extends_refl st : extends st st.
Proof. split; [done|auto]. Qed.

Lemma extends_trans st1 st2 st3 : extends st1 st2 -> extends st2 st3 -> extends st1 st3.
Proof. intros [G1 B1] [G2 B2]. split; [|auto]. intros k. by rewrite G1, G2. Qed.

Lemma item_done_extends st st' h item :
  extends st st' -> item_done st h item -> item_done st' h item.
Proof.
  intros [_ B] [?|(Hn & ch & Hb & Hlt)]; [by left|right]. split; [done|]. eauto.
Qed.

Lemma item_done_mono st h h' item : h <= h' -> item_done st h item -> item_done st h' item.
Proof.
  intros Hle [?|(Hn & ch & Hb & Hlt)]; [by left|right]. split; [done|].
  exists ch. split; [done|lia].
Qed.

(** What a successful visit at [depth] establishes. *)
Definition visit_post (id depth : Z) (st : Visited) (h : Z) (st' : Visited) : Prop :=
  done_ok st' /\ extends st st' /\ black st' id h /\ 1 <= h
  /\ depth + h - 1 <= MAX_CERTIFIED_DEPTH.

Lemma visit_items_sound visit depth l height st h' st' :
  (forall item st h st', done_ok st -> visit item st = Ok (h, st') ->
     visit_post item (depth + 1) st h st') ->
  done_ok st -> 1 <= height -> depth + height - 1 <= MAX_CERTIFIED_DEPTH ->
  visit_items m visit l height st = Ok (h', st') ->
  done_ok st' /\ extends st st' /\ height <= h' /\ depth + h' - 1 <= MAX_CERTIFIED_DEPTH
  /\ Forall (item_done st' h') l.
Proof.
  intros Hvisit. revert height st. induction l as [|item l IH]; intros height st Hok H1 Hd H.
  - simplify_eq/=. split_and!; auto using extends_refl with lia.
  - simpl in H. destruct (Z.leb_spec 0 item).
    + destruct (Z.leb_spec (max_devices m) item); [done|].
      apply IH in H as (Hok' & He & Hle & Hd' & HF); [|done..].
      split_and!; try done. constructor; [left; lia|done].
    + case_bool_decide; [done|].
      destruct (visit item st) as [[ch st1]|] eqn:V; [|done]. simpl in H.
      apply Hvisit in V as (Hok1 & He1 & Hb1 & Hc1 & Hd1); [|done].
      apply IH in H as (Hok' & He & Hle & Hd' & HF); [|done|lia..].
      split_and!; [done|by eapply extends_trans|lia|done|].
      constructor; [|done]. right. split; [done|].
      exists ch. split; [by apply He|lia].
Qed.

(** Finishing a bucket whose items are finished. *)
Lemma done_ok_finish st id b h :
  done_ok st -> grey st id -> buckets m !! id = Some b -> 1 <= h ->
  Forall (item_done st h) (items b) ->
  done_ok (<[id := 2]> st.1, <[id := h]> st.2).
Proof.
  intros Hok Hg Hb H1 HF.
  assert (forall k kh, black st k kh -> black (<[id := 2]> st.1, <[id := h]> st.2) k kh) as HB.
  { intros k kh [Hk1 Hk2]. unfold grey in Hg. destruct (decide (k = id)) as [->|N]; [congruence|].
    split; simpl; by rewrite lookup_insert_ne. }
  assert (forall h' item, item_done st h' item ->
    item_done (<[id := 2]> st.1, <[id := h]> st.2) h' item) as HI.
  { intros h' item [?|(? & ch & ? & ?)]; [by left|right]. split; [done|]. eauto. }
  intros k Hk. simpl in Hk. destruct (decide (k = id)) as [->|N].
  - exists b, h. split_and!; [done| |done|].
    + split; simpl; by rewrite lookup_insert_eq.
    + eapply Forall_impl; [apply HI|done].
  - rewrite lookup_insert_ne in Hk by done. destruct (Hok k Hk) as (b' & h' & Hb' & Hbl & ? & HF').
    exists b', h'. split; [done|]. split; [by apply HB|]. split; [done|].
    eapply Forall_impl; [apply HI|done].
Qed.

(** Starting a bucket that is neither in progress nor finished. *)
Lemma done_ok_start states heights id :
  done_ok (states, heights) -> states !! id <> Some 2 -> done_ok (<[id := 1]> states, heights).
Proof.
  intros Hok N2 k Hk. simpl in Hk. destruct (decide (k = id)) as [->|N].
  { by rewrite lookup_insert_eq in Hk. }
  rewrite lookup_insert_ne in Hk by done.
  destruct (Hok k Hk) as (b' & h' & Hb' & [Hbl1 Hbl2] & ? & HF'). exists b', h'.
  split_and!; [done|split; simpl; [by rewrite lookup_insert_ne|done]|done|].
  eapply Forall_impl; [|done]. intros item [?|(? & ch & [B1 B2] & ?)]; [by left|right].
  split; [done|]. exists ch. split; [|done]. split; simpl; [|done].
  destruct (decide (item = id)) as [->|]; [done|by rewrite lookup_insert_ne].
Qed.

Lemma visit_bucket_sound fuel id depth st h st' :
  1 <= depth -> done_ok st -> visit_bucket fuel m id depth st = Ok (h, st') ->
  visit_post id depth st h st'.
Proof.
  revert id depth st h st'.
  induction fuel as [|fuel IH]; intros id depth [states heights] h st' Hdepth Hok H;
    cbn [visit_bucket] in H.
  all: destruct (Z.ltb_spec MAX_CERTIFIED_DEPTH depth); [done|].
  all: destruct (decide (states !! id = Some 1)); [done|].
  all: destruct (decide (states !! id = Some 2)) as [E2|N2].
  all: try (destruct (Hok id E2) as (b & h0 & Hb & [Hb1 Hb2] & H1 & HF);
    simpl in Hb2; rewrite Hb2 in H; simpl in H;
    destruct (Z.ltb_spec MAX_CERTIFIED_DEPTH (depth + h0 - 1)); [done|]; simplify_eq;
    unfold visit_post; split_and!; [done|apply extends_refl|done|done|lia]).
  all: destruct (buckets m !! id) as [b|] eqn:Hb; [|done]; [].
  - done.
  - destruct (visit_items _ _ _ _ _) as [[height [states1 heights1]]|] eqn:V; [|done].
    simplify_eq/=.
    assert (done_ok (<[id:=1]> states, heights)) as Hok0 by by apply done_ok_start.
    apply (visit_items_sound _ depth) in V as (Hok1 & [HG HB] & Hle & Hd & HF);
      [|intros; eapply IH; [lia|done..]|done|lia|lia].
    assert (grey (states1, heights1) id) as Hgrey.
    { apply HG. unfold grey. simpl. by rewrite lookup_insert_eq. }
    unfold visit_post. split_and!; [by eapply (done_ok_finish (states1, heights1))|split| |done|done].
    + intros k. unfold grey in *. simpl in *. destruct (decide (k = id)) as [->|N].
      * rewrite lookup_insert_eq. split; congruence.
      * rewrite lookup_insert_ne by done. rewrite <- HG. by rewrite lookup_insert_ne.
    + intros k kh [K1 K2]. simpl in K1, K2. destruct (decide (k = id)) as [->|N]; [congruence|].
      destruct (HB k kh) as [B1 B2]; [split; simpl; [by rewrite lookup_insert_ne|done]|].
      split; simpl in *; by rewrite lookup_insert_ne.
    + split; simpl; by rewrite lookup_insert_eq.
Qed.

(** The recorded heights stay below a ranking. *)
Definition below (h : Z -> Z) (st : Visited) : Prop := forall k kh, black st k kh -> kh <= h k.

Lemma visit_items_complete h visit id l height st :
  (forall item st hh st', done_ok st -> visit item st = Ok (hh, st') ->
     visit_post item 1 st hh st') ->
  (forall item st, item < 0 -> is_Some (buckets m !! item) -> h item < h id ->
     done_ok st -> below h st -> (forall k, grey st k -> h id <= h k) ->
     exists ch st', visit item st = Ok (ch, st') /\ below h st' /\ ch <= h item) ->
  Forall (item_ranked m h id) l ->
  done_ok st -> below h st -> (forall k, grey st k -> h id <= h k) -> height <= h id ->
  exists h' st', visit_items m visit l height st = Ok (h', st') /\ below h st' /\ h' <= h id.
Proof.
  intros Hsound Hvisit HF. revert height st.
  induction HF as [|item l Hitem HF IH]; intros height st Hok Hbel Hg Hh; simpl.
  - eauto.
  - destruct (Z.leb_spec 0 item).
    + destruct Hitem as [Hi|(? & _)]; [|lia].
      destruct (Z.leb_spec (max_devices m) item); [lia|]. by apply IH.
    + destruct Hitem as [Hi|(Hn & [b Hb] & Hlt)]; [lia|].
      rewrite bool_decide_false by congruence.
      destruct (Hvisit item st) as (ch & st1 & V & Hbel1 & Hch); eauto.
      rewrite V. simpl. apply Hsound in V as (Hok1 & [HG _] & _); [|done].
      apply IH; [done|done| |lia]. intros k Hk. apply Hg. by apply HG.
Qed.

Lemma visit_bucket_complete h fuel id depth st :
  ranked m h -> 64 <= Z.of_nat fuel + depth - 1 -> 1 <= depth -> is_Some (buckets m !! id) ->
  depth + h id - 1 <= MAX_CERTIFIED_DEPTH ->
  done_ok st -> below h st -> (forall k, grey st k -> h id < h k) ->
  exists h' st', visit_bucket fuel m id depth st = Ok (h', st') /\ below h st' /\ h' <= h id.
Proof.
  intros Hrank. revert id depth st.
  induction fuel as [|fuel IH]; intros id depth [states heights] Hfuel Hd [b Hb] Hdepth Hok Hbel Hg;
    destruct (Hrank id b Hb) as [Hh HF]; unfold MAX_CERTIFIED_DEPTH in *; [lia|].
  cbn [visit_bucket]. unfold MAX_CERTIFIED_DEPTH in *.
  destruct (Z.ltb_spec 64 depth); [lia|].
  destruct (decide (states !! id = Some 1)) as [E1|N1].
  { pose proof (Hg id E1). lia. }
  destruct (decide (states !! id = Some 2)) as [E2|N2].
  { destruct (Hok id E2) as (b0 & h0 & _ & Hbl & _). pose proof (Hbel _ _ Hbl).
    destruct Hbl as [_ Hb2]. simpl in Hb2. rewrite Hb2. simpl.
    destruct (Z.ltb_spec 64 (depth + h0 - 1)); [lia|]. eauto. }
  rewrite Hb.
  assert (done_ok (<[id:=1]> states, heights)) as Hok0 by by apply done_ok_start.
  assert (below h (<[id:=1]> states, heights)) as Hbel0.
  { intros k kh [K1 K2]. simpl in K1, K2. destruct (decide (k = id)) as [->|N].
    - by rewrite lookup_insert_eq in K1.
    - rewrite lookup_insert_ne in K1 by done. apply Hbel. by split. }
  destruct (visit_items_complete h
    (fun item st => visit_bucket fuel m item (depth + 1) st) id (items b) 1
    (<[id:=1]> states, heights)) as (h' & [states1 heights1] & V & Hbel1 & Hle).
  - intros item st hh st' Hok' V'. apply visit_bucket_sound in V' as (?&?&?&?&?); [|lia|done].
    unfold visit_post. split_and!; [done..|unfold MAX_CERTIFIED_DEPTH in *; lia].
  - intros item st Hn Hs Hlt Hok' Hbel' Hg'. apply IH; try done; [lia..|].
    intros k Hk. apply Hg' in Hk. lia.
  - done.
  - done.
  - done.
  - intros k. unfold grey. simpl. destruct (decide (k = id)) as [->|N]; [lia|].
    rewrite lookup_insert_ne by done. intros Hk. apply Z.lt_le_incl. by apply Hg.
  - lia.
  - rewrite V. simpl. eexists _, _. split; [done|]. split; [|done].
    intros k kh [K1 K2]. simpl in K1, K2. destruct (decide (k = id)) as [->|N].
    + rewrite lookup_insert_eq in K2. simplify_eq. done.
    + rewrite lookup_insert_ne in K1, K2 by done. apply Hbel1. by split.
Qed.

Lemma visit_keys_sound keys st :
  done_ok st -> visit_keys m keys st = Ok tt ->
  exists st', done_ok st' /\ extends st st'
    /\ Forall (fun id => exists h, black st' id h /\ h <= MAX_CERTIFIED_DEPTH) keys.
Proof.
  revert st. induction keys as [|id keys IH]; intros st Hok H.
  - exists st. auto using extends_refl.
  - cbn [visit_keys] in H. destruct (visit_bucket _ _ _ _ _) as [[h st1]|] eqn:V; [|done].
    simpl in H. apply visit_bucket_sound in V as (Hok1 & He1 & Hb & _ & Hh); [|lia|done].
    apply IH in H as (st' & Hok' & He' & HF); [|done].
    exists st'. split_and!; [done|by eapply extends_trans|].
    constructor; [|done]. exists h. split; [by apply He'|lia].
Qed.

Lemma visit_keys_complete h keys st :
  ranked m h -> Forall (fun id => is_Some (buckets m !! id)) keys ->
  done_ok st -> below h st -> (forall k, ~ grey st k) -> visit_keys m keys st = Ok tt.
Proof.
  intros Hrank HF. revert st. induction HF as [|id keys [b Hb] HF IH]; intros st Hok Hbel Hg; [done|].
  cbn [visit_keys]. destruct (Hrank id b Hb) as [Hh _].
  destruct (visit_bucket_complete h GRAPH_FUEL id 1 st) as (h' & st' & V & Hbel' & _);
    [done|unfold GRAPH_FUEL; lia|lia|by eexists|lia|done|done|intros k Hk; by apply Hg in Hk|].
  rewrite V. simpl. apply visit_bucket_sound in V as (Hok' & [HG _] & _); [|lia|done].
  apply IH; [done|done|]. intros k Hk. by apply HG, Hg in Hk.
Qed.

End Graph.

Lemma elem_of_btree_keys {A} (m : gmap Z A) k : k ∈ btree_keys m <-> is_Some (m !! k).
Proof.
  unfold btree_keys. rewrite merge_sort_Permutation, list_elem_of_fmap. split.
  - intros ([k' v] & -> & Hin). apply elem_of_map_to_list in Hin. by eexists.
  - intros [v Hv]. exists (k, v). split; [done|]. by apply elem_of_map_to_list.
Qed.

(** ** Well-formed maps *)

(** What decoding establishes of a map: each bucket is filed under its own
    negative identifier with one weight per item, each rule under a number
    below 256, and the bucket graph is ranked. *)
Record crush_wf (m : Map) : Prop := {
  wf_devices : 0 <= max_devices m <= i32_max;
  wf_buckets id b : buckets m !! id = Some b ->
    id < 0 /\ bucket_id b = id /\ length (items b) = length (item_weights b);
  wf_rules id r : rules m !! id = Some r -> 0 <= id < 256;
  wf_tries : choose_local_tries m <= MAX_CERTIFIED_RETRIES
    /\ choose_local_fallback_tries m <= MAX_CERTIFIED_RETRIES
    /\ choose_total_tries m < MAX_CERTIFIED_RETRIES;
  wf_graph : exists h, ranked m h
}.

Definition buckets_wf (acc : gmap Z Bucket) : Prop :=
  forall id b, acc !! id = Some b ->
    id < 0 /\ bucket_id b = id /\ length (items b) = length (item_weights b).

Lemma Decoder_uint_range k d v d' : Decoder_uint k d = (v, d') -> in_u (8 * Z.of_nat k) v.
Proof.
  unfold Decoder_uint. destruct (Decoder_take _ _) as [data d1]. intros H. simplify_eq.
  destruct (Nat.eqb_spec (length data) k) as [<-|]; [apply le_value_range|].
  unfold in_u. split; [lia|apply Z.pow_pos_nonneg; lia].
Qed.

Lemma Decoder_i32_range d v d' : Decoder_i32 d = (v, d') -> in_i 32 v.
Proof.
  unfold Decoder_i32. destruct (Decoder_u32 d). intros H. simplify_eq. apply swrap_range. lia.
Qed.

Lemma decode_buckets_wf n index limits acc d acc' d' :
  0 <= index -> buckets_wf acc -> decode_buckets n index limits acc d = Ok (acc', d') ->
  buckets_wf acc'.
Proof.
  revert index acc d. induction n as [|n IH]; intros index acc d Hi Hacc H;
    cbn [decode_buckets] in H; dm_inv; [done|].
  destruct (Z.eqb_spec v 0); [by eapply IH, H; [lia|]|]. dm_inv. bool_prop.
  eapply IH, H; [lia|]. intros id b. rewrite lookup_insert. case_decide; [|apply Hacc].
  intros E. simplify_eq/=. split_and!; [lia|done|].
  erewrite !repeat_read_length by done. done.
Qed.

Lemma decode_rules_wf n index limits acc d acc' d' :
  0 <= index -> (forall id r, acc !! id = Some r -> 0 <= id < 256) ->
  decode_rules n index limits acc d = Ok (acc', d') ->
  forall id r, acc' !! id = Some r -> 0 <= id < 256.
Proof.
  revert index acc d. induction n as [|n IH]; intros index acc d Hi Hacc H;
    cbn [decode_rules] in H; dm_inv; [done|].
  destruct (Z.eqb_spec v 0); [by eapply IH, H; [lia|]|]. dm_inv. bool_prop.
  eapply IH, H; [lia|]. intros id r. rewrite lookup_insert. case_decide; [|apply Hacc].
  intros _. subst.
  match goal with R : Decoder_u8 _ = (id, _) |- _ => apply Decoder_uint_range in R end.
  done.
Qed.

Lemma validate_graph_ranked m : validate_graph m = Ok tt -> exists h, ranked m h.
Proof.
  intros H. apply visit_keys_sound in H as (st & Hok & _ & HF); [|intros k Hk; by simpl in Hk].
  exists (fun k => default 0 (st.2 !! k)). intros id b Hb. rewrite Forall_forall in HF.
  destruct (HF id) as (h & Hbl & Hh);
    [apply list_elem_of_In, elem_of_btree_keys; by eexists|].
  pose proof Hbl as [Hb1 Hb2]. rewrite Hb2. simpl.
  destruct (Hok id Hb1) as (b' & h' & Hb' & [_ Hb2'] & H1 & HI). simplify_eq.
  split; [lia|]. eapply Forall_impl; [|done].
  intros item [?|(Hn & ch & [C1 C2] & Hlt)]; [by left|right].
  destruct (Hok item C1) as (cb & ? & Hcb & _). split_and!; [done|by eexists|].
  rewrite C2, Hb2. done.
Qed.

Lemma validate_graph_complete m h : ranked m h -> validate_graph m = Ok tt.
Proof.
  intros Hrank. unfold validate_graph. eapply visit_keys_complete; [done| | | |].
  - apply Forall_forall. intros id Hid. by apply elem_of_btree_keys, list_elem_of_In.
  - intros k Hk. by simpl in Hk.
  - intros k kh [Hk _]. by simpl in Hk.
  - intros k Hk. unfold grey in Hk. by simpl in Hk.
Qed.

Lemma if_remaining_inv {A} n (read : DM DecodeError A) dflt d a d' :
  if_remaining n read dflt d = Ok (a, d') -> read d = Ok (a, d') \/ (a = dflt /\ d' = d).
Proof.
  unfold if_remaining. intros H. dm_inv. unfold remaining in R. simplify_eq.
  destruct (n <=? _); [by left|]. apply DM_ret_inv in H. by right.
Qed.

(** ** Properties *)

(** Graph validation decides well-formedness: it succeeds exactly when the
    bucket graph has a ranking, that is, when every item is a device of the map
    or an existing bucket, no bucket contains itself directly or indirectly,
    and no chain of buckets is longer than 64. *)
Theorem validate_graph_correct m :
  validate_graph m = Ok tt <-> exists h, ranked m h.
Proof.
  split; [apply validate_graph_ranked|]. intros [h Hrank]. by eapply validate_graph_complete.
Qed.

Lemma decoded_wf data limits m : Map_decode data limits = Ok m -> crush_wf m.
Proof.
  unfold Map_decode. intros H. split_if. clear Heqb.
  destruct (decode_map _ _) as [[m' d']|] eqn:D; simplify_eq/=.
  unfold decode_map in D. dm_inv. bool_prop.
  match goal with G : (_ ← map_err _ (validate_graph ?mm); _) = Ok _ |- _ =>
    destruct (validate_graph mm) as [[]|] eqn:V; simplify_eq/= end.
  constructor; simpl.
  - match goal with R : Decoder_i32 _ = (?v, _) |- _ <= ?v <= _ =>
      apply Decoder_i32_range in R; unfold in_i, i32_max in *; lia end.
  - eapply decode_buckets_wf; [| |done]; [lia|]. by intros id b Hb.
  - eapply decode_rules_wf; [| |done]; [lia|]. by intros id r Hr.
  - match goal with T : if_remaining 12 _ _ _ = _ |- _ =>
      apply if_remaining_inv in T as [T|[T _]] end.
    + unfold decode_tries in *. dm_inv. simplify_eq. bool_prop. unfold MAX_CERTIFIED_RETRIES in *. lia.
    + simplify_eq. unfold MAX_CERTIFIED_RETRIES. lia.
  - by apply validate_graph_ranked.
Qed.

(** C34. A decoded map is well formed: whatever the input bytes and limits, a
    map that [Map::decode] accepts files every bucket under its own negative
    identifier with one weight per item, bounds the retry tunables, and has a
    ranked bucket graph. *)
Theorem Map_decode_wf data limits m : Map_decode data limits = Ok m -> crush_wf m.
Proof. apply decoded_wf. Qed.

(** A map of one host (-1) holding two devices, and a root (-2) above it. *)
Definition example_map : Map :=
  mkMap 2 (<[-1 := mkBucket (-1) 1 131072 [0; 1] [65536; 65536]]>
            (<[-2 := mkBucket (-2) 10 131072 [-1] [131072]]> ∅))
    ∅ 0 0 50 1 1 1 54 1 100 100 ∅.

(** An encoding of a map with one bucket that holds device 0. *)
Definition example_encoding : list byte :=
  concat (map (le_bytes 4) [MAGIC; 1; 0; 1; 5; 2^32 - 1])
  ++ concat (map (le_bytes 2) [10; 5 + 0 * 256]) ++ concat (map (le_bytes 4) [65536; 1; 0; 65536])
  ++ concat (map (le_bytes 4) [0; 0; 0]).

Lemma Map_decode_wf_witness :
  exists m, Map_decode example_encoding (mkDecodeLimits 4096 8 8 8 8) = Ok m
    /\ is_Some (buckets m !! (-1)) /\ crush_wf m.
Proof.
  eexists. split; [vm_compute; reflexivity|]. split; [vm_compute; by eexists|].
  apply (Map_decode_wf example_encoding (mkDecodeLimits 4096 8 8 8 8)). vm_compute. reflexivity.
Defined.
