(* ===== verification/CrushPlace.v ===== *)
(** * CRUSH placement

    Models [src/src/crush/place.rs]: the certified placement profile, the rule
    interpreter, the first-n and independent choosers with their retries, the
    permutation fallback and straw2 selection. *)

From S2P Require Import Prelude CrushHash CrushLn CrushMap.
From Stdlib Require Import ZArith Lia Strings.Byte.
From stdpp Require Import base option gmap sorting numbers list.

Open Scope Z_scope.

(** ** Outcomes *)

(** [F_PlacementError] is the [Err] of the source.  [F_Panic] is a failed
    index, [expect] or an arithmetic overflow.  [F_Fuel] marks a loop of the
    source that did not finish within the steps the model allows it. *)
Inductive Fault : Type :=
| F_PlacementError
| F_Panic
| F_Fuel.

Definition ITEM_NONE : Z := i32_max.
Definition MAX_CERTIFIED_REPLICAS : Z := 64.
Definition i64_min : Z := - 2 ^ 63.

(** [slice[i]], [slice[i] = v] and [slice[a..b]]. *)
Definition index {A} (l : list A) (i : Z) : result Fault A := ok_or (zget l i) F_Panic.

Definition set_at {A} (l : list A) (i : Z) (v : A) : result Fault (list A) :=
  if (0 <=? i) && (i <? zlen l) then Ok (<[Z.to_nat i := v]> l) else Err F_Panic.

Definition slice {A} (l : list A) (a b : Z) : result Fault (list A) :=
  if (0 <=? a) && (a <=? b) && (b <=? zlen l)
  then Ok (take (Z.to_nat (b - a)) (drop (Z.to_nat a) l)) else Err F_Panic.

(** [u32::try_from(v).expect(..)] and [usize] subtraction of one. *)
Definition expect_u32 (z : Z) : result Fault Z := ok_or (try_u 32 z) F_Panic.
Definition decrement (z : Z) : result Fault Z := if z <=? 0 then Err F_Panic else Ok (z - 1).

(** ** Placement state *)

Record Permutation : Type := mkPermutation {
  perm_seed : Z;
  perm_count : Z;
  perm_items : list Z
}.

Definition Permutations : Type := gmap Z Permutation.

(** ** Straw2 *)

Section Straw2.
  Context {base64 : Base64Engine}.

(** The draw of the item at [index]. *)
Definition straw2_draw (bucket : Bucket) (seed replica i weight : Z) : result Fault Z :=
  if weight =? 0 then Ok i64_min
  else
    item ← index (items bucket) i;
    r ← expect_u32 replica;
    let random := Z.land (hash32_triple seed (wrap 32 item) r) 0xffff in
    value ← ok_or (crush_ln random) F_Panic;
    let logarithm := swrap 64 value - 2 ^ 48 in
    Ok (Z.quot logarithm weight).

Fixpoint straw2_scan (bucket : Bucket) (seed replica i : Z) (ws : list Z) (high high_draw : Z)
    : result Fault Z :=
  match ws with
  | [] => Ok high
  | weight :: ws =>
      draw ← straw2_draw bucket seed replica i weight;
      if (i =? 0) || (high_draw <? draw)
      then straw2_scan bucket seed replica (i + 1) ws i draw
      else straw2_scan bucket seed replica (i + 1) ws high high_draw
  end.

Definition straw2_choose (bucket : Bucket) (seed replica : Z) : result Fault Z :=
  high ← straw2_scan bucket seed replica 0 (item_weights bucket) 0 i64_min;
  index (items bucket) high.

End Straw2.

(** ** The permutation fallback *)

(** [while state.count <= position]: one step of the incremental shuffle per
    unit of [n]. *)
Fixpoint permutation_extend (n : nat) (bucket : Bucket) (seed : Z) (len count : Z) (its : list Z)
    : result Fault (Z * list Z) :=
  match n with
  | O => Ok (count, its)
  | S n =>
      its ← (if count <? len - 1 then
               let offset := hash32_triple seed (wrap 32 (bucket_id bucket)) count mod (len - count) in
               if offset =? 0 then Ok its
               else
                 a ← index its count;
                 b ← index its (count + offset);
                 its ← set_at its count b;
                 set_at its (count + offset) a
             else Ok its);
      permutation_extend n bucket seed len (count + 1) its
  end.

Definition zseq (n : Z) : list Z := map Z.of_nat (seq 0 (Z.to_nat n)).

Definition permutation_choose (bucket : Bucket) (seed replica : Z) (perms : Permutations)
    : result Fault (Z * Permutations) :=
  let len := zlen (items bucket) in
  let state := default (mkPermutation 0 0 (replicate (length (items bucket)) 0))
                 (perms !! bucket_id bucket) in
  r ← expect_u32 replica;
  n ← expect_u32 len;
  if n =? 0 then Err F_Panic
  else
    let position := r mod n in
    let fresh := negb (perm_seed state =? seed) || (perm_count state =? 0) in
    if fresh && (position =? 0) then
      let selected := hash32_triple seed (wrap 32 (bucket_id bucket)) 0 mod n in
      its ← set_at (perm_items state) 0 selected;
      item ← index (items bucket) selected;
      Ok (item, <[bucket_id bucket := mkPermutation seed 0xffff its]> perms)
    else
      '(count, its) ← (if fresh then Ok (0, zseq (zlen (perm_items state)))
        else if perm_count state =? 0xffff then
          first ← index (perm_items state) 0;
          let its := first :: drop 1 (zseq (zlen (perm_items state))) in
          its ← set_at its first 0;
          Ok (1, its)
        else Ok (perm_count state, perm_items state));
      '(count, its) ← permutation_extend (Z.to_nat (position + 1 - count)) bucket seed n count its;
      selected ← index its position;
      item ← index (items bucket) selected;
      Ok (item, <[bucket_id bucket := mkPermutation seed count its]> perms).

(** ** Choosers *)

Section Choose.
  Context {base64 : Base64Engine}.
  Context (crush : Map) (weights : list Z).

Definition valid_take (item : Z) : bool :=
  if 0 <=? item then item <? max_devices crush else bool_decide (is_Some (buckets crush !! item)).

Definition is_out (item seed : Z) : bool :=
  if item <? 0 then true
  else match zget weights item with
       | None => true
       | Some weight =>
           if 0x10000 <=? weight then false
           else if weight =? 0 then true
           else weight <=? Z.land (hash32_pair seed (wrap 32 item)) 0xffff
       end.

(** [self.crush.buckets[&item]]. *)
Definition bucket_at (item : Z) : result Fault Bucket := ok_or (buckets crush !! item) F_Panic.

(** The type of a chosen item: 0 for a device, [None] for an unknown bucket. *)
Definition item_type (item : Z) : option Z :=
  if item <? 0 then bucket_type <$> buckets crush !! item else Some 0.

(** *** Independent choice *)

(** The output, the leaves and the number of positions left to fill. *)
Definition IndepState : Type := list Z * option (list Z) * Z.

(** The [recurse_to_leaf] block; the flag tells whether the position fails. *)
Definition indep_leaf (nested : Bucket -> list Z -> Z -> Z -> result Fault (list Z))
    (recurse_to_leaf : bool) (item position r : Z) (leaves : option (list Z))
    : result Fault (option (list Z) * bool) :=
  match leaves with
  | Some values =>
      if negb recurse_to_leaf then Ok (leaves, false)
      else if item <? 0 then
        child ← bucket_at item;
        values ← nested child values position r;
        leaf ← index values position;
        Ok (Some values, leaf =? ITEM_NONE)
      else
        values ← set_at values position item;
        Ok (Some values, false)
  | None => Ok (None, false)
  end.

Section Indep.
  Context (nested : Bucket -> list Z -> Z -> Z -> result Fault (list Z)).
  Context (bucket : Bucket) (seed replicas target_type output_position end_ : Z).
  Context (recurse_to_leaf : bool) (parent_r : Z).

(** An item of the target type: the collision, leaf and weight checks. *)
Definition indep_accept (position r item type : Z) (st : IndepState) : result Fault IndepState :=
  let '(output, leaves, left_) := st in
  taken ← slice output output_position end_;
  if bool_decide (item ∈ taken) then Ok st
  else
    '(leaves, failed) ← indep_leaf nested recurse_to_leaf item position r leaves;
    if failed || ((type =? 0) && is_out item seed) then Ok (output, leaves, left_)
    else
      output ← set_at output position item;
      left_ ← decrement left_;
      Ok (output, leaves, left_).

(** The [loop] that descends from [current] for one position. *)
Fixpoint indep_descend (fuel : nat) (failure position : Z) (current : Bucket) (st : IndepState)
    : result Fault IndepState :=
  match fuel with
  | O => Err F_Fuel
  | S fuel =>
      let '(output, leaves, left_) := st in
      let r := position + parent_r + replicas * failure in
      if zlen (items current) =? 0 then Ok st
      else
        item ← straw2_choose current seed r;
        if max_devices crush <=? item then
          left_ ← decrement left_; Ok (output, leaves, left_)
        else match item_type item with
        | None => left_ ← decrement left_; Ok (output, leaves, left_)
        | Some type =>
            if negb (type =? target_type) then
              if 0 <=? item then left_ ← decrement left_; Ok (output, leaves, left_)
              else child ← bucket_at item; indep_descend fuel failure position child st
            else indep_accept position r item type st
        end
  end.

(** A chain of buckets in a validated map has at most 64 of them. *)
Definition DESCENT_FUEL : nat := 65.

(** [for position in output_position..end]. *)
Fixpoint indep_positions (n : nat) (failure position : Z) (st : IndepState)
    : result Fault IndepState :=
  match n with
  | O => Ok st
  | S n =>
      value ← index st.1.1 position;
      st ← (if negb (value =? ITEM_NONE) then Ok st
            else indep_descend DESCENT_FUEL failure position bucket st);
      indep_positions n failure (position + 1) st
  end.

(** [while left_ > 0 && failure < tries], [n] being [tries - failure]. *)
Fixpoint indep_rounds (n : nat) (failure : Z) (st : IndepState) : result Fault IndepState :=
  match n with
  | O => Ok st
  | S n =>
      if st.2 <=? 0 then Ok st
      else
        st ← indep_positions (Z.to_nat (end_ - output_position)) failure output_position st;
        indep_rounds n (failure + 1) st
  end.

End Indep.

(** [for position in output_position..end { output[position] = ITEM_NONE }]. *)
Fixpoint clear_positions (n : nat) (position : Z) (l : list Z) : result Fault (list Z) :=
  match n with
  | O => Ok l
  | S n => l ← set_at l position ITEM_NONE; clear_positions n (position + 1) l
  end.

(** [nest] bounds the recursion into leaves, whose calls do not recurse. *)
Fixpoint choose_indep (nest : nat) (bucket : Bucket) (seed left_ replicas target_type : Z)
    (output : list Z) (output_position tries recurse_tries : Z) (recurse_to_leaf : bool)
    (leaves : option (list Z)) (parent_r : Z) : result Fault (list Z * option (list Z)) :=
  match nest with
  | O => Err F_Fuel
  | S nest =>
      let end_ := output_position + left_ in
      output ← clear_positions (Z.to_nat left_) output_position output;
      leaves ← match leaves with
               | Some values => Some <$> clear_positions (Z.to_nat left_) output_position values
               | None => Ok None
               end;
      let nested child values position r :=
        fst <$> choose_indep nest child seed 1 replicas 0 values position recurse_tries 0 false
                  None r in
      fst <$> indep_rounds nested bucket seed replicas target_type output_position end_
                recurse_to_leaf parent_r (Z.to_nat tries) 0 (output, leaves, left_)
  end.

(** *** First-n choice *)

Section FirstN.
  Context (nested : Bucket -> Z -> list Z -> Z -> Z -> Z -> Permutations ->
                    result Fault (Z * list Z * Permutations)).
  Context (bucket : Bucket) (seed target_type tries local_retries local_fallback_retries : Z).
  Context (recurse_to_leaf : bool) (vary_r : Z) (stable : bool) (parent_r : Z).

(** Whether the next item comes from the permutation fallback. *)
Definition use_permutation (current : Bucket) (local_failures : Z) : result Fault bool :=
  if local_fallback_retries <=? 0 then Ok false
  else
    half ← expect_u32 (Z.shiftr (zlen (items current)) 1);
    Ok ((half <=? local_failures) && (local_fallback_retries <? local_failures)).

(** Whether a failed choice is retried within the same bucket. *)
Definition retry_bucket (current : Bucket) (collide : bool) (local_failures : Z)
    : result Fault bool :=
  if collide && (local_failures <=? local_retries) then Ok true
  else if local_fallback_retries <=? 0 then Ok false
  else
    n ← expect_u32 (zlen (items current));
    bound ← ok_or (checked_add 32 n local_fallback_retries) F_Panic;
    Ok (local_failures <=? bound).

(** The [recurse_to_leaf] block; the flag is the updated [reject]. *)
Definition first_n_leaf (item r output_position count : Z) (leaves : option (list Z))
    (perms : Permutations) : result Fault (bool * option (list Z) * Permutations) :=
  if item <? 0 then
    sub_r ← (if vary_r =? 0 then Ok 0
             else if 64 <=? vary_r - 1 then Err F_Panic else Ok (Z.shiftr r (vary_r - 1)));
    match leaves with
    | Some values =>
        child ← bucket_at item;
        '(chosen, values, perms) ←
          nested child (if stable then 1 else output_position + 1) values output_position count
            sub_r perms;
        Ok (chosen <=? output_position, Some values, perms)
    | None => Ok (false, None, perms)
    end
  else
    match leaves with
    | Some values => values ← set_at values output_position item; Ok (false, Some values, perms)
    | None => Ok (false, None, perms)
    end.

(** The next item of a bucket that has items. *)
Definition first_n_pick (current : Bucket) (local_failures r : Z) (perms : Permutations)
    : result Fault (Z * Permutations) :=
  fallback ← use_permutation current local_failures;
  if fallback : bool then permutation_choose current seed r perms
  else item ← straw2_choose current seed r; Ok (item, perms).

(** The collision, leaf and weight checks of an item of the target type, or of
    an empty bucket ([reject]); the flags are the final [reject] and [collide]. *)
Definition first_n_check (output : list Z) (output_position count r : Z) (reject : bool)
    (item type : Z) (leaves : option (list Z)) (perms : Permutations)
    : result Fault (bool * bool * option (list Z) * Permutations) :=
  collide ← (if reject then Ok false
             else seen ← slice output 0 output_position; Ok (bool_decide (item ∈ seen)));
  '(reject, leaves, perms) ←
    (if negb reject && negb collide && recurse_to_leaf
     then first_n_leaf item r output_position count leaves perms
     else Ok (reject, leaves, perms));
  let reject := if negb reject && negb collide && (type =? 0) then is_out item seed else reject in
  Ok (reject, collide, leaves, perms).

(** Outcome of the search for one replica: whether it is skipped, the item, and
    the threaded state. *)
Definition TryResult : Type := bool * Z * option (list Z) * Permutations.

(** A rejected or colliding choice: retry in the bucket, restart the descent, or
    give the replica up. *)
Definition first_n_failed (continue : Bucket -> Z -> Z -> result Fault TryResult)
    (current : Bucket) (collide : bool) (total_failures local_failures : Z) (skipped : TryResult)
    : result Fault TryResult :=
  let total_failures := wrap 32 (total_failures + 1) in
  let local_failures := wrap 32 (local_failures + 1) in
  again ← retry_bucket current collide local_failures;
  if again : bool then continue current total_failures local_failures
  else if total_failures <? tries then continue bucket total_failures 0
  else Ok skipped.

(** The two nested [while] loops: an iteration either descends into a child,
    retries in the same bucket, restarts the descent from [bucket], or ends. *)
Fixpoint first_n_try (fuel : nat) (output : list Z) (output_position count replica : Z)
    (current : Bucket) (total_failures local_failures item : Z) (leaves : option (list Z))
    (perms : Permutations) : result Fault TryResult :=
  match fuel with
  | O => Err F_Fuel
  | S fuel =>
      let continue := first_n_try fuel output output_position count replica in
      let r := replica + parent_r + total_failures in
      let reject := zlen (items current) =? 0 in
      '(item, perms) ← (if reject then Ok (item, perms)
                        else first_n_pick current local_failures r perms);
      if negb reject && (max_devices crush <=? item) then Ok (true, item, leaves, perms)
      else match (if reject then Some 0 else item_type item) with
      | None => Ok (true, item, leaves, perms)
      | Some type =>
          if negb reject && negb (type =? target_type) then
            if 0 <=? item then Ok (true, item, leaves, perms)
            else
              child ← bucket_at item;
              continue child total_failures local_failures item leaves perms
          else
            '(reject, collide, leaves, perms) ←
              first_n_check output output_position count r reject item type leaves perms;
            if reject || collide then
              first_n_failed (fun cur total local => continue cur total local item leaves perms)
                current collide total_failures local_failures (true, item, leaves, perms)
            else Ok (false, item, leaves, perms)
      end
  end.

(** At most [tries] descents of at most 64 buckets each, one iteration per
    bucket, when no failure is retried within its bucket. *)
Definition try_fuel : nat := Z.to_nat (65 * (tries + 1)).

(** [for replica in first_replica..replicas]. *)
Fixpoint first_n_replicas (n : nat) (replica : Z) (output : list Z) (output_position count : Z)
    (leaves : option (list Z)) (perms : Permutations)
    : result Fault (Z * list Z * option (list Z) * Permutations) :=
  match n with
  | O => Ok (output_position, output, leaves, perms)
  | S n =>
      if count =? 0 then Ok (output_position, output, leaves, perms)
      else
        '(skip, item, leaves, perms) ←
          first_n_try try_fuel output output_position count replica bucket 0 0 ITEM_NONE leaves perms;
        if skip : bool
        then first_n_replicas n (replica + 1) output output_position count leaves perms
        else
          output ← set_at output output_position item;
          first_n_replicas n (replica + 1) output (output_position + 1) (count - 1) leaves perms
  end.

End FirstN.

Fixpoint choose_first_n (nest : nat) (bucket : Bucket) (seed replicas target_type : Z)
    (output : list Z) (output_position output_size tries recurse_tries local_retries
    local_fallback_retries : Z) (recurse_to_leaf : bool) (vary_r : Z) (stable : bool)
    (leaves : option (list Z)) (parent_r : Z) (perms : Permutations)
    : result Fault (Z * list Z * option (list Z) * Permutations) :=
  match nest with
  | O => Err F_Fuel
  | S nest =>
      let first_replica := if stable then 0 else output_position in
      let nested child recursive_replicas values position count sub_r perms :=
        '(chosen, values, _, perms) ←
          choose_first_n nest child seed recursive_replicas 0 values position count recurse_tries 0
            local_retries local_fallback_retries false vary_r stable None sub_r perms;
        Ok (chosen, values, perms) in
      first_n_replicas nested bucket seed target_type tries local_retries local_fallback_retries
        recurse_to_leaf vary_r stable parent_r (Z.to_nat (replicas - first_replica)) first_replica
        output output_position output_size leaves perms
  end.

(** *** The rule interpreter *)

Record RuleState : Type := mkRuleState {
  rs_working : list Z;
  rs_output : list Z;
  rs_leaves : list Z;
  rs_working_size : Z;
  rs_result : list Z;
  rs_choose_tries : Z;
  rs_chooseleaf_tries : Z;
  rs_permutations : Permutations
}.

(** Buffers a choose step updates: output, leaves, permutations, output size. *)
Definition ChooseState : Type := list Z * list Z * Permutations * Z.

(** Recursion into leaves is one level deep. *)
Definition NEST_FUEL : nat := 2.

(** One item of the working set, in a choose step. *)
Definition choose_item (step : RuleStep) (seed result_maximum choose_tries chooseleaf_tries
    recurse_tries item : Z) (st : ChooseState) : result Fault ChooseState :=
  let '(output, leaves, perms, output_size) := st in
  number ← (if argument1 step <=? 0 then
              if i32_max <? result_maximum then Err F_PlacementError
              else Ok (argument1 step + result_maximum)
            else Ok (argument1 step));
  if number <=? 0 then Ok st
  else match buckets crush !! item with
  | None => Ok st
  | Some bucket =>
      let recurse_to_leaf := operation step =? RULE_CHOOSELEAF_FIRST_N in
      if operation step =? RULE_CHOOSE_INDEP then
        let count := Z.min number (saturating_sub result_maximum output_size) in
        let recurse := if chooseleaf_tries =? 0 then 1 else chooseleaf_tries in
        '(output, leaves') ←
          choose_indep NEST_FUEL bucket seed count number (argument2 step) output output_size
            choose_tries recurse recurse_to_leaf (Some leaves) 0;
        Ok (output, default leaves leaves', perms, output_size + count)
      else
        '(chosen, output, leaves', perms) ←
          choose_first_n NEST_FUEL bucket seed number (argument2 step) output output_size
            (saturating_sub result_maximum output_size) choose_tries recurse_tries
            (choose_local_tries crush) (choose_local_fallback_tries crush) recurse_to_leaf
            (chooseleaf_vary_r crush) (negb (chooseleaf_stable crush =? 0)) (Some leaves) 0 perms;
        Ok (output, default leaves leaves', perms, output_size + chosen)
  end.

Fixpoint choose_items (step : RuleStep) (seed result_maximum choose_tries chooseleaf_tries
    recurse_tries : Z) (l : list Z) (st : ChooseState) : result Fault ChooseState :=
  match l with
  | [] => Ok st
  | item :: l =>
      st ← choose_item step seed result_maximum choose_tries chooseleaf_tries recurse_tries item st;
      choose_items step seed result_maximum choose_tries chooseleaf_tries recurse_tries l st
  end.

Definition is_choose (op : Z) : bool :=
  (op =? RULE_CHOOSE_FIRST_N) || (op =? RULE_CHOOSELEAF_FIRST_N) || (op =? RULE_CHOOSE_INDEP).

Definition rule_choose (step : RuleStep) (seed result_maximum recurse_tries : Z) (st : RuleState)
    : result Fault RuleState :=
  let '(mkRuleState working output leaves working_size res ct clt perms) := st in
  if working_size =? 0 then Ok st
  else
    '(output, leaves, perms, output_size) ←
      choose_items step seed result_maximum ct clt recurse_tries
        (take (Z.to_nat working_size) working) (output, leaves, perms, 0);
    output ← (if operation step =? RULE_CHOOSELEAF_FIRST_N then
                _ ← slice output 0 output_size;
                copied ← slice leaves 0 output_size;
                Ok (copied ++ drop (Z.to_nat output_size) output)
              else Ok output);
    Ok (mkRuleState output working leaves output_size res ct clt perms).

Definition rule_step (seed result_maximum recurse_tries : Z) (step : RuleStep) (st : RuleState)
    : result Fault RuleState :=
  let '(mkRuleState working output leaves working_size res ct clt perms) := st in
  let op := operation step in
  if op =? RULE_SET_CHOOSE_TRIES then
    Ok (mkRuleState working output leaves working_size res
          (if 0 <? argument1 step then wrap 32 (argument1 step) else ct) clt perms)
  else if op =? RULE_SET_CHOOSELEAF_TRIES then
    Ok (mkRuleState working output leaves working_size res ct
          (if 0 <? argument1 step then wrap 32 (argument1 step) else clt) perms)
  else if op =? RULE_TAKE then
    if negb (valid_take (argument1 step)) then Ok st
    else
      working ← set_at working 0 (argument1 step);
      Ok (mkRuleState working output leaves 1 res ct clt perms)
  else if is_choose op then rule_choose step seed result_maximum recurse_tries st
  else if op =? RULE_EMIT then
    let remaining := Z.min (saturating_sub result_maximum (zlen res)) working_size in
    emitted ← slice working 0 remaining;
    Ok (mkRuleState working output leaves 0 (res ++ emitted) ct clt perms)
  else Err F_PlacementError.

Fixpoint rule_steps (seed result_maximum recurse_tries : Z) (sts : list RuleStep) (st : RuleState)
    : result Fault RuleState :=
  match sts with
  | [] => Ok st
  | step :: sts =>
      st ← rule_step seed result_maximum recurse_tries step st;
      rule_steps seed result_maximum recurse_tries sts st
  end.

Definition Placement_rule (rule : Rule) (seed result_maximum : Z) : result Fault (list Z) :=
  let buffer := replicate (Z.to_nat result_maximum) ITEM_NONE in
  let choose_tries := choose_total_tries crush + 1 in
  let recurse_tries := if negb (chooseleaf_descend_once crush =? 0) then 1 else choose_tries in
  st ← rule_steps seed result_maximum recurse_tries (steps rule)
         (mkRuleState buffer buffer buffer 0 [] choose_tries 0 ∅);
  Ok (rs_result st).

End Choose.

(** ** The certified profile *)

(** [rule.steps[i] != step] for the replicated and the erasure shape; the
    result is the index of the take step. *)
Definition certified_shape (crush : Map) (rule : Rule) : result Fault RuleStep :=
  if rule_type rule =? RULE_TYPE_REPLICATED then
    match steps rule with
    | [take_; choose; emit] =>
        if negb (operation take_ =? RULE_TAKE)
           || negb (bool_decide (emit = mkRuleStep RULE_EMIT 0 0)) then Err F_PlacementError
        else if bool_decide (choose = mkRuleStep RULE_CHOOSE_FIRST_N 0 0) then Ok take_
        else if negb (operation choose =? RULE_CHOOSELEAF_FIRST_N)
                || negb (argument1 choose =? 0) || (argument2 choose <=? 0)
        then Err F_PlacementError
        else
          t ← ok_or (try_u 16 (argument2 choose)) F_PlacementError;
          if has_bucket_type crush t then Ok take_ else Err F_PlacementError
    | _ => Err F_PlacementError
    end
  else
    match steps rule with
    | [leaf_tries; tries; take_; choose; emit] =>
        if negb (bool_decide (leaf_tries = mkRuleStep RULE_SET_CHOOSELEAF_TRIES 5 0))
           || negb (bool_decide (tries = mkRuleStep RULE_SET_CHOOSE_TRIES 100 0))
           || negb (operation take_ =? RULE_TAKE)
           || negb (bool_decide (choose = mkRuleStep RULE_CHOOSE_INDEP 0 0))
           || negb (bool_decide (emit = mkRuleStep RULE_EMIT 0 0))
        then Err F_PlacementError
        else Ok take_
    | _ => Err F_PlacementError
    end.

Definition validate_certified_rule (crush : Map) (rule : Rule) : result Fault unit :=
  take_ ← certified_shape crush rule;
  let root := argument1 take_ in
  if negb (bool_decide (is_Some (buckets crush !! root))) then Err F_PlacementError
  else if bool_decide (root ∈ class_shadow_buckets crush) then Err F_PlacementError
  else if negb (choose_local_tries crush =? 0)
          || negb (choose_local_fallback_tries crush =? 0)
          || negb (choose_total_tries crush =? 50)
          || negb (chooseleaf_descend_once crush =? 1)
          || negb (chooseleaf_vary_r crush =? 1)
          || negb (((straw_calc_version crush =? 0) && (allowed_bucket_algorithms crush =? 22))
                   || ((straw_calc_version crush =? 1) && (allowed_bucket_algorithms crush =? 54)))
          || negb (chooseleaf_stable crush =? 1)
          || negb (msr_descents crush =? 100)
          || negb (msr_collision_tries crush =? 100)
  then Err F_PlacementError
  else Ok tt.

Section Place.
  Context {base64 : Base64Engine}.

Definition place_validated (crush : Map) (rule_id seed replicas : Z) (osd_weights : list Z)
    : result Fault (list Z) :=
  if (replicas =? 0) || (MAX_CERTIFIED_REPLICAS <? replicas) then Err F_PlacementError
  else
    rule ← ok_or (rules crush !! rule_id) F_PlacementError;
    if negb (rule_type rule =? RULE_TYPE_REPLICATED) && negb (rule_type rule =? RULE_TYPE_ERASURE)
    then Err F_PlacementError
    else
      _ ← validate_certified_rule crush rule;
      Placement_rule crush osd_weights rule seed replicas.

Definition place (crush : Map) (rule_id seed replicas : Z) (osd_weights : list Z)
    : result Fault (list Z) :=
  _ ← map_err (fun _ => F_PlacementError) (validate_graph crush);
  place_validated crush rule_id seed replicas osd_weights.

End Place.

(** A map whose graph has been validated once. *)
Record ValidatedMap : Type := mkValidatedMap { validated : Map }.

Definition ValidatedMap_new (m : Map) : result Fault ValidatedMap :=
  _ ← map_err (fun _ => F_PlacementError) (validate_graph m);
  Ok (mkValidatedMap m).

Definition ValidatedMap_place `{Base64Engine} (v : ValidatedMap) (rule_id seed replicas : Z)
    (osd_weights : list Z) : result Fault (list Z) :=
  place_validated (validated v) rule_id seed replicas osd_weights.

(** Decides the comparisons of concrete operation codes in the goal. *)
Ltac eval_ops :=
  repeat match goal with
  | |- context [?a =? ?b] =>
      let v := eval vm_compute in (a =? b) in
      match v with true => idtac | false => idtac end; change (a =? b) with v
  | |- context [?a <=? ?b] =>
      let v := eval vm_compute in (a <=? b) in
      match v with true => idtac | false => idtac end; change (a <=? b) with v
  end; cbn [orb andb negb]; cbv iota.

(** ** Straw2: specification and lemmas *)

(** The index [straw2_choose] elects: the first one of the greatest draw. *)
Definition draw_at `{Base64Engine} (b : Bucket) (seed r : Z) (i : nat) : result Fault Z :=
  match item_weights b !! i with
  | Some weight => straw2_draw b seed r (Z.of_nat i) weight
  | None => Err F_Panic
  end.

Definition straw2_winner `{Base64Engine} (b : Bucket) (seed r : Z) (i : nat) : Prop :=
  exists di, draw_at b seed r i = Ok di
    /\ forall j, (j < length (item_weights b))%nat ->
         exists dj, draw_at b seed r j = Ok dj /\ dj <= di /\ ((j < i)%nat -> dj < di).

Definition bucket_wf (b : Bucket) : Prop := length (items b) = length (item_weights b).

Lemma zget_lookup {A} (l : list A) (i : nat) : zget l (Z.of_nat i) = l !! i.
Proof. unfold zget. destruct (Z.ltb_spec (Z.of_nat i) 0); [lia|]. by rewrite Nat2Z.id. Qed.

Lemma expect_u32_ok z : in_u 32 z -> expect_u32 z = Ok z.
Proof.
  unfold in_u, expect_u32, try_u. intros.
  destruct (Z.leb_spec 0 z), (Z.ltb_spec z (2 ^ 32)); try lia. done.
Qed.

Lemma land_ffff z : 0 <= Z.land z 0xffff <= 0xffff.
Proof.
  change 0xffff with (Z.ones 16) at 1 2. rewrite Z.land_ones by lia.
  pose proof (Z.mod_pos_bound z (2 ^ 16)). lia.
Qed.

Section Straw2Facts.
  Context {base64 : Base64Engine}.

Lemma straw2_draw_ok b seed r i w :
  in_u 32 r -> (i < length (items b))%nat ->
  exists d, straw2_draw b seed r (Z.of_nat i) w = Ok d /\ (w = 0 -> d = i64_min)
    /\ (0 < w -> i64_min < d).
Proof.
  intros Hr Hi. unfold straw2_draw. destruct (Z.eqb_spec w 0) as [->|N].
  { exists i64_min. split_and!; [done|done|lia]. }
  destruct (lookup_lt_is_Some_2 (items b) i Hi) as [item Hitem].
  unfold index. rewrite zget_lookup, Hitem, ok_or_Some, bind_Ok, expect_u32_ok, bind_Ok by done.
  cbv zeta. destruct (crush_ln_total _ (land_ffff (hash32_triple seed (wrap 32 item) r))) as (v & -> & Hv).
  rewrite ok_or_Some, bind_Ok. eexists. split_and!; [reflexivity|lia|].
  intros Hw. rewrite swrap_id by (unfold in_i; lia). unfold i64_min.
  assert (- 2 ^ 48 <= Z.quot (v - 2 ^ 48) w); [|lia].
  apply Z.quot_le_lower_bound; nia.
Qed.

Lemma straw2_scan_winner b seed r ws : forall k high high_draw,
  bucket_wf b -> in_u 32 r -> ws = drop k (item_weights b) ->
  (k <> 0%nat -> draw_at b seed r high = Ok high_draw /\ (high < k)%nat
     /\ forall j, (j < k)%nat -> exists dj, draw_at b seed r j = Ok dj
          /\ dj <= high_draw /\ ((j < high)%nat -> dj < high_draw)) ->
  (k <> 0%nat \/ ws <> []) ->
  exists i, straw2_scan b seed r (Z.of_nat k) ws (Z.of_nat high) high_draw = Ok (Z.of_nat i)
    /\ straw2_winner b seed r i /\ (i < length (item_weights b))%nat.
Proof.
  induction ws as [|w ws IH]; intros k high hd Hwf Hr Hws Hinv Hk.
  - assert (length (item_weights b) <= k)%nat.
    { pose proof (length_drop (item_weights b) k) as L. rewrite <- Hws in L. simpl in L. lia. }
    destruct Hk as [Hk|]; [|done]. destruct (Hinv Hk) as (Hd & Hlt & Hall).
    exists high. split; [done|]. split.
    + exists hd. split; [done|]. intros j Hj. apply Hall. lia.
    + unfold draw_at in Hd. destruct (item_weights b !! high) eqn:E; [|done].
      by apply lookup_lt_Some in E.
  - assert (item_weights b !! k = Some w) as Hw.
    { rewrite <- (Nat.add_0_r k), <- lookup_drop, <- Hws. done. }
    assert (k < length (items b))%nat as Hlen.
    { apply lookup_lt_Some in Hw. unfold bucket_wf in Hwf. lia. }
    destruct (straw2_draw_ok b seed r k w Hr Hlen) as (d & Hd & _).
    assert (draw_at b seed r k = Ok d) as Hda by (unfold draw_at; by rewrite Hw).
    assert (ws = drop (S k) (item_weights b)) as Hws'.
    { by rewrite <- Nat.add_1_r, <- drop_drop, <- Hws. }
    cbn [straw2_scan]. rewrite Hd. cbn [mbind result_bind].
    replace (Z.of_nat k + 1) with (Z.of_nat (S k)) by lia.
    destruct ((Z.of_nat k =? 0) || (hd <? d)) eqn:Hc.
    + apply IH; [done|done|done| |by left]. intros _. split_and!; [done|lia|].
      intros j Hj. destruct (decide (j = k)) as [->|]; [exists d; split_and!; [done|lia|lia]|].
      destruct (Hinv ltac:(lia)) as (_ & _ & Hall).
      destruct (Hall j ltac:(lia)) as (dj & Hdj & Hle & _). exists dj. bool_prop.
      split_and!; [done|lia|lia].
    + bool_prop. destruct (Hinv ltac:(lia)) as (Hh & Hlt & Hall).
      apply IH; [done|done|done| |by left]. intros _. split_and!; [done|lia|].
      intros j Hj. destruct (decide (j = k)) as [->|]; [exists d; split_and!; [done|lia|lia]|].
      apply Hall. lia.
Qed.

Lemma straw2_choose_winner b seed r :
  bucket_wf b -> in_u 32 r -> items b <> [] ->
  exists i item, straw2_choose b seed r = Ok item /\ items b !! i = Some item
    /\ straw2_winner b seed r i.
Proof.
  intros Hwf Hr Hne. unfold straw2_choose.
  destruct (straw2_scan_winner b seed r (item_weights b) 0 0 i64_min) as (i & Hs & Hw & Hlt);
    [done|done|done|done| |].
  { right. intros E. unfold bucket_wf in Hwf. rewrite E in Hwf. by destruct (items b). }
  unfold bucket_wf in Hwf. destruct (lookup_lt_is_Some_2 (items b) i ltac:(lia)) as [item Hi].
  exists i, item. change 0 with (Z.of_nat 0) at 1 2. rewrite Hs. cbn [mbind result_bind].
  unfold index. by rewrite zget_lookup, Hi.
Qed.

Lemma straw2_choose_item b seed r :
  bucket_wf b -> in_u 32 r -> items b <> [] ->
  exists item, straw2_choose b seed r = Ok item /\ item ∈ items b.
Proof.
  intros Hwf Hr Hne. destruct (straw2_choose_winner b seed r Hwf Hr Hne) as (i & item & ? & Hi & _).
  exists item. split; [done|]. by eapply list_elem_of_lookup_2.
Qed.

End Straw2Facts.

(** ** Vectors with holes *)

Lemma index_lookup {A} (l : list A) (i : nat) x : l !! i = Some x -> index l (Z.of_nat i) = Ok x.
Proof. intros H. unfold index. by rewrite zget_lookup, H. Qed.

Lemma set_at_ok {A} (l : list A) (i : nat) v :
  (i < length l)%nat -> set_at l (Z.of_nat i) v = Ok (<[i := v]> l).
Proof.
  intros H. unfold set_at, zlen. rewrite Nat2Z.id.
  destruct (Z.leb_spec 0 (Z.of_nat i)), (Z.ltb_spec (Z.of_nat i) (Z.of_nat (length l))); try lia.
  done.
Qed.

Lemma slice_prefix {A} (l : list A) (n : nat) :
  (n <= length l)%nat -> slice l 0 (Z.of_nat n) = Ok (take n l).
Proof.
  intros H. unfold slice, zlen. rewrite Z.sub_0_r, Nat2Z.id.
  destruct (Z.leb_spec 0 (Z.of_nat n)), (Z.leb_spec (Z.of_nat n) (Z.of_nat (length l))); try lia.
  done.
Qed.

(** Positions still to fill, and vectors that hold no value twice. *)
Definition holes (l : list Z) : Z := zlen (filter (fun x => x = ITEM_NONE) l).

Definition distinct (l : list Z) : Prop :=
  forall i j x, l !! i = Some x -> l !! j = Some x -> x <> ITEM_NONE -> i = j.

Lemma holes_insert l i v :
  l !! i = Some ITEM_NONE -> v <> ITEM_NONE -> holes (<[i := v]> l) = holes l - 1.
Proof.
  intros Hi Hv. pose proof (lookup_lt_Some _ _ _ Hi). unfold holes.
  rewrite insert_take_drop by done. rewrite <- (take_drop_middle l i ITEM_NONE Hi) at 3.
  rewrite !filter_app, !zlen_app, filter_cons_False, filter_cons_True, zlen_cons by done. lia.
Qed.

Lemma holes_pos l i : l !! i = Some ITEM_NONE -> 1 <= holes l.
Proof.
  intros Hi. unfold holes. rewrite <- (take_drop_middle l i ITEM_NONE Hi).
  rewrite filter_app, zlen_app, filter_cons_True, zlen_cons by done.
  pose proof (zlen_nonneg (filter (fun x => x = ITEM_NONE) (take i l))).
  pose proof (zlen_nonneg (filter (fun x => x = ITEM_NONE) (drop (S i) l))). lia.
Qed.

Lemma distinct_insert l i v : distinct l -> v ∉ l -> distinct (<[i := v]> l).
Proof.
  intros Hd Hv a b x Ha Hb Hx.
  apply list_lookup_insert_Some in Ha as [(-> & <- & _)|[Na Ha]];
    apply list_lookup_insert_Some in Hb as [(-> & E & _)|[Nb Hb]]; [done| | |by eapply Hd].
  - destruct Hv. by eapply list_elem_of_lookup_2.
  - subst. destruct Hv. by eapply list_elem_of_lookup_2.
Qed.

Lemma NoDup_distinct l : NoDup l -> distinct l.
Proof. intros Hl i j x Hi Hj _. by eapply NoDup_lookup. Qed.

Lemma distinct_NoDup l : distinct l -> NoDup (filter (fun x => x <> ITEM_NONE) l).
Proof.
  induction l as [|x l IH]; intros Hd; [constructor|].
  assert (distinct l) as Hl.
  { intros i j y Hi Hj Hy. specialize (Hd (S i) (S j) y Hi Hj Hy). lia. }
  rewrite filter_cons. case_decide; [|by apply IH]. constructor; [|by apply IH].
  rewrite list_elem_of_filter. intros [Hx Hin]. apply list_elem_of_lookup in Hin as [j Hj].
  by specialize (Hd 0%nat (S j) x eq_refl Hj Hx).
Qed.

Lemma holes_replicate n : holes (replicate n ITEM_NONE) = Z.of_nat n.
Proof.
  induction n as [|n IH]; [done|]. unfold holes in *.
  simpl replicate. rewrite filter_cons_True, zlen_cons by done. lia.
Qed.

Lemma clear_positions_replicate k : forall i n,
  (i + k <= n)%nat ->
  clear_positions k (Z.of_nat i) (replicate n ITEM_NONE) = Ok (replicate n ITEM_NONE).
Proof.
  induction k as [|k IH]; intros i n Hn; [done|]. cbn [clear_positions].
  rewrite set_at_ok, bind_Ok by (rewrite length_replicate; lia).
  rewrite list_insert_id by (apply lookup_replicate; split; [done|lia]).
  replace (Z.of_nat i + 1) with (Z.of_nat (S i)) by lia. apply IH. lia.
Qed.

(** ** Descents in a validated map *)

(** [item] is reachable from bucket [b]. *)
Inductive under (m : Map) : Bucket -> Z -> Prop :=
| under_item b item : item ∈ items b -> under m b item
| under_child b id c item :
    id ∈ items b -> buckets m !! id = Some c -> under m c item -> under m b item.

(** The OSD weights keep a device: it has a weight, which is full or beats the
    16-bit draw of the device. *)
Definition weighted_in (ws : list Z) (seed item : Z) : Prop :=
  exists w, zget ws item = Some w /\ (0x10000 <= w \/ Z.land (hash32_pair seed (wrap 32 item)) 0xffff < w).

Lemma is_out_false ws item seed : is_out ws item seed = false -> 0 <= item /\ weighted_in ws seed item.
Proof.
  unfold is_out, weighted_in. intros H. destruct (Z.ltb_spec item 0); [done|].
  destruct (zget ws item) as [w|]; [|done]. split; [done|]. exists w. split; [done|].
  destruct (Z.leb_spec 0x10000 w); [by left|]. destruct (w =? 0); [done|]. right. by apply Z.leb_gt.
Qed.

(** What a placement may return for a device below bucket [b]: a device of the
    map that is reachable from [b] and that the weights do not reject. *)
Definition leaf_ok (m : Map) (ws : list Z) (seed : Z) (b : Bucket) (item : Z) : Prop :=
  under m b item /\ 0 <= item < max_devices m /\ weighted_in ws seed item.

(** A failure domain of type [t] below [b], and a leaf chosen in it. *)
Definition domain_ok (m : Map) (ws : list Z) (seed t : Z) (b : Bucket) (item leaf : Z) : Prop :=
  exists c, buckets m !! item = Some c /\ bucket_type c = t /\ under m b item
    /\ leaf_ok m ws seed c leaf.

Lemma under_trans m b id c item :
  under m b id -> buckets m !! id = Some c -> under m c item -> under m b item.
Proof.
  induction 1 as [b id Hin|b id' c' id Hin Hc' _ IH]; intros Hc Hu; [by eapply under_child|].
  eapply under_child; [done|done|]. by apply IH.
Qed.

Lemma leaf_ok_trans m ws seed b id c leaf :
  under m b id -> buckets m !! id = Some c -> leaf_ok m ws seed c leaf -> leaf_ok m ws seed b leaf.
Proof. intros Hu Hc (H1 & H2). split; [|done]. by eapply under_trans. Qed.

Section Descent.
  Context {base64 : Base64Engine}.
  Context (m : Map) (ws : list Z) (h : Z -> Z) (seed : Z).
  Context (Hwf : crush_wf m).
  Context (Hrank : ranked m h).

(** One choice in a bucket of a validated map: a device of the map, or a child
    bucket of lesser rank. *)
Lemma straw2_step id b r :
  buckets m !! id = Some b -> in_u 32 r -> items b <> [] ->
  exists item, straw2_choose b seed r = Ok item /\ under m b item /\ item < max_devices m
    /\ ((0 <= item /\ item_type m item = Some 0)
        \/ (item < 0 /\ exists c, buckets m !! item = Some c
              /\ item_type m item = Some (bucket_type c) /\ h item < h id)).
Proof.
  intros Hb Hr Hne. destruct (wf_buckets m Hwf id b Hb) as (_ & _ & Hbw).
  destruct (straw2_choose_item b seed r Hbw Hr Hne) as (item & Hc & Hin).
  destruct (Hrank id b Hb) as [_ HF]. rewrite Forall_forall in HF. specialize (HF item Hin).
  exists item. split; [done|]. split; [by apply under_item|]. unfold item_type.
  destruct HF as [Hd|(Hn & [c Hc'] & Hlt)].
  - split; [lia|]. left. split; [lia|]. by destruct (Z.ltb_spec item 0); [lia|].
  - pose proof (wf_devices m Hwf). split; [lia|]. right. split; [done|]. exists c.
    destruct (Z.ltb_spec item 0); [|lia]. by rewrite Hc'.
Qed.

(** *** Independent choice *)

Section IndepFacts.
  Context (nested : Bucket -> list Z -> Z -> Z -> result Fault (list Z)).
  Context (root : Z) (bucket : Bucket) (n : nat) (tries : Z).
  Context (Hroot : buckets m !! root = Some bucket).
  Context (Hbound : Z.of_nat n + Z.of_nat n * tries < 2 ^ 32).

Abbreviation descend := (indep_descend m ws nested seed (Z.of_nat n) 0 0 (Z.of_nat n) false 0).

(** What one position may do to the state: nothing, or be filled with an
    acceptable device that is not in the output yet. *)
Definition indep_filled (b : Bucket) (pos : nat) (st st' : IndepState) : Prop :=
  st' = st \/ exists item, leaf_ok m ws seed b item /\ (item ∉ st.1.1)
    /\ st' = (<[pos := item]> st.1.1, st.1.2, st.2 - 1).

Lemma indep_accept_spec (pos : nat) r cur item output leaves left_ :
  (pos < n)%nat -> length output = n -> 1 <= left_ -> under m cur item -> item < max_devices m ->
  exists st, indep_accept m ws nested seed 0 (Z.of_nat n) false (Z.of_nat pos) r item 0
               (output, leaves, left_) = Ok st
    /\ indep_filled cur pos (output, leaves, left_) st.
Proof.
  intros Hpos Hlen Hl Hu Hmax. unfold indep_accept.
  rewrite slice_prefix, bind_Ok by lia. rewrite <- Hlen, firstn_all.
  case_bool_decide; [eexists; split; [done|]; by left|].
  assert (indep_leaf m nested false item (Z.of_nat pos) r leaves = Ok (leaves, false)) as ->
    by (by destruct leaves).
  rewrite bind_Ok. cbn [orb andb Z.eqb]. destruct (is_out ws item seed) eqn:O.
  { eexists. split; [reflexivity|]. by left. }
  rewrite set_at_ok, bind_Ok by lia. unfold decrement. destruct (Z.leb_spec left_ 0); [lia|].
  rewrite bind_Ok. eexists. split; [reflexivity|]. right. exists item. split_and!; [|done|done].
  by destruct (is_out_false _ _ _ O).
Qed.

Lemma indep_descend_spec fuel : forall failure (pos : nat) id cur output leaves left_,
  buckets m !! id = Some cur -> h id <= Z.of_nat fuel -> (pos < n)%nat -> 0 <= failure < tries ->
  length output = n -> 1 <= left_ ->
  exists st, indep_descend m ws nested seed (Z.of_nat n) 0 0 (Z.of_nat n) false 0 fuel failure
               (Z.of_nat pos) cur (output, leaves, left_) = Ok st
    /\ indep_filled cur pos (output, leaves, left_) st.
Proof.
  induction fuel as [|fuel IH]; intros failure pos id cur output leaves left_ Hcur Hh Hpos Hf Hlen Hl.
  { destruct (Hrank id cur Hcur) as [? _]. lia. }
  cbn [indep_descend]. destruct (Z.eqb_spec (zlen (items cur)) 0) as [E|Hne].
  { eexists. split; [reflexivity|]. by left. }
  destruct (straw2_step id cur (Z.of_nat pos + 0 + Z.of_nat n * failure) Hcur)
    as (item & Hs & Hu & Hmax & Hkind).
  { unfold in_u. nia. }
  { intros E. by rewrite E in Hne. }
  rewrite Hs, bind_Ok. destruct (Z.leb_spec (max_devices m) item); [lia|].
  destruct Hkind as [[Hge ->]|(Hlt & c & Hc & -> & Hhc)]; [by apply indep_accept_spec|].
  destruct (Z.eqb_spec (bucket_type c) 0) as [->|N]; cbn [negb]; [by apply indep_accept_spec|].
  destruct (Z.leb_spec 0 item); [lia|]. unfold bucket_at. rewrite Hc, ok_or_Some, bind_Ok.
  destruct (IH failure pos item c output leaves left_ Hc ltac:(lia) Hpos Hf Hlen Hl)
    as (st & -> & Hst).
  exists st. split; [done|]. destruct Hst as [->|(leaf & Hleaf & Hnin & ->)]; [by left|right].
  exists leaf. split_and!; [|done|done]. by eapply leaf_ok_trans.
Qed.
(** The invariant of the rounds. *)
Definition indep_ok (st : IndepState) : Prop :=
  length st.1.1 = n /\ st.2 = holes st.1.1 /\ distinct st.1.1
  /\ Forall (fun x => x = ITEM_NONE \/ leaf_ok m ws seed bucket x) st.1.1.

Lemma leaf_not_none b x : leaf_ok m ws seed b x -> x <> ITEM_NONE.
Proof. intros (_ & Hx & _). pose proof (wf_devices m Hwf). unfold ITEM_NONE. lia. Qed.

Lemma indep_filled_ok pos st st' :
  indep_ok st -> st.1.1 !! pos = Some ITEM_NONE -> indep_filled bucket pos st st' -> indep_ok st'.
Proof.
  intros Hok Hpos [->|(item & Hleaf & Hnin & ->)]; [done|].
  destruct Hok as (Hlen & Hleft & Hd & HF). split_and!; simpl.
  - by rewrite length_insert.
  - rewrite holes_insert by eauto using leaf_not_none. lia.
  - by apply distinct_insert.
  - apply Forall_insert; [done|]. by right.
Qed.

Lemma indep_positions_spec k : forall failure (pos : nat) st,
  0 <= failure < tries -> (pos + k <= n)%nat -> indep_ok st ->
  exists st', indep_positions m ws nested bucket seed (Z.of_nat n) 0 0 (Z.of_nat n) false 0 k
                failure (Z.of_nat pos) st = Ok st' /\ indep_ok st'.
Proof.
  induction k as [|k IH]; intros failure pos st Hf Hk Hok; [by exists st|].
  cbn [indep_positions]. destruct Hok as (Hlen & Hok).
  destruct (lookup_lt_is_Some_2 st.1.1 pos ltac:(lia)) as [v Hv].
  rewrite (index_lookup _ _ _ Hv), bind_Ok.
  replace (Z.of_nat pos + 1) with (Z.of_nat (S pos)) by lia.
  destruct (Z.eqb_spec v ITEM_NONE) as [->|N]; cbn [negb].
  - destruct st as [[output leaves] left_]. simpl in Hlen, Hok, Hv.
    destruct (indep_descend_spec DESCENT_FUEL failure pos root bucket output leaves left_)
      as (st' & Hd & Hfill); [done| |lia|done|done| |].
    + destruct (Hrank root bucket Hroot) as [Hh _]. unfold MAX_CERTIFIED_DEPTH, DESCENT_FUEL in *. lia.
    + destruct Hok as [-> _]. by eapply holes_pos.
    + rewrite Hd, bind_Ok. apply IH; [done|lia|]. by eapply indep_filled_ok, Hfill.
  - rewrite bind_Ok. apply IH; [done|lia|done].
Qed.

Lemma indep_rounds_spec k : forall failure st,
  0 <= failure -> failure + Z.of_nat k <= tries -> indep_ok st ->
  exists st', indep_rounds m ws nested bucket seed (Z.of_nat n) 0 0 (Z.of_nat n) false 0 k
                failure st = Ok st' /\ indep_ok st'.
Proof.
  induction k as [|k IH]; intros failure st Hf Hk Hok; [by exists st|].
  cbn [indep_rounds]. destruct (Z.leb_spec st.2 0); [by exists st|].
  rewrite Z.sub_0_r, Nat2Z.id.
  destruct (indep_positions_spec n failure 0 st) as (st' & E & Hok'); [lia|lia|done|].
  change (Z.of_nat 0) with 0 in E. rewrite E, bind_Ok. apply IH; [lia|lia|done].
Qed.
End IndepFacts.

(** The independent chooser on fresh buffers of [n] positions. *)
Lemma choose_indep_spec nest root bucket n tries recurse_tries :
  buckets m !! root = Some bucket -> 0 <= tries ->
  Z.of_nat n + Z.of_nat n * tries < 2 ^ 32 ->
  exists output leaves,
    choose_indep m ws (S nest) bucket seed (Z.of_nat n) (Z.of_nat n) 0 (replicate n ITEM_NONE) 0
      tries recurse_tries false (Some (replicate n ITEM_NONE)) 0 = Ok (output, leaves)
    /\ length output = n /\ distinct output
    /\ Forall (fun x => x = ITEM_NONE \/ leaf_ok m ws seed bucket x) output.
Proof.
  intros Hroot Ht Hb. cbn [choose_indep]. rewrite Nat2Z.id.
  pose proof (clear_positions_replicate n 0 n ltac:(lia)) as Hclear.
  change (Z.of_nat 0) with 0 in Hclear. rewrite Hclear, bind_Ok.
  cbn [fmap result_fmap]. rewrite bind_Ok, Z.add_0_l.
  match goal with |- context [indep_rounds _ _ ?nested] =>
    destruct (indep_rounds_spec nested root bucket n tries Hroot Hb (Z.to_nat tries) 0
      (replicate n ITEM_NONE, Some (replicate n ITEM_NONE), Z.of_nat n))
      as (st & -> & Hlen & _ & Hd & HF) end; [lia|lia| |].
  - split_and!; simpl; [apply length_replicate|by rewrite holes_replicate| |].
    + intros i j x Hi _ Hx. apply lookup_replicate in Hi as [-> _]. done.
    + apply Forall_replicate. by left.
  - destruct st as [[output leaves] left_]. exists output, leaves. by split_and!.
Qed.

(** *** First-n choice *)

Section FirstNFacts.
  Context (nested : Bucket -> Z -> list Z -> Z -> Z -> Z -> Permutations ->
                    result Fault (Z * list Z * Permutations)).
  Context (root : Z) (bucket : Bucket) (target tries parent_r : Z) (recurse : bool).
  Context (output : list Z) (pos : nat) (count : Z) (perms : Permutations).
  Context (Hroot : buckets m !! root = Some bucket).
  Context (Hpos : (pos <= length output)%nat).
  Context (Htarget : if recurse then 0 < target else target = 0).
  (** [R] holds of the leaves throughout the search; [G] of an accepted item. *)
  Context (R : option (list Z) -> Prop) (G : Z -> option (list Z) -> Prop).
  Context (Hleaf : recurse = true -> forall item c r leaves,
    R leaves -> buckets m !! item = Some c -> item < 0 -> bucket_type c = target ->
    under m bucket item -> in_u 32 r -> item ∉ take pos output ->
    exists rej leaves', first_n_leaf m nested 1 true item r (Z.of_nat pos) count leaves perms
                          = Ok (rej, leaves', perms) /\ R leaves' /\ (rej = false -> G item leaves')).
  Context (Hdevice : recurse = false -> forall item leaves,
    R leaves -> leaf_ok m ws seed bucket item -> item ∉ take pos output -> G item leaves).

Abbreviation check := (first_n_check m ws nested seed recurse 1 true output (Z.of_nat pos) count).

Lemma first_n_check_spec r item leaves :
  R leaves -> in_u 32 r -> under m bucket item -> item < max_devices m ->
  (0 <= item /\ target = 0 \/ item < 0 /\ exists c, buckets m !! item = Some c /\ bucket_type c = target) ->
  exists rej coll leaves', check r false item target leaves perms = Ok (rej, coll, leaves', perms)
    /\ R leaves' /\ (rej || coll = false -> G item leaves').
Proof.
  intros HR Hr Hu Hmax Hkind. unfold first_n_check. cbn [negb].
  rewrite slice_prefix by done. rewrite !bind_Ok.
  case_bool_decide as Hc; cbn [negb andb].
  { rewrite bind_Ok. cbn [negb andb]. eexists _, _, _. split; [reflexivity|]. by rewrite orb_true_r. }
  destruct recurse.
  - destruct Hkind as [[_ E]|(Hn & c & Hcb & Hct)]; [lia|].
    destruct (Hleaf eq_refl item c r leaves HR Hcb Hn Hct Hu Hr Hc) as (rej & leaves' & -> & HR' & HG).
    rewrite bind_Ok. destruct (Z.eqb_spec target 0); [lia|]. rewrite andb_false_r.
    eexists _, _, _. split; [reflexivity|]. rewrite orb_false_r. by split.
  - rewrite bind_Ok. cbn [negb andb]. rewrite Htarget. cbn [Z.eqb].
    eexists _, _, _. split; [reflexivity|]. split; [done|]. rewrite orb_false_r. intros O.
    apply Hdevice; [done|done| |done]. by destruct (is_out_false _ _ _ O).
Qed.

Lemma first_n_failed_certified continue cur coll total skipped :
  0 <= total < 1000 ->
  first_n_failed bucket tries 0 0 continue cur coll total 0 skipped =
    if total + 1 <? tries then continue bucket (total + 1) 0 else Ok skipped.
Proof.
  intros Ht. unfold first_n_failed, retry_bucket. rewrite !wrap_id by (unfold in_u; lia).
  by destruct coll.
Qed.

(** The search for one replica ends, with an item that satisfies [G] unless the
    replica is skipped. *)
Lemma first_n_try_spec fuel : forall replica id cur total item leaves,
  buckets m !! id = Some cur -> (forall x, under m cur x -> under m bucket x) ->
  0 <= total < tries -> tries <= 1000 -> 0 <= replica + parent_r -> replica + parent_r + tries <= 2 ^ 32 ->
  h id + 65 * (tries - 1 - total) <= Z.of_nat fuel -> R leaves ->
  exists skip item' leaves',
    first_n_try m ws nested bucket seed target tries 0 0 recurse 1 true parent_r fuel output
      (Z.of_nat pos) count replica cur total 0 item leaves perms = Ok (skip, item', leaves', perms)
    /\ R leaves' /\ (skip = false -> G item' leaves').
Proof.
  induction fuel as [|fuel IH]; intros replica id cur total item leaves Hcur Hsub Ht Htr Hr Hr' Hfuel HR.
  { destruct (Hrank id cur Hcur) as [? _]. lia. }
  assert (in_u 32 (replica + parent_r + total)) as Hru by (unfold in_u; lia).
  assert (1 <= h id /\ h root <= 64) as [Hh1 Hh2].
  { destruct (Hrank id cur Hcur) as [? _], (Hrank root bucket Hroot) as [? _].
    unfold MAX_CERTIFIED_DEPTH in *. lia. }
  assert (forall cur coll item leaves, R leaves -> exists skip item' leaves',
    first_n_failed bucket tries 0 0 (fun cur total local =>
      first_n_try m ws nested bucket seed target tries 0 0 recurse 1 true parent_r fuel output
        (Z.of_nat pos) count replica cur total local item leaves perms) cur coll total 0
      (true, item, leaves, perms) = Ok (skip, item', leaves', perms)
    /\ R leaves' /\ (skip = false -> G item' leaves')) as Hretry.
  { intros cur1 coll item1 leaves1 HR1. rewrite first_n_failed_certified by lia.
    destruct (Z.ltb_spec (total + 1) tries); [|by exists true, item1, leaves1].
    by apply (IH replica root); [done|done|lia|lia|lia|lia|lia|]. }
  cbn [first_n_try]. destruct (Z.eqb_spec (zlen (items cur)) 0) as [E|Hne]; cbn [negb andb].
  { rewrite bind_Ok. unfold first_n_check at 1. rewrite bind_Ok. cbn [negb andb].
    rewrite !bind_Ok. cbn [negb andb orb]. by apply Hretry. }
  destruct (straw2_step id cur (replica + parent_r + total) Hcur Hru) as (x & Hs & Hu & Hmax & Hkind).
  { intros E. by rewrite E in Hne. }
  unfold first_n_pick, use_permutation. cbn [Z.leb Z.compare]. rewrite !bind_Ok, Hs, !bind_Ok.
  destruct (Z.leb_spec (max_devices m) x); [lia|].
  assert ((0 <= x /\ target = 0 \/ x < 0 /\ exists c, buckets m !! x = Some c /\ bucket_type c = target) ->
    exists skip item' leaves',
    ('(reject, collide, leaves, perms) ← check (replica + parent_r + total) false x target leaves perms;
     if reject || collide
     then first_n_failed bucket tries 0 0 (fun cur total local =>
       first_n_try m ws nested bucket seed target tries 0 0 recurse 1 true parent_r fuel output
        (Z.of_nat pos) count replica cur total local x leaves perms) cur collide total 0
      (true, x, leaves, perms)
     else Ok (false, x, leaves, perms)) = Ok (skip, item', leaves', perms)
    /\ R leaves' /\ (skip = false -> G item' leaves')) as Hcheck.
  { intros Hk. destruct (first_n_check_spec (replica + parent_r + total) x leaves HR Hru (Hsub x Hu) Hmax Hk)
      as (rej & coll & leaves' & -> & HR' & HG).
    rewrite bind_Ok. destruct (rej || coll); [by apply Hretry|]. exists false, x, leaves'. auto. }
  destruct Hkind as [[Hge ->]|(Hlt & c & Hc & -> & Hhc)].
  - destruct (Z.eqb_spec 0 target) as [<-|N]; cbn [negb]; [apply Hcheck; by left|].
    destruct (Z.leb_spec 0 x); [|lia]. by exists true, x, leaves.
  - destruct (Z.eqb_spec (bucket_type c) target) as [Ect|N]; cbn [negb].
    { rewrite Ect. apply Hcheck. right. split; [done|]. by exists c. }
    destruct (Z.leb_spec 0 x); [lia|]. unfold bucket_at. rewrite Hc, ok_or_Some, bind_Ok.
    apply (IH replica x); [done| |lia|lia|lia|lia|lia|done].
    intros y Hy. apply Hsub. by eapply under_trans.
Qed.
End FirstNFacts.

Lemma try_fuel_enough tries id b :
  buckets m !! id = Some b -> 1 <= tries -> h id + 65 * (tries - 1 - 0) <= Z.of_nat (try_fuel tries).
Proof.
  intros Hb Ht. destruct (Hrank id b Hb) as [? _]. unfold MAX_CERTIFIED_DEPTH, try_fuel in *. lia.
Qed.

(** The recursive call for the leaf of a failure domain: position [pos] of the
    leaves stays as it is, or receives an acceptable device of the domain that
    is not among the leaves yet. *)
Lemma choose_leaf_spec nest id child values (pos : nat) count sub_r perms :
  buckets m !! id = Some child -> (pos < length values)%nat -> 0 < count -> in_u 32 sub_r ->
  exists chosen values',
    choose_first_n m ws (S nest) child seed 1 0 values (Z.of_nat pos) count 1 0 0 0 false 1 true None
      sub_r perms = Ok (chosen, values', None, perms)
    /\ ((chosen = Z.of_nat pos /\ values' = values)
        \/ (chosen = Z.of_nat pos + 1 /\ exists leaf, values' = <[pos := leaf]> values
             /\ leaf_ok m ws seed child leaf /\ leaf ∉ take pos values)).
Proof.
  intros Hc Hpos Hcount Hr. unfold in_u in Hr. cbn [choose_first_n]. change (Z.to_nat (1 - 0)) with 1%nat.
  cbn [first_n_replicas]. destruct (Z.eqb_spec count 0); [lia|].
  match goal with |- context [first_n_try _ _ ?nested] =>
    destruct (first_n_try_spec nested id child 0 1 sub_r false values pos count perms Hc ltac:(lia)
      eq_refl (fun l => l = None)
      (fun item _ => leaf_ok m ws seed child item /\ (item ∉ take pos values)) ltac:(done) ltac:(done)
      (try_fuel 1) 0 id child 0 ITEM_NONE None)
      as (skip & item & leaves & -> & -> & HG) end;
    [done|done|lia|lia|lia|lia|by eapply try_fuel_enough|done|].
  rewrite bind_Ok. destruct skip.
  - eexists _, _. split; [reflexivity|]. by left.
  - destruct HG as [HG1 HG2]; [done|]. rewrite set_at_ok, bind_Ok by done.
    eexists _, _. split; [reflexivity|]. right. split; [lia|]. by exists item.
Qed.

Lemma first_n_replicas_spec nested bucket target tries recurse perms (N : nat)
    (Inv : nat -> list Z -> option (list Z) -> Prop) :
  (forall replica pos output leaves, 0 <= replica <= 64 -> (pos < N)%nat -> Inv pos output leaves ->
     (pos < length output)%nat /\ exists skip item leaves',
       first_n_try m ws nested bucket seed target tries 0 0 recurse 1 true 0 (try_fuel tries) output
         (Z.of_nat pos) (Z.of_nat N - Z.of_nat pos) replica bucket 0 0 ITEM_NONE leaves perms
       = Ok (skip, item, leaves', perms)
       /\ if skip : bool then Inv pos output leaves' else Inv (S pos) (<[pos := item]> output) leaves') ->
  forall k replica pos output leaves,
    0 <= replica -> replica + Z.of_nat k <= 64 -> (pos <= N)%nat -> Inv pos output leaves ->
    exists pos' output' leaves',
      first_n_replicas m ws nested bucket seed target tries 0 0 recurse 1 true 0 k replica output
        (Z.of_nat pos) (Z.of_nat N - Z.of_nat pos) leaves perms
      = Ok (Z.of_nat pos', output', leaves', perms)
      /\ (pos' <= N)%nat /\ Inv pos' output' leaves'.
Proof.
  intros Htry. induction k as [|k IH]; intros replica pos output leaves Hr Hk Hpos HI.
  { by exists pos, output, leaves. }
  cbn [first_n_replicas]. destruct (Z.eqb_spec (Z.of_nat N - Z.of_nat pos) 0).
  { by exists pos, output, leaves. }
  destruct (Htry replica pos output leaves) as (Hlen & skip & item & leaves' & -> & HI');
    [lia|lia|done|].
  rewrite bind_Ok. destruct skip; [apply IH; [lia|lia|done|done]|].
  rewrite set_at_ok, bind_Ok by done.
  replace (Z.of_nat pos + 1) with (Z.of_nat (S pos)) by lia.
  replace (Z.of_nat N - Z.of_nat pos - 1) with (Z.of_nat N - Z.of_nat (S pos)) by lia.
  apply IH; [lia|lia|lia|done].
Qed.

Lemma take_insert_snoc (l : list Z) i x :
  (i < length l)%nat -> take (S i) (<[i := x]> l) = take i l ++ [x].
Proof.
  intros Hi. rewrite (take_S_r _ _ x) by by rewrite list_lookup_insert_eq.
  by rewrite take_insert_ge.
Qed.

Lemma NoDup_snoc (l : list Z) x : NoDup l -> x ∉ l -> NoDup (l ++ [x]).
Proof.
  intros Hl Hx. apply NoDup_app. split_and!; [done| |apply NoDup_singleton].
  intros y Hy ->%list_elem_of_singleton. done.
Qed.

(** First-n choice of devices. *)
Lemma choose_devices_spec nest root bucket tries recurse_tries (n : nat) leaves :
  buckets m !! root = Some bucket -> 1 <= tries <= 1000 -> (n <= 64)%nat ->
  exists pos output leaves',
    choose_first_n m ws (S nest) bucket seed (Z.of_nat n) 0 (replicate n ITEM_NONE) 0 (Z.of_nat n)
      tries recurse_tries 0 0 false 1 true leaves 0 ∅ = Ok (Z.of_nat pos, output, leaves', ∅)
    /\ (pos <= n)%nat /\ length output = n /\ NoDup (take pos output)
    /\ Forall (leaf_ok m ws seed bucket) (take pos output).
Proof.
  intros Hroot Ht Hn. cbn [choose_first_n]. rewrite Z.sub_0_r, Nat2Z.id.
  match goal with |- context [first_n_replicas _ _ ?nested] =>
    destruct (first_n_replicas_spec nested bucket 0 tries false ∅ n
      (fun pos output _ => length output = n /\ NoDup (take pos output)
         /\ Forall (leaf_ok m ws seed bucket) (take pos output)))
      with (k := n) (replica := 0) (pos := 0%nat) (output := replicate n ITEM_NONE) (leaves := leaves)
      as (pos & output & leaves' & E & Hpos & HI) end; [|lia|lia|lia| |].
  - intros replica pos output leaves1 Hr Hpos (Hlen & Hnd & HF). split; [lia|].
    match goal with |- context [first_n_try _ _ ?nested] =>
      destruct (first_n_try_spec nested root bucket 0 tries 0 false output pos
        (Z.of_nat n - Z.of_nat pos) ∅ Hroot ltac:(lia) eq_refl (fun _ => True)
        (fun item _ => leaf_ok m ws seed bucket item /\ item ∉ take pos output)
        ltac:(done) ltac:(done) (try_fuel tries) replica root bucket 0 ITEM_NONE leaves1)
        as (skip & item & leaves2 & E & _ & HG) end;
      [done|done|lia|lia|lia|lia|eapply try_fuel_enough; [done|lia]|done|].
    exists skip, item, leaves2. split; [done|]. destruct skip; [done|].
    destruct HG as [HG1 HG2]; [done|]. rewrite length_insert, take_insert_snoc by lia.
    split_and!; [done|by apply NoDup_snoc|]. apply Forall_app. split; [done|by apply Forall_singleton].
  - split_and!; [apply length_replicate|constructor..].
  - change (Z.of_nat 0) with 0 in E. rewrite Z.sub_0_r in E.
    by exists pos, output, leaves'.
Qed.

(** First-n choice of failure domains of type [t] with a leaf in each. *)
Definition domains_inv (t : Z) (bucket : Bucket) (n pos : nat) (output : list Z)
    (leaves : option (list Z)) : Prop :=
  exists values, leaves = Some values /\ length output = n /\ length values = n
    /\ NoDup (take pos output) /\ NoDup (take pos values)
    /\ Forall2 (domain_ok m ws seed t bucket) (take pos output) (take pos values).

Lemma domains_try_spec nest root bucket t tries (n pos : nat) replica output leaves :
  buckets m !! root = Some bucket -> 0 < t -> 1 <= tries <= 1000 -> 0 <= replica <= 64 ->
  (pos < n)%nat -> domains_inv t bucket n pos output leaves ->
  exists skip item leaves',
    first_n_try m ws (fun child recursive_replicas values position count sub_r perms =>
        '(chosen, values, _, perms) ←
          choose_first_n m ws (S nest) child seed recursive_replicas 0 values position count 1 0
            0 0 false 1 true None sub_r perms;
        Ok (chosen, values, perms))
      bucket seed t tries 0 0 true 1 true 0 (try_fuel tries) output (Z.of_nat pos)
      (Z.of_nat n - Z.of_nat pos) replica bucket 0 0 ITEM_NONE leaves ∅ = Ok (skip, item, leaves', ∅)
    /\ if skip : bool then domains_inv t bucket n pos output leaves'
       else domains_inv t bucket n (S pos) (<[pos := item]> output) leaves'.
Proof.
  intros Hroot Ht Htr Hr Hpos (values & -> & Hlo & Hlv & Hno & Hnv & HF).
  match goal with |- context [first_n_try _ _ ?nested] =>
    destruct (first_n_try_spec nested root bucket t tries 0 true output pos
      (Z.of_nat n - Z.of_nat pos) ∅ Hroot ltac:(lia) Ht
      (fun l => exists v, l = Some v /\ length v = n /\ take pos v = take pos values)
      (fun item l => item ∉ take pos output /\ exists v leaf, l = Some v /\ length v = n
         /\ take pos v = take pos values /\ v !! pos = Some leaf /\ leaf ∉ take pos values
         /\ domain_ok m ws seed t bucket item leaf))
      with (fuel := try_fuel tries) (replica := replica) (id := root) (cur := bucket) (total := 0)
           (item := ITEM_NONE) (leaves := Some values)
      as (skip & item & leaves' & E & HR & HG) end;
    [|done|done|done|lia|lia|lia|lia|eapply try_fuel_enough; [done|lia]|by eexists|].
  - intros _ item c r leaves (v & -> & Hv & Hvt) Hc Hneg Htype Hu Hru Hnin.
    unfold first_n_leaf. destruct (Z.ltb_spec item 0); [|lia]. cbn [Z.eqb].
    change (64 <=? 1 - 1) with false. change (1 - 1) with 0. cbv iota. rewrite bind_Ok. unfold bucket_at.
    rewrite Hc, ok_or_Some, bind_Ok, Z.shiftr_0_r.
    destruct (choose_leaf_spec nest item c v pos (Z.of_nat n - Z.of_nat pos) r ∅)
      as (chosen & v' & -> & Hcase); [done|lia|lia|done|].
    rewrite !bind_Ok. eexists _, _. split; [reflexivity|].
    destruct Hcase as [[-> ->]|(-> & leaf & -> & Hlf & Hln)].
    + split; [by exists v|]. rewrite Z.leb_refl. done.
    + split.
      { eexists. split; [reflexivity|]. by rewrite length_insert, take_insert_ge. }
      intros _. split; [done|]. eexists _, leaf. split; [reflexivity|]. rewrite <- Hvt.
      rewrite length_insert, take_insert_ge, list_lookup_insert_eq by lia. split_and!; try done.
      by exists c.
  - exists skip, item, leaves'. split; [done|]. destruct skip.
    + destruct HR as (v & -> & Hv & Hvt). exists v. by rewrite Hvt.
    + destruct HG as (Hnin & v & leaf & -> & Hv & Hvt & Hl & Hln & Hd); [done|].
      exists v. rewrite length_insert, take_insert_snoc, (take_S_r v pos leaf), Hvt by (done || lia).
      split_and!; [done..|by apply NoDup_snoc|by apply NoDup_snoc|].
      apply Forall2_app; [done|]. by constructor; [|constructor].
Qed.

Lemma choose_domains_spec nest root bucket t tries (n : nat) :
  buckets m !! root = Some bucket -> 0 < t -> 1 <= tries <= 1000 -> (n <= 64)%nat ->
  exists pos output leaves,
    choose_first_n m ws (S (S nest)) bucket seed (Z.of_nat n) t (replicate n ITEM_NONE) 0
      (Z.of_nat n) tries 1 0 0 true 1 true (Some (replicate n ITEM_NONE)) 0 ∅
    = Ok (Z.of_nat pos, output, leaves, ∅)
    /\ (pos <= n)%nat /\ domains_inv t bucket n pos output leaves.
Proof.
  intros Hroot Ht Htr Hn. remember (S nest) as k eqn:Ek. cbn [choose_first_n].
  rewrite Z.sub_0_r, Nat2Z.id. subst k.
  match goal with |- context [first_n_replicas _ _ ?nested] =>
    destruct (first_n_replicas_spec nested bucket t tries true ∅ n (domains_inv t bucket n))
      with (k := n) (replica := 0) (pos := 0%nat) (output := replicate n ITEM_NONE)
           (leaves := Some (replicate n ITEM_NONE))
      as (pos & output & leaves & E & Hpos & HI) end; [|lia|lia|lia| |].
  - intros replica pos output leaves Hr Hpos HI. split.
    + destruct HI as (v & _ & Hl & _). lia.
    + by eapply domains_try_spec.
  - eexists. split; [reflexivity|]. rewrite length_replicate. split_and!; constructor.
  - change (Z.of_nat 0) with 0 in E. rewrite Z.sub_0_r in E. by exists pos, output, leaves.
Qed.

(** *** Certified rules *)

Definition certified_profile : Prop :=
  choose_local_tries m = 0 /\ choose_local_fallback_tries m = 0 /\ choose_total_tries m = 50
  /\ chooseleaf_descend_once m = 1 /\ chooseleaf_vary_r m = 1 /\ chooseleaf_stable m = 1.

Section RuleFacts.
  Context (root : Z) (bucket : Bucket) (n : nat).
  Context (Hroot : buckets m !! root = Some bucket) (Hn : (1 <= n <= 64)%nat).

Abbreviation buffer := (replicate n ITEM_NONE).

Lemma rule_take_step take_ recurse ct clt :
  operation take_ = RULE_TAKE -> argument1 take_ = root ->
  rule_step m ws seed (Z.of_nat n) recurse take_ (mkRuleState buffer buffer buffer 0 [] ct clt ∅)
  = Ok (mkRuleState (<[0%nat := root]> buffer) buffer buffer 1 [] ct clt ∅).
Proof.
  intros Hop Harg. unfold rule_step. rewrite Hop, Harg. eval_ops.
  assert (valid_take m root = true) as ->.
  { unfold valid_take. destruct (wf_buckets m Hwf root bucket Hroot) as [Hneg _].
    destruct (Z.leb_spec 0 root); [lia|]. by rewrite Hroot. }
  cbn [negb]. pose proof (set_at_ok buffer 0 root) as E. change (Z.of_nat 0) with 0 in E.
  rewrite E, bind_Ok by (rewrite length_replicate; lia). done.
Qed.

Lemma rule_choose_step step recurse ct clt :
  rule_choose m ws step seed (Z.of_nat n) recurse
    (mkRuleState (<[0%nat := root]> buffer) buffer buffer 1 [] ct clt ∅)
  = '(output, leaves, perms, output_size) ←
      choose_item m ws step seed (Z.of_nat n) ct clt recurse root (buffer, buffer, ∅, 0);
    output ← (if operation step =? RULE_CHOOSELEAF_FIRST_N then
                _ ← slice output 0 output_size;
                copied ← slice leaves 0 output_size;
                Ok (copied ++ drop (Z.to_nat output_size) output)
              else Ok output);
    Ok (mkRuleState output (<[0%nat := root]> buffer) leaves output_size [] ct clt perms).
Proof.
  unfold rule_choose. change (1 =? 0) with false. cbv iota. change (Z.to_nat 1) with 1%nat.
  assert (take 1 (<[0%nat := root]> buffer) = [root]) as ->.
  { rewrite take_insert_snoc by (rewrite length_replicate; lia). done. }
  cbn [choose_items]. by destruct (choose_item _ _ _ _ _ _ _ _ _ _) as [[[[? ?] ?] ?]|].
Qed.

Lemma rule_step_choose step recurse st :
  is_choose (operation step) = true ->
  rule_step m ws seed (Z.of_nat n) recurse step st
  = rule_choose m ws step seed (Z.of_nat n) recurse st.
Proof.
  intros Hop. unfold rule_step. rewrite Hop. destruct st. unfold is_choose in Hop.
  destruct (Z.eqb_spec (operation step) RULE_CHOOSE_FIRST_N) as [->|_]; [by eval_ops|].
  destruct (Z.eqb_spec (operation step) RULE_CHOOSELEAF_FIRST_N) as [->|_]; [by eval_ops|].
  destruct (Z.eqb_spec (operation step) RULE_CHOOSE_INDEP) as [->|_]; [by eval_ops|done].
Qed.

Lemma rule_leaf_tries_step recurse ct clt :
  rule_step m ws seed (Z.of_nat n) recurse (mkRuleStep RULE_SET_CHOOSELEAF_TRIES 5 0)
    (mkRuleState buffer buffer buffer 0 [] ct clt ∅)
  = Ok (mkRuleState buffer buffer buffer 0 [] ct 5 ∅).
Proof. reflexivity. Qed.

Lemma rule_tries_step recurse ct clt :
  rule_step m ws seed (Z.of_nat n) recurse (mkRuleStep RULE_SET_CHOOSE_TRIES 100 0)
    (mkRuleState buffer buffer buffer 0 [] ct clt ∅)
  = Ok (mkRuleState buffer buffer buffer 0 [] 100 clt ∅).
Proof. reflexivity. Qed.

Lemma rule_emit_step working output leaves (pos : nat) ct clt perms recurse :
  (pos <= length working)%nat -> (pos <= n)%nat ->
  rule_step m ws seed (Z.of_nat n) recurse (mkRuleStep RULE_EMIT 0 0)
    (mkRuleState working output leaves (Z.of_nat pos) [] ct clt perms)
  = Ok (mkRuleState working output leaves 0 (take pos working) ct clt perms).
Proof.
  intros Hlen Hpos. unfold rule_step, is_choose. cbn [operation]. eval_ops.
  replace (Z.min (saturating_sub (Z.of_nat n) (zlen [])) (Z.of_nat pos)) with (Z.of_nat pos)
    by (unfold saturating_sub, zlen; simpl length; lia).
  by rewrite slice_prefix, bind_Ok.
Qed.

Context (Hcert : certified_profile) (take_ : RuleStep).
Context (Htake : operation take_ = RULE_TAKE) (Harg : argument1 take_ = root).

Lemma choose_item_number : Z.of_nat n <=? 0 = false /\ i32_max <? Z.of_nat n = false.
Proof. unfold i32_max. lia. Qed.

Lemma place_devices rule :
  steps rule = [take_; mkRuleStep RULE_CHOOSE_FIRST_N 0 0; mkRuleStep RULE_EMIT 0 0] ->
  exists res, Placement_rule m ws rule seed (Z.of_nat n) = Ok res
    /\ (length res <= n)%nat /\ NoDup res /\ Forall (leaf_ok m ws seed bucket) res.
Proof.
  intros Hsteps. destruct Hcert as (E1 & E2 & E3 & E4 & E5 & E6).
  unfold Placement_rule. rewrite Hsteps, E3, E4, Nat2Z.id. cbn [rule_steps]. eval_ops.
  rewrite rule_take_step, bind_Ok by done.
  rewrite rule_step_choose, rule_choose_step by done.
  unfold choose_item. cbn [argument1 argument2 operation]. destruct choose_item_number as [En1 En2].
  eval_ops. rewrite En2. cbv iota. rewrite bind_Ok, Z.add_0_l, En1, Hroot, E1, E2, E5, E6. eval_ops.
  unfold saturating_sub. rewrite Z.sub_0_r, Z.max_r by lia. change (50 + 1) with 51.
  destruct (choose_devices_spec 1 root bucket 51 1 n (Some buffer)) as
    (pos & output & leaves & E & Hpos & Hlen & Hnd & HF); [done|lia|lia|].
  unfold NEST_FUEL. rewrite E, !bind_Ok. rewrite Z.add_0_l, rule_emit_step, bind_Ok by lia.
  exists (take pos output). split_and!; [done| |done|done]. rewrite length_take. lia.
Qed.

Lemma place_domains rule t :
  steps rule = [take_; mkRuleStep RULE_CHOOSELEAF_FIRST_N 0 t; mkRuleStep RULE_EMIT 0 0] -> 0 < t ->
  exists res domains, Placement_rule m ws rule seed (Z.of_nat n) = Ok res
    /\ (length res <= n)%nat /\ NoDup res /\ NoDup domains
    /\ Forall2 (domain_ok m ws seed t bucket) domains res.
Proof.
  intros Hsteps Ht. destruct Hcert as (E1 & E2 & E3 & E4 & E5 & E6).
  unfold Placement_rule. rewrite Hsteps, E3, E4, Nat2Z.id. cbn [rule_steps]. eval_ops.
  rewrite rule_take_step, bind_Ok by done.
  rewrite rule_step_choose, rule_choose_step by done.
  unfold choose_item. cbn [argument1 argument2 operation]. destruct choose_item_number as [En1 En2].
  eval_ops. rewrite En2. cbv iota. rewrite bind_Ok, Z.add_0_l, En1, Hroot, E1, E2, E5, E6. eval_ops.
  unfold saturating_sub. rewrite Z.sub_0_r, Z.max_r by lia. change (50 + 1) with 51.
  destruct (choose_domains_spec 0 root bucket t 51 n) as
    (pos & output & leaves & E & Hpos & values & -> & Hlo & Hlv & Hno & Hnv & HF); [done|lia|lia|lia|].
  unfold NEST_FUEL. rewrite E, !bind_Ok. change (default buffer (Some values)) with values. rewrite Z.add_0_l, Nat2Z.id.
  rewrite !slice_prefix, !bind_Ok by lia.
  rewrite rule_emit_step, bind_Ok by (rewrite ?length_app, ?length_take, ?length_drop; lia).
  exists (take pos values), (take pos output). cbn [rs_result].
  rewrite take_app_length' by (rewrite length_take; lia).
  split_and!; [done| |done|done|done]. rewrite length_take. lia.
Qed.

Lemma place_positions rule :
  steps rule = [mkRuleStep RULE_SET_CHOOSELEAF_TRIES 5 0; mkRuleStep RULE_SET_CHOOSE_TRIES 100 0;
                take_; mkRuleStep RULE_CHOOSE_INDEP 0 0; mkRuleStep RULE_EMIT 0 0] ->
  exists res, Placement_rule m ws rule seed (Z.of_nat n) = Ok res
    /\ length res = n /\ distinct res
    /\ Forall (fun x => x = ITEM_NONE \/ leaf_ok m ws seed bucket x) res.
Proof.
  intros Hsteps. destruct Hcert as (E1 & E2 & E3 & E4 & E5 & E6).
  unfold Placement_rule. rewrite Hsteps, E3, E4, Nat2Z.id. cbn [rule_steps]. eval_ops.
  rewrite rule_leaf_tries_step, bind_Ok, rule_tries_step, bind_Ok.
  rewrite rule_take_step, bind_Ok by done.
  rewrite rule_step_choose, rule_choose_step by done.
  unfold choose_item. cbn [argument1 argument2 operation]. destruct choose_item_number as [En1 En2].
  eval_ops. rewrite En2. cbv iota. rewrite bind_Ok, Z.add_0_l, En1, Hroot. eval_ops.
  unfold saturating_sub. rewrite Z.sub_0_r, Z.max_r, Z.min_l by lia.
  destruct (choose_indep_spec 1 root bucket n 100 5) as (output & leaves & E & Hlen & Hd & HF);
    [done|lia|lia|].
  unfold NEST_FUEL. rewrite E, !bind_Ok. rewrite Z.add_0_l, rule_emit_step, bind_Ok by lia.
  exists (take n output). rewrite <- Hlen, firstn_all. by split_and!.
Qed.

End RuleFacts.
End Descent.

(** ** What a certified rule is *)

Definition choose_step : RuleStep := mkRuleStep RULE_CHOOSE_FIRST_N 0 0.
Definition chooseleaf_step (t : Z) : RuleStep := mkRuleStep RULE_CHOOSELEAF_FIRST_N 0 t.
Definition emit_step : RuleStep := mkRuleStep RULE_EMIT 0 0.

(** The request is in the certified profile. *)
Definition accepts (m : Map) (rule_id replicas : Z) : bool :=
  (1 <=? replicas) && (replicas <=? MAX_CERTIFIED_REPLICAS)
  && match rules m !! rule_id with
     | Some rule =>
         ((rule_type rule =? RULE_TYPE_REPLICATED) || (rule_type rule =? RULE_TYPE_ERASURE))
         && is_ok (validate_certified_rule m rule)
     | None => false
     end.

Lemma certified_shape_inv m rule take_ :
  certified_shape m rule = Ok take_ ->
  operation take_ = RULE_TAKE
  /\ ((rule_type rule = RULE_TYPE_REPLICATED
       /\ (steps rule = [take_; choose_step; emit_step]
           \/ exists t, 0 < t /\ steps rule = [take_; chooseleaf_step t; emit_step]))
      \/ (rule_type rule <> RULE_TYPE_REPLICATED
          /\ steps rule = [mkRuleStep RULE_SET_CHOOSELEAF_TRIES 5 0;
                           mkRuleStep RULE_SET_CHOOSE_TRIES 100 0;
                           take_; mkRuleStep RULE_CHOOSE_INDEP 0 0; emit_step])).
Proof.
  unfold certified_shape. destruct (Z.eqb_spec (rule_type rule) RULE_TYPE_REPLICATED).
  - destruct (steps rule) as [|s0 [|s1 [|s2 [|]]]]; try done. intros H.
    split_if; bool_prop.
    + simplify_eq. split; [done|]. left. split; [done|]. by left.
    + apply bind_inv in H as (t & Ht & H). split_if. simplify_eq.
      split; [done|]. left. split; [done|]. right. exists (argument2 s1). split; [lia|].
      destruct s1 as [op a1 a2]. simpl in *. by subst.
  - destruct (steps rule) as [|s0 [|s1 [|s2 [|s3 [|s4 [|]]]]]]; try done. intros H.
    split_if. bool_prop. simplify_eq. split; [done|]. by right.
Qed.

Lemma certified_inv m rule :
  validate_certified_rule m rule = Ok tt ->
  certified_profile m /\ exists take_ bucket,
    certified_shape m rule = Ok take_ /\ buckets m !! argument1 take_ = Some bucket.
Proof.
  unfold validate_certified_rule. intros H. apply bind_inv in H as (take_ & Hs & H).
  case_bool_decide as Hb; [|done]. cbn [negb] in H. case_bool_decide; [done|].
  split_if. bool_prop. destruct Hb as [bucket Hb].
  split; [by unfold certified_profile|]. by exists take_, bucket.
Qed.

Lemma validate_certified_err m rule e :
  validate_certified_rule m rule = Err e -> e = F_PlacementError.
Proof.
  unfold validate_certified_rule. destruct (certified_shape m rule) as [take_|e'] eqn:E.
  - rewrite bind_Ok. intros H. split_if; by simplify_eq.
  - intros H. simplify_eq/=. unfold certified_shape in E.
    repeat (case_match || simplify_eq/=); try done.
    all: unfold ok_or, try_u in *; repeat (case_match || simplify_eq/=); done.
Qed.

Section PlaceFacts.
  Context {base64 : Base64Engine} (m : Map) (Hwf : crush_wf m).

Lemma place_graph_ok rule_id seed replicas ws :
  place m rule_id seed replicas ws = place_validated m rule_id seed replicas ws.
Proof.
  unfold place. destruct (wf_graph m Hwf) as [h Hh]. by rewrite (validate_graph_complete m h Hh).
Qed.

Lemma accepts_inv rule_id replicas :
  accepts m rule_id replicas = true ->
  exists n rule, replicas = Z.of_nat n /\ (1 <= n <= 64)%nat /\ rules m !! rule_id = Some rule
    /\ validate_certified_rule m rule = Ok tt
    /\ forall seed ws, place m rule_id seed replicas ws = Placement_rule m ws rule seed (Z.of_nat n).
Proof.
  unfold accepts. intros H. bool_prop. destruct (rules m !! rule_id) as [rule|] eqn:Hr; [|done].
  bool_prop. destruct (validate_certified_rule m rule) as [[]|] eqn:Hv; [|done].
  unfold MAX_CERTIFIED_REPLICAS in *.
  exists (Z.to_nat replicas), rule. split_and!; [lia|lia|lia|done|done|]. intros seed ws.
  rewrite place_graph_ok, Z2Nat.id by lia. unfold place_validated, MAX_CERTIFIED_REPLICAS.
  destruct (Z.eqb_spec replicas 0), (Z.ltb_spec 64 replicas); try lia. cbn [orb].
  rewrite Hr, ok_or_Some, bind_Ok, <- negb_orb. 
  match goal with H : (_ || _) = true |- _ => rewrite H end. cbn [negb]. by rewrite Hv, bind_Ok.
Qed.

Lemma accepts_false rule_id seed replicas ws :
  0 <= replicas -> accepts m rule_id replicas = false ->
  place m rule_id seed replicas ws = Err F_PlacementError.
Proof.
  intros Hn H. rewrite place_graph_ok. unfold place_validated, accepts, MAX_CERTIFIED_REPLICAS in *.
  destruct (Z.eqb_spec replicas 0); [done|]. destruct (Z.ltb_spec 64 replicas); [done|]. cbn [orb].
  destruct (Z.leb_spec 1 replicas), (Z.leb_spec replicas 64); try lia. cbn [andb] in H.
  destruct (rules m !! rule_id) as [rule|]; [|done]. rewrite ok_or_Some, bind_Ok, <- negb_orb.
  destruct ((rule_type rule =? RULE_TYPE_REPLICATED) || (rule_type rule =? RULE_TYPE_ERASURE));
    [|done]. cbn [negb andb] in *.
  destruct (validate_certified_rule m rule) as [[]|e] eqn:E; [done|].
  by apply validate_certified_err in E as ->.
Qed.

(** *** The three kinds of certified request *)

Lemma accepted_rule rule_id replicas rule :
  accepts m rule_id replicas = true -> rules m !! rule_id = Some rule ->
  exists n take_ bucket h, replicas = Z.of_nat n /\ (1 <= n <= 64)%nat /\ ranked m h
    /\ certified_profile m /\ certified_shape m rule = Ok take_
    /\ buckets m !! argument1 take_ = Some bucket
    /\ forall seed ws, place m rule_id seed replicas ws = Placement_rule m ws rule seed (Z.of_nat n).
Proof.
  intros Ha Hr. destruct (accepts_inv _ _ Ha) as (n & rule' & -> & Hn & Hr' & Hv & Hp).
  rewrite Hr in Hr'. simplify_eq. destruct (certified_inv _ _ Hv) as (Hc & take_ & bucket & Hs & Hb).
  destruct (wf_graph m Hwf) as [h Hh]. by exists n, take_, bucket, h.
Qed.

(** What every placement has: no device in two places. *)
Lemma placed_distinct rule_id seed replicas ws :
  0 <= replicas ->
  match place m rule_id seed replicas ws with
  | Ok res => zlen res <= replicas /\ distinct res
      /\ Forall (fun x => x = ITEM_NONE \/ 0 <= x < max_devices m) res
  | Err e => e = F_PlacementError
  end.
Proof.
  intros Hr. destruct (accepts m rule_id replicas) eqn:Ha; [|by rewrite accepts_false].
  destruct (accepts_inv _ _ Ha) as (n & rule & -> & Hn & Hrule & Hv & Hp). rewrite Hp.
  destruct (accepted_rule _ _ _ Ha Hrule) as
    (n' & take_ & bucket & h & En & _ & Hh & Hc & Hs & Hb & _). apply Nat2Z.inj in En as <-.
  assert (forall x, leaf_ok m ws seed bucket x -> x = ITEM_NONE \/ 0 <= x < max_devices m) as Hleaf
    by (intros x (_ & Hx & _); by right).
  destruct (certified_shape_inv _ _ _ Hs) as (Hop & [(_ & [Hsteps|(t & Ht & Hsteps)])|[_ Hsteps]]).
  - destruct (place_devices m ws h seed Hwf Hh _ bucket n Hb Hn Hc take_ Hop eq_refl rule Hsteps)
      as (res & -> & Hl & Hnd & HF). unfold zlen. split_and!; [lia|by apply NoDup_distinct|].
    eapply Forall_impl; [exact HF|done].
  - destruct (place_domains m ws h seed Hwf Hh _ bucket n Hb Hn Hc take_ Hop eq_refl rule t Hsteps Ht)
      as (res & doms & -> & Hl & Hnd & _ & HF). unfold zlen. split_and!; [lia|by apply NoDup_distinct|].
    eapply Forall2_Forall_r; [exact HF|]. apply Forall_true. intros x y (c & _ & _ & _ & _ & Hy & _).
    by right.
  - destruct (place_positions m ws h seed Hwf Hh _ bucket n Hb Hn Hc take_ Hop eq_refl rule Hsteps)
      as (res & -> & Hl & Hd & HF). unfold zlen. split_and!; [lia|done|].
    eapply Forall_impl; [exact HF|]. intros x [|Hx]; auto.
Qed.

End PlaceFacts.

Lemma ValidatedMap_place_eq `{Base64Engine} m v rule_id seed replicas ws :
  ValidatedMap_new m = Ok v ->
  ValidatedMap_place v rule_id seed replicas ws = place m rule_id seed replicas ws.
Proof.
  unfold ValidatedMap_new, ValidatedMap_place, place.
  destruct (validate_graph m) as [[]|]; [|done]. intros E. by simplify_eq/=.
Qed.

(** ** Properties *)

(** Replicated placement is safe: for a well-formed map and a certified
    replicated rule, placement terminates without panicking and returns at most
    the requested number of devices, no device twice, each reachable from the
    rule's root bucket and none rejected by the OSD weights. *)
Theorem place_replicated `{Base64Engine} m rule_id rule seed replicas ws :
  crush_wf m -> rules m !! rule_id = Some rule -> rule_type rule = RULE_TYPE_REPLICATED ->
  accepts m rule_id replicas = true ->
  exists res take_ bucket,
    place m rule_id seed replicas ws = Ok res
    /\ steps rule !! 0%nat = Some take_ /\ buckets m !! argument1 take_ = Some bucket
    /\ zlen res <= replicas /\ NoDup res /\ Forall (leaf_ok m ws seed bucket) res.
Proof.
  intros Hwf Hr Ht Ha. destruct (accepted_rule m Hwf _ _ _ Ha Hr) as
    (n & take_ & bucket & h & -> & Hn & Hh & Hc & Hs & Hb & Hp). rewrite Hp.
  destruct (certified_shape_inv _ _ _ Hs) as (Hop & [(_ & [Hsteps|(t & Ht' & Hsteps)])|[? _]]); [| |done].
  - destruct (place_devices m ws h seed Hwf Hh _ bucket n Hb Hn Hc take_ Hop eq_refl rule Hsteps)
      as (res & -> & Hlen & Hnd & HF).
    exists res, take_, bucket. unfold zlen. rewrite Hsteps. split_and!; [done|done|done|lia|done|done].
  - destruct (place_domains m ws h seed Hwf Hh _ bucket n Hb Hn Hc take_ Hop eq_refl rule t Hsteps Ht')
      as (res & doms & -> & Hlen & Hnd & _ & HF).
    exists res, take_, bucket. unfold zlen. rewrite Hsteps. split_and!; [done|done|done|lia|done|].
    eapply Forall2_Forall_r; [exact HF|]. apply Forall_true. intros x y (c & Hc' & _ & Hu & Hl).
    by eapply leaf_ok_trans.
Qed.

(** C14. Failure domains are separate: a certified chooseleaf rule puts every
    replica into a bucket of the rule's domain type of its own, all these
    buckets distinct and below the rule's root. *)
Theorem place_failure_domains `{Base64Engine} m rule_id rule seed replicas ws t :
  crush_wf m -> rules m !! rule_id = Some rule -> rule_type rule = RULE_TYPE_REPLICATED ->
  steps rule !! 1%nat = Some (chooseleaf_step t) -> accepts m rule_id replicas = true ->
  exists res domains take_ bucket,
    place m rule_id seed replicas ws = Ok res
    /\ steps rule !! 0%nat = Some take_ /\ buckets m !! argument1 take_ = Some bucket
    /\ NoDup domains /\ Forall2 (domain_ok m ws seed t bucket) domains res.
Proof.
  intros Hwf Hr Ht Hleaf Ha. destruct (accepted_rule m Hwf _ _ _ Ha Hr) as
    (n & take_ & bucket & h & -> & Hn & Hh & Hc & Hs & Hb & Hp). rewrite Hp.
  destruct (certified_shape_inv _ _ _ Hs) as (Hop & [(_ & [Hsteps|(t' & Ht' & Hsteps)])|[? _]]); [| |done].
  - rewrite Hsteps in Hleaf. done.
  - rewrite Hsteps in Hleaf. simplify_eq/=.
    destruct (place_domains m ws h seed Hwf Hh _ bucket n Hb Hn Hc take_ Hop eq_refl rule t Hsteps Ht')
      as (res & doms & -> & Hlen & Hnd & Hnd' & HF).
    exists res, doms, take_, bucket. by rewrite Hsteps.
Qed.

(** Erasure-coded placement is positional: for a well-formed map and a
    certified erasure rule, placement terminates without panicking and returns
    exactly the requested number of positions, each a hole or an acceptable
    device below the rule's root, with no device in two positions. *)
Theorem place_erasure `{Base64Engine} m rule_id rule seed replicas ws :
  crush_wf m -> rules m !! rule_id = Some rule -> rule_type rule = RULE_TYPE_ERASURE ->
  accepts m rule_id replicas = true ->
  exists res take_ bucket,
    place m rule_id seed replicas ws = Ok res
    /\ steps rule !! 2%nat = Some take_ /\ buckets m !! argument1 take_ = Some bucket
    /\ zlen res = replicas /\ NoDup (filter (fun x => x <> ITEM_NONE) res)
    /\ Forall (fun x => x = ITEM_NONE \/ leaf_ok m ws seed bucket x) res.
Proof.
  intros Hwf Hr Ht Ha. destruct (accepted_rule m Hwf _ _ _ Ha Hr) as
    (n & take_ & bucket & h & -> & Hn & Hh & Hc & Hs & Hb & Hp). rewrite Hp.
  destruct (certified_shape_inv _ _ _ Hs) as (Hop & [[E _]|[_ Hsteps]]); [by rewrite Ht in E|].
  destruct (place_positions m ws h seed Hwf Hh _ bucket n Hb Hn Hc take_ Hop eq_refl rule Hsteps)
    as (res & -> & Hlen & Hd & HF).
  exists res, take_, bucket. unfold zlen. rewrite Hsteps.
  split_and!; [done|done|done|lia|by apply distinct_NoDup|done].
Qed.


(** Straw2 elects the longest straw: in a bucket with one weight per item
    the result is the first item whose draw is greatest, and it has a positive
    weight whenever some item has one. *)
Theorem straw2_elects `{Base64Engine} b seed r :
  bucket_wf b -> items b <> [] -> in_u 32 r -> Forall (in_u 32) (item_weights b) ->
  exists i item w, straw2_choose b seed r = Ok item /\ items b !! i = Some item
    /\ straw2_winner b seed r i /\ item_weights b !! i = Some w
    /\ (Exists (fun w => 0 < w) (item_weights b) -> 0 < w).
Proof.
  intros Hwf Hne Hr HF. destruct (straw2_choose_winner b seed r Hwf Hr Hne) as (i & item & Hc & Hi & Hw).
  pose proof (lookup_lt_Some _ _ _ Hi) as Hlt. pose proof Hwf as Hwf'. unfold bucket_wf in Hwf'.
  destruct (lookup_lt_is_Some_2 (item_weights b) i ltac:(lia)) as [w Hiw].
  exists i, item, w. split_and!; [done..|]. intros (wj & Hin & Hpos)%Exists_exists.
  apply list_elem_of_lookup in Hin as [j Hj]. destruct Hw as (di & Hdi & Hall).
  destruct (Hall j) as (dj & Hdj & Hle & _); [by eapply lookup_lt_Some|].
  unfold draw_at in Hdi, Hdj. rewrite Hiw in Hdi. rewrite Hj in Hdj.
  destruct (straw2_draw_ok b seed r i w Hr Hlt) as (d1 & E1 & Hz & _).
  destruct (straw2_draw_ok b seed r j wj Hr) as (d2 & E2 & _ & Hp).
  { apply lookup_lt_Some in Hj. lia. }
  rewrite Forall_forall in HF. assert (in_u 32 w) as Hwu by (apply HF; by eapply list_elem_of_lookup_2).
  unfold in_u in Hwu. destruct (Z.eq_dec w 0) as [->|]; [|lia].
  specialize (Hz eq_refl). specialize (Hp Hpos). rewrite E1 in Hdi. rewrite E2 in Hdj.
  simplify_eq. lia.
Qed.

(** Straw2 moves data only to or from a reweighted item: when two buckets
    differ in the weight of item [k] alone, they elect the same item unless one
    of them elects item [k]. *)
Theorem straw2_movement `{Base64Engine} b b' seed r k :
  bucket_wf b -> bucket_wf b' -> items b <> [] -> items b' = items b -> in_u 32 r ->
  (forall j, j <> k -> item_weights b' !! j = item_weights b !! j) ->
  exists i i' item item', straw2_choose b seed r = Ok item /\ items b !! i = Some item
    /\ straw2_choose b' seed r = Ok item' /\ items b !! i' = Some item'
    /\ (i = i' \/ i = k \/ i' = k).
Proof.
  intros Hwf Hwf' Hne Hit Hr Hws.
  destruct (straw2_choose_winner b seed r Hwf Hr Hne) as (i & item & Hc & Hi & di & Hdi & Hall).
  destruct (straw2_choose_winner b' seed r Hwf' Hr ltac:(by rewrite Hit))
    as (i' & item' & Hc' & Hi' & di' & Hdi' & Hall').
  rewrite Hit in Hi'. exists i, i', item, item'. split_and!; [done..|].
  destruct (decide (i = k)) as [|Nk]; [by right; left|].
  destruct (decide (i' = k)) as [|Nk']; [by right; right|]. left.
  assert (forall j, j <> k -> draw_at b' seed r j = draw_at b seed r j) as Hd.
  { intros j Hj. unfold draw_at, straw2_draw. by rewrite (Hws j Hj), Hit. }
  pose proof (lookup_lt_Some _ _ _ Hi). pose proof (lookup_lt_Some _ _ _ Hi').
  unfold bucket_wf in *. rewrite Hit in Hwf'.
  destruct (Hall i' ltac:(lia)) as (d1 & E1 & L1 & S1).
  destruct (Hall' i ltac:(lia)) as (d2 & E2 & L2 & S2).
  rewrite Hd in E2, Hdi' by done. rewrite Hdi in E2. rewrite Hdi' in E1. simplify_eq. lia.
Qed.

(** ** Witnesses *)

(** Two hosts of two devices each below one root, as in the tests of the
    source, with a choose, a chooseleaf and an erasure rule. *)
Definition test_placement_map : Map :=
  mkMap 4
    (<[-1 := mkBucket (-1) 2 262144 [-2; -3] [131072; 131072]]>
      (<[-2 := mkBucket (-2) 1 131072 [0; 1] [65536; 65536]]>
        (<[-3 := mkBucket (-3) 1 131072 [2; 3] [65536; 65536]]> ∅)))
    (<[0 := mkRule RULE_TYPE_REPLICATED 0 0 [mkRuleStep RULE_TAKE (-1) 0; choose_step; emit_step]]>
      (<[1 := mkRule RULE_TYPE_REPLICATED 0 0
               [mkRuleStep RULE_TAKE (-1) 0; chooseleaf_step 1; emit_step]]>
        (<[2 := mkRule RULE_TYPE_ERASURE 0 0
                 [mkRuleStep RULE_SET_CHOOSELEAF_TRIES 5 0; mkRuleStep RULE_SET_CHOOSE_TRIES 100 0;
                  mkRuleStep RULE_TAKE (-1) 0; mkRuleStep RULE_CHOOSE_INDEP 0 0; emit_step]]> ∅)))
    0 0 50 1 1 0 22 1 100 100 ∅.

Lemma test_placement_map_wf : crush_wf test_placement_map.
Proof.
  constructor; simpl.
  - vm_compute. split; discriminate.
  - intros id b. rewrite !lookup_insert_Some, lookup_empty. naive_solver lia.
  - intros id r. rewrite !lookup_insert_Some, lookup_empty. naive_solver lia.
  - vm_compute. split_and!; [discriminate|discriminate|reflexivity].
  - apply validate_graph_ranked. vm_compute. reflexivity.
Qed.

Lemma place_replicated_witness :
  exists res, place (base64 := reference_engine) test_placement_map 0 7 2 [0; 0; 0; 65536] = Ok res
    /\ zlen res <= 2 /\ NoDup res.
Proof.
  destruct (place_replicated (H := reference_engine) test_placement_map 0 _ 7 2 [0; 0; 0; 65536]
    test_placement_map_wf eq_refl eq_refl eq_refl) as (res & _ & _ & E & _ & _ & Hl & Hn & _).
  exact (ex_intro _ res (conj E (conj Hl Hn))).
Defined.

Lemma place_failure_domains_witness :
  exists res (domains : list Z),
    place (base64 := reference_engine) test_placement_map 1 7 2 [65536; 65536; 65536; 65536] = Ok res
    /\ NoDup domains /\ length domains = length res.
Proof.
  destruct (place_failure_domains (H := reference_engine) test_placement_map 1 _ 7 2
    [65536; 65536; 65536; 65536] 1 test_placement_map_wf eq_refl eq_refl eq_refl eq_refl)
    as (res & domains & _ & _ & E & _ & _ & Hn & Hl%Forall2_length).
  exact (ex_intro _ res (ex_intro _ domains (conj E (conj Hn Hl)))).
Defined.

Lemma place_erasure_witness :
  exists res, place (base64 := reference_engine) test_placement_map 2 7 3 [65536; 65536; 65536; 65536]
    = Ok res /\ zlen res = 3.
Proof.
  destruct (place_erasure (H := reference_engine) test_placement_map 2 _ 7 3
    [65536; 65536; 65536; 65536] test_placement_map_wf eq_refl eq_refl eq_refl)
    as (res & _ & _ & E & _ & _ & Hl & _).
  exact (ex_intro _ res (conj E Hl)).
Defined.


Definition test_bucket (w : Z) : Bucket := mkBucket (-2) 1 131072 [0; 1] [0; w].

Lemma straw2_elects_witness :
  exists i item w, straw2_choose (base64 := reference_engine) (test_bucket 65536) 7 0 = Ok item
    /\ items (test_bucket 65536) !! i = Some item
    /\ item_weights (test_bucket 65536) !! i = Some w /\ 0 < w.
Proof.
  destruct (straw2_elects (H := reference_engine) (test_bucket 65536) 7 0)
    as (i & item & w & E & Hi & _ & Hiw & Hw); [done|done|done|by repeat constructor|].
  exists i, item, w. refine (conj E (conj Hi (conj Hiw (Hw _)))). right. by left.
Defined.

Lemma straw2_movement_witness :
  exists i i' item item',
    straw2_choose (base64 := reference_engine) (test_bucket 65536) 7 0 = Ok item
    /\ straw2_choose (base64 := reference_engine) (test_bucket 1) 7 0 = Ok item'
    /\ (i = i' \/ i = 1%nat \/ i' = 1%nat).
Proof.
  destruct (straw2_movement (H := reference_engine) (test_bucket 65536) (test_bucket 1) 7 0 1)
    as (i & i' & item & item' & E & _ & E' & _ & Hcase); [done|done|done|done|done| |].
  - intros [|[|j]] Hj; done.
  - exists i, i', item, item'. exact (conj E (conj E' Hcase)).
Defined.
