(* ===== verification/Frame.v ===== *)
(** * Messenger frames

    Models [src/src/wire/crc.rs] and [src/src/msgr/frame.rs]: tags, limits, the
    32-byte preamble with its segment descriptors and checksum, and the CRC
    codec that writes and reads whole frames.  A reader is the list of bytes it
    has still to deliver; running out of bytes is the only I/O failure. *)

From S2P Require Import Prelude Codec.
From Stdlib Require Import ZArith Lia Strings.Byte.
From stdpp Require Import base option gmap sorting numbers list.

Open Scope Z_scope.

(** ** CRC-32C *)

(** The [crc32c] crate: [crc32c_append] extends a checksum by more bytes and
    returns a [u32]. *)
Class Crc32cCrate : Type := {
  crc32c_append : Z -> list byte -> Z;
  crc32c_append_range seed payload : in_u 32 seed -> in_u 32 (crc32c_append seed payload)
}.

(** [!x] on [u32]. *)
Definition not_u32 (x : Z) : Z := u32_max - x.

Definition crc32c `{Crc32cCrate} (seed : Z) (payload : list byte) : Z :=
  not_u32 (crc32c_append (not_u32 seed) payload).

(** ** Tags, limits, frames *)

Definition PREAMBLE_SIZE : Z := 32.
Definition MAX_SEGMENTS : Z := 4.
Definition DEFAULT_ALIGNMENT : Z := 8.
Definition PAGE_ALIGNMENT : Z := 4096.
Definition LATE_STATUS_ABORTED : Z := 0x01.
Definition LATE_STATUS_COMPLETE : Z := 0x0e.

Inductive Tag : Type :=
| T_Hello | T_AuthRequest | T_AuthBadMethod | T_AuthReplyMore | T_AuthRequestMore | T_AuthDone
| T_AuthSignature | T_ClientIdent | T_ServerIdent | T_IdentMissingFeatures | T_SessionReconnect
| T_SessionReset | T_SessionRetry | T_SessionRetryGlobal | T_SessionReconnectOk | T_Wait
| T_Message | T_Keepalive2 | T_Keepalive2Ack | T_Ack | T_CompressionRequest | T_CompressionDone.

#[export] Instance Tag_eq_dec : EqDecision Tag.
Proof. solve_decision. Defined.

(** [tag as u8]. *)
Definition tag_u8 (t : Tag) : Z :=
  match t with
  | T_Hello => 1 | T_AuthRequest => 2 | T_AuthBadMethod => 3 | T_AuthReplyMore => 4
  | T_AuthRequestMore => 5 | T_AuthDone => 6 | T_AuthSignature => 7 | T_ClientIdent => 8
  | T_ServerIdent => 9 | T_IdentMissingFeatures => 10 | T_SessionReconnect => 11
  | T_SessionReset => 12 | T_SessionRetry => 13 | T_SessionRetryGlobal => 14
  | T_SessionReconnectOk => 15 | T_Wait => 16 | T_Message => 17 | T_Keepalive2 => 18
  | T_Keepalive2Ack => 19 | T_Ack => 20 | T_CompressionRequest => 21 | T_CompressionDone => 22
  end.

Inductive FrameError : Type :=
| FE_Aborted | FE_CounterExhausted | FE_Integrity | FE_InvalidSecret | FE_LimitExceeded
| FE_Malformed | FE_UnsupportedFeature | FE_UnsupportedPayload.

#[export] Instance FrameError_eq_dec : EqDecision FrameError.
Proof. solve_decision. Defined.

Definition Tag_try_from (value : Z) : result FrameError Tag :=
  match value with
  | 1 => Ok T_Hello | 2 => Ok T_AuthRequest | 3 => Ok T_AuthBadMethod | 4 => Ok T_AuthReplyMore
  | 5 => Ok T_AuthRequestMore | 6 => Ok T_AuthDone | 7 => Ok T_AuthSignature
  | 8 => Ok T_ClientIdent | 9 => Ok T_ServerIdent | 10 => Ok T_IdentMissingFeatures
  | 11 => Ok T_SessionReconnect | 12 => Ok T_SessionReset | 13 => Ok T_SessionRetry
  | 14 => Ok T_SessionRetryGlobal | 15 => Ok T_SessionReconnectOk | 16 => Ok T_Wait
  | 17 => Ok T_Message | 18 => Ok T_Keepalive2 | 19 => Ok T_Keepalive2Ack | 20 => Ok T_Ack
  | 21 => Ok T_CompressionRequest | 22 => Ok T_CompressionDone
  | _ => Err FE_Malformed
  end.

Record Limits : Type := mkLimits {
  max_segment_bytes : Z;
  max_frame_bytes : Z;
  max_addresses : Z;
  max_auth_bytes : Z
}.

Record Segment : Type := mkSegment { alignment : Z; seg_data : list byte }.
Record Frame : Type := mkFrame { frame_tag : Tag; segments : list Segment }.
Record Descriptor : Type := mkDescriptor { d_length : Z; d_alignment : Z }.

(** [From<WireError> for FrameError]. *)
Definition frame_error (e : WireError) : FrameError :=
  match e with
  | LimitExceeded => FE_LimitExceeded
  | Malformed | UnsupportedVersion _ _ => FE_Malformed
  end.

(** ** Preamble *)

(** [alignment != 0 && alignment.is_power_of_two()]. *)
Definition valid_alignment (a : Z) : bool := (0 <? a) && (a =? 2 ^ Z.log2 a).

(** [while end > 1 && segments[end - 1].data.is_empty()]. *)
Fixpoint trimmed_end (segs : list Segment) (end_ : nat) : nat :=
  match end_ with
  | S ((S _) as e) =>
      match segs !! e with
      | Some s => if zlen (seg_data s) =? 0 then trimmed_end segs e else end_
      | None => end_
      end
  | _ => end_
  end.

Definition normalized_segments (segs : list Segment) : result FrameError (list Segment) :=
  if (zlen segs =? 0) || (MAX_SEGMENTS <? zlen segs) then Err FE_Malformed
  else Ok (take (trimmed_end segs (length segs)) segs).

Fixpoint descriptors_loop (limits : Limits) (first : bool) (ds : list Descriptor) (total : Z)
    : result FrameError Z :=
  match ds with
  | [] => Ok total
  | d :: ds =>
      if max_segment_bytes limits <? d_length d then Err FE_LimitExceeded
      else if negb (valid_alignment (d_alignment d)) then Err FE_Malformed
      else
        let crc := if first && (0 <? d_length d) then 4 else 0 in
        total ← ok_or (checked_add 64 total (d_length d)) FE_LimitExceeded;
        total ← ok_or (checked_add 64 total crc) FE_LimitExceeded;
        descriptors_loop limits false ds total
  end.

Definition descriptors_and_crc_size_from_descriptors (ds : list Descriptor) (limits : Limits)
    : result FrameError Z :=
  total ← descriptors_loop limits true ds PREAMBLE_SIZE;
  total ← (if 1 <? zlen ds then ok_or (checked_add 64 total 13) FE_LimitExceeded else Ok total);
  if max_frame_bytes limits <? total then Err FE_LimitExceeded else Ok total.

(** One descriptor per segment; fails when a length does not fit [u32]. *)
Fixpoint descriptors_of (segs : list Segment) : result FrameError (list Descriptor) :=
  match segs with
  | [] => Ok []
  | s :: segs =>
      n ← ok_or (try_u 32 (zlen (seg_data s))) FE_LimitExceeded;
      ds ← descriptors_of segs;
      Ok (mkDescriptor n (alignment s) :: ds)
  end.

Definition descriptors_and_crc_size (segs : list Segment) (limits : Limits)
    : result FrameError (list Descriptor * Z) :=
  ds ← descriptors_of segs;
  total ← descriptors_and_crc_size_from_descriptors ds limits;
  Ok (ds, total).

Definition descriptor_image (d : Descriptor) : list byte :=
  le_bytes 4 (d_length d) ++ le_bytes 2 (d_alignment d).

Section Crc.
  Context {crc_crate : Crc32cCrate}.

(** The first 28 bytes: tag, count, up to four descriptors, zeros. *)
Definition preamble_body (tag : Tag) (ds : list Descriptor) : list byte :=
  let used := le_bytes 1 (tag_u8 tag) ++ le_bytes 1 (zlen ds) ++ concat (map descriptor_image ds) in
  used ++ replicate (28 - length used) x00.

Definition encode_preamble (tag : Tag) (ds : list Descriptor) : list byte :=
  preamble_body tag ds ++ le_bytes 4 (crc32c 0 (preamble_body tag ds)).

(** [from_le_bytes(data[offset..offset + n])]. *)
Definition le_at (n offset : nat) (data : list byte) : Z := le_value (take n (drop offset data)).

(** The [for index in 0..MAX_SEGMENTS] loop, from [index] on. *)
Fixpoint decode_descriptors (n : nat) (index count : Z) (preamble : list byte)
    : result FrameError (list Descriptor) :=
  match n with
  | O => Ok []
  | S n =>
      let offset := Z.to_nat (2 + index * 6) in
      let d := mkDescriptor (le_at 4 offset preamble) (le_at 2 (offset + 4) preamble) in
      if index <? count then
        ds ← decode_descriptors n (index + 1) count preamble;
        Ok (d :: ds)
      else if negb (d_length d =? 0) || negb (d_alignment d =? 0) then Err FE_Malformed
      else decode_descriptors n (index + 1) count preamble
  end.

Definition decode_preamble (preamble : list byte) : result FrameError (Tag * list Descriptor) :=
  if negb (crc32c 0 (take 28 preamble) =? le_at 4 28 preamble) then Err FE_Integrity
  else
    tag ← Tag_try_from (le_at 1 0 preamble);
    if tag_u8 T_Ack <? tag_u8 tag then Err FE_Malformed
    else
      let count := le_at 1 1 preamble in
      if (count <? 1) || (MAX_SEGMENTS <? count)
         || negb (le_at 1 26 preamble =? 0) || negb (le_at 1 27 preamble =? 0)
      then Err FE_Malformed
      else
        ds ← decode_descriptors 4 0 count preamble;
        match last ds with
        | Some d => if (1 <? count) && (d_length d =? 0) then Err FE_Malformed else Ok (tag, ds)
        | None => Ok (tag, ds)
        end.

(** ** The CRC codec *)

(** [CrcCodec { with_data_crc }]. *)
Record CrcCodec : Type := mkCrcCodec { with_data_crc : bool }.

Definition checksum (codec : CrcCodec) (data : list byte) : Z :=
  if with_data_crc codec then crc32c u32_max data else 0.

(** The segments, the first followed by its checksum when it has data. *)
Fixpoint segments_image (codec : CrcCodec) (first : bool) (segs : list Segment) : list byte :=
  match segs with
  | [] => []
  | s :: segs =>
      seg_data s
      ++ (if first && negb (zlen (seg_data s) =? 0) then le_bytes 4 (checksum codec (seg_data s)) else [])
      ++ segments_image codec false segs
  end.

(** [for index in 1..MAX_SEGMENTS]: a checksum, or zero, per slot. *)
Definition epilogue_image (codec : CrcCodec) (segs : list Segment) : list byte :=
  le_bytes 1 LATE_STATUS_COMPLETE
  ++ concat (map (fun i => le_bytes 4 (match segs !! i with
                                       | Some s => checksum codec (seg_data s)
                                       | None => 0
                                       end)) [1; 2; 3]%nat).

Definition CrcCodec_encode (codec : CrcCodec) (frame : Frame) (limits : Limits)
    : result FrameError (list byte) :=
  segs ← normalized_segments (segments frame);
  if tag_u8 T_Ack <? tag_u8 (frame_tag frame) then Err FE_Malformed
  else
    '(ds, _) ← descriptors_and_crc_size segs limits;
    Ok (encode_preamble (frame_tag frame) ds ++ segments_image codec true segs
        ++ (if 1 <? zlen segs then epilogue_image codec segs else [])).

(** [read_exact] on the remaining bytes of a reader. *)
Definition read_exact (n : Z) (reader : list byte) : result FrameError (list byte * list byte) :=
  if zlen reader <? n then Err FE_Malformed
  else Ok (take (Z.to_nat n) reader, drop (Z.to_nat n) reader).

Fixpoint read_segments (codec : CrcCodec) (first : bool) (ds : list Descriptor) (reader : list byte)
    : result FrameError (list Segment * list byte) :=
  match ds with
  | [] => Ok ([], reader)
  | d :: ds =>
      '(data, reader) ← read_exact (d_length d) reader;
      reader ← (if first && (0 <? d_length d) then
                  '(encoded, reader) ← read_exact 4 reader;
                  if with_data_crc codec && negb (crc32c u32_max data =? le_value encoded)
                  then Err FE_Integrity else Ok reader
                else Ok reader);
      '(segs, reader) ← read_segments codec false ds reader;
      Ok (mkSegment (d_alignment d) data :: segs, reader)
  end.

(** The late status and the checksums of segments [index..]. *)
Fixpoint check_epilogue (codec : CrcCodec) (index : nat) (segs : list Segment) (epilogue : list byte)
    : result FrameError unit :=
  match segs with
  | [] => Ok tt
  | s :: segs =>
      if with_data_crc codec
         && negb (crc32c u32_max (seg_data s) =? le_at 4 (1 + (index - 1) * 4) epilogue)
      then Err FE_Integrity
      else check_epilogue codec (S index) segs epilogue
  end.

Definition late_status (epilogue : list byte) : result FrameError unit :=
  let status := Z.land (le_at 1 0 epilogue) 0x0f in
  if status =? LATE_STATUS_COMPLETE then Ok tt
  else if status =? LATE_STATUS_ABORTED then Err FE_Aborted
  else Err FE_Malformed.

(** [read_reserved]; [read] and [read_async] are the case in which the
    reservation always succeeds. *)
Definition CrcCodec_read_reserved (codec : CrcCodec) (limits : Limits)
    (reserve : Tag -> Z -> result FrameError unit) (reader : list byte)
    : result FrameError (Frame * list byte) :=
  '(preamble, reader) ← read_exact PREAMBLE_SIZE reader;
  '(tag, ds) ← decode_preamble preamble;
  wire_bytes ← descriptors_and_crc_size_from_descriptors ds limits;
  _ ← reserve tag wire_bytes;
  '(segs, reader) ← read_segments codec true ds reader;
  reader ← (if 1 <? zlen ds then
              '(epilogue, reader) ← read_exact 13 reader;
              _ ← late_status epilogue;
              _ ← check_epilogue codec 1 (drop 1 segs) epilogue;
              Ok reader
            else Ok reader);
  Ok (mkFrame tag segs, reader).

Definition CrcCodec_read (codec : CrcCodec) (limits : Limits) (reader : list byte)
    : result FrameError (Frame * list byte) :=
  CrcCodec_read_reserved codec limits (fun _ _ => Ok tt) reader.

End Crc.

(** ** A reference checksum *)

(** One bit of the reflected CRC-32C, with polynomial [0x82f63b78]. *)
Definition crc_bit (c : Z) : Z :=
  if Z.odd c then Z.lxor (Z.shiftr c 1) 0x82f63b78 else Z.shiftr c 1.

Definition crc_byte (c : Z) (b : byte) : Z := Nat.iter 8 crc_bit (Z.lxor c (Z_of_byte b)).

Definition reference_append (seed : Z) (payload : list byte) : Z :=
  not_u32 (fold_left crc_byte payload (not_u32 seed)).

Lemma crc_bit_range c : in_u 32 c -> in_u 32 (crc_bit c).
Proof.
  intros H. unfold crc_bit. destruct (Z.odd c); auto with rados lia.
  apply lxor_range; auto with rados lia. unfold in_u. lia.
Qed.

Lemma crc_fold_range payload : forall c, in_u 32 c -> in_u 32 (fold_left crc_byte payload c).
Proof.
  induction payload as [|b payload IH]; intros c H; [done|]. cbn [fold_left]. apply IH.
  unfold crc_byte. assert (in_u 32 (Z.lxor c (Z_of_byte b))) as H0.
  { apply lxor_range; [lia|done|]. pose proof (Z_of_byte_range b). unfold in_u. lia. }
  generalize dependent (Z.lxor c (Z_of_byte b)). intros x Hx. cbn [Nat.iter nat_rect].
  by do 8 apply crc_bit_range.
Qed.

Lemma reference_append_range seed payload :
  in_u 32 seed -> in_u 32 (reference_append seed payload).
Proof.
  intros H. unfold reference_append, not_u32.
  pose proof (crc_fold_range payload (u32_max - seed)) as Hr. unfold in_u, u32_max in *. lia.
Qed.

Definition reference_crc : Crc32cCrate :=
  {| crc32c_append := reference_append; crc32c_append_range := reference_append_range |}.

(** The vectors of the source's tests: a checksum and a whole frame. *)
Example crc32c_vectors :
  crc32c (H := reference_crc) 0 [x66; x6f; x6f; x20; x62; x61; x72; x20; x62; x61; x7a] = 4119623852
  /\ crc32c (H := reference_crc) 17 [] = 17.
Proof. vm_compute. auto. Qed.

Definition test_limits : Limits := mkLimits 4096 8192 64 4096.
Definition test_frame : Frame := mkFrame T_Ack [mkSegment 8 [x63; x65; x70; x68]].
Definition test_wire : list byte :=
  [x14; x01; x04; x00; x00; x00; x08; x00] ++ replicate 20 x00
  ++ [xc6; x32; x9e; x85; x63; x65; x70; x68; xee; x24; xc1; xe0].

Example frame_vector :
  CrcCodec_encode (crc_crate := reference_crc) (mkCrcCodec true) test_frame test_limits = Ok test_wire.
Proof. vm_compute. reflexivity. Qed.

(** ** Lemmas *)

Lemma le_at_app_l n off a b : (off + n <= length a)%nat -> le_at n off (a ++ b) = le_at n off a.
Proof.
  intros H. unfold le_at. rewrite drop_app_le by lia. rewrite take_app_le; [done|].
  rewrite length_drop. lia.
Qed.

Lemma le_at_image n a v b off :
  off = length a -> in_u (8 * Z.of_nat n) v -> le_at n off (a ++ le_bytes n v ++ b) = v.
Proof.
  intros -> Hv. unfold le_at. rewrite drop_app_length. rewrite take_app_length' by (by rewrite length_le_bytes).
  rewrite le_value_bytes. by apply Z.mod_small.
Qed.

Lemma le_value_zeros k : le_value (replicate k x00) = 0.
Proof. 
  induction k as [|k IH]; [done|]. change (Z_of_byte x00 + 256 * le_value (replicate k x00) = 0).
  by rewrite IH.
Qed.

Lemma le_at_zeros n a k off :
  (length a <= off)%nat -> (off + n <= length a + k)%nat -> le_at n off (a ++ replicate k x00) = 0.
Proof.
  intros H1 H2. unfold le_at. rewrite drop_app_ge by lia. rewrite drop_replicate, take_replicate.
  apply le_value_zeros.
Qed.

Lemma length_descriptors_image ds : length (concat (map descriptor_image ds)) = (6 * length ds)%nat.
Proof.
  induction ds as [|d ds IH]; [done|]. cbn [map concat]. rewrite length_app, IH.
  unfold descriptor_image. rewrite length_app, !length_le_bytes. cbn [length]. lia.
Qed.

Definition descriptor_ok (d : Descriptor) : Prop := in_u 32 (d_length d) /\ in_u 16 (d_alignment d).

Lemma tag_u8_range t : 1 <= tag_u8 t <= 22.
Proof. by destruct t. Qed.

Lemma Tag_try_from_u8 t : Tag_try_from (tag_u8 t) = Ok t.
Proof. by destruct t. Qed.

Section Preamble.
  Context {crc_crate : Crc32cCrate}.

Lemma crc32c_range seed payload : in_u 32 seed -> in_u 32 (crc32c seed payload).
Proof.
  intros H. unfold crc32c, not_u32.
  pose proof (crc32c_append_range (u32_max - seed) payload) as Hr. unfold in_u, u32_max in *. lia.
Qed.

Lemma length_preamble_body tag ds : (length ds <= 4)%nat -> length (preamble_body tag ds) = 28%nat.
Proof.
  intros H. unfold preamble_body. rewrite !length_app, length_replicate, length_descriptors_image,
    !length_le_bytes. lia.
Qed.

(** A used descriptor slot holds its descriptor, an unused one zeros. *)
Lemma preamble_slot tag ds i d :
  (length ds <= 4)%nat -> Forall descriptor_ok ds -> ds !! i = Some d ->
  le_at 4 (2 + i * 6) (preamble_body tag ds) = d_length d
  /\ le_at 2 (2 + i * 6 + 4) (preamble_body tag ds) = d_alignment d.
Proof.
  intros Hlen Hok Hi. pose proof (lookup_lt_Some _ _ _ Hi).
  destruct (Forall_lookup_1 _ _ _ _ Hok Hi) as [Hl Ha].
  set (A := le_bytes 1 (tag_u8 tag) ++ le_bytes 1 (zlen ds)
            ++ concat (map descriptor_image (take i ds))).
  assert (length A = 2 + i * 6)%nat as HA.
  { unfold A. rewrite !length_app, !length_le_bytes, length_descriptors_image, length_take. lia. }
  assert (exists B, preamble_body tag ds
    = A ++ le_bytes 4 (d_length d) ++ le_bytes 2 (d_alignment d) ++ B) as [B ->].
  { eexists. unfold preamble_body, A. rewrite <- (take_drop_middle ds i d Hi) at 2.
    rewrite map_app, concat_app. cbn [map concat]. unfold descriptor_image at 2.
    rewrite <- !(assoc_L (++)). reflexivity. }
  split; [by apply le_at_image|]. rewrite (assoc_L (++)). apply le_at_image; [|done].
  rewrite length_app, length_le_bytes. lia.
Qed.

Lemma preamble_slot_unused tag ds i :
  (length ds <= i < 4)%nat ->
  le_at 4 (2 + i * 6) (preamble_body tag ds) = 0
  /\ le_at 2 (2 + i * 6 + 4) (preamble_body tag ds) = 0.
Proof.
  intros H. unfold preamble_body.
  assert (length (le_bytes 1 (tag_u8 tag) ++ le_bytes 1 (zlen ds) ++ concat (map descriptor_image ds))
    = 2 + 6 * length ds)%nat as Hl by (rewrite !length_app, length_descriptors_image, !length_le_bytes; lia).
  split; apply le_at_zeros; rewrite Hl; lia.
Qed.

Lemma decode_descriptors_spec tag ds n : forall i suffix,
  (length ds <= 4)%nat -> Forall descriptor_ok ds -> (i + n = 4)%nat ->
  decode_descriptors n (Z.of_nat i) (zlen ds) (preamble_body tag ds ++ suffix) = Ok (drop i ds).
Proof.
  induction n as [|n IH]; intros i suffix Hlen Hok Hi; cbn [decode_descriptors].
  { rewrite drop_ge; [done|lia]. }
  replace (Z.to_nat (2 + Z.of_nat i * 6)) with (2 + i * 6)%nat by lia.
  rewrite !le_at_app_l by (rewrite length_preamble_body; lia).
  replace (Z.of_nat i + 1) with (Z.of_nat (S i)) by lia. rewrite IH by (done || lia).
  destruct (Z.ltb_spec (Z.of_nat i) (zlen ds)) as [Hlt|Hge]; unfold zlen in *.
  - destruct (lookup_lt_is_Some_2 ds i ltac:(lia)) as [d Hd].
    destruct (preamble_slot tag ds i d Hlen Hok Hd) as [-> ->]. rewrite bind_Ok.
    rewrite (drop_S ds d i Hd). by destruct d.
  - destruct (preamble_slot_unused tag ds i ltac:(lia)) as [-> ->]. simpl.
    rewrite !drop_ge by lia. done.
Qed.

(** The decoded preamble of an encoded one. *)
Lemma decode_preamble_encode tag ds :
  (1 <= length ds <= 4)%nat -> Forall descriptor_ok ds -> tag_u8 tag <= tag_u8 T_Ack ->
  ((1 < length ds)%nat -> forall d, last ds = Some d -> d_length d <> 0) ->
  decode_preamble (encode_preamble tag ds) = Ok (tag, ds).
Proof.
  intros Hlen Hok Htag Hlast. unfold decode_preamble, encode_preamble.
  pose proof (length_preamble_body tag ds ltac:(lia)) as Hb.
  rewrite take_app_length' by done.
  rewrite <- (app_nil_r (le_bytes 4 (crc32c 0 _))) at 1.
  rewrite le_at_image by (done || apply crc32c_range; unfold in_u; lia).
  rewrite Z.eqb_refl. cbn [negb].
  rewrite !(le_at_app_l 1) by lia.
  assert (le_at 1 0 (preamble_body tag ds) = tag_u8 tag) as ->.
  { unfold preamble_body. rewrite <- !(assoc_L (++)). apply (le_at_image 1 []); [done|].
    pose proof (tag_u8_range tag). unfold in_u. lia. }
  assert (le_at 1 1 (preamble_body tag ds) = zlen ds) as ->.
  { unfold preamble_body. rewrite <- !(assoc_L (++)). apply le_at_image; [by rewrite length_le_bytes|].
    unfold in_u, zlen. lia. }
  assert (le_at 1 26 (preamble_body tag ds) = 0 /\ le_at 1 27 (preamble_body tag ds) = 0) as [-> ->].
  { unfold preamble_body.
    assert (length (le_bytes 1 (tag_u8 tag) ++ le_bytes 1 (zlen ds) ++ concat (map descriptor_image ds))
      = 2 + 6 * length ds)%nat as Hl
      by (rewrite !length_app, length_descriptors_image, !length_le_bytes; lia).
    split; apply le_at_zeros; rewrite Hl; lia. }
  rewrite Tag_try_from_u8, bind_Ok. destruct (Z.ltb_spec (tag_u8 T_Ack) (tag_u8 tag)); [lia|].
  destruct (Z.ltb_spec (zlen ds) 1), (Z.ltb_spec MAX_SEGMENTS (zlen ds));
    unfold zlen, MAX_SEGMENTS in *; try lia. cbn [orb negb Z.eqb].
  rewrite (decode_descriptors_spec tag ds 4 0) by (done || lia). rewrite drop_0, bind_Ok.
  destruct (last ds) as [d|] eqn:Hd; [|done].
  destruct (Z.ltb_spec 1 (Z.of_nat (length ds))); [|done]. cbn [andb].
  destruct (Z.eqb_spec (d_length d) 0) as [E|]; [|done]. by destruct (Hlast ltac:(lia) d eq_refl).
Qed.
End Preamble.

(** ** Normalised segments *)

Lemma trimmed_end_spec segs end_ e :
  (end_ <= length segs)%nat -> e = trimmed_end segs end_ ->
  (e <= end_)%nat /\ ((1 <= end_)%nat -> (1 <= e)%nat)
  /\ ((1 < e)%nat -> exists s, segs !! (e - 1)%nat = Some s /\ zlen (seg_data s) <> 0)
  /\ forall i s, (e <= i < end_)%nat -> segs !! i = Some s -> seg_data s = [].
Proof.
  induction end_ as [|end_ IH]; intros Hlen He; [simpl in He; subst; split_and!; lia|].
  destruct end_ as [|k]; [simpl in He; subst; split_and!; lia|]. cbn [trimmed_end] in He.
  destruct (lookup_lt_is_Some_2 segs (S k) ltac:(lia)) as [s Hs]. rewrite Hs in He.
  destruct (Z.eqb_spec (zlen (seg_data s)) 0) as [E|N].
  - destruct (IH ltac:(lia) He) as (H1 & H2 & H3 & H4). split_and!; [lia|lia|done|].
    intros i s' Hi Hs'. destruct (decide (i = S k)) as [->|].
    + rewrite Hs in Hs'. simplify_eq. by apply zlen_0_nil.
    + apply (H4 i); [lia|done].
  - subst e. split_and!; [lia|lia| |lia]. intros _. exists s. by replace (S (S k) - 1)%nat with (S k) by lia.
Qed.

(** What normalisation keeps: a non-empty prefix whose last segment has data if
    it is not the only one, and nothing but empty segments is dropped. *)
Lemma normalized_segments_spec segs ns :
  normalized_segments segs = Ok ns ->
  (1 <= length ns <= 4)%nat /\ ns = take (length ns) segs
  /\ ((1 < length ns)%nat -> forall s, last ns = Some s -> zlen (seg_data s) <> 0)
  /\ (forall i s, (length ns <= i)%nat -> segs !! i = Some s -> seg_data s = []).
Proof.
  unfold normalized_segments. destruct (Z.eqb_spec (zlen segs) 0), (Z.ltb_spec MAX_SEGMENTS (zlen segs));
    cbn [orb]; try done. intros E. simplify_eq. unfold zlen, MAX_SEGMENTS in *.
  remember (trimmed_end segs (length segs)) as e eqn:He.
  destruct (trimmed_end_spec segs (length segs) e ltac:(lia) He) as (H1 & H2 & H3 & H4). rewrite !length_take.
  replace (e `min` length segs)%nat with e by lia.
  split_and!; [lia|lia|done| |].
  - intros He1 s Hs. destruct (H3 He1) as (s' & Hs' & Hne).
    rewrite last_lookup, length_take in Hs. rewrite lookup_take_lt in Hs by lia.
    replace (Nat.pred (e `min` length segs)) with (e - 1)%nat in Hs by lia. by simplify_eq.
  - intros i s Hi Hs. apply (H4 i); [|done]. apply lookup_lt_Some in Hs. lia.
Qed.

Definition segment_ok (s : Segment) : Prop := in_u 16 (alignment s).

Definition descriptor_of (s : Segment) : Descriptor := mkDescriptor (zlen (seg_data s)) (alignment s).

Lemma descriptors_of_spec segs ds :
  descriptors_of segs = Ok ds ->
  ds = map descriptor_of segs
  /\ Forall (fun s => in_u 32 (zlen (seg_data s))) segs.
Proof.
  revert ds. induction segs as [|s segs IH]; intros ds H; cbn [descriptors_of] in H.
  { by simplify_eq. }
  apply bind_inv in H as (n & Hn & H). apply bind_inv in H as (ds' & Hds & H). simplify_eq.
  destruct (IH _ Hds) as [-> HF]. unfold try_u in Hn.
  destruct (Z.leb_spec 0 (zlen (seg_data s))), (Z.ltb_spec (zlen (seg_data s)) (2 ^ 32));
    simplify_eq/=. split; [done|]. by constructor.
Qed.

(** ** Reading back *)

Lemma read_exact_app a b n : zlen a = n -> read_exact n (a ++ b) = Ok (a, b).
Proof.
  intros <-. unfold read_exact. rewrite zlen_app. pose proof (zlen_nonneg b).
  destruct (Z.ltb_spec (zlen a + zlen b) (zlen a)); [lia|]. unfold zlen. rewrite Nat2Z.id.
  by rewrite take_app_length, drop_app_length.
Qed.

Lemma read_exact_inv n reader a rest :
  read_exact n reader = Ok (a, rest) -> reader = a ++ rest /\ (0 <= n -> zlen a = n).
Proof.
  unfold read_exact. destruct (Z.ltb_spec (zlen reader) n); [done|]. intros E. simplify_eq.
  split; [by rewrite take_drop|]. intros Hn. unfold zlen in *. rewrite length_take. lia.
Qed.

Section Reading.
  Context {crc_crate : Crc32cCrate} (codec : CrcCodec).

Lemma checksum_range data : in_u 32 (checksum codec data).
Proof.
  unfold checksum. destruct (with_data_crc codec); [|unfold in_u; lia].
  apply crc32c_range. unfold in_u, u32_max. lia.
Qed.

Lemma checksum_value data : le_value (le_bytes 4 (checksum codec data)) = checksum codec data.
Proof. rewrite le_value_bytes. apply Z.mod_small, checksum_range. Qed.

Lemma checksum_check data :
  with_data_crc codec && negb (crc32c u32_max data =? checksum codec data) = false.
Proof. unfold checksum. destruct (with_data_crc codec); [|done]. by rewrite Z.eqb_refl. Qed.

Lemma read_segments_image segs : forall first rest,
  read_segments codec first (map descriptor_of segs) (segments_image codec first segs ++ rest)
  = Ok (segs, rest).
Proof.
  induction segs as [|s segs IH]; intros first rest; [done|].
  cbn [map read_segments segments_image d_length d_alignment descriptor_of].
  rewrite <- !(assoc_L (++)), read_exact_app, bind_Ok by done.
  pose proof (zlen_nonneg (seg_data s)).
  assert (0 <? zlen (seg_data s) = negb (zlen (seg_data s) =? 0)) as -> by lia.
  destruct (first && negb (zlen (seg_data s) =? 0)).
  - rewrite read_exact_app, bind_Ok by apply zlen_le_bytes.
    rewrite checksum_value, checksum_check, bind_Ok, IH, bind_Ok. by destruct s.
  - rewrite bind_Ok. cbn [app]. rewrite IH, bind_Ok. by destruct s.
Qed.

Lemma epilogue_slot segs (i : nat) s :
  (1 <= i <= 3)%nat -> segs !! i = Some s ->
  le_at 4 (1 + (i - 1) * 4) (epilogue_image codec segs) = checksum codec (seg_data s).
Proof.
  intros Hi Hs. unfold epilogue_image. cbn [map concat].
  destruct (decide (i = 1%nat)) as [->|]; [|destruct (decide (i = 2%nat)) as [->|]].
  - rewrite Hs. apply le_at_image; [by rewrite length_le_bytes|apply checksum_range].
  - rewrite Hs, (assoc_L (++)). apply le_at_image; [|apply checksum_range].
    by rewrite length_app, !length_le_bytes.
  - assert (i = 3%nat) as -> by lia. rewrite Hs, !(assoc_L (++) _ _ (le_bytes 4 _ ++ _)).
    apply le_at_image; [|apply checksum_range]. by rewrite !length_app, !length_le_bytes.
Qed.

Lemma check_epilogue_image segs k : forall i,
  (1 <= i)%nat -> (length segs <= 4)%nat -> k = drop i segs ->
  check_epilogue codec i k (epilogue_image codec segs) = Ok tt.
Proof.
  induction k as [|s k IH]; intros i Hi Hlen Hk; [done|]. cbn [check_epilogue].
  assert (segs !! i = Some s) as Hs.
  { rewrite <- (Nat.add_0_r i), <- lookup_drop, <- Hk. done. }
  rewrite (epilogue_slot segs i s), checksum_check by (done || apply lookup_lt_Some in Hs; lia).
  apply IH; [lia|done|]. by rewrite <- Nat.add_1_r, <- drop_drop, <- Hk.
Qed.

Lemma late_status_image segs : late_status (epilogue_image codec segs) = Ok tt.
Proof.
  unfold late_status, epilogue_image.
  assert (forall l, le_at 1 0 (le_bytes 1 LATE_STATUS_COMPLETE ++ l) = LATE_STATUS_COMPLETE) as ->.
  { intros l. apply (le_at_image 1 []); [done|]. unfold in_u, LATE_STATUS_COMPLETE. lia. }
  done.
Qed.

Lemma descriptors_loop_bounds limits ds : forall first t t',
  descriptors_loop limits first ds t = Ok t' ->
  Forall (fun d => d_length d <= max_segment_bytes limits /\ valid_alignment (d_alignment d) = true) ds.
Proof.
  induction ds as [|d ds IH]; intros first t t' H; [constructor|]. cbn [descriptors_loop] in H.
  destruct (Z.ltb_spec (max_segment_bytes limits) (d_length d)); [done|].
  destruct (valid_alignment (d_alignment d)) eqn:Hv; [|done]. cbn [negb] in H.
  apply bind_inv in H as (t1 & _ & H). apply bind_inv in H as (t2 & _ & H).
  constructor; [done|]. by eapply IH.
Qed.

Lemma descriptors_loop_size limits segs : forall first t t',
  descriptors_loop limits first (map descriptor_of segs) t = Ok t' ->
  t' = t + zlen (segments_image codec first segs).
Proof.
  induction segs as [|s segs IH]; intros first t t' H; cbn [map descriptors_loop segments_image] in *.
  { simplify_eq. rewrite zlen_nil. lia. }
  cbn [d_length d_alignment descriptor_of] in H. pose proof (zlen_nonneg (seg_data s)).
  destruct (max_segment_bytes limits <? zlen (seg_data s)); [done|].
  destruct (negb (valid_alignment (alignment s))); [done|].
  apply bind_inv in H as (t1 & H1 & H). apply bind_inv in H as (t2 & H2 & H). apply IH in H as ->.
  assert (negb (zlen (seg_data s) =? 0) = (0 <? zlen (seg_data s))) as -> by lia.
  rewrite !zlen_app. unfold checked_add in *.
  destruct (first && (0 <? zlen (seg_data s))); split_if; cbn [ok_or] in *; simplify_eq;
    rewrite ?zlen_le_bytes; change (zlen (@nil byte)) with 0; lia.
Qed.

Lemma wire_size limits segs total :
  descriptors_and_crc_size_from_descriptors (map descriptor_of segs) limits = Ok total ->
  total = PREAMBLE_SIZE + zlen (segments_image codec true segs) + (if 1 <? zlen segs then 13 else 0)
  /\ total <= max_frame_bytes limits
  /\ Forall (fun s => zlen (seg_data s) <= max_segment_bytes limits) segs.
Proof.
  intros H. unfold descriptors_and_crc_size_from_descriptors in H.
  apply bind_inv in H as (t & Ht & H). apply descriptors_loop_bounds in Ht as HF.
  apply descriptors_loop_size in Ht as ->.
  apply bind_inv in H as (t2 & Ht2 & H). destruct (Z.ltb_spec (max_frame_bytes limits) t2); [done|].
  apply Ok_inj in H as <-. assert (zlen (map descriptor_of segs) = zlen segs) as E.
  { unfold zlen. by rewrite length_map. }
  rewrite E in Ht2. split_and!; [|done|].
  - destruct (1 <? zlen segs); [|apply Ok_inj in Ht2 as <-; lia].
    unfold checked_add in Ht2. split_if. cbn [ok_or] in Ht2. by apply Ok_inj in Ht2 as <-.
  - apply Forall_map in HF. eapply Forall_impl; [exact HF|]. by intros s [? _].
Qed.

Lemma zlen_preamble tag segs :
  (length segs <= 4)%nat -> zlen (encode_preamble tag (map descriptor_of segs)) = PREAMBLE_SIZE.
Proof.
  intros H. unfold encode_preamble. rewrite zlen_app, zlen_le_bytes. unfold zlen.
  by rewrite length_preamble_body by (by rewrite length_map).
Qed.

(** Reading an encoded frame yields its normalised form and the bytes behind it,
    after a reservation of exactly the encoded size. *)
(** The preamble of a frame to encode is read back. *)
Lemma decode_preamble_segments frame ns :
  Forall segment_ok (segments frame) -> normalized_segments (segments frame) = Ok ns ->
  Forall (fun s => in_u 32 (zlen (seg_data s))) ns -> tag_u8 (frame_tag frame) <= tag_u8 T_Ack ->
  decode_preamble (encode_preamble (frame_tag frame) (map descriptor_of ns))
  = Ok (frame_tag frame, map descriptor_of ns).
Proof.
  intros Hal Hns Hlens Htag. destruct (normalized_segments_spec _ _ Hns) as (Hlen & Hpre & Hlast & _).
  apply decode_preamble_encode; [by rewrite length_map| |done|].
  - assert (Forall segment_ok ns) as Hal' by (rewrite Hpre; by apply Forall_take).
    apply Forall_map. rewrite Forall_forall in *. intros s Hs.
    split; cbn [d_length d_alignment descriptor_of]; [by apply Hlens|by apply Hal'].
  - rewrite length_map. intros H1 d Hld. change (map descriptor_of ns) with (descriptor_of <$> ns) in Hld.
    rewrite fmap_last in Hld. destruct (last ns) as [s|] eqn:Es; [|done].
    simplify_eq/=. by apply Hlast.
Qed.

Lemma crc_read_encode frame limits wire rest reserve :
  Forall segment_ok (segments frame) -> CrcCodec_encode codec frame limits = Ok wire ->
  reserve (frame_tag frame) (zlen wire) = Ok tt ->
  exists ns, normalized_segments (segments frame) = Ok ns
    /\ CrcCodec_read_reserved codec limits reserve (wire ++ rest) = Ok (mkFrame (frame_tag frame) ns, rest).
Proof.
  intros Hal H Hres. unfold CrcCodec_encode in H. apply bind_inv in H as (ns & Hns & H).
  exists ns. split; [done|]. destruct (normalized_segments_spec _ _ Hns) as (Hlen & Hpre & Hlast & _).
  destruct (Z.ltb_spec (tag_u8 T_Ack) (tag_u8 (frame_tag frame))); [done|].
  apply bind_inv in H as ([ds total] & Hd & H). unfold descriptors_and_crc_size in Hd.
  apply bind_inv in Hd as (ds' & Hds & Hd). apply bind_inv in Hd as (t & Ht & Hd).
  apply Ok_inj in Hd. simplify_eq Hd. intros -> ->. apply Ok_inj in H as <-.
  destruct (descriptors_of_spec _ _ Hds) as [-> Hlens].
  destruct (wire_size limits ns total Ht) as [Hsize _].
  rewrite !zlen_app, zlen_preamble, Z.add_assoc in Hres by lia.
  replace (zlen (if 1 <? zlen ns then _ else _)) with (if 1 <? zlen ns then 13 else 0) in Hres
    by (by destruct (1 <? zlen ns)).
  rewrite <- Hsize in Hres. unfold CrcCodec_read_reserved. rewrite <- !(assoc_L (++)).
  rewrite read_exact_app, bind_Ok by (apply zlen_preamble; lia).
  rewrite decode_preamble_segments, bind_Ok by done.
  rewrite Ht, bind_Ok, Hres, bind_Ok, read_segments_image, bind_Ok.
  assert (zlen (map descriptor_of ns) = zlen ns) as -> by (unfold zlen; by rewrite length_map).
  destruct (1 <? zlen ns); [|done]. rewrite read_exact_app, bind_Ok by done.
  rewrite late_status_image, bind_Ok, check_epilogue_image by (done || lia). done.
Qed.
End Reading.

(** ** What a reader accepts *)

Lemma le_at_range n off data : (off + n <= length data)%nat -> in_u (8 * Z.of_nat n) (le_at n off data).
Proof.
  intros H. unfold le_at. pose proof (le_value_range (take n (drop off data))) as Hr.
  unfold zlen in Hr. rewrite length_take, length_drop in Hr.
  replace (n `min` (length data - off))%nat with n in Hr by lia. done.
Qed.

(** A field and what follows it, from the value it holds. *)
Lemma drop_field n off data :
  (off + n <= length data)%nat ->
  drop off data = le_bytes n (le_at n off data) ++ drop (off + n) data.
Proof.
  intros H. unfold le_at. rewrite <- (take_drop n (drop off data)) at 1. rewrite drop_drop. f_equal.
  rewrite <- (le_bytes_value (take n (drop off data))) at 1. f_equal.
  rewrite length_take, length_drop. lia.
Qed.

Lemma Tag_try_from_inv v t : Tag_try_from v = Ok t -> v = tag_u8 t.
Proof.
  unfold Tag_try_from. intros H.
  repeat (destruct v as [|v|v]; try done; repeat (destruct v as [v|v|]; simplify_eq/=; try done)).
Qed.

Section Accepting.
  Context {crc_crate : Crc32cCrate}.

(** The slots of an accepted preamble: descriptors, then zeros. *)
Lemma decode_descriptors_inv p n : forall i count ds,
  length p = 32%nat -> (i + n = 4)%nat ->
  decode_descriptors n (Z.of_nat i) count p = Ok ds ->
  length ds = Z.to_nat (Z.max 0 (Z.min (count - Z.of_nat i) (Z.of_nat n)))
  /\ Forall descriptor_ok ds
  /\ take (n * 6) (drop (2 + i * 6) p)
     = concat (map descriptor_image ds) ++ replicate (n * 6 - 6 * length ds) x00.
Proof.
  induction n as [|n IH]; intros i count ds Hp Hi H; cbn [decode_descriptors] in H.
  { simplify_eq. split_and!; [simpl; lia|constructor|done]. }
  replace (Z.to_nat (2 + Z.of_nat i * 6)) with (2 + i * 6)%nat in H by lia.
  replace (Z.of_nat i + 1) with (Z.of_nat (S i)) in H by lia.
  assert (take (S n * 6) (drop (2 + i * 6) p)
    = descriptor_image (mkDescriptor (le_at 4 (2 + i * 6) p) (le_at 2 (2 + i * 6 + 4) p))
      ++ take (n * 6) (drop (2 + S i * 6) p)) as Htake.
  { rewrite (drop_field 4), (drop_field 2) by lia. unfold descriptor_image. cbn [d_length d_alignment].
    rewrite (assoc_L (++)), take_app. rewrite (take_ge (_ ++ _)) by (rewrite length_app, !length_le_bytes; lia).
    f_equal. rewrite length_app, !length_le_bytes. f_equal; [lia|]. f_equal. lia. }
  destruct (Z.ltb_spec (Z.of_nat i) count).
  - apply bind_inv in H as (ds' & Hds & H). simplify_eq.
    destruct (IH (S i) count ds' Hp ltac:(lia) Hds) as (Hl & Hok & Ht). split_and!.
    + cbn [length]. rewrite Hl. lia.
    + constructor; [|done]. split; apply le_at_range; lia.
    + rewrite Htake, Ht. cbn [map concat length]. rewrite <- (assoc_L (++)). do 3 f_equal. lia.
  - cbn [d_length d_alignment] in H.
    destruct (Z.eqb_spec (le_at 4 (2 + i * 6) p) 0) as [E1|]; [|done].
    destruct (Z.eqb_spec (le_at 2 (2 + i * 6 + 4) p) 0) as [E2|]; [|done]. cbn [negb orb] in H.
    destruct (IH (S i) count ds Hp ltac:(lia) H) as (Hl & Hok & Ht). split_and!; [rewrite Hl; lia|done|].
    assert (ds = []) as -> by (apply nil_length_inv; lia).
    rewrite Htake, Ht, E1, E2. cbn [map concat length app]. rewrite !Nat.sub_0_r.
    change (descriptor_image (mkDescriptor 0 0)) with (replicate 6 x00).
    rewrite <- replicate_add. f_equal.
Qed.

Definition preamble_ok (tag : Tag) (ds : list Descriptor) : Prop :=
  (1 <= length ds <= 4)%nat /\ Forall descriptor_ok ds /\ tag_u8 tag <= tag_u8 T_Ack
  /\ ((1 < length ds)%nat -> forall d, last ds = Some d -> d_length d <> 0).

(** An accepted preamble is the encoding of what it decodes to. *)
Lemma decode_preamble_inv p tag ds :
  length p = 32%nat -> decode_preamble p = Ok (tag, ds) ->
  p = encode_preamble tag ds /\ preamble_ok tag ds.
Proof.
  intros Hp H. unfold decode_preamble in H.
  destruct (Z.eqb_spec (crc32c 0 (take 28 p)) (le_at 4 28 p)) as [Hcrc|]; [|done]. cbn [negb] in H.
  apply bind_inv in H as (t & Ht & H). apply Tag_try_from_inv in Ht.
  destruct (Z.ltb_spec (tag_u8 T_Ack) (tag_u8 t)); [done|].
  destruct (_ || _) eqn:Hb in H; [done|]. bool_prop. unfold MAX_SEGMENTS in *.
  apply bind_inv in H as (ds' & Hds & H).
  destruct (decode_descriptors_inv p 4 0 _ _ Hp eq_refl Hds) as (Hl & Hok & H24).
  assert (t = tag /\ ds' = ds /\ ((1 < length ds)%nat -> forall d, last ds = Some d -> d_length d <> 0))
    as (-> & -> & Hlast).
  { destruct (last ds') as [d|] eqn:Hd; [|simplify_eq; by rewrite Hd].
    destruct ((1 <? le_at 1 1 p) && (d_length d =? 0)) eqn:Hz; [done|]. apply Ok_inj in H.
    simplify_eq H. intros -> ->. split_and!; [done|done|]. intros Hgt d' Hd'. simplify_eq.
    apply andb_false_iff in Hz as [Hz|Hz]; bool_prop; [lia|done]. }
  assert (zlen ds = le_at 1 1 p) as Hcount by (unfold zlen; lia).
  assert (take 28 p = preamble_body tag ds) as Hbody.
  { unfold preamble_body. rewrite <- Ht, Hcount, !length_app, !length_le_bytes, length_descriptors_image.
    rewrite <- (drop_0 p) at 1. rewrite (drop_field 1 0), (drop_field 1 (0 + 1)) by lia.
    change (0 + 1 + 1)%nat with 2%nat. change (0 + 1)%nat with 1%nat.
    rewrite !take_app, !length_le_bytes. rewrite !(take_ge (le_bytes 1 _)) by (rewrite length_le_bytes; lia).
    rewrite <- !(assoc_L (++)). do 2 f_equal. change (28 - 1 - 1)%nat with (24 + 2)%nat.
    rewrite <- take_take_drop. change (4 * 6)%nat with 24%nat in H24.
    change (2 + 0 * 6)%nat with 2%nat in H24.
    rewrite H24, <- (assoc_L (++)). f_equal. rewrite drop_drop. change (2 + 24)%nat with 26%nat.
    rewrite (drop_field 1 26), (drop_field 1 27) by lia.
    match goal with E : le_at 1 26 p = 0 |- _ => rewrite E end.
    match goal with E : le_at 1 27 p = 0 |- _ => rewrite E end.
    change (take 2 (le_bytes 1 0 ++ le_bytes 1 0 ++ drop (27 + 1) p)) with (replicate 2 x00).
    rewrite <- replicate_add. f_equal. lia. }
  split; [|unfold preamble_ok; split_and!; [lia|lia|done|done|done]].
  unfold encode_preamble. rewrite <- Hbody, Hcrc. rewrite <- (take_drop 28 p) at 1. f_equal.
  rewrite (drop_field 4 28) by lia. rewrite (drop_ge p) by lia. by rewrite app_nil_r.
Qed.

Lemma read_segments_inv codec ds : forall first reader segs rest,
  with_data_crc codec = true -> Forall descriptor_ok ds ->
  read_segments codec first ds reader = Ok (segs, rest) ->
  ds = map descriptor_of segs /\ reader = segments_image codec first segs ++ rest.
Proof.
  induction ds as [|d ds IH]; intros first reader segs rest Hc Hok H; cbn [read_segments] in H.
  { by simplify_eq. }
  apply Forall_cons in Hok as [[Hd _] Hok]. unfold in_u in Hd.
  apply bind_inv in H as ([data r1] & Hr1 & H). apply read_exact_inv in Hr1 as [-> Hlen].
  specialize (Hlen ltac:(lia)). apply bind_inv in H as (r2 & Hr2 & H).
  apply bind_inv in H as ([segs' r3] & Hs & H). apply Ok_inj in H. injection H as <- <-.
  destruct (IH false r2 segs' r3 Hc Hok Hs) as [-> ->].
  cbn [map segments_image seg_data alignment]. split.
  { f_equal. unfold descriptor_of. cbn [seg_data alignment]. destruct d. by simplify_eq/=. }
  rewrite <- !(assoc_L (++)). f_equal. rewrite Hlen.
  assert (negb (d_length d =? 0) = (0 <? d_length d)) as -> by lia.
  destruct (first && (0 <? d_length d)).
  - apply bind_inv in Hr2 as ([enc r4] & Henc & Hr2). apply read_exact_inv in Henc as [-> H4].
    specialize (H4 ltac:(lia)). rewrite Hc in Hr2. cbn [andb] in Hr2.
    destruct (Z.eqb_spec (crc32c u32_max data) (le_value enc)) as [E|]; [|done].
    apply Ok_inj in Hr2 as ->. unfold checksum. rewrite Hc, E. f_equal.
    rewrite <- (le_bytes_value enc) at 1. f_equal. unfold zlen in H4. lia.
  - by apply Ok_inj in Hr2 as ->.
Qed.

Lemma check_epilogue_inv codec epi segs : forall index,
  with_data_crc codec = true -> check_epilogue codec index segs epi = Ok tt ->
  forall i s, segs !! i = Some s ->
    le_at 4 (1 + (index + i - 1) * 4) epi = crc32c u32_max (seg_data s).
Proof.
  induction segs as [|s segs IH]; intros index Hc H i s' Hi; [done|].
  cbn [check_epilogue] in H. rewrite Hc in H. cbn [andb] in H.
  destruct (Z.eqb_spec (crc32c u32_max (seg_data s)) (le_at 4 (1 + (index - 1) * 4) epi)) as [E|];
    [|done]. cbn [negb] in H.
  destruct i as [|i]; simplify_eq/=; [by rewrite Nat.add_0_r|].
  rewrite <- (IH (S index) Hc H i s' Hi). do 3 f_equal. lia.
Qed.

(** The epilogue of a frame: absent for one segment, else a complete status and
    the checksum of every segment but the first. *)
Definition epilogue_ok (segs : list Segment) (epi : list byte) : Prop :=
  if 1 <? zlen segs
  then zlen epi = 13 /\ late_status epi = Ok tt
       /\ forall i s, (1 <= i)%nat -> segs !! i = Some s ->
            le_at 4 (1 + (i - 1) * 4) epi = crc32c u32_max (seg_data s)
  else epi = [].

End Accepting.

(** ** Properties *)

(** Frames survive the wire: whatever follows on the connection, reading the
    encoding of a frame returns the frame with its trailing empty segments
    dropped, leaves the bytes behind it unread, and asks to reserve exactly the
    number of bytes the frame occupies. *)
Theorem frame_roundtrip `{Crc32cCrate} codec frame limits wire rest reserve :
  Forall segment_ok (segments frame) -> CrcCodec_encode codec frame limits = Ok wire ->
  reserve (frame_tag frame) (zlen wire) = Ok tt ->
  exists ns, normalized_segments (segments frame) = Ok ns
    /\ CrcCodec_read_reserved codec limits reserve (wire ++ rest) = Ok (mkFrame (frame_tag frame) ns, rest).
Proof. apply crc_read_encode. Qed.

(** Accepted frames are intact and bounded: a frame the checksumming reader
    accepts was on the wire exactly as its encoding prescribes, preamble,
    segments and checksums included, within the configured limits and within a
    reservation granted for exactly its size. *)
Theorem frame_accepted `{Crc32cCrate} codec limits reserve reader frame rest :
  with_data_crc codec = true ->
  CrcCodec_read_reserved codec limits reserve reader = Ok (frame, rest) ->
  exists wire epi,
    reader = wire ++ rest
    /\ wire = encode_preamble (frame_tag frame) (map descriptor_of (segments frame))
              ++ segments_image codec true (segments frame) ++ epi
    /\ epilogue_ok (segments frame) epi
    /\ zlen wire <= max_frame_bytes limits
    /\ reserve (frame_tag frame) (zlen wire) = Ok tt
    /\ Forall (fun s => zlen (seg_data s) <= max_segment_bytes limits) (segments frame).
Proof.
  intros Hc H1. unfold CrcCodec_read_reserved in H1.
  apply bind_inv in H1 as ([p r1] & Hp & H1). apply read_exact_inv in Hp as [-> Hlen].
  specialize (Hlen ltac:(done)). apply bind_inv in H1 as ([tag ds] & Hd & H1).
  assert (length p = 32%nat) as Hp by (unfold zlen, PREAMBLE_SIZE in Hlen; lia).
  destruct (decode_preamble_inv p tag ds Hp Hd) as [-> (Hl & Hok & _ & _)].
  apply bind_inv in H1 as (n & Hn & H1). apply bind_inv in H1 as ([] & Hres & H1).
  apply bind_inv in H1 as ([segs r2] & Hs & H1). apply bind_inv in H1 as (r3 & Hr3 & H1).
  apply Ok_inj in H1. injection H1 as <- <-.
  destruct (read_segments_inv codec ds true r1 segs r2 Hc Hok Hs) as [-> ->]. cbn [frame_tag segments].
  rewrite length_map in Hl.
  assert (zlen (map descriptor_of segs) = zlen segs) as E by (unfold zlen; by rewrite length_map).
  rewrite E in Hr3. destruct (wire_size codec limits segs n Hn) as (Hsize & Hmax & HF).
  assert (exists epi, r2 = epi ++ r3 /\ epilogue_ok segs epi
    /\ zlen epi = if 1 <? zlen segs then 13 else 0) as (epi & -> & Hepi & Hzl).
  { unfold epilogue_ok. destruct (1 <? zlen segs).
    - apply bind_inv in Hr3 as ([epi r4] & He & Hr3). apply read_exact_inv in He as [-> He].
      specialize (He ltac:(lia)). apply bind_inv in Hr3 as ([] & Hst & Hr3).
      apply bind_inv in Hr3 as ([] & Hck & Hr3). apply Ok_inj in Hr3 as ->.
      exists epi. split_and!; try done. intros i s Hi Hsi.
      rewrite <- (check_epilogue_inv codec epi _ 1 Hc Hck (i - 1) s); [do 3 f_equal; lia|].
      rewrite lookup_drop. by replace (1 + (i - 1))%nat with i by lia.
    - apply Ok_inj in Hr3 as ->. by exists []. }
  exists (encode_preamble tag (map descriptor_of segs) ++ segments_image codec true segs ++ epi), epi.
  rewrite !zlen_app, zlen_preamble by lia. rewrite <- !(assoc_L (++)). split_and!; try done.
  - lia.
  - replace (PREAMBLE_SIZE + _) with n by lia. done.
Qed.

Lemma frame_roundtrip_witness :
  CrcCodec_encode (crc_crate := reference_crc) (mkCrcCodec true) test_frame test_limits = Ok test_wire
  /\ exists ns, CrcCodec_read_reserved (crc_crate := reference_crc) (mkCrcCodec true) test_limits
       (fun _ _ => Ok tt) (test_wire ++ [x14]) = Ok (mkFrame T_Ack ns, [x14]).
Proof.
  split; [exact frame_vector|].
  destruct (frame_roundtrip (H := reference_crc) (mkCrcCodec true) test_frame test_limits test_wire [x14]
    (fun _ _ => Ok tt)) as (ns & _ & E).
  - apply Forall_singleton. done.
  - exact frame_vector.
  - reflexivity.
  - exists ns. exact E.
Defined.

Lemma frame_accepted_witness :
  exists wire epi, test_wire = wire ++ []
    /\ epilogue_ok (crc_crate := reference_crc) (segments test_frame) epi /\ zlen wire <= 8192.
Proof.
  destruct (frame_accepted (H := reference_crc) (mkCrcCodec true) test_limits (fun _ _ => Ok tt)
    test_wire test_frame [] eq_refl) as (wire & epi & E & _ & He & Hl & _).
  - vm_compute. reflexivity.
  - exact (ex_intro _ wire (ex_intro _ epi (conj E (conj He Hl)))).
Defined.
