(* ===== verification/Message.v ===== *)
(** * Messages

    Models [src/src/msgr/message.rs]: the 41-byte message header and the mapping
    between messages and four-segment frames. *)

From S2P Require Import Prelude Codec Frame.
From Stdlib Require Import ZArith Lia Strings.Byte.
From stdpp Require Import base option gmap sorting numbers list.

Open Scope Z_scope.

Definition MESSAGE_HEADER_SIZE : Z := 41.
Definition MESSAGE_ALIGNMENTS : list Z :=
  [DEFAULT_ALIGNMENT; DEFAULT_ALIGNMENT; DEFAULT_ALIGNMENT; PAGE_ALIGNMENT].

Record MessageHeader : Type := mkMessageHeader {
  sequence : Z;
  transaction_id : Z;
  message_type : Z;
  priority : Z;
  version : Z;
  data_pre_padding_length : Z;
  data_offset : Z;
  ack_sequence : Z;
  header_flags : Z;
  compat_version : Z;
  reserved : Z
}.

Record MessageLengths : Type := mkMessageLengths { front_len : Z; middle_len : Z; data_len : Z }.

#[export] Instance MessageLengths_eq_dec : EqDecision MessageLengths.
Proof. solve_decision. Defined.

(** The receive charge of the source is the receiver's hold on its memory
    budget; it is not part of the message's value (its [PartialEq] ignores it). *)
Record Message : Type := mkMessage {
  header : MessageHeader;
  lengths : MessageLengths;
  front : list byte;
  middle : list byte;
  data : list byte
}.

(** [MessageHeader::encode]; the buffer is exactly as large as the header. *)
Definition MessageHeader_encode (h : MessageHeader) : list byte :=
  let e := Encoder_new MESSAGE_HEADER_SIZE in
  let e := Encoder_u64 e (sequence h) in
  let e := Encoder_u64 e (transaction_id h) in
  let e := Encoder_u16 e (message_type h) in
  let e := Encoder_u16 e (priority h) in
  let e := Encoder_u16 e (version h) in
  let e := Encoder_u32 e (data_pre_padding_length h) in
  let e := Encoder_u16 e (data_offset h) in
  let e := Encoder_u64 e (ack_sequence h) in
  let e := Encoder_u8 e (header_flags h) in
  let e := Encoder_u16 e (compat_version h) in
  let e := Encoder_u16 e (reserved h) in
  match Encoder_finish e with Ok bytes => bytes | Err _ => [] end.

Definition MessageHeader_read : DM FrameError MessageHeader :=
  seq ← rd Decoder_u64;
  tid ← rd Decoder_u64;
  type ← rd Decoder_u16;
  prio ← rd Decoder_u16;
  ver ← rd Decoder_u16;
  padding ← rd Decoder_u32;
  offset ← rd Decoder_u16;
  ack ← rd Decoder_u64;
  flags ← rd Decoder_u8;
  compat ← rd Decoder_u16;
  res ← rd Decoder_u16;
  _ ← finish_with frame_error;
  left_ ← remaining;
  _ ← throw_if (negb (left_ =? 0)) FE_Malformed;
  mret (mkMessageHeader seq tid type prio ver padding offset ack flags compat res).

Definition MessageHeader_decode (bytes : list byte) : result FrameError MessageHeader :=
  if negb (zlen bytes =? MESSAGE_HEADER_SIZE) then Err FE_Malformed
  else fst <$> MessageHeader_read (Decoder_new bytes MESSAGE_HEADER_SIZE).

Definition checked_length (n : Z) : result FrameError Z := ok_or (try_u 32 n) FE_LimitExceeded.

(** The loop of [validate_segments] over segments and their alignments.  Both
    callers pass at most four segments, so the alignments do not run out: the
    source would panic there. *)
Fixpoint validate_loop (limits : Limits) (segs : list Segment) (alignments : list Z) (total : Z)
    : result FrameError Z :=
  match segs, alignments with
  | [], _ => Ok total
  | s :: segs, a :: alignments =>
      if negb (alignment s =? a) then Err FE_Malformed
      else if max_segment_bytes limits <? zlen (seg_data s) then Err FE_LimitExceeded
      else
        total ← ok_or (checked_add 64 total (zlen (seg_data s))) FE_LimitExceeded;
        validate_loop limits segs alignments total
  | _ :: _, [] => Err FE_Malformed
  end.

Definition validate_segments (segs : list Segment) (limits : Limits) : result FrameError unit :=
  total ← validate_loop limits segs MESSAGE_ALIGNMENTS 0;
  if max_frame_bytes limits <? total then Err FE_LimitExceeded else Ok tt.

Definition Message_encode (m : Message) (limits : Limits) : result FrameError Frame :=
  f ← checked_length (zlen (front m));
  mid ← checked_length (zlen (middle m));
  d ← checked_length (zlen (data m));
  if negb (bool_decide (lengths m = mkMessageLengths f mid d))
     || (d <? data_pre_padding_length (header m))
  then Err FE_Malformed
  else
    let segs := [mkSegment DEFAULT_ALIGNMENT (MessageHeader_encode (header m));
                 mkSegment DEFAULT_ALIGNMENT (front m);
                 mkSegment DEFAULT_ALIGNMENT (middle m);
                 mkSegment PAGE_ALIGNMENT (data m)] in
    _ ← validate_segments segs limits;
    Ok (mkFrame T_Message segs).

(** [frame.segments.get(i).map_or(..)]. *)
Definition segment_data (frame : Frame) (i : nat) : list byte :=
  match segments frame !! i with Some s => seg_data s | None => [] end.

Definition Message_decode (frame : Frame) (limits : Limits) : result FrameError Message :=
  if negb (bool_decide (frame_tag frame = T_Message))
     || (zlen (segments frame) <? 1) || (zlen MESSAGE_ALIGNMENTS <? zlen (segments frame))
  then Err FE_Malformed
  else
    _ ← validate_segments (segments frame) limits;
    h ← MessageHeader_decode (segment_data frame 0);
    if zlen (segment_data frame 3) <? data_pre_padding_length h then Err FE_Malformed
    else
      f ← checked_length (zlen (segment_data frame 1));
      mid ← checked_length (zlen (segment_data frame 2));
      d ← checked_length (zlen (segment_data frame 3));
      Ok (mkMessage h (mkMessageLengths f mid d) (segment_data frame 1) (segment_data frame 2)
            (segment_data frame 3)).

(** ** Header *)

(** Every field is in the range of its Rust type. *)
Definition header_fields (h : MessageHeader) : list Field :=
  [F_u64 (sequence h); F_u64 (transaction_id h); F_u16 (message_type h); F_u16 (priority h);
   F_u16 (version h); F_u32 (data_pre_padding_length h); F_u16 (data_offset h);
   F_u64 (ack_sequence h); F_u8 (header_flags h); F_u16 (compat_version h); F_u16 (reserved h)].

Definition header_ok (h : MessageHeader) : Prop := Forall field_valid (header_fields h).

Lemma header_encode_image h :
  header_ok h -> MessageHeader_encode h = fields_image (header_fields h).
Proof.
  intros Hok. unfold MessageHeader_encode. cbv zeta.
  pose proof (put_fields_spec (Encoder_new MESSAGE_HEADER_SIZE) (header_fields h) Hok eq_refl
    ltac:(done)) as E.
  change (put_fields _ _) with (Encoder_u16 (Encoder_u16 (Encoder_u8 (Encoder_u64 (Encoder_u16
    (Encoder_u32 (Encoder_u16 (Encoder_u16 (Encoder_u16 (Encoder_u64 (Encoder_u64
    (Encoder_new MESSAGE_HEADER_SIZE) (sequence h)) (transaction_id h)) (message_type h))
    (priority h)) (version h)) (data_pre_padding_length h)) (data_offset h)) (ack_sequence h))
    (header_flags h)) (compat_version h)) (reserved h)) in E.
  rewrite E. unfold fields_image, header_fields. cbn [map concat field_image enc_bytes Encoder_new app].
  rewrite !zlen_app, !zlen_le_bytes. done.
Qed.

Lemma zlen_header_encode h : header_ok h -> zlen (MessageHeader_encode h) = MESSAGE_HEADER_SIZE.
Proof.
  intros Hok. rewrite header_encode_image by done. unfold fields_image, header_fields.
  cbn [map concat field_image]. by rewrite !zlen_app, !zlen_le_bytes.
Qed.

Lemma header_decode_encode h :
  header_ok h -> MessageHeader_decode (MessageHeader_encode h) = Ok h.
Proof.
  intros Hok. unfold MessageHeader_decode. rewrite zlen_header_encode by done. cbn [negb Z.eqb].
  change (MESSAGE_HEADER_SIZE =? MESSAGE_HEADER_SIZE) with true. cbn [negb].
  rewrite header_encode_image by done. unfold fields_image, header_fields.
  cbn [map concat field_image]. set (bytes := _ ++ _).
  assert (unread (Decoder_new bytes MESSAGE_HEADER_SIZE) bytes) as Hu by done.
  unfold bytes in Hu at 2. set (d := Decoder_new bytes MESSAGE_HEADER_SIZE) in *.
  unfold header_ok, header_fields in Hok. rewrite !Forall_cons in Hok.
  destruct Hok as (H1 & H2 & H3 & H4 & H5 & H6 & H7 & H8 & H9 & H10 & H11 & _).
  cbn [field_valid] in *. clearbody d. clear bytes.
  assert (exists d', MessageHeader_read d = Ok (h, d')) as [d' ->]; [|done].
  unfold MessageHeader_read. eexists.
  do 11 read_step. rewrite (finish_with_unread _ _ _ _ Hu), (remaining_unread _ _ _ Hu).
  rewrite throw_if_false by done. destruct h. reflexivity.
Qed.

(** ** Messages and frames *)

Lemma validate_loop_prefix limits segs : forall k alignments t t',
  validate_loop limits segs alignments t = Ok t' ->
  exists t1, validate_loop limits (take k segs) alignments t = Ok t1 /\ t1 <= t'.
Proof.
  induction segs as [|s segs IH]; intros k alignments t t' H.
  { rewrite take_nil. by exists t'. }
  assert (forall l a u u', validate_loop limits l a u = Ok u' -> u <= u') as Hmono.
  { clear. induction l as [|s l IH]; intros a u u' H; cbn [validate_loop] in H; [by simplify_eq|].
    destruct a as [|a0 a]; [done|]. split_if. ok_inv. apply IH in H.
    pose proof (zlen_nonneg (seg_data s)). unfold checked_add in R. split_if. simplify_eq/=. lia. }
  destruct k as [|k]; [exists t; split; [done|by eapply Hmono]|].
  cbn [take validate_loop] in *. destruct alignments as [|a alignments]; [done|].
  destruct (negb (alignment s =? a)); [done|].
  destruct (max_segment_bytes limits <? zlen (seg_data s)); [done|].
  ok_inv. rewrite R, bind_Ok. by apply IH.
Qed.

Lemma validate_segments_prefix limits segs k :
  validate_segments segs limits = Ok tt -> validate_segments (take k segs) limits = Ok tt.
Proof.
  unfold validate_segments. intros H. ok_inv.
  destruct (validate_loop_prefix limits segs k _ _ _ R) as (t1 & -> & Hle). rewrite bind_Ok.
  destruct (Z.ltb_spec (max_frame_bytes limits) a); [done|].
  by destruct (Z.ltb_spec (max_frame_bytes limits) t1); [lia|].
Qed.

Lemma checked_length_inv n v : checked_length n = Ok v -> v = n.
Proof. unfold checked_length, try_u. split_if; intros; by simplify_eq/=. Qed.

(** Decoding a message's frame, or that frame without trailing empty segments,
    gives the message back. *)
Lemma message_decode_encode m limits frame ns :
  header_ok (header m) -> Message_encode m limits = Ok frame ->
  normalized_segments (segments frame) = Ok ns ->
  Message_decode (mkFrame T_Message ns) limits = Ok m.
Proof.
  intros Hok He Hns. unfold Message_encode in He. ok_inv.
  destruct (negb _ || _) eqn:Hb in He; [done|]. bool_prop. ok_inv. subst frame. cbn [segments] in Hns.
  destruct (normalized_segments_spec _ _ Hns) as (Hlen & Hpre & _ & Hempty).
  set (segs := [_; _; _; _]) in *. destruct a2.
  assert (forall i, segment_data (mkFrame T_Message ns) i = segment_data (mkFrame T_Message segs) i) as Hdata.
  { intros i. unfold segment_data. cbn [segments]. destruct (decide (i < length ns)%nat) as [Hi|Hi].
    - rewrite Hpre, lookup_take_lt by lia. done.
    - rewrite (lookup_ge_None_2 ns) by lia. destruct (segs !! i) as [s|] eqn:Es; [|done].
      symmetry. by apply (Hempty i); [lia|]. }
  unfold Message_decode. rewrite !Hdata. cbn [frame_tag segments].
  rewrite bool_decide_true by done. cbn [negb orb].
  destruct (Z.ltb_spec (zlen ns) 1), (Z.ltb_spec (zlen MESSAGE_ALIGNMENTS) (zlen ns));
    unfold zlen in *; cbn [length MESSAGE_ALIGNMENTS] in *; try lia. cbn [orb].
  rewrite Hpre, validate_segments_prefix, bind_Ok by done.
  change (segment_data (mkFrame T_Message segs) 0) with (MessageHeader_encode (header m)).
  change (segment_data (mkFrame T_Message segs) 1) with (front m).
  change (segment_data (mkFrame T_Message segs) 2) with (middle m).
  change (segment_data (mkFrame T_Message segs) 3) with (data m).
  rewrite header_decode_encode, bind_Ok by done.
  rewrite R, R0, R1, !bind_Ok. apply checked_length_inv in R1 as ->.
  destruct (Z.ltb_spec (Z.of_nat (length (data m))) (data_pre_padding_length (header m))); [lia|].
  destruct m as [h l f mid d]. by simplify_eq/=.
Qed.

(** ** Properties *)

(** Messages survive the wire: a message with header fields in range that
    encodes within the limits is read back unchanged from the connection by
    the frame reader and the message decoder, whatever follows it. *)
Theorem message_roundtrip `{Crc32cCrate} codec m limits frame wire rest :
  header_ok (header m) -> Message_encode m limits = Ok frame ->
  CrcCodec_encode codec frame limits = Ok wire ->
  exists frame', CrcCodec_read codec limits (wire ++ rest) = Ok (frame', rest)
    /\ Message_decode frame' limits = Ok m.
Proof.
  intros Hok Hm Hw. assert (frame_tag frame = T_Message /\ Forall segment_ok (segments frame)) as [Ht Ha].
  { unfold Message_encode in Hm. ok_inv. destruct (negb _ || _); [done|]. ok_inv. subst frame.
    split; [done|]. repeat constructor; done. }
  destruct (crc_read_encode codec frame limits wire rest (fun _ _ => Ok tt) Ha Hw eq_refl)
    as (ns & Hns & Hr).
  exists (mkFrame (frame_tag frame) ns). split; [done|]. rewrite Ht. by eapply message_decode_encode.
Qed.

Definition test_message : Message :=
  mkMessage (mkMessageHeader 1 2 3 0 0 1 4 5 0 0 0) (mkMessageLengths 5 6 4)
    [x66; x72; x6f; x6e; x74] [x6d; x69; x64; x64; x6c; x65] [x00; x01; x02; x03].

Lemma message_roundtrip_witness :
  exists frame wire frame',
    Message_encode test_message test_limits = Ok frame
    /\ CrcCodec_encode (crc_crate := reference_crc) (mkCrcCodec true) frame test_limits = Ok wire
    /\ CrcCodec_read (crc_crate := reference_crc) (mkCrcCodec true) test_limits (wire ++ [x14])
       = Ok (frame', [x14])
    /\ Message_decode frame' test_limits = Ok test_message.
Proof.
  destruct (Message_encode test_message test_limits) as [frame|] eqn:Ef; [|vm_compute in Ef; discriminate].
  destruct (CrcCodec_encode (crc_crate := reference_crc) (mkCrcCodec true) frame test_limits)
    as [wire|] eqn:Ew; [|vm_compute in Ef; simplify_eq; vm_compute in Ew; discriminate].
  destruct (message_roundtrip (H := reference_crc) (mkCrcCodec true) test_message test_limits frame wire
    [x14]) as (frame' & E1 & E2); [repeat constructor; done|exact Ef|exact Ew|].
  exists frame, wire, frame'. exact (conj eq_refl (conj Ew (conj E1 E2))).
Defined.
