(* ===== verification/Address.v ===== *)
(** * Entity addresses

    Models [src/src/protocol/features.rs] and the wire part of
    [src/src/protocol/address.rs]: feature masks, entity addresses in their
    legacy and current encodings, and address vectors. *)

From S2P Require Import Prelude Codec.
From Stdlib Require Import ZArith Lia Strings.Byte.
From stdpp Require Import base option gmap sorting numbers list.

Open Scope Z_scope.

(** ** Feature masks *)

Definition MONITOR_NAMES : Z := Z.shiftl 1 5.
Definition MONITOR_ENCODING : Z := Z.shiftl 1 15.
Definition PGID64 : Z := Z.shiftl 1 9.
Definition SERVER_NAUTILUS : Z := Z.shiftl 1 2.
Definition SERVER_MIMIC_INCARNATION : Z := Z.lor (Z.shiftl 1 57) (Z.shiftl 1 28).
Definition SERVER_NAUTILUS_MASK : Z := Z.lor SERVER_NAUTILUS SERVER_MIMIC_INCARNATION.
Definition SERVER_OCTOPUS_MASK : Z := Z.lor (Z.shiftl 1 16) SERVER_MIMIC_INCARNATION.
Definition MESSAGE_ADDRESS_V2 : Z := Z.shiftl 1 59.
Definition OSD_REPLY_MUX : Z := Z.shiftl 1 12.
Definition NEW_OSD_OP_ENCODING : Z := Z.shiftl 1 56.
Definition NEW_OSD_OP_REPLY_ENCODING : Z := Z.shiftl 1 58.
Definition CRUSH_V2 : Z := Z.shiftl 1 36.
Definition RESERVED : Z := Z.shiftl 1 62.
Definition OSD_MAP_ENCODING : Z := 0x0f04088090212a04.
Definition MONITOR_CLIENT : Z := 0x2f070a92d235ea24.
Definition OSD_CLIENT : Z := 0x2f070a92d235fa24.

(** [MessengerFeatures]. *)
Definition REVISION_1 : Z := Z.shiftl 1 0.
Definition COMPRESSION : Z := Z.shiftl 1 1.

(** [GlobalFeatures::contains] and [MessengerFeatures::contains]. *)
Definition contains (features mask : Z) : bool := Z.land features mask =? mask.

(** ** Addresses *)

Definition AF_UNSPEC : Z := 0.
Definition AF_INET : Z := 2.
Definition AF_INET6 : Z := 10.
Definition LEGACY_SOCKADDR_SIZE : Z := 128.

(** [AddressType]. *)
Definition AT_NONE : Z := 0.
Definition AT_LEGACY : Z := 1.
Definition AT_V2 : Z := 2.
Definition AT_ANY : Z := 3.

Record EntityAddr : Type := mkEntityAddr {
  address_type : Z;
  nonce : Z;
  family : Z;
  socket_data : list byte;
  legacy_encoding : bool
}.

(** [PartialEq for EntityAddr] ignores the encoding the address came in. *)
Definition EntityAddr_eq (a b : EntityAddr) : bool :=
  (address_type a =? address_type b) && (nonce a =? nonce b) && (family a =? family b)
  && bool_decide (socket_data a = socket_data b).

Definition has_same_endpoint (a b : EntityAddr) : bool :=
  negb (family a =? AF_UNSPEC) && (family a =? family b)
  && bool_decide (socket_data a = socket_data b).

Definition encoding_features (a : EntityAddr) : Z :=
  if legacy_encoding a then 0 else Z.lor MESSAGE_ADDRESS_V2 SERVER_NAUTILUS_MASK.

Definition socket_data_length (fam : Z) : result WireError Z :=
  if fam =? AF_INET then Ok 14
  else if (fam =? AF_UNSPEC) || (fam =? AF_INET6) then Ok 26
  else Err Malformed.

(** A socket address: 4 or 16 address bytes and a port. *)
Inductive SocketAddr : Type :=
| SA_V4 (octets : list byte) (port : Z)
| SA_V6 (octets : list byte) (port : Z).

(** [buffer[offset..offset + bytes.len()].copy_from_slice(bytes)]. *)
Definition copy_at (buffer : list byte) (offset : nat) (bytes : list byte) : list byte :=
  take offset buffer ++ bytes ++ drop (offset + length bytes) buffer.

Definition entity_addr_from_endpoint (type nonce_ : Z) (endpoint : SocketAddr) : EntityAddr :=
  match endpoint with
  | SA_V4 octets port =>
      mkEntityAddr type nonce_ AF_INET
        (copy_at (copy_at (replicate 14 x00) 0 (be_bytes 2 port)) 2 octets) false
  | SA_V6 octets port =>
      mkEntityAddr type nonce_ AF_INET6
        (copy_at (copy_at (replicate 26 x00) 0 (be_bytes 2 port)) 6 octets) false
  end.

Definition ipv4_v2 (endpoint : SocketAddr) : result WireError EntityAddr :=
  match endpoint with
  | SA_V4 octets port =>
      Ok (mkEntityAddr AT_V2 0 AF_INET
            (copy_at (copy_at (replicate 14 x00) 0 (be_bytes 2 port)) 2 octets) false)
  | SA_V6 _ _ => Err Malformed
  end.

Definition with_nonce (a : EntityAddr) (n : Z) : EntityAddr :=
  mkEntityAddr (address_type a) n (family a) (socket_data a) (legacy_encoding a).

Definition is_v2 (a : EntityAddr) : bool := address_type a =? AT_V2.

(** The IPv4 case indexes [socket_data[2]] to [socket_data[5]] directly. *)
Inductive IndexPanic : Type := IndexOutOfBounds.

Definition endpoint (a : EntityAddr) : result IndexPanic (option SocketAddr) :=
  if zlen (socket_data a) <? 2 then Ok None
  else
    let port := be_value (take 2 (socket_data a)) in
    if family a =? AF_INET then
      if zlen (socket_data a) <? 6 then Err IndexOutOfBounds
      else Ok (Some (SA_V4 (take 4 (drop 2 (socket_data a))) port))
    else if family a =? AF_INET6 then
      if zlen (socket_data a) <? 22 then Ok None
      else Ok (Some (SA_V6 (take 16 (drop 6 (socket_data a))) port))
    else Ok None.

(** ** Encoding *)

Definition EntityAddr_encode (a : EntityAddr) (e : Encoder) (features : Z)
    : result WireError Encoder :=
  n ← socket_data_length (family a);
  if negb (zlen (socket_data a) =? n) then Err Malformed
  else if negb (contains features MESSAGE_ADDRESS_V2) then
    let e := Encoder_u32 e 0 in
    let e := Encoder_u32 e (nonce a) in
    let socket := copy_at (copy_at (replicate 128 x00) 0 (be_bytes 2 (family a))) 2 (socket_data a) in
    Ok (Encoder_raw e socket)
  else
    let type := if (address_type a =? AT_ANY) && negb (contains features SERVER_NAUTILUS_MASK)
                then AT_LEGACY else address_type a in
    let e := Encoder_u8 e 1 in
    Ok (Encoder_versioned e 1 1 (fun payload =>
          let payload := Encoder_u32 payload type in
          let payload := Encoder_u32 payload (nonce a) in
          let payload := Encoder_u32 payload (2 + zlen (socket_data a)) in
          let payload := Encoder_u16 payload (family a) in
          Encoder_raw payload (socket_data a))).

Fixpoint encode_addresses (l : list EntityAddr) (e : Encoder) (features : Z)
    : result WireError Encoder :=
  match l with
  | [] => Ok e
  | a :: l => e ← EntityAddr_encode a e features; encode_addresses l e features
  end.

(** The address written for a vector without a legacy address. *)
Definition blank_address (legacy : bool) : EntityAddr :=
  mkEntityAddr AT_NONE 0 AF_UNSPEC (replicate 26 x00) legacy.

Definition EntityAddrVec_encode (l : list EntityAddr) (e : Encoder) (features : Z)
    : result WireError Encoder :=
  if negb (contains features MESSAGE_ADDRESS_V2) then
    match list_find (fun a => address_type a = AT_LEGACY) l with
    | Some (_, a) => EntityAddr_encode a e 0
    | None => EntityAddr_encode (blank_address true) e 0
    end
  else
    let e := Encoder_u8 e 2 in
    n ← ok_or (try_u 32 (zlen l)) LimitExceeded;
    encode_addresses l (Encoder_u32 e n) features.

(** ** Decoding *)

(** A fallible pure step within a decoder. *)
Definition lift {E A} (r : result E A) : DM E A := fun d => a ← r; Ok (a, d).

(** The versioned form, from the payload decoder. *)
Definition decode_payload_address (payload : Decoder) : DM WireError EntityAddr :=
  let '(type, payload) := Decoder_u32 payload in
  let '(nonce_, payload) := Decoder_u32 payload in
  let '(encoded_length, payload) := Decoder_u32 payload in
  if encoded_length =? 0 then
    _ ← lift (Decoder_finish payload);
    _ ← finish_with id;
    mret (mkEntityAddr type nonce_ AF_UNSPEC (replicate 26 x00) false)
  else if encoded_length <? 2 then throw Malformed
  else
    let '(fam, payload) := Decoder_u16 payload in
    maximum ← lift (socket_data_length fam);
    let data_length := encoded_length - 2 in
    if maximum <? data_length then throw Malformed
    else
      let '(encoded, payload) := Decoder_raw payload data_length in
      let socket := copy_at (replicate (Z.to_nat maximum) x00) 0 encoded in
      _ ← lift (Decoder_finish payload);
      _ ← finish_with id;
      mret (mkEntityAddr type nonce_ fam socket false).

Definition decode_after_marker (marker : Z) : DM WireError EntityAddr :=
  if marker =? 0 then
    _ ← rd (fun d => Decoder_raw d 3);
    nonce_ ← rd Decoder_u32;
    socket ← rd (fun d => Decoder_raw d LEGACY_SOCKADDR_SIZE);
    _ ← finish_with id;
    let fam := be_value (take 2 socket) in
    n ← lift (socket_data_length fam);
    mret (mkEntityAddr (if fam =? AF_UNSPEC then AT_NONE else AT_LEGACY) nonce_ fam
            (take (Z.to_nat n) (drop 2 socket)) true)
  else if marker =? 1 then
    '(_, payload) ← rd (fun d => Decoder_versioned d 1);
    decode_payload_address payload
  else throw Malformed.

Definition EntityAddr_decode : DM WireError EntityAddr :=
  marker ← rd Decoder_u8;
  _ ← finish_with id;
  decode_after_marker marker.

Definition EntityAddrVec_decode (max_addrs : Z) : DM WireError (list EntityAddr) :=
  marker ← rd Decoder_u8;
  _ ← finish_with id;
  if marker <? 2 then a ← decode_after_marker marker; mret [a]
  else if negb (marker =? 2) then throw Malformed
  else
    count ← rd Decoder_u32;
    _ ← throw_if (max_addrs <? count) LimitExceeded;
    left_ ← remaining;
    _ ← throw_if (left_ <? count) Malformed;
    l ← repeat_read (Z.to_nat count) EntityAddr_decode;
    _ ← finish_with id;
    mret l.

(** ** Images *)

(** The addresses the client builds and accepts: fields of their width, and as
    many socket bytes as the family has. *)
Definition address_ok (a : EntityAddr) : Prop :=
  in_u 32 (address_type a) /\ in_u 32 (nonce a)
  /\ socket_data_length (family a) = Ok (zlen (socket_data a)).

(** What a peer with [features] sees of an address. *)
Definition address_seen (features : Z) (a : EntityAddr) : EntityAddr :=
  if contains features MESSAGE_ADDRESS_V2 then
    mkEntityAddr
      (if (address_type a =? AT_ANY) && negb (contains features SERVER_NAUTILUS_MASK)
       then AT_LEGACY else address_type a)
      (nonce a) (family a) (socket_data a) false
  else
    mkEntityAddr (if family a =? AF_UNSPEC then AT_NONE else AT_LEGACY)
      (nonce a) (family a) (socket_data a) true.

(** The socket address of the legacy encoding. *)
Definition legacy_socket (a : EntityAddr) : list byte :=
  be_bytes 2 (family a) ++ socket_data a ++ replicate (126 - length (socket_data a)) x00.

Definition address_payload (a : EntityAddr) : list byte :=
  le_bytes 4 (address_type a) ++ le_bytes 4 (nonce a)
  ++ le_bytes 4 (2 + zlen (socket_data a)) ++ le_bytes 2 (family a) ++ socket_data a.

Definition address_image (features : Z) (a : EntityAddr) : list byte :=
  if contains features MESSAGE_ADDRESS_V2 then
    le_bytes 1 1 ++ versioned_image 1 1 (address_payload (address_seen features a))
  else le_bytes 4 0 ++ le_bytes 4 (nonce a) ++ legacy_socket a.

Definition vec_image (features : Z) (l : list EntityAddr) : list byte :=
  le_bytes 1 2 ++ le_bytes 4 (zlen l) ++ concat (map (address_image features) l).

Lemma address_family a : address_ok a ->
  in_u 16 (family a) /\ (zlen (socket_data a) = 14 \/ zlen (socket_data a) = 26).
Proof.
  intros (_ & _ & H). unfold socket_data_length, AF_INET, AF_UNSPEC, AF_INET6, in_u in *.
  repeat split_if; bool_prop; try apply Ok_inj in H; try discriminate H; split; lia.
Qed.

Lemma length_be_bytes n z : length (be_bytes n z) = n.
Proof. unfold be_bytes. by rewrite length_rev, length_le_bytes. Qed.

Lemma be_value_bytes n z : be_value (be_bytes n z) = z mod 2 ^ (8 * Z.of_nat n).
Proof. unfold be_value, be_bytes. by rewrite rev_involutive, le_value_bytes. Qed.

Lemma legacy_socket_copy a :
  address_ok a ->
  copy_at (copy_at (replicate 128 x00) 0 (be_bytes 2 (family a))) 2 (socket_data a)
  = legacy_socket a.
Proof.
  intros H. apply address_family in H as [_ H]. unfold copy_at, legacy_socket, zlen in *.
  rewrite length_be_bytes, take_0, app_nil_l, take_app_length' by (by rewrite length_be_bytes).
  do 2 f_equal. rewrite drop_app_ge by (rewrite length_be_bytes; lia).
  rewrite length_be_bytes, drop_drop, drop_replicate. f_equal. lia.
Qed.

Lemma zlen_legacy_socket a : address_ok a -> zlen (legacy_socket a) = 128.
Proof.
  intros H. apply address_family in H as [_ H]. unfold zlen, legacy_socket in *.
  rewrite !length_app, length_be_bytes, length_replicate. lia.
Qed.

Lemma address_seen_ok features a : address_ok a -> address_ok (address_seen features a).
Proof.
  intros (Ht & Hn & Hs). unfold address_seen, address_ok, AT_ANY, AT_LEGACY, AT_NONE.
  unfold in_u in *. split_if; simpl; split_and!; first [done|lia].
Qed.

Lemma zlen_address_payload a : zlen (address_payload a) = 14 + zlen (socket_data a).
Proof. unfold address_payload. autorewrite with zlen. lia. Qed.

Lemma address_payload_encode a e :
  address_ok a -> fits e (address_payload a) ->
  Encoder_raw (Encoder_u16 (Encoder_u32 (Encoder_u32 (Encoder_u32 e (address_type a)) (nonce a))
    (2 + zlen (socket_data a))) (family a)) (socket_data a)
  = written e (address_payload a).
Proof.
  intros Ha Hf. pose proof (address_family _ Ha) as [Hfam Hlen].
  destruct Ha as (Ht & Hn & _). unfold address_payload in *.
  assert (in_u 32 (2 + zlen (socket_data a))) by (unfold in_u; lia).
  apply fits_app in Hf as [F1 Hf]. rewrite (put_image (put := Encoder_u32) e (address_type a)) by done.
  apply fits_app in Hf as [F2 Hf]. rewrite (put_image (put := Encoder_u32) _ (nonce a)) by done.
  apply fits_app in Hf as [F3 Hf]. rewrite (put_image (put := Encoder_u32)) by done.
  apply fits_app in Hf as [F4 Hf]. rewrite (put_image (put := Encoder_u16)) by done.
  rewrite Encoder_raw_fits by done. by rewrite !written_app.
Qed.

Lemma address_versioned_encode a e :
  address_ok a -> fits e (versioned_image 1 1 (address_payload a)) ->
  Encoder_versioned e 1 1 (fun payload =>
    Encoder_raw (Encoder_u16 (Encoder_u32 (Encoder_u32 (Encoder_u32 payload (address_type a))
      (nonce a)) (2 + zlen (socket_data a))) (family a)) (socket_data a))
  = written e (versioned_image 1 1 (address_payload a)).
Proof.
  intros Ha Hf. pose proof (address_family _ Ha) as [_ Hlen].
  pose proof (zlen_address_payload a) as Hp. apply Encoder_versioned_image; try done.
  - unfold in_u. lia.
  - apply address_payload_encode; [done|]. destruct Hf as [_ Hf]. split; [done|].
    unfold versioned_image in Hf. autorewrite with zlen in Hf. simpl.
    pose proof (zlen_nonneg (enc_bytes e)). change (zlen (@nil byte)) with 0.
    unfold u32_max. lia.
Qed.

Lemma address_encode_image features a e :
  address_ok a -> fits e (address_image features a) ->
  EntityAddr_encode a e features = Ok (written e (address_image features a)).
Proof.
  intros Ha Hf. pose proof (address_seen_ok features _ Ha) as Ha'.
  pose proof Ha as (_ & Hn & Hs). unfold EntityAddr_encode, address_image in *.
  rewrite Hs, bind_Ok, Z.eqb_refl. cbn [negb].
  destruct (contains features MESSAGE_ADDRESS_V2) eqn:Hc; cbn [negb].
  - apply fits_app in Hf as [F1 Hf]. rewrite (put_image (put := Encoder_u8) e) by done.
    pose proof (address_versioned_encode _ _ Ha' Hf) as H.
    unfold address_seen in *. rewrite Hc in *. cbn [address_type nonce socket_data family] in H.
    by rewrite H, written_app.
  - apply fits_app in Hf as [F1 Hf]. rewrite (put_image (put := Encoder_u32) e 0) by done.
    apply fits_app in Hf as [F2 Hf]. rewrite (put_image (put := Encoder_u32)) by done.
    rewrite legacy_socket_copy by done.
    rewrite Encoder_raw_fits by done. by rewrite !written_app.
Qed.

(** A raw read of the next bytes. *)
Lemma raw_step {E B} (k : list byte -> DM E B) d p rest n :
  n = zlen p -> unread d (p ++ rest) ->
  (rd (fun d => Decoder_raw d n) ≫= k) d = k p (advanced d n).
Proof.
  intros -> Hu. unfold mbind, DM_bind, rd, Decoder_raw. by rewrite (Decoder_take_unread _ _ _ Hu).
Qed.

Lemma lift_Ok {E A B} (a : A) (k : A -> DM E B) d : (lift (Ok a) ≫= k) d = k a d.
Proof. done. Qed.

Lemma decode_payload_image a max d rest :
  address_ok a -> unread d rest ->
  decode_payload_address (Decoder_new (address_payload a) max) d
  = Ok (mkEntityAddr (address_type a) (nonce a) (family a) (socket_data a) false, d).
Proof.
  intros Ha Hd. pose proof (address_family _ Ha) as [Hfam Hlen].
  destruct Ha as (Ht & Hn & Hs). assert (in_u 32 (2 + zlen (socket_data a))) by (unfold in_u; lia).
  assert (unread (Decoder_new (address_payload a) max) (address_payload a ++ [])) as Hu.
  { by rewrite app_nil_r. }
  unfold decode_payload_address. unfold address_payload in Hu at 2. rewrite <- !app_assoc in Hu.
  rewrite (get_image (get := Decoder_u32) _ _ _ Ht I Hu). apply unread_app in Hu.
  rewrite (get_image (get := Decoder_u32) _ _ _ Hn I Hu). apply unread_app in Hu.
  rewrite (get_image (get := Decoder_u32) _ _ _ H I Hu). apply unread_app in Hu.
  rewrite (proj2 (Z.eqb_neq _ _)) by lia. rewrite (proj2 (Z.ltb_ge _ _)) by lia.
  rewrite (get_image (get := Decoder_u16) _ _ _ Hfam I Hu). apply unread_app in Hu.
  rewrite Hs, lift_Ok. replace (2 + zlen (socket_data a) - 2) with (zlen (socket_data a)) by lia.
  rewrite Z.ltb_irrefl. unfold Decoder_raw. rewrite (Decoder_take_unread _ _ _ Hu).
  unfold Decoder_finish at 1. cbn [advanced Decoder_new dec_error].
  rewrite lift_Ok, (finish_with_unread _ _ _ _ Hd).
  unfold copy_at. rewrite take_0, app_nil_l, drop_ge, app_nil_r; [done|].
  rewrite length_replicate. unfold zlen. lia.
Qed.

Lemma decode_modern_image a d rest :
  address_ok a -> 40 <= dec_max_bytes d ->
  unread d (versioned_image 1 1 (address_payload a) ++ rest) ->
  decode_after_marker 1 d
  = Ok (mkEntityAddr (address_type a) (nonce a) (family a) (socket_data a) false,
        advanced d (zlen (versioned_image 1 1 (address_payload a)))).
Proof.
  intros Ha Hmax Hu. pose proof (address_family _ Ha) as [_ Hlen].
  pose proof (zlen_address_payload a) as Hp. unfold decode_after_marker.
  cbn [Z.eqb Pos.eqb]. unfold mbind, DM_bind, rd at 1.
  rewrite (Decoder_versioned_image d 1 1 1 (address_payload a) rest);
    [|done|done|unfold in_u; lia|lia|lia|done].
  apply unread_app in Hu. by eapply decode_payload_image.
Qed.

Lemma decode_legacy_image a d rest :
  address_ok a -> unread d (le_bytes 3 0 ++ le_bytes 4 (nonce a) ++ legacy_socket a ++ rest) ->
  decode_after_marker 0 d
  = Ok (mkEntityAddr (if family a =? AF_UNSPEC then AT_NONE else AT_LEGACY)
          (nonce a) (family a) (socket_data a) true, advanced d 135).
Proof.
  intros Ha Hu. pose proof (address_family _ Ha) as [Hfam Hlen].
  pose proof (zlen_legacy_socket _ Ha) as Hz. destruct Ha as (_ & Hn & Hs).
  unfold decode_after_marker. cbn [Z.eqb].
  rewrite (raw_step _ d (le_bytes 3 0) _ 3 eq_refl Hu). apply unread_app in Hu.
  change (advanced d 3) with (advanced d (zlen (le_bytes 3 0))).
  read_step. rewrite (raw_step _ _ (legacy_socket a) rest _ (eq_sym Hz) Hu).
  apply unread_app in Hu. rewrite Hz in Hu. rewrite (finish_with_unread _ _ _ _ Hu).
  assert (be_value (take 2 (legacy_socket a)) = family a) as ->.
  { unfold legacy_socket. rewrite take_app_length' by (by rewrite length_be_bytes).
    rewrite be_value_bytes. apply Z.mod_small. done. }
  rewrite Hs, lift_Ok. unfold legacy_socket. rewrite drop_app_length' by (by rewrite length_be_bytes).
  unfold zlen at 1. rewrite Nat2Z.id, take_app_length.
  unfold mret, DM_ret, advanced. simpl. do 3 f_equal. rewrite !zlen_le_bytes.
  unfold LEGACY_SOCKADDR_SIZE. lia.
Qed.

Lemma address_decode_image features a d rest :
  address_ok a -> 40 <= dec_max_bytes d -> unread d (address_image features a ++ rest) ->
  EntityAddr_decode d
  = Ok (address_seen features a, advanced d (zlen (address_image features a))).
Proof.
  intros Ha Hmax Hu. unfold EntityAddr_decode.
  pose proof (address_seen_ok features _ Ha) as Ha'. unfold address_image in *.
  destruct (contains features MESSAGE_ADDRESS_V2) eqn:Hc.
  - rewrite <- app_assoc in Hu. read_step. rewrite (finish_with_unread _ _ _ _ Hu).
    rewrite (decode_modern_image _ _ rest Ha') by done.
    unfold address_seen, advanced. rewrite Hc. simpl. do 3 f_equal.
    autorewrite with zlen. lia.
  - change (le_bytes 4 0) with (le_bytes 1 0 ++ le_bytes 3 0) in *.
    rewrite <- !app_assoc in Hu. read_step. rewrite (finish_with_unread _ _ _ _ Hu).
    rewrite (decode_legacy_image _ _ _ Ha Hu). unfold address_seen, advanced. rewrite Hc. simpl.
    do 3 f_equal. autorewrite with zlen. rewrite zlen_legacy_socket by done. lia.
Qed.

Lemma encode_addresses_image features l : forall e,
  Forall address_ok l -> fits e (concat (map (address_image features) l)) ->
  encode_addresses l e features = Ok (written e (concat (map (address_image features) l))).
Proof.
  induction l as [|a l IH]; intros e Hl Hf; cbn [map concat encode_addresses] in *.
  - unfold written. rewrite app_nil_r. by destruct e.
  - inversion Hl; subst. apply fits_app in Hf as [F1 F2].
    rewrite address_encode_image, bind_Ok, IH by done. by rewrite written_app.
Qed.

Lemma repeat_addresses_image features l : forall d rest,
  Forall address_ok l -> 40 <= dec_max_bytes d ->
  unread d (concat (map (address_image features) l) ++ rest) ->
  repeat_read (length l) EntityAddr_decode d
  = Ok (map (address_seen features) l,
        advanced d (zlen (concat (map (address_image features) l)))).
Proof.
  induction l as [|a l IH]; intros d rest Hl Hmax Hu; cbn [map concat length repeat_read] in *.
  - unfold mret, DM_ret, advanced. change (zlen (@nil byte)) with 0. rewrite Z.add_0_r. by destruct d.
  - inversion Hl; subst. rewrite <- app_assoc in Hu.
    rewrite (DM_bind_Ok _ _ _ _ _ (address_decode_image _ _ _ _ H1 Hmax Hu)).
    apply unread_app in Hu. rewrite (DM_bind_Ok _ _ _ _ _ (IH (advanced d _) _ H2 Hmax Hu)).
    unfold mret, DM_ret, advanced. simpl. do 3 f_equal. rewrite zlen_app. lia.
Qed.

Lemma address_image_nonempty features a : 1 <= zlen (address_image features a).
Proof.
  unfold address_image. split_if; autorewrite with zlen;
    pose proof (zlen_nonneg (versioned_image 1 1 (address_payload (address_seen features a))));
    pose proof (zlen_nonneg (legacy_socket a)); lia.
Qed.

Lemma images_count features l : zlen l <= zlen (concat (map (address_image features) l)).
Proof.
  induction l as [|a l IH]; [done|]. cbn [map concat]. autorewrite with zlen.
  pose proof (address_image_nonempty features a). lia.
Qed.

Lemma vec_encode_image features l e :
  contains features MESSAGE_ADDRESS_V2 = true -> in_u 32 (zlen l) ->
  Forall address_ok l -> fits e (vec_image features l) ->
  EntityAddrVec_encode l e features = Ok (written e (vec_image features l)).
Proof.
  intros Hc Hn Hl Hf. unfold EntityAddrVec_encode, vec_image in *. rewrite Hc. cbn [negb].
  apply fits_app in Hf as [F1 Hf]. rewrite (put_image (put := Encoder_u8) e) by done.
  unfold try_u. pose proof Hn as Hn'. unfold in_u in Hn'.
  rewrite (proj2 (Z.leb_le _ _)), (proj2 (Z.ltb_lt _ _)) by lia. cbn [andb].
  rewrite ok_or_Some, bind_Ok.
  apply fits_app in Hf as [F2 Hf]. rewrite (put_image (put := Encoder_u32)) by done.
  rewrite encode_addresses_image by done. by rewrite !written_app.
Qed.

Lemma vec_decode_image features l max_addrs d rest :
  contains features MESSAGE_ADDRESS_V2 = true -> in_u 32 (zlen l) -> zlen l <= max_addrs ->
  Forall address_ok l -> 40 <= dec_max_bytes d -> unread d (vec_image features l ++ rest) ->
  EntityAddrVec_decode max_addrs d
  = Ok (map (address_seen features) l, advanced d (zlen (vec_image features l))).
Proof.
  intros Hc Hn Hm Hl Hmax Hu. unfold EntityAddrVec_decode, vec_image in *.
  rewrite <- !app_assoc in Hu. read_step. rewrite (finish_with_unread _ _ _ _ Hu).
  cbn [Z.ltb Z.eqb Z.compare Pos.compare Pos.compare_cont Pos.eqb negb]. read_step.
  rewrite throw_if_false by (apply Z.ltb_ge; lia). rewrite (remaining_unread _ _ _ Hu).
  pose proof (images_count features l). pose proof (zlen_nonneg rest).
  rewrite throw_if_false by (apply Z.ltb_ge; rewrite zlen_app; lia).
  unfold zlen at 1. rewrite Nat2Z.id.
  rewrite (DM_bind_Ok _ _ _ _ _ (repeat_addresses_image _ _ (advanced (advanced d _) _) _ Hl Hmax Hu)).
  apply unread_app in Hu. rewrite (finish_with_unread _ _ _ _ Hu).
  unfold mret, DM_ret, advanced. simpl. do 3 f_equal. autorewrite with zlen. lia.
Qed.

Lemma lift_inv {E A} (r : result E A) d a d' : lift r d = Ok (a, d') -> r = Ok a /\ d' = d.
Proof. unfold lift. intros H. ok_inv. by subst. Qed.

Lemma finish_inv {E} (conv : WireError -> E) d u d' :
  finish_with conv d = Ok (u, d') -> d' = d /\ dec_error d = None.
Proof.
  unfold finish_with, Decoder_finish. destruct (dec_error d); [done|]. intros H.
  apply Ok_inj in H. by injection H as _ <-.
Qed.

Lemma uint_range n d v d' :
  cursor_ok d -> Decoder_uint n d = (v, d') -> cursor_ok d' /\ in_u (8 * Z.of_nat n) v.
Proof. intros C H. destruct (Decoder_uint_spec _ _ _ _ C H) as (R & Hv & _). split; [apply R|done]. Qed.

Lemma take_exact n d p d' :
  cursor_ok d -> 0 <= n -> Decoder_take d n = (p, d') ->
  cursor_ok d' /\ (dec_error d' = None -> zlen p = n).
Proof.
  intros C Hn H. destruct (Decoder_take_spec _ _ _ _ C Hn H) as (R & Hp & _).
  split; [apply R|]. intros He. by apply Hp.
Qed.

Lemma versioned_cursor d local v payload d' :
  Decoder_versioned d local = ((v, payload), d') -> cursor_ok payload.
Proof.
  assert (forall l m, cursor_ok (Decoder_new l m)) as Hnew.
  { intros l m. unfold cursor_ok. simpl. pose proof (zlen_nonneg l). lia. }
  unfold Decoder_versioned. destruct (Decoder_u8 d) as [? d1], (Decoder_u8 d1) as [? d2].
  destruct (Decoder_u32 d2) as [? d3]. destruct (dec_error d3); [|split_if];
    try (destruct (Decoder_take _ _)); intros H; injection H as _ <- _; apply Hnew.
Qed.

Lemma decode_payload_ok payload d a d' :
  cursor_ok payload -> decode_payload_address payload d = Ok (a, d') ->
  address_ok a /\ legacy_encoding a = false.
Proof.
  intros C. unfold decode_payload_address. destruct (Decoder_u32 payload) as [t p1] eqn:R1.
  destruct (Decoder_u32 p1) as [n p2] eqn:R2. destruct (Decoder_u32 p2) as [k p3] eqn:R3.
  apply uint_range in R1 as [C1 Ht]; [|done]. apply uint_range in R2 as [C2 Hn]; [|done].
  apply uint_range in R3 as [C3 _]; [|done]. intros H. destruct (k =? 0).
  - dm_inv. by split.
  - destruct (k <? 2) eqn:Hk; [done|]. destruct (Decoder_u16 p3) as [f p4] eqn:R4.
    apply uint_range in R4 as [C4 _]; [|done].
    apply DM_bind_inv in H as (m & d1 & Hm & H). apply lift_inv in Hm as [Hm ->].
    destruct (m <? k - 2) eqn:Hlt; [done|]. destruct (Decoder_raw p4 (k - 2)) as [enc p5] eqn:Hr.
    dm_inv. apply lift_inv in R as [R _]. split; [|done]. split_and!; [done|done|]. simpl. rewrite Hm. f_equal.
    bool_prop. apply take_exact in Hr as [_ Hr]; [|done|lia].
    unfold Decoder_finish in R. destruct (dec_error p5) eqn:He; [done|]. specialize (Hr eq_refl).
    unfold copy_at, zlen in *. rewrite !length_app, length_take, length_drop, length_replicate. lia.
Qed.

Lemma decode_after_marker_ok marker d a d' :
  cursor_ok d -> decode_after_marker marker d = Ok (a, d') ->
  address_ok a /\ address_seen (encoding_features a) a = a.
Proof.
  intros C. unfold decode_after_marker. destruct (marker =? 0).
  - intros H. dm_inv. apply finish_inv in R2 as [-> He]. apply lift_inv in R3 as [Hs ->].
    apply take_exact in R as [C0 _]; [|done|done]. apply uint_range in R0 as [C1 Hn]; [|done].
    apply take_exact in R1 as [_ R1]; [|done|done]. specialize (R1 He).
    assert (v3 = 14 \/ v3 = 26) as Hv.
    { unfold socket_data_length in Hs. split_if; apply Ok_inj in Hs; lia. }
    split; [|done]. split_and!; [|done|].
    + simpl. by destruct (_ =? _).
    + simpl. rewrite Hs. f_equal. unfold zlen, LEGACY_SOCKADDR_SIZE in *.
      rewrite length_take, length_drop. lia.
  - destruct (marker =? 1); [|done]. intros H. dm_inv. apply decode_payload_ok in H as [Ha Hl];
      [|by eapply versioned_cursor].
    split; [done|]. unfold encoding_features, address_seen. rewrite Hl.
    change (contains _ MESSAGE_ADDRESS_V2) with true.
    change (contains _ SERVER_NAUTILUS_MASK) with true. rewrite andb_false_r.
    destruct a. simpl in *. by subst.
Qed.

Lemma zlen_address_image features a : address_ok a -> zlen (address_image features a) <= 136.
Proof.
  intros Ha. pose proof (address_family _ Ha) as [_ Hlen]. unfold address_image, versioned_image.
  split_if; autorewrite with zlen; rewrite ?zlen_address_payload, ?zlen_legacy_socket by done.
  - unfold address_seen. rewrite Heqb. simpl. lia.
  - lia.
Qed.

Lemma new_fits limit p : zlen p <= limit -> fits (Encoder_new limit) p.
Proof. intros H. split; [done|]. simpl. change (zlen (@nil byte)) with 0. lia. Qed.

Lemma new_unread p max : unread (Decoder_new p max) p.
Proof. done. Qed.

Lemma endpoint_total a : address_ok a -> exists r, endpoint a = Ok r.
Proof.
  intros Ha. pose proof (address_family _ Ha) as [_ Hlen]. unfold endpoint.
  split_if; bool_prop; eauto. lia.
Qed.

Definition address_check (octets : list byte) (port : Z) : EntityAddr :=
  entity_addr_from_endpoint AT_V2 7 (SA_V4 octets port).

(** ** Properties *)

(** Address vectors survive the wire: under features with the address
    encoding of the messenger, a vector of well-formed addresses is encoded
    without error, and decoding what was written, whatever follows it, gives
    the same addresses (an ANY address as LEGACY when the peer is older than
    Nautilus) and stands behind the last of them. *)
Theorem address_vec_roundtrip features l e max_addrs max rest :
  contains features MESSAGE_ADDRESS_V2 = true -> Forall address_ok l ->
  in_u 32 (zlen l) -> zlen l <= max_addrs -> 40 <= max ->
  fits e (vec_image features l) ->
  exists e', EntityAddrVec_encode l e features = Ok e' /\
  exists d, EntityAddrVec_decode max_addrs
      (Decoder_new (drop (length (enc_bytes e)) (enc_bytes e') ++ rest) max)
    = Ok (map (address_seen features) l, d) /\ unread d rest.
Proof.
  intros Hc Hl Hn Hm Hmax Hf. eexists. split; [by apply vec_encode_image|].
  cbn [written enc_bytes]. rewrite drop_app_length. eexists.
  pose proof (new_unread (vec_image features l ++ rest) max) as Hu.
  split; [by eapply vec_decode_image|]. by apply unread_app.
Qed.

Lemma address_vec_roundtrip_witness :
  let features := MONITOR_CLIENT in
  let l := [address_check [x7f; x00; x00; x01] 6789; blank_address false] in
  exists e', EntityAddrVec_encode l (Encoder_new 200) features = Ok e' /\
  exists d, EntityAddrVec_decode 8 (Decoder_new (drop 0 (enc_bytes e') ++ [xff]) 64)
    = Ok (map (address_seen features) l, d) /\ unread d [xff].
Proof.
  intros features l. apply (address_vec_roundtrip features l (Encoder_new 200) 8 64 [xff]).
  - reflexivity.
  - repeat constructor; vm_compute; discriminate.
  - split; vm_compute; [discriminate|reflexivity].
  - vm_compute. discriminate.
  - lia.
  - split; [reflexivity|]. vm_compute. discriminate.
Defined.

(** What the decoder accepts is safe to use: an address decoded from
    arbitrary bytes has the socket bytes of its family, so [endpoint] does not
    index out of range, and encoding it under its own [encoding_features]
    succeeds and is decoded to the same address. *)
Theorem address_decode_stable bs max a d limit :
  EntityAddr_decode (Decoder_new bs max) = Ok (a, d) -> 136 <= limit ->
  (exists r, endpoint a = Ok r) /\
  exists e', EntityAddr_encode a (Encoder_new limit) (encoding_features a) = Ok e' /\
  exists d', EntityAddr_decode (Decoder_new (enc_bytes e') limit) = Ok (a, d')
    /\ Decoder_remaining d' = 0.
Proof.
  intros H Hl. unfold EntityAddr_decode in H. dm_inv. apply finish_inv in R0 as [-> _].
  assert (cursor_ok (Decoder_new bs max)) as C.
  { pose proof (zlen_nonneg bs). split; simpl; lia. }
  apply uint_range in R as [C0 _]; [|done]. apply decode_after_marker_ok in H as [Ha Hs]; [|done].
  split; [by apply endpoint_total|]. pose proof (zlen_address_image (encoding_features a) _ Ha).
  eexists. split; [apply address_encode_image; [done|]; apply new_fits; lia|].
  cbn [written enc_bytes Encoder_new app].
  pose proof (new_unread (address_image (encoding_features a) a ++ []) limit) as Hu.
  rewrite app_nil_r in Hu at 1. eexists. split.
  - pose proof (address_decode_image (encoding_features a) a
      (Decoder_new (address_image (encoding_features a) a) limit) []) as Hd.
    rewrite Hs in Hd. apply Hd; [done|simpl; lia|exact Hu].
  - apply unread_app in Hu. by rewrite (unread_remaining _ _ Hu).
Qed.

Lemma address_decode_stable_witness :
  let bs := address_image MONITOR_CLIENT (address_check [x0a; x00; x00; x02] 3300) in
  let a := address_check [x0a; x00; x00; x02] 3300 in
  (exists r, endpoint a = Ok r) /\
  exists e', EntityAddr_encode a (Encoder_new 200) (encoding_features a) = Ok e' /\
  exists d', EntityAddr_decode (Decoder_new (enc_bytes e') 200) = Ok (a, d')
    /\ Decoder_remaining d' = 0.
Proof.
  intros bs a. apply (address_decode_stable bs 64 a (advanced (Decoder_new bs 64) (zlen bs)) 200).
  - vm_compute. reflexivity.
  - lia.
Defined.

(** Endpoints survive the conversion to an address: for an IPv4 or IPv6
    socket address, the address built from it is well-formed and [endpoint]
    gives the socket address back. *)
Theorem endpoint_roundtrip type nonce_ octets port :
  in_u 32 type -> in_u 32 nonce_ -> in_u 16 port ->
  (length octets = 4%nat ->
     address_ok (entity_addr_from_endpoint type nonce_ (SA_V4 octets port))
     /\ endpoint (entity_addr_from_endpoint type nonce_ (SA_V4 octets port))
        = Ok (Some (SA_V4 octets port)))
  /\ (length octets = 16%nat ->
     address_ok (entity_addr_from_endpoint type nonce_ (SA_V6 octets port))
     /\ endpoint (entity_addr_from_endpoint type nonce_ (SA_V6 octets port))
        = Ok (Some (SA_V6 octets port))).
Proof.
  intros Ht Hn Hp. pose proof (length_be_bytes 2 port) as Hb.
  pose proof (be_value_bytes 2 port) as Hv. rewrite Z.mod_small in Hv by exact Hp.
  remember (be_bytes 2 port) as b eqn:Eb. destruct b as [|b0 [|b1 [|]]]; try discriminate Hb.
  split; intros Hl.
  - do 5 (destruct octets as [|? octets]; try discriminate Hl).
    unfold entity_addr_from_endpoint, address_ok, endpoint. cbn [address_type nonce family socket_data].
    rewrite <- Eb. cbn. rewrite Hv. by split_and!.
  - do 17 (destruct octets as [|? octets]; try discriminate Hl).
    unfold entity_addr_from_endpoint, address_ok, endpoint. cbn [address_type nonce family socket_data].
    rewrite <- Eb. cbn. rewrite Hv. by split_and!.
Qed.

Lemma endpoint_roundtrip_witness :
  address_ok (entity_addr_from_endpoint AT_V2 9 (SA_V4 [x7f; x00; x00; x01] 3300))
  /\ endpoint (entity_addr_from_endpoint AT_V2 9 (SA_V4 [x7f; x00; x00; x01] 3300))
     = Ok (Some (SA_V4 [x7f; x00; x00; x01] 3300)).
Proof.
  refine (proj1 (endpoint_roundtrip AT_V2 9 [x7f; x00; x00; x01] 3300 _ _ _) eq_refl);
    split; vm_compute; first [discriminate|reflexivity].
Defined.
