(* ===== verification/Control.v ===== *)
(** * Control frames

    Models [src/src/msgr/control.rs]: the control messages of the messenger
    handshake and session, and their translation to and from frames of one
    segment. *)

From S2P Require Import Prelude Codec Frame Address.
From Stdlib Require Import ZArith Lia Strings.Byte.
From stdpp Require Import base option gmap sorting numbers list.

Open Scope Z_scope.

Definition CONNECTION_FLAG_LOSSY : Z := 1.
Definition CONTROL_FEATURES : Z := Z.lor MESSAGE_ADDRESS_V2 SERVER_NAUTILUS_MASK.

(** ** Messages *)

Record Hello : Type := mkHello { entity_type : Z; peer_address : EntityAddr }.

Record ClientIdent : Type := mkClientIdent {
  ci_addresses : list EntityAddr;
  ci_target_address : EntityAddr;
  ci_global_id : Z;
  ci_global_sequence : Z;
  ci_supported_features : Z;
  ci_required_features : Z;
  ci_flags : Z;
  ci_cookie : Z
}.

Record ServerIdent : Type := mkServerIdent {
  si_addresses : list EntityAddr;
  si_global_id : Z;
  si_global_sequence : Z;
  si_supported_features : Z;
  si_required_features : Z;
  si_flags : Z;
  si_cookie : Z
}.

Record SessionReconnect : Type := mkSessionReconnect {
  sr_addresses : list EntityAddr;
  sr_client_cookie : Z;
  sr_server_cookie : Z;
  sr_global_sequence : Z;
  sr_connect_sequence : Z;
  sr_message_sequence : Z
}.

Record Timestamp : Type := mkTimestamp { seconds : Z; nanoseconds : Z }.

Record AuthRequest : Type := mkAuthRequest {
  ar_method : Z;
  ar_preferred_modes : list Z;
  ar_auth_payload : list byte
}.

Record AuthBadMethod : Type := mkAuthBadMethod {
  ab_method : Z;
  ab_result : Z;
  ab_allowed_methods : list Z;
  ab_allowed_modes : list Z
}.

Record AuthDone : Type := mkAuthDone {
  ad_global_id : Z;
  ad_connection_mode : Z;
  ad_auth_payload : list byte
}.

(** The one-field structs [IdentMissingFeatures], [SessionReset],
    [SessionRetry], [SessionRetryGlobal] and [SessionReconnectOk] are their
    field. *)
Inductive Control : Type :=
| C_Hello (v : Hello)
| C_ClientIdent (v : ClientIdent)
| C_ServerIdent (v : ServerIdent)
| C_IdentMissingFeatures (features : Z)
| C_SessionReconnect (v : SessionReconnect)
| C_SessionReset (full : bool)
| C_SessionRetry (connect_sequence : Z)
| C_SessionRetryGlobal (global_sequence : Z)
| C_SessionReconnectOk (message_sequence : Z)
| C_Wait
| C_Keepalive2 (t : Timestamp)
| C_Keepalive2Ack (t : Timestamp)
| C_Ack (sequence : Z)
| C_AuthRequest (v : AuthRequest)
| C_AuthBadMethod (v : AuthBadMethod)
| C_AuthReplyMore (payload : list byte)
| C_AuthRequestMore (payload : list byte)
| C_AuthDone (v : AuthDone)
| C_AuthSignature (signature : list byte)
| C_AuthPayload (tag : Tag) (payload : list byte).

Definition Control_tag (c : Control) : result FrameError Tag :=
  match c with
  | C_Hello _ => Ok T_Hello
  | C_ClientIdent _ => Ok T_ClientIdent
  | C_ServerIdent _ => Ok T_ServerIdent
  | C_IdentMissingFeatures _ => Ok T_IdentMissingFeatures
  | C_SessionReconnect _ => Ok T_SessionReconnect
  | C_SessionReset _ => Ok T_SessionReset
  | C_SessionRetry _ => Ok T_SessionRetry
  | C_SessionRetryGlobal _ => Ok T_SessionRetryGlobal
  | C_SessionReconnectOk _ => Ok T_SessionReconnectOk
  | C_Wait => Ok T_Wait
  | C_Keepalive2 _ => Ok T_Keepalive2
  | C_Keepalive2Ack _ => Ok T_Keepalive2Ack
  | C_Ack _ => Ok T_Ack
  | C_AuthRequest _ => Ok T_AuthRequest
  | C_AuthBadMethod _ => Ok T_AuthBadMethod
  | C_AuthReplyMore _ => Ok T_AuthReplyMore
  | C_AuthRequestMore _ => Ok T_AuthRequestMore
  | C_AuthDone _ => Ok T_AuthDone
  | C_AuthSignature _ => Ok T_AuthSignature
  | C_AuthPayload tag _ =>
      if (tag_u8 T_AuthRequest <=? tag_u8 tag) && (tag_u8 tag <=? tag_u8 T_AuthSignature)
      then Ok tag else Err FE_Malformed
  end.

(** ** Encoding *)

Definition check_addresses (l : list EntityAddr) (limits : Limits) : result FrameError unit :=
  if max_addresses limits <? zlen l then Err FE_LimitExceeded else Ok tt.

Definition check_auth_bytes (payload : list byte) (limits : Limits) : result FrameError unit :=
  if max_auth_bytes limits <? zlen payload then Err FE_LimitExceeded else Ok tt.

(** [count.checked_mul(4)] on [u32]. *)
Definition checked_mul4 (count : Z) : result FrameError Z :=
  ok_or (try_u 32 (count * 4)) FE_LimitExceeded.

Definition encode_u32_slice (e : Encoder) (values : list Z) (max_bytes : Z)
    : result FrameError Encoder :=
  count ← ok_or (try_u 32 (zlen values)) FE_LimitExceeded;
  bytes ← checked_mul4 count;
  if max_bytes <? bytes then Err FE_LimitExceeded
  else Ok (fold_left Encoder_u32 values (Encoder_u32 e count)).

Definition encode_vec (l : list EntityAddr) (e : Encoder) : result FrameError Encoder :=
  map_err frame_error (EntityAddrVec_encode l e CONTROL_FEATURES).

Definition encode_address (a : EntityAddr) (e : Encoder) : result FrameError Encoder :=
  map_err frame_error (EntityAddr_encode a e CONTROL_FEATURES).

(** The [match] of [Control::encode]. *)
Definition encode_body (c : Control) (e : Encoder) (limits : Limits) : result FrameError Encoder :=
  match c with
  | C_Hello v => encode_address (peer_address v) (Encoder_u8 e (entity_type v))
  | C_ClientIdent v =>
      _ ← check_addresses (ci_addresses v) limits;
      e ← encode_vec (ci_addresses v) e;
      e ← encode_address (ci_target_address v) e;
      let e := Encoder_i64 e (ci_global_id v) in
      let e := Encoder_u64 e (ci_global_sequence v) in
      let e := Encoder_u64 e (ci_supported_features v) in
      let e := Encoder_u64 e (ci_required_features v) in
      let e := Encoder_u64 e (ci_flags v) in
      Ok (Encoder_u64 e (ci_cookie v))
  | C_ServerIdent v =>
      _ ← check_addresses (si_addresses v) limits;
      e ← encode_vec (si_addresses v) e;
      let e := Encoder_i64 e (si_global_id v) in
      let e := Encoder_u64 e (si_global_sequence v) in
      let e := Encoder_u64 e (si_supported_features v) in
      let e := Encoder_u64 e (si_required_features v) in
      let e := Encoder_u64 e (si_flags v) in
      Ok (Encoder_u64 e (si_cookie v))
  | C_IdentMissingFeatures features => Ok (Encoder_u64 e features)
  | C_SessionReconnect v =>
      _ ← check_addresses (sr_addresses v) limits;
      e ← encode_vec (sr_addresses v) e;
      let e := Encoder_u64 e (sr_client_cookie v) in
      let e := Encoder_u64 e (sr_server_cookie v) in
      let e := Encoder_u64 e (sr_global_sequence v) in
      let e := Encoder_u64 e (sr_connect_sequence v) in
      Ok (Encoder_u64 e (sr_message_sequence v))
  | C_SessionReset full => Ok (Encoder_bool e full)
  | C_SessionRetry sequence | C_SessionRetryGlobal sequence | C_SessionReconnectOk sequence
  | C_Ack sequence => Ok (Encoder_u64 e sequence)
  | C_Wait => Ok e
  | C_Keepalive2 t | C_Keepalive2Ack t => Ok (Encoder_u32 (Encoder_u32 e (seconds t)) (nanoseconds t))
  | C_AuthRequest v =>
      _ ← check_auth_bytes (ar_auth_payload v) limits;
      let e := Encoder_u32 e (ar_method v) in
      e ← encode_u32_slice e (ar_preferred_modes v) (max_auth_bytes limits);
      Ok (Encoder_bytes e (ar_auth_payload v))
  | C_AuthBadMethod v =>
      let e := Encoder_i32 (Encoder_u32 e (ab_method v)) (ab_result v) in
      e ← encode_u32_slice e (ab_allowed_methods v) (max_auth_bytes limits);
      encode_u32_slice e (ab_allowed_modes v) (max_auth_bytes limits)
  | C_AuthReplyMore payload | C_AuthRequestMore payload =>
      _ ← check_auth_bytes payload limits;
      Ok (Encoder_bytes e payload)
  | C_AuthDone v =>
      _ ← check_auth_bytes (ad_auth_payload v) limits;
      let e := Encoder_u32 (Encoder_u64 e (ad_global_id v)) (ad_connection_mode v) in
      Ok (Encoder_bytes e (ad_auth_payload v))
  | C_AuthSignature signature => Ok (Encoder_raw e signature)
  | C_AuthPayload _ payload =>
      _ ← check_auth_bytes payload limits;
      Ok (Encoder_raw e payload)
  end.

Definition Control_encode (c : Control) (limits : Limits) : result FrameError Frame :=
  tag ← Control_tag c;
  e ← encode_body c (Encoder_new (max_segment_bytes limits)) limits;
  bytes ← map_err frame_error (Encoder_finish e);
  Ok (mkFrame tag [mkSegment DEFAULT_ALIGNMENT bytes]).

(** ** Decoding *)

(** [?] on a decoder that fails with [WireError]. *)
Definition wire {A} (m : DM WireError A) : DM FrameError A := fun d => map_err frame_error (m d).

Definition decode_u32_slice (max_bytes : Z) : DM FrameError (list Z) :=
  count ← rd Decoder_u32;
  encoded_bytes ← lift (checked_mul4 count);
  _ ← throw_if (max_bytes <? encoded_bytes) FE_LimitExceeded;
  left_ ← remaining;
  _ ← throw_if (left_ <? count * 4) FE_Malformed;
  repeat_read (Z.to_nat count) (rd Decoder_u32).

Definition decode_auth_bytes (limits : Limits) : DM FrameError (list byte) :=
  len ← rd Decoder_u32;
  _ ← throw_if (max_auth_bytes limits <? len) FE_LimitExceeded;
  left_ ← remaining;
  _ ← throw_if (left_ <? len) FE_Malformed;
  rd (fun d => Decoder_raw d len).

Definition decode_timestamp : DM FrameError Timestamp :=
  s ← rd Decoder_u32;
  n ← rd Decoder_u32;
  _ ← finish_with frame_error;
  _ ← throw_if (1000000000 <=? n) FE_Malformed;
  mret (mkTimestamp s n).

Definition decode_payload (tag : Tag) (limits : Limits) : DM FrameError Control :=
  match tag with
  | T_Hello =>
      type ← rd Decoder_u8;
      a ← wire EntityAddr_decode;
      mret (C_Hello (mkHello type a))
  | T_ClientIdent =>
      l ← wire (EntityAddrVec_decode (max_addresses limits));
      a ← wire EntityAddr_decode;
      gid ← rd Decoder_i64; gseq ← rd Decoder_u64; sup ← rd Decoder_u64;
      req ← rd Decoder_u64; fl ← rd Decoder_u64; ck ← rd Decoder_u64;
      mret (C_ClientIdent (mkClientIdent l a gid gseq sup req fl ck))
  | T_ServerIdent =>
      l ← wire (EntityAddrVec_decode (max_addresses limits));
      gid ← rd Decoder_i64; gseq ← rd Decoder_u64; sup ← rd Decoder_u64;
      req ← rd Decoder_u64; fl ← rd Decoder_u64; ck ← rd Decoder_u64;
      mret (C_ServerIdent (mkServerIdent l gid gseq sup req fl ck))
  | T_IdentMissingFeatures => v ← rd Decoder_u64; mret (C_IdentMissingFeatures v)
  | T_SessionReconnect =>
      l ← wire (EntityAddrVec_decode (max_addresses limits));
      cc ← rd Decoder_u64; sc ← rd Decoder_u64; gs ← rd Decoder_u64;
      cs ← rd Decoder_u64; ms ← rd Decoder_u64;
      mret (C_SessionReconnect (mkSessionReconnect l cc sc gs cs ms))
  | T_SessionReset =>
      encoded ← rd Decoder_u8;
      _ ← throw_if (1 <? encoded) FE_Malformed;
      mret (C_SessionReset (encoded =? 1))
  | T_SessionRetry => v ← rd Decoder_u64; mret (C_SessionRetry v)
  | T_SessionRetryGlobal => v ← rd Decoder_u64; mret (C_SessionRetryGlobal v)
  | T_SessionReconnectOk => v ← rd Decoder_u64; mret (C_SessionReconnectOk v)
  | T_Wait => mret C_Wait
  | T_Keepalive2 => t ← decode_timestamp; mret (C_Keepalive2 t)
  | T_Keepalive2Ack => t ← decode_timestamp; mret (C_Keepalive2Ack t)
  | T_Ack => v ← rd Decoder_u64; mret (C_Ack v)
  | T_AuthRequest =>
      method ← rd Decoder_u32;
      modes ← decode_u32_slice (max_auth_bytes limits);
      payload ← decode_auth_bytes limits;
      mret (C_AuthRequest (mkAuthRequest method modes payload))
  | T_AuthBadMethod =>
      method ← rd Decoder_u32;
      res ← rd Decoder_i32;
      methods ← decode_u32_slice (max_auth_bytes limits);
      modes ← decode_u32_slice (max_auth_bytes limits);
      mret (C_AuthBadMethod (mkAuthBadMethod method res methods modes))
  | T_AuthReplyMore => p ← decode_auth_bytes limits; mret (C_AuthReplyMore p)
  | T_AuthRequestMore => p ← decode_auth_bytes limits; mret (C_AuthRequestMore p)
  | T_AuthDone =>
      gid ← rd Decoder_u64;
      mode ← rd Decoder_u32;
      payload ← decode_auth_bytes limits;
      mret (C_AuthDone (mkAuthDone gid mode payload))
  | T_AuthSignature =>
      signature ← rd (fun d => Decoder_raw d 32);
      _ ← throw_if (negb (zlen signature =? 32)) FE_Malformed;
      mret (C_AuthSignature signature)
  | T_Message | T_CompressionRequest | T_CompressionDone => throw FE_Malformed
  end.

Definition Control_decode (frame : Frame) (limits : Limits) : result FrameError Control :=
  match frame_tag frame with
  | T_CompressionRequest | T_CompressionDone => Err FE_UnsupportedPayload
  | tag =>
      match segments frame with
      | [s] =>
          if bool_decide (tag = T_Message) || (tag_u8 tag <? tag_u8 T_Hello)
             || (tag_u8 T_Ack <? tag_u8 tag) || negb (alignment s =? DEFAULT_ALIGNMENT)
          then Err FE_Malformed
          else if max_segment_bytes limits <? zlen (seg_data s) then Err FE_LimitExceeded
          else
            '(payload, d) ← decode_payload tag limits (Decoder_new (seg_data s) (max_segment_bytes limits));
            _ ← map_err frame_error (Decoder_finish d);
            if negb (Decoder_remaining d =? 0) then Err FE_Malformed else Ok payload
      | _ => Err FE_Malformed
      end
  end.

(** ** Images *)

Definition slice_fields (l : list Z) : list Field := F_u32 (zlen l) :: map F_u32 l.

(** What precedes the plain fields of a message. *)
Definition control_head (c : Control) : list byte :=
  match c with
  | C_Hello v => le_bytes 1 (entity_type v) ++ address_image CONTROL_FEATURES (peer_address v)
  | C_ClientIdent v =>
      vec_image CONTROL_FEATURES (ci_addresses v)
      ++ address_image CONTROL_FEATURES (ci_target_address v)
  | C_ServerIdent v => vec_image CONTROL_FEATURES (si_addresses v)
  | C_SessionReconnect v => vec_image CONTROL_FEATURES (sr_addresses v)
  | C_AuthSignature signature => signature
  | C_AuthPayload _ payload => payload
  | _ => []
  end.

Definition control_fields (c : Control) : list Field :=
  match c with
  | C_ClientIdent v =>
      [F_i64 (ci_global_id v); F_u64 (ci_global_sequence v); F_u64 (ci_supported_features v);
       F_u64 (ci_required_features v); F_u64 (ci_flags v); F_u64 (ci_cookie v)]
  | C_ServerIdent v =>
      [F_i64 (si_global_id v); F_u64 (si_global_sequence v); F_u64 (si_supported_features v);
       F_u64 (si_required_features v); F_u64 (si_flags v); F_u64 (si_cookie v)]
  | C_SessionReconnect v =>
      [F_u64 (sr_client_cookie v); F_u64 (sr_server_cookie v); F_u64 (sr_global_sequence v);
       F_u64 (sr_connect_sequence v); F_u64 (sr_message_sequence v)]
  | C_SessionReset full => [F_bool full]
  | C_IdentMissingFeatures v | C_SessionRetry v | C_SessionRetryGlobal v
  | C_SessionReconnectOk v | C_Ack v => [F_u64 v]
  | C_Keepalive2 t | C_Keepalive2Ack t => [F_u32 (seconds t); F_u32 (nanoseconds t)]
  | C_AuthRequest v =>
      F_u32 (ar_method v) :: slice_fields (ar_preferred_modes v) ++ [F_bytes (ar_auth_payload v)]
  | C_AuthBadMethod v =>
      F_u32 (ab_method v) :: F_i32 (ab_result v)
      :: slice_fields (ab_allowed_methods v) ++ slice_fields (ab_allowed_modes v)
  | C_AuthReplyMore payload | C_AuthRequestMore payload => [F_bytes payload]
  | C_AuthDone v =>
      [F_u64 (ad_global_id v); F_u32 (ad_connection_mode v); F_bytes (ad_auth_payload v)]
  | C_Hello _ | C_AuthSignature _ | C_AuthPayload _ _ | C_Wait => []
  end.

Definition control_image (c : Control) : list byte :=
  control_head c ++ fields_image (control_fields c).

Definition vec_ok (limits : Limits) (l : list EntityAddr) : Prop :=
  Forall address_ok l /\ in_u 32 (zlen l) /\ zlen l <= max_addresses limits.

Definition slice_ok (limits : Limits) (l : list Z) : Prop :=
  in_u 32 (zlen l * 4) /\ zlen l * 4 <= max_auth_bytes limits.

(** The messages [Control::encode] accepts and whose encoding determines them:
    an [AuthPayload] is the raw form of another message, and is left out. *)
Definition control_ok (limits : Limits) (c : Control) : Prop :=
  Forall field_valid (control_fields c)
  /\ match c with
     | C_Hello v => in_u 8 (entity_type v) /\ address_ok (peer_address v)
     | C_ClientIdent v => vec_ok limits (ci_addresses v) /\ address_ok (ci_target_address v)
     | C_ServerIdent v => vec_ok limits (si_addresses v)
     | C_SessionReconnect v => vec_ok limits (sr_addresses v)
     | C_Keepalive2 t | C_Keepalive2Ack t => nanoseconds t < 1000000000
     | C_AuthRequest v =>
         slice_ok limits (ar_preferred_modes v) /\ zlen (ar_auth_payload v) <= max_auth_bytes limits
     | C_AuthBadMethod v =>
         slice_ok limits (ab_allowed_methods v) /\ slice_ok limits (ab_allowed_modes v)
     | C_AuthReplyMore payload | C_AuthRequestMore payload => zlen payload <= max_auth_bytes limits
     | C_AuthDone v => zlen (ad_auth_payload v) <= max_auth_bytes limits
     | C_AuthSignature signature => zlen signature = 32
     | C_AuthPayload _ _ => False
     | _ => True
     end.

(** The message the peer sees: addresses come in the current encoding. *)
Definition control_seen (c : Control) : Control :=
  let seen := address_seen CONTROL_FEATURES in
  match c with
  | C_Hello v => C_Hello (mkHello (entity_type v) (seen (peer_address v)))
  | C_ClientIdent v =>
      C_ClientIdent (mkClientIdent (map seen (ci_addresses v)) (seen (ci_target_address v))
        (ci_global_id v) (ci_global_sequence v) (ci_supported_features v)
        (ci_required_features v) (ci_flags v) (ci_cookie v))
  | C_ServerIdent v =>
      C_ServerIdent (mkServerIdent (map seen (si_addresses v)) (si_global_id v)
        (si_global_sequence v) (si_supported_features v) (si_required_features v)
        (si_flags v) (si_cookie v))
  | C_SessionReconnect v =>
      C_SessionReconnect (mkSessionReconnect (map seen (sr_addresses v)) (sr_client_cookie v)
        (sr_server_cookie v) (sr_global_sequence v) (sr_connect_sequence v)
        (sr_message_sequence v))
  | c => c
  end.

(** *** Encoding writes the image *)

Lemma put_fields_app fs gs e : put_fields e (fs ++ gs) = put_fields (put_fields e fs) gs.
Proof. apply fold_left_app. Qed.

Lemma fields_image_app fs gs : fields_image (fs ++ gs) = fields_image fs ++ fields_image gs.
Proof. unfold fields_image. by rewrite map_app, concat_app. Qed.

Lemma put_u32_fields l : forall e, fold_left Encoder_u32 l e = put_fields e (map F_u32 l).
Proof. induction l as [|v l IH]; intros e; [done|]. apply IH. Qed.

Lemma try_u_in w z : in_u w z -> try_u w z = Some z.
Proof.
  intros [H1 H2]. unfold try_u. by rewrite (proj2 (Z.leb_le _ _) H1), (proj2 (Z.ltb_lt _ _) H2).
Qed.

Lemma encode_slice_fields limits l e :
  slice_ok limits l ->
  encode_u32_slice e l (max_auth_bytes limits) = Ok (put_fields e (slice_fields l)).
Proof.
  intros [Hw Hm]. unfold encode_u32_slice, checked_mul4. pose proof (zlen_nonneg l).
  rewrite (try_u_in 32 (zlen l)) by (unfold in_u in *; lia). rewrite ok_or_Some, bind_Ok.
  rewrite (try_u_in _ _ Hw), ok_or_Some, bind_Ok, (proj2 (Z.ltb_ge _ _)) by lia.
  by rewrite put_u32_fields.
Qed.

Lemma check_addresses_ok limits l : vec_ok limits l -> check_addresses l limits = Ok tt.
Proof. intros (_ & _ & H). unfold check_addresses. by rewrite (proj2 (Z.ltb_ge _ _)). Qed.

Lemma check_auth_ok limits p :
  zlen p <= max_auth_bytes limits -> check_auth_bytes p limits = Ok tt.
Proof. intros H. unfold check_auth_bytes. by rewrite (proj2 (Z.ltb_ge _ _)). Qed.

Lemma encode_vec_image limits l e :
  vec_ok limits l -> fits e (vec_image CONTROL_FEATURES l) ->
  encode_vec l e = Ok (written e (vec_image CONTROL_FEATURES l)).
Proof. intros (? & ? & _) ?. unfold encode_vec. by rewrite vec_encode_image. Qed.

Lemma encode_address_image a e :
  address_ok a -> fits e (address_image CONTROL_FEATURES a) ->
  encode_address a e = Ok (written e (address_image CONTROL_FEATURES a)).
Proof. intros ? ?. unfold encode_address. by rewrite address_encode_image. Qed.

(** The head is written first, and the fields follow. *)
Lemma encode_body_fields limits c e :
  control_ok limits c -> fits e (control_head c) ->
  encode_body c e limits = Ok (put_fields (written e (control_head c)) (control_fields c)).
Proof.
  intros [_ Hc] Hf.
  assert (written e [] = e) as Hnil by (unfold written; rewrite app_nil_r; by destruct e).
  destruct c; cbn [control_head control_fields encode_body] in *; rewrite ?Hnil; try done.
  - destruct Hc as [H8 Ha]. apply fits_app in Hf as [F1 F2].
    rewrite (put_image (put := Encoder_u8) e) by done.
    rewrite encode_address_image by done. by rewrite written_app.
  - destruct Hc as [Hl Ha]. apply fits_app in Hf as [F1 F2].
    rewrite (check_addresses_ok _ _ Hl), bind_Ok, (encode_vec_image limits) by done.
    rewrite bind_Ok, encode_address_image, bind_Ok by done. by rewrite written_app.
  - by rewrite (check_addresses_ok _ _ Hc), bind_Ok, (encode_vec_image limits), bind_Ok.
  - by rewrite (check_addresses_ok _ _ Hc), bind_Ok, (encode_vec_image limits), bind_Ok.
  - destruct Hc as [Hs Hp]. rewrite check_auth_ok, bind_Ok, encode_slice_fields, bind_Ok by done.
    cbn [put_fields fold_left]. change (fold_left put_field) with (fun l e => put_fields e l).
    cbv beta. by rewrite put_fields_app.
  - destruct Hc as [Hs Hp]. rewrite encode_slice_fields, bind_Ok, encode_slice_fields by done.
    cbn [put_fields fold_left]. change (fold_left put_field) with (fun l e => put_fields e l).
    cbv beta. by rewrite put_fields_app.
  - by rewrite check_auth_ok, bind_Ok.
  - by rewrite check_auth_ok, bind_Ok.
  - by rewrite check_auth_ok, bind_Ok.
  - by rewrite Encoder_raw_fits.
Qed.

(** *** Decoding reads the image *)

(** [m] reads exactly [img], whatever follows, and returns [a]; the decoder's
    bound is [max]. *)
Definition reads {E A} (max : Z) (m : DM E A) (img : list byte) (a : A) : Prop :=
  forall d rest, dec_max_bytes d = max -> unread d (img ++ rest) ->
  m d = Ok (a, advanced d (zlen img)).

Section Reads.
  Context {E : Type} (max : Z).

Lemma reads_ret {A} (a : A) : reads max (mret a : DM E A) [] a.
Proof.
  intros d rest _ _. unfold mret, DM_ret, advanced. change (zlen (@nil byte)) with 0.
  rewrite Z.add_0_r. by destruct d.
Qed.

Lemma reads_bind {A B} (m : DM E A) (k : A -> DM E B) img1 img2 a b :
  reads max m img1 a -> reads max (k a) img2 b -> reads max (m ≫= k) (img1 ++ img2) b.
Proof.
  intros Hm Hk d rest Hd Hu. rewrite <- app_assoc in Hu.
  rewrite (DM_bind_Ok _ _ _ _ _ (Hm _ _ Hd Hu)). apply unread_app in Hu.
  rewrite (Hk (advanced d (zlen img1)) rest Hd Hu). unfold advanced. simpl.
  rewrite zlen_app. do 3 f_equal. lia.
Qed.

Lemma reads_rd {A} {put get image valid bounded} `{!@WireFormat A put get image valid bounded} a :
  valid a -> bounded max a -> reads max (rd get : DM E A) (image a) a.
Proof.
  intros Hv Hb d rest Hd Hu. unfold rd. rewrite <- Hd in Hb.
  by rewrite (get_image d a rest Hv Hb Hu).
Qed.

Lemma reads_raw p n : n = zlen p -> reads max (rd (fun d => Decoder_raw d n) : DM E _) p p.
Proof.
  intros -> d rest _ Hu. unfold rd, Decoder_raw. by rewrite (Decoder_take_unread _ _ _ Hu).
Qed.

Lemma reads_pass (c : bool) (e : E) : c = false -> reads max (throw_if c e) [] tt.
Proof. intros ->. apply reads_ret. Qed.

Lemma reads_lift {A} (a : A) : reads max (lift (Ok a) : DM E A) [] a.
Proof. apply reads_ret. Qed.

Lemma reads_finish conv : reads max (finish_with conv : DM E unit) [] tt.
Proof.
  intros d rest Hd Hu. pose proof (reads_ret tt d rest Hd Hu) as Hr.
  destruct Hu as (He & _). unfold finish_with, Decoder_finish. rewrite He. exact Hr.
Qed.

Lemma reads_eq {A} (m : DM E A) img img' a : img = img' -> reads max m img a -> reads max m img' a.
Proof. by intros ->. Qed.

Lemma reads_by {A} (m : DM E A) img img' a : reads max m img a -> img = img' -> reads max m img' a.
Proof. by intros ? <-. Qed.

(** A read preceded by a check that its image is still there. *)
Lemma reads_guarded {A} (m : DM E A) img a n e :
  n <= zlen img -> reads max m img a ->
  reads max (left_ ← remaining; _ ← throw_if (left_ <? n) e; m) img a.
Proof.
  intros Hn Hm d rest Hd Hu. rewrite (remaining_unread _ _ _ Hu).
  rewrite throw_if_false; [by eapply Hm|]. apply Z.ltb_ge. rewrite zlen_app.
  pose proof (zlen_nonneg rest). lia.
Qed.

Lemma reads_repeat {A} (m : DM E A) (image : A -> list byte) l :
  Forall (fun a => reads max m (image a) a) l ->
  reads max (repeat_read (length l) m) (concat (map image l)) l.
Proof.
  induction 1 as [|a l Ha Hl IH]; [apply reads_ret|].
  cbn [length repeat_read map concat]. apply reads_bind with (a := a); [done|].
  eapply reads_eq; [apply app_nil_r|]. apply reads_bind with (a := l); [done|]. apply reads_ret.
Qed.
End Reads.

(** Reads the plain field of value [v]. *)
Ltac reads_field v :=
  lazymatch goal with
  | |- reads ?max (rd ?g ≫= _) _ _ =>
      eapply reads_bind; [apply (reads_rd (get := g) max v); [done|exact I]|]
  end.

Lemma reads_wire_address max a :
  address_ok a -> 40 <= max ->
  reads max (wire EntityAddr_decode) (address_image CONTROL_FEATURES a)
    (address_seen CONTROL_FEATURES a).
Proof.
  intros Ha Hm d rest Hd Hu. unfold wire.
  by rewrite (address_decode_image CONTROL_FEATURES a d rest Ha) by (done || lia).
Qed.

Lemma reads_wire_vec max limits l :
  vec_ok limits l -> 40 <= max ->
  reads max (wire (EntityAddrVec_decode (max_addresses limits))) (vec_image CONTROL_FEATURES l)
    (map (address_seen CONTROL_FEATURES) l).
Proof.
  intros (Hl & Hn & Hm) Hx d rest Hd Hu. unfold wire.
  by rewrite (vec_decode_image CONTROL_FEATURES l _ d rest) by (done || lia).
Qed.

Lemma zlen_u32_images l : zlen (concat (map (le_bytes 4) l)) = zlen l * 4.
Proof.
  induction l as [|v l IH]; [done|]. cbn [map concat]. autorewrite with zlen. rewrite IH. lia.
Qed.

Lemma slice_image l :
  fields_image (slice_fields l) = le_bytes 4 (zlen l) ++ concat (map (le_bytes 4) l).
Proof. unfold fields_image, slice_fields. cbn [map concat field_image]. by rewrite map_map. Qed.

Lemma reads_slice max limits l :
  slice_ok limits l -> Forall (in_u 32) l ->
  reads max (decode_u32_slice (max_auth_bytes limits)) (fields_image (slice_fields l)) l.
Proof.
  intros [Hw Hm] Hl. rewrite slice_image. pose proof (zlen_nonneg l). unfold decode_u32_slice.
  assert (in_u 32 (zlen l)) by (unfold in_u in *; lia).
  eapply reads_bind; [by eapply (reads_rd (get := Decoder_u32) _ (zlen l))|].
  unfold checked_mul4. rewrite (try_u_in _ _ Hw), ok_or_Some.
  eapply reads_eq; [apply app_nil_l|]. eapply reads_bind; [apply reads_lift|].
  eapply reads_eq; [apply app_nil_l|].
  eapply reads_bind; [apply reads_pass, Z.ltb_ge; lia|].
  apply reads_guarded; [rewrite zlen_u32_images; lia|].
  unfold zlen at 1. rewrite Nat2Z.id. apply reads_repeat.
  eapply Forall_impl; [exact Hl|]. intros v Hv. exact (reads_rd (get := Decoder_u32) max v Hv I).
Qed.

Lemma reads_auth max limits p :
  in_u 32 (zlen p) -> zlen p <= max_auth_bytes limits ->
  reads max (decode_auth_bytes limits) (le_bytes 4 (zlen p) ++ p) p.
Proof.
  intros Hw Hm. unfold decode_auth_bytes.
  eapply reads_bind; [exact (reads_rd (get := Decoder_u32) max _ Hw I)|]. eapply reads_eq; [apply app_nil_l|].
  eapply reads_bind; [apply reads_pass, Z.ltb_ge; lia|].
  apply reads_guarded; [lia|]. by apply reads_raw.
Qed.

Lemma reads_timestamp max t :
  in_u 32 (seconds t) -> in_u 32 (nanoseconds t) -> nanoseconds t < 1000000000 ->
  reads max decode_timestamp (le_bytes 4 (seconds t) ++ le_bytes 4 (nanoseconds t)) t.
Proof.
  intros Hs Hn Ht. unfold decode_timestamp.
  eapply reads_bind; [exact (reads_rd (get := Decoder_u32) max _ Hs I)|].
  eapply reads_eq; [apply app_nil_r|].
  eapply reads_bind; [exact (reads_rd (get := Decoder_u32) max _ Hn I)|]. eapply reads_eq; [apply app_nil_l|].
  eapply reads_bind; [apply reads_finish|]. eapply reads_eq; [apply app_nil_l|].
  eapply reads_bind; [apply reads_pass, Z.leb_gt; lia|]. destruct t. apply reads_ret.
Qed.

Lemma slice_fields_valid l : Forall field_valid (slice_fields l) -> Forall (in_u 32) l.
Proof.
  unfold slice_fields. intros H. inversion H as [|? ? _ Hl]; subst.
  exact (proj1 (Forall_map F_u32 field_valid l) Hl).
Qed.

(** Decides that a chain of reads has read the image of the message. *)
Ltac image_eq :=
  unfold control_image, fields_image; cbn [control_head control_fields map concat field_image app];
  rewrite ?fields_image_app, ?app_nil_r, <- ?app_assoc; reflexivity.

Lemma reads_reset max limits (full : bool) :
  reads max (decode_payload T_SessionReset limits) (le_bytes 1 (if full then 1 else 0))
    (C_SessionReset full).
Proof.
  assert (in_u 8 (Z.b2z full)) by (by destruct full). cbn [decode_payload]. eapply reads_by.
  - reads_field (Z.b2z full). eapply reads_bind; [by apply reads_pass; destruct full|].
    replace full with (Z.b2z full =? 1) at 2 by (by destruct full). apply reads_ret.
  - by destruct full.
Qed.

Lemma reads_auth_request max limits v :
  control_ok limits (C_AuthRequest v) ->
  reads max (decode_payload T_AuthRequest limits) (control_image (C_AuthRequest v)) (C_AuthRequest v).
Proof.
  destruct v as [m l p]. intros [Hv [Hs Hp]].
  cbn [control_fields ar_method ar_preferred_modes ar_auth_payload] in *.
  apply Forall_cons in Hv as [Hm Hv]. apply Forall_app in Hv as [Hl Hv].
  apply slice_fields_valid in Hl. apply Forall_cons in Hv as [Hb _].
  cbn [decode_payload]. eapply reads_by.
  - reads_field m. eapply reads_bind; [by apply reads_slice|].
    eapply reads_bind; [by apply reads_auth|]. apply reads_ret.
  - unfold control_image. cbn [control_head control_fields app ar_method ar_preferred_modes ar_auth_payload].
    change (F_u32 m :: ?x) with ([F_u32 m] ++ x). rewrite !fields_image_app.
    cbn [fields_image map concat field_image]. by rewrite ?app_nil_r, <- ?app_assoc.
Qed.

Lemma reads_auth_bad_method max limits v :
  control_ok limits (C_AuthBadMethod v) ->
  reads max (decode_payload T_AuthBadMethod limits) (control_image (C_AuthBadMethod v))
    (C_AuthBadMethod v).
Proof.
  destruct v as [m r l1 l2]. intros [Hv [Hs1 Hs2]].
  cbn [control_fields ab_method ab_result ab_allowed_methods ab_allowed_modes] in *.
  apply Forall_cons in Hv as [Hm Hv]. apply Forall_cons in Hv as [Hr Hv].
  apply Forall_app in Hv as [Hl1 Hl2]. apply slice_fields_valid in Hl1, Hl2.
  cbn [decode_payload]. eapply reads_by.
  - reads_field m. reads_field r. eapply reads_bind; [exact (reads_slice max limits l1 Hs1 Hl1)|].
    eapply reads_bind; [exact (reads_slice max limits l2 Hs2 Hl2)|]. apply reads_ret.
  - unfold control_image.
    cbn [control_head control_fields app ab_method ab_result ab_allowed_methods ab_allowed_modes].
    change (F_u32 m :: F_i32 r :: ?x) with ([F_u32 m; F_i32 r] ++ x). rewrite !fields_image_app.
    cbn [fields_image map concat field_image]. by rewrite ?app_nil_r, <- ?app_assoc.
Qed.

Lemma decode_payload_reads max limits c tag :
  control_ok limits c -> 40 <= max -> Control_tag c = Ok tag ->
  reads max (decode_payload tag limits) (control_image c) (control_seen c).
Proof.
  intros [Hv Hc] Hmax Ht.
  destruct c; cbn [Control_tag control_fields control_seen] in *; try done;
    apply Ok_inj in Ht as <-; cbn [decode_payload];
    rewrite ?Forall_cons in Hv; cbn [field_valid] in Hv; eapply reads_by.
  - destruct Hc as [H8 Ha]. reads_field (entity_type v).
    eapply reads_bind; [by apply reads_wire_address|]. apply reads_ret.
  - image_eq.
  - destruct Hc as [Hl Ha], Hv as (? & ? & ? & ? & ? & ? & _).
    eapply reads_bind; [by apply reads_wire_vec|].
    eapply reads_bind; [by apply reads_wire_address|].
    reads_field (ci_global_id v). reads_field (ci_global_sequence v).
    reads_field (ci_supported_features v). reads_field (ci_required_features v).
    reads_field (ci_flags v). reads_field (ci_cookie v). apply reads_ret.
  - image_eq.
  - destruct Hv as (? & ? & ? & ? & ? & ? & _).
    eapply reads_bind; [by apply reads_wire_vec|].
    reads_field (si_global_id v). reads_field (si_global_sequence v).
    reads_field (si_supported_features v). reads_field (si_required_features v).
    reads_field (si_flags v). reads_field (si_cookie v). apply reads_ret.
  - image_eq.
  - destruct Hv as (? & _). reads_field features. apply reads_ret.
  - image_eq.
  - destruct Hv as (? & ? & ? & ? & ? & _).
    eapply reads_bind; [by apply reads_wire_vec|].
    reads_field (sr_client_cookie v). reads_field (sr_server_cookie v).
    reads_field (sr_global_sequence v). reads_field (sr_connect_sequence v).
    reads_field (sr_message_sequence v). apply reads_ret.
  - image_eq.
  - exact (reads_reset max limits full).
  - image_eq.
  - destruct Hv as (? & _). reads_field connect_sequence. apply reads_ret.
  - image_eq.
  - destruct Hv as (? & _). reads_field global_sequence. apply reads_ret.
  - image_eq.
  - destruct Hv as (? & _). reads_field message_sequence. apply reads_ret.
  - image_eq.
  - apply reads_ret.
  - image_eq.
  - destruct Hv as (? & ? & _). eapply reads_bind; [by apply reads_timestamp|]. apply reads_ret.
  - image_eq.
  - destruct Hv as (? & ? & _). eapply reads_bind; [by apply reads_timestamp|]. apply reads_ret.
  - image_eq.
  - destruct Hv as (? & _). reads_field sequence. apply reads_ret.
  - image_eq.
  - refine (reads_auth_request max limits v (conj _ Hc)).
    cbn [control_fields]. by rewrite !Forall_cons.
  - done.
  - refine (reads_auth_bad_method max limits v (conj _ Hc)).
    cbn [control_fields]. by rewrite !Forall_cons.
  - done.
  - destruct Hv as (? & _). eapply reads_bind; [by apply reads_auth|]. apply reads_ret.
  - image_eq.
  - destruct Hv as (? & _). eapply reads_bind; [by apply reads_auth|]. apply reads_ret.
  - image_eq.
  - destruct Hv as (? & ? & ? & _). reads_field (ad_global_id v). reads_field (ad_connection_mode v).
    eapply reads_bind; [by apply reads_auth|]. destruct v. apply reads_ret.
  - image_eq.
  - eapply reads_bind; [by apply reads_raw|].
    eapply reads_bind; [apply reads_pass; by rewrite Hc|]. apply reads_ret.
  - image_eq.
Qed.

(** A frame of one segment whose payload is decoded to the end. *)
Lemma Control_decode_segment tag limits data c d :
  zlen data <= max_segment_bytes limits ->
  decode_payload tag limits (Decoder_new data (max_segment_bytes limits)) = Ok (c, d) ->
  Decoder_finish d = Ok tt -> Decoder_remaining d = 0 ->
  tag <> T_Message /\ tag <> T_CompressionRequest /\ tag <> T_CompressionDone ->
  Control_decode (mkFrame tag [mkSegment DEFAULT_ALIGNMENT data]) limits = Ok c.
Proof.
  intros Hl Hd Hf Hr (Hm & Hq & Hz). unfold Control_decode.
  cbn [frame_tag segments alignment seg_data]. rewrite (proj2 (Z.ltb_ge _ _) Hl).
  destruct tag; try done; rewrite Hd, bind_Ok, Hf; cbn [map_err]; by rewrite bind_Ok, Hr.
Qed.

(** ** Properties *)

(** Control messages survive the wire: a well-formed message within the
    limits (an [AuthPayload], the raw form of the authentication messages,
    aside) is encoded, under its tag and within the limits, and the decoder
    gives the message back with its addresses in the current encoding. *)
Theorem control_roundtrip limits c :
  control_ok limits c -> zlen (control_image c) <= max_segment_bytes limits ->
  40 <= max_segment_bytes limits ->
  exists f, Control_encode c limits = Ok f /\ Control_decode f limits = Ok (control_seen c).
Proof.
  intros Hc Hl Hmax.
  assert (exists tag, Control_tag c = Ok tag) as [tag Ht]
    by (destruct c; try (by eexists); by destruct Hc).
  pose proof (new_fits _ _ Hl) as Hf. pose proof (fits_app _ _ _ Hf) as [Fh Ff].
  exists (mkFrame tag [mkSegment DEFAULT_ALIGNMENT (control_image c)]). split.
  - unfold Control_encode. rewrite Ht, bind_Ok, encode_body_fields, bind_Ok by done.
    rewrite put_fields_image by (done || apply Hc). by rewrite written_app.
  - pose proof (new_unread (control_image c ++ []) (max_segment_bytes limits)) as Hu.
    rewrite app_nil_r in Hu at 1.
    pose proof (decode_payload_reads _ _ _ _ Hc Hmax Ht (Decoder_new _ _) [] eq_refl Hu) as Hd.
    apply unread_app, unread_remaining in Hu. apply Control_decode_segment with (1 := Hl) (2 := Hd);
      [done|done|]. destruct c; try (by destruct Hc); by apply Ok_inj in Ht as <-.
Qed.

Lemma control_roundtrip_witness :
  let c := C_ClientIdent (mkClientIdent [address_check [x7f; x00; x00; x01] 6789]
             (address_check [x0a; x00; x00; x01] 3300) (-1) 2 MONITOR_CLIENT MESSAGE_ADDRESS_V2
             CONNECTION_FLAG_LOSSY 7) in
  exists f, Control_encode c (mkLimits 4096 8192 4 64) = Ok f
    /\ Control_decode f (mkLimits 4096 8192 4 64) = Ok (control_seen c).
Proof.
  intros c. apply (control_roundtrip (mkLimits 4096 8192 4 64) c).
  - repeat constructor; vm_compute; discriminate.
  - vm_compute. discriminate.
  - vm_compute. discriminate.
Defined.
