(* ===== verification/Secure.v ===== *)
(** * The authenticated codec

    Models [src/src/msgr/secure.rs]: frames as AES-128-GCM records under a
    fixed key, with one nonce counter per direction. *)

From S2P Require Import Prelude Codec Frame Address.
From Stdlib Require Import ZArith Lia Strings.Byte.
From stdpp Require Import base option gmap sorting numbers list.

Open Scope Z_scope.

(** ** The cipher *)

(** The [aes_gcm] crate: [encrypt] and [decrypt] under a key and a nonce. *)
Class AesGcmCrate : Type := {
  aes_encrypt : list byte -> list byte -> list byte -> option (list byte);
  aes_decrypt : list byte -> list byte -> list byte -> option (list byte)
}.

(** What the crate documents: a record is 16 bytes longer than its plaintext,
    and opens to it under the key and nonce it was sealed with. *)
Class AesGcmLaws (crate : AesGcmCrate) : Prop := {
  aes_open_seal key nonce plaintext ciphertext :
    aes_encrypt key nonce plaintext = Some ciphertext ->
    aes_decrypt key nonce ciphertext = Some plaintext;
  aes_seal_length key nonce plaintext ciphertext :
    aes_encrypt key nonce plaintext = Some ciphertext -> zlen ciphertext = zlen plaintext + 16;
  aes_open_length key nonce plaintext ciphertext :
    aes_decrypt key nonce ciphertext = Some plaintext -> zlen ciphertext = zlen plaintext + 16
}.

Definition SECRET_SIZE : Z := 64.
Definition KEY_SIZE : Z := 16.
Definition NONCE_SIZE : Z := 12.
Definition TAG_SIZE : Z := 16.
Definition BLOCK_SIZE : Z := 16.
Definition INLINE_SIZE : Z := 48.
Definition SECURE_PREAMBLE_SIZE : Z := PREAMBLE_SIZE + INLINE_SIZE + TAG_SIZE.

(** An error of the codec, or a slice or index out of range. *)
Inductive SecureFault : Type :=
| SF_Error (e : FrameError)
| SF_Panic.

Definition fails {A} (e : FrameError) : result SecureFault A := Err (SF_Error e).

Definition frame_result {A} (r : result FrameError A) : result SecureFault A := map_err SF_Error r.

(** [&data[from..to]]. *)
Definition slice (data : list byte) (from to : Z) : result SecureFault (list byte) :=
  if (0 <=? from) && (from <=? to) && (to <=? zlen data)
  then Ok (take (Z.to_nat (to - from)) (drop (Z.to_nat from) data))
  else Err SF_Panic.

(** [&data[from..]]. *)
Definition slice_from (data : list byte) (from : Z) : result SecureFault (list byte) :=
  slice data from (zlen data).

(** [data[from..to].copy_from_slice(source)]. *)
Definition copy_slice (data : list byte) (from to : Z) (source : list byte)
    : result SecureFault (list byte) :=
  if (0 <=? from) && (from <=? to) && (to <=? zlen data) && (zlen source =? to - from)
  then Ok (copy_at data (Z.to_nat from) source)
  else Err SF_Panic.

Definition zeros (n : Z) : list byte := replicate (Z.to_nat n) x00.

Definition all_zero (data : list byte) : bool := forallb (fun b => bool_decide (b = x00)) data.

(** [value & !(BLOCK_SIZE - 1)] after a checked addition. *)
Definition padded_length (len : Z) : result SecureFault Z :=
  frame_result (v ← ok_or (checked_add 64 len (BLOCK_SIZE - 1)) FE_LimitExceeded;
                Ok (Z.ldiff v (BLOCK_SIZE - 1))).

(** ** Directions *)

Record Direction : Type := mkDirection {
  cipher_key : list byte;
  fixed : Z;
  counter : Z;
  exhausted : bool
}.

Record SecureCodec : Type := mkSecureCodec { tx : Direction; rx : Direction }.

(** [Aes128Gcm::new_from_slice] accepts keys of 16 bytes; the seed's halves are
    a [u32] and a [u64]. *)
Definition Direction_new (key seed : list byte) : result SecureFault Direction :=
  if negb (zlen key =? KEY_SIZE) then fails FE_InvalidSecret
  else
    fixed_bytes ← slice seed 0 4;
    counter_bytes ← slice_from seed 4;
    if negb (zlen counter_bytes =? 8) then fails FE_InvalidSecret
    else Ok (mkDirection key (le_value fixed_bytes) (le_value counter_bytes) false).

Definition SecureCodec_new (secret : list byte) (server : bool) : result SecureFault SecureCodec :=
  if negb (zlen secret =? SECRET_SIZE) then fails FE_InvalidSecret
  else
    client_rx ← slice secret 16 28;
    client_tx ← slice secret 28 40;
    key ← slice secret 0 KEY_SIZE;
    let '(rx_seed, tx_seed) := if server then (client_tx, client_rx) else (client_rx, client_tx) in
    tx_ ← Direction_new key tx_seed;
    rx_ ← Direction_new key rx_seed;
    Ok (mkSecureCodec tx_ rx_).

(** [split]: an encoder and a decoder that each keep a copy of the codec, of
    which the encoder uses [tx] and the decoder [rx]. *)
Definition SecureCodec_split (c : SecureCodec) : SecureCodec * SecureCodec :=
  let decoder := mkSecureCodec (tx c) (rx c) in
  let encoder := mkSecureCodec (tx c) (rx decoder) in
  (encoder, decoder).

Definition available (d : Direction) (count : Z) : bool :=
  (count =? 0)
  || (negb (exhausted d) && (count - 1 <=? saturating_sub u64_max (counter d))).

Definition nonce_bytes (d : Direction) : list byte := le_bytes 4 (fixed d) ++ le_bytes 8 (counter d).

Definition Direction_nonce : St Direction SecureFault (list byte) := fun d =>
  if negb (available d 1) then (fails FE_CounterExhausted, d)
  else
    (Ok (nonce_bytes d),
     if counter d =? u64_max
     then mkDirection (cipher_key d) (fixed d) (counter d) true
     else mkDirection (cipher_key d) (fixed d) (counter d + 1) (exhausted d)).

Section Secure.
  Context {crc_crate : Crc32cCrate} {aes_crate : AesGcmCrate}.

Definition seal (plaintext : list byte) : St Direction SecureFault (list byte) :=
  nonce_ ← Direction_nonce;
  st_gets (fun d => frame_result
    (ok_or (aes_encrypt (cipher_key d) nonce_ plaintext) FE_LimitExceeded)).

Definition open_record (ciphertext : list byte) : St Direction SecureFault (list byte) :=
  nonce_ ← Direction_nonce;
  st_gets (fun d => frame_result
    (ok_or (aes_decrypt (cipher_key d) nonce_ ciphertext) FE_Integrity)).

(** ** Sizes *)

Fixpoint check_descriptors (ds : list Descriptor) (limits : Limits) : result SecureFault unit :=
  match ds with
  | [] => Ok tt
  | d :: ds =>
      if negb (valid_alignment (d_alignment d)) then fails FE_Malformed
      else if max_segment_bytes limits <? d_length d then fails FE_LimitExceeded
      else check_descriptors ds limits
  end.

Definition add_size (a b : Z) : result SecureFault Z :=
  frame_result (ok_or (checked_add 64 a b) FE_LimitExceeded).

(** [wire_size.checked_add(padded_length(length)?)] over lengths. *)
Fixpoint add_padded (total : Z) (lengths : list Z) : result SecureFault Z :=
  match lengths with
  | [] => Ok total
  | n :: lengths =>
      p ← padded_length n;
      total ← add_size total p;
      add_padded total lengths
  end.

Definition validate_descriptors (ds : list Descriptor) (limits : Limits)
    : result SecureFault (Z * Z) :=
  _ ← check_descriptors ds limits;
  match ds with
  | [] => Err SF_Panic
  | d0 :: others =>
      first_padded ← padded_length (d_length d0);
      '(wire_size, records) ←
        (if INLINE_SIZE <? first_padded
         then w ← add_size SECURE_PREAMBLE_SIZE (first_padded - INLINE_SIZE + TAG_SIZE); Ok (w, 2)
         else Ok (SECURE_PREAMBLE_SIZE, 1));
      '(wire_size, records) ←
        (match others with
         | [] => Ok (wire_size, records)
         | _ =>
             w ← add_size wire_size (BLOCK_SIZE + TAG_SIZE);
             w ← add_padded w (map d_length others);
             Ok (w, records + 1)
         end);
      if max_frame_bytes limits <? wire_size then fails FE_LimitExceeded
      else Ok (wire_size, records)
  end.

(** ** Preparing frames *)

Record PreparedFrame : Type := mkPreparedFrame {
  p_descriptors : list Descriptor;
  p_segments : list Segment;
  p_wire_size : Z;
  p_records : Z
}.

Fixpoint prepared_descriptors (segs : list Segment) : result SecureFault (list Descriptor) :=
  match segs with
  | [] => Ok []
  | s :: segs =>
      if negb (valid_alignment (alignment s)) then fails FE_Malformed
      else
        n ← frame_result (ok_or (try_u 32 (zlen (seg_data s))) FE_LimitExceeded);
        ds ← prepared_descriptors segs;
        Ok (mkDescriptor n (alignment s) :: ds)
  end.

Definition PreparedFrame_new (frame : Frame) (limits : Limits) : result SecureFault PreparedFrame :=
  segs ← frame_result (normalized_segments (segments frame));
  if tag_u8 T_Ack <? tag_u8 (frame_tag frame) then fails FE_Malformed
  else
    ds ← prepared_descriptors segs;
    '(wire_size, records) ← validate_descriptors ds limits;
    Ok (mkPreparedFrame ds segs wire_size records).

(** The loop that copies the segments into the last record. *)
Fixpoint copy_segments (segs : list Segment) (offset : Z) (record : list byte)
    : result SecureFault (Z * list byte) :=
  match segs with
  | [] => Ok (offset, record)
  | s :: segs =>
      record ← copy_slice record offset (offset + zlen (seg_data s)) (seg_data s);
      p ← padded_length (zlen (seg_data s));
      copy_segments segs (offset + p) record
  end.

(** The preamble and the first bytes of the first segment. *)
Definition first_record (preamble data : list byte) : result SecureFault (list byte) :=
  first ← copy_slice (zeros (PREAMBLE_SIZE + INLINE_SIZE)) 0 PREAMBLE_SIZE preamble;
  let inline := Z.min (zlen data) INLINE_SIZE in
  source ← slice data 0 inline;
  copy_slice first PREAMBLE_SIZE (PREAMBLE_SIZE + inline) source.

(** The rest of the first segment, when it is not inline. *)
Definition remainder_record (data : list byte) : result SecureFault (list (list byte)) :=
  first_padded ← padded_length (zlen data);
  if INLINE_SIZE <? first_padded then
    source ← slice_from data INLINE_SIZE;
    r ← copy_slice (zeros (first_padded - INLINE_SIZE)) 0 (zlen data - INLINE_SIZE) source;
    Ok [r]
  else Ok [].

(** The other segments, padded, and the late status. *)
Definition last_record (segs : list Segment) : result SecureFault (list (list byte)) :=
  match segs with
  | [] => Ok []
  | _ =>
      size ← add_padded BLOCK_SIZE (map (fun s => zlen (seg_data s)) segs);
      '(offset, record) ← copy_segments segs 0 (zeros size);
      record ← copy_slice record offset (offset + 1) (le_bytes 1 LATE_STATUS_COMPLETE);
      Ok [record]
  end.

Definition plaintext_records (p : PreparedFrame) (tag : Tag) : result SecureFault (list (list byte)) :=
  match p_segments p with
  | [] => Err SF_Panic
  | s0 :: others =>
      first ← first_record (encode_preamble tag (p_descriptors p)) (seg_data s0);
      remainder ← remainder_record (seg_data s0);
      last ← last_record others;
      Ok (first :: remainder ++ last)
  end.

Definition validate_frame_size (frame : Frame) (limits : Limits) : result SecureFault unit :=
  _ ← PreparedFrame_new frame limits; Ok tt.

(** [for plaintext in records { output.extend(seal(plaintext)?) }]. *)
Fixpoint seal_records (records : list (list byte)) (output : list byte)
    : St Direction SecureFault (list byte) :=
  match records with
  | [] => mret output
  | r :: records => c ← seal r; seal_records records (output ++ c)
  end.

Definition SecureCodec_encode (frame : Frame) (limits : Limits)
    : St Direction SecureFault (list byte) :=
  prepared ← st_lift (PreparedFrame_new frame limits);
  d ← st_gets Ok;
  _ ← st_fail_if (negb (available d (p_records prepared))) (SF_Error FE_CounterExhausted);
  records ← st_lift (plaintext_records prepared (frame_tag frame));
  seal_records records [].

(** ** Reading *)

(** The state of a reader: the receiving direction and the bytes to come. *)
#[local] Notation RM := (St (Direction * list byte) SecureFault).

Definition on_rx {A} (m : St Direction SecureFault A) : RM A := fun '(d, reader) =>
  let '(r, d) := m d in (r, (d, reader)).

Definition read_bytes (n : Z) : RM (list byte) := fun '(d, reader) =>
  match frame_result (read_exact n reader) with
  | Ok (data, reader) => (Ok data, (d, reader))
  | Err e => (Err e, (d, reader))
  end.

(** The segments behind the first, from [offset] on. *)
Fixpoint split_segments (ds : list Descriptor) (offset : Z) (record : list byte)
    : result SecureFault (Z * list Segment) :=
  match ds with
  | [] => Ok (offset, [])
  | d :: ds =>
      padded ← padded_length (d_length d);
      padding ← slice record (offset + d_length d) (offset + padded);
      if negb (all_zero padding) then fails FE_Malformed
      else
        data ← slice record offset (offset + d_length d);
        '(offset, segs) ← split_segments ds (offset + padded) record;
        Ok (offset, mkSegment (d_alignment d) data :: segs)
  end.

Definition secure_late_status (epilogue : list byte) : result SecureFault unit :=
  if negb (zlen epilogue =? BLOCK_SIZE) then fails FE_Malformed
  else
    rest ← slice_from epilogue 1;
    if negb (all_zero rest) then fails FE_Malformed
    else frame_result (late_status epilogue).

Definition check_sub (a b : Z) : result SecureFault Z :=
  if a <? b then fails FE_LimitExceeded else Ok (a - b).

(** The first segment, padding included: inline in the first record, or
    continued in a record of its own. *)
Definition read_first (first : list byte) (first_padded : Z) : RM (list byte) :=
  inline ← st_lift (slice_from first PREAMBLE_SIZE);
  if INLINE_SIZE <? first_padded then
    ciphertext ← read_bytes (first_padded - INLINE_SIZE + TAG_SIZE);
    remainder ← on_rx (open_record ciphertext);
    data ← st_lift (copy_slice (zeros first_padded) 0 INLINE_SIZE inline);
    st_lift (copy_slice data INLINE_SIZE (zlen data) remainder)
  else mret inline.

(** The other segments and the late status. *)
Definition read_others (others : list Descriptor) (wire_size first_padded : Z) : RM (list Segment) :=
  remaining_size ← st_lift (check_sub wire_size SECURE_PREAMBLE_SIZE);
  remaining_size ← st_lift
    (if INLINE_SIZE <? first_padded
     then check_sub remaining_size (first_padded - INLINE_SIZE + TAG_SIZE)
     else Ok remaining_size);
  ciphertext ← read_bytes remaining_size;
  record ← on_rx (open_record ciphertext);
  '(offset, segs) ← st_lift (split_segments others 0 record);
  epilogue ← st_lift (slice_from record offset);
  _ ← st_lift (secure_late_status epilogue);
  mret segs.

(** What follows the first record. *)
Definition read_tail (tag : Tag) (ds : list Descriptor) (first : list byte) (wire_size : Z) : RM Frame :=
  match ds with
  | [] => st_lift (Err SF_Panic)
  | d0 :: others =>
      first_padded ← st_lift (padded_length (d_length d0));
      first_data ← read_first first first_padded;
      padding ← st_lift (slice_from first_data (d_length d0));
      _ ← st_fail_if (negb (all_zero padding)) (SF_Error FE_Malformed);
      let s0 := mkSegment (d_alignment d0) (take (Z.to_nat (d_length d0)) first_data) in
      match others with
      | [] => mret (mkFrame tag [s0])
      | _ => segs ← read_others others wire_size first_padded; mret (mkFrame tag (s0 :: segs))
      end
  end.

Definition SecureCodec_read_reserved (limits : Limits)
    (reserve : Tag -> Z -> result FrameError unit) : RM Frame :=
  d ← on_rx (st_gets Ok);
  _ ← st_fail_if (negb (available d 1)) (SF_Error FE_CounterExhausted);
  _ ← st_fail_if (max_frame_bytes limits <? SECURE_PREAMBLE_SIZE) (SF_Error FE_LimitExceeded);
  first_ciphertext ← read_bytes SECURE_PREAMBLE_SIZE;
  first ← on_rx (open_record first_ciphertext);
  preamble ← st_lift (slice first 0 PREAMBLE_SIZE);
  '(tag, ds) ← st_lift (frame_result (decode_preamble preamble));
  '(wire_size, records) ← st_lift (validate_descriptors ds limits);
  _ ← st_lift (frame_result (reserve tag wire_size));
  d ← on_rx (st_gets Ok);
  _ ← st_fail_if (negb (available d (records - 1))) (SF_Error FE_CounterExhausted);
  read_tail tag ds first wire_size.

(** [read] and [read_async]: every reservation succeeds. *)
Definition SecureCodec_read (limits : Limits) : RM Frame :=
  SecureCodec_read_reserved limits (fun _ _ => Ok tt).

End Secure.

(** ** Padding *)

(** The next multiple of the block size. *)
Definition pad (n : Z) : Z := (n + 15) / 16 * 16.

Lemma pad_bounds n : n <= pad n < n + 16.
Proof. unfold pad. pose proof (Z.div_mod (n + 15) 16). pose proof (Z.mod_pos_bound (n + 15) 16). lia. Qed.

(** The first segment is inline exactly when it has at most 48 bytes. *)
Lemma pad_inline n : (INLINE_SIZE <? pad n) = (INLINE_SIZE <? n).
Proof.
  unfold INLINE_SIZE, pad. pose proof (Z.div_mod (n + 15) 16). pose proof (Z.mod_pos_bound (n + 15) 16).
  destruct (Z.ltb_spec 48 ((n + 15) / 16 * 16)), (Z.ltb_spec 48 n); lia.
Qed.

Lemma padded_length_pad n : in_u 32 n -> padded_length n = Ok (pad n).
Proof.
  intros Hn. unfold padded_length, checked_add, BLOCK_SIZE, in_u in *.
  rewrite (proj2 (Z.ltb_lt _ _)) by lia. rewrite ok_or_Some, bind_Ok. cbn [frame_result map_err].
  change (16 - 1) with (Z.ones 4). rewrite Z.ldiff_ones_r by lia.
  rewrite Z.shiftl_mul_pow2, Z.shiftr_div_pow2 by lia. done.
Qed.

Lemma zlen_zeros n : 0 <= n -> zlen (zeros n) = n.
Proof. intros H. unfold zeros, zlen. rewrite length_replicate. lia. Qed.

Lemma zeros_app a b : 0 <= a -> 0 <= b -> zeros (a + b) = zeros a ++ zeros b.
Proof. intros Ha Hb. unfold zeros. by rewrite Z2Nat.inj_add, replicate_add by lia. Qed.

Lemma all_zero_zeros n : all_zero (zeros n) = true.
Proof. unfold all_zero, zeros. by induction (Z.to_nat n). Qed.

Definition padded_data (s : Segment) : list byte :=
  seg_data s ++ zeros (pad (zlen (seg_data s)) - zlen (seg_data s)).

Lemma zlen_padded_data s : zlen (padded_data s) = pad (zlen (seg_data s)).
Proof.
  unfold padded_data. pose proof (pad_bounds (zlen (seg_data s))).
  rewrite zlen_app, zlen_zeros by lia. lia.
Qed.

(** ** Slices of concatenations *)

Lemma slice_app a b c : slice (a ++ b ++ c) (zlen a) (zlen a + zlen b) = Ok b.
Proof.
  unfold slice. pose proof (zlen_nonneg a). pose proof (zlen_nonneg b). pose proof (zlen_nonneg c).
  rewrite !zlen_app, !(proj2 (Z.leb_le _ _)) by lia. cbn [andb]. f_equal.
  replace (zlen a + zlen b - zlen a) with (zlen b) by lia. unfold zlen.
  by rewrite !Nat2Z.id, drop_app_length, take_app_length.
Qed.

Lemma slice_app_at a b c from to :
  from = zlen a -> to = zlen a + zlen b -> slice (a ++ b ++ c) from to = Ok b.
Proof. intros -> ->. apply slice_app. Qed.

Lemma slice_from_app a b from : from = zlen a -> slice_from (a ++ b) from = Ok b.
Proof.
  intros ->. unfold slice_from. rewrite <- (app_nil_r b) at 1. apply slice_app_at; [done|].
  by rewrite zlen_app.
Qed.

Lemma copy_slice_app a b c source from to :
  from = zlen a -> to = zlen a + zlen b -> zlen source = zlen b ->
  copy_slice (a ++ b ++ c) from to source = Ok (a ++ source ++ c).
Proof.
  intros -> -> Hs. unfold copy_slice.
  pose proof (zlen_nonneg a). pose proof (zlen_nonneg b). pose proof (zlen_nonneg c).
  rewrite !zlen_app, !(proj2 (Z.leb_le _ _)), (proj2 (Z.eqb_eq _ _)) by lia. cbn [andb]. f_equal.
  unfold copy_at. unfold zlen in *. rewrite Nat2Z.id, take_app_length. do 2 f_equal.
  rewrite <- drop_drop, drop_app_length. apply drop_app_length'. lia.
Qed.

Lemma copy_slice_head b c source to :
  to = zlen b -> zlen source = zlen b -> copy_slice (b ++ c) 0 to source = Ok (source ++ c).
Proof. intros Ht Hs. by apply (copy_slice_app [] b c). Qed.

Lemma slice_head b c to : to = zlen b -> slice (b ++ c) 0 to = Ok b.
Proof. intros Ht. by apply (slice_app_at [] b c). Qed.

(** ** The records of a frame *)

Definition data_ok (s : Segment) : Prop := in_u 32 (zlen (seg_data s)).

Definition inline_image (data : list byte) : list byte :=
  take 48 data ++ zeros (INLINE_SIZE - Z.min (zlen data) INLINE_SIZE).

Lemma zlen_take_inline (data : list byte) : zlen (take 48 data) = Z.min (zlen data) INLINE_SIZE.
Proof. unfold zlen, INLINE_SIZE. rewrite length_take. lia. Qed.

Lemma first_record_spec (preamble data : list byte) :
  zlen preamble = PREAMBLE_SIZE ->
  first_record preamble data = Ok (preamble ++ inline_image data).
Proof.
  intros Hp. unfold first_record, inline_image. pose proof (zlen_nonneg data) as Hd.
  pose proof (zlen_take_inline data) as Ht.
  set (n := Z.min (zlen data) INLINE_SIZE) in *. assert (0 <= n <= 48) by (unfold n, INLINE_SIZE; lia).
  rewrite (zeros_app PREAMBLE_SIZE INLINE_SIZE) by done.
  rewrite copy_slice_head, bind_Ok by done.
  assert (zeros INLINE_SIZE = zeros n ++ zeros (INLINE_SIZE - n)) as ->
    by (rewrite <- zeros_app by (unfold INLINE_SIZE; lia); f_equal; lia).
  assert (slice data 0 n = Ok (take 48 data)) as ->.
  { rewrite <- (take_drop 48 data) at 1. by apply slice_head. }
  rewrite bind_Ok.
  apply copy_slice_app; [done| |]; rewrite ?Hp, zlen_zeros by lia; lia.
Qed.

Lemma remainder_record_spec (data : list byte) :
  in_u 32 (zlen data) ->
  remainder_record data
  = Ok (if INLINE_SIZE <? zlen data
        then [drop 48 data ++ zeros (pad (zlen data) - zlen data)] else []).
Proof.
  intros Hd. unfold remainder_record. rewrite padded_length_pad, bind_Ok, pad_inline by done.
  destruct (Z.ltb_spec INLINE_SIZE (zlen data)) as [Hlt|]; [|done].
  pose proof (pad_bounds (zlen data)). unfold INLINE_SIZE in *.
  assert (zlen (take 48 data) = 48) as Ht by (rewrite zlen_take_inline; unfold INLINE_SIZE; lia).
  assert (zlen (drop 48 data) = zlen data - 48) as Hr
    by (rewrite <- (take_drop 48 data) at 2; rewrite zlen_app; lia).
  rewrite <- (take_drop 48 data) at 1. rewrite slice_from_app, bind_Ok by done.
  replace (pad (zlen data) - 48) with (zlen data - 48 + (pad (zlen data) - zlen data)) by lia.
  rewrite zeros_app by lia.
  by rewrite copy_slice_head by (rewrite zlen_zeros by lia; lia).
Qed.

(** The sum of the padded lengths. *)
Definition padded_total (segs : list Segment) : Z := zlen (concat (map padded_data segs)).

Lemma padded_total_cons s segs :
  padded_total (s :: segs) = pad (zlen (seg_data s)) + padded_total segs.
Proof. unfold padded_total. cbn [map concat]. by rewrite zlen_app, zlen_padded_data. Qed.

Lemma copy_segments_spec segs : forall pre tail,
  Forall data_ok segs ->
  copy_segments segs (zlen pre) (pre ++ zeros (padded_total segs) ++ tail)
  = Ok (zlen pre + padded_total segs, pre ++ concat (map padded_data segs) ++ tail).
Proof.
  induction segs as [|s segs IH]; intros pre tail Hs.
  { unfold padded_total. cbn. by rewrite Z.add_0_r. }
  apply Forall_cons in Hs as [Hd Hs]. rewrite padded_total_cons. cbn [copy_segments map concat].
  pose proof (pad_bounds (zlen (seg_data s))). pose proof (zlen_nonneg (seg_data s)).
  pose proof (zlen_nonneg (concat (map padded_data segs))) as Hn. fold (padded_total segs) in Hn.
  replace (pad (zlen (seg_data s)) + padded_total segs)
    with (zlen (seg_data s) + (pad (zlen (seg_data s)) - zlen (seg_data s) + padded_total segs)) at 1 by lia.
  rewrite zeros_app by lia. rewrite <- app_assoc.
  rewrite copy_slice_app by (rewrite ?zlen_zeros by lia; lia).
  rewrite bind_Ok, padded_length_pad, bind_Ok by done. rewrite zeros_app by lia.
  specialize (IH (pre ++ padded_data s) tail Hs). rewrite zlen_app, zlen_padded_data in IH.
  unfold padded_data in IH at 1. rewrite <- !app_assoc in *. rewrite IH. do 2 f_equal. lia.
Qed.

Lemma add_padded_spec segs : forall t n,
  Forall data_ok segs -> add_padded t (map (fun s => zlen (seg_data s)) segs) = Ok n ->
  n = t + padded_total segs.
Proof.
  induction segs as [|s segs IH]; intros t n Hs H; cbn [add_padded map] in H.
  { apply Ok_inj in H as ->. change (padded_total []) with 0. lia. }
  apply Forall_cons in Hs as [Hd Hs]. rewrite padded_length_pad, bind_Ok in H by done.
  apply bind_inv in H as (t' & Ht & H). apply (IH _ _ Hs) in H. rewrite padded_total_cons.
  unfold add_size, checked_add in Ht. destruct (_ <? _); [|done]. cbn in Ht.
  apply Ok_inj in Ht as <-. lia.
Qed.

Definition last_image (segs : list Segment) : list byte :=
  concat (map padded_data segs) ++ le_bytes 1 LATE_STATUS_COMPLETE ++ zeros 15.

Lemma last_record_spec segs records :
  segs <> [] -> Forall data_ok segs -> last_record segs = Ok records -> records = [last_image segs].
Proof.
  intros Hne Hs H. unfold last_record in H. destruct segs as [|s0 segs0]; [done|].
  set (segs := s0 :: segs0) in *. apply bind_inv in H as (size & Hsz & H).
  apply (add_padded_spec _ _ _ Hs) in Hsz as ->. unfold BLOCK_SIZE in H.
  pose proof (zlen_nonneg (concat (map padded_data segs))) as Hn. fold (padded_total segs) in Hn.
  rewrite Z.add_comm, zeros_app in H by lia.
  pose proof (copy_segments_spec segs [] (zeros 16) Hs) as E. cbn [app] in E.
  change (zlen (@nil byte)) with 0 in E. rewrite E, bind_Ok in H. rewrite Z.add_0_l in H.
  change (zeros 16) with (zeros 1 ++ zeros 15) in H.
  rewrite copy_slice_app in H by done. rewrite bind_Ok in H. by apply Ok_inj in H as <-.
Qed.

(** ** Directions in step *)

Definition direction_ok (d : Direction) : Prop := in_u 32 (fixed d) /\ in_u 64 (counter d).

(** [d] after [n] nonces; the counter stays at its last value and the direction
    is exhausted once that value is used. *)
Definition next_direction (d : Direction) : Direction :=
  if counter d =? u64_max
  then mkDirection (cipher_key d) (fixed d) (counter d) true
  else mkDirection (cipher_key d) (fixed d) (counter d + 1) (exhausted d).

Lemma next_direction_ok d : direction_ok d -> direction_ok (next_direction d).
Proof.
  intros [Hf Hc]. unfold next_direction, direction_ok, in_u, u64_max in *.
  destruct (Z.eqb_spec (counter d) 18446744073709551615); simpl; lia.
Qed.

Lemma next_direction_key d : cipher_key (next_direction d) = cipher_key d.
Proof. unfold next_direction. by destruct (_ =? _). Qed.

Lemma available_next d n :
  direction_ok d -> available d n = true -> 1 <= n -> available (next_direction d) (n - 1) = true.
Proof.
  intros [_ Hc] Ha Hn. unfold available, next_direction, saturating_sub, in_u, u64_max in *.
  destruct (Z.eqb_spec (n - 1) 0); [done|]. destruct (Z.eqb_spec n 0); [lia|]. cbn [orb] in *.
  apply andb_prop in Ha as [He Ha]. apply Z.leb_le in Ha.
  destruct (Z.eqb_spec (counter d) 18446744073709551615); [lia|].
  cbn [exhausted counter]. rewrite He. apply Z.leb_le. lia.
Qed.

Lemma available_1 d n : available d n = true -> 1 <= n -> available d 1 = true.
Proof.
  unfold available, saturating_sub. destruct (Z.eqb_spec n 0); [lia|]. cbn.
  intros H Hn. apply andb_prop in H as [-> H]. cbn. apply Z.leb_le. lia.
Qed.

Section Sealing.
  Context {crc_crate : Crc32cCrate} {aes_crate : AesGcmCrate}.

Lemma seal_inv pt d c d' :
  seal pt d = (Ok c, d') ->
  available d 1 = true /\ d' = next_direction d
  /\ aes_encrypt (cipher_key d) (nonce_bytes d) pt = Some c.
Proof.
  unfold seal, Direction_nonce, mbind, St_bind. destruct (available d 1); [|done].
  cbn [negb]. fold (next_direction d). unfold st_gets, frame_result. intros H.
  rewrite next_direction_key in H. destruct (aes_encrypt _ _ _) as [c'|]; [|done]. cbn in H. by simplify_eq.
Qed.

Lemma seal_records_acc rs : forall out0 d,
  seal_records rs out0 d
  = match seal_records rs [] d with
    | (Ok s, d') => (Ok (out0 ++ s), d')
    | (Err e, d') => (Err e, d')
    end.
Proof.
  induction rs as [|r rs IH]; intros out0 d.
  - cbn. unfold mret, St_ret. by rewrite app_nil_r.
  - cbn [seal_records]. unfold mbind, St_bind. destruct (seal r d) as [[c|e] d1]; [|done].
    rewrite IH, (IH ([] ++ c)). destruct (seal_records rs [] d1) as [[s|e] d2]; [|done].
    by rewrite <- app_assoc.
Qed.

Lemma seal_records_inv r rs d out d' :
  seal_records (r :: rs) [] d = (Ok out, d') ->
  exists c out', seal r d = (Ok c, next_direction d)
    /\ seal_records rs [] (next_direction d) = (Ok out', d') /\ out = c ++ out'.
Proof.
  cbn [seal_records]. unfold mbind, St_bind. destruct (seal r d) as [[c|e] d1] eqn:Hs; [|done].
  apply seal_inv in Hs as Hi. destruct Hi as (_ & -> & _). cbn [app].
  rewrite seal_records_acc. destruct (seal_records rs [] (next_direction d)) as [[s|e] d2] eqn:E; [|done].
  intros H. injection H as <- <-. by exists c, s.
Qed.

Lemma open_seal `{!AesGcmLaws aes_crate} pt d c d' :
  seal pt d = (Ok c, d') ->
  open_record c d = (Ok pt, d') /\ zlen c = zlen pt + 16.
Proof.
  intros H. apply seal_inv in H as (Ha & -> & He). split; [|by eapply aes_seal_length].
  unfold open_record, Direction_nonce, mbind, St_bind. rewrite Ha. cbn [negb].
  fold (next_direction d). unfold st_gets, frame_result.
  assert (cipher_key (next_direction d) = cipher_key d) as -> by apply next_direction_key.
  by rewrite (aes_open_seal _ _ _ _ He).
Qed.
End Sealing.

(** ** Sizes of valid frames *)

Lemma check_descriptors_inv ds limits :
  check_descriptors ds limits = Ok tt ->
  Forall (fun d => d_length d <= max_segment_bytes limits) ds.
Proof.
  induction ds as [|d ds IH]; cbn [check_descriptors]; intros H; [done|].
  split_if. bool_prop. constructor; eauto.
Qed.

Lemma add_size_inv a b c : add_size a b = Ok c -> c = a + b.
Proof.
  unfold add_size, checked_add. destruct (_ <? _); [|done]. cbn. intros H. by apply Ok_inj in H.
Qed.

(** The records a frame takes and the bytes they have on the wire. *)
Definition record_count (s0 : Segment) (others : list Segment) : Z :=
  1 + (if INLINE_SIZE <? zlen (seg_data s0) then 1 else 0)
  + (match others with [] => 0 | _ => 1 end).

Definition remainder_size (s0 : Segment) : Z :=
  if INLINE_SIZE <? zlen (seg_data s0) then pad (zlen (seg_data s0)) - INLINE_SIZE + TAG_SIZE else 0.

Definition others_size (others : list Segment) : Z :=
  match others with [] => 0 | _ => BLOCK_SIZE + TAG_SIZE + padded_total others end.

Lemma validate_descriptors_spec s0 others limits w r :
  Forall data_ok (s0 :: others) ->
  validate_descriptors (map descriptor_of (s0 :: others)) limits = Ok (w, r) ->
  w = SECURE_PREAMBLE_SIZE + remainder_size s0 + others_size others
  /\ r = record_count s0 others /\ w <= max_frame_bytes limits.
Proof.
  intros Hd H. apply Forall_cons in Hd as [H0 Hd]. unfold validate_descriptors in H.
  apply bind_inv in H as ([] & Hc & H). cbn [map] in H.
  cbn [descriptor_of d_length] in H. rewrite padded_length_pad, bind_Ok in H by done.
  rewrite pad_inline in H. apply bind_inv in H as ([w1 r1] & H1 & H).
  apply bind_inv in H as ([w2 r2] & H2 & H).
  destruct (Z.ltb_spec (max_frame_bytes limits) w2); [done|].
  apply Ok_inj in H. injection H as <- <-.
  assert (w1 = SECURE_PREAMBLE_SIZE + remainder_size s0
    /\ r1 = 1 + (if INLINE_SIZE <? zlen (seg_data s0) then 1 else 0)) as [-> ->].
  { unfold remainder_size. destruct (INLINE_SIZE <? _).
    - apply bind_inv in H1 as (w' & Hw & H1). apply add_size_inv in Hw as ->.
      apply Ok_inj in H1. injection H1 as <- <-. lia.
    - apply Ok_inj in H1. injection H1 as <- <-. lia. }
  unfold record_count, others_size. destruct others as [|s1 others].
  { apply Ok_inj in H2. injection H2 as <- <-. split_and!; lia. }
  cbn [map] in H2. apply bind_inv in H2 as (w3 & Hw3 & H2). apply add_size_inv in Hw3 as ->.
  apply bind_inv in H2 as (w4 & Hw4 & H2). apply Ok_inj in H2. injection H2 as <- <-.
  assert (w4 = SECURE_PREAMBLE_SIZE + remainder_size s0 + (BLOCK_SIZE + TAG_SIZE)
    + padded_total (s1 :: others)) as ->; [|split_and!; lia].
  apply add_padded_spec; [done|]. rewrite <- Hw4. cbn [map d_length descriptor_of].
  by rewrite map_map.
Qed.

Lemma prepared_descriptors_spec segs ds :
  prepared_descriptors segs = Ok ds -> ds = map descriptor_of segs /\ Forall data_ok segs.
Proof.
  revert ds. induction segs as [|s segs IH]; intros ds H; cbn [prepared_descriptors] in H.
  { by apply Ok_inj in H as <-. }
  destruct (negb _); [done|]. apply bind_inv in H as (n & Hn & H).
  apply bind_inv in H as (ds' & Hds & H). apply Ok_inj in H as <-.
  destruct (IH _ Hds) as [-> HF]. unfold try_u in Hn.
  destruct (Z.leb_spec 0 (zlen (seg_data s))), (Z.ltb_spec (zlen (seg_data s)) (2 ^ 32));
    try done. cbn in Hn. apply Ok_inj in Hn as <-. split; [done|]. by constructor.
Qed.

Lemma split_segments_spec segs : forall pre tail,
  Forall data_ok segs ->
  split_segments (map descriptor_of segs) (zlen pre) (pre ++ concat (map padded_data segs) ++ tail)
  = Ok (zlen pre + padded_total segs, segs).
Proof.
  induction segs as [|s segs IH]; intros pre tail Hs.
  { cbn. by rewrite Z.add_0_r. }
  apply Forall_cons in Hs as [Hd Hs]. rewrite padded_total_cons. cbn [map concat split_segments].
  cbn [descriptor_of d_length d_alignment]. rewrite padded_length_pad, bind_Ok by done.
  pose proof (pad_bounds (zlen (seg_data s))).
  specialize (IH (pre ++ padded_data s) tail Hs). rewrite zlen_app, zlen_padded_data in IH.
  rewrite <- !app_assoc in *. set (record := pre ++ padded_data s ++ _) in *.
  assert (record = pre ++ seg_data s ++ zeros (pad (zlen (seg_data s)) - zlen (seg_data s))
    ++ concat (map padded_data segs) ++ tail) as E
    by (unfold record, padded_data at 1; by rewrite <- !app_assoc).
  assert (slice record (zlen pre + zlen (seg_data s)) (zlen pre + pad (zlen (seg_data s)))
    = Ok (zeros (pad (zlen (seg_data s)) - zlen (seg_data s)))) as ->.
  { rewrite E, (app_assoc pre). apply slice_app_at; rewrite zlen_app, ?zlen_zeros by lia; lia. }
  rewrite bind_Ok, all_zero_zeros. cbn [negb].
  assert (slice record (zlen pre) (zlen pre + zlen (seg_data s)) = Ok (seg_data s)) as ->
    by (rewrite E; by apply slice_app_at).
  rewrite bind_Ok, IH, bind_Ok. do 2 f_equal; [lia|]. by destruct s.
Qed.

Lemma secure_late_status_image :
  secure_late_status (le_bytes 1 LATE_STATUS_COMPLETE ++ zeros 15) = Ok tt.
Proof. reflexivity. Qed.

(** ** Encoding and reading back *)

Section RoundTrip.
  Context {crc_crate : Crc32cCrate} {aes_crate : AesGcmCrate}.

Definition remainder_image (data : list byte) : list (list byte) :=
  if INLINE_SIZE <? zlen data then [drop 48 data ++ zeros (pad (zlen data) - zlen data)] else [].

Definition others_image (others : list Segment) : list (list byte) :=
  match others with [] => [] | _ => [last_image others] end.

Definition records_image (tag : Tag) (s0 : Segment) (others : list Segment) : list (list byte) :=
  (encode_preamble tag (map descriptor_of (s0 :: others)) ++ inline_image (seg_data s0))
  :: remainder_image (seg_data s0) ++ others_image others.

Lemma zlen_encode_preamble tag (segs : list Segment) :
  (length segs <= 4)%nat -> zlen (encode_preamble tag (map descriptor_of segs)) = PREAMBLE_SIZE.
Proof. apply zlen_preamble. Qed.

Lemma plaintext_records_spec s0 others w r tag records :
  (length (s0 :: others) <= 4)%nat -> Forall data_ok (s0 :: others) ->
  plaintext_records (mkPreparedFrame (map descriptor_of (s0 :: others)) (s0 :: others) w r) tag
    = Ok records ->
  records = records_image tag s0 others.
Proof.
  intros Hl Hd H. apply Forall_cons in Hd as [H0 Hd]. unfold plaintext_records in H.
  cbn [p_segments p_descriptors] in H.
  rewrite first_record_spec, bind_Ok, remainder_record_spec, bind_Ok in H
    by (done || by apply zlen_encode_preamble).
  apply bind_inv in H as (last & Hlast & H). apply Ok_inj in H as <-.
  unfold records_image. do 2 f_equal. unfold others_image. destruct others as [|s1 others].
  - by apply Ok_inj in Hlast as <-.
  - by apply last_record_spec in Hlast.
Qed.

Lemma SecureCodec_encode_inv frame limits d wire d' :
  SecureCodec_encode frame limits d = (Ok wire, d') ->
  exists s0 others w r,
    normalized_segments (segments frame) = Ok (s0 :: others)
    /\ Forall data_ok (s0 :: others) /\ tag_u8 (frame_tag frame) <= tag_u8 T_Ack
    /\ validate_descriptors (map descriptor_of (s0 :: others)) limits = Ok (w, r)
    /\ available d r = true
    /\ seal_records (records_image (frame_tag frame) s0 others) [] d = (Ok wire, d').
Proof.
  unfold SecureCodec_encode, mbind, St_bind, st_lift, st_gets, st_fail_if.
  destruct (PreparedFrame_new frame limits) as [p|] eqn:Hp; [|done].
  destruct (available d (p_records p)) eqn:Ha; cbn [negb]; [|done].
  destruct (plaintext_records p (frame_tag frame)) as [rs|] eqn:Hr; [|done]. intros H.
  unfold PreparedFrame_new in Hp. apply bind_inv in Hp as (ns & Hn & Hp).
  destruct (normalized_segments (segments frame)) as [ns'|] eqn:Hns; [|done].
  apply Ok_inj in Hn as ->. apply normalized_segments_spec in Hns as Hspec.
  destruct Hspec as (Hl & _). destruct (Z.ltb_spec (tag_u8 T_Ack) (tag_u8 (frame_tag frame))); [done|].
  apply bind_inv in Hp as (ds & Hds & Hp). apply prepared_descriptors_spec in Hds as [-> Hd].
  apply bind_inv in Hp as ([w r] & Hv & Hp). apply Ok_inj in Hp as <-. cbn [p_records] in Ha.
  destruct ns as [|s0 others]; [simpl in Hl; lia|]. exists s0, others, w, r.
  apply plaintext_records_spec in Hr as ->; [done|lia|done].
Qed.

Lemma read_bytes_app a b n d : zlen a = n -> read_bytes n (d, a ++ b) = (Ok a, (d, b)).
Proof. intros H. unfold read_bytes. by rewrite read_exact_app. Qed.

  Context `{!AesGcmLaws aes_crate}.

Lemma on_rx_open pt d c d' reader :
  seal pt d = (Ok c, d') -> on_rx (open_record c) (d, reader) = (Ok pt, (d', reader)).
Proof. intros H. apply open_seal in H as [H _]. unfold on_rx. by rewrite H. Qed.

(** The first segment and its padding. *)
Lemma read_first_spec preamble s0 d d' wire rest :
  zlen preamble = PREAMBLE_SIZE -> data_ok s0 ->
  seal_records (remainder_image (seg_data s0)) [] d = (Ok wire, d') ->
  exists k, read_first (preamble ++ inline_image (seg_data s0)) (pad (zlen (seg_data s0)))
      (d, wire ++ rest) = (Ok (seg_data s0 ++ zeros k), (d', rest))
    /\ zlen wire = remainder_size s0.
Proof.
  intros Hp Hd H. set (data := seg_data s0) in *. pose proof (pad_bounds (zlen data)) as Hb.
  unfold read_first. rewrite (st_lift_Ok _ _ _ (inline_image data)) by (by apply slice_from_app).
  rewrite pad_inline. unfold remainder_image, remainder_size, inline_image in *. fold data.
  destruct (Z.ltb_spec INLINE_SIZE (zlen data)) as [Hlt|Hge].
  - apply seal_records_inv in H as (c & out' & Hc & H & ->). injection H as <- <-.
    rewrite app_nil_r. apply open_seal in Hc as Ho. destruct Ho as [_ Hz].
    assert (zlen (drop 48 data) = zlen data - 48) as Hdrop.
    { unfold zlen, INLINE_SIZE in *. rewrite length_drop. lia. }
    rewrite zlen_app, zlen_zeros, Hdrop in Hz by lia. unfold INLINE_SIZE, TAG_SIZE in *.
    exists (pad (zlen data) - zlen data). split; [|lia].
    rewrite (St_bind_Ok _ _ _ _ _ (read_bytes_app c rest (pad (zlen data) - 48 + 16) d ltac:(lia))).
    rewrite (St_bind_Ok _ _ _ _ _ (on_rx_open _ _ _ _ rest Hc)).
    replace (48 - Z.min (zlen data) 48) with 0 by lia. change (zeros 0) with (@nil byte).
    rewrite app_nil_r. assert (zlen (take 48 data) = 48) as Ht
      by (rewrite zlen_take_inline; unfold INLINE_SIZE; lia).
    replace (pad (zlen data)) with (48 + (pad (zlen data) - 48)) at 1 by lia.
    rewrite zeros_app by lia.
    rewrite (st_lift_Ok _ _ _ (take 48 data ++ zeros (pad (zlen data) - 48)))
      by (by apply copy_slice_head).
    unfold st_lift. rewrite <- (app_nil_r (zeros (pad (zlen data) - 48))) at 1 2.
    rewrite copy_slice_app; [|done|..]; rewrite ?zlen_app, ?zlen_zeros, ?Hdrop by lia;
      change (zlen (@nil byte)) with 0; try lia.
    by rewrite app_nil_r, app_assoc, take_drop.
  - injection H as <- <-. exists (INLINE_SIZE - Z.min (zlen data) INLINE_SIZE). split; [|done].
    rewrite take_ge; [done|]. unfold zlen, INLINE_SIZE in *. lia.
Qed.

Lemma seal_records_app rs1 : forall rs2 d out d',
  seal_records (rs1 ++ rs2) [] d = (Ok out, d') ->
  exists o1 o2 d1, seal_records rs1 [] d = (Ok o1, d1)
    /\ seal_records rs2 [] d1 = (Ok o2, d') /\ out = o1 ++ o2.
Proof.
  induction rs1 as [|r rs1 IH]; intros rs2 d out d' H; [by exists [], out, d|].
  apply seal_records_inv in H as (c & out' & Hc & H & ->).
  apply IH in H as (o1 & o2 & d1 & H1 & H2 & ->). exists (c ++ o1), o2, d1.
  split_and!; [|done|by rewrite app_assoc].
  cbn [seal_records]. rewrite (St_bind_Ok _ _ _ _ _ Hc), seal_records_acc. by rewrite H1.
Qed.

Lemma read_others_spec s1 others s0 d d' wire rest :
  Forall data_ok (s1 :: others) -> data_ok s0 ->
  seal_records [last_image (s1 :: others)] [] d = (Ok wire, d') ->
  read_others (map descriptor_of (s1 :: others))
    (SECURE_PREAMBLE_SIZE + remainder_size s0 + others_size (s1 :: others))
    (pad (zlen (seg_data s0))) (d, wire ++ rest) = (Ok (s1 :: others), (d', rest))
  /\ zlen wire = others_size (s1 :: others).
Proof.
  intros Hd H0 H. apply seal_records_inv in H as (c & out' & Hc & H & ->). injection H as <- <-.
  rewrite app_nil_r. set (segs := s1 :: others) in *.
  apply open_seal in Hc as Ho. destruct Ho as [_ Hz].
  assert (zlen c = others_size segs) as Hlen.
  { rewrite Hz. unfold last_image. rewrite !zlen_app, zlen_zeros, zlen_le_bytes by lia.
    change (others_size segs) with (16 + 16 + padded_total segs). unfold padded_total. lia. }
  split; [|done]. pose proof (zlen_nonneg c). pose proof (pad_bounds (zlen (seg_data s0))).
  assert (0 <= remainder_size s0) as Hrem
    by (unfold remainder_size, TAG_SIZE, INLINE_SIZE; destruct (Z.ltb_spec 48 (zlen (seg_data s0))); lia).
  unfold read_others, check_sub.
  rewrite (st_lift_Ok _ _ _ (remainder_size s0 + zlen c))
    by (rewrite (proj2 (Z.ltb_ge _ _)) by lia; f_equal; lia).
  rewrite (st_lift_Ok _ _ _ (zlen c)).
  2:{ rewrite pad_inline. unfold remainder_size in *. destruct (INLINE_SIZE <? _); [|done].
      rewrite (proj2 (Z.ltb_ge _ _)) by lia. f_equal. lia. }
  rewrite (St_bind_Ok _ _ _ _ _ (read_bytes_app c rest _ d eq_refl)).
  rewrite (St_bind_Ok _ _ _ _ _ (on_rx_open _ _ _ _ rest Hc)).
  pose proof (split_segments_spec segs [] (le_bytes 1 LATE_STATUS_COMPLETE ++ zeros 15) Hd) as Hs.
  rewrite (st_lift_Ok _ _ _ _ Hs).
  assert (slice_from (last_image segs) (zlen (@nil byte) + padded_total segs)
    = Ok (le_bytes 1 LATE_STATUS_COMPLETE ++ zeros 15)) as Hepi by (by apply slice_from_app).
  rewrite (st_lift_Ok _ _ _ _ Hepi).
  by rewrite (st_lift_Ok _ _ _ _ secure_late_status_image).
Qed.

Lemma zlen_inline_image data : zlen (inline_image data) = INLINE_SIZE.
Proof.
  unfold inline_image. pose proof (zlen_nonneg data).
  rewrite zlen_app, zlen_take_inline, zlen_zeros by (unfold INLINE_SIZE; lia). lia.
Qed.

(** What an encoded frame is on the wire: the sealed records in order. *)
Lemma wire_parts tag s0 others d wire d' :
  seal_records (records_image tag s0 others) [] d = (Ok wire, d') ->
  exists c1 c2 c3 d2,
    wire = c1 ++ c2 ++ c3
    /\ seal (encode_preamble tag (map descriptor_of (s0 :: others)) ++ inline_image (seg_data s0)) d
       = (Ok c1, next_direction d)
    /\ seal_records (remainder_image (seg_data s0)) [] (next_direction d) = (Ok c2, d2)
    /\ seal_records (others_image others) [] d2 = (Ok c3, d').
Proof.
  intros H. apply seal_records_inv in H as (c1 & out & Hc & H & ->).
  apply seal_records_app in H as (c2 & c3 & d2 & H2 & H3 & ->). by exists c1, c2, c3, d2.
Qed.

(** The first segment, checked and truncated. *)
Lemma first_segment_spec k s0 :
  slice_from (seg_data s0 ++ zeros k) (zlen (seg_data s0)) = Ok (zeros k)
  /\ mkSegment (alignment s0) (take (Z.to_nat (zlen (seg_data s0))) (seg_data s0 ++ zeros k)) = s0.
Proof.
  split; [by apply slice_from_app|]. unfold zlen. rewrite Nat2Z.id, take_app_length.
  by destruct s0.
Qed.

Lemma read_tail_spec tag preamble s0 others d d2 d' c2 c3 rest :
  zlen preamble = PREAMBLE_SIZE -> Forall data_ok (s0 :: others) ->
  seal_records (remainder_image (seg_data s0)) [] d = (Ok c2, d2) ->
  seal_records (others_image others) [] d2 = (Ok c3, d') ->
  read_tail tag (map descriptor_of (s0 :: others)) (preamble ++ inline_image (seg_data s0))
    (SECURE_PREAMBLE_SIZE + remainder_size s0 + others_size others) (d, c2 ++ c3 ++ rest)
  = (Ok (mkFrame tag (s0 :: others)), (d', rest))
  /\ zlen c2 = remainder_size s0 /\ zlen c3 = others_size others.
Proof.
  intros Hp Hd H2 H3. apply Forall_cons in Hd as [H0 Hd].
  destruct (read_first_spec _ _ _ _ _ (c3 ++ rest) Hp H0 H2) as (k & Hf & Hz).
  destruct (first_segment_spec k s0) as [Hpad Hseg].
  unfold read_tail. cbn [map]. cbn [descriptor_of d_length d_alignment].
  rewrite (st_lift_Ok _ _ _ _ (padded_length_pad _ H0)), (St_bind_Ok _ _ _ _ _ Hf).
  rewrite (st_lift_Ok _ _ _ _ Hpad), st_fail_if_false by (by rewrite all_zero_zeros).
  cbv zeta. rewrite Hseg. destruct others as [|s1 others].
  - injection H3 as <- <-. done.
  - destruct (read_others_spec s1 others s0 _ _ _ rest Hd H0 H3) as [Ho Hz3].
    split; [|done]. exact (St_bind_Ok _ _ _ _ _ Ho).
Qed.

Lemma secure_read_encode frame limits reserve d wire d' rest :
  Forall segment_ok (segments frame) -> direction_ok d ->
  SecureCodec_encode frame limits d = (Ok wire, d') ->
  reserve (frame_tag frame) (zlen wire) = Ok tt ->
  exists ns, normalized_segments (segments frame) = Ok ns
    /\ SecureCodec_read_reserved limits reserve (d, wire ++ rest)
       = (Ok (mkFrame (frame_tag frame) ns), (d', rest)).
Proof.
  intros Hs Hok H Hres.
  apply SecureCodec_encode_inv in H as (s0 & others & w & r & Hn & Hd & Ht & Hv & Ha & H).
  exists (s0 :: others). split; [done|].
  pose proof (decode_preamble_segments _ _ Hs Hn Hd Ht) as Hdec.
  apply validate_descriptors_spec in Hv as Hw; [|done]. destruct Hw as (Hw & Hr & Hmax).
  apply wire_parts in H as (c1 & c2 & c3 & d2 & -> & H1 & H2 & H3).
  apply normalized_segments_spec in Hn as (Hl & _).
  pose proof (zlen_encode_preamble (frame_tag frame) (s0 :: others) ltac:(lia)) as Hpre.
  set (preamble := encode_preamble _ _) in *. apply open_seal in H1 as Ho. destruct Ho as [_ Hz1].
  rewrite zlen_app, Hpre, zlen_inline_image in Hz1. change (zlen c1 = SECURE_PREAMBLE_SIZE) in Hz1.
  destruct (read_tail_spec (frame_tag frame) _ _ _ _ _ _ _ _ rest Hpre Hd H2 H3) as (Htail & Hz2 & Hz3).
  rewrite <- Hw in Htail. rewrite !zlen_app, Hz1, Hz2, Hz3, Z.add_assoc, <- Hw in Hres.
  pose proof (zlen_nonneg c2). pose proof (zlen_nonneg c3).
  assert (1 <= r) as Hr1 by (rewrite Hr; unfold record_count; destruct (_ <? _), others; lia).
  unfold SecureCodec_read_reserved. rewrite <- !app_assoc.
  rewrite (St_bind_Ok (on_rx (st_gets Ok)) _ _ d (d, c1 ++ c2 ++ c3 ++ rest)) by done.
  rewrite st_fail_if_false by (by rewrite (available_1 _ _ Ha)).
  rewrite st_fail_if_false by (apply Z.ltb_ge; lia).
  rewrite (St_bind_Ok _ _ _ _ _ (read_bytes_app c1 _ SECURE_PREAMBLE_SIZE d Hz1)).
  rewrite (St_bind_Ok _ _ _ _ _ (on_rx_open _ _ _ _ _ H1)).
  rewrite (st_lift_Ok _ _ _ _ (slice_head preamble _ _ (eq_sym Hpre))).
  rewrite (st_lift_Ok _ _ _ (frame_tag frame, map descriptor_of (s0 :: others))) by (by rewrite Hdec).
  rewrite (st_lift_Ok _ _ _ _ Hv), (st_lift_Ok _ _ _ tt) by (by rewrite Hres).
  rewrite (St_bind_Ok (on_rx (st_gets Ok)) _ _ (next_direction d)
    (next_direction d, c2 ++ c3 ++ rest)) by done.
  rewrite st_fail_if_false by (by rewrite available_next). exact Htail.
Qed.
End RoundTrip.

(** ** A stream of frames *)

Section Stream.
  Context {crc_crate : Crc32cCrate} {aes_crate : AesGcmCrate}.

(** Frames encoded one after the other; the first failure ends the run. *)
Fixpoint encode_all (frames : list Frame) (limits : Limits) : St Direction SecureFault (list (list byte)) :=
  match frames with
  | [] => mret []
  | f :: frames =>
      wire ← SecureCodec_encode f limits;
      wires ← encode_all frames limits;
      mret (wire :: wires)
  end.

Fixpoint read_all (n : nat) (limits : Limits) : St (Direction * list byte) SecureFault (list Frame) :=
  match n with
  | O => mret []
  | S n =>
      f ← SecureCodec_read limits;
      fs ← read_all n limits;
      mret (f :: fs)
  end.

(** A frame without its trailing empty segments. *)
Definition normalized (f g : Frame) : Prop :=
  frame_tag g = frame_tag f /\ normalized_segments (segments f) = Ok (segments g).

Lemma encode_all_inv f frames limits d wires d' :
  encode_all (f :: frames) limits d = (Ok wires, d') ->
  exists wire ws d1, SecureCodec_encode f limits d = (Ok wire, d1)
    /\ encode_all frames limits d1 = (Ok ws, d') /\ wires = wire :: ws.
Proof.
  cbn [encode_all]. unfold mbind, St_bind. destruct (SecureCodec_encode f limits d) as [[w|] d1]; [|done].
  destruct (encode_all frames limits d1) as [[ws|] d2] eqn:E; [|done].
  intros H. injection H as <- <-. by exists w, ws, d1.
Qed.

Lemma seal_records_direction rs : forall d out d',
  seal_records rs [] d = (Ok out, d') -> d' = Nat.iter (length rs) next_direction d.
Proof.
  induction rs as [|r rs IH]; intros d out d' H; [by injection H as _ <-|].
  apply seal_records_inv in H as (c & out' & _ & H & _). apply IH in H as ->.
  cbn [length]. by rewrite Nat.iter_succ_r.
Qed.

Lemma iter_direction_ok n d : direction_ok d -> direction_ok (Nat.iter n next_direction d).
Proof. intros H. induction n; [done|]. by apply next_direction_ok. Qed.

Lemma encode_direction_ok f limits d wire d' :
  direction_ok d -> SecureCodec_encode f limits d = (Ok wire, d') -> direction_ok d'.
Proof.
  intros Hd H. apply SecureCodec_encode_inv in H as (? & ? & ? & ? & _ & _ & _ & _ & _ & H).
  apply seal_records_direction in H as ->. by apply iter_direction_ok.
Qed.

Lemma stream_roundtrip `{!AesGcmLaws aes_crate} frames limits rest : forall d wires d',
  Forall (fun f => Forall segment_ok (segments f)) frames -> direction_ok d ->
  encode_all frames limits d = (Ok wires, d') ->
  exists gs, Forall2 normalized frames gs
    /\ read_all (length frames) limits (d, concat wires ++ rest) = (Ok gs, (d', rest)).
Proof.
  induction frames as [|f frames IH]; intros d wires d' Hf Hd H.
  { injection H as <- <-. exists []. by split. }
  apply Forall_cons in Hf as [Hs Hf].
  apply encode_all_inv in H as (w & ws & d1 & Hw & H & ->).
  destruct (IH _ _ _ Hf (encode_direction_ok _ _ _ _ _ Hd Hw) H) as (gs & Hgs & Hr).
  cbn [concat]. rewrite <- app_assoc.
  destruct (secure_read_encode f limits (fun _ _ => Ok tt) d w d1 (concat ws ++ rest) Hs Hd Hw eq_refl)
    as (ns & Hn & Hread).
  exists (mkFrame (frame_tag f) ns :: gs). split; [by constructor|].
  cbn [length read_all]. unfold SecureCodec_read. rewrite (St_bind_Ok _ _ _ _ _ Hread).
  by rewrite (St_bind_Ok _ _ _ _ _ Hr).
Qed.
End Stream.

Lemma slice_length data from to s : slice data from to = Ok s -> zlen s = to - from.
Proof.
  unfold slice. destruct (_ && _) eqn:Hc; [|done]. bool_prop. intros Hs. apply Ok_inj in Hs as <-.
  unfold zlen in *. rewrite length_take, length_drop. lia.
Qed.

Lemma Direction_new_ok key seed d : Direction_new key seed = Ok d -> direction_ok d.
Proof.
  unfold Direction_new. destruct (negb _); [done|]. intros H.
  apply bind_inv in H as (f & Hf & H). apply bind_inv in H as (c & Hc & H).
  apply slice_length in Hf. destruct (Z.eqb_spec (zlen c) 8) as [Hz|]; [|done].
  apply Ok_inj in H as <-. split; cbn [fixed counter].
  - pose proof (le_value_range f) as Hv. by rewrite Hf in Hv.
  - pose proof (le_value_range c) as Hv. by rewrite Hz in Hv.
Qed.

(** The two ends of a connection derive crossed directions. *)
Lemma new_crossed secret client server :
  SecureCodec_new secret false = Ok client -> SecureCodec_new secret true = Ok server ->
  rx server = tx client /\ rx client = tx server
  /\ direction_ok (tx client) /\ direction_ok (tx server).
Proof.
  unfold SecureCodec_new. destruct (negb _); [done|]. intros Hc Hs.
  destruct (slice secret 16 28) as [r|]; [|done]. destruct (slice secret 28 40) as [t|]; [|done].
  destruct (slice secret 0 KEY_SIZE) as [k|]; [|done]. rewrite !bind_Ok in Hc, Hs.
  destruct (Direction_new k t) as [dt|] eqn:Et, (Direction_new k r) as [dr|] eqn:Er; try done.
  rewrite !bind_Ok in Hc, Hs. apply Ok_inj in Hc as <-, Hs as <-. cbn [tx rx].
  split_and!; [done|done|by eapply Direction_new_ok|by eapply Direction_new_ok].
Qed.

(** ** Nonces *)

(** The nonces of [n] records from [d] on. *)
Definition nonces (n : nat) (d : Direction) : list (list byte) :=
  map (fun i => nonce_bytes (Nat.iter i next_direction d)) (seq 0 n).

Lemma iter_direction n d :
  direction_ok d -> counter d + Z.of_nat n <= u64_max ->
  Nat.iter n next_direction d
  = mkDirection (cipher_key d) (fixed d) (counter d + Z.of_nat n) (exhausted d).
Proof.
  intros Hd. induction n as [|n IH]; intros Hn.
  - cbn. rewrite Z.add_0_r. by destruct d.
  - change (Nat.iter (S n) next_direction d) with (next_direction (Nat.iter n next_direction d)).
    rewrite IH by lia. unfold next_direction. cbn [counter cipher_key fixed exhausted].
    rewrite (proj2 (Z.eqb_neq _ _)) by lia. f_equal. lia.
Qed.

Lemma nonce_bytes_inj d e :
  direction_ok d -> direction_ok e -> nonce_bytes d = nonce_bytes e -> counter d = counter e.
Proof.
  intros [_ Hd] [_ He] H. unfold nonce_bytes in H.
  apply app_inj_1 in H as [_ H]; [|by rewrite !length_le_bytes].
  apply (f_equal le_value) in H. rewrite !le_value_bytes in H.
  by rewrite !Z.mod_small in H by done.
Qed.

Lemma nonces_NoDup n d :
  direction_ok d -> counter d + Z.of_nat n <= u64_max + 1 -> NoDup (nonces n d).
Proof.
  intros Hd Hn. unfold nonces. apply NoDup_fmap_2_strong; [|apply NoDup_seq].
  intros i j Hi Hj H. apply elem_of_seq in Hi, Hj.
  apply nonce_bytes_inj in H; [|by apply iter_direction_ok|by apply iter_direction_ok].
  rewrite !iter_direction in H by (done || lia). cbn [counter] in H. lia.
Qed.

Lemma nonces_S n d : nonces (S n) d = nonce_bytes d :: nonces n (next_direction d).
Proof.
  unfold nonces. cbn [seq map]. f_equal. rewrite <- seq_shift, map_map.
  apply map_ext. intros i. by rewrite Nat.iter_succ_r.
Qed.

Section SealedAs.
  Context {crc_crate : Crc32cCrate} {aes_crate : AesGcmCrate}.

(** [cs] are the records [rs] sealed in order from [d] on. *)
Fixpoint sealed_as (d : Direction) (rs cs : list (list byte)) : Prop :=
  match rs, cs with
  | [], [] => True
  | r :: rs, c :: cs =>
      available d 1 = true /\ aes_encrypt (cipher_key d) (nonce_bytes d) r = Some c
      /\ sealed_as (next_direction d) rs cs
  | _, _ => False
  end.

Lemma sealed_as_app rs1 : forall d cs1 rs2 cs2,
  sealed_as d rs1 cs1 -> sealed_as (Nat.iter (length rs1) next_direction d) rs2 cs2 ->
  sealed_as d (rs1 ++ rs2) (cs1 ++ cs2).
Proof.
  induction rs1 as [|r rs1 IH]; intros d [|c cs1] rs2 cs2 H1 H2; try done.
  destruct H1 as (Ha & He & H1). split_and!; [done|done|]. apply IH; [done|].
  cbn [length] in H2. by rewrite Nat.iter_succ_r in H2.
Qed.

Lemma seal_records_sealed rs : forall d out d',
  seal_records rs [] d = (Ok out, d') ->
  exists cs, out = concat cs /\ sealed_as d rs cs.
Proof.
  induction rs as [|r rs IH]; intros d out d' H; [injection H as <- <-; by exists []|].
  apply seal_records_inv in H as (c & out' & Hc & H & ->).
  apply seal_inv in Hc as (Ha & _ & He). apply IH in H as (cs & -> & Hs).
  by exists (c :: cs).
Qed.

Lemma encode_all_sealed frames limits : forall d wires d',
  encode_all frames limits d = (Ok wires, d') ->
  exists rs cs, concat wires = concat cs /\ sealed_as d rs cs.
Proof.
  induction frames as [|f frames IH]; intros d wires d' H.
  { injection H as <- <-. by exists [], []. }
  apply encode_all_inv in H as (w & ws & d1 & Hw & H & ->).
  apply SecureCodec_encode_inv in Hw as (s0 & others & ? & ? & _ & _ & _ & _ & _ & Hw).
  apply seal_records_direction in Hw as Hd1. apply seal_records_sealed in Hw as (cs1 & -> & Hs1).
  apply IH in H as (rs2 & cs2 & E & Hs2). subst d1.
  exists (records_image (frame_tag f) s0 others ++ rs2), (cs1 ++ cs2).
  cbn [concat]. rewrite E, concat_app. split; [done|]. by apply sealed_as_app.
Qed.

Lemma sealed_as_bound rs : forall d cs,
  direction_ok d -> sealed_as d rs cs -> counter d + zlen rs <= u64_max + 1.
Proof.
  induction rs as [|r rs IH]; intros d [|c cs] Hd H; try done.
  { destruct Hd as [_ Hd]. change (zlen (@nil (list byte))) with 0. unfold in_u, u64_max in *. lia. }
  destruct H as (Ha & _ & H). rewrite zlen_cons.
  pose proof (IH _ _ (next_direction_ok _ Hd) H) as Hb. unfold next_direction in *.
  destruct (Z.eqb_spec (counter d) u64_max) as [E|]; cbn [counter] in Hb; [|lia].
  destruct rs as [|r2 rs]; [change (zlen (@nil (list byte))) with 0; lia|].
  destruct cs as [|c2 cs]; [done|]. destruct H as (Hx & _). unfold available in Hx. done.
Qed.

Lemma sealed_as_nonces rs : forall d cs,
  sealed_as d rs cs ->
  Forall3 (fun n r c => aes_encrypt (cipher_key d) n r = Some c) (nonces (length rs) d) rs cs.
Proof.
  induction rs as [|r rs IH]; intros d [|c cs] H; try done; [constructor|].
  destruct H as (_ & He & H). cbn [length]. rewrite nonces_S. constructor; [done|].
  apply IH in H. by rewrite next_direction_key in H.
Qed.
End SealedAs.

(** ** Reading arbitrary bytes *)

(** The run does not end in a panic. *)
Definition no_panic {S A} (m : St S SecureFault A) (s : S) : Prop := fst (m s) <> Err SF_Panic.

Lemma no_panic_bind {S A B} (m : St S SecureFault A) (k : A -> St S SecureFault B) s :
  no_panic m s -> (forall a s', m s = (Ok a, s') -> no_panic (k a) s') -> no_panic (m ≫= k) s.
Proof.
  unfold no_panic, mbind, St_bind. destruct (m s) as [[a|e] s'] eqn:E; cbn; [|congruence].
  intros _ H. by apply H.
Qed.

Lemma no_panic_lift {S A B} (r : result SecureFault A) (k : A -> St S SecureFault B) s :
  r <> Err SF_Panic -> (forall a, r = Ok a -> no_panic (k a) s) -> no_panic (st_lift r ≫= k) s.
Proof.
  intros Hr Hk. apply no_panic_bind; [done|]. intros a s' H. injection H as -> <-. by apply Hk.
Qed.

Lemma no_panic_lift_Ok {S A B} (r : result SecureFault A) (k : A -> St S SecureFault B) s a :
  r = Ok a -> no_panic (k a) s -> no_panic (st_lift r ≫= k) s.
Proof. by intros ->. Qed.

Lemma no_panic_fail_if {S B} c e (k : unit -> St S SecureFault B) s :
  e <> SF_Panic -> (c = false -> no_panic (k tt) s) -> no_panic (st_fail_if c e ≫= k) s.
Proof.
  intros He Hk. apply no_panic_lift; [destruct c; [|done]; congruence|].
  destruct c; [done|]. intros [] _. by apply Hk.
Qed.

Lemma frame_result_no_panic {A} (r : result FrameError A) : frame_result r <> Err SF_Panic.
Proof. by destruct r. Qed.

Lemma slice_in_range data from to :
  0 <= from <= to -> to <= zlen data -> exists s, slice data from to = Ok s /\ zlen s = to - from.
Proof.
  intros H1 H2. destruct (slice data from to) as [s|] eqn:E.
  - exists s. split; [done|]. by eapply slice_length.
  - unfold slice in E. by rewrite !(proj2 (Z.leb_le _ _)) in E by lia.
Qed.

Lemma slice_from_in_range data from :
  0 <= from <= zlen data -> exists s, slice_from data from = Ok s /\ zlen s = zlen data - from.
Proof. intros H. apply slice_in_range; lia. Qed.

Lemma copy_slice_in_range data from to source :
  0 <= from <= to -> to <= zlen data -> zlen source = to - from ->
  exists s, copy_slice data from to source = Ok s /\ zlen s = zlen data.
Proof.
  intros H1 H2 H3. unfold copy_slice.
  rewrite !(proj2 (Z.leb_le _ _)), (proj2 (Z.eqb_eq _ _)) by lia. cbn [andb].
  eexists. split; [done|]. unfold copy_at, zlen in *.
  rewrite !length_app, length_take, length_drop. lia.
Qed.

(** A segment of the length a descriptor announces. *)
Definition announced (d : Descriptor) : Segment := mkSegment (d_alignment d) (zeros (d_length d)).

Lemma announced_descriptors ds :
  Forall descriptor_ok ds ->
  map descriptor_of (map announced ds) = ds /\ Forall data_ok (map announced ds).
Proof.
  induction 1 as [|d ds [Hl Ha] _ [IH1 IH2]]; [done|]. cbn [map]. unfold in_u in Hl.
  assert (zlen (zeros (d_length d)) = d_length d) as Hz by (apply zlen_zeros; lia).
  split.
  - rewrite IH1. f_equal. unfold descriptor_of, announced. cbn [seg_data alignment].
    rewrite Hz. by destruct d.
  - constructor; [|done]. unfold data_ok, announced. cbn [seg_data]. by rewrite Hz.
Qed.

Lemma split_segments_no_panic segs : forall offset record,
  Forall data_ok segs -> 0 <= offset -> offset + padded_total segs <= zlen record ->
  match split_segments (map descriptor_of segs) offset record with
  | Ok (o, _) => o = offset + padded_total segs
  | Err e => e <> SF_Panic
  end.
Proof.
  induction segs as [|s segs IH]; intros offset record Hd Ho Hz.
  { cbn. change (padded_total []) with 0. lia. }
  apply Forall_cons in Hd as [H0 Hd]. rewrite padded_total_cons in *. cbn [map split_segments].
  cbn [descriptor_of d_length d_alignment]. rewrite padded_length_pad, bind_Ok by done.
  pose proof (pad_bounds (zlen (seg_data s))). pose proof (zlen_nonneg (seg_data s)).
  pose proof (zlen_nonneg (concat (map padded_data segs))) as Hn. fold (padded_total segs) in Hn.
  destruct (slice_in_range record (offset + zlen (seg_data s)) (offset + pad (zlen (seg_data s))))
    as (p & -> & _); [lia|lia|]. rewrite bind_Ok. destruct (negb (all_zero p)); [done|].
  destruct (slice_in_range record offset (offset + zlen (seg_data s))) as (x & -> & _); [lia|lia|].
  rewrite bind_Ok. specialize (IH (offset + pad (zlen (seg_data s))) record Hd ltac:(lia) ltac:(lia)).
  destruct (split_segments _ _ _) as [[o segs']|e]; [|done]. rewrite bind_Ok. lia.
Qed.

Section Reading.
  Context {crc_crate : Crc32cCrate} {aes_crate : AesGcmCrate} `{!AesGcmLaws aes_crate}.

Lemma open_no_panic c d reader :
  no_panic (on_rx (open_record c)) (d, reader)
  /\ forall pt s', on_rx (open_record c) (d, reader) = (Ok pt, s') -> zlen pt = zlen c - 16.
Proof.
  unfold no_panic, on_rx, open_record, Direction_nonce, mbind, St_bind.
  destruct (negb (available d 1)); [done|]. unfold st_gets.
  destruct (aes_decrypt _ _ _) as [pt|] eqn:E; cbn; [|done]. split; [done|].
  intros pt' s' H. injection H as -> _. apply aes_open_length in E. lia.
Qed.

Lemma read_bytes_no_panic n d reader :
  no_panic (read_bytes n) (d, reader)
  /\ forall x s', 0 <= n -> read_bytes n (d, reader) = (Ok x, s') -> zlen x = n.
Proof.
  unfold no_panic, read_bytes. destruct (read_exact n reader) as [[x r]|] eqn:E; cbn; [|done].
  split; [done|]. intros x' s' Hn H. injection H as -> _. apply read_exact_inv in E as [_ E]. lia.
Qed.

(** A ciphertext of [n] bytes, read and opened. *)
Lemma read_record_no_panic {A} n (k : list byte -> St (Direction * list byte) SecureFault A) s :
  0 <= n -> (forall pt s', zlen pt = n - 16 -> no_panic (k pt) s') ->
  no_panic (c ← read_bytes n; pt ← on_rx (open_record c); k pt) s.
Proof.
  intros Hn Hk. destruct s as [d reader]. destruct (read_bytes_no_panic n d reader) as [Hr Hl].
  apply no_panic_bind; [done|]. intros c [d1 r1] Hc. apply Hl in Hc; [|done].
  destruct (open_no_panic c d1 r1) as [Ho Hp]. apply no_panic_bind; [done|].
  intros pt s' Hpt. apply Hk. apply Hp in Hpt. lia.
Qed.

Lemma read_first_no_panic first s0 s :
  zlen first = PREAMBLE_SIZE + INLINE_SIZE -> data_ok s0 ->
  no_panic (read_first first (pad (zlen (seg_data s0)))) s
  /\ forall x s', read_first first (pad (zlen (seg_data s0))) s = (Ok x, s') ->
       zlen (seg_data s0) <= zlen x.
Proof.
  intros Hf Hd. pose proof (pad_bounds (zlen (seg_data s0))). set (n := zlen (seg_data s0)) in *.
  unfold PREAMBLE_SIZE, INLINE_SIZE in Hf.
  destruct (slice_from_in_range first PREAMBLE_SIZE) as (inl & Hi & Hil); [unfold PREAMBLE_SIZE; lia|].
  unfold read_first. destruct (Z.ltb_spec INLINE_SIZE (pad n)) as [Hlt|Hge].
  - unfold INLINE_SIZE, PREAMBLE_SIZE, TAG_SIZE in *.
    destruct (copy_slice_in_range (zeros (pad n)) 0 48 inl) as (x & Hx & Hxl);
      [lia|rewrite zlen_zeros; lia|lia|]. rewrite zlen_zeros in Hxl by lia.
    split.
    + apply (no_panic_lift_Ok _ _ _ _ Hi). apply read_record_no_panic; [lia|].
      intros pt s' Hpt. apply (no_panic_lift_Ok _ _ _ _ Hx).
      destruct (copy_slice_in_range x 48 (zlen x) pt) as (y & Hy & _); [lia|lia|lia|].
      unfold no_panic, st_lift. by rewrite Hy.
    + intros y s' H'. rewrite (st_lift_Ok _ _ _ _ Hi) in H'.
      unfold mbind, St_bind in H'. destruct (read_bytes _ s) as [[c|] s1]; [|done].
      destruct (on_rx (open_record c) s1) as [[pt|] s2]; [|done].
      unfold st_lift in H'. rewrite Hx in H'.
      destruct (copy_slice x 48 (zlen x) pt) as [z|] eqn:E; [|done].
      injection H' as <- _. unfold copy_slice in E. destruct (_ && _) eqn:Hc; [|done]. bool_prop.
      apply Ok_inj in E as <-. unfold copy_at, zlen in *.
      rewrite !length_app, length_take, length_drop. lia.
  - split; [by apply (no_panic_lift_Ok _ _ _ _ Hi)|]. intros y s' H'.
    rewrite (st_lift_Ok _ _ _ _ Hi) in H'. injection H' as <- _. unfold INLINE_SIZE, PREAMBLE_SIZE in *. lia.
Qed.

Lemma read_others_no_panic s1 others s0 s :
  Forall data_ok (s1 :: others) ->
  no_panic (read_others (map descriptor_of (s1 :: others))
    (SECURE_PREAMBLE_SIZE + remainder_size s0 + others_size (s1 :: others))
    (pad (zlen (seg_data s0)))) s.
Proof.
  intros Hd. set (segs := s1 :: others) in *.
  change (others_size segs) with (16 + 16 + padded_total segs).
  pose proof (zlen_nonneg (concat (map padded_data segs))) as Hn. fold (padded_total segs) in Hn.
  assert (0 <= remainder_size s0) as Hr.
  { pose proof (pad_bounds (zlen (seg_data s0))). unfold remainder_size, INLINE_SIZE, TAG_SIZE.
    destruct (Z.ltb_spec 48 (zlen (seg_data s0))); lia. }
  unfold read_others, check_sub.
  apply (no_panic_lift_Ok _ _ _ (remainder_size s0 + (32 + padded_total segs)));
    [rewrite (proj2 (Z.ltb_ge _ _)) by lia; f_equal; lia|].
  apply (no_panic_lift_Ok _ _ _ (32 + padded_total segs)).
  { rewrite pad_inline. unfold remainder_size in *. destruct (INLINE_SIZE <? _); [|f_equal; lia].
    rewrite (proj2 (Z.ltb_ge _ _)) by lia. f_equal. lia. }
  apply read_record_no_panic; [lia|]. intros record s' Hz.
  pose proof (split_segments_no_panic segs 0 record Hd ltac:(lia) ltac:(lia)) as Hs.
  apply no_panic_lift; [destruct (split_segments _ _ _) as [[]|]; congruence|].
  intros [o gs] E. rewrite E in Hs.
  destruct (slice_from_in_range record o) as (epi & He & Hl); [lia|].
  apply (no_panic_lift_Ok _ _ _ _ He). apply no_panic_lift; [|done].
  unfold secure_late_status. destruct (Z.eqb_spec (zlen epi) BLOCK_SIZE) as [Hb|]; [|done].
  unfold BLOCK_SIZE in Hb. destruct (slice_from_in_range epi 1) as (x & -> & _); [lia|].
  cbn [negb]. rewrite bind_Ok. destruct (negb _); [done|]. apply frame_result_no_panic.
Qed.

Lemma bind_no_panic {A B} (r : result SecureFault A) (k : A -> result SecureFault B) :
  r <> Err SF_Panic -> (forall a, k a <> Err SF_Panic) -> (r ≫= k) <> Err SF_Panic.
Proof. destruct r; cbn; [intros _ H; apply H|congruence]. Qed.

Lemma validate_descriptors_no_panic d ds limits :
  validate_descriptors (d :: ds) limits <> Err SF_Panic.
Proof.
  assert (forall l t, add_padded t l <> Err SF_Panic) as Hadd.
  { induction l as [|n l IH]; intros t; [done|]. cbn [add_padded].
    repeat (apply bind_no_panic; [apply frame_result_no_panic|intros ?]). apply IH. }
  assert (forall l, check_descriptors l limits <> Err SF_Panic) as Hcheck.
  { induction l as [|x l IH]; [done|]. cbn [check_descriptors]. destruct (negb _); [done|]. by destruct (_ <? _). }
  unfold validate_descriptors. apply bind_no_panic; [apply Hcheck|intros _].
  apply bind_no_panic; [apply frame_result_no_panic|intros p].
  apply bind_no_panic.
  { destruct (_ <? _); [|done]. by apply bind_no_panic; [apply frame_result_no_panic|]. }
  intros [w r]. apply bind_no_panic; [|intros [w' r']; by destruct (_ <? _)].
  destruct ds; [done|]. apply bind_no_panic; [apply frame_result_no_panic|intros ?].
  by apply bind_no_panic; [apply Hadd|].
Qed.

Lemma read_tail_no_panic tag s0 others first w r limits s :
  zlen first = PREAMBLE_SIZE + INLINE_SIZE -> Forall data_ok (s0 :: others) ->
  validate_descriptors (map descriptor_of (s0 :: others)) limits = Ok (w, r) ->
  no_panic (read_tail tag (map descriptor_of (s0 :: others)) first w) s.
Proof.
  intros Hf Hd Hv. apply validate_descriptors_spec in Hv as (-> & _); [|done].
  apply Forall_cons in Hd as [H0 Hd]. unfold read_tail. cbn [map].
  cbn [descriptor_of d_length d_alignment].
  apply (no_panic_lift_Ok _ _ _ _ (padded_length_pad _ H0)).
  destruct (read_first_no_panic first s0 s Hf H0) as [Hp Hl].
  apply no_panic_bind; [done|]. intros x s' Hx. apply Hl in Hx.
  destruct (slice_from_in_range x (zlen (seg_data s0))) as (p & Hs & _);
    [pose proof (zlen_nonneg (seg_data s0)); lia|].
  apply (no_panic_lift_Ok _ _ _ _ Hs). apply no_panic_fail_if; [done|]. intros _.
  destruct others as [|s1 others]; [done|].
  apply no_panic_bind; [|done]. by apply read_others_no_panic.
Qed.

Lemma read_reserved_no_panic limits reserve d reader :
  no_panic (SecureCodec_read_reserved limits reserve) (d, reader).
Proof.
  unfold SecureCodec_read_reserved. apply no_panic_bind; [done|]. intros d0 s Hs.
  apply no_panic_fail_if; [done|]. intros _. apply no_panic_fail_if; [done|]. intros _.
  apply read_record_no_panic; [done|]. intros first s' Hf.
  change (zlen first = PREAMBLE_SIZE + INLINE_SIZE) in Hf.
  destruct (slice_in_range first 0 PREAMBLE_SIZE) as (pre & Hp & Hl);
    [done|rewrite Hf; done|]. apply (no_panic_lift_Ok _ _ _ _ Hp).
  apply no_panic_lift; [apply frame_result_no_panic|]. intros [tag ds] Hdec.
  destruct (decode_preamble pre) as [[t ds']|] eqn:E; [|done]. apply Ok_inj in Hdec. simplify_eq Hdec.
  intros -> ->. apply decode_preamble_inv in E as [_ (Hlen & Hok & _)];
    [|unfold zlen, PREAMBLE_SIZE in Hl; lia].
  destruct (announced_descriptors _ Hok) as [E Hd]. destruct ds as [|d1 ds]; [simpl in Hlen; lia|].
  apply no_panic_lift; [apply validate_descriptors_no_panic|]. intros [w r] Hv.
  apply no_panic_lift; [apply frame_result_no_panic|]. intros _ _.
  apply no_panic_bind; [by destruct s'|]. intros d2 s2 _. apply no_panic_fail_if; [done|]. intros _.
  rewrite <- E in Hv |- *. by eapply read_tail_no_panic.
Qed.
End Reading.

(** ** A reference cipher *)

(** The identity with an empty tag satisfies the laws of the crate. *)
Definition reference_aes : AesGcmCrate := {|
  aes_encrypt _ _ p := Some (p ++ replicate 16 x00);
  aes_decrypt _ _ c :=
    if (16 <=? zlen c) && bool_decide (drop (length c - 16) c = replicate 16 x00)
    then Some (take (length c - 16) c) else None
|}.

#[export] Instance reference_aes_laws : AesGcmLaws reference_aes.
Proof.
  split; cbn [aes_encrypt aes_decrypt reference_aes].
  - intros _ _ p c H. apply (inj Some) in H as <-. rewrite length_app, length_replicate.
    replace (length p + 16 - 16)%nat with (length p) by lia.
    rewrite drop_app_length, take_app_length, bool_decide_true by done.
    destruct (Z.leb_spec 16 (zlen (p ++ replicate 16 x00))) as [_|Hl]; [done|].
    unfold zlen in Hl. rewrite length_app, length_replicate in Hl. lia.
  - intros _ _ p c H. apply (inj Some) in H as <-. by rewrite zlen_app.
  - intros _ _ p c H. destruct (Z.leb_spec 16 (zlen c)); [|done]. cbn [andb] in H.
    destruct (bool_decide _); [|done]. injection H as <-.
    unfold zlen in *. rewrite length_take. lia.
Qed.

Definition test_secret : list byte := replicate 64 x07.
Definition test_direction : Direction := mkDirection (replicate 16 x07) 0x07070707 0x0707070707070707 false.
Definition test_secure_codec : SecureCodec := mkSecureCodec test_direction test_direction.

(** ** Properties *)

(** C36. A secured connection delivers its frames in order: for the client and
    the server codec of one secret, the frames one end encodes one after the
    other are what the other end reads, without their trailing empty segments,
    in order and with nothing left over; both ends then stand at the same
    nonce. *)
Theorem secure_stream_roundtrip `{Crc32cCrate} `{AesGcmLaws} secret client server limits
    (from_client : bool) frames wires d' rest :
  SecureCodec_new secret false = Ok client -> SecureCodec_new secret true = Ok server ->
  let sender := if from_client then tx client else tx server in
  let receiver := if from_client then rx server else rx client in
  Forall (fun f => Forall segment_ok (segments f)) frames ->
  encode_all frames limits sender = (Ok wires, d') ->
  exists gs, Forall2 normalized frames gs
    /\ read_all (length frames) limits (receiver, concat wires ++ rest) = (Ok gs, (d', rest)).
Proof.
  intros Hc Hs sender receiver Hf H1.
  destruct (new_crossed _ _ _ Hc Hs) as (E1 & E2 & Hd1 & Hd2).
  assert (receiver = sender) as -> by (by destruct from_client).
  apply stream_roundtrip; [done| |done]. by destruct from_client.
Qed.

Lemma secure_stream_roundtrip_witness :
  exists wires d', encode_all (crc_crate := reference_crc) (aes_crate := reference_aes)
      [test_frame; test_frame] test_limits test_direction = (Ok wires, d') /\
  exists gs, Forall2 normalized [test_frame; test_frame] gs
    /\ read_all (crc_crate := reference_crc) (aes_crate := reference_aes) 2 test_limits
         (test_direction, concat wires ++ [x2a]) = (Ok gs, (d', [x2a])).
Proof.
  eexists _, _. split; [vm_compute; reflexivity|].
  apply (@secure_stream_roundtrip reference_crc reference_aes reference_aes_laws test_secret
    test_secure_codec test_secure_codec test_limits true [test_frame; test_frame]).
  - vm_compute. reflexivity.
  - vm_compute. reflexivity.
  - repeat constructor; vm_compute; discriminate.
  - vm_compute. reflexivity.
Defined.

(** C38. No nonce is used twice: every record of a run of encoded frames is
    sealed under the connection key and a nonce of its own; a direction whose
    counter has run out seals nothing more. *)
Theorem secure_nonces_unique `{Crc32cCrate} `{AesGcmCrate} frames limits d wires d' :
  direction_ok d -> encode_all frames limits d = (Ok wires, d') ->
  exists ns records cs, NoDup ns
    /\ Forall3 (fun n r c => aes_encrypt (cipher_key d) n r = Some c) ns records cs
    /\ concat wires = concat cs.
Proof.
  intros Hd H1. apply encode_all_sealed in H1 as (rs & cs & E & Hs).
  exists (nonces (length rs) d), rs, cs. split_and!; [|by apply sealed_as_nonces|done].
  apply nonces_NoDup; [done|]. exact (sealed_as_bound _ _ _ Hd Hs).
Qed.

Lemma secure_nonces_unique_witness :
  exists wires d', encode_all (crc_crate := reference_crc) (aes_crate := reference_aes)
      [test_frame; test_frame] test_limits test_direction = (Ok wires, d') /\
  exists ns records cs, NoDup ns
    /\ Forall3 (fun n r c => aes_encrypt (AesGcmCrate := reference_aes) (cipher_key test_direction) n r
                             = Some c) ns records cs
    /\ concat wires = concat cs.
Proof.
  eexists _, _. split; [vm_compute; reflexivity|].
  eapply (@secure_nonces_unique reference_crc reference_aes [test_frame; test_frame] test_limits).
  - repeat split; vm_compute; first [discriminate|reflexivity].
  - vm_compute. reflexivity.
Defined.

(** Reading never panics: whatever bytes arrive and whatever the
    reservation answers, reading a frame ends with a frame or an error; every
    slice of a decrypted record is in range. *)
Theorem secure_read_total `{Crc32cCrate} `{AesGcmLaws} limits reserve d reader :
  (exists frame, fst (SecureCodec_read_reserved limits reserve (d, reader)) = Ok frame)
  \/ (exists e, fst (SecureCodec_read_reserved limits reserve (d, reader)) = Err (SF_Error e)).
Proof.
  pose proof (read_reserved_no_panic limits reserve d reader) as Hp. unfold no_panic in Hp.
  destruct (fst _) as [f|[e|]]; [left|right|]; by eauto.
Qed.

Lemma secure_read_total_witness :
  (exists frame, fst (SecureCodec_read_reserved (crc_crate := reference_crc)
     (aes_crate := reference_aes) test_limits (fun _ _ => Ok tt) (test_direction, test_wire)) = Ok frame)
  \/ (exists e, fst (SecureCodec_read_reserved (crc_crate := reference_crc)
     (aes_crate := reference_aes) test_limits (fun _ _ => Ok tt) (test_direction, test_wire))
     = Err (SF_Error e)).
Proof. exact (@secure_read_total reference_crc reference_aes reference_aes_laws _ _ _ _). Defined.
