(* ===== verification/Banner.v ===== *)
(** * The connection banner

    Models [src/src/msgr/banner.rs]: the first bytes each end sends and the
    features the two ends agree on. *)

From S2P Require Import Prelude Codec Frame Address.
From Stdlib Require Import ZArith Lia Strings.Byte.
From stdpp Require Import base option gmap sorting numbers list.

Open Scope Z_scope.

(** [b"ceph v2\n"]. *)
Definition BANNER_PREFIX : list byte := [x63; x65; x70; x68; x20; x76; x32; x0a].
Definition BANNER_PAYLOAD_SIZE : Z := 16.
Definition REVISION_1_FEATURES : Z := 1.

Record Banner : Type := mkBanner { supported : Z; required : Z }.

Definition Banner_client : Banner := mkBanner REVISION_1_FEATURES REVISION_1_FEATURES.

Definition Banner_encode (b : Banner) : list byte :=
  BANNER_PREFIX ++ le_bytes 2 BANNER_PAYLOAD_SIZE ++ le_bytes 8 (supported b) ++ le_bytes 8 (required b).

Definition Banner_read (reader : list byte) (max_payload : Z) : result FrameError (Banner * list byte) :=
  '(header, reader) ← read_exact 10 reader;
  if negb (bool_decide (take 8 header = BANNER_PREFIX)) then Err FE_Malformed
  else
    let size := le_value (drop 8 header) in
    if size <? BANNER_PAYLOAD_SIZE then Err FE_Malformed
    else if max_payload <? size then Err FE_LimitExceeded
    else
      '(payload, reader) ← read_exact size reader;
      Ok (mkBanner (le_value (take 8 payload)) (le_value (take 8 (drop 8 payload))), reader).

(** [a & !b] is [Z.ldiff a b]. *)
Definition Banner_negotiate (self peer : Banner) : result FrameError Z :=
  if negb (Z.ldiff (required peer) (supported self) =? 0)
     || negb (Z.ldiff (required self) (supported peer) =? 0)
  then Err FE_UnsupportedFeature
  else
    let negotiated := Z.land (supported self) (supported peer) in
    if Z.land negotiated REVISION_1_FEATURES =? 0 then Err FE_UnsupportedFeature
    else Ok negotiated.

(** ** Lemmas *)

Definition banner_ok (b : Banner) : Prop := in_u 64 (supported b) /\ in_u 64 (required b).

Lemma Banner_read_encode b rest max_payload :
  banner_ok b -> BANNER_PAYLOAD_SIZE <= max_payload ->
  Banner_read (Banner_encode b ++ rest) max_payload = Ok (b, rest).
Proof.
  intros [Hs Hr] Hm. unfold Banner_read, Banner_encode.
  rewrite (app_assoc BANNER_PREFIX), <- app_assoc.
  rewrite read_exact_app, bind_Ok by done. rewrite take_app_length' by done.
  rewrite bool_decide_true by done. cbn [negb]. rewrite drop_app_length' by done.
  change (le_value (le_bytes 2 BANNER_PAYLOAD_SIZE)) with 16.
  unfold BANNER_PAYLOAD_SIZE in *. rewrite (proj2 (Z.ltb_ge _ _) Hm). cbn [Z.ltb Z.compare Pos.compare Pos.compare_cont].
  rewrite read_exact_app, bind_Ok by (by rewrite zlen_app, !zlen_le_bytes).
  rewrite take_app_length', drop_app_length' by (by rewrite length_le_bytes).
  rewrite take_ge by (by rewrite length_le_bytes). rewrite !le_value_bytes.
  rewrite !Z.mod_small by done. by destruct b.
Qed.

Lemma ldiff_subset a b i : Z.ldiff a b = 0 -> Z.testbit a i = true -> Z.testbit b i = true.
Proof.
  intros H Ha. apply (f_equal (fun z => Z.testbit z i)) in H.
  rewrite Z.ldiff_spec, Ha, Z.bits_0 in H. by destruct (Z.testbit b i).
Qed.

(** ** Properties *)

(** Both ends of a connection agree on its features: each reads the banner
    the other sent, both negotiate the same outcome, and on success the
    features are supported by both, include revision 1, and every feature one
    end requires is supported by the other. *)
Theorem banner_agreement a b max_payload rest :
  banner_ok a -> banner_ok b -> BANNER_PAYLOAD_SIZE <= max_payload ->
  Banner_read (Banner_encode b ++ rest) max_payload = Ok (b, rest)
  /\ Banner_negotiate a b = Banner_negotiate b a
  /\ forall f, Banner_negotiate a b = Ok f ->
       Z.testbit f 0 = true
       /\ forall i, (Z.testbit f i = true -> Z.testbit (supported a) i = true /\ Z.testbit (supported b) i = true)
          /\ (Z.testbit (required a) i = true -> Z.testbit (supported b) i = true)
          /\ (Z.testbit (required b) i = true -> Z.testbit (supported a) i = true).
Proof.
  intros Ha Hb Hm. split; [by apply Banner_read_encode|]. unfold Banner_negotiate. split.
  { rewrite orb_comm, (Z.land_comm (supported a)). done. }
  intros f H1. destruct (_ || _) eqn:Ho; [done|]. bool_prop.
  destruct (Z.eqb_spec (Z.land (Z.land (supported a) (supported b)) REVISION_1_FEATURES) 0) as [|Hne];
    [done|]. apply Ok_inj in H1 as <-. split.
  - change REVISION_1_FEATURES with (Z.ones 1) in Hne. rewrite Z.land_ones in Hne by lia.
    change (2 ^ 1) with 2 in Hne. rewrite Z.bit0_odd. rewrite Zmod_odd in Hne.
    by destruct (Z.odd _).
  - intros i. split_and!.
    + rewrite Z.land_spec. intros Hi. by apply andb_prop in Hi.
    + by apply ldiff_subset.
    + by apply ldiff_subset.
Qed.

Lemma banner_agreement_witness :
  Banner_read (Banner_encode (mkBanner 3 1) ++ [x00]) 64 = Ok (mkBanner 3 1, [x00])
  /\ Banner_negotiate Banner_client (mkBanner 3 1) = Banner_negotiate (mkBanner 3 1) Banner_client
  /\ Z.testbit 1 0 = true.
Proof.
  destruct (banner_agreement Banner_client (mkBanner 3 1) 64 [x00]) as (H1 & H2 & H3).
  - split; split; vm_compute; first [discriminate|reflexivity].
  - split; split; vm_compute; first [discriminate|reflexivity].
  - vm_compute. discriminate.
  - split; [exact H1|]. split; [exact H2|]. exact (proj1 (H3 1 eq_refl)).
Defined.
