(* ===== verification/SessionState.v ===== *)
(** * The state of a messenger session

    Models the data of [src/src/msgr/session.rs]: configuration, inputs,
    events and effects, pending requests and the record [Machine], whose field
    assignments are written out as functions. *)

From S2P Require Import Prelude Codec Frame Message Address Control.
From Stdlib Require Import ZArith Lia Strings.Byte.
From stdpp Require Import base option gmap sorting numbers list.

Open Scope Z_scope.

Definition MAX_CONTROL_MESSAGES : Z := 16.
Definition MAX_CONTROL_BYTES : Z := Z.shiftl 1 20.

Inductive State : Type :=
| Disconnected | Connecting | Reconnecting | Ready | Wait | Stopped.

#[export] Instance State_eq_dec : EqDecision State.
Proof. solve_decision. Defined.

Inductive ReconnectPolicy : Type := FailPending | ReplayPending.

Inductive SessionError : Type :=
| SE_Closed | SE_Disconnected | SE_Cancelled | SE_QueueSaturated | SE_TooManyInFlight
| SE_TransitionLimit | SE_ReconnectExhausted | SE_OutcomeUnknown | SE_Renewal | SE_Malformed
| SE_UnsupportedFeature | SE_UnsupportedPayload | SE_Frame (e : FrameError).

#[export] Instance SessionError_eq_dec : EqDecision SessionError.
Proof. solve_decision. Defined.

Record Config : Type := mkConfig {
  cfg_limits : Limits;
  max_queued_messages : Z;
  max_retained_bytes : Z;
  max_in_flight_transactions : Z;
  max_reconnect_attempts : Z;
  max_handshake_transitions : Z;
  reconnect_policy : ReconnectPolicy;
  client_ident : ClientIdent;
  cfg_client_cookie : Z;
  cfg_server_cookie : Z;
  cfg_global_sequence : Z;
  cfg_connect_sequence : Z;
  cfg_replacement_cookies : list Z
}.

Inductive Input : Type :=
| I_Start (ready : bool)
| I_InitialConnection (authenticated_global_id : option Z) (credential : option (list byte))
| I_InitialIdentity (gen : Z) (authenticated_global_id : option Z) (credential : option (list byte))
| I_Admit (request_id : Z) (message : Message) (one_way : bool)
| I_AdmitControl (request_id : Z) (message : Message) (gen : Z)
| I_Cancel (request_id : Z)
| I_Dispatch
| I_WriteComplete (gen : Z) (request_id : option Z) (res : result SessionError unit)
| I_Connected (gen : Z) (authenticated_global_id : option Z) (credential : option (list byte))
| I_ConnectFailed (gen : Z)
| I_Control (gen : Z) (control : Control)
| I_Message (gen : Z) (message : Message)
| I_Fault (gen : Z) (error : SessionError)
| I_RenewalDue (gen : Z)
| I_ConsumeIncoming
| I_Stop.

Inductive Event : Type :=
| E_StateChanged (s : State)
| E_SequenceGap (seq expected : Z)
| E_DuplicateDropped (seq : Z)
| E_Acknowledged (seq : Z)
| E_KeepaliveAck
| E_TransportFault (e : SessionError)
| E_SessionReset (full : bool)
| E_Retry (seq : Z)
| E_RetryGlobal (seq : Z)
| E_Wait
| E_ReconnectOk (seq : Z)
| E_CredentialRenewal
| E_CredentialRenewalCompleted
| E_EventsDropped (count : Z).

Inductive Effect : Type :=
| F_Connect (gen : Z)
| F_CloseTransport (gen : Z)
| F_SendControl (gen : Z) (control : Control)
| F_SendMessage (gen : Z) (request_id : Z) (message : Message)
| F_Admitted (request_id transaction : Z)
| F_Completed (request_id : Z) (reply : option Message)
| F_Failed (request_id : Z) (error : SessionError)
| F_Incoming (message : Message)
| F_Event (e : Event)
| F_Terminal (error : SessionError).

Record Pending : Type := mkPending {
  p_request_id : Z;
  p_message : Message;
  p_bytes : Z;
  p_sequence : Z;
  p_sent : bool;
  p_may_have_executed : bool;
  p_one_way : bool;
  p_control : option Z
}.

Inductive RenewalState : Type := R_Idle | R_Draining | R_Reconnecting.

#[export] Instance RenewalState_eq_dec : EqDecision RenewalState.
Proof. solve_decision. Defined.

Inductive CredentialChange : Type := CC_Unknown | CC_Unchanged | CC_Changed.

#[export] Instance CredentialChange_eq_dec : EqDecision CredentialChange.
Proof. solve_decision. Defined.

(** [renewal_pending] is true for [RenewalPending::Yes]. *)
Record Machine : Type := mkMachine {
  m_config : Config;
  m_state : State;
  m_generation : Z;
  m_pending : list Pending;
  m_by_transaction : gmap Z Z;
  m_replay : list Z;
  m_controls : list Control;
  m_retained_bytes : Z;
  m_control_generation : Z;
  m_control_messages : Z;
  m_control_bytes : Z;
  m_incoming_count : Z;
  m_write_busy : bool;
  m_next_outbound : option Z;
  m_last_inbound : Z;
  m_next_transaction_id : option Z;
  m_client_cookie : Z;
  m_server_cookie : Z;
  m_server_global_id : Z;
  m_server_addresses : list EntityAddr;
  m_server_features : Z;
  m_global_sequence : Z;
  m_connect_sequence : Z;
  m_authenticated_global_id : Z;
  m_credential_identity : option (list byte);
  m_candidate_credential_identity : option (list byte);
  m_credential_change : CredentialChange;
  m_renewal : RenewalState;
  m_renewal_pending : bool;
  m_server_flags : Z;
  m_connected_once : bool;
  m_reconnect_attempts : Z;
  m_transitions : Z;
  m_connect_pending : bool;
  m_terminal_error : option SessionError;
  m_replacement_cookies : list Z
}.

(** Field assignments. *)
Definition with_config (v : Config) (m : Machine) : Machine :=
  mkMachine v (m_state m) (m_generation m) (m_pending m) (m_by_transaction m) (m_replay m)
    (m_controls m) (m_retained_bytes m) (m_control_generation m) (m_control_messages m)
    (m_control_bytes m) (m_incoming_count m) (m_write_busy m) (m_next_outbound m)
    (m_last_inbound m) (m_next_transaction_id m) (m_client_cookie m) (m_server_cookie m)
    (m_server_global_id m) (m_server_addresses m) (m_server_features m) (m_global_sequence m)
    (m_connect_sequence m) (m_authenticated_global_id m) (m_credential_identity m)
    (m_candidate_credential_identity m) (m_credential_change m) (m_renewal m)
    (m_renewal_pending m) (m_server_flags m) (m_connected_once m) (m_reconnect_attempts m)
    (m_transitions m) (m_connect_pending m) (m_terminal_error m) (m_replacement_cookies m).
Definition with_state (v : State) (m : Machine) : Machine :=
  mkMachine (m_config m) v (m_generation m) (m_pending m) (m_by_transaction m) (m_replay m)
    (m_controls m) (m_retained_bytes m) (m_control_generation m) (m_control_messages m)
    (m_control_bytes m) (m_incoming_count m) (m_write_busy m) (m_next_outbound m)
    (m_last_inbound m) (m_next_transaction_id m) (m_client_cookie m) (m_server_cookie m)
    (m_server_global_id m) (m_server_addresses m) (m_server_features m) (m_global_sequence m)
    (m_connect_sequence m) (m_authenticated_global_id m) (m_credential_identity m)
    (m_candidate_credential_identity m) (m_credential_change m) (m_renewal m)
    (m_renewal_pending m) (m_server_flags m) (m_connected_once m) (m_reconnect_attempts m)
    (m_transitions m) (m_connect_pending m) (m_terminal_error m) (m_replacement_cookies m).
Definition with_generation (v : Z) (m : Machine) : Machine :=
  mkMachine (m_config m) (m_state m) v (m_pending m) (m_by_transaction m) (m_replay m)
    (m_controls m) (m_retained_bytes m) (m_control_generation m) (m_control_messages m)
    (m_control_bytes m) (m_incoming_count m) (m_write_busy m) (m_next_outbound m)
    (m_last_inbound m) (m_next_transaction_id m) (m_client_cookie m) (m_server_cookie m)
    (m_server_global_id m) (m_server_addresses m) (m_server_features m) (m_global_sequence m)
    (m_connect_sequence m) (m_authenticated_global_id m) (m_credential_identity m)
    (m_candidate_credential_identity m) (m_credential_change m) (m_renewal m)
    (m_renewal_pending m) (m_server_flags m) (m_connected_once m) (m_reconnect_attempts m)
    (m_transitions m) (m_connect_pending m) (m_terminal_error m) (m_replacement_cookies m).
Definition with_pending (v : list Pending) (m : Machine) : Machine :=
  mkMachine (m_config m) (m_state m) (m_generation m) v (m_by_transaction m) (m_replay m)
    (m_controls m) (m_retained_bytes m) (m_control_generation m) (m_control_messages m)
    (m_control_bytes m) (m_incoming_count m) (m_write_busy m) (m_next_outbound m)
    (m_last_inbound m) (m_next_transaction_id m) (m_client_cookie m) (m_server_cookie m)
    (m_server_global_id m) (m_server_addresses m) (m_server_features m) (m_global_sequence m)
    (m_connect_sequence m) (m_authenticated_global_id m) (m_credential_identity m)
    (m_candidate_credential_identity m) (m_credential_change m) (m_renewal m)
    (m_renewal_pending m) (m_server_flags m) (m_connected_once m) (m_reconnect_attempts m)
    (m_transitions m) (m_connect_pending m) (m_terminal_error m) (m_replacement_cookies m).
Definition with_by_transaction (v : gmap Z Z) (m : Machine) : Machine :=
  mkMachine (m_config m) (m_state m) (m_generation m) (m_pending m) v (m_replay m) (m_controls
    m) (m_retained_bytes m) (m_control_generation m) (m_control_messages m) (m_control_bytes
    m) (m_incoming_count m) (m_write_busy m) (m_next_outbound m) (m_last_inbound m)
    (m_next_transaction_id m) (m_client_cookie m) (m_server_cookie m) (m_server_global_id m)
    (m_server_addresses m) (m_server_features m) (m_global_sequence m) (m_connect_sequence m)
    (m_authenticated_global_id m) (m_credential_identity m) (m_candidate_credential_identity
    m) (m_credential_change m) (m_renewal m) (m_renewal_pending m) (m_server_flags m)
    (m_connected_once m) (m_reconnect_attempts m) (m_transitions m) (m_connect_pending m)
    (m_terminal_error m) (m_replacement_cookies m).
Definition with_replay (v : list Z) (m : Machine) : Machine :=
  mkMachine (m_config m) (m_state m) (m_generation m) (m_pending m) (m_by_transaction m) v
    (m_controls m) (m_retained_bytes m) (m_control_generation m) (m_control_messages m)
    (m_control_bytes m) (m_incoming_count m) (m_write_busy m) (m_next_outbound m)
    (m_last_inbound m) (m_next_transaction_id m) (m_client_cookie m) (m_server_cookie m)
    (m_server_global_id m) (m_server_addresses m) (m_server_features m) (m_global_sequence m)
    (m_connect_sequence m) (m_authenticated_global_id m) (m_credential_identity m)
    (m_candidate_credential_identity m) (m_credential_change m) (m_renewal m)
    (m_renewal_pending m) (m_server_flags m) (m_connected_once m) (m_reconnect_attempts m)
    (m_transitions m) (m_connect_pending m) (m_terminal_error m) (m_replacement_cookies m).
Definition with_controls (v : list Control) (m : Machine) : Machine :=
  mkMachine (m_config m) (m_state m) (m_generation m) (m_pending m) (m_by_transaction m)
    (m_replay m) v (m_retained_bytes m) (m_control_generation m) (m_control_messages m)
    (m_control_bytes m) (m_incoming_count m) (m_write_busy m) (m_next_outbound m)
    (m_last_inbound m) (m_next_transaction_id m) (m_client_cookie m) (m_server_cookie m)
    (m_server_global_id m) (m_server_addresses m) (m_server_features m) (m_global_sequence m)
    (m_connect_sequence m) (m_authenticated_global_id m) (m_credential_identity m)
    (m_candidate_credential_identity m) (m_credential_change m) (m_renewal m)
    (m_renewal_pending m) (m_server_flags m) (m_connected_once m) (m_reconnect_attempts m)
    (m_transitions m) (m_connect_pending m) (m_terminal_error m) (m_replacement_cookies m).
Definition with_retained_bytes (v : Z) (m : Machine) : Machine :=
  mkMachine (m_config m) (m_state m) (m_generation m) (m_pending m) (m_by_transaction m)
    (m_replay m) (m_controls m) v (m_control_generation m) (m_control_messages m)
    (m_control_bytes m) (m_incoming_count m) (m_write_busy m) (m_next_outbound m)
    (m_last_inbound m) (m_next_transaction_id m) (m_client_cookie m) (m_server_cookie m)
    (m_server_global_id m) (m_server_addresses m) (m_server_features m) (m_global_sequence m)
    (m_connect_sequence m) (m_authenticated_global_id m) (m_credential_identity m)
    (m_candidate_credential_identity m) (m_credential_change m) (m_renewal m)
    (m_renewal_pending m) (m_server_flags m) (m_connected_once m) (m_reconnect_attempts m)
    (m_transitions m) (m_connect_pending m) (m_terminal_error m) (m_replacement_cookies m).
Definition with_control_generation (v : Z) (m : Machine) : Machine :=
  mkMachine (m_config m) (m_state m) (m_generation m) (m_pending m) (m_by_transaction m)
    (m_replay m) (m_controls m) (m_retained_bytes m) v (m_control_messages m) (m_control_bytes
    m) (m_incoming_count m) (m_write_busy m) (m_next_outbound m) (m_last_inbound m)
    (m_next_transaction_id m) (m_client_cookie m) (m_server_cookie m) (m_server_global_id m)
    (m_server_addresses m) (m_server_features m) (m_global_sequence m) (m_connect_sequence m)
    (m_authenticated_global_id m) (m_credential_identity m) (m_candidate_credential_identity
    m) (m_credential_change m) (m_renewal m) (m_renewal_pending m) (m_server_flags m)
    (m_connected_once m) (m_reconnect_attempts m) (m_transitions m) (m_connect_pending m)
    (m_terminal_error m) (m_replacement_cookies m).
Definition with_control_messages (v : Z) (m : Machine) : Machine :=
  mkMachine (m_config m) (m_state m) (m_generation m) (m_pending m) (m_by_transaction m)
    (m_replay m) (m_controls m) (m_retained_bytes m) (m_control_generation m) v
    (m_control_bytes m) (m_incoming_count m) (m_write_busy m) (m_next_outbound m)
    (m_last_inbound m) (m_next_transaction_id m) (m_client_cookie m) (m_server_cookie m)
    (m_server_global_id m) (m_server_addresses m) (m_server_features m) (m_global_sequence m)
    (m_connect_sequence m) (m_authenticated_global_id m) (m_credential_identity m)
    (m_candidate_credential_identity m) (m_credential_change m) (m_renewal m)
    (m_renewal_pending m) (m_server_flags m) (m_connected_once m) (m_reconnect_attempts m)
    (m_transitions m) (m_connect_pending m) (m_terminal_error m) (m_replacement_cookies m).
Definition with_control_bytes (v : Z) (m : Machine) : Machine :=
  mkMachine (m_config m) (m_state m) (m_generation m) (m_pending m) (m_by_transaction m)
    (m_replay m) (m_controls m) (m_retained_bytes m) (m_control_generation m)
    (m_control_messages m) v (m_incoming_count m) (m_write_busy m) (m_next_outbound m)
    (m_last_inbound m) (m_next_transaction_id m) (m_client_cookie m) (m_server_cookie m)
    (m_server_global_id m) (m_server_addresses m) (m_server_features m) (m_global_sequence m)
    (m_connect_sequence m) (m_authenticated_global_id m) (m_credential_identity m)
    (m_candidate_credential_identity m) (m_credential_change m) (m_renewal m)
    (m_renewal_pending m) (m_server_flags m) (m_connected_once m) (m_reconnect_attempts m)
    (m_transitions m) (m_connect_pending m) (m_terminal_error m) (m_replacement_cookies m).
Definition with_incoming_count (v : Z) (m : Machine) : Machine :=
  mkMachine (m_config m) (m_state m) (m_generation m) (m_pending m) (m_by_transaction m)
    (m_replay m) (m_controls m) (m_retained_bytes m) (m_control_generation m)
    (m_control_messages m) (m_control_bytes m) v (m_write_busy m) (m_next_outbound m)
    (m_last_inbound m) (m_next_transaction_id m) (m_client_cookie m) (m_server_cookie m)
    (m_server_global_id m) (m_server_addresses m) (m_server_features m) (m_global_sequence m)
    (m_connect_sequence m) (m_authenticated_global_id m) (m_credential_identity m)
    (m_candidate_credential_identity m) (m_credential_change m) (m_renewal m)
    (m_renewal_pending m) (m_server_flags m) (m_connected_once m) (m_reconnect_attempts m)
    (m_transitions m) (m_connect_pending m) (m_terminal_error m) (m_replacement_cookies m).
Definition with_write_busy (v : bool) (m : Machine) : Machine :=
  mkMachine (m_config m) (m_state m) (m_generation m) (m_pending m) (m_by_transaction m)
    (m_replay m) (m_controls m) (m_retained_bytes m) (m_control_generation m)
    (m_control_messages m) (m_control_bytes m) (m_incoming_count m) v (m_next_outbound m)
    (m_last_inbound m) (m_next_transaction_id m) (m_client_cookie m) (m_server_cookie m)
    (m_server_global_id m) (m_server_addresses m) (m_server_features m) (m_global_sequence m)
    (m_connect_sequence m) (m_authenticated_global_id m) (m_credential_identity m)
    (m_candidate_credential_identity m) (m_credential_change m) (m_renewal m)
    (m_renewal_pending m) (m_server_flags m) (m_connected_once m) (m_reconnect_attempts m)
    (m_transitions m) (m_connect_pending m) (m_terminal_error m) (m_replacement_cookies m).
Definition with_next_outbound (v : option Z) (m : Machine) : Machine :=
  mkMachine (m_config m) (m_state m) (m_generation m) (m_pending m) (m_by_transaction m)
    (m_replay m) (m_controls m) (m_retained_bytes m) (m_control_generation m)
    (m_control_messages m) (m_control_bytes m) (m_incoming_count m) (m_write_busy m) v
    (m_last_inbound m) (m_next_transaction_id m) (m_client_cookie m) (m_server_cookie m)
    (m_server_global_id m) (m_server_addresses m) (m_server_features m) (m_global_sequence m)
    (m_connect_sequence m) (m_authenticated_global_id m) (m_credential_identity m)
    (m_candidate_credential_identity m) (m_credential_change m) (m_renewal m)
    (m_renewal_pending m) (m_server_flags m) (m_connected_once m) (m_reconnect_attempts m)
    (m_transitions m) (m_connect_pending m) (m_terminal_error m) (m_replacement_cookies m).
Definition with_last_inbound (v : Z) (m : Machine) : Machine :=
  mkMachine (m_config m) (m_state m) (m_generation m) (m_pending m) (m_by_transaction m)
    (m_replay m) (m_controls m) (m_retained_bytes m) (m_control_generation m)
    (m_control_messages m) (m_control_bytes m) (m_incoming_count m) (m_write_busy m)
    (m_next_outbound m) v (m_next_transaction_id m) (m_client_cookie m) (m_server_cookie m)
    (m_server_global_id m) (m_server_addresses m) (m_server_features m) (m_global_sequence m)
    (m_connect_sequence m) (m_authenticated_global_id m) (m_credential_identity m)
    (m_candidate_credential_identity m) (m_credential_change m) (m_renewal m)
    (m_renewal_pending m) (m_server_flags m) (m_connected_once m) (m_reconnect_attempts m)
    (m_transitions m) (m_connect_pending m) (m_terminal_error m) (m_replacement_cookies m).
Definition with_next_transaction_id (v : option Z) (m : Machine) : Machine :=
  mkMachine (m_config m) (m_state m) (m_generation m) (m_pending m) (m_by_transaction m)
    (m_replay m) (m_controls m) (m_retained_bytes m) (m_control_generation m)
    (m_control_messages m) (m_control_bytes m) (m_incoming_count m) (m_write_busy m)
    (m_next_outbound m) (m_last_inbound m) v (m_client_cookie m) (m_server_cookie m)
    (m_server_global_id m) (m_server_addresses m) (m_server_features m) (m_global_sequence m)
    (m_connect_sequence m) (m_authenticated_global_id m) (m_credential_identity m)
    (m_candidate_credential_identity m) (m_credential_change m) (m_renewal m)
    (m_renewal_pending m) (m_server_flags m) (m_connected_once m) (m_reconnect_attempts m)
    (m_transitions m) (m_connect_pending m) (m_terminal_error m) (m_replacement_cookies m).
Definition with_client_cookie (v : Z) (m : Machine) : Machine :=
  mkMachine (m_config m) (m_state m) (m_generation m) (m_pending m) (m_by_transaction m)
    (m_replay m) (m_controls m) (m_retained_bytes m) (m_control_generation m)
    (m_control_messages m) (m_control_bytes m) (m_incoming_count m) (m_write_busy m)
    (m_next_outbound m) (m_last_inbound m) (m_next_transaction_id m) v (m_server_cookie m)
    (m_server_global_id m) (m_server_addresses m) (m_server_features m) (m_global_sequence m)
    (m_connect_sequence m) (m_authenticated_global_id m) (m_credential_identity m)
    (m_candidate_credential_identity m) (m_credential_change m) (m_renewal m)
    (m_renewal_pending m) (m_server_flags m) (m_connected_once m) (m_reconnect_attempts m)
    (m_transitions m) (m_connect_pending m) (m_terminal_error m) (m_replacement_cookies m).
Definition with_server_cookie (v : Z) (m : Machine) : Machine :=
  mkMachine (m_config m) (m_state m) (m_generation m) (m_pending m) (m_by_transaction m)
    (m_replay m) (m_controls m) (m_retained_bytes m) (m_control_generation m)
    (m_control_messages m) (m_control_bytes m) (m_incoming_count m) (m_write_busy m)
    (m_next_outbound m) (m_last_inbound m) (m_next_transaction_id m) (m_client_cookie m) v
    (m_server_global_id m) (m_server_addresses m) (m_server_features m) (m_global_sequence m)
    (m_connect_sequence m) (m_authenticated_global_id m) (m_credential_identity m)
    (m_candidate_credential_identity m) (m_credential_change m) (m_renewal m)
    (m_renewal_pending m) (m_server_flags m) (m_connected_once m) (m_reconnect_attempts m)
    (m_transitions m) (m_connect_pending m) (m_terminal_error m) (m_replacement_cookies m).
Definition with_server_global_id (v : Z) (m : Machine) : Machine :=
  mkMachine (m_config m) (m_state m) (m_generation m) (m_pending m) (m_by_transaction m)
    (m_replay m) (m_controls m) (m_retained_bytes m) (m_control_generation m)
    (m_control_messages m) (m_control_bytes m) (m_incoming_count m) (m_write_busy m)
    (m_next_outbound m) (m_last_inbound m) (m_next_transaction_id m) (m_client_cookie m)
    (m_server_cookie m) v (m_server_addresses m) (m_server_features m) (m_global_sequence m)
    (m_connect_sequence m) (m_authenticated_global_id m) (m_credential_identity m)
    (m_candidate_credential_identity m) (m_credential_change m) (m_renewal m)
    (m_renewal_pending m) (m_server_flags m) (m_connected_once m) (m_reconnect_attempts m)
    (m_transitions m) (m_connect_pending m) (m_terminal_error m) (m_replacement_cookies m).
Definition with_server_addresses (v : list EntityAddr) (m : Machine) : Machine :=
  mkMachine (m_config m) (m_state m) (m_generation m) (m_pending m) (m_by_transaction m)
    (m_replay m) (m_controls m) (m_retained_bytes m) (m_control_generation m)
    (m_control_messages m) (m_control_bytes m) (m_incoming_count m) (m_write_busy m)
    (m_next_outbound m) (m_last_inbound m) (m_next_transaction_id m) (m_client_cookie m)
    (m_server_cookie m) (m_server_global_id m) v (m_server_features m) (m_global_sequence m)
    (m_connect_sequence m) (m_authenticated_global_id m) (m_credential_identity m)
    (m_candidate_credential_identity m) (m_credential_change m) (m_renewal m)
    (m_renewal_pending m) (m_server_flags m) (m_connected_once m) (m_reconnect_attempts m)
    (m_transitions m) (m_connect_pending m) (m_terminal_error m) (m_replacement_cookies m).
Definition with_server_features (v : Z) (m : Machine) : Machine :=
  mkMachine (m_config m) (m_state m) (m_generation m) (m_pending m) (m_by_transaction m)
    (m_replay m) (m_controls m) (m_retained_bytes m) (m_control_generation m)
    (m_control_messages m) (m_control_bytes m) (m_incoming_count m) (m_write_busy m)
    (m_next_outbound m) (m_last_inbound m) (m_next_transaction_id m) (m_client_cookie m)
    (m_server_cookie m) (m_server_global_id m) (m_server_addresses m) v (m_global_sequence m)
    (m_connect_sequence m) (m_authenticated_global_id m) (m_credential_identity m)
    (m_candidate_credential_identity m) (m_credential_change m) (m_renewal m)
    (m_renewal_pending m) (m_server_flags m) (m_connected_once m) (m_reconnect_attempts m)
    (m_transitions m) (m_connect_pending m) (m_terminal_error m) (m_replacement_cookies m).
Definition with_global_sequence (v : Z) (m : Machine) : Machine :=
  mkMachine (m_config m) (m_state m) (m_generation m) (m_pending m) (m_by_transaction m)
    (m_replay m) (m_controls m) (m_retained_bytes m) (m_control_generation m)
    (m_control_messages m) (m_control_bytes m) (m_incoming_count m) (m_write_busy m)
    (m_next_outbound m) (m_last_inbound m) (m_next_transaction_id m) (m_client_cookie m)
    (m_server_cookie m) (m_server_global_id m) (m_server_addresses m) (m_server_features m) v
    (m_connect_sequence m) (m_authenticated_global_id m) (m_credential_identity m)
    (m_candidate_credential_identity m) (m_credential_change m) (m_renewal m)
    (m_renewal_pending m) (m_server_flags m) (m_connected_once m) (m_reconnect_attempts m)
    (m_transitions m) (m_connect_pending m) (m_terminal_error m) (m_replacement_cookies m).
Definition with_connect_sequence (v : Z) (m : Machine) : Machine :=
  mkMachine (m_config m) (m_state m) (m_generation m) (m_pending m) (m_by_transaction m)
    (m_replay m) (m_controls m) (m_retained_bytes m) (m_control_generation m)
    (m_control_messages m) (m_control_bytes m) (m_incoming_count m) (m_write_busy m)
    (m_next_outbound m) (m_last_inbound m) (m_next_transaction_id m) (m_client_cookie m)
    (m_server_cookie m) (m_server_global_id m) (m_server_addresses m) (m_server_features m)
    (m_global_sequence m) v (m_authenticated_global_id m) (m_credential_identity m)
    (m_candidate_credential_identity m) (m_credential_change m) (m_renewal m)
    (m_renewal_pending m) (m_server_flags m) (m_connected_once m) (m_reconnect_attempts m)
    (m_transitions m) (m_connect_pending m) (m_terminal_error m) (m_replacement_cookies m).
Definition with_authenticated_global_id (v : Z) (m : Machine) : Machine :=
  mkMachine (m_config m) (m_state m) (m_generation m) (m_pending m) (m_by_transaction m)
    (m_replay m) (m_controls m) (m_retained_bytes m) (m_control_generation m)
    (m_control_messages m) (m_control_bytes m) (m_incoming_count m) (m_write_busy m)
    (m_next_outbound m) (m_last_inbound m) (m_next_transaction_id m) (m_client_cookie m)
    (m_server_cookie m) (m_server_global_id m) (m_server_addresses m) (m_server_features m)
    (m_global_sequence m) (m_connect_sequence m) v (m_credential_identity m)
    (m_candidate_credential_identity m) (m_credential_change m) (m_renewal m)
    (m_renewal_pending m) (m_server_flags m) (m_connected_once m) (m_reconnect_attempts m)
    (m_transitions m) (m_connect_pending m) (m_terminal_error m) (m_replacement_cookies m).
Definition with_credential_identity (v : option (list byte)) (m : Machine) : Machine :=
  mkMachine (m_config m) (m_state m) (m_generation m) (m_pending m) (m_by_transaction m)
    (m_replay m) (m_controls m) (m_retained_bytes m) (m_control_generation m)
    (m_control_messages m) (m_control_bytes m) (m_incoming_count m) (m_write_busy m)
    (m_next_outbound m) (m_last_inbound m) (m_next_transaction_id m) (m_client_cookie m)
    (m_server_cookie m) (m_server_global_id m) (m_server_addresses m) (m_server_features m)
    (m_global_sequence m) (m_connect_sequence m) (m_authenticated_global_id m) v
    (m_candidate_credential_identity m) (m_credential_change m) (m_renewal m)
    (m_renewal_pending m) (m_server_flags m) (m_connected_once m) (m_reconnect_attempts m)
    (m_transitions m) (m_connect_pending m) (m_terminal_error m) (m_replacement_cookies m).
Definition with_candidate_credential_identity (v : option (list byte)) (m : Machine) : Machine :=
  mkMachine (m_config m) (m_state m) (m_generation m) (m_pending m) (m_by_transaction m)
    (m_replay m) (m_controls m) (m_retained_bytes m) (m_control_generation m)
    (m_control_messages m) (m_control_bytes m) (m_incoming_count m) (m_write_busy m)
    (m_next_outbound m) (m_last_inbound m) (m_next_transaction_id m) (m_client_cookie m)
    (m_server_cookie m) (m_server_global_id m) (m_server_addresses m) (m_server_features m)
    (m_global_sequence m) (m_connect_sequence m) (m_authenticated_global_id m)
    (m_credential_identity m) v (m_credential_change m) (m_renewal m) (m_renewal_pending m)
    (m_server_flags m) (m_connected_once m) (m_reconnect_attempts m) (m_transitions m)
    (m_connect_pending m) (m_terminal_error m) (m_replacement_cookies m).
Definition with_credential_change (v : CredentialChange) (m : Machine) : Machine :=
  mkMachine (m_config m) (m_state m) (m_generation m) (m_pending m) (m_by_transaction m)
    (m_replay m) (m_controls m) (m_retained_bytes m) (m_control_generation m)
    (m_control_messages m) (m_control_bytes m) (m_incoming_count m) (m_write_busy m)
    (m_next_outbound m) (m_last_inbound m) (m_next_transaction_id m) (m_client_cookie m)
    (m_server_cookie m) (m_server_global_id m) (m_server_addresses m) (m_server_features m)
    (m_global_sequence m) (m_connect_sequence m) (m_authenticated_global_id m)
    (m_credential_identity m) (m_candidate_credential_identity m) v (m_renewal m)
    (m_renewal_pending m) (m_server_flags m) (m_connected_once m) (m_reconnect_attempts m)
    (m_transitions m) (m_connect_pending m) (m_terminal_error m) (m_replacement_cookies m).
Definition with_renewal (v : RenewalState) (m : Machine) : Machine :=
  mkMachine (m_config m) (m_state m) (m_generation m) (m_pending m) (m_by_transaction m)
    (m_replay m) (m_controls m) (m_retained_bytes m) (m_control_generation m)
    (m_control_messages m) (m_control_bytes m) (m_incoming_count m) (m_write_busy m)
    (m_next_outbound m) (m_last_inbound m) (m_next_transaction_id m) (m_client_cookie m)
    (m_server_cookie m) (m_server_global_id m) (m_server_addresses m) (m_server_features m)
    (m_global_sequence m) (m_connect_sequence m) (m_authenticated_global_id m)
    (m_credential_identity m) (m_candidate_credential_identity m) (m_credential_change m) v
    (m_renewal_pending m) (m_server_flags m) (m_connected_once m) (m_reconnect_attempts m)
    (m_transitions m) (m_connect_pending m) (m_terminal_error m) (m_replacement_cookies m).
Definition with_renewal_pending (v : bool) (m : Machine) : Machine :=
  mkMachine (m_config m) (m_state m) (m_generation m) (m_pending m) (m_by_transaction m)
    (m_replay m) (m_controls m) (m_retained_bytes m) (m_control_generation m)
    (m_control_messages m) (m_control_bytes m) (m_incoming_count m) (m_write_busy m)
    (m_next_outbound m) (m_last_inbound m) (m_next_transaction_id m) (m_client_cookie m)
    (m_server_cookie m) (m_server_global_id m) (m_server_addresses m) (m_server_features m)
    (m_global_sequence m) (m_connect_sequence m) (m_authenticated_global_id m)
    (m_credential_identity m) (m_candidate_credential_identity m) (m_credential_change m)
    (m_renewal m) v (m_server_flags m) (m_connected_once m) (m_reconnect_attempts m)
    (m_transitions m) (m_connect_pending m) (m_terminal_error m) (m_replacement_cookies m).
Definition with_server_flags (v : Z) (m : Machine) : Machine :=
  mkMachine (m_config m) (m_state m) (m_generation m) (m_pending m) (m_by_transaction m)
    (m_replay m) (m_controls m) (m_retained_bytes m) (m_control_generation m)
    (m_control_messages m) (m_control_bytes m) (m_incoming_count m) (m_write_busy m)
    (m_next_outbound m) (m_last_inbound m) (m_next_transaction_id m) (m_client_cookie m)
    (m_server_cookie m) (m_server_global_id m) (m_server_addresses m) (m_server_features m)
    (m_global_sequence m) (m_connect_sequence m) (m_authenticated_global_id m)
    (m_credential_identity m) (m_candidate_credential_identity m) (m_credential_change m)
    (m_renewal m) (m_renewal_pending m) v (m_connected_once m) (m_reconnect_attempts m)
    (m_transitions m) (m_connect_pending m) (m_terminal_error m) (m_replacement_cookies m).
Definition with_connected_once (v : bool) (m : Machine) : Machine :=
  mkMachine (m_config m) (m_state m) (m_generation m) (m_pending m) (m_by_transaction m)
    (m_replay m) (m_controls m) (m_retained_bytes m) (m_control_generation m)
    (m_control_messages m) (m_control_bytes m) (m_incoming_count m) (m_write_busy m)
    (m_next_outbound m) (m_last_inbound m) (m_next_transaction_id m) (m_client_cookie m)
    (m_server_cookie m) (m_server_global_id m) (m_server_addresses m) (m_server_features m)
    (m_global_sequence m) (m_connect_sequence m) (m_authenticated_global_id m)
    (m_credential_identity m) (m_candidate_credential_identity m) (m_credential_change m)
    (m_renewal m) (m_renewal_pending m) (m_server_flags m) v (m_reconnect_attempts m)
    (m_transitions m) (m_connect_pending m) (m_terminal_error m) (m_replacement_cookies m).
Definition with_reconnect_attempts (v : Z) (m : Machine) : Machine :=
  mkMachine (m_config m) (m_state m) (m_generation m) (m_pending m) (m_by_transaction m)
    (m_replay m) (m_controls m) (m_retained_bytes m) (m_control_generation m)
    (m_control_messages m) (m_control_bytes m) (m_incoming_count m) (m_write_busy m)
    (m_next_outbound m) (m_last_inbound m) (m_next_transaction_id m) (m_client_cookie m)
    (m_server_cookie m) (m_server_global_id m) (m_server_addresses m) (m_server_features m)
    (m_global_sequence m) (m_connect_sequence m) (m_authenticated_global_id m)
    (m_credential_identity m) (m_candidate_credential_identity m) (m_credential_change m)
    (m_renewal m) (m_renewal_pending m) (m_server_flags m) (m_connected_once m) v
    (m_transitions m) (m_connect_pending m) (m_terminal_error m) (m_replacement_cookies m).
Definition with_transitions (v : Z) (m : Machine) : Machine :=
  mkMachine (m_config m) (m_state m) (m_generation m) (m_pending m) (m_by_transaction m)
    (m_replay m) (m_controls m) (m_retained_bytes m) (m_control_generation m)
    (m_control_messages m) (m_control_bytes m) (m_incoming_count m) (m_write_busy m)
    (m_next_outbound m) (m_last_inbound m) (m_next_transaction_id m) (m_client_cookie m)
    (m_server_cookie m) (m_server_global_id m) (m_server_addresses m) (m_server_features m)
    (m_global_sequence m) (m_connect_sequence m) (m_authenticated_global_id m)
    (m_credential_identity m) (m_candidate_credential_identity m) (m_credential_change m)
    (m_renewal m) (m_renewal_pending m) (m_server_flags m) (m_connected_once m)
    (m_reconnect_attempts m) v (m_connect_pending m) (m_terminal_error m)
    (m_replacement_cookies m).
Definition with_connect_pending (v : bool) (m : Machine) : Machine :=
  mkMachine (m_config m) (m_state m) (m_generation m) (m_pending m) (m_by_transaction m)
    (m_replay m) (m_controls m) (m_retained_bytes m) (m_control_generation m)
    (m_control_messages m) (m_control_bytes m) (m_incoming_count m) (m_write_busy m)
    (m_next_outbound m) (m_last_inbound m) (m_next_transaction_id m) (m_client_cookie m)
    (m_server_cookie m) (m_server_global_id m) (m_server_addresses m) (m_server_features m)
    (m_global_sequence m) (m_connect_sequence m) (m_authenticated_global_id m)
    (m_credential_identity m) (m_candidate_credential_identity m) (m_credential_change m)
    (m_renewal m) (m_renewal_pending m) (m_server_flags m) (m_connected_once m)
    (m_reconnect_attempts m) (m_transitions m) v (m_terminal_error m) (m_replacement_cookies
    m).
Definition with_terminal_error (v : option SessionError) (m : Machine) : Machine :=
  mkMachine (m_config m) (m_state m) (m_generation m) (m_pending m) (m_by_transaction m)
    (m_replay m) (m_controls m) (m_retained_bytes m) (m_control_generation m)
    (m_control_messages m) (m_control_bytes m) (m_incoming_count m) (m_write_busy m)
    (m_next_outbound m) (m_last_inbound m) (m_next_transaction_id m) (m_client_cookie m)
    (m_server_cookie m) (m_server_global_id m) (m_server_addresses m) (m_server_features m)
    (m_global_sequence m) (m_connect_sequence m) (m_authenticated_global_id m)
    (m_credential_identity m) (m_candidate_credential_identity m) (m_credential_change m)
    (m_renewal m) (m_renewal_pending m) (m_server_flags m) (m_connected_once m)
    (m_reconnect_attempts m) (m_transitions m) (m_connect_pending m) v (m_replacement_cookies
    m).
Definition with_replacement_cookies (v : list Z) (m : Machine) : Machine :=
  mkMachine (m_config m) (m_state m) (m_generation m) (m_pending m) (m_by_transaction m)
    (m_replay m) (m_controls m) (m_retained_bytes m) (m_control_generation m)
    (m_control_messages m) (m_control_bytes m) (m_incoming_count m) (m_write_busy m)
    (m_next_outbound m) (m_last_inbound m) (m_next_transaction_id m) (m_client_cookie m)
    (m_server_cookie m) (m_server_global_id m) (m_server_addresses m) (m_server_features m)
    (m_global_sequence m) (m_connect_sequence m) (m_authenticated_global_id m)
    (m_credential_identity m) (m_candidate_credential_identity m) (m_credential_change m)
    (m_renewal m) (m_renewal_pending m) (m_server_flags m) (m_connected_once m)
    (m_reconnect_attempts m) (m_transitions m) (m_connect_pending m) (m_terminal_error m) v.
