(* ===== verification/Session.v ===== *)
(** * The session state machine

    Models [Machine] of [src/src/msgr/session.rs]: every input of [step] and
    every method it calls.  A method on [&mut self] that pushes effects is a
    function from a machine to a result, a machine and the effects pushed. *)

From S2P Require Import Prelude Codec Frame Message Address Control Secure SessionState.
From Stdlib Require Import ZArith Lia Strings.Byte.
From stdpp Require Import base option gmap sorting numbers list.

Open Scope Z_scope.

(** ** Methods that push effects *)

Definition SM (A : Type) : Type := Machine -> A * Machine * list Effect.

#[export] Instance SM_ret : MRet SM := fun A a m => (a, m, []).
#[export] Instance SM_bind : MBind SM := fun A B f x m =>
  let '(a, m, e1) := x m in
  let '(b, m, e2) := f a m in
  (b, m, e1 ++ e2).

Definition emit (e : Effect) : SM unit := fun m => (tt, m, [e]).
Definition emits (l : list Effect) : SM unit := fun m => (tt, m, l).
Definition event (e : Event) : SM unit := emit (F_Event e).
Definition modify (f : Machine -> Machine) : SM unit := fun m => (tt, f m, []).
Definition gets {A} (f : Machine -> A) : SM A := fun m => (f m, m, []).

(** ** Pending requests *)

Definition with_transaction_id (t : Z) (msg : Message) : Message :=
  let h := header msg in
  mkMessage (mkMessageHeader (sequence h) t (message_type h) (priority h) (version h)
      (data_pre_padding_length h) (data_offset h) (ack_sequence h) (header_flags h)
      (compat_version h) (reserved h))
    (lengths msg) (front msg) (middle msg) (data msg).

Definition with_sequence (s : Z) (msg : Message) : Message :=
  let h := header msg in
  mkMessage (mkMessageHeader s (transaction_id h) (message_type h) (priority h) (version h)
      (data_pre_padding_length h) (data_offset h) (ack_sequence h) (header_flags h)
      (compat_version h) (reserved h))
    (lengths msg) (front msg) (middle msg) (data msg).

Definition p_transaction (p : Pending) : Z := transaction_id (header (p_message p)).

Definition is_control (p : Pending) : bool := bool_decide (is_Some (p_control p)).

(** [self.pending(request_id)]. *)
Definition find_pending (request_id : Z) (l : list Pending) : option Pending :=
  snd <$> list_find (fun p => p_request_id p = request_id) l.

Definition mark_unsent (p : Pending) : Pending :=
  mkPending (p_request_id p) (p_message p) (p_bytes p) (p_sequence p) false
    (p_may_have_executed p) (p_one_way p) (p_control p).

(** [pending.sequence = sequence; pending.message.header.sequence = sequence]. *)
Definition sequenced (s : Z) (p : Pending) : Pending :=
  mkPending (p_request_id p) (with_sequence s (p_message p)) (p_bytes p) s (p_sent p)
    (p_may_have_executed p) (p_one_way p) (p_control p).

Definition mark_sent (p : Pending) : Pending :=
  mkPending (p_request_id p) (p_message p) (p_bytes p) (p_sequence p) true true
    (p_one_way p) (p_control p).

(** [self.pending_mut(request_id)] set to unsent. *)
Definition unsend (l : list Pending) (request_id : Z) : list Pending :=
  match list_find (fun p => p_request_id p = request_id) l with
  | Some (i, _) => alter mark_unsent i l
  | None => l
  end.

Definition in_flight_count (m : Machine) : Z :=
  zlen (filter (fun p => p_sent p = true /\ p_control p = None) (m_pending m)).

Definition removed (request_id : Z) (m : Machine) : Machine :=
  match list_find (fun p => p_request_id p = request_id) (m_pending m) with
  | None => m
  | Some (i, p) =>
      let m := with_pending (delete i (m_pending m)) m in
      let m := with_replay (filter (fun c => c <> request_id) (m_replay m)) m in
      let m := with_by_transaction (delete (p_transaction p) (m_by_transaction m)) m in
      if is_control p then
        let m := with_control_messages (m_control_messages m - 1) m in
        with_control_bytes (m_control_bytes m - p_bytes p) m
      else with_retained_bytes (m_retained_bytes m - p_bytes p) m
  end.

Definition remove_pending (request_id : Z) : SM unit := modify (removed request_id).

(** [for (request_id, error) in ... { remove_pending; Failed }]. *)
Fixpoint fail_requests (l : list (Z * SessionError)) : SM unit :=
  match l with
  | [] => mret tt
  | (request_id, error) :: l =>
      _ ← remove_pending request_id;
      _ ← emit (F_Failed request_id error);
      fail_requests l
  end.

(** ** Failing *)

Definition set_state (s : State) : SM unit :=
  m ← gets id;
  if bool_decide (m_state m = s) then mret tt
  else _ ← modify (with_state s); event (E_StateChanged s).

(** A request that may have executed has an unknown outcome. *)
Definition fail_all_error (error : SessionError) (p : Pending) : SessionError :=
  if p_may_have_executed p && bool_decide (error <> SE_OutcomeUnknown)
  then SE_OutcomeUnknown else error.

Definition cleared (m : Machine) : Machine :=
  let m := with_pending [] m in
  let m := with_replay [] m in
  let m := with_by_transaction ∅ m in
  let m := with_retained_bytes 0 m in
  let m := with_control_messages 0 m in
  with_control_bytes 0 m.

Definition fail_all (error : SessionError) : SM unit :=
  m ← gets id;
  _ ← emits (map (fun p => F_Failed (p_request_id p) (fail_all_error error p)) (m_pending m));
  modify cleared.

Definition fail_terminal (error : SessionError) : SM unit :=
  m ← gets id;
  if bool_decide (is_Some (m_terminal_error m)) then mret tt
  else
    _ ← modify (with_terminal_error (Some error));
    _ ← emit (F_Terminal error);
    _ ← event (E_TransportFault error);
    _ ← modify (with_write_busy false);
    _ ← modify (with_controls []);
    _ ← modify (with_connect_pending false);
    _ ← emit (F_CloseTransport (m_generation m));
    _ ← fail_all error;
    set_state Disconnected.

Definition invalidate_controls : SM bool :=
  m ← gets id;
  match checked_add 64 (m_control_generation m) 1 with
  | None => _ ← fail_terminal SE_TransitionLimit; mret false
  | Some g =>
      _ ← modify (with_control_generation g);
      _ ← fail_requests
            (map (fun p => (p_request_id p,
                            if p_may_have_executed p then SE_OutcomeUnknown else SE_Disconnected))
               (filter (fun p => is_Some (p_control p)) (m_pending m)));
      mret true
  end.

Definition fail_sent_unknown : SM unit :=
  m ← gets id;
  _ ← fail_requests (map (fun p => (p_request_id p, SE_OutcomeUnknown))
                       (filter (fun p => p_sent p = true) (m_pending m)));
  modify (with_replay []).

Definition reset_for_new_identity : SM unit :=
  _ ← modify (with_server_cookie 0);
  _ ← modify (with_server_flags 0);
  _ ← modify (with_connect_sequence 0);
  _ ← modify (with_last_inbound 0);
  _ ← modify (with_next_outbound (Some 1));
  _ ← modify (with_next_transaction_id (Some 1));
  fail_all SE_Disconnected.

Definition replay_prepared (m : Machine) : Machine :=
  with_pending (fold_left unsend (m_replay m) (m_pending m)) m.

Definition prepare_replay : SM unit := modify replay_prepared.

(** [sequences.get(request_id).is_some_and(|value| value > sequence)]. *)
Definition replay_trimmed (seq : Z) (m : Machine) : Machine :=
  let sequences : gmap Z Z :=
    fold_left (fun s p => <[p_request_id p := p_sequence p]> s) (m_pending m) ∅ in
  with_replay
    (filter (fun r => match sequences !! r with Some v => seq <? v | None => false end = true)
       (m_replay m)) m.

Definition trim_replay (seq : Z) : SM unit := modify (replay_trimmed seq).

Definition begin_reconnect : SM unit :=
  m ← gets id;
  let cfg := m_config m in
  if (max_reconnect_attempts cfg =? 0) || (max_reconnect_attempts cfg <=? m_reconnect_attempts m)
  then fail_terminal SE_ReconnectExhausted
  else
    _ ← modify (with_reconnect_attempts (m_reconnect_attempts m + 1));
    _ ← modify (with_connect_pending true);
    match checked_add 64 (m_generation m) 1 with
    | None => fail_terminal SE_TransitionLimit
    | Some g => _ ← modify (with_generation g); emit (F_Connect g)
    end.

(** What a fault does with the pending requests. *)
Definition fault_pending : SM unit :=
  m ← gets id;
  if negb (Z.land (m_server_flags m) CONNECTION_FLAG_LOSSY =? 0) then
    _ ← fail_sent_unknown; reset_for_new_identity
  else
    match reconnect_policy (m_config m) with
    | FailPending => fail_all SE_Disconnected
    | ReplayPending => if m_server_cookie m =? 0 then fail_sent_unknown else prepare_replay
    end.

Definition fault (error : SessionError) : SM unit :=
  m ← gets id;
  if bool_decide (is_Some (m_terminal_error m)) || bool_decide (m_state m = Stopped)
     || (bool_decide (m_state m = Disconnected) && m_connect_pending m)
  then mret tt
  else
    ok ← invalidate_controls;
    if negb ok then mret tt
    else if bool_decide (error = SE_QueueSaturated) then fail_terminal error
    else
      _ ← event (E_TransportFault error);
      _ ← emit (F_CloseTransport (m_generation m));
      _ ← modify (with_write_busy false);
      _ ← modify (with_controls []);
      _ ← fault_pending;
      _ ← set_state Disconnected;
      begin_reconnect.

(** ** Guards and the control queue *)

Definition require_ready : SM bool :=
  m ← gets id;
  if bool_decide (m_state m = Ready) then mret true
  else _ ← fault SE_Malformed; mret false.

Definition transition_allowed (expected : State) : SM bool :=
  m ← gets id;
  if bool_decide (m_state m <> expected) then _ ← fault SE_Malformed; mret false
  else
    _ ← modify (with_transitions (m_transitions m + 1));
    if max_handshake_transitions (m_config m) <? m_transitions m + 1
    then _ ← fault SE_TransitionLimit; mret false
    else mret true.

Definition accept_acknowledgment (seq : Z) : SM bool :=
  m ← gets id;
  if match m_next_outbound m with
     | Some next => negb (seq =? 0) && (next <=? seq)
     | None => false
     end
  then _ ← fault SE_Malformed; mret false
  else mret true.

Definition queue_control (c : Control) : SM unit :=
  m ← gets id;
  if max_queued_messages (m_config m) <=? zlen (m_controls m)
  then fault SE_QueueSaturated
  else modify (with_controls (m_controls m ++ [c])).

Definition queue_client_ident : SM unit :=
  m ← gets id;
  let i := client_ident (m_config m) in
  queue_control (C_ClientIdent (mkClientIdent (ci_addresses i) (ci_target_address i)
    (ci_global_id i) (m_global_sequence m) (ci_supported_features i) (ci_required_features i)
    (ci_flags i) (m_client_cookie m))).

Definition queue_reconnect : SM unit :=
  m ← gets id;
  _ ← modify (with_controls []);
  queue_control (C_SessionReconnect (mkSessionReconnect (ci_addresses (client_ident (m_config m)))
    (m_client_cookie m) (m_server_cookie m) (m_global_sequence m) (m_connect_sequence m)
    (m_last_inbound m))).

Definition refresh_cookie : SM bool :=
  m ← gets id;
  match m_replacement_cookies m with
  | [] => _ ← fail_terminal SE_Disconnected; mret false
  | cookie :: cookies =>
      _ ← modify (with_replacement_cookies cookies);
      if cookie =? 0 then _ ← fail_terminal SE_Malformed; mret false
      else _ ← modify (with_client_cookie cookie); mret true
  end.

Definition start_transport (s : State) : SM bool :=
  m ← gets id;
  match checked_add 64 (m_generation m) 1 with
  | None => _ ← fail_terminal SE_TransitionLimit; mret false
  | Some g => _ ← modify (with_generation g); _ ← set_state s; mret true
  end.

(** ** Sequence numbers and transactions *)

(** The value used and the counter left behind. *)
Definition take_counter (next : Z) : Z * option Z :=
  let v := Z.max next 1 in
  (v, if v =? u64_max then None else Some (v + 1)).

Definition allocate_sequence : SM (result SessionError Z) :=
  m ← gets id;
  match m_next_outbound m with
  | None => mret (Err SE_TransitionLimit)
  | Some next =>
      let '(v, next) := take_counter next in
      _ ← modify (with_next_outbound next);
      mret (Ok v)
  end.

(** The [while let] of [take_transaction_id]; [None] when the fuel runs out. *)
Fixpoint transaction_loop (fuel : nat) (next : option Z) (used : gmap Z Z)
    : option (result SessionError Z * option Z) :=
  match fuel with
  | O => None
  | S fuel =>
      match next with
      | None => Some (Err SE_TransitionLimit, None)
      | Some n =>
          let '(v, next) := take_counter n in
          if bool_decide (is_Some (used !! v)) then transaction_loop fuel next used
          else Some (Ok v, next)
      end
  end.

(** Each round but the last tries a transaction in use, so two rounds more
    than there are transactions are enough; [transaction_fuel] shows it. *)
Definition take_transaction_id : SM (result SessionError Z) :=
  m ← gets id;
  match transaction_loop (S (S (size (m_by_transaction m)))) (m_next_transaction_id m)
          (m_by_transaction m) with
  | Some (r, next) => _ ← modify (with_next_transaction_id next); mret r
  | None => mret (Err SE_TransitionLimit)
  end.

(** ** Admission *)

Section Admission.
  Context {crc_crate : Crc32cCrate}.

Definition admission_bytes (cfg : Config) (msg : Message) : result SessionError Z :=
  let limits := cfg_limits cfg in
  f ← ok_or (try_u 32 (zlen (front msg))) SE_Malformed;
  mi ← ok_or (try_u 32 (zlen (middle msg))) SE_Malformed;
  da ← ok_or (try_u 32 (zlen (data msg))) SE_Malformed;
  if negb (front_len (lengths msg) =? f) || negb (middle_len (lengths msg) =? mi)
     || negb (data_len (lengths msg) =? da) || (da <? data_pre_padding_length (header msg))
     || (max_segment_bytes limits <? f) || (max_segment_bytes limits <? mi)
     || (max_segment_bytes limits <? da)
  then Err SE_Malformed
  else
    bytes ← ok_or (a ← checked_add 64 MESSAGE_HEADER_SIZE f;
                   b ← checked_add 64 a mi;
                   checked_add 64 b da) SE_Malformed;
    frame ← map_err SE_Frame (Message_encode msg limits);
    if negb (is_ok (CrcCodec_encode (mkCrcCodec true) frame limits))
       || negb (is_ok (validate_frame_size frame limits))
    then Err SE_Malformed
    else Ok bytes.

(** Where a message of [bytes] would exceed the queue of its kind. *)
Definition saturated (m : Machine) (control : bool) (bytes : Z) : bool :=
  if control then
    (MAX_CONTROL_MESSAGES <=? m_control_messages m)
    || (saturating_sub MAX_CONTROL_BYTES (m_control_bytes m) <? bytes)
  else
    (max_queued_messages (m_config m) <=? zlen (m_pending m) - m_control_messages m)
    || (saturating_sub (max_retained_bytes (m_config m)) (m_retained_bytes m) <? bytes).

Definition admitted (request_id transaction bytes : Z) (msg : Message) (one_way control : bool)
    (m : Machine) : Machine :=
  let p := mkPending request_id (with_transaction_id transaction msg) bytes 0 false false one_way
             (if control then Some (m_control_generation m) else None) in
  let m := with_pending (m_pending m ++ [p]) m in
  let m := with_by_transaction (<[transaction := request_id]> (m_by_transaction m)) m in
  if control then
    let m := with_control_messages (m_control_messages m + 1) m in
    with_control_bytes (m_control_bytes m + bytes) m
  else with_retained_bytes (m_retained_bytes m + bytes) m.

Definition enqueue (request_id transaction bytes : Z) (msg : Message) (one_way control : bool)
    : SM unit :=
  _ ← modify (admitted request_id transaction bytes msg one_way control);
  emit (F_Admitted request_id transaction).

Definition admit_message (request_id : Z) (msg : Message) (one_way control : bool) : SM unit :=
  m ← gets id;
  match m_terminal_error m with
  | Some error => emit (F_Failed request_id error)
  | None =>
      if bool_decide (m_state m = Stopped) then emit (F_Failed request_id SE_Closed)
      else
        match admission_bytes (m_config m) msg with
        | Err _ => emit (F_Failed request_id SE_Malformed)
        | Ok bytes =>
            if saturated m control bytes
               || bool_decide (is_Some (find_pending request_id (m_pending m)))
            then emit (F_Failed request_id SE_QueueSaturated)
            else if transaction_id (header msg) =? 0 then
              r ← take_transaction_id;
              match r with
              | Err error => _ ← fail_terminal error; emit (F_Failed request_id error)
              | Ok t => enqueue request_id t bytes msg one_way control
              end
            else if bool_decide (is_Some (m_by_transaction m !! transaction_id (header msg)))
            then emit (F_Failed request_id SE_Malformed)
            else enqueue request_id (transaction_id (header msg)) bytes msg one_way control
        end
  end.

(** [message.front[28]], behind the length check. *)
Definition control_admissible (msg : Message) : bool :=
  (message_type (header msg) =? 61) && (version (header msg) =? 1)
  && (compat_version (header msg) <=? 1) && (29 <=? zlen (front msg))
  && bool_decide (front msg !! 28%nat = Some x02)
  && (zlen (middle msg) =? 0) && (zlen (data msg) =? 0).

Definition admit_control (request_id : Z) (msg : Message) (gen : Z) : SM unit :=
  m ← gets id;
  if negb (gen =? m_control_generation m) || bool_decide (m_state m <> Ready)
  then emit (F_Failed request_id SE_Disconnected)
  else if negb (control_admissible msg) then emit (F_Failed request_id SE_UnsupportedPayload)
  else admit_message request_id msg true true.

End Admission.

(** ** Requests *)

Definition cancel (request_id : Z) : SM unit :=
  m ← gets id;
  match find_pending request_id (m_pending m) with
  | None => mret tt
  | Some p =>
      _ ← remove_pending request_id;
      emit (F_Failed request_id (if p_may_have_executed p then SE_OutcomeUnknown else SE_Cancelled))
  end.

(** The key of [min_by_key]: requests to replay first, by sequence, then new
    control requests, then new requests. *)
Definition dispatch_key (p : Pending) : Z * Z :=
  if p_sequence p =? 0 then if is_control p then (1, 0) else (2, 0)
  else (0, p_sequence p).

Definition key_lt (a b : Z * Z) : bool := (a.1 <? b.1) || ((a.1 =? b.1) && (a.2 <? b.2)).

(** The index of the first eligible request of least key, behind [best]. *)
Fixpoint select (eligible : Pending -> bool) (l : list Pending) (i : nat)
    (best : option (nat * (Z * Z))) : option nat :=
  match l with
  | [] => fst <$> best
  | p :: l =>
      let best :=
        if eligible p then
          match best with
          | Some (_, k) => if key_lt (dispatch_key p) k then Some (i, dispatch_key p) else best
          | None => Some (i, dispatch_key p)
          end
        else best in
      select eligible l (S i) best
  end.

Definition eligible (m : Machine) (p : Pending) : bool :=
  negb (p_sent p)
  && (is_control p
      || (bool_decide (m_renewal m <> R_Draining)
          && (in_flight_count m <? max_in_flight_transactions (m_config m)))).

(** Sends the request at [i], whose sequence number is assigned. *)
Definition sent_at (i : nat) (p : Pending) (m : Machine) : Machine :=
  let m := with_pending (<[i := mark_sent p]> (m_pending m)) m in
  let m := if bool_decide (p_request_id p ∈ m_replay m) then m
           else with_replay (m_replay m ++ [p_request_id p]) m in
  with_write_busy true m.

Definition send (i : nat) (p : Pending) : SM unit :=
  m ← gets id;
  _ ← modify (sent_at i p);
  emit (F_SendMessage (m_generation m) (p_request_id p) (p_message p)).

Definition dispatch_request : SM unit :=
  m ← gets id;
  match select (eligible m) (m_pending m) 0 None with
  | None => mret tt
  | Some i =>
      match m_pending m !! i with
      | None => mret tt
      | Some p =>
          if p_sequence p =? 0 then
            r ← allocate_sequence;
            match r with
            | Err error => fail_terminal error
            | Ok s => send i (sequenced s p)
            end
          else send i p
      end
  end.

Definition dispatch : SM unit :=
  m ← gets id;
  if m_write_busy m || bool_decide (m_state m = Disconnected) || bool_decide (m_state m = Wait)
     || bool_decide (m_state m = Stopped)
  then mret tt
  else
    match m_controls m with
    | c :: cs =>
        _ ← modify (with_controls cs);
        _ ← modify (with_write_busy true);
        emit (F_SendControl (m_generation m) c)
    | [] =>
        if bool_decide (m_state m <> Ready) then mret tt
        else if bool_decide (m_renewal m = R_Draining) && (m_control_messages m =? 0) then
          if in_flight_count m =? 0 then
            _ ← modify (with_renewal R_Reconnecting); fault SE_Renewal
          else mret tt
        else dispatch_request
    end.

Definition write_complete (gen : Z) (request_id : option Z) (res : result SessionError unit)
    : SM unit :=
  m ← gets id;
  if negb (gen =? m_generation m) then mret tt
  else
    _ ← modify (with_write_busy false);
    match res with
    | Err error => fault error
    | Ok _ =>
        match request_id with
        | Some r =>
            match find_pending r (m_pending m) with
            | Some p =>
                if p_one_way p then _ ← remove_pending r; emit (F_Completed r None) else mret tt
            | None => mret tt
            end
        | None => mret tt
        end
    end.

(** The request an inbound message answers. *)
Definition answered (m : Machine) (msg : Message) : option Z :=
  r ← m_by_transaction m !! transaction_id (header msg);
  p ← find_pending r (m_pending m);
  if p_may_have_executed p && negb (p_one_way p) then Some r else None.

(** Delivery of an accepted message: a reply or an unsolicited message. *)
Definition deliver (msg : Message) : SM unit :=
  m ← gets id;
  match answered m msg with
  | Some r => _ ← remove_pending r; emit (F_Completed r (Some msg))
  | None =>
      if max_queued_messages (m_config m) <=? m_incoming_count m then fail_terminal SE_QueueSaturated
      else _ ← modify (with_incoming_count (m_incoming_count m + 1)); emit (F_Incoming msg)
  end.

Definition message (msg : Message) : SM unit :=
  m ← gets id;
  if bool_decide (m_state m <> Ready) then fault SE_Malformed
  else
    ok ← accept_acknowledgment (ack_sequence (header msg));
    if negb ok then mret tt
    else
      let s := sequence (header msg) in
      if s <=? m_last_inbound m then event (E_DuplicateDropped s)
      else
        _ ← (if negb (m_last_inbound m =? u64_max) && negb (s =? m_last_inbound m + 1)
             then event (E_SequenceGap s (m_last_inbound m + 1)) else mret tt);
        _ ← modify (with_last_inbound s);
        _ ← trim_replay (ack_sequence (header msg));
        _ ← queue_control (C_Ack s);
        deliver msg.

(** ** The handshake *)

Definition complete_renewal : SM bool :=
  m ← gets id;
  if bool_decide (m_renewal m <> R_Reconnecting) then mret true
  else if bool_decide (m_credential_change m = CC_Changed) then
    _ ← modify (with_credential_identity (m_candidate_credential_identity m));
    _ ← modify (with_candidate_credential_identity None);
    _ ← (if m_renewal_pending m then
           _ ← modify (with_renewal_pending false);
           _ ← event E_CredentialRenewal;
           modify (with_renewal R_Draining)
         else modify (with_renewal R_Idle));
    _ ← modify (with_credential_change CC_Unknown);
    _ ← event E_CredentialRenewalCompleted;
    mret true
  else _ ← fault SE_Renewal; mret false.

Definition server_ident (ident : ServerIdent) : SM unit :=
  m ← gets id;
  let cfg := m_config m in
  let ours := client_ident cfg in
  if bool_decide (m_state m <> Connecting) then fault SE_Malformed
  else
    _ ← modify (with_transitions (m_transitions m + 1));
    if max_handshake_transitions cfg <? m_transitions m + 1 then fault SE_TransitionLimit
    else if negb (Z.ldiff (si_required_features ident) (ci_supported_features ours) =? 0)
            || negb (Z.ldiff (ci_required_features ours) (si_supported_features ident) =? 0)
    then fail_terminal SE_UnsupportedFeature
    else if negb (existsb (fun a => has_same_endpoint a (ci_target_address ours)) (si_addresses ident))
    then fault SE_Malformed
    else
      _ ← modify (with_server_cookie (si_cookie ident));
      _ ← modify (with_server_global_id (si_global_id ident));
      _ ← modify (with_server_addresses (si_addresses ident));
      _ ← modify (with_server_features (si_supported_features ident));
      _ ← modify (with_server_flags (si_flags ident));
      _ ← fail_sent_unknown;
      ok ← complete_renewal;
      if (ok : bool) then _ ← modify (with_reconnect_attempts 0); set_state Ready else mret tt.

(** A full reset starts over under a new cookie; otherwise what was sent is
    prepared for replay. *)
Definition reset_pending (full : bool) : SM bool :=
  if full then
    ok ← refresh_cookie;
    if negb ok then mret false
    else
      _ ← modify (with_next_outbound (Some 1));
      _ ← modify (with_next_transaction_id (Some 1));
      _ ← fail_all SE_Disconnected;
      mret true
  else _ ← prepare_replay; mret true.

Definition reset (full : bool) : SM unit :=
  ok ← invalidate_controls;
  if negb ok then mret tt
  else
    _ ← event (E_SessionReset full);
    _ ← modify (with_server_cookie 0);
    _ ← modify (with_server_flags 0);
    _ ← modify (with_connect_sequence 0);
    _ ← modify (with_last_inbound 0);
    ok ← reset_pending full;
    if negb ok then mret tt
    else _ ← set_state Connecting; queue_client_ident.

Definition session_retry (connect_seq : Z) : SM unit :=
  ok ← transition_allowed Reconnecting;
  if negb ok then mret tt
  else
    match checked_add 64 connect_seq 1 with
    | None => fail_terminal SE_TransitionLimit
    | Some next =>
        _ ← modify (with_connect_sequence next);
        _ ← event (E_Retry next);
        queue_reconnect
    end.

Definition session_retry_global (global_seq : Z) : SM unit :=
  ok ← transition_allowed Reconnecting;
  if negb ok then mret tt
  else
    m ← gets id;
    match checked_add 64 (Z.max (m_global_sequence m) global_seq) 1 with
    | None => fail_terminal SE_TransitionLimit
    | Some next =>
        _ ← modify (with_global_sequence next);
        _ ← event (E_RetryGlobal next);
        queue_reconnect
    end.

Definition server_wait : SM unit :=
  m ← gets id;
  if negb (bool_decide (m_state m = Connecting) || bool_decide (m_state m = Reconnecting))
  then fault SE_Malformed
  else
    _ ← modify (with_transitions (m_transitions m + 1));
    _ ← set_state Wait;
    _ ← event E_Wait;
    fault SE_Disconnected.

Definition reconnect_ok (message_seq : Z) : SM unit :=
  ok ← transition_allowed Reconnecting;
  if negb ok then mret tt
  else
    ok ← accept_acknowledgment message_seq;
    if negb ok then mret tt
    else
      _ ← trim_replay message_seq;
      _ ← prepare_replay;
      ok ← complete_renewal;
      if (ok : bool) then
        _ ← modify (with_reconnect_attempts 0);
        _ ← set_state Ready;
        event (E_ReconnectOk message_seq)
      else mret tt.

Definition control (c : Control) : SM unit :=
  match c with
  | C_Ack s =>
      ok ← require_ready;
      if negb ok then mret tt
      else
        ok ← accept_acknowledgment s;
        if negb ok then mret tt
        else _ ← trim_replay s; event (E_Acknowledged s)
  | C_Keepalive2 t => ok ← require_ready; if (ok : bool) then queue_control (C_Keepalive2Ack t) else mret tt
  | C_Keepalive2Ack _ => ok ← require_ready; if (ok : bool) then event E_KeepaliveAck else mret tt
  | C_SessionReset full => ok ← transition_allowed Reconnecting; if (ok : bool) then reset full else mret tt
  | C_SessionRetry s => session_retry s
  | C_SessionRetryGlobal s => session_retry_global s
  | C_Wait => server_wait
  | C_SessionReconnectOk s => reconnect_ok s
  | C_ServerIdent ident => server_ident ident
  | C_IdentMissingFeatures _ => fail_terminal SE_UnsupportedPayload
  | _ => fault SE_UnsupportedPayload
  end.

(** ** Connections *)

Definition abort (error : SessionError) (gen : Z) : SM bool :=
  _ ← fail_terminal error; _ ← emit (F_CloseTransport gen); mret false.

(** A connection behind the first takes a new global sequence. *)
Definition advance_global_sequence (gen : Z) : SM bool :=
  m ← gets id;
  if m_connected_once m then
    match checked_add 64 (m_global_sequence m) 1 with
    | None => abort SE_TransitionLimit gen
    | Some next => _ ← modify (with_global_sequence next); mret true
    end
  else mret true.

Definition with_ident_global_id (g : Z) (cfg : Config) : Config :=
  let i := client_ident cfg in
  mkConfig (cfg_limits cfg) (max_queued_messages cfg) (max_retained_bytes cfg)
    (max_in_flight_transactions cfg) (max_reconnect_attempts cfg) (max_handshake_transitions cfg)
    (reconnect_policy cfg)
    (mkClientIdent (ci_addresses i) (ci_target_address i) g (ci_global_sequence i)
       (ci_supported_features i) (ci_required_features i) (ci_flags i) (ci_cookie i))
    (cfg_client_cookie cfg) (cfg_server_cookie cfg) (cfg_global_sequence cfg)
    (cfg_connect_sequence cfg) (cfg_replacement_cookies cfg).

(** [i64::try_from(global_id)]. *)
Definition i64_max : Z := 9223372036854775807.

Definition adopt_global_id (agid : option Z) (gen : Z) : SM bool :=
  m ← gets id;
  match agid with
  | None => mret true
  | Some g =>
      let changed := negb (m_authenticated_global_id m =? 0) && negb (m_authenticated_global_id m =? g) in
      _ ← modify (with_authenticated_global_id g);
      if i64_max <? g then abort SE_Malformed gen
      else
        _ ← modify (with_config (with_ident_global_id g (m_config m)));
        _ ← (if changed then reset_for_new_identity else mret tt);
        mret true
  end.

Definition note_credential (credential : option (list byte)) : SM unit :=
  m ← gets id;
  match credential with
  | Some identity =>
      if bool_decide (m_credential_identity m = Some identity)
      then modify (with_credential_change CC_Unchanged)
      else
        _ ← modify (with_candidate_credential_identity (Some identity));
        modify (with_credential_change CC_Changed)
  | None =>
      _ ← modify (with_candidate_credential_identity None);
      modify (with_credential_change CC_Unknown)
  end.

(** Reconnects the session of a known server cookie, or opens a new one. *)
Definition open_session (gen : Z) : SM unit :=
  m ← gets id;
  if negb (m_server_cookie m =? 0) then
    match checked_add 64 (m_connect_sequence m) 1 with
    | None => _ ← abort SE_TransitionLimit gen; mret tt
    | Some next =>
        _ ← modify (with_connect_sequence next);
        ok ← start_transport Reconnecting;
        if negb ok then emit (F_CloseTransport gen) else queue_reconnect
    end
  else
    ok ← refresh_cookie;
    if negb ok then emit (F_CloseTransport gen)
    else
      _ ← modify (with_connect_sequence 0);
      ok ← start_transport Connecting;
      if negb ok then emit (F_CloseTransport gen) else queue_client_ident.

Definition connected (gen : Z) (agid : option Z) (credential : option (list byte)) : SM unit :=
  m ← gets id;
  if negb (gen =? m_generation m) || negb (m_connect_pending m) then emit (F_CloseTransport gen)
  else
    _ ← modify (with_connect_pending false);
    _ ← modify (with_terminal_error None);
    _ ← modify (with_transitions 0);
    ok ← advance_global_sequence gen;
    if negb ok then mret tt
    else
      _ ← modify (with_connected_once true);
      ok ← adopt_global_id agid gen;
      if negb ok then mret tt
      else _ ← note_credential credential; open_session gen.

Definition start (ready : bool) : SM unit :=
  m ← gets id;
  if bool_decide (m_state m <> Disconnected) || m_connect_pending m
     || bool_decide (is_Some (m_terminal_error m))
  then mret tt
  else if ready then
    _ ← modify (with_connected_once true);
    _ ← start_transport Ready;
    mret tt
  else begin_reconnect.

Definition stop : SM unit :=
  m ← gets id;
  if bool_decide (m_state m = Stopped) then mret tt
  else
    _ ← set_state Stopped;
    _ ← fail_all SE_Closed;
    _ ← modify (with_connect_pending false);
    emit (F_CloseTransport (m_generation m)).

Definition renewal_due (gen : Z) : SM unit :=
  m ← gets id;
  if negb (gen =? m_generation m) then mret tt
  else if bool_decide (m_renewal m = R_Idle) then
    ok ← invalidate_controls;
    if negb ok then mret tt
    else _ ← modify (with_renewal R_Draining); event E_CredentialRenewal
  else modify (with_renewal_pending true).

Definition initial_connection (agid : option Z) (credential : option (list byte)) : SM unit :=
  m ← gets id;
  if bool_decide (m_state m = Disconnected) && negb (m_connect_pending m) then
    _ ← modify (with_connect_pending true);
    connected (m_generation m) agid credential
  else mret tt.

Definition initial_identity (gen : Z) (agid : option Z) (credential : option (list byte)) : SM unit :=
  m ← gets id;
  if (gen =? m_generation m) && bool_decide (m_state m = Ready) then
    _ ← (match agid with Some g => modify (with_authenticated_global_id g) | None => mret tt end);
    modify (with_credential_identity credential)
  else mret tt.

Definition connect_failed (gen : Z) : SM unit :=
  m ← gets id;
  if (gen =? m_generation m) && m_connect_pending m then
    _ ← modify (with_connect_pending false);
    _ ← event (E_TransportFault SE_Disconnected);
    begin_reconnect
  else mret tt.

(** An input of a stale generation is ignored. *)
Definition current (gen : Z) (x : SM unit) : SM unit :=
  m ← gets id;
  if gen =? m_generation m then x else mret tt.

(** ** [Machine::step] *)

Section Step.
  Context {crc_crate : Crc32cCrate}.

Definition run_input (input : Input) : SM unit :=
  match input with
  | I_Start ready => start ready
  | I_InitialConnection agid credential => initial_connection agid credential
  | I_InitialIdentity gen agid credential => initial_identity gen agid credential
  | I_Admit request_id msg one_way => admit_message request_id msg one_way false
  | I_AdmitControl request_id msg gen => admit_control request_id msg gen
  | I_Cancel request_id => cancel request_id
  | I_Dispatch => dispatch
  | I_WriteComplete gen request_id res => write_complete gen request_id res
  | I_Connected gen agid credential => connected gen agid credential
  | I_ConnectFailed gen => connect_failed gen
  | I_Control gen c => current gen (control c)
  | I_Message gen msg => current gen (message msg)
  | I_Fault gen error => current gen (fault error)
  | I_RenewalDue gen => renewal_due gen
  | I_ConsumeIncoming =>
      m ← gets id; modify (with_incoming_count (saturating_sub (m_incoming_count m) 1))
  | I_Stop => stop
  end.

Definition step (m : Machine) (input : Input) : Machine * list Effect :=
  let '(_, m, effects) := run_input input m in (m, effects).

(** A run of the machine: its last state and all its effects. *)
Fixpoint run (m : Machine) (inputs : list Input) : Machine * list Effect :=
  match inputs with
  | [] => (m, [])
  | i :: inputs =>
      let '(m, e1) := step m i in
      let '(m, e2) := run m inputs in
      (m, e1 ++ e2)
  end.

End Step.

Definition Machine_new (cfg : Config) : result SessionError Machine :=
  let limits := cfg_limits cfg in
  let ident := client_ident cfg in
  if (max_queued_messages cfg =? 0) || (max_retained_bytes cfg =? 0)
     || (max_in_flight_transactions cfg =? 0) || (max_handshake_transitions cfg =? 0)
     || (max_segment_bytes limits =? 0) || (max_frame_bytes limits =? 0)
  then Err SE_Malformed
  else if negb (cfg_global_sequence cfg =? 0) && negb (ci_global_sequence ident =? 0)
          && negb (cfg_global_sequence cfg =? ci_global_sequence ident)
  then Err SE_Malformed
  else
    Ok (mkMachine cfg Disconnected 0 [] ∅ [] [] 0 1 0 0 0 false (Some 1) 0 (Some 1)
          (cfg_client_cookie cfg) (cfg_server_cookie cfg) 0 [] 0
          (Z.max (cfg_global_sequence cfg) (ci_global_sequence ident)) (cfg_connect_sequence cfg)
          0 None None CC_Unknown R_Idle false 0 false 0 0 false None (cfg_replacement_cookies cfg)).

(** ** Snapshots *)

Record Snapshot : Type := mkSnapshot {
  s_state : State; s_generation : Z; s_next_outbound_sequence : Z; s_last_inbound_sequence : Z;
  s_next_transaction_id : Z; s_client_cookie : Z; s_server_cookie : Z; s_server_global_id : Z;
  s_server_addresses : list EntityAddr; s_server_features : Z; s_global_sequence : Z;
  s_connect_sequence : Z; s_queued : Z; s_in_flight : Z; s_replay : Z; s_retained_bytes : Z;
  s_control_generation : Z; s_control_messages : Z; s_control_bytes : Z;
  s_reconnect_attempts : Z; s_handshake_transitions : Z; s_dropped_events : Z
}.

Definition snapshot (m : Machine) : Snapshot :=
  mkSnapshot (m_state m) (m_generation m) (default 0 (m_next_outbound m)) (m_last_inbound m)
    (default 0 (m_next_transaction_id m)) (m_client_cookie m) (m_server_cookie m)
    (m_server_global_id m) (m_server_addresses m) (m_server_features m) (m_global_sequence m)
    (m_connect_sequence m)
    (zlen (filter (fun p => p_sent p = false /\ p_control p = None) (m_pending m)))
    (in_flight_count m) (zlen (m_replay m)) (m_retained_bytes m) (m_control_generation m)
    (m_control_messages m) (m_control_bytes m) (m_reconnect_attempts m) (m_transitions m) 0.
