(* ===== verification/SessionInv.v ===== *)
(** * Invariants of the session

    What every operation of the session machine preserves: the bookkeeping of
    pending requests agrees with the list of them, every queue stays within
    its configured bound, and no request is lost or answered twice. *)

From S2P Require Import Prelude Codec Frame Message Address Control Secure SessionState Session.
From Stdlib Require Import ZArith Lia Strings.Byte.
From stdpp Require Import base option gmap sorting numbers list.

Open Scope Z_scope.

(** ** Sums over pending requests *)

Definition weight {A} (w : A -> Z) (l : list A) : Z := foldr (fun p acc => w p + acc) 0 l.

#[global] Arguments weight : simpl never.

Lemma weight_cons {A} (w : A -> Z) p l : weight w (p :: l) = w p + weight w l.
Proof. done. Qed.

Lemma weight_app {A} (w : A -> Z) l k : weight w (l ++ k) = weight w l + weight w k.
Proof. induction l as [|p l IH]; [done|]. cbn [app]. rewrite !weight_cons. lia. Qed.

Lemma weight_delete {A} (w : A -> Z) i l p :
  l !! i = Some p -> weight w (delete i l) = weight w l - w p.
Proof.
  revert i. induction l as [|q l IH]; intros [|i] H; simplify_eq/=; rewrite ?weight_cons; [lia|].
  rewrite (IH _ H). lia.
Qed.

Lemma weight_insert {A} (w : A -> Z) i l p q :
  l !! i = Some p -> weight w (<[i := q]> l) = weight w l - w p + w q.
Proof.
  revert i. induction l as [|x l IH]; intros [|i] H; simplify_eq/=; rewrite ?weight_cons; [lia|].
  rewrite (IH _ H). lia.
Qed.

Lemma weight_nonneg {A} (w : A -> Z) l : Forall (fun p => 0 <= w p) l -> 0 <= weight w l.
Proof. induction 1; [done|]. rewrite weight_cons. lia. Qed.

Lemma weight_filter {A} (P : A -> Prop) `{!∀ x, Decision (P x)} l :
  zlen (filter P l) = weight (fun p => if decide (P p) then 1 else 0) l.
Proof.
  induction l as [|p l IH]; [done|]. rewrite filter_cons, weight_cons, <- IH.
  destruct (decide (P p)); rewrite ?zlen_cons; lia.
Qed.

(** What a request counts for. *)
Definition data_one (p : Pending) : Z := if is_control p then 0 else 1.
Definition control_one (p : Pending) : Z := if is_control p then 1 else 0.
Definition data_bytes (p : Pending) : Z := if is_control p then 0 else p_bytes p.
Definition ctl_bytes (p : Pending) : Z := if is_control p then p_bytes p else 0.
Definition flying (p : Pending) : Z :=
  if decide (p_sent p = true /\ p_control p = None) then 1 else 0.
Definition is_request (r : Z) (p : Pending) : Z := if p_request_id p =? r then 1 else 0.

(** How often a request is pending. *)
Definition pend (r : Z) (m : Machine) : Z := weight (is_request r) (m_pending m).

(** ** The invariant *)

(** A request was given a sequence number when, and only when, it may have
    executed; its message carries the number, which is below [next]. *)
Record pending_ok (next : option Z) (p : Pending) : Prop := {
  po_bytes : 0 <= p_bytes p;
  po_sent : p_sent p = true -> p_sequence p <> 0;
  po_executed : p_may_have_executed p = true <-> p_sequence p <> 0;
  po_sequence : p_sequence p <> 0 ->
    1 <= p_sequence p /\ sequence (header (p_message p)) = p_sequence p
    /\ forall n, next = Some n -> p_sequence p < n
}.

Record machine_ok (m : Machine) : Prop := {
  mo_requests : NoDup (map p_request_id (m_pending m));
  mo_transactions : forall t r, m_by_transaction m !! t = Some r
    <-> exists p, p ∈ m_pending m /\ p_transaction p = t /\ p_request_id p = r;
  mo_retained : m_retained_bytes m = weight data_bytes (m_pending m);
  mo_control_messages : m_control_messages m = weight control_one (m_pending m);
  mo_control_bytes : m_control_bytes m = weight ctl_bytes (m_pending m);
  mo_queue : weight data_one (m_pending m) <= max_queued_messages (m_config m);
  mo_retained_max : m_retained_bytes m <= max_retained_bytes (m_config m);
  mo_control_max : m_control_messages m <= MAX_CONTROL_MESSAGES
    /\ m_control_bytes m <= MAX_CONTROL_BYTES;
  mo_in_flight : weight flying (m_pending m) <= max_in_flight_transactions (m_config m);
  mo_pending : Forall (pending_ok (m_next_outbound m)) (m_pending m);
  mo_next : forall n, m_next_outbound m = Some n -> 1 <= n;
  mo_sequences : NoDup (filter (fun s => s <> 0) (map p_sequence (m_pending m)));
  mo_replay : NoDup (m_replay m) /\ forall r, r ∈ m_replay m ->
    exists p, p ∈ m_pending m /\ p_request_id p = r /\ p_sequence p <> 0;
  mo_controls : zlen (m_controls m) <= max_queued_messages (m_config m);
  mo_incoming : 0 <= m_incoming_count m <= max_queued_messages (m_config m);
  mo_terminal : is_Some (m_terminal_error m) -> m_pending m = [];
  mo_stopped : m_state m = Stopped -> m_pending m = [];
  mo_generation : in_u 64 (m_generation m) /\ in_u 64 (m_control_generation m)
}.

(** The answers a caller gets for request [r]. *)
Definition resolves (r : Z) (e : Effect) : Z :=
  match e with
  | F_Completed x _ | F_Failed x _ => if x =? r then 1 else 0
  | _ => 0
  end.

Definition resolved (r : Z) (es : list Effect) : Z := weight (resolves r) es.

(** The configuration but for the identity. *)
Definition same_limits (a b : Config) : Prop :=
  cfg_limits a = cfg_limits b /\ max_queued_messages a = max_queued_messages b
  /\ max_retained_bytes a = max_retained_bytes b
  /\ max_in_flight_transactions a = max_in_flight_transactions b
  /\ max_reconnect_attempts a = max_reconnect_attempts b
  /\ max_handshake_transitions a = max_handshake_transitions b.

(** What an operation does to a machine that is in order: it stays in order,
    [extra r] requests [r] are new, and every pending request is still pending
    or answered exactly once. *)
Record goes (extra : Z -> Z) (m m' : Machine) (es : list Effect) : Prop := {
  go_ok : machine_ok m';
  go_ledger : forall r, resolved r es + pend r m' = pend r m + extra r;
  go_limits : same_limits (m_config m) (m_config m');
  go_generation : m_generation m <= m_generation m';
  go_control_generation : m_control_generation m <= m_control_generation m'
}.

Definition good {A} (extra : Z -> Z) (x : SM A) (m : Machine) : Prop :=
  machine_ok m -> let '(_, m', es) := x m in goes extra m m' es.

Definition none : Z -> Z := fun _ => 0.
Definition only (r : Z) : Z -> Z := fun x => if r =? x then 1 else 0.

(** ** Composition *)

Lemma resolved_app r a b : resolved r (a ++ b) = resolved r a + resolved r b.
Proof. apply weight_app. Qed.

Lemma resolved_nil r : resolved r [] = 0.
Proof. done. Qed.

Lemma resolved_one r e : resolved r [e] = resolves r e.
Proof. unfold resolved. rewrite weight_cons. change (weight (resolves r) []) with 0. lia. Qed.

Lemma same_limits_trans a b c : same_limits a b -> same_limits b c -> same_limits a c.
Proof. intros (?&?&?&?&?&?) (?&?&?&?&?&?). unfold same_limits. split_and!; congruence. Qed.

Lemma goes_trans ex1 ex2 m m1 m2 e1 e2 :
  goes ex1 m m1 e1 -> goes ex2 m1 m2 e2 -> goes (fun r => ex1 r + ex2 r) m m2 (e1 ++ e2).
Proof.
  intros [O1 L1 C1 G1 K1] [O2 L2 C2 G2 K2]. split; [done| |by eapply same_limits_trans|lia|lia].
  intros r. rewrite resolved_app. specialize (L1 r). specialize (L2 r). lia.
Qed.

Lemma goes_ext ex1 ex2 m m' es : (forall r, ex1 r = ex2 r) -> goes ex1 m m' es -> goes ex2 m m' es.
Proof. intros E [O L C G K]. split; try done. intros r. by rewrite <- E. Qed.

Lemma good_bind {A B} ex (x : SM A) (k : A -> SM B) m :
  good none x m -> (forall a m1 e1, x m = (a, m1, e1) -> good ex (k a) m1) -> good ex (x ≫= k) m.
Proof.
  intros Hx Hk Hm. unfold mbind, SM_bind. specialize (Hx Hm).
  destruct (x m) as [[a m1] e1] eqn:E. specialize (Hk a m1 e1 eq_refl (go_ok _ _ _ _ Hx)).
  destruct (k a m1) as [[b m2] e2]. eapply goes_ext; [|by eapply goes_trans].
  intros r. unfold none. lia.
Qed.

(** The new request comes with the first of two operations. *)
Lemma good_bind_l {A B} ex (x : SM A) (k : A -> SM B) m :
  good ex x m -> (forall a m1 e1, x m = (a, m1, e1) -> good none (k a) m1) -> good ex (x ≫= k) m.
Proof.
  intros Hx Hk Hm. unfold mbind, SM_bind. specialize (Hx Hm).
  destruct (x m) as [[a m1] e1] eqn:E. specialize (Hk a m1 e1 eq_refl (go_ok _ _ _ _ Hx)).
  destruct (k a m1) as [[b m2] e2]. eapply goes_ext; [|by eapply goes_trans].
  intros r. unfold none. lia.
Qed.

Lemma good_gets {A B} ex (f : Machine -> A) (k : A -> SM B) m :
  good ex (k (f m)) m -> good ex (gets f ≫= k) m.
Proof.
  intros Hk Hm. specialize (Hk Hm). unfold mbind, SM_bind, gets.
  by destruct (k (f m) m) as [[b m2] e2].
Qed.

Lemma goes_refl m : machine_ok m -> goes none m m [].
Proof. intros H. split; try done. intros r. rewrite resolved_nil. unfold none. lia. Qed.

Lemma good_ret {A} (a : A) m : good none (mret a) m.
Proof. intros H. by apply goes_refl. Qed.

(** An effect that answers nobody. *)
Lemma good_emit e m : (forall r, resolves r e = 0) -> good none (emit e) m.
Proof.
  intros He Hm. split; try done. intros r. rewrite resolved_one, He. unfold none. lia.
Qed.

(** An assignment to a field the bookkeeping does not depend on. *)
Lemma good_modify f m :
  (machine_ok m -> machine_ok (f m)) -> m_pending (f m) = m_pending m ->
  same_limits (m_config m) (m_config (f m)) -> m_generation m <= m_generation (f m) ->
  m_control_generation m <= m_control_generation (f m) -> good none (modify f) m.
Proof.
  intros Hok Hp Hl Hg Hk Hm. split; try done; [by apply Hok|].
  intros r. unfold pend. rewrite Hp, resolved_nil. unfold none. lia.
Qed.

Lemma same_limits_refl a : same_limits a a.
Proof. by split_and!. Qed.

Create HintDb session.

(** Runs through the code of an operation: assignments to independent fields
    and effects that answer nobody are closed, operations with a lemma in the
    database are used, conditionals are split. *)
Ltac plain_modify :=
  apply good_modify;
    [ intros [? ? ? ? ? ? ? ? ? ? ? ? ? ? ? ? ? ?]; constructor; done
    | done | by apply same_limits_refl | apply Z.le_refl | apply Z.le_refl ].

Ltac good_step :=
  lazymatch goal with
  | |- good _ (mret _) _ => apply good_ret
  | |- good none (emit _) _ => apply good_emit; done
  | |- good _ (event _) _ => apply good_emit; done
  | |- good _ (gets _ ≫= _) _ => apply good_gets; cbv beta zeta
  | |- good _ (_ ≫= _) _ => apply good_bind; [|intros ? ? ? ?]
  | |- good _ (if ?b then _ else _) _ => destruct b eqn:?
  | |- good _ (match ?x with _ => _ end) _ => destruct x eqn:?
  | |- good _ (modify _) _ => first [solve [auto with session nocore] | plain_modify]
  | |- good _ _ _ => solve [auto with session nocore]
  end.

Ltac good_run := repeat good_step.

(** ** Removing a request *)

Lemma weight_Permutation {A} (w : A -> Z) l k : l ≡ₚ k -> weight w l = weight w k.
Proof. induction 1; rewrite ?weight_cons in *; lia. Qed.

Lemma find_pending_at r l i p :
  list_find (fun p => p_request_id p = r) l = Some (i, p) -> l !! i = Some p /\ p_request_id p = r.
Proof. intros H. apply list_find_Some in H as (H1 & H2 & _). done. Qed.

Lemma data_control p : data_bytes p + ctl_bytes p = p_bytes p.
Proof. unfold data_bytes, ctl_bytes. destruct (is_control p); lia. Qed.

(** The weights of requests are not negative. *)
Lemma weights_nonneg p next : pending_ok next p ->
  0 <= data_one p /\ 0 <= control_one p /\ 0 <= data_bytes p /\ 0 <= ctl_bytes p /\ 0 <= flying p.
Proof.
  intros [Hb _ _ _]. unfold data_one, control_one, data_bytes, ctl_bytes, flying.
  destruct (is_control p), (decide _); lia.
Qed.

Section Removal.
  Context (m : Machine) (i : nat) (p : Pending).
  Context (Hm : machine_ok m) (Hi : m_pending m !! i = Some p).

Let rest := delete i (m_pending m).

Lemma removal_Permutation : m_pending m ≡ₚ p :: rest.
Proof. by apply delete_Permutation. Qed.

Lemma removal_requests : NoDup (map p_request_id rest) /\ p_request_id p ∉ map p_request_id rest.
Proof.
  pose proof (mo_requests _ Hm) as H. rewrite removal_Permutation in H.
  cbn [map] in H. apply NoDup_cons in H. tauto.
Qed.

Lemma removal_transactions t r :
  delete (p_transaction p) (m_by_transaction m) !! t = Some r
  <-> exists q, q ∈ rest /\ p_transaction q = t /\ p_request_id q = r.
Proof.
  destruct removal_requests as [_ Hp]. rewrite lookup_delete_Some.
  pose proof (mo_transactions _ Hm) as Ht. split.
  - intros [Hne H]. apply Ht in H as (q & Hq & E1 & E2). exists q. split_and!; try done.
    rewrite removal_Permutation in Hq. apply elem_of_cons in Hq as [->|Hq]; [congruence|done].
  - intros (q & Hq & <- & <-). split.
    + intros E. apply Hp. assert (m_by_transaction m !! p_transaction p = Some (p_request_id p)) as H1.
      { apply Ht. exists p. split_and!; try done. rewrite removal_Permutation. left. }
      assert (m_by_transaction m !! p_transaction q = Some (p_request_id q)) as H2.
      { apply Ht. exists q. split_and!; try done. rewrite removal_Permutation. by right. }
      rewrite <- E in H2. assert (p_request_id p = p_request_id q) as -> by congruence.
      by apply list_elem_of_fmap_2.
    + apply Ht. exists q. split_and!; try done. rewrite removal_Permutation. by right.
Qed.

Lemma removal_weight w : weight w rest = weight w (m_pending m) - w p.
Proof. by apply weight_delete. Qed.

Lemma removal_pending : pending_ok (m_next_outbound m) p /\ Forall (pending_ok (m_next_outbound m)) rest.
Proof.
  pose proof (mo_pending _ Hm) as H. rewrite removal_Permutation in H. by apply Forall_cons.
Qed.

Lemma removal_sequences : NoDup (filter (fun s => s <> 0) (map p_sequence rest)).
Proof.
  pose proof (mo_sequences _ Hm) as H. rewrite removal_Permutation in H. cbn [map] in H.
  rewrite filter_cons in H. destruct (decide _); [|done]. by apply NoDup_cons in H as [_ H].
Qed.

Lemma removal_replay : forall r, r ∈ filter (fun c => c <> p_request_id p) (m_replay m) ->
  exists q, q ∈ rest /\ p_request_id q = r /\ p_sequence q <> 0.
Proof.
  intros r Hr. apply list_elem_of_filter in Hr as [Hne Hr].
  apply (mo_replay _ Hm) in Hr as (q & Hq & <- & Hs). exists q. split_and!; try done.
  rewrite removal_Permutation in Hq. apply elem_of_cons in Hq as [->|Hq]; done.
Qed.
End Removal.

Lemma removed_ok r m : machine_ok m -> machine_ok (removed r m).
Proof.
  intros Hm. unfold removed. destruct (list_find _ _) as [[i p]|] eqn:Hf; [|done].
  apply find_pending_at in Hf as [Hi <-].
  pose proof (removal_requests _ _ _ Hm Hi) as [Hr _].
  pose proof (removal_transactions _ _ _ Hm Hi) as Ht.
  pose proof (removal_pending _ _ _ Hm Hi) as [Hp Hps]. apply weights_nonneg in Hp as Hw.
  pose proof (removal_sequences _ _ _ Hm Hi) as Hs.
  pose proof (removal_replay _ _ _ Hm Hi) as Hre.
  pose proof (fun w => removal_weight m i p Hi w) as W.
  destruct Hm as [_ _ M3 M4 M5 M6 M7 M8 M9 _ M11 _ [M13 _] M14 M15 M16 M17 M18].
  assert (forall x, x = [] -> m_pending m = x -> False) as Hne.
  { intros x -> E. by rewrite E in Hi. }
  assert (M16' : is_Some (m_terminal_error m) -> delete i (m_pending m) = []).
  { intros H. exfalso. eapply Hne; [done|]. by apply M16. }
  assert (M17' : m_state m = Stopped -> delete i (m_pending m) = []).
  { intros H. exfalso. eapply Hne; [done|]. by apply M17. }
  pose proof (W data_one). pose proof (W control_one). pose proof (W data_bytes).
  pose proof (W ctl_bytes). pose proof (W flying).
  assert (NoDup (filter (fun c => c <> p_request_id p) (m_replay m))) by (by apply NoDup_filter).
  assert (E1 : data_one p = if is_control p then 0 else 1) by done.
  assert (E2 : control_one p = if is_control p then 1 else 0) by done.
  assert (E3 : data_bytes p = if is_control p then 0 else p_bytes p) by done.
  assert (E4 : ctl_bytes p = if is_control p then p_bytes p else 0) by done.
  destruct (is_control p) eqn:Hc; constructor; cbn; try done; try lia.
Qed.

Lemma pend_removed r x m :
  r ∈ map p_request_id (m_pending m) -> pend x (removed r m) = pend x m - only r x.
Proof.
  intros Hr. apply list_elem_of_fmap in Hr as (q & -> & Hq). unfold removed, pend.
  destruct (list_find _ _) as [[i p]|] eqn:Hf.
  - apply find_pending_at in Hf as [Hi Hid].
    assert (is_request x p = only (p_request_id q) x) as E
      by (unfold is_request, only; by rewrite Hid).
    destruct (is_control p); cbn; rewrite (weight_delete _ _ _ _ Hi), E; done.
  - exfalso. apply list_find_None in Hf. rewrite Forall_forall in Hf. by apply (Hf q).
Qed.

Lemma removed_fields r m :
  m_config (removed r m) = m_config m /\ m_generation (removed r m) = m_generation m
  /\ m_control_generation (removed r m) = m_control_generation m.
Proof.
  unfold removed. destruct (list_find _ _) as [[i p]|]; [|done]. by destruct (is_control p).
Qed.

Lemma removed_pending r m : machine_ok m ->
  forall x, x ∈ map p_request_id (m_pending m) -> x <> r -> x ∈ map p_request_id (m_pending (removed r m)).
Proof.
  intros Hm x Hx Hne. unfold removed. destruct (list_find _ _) as [[i p]|] eqn:Hf; [|done].
  apply find_pending_at in Hf as [Hi Hid].
  pose proof (removal_Permutation m i p Hi) as HP. rewrite HP in Hx. cbn [map] in Hx.
  apply elem_of_cons in Hx as [->|Hx]; [done|]. by destruct (is_control p).
Qed.

(** Removing a pending request and telling its caller. *)
Lemma goes_answer r e m :
  machine_ok m -> r ∈ map p_request_id (m_pending m) -> (forall x, resolves x e = only r x) ->
  goes none m (removed r m) [e].
Proof.
  intros Hm Hr He. destruct (removed_fields r m) as (E1 & E2 & E3).
  split; [by apply removed_ok| |rewrite E1; apply same_limits_refl|lia|lia].
  intros x. rewrite resolved_one, He, pend_removed by done. unfold none. lia.
Qed.

Lemma good_answer r e m :
  r ∈ map p_request_id (m_pending m) -> (forall x, resolves x e = only r x) ->
  good none (_ ← remove_pending r; emit e) m.
Proof. intros Hr He Hm. by apply goes_answer. Qed.

Lemma good_fail_requests l : forall m,
  NoDup (map fst l) -> Forall (fun x => x.1 ∈ map p_request_id (m_pending m)) l ->
  good none (fail_requests l) m.
Proof.
  induction l as [|[r e] l IH]; intros m Hnd Hl Hm; [by apply goes_refl|].
  cbn [map fst] in Hnd. apply NoDup_cons in Hnd as [Hr Hnd]. apply Forall_cons in Hl as [Hin Hl].
  cbn [fail_requests]. unfold mbind, SM_bind, remove_pending, modify, emit.
  assert (good none (fail_requests l) (removed r m)) as Hrec.
  { apply IH; [done|]. rewrite Forall_forall in *. intros x Hx. apply removed_pending; [done|by apply Hl|].
    intros E. apply Hr. rewrite <- E. by apply list_elem_of_fmap_2. }
  specialize (Hrec (removed_ok _ _ Hm)). destruct (fail_requests l (removed r m)) as [[u m2] e2].
  cbn [app]. change (F_Failed r e :: e2) with ([F_Failed r e] ++ e2).
  eapply goes_ext; [|eapply goes_trans; [by apply (goes_answer r (F_Failed r e))|done]].
  intros x. unfold none. lia.
Qed.

Lemma NoDup_map_filter {A B} (f : A -> B) (P : A -> Prop) `{!∀ x, Decision (P x)} l :
  NoDup (map f l) -> NoDup (map f (filter P l)).
Proof.
  induction l as [|a l IH]; [done|]. cbn [map]. intros Hn. apply NoDup_cons in Hn as [Ha Hn].
  rewrite filter_cons. destruct (decide (P a)); [|by apply IH]. cbn [map].
  apply NoDup_cons. split; [|by apply IH]. intros Hin. apply Ha.
  apply list_elem_of_fmap in Hin as (b & -> & Hb). apply list_elem_of_filter in Hb as [_ Hb].
  by apply list_elem_of_fmap_2.
Qed.

(** Requests picked from the pending ones. *)
Lemma picked_requests (f : Pending -> SessionError) (P : Pending -> Prop) `{!∀ x, Decision (P x)} m :
  machine_ok m ->
  let l := map (fun p => (p_request_id p, f p)) (filter P (m_pending m)) in
  NoDup (map fst l) /\ Forall (fun x => x.1 ∈ map p_request_id (m_pending m)) l.
Proof.
  intros Hm. cbv zeta. rewrite map_map. cbn [fst]. split.
  - apply NoDup_map_filter, Hm.
  - apply Forall_map. rewrite Forall_forall. intros p Hp. apply list_elem_of_filter in Hp as [_ Hp].
    exact (list_elem_of_fmap_2 p_request_id _ _ Hp).
Qed.

(** ** Clearing and failing *)

Lemma weight_failed r (f : Pending -> SessionError) l :
  resolved r (map (fun p => F_Failed (p_request_id p) (f p)) l) = weight (is_request r) l.
Proof.
  induction l as [|p l IH]; [done|]. unfold resolved in *. cbn [map]. by rewrite !weight_cons, IH.
Qed.

Lemma cleared_ok m : machine_ok m -> machine_ok (cleared m).
Proof.
  intros [_ _ M3 M4 M5 M6 M7 M8 M9 M10 M11 _ _ M14 M15 _ _ M18].
  assert (forall w, weight w (@nil Pending) = 0) as W by done.
  assert (0 <= max_retained_bytes (m_config m) /\ 0 <= max_queued_messages (m_config m)
    /\ 0 <= max_in_flight_transactions (m_config m)) as (? & ? & ?).
  { assert (Forall (fun p => 0 <= data_one p /\ 0 <= data_bytes p /\ 0 <= flying p) (m_pending m)) as F.
    { eapply Forall_impl; [exact M10|]. intros p Hp. apply weights_nonneg in Hp. tauto. }
    apply Forall_and in F as [F1 F]. apply Forall_and in F as [F2 F3].
    apply weight_nonneg in F1, F2, F3. rewrite M3 in M7. lia. }
  constructor; cbn; rewrite ?W; try done; try lia.
  - constructor.
  - intros t r. split; [done|]. intros (p & Hp & _). set_solver.
  - constructor.
  - split; [constructor|]. set_solver.
Qed.

Lemma good_fail_all e m : good none (fail_all e) m.
Proof.
  intros Hm. unfold fail_all, mbind, SM_bind, gets, emits, modify, id. cbn [app]. rewrite app_nil_r.
  split; [by apply cleared_ok| |apply same_limits_refl|done|done].
  intros r. rewrite weight_failed. unfold pend, none. change (m_pending (cleared m)) with (@nil Pending).
  change (weight (is_request r) []) with 0. lia.
Qed.
#[export] Hint Resolve good_fail_all : session.

Lemma good_set_state s m : s <> Stopped -> good none (set_state s) m.
Proof.
  intros Hs. unfold set_state. good_run.
Qed.
#[export] Hint Extern 1 (good none (set_state _) _) => (apply good_set_state; discriminate) : session.

(** A machine whose session has failed for good, before its state changes. *)
Definition doomed (e : SessionError) (m : Machine) : Machine :=
  cleared (with_connect_pending false (with_controls [] (with_write_busy false
    (with_terminal_error (Some e) m)))).

Definition doom_effects (e : SessionError) (m : Machine) : list Effect :=
  [F_Terminal e; F_Event (E_TransportFault e); F_CloseTransport (m_generation m)]
  ++ map (fun p => F_Failed (p_request_id p) (fail_all_error e p)) (m_pending m).

Lemma fail_terminal_eq e m :
  m_terminal_error m = None ->
  fail_terminal e m
  = let '(_, m', es) := set_state Disconnected (doomed e m) in (tt, m', doom_effects e m ++ es).
Proof.
  intros Ht. unfold fail_terminal, fail_all, mbind, SM_bind, gets, emit, emits, event, modify, id.
  rewrite Ht. rewrite bool_decide_false by (by intros [? ?]). unfold doomed, doom_effects, emit.
  cbn [app]. destruct (set_state Disconnected _) as [[[] m'] es]. cbn. by rewrite app_nil_r.
Qed.

Lemma doomed_goes e m : machine_ok m -> goes none m (doomed e m) (doom_effects e m).
Proof.
  intros Hm. split; [|intros r|apply same_limits_refl|done|done].
  - destruct (cleared_ok _ Hm) as [? ? ? ? ? ? ? ? ? ? ? ? ? ? ? ? ? ?].
    by constructor.
  - unfold doom_effects. rewrite resolved_app, weight_failed. unfold pend, none.
    change (m_pending (doomed e m)) with (@nil Pending). change (weight (is_request r) []) with 0.
    change (resolved r [_; _; _]) with 0. lia.
Qed.

Lemma good_fail_terminal e m : good none (fail_terminal e) m.
Proof.
  intros Hm. destruct (m_terminal_error m) as [x|] eqn:Ht.
  - unfold fail_terminal, mbind, SM_bind, gets, id. rewrite Ht.
    rewrite bool_decide_true by done. by apply goes_refl.
  - rewrite fail_terminal_eq by done. pose proof (doomed_goes e m Hm) as Hd.
    pose proof (good_set_state Disconnected (doomed e m) ltac:(done) (go_ok _ _ _ _ Hd)) as Hs.
    destruct (set_state Disconnected _) as [[u m'] es].
    exact (goes_ext _ _ _ _ _ (fun r => eq_refl) (goes_trans _ _ _ _ _ _ _ Hd Hs)).
Qed.
#[export] Hint Resolve good_fail_terminal : session.

Lemma checked_add_inv w a b c : checked_add w a b = Some c -> c = a + b /\ c < 2 ^ w.
Proof.
  unfold checked_add. destruct (Z.ltb_spec (a + b) (2 ^ w)); [|done]. intros E. by simplify_eq.
Qed.

Lemma good_generation g m :
  m_generation m <= g < 2 ^ 64 -> good none (modify (with_generation g)) m.
Proof.
  intros Hg. apply good_modify; [|done|apply same_limits_refl|cbn; lia|done].
  intros [? ? ? ? ? ? ? ? ? ? ? ? ? ? ? ? ? [[? ?] ?]]. constructor; try done.
  split; [|done]. unfold in_u. cbn. lia.
Qed.

Lemma good_control_generation g m :
  m_control_generation m <= g < 2 ^ 64 -> good none (modify (with_control_generation g)) m.
Proof.
  intros Hg. apply good_modify; [|done|apply same_limits_refl|done|cbn; lia].
  intros [? ? ? ? ? ? ? ? ? ? ? ? ? ? ? ? ? [? [? ?]]]. constructor; try done.
  split; [done|]. unfold in_u. cbn. lia.
Qed.

Lemma good_invalidate_controls m : good none invalidate_controls m.
Proof.
  unfold invalidate_controls. apply good_gets. cbv beta. unfold id.
  destruct (checked_add 64 _ 1) as [g|] eqn:Hg; [|good_run].
  apply checked_add_inv in Hg as [-> Hlt]. apply good_bind; [apply good_control_generation; lia|].
  intros [] m1 e1 E. injection E as <- _. apply good_bind; [|intros; apply good_ret].
  intros Hm1. destruct (picked_requests
    (fun p => if p_may_have_executed p then SE_OutcomeUnknown else SE_Disconnected)
    (fun p => is_Some (p_control p)) _ Hm1) as [Hn Hl]. by apply good_fail_requests.
Qed.
#[export] Hint Resolve good_invalidate_controls : session.

Lemma good_clear_replay m : good none (modify (with_replay [])) m.
Proof.
  apply good_modify; [|done|apply same_limits_refl|done|done].
  intros [? ? ? ? ? ? ? ? ? ? ? ? [? ?] ? ? ? ? ?]. constructor; try done.
  split; [constructor|]. cbn. set_solver.
Qed.

Lemma good_fail_sent_unknown m : good none fail_sent_unknown m.
Proof.
  unfold fail_sent_unknown. apply good_gets. cbv beta. unfold id.
  apply good_bind; [|intros; apply good_clear_replay].
  intros Hm. destruct (picked_requests (fun _ => SE_OutcomeUnknown) (fun p => p_sent p = true) _ Hm)
    as [Hn Hl]. by apply good_fail_requests.
Qed.
#[export] Hint Resolve good_fail_sent_unknown : session.

(** ** Renumbering *)

Lemma renumbered_ok m :
  machine_ok m -> machine_ok (cleared (with_next_transaction_id (Some 1) (with_next_outbound (Some 1) m))).
Proof.
  intros Hm. destruct (cleared_ok _ Hm) as [? ? ? ? ? ? ? ? ? ? ? ? ? ? ? ? ? ?].
  constructor; try done. intros n E. cbn in E. simplify_eq. done.
Qed.

Lemma goes_renumber e m :
  machine_ok m ->
  goes none m (cleared (with_next_transaction_id (Some 1) (with_next_outbound (Some 1) m)))
    (map (fun p => F_Failed (p_request_id p) (fail_all_error e p)) (m_pending m)).
Proof.
  intros Hm. split; [by apply renumbered_ok| |apply same_limits_refl|done|done].
  intros r. rewrite weight_failed. unfold pend, none. cbn [cleared m_pending with_control_bytes
    with_control_messages with_retained_bytes with_by_transaction with_replay with_pending].
  change (weight (is_request r) []) with 0. lia.
Qed.

Lemma good_renumber {A} e (k : SM A) m :
  (forall m', good none k m') ->
  good none (_ ← modify (with_next_outbound (Some 1)); _ ← modify (with_next_transaction_id (Some 1));
             _ ← fail_all e; k) m.
Proof.
  intros Hk Hm. unfold fail_all, mbind, SM_bind, gets, emits, modify, id. cbn [app].
  pose proof (goes_renumber e m Hm) as H1. specialize (Hk _ (go_ok _ _ _ _ H1)).
  destruct (k _) as [[b m2] e2]. rewrite app_nil_r.
  exact (goes_ext _ _ _ _ _ (fun r => eq_refl) (goes_trans _ _ _ _ _ _ _ H1 Hk)).
Qed.

Lemma good_reset_for_new_identity m : good none reset_for_new_identity m.
Proof.
  unfold reset_for_new_identity. do 4 (apply good_bind; [plain_modify|intros [] ? ? _]).
  intros Hm. unfold fail_all, mbind, SM_bind, gets, emits, modify, id. cbn [app].
  rewrite app_nil_r. exact (goes_renumber SE_Disconnected _ Hm).
Qed.
#[export] Hint Resolve good_reset_for_new_identity : session.

(** ** Replay *)

Definition same_but_sent (p q : Pending) : Prop := q = p \/ q = mark_unsent p.

Lemma unsend_same l r : Forall2 same_but_sent l (unsend l r).
Proof.
  assert (forall l, Forall2 same_but_sent l l) as Hrefl.
  { intros k. induction k; constructor; [by left|done]. }
  unfold unsend. destruct (list_find _ l) as [[i p]|]; [|apply Hrefl]. clear p.
  revert i. induction l as [|q l IH]; intros [|i]; try constructor; try (by left); try (by right).
  - apply Hrefl.
  - apply IH.
Qed.

Lemma same_but_sent_trans l k h :
  Forall2 same_but_sent l k -> Forall2 same_but_sent k h -> Forall2 same_but_sent l h.
Proof.
  intros H. revert h. induction H as [|p q l k Hpq _ IH]; intros h Hh; inversion Hh; subst; [done|].
  constructor; [|by apply IH]. destruct Hpq as [->| ->]; [done|].
  match goal with H : same_but_sent _ _ |- _ => destruct H as [->| ->] end; by right.
Qed.

Lemma prepared_same rs : forall l, Forall2 same_but_sent l (fold_left unsend rs l).
Proof.
  induction rs as [|r rs IH]; intros l; cbn [fold_left].
  - induction l; constructor; [by left|done].
  - eapply same_but_sent_trans; [apply unsend_same|apply IH].
Qed.

Lemma same_map {B} (f : Pending -> B) l k :
  (forall p, f (mark_unsent p) = f p) -> Forall2 same_but_sent l k -> map f k = map f l.
Proof.
  intros Hf. induction 1 as [|p q l k Hpq _ IH]; [done|]. cbn [map]. rewrite IH. f_equal.
  destruct Hpq as [->| ->]; [done|apply Hf].
Qed.

Lemma same_weight (w : Pending -> Z) l k :
  (forall p, w (mark_unsent p) = w p) -> Forall2 same_but_sent l k -> weight w k = weight w l.
Proof.
  intros Hw. induction 1 as [|p q l k Hpq _ IH]; [done|]. rewrite !weight_cons, IH. f_equal.
  destruct Hpq as [->| ->]; [done|apply Hw].
Qed.

Lemma same_elem l k (P : Pending -> Prop) :
  (forall p, P (mark_unsent p) <-> P p) -> Forall2 same_but_sent l k ->
  (exists p, p ∈ k /\ P p) <-> (exists p, p ∈ l /\ P p).
Proof.
  intros HP. induction 1 as [|p q l k Hpq _ IH]; [done|].
  assert (P q <-> P p) as E by (destruct Hpq as [->| ->]; [done|apply HP]).
  split; intros (x & Hx & Hp); apply elem_of_cons in Hx as [->|Hx].
  - exists p. split; [left|by apply E].
  - destruct (proj1 IH) as (y & Hy & Hp'); [by exists x|]. exists y. split; [by right|done].
  - exists q. split; [left|by apply E].
  - destruct (proj2 IH) as (y & Hy & Hp'); [by exists x|]. exists y. split; [by right|done].
Qed.

Lemma unsent_flying l k : Forall2 same_but_sent l k -> weight flying k <= weight flying l.
Proof.
  induction 1 as [|p q l k Hpq _ IH]; [done|]. rewrite !weight_cons.
  destruct Hpq as [->| ->]; [lia|]. unfold flying at 1 3. cbn.
  destruct (decide (false = true /\ _)) as [[? _]|_]; [done|]. destruct (decide _); lia.
Qed.

Lemma unsent_ok m l :
  Forall2 same_but_sent (m_pending m) l -> machine_ok m -> machine_ok (with_pending l m).
Proof.
  intros Hl [? Ht ? ? ? ? ? ? ? Hp ? ? [? Hr] ? ? Hte Hst ?].
  assert (m_pending m = [] -> l = []) as Hnil.
  { intros E. rewrite E in Hl. by inversion Hl. }
  pose proof (unsent_flying _ _ Hl).
  constructor; cbn; rewrite ?(same_map p_request_id _ l), ?(same_map p_sequence _ l),
    ?(same_weight data_one _ l), ?(same_weight control_one _ l), ?(same_weight data_bytes _ l),
    ?(same_weight ctl_bytes _ l) by done; try done; try lia.
  - intros t r. rewrite Ht. symmetry. by apply (same_elem _ _ (fun p => p_transaction p = t /\ p_request_id p = r)).
  - apply Forall_forall. intros q Hq. rewrite Forall_forall in Hp.
    apply list_elem_of_lookup in Hq as [i Hi]. destruct (Forall2_lookup_r _ _ _ _ _ Hl Hi) as (p & Hpi & [->| ->]).
    + apply Hp. by eapply list_elem_of_lookup_2.
    + destruct (Hp p) as [? ? ? ?]; [by eapply list_elem_of_lookup_2|]. by constructor.
  - split; [done|]. intros r Hin. apply Hr in Hin.
    by apply (same_elem _ _ (fun p => p_request_id p = r /\ p_sequence p <> 0) (fun p => iff_refl _) Hl).
  - intros H'. by apply Hnil, Hte.
  - intros H'. by apply Hnil, Hst.
Qed.

Lemma good_prepare_replay m : good none prepare_replay m.
Proof.
  intros Hm. pose proof (prepared_same (m_replay m) (m_pending m)) as Hs.
  split; [by apply unsent_ok| |apply same_limits_refl|done|done].
  intros r. unfold pend. cbn. rewrite (same_weight (is_request r) _ _ (fun p => eq_refl) Hs).
  unfold none. change (resolved r []) with 0. lia.
Qed.
#[export] Hint Resolve good_prepare_replay : session.

Lemma good_trim_replay s m : good none (trim_replay s) m.
Proof.
  apply good_modify; [|done|apply same_limits_refl|done|done].
  intros [? ? ? ? ? ? ? ? ? ? ? ? [? Hr] ? ? ? ? ?]. constructor; try done.
  split; [by apply NoDup_filter|]. intros r Hin. apply list_elem_of_filter in Hin as [_ Hin].
  by apply Hr.
Qed.
#[export] Hint Resolve good_trim_replay : session.

(** ** Faults *)

Lemma good_begin_reconnect m : good none begin_reconnect m.
Proof.
  unfold begin_reconnect. good_step. good_step; [good_run|].
  do 2 (apply good_bind; [plain_modify|intros [] ? ? E; injection E as <- _]).
  destruct (checked_add 64 _ 1) as [g|] eqn:Hg; [|good_run].
  apply checked_add_inv in Hg as [-> Hlt].
  apply good_bind; [apply good_generation; cbn; unfold id in *; lia|intros; good_run].
Qed.
#[export] Hint Resolve good_begin_reconnect : session.

Lemma good_fault_pending m : good none fault_pending m.
Proof. unfold fault_pending. good_run. Qed.
#[export] Hint Resolve good_fault_pending : session.

Lemma good_clear_controls m : good none (modify (with_controls [])) m.
Proof.
  apply good_modify; [|done|apply same_limits_refl|done|done].
  intros [? ? ? ? ? ? ? ? ? ? ? ? ? Hc ? ? ? ?]. constructor; try done. cbn.
  pose proof (zlen_nonneg (m_controls m)). change (zlen (@nil Control)) with 0. lia.
Qed.
#[export] Hint Resolve good_clear_controls : session.

Lemma good_fault e m : good none (fault e) m.
Proof. unfold fault. good_run. Qed.
#[export] Hint Resolve good_fault : session.

(** ** Guards and the control queue *)

Lemma good_require_ready m : good none require_ready m.
Proof. unfold require_ready. good_run. Qed.

Lemma good_transition_allowed s m : good none (transition_allowed s) m.
Proof. unfold transition_allowed. good_run. Qed.

Lemma good_accept_acknowledgment s m : good none (accept_acknowledgment s) m.
Proof. unfold accept_acknowledgment. good_run. Qed.

Lemma good_queue_control c m : good none (queue_control c) m.
Proof.
  unfold queue_control. good_step. unfold id. destruct (Z.leb_spec (max_queued_messages (m_config m)) (zlen (m_controls m))).
  - good_run.
  - apply good_modify; [|done|apply same_limits_refl|done|done].
    intros [? ? ? ? ? ? ? ? ? ? ? ? ? Hc ? ? ? ?]. constructor; try done. cbn.
    rewrite zlen_app, zlen_cons. change (zlen (@nil Control)) with 0. lia.
Qed.
#[export] Hint Resolve good_require_ready good_transition_allowed good_accept_acknowledgment
  good_queue_control : session.

Lemma good_queue_client_ident m : good none queue_client_ident m.
Proof. unfold queue_client_ident. good_run. Qed.

Lemma good_queue_reconnect m : good none queue_reconnect m.
Proof. unfold queue_reconnect. good_run. Qed.

Lemma good_refresh_cookie m : good none refresh_cookie m.
Proof. unfold refresh_cookie. good_run. Qed.

Lemma good_start_transport s m : s <> Stopped -> good none (start_transport s) m.
Proof.
  intros Hs. unfold start_transport. good_step. unfold id.
  destruct (checked_add 64 _ 1) as [g|] eqn:Hg; [|good_run].
  apply checked_add_inv in Hg as [-> Hlt].
  apply good_bind; [apply good_generation; lia|intros].
  apply good_bind; [by apply good_set_state|intros; apply good_ret].
Qed.
#[export] Hint Resolve good_queue_client_ident good_queue_reconnect good_refresh_cookie : session.
#[export] Hint Extern 1 (good none (start_transport _) _) => (apply good_start_transport; discriminate) : session.

(** ** Which request is sent *)

Definition key_le (a b : Z * Z) : Prop := key_lt b a = false.

(** [best] is the first of the eligible requests of least key among [l]. *)
Definition least (el : Pending -> bool) (l : list Pending) (best : option (nat * (Z * Z))) : Prop :=
  match best with
  | None => forall j p, l !! j = Some p -> el p = false
  | Some (i, k) =>
      exists p, l !! i = Some p /\ el p = true /\ k = dispatch_key p
      /\ forall j q, l !! j = Some q -> el q = true ->
           key_le k (dispatch_key q) /\ ((j < i)%nat -> key_lt k (dispatch_key q) = true)
  end.

Lemma key_le_total a b : key_lt a b = true -> key_le a b.
Proof. unfold key_le, key_lt. destruct a, b. cbn. lia. Qed.

Lemma key_lt_le_trans a b c : key_lt a b = true -> key_le b c -> key_lt a c = true.
Proof. unfold key_le, key_lt. destruct a, b, c. cbn. lia. Qed.

Lemma key_le_refl a : key_le a a.
Proof. unfold key_le, key_lt. destruct a. cbn. lia. Qed.

Lemma least_snoc el l p best :
  least el l best ->
  least el (l ++ [p])
    (if el p then
       match best with
       | Some (_, k) =>
           if key_lt (dispatch_key p) k then Some (length l, dispatch_key p) else best
       | None => Some (length l, dispatch_key p)
       end
     else best).
Proof.
  intros Hl.
  assert (Hat : (l ++ [p]) !! length l = Some p) by (by apply list_lookup_middle).
  assert (Hin : forall j q, (l ++ [p]) !! j = Some q -> l !! j = Some q \/ (j = length l /\ q = p)).
  { intros j q Hj. apply lookup_app_Some in Hj as [Hj|[Hge Hj]]; [by left|]. right.
    destruct (j - length l)%nat as [|x] eqn:E; cbn in Hj; [|done]. simplify_eq. split; [lia|done]. }
  destruct best as [[i k]|]; cbn in Hl.
  - destruct Hl as (b & Hb & Heb & -> & Hmin). assert (i < length l)%nat by (by eapply lookup_lt_Some).
    assert (Hb' : (l ++ [p]) !! i = Some b) by (by apply lookup_app_l_Some).
    destruct (el p) eqn:Ep; [destruct (key_lt (dispatch_key p) (dispatch_key b)) eqn:Ek|].
    + exists p. split_and!; try done. intros j q Hj Eq. destruct (Hin _ _ Hj) as [Hj'|[-> ->]].
      * destruct (Hmin _ _ Hj' Eq) as [H1 H2].
        split; [apply key_le_total|intros _]; by eapply key_lt_le_trans.
      * split; [apply key_le_refl|lia].
    + exists b. split_and!; try done. intros j q Hj Eq. destruct (Hin _ _ Hj) as [Hj'|[-> ->]]; [by apply (Hmin j)|].
      split; [done|lia].
    + exists b. split_and!; try done. intros j q Hj Eq. destruct (Hin _ _ Hj) as [Hj'|[-> ->]]; [by apply (Hmin j)|congruence].
  - destruct (el p) eqn:Ep.
    + exists p. split_and!; try done. intros j q Hj Eq. destruct (Hin _ _ Hj) as [Hj'|[-> ->]].
      * apply Hl in Hj'. congruence.
      * split; [apply key_le_refl|lia].
    + intros j q Hj. destruct (Hin _ _ Hj) as [Hj'|[-> ->]]; [by eapply Hl|done].
Qed.

Lemma select_least el l : forall l0 best,
  least el l0 best ->
  match select el l (length l0) best with
  | None => least el (l0 ++ l) None
  | Some i => exists k, least el (l0 ++ l) (Some (i, k))
  end.
Proof.
  induction l as [|p l IH]; intros l0 best Hb; cbn [select].
  - rewrite app_nil_r. destruct best as [[i k]|]; cbn [fmap option_fmap option_map fst]; [by exists k|done].
  - specialize (IH (l0 ++ [p]) _ (least_snoc _ _ p _ Hb)).
    rewrite length_app, <- app_assoc in IH. cbn [length app] in IH.
    rewrite Nat.add_1_r in IH. exact IH.
Qed.

Lemma select_spec el l :
  match select el l 0 None with
  | None => least el l None
  | Some i => exists k, least el l (Some (i, k))
  end.
Proof. apply (select_least el l [] None). intros j p Hj. done. Qed.

(** ** Sending *)

Lemma in_flight_weight m : in_flight_count m = weight flying (m_pending m).
Proof. unfold in_flight_count. by rewrite weight_filter. Qed.

Lemma insert_Permutation {A} (l : list A) i p q :
  l !! i = Some p -> <[i := q]> l ≡ₚ q :: delete i l.
Proof.
  revert i. induction l as [|x l IH]; intros [|i] H; simplify_eq/=; [done|].
  rewrite (IH _ H). constructor.
Qed.

Section Sending.
  Context (m : Machine) (i : nat) (p q : Pending).
  Context (Hm : machine_ok m) (Hi : m_pending m !! i = Some p).
  Context (Hid : p_request_id q = p_request_id p) (Ht : p_transaction q = p_transaction p).

Let l' := <[i := q]> (m_pending m).

Lemma sending_Permutation : l' ≡ₚ q :: delete i (m_pending m).
Proof.
  by eapply insert_Permutation.
Qed.

Lemma sending_ids : map p_request_id l' = map p_request_id (m_pending m).
Proof.
  unfold l'. change (map p_request_id) with (fmap (M := list) p_request_id).
  rewrite list_fmap_insert, Hid. apply list_insert_id. by rewrite list_lookup_fmap, Hi.
Qed.

Lemma sending_weight w : weight w l' = weight w (m_pending m) - w p + w q.
Proof. by apply weight_insert. Qed.

(** Replacing a request by one that agrees with it on [P]. *)
Lemma sending_elem (P : Pending -> Prop) :
  (P p <-> P q) -> (exists x, x ∈ l' /\ P x) <-> (exists x, x ∈ m_pending m /\ P x).
Proof.
  intros HP. split; intros (x & Hx & Px).
  - rewrite sending_Permutation in Hx. apply elem_of_cons in Hx as [->|Hx];
      [exists p|exists x]; (split; [rewrite (removal_Permutation m i p Hi)|by try apply HP]);
      [left|by right].
  - rewrite (removal_Permutation m i p Hi) in Hx. apply elem_of_cons in Hx as [->|Hx];
      [exists q|exists x]; (split; [rewrite sending_Permutation|by try apply HP]); [left|by right].
Qed.

Lemma sending_transactions t r :
  m_by_transaction m !! t = Some r
  <-> exists x, x ∈ l' /\ p_transaction x = t /\ p_request_id x = r.
Proof.
  rewrite (mo_transactions _ Hm). symmetry.
  apply (sending_elem (fun x => p_transaction x = t /\ p_request_id x = r)). by rewrite Ht, Hid.
Qed.

Lemma sending_sequences :
  p_sequence q <> 0 ->
  p_sequence p = p_sequence q \/ p_sequence q ∉ map p_sequence (delete i (m_pending m)) ->
  NoDup (filter (fun s => s <> 0) (map p_sequence l')).
Proof.
  intros Hseq Hfresh. rewrite sending_Permutation. cbn [map].
  rewrite filter_cons, decide_True by done. apply NoDup_cons.
  split; [|by apply (removal_sequences _ _ _ Hm Hi)]. destruct Hfresh as [E|Hn].
  - pose proof (mo_sequences _ Hm) as Hold. rewrite (removal_Permutation m i p Hi) in Hold. cbn [map] in Hold.
    rewrite filter_cons, decide_True in Hold by congruence. apply NoDup_cons in Hold as [Hold _]. by rewrite <- E.
  - intros Hin. by apply list_elem_of_filter in Hin as [_ Hin].
Qed.

Lemma sending_replay r :
  p_sequence q <> 0 -> r ∈ m_replay m \/ r = p_request_id q ->
  exists x, x ∈ l' /\ p_request_id x = r /\ p_sequence x <> 0.
Proof.
  intros Hseq Hr. setoid_rewrite sending_Permutation. destruct Hr as [Hr| ->].
  - apply (mo_replay _ Hm) in Hr as (x & Hx & E & Hne). rewrite (removal_Permutation m i p Hi) in Hx.
    apply elem_of_cons in Hx as [->|Hx]; [exists q|exists x]; split_and!; try done.
    + left. + congruence. + by right.
  - exists q. split_and!; try done. left.
Qed.

Lemma sending_flying :
  p_sent p = false -> p_control q = p_control p ->
  (p_control p = None -> weight flying (m_pending m) < max_in_flight_transactions (m_config m)) ->
  weight flying l' <= max_in_flight_transactions (m_config m).
Proof.
  intros Hs Hc Hfly. rewrite sending_weight.
  assert (flying p = 0) as -> by (unfold flying; rewrite Hs; by destruct (decide _) as [[? _]|_]).
  pose proof (mo_in_flight _ Hm). unfold flying at 2. rewrite Hc.
  destruct (decide _) as [[_ E]|_]; [specialize (Hfly E)|]; lia.
Qed.

Lemma sending_nil : l' = [] <-> m_pending m = [].
Proof. unfold l'. rewrite <- !length_zero_iff_nil, length_insert. done. Qed.
End Sending.

(** A request is sent: it was not on the wire, it keeps its identity, its
    sequence number is its old one or a new one, and there is room for it. *)
Record sendable (m : Machine) (i : nat) (p q : Pending) : Prop := {
  sn_at : m_pending m !! i = Some p;
  sn_unsent : p_sent p = false;
  sn_request : p_request_id q = p_request_id p;
  sn_transaction : p_transaction q = p_transaction p;
  sn_bytes : p_bytes q = p_bytes p;
  sn_control : p_control q = p_control p;
  sn_sequence : p_sequence q <> 0;
  sn_ok : pending_ok (m_next_outbound m) (mark_sent q);
  sn_fresh : p_sequence p = p_sequence q \/ p_sequence q ∉ map p_sequence (delete i (m_pending m));
  sn_room : p_control p = None -> weight flying (m_pending m) < max_in_flight_transactions (m_config m)
}.

Lemma sendable_weights m i p q : sendable m i p q ->
  data_bytes (mark_sent q) = data_bytes p /\ ctl_bytes (mark_sent q) = ctl_bytes p
  /\ data_one (mark_sent q) = data_one p /\ control_one (mark_sent q) = control_one p.
Proof.
  intros [_ _ _ _ Hby Hc _ _ _ _]. unfold data_bytes, ctl_bytes, data_one, control_one, is_control. cbn.
  by rewrite Hby, Hc.
Qed.

Lemma sent_ok m i p q : machine_ok m -> sendable m i p q -> machine_ok (sent_at i q m).
Proof.
  intros Hm Hs. destruct (sendable_weights _ _ _ _ Hs) as (D1 & D2 & D3 & D4).
  destruct Hs as [Hi Hs Hid Ht Hby Hc Hseq Hq Hfresh Hfly].
  pose proof (sending_ids m i p (mark_sent q) Hi Hid) as Hids.
  pose proof (sending_transactions m i p (mark_sent q) Hm Hi Hid Ht) as Htr.
  pose proof (fun w => sending_weight m i p (mark_sent q) Hi w) as W.
  pose proof (sending_sequences m i p (mark_sent q) Hm Hi Hseq Hfresh) as Hnd.
  pose proof (sending_flying m i p (mark_sent q) Hm Hi Hs Hc Hfly) as Hfl.
  pose proof (fun r => sending_replay m i p (mark_sent q) Hm Hi Hid r Hseq) as Hrep.
  pose proof (sending_nil m i (mark_sent q)) as Hnil.
  assert (Forall (pending_ok (m_next_outbound m)) (<[i := mark_sent q]> (m_pending m))) as Hpo.
  { rewrite (sending_Permutation m i p (mark_sent q) Hi). constructor; [done|].
    by apply (removal_pending _ _ _ Hm Hi). }
  destruct Hm as [M1 _ M3 M4 M5 M6 M7 M8 M9 _ M11 _ [M13 _] M14 M15 M16 M17 M18].
  unfold sent_at. destruct (bool_decide _) eqn:Hin; constructor; cbn;
    rewrite ?Hids, ?(W data_bytes), ?(W ctl_bytes), ?(W data_one), ?(W control_one), ?D1, ?D2, ?D3, ?D4;
    try done; try lia; try (rewrite Hnil; assumption).
  - split; [done|]. intros r Hr. apply Hrep. by left.
  - apply bool_decide_eq_false in Hin. split.
    + apply NoDup_app. split_and!; [done| |apply NoDup_singleton].
      intros x Hx ->%list_elem_of_singleton. done.
    + intros r [Hr|Hr%list_elem_of_singleton]%elem_of_app; apply Hrep; [by left|by right].
Qed.

Lemma sent_at_fields i q m :
  m_pending (sent_at i q m) = <[i := mark_sent q]> (m_pending m)
  /\ m_config (sent_at i q m) = m_config m /\ m_generation (sent_at i q m) = m_generation m
  /\ m_control_generation (sent_at i q m) = m_control_generation m.
Proof. unfold sent_at. by destruct (bool_decide _). Qed.

Lemma good_send i p q m : sendable m i p q -> good none (send i q) m.
Proof.
  intros Hs Hm. unfold send, mbind, SM_bind, gets, modify, emit, id. cbn [app].
  destruct (sent_at_fields i q m) as (E1 & E2 & E3 & E4).
  split; [by eapply sent_ok| |rewrite E2; apply same_limits_refl|lia|lia].
  intros r. unfold pend. rewrite E1, (weight_insert _ _ _ _ _ (sn_at _ _ _ _ Hs)), resolved_one.
  cbn [resolves]. unfold is_request at 2 3. cbn [p_request_id mark_sent].
  rewrite (sn_request _ _ _ _ Hs). unfold none. lia.
Qed.

(** A sequence number that no pending request has. *)
Lemma allocate_spec m next :
  machine_ok m -> m_next_outbound m = Some next ->
  exists s, allocate_sequence m = (Ok s, with_next_outbound (take_counter next).2 m, [])
    /\ next <= s /\ 1 <= s
    /\ (forall n, (take_counter next).2 = Some n -> s < n)
    /\ Forall (fun p => p_sequence p < s) (m_pending m).
Proof.
  intros Hm Hn. pose proof (mo_next _ Hm _ Hn). exists (Z.max next 1).
  unfold allocate_sequence, mbind, SM_bind, gets, modify, id. rewrite Hn. cbn. split_and!; [done|lia|lia| |].
  - intros n E. destruct (_ =? _); [done|]. simplify_eq. lia.
  - eapply Forall_impl; [exact (mo_pending _ Hm)|]. intros p [_ _ _ Hs]. cbn.
    destruct (decide (p_sequence p = 0)) as [->|Hne]; [lia|].
    apply Hs in Hne as (_ & _ & Hlt). specialize (Hlt _ Hn). lia.
Qed.

Lemma next_outbound_ok m next s :
  machine_ok m -> 1 <= s -> (forall n, next = Some n -> s < n) ->
  Forall (fun p => p_sequence p < s) (m_pending m) -> machine_ok (with_next_outbound next m).
Proof.
  intros [? ? ? ? ? ? ? ? ? M10 ? ? ? ? ? ? ? ?] H1 Hn Hs. constructor; try done; cbn.
  - rewrite Forall_forall in *. intros p Hp. destruct (M10 p Hp) as [? ? ? Hq]. constructor; try done.
    intros Hne. destruct (Hq Hne) as (? & ? & _). split_and!; try done. intros n E.
    specialize (Hn n E). specialize (Hs p Hp). cbn in Hs. lia.
  - intros n E. specialize (Hn n E). lia.
Qed.

Lemma good_dispatch_request m : good none dispatch_request m.
Proof.
  unfold dispatch_request. apply good_gets. cbv beta. unfold id.
  pose proof (select_spec (eligible m) (m_pending m)) as Hsel.
  destruct (select _ _ 0 None) as [i|]; [|apply good_ret].
  destruct Hsel as (k & p & Hi & Hel & _ & _). rewrite Hi. unfold eligible in Hel.
  apply andb_prop in Hel as [Hns Hroom]. apply negb_true_iff in Hns.
  assert (p_control p = None -> weight flying (m_pending m) < max_in_flight_transactions (m_config m)) as Hr.
  { intros Hc. unfold is_control in Hroom. rewrite Hc, in_flight_weight in Hroom.
    rewrite bool_decide_false in Hroom by (by intros [? ?]). lia. }
  intros Hm. pose proof (removal_pending _ _ _ Hm Hi) as [Hpo _]. destruct Hpo as [P1 P2 P3 P4].
  destruct (Z.eqb_spec (p_sequence p) 0) as [E0|Hne].
  - unfold mbind, SM_bind. destruct (m_next_outbound m) as [next|] eqn:Hn.
    + destruct (allocate_spec m next Hm Hn) as (s & -> & Hge & H1 & Hlt & Hall).
      pose proof (next_outbound_ok m _ s Hm H1 Hlt Hall) as Hm'.
      assert (sendable (with_next_outbound (take_counter next).2 m) i p (sequenced s p)) as Hs.
      { constructor; try done; cbn; [lia|constructor; cbn; try done; try lia; intros; split_and!; try done; lia|].
        right. intros Hin. apply list_elem_of_fmap in Hin as (x & E & Hx). rewrite Forall_forall in Hall.
        assert (x ∈ m_pending m) as Hx'
          by (rewrite (removal_Permutation m i p Hi); by right).
        specialize (Hall x Hx'). cbn in Hall. lia. }
      pose proof (good_send _ _ _ _ Hs Hm') as Hgo. destruct (send _ _ _) as [[[] m2] e2].
      destruct Hgo. by constructor.
    + unfold allocate_sequence, mbind, SM_bind, gets, id. rewrite Hn. cbn [app mret SM_ret].
      pose proof (good_fail_terminal SE_TransitionLimit m Hm). destruct (fail_terminal _ _) as [[? ?] ?]. done.
  - refine (good_send i p p m _ Hm). constructor; try done; try (by left).
Qed.
#[export] Hint Resolve good_dispatch_request : session.

Lemma good_pop_control m c cs :
  m_controls m = c :: cs -> good none (modify (with_controls cs)) m.
Proof.
  intros E. apply good_modify; [|done|apply same_limits_refl|done|done].
  intros [? ? ? ? ? ? ? ? ? ? ? ? ? Hc ? ? ? ?]. constructor; try done. cbn.
  rewrite E, zlen_cons in Hc. lia.
Qed.

Lemma good_dispatch m : good none dispatch m.
Proof.
  unfold dispatch. good_step. good_step; [good_run|]. unfold id. destruct (m_controls m) eqn:E.
  - good_run.
  - apply good_bind; [by eapply good_pop_control|]. intros. good_run.
Qed.
#[export] Hint Resolve good_dispatch : session.

(** ** Transaction identifiers *)

(** The transactions in use from [n] on. *)
Definition used_from (n : Z) (used : gmap Z Z) : gmap Z Z := filter (fun x => n <= x.1) used.

Lemma used_from_next n used :
  is_Some (used !! n) -> (S (size (used_from (n + 1) used)) <= size (used_from n used))%nat.
Proof.
  intros [r Hr].
  assert (used_from n used = <[n := r]> (used_from (n + 1) used)) as ->.
  { apply map_eq. intros k. unfold used_from. destruct (decide (k = n)) as [->|Hne].
    - rewrite lookup_insert_eq. apply map_lookup_filter_Some. split; [done|cbn; lia].
    - rewrite lookup_insert_ne by done. apply option_eq. intros x.
      rewrite !map_lookup_filter_Some. cbn. split; intros [? ?]; split; try done; lia. }
  rewrite map_size_insert_None; [done|]. unfold used_from. apply map_lookup_filter_None. right. intros x _. cbn. lia.
Qed.

Lemma used_from_le n used : (size (used_from n used) <= size used)%nat.
Proof. apply map_size_filter. Qed.

(** What [take_transaction_id] finds: the first transaction at or behind the
    counter that is not in use, or that there is none. *)
Definition first_free (n : Z) (used : gmap Z Z) (r : result SessionError Z) (next : option Z) : Prop :=
  match r with
  | Ok v => n <= v <= u64_max /\ used !! v = None
      /\ (forall k, n <= k < v -> is_Some (used !! k))
      /\ next = (if v =? u64_max then None else Some (v + 1))
  | Err e => e = SE_TransitionLimit /\ next = None /\ forall k, n <= k <= u64_max -> is_Some (used !! k)
  end.

Lemma transaction_loop_spec fuel : forall n used,
  1 <= n <= u64_max -> (2 + size (used_from n used) <= fuel)%nat ->
  exists r next, transaction_loop fuel (Some n) used = Some (r, next) /\ first_free n used r next.
Proof.
  induction fuel as [|fuel IH]; intros n used Hn Hf; [lia|]. cbn [transaction_loop].
  unfold take_counter. rewrite Z.max_l by lia. destruct (bool_decide (is_Some (used !! n))) eqn:Hu.
  - apply bool_decide_eq_true in Hu. pose proof (used_from_next _ _ Hu).
    destruct (Z.eqb_spec n u64_max) as [->|Hne].
    + destruct fuel as [|fuel]; [lia|]. exists (Err SE_TransitionLimit), None. split; [done|]. split_and!; try done.
      intros k Hk. by replace k with u64_max by lia.
    + destruct (IH (n + 1) used) as (r & next & -> & Hr); [lia|lia|].
      exists r, next. split; [done|]. destruct r as [v|e]; cbn in *.
      * destruct Hr as (? & ? & Hall & ?). split_and!; try done; try lia.
        intros k Hk. destruct (decide (k = n)) as [->|]; [done|apply Hall; lia].
      * destruct Hr as (? & ? & Hall). split_and!; try done.
        intros k Hk. destruct (decide (k = n)) as [->|]; [done|apply Hall; lia].
  - apply bool_decide_eq_false in Hu. exists (Ok n), (if n =? u64_max then None else Some (n + 1)).
    assert (used !! n = None) by (by destruct (used !! n) eqn:E; [destruct Hu|]).
    split; [done|]. cbn [first_free]. split_and!; try done; lia.
Qed.

(** The rounds [take_transaction_id] allows itself are enough. *)
Lemma transaction_fuel n used :
  1 <= n <= u64_max ->
  exists r next, transaction_loop (S (S (size used))) (Some n) used = Some (r, next)
    /\ first_free n used r next.
Proof. intros Hn. apply transaction_loop_spec; [done|]. pose proof (used_from_le n used). lia. Qed.

(** Whatever the counter is, the transaction found is free. *)
Lemma transaction_loop_free fuel : forall next used v next',
  transaction_loop fuel next used = Some (Ok v, next') -> used !! v = None.
Proof.
  induction fuel as [|fuel IH]; intros next used v next' E; [done|]. cbn [transaction_loop] in E.
  destruct next as [n|]; [|done]. destruct (take_counter n) as [t nx].
  destruct (bool_decide _) eqn:Hu; [by eapply IH|]. apply bool_decide_eq_false in Hu. simplify_eq.
  destruct (used !! v) eqn:E; [by destruct Hu|done].
Qed.

Lemma take_transaction_id_spec m :
  exists next r, take_transaction_id m = (r, with_next_transaction_id next m, [])
    /\ forall t, r = Ok t -> m_by_transaction m !! t = None.
Proof.
  unfold take_transaction_id, mbind, SM_bind, gets, modify, id.
  destruct (transaction_loop _ _ _) as [[r next]|] eqn:E.
  - exists next, r. split; [done|]. intros t ->. by eapply transaction_loop_free.
  - exists (m_next_transaction_id m), (Err SE_TransitionLimit). split; [by destruct m|done].
Qed.

(** ** Admission *)

Section Admission.
  Context {crc_crate : Crc32cCrate}.

Lemma admission_bytes_nonneg cfg msg b : admission_bytes cfg msg = Ok b -> 0 <= b.
Proof.
  unfold admission_bytes, ok_or, try_u. intros H.
  repeat match type of H with context [match (if ?c then _ else _) with _ => _ end] => destruct c eqn:?; try done end.
  cbn in H. destruct (_ || _); [done|]. unfold checked_add in H.
  pose proof (zlen_nonneg (front msg)). pose proof (zlen_nonneg (middle msg)). pose proof (zlen_nonneg (data msg)).
  assert (0 <= MESSAGE_HEADER_SIZE) by done.
  repeat (match type of H with context [if ?c then Some _ else None] => destruct c; cbn in H; try done end).
  destruct (Message_encode msg _); cbn in H; [|done]. destruct (_ || _); [done|].
  apply Ok_inj in H. lia.
Qed.

Definition new_request (r t b : Z) (msg : Message) (one_way ctl : bool) (m : Machine) : Pending :=
  mkPending r (with_transaction_id t msg) b 0 false false one_way
    (if ctl then Some (m_control_generation m) else None).

Lemma data_control_count l : weight data_one l + weight control_one l = zlen l.
Proof.
  induction l as [|p l IH]; [done|]. rewrite !weight_cons, zlen_cons.
  unfold data_one at 1, control_one at 1. destruct (is_control p); lia.
Qed.

(** What a request must be for the machine to take it. *)
Record admissible (m : Machine) (r t b : Z) (ctl : bool) : Prop := {
  ad_bytes : 0 <= b;
  ad_room : saturated m ctl b = false;
  ad_request : r ∉ map p_request_id (m_pending m);
  ad_transaction : m_by_transaction m !! t = None;
  ad_terminal : m_terminal_error m = None;
  ad_state : m_state m <> Stopped
}.

Lemma admitted_transactions m r t b msg one_way ctl :
  machine_ok m -> m_by_transaction m !! t = None ->
  forall t' r', <[t := r]> (m_by_transaction m) !! t' = Some r'
  <-> exists p, p ∈ m_pending m ++ [new_request r t b msg one_way ctl m]
        /\ p_transaction p = t' /\ p_request_id p = r'.
Proof.
  intros Hm Ht t' r'. rewrite lookup_insert_Some, (mo_transactions _ Hm). split.
  - intros [[<- <-]|(Hne & p & Hp & E)].
    + exists (new_request r t b msg one_way ctl m). split_and!; try done. apply elem_of_app. right. by left.
    + exists p. split_and!; try apply E. apply elem_of_app. by left.
  - intros (p & Hp & <- & <-). apply elem_of_app in Hp as [Hp|Hp].
    + right. split; [|by exists p]. intros E. assert (m_by_transaction m !! t = Some (p_request_id p)) as H.
      { apply (mo_transactions _ Hm). by exists p. } congruence.
    + apply list_elem_of_singleton in Hp as ->. by left.
Qed.

Lemma admitted_room m r t b ctl :
  machine_ok m -> admissible m r t b ctl ->
  if ctl then m_control_messages m + 1 <= MAX_CONTROL_MESSAGES /\ m_control_bytes m + b <= MAX_CONTROL_BYTES
  else weight data_one (m_pending m) + 1 <= max_queued_messages (m_config m)
       /\ m_retained_bytes m + b <= max_retained_bytes (m_config m).
Proof.
  intros Hm [_ Hr _ _ _ _]. unfold saturated, saturating_sub in Hr.
  pose proof (mo_control_max _ Hm). pose proof (mo_retained_max _ Hm).
  pose proof (data_control_count (m_pending m)). rewrite (mo_control_messages _ Hm) in *.
  destruct ctl; apply orb_false_elim in Hr as [Hr1 Hr2]; lia.
Qed.

Lemma admitted_ok m r t b msg one_way ctl :
  machine_ok m -> admissible m r t b ctl -> machine_ok (admitted r t b msg one_way ctl m).
Proof.
  intros Hm Ha. pose proof (admitted_room _ _ _ _ _ Hm Ha) as Hroom. destruct Ha as [A1 _ A3 A4 A5 A6].
  pose proof (admitted_transactions m r t b msg one_way ctl Hm A4) as Htr.
  assert (forall w, weight w [new_request r t b msg one_way ctl m] = w (new_request r t b msg one_way ctl m)) as W.
  { intros w. rewrite weight_cons. change (weight w []) with 0. lia. }
  destruct Hm as [M1 _ M3 M4 M5 M6 M7 M8 M9 M10 M11 M12 [M13 M13'] M14 M15 _ _ M18].
  assert (NoDup (map p_request_id (m_pending m ++ [new_request r t b msg one_way ctl m]))) as N1.
  { rewrite map_app. apply NoDup_app. split_and!; [done| |apply NoDup_singleton].
    intros x Hx ->%list_elem_of_singleton. done. }
  assert (Forall (pending_ok (m_next_outbound m)) (m_pending m ++ [new_request r t b msg one_way ctl m])) as N2.
  { apply Forall_app. split; [done|]. constructor; [|done]. by constructor. }
  assert (NoDup (filter (fun s => s <> 0) (map p_sequence (m_pending m ++ [new_request r t b msg one_way ctl m])))) as N3.
  { rewrite map_app, filter_app. cbn. by rewrite app_nil_r. }
  assert (forall x, x ∈ m_replay m -> exists p, p ∈ m_pending m ++ [new_request r t b msg one_way ctl m]
    /\ p_request_id p = x /\ p_sequence p <> 0) as N4.
  { intros x Hx. apply M13' in Hx as (p & Hp & ?). exists p. split; [apply elem_of_app; by left|done]. }
  assert (flying (new_request r t b msg one_way ctl m) = 0) as W0
    by (unfold flying, new_request; cbn; by destruct (decide _) as [[? _]|_]).
  unfold new_request in *.
  destruct ctl; constructor; cbn; rewrite ?weight_app, ?W, ?W0; cbn; try done; try lia;
    try (rewrite A5; by intros [? ?]).
Qed.

Lemma good_enqueue m r t b msg one_way ctl :
  admissible m r t b ctl -> good (only r) (enqueue r t b msg one_way ctl) m.
Proof.
  intros Ha Hm. unfold enqueue, mbind, SM_bind, modify, emit. cbn [app].
  split; [by apply admitted_ok| | | |]; try (by destruct ctl).
  intros x. rewrite resolved_one. cbn [resolves]. unfold pend.
  assert (m_pending (admitted r t b msg one_way ctl m) = m_pending m ++ [new_request r t b msg one_way ctl m]) as ->
    by (by destruct ctl).
  rewrite weight_app, weight_cons. change (weight _ []) with 0. unfold is_request at 2, only. cbn. lia.
Qed.

Lemma good_refuse r e m : good (only r) (emit (F_Failed r e)) m.
Proof. intros Hm. split; try done. intros x. rewrite resolved_one. cbn. unfold only. lia. Qed.
Hint Resolve good_refuse : session.

Lemma find_pending_None r l : ~ is_Some (find_pending r l) -> r ∉ map p_request_id l.
Proof.
  intros Hn Hin. apply Hn. apply list_elem_of_fmap in Hin as (p & -> & Hp). unfold find_pending.
  destruct (list_find _ l) as [[i q]|] eqn:E; [by eexists|]. apply list_find_None in E.
  rewrite Forall_forall in E. by destruct (E p Hp).
Qed.

Lemma good_admit r msg one_way ctl m : good (only r) (admit_message r msg one_way ctl) m.
Proof.
  unfold admit_message. apply good_gets. cbv beta. unfold id.
  destruct (m_terminal_error m) eqn:Ht; [good_run|]. destruct (bool_decide (m_state m = Stopped)) eqn:Hs; [good_run|].
  destruct (admission_bytes _ msg) as [b|] eqn:Hb; [|good_run]. apply admission_bytes_nonneg in Hb.
  destruct (_ || _) eqn:Hor; [good_run|]. apply orb_false_elim in Hor as [Hsat Hf].
  apply bool_decide_eq_false in Hs, Hf. apply find_pending_None in Hf.
  destruct (_ =? 0).
  - destruct (take_transaction_id_spec m) as (next & res & E & Hfree).
    apply good_bind. { intros Hm. rewrite E. pose proof (goes_refl _ Hm) as []. constructor; try done.
      destruct go_ok0. by constructor. }
    intros a m1 e1 E'. rewrite E in E'. injection E' as <- <- _. destruct res as [t|err].
    + apply good_enqueue. specialize (Hfree t eq_refl). by constructor.
    + apply good_bind; [good_run|]. intros. good_run.
  - destruct (bool_decide _) eqn:Hu; [good_run|]. apply bool_decide_eq_false in Hu. apply good_enqueue.
    constructor; try done. destruct (m_by_transaction m !! _) eqn:E; [by destruct Hu|done].
Qed.
Hint Resolve good_admit : session.

Lemma good_admit_control r msg gen m : good (only r) (admit_control r msg gen) m.
Proof. unfold admit_control. good_run. Qed.
End Admission.
#[export] Hint Resolve good_refuse good_admit good_admit_control : session.

(** ** Answers *)

Lemma find_pending_in r l p : find_pending r l = Some p -> r ∈ map p_request_id l.
Proof.
  unfold find_pending. destruct (list_find _ l) as [[i q]|] eqn:E; [|done]. intros _.
  apply find_pending_at in E as [Hi <-]. apply list_elem_of_fmap_2. by eapply list_elem_of_lookup_2.
Qed.

Lemma answered_in m msg r : answered m msg = Some r -> r ∈ map p_request_id (m_pending m).
Proof.
  unfold answered. destruct (_ !! _) as [x|]; cbn; [|done].
  destruct (find_pending x _) as [p|] eqn:E; cbn; [|done]. destruct (_ && _); [|done].
  intros Hx. simplify_eq. by eapply find_pending_in.
Qed.

Lemma good_cancel r m : good none (Session.cancel r) m.
Proof.
  unfold Session.cancel. good_step. unfold id. destruct (find_pending r _) eqn:E; [|good_run].
  apply good_answer; [by eapply find_pending_in|done].
Qed.

Lemma good_write_complete gen r res m : good none (write_complete gen r res) m.
Proof.
  unfold write_complete. good_step. unfold id. good_step; [good_run|].
  apply good_bind; [plain_modify|]. intros [] m1 e1 E1. injection E1 as <- _.
  destruct res; [|good_run]. destruct r as [r|]; [|good_run].
  destruct (find_pending r _) eqn:E; [|good_run]. good_step; [|good_run].
  apply good_answer; [by eapply find_pending_in|done].
Qed.

Lemma good_count_incoming m :
  m_incoming_count m < max_queued_messages (m_config m) ->
  good none (modify (with_incoming_count (m_incoming_count m + 1))) m.
Proof.
  intros Hlt. apply good_modify; [|done|apply same_limits_refl|done|done].
  intros [? ? ? ? ? ? ? ? ? ? ? ? ? ? ? ? ? ?]. constructor; try done. cbn. lia.
Qed.

Lemma good_deliver msg m : good none (deliver msg) m.
Proof.
  unfold deliver. good_step. unfold id. destruct (answered m msg) as [r|] eqn:E.
  - apply good_answer; [by eapply answered_in|done].
  - destruct (Z.leb_spec (max_queued_messages (m_config m)) (m_incoming_count m)); [good_run|].
    apply good_bind; [by apply good_count_incoming|]. intros. good_run.
Qed.

#[export] Hint Resolve good_cancel good_write_complete good_deliver : session.

Lemma good_message msg m : good none (message msg) m.
Proof. unfold message. good_run. Qed.

(** ** Handshake *)

Lemma good_complete_renewal m : good none complete_renewal m.
Proof. unfold complete_renewal. good_run. Qed.
#[export] Hint Resolve good_complete_renewal : session.

Lemma good_server_ident i m : good none (server_ident i) m.
Proof. unfold server_ident. good_run. Qed.

Lemma good_reset_pending full m : good none (reset_pending full) m.
Proof.
  unfold reset_pending. good_step; [|good_run]. apply good_bind; [good_run|]. intros ok m1 e1 _.
  good_step; [good_run|]. apply good_renumber. intros. apply good_ret.
Qed.
#[export] Hint Resolve good_reset_pending : session.

Lemma good_reset full m : good none (reset full) m.
Proof. unfold reset. good_run. Qed.

Lemma good_session_retry s m : good none (session_retry s) m.
Proof. unfold session_retry. good_run. Qed.

Lemma good_session_retry_global s m : good none (session_retry_global s) m.
Proof. unfold session_retry_global. good_run. Qed.

Lemma good_server_wait m : good none server_wait m.
Proof. unfold server_wait. good_run. Qed.

Lemma good_reconnect_ok s m : good none (reconnect_ok s) m.
Proof. unfold reconnect_ok. good_run. Qed.
#[export] Hint Resolve good_message good_server_ident good_reset good_session_retry
  good_session_retry_global good_server_wait good_reconnect_ok : session.

Lemma good_control c m : good none (control c) m.
Proof. unfold control. good_run. Qed.
#[export] Hint Resolve good_control : session.

(** ** Connections *)

Lemma good_clear_terminal m : good none (modify (with_terminal_error None)) m.
Proof.
  apply good_modify; [|done|apply same_limits_refl|done|done].
  intros [? ? ? ? ? ? ? ? ? ? ? ? ? ? ? ? ? ?]. constructor; try done. by intros [? ?].
Qed.

Lemma good_ident_global_id g m : good none (modify (with_config (with_ident_global_id g (m_config m)))) m.
Proof.
  apply good_modify; [|done|by split_and!|done|done].
  intros [? ? ? ? ? ? ? ? ? ? ? ? ? ? ? ? ? ?]. by constructor.
Qed.
#[export] Hint Resolve good_clear_terminal : session.

Lemma good_abort e gen m : good none (abort e gen) m.
Proof. unfold abort. good_run. Qed.
#[export] Hint Resolve good_abort : session.

Lemma good_advance_global_sequence gen m : good none (advance_global_sequence gen) m.
Proof. unfold advance_global_sequence. good_run. Qed.

Lemma good_adopt_global_id agid gen m : good none (adopt_global_id agid gen) m.
Proof.
  unfold adopt_global_id. good_step. unfold id. destruct agid as [g|]; [|good_run]. cbv zeta.
  apply good_bind; [plain_modify|]. intros [] m1 e1 E. injection E as <- _. good_step; [good_run|].
  apply good_bind; [|intros; good_run]. change (m_config m) with (m_config (with_authenticated_global_id g m)).
  apply good_ident_global_id.
Qed.

Lemma good_note_credential c m : good none (note_credential c) m.
Proof. unfold note_credential. good_run. Qed.

Lemma good_open_session gen m : good none (open_session gen) m.
Proof. unfold open_session. good_run. Qed.
#[export] Hint Resolve good_advance_global_sequence good_adopt_global_id good_note_credential
  good_open_session : session.

Lemma good_connected gen agid c m : good none (connected gen agid c) m.
Proof. unfold connected. good_run. Qed.
#[export] Hint Resolve good_connected : session.

Lemma good_start ready m : good none (start ready) m.
Proof. unfold start. good_run. Qed.

(** The machine is stopped before its requests are failed. *)
Lemma good_stop m : good none stop m.
Proof.
  unfold stop. good_step. unfold id. destruct (bool_decide (m_state m = Stopped)) eqn:E; [good_run|].
  intros Hm. unfold set_state, fail_all, mbind, SM_bind, gets, emits, modify, event, emit, id.
  rewrite E. cbn [app]. rewrite app_nil_r. split; [|intros r|apply same_limits_refl|done|done].
  - destruct (cleared_ok _ Hm) as [? ? ? ? ? ? ? ? ? ? ? ? ? ? ? ? ? ?]. by constructor.
  - cbn [m_pending with_state]. change (?e :: ?l ++ [?f]) with ([e] ++ l ++ [f]).
    rewrite !resolved_app, !resolved_one, weight_failed. unfold pend, none.
    change (weight _ (m_pending (with_connect_pending _ _))) with 0. cbn [resolves]. lia.
Qed.

Lemma good_renewal_due gen m : good none (renewal_due gen) m.
Proof. unfold renewal_due. good_run. Qed.

Lemma good_initial_connection agid c m : good none (initial_connection agid c) m.
Proof. unfold initial_connection. good_run. Qed.

Lemma good_initial_identity gen agid c m : good none (initial_identity gen agid c) m.
Proof. unfold initial_identity. good_run. Qed.

Lemma good_connect_failed gen m : good none (connect_failed gen) m.
Proof. unfold connect_failed. good_run. Qed.

Lemma good_consume m :
  good none (modify (with_incoming_count (saturating_sub (m_incoming_count m) 1))) m.
Proof.
  apply good_modify; [|done|apply same_limits_refl|done|done].
  intros [? ? ? ? ? ? ? ? ? ? ? ? ? ? ? ? ? ?]. constructor; try done. cbn. unfold saturating_sub. lia.
Qed.
#[export] Hint Resolve good_start good_stop good_renewal_due good_initial_connection
  good_initial_identity good_connect_failed good_consume : session.

(** ** A machine to try the theorems on *)

Definition test_entity : EntityAddr := mkEntityAddr 2 7 2 [x1a; x90; x7f; x00; x00; x01] false.

Definition test_config : Config :=
  mkConfig (mkLimits 4096 65536 8 64) 4 4096 2 3 16 ReplayPending
    (mkClientIdent [test_entity] test_entity 0 1 0 0 0 0) 11 22 1 0 [33].

Definition test_machine : Machine :=
  mkMachine test_config Disconnected 0 [] ∅ [] [] 0 1 0 0 0 false (Some 1) 0 (Some 1)
    11 22 0 [] 0 1 0 0 None None CC_Unknown R_Idle false 0 false 0 0 false None [33].

Definition test_request : Message :=
  mkMessage (mkMessageHeader 0 0 42 127 1 0 0 0 0 1 0) (mkMessageLengths 1 0 0) [x2a] [] [].

(** Ready, with one request of 42 bytes. *)
Definition test_ready : Machine := with_state Ready test_machine.
Definition test_queued : Machine := admitted 7 1 42 test_request false false test_ready.
(** The request is sent and the connection is gone. *)
Definition test_sent : Machine := (dispatch test_queued).1.2.
Definition test_reconnecting : Machine := with_state Reconnecting test_sent.

Lemma test_ready_ok : machine_ok test_ready.
Proof.
  constructor; cbn; try done.
  - constructor.
  - intros t r. split; [done|]. intros (p & Hp & _). set_solver.
  - intros n E. simplify_eq. done.
  - constructor.
  - split; [constructor|]. set_solver.
Qed.

Lemma test_queued_ok : machine_ok test_queued.
Proof. apply admitted_ok; [apply test_ready_ok|]. constructor; cbn; try done. set_solver. Qed.

Lemma test_reconnecting_ok : machine_ok test_reconnecting.
Proof.
  pose proof (good_dispatch test_queued test_queued_ok) as H. unfold test_reconnecting, test_sent.
  destruct (dispatch test_queued) as [[u m] es]. destruct H as [[? ? ? ? ? ? ? ? ? ? ? ? ? ? ? ? ? ?] _ _ _ _].
  by constructor.
Qed.
