(* ===== verification/SessionProps.v ===== *)
(** * What a session promises

    The theorems on [step] and on whole runs of the session machine of
    [src/src/msgr/session.rs], from its invariant. *)

From S2P Require Import Prelude Codec Frame Message Address Control Secure SessionState Session SessionInv.
From Stdlib Require Import ZArith Lia Strings.Byte.
From stdpp Require Import base option gmap sorting numbers list.

Open Scope Z_scope.

(** ** Runs *)

(** How often an input asks for request [r]. *)
Definition admits (r : Z) (i : Input) : Z :=
  match i with
  | I_Admit x _ _ | I_AdmitControl x _ _ => only x r
  | _ => 0
  end.

(** A configuration as Rust has it: its bounds are unsigned. *)
Definition config_ok (cfg : Config) : Prop :=
  0 <= max_queued_messages cfg /\ 0 <= max_retained_bytes cfg
  /\ 0 <= max_in_flight_transactions cfg /\ 0 <= max_reconnect_attempts cfg.

Lemma Machine_new_ok cfg m : config_ok cfg -> Machine_new cfg = Ok m -> machine_ok m.
Proof.
  intros (? & ? & ? & ?). unfold Machine_new. destruct (_ || _); [done|].
  destruct (_ && _); [done|]. intros E. apply Ok_inj in E as <-.
  constructor; cbn; try done; try (change (zlen (@nil Control)) with 0); try lia.
  - constructor.
  - intros t r. split; [done|]. intros (p & Hp & _). set_solver.
  - intros n E. simplify_eq. done.
  - constructor.
  - split; [constructor|]. set_solver.
Qed.

Lemma Machine_new_pending cfg m : Machine_new cfg = Ok m -> m_pending m = [] /\ m_config m = cfg.
Proof.
  unfold Machine_new. destruct (_ || _); [done|]. destruct (_ && _); [done|]. intros E.
  by apply Ok_inj in E as <-.
Qed.

Section Runs.
  Context {crc_crate : Crc32cCrate}.

Lemma good_run_input i m : good (fun r => admits r i) (run_input i) m.
Proof.
  destruct i; cbn [run_input]; unfold current;
    match goal with |- good _ ?x ?m =>
      first [change (good none x m) | change (good (only request_id) x m)] end; good_run.
Qed.

Lemma goes_step m i :
  machine_ok m -> goes (fun r => admits r i) m (step m i).1 (step m i).2.
Proof.
  intros Hm. pose proof (good_run_input i m Hm) as H. unfold step.
  by destruct (run_input i m) as [[[] m'] es].
Qed.

Lemma goes_run inputs : forall m,
  machine_ok m -> goes (fun r => weight (admits r) inputs) m (run m inputs).1 (run m inputs).2.
Proof.
  induction inputs as [|i inputs IH]; intros m Hm; cbn [run].
  - by apply goes_refl.
  - pose proof (goes_step m i Hm) as H1. destruct (step m i) as [m1 e1].
    specialize (IH m1 (go_ok _ _ _ _ H1)). cbn in IH. destruct (run m1 inputs) as [m2 e2].
    eapply goes_ext; [|by eapply goes_trans]. intros r. cbn. by rewrite weight_cons.
Qed.
End Runs.

(** How often a request is pending is at most once. *)
Lemma pend_bounds r m : machine_ok m -> 0 <= pend r m <= 1.
Proof.
  intros Hm. pose proof (mo_requests _ Hm) as Hn. unfold pend. revert Hn.
  assert (forall l, r ∉ map p_request_id l -> weight (is_request r) l = 0) as H0.
  { induction l as [|p l IH]; [done|]. cbn [map]. rewrite not_elem_of_cons. intros [Hp Hl].
    rewrite weight_cons, IH by done. unfold is_request. rewrite (proj2 (Z.eqb_neq (p_request_id p) r)); [done|congruence]. }
  induction (m_pending m) as [|p l IH]; intros Hn; [done|]. cbn [map] in Hn.
  apply NoDup_cons in Hn as [Hp Hn]. rewrite weight_cons. unfold is_request at 1 3.
  destruct (Z.eqb_spec (p_request_id p) r) as [<-|]; [rewrite H0 by done; lia|]. specialize (IH Hn). lia.
Qed.

(** ** Inbound messages *)

Definition delivery (e : Effect) : Z :=
  match e with
  | F_Completed _ (Some _) | F_Incoming _ => 1
  | _ => 0
  end.

(** An operation that hands no inbound message to anybody. *)
Definition quiet {A} (x : SM A) (m : Machine) : Prop := weight delivery (x m).2 = 0.

Lemma quiet_bind {A B} (x : SM A) (k : A -> SM B) m :
  quiet x m -> (forall a m1, quiet (k a) m1) -> quiet (x ≫= k) m.
Proof.
  unfold quiet, mbind, SM_bind. intros Hx Hk. destruct (x m) as [[a m1] e1]. specialize (Hk a m1).
  destruct (k a m1) as [[b m2] e2]. cbn in *. rewrite weight_app. lia.
Qed.

Create HintDb quiet.

Ltac quiet_step :=
  lazymatch goal with
  | |- quiet (mret _) _ => done
  | |- quiet (emit _) _ => done
  | |- quiet (event _) _ => done
  | |- quiet (gets _) _ => done
  | |- quiet (modify _) _ => done
  | |- quiet (_ ≫= _) _ => apply quiet_bind; [|intros ? ?]
  | |- quiet (if ?b then _ else _) _ => destruct b
  | |- quiet (match ?x with _ => _ end) _ => destruct x
  | |- quiet (let _ := _ in _) _ => cbv zeta
  | |- quiet _ _ => solve [auto with quiet nocore]
  end.

Ltac quiet_run := repeat quiet_step.

Lemma quiet_set_state s m : quiet (set_state s) m.
Proof. unfold set_state. quiet_run. Qed.

Lemma quiet_fail_requests l m : quiet (fail_requests l) m.
Proof.
  revert m. induction l as [|[r e] l IH]; intros m; cbn [fail_requests]; [done|].
  unfold remove_pending. quiet_run.
Qed.

Lemma quiet_fail_all e m : quiet (fail_all e) m.
Proof.
  unfold fail_all. apply quiet_bind; [done|intros m0 ?]. apply quiet_bind; [|done].
  unfold quiet, emits. cbn. induction (m_pending m0) as [|p l IH]; [done|]. cbn [map]. by rewrite weight_cons, IH.
Qed.
#[export] Hint Resolve quiet_set_state quiet_fail_requests quiet_fail_all : quiet.

Lemma quiet_fail_terminal e m : quiet (fail_terminal e) m.
Proof. unfold fail_terminal. quiet_run. Qed.
#[export] Hint Resolve quiet_fail_terminal : quiet.

Lemma quiet_fault e m : quiet (fault e) m.
Proof.
  unfold fault, invalidate_controls, fault_pending, fail_sent_unknown, reset_for_new_identity,
    prepare_replay, begin_reconnect. quiet_run.
Qed.
#[export] Hint Resolve quiet_fault : quiet.

(** Whatever an operation does, it ends [Disconnected] or leaves the machine alone. *)
Lemma set_state_state s m : m_state (set_state s m).1.2 = s.
Proof.
  unfold set_state, mbind, SM_bind, gets, id. destruct (bool_decide _) eqn:E; [|done].
  by apply bool_decide_eq_true in E.
Qed.

Lemma fail_terminal_halts e m :
  fail_terminal e m = (tt, m, []) \/ m_state (fail_terminal e m).1.2 = Disconnected.
Proof.
  destruct (m_terminal_error m) as [x|] eqn:Ht.
  - left. unfold fail_terminal, mbind, SM_bind, gets, id. by rewrite Ht, bool_decide_true.
  - right. rewrite fail_terminal_eq by done. pose proof (set_state_state Disconnected (doomed e m)) as H.
    by destruct (set_state _ _) as [[? ?] ?].
Qed.

(** An operation that ends [Disconnected] from there. *)
Lemma fail_terminal_stays e m :
  m_state m = Disconnected -> m_state (fail_terminal e m).1.2 = Disconnected.
Proof. intros Hs. by destruct (fail_terminal_halts e m) as [->|H]. Qed.

Lemma begin_reconnect_stays m :
  m_state m = Disconnected -> m_state (begin_reconnect m).1.2 = Disconnected.
Proof.
  intros Hs. unfold begin_reconnect, mbind, SM_bind, gets, modify, emit, id. destruct (_ || _).
  - pose proof (fail_terminal_stays SE_ReconnectExhausted m Hs). by destruct (fail_terminal _ _) as [[? ?] ?].
  - destruct (checked_add _ _ _); [done|].
    match goal with |- context [fail_terminal _ ?x] => pose proof (fail_terminal_stays SE_TransitionLimit x Hs) end.
    by destruct (fail_terminal _ _) as [[? ?] ?].
Qed.

(** The state an operation followed by another ends in. *)
Lemma state_bind {A B} (x : SM A) (k : A -> SM B) m (P : Machine -> Prop) :
  (forall a m1, P (k a m1).1.2) -> P ((x ≫= k) m).1.2.
Proof.
  intros Hk. unfold mbind, SM_bind. destruct (x m) as [[a m1] e1]. specialize (Hk a m1).
  by destruct (k a m1) as [[b m2] e2].
Qed.

Lemma disconnect_state m : m_state ((_ ← set_state Disconnected; begin_reconnect) m).1.2 = Disconnected.
Proof.
  unfold mbind, SM_bind. pose proof (set_state_state Disconnected m) as H.
  destruct (set_state _ m) as [[? m1] ?]. cbn in H. pose proof (begin_reconnect_stays m1 H).
  by destruct (begin_reconnect m1) as [[? ?] ?].
Qed.

Lemma invalidate_controls_halts m :
  m_terminal_error m = None -> (invalidate_controls m).1.1 = false ->
  m_state (invalidate_controls m).1.2 = Disconnected.
Proof.
  intros Ht. unfold invalidate_controls, mbind, SM_bind, gets, modify, mret, SM_ret, id.
  destruct (checked_add _ _ _).
  - by destruct (fail_requests _ _) as [[? ?] ?].
  - intros _. rewrite fail_terminal_eq by done. pose proof (set_state_state Disconnected (doomed SE_TransitionLimit m)).
    by destruct (set_state _ _) as [[? ?] ?].
Qed.

Lemma fail_requests_terminal l : forall m, m_terminal_error (fail_requests l m).1.2 = m_terminal_error m.
Proof.
  induction l as [|[r e] l IH]; intros m; [done|]. cbn [fail_requests].
  unfold mbind, SM_bind, remove_pending, modify, emit. specialize (IH (removed r m)).
  destruct (fail_requests l _) as [[? ?] ?]. cbn in *. rewrite IH. unfold removed.
  destruct (list_find _ _) as [[i p]|]; [|done]. by destruct (is_control p).
Qed.

Lemma invalidate_controls_terminal m :
  (invalidate_controls m).1.1 = true -> m_terminal_error (invalidate_controls m).1.2 = m_terminal_error m.
Proof.
  unfold invalidate_controls, mbind, SM_bind, gets, modify, mret, SM_ret, id. destruct (checked_add _ _ _) as [g|].
  - intros _. match goal with |- context [fail_requests ?l ?x] => pose proof (fail_requests_terminal l x) as H end.
    by destruct (fail_requests _ _) as [[? ?] ?].
  - by destruct (fail_terminal _ _) as [[? ?] ?].
Qed.

Lemma gets_bind {A B} (f : Machine -> A) (k : A -> SM B) m : (gets f ≫= k) m = k (f m) m.
Proof. unfold mbind, SM_bind, gets. by destruct (k (f m) m) as [[? ?] ?]. Qed.

Lemma bind_state {A B} (x : SM A) (k : A -> SM B) m (P : Machine -> Prop) :
  P (k (x m).1.1 (x m).1.2).1.2 -> P ((x ≫= k) m).1.2.
Proof.
  unfold mbind, SM_bind. destruct (x m) as [[a m1] e1]. cbn. by destruct (k a m1) as [[b m2] e2].
Qed.

(** The sessions a fault does not touch: failed, stopped or already down. *)
Definition faultless (m : Machine) : bool :=
  bool_decide (is_Some (m_terminal_error m)) || bool_decide (m_state m = Stopped)
  || (bool_decide (m_state m = Disconnected) && m_connect_pending m).

Lemma fault_outcome e m :
  if faultless m then fault e m = (tt, m, []) else m_state (fault e m).1.2 = Disconnected.
Proof.
  unfold fault, faultless. rewrite gets_bind. unfold id.
  destruct (bool_decide (is_Some (m_terminal_error m))) eqn:Ht; [done|]. apply bool_decide_eq_false in Ht.
  cbn [orb]. destruct (_ || _) eqn:Hg; [done|]. clear Hg.
  assert (m_terminal_error m = None) as Hn by (destruct (m_terminal_error m); [by destruct Ht|done]).
  pose proof (invalidate_controls_halts m Hn) as Hh. pose proof (invalidate_controls_terminal m) as Hk.
  apply (bind_state _ _ _ (fun m => m_state m = Disconnected)).
  destruct (invalidate_controls m) as [[ok m1] e1]. cbn in Hh, Hk |- *.
  destruct ok; cbn [negb]; [|by apply Hh].
  destruct (bool_decide (e = SE_QueueSaturated)).
  - rewrite fail_terminal_eq by (by rewrite Hk).
    pose proof (set_state_state Disconnected (doomed e m1)) as H. by destruct (set_state _ _) as [[? ?] ?].
  - do 5 (apply (state_bind _ _ _ (fun m => m_state m = Disconnected)); intros ? ?). apply disconnect_state.
Qed.

Lemma fault_halts e m : fault e m = (tt, m, []) \/ m_state (fault e m).1.2 = Disconnected.
Proof. pose proof (fault_outcome e m). destruct (faultless m); auto. Qed.

(** The acknowledgment of a message the machine never sent. *)
Definition ack_rejected (s : Z) (m : Machine) : bool :=
  match m_next_outbound m with Some next => negb (s =? 0) && (next <=? s) | None => false end.

(** A message the machine will not deliver in its current connection. *)
Definition shut (msg : Message) (m : Machine) : Prop :=
  m_state m <> Ready \/ ack_rejected (ack_sequence (header msg)) m = true
  \/ sequence (header msg) <= m_last_inbound m.

Lemma fault_shut e msg m : shut msg m -> shut msg (fault e m).1.2.
Proof. intros Hs. destruct (fault_halts e m) as [->|H]; [done|]. left. by rewrite H. Qed.

Lemma accept_eq s m :
  accept_acknowledgment s m
  = if ack_rejected s m then let '(_, m', es) := fault SE_Malformed m in (false, m', es)
    else (true, m, []).
Proof.
  unfold accept_acknowledgment. rewrite gets_bind. unfold id, ack_rejected.
  destruct (match m_next_outbound m with Some _ => _ | None => _ end); [|done].
  unfold mbind, SM_bind, mret, SM_ret. destruct (fault _ m) as [[? ?] es]. by rewrite app_nil_r.
Qed.

Lemma message_eq msg m :
  message msg m
  = if bool_decide (m_state m <> Ready) then fault SE_Malformed m
    else if ack_rejected (ack_sequence (header msg)) m then fault SE_Malformed m
    else if sequence (header msg) <=? m_last_inbound m
    then event (E_DuplicateDropped (sequence (header msg))) m
    else
      (_ ← (if negb (m_last_inbound m =? u64_max) && negb (sequence (header msg) =? m_last_inbound m + 1)
            then event (E_SequenceGap (sequence (header msg)) (m_last_inbound m + 1)) else mret tt);
       _ ← modify (with_last_inbound (sequence (header msg)));
       _ ← trim_replay (ack_sequence (header msg));
       _ ← queue_control (C_Ack (sequence (header msg)));
       deliver msg) m.
Proof.
  unfold message. rewrite gets_bind. unfold id. destruct (bool_decide _); [done|].
  unfold mbind at 1, SM_bind at 1. rewrite accept_eq. destruct (ack_rejected _ m).
  - destruct (fault _ m) as [[[] ?] es]. cbn. by rewrite app_nil_r.
  - cbn [negb]. destruct (_ <=? _); [done|]. match goal with |- context [?x m] =>
      lazymatch x with _ ≫= _ => by destruct (x m) as [[? ?] ?] end end.
Qed.

(** Such a message changes nothing about that, and nobody gets it. *)
Lemma shut_message msg m :
  shut msg m -> weight delivery (message msg m).2 = 0 /\ shut msg (message msg m).1.2.
Proof.
  intros Hs. rewrite message_eq. pose proof (fault_shut SE_Malformed msg m Hs).
  pose proof (quiet_fault SE_Malformed m).
  destruct (bool_decide _) eqn:Hr; [done|]. destruct (ack_rejected _ m) eqn:Ha; [done|].
  destruct (Z.leb_spec (sequence (header msg)) (m_last_inbound m)) as [Hle|Hgt]; [done|].
  apply bool_decide_eq_false in Hr. destruct Hs as [Hs|[Hs|Hs]]; [done|congruence|lia].
Qed.

(** The message [s] is counted, or the connection is gone. *)
Definition counted (s : Z) (m : Machine) : Prop := m_last_inbound m = s \/ m_state m = Disconnected.

Lemma counted_shut msg m : counted (sequence (header msg)) m -> shut msg m.
Proof. intros [E|E]; [right; right; lia|left; by rewrite E]. Qed.

Lemma fail_terminal_counted e s m : counted s m -> counted s (fail_terminal e m).1.2.
Proof. intros Hc. destruct (fail_terminal_halts e m) as [->|H]; [done|by right]. Qed.

Lemma queue_control_counted c s m : counted s m -> counted s (queue_control c m).1.2.
Proof.
  intros Hc. unfold queue_control. rewrite gets_bind. destruct (_ <=? _); [|done].
  destruct (fault_halts SE_QueueSaturated m) as [->|H]; [done|by right].
Qed.

Lemma quiet_queue_control c m : quiet (queue_control c) m.
Proof. unfold queue_control. quiet_run. Qed.
#[export] Hint Resolve quiet_queue_control : quiet.

Lemma removed_counted r s m : counted s m -> counted s (removed r m).
Proof.
  intros Hc. unfold removed. destruct (list_find _ _) as [[i p]|]; [|done]. by destruct (is_control p).
Qed.

Lemma deliver_once msg s m :
  counted s m -> weight delivery (deliver msg m).2 <= 1 /\ counted s (deliver msg m).1.2.
Proof.
  intros Hc. unfold deliver. rewrite gets_bind. unfold id. destruct (answered m msg) as [r|].
  - split; [done|]. by apply removed_counted.
  - destruct (_ <=? _); [|done].
    pose proof (quiet_fail_terminal SE_QueueSaturated m) as Hq. unfold quiet in Hq. rewrite Hq.
    split; [done|]. by apply fail_terminal_counted.
Qed.

(** Counting the message and handing it on. *)
Lemma accepted_once msg m :
  let x := (_ ← modify (with_last_inbound (sequence (header msg)));
            _ ← trim_replay (ack_sequence (header msg));
            _ ← queue_control (C_Ack (sequence (header msg)));
            deliver msg) in
  weight delivery (x m).2 <= 1 /\ counted (sequence (header msg)) (x m).1.2.
Proof.
  cbv zeta. unfold mbind, SM_bind, trim_replay, modify.
  set (m1 := replay_trimmed _ _).
  assert (counted (sequence (header msg)) m1) as H1 by (by left).
  pose proof (queue_control_counted (C_Ack (sequence (header msg))) _ _ H1) as H2.
  pose proof (quiet_queue_control (C_Ack (sequence (header msg))) m1) as Hq. unfold quiet in Hq.
  destruct (queue_control _ m1) as [[? m2] e2]. cbn in H2, Hq.
  pose proof (deliver_once msg _ _ H2) as [H3 H4]. destruct (deliver msg m2) as [[? m3] e3]. cbn in *.
  split; [|done]. rewrite weight_app. lia.
Qed.

Lemma prefixed {B} (x : SM unit) (k : SM B) m :
  (x m).1.2 = m /\ weight delivery (x m).2 = 0 ->
  ((_ ← x; k) m).1.2 = (k m).1.2 /\ weight delivery ((_ ← x; k) m).2 = weight delivery (k m).2.
Proof.
  unfold mbind, SM_bind. destruct (x m) as [[[] m1] e1]. cbn. intros [-> E].
  destruct (k m) as [[? ?] ?]. cbn. rewrite weight_app. split; [done|lia].
Qed.

Lemma message_once msg m :
  weight delivery (message msg m).2 <= 1 /\ shut msg (message msg m).1.2.
Proof.
  rewrite message_eq. pose proof (quiet_fault SE_Malformed m) as Hq. unfold quiet in Hq.
  destruct (bool_decide _) eqn:Hr.
  { split; [lia|]. apply fault_shut. left. by apply bool_decide_eq_true in Hr. }
  destruct (ack_rejected _ m) eqn:Ha.
  { split; [lia|]. apply fault_shut. by right; left. }
  destruct (Z.leb_spec (sequence (header msg)) (m_last_inbound m)) as [Hle|Hgt].
  { split; [done|]. by right; right. }
  pose proof (accepted_once msg m) as [H1 H2]. apply counted_shut in H2.
  match goal with |- context [((if ?c then _ else _) ≫= (fun _ => ?k)) m] =>
    destruct (prefixed (if c then event (E_SequenceGap (sequence (header msg)) (m_last_inbound m + 1))
                        else mret tt) k m) as [-> ->] end.
  - by destruct (_ && _).
  - done.
Qed.

Section Promises.
  Context {crc_crate : Crc32cCrate}.

(** C19. Whatever inputs the session machine is given, in whatever order, it
    stays in order: request identifiers and transactions are unique and the
    transaction table names exactly the pending requests; the byte and message
    counters are the sums over the pending requests; the data queue, the
    retained bytes, the control queue, the transactions in flight and the
    undelivered messages stay within the configured bounds; sequence numbers
    of pending requests are distinct and below the next one; what is kept for
    replay is pending; a stopped or failed session has nothing pending. *)
Theorem session_invariant cfg m0 inputs :
  config_ok cfg -> Machine_new cfg = Ok m0 ->
  machine_ok (run m0 inputs).1 /\ same_limits cfg (m_config (run m0 inputs).1)
  /\ m_generation m0 <= m_generation (run m0 inputs).1.
Proof.
  intros Hc E. destruct (Machine_new_pending _ _ E) as [_ <-].
  destruct (goes_run inputs m0 (Machine_new_ok _ _ Hc E)) as [H1 _ H2 H3 _]. done.
Qed.

(** C3. No request is lost and none is answered twice: over any run the
    completions and failures of a request, with the one still pending, are as
    many as its admissions; at most one is pending, and when the session is
    stopped or has failed for good every admission has been answered. *)
Theorem session_ledger cfg m0 inputs r :
  config_ok cfg -> Machine_new cfg = Ok m0 ->
  let '(m, es) := run m0 inputs in
  resolved r es + pend r m = weight (admits r) inputs /\ 0 <= pend r m <= 1
  /\ (m_state m = Stopped \/ is_Some (m_terminal_error m) ->
      resolved r es = weight (admits r) inputs).
Proof.
  intros Hc E. destruct (Machine_new_pending _ _ E) as [Hp _].
  pose proof (goes_run inputs m0 (Machine_new_ok _ _ Hc E)) as [H1 H2 _ _ _].
  destruct (run m0 inputs) as [m es]. cbn in *. specialize (H2 r). unfold pend at 2 in H2. rewrite Hp in H2.
  change (weight _ []) with 0 in H2. split; [lia|]. split; [by apply pend_bounds|].
  intros Hs. assert (m_pending m = []) as Hnil 
    by (destruct Hs as [Hs|Hs]; [apply (mo_stopped _ H1 Hs)|apply (mo_terminal _ H1 Hs)]).
  unfold pend in H2. rewrite Hnil in H2. change (weight (is_request r) []) with 0 in H2. lia.
Qed.


(** [take_transaction_id] gives the first transaction at or behind its
    counter that no pending request uses, and leaves the counter behind it; it
    fails only when every identifier up to the largest is in use. *)
Theorem transaction_first_free m n :
  m_next_transaction_id m = Some n -> 1 <= n <= u64_max ->
  exists r next, take_transaction_id m = (r, with_next_transaction_id next m, [])
    /\ first_free n (m_by_transaction m) r next.
Proof.
  intros Hn Hr. destruct (transaction_fuel n (m_by_transaction m) Hr) as (r & next & E & Hf).
  exists r, next. split; [|done]. unfold take_transaction_id, mbind, SM_bind, gets, modify, id.
  by rewrite Hn, E.
Qed.

(** The message a request is sent with: unchanged when it is replayed, else
    under a new sequence number behind those of all pending requests. *)
Definition sent_message (m : Machine) (p : Pending) (msg : Message) : Prop :=
  if p_sequence p =? 0 then
    exists s, msg = with_sequence s (p_message p) /\ Forall (fun q => p_sequence q < s) (m_pending m)
  else msg = p_message p.

Lemma dispatch_request_in_order m n :
  machine_ok m -> m_next_outbound m = Some n ->
  (forall p, p ∈ m_pending m -> eligible m p = false) /\ dispatch_request m = (tt, m, [])
  \/ exists i p k msg m', least (eligible m) (m_pending m) (Some (i, k)) /\ m_pending m !! i = Some p
      /\ sent_message m p msg
      /\ dispatch_request m = (tt, m', [F_SendMessage (m_generation m) (p_request_id p) msg]).
Proof.
  intros Hm Hn. unfold dispatch_request, mbind, SM_bind, gets, id.
  pose proof (select_spec (eligible m) (m_pending m)) as Hsel.
  destruct (select _ _ 0 None) as [i|].
  - right. destruct Hsel as (k & Hl). pose proof Hl as (p & Hi & _). rewrite Hi.
    exists i, p, k. unfold sent_message. destruct (Z.eqb_spec (p_sequence p) 0) as [E0|Hne].
    + destruct (allocate_spec m n Hm Hn) as (s & -> & _ & _ & _ & Hall).
      eexists (with_sequence s (p_message p)), _. split_and!; [done|done| |done]. by exists s.
    + eexists (p_message p), _. split_and!; done.
  - left. split; [|done]. intros p Hp. apply list_elem_of_lookup in Hp as [j Hj]. by eapply Hsel.
Qed.

(** When a ready session may write, [dispatch] sends the eligible request
    of least key, the first of those: requests to replay before all others and
    in the order of their sequence numbers, then new control requests, then
    new requests.  A replayed request is sent unchanged, a new one under a
    sequence number larger than any pending.  When none is eligible nothing
    changes. *)
Theorem dispatch_in_order m n :
  machine_ok m -> m_state m = Ready -> m_write_busy m = false -> m_controls m = [] ->
  m_renewal m <> R_Draining \/ m_control_messages m <> 0 -> m_next_outbound m = Some n ->
  (forall p, p ∈ m_pending m -> eligible m p = false) /\ step m I_Dispatch = (m, [])
  \/ exists i p k msg, least (eligible m) (m_pending m) (Some (i, k)) /\ m_pending m !! i = Some p
      /\ sent_message m p msg
      /\ (step m I_Dispatch).2 = [F_SendMessage (m_generation m) (p_request_id p) msg].
Proof.
  intros Hm Hs Hw Hc Hr Hn.
  assert (dispatch m = dispatch_request m) as E.
  { unfold dispatch, mbind, SM_bind, gets, id. rewrite Hs, Hw, Hc. cbn [orb negb].
    rewrite !bool_decide_false by (by try intros ?). cbn [orb].
    destruct (bool_decide (m_renewal m = R_Draining) && (m_control_messages m =? 0)) eqn:Hd.
    - apply andb_prop in Hd as [H1%bool_decide_eq_true H2%Z.eqb_eq]. destruct Hr; congruence.
    - by destruct (dispatch_request m) as [[? ?] ?]. }
  unfold step. cbn [run_input]. rewrite E.
  destruct (dispatch_request_in_order m n Hm Hn) as [[H1 ->]|(i & p & k & msg & m' & Hl & Hi & Hm' & ->)].
  - by left.
  - right. exists i, p, k, msg. done.
Qed.

(** One message, whether or not its connection is current. *)
Lemma step_message gen msg m :
  step m (I_Message gen msg)
  = if gen =? m_generation m then ((message msg m).1.2, (message msg m).2) else (m, []).
Proof.
  unfold step. cbn [run_input]. unfold current. rewrite gets_bind. unfold id.
  destruct (_ =? _); [|done]. by destruct (message msg m) as [[[] ?] ?].
Qed.

Lemma shut_repeat gen msg n : forall m,
  shut msg m \/ gen <> m_generation m ->
  weight delivery (run m (repeat (I_Message gen msg) n)).2 = 0.
Proof.
  induction n as [|n IH]; intros m Hs; [done|]. cbn [repeat run]. rewrite step_message.
  destruct (Z.eqb_spec gen (m_generation m)) as [E|E].
  - destruct Hs as [Hs|Hs]; [|done]. destruct (shut_message _ _ Hs) as [H1 H2].
    specialize (IH _ (or_introl H2)). destruct (run _ _) as [m2 e2]. cbn in *. rewrite weight_app. lia.
  - specialize (IH m (or_intror E)). by destruct (run m _) as [m2 e2].
Qed.

(** An inbound message is delivered at most once: however often the
    server's message arrives on a connection, and whatever state the session
    is in, at most one reply or unsolicited message is handed to the caller. *)
Theorem inbound_once gen msg n m :
  weight delivery (run m (repeat (I_Message gen msg) n)).2 <= 1.
Proof.
  destruct n as [|n]; [done|]. cbn [repeat run]. rewrite step_message.
  destruct (Z.eqb_spec gen (m_generation m)) as [E|E].
  - destruct (message_once msg m) as [H1 H2]. pose proof (shut_repeat gen msg n _ (or_introl H2)) as H3.
    destruct (run _ _) as [m2 e2]. cbn in *. rewrite weight_app. lia.
  - pose proof (shut_repeat gen msg n m (or_intror E)) as H. destruct (run m _) as [m2 e2]. cbn in *. lia.
Qed.

End Promises.

(** ** The theorems at work *)

Lemma session_invariant_witness :
  config_ok test_config /\ Machine_new test_config = Ok test_machine
  /\ machine_ok (run (crc_crate := reference_crc) test_machine [I_Start true; I_Dispatch; I_Stop]).1.
Proof.
  split; [by split_and!|]. split; [done|].
  apply (session_invariant (crc_crate := reference_crc) test_config test_machine [I_Start true; I_Dispatch; I_Stop]);
    [by split_and!|done].
Defined.

(** A request that is asked for once. *)
Lemma session_ledger_witness :
  let inputs := [I_Start true; I_Admit 7 test_request false; I_Stop] in
  let '(m, es) := run (crc_crate := reference_crc) test_machine inputs in
  resolved 7 es + pend 7 m = 1.
Proof.
  cbv zeta. pose proof (session_ledger (crc_crate := reference_crc) test_config test_machine
    [I_Start true; I_Admit 7 test_request false; I_Stop] 7) as H.
  destruct (run _ _) as [m es]. destruct H as [H _]; [by split_and!|done|exact H].
Defined.

Lemma transaction_first_free_witness :
  m_next_transaction_id test_queued = Some 1
  /\ exists r next, take_transaction_id test_queued = (r, with_next_transaction_id next test_queued, [])
    /\ first_free 1 (m_by_transaction test_queued) r next.
Proof. split; [done|]. apply transaction_first_free; [done|]. split; [done|]. discriminate. Defined.

Lemma dispatch_in_order_witness :
  (exists p, p ∈ m_pending test_queued /\ eligible test_queued p = true)
  /\ exists i p k msg, least (eligible test_queued) (m_pending test_queued) (Some (i, k))
      /\ m_pending test_queued !! i = Some p /\ sent_message test_queued p msg
      /\ (step (crc_crate := reference_crc) test_queued I_Dispatch).2
         = [F_SendMessage 0 (p_request_id p) msg].
Proof.
  assert (exists p, p ∈ m_pending test_queued /\ eligible test_queued p = true) as He.
  { eexists. split; [left|done]. }
  split; [done|].
  destruct (dispatch_in_order (crc_crate := reference_crc) test_queued 1 test_queued_ok) as [[H _]|H];
    try done; [by left|]. destruct He as (p & Hp & He). rewrite H in He; done.
Defined.
