(* ===== verification/SessionReplay.v ===== *)
(** * Reconnecting a session

    What a session does with the requests it had sent when its connection is
    gone, and that it gives up after the configured number of attempts. *)

From S2P Require Import Prelude Codec Frame Message Address Control Secure SessionState Session SessionInv SessionProps.
From Stdlib Require Import ZArith Lia Strings.Byte.
From stdpp Require Import base option gmap sorting numbers list.

Open Scope Z_scope.

(** ** What is replayed *)

Lemma unsend_map r l :
  NoDup (map p_request_id l) ->
  unsend l r = map (fun p => if bool_decide (p_request_id p = r) then mark_unsent p else p) l.
Proof.
  intros Hn. assert (forall k, r ∉ map p_request_id k ->
    map (fun p => if bool_decide (p_request_id p = r) then mark_unsent p else p) k = k) as Hid.
  { induction k as [|p k IH]; intros Hr; [done|]. cbn [map] in *. apply not_elem_of_cons in Hr as [Hp Hk].
    rewrite bool_decide_false by congruence. by rewrite IH. }
  unfold unsend. induction l as [|p l IH]; [done|]. cbn [map] in *. apply NoDup_cons in Hn as [Hp Hn].
  cbn [list_find]. case_bool_decide as Hd.
  - rewrite decide_True by done. cbn. subst r. by rewrite Hid.
  - rewrite decide_False by done. specialize (IH Hn). rewrite <- IH.
    destruct (list_find _ l) as [[i q]|]; done.
Qed.

Lemma unsend_ids r l : map p_request_id (unsend l r) = map p_request_id l.
Proof. apply same_map; [done|]. apply unsend_same. Qed.

Lemma prepared_map rs : forall l,
  NoDup (map p_request_id l) ->
  fold_left unsend rs l
  = map (fun p => if bool_decide (p_request_id p ∈ rs) then mark_unsent p else p) l.
Proof.
  induction rs as [|r rs IH]; intros l Hn; cbn [fold_left].
  - rewrite <- (map_id l) at 1. by apply map_ext.
  - rewrite IH by (by rewrite unsend_ids). rewrite unsend_map, map_map by done. apply map_ext. intros p.
    destruct (bool_decide (p_request_id p = r)) eqn:E.
    + apply bool_decide_eq_true in E. rewrite (bool_decide_true (p_request_id p ∈ r :: rs)) by (rewrite E; left).
      cbn [p_request_id mark_unsent]. by destruct (bool_decide _).
    + apply bool_decide_eq_false in E. rewrite (bool_decide_ext _ (p_request_id p ∈ r :: rs)); [done|].
      rewrite elem_of_cons. tauto.
Qed.

Lemma sequences_lookup l : forall (acc : gmap Z Z) p,
  NoDup (map p_request_id l) -> p ∈ l ->
  fold_left (fun s p => <[p_request_id p := p_sequence p]> s) l acc !! p_request_id p
  = Some (p_sequence p).
Proof.
  assert (forall l (acc : gmap Z Z) r, r ∉ map p_request_id l ->
    fold_left (fun s p => <[p_request_id p := p_sequence p]> s) l acc !! r = acc !! r) as Hout.
  { induction l0 as [|q l0 IH]; intros acc r Hr; [done|]. cbn [map fold_left] in *.
    apply not_elem_of_cons in Hr as [Hq Hr]. rewrite IH by done. by apply lookup_insert_ne. }
  induction l as [|q l IH]; intros acc p Hn Hp; [set_solver|]. cbn [map fold_left] in *.
  apply NoDup_cons in Hn as [Hq Hn]. apply elem_of_cons in Hp as [->|Hp].
  - rewrite Hout by done. apply lookup_insert_eq.
  - by apply IH.
Qed.

Lemma trimmed_replay s m r :
  machine_ok m ->
  r ∈ m_replay (replay_trimmed s m)
  <-> r ∈ m_replay m /\ exists p, p ∈ m_pending m /\ p_request_id p = r /\ s < p_sequence p.
Proof.
  intros Hm. unfold replay_trimmed. cbn [m_replay with_replay]. rewrite list_elem_of_filter. split.
  - intros [Hs Hr]. split; [done|]. apply (mo_replay _ Hm) in Hr as (p & Hp & <- & _).
    exists p. rewrite (sequences_lookup _ _ p (mo_requests _ Hm) Hp) in Hs. split_and!; [done|done|lia].
  - intros [Hr (p & Hp & <- & Hs)]. split; [|done].
    rewrite (sequences_lookup _ _ p (mo_requests _ Hm) Hp). lia.
Qed.

Lemma complete_renewal_idle m : m_renewal m <> R_Reconnecting -> complete_renewal m = (true, m, []).
Proof.
  intros Hr. unfold complete_renewal. rewrite gets_bind. unfold id. by rewrite bool_decide_true.
Qed.

(** The machine behind an accepted [SESSION_RECONNECT_OK]. *)
Definition reconnected (s : Z) (m : Machine) : Machine :=
  with_state Ready (with_reconnect_attempts 0
    (replay_prepared (replay_trimmed s (with_transitions (m_transitions m + 1) m)))).

Lemma reconnect_ok_eq s m :
  m_state m = Reconnecting -> m_transitions m + 1 <= max_handshake_transitions (m_config m) ->
  ack_rejected s m = false -> m_renewal m <> R_Reconnecting ->
  reconnect_ok s m
  = (tt, reconnected s m, [F_Event (E_StateChanged Ready); F_Event (E_ReconnectOk s)]).
Proof.
  intros Hs Ht Ha Hr. unfold reconnect_ok, transition_allowed.
  unfold mbind at 1, SM_bind at 1. rewrite gets_bind. unfold id. rewrite Hs, bool_decide_false by tauto.
  unfold mbind at 1, SM_bind at 1, modify at 1.
  rewrite (proj2 (Z.ltb_ge (max_handshake_transitions (m_config m)) (m_transitions m + 1))) by lia.
  cbn [mret SM_ret negb app]. unfold mbind at 1, SM_bind at 1. rewrite accept_eq.
  assert (ack_rejected s (with_transitions (m_transitions m + 1) m) = false) as -> by exact Ha.
  cbn [negb app]. unfold mbind at 1 2, SM_bind at 1 2, trim_replay, prepare_replay, modify at 1 2.
  unfold mbind at 1, SM_bind at 1. rewrite complete_renewal_idle by done.
  unfold set_state, mbind, SM_bind, gets, modify, event, emit, id. cbn [m_state app].
  rewrite bool_decide_false; [done|]. cbn. by rewrite Hs.
Qed.

(** ** Giving up *)

Definition is_connect (e : Effect) : Z := match e with F_Connect _ => 1 | _ => 0 end.

(** [n] attempts to connect that all fail. *)
Fixpoint failing {crc_crate : Crc32cCrate} (n : nat) (m : Machine) : Machine * list Effect :=
  match n with
  | O => (m, [])
  | S n =>
      let '(m, e1) := step m (I_ConnectFailed (m_generation m)) in
      let '(m, e2) := failing n m in
      (m, e1 ++ e2)
  end.

Section Reconnect.
  Context {crc_crate : Crc32cCrate}.

(** One failed attempt while there are attempts left. *)
Lemma connect_failed_again m :
  m_connect_pending m = true -> m_reconnect_attempts m < max_reconnect_attempts (m_config m) ->
  0 <= m_reconnect_attempts m -> m_generation m + 1 < 2 ^ 64 ->
  step m (I_ConnectFailed (m_generation m))
  = (with_generation (m_generation m + 1) (with_connect_pending true
       (with_reconnect_attempts (m_reconnect_attempts m + 1) (with_connect_pending false m))),
     [F_Event (E_TransportFault SE_Disconnected); F_Connect (m_generation m + 1)]).
Proof.
  intros Hp Hlt H0 Hg. unfold step. cbn [run_input]. unfold connect_failed. rewrite gets_bind. unfold id.
  rewrite Z.eqb_refl, Hp. cbn [andb]. unfold begin_reconnect, mbind, SM_bind, modify, event, emit, gets, id.
  cbn [m_config m_reconnect_attempts m_generation with_connect_pending].
  rewrite (proj2 (Z.eqb_neq (max_reconnect_attempts (m_config m)) 0)) by lia.
  rewrite (proj2 (Z.leb_gt (max_reconnect_attempts (m_config m)) (m_reconnect_attempts m))) by lia.
  cbn [orb]. unfold checked_add. by rewrite (proj2 (Z.ltb_lt (m_generation m + 1) (2 ^ 64))).
Qed.

Lemma begin_reconnect_exhausted m :
  max_reconnect_attempts (m_config m) <= m_reconnect_attempts m ->
  begin_reconnect m = fail_terminal SE_ReconnectExhausted m.
Proof.
  intros Hle. unfold begin_reconnect. rewrite gets_bind. unfold id.
  rewrite (proj2 (Z.leb_le (max_reconnect_attempts (m_config m)) (m_reconnect_attempts m))) by done.
  by rewrite orb_true_r.
Qed.

Lemma fail_terminal_ends e m :
  m_terminal_error m = None ->
  m_terminal_error (fail_terminal e m).1.2 = Some e /\ weight is_connect (fail_terminal e m).2 = 0.
Proof.
  intros Ht. rewrite fail_terminal_eq by done. unfold doom_effects.
  assert (forall l, weight is_connect (map (fun p => F_Failed (p_request_id p) (fail_all_error e p)) l) = 0) as Hw.
  { induction l as [|p l IH]; [done|]. cbn [map]. by rewrite weight_cons, IH. }
  unfold set_state. rewrite gets_bind. destruct (bool_decide _); cbn [fst snd mret SM_ret].
  - by rewrite app_nil_r, weight_app, Hw.
  - split; [done|]. unfold mbind, SM_bind, modify, event, emit. cbn [snd app]. rewrite !weight_cons, weight_app, Hw. done.
Qed.

(** The last one. *)
Lemma connect_failed_last m :
  m_connect_pending m = true -> max_reconnect_attempts (m_config m) <= m_reconnect_attempts m ->
  m_terminal_error m = None ->
  m_terminal_error (step m (I_ConnectFailed (m_generation m))).1 = Some SE_ReconnectExhausted
  /\ weight is_connect (step m (I_ConnectFailed (m_generation m))).2 = 0.
Proof.
  intros Hp Hle Ht. unfold step. cbn [run_input]. unfold connect_failed. rewrite gets_bind. unfold id.
  rewrite Z.eqb_refl, Hp. cbn [andb].
  unfold mbind, SM_bind, modify, event, emit. rewrite begin_reconnect_exhausted by done.
  destruct (fail_terminal_ends SE_ReconnectExhausted (with_connect_pending false m) Ht) as [H1 H2].
  destruct (fail_terminal _ _) as [[? ?] es]. cbn in *. by rewrite weight_cons.
Qed.

(** C39. When no connection comes up the session gives up: with [k] attempts
    left it makes exactly [k] more attempts, and the failure of the last one
    ends the session with [ReconnectExhausted]. *)
Theorem reconnect_exhausts k : forall m,
  m_connect_pending m = true -> m_terminal_error m = None -> 0 <= m_reconnect_attempts m ->
  m_reconnect_attempts m + Z.of_nat k = max_reconnect_attempts (m_config m) ->
  m_generation m + Z.of_nat k < 2 ^ 64 ->
  m_terminal_error (failing (S k) m).1 = Some SE_ReconnectExhausted
  /\ weight is_connect (failing (S k) m).2 = Z.of_nat k
  /\ m_terminal_error (failing k m).1 = None.
Proof.
  induction k as [|k IH]; intros m Hp Ht H0 Hk Hg.
  - cbn [failing]. destruct (connect_failed_last m Hp ltac:(lia) Ht) as [H1 H2].
    destruct (step m _) as [m1 e1]. cbn in *. by rewrite app_nil_r.
  - cbn [failing]. rewrite connect_failed_again by (done || lia).
    match goal with |- context [with_generation ?g ?x] => set (m1 := with_generation g x) end.
    destruct (IH m1) as (H1 & H2 & H3); subst m1; cbn in *; try done; try lia.
    destruct (step _ _) as [m2 e2]. destruct (failing k m2) as [m3 e3].
    destruct (failing k _) as [m4 e4]. cbn in *. rewrite !weight_cons. cbn. split_and!; [done|lia|done].
Qed.

(** A session that is reconnected is ready, and of the requests it had
    sent it resends exactly those whose sequence numbers the server has not
    acknowledged, with everything else about them and the order of all
    requests unchanged. *)
Theorem reconnect_replays s m :
  machine_ok m -> m_state m = Reconnecting ->
  m_transitions m + 1 <= max_handshake_transitions (m_config m) ->
  ack_rejected s m = false -> m_renewal m <> R_Reconnecting ->
  let '(m', es) := step m (I_Control (m_generation m) (C_SessionReconnectOk s)) in
  m_state m' = Ready /\ es = [F_Event (E_StateChanged Ready); F_Event (E_ReconnectOk s)]
  /\ (forall r, r ∈ m_replay m' <-> r ∈ m_replay m
        /\ exists p, p ∈ m_pending m /\ p_request_id p = r /\ s < p_sequence p)
  /\ m_pending m' = map (fun p => if bool_decide (p_request_id p ∈ m_replay m') then mark_unsent p else p)
                      (m_pending m).
Proof.
  intros Hm Hs Ht Ha Hr. unfold step. cbn [run_input]. unfold current. rewrite gets_bind. unfold id.
  rewrite Z.eqb_refl. cbn [control]. rewrite reconnect_ok_eq by done. split_and!; try done.
  - intros r. by apply (trimmed_replay s m r).
  - apply prepared_map, Hm.
Qed.
End Reconnect.

(** ** The theorems at work *)

Lemma reconnect_exhausts_witness :
  let m := with_connect_pending true test_machine in
  m_terminal_error (failing (crc_crate := reference_crc) 4 m).1 = Some SE_ReconnectExhausted
  /\ weight is_connect (failing (crc_crate := reference_crc) 4 m).2 = 3
  /\ m_terminal_error (failing (crc_crate := reference_crc) 3 m).1 = None.
Proof. cbv zeta. by apply (reconnect_exhausts (crc_crate := reference_crc) 3). Defined.

Lemma reconnect_replays_witness :
  let '(m', es) := step (crc_crate := reference_crc) test_reconnecting
                     (I_Control (m_generation test_reconnecting) (C_SessionReconnectOk 0)) in
  m_state m' = Ready /\ 7 ∈ m_replay m'.
Proof.
  pose proof (reconnect_replays (crc_crate := reference_crc) 0 test_reconnecting test_reconnecting_ok) as H.
  destruct (step _ _) as [m' es]. destruct H as (H1 & _ & H2 & _); [done|done|done|done|].
  split; [done|]. apply H2. split; [left|]. eexists. split; [left|]. by split.
Defined.
