(* ===== verification/BTree.v ===== *)
(** * Ordered maps

    [std::collections::BTreeMap] as the list of its entries in key order, for
    the maps whose entries the client walks, and the order of strings. *)

From S2P Require Import Prelude.
From Stdlib Require Import ZArith Lia Strings.Byte.
From stdpp Require Import base option gmap sorting numbers list.

Open Scope Z_scope.

Definition bytes_compare : list byte -> list byte -> comparison :=
  fix go a b :=
    match a, b with
    | [], [] => Eq
    | [], _ :: _ => Lt
    | _ :: _, [] => Gt
    | x :: a, y :: b =>
        match Z.compare (Z_of_byte x) (Z_of_byte y) with Eq => go a b | c => c end
    end.

Section BTree.
  Context {K V : Type} (cmp : K -> K -> comparison).

Fixpoint btree_get (k : K) (l : list (K * V)) : option V :=
  match l with
  | [] => None
  | (k', v) :: l =>
      match cmp k k' with Lt => None | Eq => Some v | Gt => btree_get k l end
  end.

Fixpoint btree_insert (k : K) (v : V) (l : list (K * V)) : list (K * V) :=
  match l with
  | [] => [(k, v)]
  | (k', v') :: l' =>
      match cmp k k' with
      | Lt => (k, v) :: l
      | Eq => (k, v) :: l'
      | Gt => (k', v') :: btree_insert k v l'
      end
  end.

(** [remove]. *)
Fixpoint btree_remove (k : K) (l : list (K * V)) : list (K * V) :=
  match l with
  | [] => []
  | (k', v) :: rest =>
      match cmp k k' with
      | Lt => l
      | Eq => rest
      | Gt => (k', v) :: btree_remove k rest
      end
  end.

(** [keys().next_back()]. *)
Definition btree_last_key (l : list (K * V)) : option K := fst <$> last l.

End BTree.

(** ** Integer keys *)

Definition btree_sorted {V} (l : list (Z * V)) : Prop := StronglySorted Z.lt l.*1.

Lemma btree_insert_elem {V} k (v : V) l e :
  e ∈ btree_insert Z.compare k v l -> e = (k, v) \/ e ∈ l.
Proof.
  induction l as [|[k' v'] l IH]; cbn; [set_solver|]. destruct (k ?= k'); set_solver.
Qed.

Lemma btree_insert_sorted {V} k (v : V) l : btree_sorted l -> btree_sorted (btree_insert Z.compare k v l).
Proof.
  unfold btree_sorted. induction l as [|[k' v'] l IH]; cbn; intros Hs; [by repeat constructor|].
  apply StronglySorted_inv in Hs as [Hs Hf]. destruct (Z.compare_spec k k') as [->|Hlt|Hgt]; cbn.
  - by constructor.
  - constructor; [by constructor|]. constructor; [done|]. eapply Forall_impl; [done|]. cbn. lia.
  - constructor; [by apply IH|]. apply Forall_forall. intros x Hx.
    apply list_elem_of_fmap in Hx as ([y w] & -> & Hy). apply btree_insert_elem in Hy as [Hy|Hy]; [by simplify_eq/=|].
    rewrite Forall_forall in Hf. apply Hf. apply list_elem_of_fmap. by exists (y, w).
Qed.

Lemma btree_get_elem {V} k (v : V) l : btree_get Z.compare k l = Some v -> (k, v) ∈ l.
Proof.
  induction l as [|[k' v'] l IH]; cbn; [done|]. destruct (Z.compare_spec k k') as [->| |]; intros G; [|done|].
  - injection G as ->. by left.
  - right. by apply IH.
Qed.

Lemma btree_insert_length {V} k (v : V) l : (length (btree_insert Z.compare k v l) <= S (length l))%nat.
Proof. induction l as [|[k' v'] l IH]; cbn; [lia|]. destruct (k ?= k'); cbn; lia. Qed.

Lemma btree_get_insert_ne {V} k k' (v : V) l :
  k <> k' -> btree_get Z.compare k' (btree_insert Z.compare k v l) = btree_get Z.compare k' l.
Proof.
  intros Hne. induction l as [|[k0 v0] l IH]; cbn; [by destruct (Z.compare_spec k' k)|].
  destruct (Z.compare_spec k k0) as [->|Hlt|Hgt]; cbn.
  - by destruct (Z.compare_spec k' k0).
  - destruct (Z.compare_spec k' k); [done| |done]. destruct (Z.compare_spec k' k0); [lia|done|lia].
  - by rewrite IH.
Qed.

Lemma btree_get_insert_eq {V} k (v : V) l : btree_get Z.compare k (btree_insert Z.compare k v l) = Some v.
Proof.
  induction l as [|[k0 v0] l IH]; cbn; [by rewrite Z.compare_refl|].
  destruct (k ?= k0) eqn:E; cbn; rewrite ?Z.compare_refl; [done|done|by rewrite E].
Qed.

Lemma btree_insert_keeps {V} k (v : V) l e : e ∈ l -> e.1 <> k -> e ∈ btree_insert Z.compare k v l.
Proof.
  induction l as [|[k' v'] l IH]; cbn; [set_solver|]. intros He Hk.
  destruct (Z.compare_spec k k') as [->| |]; set_solver.
Qed.

Lemma btree_insert_new {V} k (v : V) l : (k, v) ∈ btree_insert Z.compare k v l.
Proof. induction l as [|[k' v'] l IH]; cbn; [set_solver|]. destruct (k ?= k'); set_solver. Qed.

Lemma btree_elem_get {V} k (v : V) l : btree_sorted l -> (k, v) ∈ l -> btree_get Z.compare k l = Some v.
Proof.
  unfold btree_sorted. induction l as [|[k' v'] l IH]; cbn; intros Hs He; [set_solver|].
  inversion Hs as [|? ? Hs' Hf]; subst. apply elem_of_cons in He as [He|He].
  - injection He as -> ->. by rewrite Z.compare_refl.
  - rewrite Forall_forall in Hf. assert (k' < k) as Hlt by (apply Hf, list_elem_of_fmap; by exists (k, v)).
    rewrite (proj2 (Z.compare_gt_iff _ _)) by done. by apply IH.
Qed.

(** A key that is not there. *)
Lemma btree_get_None {V} k (l : list (Z * V)) v : btree_sorted l -> btree_get Z.compare k l = None -> (k, v) ∉ l.
Proof. intros Hs Hn He. by rewrite (btree_elem_get _ _ _ Hs He) in Hn. Qed.

(** Inserting a new key adds one entry. *)
Lemma btree_insert_iff {V} k (v : V) l e :
  btree_sorted l -> btree_get Z.compare k l = None -> e ∈ btree_insert Z.compare k v l <-> e = (k, v) \/ e ∈ l.
Proof.
  intros Hs Hn. split; [apply btree_insert_elem|]. intros [->|He]; [apply btree_insert_new|].
  apply btree_insert_keeps; [done|]. destruct e as [k' v']. cbn. intros ->. by apply (btree_get_None _ _ v' Hs Hn).
Qed.

Lemma btree_sorted_NoDup {V} (l : list (Z * V)) : btree_sorted l -> NoDup l.*1.
Proof.
  unfold btree_sorted. generalize l.*1. intros ks. induction 1 as [|k ks Hs IH Hf]; constructor; [|done].
  intros Hk. rewrite Forall_forall in Hf. specialize (Hf _ Hk). lia.
Qed.
