(* ===== verification/MapBase.v ===== *)
(** * What the cluster map decoders share

    Models [src/src/maps/mod.rs]: the errors of the map decoders, their
    limits, and the readers of counts, strings and times that every map uses;
    with [Decoder::string] of [src/src/wire/codec.rs]. *)

From S2P Require Import Prelude Codec Address.
From Stdlib Require Import ZArith Lia Strings.Byte Strings.String.
From stdpp Require Import base option gmap sorting numbers list.

Open Scope Z_scope.

(** ** Text

    A Rust [String] is its UTF-8 bytes. *)

#[export] Program Instance byte_countable : Countable byte :=
  inj_countable' Z_of_byte byte_of_Z _.
Next Obligation. apply byte_of_Z_of_byte. Qed.

(** The bytes of U+FFFD. *)
Definition replacement_character : list byte := [xef; xbf; xbd].

Definition byte_in (b : byte) (lo hi : Z) : bool := (lo <=? Z_of_byte b) && (Z_of_byte b <=? hi).

(** A continuation byte. *)
Definition continues (b : byte) : bool := byte_in b 0x80 0xbf.

(** Whether [b] may follow [a], the first of three bytes. *)
Definition second_of_three (a b : byte) : bool :=
  (byte_in a 0xe0 0xe0 && byte_in b 0xa0 0xbf) || (byte_in a 0xe1 0xec && byte_in b 0x80 0xbf)
  || (byte_in a 0xed 0xed && byte_in b 0x80 0x9f) || (byte_in a 0xee 0xef && byte_in b 0x80 0xbf).

(** Whether [b] may follow [a], the first of four bytes. *)
Definition second_of_four (a b : byte) : bool :=
  (byte_in a 0xf0 0xf0 && byte_in b 0x90 0xbf) || (byte_in a 0xf1 0xf3 && byte_in b 0x80 0xbf)
  || (byte_in a 0xf4 0xf4 && byte_in b 0x80 0x8f).

(** [String::from_utf8_lossy]: every maximal part of an ill-formed sequence
    becomes one replacement character. *)
Fixpoint from_utf8_lossy (l : list byte) : list byte :=
  match l with
  | [] => []
  | a :: l1 =>
      if byte_in a 0 0x7f then a :: from_utf8_lossy l1
      else if byte_in a 0xc2 0xdf then
        match l1 with
        | b :: l2 =>
            if continues b then a :: b :: from_utf8_lossy l2
            else replacement_character ++ from_utf8_lossy l1
        | [] => replacement_character
        end
      else if byte_in a 0xe0 0xef then
        match l1 with
        | b :: l2 =>
            if negb (second_of_three a b) then replacement_character ++ from_utf8_lossy l1
            else
              match l2 with
              | c :: l3 =>
                  if continues c then a :: b :: c :: from_utf8_lossy l3
                  else replacement_character ++ from_utf8_lossy l2
              | [] => replacement_character
              end
        | [] => replacement_character
        end
      else if byte_in a 0xf0 0xf4 then
        match l1 with
        | b :: l2 =>
            if negb (second_of_four a b) then replacement_character ++ from_utf8_lossy l1
            else
              match l2 with
              | c :: l3 =>
                  if negb (continues c) then replacement_character ++ from_utf8_lossy l2
                  else
                    match l3 with
                    | d :: l4 =>
                        if continues d then a :: b :: c :: d :: from_utf8_lossy l4
                        else replacement_character ++ from_utf8_lossy l3
                    | [] => replacement_character
                    end
              | [] => replacement_character
              end
        | [] => replacement_character
        end
      else replacement_character ++ from_utf8_lossy l1
  end.

Definition Decoder_string (d : Decoder) : list byte * Decoder :=
  let '(bytes, d) := Decoder_bytes d in (from_utf8_lossy bytes, d).

(** ** Errors and limits *)

Inductive MapError : Type :=
| ME_Wire (e : WireError)
| ME_Malformed (reason : string)
| ME_UnsupportedPlacement (reason : string)
| ME_InvalidSequence
| ME_FsidMismatch
| ME_LockPoisoned.

Record MapLimits : Type := mkMapLimits {
  ml_bytes : Z;
  ml_monitors : Z;
  ml_addresses : Z;
  ml_locations : Z;
  ml_pools : Z;
  ml_osds : Z;
  ml_pg_mappings : Z;
  ml_collection_entries : Z
}.

Record UTime : Type := mkUTime { seconds : Z; nanoseconds : Z }.

#[export] Instance UTime_eq_dec : EqDecision UTime.
Proof. solve_decision. Defined.

(** ** Readers *)

Abbreviation MapM := (DM MapError).

(** [?] with [From<WireError> for MapError]. *)
Definition wire_map {A} (m : DM WireError A) : MapM A := fun d => map_err ME_Wire (m d).

(** [decoder.finish()?]. *)
Definition finished : MapM unit := finish_with ME_Wire.

(** [let (version, payload) = decoder.versioned(local); decoder.finish()?], and
    the rejection of versions below [least]. *)
Definition open_versioned (local least : Z) : MapM (Z * Decoder) :=
  vp ← rd (fun d => Decoder_versioned d local);
  _ ← finished;
  _ ← throw_if (vp.1 <? least) (ME_Wire (UnsupportedVersion local least));
  mret vp.

(** Reads in a nested decoder, whose rest is dropped. *)
Definition inside {E A} (payload : Decoder) (m : DM E A) : DM E A :=
  lift ('(a, _) ← m payload; Ok a).

Definition bounded_count (maximum minimum_bytes : Z) : MapM Z :=
  count ← rd Decoder_u32;
  _ ← finished;
  _ ← throw_if (maximum <? count) (ME_Wire LimitExceeded);
  left_ ← remaining;
  _ ← throw_if (negb (minimum_bytes =? 0) && (left_ / minimum_bytes <? count)) (ME_Wire Malformed);
  mret count.

(** [for _ in 0..n { entry; if map.insert(key, value).is_some() { return Err(duplicate) } }]. *)
Fixpoint read_entries {K V} `{Countable K} (n : nat) (entry : MapM (K * V)) (duplicate : MapError)
    (acc : gmap K V) : MapM (gmap K V) :=
  match n with
  | O => mret acc
  | S n =>
      kv ← entry;
      _ ← throw_if (bool_decide (is_Some (acc !! kv.1))) duplicate;
      read_entries n entry duplicate (<[kv.1 := kv.2]> acc)
  end.

(** A counted map, read to its end. *)
Definition read_map {K V} `{Countable K} (maximum minimum_bytes : Z) (entry : MapM (K * V))
    (duplicate : MapError) : MapM (gmap K V) :=
  count ← bounded_count maximum minimum_bytes;
  m ← read_entries (Z.to_nat count) entry duplicate ∅;
  _ ← finished;
  mret m.

(** A counted list, read to its end. *)
Definition read_list {A} (maximum minimum_bytes : Z) (item : MapM A) : MapM (list A) :=
  count ← bounded_count maximum minimum_bytes;
  l ← repeat_read (Z.to_nat count) item;
  _ ← finished;
  mret l.

(** A counted list without repetitions, read to its end. *)
Fixpoint read_distinct {A} `{EqDecision A} (n : nat) (item : MapM A) (duplicate : MapError)
    (acc : list A) : MapM (list A) :=
  match n with
  | O => mret acc
  | S n =>
      a ← item;
      _ ← throw_if (bool_decide (a ∈ acc)) duplicate;
      read_distinct n item duplicate (acc ++ [a])
  end.

Definition read_set {A} `{EqDecision A} (maximum minimum_bytes : Z) (item : MapM A)
    (duplicate : MapError) : MapM (list A) :=
  count ← bounded_count maximum minimum_bytes;
  l ← read_distinct (Z.to_nat count) item duplicate [];
  _ ← finished;
  mret l.

Definition decode_utime : MapM UTime :=
  s ← rd Decoder_u32;
  n ← rd Decoder_u32;
  mret (mkUTime s n).

Definition decode_strings (maximum : Z) : MapM (list (list byte)) :=
  read_list maximum 4 (rd Decoder_string).

Definition decode_u32s (maximum : Z) : MapM (list Z) := read_list maximum 4 (rd Decoder_u32).

Definition require_timestamp (t : UTime) : result MapError UTime :=
  if 1000000000 <=? nanoseconds t then Err (ME_Malformed "invalid timestamp") else Ok t.

(** [decoder.raw(16).try_into()?]. *)
Definition decode_fsid : MapM (list byte) :=
  bytes ← rd (fun d => Decoder_raw d 16);
  _ ← throw_if (negb (zlen bytes =? 16)) (ME_Wire Malformed);
  mret bytes.

(** [EntityAddrVec::decode(decoder, maximum)?]. *)
Definition decode_addresses (maximum : Z) : MapM (list EntityAddr) :=
  wire_map (EntityAddrVec_decode maximum).

Lemma inside_inv {E A} payload (m : DM E A) d a d' :
  inside payload m d = Ok (a, d') -> d' = d /\ exists p', m payload = Ok (a, p').
Proof.
  unfold inside. intros H. apply lift_inv in H as [H ->]. apply bind_inv in H as ([b p'] & H & Hb).
  apply Ok_inj in Hb as <-. split; [done|]. by exists p'.
Qed.
