(* ===== verification/Text.v ===== *)
(** * Text

    Strings of the client are lists of bytes in UTF-8.  This file has the
    functions of the standard library the client parses and prints text with:
    characters, trimming, splitting, lines, numbers. *)

From S2P Require Import Prelude Codec MapBase.
From Stdlib Require Import ZArith Lia Strings.Byte Strings.String.
From stdpp Require Import base option gmap sorting numbers list.

Open Scope Z_scope.

(** A string literal. *)
Definition str (s : string) : list byte := list_byte_of_string s.

(** ** Numbers *)

Definition digit (d : Z) : byte := byte_of_Z (if d <? 10 then 48 + d else 87 + d).

(** The digits of [n] in [base], at most [fuel] of them. *)
Fixpoint digits (fuel : nat) (base n : Z) : list byte :=
  match fuel with
  | O => []
  | S fuel => (if n <? base then [] else digits fuel base (n / base)) ++ [digit (n mod base)]
  end.

Definition text_join (separator : list byte) (parts : list (list byte)) : list byte :=
  match parts with
  | [] => []
  | part :: parts => part ++ concat ((fun p => separator ++ p) <$> parts)
  end.

(** The value of a digit in bases up to 16. *)
Definition digit_value (base : Z) (b : byte) : option Z :=
  let c := Z_of_byte b in
  let v := if (48 <=? c) && (c <=? 57) then c - 48
           else if (97 <=? c) && (c <=? 102) then c - 87
           else if (65 <=? c) && (c <=? 70) then c - 55
           else base in
  if v <? base then Some v else None.

(** The digits of a number, accumulated while they stay below [bound]. *)
Fixpoint parse_digits (base bound acc : Z) (text : list byte) : option Z :=
  match text with
  | [] => Some acc
  | b :: text =>
      d ← digit_value base b;
      if base * acc + d <? bound then parse_digits base bound (base * acc + d) text else None
  end.

(** Digits, at least one. *)
Definition parse_number (base bound : Z) (text : list byte) : option Z :=
  match text with [] => None | _ => parse_digits base bound 0 text end.

Definition plus_sign : byte := x2b.
Definition minus_sign : byte := x2d.
Definition dot : byte := x2e.

(** [str::parse::<i64>]. *)
Definition parse_i64 (text : list byte) : option Z :=
  match text with
  | b :: rest =>
      if bool_decide (b = plus_sign) then parse_number 10 (2 ^ 63) rest
      else if bool_decide (b = minus_sign) then Z.opp <$> parse_number 10 (2 ^ 63 + 1) rest
      else parse_number 10 (2 ^ 63) text
  | [] => None
  end.

(** [u32::from_str_radix(text, 16)]. *)
Definition parse_hex_u32 (text : list byte) : option Z :=
  match text with
  | b :: rest =>
      if bool_decide (b = plus_sign) then parse_number 16 (2 ^ 32) rest
      else parse_number 16 (2 ^ 32) text
  | [] => None
  end.


(** [str::parse] of an unsigned type of [w] bits. *)
Definition parse_unsigned (w : Z) (text : list byte) : option Z :=
  match text with
  | b :: rest =>
      if bool_decide (b = plus_sign) then parse_number 10 (2 ^ w) rest
      else parse_number 10 (2 ^ w) text
  | [] => None
  end.

Definition is_ascii_digit (b : byte) : bool := byte_in b 48 57.

Definition is_ascii_hexdigit (b : byte) : bool := byte_in b 48 57 || byte_in b 97 102 || byte_in b 65 70.

(** ** Characters *)

(** [str::from_utf8]: a string is valid when nothing in it has to be replaced. *)
Definition from_utf8 (l : list byte) : option (list byte) :=
  if bool_decide (from_utf8_lossy l = l) then Some l else None.

(** The length of a character, from its first byte. *)
Definition char_width (b : byte) : nat :=
  if byte_in b 0 0x7f then 1 else if byte_in b 0 0xdf then 2 else if byte_in b 0 0xef then 3 else 4.

Fixpoint chars_loop (fuel : nat) (l : list byte) : list (list byte) :=
  match fuel, l with
  | S fuel, b :: _ => take (char_width b) l :: chars_loop fuel (drop (char_width b) l)
  | _, _ => []
  end.

(** A character has a byte at least, so that the length is enough fuel. *)
Definition chars (l : list byte) : list (list byte) := chars_loop (length l) l.

(** [char::is_whitespace]: the encodings of the characters with the property
    White_Space. *)
Definition is_whitespace (c : list byte) : bool :=
  match c with
  | [a] => byte_in a 0x09 0x0d || byte_in a 0x20 0x20
  | [a; b] => byte_in a 0xc2 0xc2 && (byte_in b 0x85 0x85 || byte_in b 0xa0 0xa0)
  | [a; b; c] =>
      (byte_in a 0xe1 0xe1 && byte_in b 0x9a 0x9a && byte_in c 0x80 0x80)
      || (byte_in a 0xe2 0xe2 && byte_in b 0x80 0x80
          && (byte_in c 0x80 0x8a || byte_in c 0xa8 0xa9 || byte_in c 0xaf 0xaf))
      || (byte_in a 0xe2 0xe2 && byte_in b 0x81 0x81 && byte_in c 0x9f 0x9f)
      || (byte_in a 0xe3 0xe3 && byte_in b 0x80 0x80 && byte_in c 0x80 0x80)
  | _ => false
  end.

Fixpoint drop_while {A} (p : A -> bool) (l : list A) : list A :=
  match l with
  | [] => []
  | x :: l' => if p x then drop_while p l' else l
  end.

(** [trim_matches] on characters. *)
Definition trim_chars {A} (p : A -> bool) (l : list A) : list A := reverse (drop_while p (reverse (drop_while p l))).

Definition trim (l : list byte) : list byte := concat (trim_chars is_whitespace (chars l)).

Definition to_ascii_lowercase (l : list byte) : list byte :=
  (fun b => if byte_in b 65 90 then byte_of_Z (Z_of_byte b + 32) else b) <$> l.

(** The longest prefix whose bytes satisfy [p], and what follows. *)
Fixpoint span (p : byte -> bool) (l : list byte) : list byte * list byte :=
  match l with
  | [] => ([], [])
  | b :: rest => if p b then let (x, y) := span p rest in (b :: x, y) else ([], l)
  end.

(** ** Splitting *)

Definition starts_with (prefix l : list byte) : bool := bool_decide (take (length prefix) l = prefix).

Definition ends_with (suffix l : list byte) : bool :=
  bool_decide (drop (length l - length suffix) l = suffix) && (length suffix <=? length l)%nat.

Definition strip_prefix_bytes (prefix l : list byte) : option (list byte) :=
  if starts_with prefix l then Some (drop (length prefix) l) else None.

Definition strip_suffix_bytes (suffix l : list byte) : option (list byte) :=
  if ends_with suffix l then Some (take (length l - length suffix) l) else None.

(** [split_once] and [rsplit_once] at an ASCII character. *)
Fixpoint split_once (c : byte) (l : list byte) : option (list byte * list byte) :=
  match l with
  | [] => None
  | b :: l =>
      if bool_decide (b = c) then Some ([], l)
      else '(x, y) ← split_once c l; Some (b :: x, y)
  end.

Definition rsplit_once (c : byte) (l : list byte) : option (list byte * list byte) :=
  '(x, y) ← split_once c (reverse l); Some (reverse y, reverse x).

(** [split] at the elements with [p]: one piece more than there are of them. *)
Fixpoint split_at {A} (p : A -> bool) (l : list A) : list (list A) :=
  match l with
  | [] => [[]]
  | x :: l =>
      if p x then [] :: split_at p l
      else match split_at p l with
           | piece :: pieces => (x :: piece) :: pieces
           | [] => [[x]]
           end
  end.

Definition count_byte (c : byte) (l : list byte) : nat := length (filter (fun b => b = c) l).

(** [split_inclusive] at line feeds. *)
Fixpoint split_lines (l : list byte) : list (list byte) :=
  match l with
  | [] => []
  | b :: l =>
      if bool_decide (b = x0a) then [b] :: split_lines l
      else match split_lines l with
           | line :: lines => (b :: line) :: lines
           | [] => [[b]]
           end
  end.

(** [str::lines]. *)
Definition lines (l : list byte) : list (list byte) :=
  (fun line =>
     match strip_suffix_bytes [x0a] line with
     | None => line
     | Some line => default line (strip_suffix_bytes [x0d] line)
     end) <$> split_lines l.

(** [split_whitespace]. *)
Definition split_whitespace (l : list byte) : list (list byte) :=
  filter (fun w => w <> []) ((fun w => concat w) <$> split_at is_whitespace (chars l)).

(** ** Lemmas on numbers *)

Definition is_digit (base : Z) (b : byte) : Prop := exists d, 0 <= d < base /\ b = digit d.

Lemma Z_of_digit d : 0 <= d < 16 -> Z_of_byte (digit d) = if d <? 10 then 48 + d else 87 + d.
Proof.
  intros Hd. unfold digit. rewrite Z_of_byte_of_Z. apply Z.mod_small. destruct (d <? 10) eqn:E; lia.
Qed.

Lemma digit_value_digit base d : 0 <= d < base -> base <= 16 -> digit_value base (digit d) = Some d.
Proof.
  intros Hd Hb. unfold digit_value. rewrite Z_of_digit by lia. cbv zeta.
  assert (forall v, v = d -> (if v <? base then Some v else None) = Some d) as Hv.
  { intros v ->. by rewrite (proj2 (Z.ltb_lt d base)) by lia. }
  apply Hv. destruct (Z.ltb_spec d 10).
  - rewrite (proj2 (Z.leb_le 48 _)), (proj2 (Z.leb_le _ 57)) by lia. cbn [andb]. lia.
  - rewrite (proj2 (Z.leb_gt (87 + d) 57)), andb_false_r by lia.
    rewrite (proj2 (Z.leb_le 97 _)), (proj2 (Z.leb_le _ 102)) by lia. cbn [andb]. lia.
Qed.

Lemma digits_are_digits fuel base : forall n,
  0 < base -> 0 <= n -> Forall (is_digit base) (digits fuel base n).
Proof.
  induction fuel as [|fuel IH]; intros n Hb Hn; cbn [digits]; [constructor|].
  apply Forall_app. split.
  - destruct (n <? base); [constructor|]. apply IH; [done|]. by apply Z.div_pos.
  - constructor; [|constructor]. exists (n mod base). split; [by apply Z.mod_pos_bound|done].
Qed.

Lemma parse_digits_app base bound text1 text2 : forall acc,
  parse_digits base bound acc (text1 ++ text2)
  = (acc ← parse_digits base bound acc text1; parse_digits base bound acc text2).
Proof.
  induction text1 as [|b text1 IH]; intros acc; [done|]. cbn [app parse_digits].
  destruct (digit_value base b) as [d|]; [|done]. cbn. destruct (_ <? bound); [apply IH|done].
Qed.

Lemma parse_digits_digits base bound fuel : forall n,
  2 <= base <= 16 -> 0 <= n < bound -> n < base ^ Z.of_nat fuel ->
  parse_digits base bound 0 (digits fuel base n) = Some n.
Proof.
  induction fuel as [|fuel IH]; intros n Hb Hn Hf; cbn [digits].
  { change (base ^ Z.of_nat 0) with 1 in Hf. cbn. f_equal. lia. }
  rewrite Nat2Z.inj_succ, Z.pow_succ_r in Hf by lia. rewrite parse_digits_app.
  pose proof (Z.div_mod n base). pose proof (Z.mod_pos_bound n base).
  assert (0 <= n / base) by (apply Z.div_pos; lia).
  assert (parse_digits base bound 0 (if n <? base then [] else digits fuel base (n / base))
          = Some (n / base)) as ->.
  { destruct (Z.ltb_spec n base); [cbn; f_equal; rewrite Z.div_small; [done|lia]|].
    apply IH; [done| |apply Z.div_lt_upper_bound; lia]. split; [done|]. nia. }
  change (Some ?x ≫= ?f) with (f x). cbv beta. cbn [parse_digits].
  rewrite digit_value_digit by lia. cbn. rewrite (proj2 (Z.ltb_lt _ _)) by lia. f_equal. lia.
Qed.

Lemma digits_nonempty fuel base n : (0 < fuel)%nat -> digits fuel base n <> [].
Proof. destruct fuel; [lia|]. intros _. cbn [digits]. intros H. by apply app_eq_nil in H as [_ H]. Qed.

Lemma digit_not base d (b : byte) : 0 <= d < base -> base <= 16 ->
  (Z_of_byte b < 48 \/ 57 < Z_of_byte b < 97 \/ 102 < Z_of_byte b) -> digit d <> b.
Proof. intros Hd Hb H <-. rewrite Z_of_digit in H by lia. destruct (Z.ltb_spec d 10); lia. Qed.

(** Text that consists of digits contains none of the bytes the parser looks
    for. *)
Lemma digits_avoid base text b :
  base <= 16 -> Forall (is_digit base) text ->
  (Z_of_byte b < 48 \/ 57 < Z_of_byte b < 97 \/ 102 < Z_of_byte b) -> b ∉ text.
Proof.
  intros Hb Hd H Hin. rewrite Forall_forall in Hd. destruct (Hd _ Hin) as (d & Hr & ->).
  by eapply digit_not.
Qed.

Lemma parse_i64_digits n : 0 <= n < 2 ^ 63 -> parse_i64 (digits 19 10 n) = Some n.
Proof.
  intros Hn. pose proof (digits_are_digits 19 10 n ltac:(lia) ltac:(lia)) as Hd.
  pose proof (digits_nonempty 19 10 n ltac:(lia)) as Hne.
  pose proof (parse_digits_digits 10 (2 ^ 63) 19 n ltac:(lia) ltac:(lia) ltac:(lia)) as Hp.
  destruct (digits 19 10 n) as [|b text]; [done|]. unfold parse_i64, parse_number.
  apply Forall_cons in Hd as [(d & Hr & ->) _].
  rewrite !bool_decide_eq_false_2; [done| |]; (eapply digit_not; [exact Hr|lia|left; done]).
Qed.

Lemma parse_hex_digits n : 0 <= n < 2 ^ 32 -> parse_hex_u32 (digits 8 16 n) = Some n.
Proof.
  intros Hn. pose proof (digits_are_digits 8 16 n ltac:(lia) ltac:(lia)) as Hd.
  pose proof (digits_nonempty 8 16 n ltac:(lia)) as Hne.
  pose proof (parse_digits_digits 16 (2 ^ 32) 8 n ltac:(lia) ltac:(lia) ltac:(lia)) as Hp.
  destruct (digits 8 16 n) as [|b text]; [done|]. unfold parse_hex_u32, parse_number.
  apply Forall_cons in Hd as [(d & Hr & ->) _].
  rewrite bool_decide_eq_false_2; [done|]. eapply digit_not; [exact Hr|lia|left; done].
Qed.


(** ** Lemmas on ASCII text *)

Definition is_ascii (b : byte) : bool := byte_in b 0 0x7f.

(** ASCII text without line breaks or other control characters. *)
Definition printable (b : byte) : bool := byte_in b 0x20 0x7e.

(** Characters that are never trimmed. *)
Definition visible (b : byte) : bool := byte_in b 0x21 0x7e.

Lemma byte_in_mono b lo hi lo' hi' : lo' <= lo -> hi <= hi' -> byte_in b lo hi = true -> byte_in b lo' hi' = true.
Proof. unfold byte_in. rewrite !andb_true_iff, !Z.leb_le. lia. Qed.

Lemma byte_in_disjoint b lo hi lo' hi' :
  hi < lo' \/ hi' < lo -> byte_in b lo hi = true -> byte_in b lo' hi' = false.
Proof. unfold byte_in. rewrite andb_true_iff, andb_false_iff, !Z.leb_le, !Z.leb_gt. lia. Qed.

Lemma visible_ascii b : visible b = true -> is_ascii b = true.
Proof. by apply byte_in_mono. Qed.

Lemma printable_ascii b : printable b = true -> is_ascii b = true.
Proof. by apply byte_in_mono. Qed.

Lemma from_utf8_ascii l : Forall (fun b => is_ascii b = true) l -> from_utf8 l = Some l.
Proof.
  intros H. unfold from_utf8. rewrite bool_decide_true; [done|].
  induction H as [|b l Hb _ IH]; [done|]. cbn [from_utf8_lossy]. unfold is_ascii in Hb. by rewrite Hb, IH.
Qed.

Lemma chars_ascii l : Forall (fun b => is_ascii b = true) l -> chars l = (fun b => [b]) <$> l.
Proof.
  unfold chars. induction 1 as [|b l Hb _ IH]; [done|]. cbn [length chars_loop].
  assert (char_width b = 1%nat) as -> by (unfold char_width; unfold is_ascii in Hb; by rewrite Hb).
  change (drop 1 (b :: l)) with (drop 0 l). change (take 1 (b :: l)) with [b]. by rewrite drop_0, IH.
Qed.

Lemma drop_while_fmap {A B} (f : A -> B) p l : drop_while p (f <$> l) = f <$> drop_while (fun x => p (f x)) l.
Proof. induction l as [|x l IH]; [done|]. cbn. by destruct (p (f x)). Qed.

Lemma trim_chars_fmap {A B} (f : A -> B) p l : trim_chars p (f <$> l) = f <$> trim_chars (fun x => p (f x)) l.
Proof.
  unfold trim_chars. rewrite drop_while_fmap, <- fmap_reverse, drop_while_fmap, <- fmap_reverse. done.
Qed.

Definition is_space (b : byte) : bool := is_whitespace [b].

Lemma concat_singletons {A} (l : list A) : concat ((fun x => [x]) <$> l) = l.
Proof. induction l as [|x l IH]; [done|]. cbn. by rewrite IH. Qed.

Lemma trim_ascii l : Forall (fun b => is_ascii b = true) l -> trim l = trim_chars is_space l.
Proof. intros H. unfold trim. rewrite chars_ascii, trim_chars_fmap by done. apply concat_singletons. Qed.

Lemma trim_chars_cons {A} (p : A -> bool) x l : p x = true -> trim_chars p (x :: l) = trim_chars p l.
Proof. intros H. unfold trim_chars. cbn. by rewrite H. Qed.

Lemma drop_while_id {A} (p : A -> bool) l : (forall x, head l = Some x -> p x = false) -> drop_while p l = l.
Proof. destruct l as [|x l]; [done|]. intros H. cbn. by rewrite H. Qed.

Lemma trim_chars_id {A} (p : A -> bool) l :
  (forall x, head l = Some x -> p x = false) -> (forall x, last l = Some x -> p x = false) -> trim_chars p l = l.
Proof.
  intros Hh Hl. unfold trim_chars. rewrite (drop_while_id p l) by done. rewrite drop_while_id.
  - apply reverse_involutive.
  - intros x Hx. apply Hl. by rewrite head_reverse in Hx.
Qed.

Lemma visible_no_space b : visible b = true -> is_space b = false.
Proof.
  intros H. unfold is_space, is_whitespace, visible in *.
  by rewrite !(byte_in_disjoint b 0x21 0x7e) by (lia || done).
Qed.

Lemma split_once_app c x y : c ∉ x -> split_once c (x ++ c :: y) = Some (x, y).
Proof.
  induction x as [|b x IH]; intros H; cbn; [by rewrite bool_decide_true|].
  rewrite bool_decide_false by set_solver. by rewrite IH by set_solver.
Qed.

Lemma split_lines_app l rest : x0a ∉ l -> split_lines (l ++ x0a :: rest) = (l ++ [x0a]) :: split_lines rest.
Proof.
  induction l as [|b l IH]; intros H; [done|]. cbn [app split_lines].
  rewrite bool_decide_false by set_solver. by rewrite IH by set_solver.
Qed.

Lemma ends_with_app l s : ends_with s (l ++ s) = true.
Proof.
  unfold ends_with. rewrite length_app. replace (length l + length s - length s)%nat with (length l) by lia.
  rewrite drop_app_length, bool_decide_true by done. cbn. apply Nat.leb_le. lia.
Qed.

Lemma strip_suffix_app l s : strip_suffix_bytes s (l ++ s) = Some l.
Proof.
  unfold strip_suffix_bytes. rewrite ends_with_app, length_app. f_equal.
  replace (length l + length s - length s)%nat with (length l) by lia. apply take_app_length.
Qed.

Lemma strip_suffix_not_in c l : c ∉ l -> strip_suffix_bytes [c] l = None.
Proof.
  intros H. unfold strip_suffix_bytes, ends_with. destruct (bool_decide_reflect (drop (length l - length [c]) l = [c])) as [E|]; [|done].
  destruct H. rewrite <- (take_drop (length l - length [c]) l), E. set_solver.
Qed.

(** A line of a text. *)
Lemma lines_cons l rest : x0a ∉ l -> x0d ∉ l -> lines (l ++ x0a :: rest) = l :: lines rest.
Proof.
  intros Hn Hr. unfold lines. rewrite split_lines_app by done. cbn [fmap list_fmap]. f_equal.
  by rewrite strip_suffix_app, strip_suffix_not_in.
Qed.

Lemma starts_with_app p l : starts_with p (p ++ l) = true.
Proof. unfold starts_with. by rewrite take_app_length, bool_decide_true. Qed.

Lemma count_byte_app c l k : count_byte c (l ++ k) = (count_byte c l + count_byte c k)%nat.
Proof. unfold count_byte. by rewrite filter_app, length_app. Qed.

Lemma count_byte_absent c l : c ∉ l -> count_byte c l = 0%nat.
Proof.
  unfold count_byte. induction l as [|b l IH]; intros H; [done|]. rewrite filter_cons_False by set_solver.
  apply IH. set_solver.
Qed.

Lemma Forall_visible_not_in b l : Forall (fun b => visible b = true) l -> visible b = false -> b ∉ l.
Proof. rewrite Forall_forall. intros H Hb Hin. by rewrite (H _ Hin) in Hb. Qed.

Lemma trim_lead w l :
  is_space w = true -> is_ascii w = true -> Forall (fun b => is_ascii b = true) l -> trim (w :: l) = trim l.
Proof. intros Hw Ha Hl. rewrite !trim_ascii by (done || by constructor). by apply trim_chars_cons. Qed.

Lemma trim_id l :
  Forall (fun b => is_ascii b = true) l -> (forall x, head l = Some x -> visible x = true) ->
  (forall x, last l = Some x -> visible x = true) -> trim l = l.
Proof.
  intros Hl Hh He. rewrite trim_ascii by done.
  apply trim_chars_id; intros x Hx; apply visible_no_space; [by apply Hh|by apply He].
Qed.

Lemma visible_trim l : Forall (fun b => visible b = true) l -> trim l = l.
Proof.
  intros H. rewrite Forall_forall in H. apply trim_id.
  - apply Forall_forall. intros b Hb. by apply visible_ascii, H.
  - intros x Hx. apply H. destruct l; [done|]. injection Hx as ->. by left.
  - intros x Hx. by apply H, last_Some_elem_of.
Qed.

Lemma trim_snoc w l :
  is_space w = true -> is_ascii w = true -> Forall (fun b => is_ascii b = true) l -> l <> [] ->
  (forall x, head l = Some x -> visible x = true) -> (forall x, last l = Some x -> visible x = true) ->
  trim (l ++ [w]) = l.
Proof.
  intros Hw Ha Hl Hne Hh He. rewrite trim_ascii by (apply Forall_app_2; [done|by apply Forall_singleton]).
  unfold trim_chars. rewrite (drop_while_id _ (l ++ [w])).
  2:{ intros x Hx. apply visible_no_space, Hh. by destruct l. }
  rewrite reverse_snoc. cbn [drop_while]. rewrite Hw. rewrite drop_while_id; [by rewrite reverse_involutive|].
  intros x Hx. rewrite head_reverse in Hx. by apply visible_no_space, He.
Qed.

(** A text put together from lines. *)
Lemma lines_concat ls :
  Forall (fun l => x0a ∉ l /\ x0d ∉ l) ls -> lines (concat ((fun l => l ++ [x0a]) <$> ls)) = ls.
Proof.
  induction 1 as [|l ls [H1 H2] _ IH]; [done|]. cbn [fmap list_fmap concat]. rewrite <- app_assoc. cbn [app].
  by rewrite lines_cons, IH.
Qed.

Lemma line_short ls : Forall (fun l => zlen l <= zlen (concat ((fun l => l ++ [x0a]) <$> ls))) ls.
Proof.
  induction ls as [|l ls IH]; constructor; cbn [fmap list_fmap concat]; rewrite !zlen_app.
  - pose proof (zlen_nonneg (concat ((fun l => l ++ [x0a]) <$> ls))). pose proof (zlen_nonneg [x0a]). lia.
  - eapply Forall_impl; [exact IH|]. cbv beta. intros k Hk. pose proof (zlen_nonneg l). pose proof (zlen_nonneg [x0a]). lia.
Qed.
