(* ===== verification/IpText.v ===== *)
(** * The text of network addresses

    The printing and parsing of IP addresses and socket addresses by the
    standard library, on which the client relies for the addresses of watchers
    and lock holders and for the seeds of its monitors. *)

From S2P Require Import Prelude Codec Address MapBase Text.
From Stdlib Require Import ZArith Lia Strings.Byte Strings.String.
From stdpp Require Import base option gmap sorting numbers list.

Open Scope Z_scope.

(** ** Printing

    [SocketAddr]'s [Display]: an IPv4 address in dotted decimal, an IPv6
    address in lower-case hexadecimal with its first longest run of zero
    segments elided. *)

Definition ipv4_text (octets : list byte) : list byte :=
  text_join (list_byte_of_string ".") (digits 3 10 ∘ Z_of_byte <$> octets).

(** [Ipv6Addr::segments]. *)
Fixpoint segments_of (octets : list byte) : list Z :=
  match octets with
  | a :: b :: octets => (256 * Z_of_byte a + Z_of_byte b) :: segments_of octets
  | _ => []
  end.

Record Span : Type := mkSpan { span_start : nat; span_len : nat }.

(** The first longest run of zero segments, from segment [i] on. *)
Fixpoint longest_zeros (i : nat) (segments : list Z) (longest current : Span) : Span :=
  match segments with
  | [] => longest
  | s :: segments =>
      if s =? 0 then
        let start := if (span_len current =? 0)%nat then i else span_start current in
        let current := mkSpan start (S (span_len current)) in
        longest_zeros (S i) segments
          (if (span_len longest <? span_len current)%nat then current else longest) current
      else longest_zeros (S i) segments longest (mkSpan 0 0)
  end.

Definition segments_text (segments : list Z) : list byte :=
  text_join (list_byte_of_string ":") (digits 4 16 <$> segments).

(** [to_ipv4_mapped]. *)
Definition ipv4_mapped (octets : list byte) : option (list byte) :=
  if bool_decide (take 12 octets = replicate 10 x00 ++ [xff; xff]) then Some (drop 12 octets) else None.

Definition ipv6_text (octets : list byte) : list byte :=
  match ipv4_mapped octets with
  | Some ipv4 => list_byte_of_string "::ffff:" ++ ipv4_text ipv4
  | None =>
      let segments := segments_of octets in
      let zeros := longest_zeros 0 segments (mkSpan 0 0) (mkSpan 0 0) in
      if (1 <? span_len zeros)%nat then
        segments_text (take (span_start zeros) segments) ++ list_byte_of_string "::"
        ++ segments_text (drop (span_start zeros + span_len zeros) segments)
      else segments_text segments
  end.

Definition SocketAddr_to_string (a : SocketAddr) : list byte :=
  match a with
  | SA_V4 octets port => ipv4_text octets ++ list_byte_of_string ":" ++ digits 5 10 port
  | SA_V6 octets port =>
      list_byte_of_string "[" ++ ipv6_text octets ++ list_byte_of_string "]:" ++ digits 5 10 port
  end.

Inductive IpAddr : Type :=
| Ip4 (octets : list byte)
| Ip6 (octets : list byte).

Definition IpAddr_to_string (a : IpAddr) : list byte :=
  match a with
  | Ip4 octets => ipv4_text octets
  | Ip6 octets => ipv6_text octets
  end.

(** ** Parsing

    The recursive descent of [core::net::parser].  A reader that fails leaves
    its input as it was. *)

Definition Reader (A : Type) : Type := list byte -> option (A * list byte).

Definition read_given_char (c : byte) (l : list byte) : option (list byte) :=
  match l with
  | b :: l => if bool_decide (b = c) then Some l else None
  | [] => None
  end.

Definition is_radix_digit (radix : Z) (b : byte) : bool := bool_decide (is_Some (digit_value radix b)).

(** [read_number] of a value below [bound]. *)
Definition read_number (radix : Z) (max_digits : option nat) (allow_zero_prefix : bool) (bound : Z) : Reader Z := fun l =>
  let (text, rest) := span (is_radix_digit radix) l in
  if bool_decide (text = []) || match max_digits with Some n => (n <? length text)%nat | None => false end
     || negb allow_zero_prefix && bool_decide (head text = Some x30) && (1 <? length text)%nat
  then None
  else v ← parse_digits radix bound 0 text; Some (v, rest).

(** [read_separator]: from the second part on, the separator comes first. *)
Definition read_separator {A} (c : byte) (first : bool) (read : Reader A) : Reader A := fun l =>
  if first then read l else l ← read_given_char c l; read l.

Fixpoint read_octets (n : nat) (first : bool) : Reader (list byte) := fun l =>
  match n with
  | O => Some ([], l)
  | S n =>
      '(v, l) ← read_separator x2e first (read_number 10 (Some 3%nat) false 256) l;
      '(vs, l) ← read_octets n false l;
      Some (byte_of_Z v :: vs, l)
  end.

Definition read_ipv4_addr : Reader (list byte) := read_octets 4 true.

(** [read_groups]: at most [left] groups, the last two of which may be an IPv4
    address; whether they were. *)
Fixpoint read_groups (left_ : nat) (first : bool) (l : list byte) : list Z * bool * list byte :=
  match left_ with
  | O => ([], false, l)
  | S left_ =>
      let ipv4 := if (0 <? left_)%nat then read_separator x3a first read_ipv4_addr l else None in
      match ipv4 with
      | Some (octets, l) => (segments_of octets, true, l)
      | None =>
          match read_separator x3a first (read_number 16 (Some 4%nat) true (2 ^ 16)) l with
          | Some (g, l) => let '(gs, ipv4, l) := read_groups left_ false l in (g :: gs, ipv4, l)
          | None => ([], false, l)
          end
      end
  end.

Definition octets_of (segments : list Z) : list byte := concat (be_bytes 2 <$> segments).

Definition read_ipv6_addr : Reader (list byte) := fun l =>
  let '(head, head_ipv4, l) := read_groups 8 true l in
  if (length head =? 8)%nat then Some (octets_of head, l)
  else if head_ipv4 then None
  else
    l ← read_given_char x3a l;
    l ← read_given_char x3a l;
    let '(tail, _, l) := read_groups (8 - S (length head)) true l in
    Some (octets_of (head ++ replicate (8 - length head - length tail) 0 ++ tail), l).

Definition read_ip_addr : Reader IpAddr := fun l =>
  match read_ipv4_addr l with
  | Some (octets, l) => Some (Ip4 octets, l)
  | None => '(octets, l) ← read_ipv6_addr l; Some (Ip6 octets, l)
  end.

Definition read_port : Reader Z := fun l =>
  l ← read_given_char x3a l; read_number 10 None true (2 ^ 16) l.

(** The scope of an IPv6 address is read and dropped. *)
Definition skip_scope_id (l : list byte) : list byte :=
  default l (l ← read_given_char x25 l; '(_, l) ← read_number 10 None true (2 ^ 32) l; Some l).

Definition read_socket_addr : Reader (IpAddr * Z) := fun l =>
  match ('(octets, l) ← read_ipv4_addr l; '(port, l) ← read_port l; Some ((Ip4 octets, port), l)) with
  | Some r => Some r
  | None =>
      l ← read_given_char x5b l;
      '(octets, l) ← read_ipv6_addr l;
      l ← read_given_char x5d (skip_scope_id l);
      '(port, l) ← read_port l;
      Some ((Ip6 octets, port), l)
  end.

(** [parse_with]: nothing may be left. *)
Definition parse_with {A} (read : Reader A) (l : list byte) : option A :=
  match read l with
  | Some (a, []) => Some a
  | _ => None
  end.

Definition parse_ip : list byte -> option IpAddr := parse_with read_ip_addr.
Definition parse_socket_addr : list byte -> option (IpAddr * Z) := parse_with read_socket_addr.

(** ** A printed address is read back *)

Lemma span_all p text rest :
  Forall (fun b => p b = true) text ->
  match rest with [] => True | b :: _ => p b = false end ->
  span p (text ++ rest) = (text, rest).
Proof.
  induction 1 as [|b text Hb _ IH]; intros Hr; cbn [app span].
  - destruct rest as [|b rest]; cbn [span]; [done|]. by rewrite Hr.
  - by rewrite Hb, IH.
Qed.

Lemma digits_shape fuel base : forall n,
  2 <= base <= 16 -> 0 <= n ->
  Forall (fun b => is_radix_digit base b = true) (digits fuel base n) /\ (length (digits fuel base n) <= fuel)%nat.
Proof.
  induction fuel as [|fuel IH]; intros n Hb Hn; cbn [digits]; [split; [constructor|done]|].
  assert (is_radix_digit base (digit (n mod base)) = true) as Hd.
  { unfold is_radix_digit. rewrite digit_value_digit; [by apply bool_decide_eq_true_2|apply Z.mod_pos_bound; lia|lia]. }
  destruct (n <? base); cbn [app].
  - split; [by repeat constructor|cbn; lia].
  - destruct (IH (n / base) Hb) as [H1 H2]; [apply Z.div_pos; lia|]. split.
    + apply Forall_app. by repeat constructor.
    + rewrite length_app. cbn. lia.
Qed.

Lemma digit_not_zero d : 0 < d < 16 -> digit d <> x30.
Proof.
  intros Hd He. pose proof (digit_value_digit 16 d ltac:(lia) ltac:(lia)) as H. rewrite He in H.
  vm_compute in H. injection H. lia.
Qed.

(** A number of several digits starts with none that is zero. *)
Lemma digits_head fuel base : forall n,
  2 <= base <= 16 -> 0 < n < base ^ Z.of_nat fuel -> head (digits fuel base n) <> Some x30.
Proof.
  induction fuel as [|fuel IH]; intros n Hb Hn; [cbn in Hn; lia|]. cbn [digits].
  rewrite Nat2Z.inj_succ, Z.pow_succ_r in Hn by lia. destruct (Z.ltb_spec n base) as [Hs|Hs].
  - cbn. rewrite Z.mod_small by lia. intros [= He]. revert He. apply digit_not_zero. lia.
  - assert (0 < n / base < base ^ Z.of_nat fuel) as Hq.
    { split; [apply Z.div_str_pos; lia|apply Z.div_lt_upper_bound; lia]. }
    specialize (IH _ Hb Hq). destruct (digits fuel base (n / base)) eqn:He; [|done].
    exfalso. revert He. apply digits_nonempty. destruct fuel; [cbn in Hq|]; lia.
Qed.

Lemma digits_zero_prefix fuel base n :
  2 <= base <= 16 -> 0 <= n < base ^ Z.of_nat fuel -> (0 < fuel)%nat ->
  bool_decide (head (digits fuel base n) = Some x30) && (1 <? length (digits fuel base n))%nat = false.
Proof.
  intros Hb Hn Hf. destruct (decide (n = 0)) as [->|Hz].
  - destruct fuel; [lia|]. cbn [digits]. rewrite (proj2 (Z.ltb_lt 0 base)) by lia. cbn. by rewrite andb_false_r.
  - by rewrite bool_decide_eq_false_2 by (apply digits_head; lia).
Qed.

Definition no_digit (radix : Z) (rest : list byte) : Prop :=
  match rest with [] => True | b :: _ => is_radix_digit radix b = false end.

Lemma read_number_digits fuel radix max_digits allow bound n rest :
  2 <= radix <= 16 -> 0 <= n < bound -> n < radix ^ Z.of_nat fuel -> (0 < fuel)%nat ->
  match max_digits with Some m => (fuel <= m)%nat | None => True end ->
  no_digit radix rest ->
  read_number radix max_digits allow bound (digits fuel radix n ++ rest) = Some (n, rest).
Proof.
  intros Hr Hn Hf Hp Hm Hrest. destruct (digits_shape fuel radix n Hr ltac:(lia)) as [Hd Hl].
  unfold read_number. rewrite span_all by done.
  rewrite bool_decide_eq_false_2 by (by apply digits_nonempty). cbn [orb].
  rewrite <- andb_assoc, digits_zero_prefix, andb_false_r, orb_false_r by (done || lia).
  assert (match max_digits with Some m => (m <? length (digits fuel radix n))%nat | None => false end = false) as ->.
  { destruct max_digits; [|done]. apply Nat.ltb_ge. lia. }
  rewrite parse_digits_digits by lia. done.
Qed.

Lemma read_number_empty radix max_digits allow bound l :
  no_digit radix l -> read_number radix max_digits allow bound l = None.
Proof. intros Hl. unfold read_number. destruct l as [|b l]; cbn [span]; [done|]. cbn in Hl. by rewrite Hl. Qed.

Lemma read_ipv4_text octets rest :
  length octets = 4%nat -> no_digit 10 rest ->
  read_ipv4_addr (ipv4_text octets ++ rest) = Some (octets, rest).
Proof.
  intros Hl Hr. destruct octets as [|a [|b [|c [|d []]]]]; try done.
  unfold ipv4_text, read_ipv4_addr. change (list_byte_of_string ".") with [x2e].
  cbn [fmap list_fmap text_join compose concat read_octets read_separator].
  rewrite app_nil_r, <- !app_assoc.
  pose proof (Z_of_byte_range a). pose proof (Z_of_byte_range b).
  pose proof (Z_of_byte_range c). pose proof (Z_of_byte_range d).
  do 3 (rewrite read_number_digits by (done || lia || (cbn; lia)); cbn [mbind option_bind app read_given_char];
        change (bool_decide (x2e = x2e)) with true; cbn [mbind option_bind]).
  rewrite read_number_digits by (done || lia || (cbn; lia)). cbn [mbind option_bind]. by rewrite !byte_of_Z_of_byte.
Qed.

Lemma span_parts p l text rest : span p l = (text, rest) -> l = text ++ rest.
Proof.
  revert text. induction l as [|b l IH]; intros text; cbn [span]; [by intros [= <- <-]|].
  destruct (p b); [|by intros [= <- <-]]. destruct (span p l). intros [= <- <-]. cbn. f_equal. by apply IH.
Qed.

Lemma read_number_parts radix max_digits allow bound l v rest :
  read_number radix max_digits allow bound l = Some (v, rest) -> exists text, l = text ++ rest.
Proof.
  unfold read_number. destruct (span _ l) eqn:Hs. apply span_parts in Hs as ->. destruct (_ || _ || _); [done|].
  destruct (parse_digits _ _ _ _); [|done]. cbn. intros [= _ <-]. eauto.
Qed.

(** Text without a dot holds no IPv4 address. *)
Lemma read_ipv4_dot l : x2e ∉ l -> read_ipv4_addr l = None.
Proof.
  intros Hl. unfold read_ipv4_addr. cbn [read_octets read_separator].
  destruct (read_number 10 (Some 3%nat) false 256 l) as [[v rest]|] eqn:H; [|done]. cbn.
  apply read_number_parts in H as [text ->]. destruct rest as [|b rest]; [done|]. cbn.
  rewrite bool_decide_eq_false_2; [done|]. set_solver.
Qed.

(** *** IPv6 *)

Lemma segments_of_range octets : Forall (fun g => 0 <= g < 2 ^ 16) (segments_of octets).
Proof.
  revert octets. fix IH 1. intros [|a [|b octets]]; [constructor|constructor|]. cbn [segments_of]. constructor; [|apply IH].
  pose proof (Z_of_byte_range a). pose proof (Z_of_byte_range b). lia.
Qed.

Lemma octets_of_segments n : forall octets,
  length octets = (2 * n)%nat -> octets_of (segments_of octets) = octets /\ length (segments_of octets) = n.
Proof.
  induction n as [|n IH]; intros octets Hl; [destruct octets; done|].
  destruct octets as [|a [|b octets]]; cbn in Hl; [lia|lia|]. destruct (IH octets) as [IH1 IH2]; [lia|].
  cbn [segments_of length]. split; [|by rewrite IH2]. unfold octets_of in *. cbn [fmap list_fmap concat].
  rewrite IH1. pose proof (Z_of_byte_range a). pose proof (Z_of_byte_range b).
  unfold be_bytes. change (le_bytes 2 ?z) with [byte_of_Z z; byte_of_Z (z / 256)]. cbn [rev app].
  replace ((256 * Z_of_byte a + Z_of_byte b) / 256) with (Z_of_byte a) by (apply Z.div_unique with (Z_of_byte b); lia).
  rewrite byte_of_Z_of_byte. repeat f_equal. apply Z_of_byte_inj.
  rewrite Z_of_byte_of_Z, Z.add_comm, Z.mul_comm, Z.mod_add, Z.mod_small by lia. done.
Qed.

Fixpoint group_text (first : bool) (gs : list Z) : list byte :=
  match gs with
  | [] => []
  | g :: gs => (if first then [] else [x3a]) ++ digits 4 16 g ++ group_text false gs
  end.

Lemma segments_text_groups gs : segments_text gs = group_text true gs.
Proof.
  unfold segments_text. destruct gs as [|g gs]; [done|]. cbn [fmap list_fmap text_join group_text app]. f_equal.
  induction gs as [|g' gs IH]; [done|]. cbn [fmap list_fmap concat group_text]. by rewrite IH, <- app_assoc.
Qed.

Lemma group_text_avoid gs : Forall (fun g => 0 <= g < 2 ^ 16) gs -> forall first, x2e ∉ group_text first gs.
Proof.
  induction 1 as [|g gs Hg _ IH]; intros first; cbn [group_text]; [set_solver|]. rewrite !elem_of_app.
  intros [H|[H|H]]; [destruct first; set_solver| |by apply (IH false)].
  destruct (digits_shape 4 16 g) as [Hd _]; [lia|lia|]. rewrite Forall_forall in Hd.
  specialize (Hd _ H). by vm_compute in Hd.
Qed.

(** Nothing that could continue an address follows. *)
Definition stops (rest : list byte) : Prop := no_digit 16 rest /\ no_digit 16 (drop 1 rest).

Lemma no_digit_ten rest : no_digit 16 rest -> no_digit 10 rest.
Proof. destruct rest as [|b rest]; [done|]. cbn. by destruct b. Qed.

Lemma read_ipv4_none l : no_digit 16 l -> read_ipv4_addr l = None.
Proof.
  intros H%no_digit_ten. unfold read_ipv4_addr. cbn [read_octets read_separator]. by rewrite read_number_empty.
Qed.

Lemma read_separator_stops {A} (read : Reader A) first rest :
  (forall l, no_digit 16 l -> read l = None) -> stops rest -> read_separator x3a first read rest = None.
Proof.
  intros Hread [H1 H2]. destruct first; cbn [read_separator]; [by apply Hread|].
  destruct rest as [|b rest]; [done|]. cbn. case_bool_decide; [|done]. cbn. apply Hread. cbn [drop] in H2. by rewrite drop_0 in H2.
Qed.

Lemma read_groups_stops left_ first rest : stops rest -> read_groups left_ first rest = ([], false, rest).
Proof.
  intros Hs. destruct left_ as [|left_]; [done|]. cbn [read_groups].
  rewrite !read_separator_stops by (try done; intros; by (apply read_ipv4_none || apply read_number_empty)).
  by destruct (0 <? left_)%nat.
Qed.

Lemma read_separator_next {A} (read : Reader A) first l :
  read_separator x3a first read ((if first then [] else [x3a]) ++ l) = read l.
Proof. by destruct first. Qed.

Lemma read_groups_text gs :
  Forall (fun g => 0 <= g < 2 ^ 16) gs -> forall left_ first rest,
  (length gs <= left_)%nat -> x2e ∉ rest -> no_digit 16 rest -> (length gs = left_ \/ stops rest) ->
  read_groups left_ first (group_text first gs ++ rest) = (gs, false, rest).
Proof.
  intros Hgs. pose proof (group_text_avoid gs Hgs) as Hdot. revert Hdot.
  induction Hgs as [|g gs Hg Hgs IH]; intros Hdot left_ first rest Hl Hr Hn Hs.
  { destruct Hs as [<-|Hs]; [done|by apply read_groups_stops]. }
  destruct left_ as [|left_]; [cbn in Hl; lia|]. cbn [read_groups group_text length] in *.
  rewrite <- !app_assoc, !read_separator_next.
  assert (x2e ∉ digits 4 16 g ++ group_text false gs ++ rest) as Hd.
  { rewrite !elem_of_app. specialize (Hdot true). cbn in Hdot. rewrite elem_of_app in Hdot. tauto. }
  rewrite (read_ipv4_dot _ Hd). replace (if (0 <? left_)%nat then None else None) with (@None (list byte * list byte)) by (by destruct (0 <? left_)%nat).
  rewrite read_number_digits by (try done; try lia; by destruct gs).
  rewrite IH; [done|by apply group_text_avoid|lia|done|done|lia || (destruct Hs; [left; lia|by right])].
Qed.

(** *** The run of zeros *)

Definition zeros_at (segments : list Z) (z : Span) : Prop :=
  exists a b, segments = a ++ replicate (span_len z) 0 ++ b /\ length a = span_start z.

Definition zeros_end (segments : list Z) (z : Span) : Prop :=
  exists a, segments = a ++ replicate (span_len z) 0 /\ (span_len z = 0%nat \/ length a = span_start z).

Lemma zeros_at_snoc pre s z : zeros_at pre z -> zeros_at (pre ++ [s]) z.
Proof. intros (a & b & -> & H). exists a, (b ++ [s]). by rewrite <- !app_assoc. Qed.

Lemma zeros_end_at pre z : span_len z <> 0%nat -> zeros_end pre z -> zeros_at pre z.
Proof. intros Hz (a & -> & [H|H]); [done|]. exists a, []. by rewrite app_nil_r. Qed.

Lemma longest_zeros_spec segments : forall pre longest current,
  zeros_at pre longest -> zeros_end pre current ->
  zeros_at (pre ++ segments) (longest_zeros (length pre) segments longest current).
Proof.
  induction segments as [|s segments IH]; intros pre longest current Hl Hc; cbn [longest_zeros]; [by rewrite app_nil_r|].
  replace (S (length pre)) with (length (pre ++ [s])) by (rewrite length_app; cbn [length]; lia).
  replace (pre ++ s :: segments) with ((pre ++ [s]) ++ segments) by (by rewrite <- app_assoc).
  destruct (Z.eqb_spec s 0) as [->|Hs].
  - assert (zeros_end (pre ++ [0]) (mkSpan (if (span_len current =? 0)%nat then length pre else span_start current) (S (span_len current)))) as Hc'.
    { destruct Hc as (a & Hp & Ha). exists a. cbn [span_len span_start]. rewrite Hp at 1. rewrite <- app_assoc.
      split; [f_equal; by rewrite <- (replicate_S_end (span_len current) 0)|]. right.
      destruct (Nat.eqb_spec (span_len current) 0) as [H0|H0]; [|by destruct Ha].
      rewrite Hp, H0. cbn. by rewrite app_nil_r. }
    apply IH; [|done]. destruct (_ <? _)%nat; [by apply zeros_end_at|by apply zeros_at_snoc].
  - apply IH; [by apply zeros_at_snoc|]. exists (pre ++ [s]). cbn. rewrite app_nil_r. auto.
Qed.

(** *** Whole addresses *)

Lemma read_char c l : read_given_char c (c :: l) = Some l.
Proof. cbn. by rewrite bool_decide_eq_true_2. Qed.

Lemma ipv4_mapped_inv octets ipv4 :
  length octets = 16%nat -> ipv4_mapped octets = Some ipv4 ->
  octets = octets_of (replicate 5 0 ++ 65535 :: segments_of ipv4) /\ length ipv4 = 4%nat.
Proof.
  intros Hl. unfold ipv4_mapped. case_bool_decide as Ht; [|done]. intros [= <-].
  assert (length (drop 12 octets) = 4%nat) as Hd by (rewrite length_drop; lia). split; [|done].
  destruct (octets_of_segments 2 (drop 12 octets) Hd) as [Ho _].
  rewrite <- (take_drop 12 octets) at 1. rewrite Ht. unfold octets_of in *.
  rewrite fmap_app, fmap_cons, concat_app. cbn [concat]. by rewrite Ho.
Qed.

Lemma read_mapped_text octets ipv4 rest :
  length octets = 16%nat -> ipv4_mapped octets = Some ipv4 -> stops rest ->
  read_ipv6_addr (list_byte_of_string "::ffff:" ++ ipv4_text ipv4 ++ rest) = Some (octets, rest).
Proof.
  intros Hl Hm Hs. destruct (ipv4_mapped_inv octets ipv4 Hl Hm) as [-> H4].
  change (list_byte_of_string "::ffff:") with (x3a :: x3a :: digits 4 16 65535 ++ [x3a]).
  unfold read_ipv6_addr. rewrite <- !app_comm_cons, <- app_assoc, read_groups_stops by done.
  cbn [length Nat.eqb]. rewrite read_char. cbn [mbind option_bind]. rewrite read_char. cbn [mbind option_bind].
  change (8 - 1)%nat with 7%nat. cbn [read_groups read_separator Nat.ltb Nat.leb].
  assert (read_ipv4_addr (digits 4 16 65535 ++ [x3a] ++ ipv4_text ipv4 ++ rest) = None) as ->.
  { unfold read_ipv4_addr. cbn [read_octets read_separator]. by rewrite read_number_empty. }
  rewrite read_number_digits by (done || lia). cbn [app]. rewrite read_char. cbn [mbind option_bind].
  rewrite read_ipv4_text by (done || by apply no_digit_ten, Hs).
  destruct (octets_of_segments 2 ipv4 H4) as [_ H2]. cbn [length]. rewrite H2. done.
Qed.

Lemma read_ipv6_text octets rest :
  length octets = 16%nat -> stops rest -> x2e ∉ rest ->
  read_ipv6_addr (ipv6_text octets ++ rest) = Some (octets, rest).
Proof.
  intros Hl Hs Hr. unfold ipv6_text. destruct (ipv4_mapped octets) as [ipv4|] eqn:Hm.
  { rewrite <- app_assoc. by apply read_mapped_text. }
  destruct (octets_of_segments 8 octets Hl) as [Ho H8]. pose proof (segments_of_range octets) as Hg.
  pose proof (longest_zeros_spec (segments_of octets) [] (mkSpan 0 0) (mkSpan 0 0)) as Hz.
  destruct Hz as (a & b & Hab & Ha); [by exists [], []|exists []; auto|]. cbn [app length] in Hab, Ha.
  revert Hab Ha. generalize (longest_zeros 0 (segments_of octets) (mkSpan 0 0) (mkSpan 0 0)) as z. intros z Hab Ha.
  unfold read_ipv6_addr. cbv zeta. destruct (Nat.ltb_spec 1 (span_len z)) as [Hz|_].
  2: { rewrite segments_text_groups, read_groups_text by (done || lia || apply Hs || (left; lia)). by rewrite H8, Ho. }
  rewrite Hab in H8, Hg |- *. rewrite <- Ha, take_app_length.
  assert (drop (length a + span_len z) (a ++ replicate (span_len z) 0 ++ b) = b) as ->.
  { rewrite app_assoc. apply drop_app_length'. by rewrite length_app, length_replicate. }
  rewrite !length_app, length_replicate in H8. rewrite !Forall_app in Hg. destruct Hg as (Hga & _ & Hgb).
  rewrite !segments_text_groups, <- !app_assoc. pose proof (group_text_avoid b Hgb true) as Hdot.
  change (list_byte_of_string "::") with [x3a; x3a].
  rewrite read_groups_text; [|done|lia| |done|by right].
  2: { rewrite !elem_of_app. set_solver. }
  rewrite (proj2 (Nat.eqb_neq _ _)) by lia. cbn [app]. rewrite read_char. cbn [mbind option_bind]. rewrite read_char. cbn [mbind option_bind]. rewrite read_groups_text by (done || lia || apply Hs || (by right)).
  rewrite <- Ho, Hab. replace (8 - length a - length b)%nat with (span_len z) by lia. done.
Qed.

Lemma ipv6_text_not_ipv4 octets rest :
  x2e ∉ rest -> read_ipv4_addr (ipv6_text octets ++ rest) = None.
Proof.
  intros Hr. unfold ipv6_text. destruct (ipv4_mapped octets) as [ipv4|]; [by apply read_ipv4_none|].
  pose proof (segments_of_range octets) as Hg. apply read_ipv4_dot. cbv zeta. rewrite !segments_text_groups.
  rewrite elem_of_app. intros [H|H]; [|done]. destruct (1 <? _)%nat; [|by apply group_text_avoid in H].
  rewrite !elem_of_app in H. destruct H as [H|[H|H]]; [|by vm_compute in H; set_solver|].
  - revert H. by apply group_text_avoid, Forall_take.
  - revert H. by apply group_text_avoid, Forall_drop.
Qed.

Definition ip_ok (a : IpAddr) : Prop :=
  match a with Ip4 octets => length octets = 4%nat | Ip6 octets => length octets = 16%nat end.

Lemma parse_ip_text a : ip_ok a -> parse_ip (IpAddr_to_string a) = Some a.
Proof.
  intros Ha. unfold parse_ip, parse_with, read_ip_addr. rewrite <- (app_nil_r (IpAddr_to_string a)).
  destruct a as [octets|octets]; cbn [IpAddr_to_string ip_ok] in *.
  - by rewrite read_ipv4_text.
  - rewrite ipv6_text_not_ipv4 by set_solver. by rewrite read_ipv6_text by (done || set_solver).
Qed.

Definition socket_ok (a : SocketAddr) : Prop :=
  match a with
  | SA_V4 octets port => length octets = 4%nat /\ 0 <= port < 2 ^ 16
  | SA_V6 octets port => length octets = 16%nat /\ 0 <= port < 2 ^ 16
  end.

Definition socket_parts (a : SocketAddr) : IpAddr * Z :=
  match a with SA_V4 octets port => (Ip4 octets, port) | SA_V6 octets port => (Ip6 octets, port) end.

Lemma read_port_digits port : 0 <= port < 2 ^ 16 -> read_port (x3a :: digits 5 10 port) = Some (port, []).
Proof.
  intros Hp. unfold read_port. rewrite read_char. cbn [mbind option_bind].
  rewrite <- (app_nil_r (digits 5 10 port)). by rewrite read_number_digits by (done || lia).
Qed.

Lemma parse_socket_text a : socket_ok a -> parse_socket_addr (SocketAddr_to_string a) = Some (socket_parts a).
Proof.
  unfold parse_socket_addr, parse_with, read_socket_addr.
  destruct a as [octets port|octets port]; cbn [SocketAddr_to_string socket_ok socket_parts]; intros [Hl Hp].
  - rewrite read_ipv4_text by done. cbn [mbind option_bind].
    change (list_byte_of_string ":" ++ ?t) with (x3a :: t). by rewrite read_port_digits.
  - change (list_byte_of_string "[" ++ ?t) with (x5b :: t). rewrite read_ipv4_none by done. cbn [mbind option_bind]. rewrite read_char. cbn [mbind option_bind].
    change (list_byte_of_string "]:" ++ ?t) with (x5d :: x3a :: t).
    assert (x2e ∉ digits 5 10 port) as Hd.
    { apply (digits_avoid 10); [lia|apply digits_are_digits; lia|left; by vm_compute]. }
    rewrite read_ipv6_text; [|done|done|set_solver]. cbn [mbind option_bind]. unfold skip_scope_id. cbn [read_given_char].
    change (bool_decide (x5d = x25)) with false. cbn [mbind option_bind default].
    rewrite read_char. cbn [mbind option_bind]. by rewrite read_port_digits.
Qed.
