(* ===== verification/MonMap.v ===== *)
(** * Monitor maps and manager maps

    Models [src/src/maps/monmap.rs] and [src/src/maps/mgrmap.rs]: the decoders
    of the monitor map and of the part of the manager map a client uses. *)

From S2P Require Import Prelude Codec Address MapBase.
From Stdlib Require Import ZArith Lia Strings.Byte Strings.String.
From stdpp Require Import base option gmap sorting numbers list.

Open Scope Z_scope.

(** ** The monitor map *)

Record Monitor : Type := mkMonitor {
  mon_name : list byte;
  mon_addresses : list EntityAddr;
  mon_priority : Z;
  mon_weight : Z;
  mon_location : gmap (list byte) (list byte)
}.

Record MonMap : Type := mkMonMap {
  mm_fsid : list byte;
  mm_epoch : Z;
  mm_last_changed : UTime;
  mm_created : UTime;
  mm_persistent_features : Z;
  mm_optional_features : Z;
  mm_monitors : gmap (list byte) Monitor;
  mm_ranks : list (list byte);
  mm_minimum_monitor_release : Z;
  mm_removed_ranks : list Z;
  mm_election_strategy : Z;
  mm_disallowed_leaders : list (list byte);
  mm_stretch_mode : bool;
  mm_tiebreaker_monitor : list byte;
  mm_stretch_marked_down : list (list byte)
}.

(** A field of versions from [least] on. *)
Definition since {A} (version least : Z) (m : MapM A) (absent : A) : MapM A :=
  if least <=? version then m else mret absent.

Definition decode_monitor_features : MapM Z :=
  vp ← open_versioned 1 0;
  inside vp.2 (f ← rd Decoder_u64; _ ← finished; mret f).

Definition decode_string_pair : MapM (list byte * list byte) :=
  k ← rd Decoder_string;
  v ← rd Decoder_string;
  mret (k, v).

Definition decode_locations (limits : MapLimits) : MapM (gmap (list byte) (list byte)) :=
  count ← bounded_count (ml_locations limits) 8;
  read_entries (Z.to_nat count) decode_string_pair (ME_Malformed "duplicate monitor location") ∅.

Definition decode_monitor (limits : MapLimits) : MapM Monitor :=
  vp ← open_versioned 5 1;
  let version := vp.1 in
  inside vp.2
    (name ← rd Decoder_string;
     addresses ← decode_addresses (ml_addresses limits);
     priority ← since version 2 (rd Decoder_u16) 0;
     weight ← since version 4 (rd Decoder_u16) 0;
     location ← since version 5 (decode_locations limits) ∅;
     _ ← finished;
     mret (mkMonitor name addresses priority weight location)).

(** One entry of the monitors, under its own name. *)
Fixpoint read_monitors (n : nat) (limits : MapLimits) (acc : gmap (list byte) Monitor)
    : MapM (gmap (list byte) Monitor) :=
  match n with
  | O => mret acc
  | S n =>
      key ← rd Decoder_string;
      monitor ← decode_monitor limits;
      _ ← throw_if (bool_decide (key <> mon_name monitor) || bool_decide (is_Some (acc !! key)))
            (ME_Malformed "duplicate or mismatched monitor");
      read_monitors n limits (<[key := monitor]> acc)
  end.

(** [ranks.iter().any(|name| !monitors.contains_key(name) || !seen.insert(name))]. *)
Fixpoint bad_ranks (monitors : gmap (list byte) Monitor) (seen : list (list byte))
    (ranks : list (list byte)) : bool :=
  match ranks with
  | [] => false
  | name :: ranks =>
      bool_decide (monitors !! name = None) || bool_decide (name ∈ seen)
      || bad_ranks monitors (name :: seen) ranks
  end.

Definition decode_monmap_payload (version : Z) (limits : MapLimits) : MapM MonMap :=
  fsid ← decode_fsid;
  epoch ← rd Decoder_u32;
  last_changed ← decode_utime;
  created ← decode_utime;
  persistent ← decode_monitor_features;
  optional ← decode_monitor_features;
  count ← bounded_count (ml_monitors limits) 5;
  monitors ← read_monitors (Z.to_nat count) limits ∅;
  ranks ← decode_strings (ml_monitors limits);
  _ ← throw_if (negb (zlen ranks =? Z.of_nat (size monitors)))
        (ME_Malformed "monitor rank count mismatch");
  _ ← throw_if (bad_ranks monitors [] ranks) (ME_Malformed "invalid monitor rank");
  release ← since version 7 (rd Decoder_u8) 0;
  removed ← since version 8 (decode_u32s (ml_monitors limits)) [];
  strategy ← since version 8 (rd Decoder_u8) 0;
  disallowed ← since version 8 (decode_strings (ml_monitors limits)) [];
  stretch ← since version 9 (rd Decoder_bool) false;
  tiebreaker ← since version 9 (rd Decoder_string) [];
  marked_down ← since version 9 (decode_strings (ml_monitors limits)) [];
  _ ← finished;
  mret (mkMonMap fsid epoch last_changed created persistent optional monitors ranks release
          removed strategy disallowed stretch tiebreaker marked_down).

Definition decode_monmap (data : list byte) (limits : MapLimits) : result MapError MonMap :=
  if (ml_bytes limits =? 0) || (ml_monitors limits =? 0) || (ml_addresses limits =? 0)
     || (ml_locations limits =? 0)
  then Err (ME_Wire LimitExceeded)
  else
    '(m, _) ←
      (vp ← open_versioned 9 6;
       m ← inside vp.2 (decode_monmap_payload vp.1 limits);
       _ ← finished;
       left_ ← remaining;
       _ ← throw_if (negb (left_ =? 0)) (ME_Malformed "trailing monmap bytes");
       mret m) (Decoder_new data (ml_bytes limits));
    _ ← require_timestamp (mm_last_changed m);
    _ ← require_timestamp (mm_created m);
    Ok m.

(** ** The manager map *)

Record MgrMap : Type := mkMgrMap {
  mgr_epoch : Z;
  mgr_active_gid : Z;
  mgr_available : bool;
  mgr_active_name : list byte;
  mgr_active_addresses : list EntityAddr;
  mgr_active_features : Z
}.

Definition decode_canonical_bool : MapM bool :=
  value ← rd Decoder_u8;
  _ ← finished;
  if value =? 0 then mret false
  else if value =? 1 then mret true
  else throw (ME_Malformed "non-canonical boolean").

Definition consume_string_set (maximum : Z) : MapM unit :=
  _ ← read_set maximum 4 (rd Decoder_string) (ME_Malformed "duplicate string set entry");
  mret tt.

Definition consume_module_option (maximum : Z) : MapM (list byte) :=
  vp ← open_versioned 1 1;
  inside vp.2
    (name ← rd Decoder_string;
     _ ← rd Decoder_u8;
     _ ← rd Decoder_u8;
     _ ← rd Decoder_u32;
     _ ← repeat_read 3 (rd Decoder_string);
     _ ← consume_string_set maximum;
     _ ← rd Decoder_string;
     _ ← rd Decoder_string;
     _ ← consume_string_set maximum;
     _ ← consume_string_set maximum;
     _ ← finished;
     mret name).

(** [for _ in 0..n { key; if !seen.insert(key) { return Err(duplicate) }; body(key) }]. *)
Fixpoint read_keyed {K} `{EqDecision K} (n : nat) (key : MapM K) (duplicate : MapError)
    (body : K -> MapM unit) (seen : list K) : MapM unit :=
  match n with
  | O => mret tt
  | S n =>
      k ← key;
      _ ← throw_if (bool_decide (k ∈ seen)) duplicate;
      _ ← body k;
      read_keyed n key duplicate body (k :: seen)
  end.

Definition consume_module_options (limits : MapLimits) : MapM unit :=
  count ← bounded_count (ml_collection_entries limits) 10;
  _ ← read_keyed (Z.to_nat count) (rd Decoder_string) (ME_Malformed "duplicate mgr module option")
        (fun key =>
           name ← consume_module_option (ml_collection_entries limits);
           throw_if (bool_decide (name <> key)) (ME_Malformed "module option key/name mismatch")) [];
  finished.

Definition consume_module_info (limits : MapLimits) : MapM (list byte) :=
  vp ← open_versioned 2 1;
  inside vp.2
    (name ← rd Decoder_string;
     _ ← decode_canonical_bool;
     _ ← rd Decoder_string;
     _ ← since vp.1 2 (consume_module_options limits) tt;
     _ ← finished;
     mret name).

Definition consume_module_info_vector (limits : MapLimits) : MapM unit :=
  _ ← read_set (ml_collection_entries limits) 6 (consume_module_info limits)
        (ME_Malformed "duplicate mgr module");
  mret tt.

Definition consume_standby (limits : MapLimits) : MapM Z :=
  vp ← open_versioned 4 1;
  inside vp.2
    (gid ← rd Decoder_u64;
     _ ← rd Decoder_string;
     _ ← since vp.1 2 (consume_string_set (ml_collection_entries limits)) tt;
     _ ← since vp.1 3 (consume_module_info_vector limits) tt;
     _ ← since vp.1 4 (rd Decoder_u64) 0;
     _ ← finished;
     mret gid).

Definition consume_standbys (version : Z) (limits : MapLimits) : MapM unit :=
  count ← bounded_count (ml_collection_entries limits) 14;
  _ ← read_keyed (Z.to_nat count) (rd Decoder_u64) (ME_Malformed "duplicate mgr standby")
        (fun key =>
           gid ← consume_standby limits;
           throw_if (negb (key =? gid)) (ME_Malformed "standby key/GID mismatch")) [];
  _ ← throw_if (version <? 6) (ME_Wire (UnsupportedVersion 14 6));
  finished.

Definition consume_always_on_modules (maximum : Z) : MapM unit :=
  count ← bounded_count maximum 8;
  _ ← read_keyed (Z.to_nat count) (rd Decoder_u32) (ME_Malformed "duplicate mgr release")
        (fun _ => consume_string_set maximum) [];
  finished.

(** The addresses and the names of the manager's clients. *)
Definition consume_clients (version : Z) (limits : MapLimits) : MapM unit :=
  count ← bounded_count (ml_collection_entries limits) 1;
  _ ← repeat_read (Z.to_nat count) (decode_addresses (ml_addresses limits));
  if 12 <=? version then
    names ← decode_strings (ml_collection_entries limits);
    throw_if (negb (zlen names =? count)) (ME_Malformed "mgr client name/address count mismatch")
  else mret tt.

Definition decode_mgrmap_payload (version : Z) (limits : MapLimits) : MapM MgrMap :=
  epoch ← rd Decoder_u32;
  addresses ← decode_addresses (ml_addresses limits);
  gid ← rd Decoder_u64;
  available ← decode_canonical_bool;
  name ← rd Decoder_string;
  _ ← consume_standbys version limits;
  _ ← consume_string_set (ml_collection_entries limits);
  _ ← read_map (ml_collection_entries limits) 8 decode_string_pair
        (ME_Malformed "duplicate string key");
  _ ← consume_module_info_vector limits;
  _ ← since version 7 (t ← decode_utime; lift (require_timestamp t)) (mkUTime 0 0);
  _ ← since version 8 (consume_always_on_modules (ml_collection_entries limits)) tt;
  features ← since version 9 (rd Decoder_u64) 0;
  _ ← since version 10 (rd Decoder_u32) 0;
  _ ← since version 11 (consume_clients version limits) tt;
  _ ← since version 13 (rd Decoder_u64) 0;
  _ ← since version 14 (consume_string_set (ml_collection_entries limits)) tt;
  _ ← finished;
  mret (mkMgrMap epoch gid available name addresses features).

Definition decode_mgrmap (data : list byte) (limits : MapLimits) : result MapError MgrMap :=
  if (ml_bytes limits =? 0) || (ml_addresses limits =? 0) || (ml_collection_entries limits =? 0)
  then Err (ME_Wire LimitExceeded)
  else
    '(m, _) ←
      (vp ← open_versioned 14 6;
       m ← inside vp.2 (decode_mgrmap_payload vp.1 limits);
       _ ← finished;
       left_ ← remaining;
       _ ← throw_if (negb (left_ =? 0)) (ME_Malformed "trailing mgrmap bytes");
       mret m) (Decoder_new data (ml_bytes limits));
    Ok m.

Definition socket_port (s : SocketAddr) : Z :=
  match s with SA_V4 _ p | SA_V6 _ p => p end.

(** The address a client connects to: the first of the messenger-v2 type that
    has an endpoint with a port. *)
Fixpoint find_v2_address (l : list EntityAddr) : result IndexPanic (option EntityAddr) :=
  match l with
  | [] => Ok None
  | a :: l =>
      if negb (is_v2 a) then find_v2_address l
      else
        e ← endpoint a;
        if match e with Some s => negb (socket_port s =? 0) | None => false end
        then Ok (Some a) else find_v2_address l
  end.

Definition active_v2_address (m : MgrMap) : result IndexPanic (option EntityAddr) :=
  find_v2_address (mgr_active_addresses m).
