(* ===== verification/Pool.v ===== *)
(** * Pools

    Models [src/src/maps/pool.rs]: a pool of the OSD map and its decoder, with
    the fields of every version from 5 on, those the client drops included. *)

From S2P Require Import Prelude Codec Address MapBase MonMap.
From Stdlib Require Import ZArith Lia Strings.Byte Strings.String.
From stdpp Require Import base option gmap sorting numbers list.

Open Scope Z_scope.

Definition POOL_TYPE_ERASURE : Z := 3.
Definition POOL_FLAG_EC_OVERWRITES : Z := Z.shiftl 1 2.
Definition POOL_FLAG_SELF_MANAGED_SNAPSHOTS : Z := Z.shiftl 1 13.
Definition POOL_FLAG_POOL_SNAPSHOTS : Z := Z.shiftl 1 14.

(** A double is its bits. *)
Inductive PoolOption : Type :=
| PO_String (s : list byte)
| PO_Integer (i : Z)
| PO_Double (bits : Z).

Record PoolSnapshot : Type := mkPoolSnapshot {
  snap_id : Z;
  snap_name : list byte;
  snap_timestamp : UTime
}.

Record Interval : Type := mkInterval { interval_start : Z; interval_length : Z }.

Abbreviation StringMap := (gmap (list byte) (list byte)).

Record Pool : Type := mkPool {
  pool_id : Z;
  pool_name : list byte;
  pool_type : Z;
  pool_size : Z;
  minimum_size : Z;
  crush_rule : Z;
  pool_object_hash : Z;
  pg_count : Z;
  placement_pg_count : Z;
  stripe_width : Z;
  pool_flags : Z;
  snapshot_sequence : Z;
  snapshots : gmap Z PoolSnapshot;
  erasure_code_profile : list byte;
  application_metadata : gmap (list byte) StringMap;
  pool_options : gmap Z PoolOption
}.

Definition with_pool_id (id : Z) (p : Pool) : Pool :=
  mkPool id (pool_name p) (pool_type p) (pool_size p) (minimum_size p) (crush_rule p)
    (pool_object_hash p) (pg_count p) (placement_pg_count p) (stripe_width p) (pool_flags p)
    (snapshot_sequence p) (snapshots p) (erasure_code_profile p) (application_metadata p)
    (pool_options p).

Definition with_pool_name (name : list byte) (p : Pool) : Pool :=
  mkPool (pool_id p) name (pool_type p) (pool_size p) (minimum_size p) (crush_rule p)
    (pool_object_hash p) (pg_count p) (placement_pg_count p) (stripe_width p) (pool_flags p)
    (snapshot_sequence p) (snapshots p) (erasure_code_profile p) (application_metadata p)
    (pool_options p).

(** [self.flags & flag != 0]. *)
Definition has_flag (p : Pool) (flag : Z) : bool := negb (Z.land (pool_flags p) flag =? 0).

Definition uses_pool_snapshots (p : Pool) : bool := has_flag p POOL_FLAG_POOL_SNAPSHOTS.
Definition uses_self_managed_snapshots (p : Pool) : bool :=
  has_flag p POOL_FLAG_SELF_MANAGED_SNAPSHOTS.
Definition is_erasure_coded (p : Pool) : bool := pool_type p =? POOL_TYPE_ERASURE.
Definition allows_ec_overwrites (p : Pool) : bool := has_flag p POOL_FLAG_EC_OVERWRITES.
Definition requires_alignment (p : Pool) : bool := is_erasure_coded p && negb (allows_ec_overwrites p).

(** ** Parts of a pool *)

Definition decode_intervals (maximum : Z) : MapM (list Interval) :=
  read_list maximum 16 (s ← rd Decoder_u64; l ← rd Decoder_u64; mret (mkInterval s l)).

Definition consume_u64_set (maximum : Z) : MapM unit :=
  _ ← read_list maximum 8 (rd Decoder_u64);
  mret tt.

Definition decode_string_map (maximum : Z) : MapM StringMap :=
  read_map maximum 8 decode_string_pair (ME_Malformed "duplicate string key").

Definition decode_nested_string_map (maximum : Z) : MapM (gmap (list byte) StringMap) :=
  read_map maximum 8
    (key ← rd Decoder_string; value ← decode_string_map maximum; mret (key, value))
    (ME_Malformed "duplicate nested string key").

Definition skip_versioned (local : Z) : MapM unit :=
  vp ← open_versioned local 0;
  inside vp.2 finished.

(** [for index in 0..10], from the index [10 - n]. *)
Fixpoint varint_loop (n : nat) : MapM unit :=
  match n with
  | O => throw (ME_Wire Malformed)
  | S n =>
      value ← rd Decoder_u8;
      _ ← finished;
      if Z.land value 0x80 =? 0 then
        throw_if ((n =? 0)%nat && (1 <? value)) (ME_Wire Malformed)
      else varint_loop n
  end.

Definition consume_unsigned_varint : MapM unit := varint_loop 10.

Definition decode_pool_option (version : Z) : MapM (Z * PoolOption) :=
  key ← rd Decoder_i32;
  type ← rd Decoder_i32;
  if type =? 0 then s ← rd Decoder_string; mret (key, PO_String s)
  else if type =? 1 then
    i ← (if 2 <=? version then rd Decoder_i64 else rd Decoder_i32);
    mret (key, PO_Integer i)
  else if type =? 2 then b ← rd Decoder_u64; mret (key, PO_Double b)
  else throw (ME_Malformed "unsupported pool option type").

Definition decode_pool_options (limits : MapLimits) : MapM (gmap Z PoolOption) :=
  vp ← open_versioned 2 1;
  inside vp.2 (read_map (ml_collection_entries limits) 8 (decode_pool_option vp.1)
    (ME_Malformed "duplicate pool option")).

Definition decode_pool_snapshot : MapM (Z * PoolSnapshot) :=
  key ← rd Decoder_u64;
  vp ← open_versioned 2 2;
  inside vp.2
    (id ← rd Decoder_u64;
     t ← decode_utime;
     name ← rd Decoder_string;
     _ ← finished;
     mret (key, mkPoolSnapshot id name t)).

(** [names] are those seen so far. *)
Fixpoint read_snapshots (n : nat) (names : list (list byte)) (acc : gmap Z PoolSnapshot)
    : MapM (gmap Z PoolSnapshot) :=
  match n with
  | O => mret acc
  | S n =>
      ks ← decode_pool_snapshot;
      let '(key, s) := ks : Z * PoolSnapshot in
      _ ← throw_if (negb (key =? snap_id s) || bool_decide (is_Some (acc !! key))
                    || bool_decide (snap_name s ∈ names))
            (ME_Malformed "duplicate or mismatched pool snapshot");
      read_snapshots n (snap_name s :: names) (<[key := s]> acc)
  end.

Definition decode_pool_snapshots (limits : MapLimits) : MapM (gmap Z PoolSnapshot) :=
  count ← bounded_count (ml_collection_entries limits) 14;
  l ← read_snapshots (Z.to_nat count) [] ∅;
  _ ← finished;
  mret l.

(** ** The pool *)

(** The reads of a pool that are dropped, by version. *)
Definition skip_u32s (n : nat) : MapM unit := _ ← repeat_read n (rd Decoder_u32); mret tt.
Definition skip_u64s (n : nat) : MapM unit := _ ← repeat_read n (rd Decoder_u64); mret tt.

Definition skip_cache_fields (version : Z) (limits : MapLimits) : MapM unit :=
  _ ← since version 8 (skip_u64s 2) tt;
  _ ← since version 9
        (_ ← consume_u64_set (ml_collection_entries limits);
         _ ← rd Decoder_i64;
         _ ← rd Decoder_u8;
         _ ← rd Decoder_i64;
         _ ← rd Decoder_i64;
         mret tt) tt;
  _ ← since version 10 (_ ← decode_string_map (ml_collection_entries limits); mret tt) tt;
  since version 11 (_ ← skip_versioned 1; skip_u32s 2) tt.

Definition skip_tier_fields (version : Z) : MapM unit :=
  since version 13 (_ ← skip_u64s 2; skip_u32s 4) tt.

Definition skip_hit_set_fields (version : Z) : MapM unit :=
  _ ← since version 15 (skip_u32s 1) tt;
  _ ← since version 16 (skip_u32s 1) tt;
  _ ← since version 17 (skip_u64s 1) tt;
  _ ← since version 19 (skip_u32s 1) tt;
  _ ← since version 20 (skip_u32s 1) tt;
  _ ← since version 21 (rd Decoder_bool) false;
  _ ← since version 22 (rd Decoder_bool) false;
  since version 23 (skip_u32s 2) tt.

Definition skip_late_fields (version : Z) : MapM unit :=
  _ ← since version 27 (_ ← decode_utime; mret tt) tt;
  _ ← since version 28 (_ ← skip_u32s 6; _ ← rd Decoder_u8; mret tt) tt;
  _ ← since version 29 (skip_versioned 1) tt;
  _ ← (if version =? 30 then _ ← skip_u32s 3; _ ← rd Decoder_i32; mret tt else mret tt);
  _ ← since version 31 (b ← rd Decoder_bool; if (b : bool) then skip_u32s 4 else mret tt) tt;
  since version 32 (_ ← consume_unsigned_varint; consume_unsigned_varint) tt.

Definition decode_pool_payload (version : Z) (limits : MapLimits) : MapM Pool :=
  type ← rd Decoder_u8;
  size ← rd Decoder_u8;
  rule ← rd Decoder_u8;
  hash ← rd Decoder_u8;
  pgs ← rd Decoder_u32;
  placement_pgs ← rd Decoder_u32;
  _ ← skip_u32s 3;
  sequence ← rd Decoder_u64;
  _ ← skip_u32s 1;
  snaps ← decode_pool_snapshots limits;
  _ ← decode_intervals (ml_collection_entries limits);
  _ ← skip_u64s 1;
  flags ← since version 4 (f ← rd Decoder_u64; _ ← skip_u32s 1; mret f) 0;
  minimum ← since version 7 (rd Decoder_u8) (size - size / 2);
  _ ← skip_cache_fields version limits;
  stripe ← since version 12 (rd Decoder_u32) 0;
  _ ← skip_tier_fields version;
  profile ← since version 14 (rd Decoder_string) [];
  _ ← skip_hit_set_fields version;
  options ← since version 24 (decode_pool_options limits) ∅;
  _ ← since version 25 (skip_u32s 1) tt;
  metadata ← since version 26 (decode_nested_string_map (ml_collection_entries limits)) ∅;
  _ ← skip_late_fields version;
  _ ← finished;
  mret (mkPool 0 [] type size minimum rule hash pgs placement_pgs stripe flags sequence snaps
          profile metadata options).

Definition decode_pool (limits : MapLimits) : MapM Pool :=
  vp ← open_versioned 32 5;
  inside vp.2 (decode_pool_payload vp.1 limits).
