(* ===== verification/OsdMap.v ===== *)
(** * The OSD map

    Models [src/src/maps/osdmap.rs]: the map of pools, OSDs and placement
    overrides, and its decoder.  The decoded CRUSH map the source caches
    beside its bytes is a function of the bytes and is not stored here. *)

From S2P Require Import Prelude Codec Frame Address MapBase MonMap Pool.
From Stdlib Require Import ZArith Lia Strings.Byte Strings.String.
From stdpp Require Import base option gmap sorting numbers list.

Open Scope Z_scope.

Definition OSDMAP_FLAG_SORT_BITWISE : Z := Z.shiftl 1 15.

Record PG : Type := mkPG { pg_pool : Z; pg_seed : Z; pg_preferred : Z }.

#[export] Instance PG_eq_dec : EqDecision PG.
Proof. solve_decision. Defined.

#[export] Program Instance PG_countable : Countable PG :=
  inj_countable' (fun g => (pg_pool g, pg_seed g, pg_preferred g))
    (fun x => mkPG x.1.1 x.1.2 x.2) _.
Next Obligation. by intros []. Qed.

Record OSDRemap : Type := mkOSDRemap { remap_from : Z; remap_to : Z }.

Record OSDMap : Type := mkOSDMap {
  om_fsid : list byte;
  om_epoch : Z;
  om_created : UTime;
  om_modified : UTime;
  om_pools : gmap Z Pool;
  om_name_to_id : gmap (list byte) Z;
  om_pool_max : Z;
  om_flags : Z;
  om_max_osd : Z;
  om_osd_state : list Z;
  om_osd_weight : list Z;
  om_client_addresses : list (list EntityAddr);
  om_pg_temp : gmap PG (list Z);
  om_primary_temp : gmap PG Z;
  om_primary_affinity : list Z;
  om_crush_data : list byte;
  om_erasure_code_profiles : gmap (list byte) StringMap;
  om_pg_upmap : gmap PG (list Z);
  om_pg_upmap_items : gmap PG (list OSDRemap);
  om_crush_version : Z;
  om_new_removed_snapshots : gmap Z (list Interval);
  om_new_purged_snapshots : gmap Z (list Interval);
  om_last_up_change : UTime;
  om_last_in_change : UTime;
  om_pg_upmap_primaries : gmap PG Z;
  om_crc : Z;
  om_crc_verified : bool;
  om_applied_incremental : bool
}.

Definition pool_by_id (m : OSDMap) (id : Z) : option Pool := om_pools m !! id.
Definition pool_by_name (m : OSDMap) (name : list byte) : option Pool :=
  id ← om_name_to_id m !! name; om_pools m !! id.

(** The addresses of an OSD that has any. *)
Definition osd_client_addresses (m : OSDMap) (id : Z) : option (list EntityAddr) :=
  match zget (om_client_addresses m) id with
  | Some [] | None => None
  | Some l => Some l
  end.

Definition sort_bitwise (m : OSDMap) : bool :=
  negb (Z.land (om_flags m) OSDMAP_FLAG_SORT_BITWISE =? 0).

(** ** Parts of the map *)

Definition validate_limits (l : MapLimits) : result MapError unit :=
  if (ml_bytes l =? 0) || (ml_pools l =? 0) || (ml_osds l =? 0) || (ml_addresses l =? 0)
     || (ml_pg_mappings l =? 0) || (ml_collection_entries l =? 0)
  then Err (ME_Wire LimitExceeded) else Ok tt.

Definition decode_u32_vector (maximum : Z) : MapM (list Z) := decode_u32s maximum.

Definition decode_address_vector (limits : MapLimits) : MapM (list (list EntityAddr)) :=
  read_list (ml_osds limits) 5 (decode_addresses (ml_addresses limits)).

Definition decode_pg : MapM PG :=
  version ← rd Decoder_u8;
  _ ← throw_if (negb (version =? 1)) (ME_Wire (UnsupportedVersion 1 1));
  pool ← rd Decoder_u64;
  seed ← rd Decoder_u32;
  preferred ← rd Decoder_i32;
  _ ← finished;
  mret (mkPG pool seed preferred).

Definition decode_pg_vector_map (limits : MapLimits) : MapM (gmap PG (list Z)) :=
  read_map (ml_pg_mappings limits) 21
    (pg ← decode_pg;
     inner ← bounded_count (ml_osds limits) 4;
     values ← repeat_read (Z.to_nat inner) (rd Decoder_i32);
     mret (pg, values))
    (ME_Malformed "duplicate PG mapping").

Definition decode_pg_int_map (limits : MapLimits) : MapM (gmap PG Z) :=
  read_map (ml_pg_mappings limits) 21 (pg ← decode_pg; value ← rd Decoder_i32; mret (pg, value))
    (ME_Malformed "duplicate PG mapping").

Definition decode_remap : MapM OSDRemap :=
  from ← rd Decoder_i32;
  to ← rd Decoder_i32;
  mret (mkOSDRemap from to).

Definition decode_pg_remap_items (limits : MapLimits) : MapM (gmap PG (list OSDRemap)) :=
  read_map (ml_pg_mappings limits) 21
    (pg ← decode_pg;
     inner ← bounded_count (ml_osds limits) 8;
     values ← repeat_read (Z.to_nat inner) decode_remap;
     mret (pg, values))
    (ME_Malformed "duplicate PG remap").

Definition decode_pool_interval_map (limits : MapLimits) : MapM (gmap Z (list Interval)) :=
  read_map (ml_pools limits) 12
    (id ← rd Decoder_i64; values ← decode_intervals (ml_collection_entries limits); mret (id, values))
    (ME_Malformed "duplicate pool interval set").

(** One pool, under its identifier. *)
Definition decode_pool_entry (limits : MapLimits) : MapM (Z * Pool) :=
  id ← rd Decoder_i64;
  pool ← decode_pool limits;
  mret (id, with_pool_id id pool).

(** The names of the pools: each names a pool that is there. *)
Fixpoint read_pool_names (n : nat) (pools : gmap Z Pool) (names : gmap (list byte) Z)
    : MapM (gmap Z Pool * gmap (list byte) Z) :=
  match n with
  | O => mret (pools, names)
  | S n =>
      id ← rd Decoder_i64;
      name ← rd Decoder_string;
      pool ← lift (ok_or (pools !! id) (ME_Malformed "name for unknown pool"));
      _ ← throw_if (bool_decide (is_Some (names !! name))) (ME_Malformed "duplicate pool name");
      read_pool_names n (<[id := with_pool_name name pool]> pools) (<[name := id]> names)
  end.

Definition decode_pools (limits : MapLimits) : MapM (gmap Z Pool * gmap (list byte) Z) :=
  count ← bounded_count (ml_pools limits) 14;
  pools ← read_entries (Z.to_nat count) (decode_pool_entry limits)
            (ME_Malformed "duplicate pool id") ∅;
  count ← bounded_count (ml_pools limits) 12;
  pn ← read_pool_names (Z.to_nat count) pools ∅;
  _ ← throw_if (negb (size pn.2 =? size pn.1)%nat) (ME_Malformed "missing pool names");
  mret pn.

(** The OSD vectors are as long as [max_osd]. *)
Definition inconsistent_vectors (limits : MapLimits) (max_osd : Z) (state weight : list Z)
    (addresses : list (list EntityAddr)) (affinity : list Z) : bool :=
  (max_osd <? 0) || (ml_osds limits <? max_osd) || negb (zlen state =? max_osd)
  || negb (zlen weight =? max_osd) || negb (zlen addresses =? max_osd)
  || (negb (zlen affinity =? 0) && negb (zlen affinity =? max_osd)).

(** ** The map *)

Definition decode_client (limits : MapLimits) : MapM OSDMap :=
  fsid ← decode_fsid;
  epoch ← rd Decoder_u32;
  created ← decode_utime;
  modified ← decode_utime;
  pn ← decode_pools limits;
  pool_max ← rd Decoder_i32;
  flags ← rd Decoder_u32;
  max_osd ← rd Decoder_i32;
  state ← decode_u32_vector (ml_osds limits);
  weight ← decode_u32_vector (ml_osds limits);
  addresses ← decode_address_vector limits;
  temp ← decode_pg_vector_map limits;
  primary ← decode_pg_int_map limits;
  affinity ← decode_u32_vector (ml_osds limits);
  _ ← throw_if (inconsistent_vectors limits max_osd state weight addresses affinity)
        (ME_Malformed "inconsistent OSD vectors");
  crush ← rd Decoder_bytes;
  _ ← finished;
  profiles ← decode_nested_string_map (ml_collection_entries limits);
  upmap ← decode_pg_vector_map limits;
  upmap_items ← decode_pg_remap_items limits;
  crush_version ← rd Decoder_u32;
  removed ← decode_pool_interval_map limits;
  purged ← decode_pool_interval_map limits;
  up_change ← decode_utime;
  in_change ← decode_utime;
  upmap_primaries ← decode_pg_int_map limits;
  _ ← finished;
  mret (mkOSDMap fsid epoch created modified pn.1 pn.2 pool_max flags max_osd state weight
          addresses temp primary affinity crush profiles upmap upmap_items crush_version removed
          purged up_change in_change upmap_primaries 0 false false).

Definition with_crc (crc : Z) (verified : bool) (m : OSDMap) : OSDMap :=
  mkOSDMap (om_fsid m) (om_epoch m) (om_created m) (om_modified m) (om_pools m) (om_name_to_id m)
    (om_pool_max m) (om_flags m) (om_max_osd m) (om_osd_state m) (om_osd_weight m)
    (om_client_addresses m) (om_pg_temp m) (om_primary_temp m) (om_primary_affinity m)
    (om_crush_data m) (om_erasure_code_profiles m) (om_pg_upmap m) (om_pg_upmap_items m)
    (om_crush_version m) (om_new_removed_snapshots m) (om_new_purged_snapshots m)
    (om_last_up_change m) (om_last_in_change m) (om_pg_upmap_primaries m) crc verified
    (om_applied_incremental m).

(** What the wrapper holds: the client's part, a part for the daemons, and
    the checksum. *)
Definition decode_osdmap_wrapper (limits : MapLimits) : MapM OSDMap :=
  vp ← open_versioned 10 10;
  m ← inside vp.2 (decode_client limits);
  vp ← open_versioned 12 0;
  _ ← inside vp.2 finished;
  crc ← rd Decoder_u32;
  _ ← finished;
  mret (with_crc crc false m).

Section Decode.
  Context {crc_crate : Crc32cCrate}.

Definition decode_osdmap (data : list byte) (limits : MapLimits) : result MapError OSDMap :=
  _ ← validate_limits limits;
  '(m, _) ←
    (vp ← open_versioned 8 8;
     m ← inside vp.2 (decode_osdmap_wrapper limits);
     _ ← finished;
     left_ ← remaining;
     _ ← throw_if (negb (left_ =? 0)) (ME_Malformed "trailing osdmap bytes");
     mret m) (Decoder_new data (ml_bytes limits));
  if zlen data <? 10 then Err (ME_Wire Malformed)
  else
    let crc_offset := zlen data - 4 in
    if negb (crc32c u32_max (take (Z.to_nat crc_offset) data) =? om_crc m)
    then Err (ME_Malformed "osdmap CRC mismatch")
    else Ok (with_crc (om_crc m) true m).

End Decode.
