(* ===== verification/Backoff.v ===== *)
(** * Backoffs and object positions

    Models [src/src/osd/backoff.rs] and the cursors and pages of
    [src/src/osd/enumeration.rs]: the order in which an OSD keeps the objects
    of a pool, the ranges of that order an OSD may block, and their encodings. *)

From S2P Require Import Prelude Codec Frame Message Address BTree MapBase OsdMap.
From Stdlib Require Import ZArith Lia Strings.Byte.
From stdpp Require Import base option gmap sorting numbers list.

Open Scope Z_scope.

Definition MESSAGE_OSD_BACKOFF : Z := 61.
Definition BACKOFF_BLOCK : Z := 1.
Definition BACKOFF_ACK_BLOCK : Z := 2.
Definition BACKOFF_UNBLOCK : Z := 3.
Definition CURSOR_MAX_BYTES : Z := 1024.

Record HObject : Type := mkHObject {
  ho_key : list byte;
  ho_object : list byte;
  ho_snapshot : Z;
  ho_hash : Z;
  ho_max : bool;
  ho_namespace : list byte;
  ho_pool : Z
}.

Record Backoff : Type := mkBackoff {
  bo_pg : PG;
  bo_shard : Z;
  bo_map_epoch : Z;
  bo_operation : Z;
  bo_id : Z;
  bo_begin : HObject;
  bo_end : HObject
}.

(** [Limits] of [src/src/osd/messages.rs]. *)
Record OsdLimits : Type := mkOsdLimits { ol_max_bytes : Z; ol_max_operations : Z }.

(** ** The order of objects *)

(** The low [n] bits in reverse; [u32::reverse_bits] for [n = 32]. *)
Fixpoint reverse_bits (n : nat) (z : Z) : Z :=
  match n with
  | O => 0
  | S n => 2 ^ Z.of_nat n * Z.b2z (Z.odd z) + reverse_bits n (z / 2)
  end.

(** [Ordering::then_with]. *)
Definition then_with (c d : comparison) : comparison := match c with Eq => d | _ => c end.

Definition bool_compare (a b : bool) : comparison := Z.compare (Z.b2z a) (Z.b2z b).

Definition effective_key (o : HObject) : list byte :=
  match ho_key o with [] => ho_object o | _ => ho_key o end.

Definition compare_hobject (l r : HObject) : comparison :=
  if ho_max l && ho_max r then Eq
  else
    then_with (bool_compare (ho_max l) (ho_max r))
      (then_with (Z.compare (ho_pool l) (ho_pool r))
        (then_with (Z.compare (reverse_bits 32 (ho_hash l)) (reverse_bits 32 (ho_hash r)))
          (then_with (bytes_compare (ho_namespace l) (ho_namespace r))
            (then_with (match ho_key l, ho_key r with
                        | [], [] => Eq
                        | _, _ => bytes_compare (effective_key l) (effective_key r)
                        end)
              (then_with (bytes_compare (ho_object l) (ho_object r))
                (Z.compare (ho_snapshot l) (ho_snapshot r))))))).

(** [Backoff::contains]. *)
Definition Backoff_contains (b : Backoff) (target : HObject) : bool :=
  match compare_hobject (bo_begin b) (bo_end b) with
  | Eq => match compare_hobject target (bo_begin b) with Eq => true | _ => false end
  | _ =>
      match compare_hobject (bo_begin b) target with
      | Gt => false
      | _ => match compare_hobject target (bo_end b) with Lt => true | _ => false end
      end
  end.

(** ** Encodings *)

Abbreviation WM := (DM WireError).

Definition wire_finished : WM unit := finish_with id.

(** [payload.finish()?] and the check that nothing is left. *)
Definition wire_exact : WM unit :=
  _ ← wire_finished;
  left_ ← remaining;
  throw_if (negb (left_ =? 0)) Malformed.

Definition encode_spg (e : Encoder) (pg : PG) (shard : Z) : Encoder :=
  Encoder_versioned e 1 1 (fun e =>
    Encoder_i8 (Encoder_i32 (Encoder_u32 (Encoder_u64 (Encoder_u8 e 1) (pg_pool pg)) (pg_seed pg))
                  (pg_preferred pg)) shard).

Definition decode_spg : WM (PG * Z) :=
  vp ← rd (fun d => Decoder_versioned d 1);
  _ ← wire_finished;
  inside vp.2
    (first ← rd Decoder_u8;
     _ ← throw_if (negb (vp.1 =? 1) || negb (first =? 1)) (UnsupportedVersion 1 vp.1);
     pool ← rd Decoder_u64;
     seed ← rd Decoder_u32;
     preferred ← rd Decoder_i32;
     shard ← rd Decoder_i8;
     _ ← wire_exact;
     mret (mkPG pool seed preferred, shard)).

Definition encode_hobject (e : Encoder) (o : HObject) : Encoder :=
  Encoder_versioned e 4 3 (fun e =>
    Encoder_i64 (Encoder_bytes (Encoder_bool (Encoder_u32 (Encoder_u64
      (Encoder_bytes (Encoder_bytes e (ho_key o)) (ho_object o)) (ho_snapshot o)) (ho_hash o)) (ho_max o))
      (ho_namespace o)) (ho_pool o)).

Definition decode_hobject : WM HObject :=
  vp ← rd (fun d => Decoder_versioned d 4);
  _ ← wire_finished;
  _ ← throw_if ((vp.1 <? 3) || (4 <? vp.1)) (UnsupportedVersion 4 vp.1);
  inside vp.2
    (key ← rd Decoder_bytes;
     object ← rd Decoder_bytes;
     snapshot ← rd Decoder_u64;
     hash ← rd Decoder_u32;
     max ← rd Decoder_bool;
     np ← (if 4 <=? vp.1
           then (namespace ← rd Decoder_bytes; pool ← rd Decoder_i64; mret (namespace, pool))
           else mret ([], - 2 ^ 63));
     _ ← wire_exact;
     mret (mkHObject key object snapshot hash max np.1 np.2)).

Definition Backoff_encode (b : Backoff) (operation : Z) (limits : OsdLimits) : result WireError Message :=
  let e := Encoder_new (ol_max_bytes limits) in
  let e := encode_spg e (bo_pg b) (bo_shard b) in
  let e := Encoder_u64 (Encoder_u8 (Encoder_u32 e (bo_map_epoch b)) operation) (bo_id b) in
  let e := encode_hobject (encode_hobject e (bo_begin b)) (bo_end b) in
  front ← Encoder_finish e;
  length ← ok_or (try_u 32 (zlen front)) LimitExceeded;
  Ok (mkMessage (mkMessageHeader 0 0 MESSAGE_OSD_BACKOFF 0 1 0 0 0 0 1 0)
        (mkMessageLengths length 0 0) front [] []).

Definition encode_acknowledgment (b : Backoff) (limits : OsdLimits) : result WireError Message :=
  if (ol_max_bytes limits =? 0) || negb (bo_operation b =? BACKOFF_BLOCK) then Err Malformed
  else Backoff_encode b BACKOFF_ACK_BLOCK limits.

Definition decode_backoff_front : WM Backoff :=
  '(pg, shard) ← decode_spg;
  map_epoch ← rd Decoder_u32;
  operation ← rd Decoder_u8;
  _ ← throw_if (negb (operation =? BACKOFF_BLOCK) && negb (operation =? BACKOFF_UNBLOCK))
        (UnsupportedVersion BACKOFF_UNBLOCK operation);
  id ← rd Decoder_u64;
  begin ← decode_hobject;
  end_ ← decode_hobject;
  _ ← wire_exact;
  mret (mkBackoff pg shard map_epoch operation id begin end_).

Definition decode_backoff (m : Message) (limits : OsdLimits) : result WireError Backoff :=
  if (ol_max_bytes limits =? 0) || negb (message_type (header m) =? MESSAGE_OSD_BACKOFF)
     || negb (version (header m) =? 1) || (1 <? compat_version (header m))
     || negb (zlen (middle m) =? 0) || negb (zlen (data m) =? 0) || (ol_max_bytes limits <? zlen (front m))
  then Err Malformed
  else fst <$> decode_backoff_front (Decoder_new (front m) (ol_max_bytes limits)).

(** *** Enumeration *)

Record ListEntry : Type := mkListEntry {
  le_namespace : list byte;
  le_object : list byte;
  le_locator : list byte
}.

Record ListPage : Type := mkListPage { lp_next : HObject; lp_entries : list ListEntry }.

Definition decode_list_entry : WM ListEntry :=
  namespace ← rd Decoder_bytes;
  object ← rd Decoder_bytes;
  locator ← rd Decoder_bytes;
  _ ← wire_finished;
  mret (mkListEntry namespace object locator).

(** The page and what is left of its envelope. *)
Definition decode_page_payload (max_entries : Z) : WM (ListPage * Z) :=
  next ← decode_hobject;
  count ← rd Decoder_u32;
  _ ← wire_finished;
  left_ ← remaining;
  _ ← throw_if ((max_entries <? count) || (left_ <? Z.min (count * 12) u64_max)) LimitExceeded;
  entries ← repeat_read (Z.to_nat count) decode_list_entry;
  left_ ← remaining;
  mret (mkListPage next entries, left_).

Definition decode_page (data : list byte) (max_bytes max_entries : Z) : result WireError ListPage :=
  fst <$>
  (vp ← rd (fun d => Decoder_versioned d 1);
   _ ← wire_finished;
   _ ← throw_if (negb (vp.1 =? 1)) (UnsupportedVersion 1 vp.1);
   '(page, inner) ← inside vp.2 (decode_page_payload max_entries);
   outer ← remaining;
   _ ← throw_if (negb (inner =? 0) || negb (outer =? 0)) Malformed;
   mret page) (Decoder_new data max_bytes).

Definition marshal_cursor (cursor : HObject) : result WireError (list byte) :=
  Encoder_finish (encode_hobject (Encoder_new CURSOR_MAX_BYTES) cursor).

Definition unmarshal_cursor (data : list byte) : result WireError HObject :=
  fst <$>
  (cursor ← decode_hobject;
   left_ ← remaining;
   _ ← throw_if (negb (left_ =? 0)) Malformed;
   mret cursor) (Decoder_new data CURSOR_MAX_BYTES).

(** ** Orders from comparisons *)

(** A comparison that orders the values of a type totally. *)
Class Ordered {A} (cmp : A -> A -> comparison) : Prop := {
  cmp_eq a b : cmp a b = Eq <-> a = b;
  cmp_opp a b : cmp b a = CompOpp (cmp a b);
  cmp_lt a b c : cmp a b = Lt -> cmp b c = Lt -> cmp a c = Lt
}.

#[export] Instance Z_ordered : Ordered Z.compare.
Proof.
  constructor.
  - apply Z.compare_eq_iff.
  - intros a b. apply Z.compare_antisym.
  - intros a b c. rewrite !Z.compare_lt_iff. lia.
Qed.

(** Pairs in lexicographic order. *)
Definition lex {A B} (f : A -> A -> comparison) (g : B -> B -> comparison) (x y : A * B) : comparison :=
  then_with (f x.1 y.1) (g x.2 y.2).

#[export] Instance lex_ordered {A B} (f : A -> A -> comparison) (g : B -> B -> comparison)
    `{!Ordered f} `{!Ordered g} : Ordered (lex f g).
Proof.
  constructor; unfold lex, then_with.
  - intros [a1 b1] [a2 b2]. cbn. pose proof (cmp_eq a1 a2) as Ha. pose proof (cmp_eq b1 b2) as Hb.
    destruct (f a1 a2), (g b1 b2); split; intros; simplify_eq; intuition congruence.
  - intros [a1 b1] [a2 b2]. cbn. rewrite (cmp_opp (cmp := f) a1 a2), (cmp_opp (cmp := g) b1 b2). by destruct (f a1 a2).
  - intros [a1 b1] [a2 b2] [a3 b3]. cbn. destruct (f a1 a2) eqn:E1; [|intros _|done].
    + apply cmp_eq in E1 as ->. destruct (f a2 a3); [apply cmp_lt|done|done].
    + destruct (f a2 a3) eqn:E2; [|intros _|done].
      * apply cmp_eq in E2 as <-. by rewrite E1.
      * by rewrite (cmp_lt _ _ _ E1 E2).
Qed.

#[export] Instance bytes_ordered : Ordered bytes_compare.
Proof.
  constructor.
  - induction a as [|x a IH]; intros [|y b]; try done. cbn.
    destruct (Z.compare_spec (Z_of_byte x) (Z_of_byte y)) as [E|E|E]; split; intros H; try done; simplify_eq; try lia.
    + apply Z_of_byte_inj in E as ->. f_equal. by apply IH.
    + by apply IH.
  - induction a as [|x a IH]; intros [|y b]; try done. cbn. rewrite (Z.compare_antisym (Z_of_byte x)).
    destruct (Z_of_byte x ?= Z_of_byte y); [apply IH|done|done].
  - induction a as [|x a IH]; intros [|y b] [|z c]; try done. cbn.
    destruct (Z.compare_spec (Z_of_byte x) (Z_of_byte y)) as [E|E|E]; [|intros _|done].
    + rewrite E. destruct (Z_of_byte y ?= Z_of_byte z); [apply IH|done|done].
    + destruct (Z.compare_spec (Z_of_byte y) (Z_of_byte z)) as [E2|E2|E2]; [intros _|intros _|done];
        (rewrite (proj2 (Z.compare_lt_iff _ _)); [done|lia]).
Qed.

Lemma reverse_bits_range n : forall z, 0 <= reverse_bits n z < 2 ^ Z.of_nat n.
Proof.
  induction n as [|n IH]; intros z; [done|]. cbn [reverse_bits]. rewrite Nat2Z.inj_succ, Z.pow_succ_r by lia.
  specialize (IH (z / 2)). destruct (Z.odd z); cbn [Z.b2z]; lia.
Qed.

Lemma reverse_bits_inj n : forall a b,
  in_u (Z.of_nat n) a -> in_u (Z.of_nat n) b -> reverse_bits n a = reverse_bits n b -> a = b.
Proof.
  induction n as [|n IH]; intros a b Ha Hb H; unfold in_u in *; [change (2 ^ Z.of_nat 0) with 1 in *; lia|].
  rewrite Nat2Z.inj_succ, Z.pow_succ_r in Ha, Hb by lia. cbn [reverse_bits] in H.
  pose proof (reverse_bits_range n (a / 2)). pose proof (reverse_bits_range n (b / 2)).
  assert (Z.odd a = Z.odd b /\ reverse_bits n (a / 2) = reverse_bits n (b / 2)) as [Ho Hr]
    by (destruct (Z.odd a), (Z.odd b); cbn [Z.b2z] in H; split; done || lia).
  apply IH in Hr; [|unfold in_u; split; [apply Z.div_pos|apply Z.div_lt_upper_bound]; lia..].
  rewrite (Z.div_mod a 2), (Z.div_mod b 2), !Zmod_odd, Ho by lia. lia.
Qed.

#[local] Opaque reverse_bits.

(** ** Places *)

Definition Place : Type := bool * (Z * (Z * (list byte * (list byte * (list byte * Z))))).

(** Where an object stands; everything marked [max] is in one place, the end. *)
Definition place_of (o : HObject) : Place :=
  if ho_max o then (true, (0, (0, ([], ([], ([], 0))))))
  else (false, (ho_pool o, (reverse_bits 32 (ho_hash o), (ho_namespace o,
          (effective_key o, (ho_object o, ho_snapshot o)))))).

#[export] Instance bool_ordered : Ordered bool_compare.
Proof. constructor; [intros [] []; by split|by intros [] []|by intros [] [] []]. Qed.

Definition place_compare : Place -> Place -> comparison :=
  lex bool_compare (lex Z.compare (lex Z.compare (lex bytes_compare (lex bytes_compare (lex bytes_compare Z.compare))))).

Lemma compare_place a b : compare_hobject a b = place_compare (place_of a) (place_of b).
Proof.
  unfold compare_hobject, place_compare, place_of, lex. destruct (ho_max a), (ho_max b); try done.
  cbn [andb fst snd]. do 4 f_equal. unfold effective_key.
  destruct (ho_key a) as [|x k], (ho_key b) as [|y k']; try done.
  unfold then_with. by destruct (bytes_compare (ho_object a) (ho_object b)).
Qed.

Definition same_place (a b : HObject) : Prop :=
  if ho_max a then ho_max b = true
  else ho_max b = false /\ ho_pool a = ho_pool b /\ ho_hash a = ho_hash b /\ ho_namespace a = ho_namespace b
    /\ effective_key a = effective_key b /\ ho_object a = ho_object b /\ ho_snapshot a = ho_snapshot b.

Lemma same_place_of a b :
  in_u 32 (ho_hash a) -> in_u 32 (ho_hash b) -> place_of a = place_of b <-> same_place a b.
Proof.
  intros Ha Hb. unfold place_of, same_place. destruct (ho_max a), (ho_max b); try (intuition congruence).
  split.
  - intros H. injection H as ? Hr ?. apply (reverse_bits_inj 32) in Hr; [by split_and!|done|done].
  - intros (_ & -> & -> & -> & -> & -> & ->). done.
Qed.

#[export] Instance place_ordered : Ordered place_compare.
Proof. unfold place_compare. apply _. Qed.

(** [compare_hobject] is a total order of the places objects have: swapping
    the objects swaps the outcome, it is transitive, and it finds two objects
    equal exactly when both are the end, or they agree in pool, hash,
    namespace, effective key, name and snapshot. *)
Theorem hobject_total_order a b c :
  in_u 32 (ho_hash a) -> in_u 32 (ho_hash b) ->
  compare_hobject b a = CompOpp (compare_hobject a b)
  /\ (compare_hobject a b = Eq <-> same_place a b)
  /\ (compare_hobject a b = Lt -> compare_hobject b c = Lt -> compare_hobject a c = Lt)
  /\ (compare_hobject a b = Eq -> compare_hobject a c = compare_hobject b c).
Proof.
  intros Ha Hb. rewrite !compare_place. split_and!.
  - apply cmp_opp.
  - by rewrite cmp_eq, same_place_of.
  - apply cmp_lt.
  - by intros ->%cmp_eq.
Qed.

(** ** Ranges *)

Definition with_range (b : Backoff) (begin end_ : HObject) : Backoff :=
  mkBackoff (bo_pg b) (bo_shard b) (bo_map_epoch b) (bo_operation b) (bo_id b) begin end_.

(** A range cut at an object inside it falls into two disjoint ranges: an
    object is blocked by the whole exactly when one of the parts blocks it, and
    never by both. *)
Theorem backoff_split b mid target :
  compare_hobject (bo_begin b) mid = Lt -> compare_hobject mid (bo_end b) = Lt ->
  Backoff_contains b target
  = xorb (Backoff_contains (with_range b (bo_begin b) mid) target)
         (Backoff_contains (with_range b mid (bo_end b)) target).
Proof.
  unfold Backoff_contains. cbn [bo_begin bo_end with_range]. rewrite !compare_place. intros H1 H2.
  rewrite (cmp_lt _ _ _ H1 H2), H1, H2. rewrite (cmp_opp (place_of target) (place_of mid)).
  destruct (place_compare (place_of target) (place_of mid)) eqn:E; cbn [CompOpp].
  - apply cmp_eq in E as ->. by rewrite H1, H2.
  - rewrite (cmp_lt _ _ _ E H2). by destruct (place_compare (place_of (bo_begin b)) (place_of target)).
  - assert (place_compare (place_of mid) (place_of target) = Lt) as E' by (by rewrite cmp_opp, E).
    rewrite (cmp_lt _ _ _ H1 E'). by destruct (place_compare (place_of target) (place_of (bo_end b))).
Qed.

(** ** Round trips *)

Definition spg_fields (pg : PG) (shard : Z) : list Field :=
  [F_u8 1; F_u64 (pg_pool pg); F_u32 (pg_seed pg); F_i32 (pg_preferred pg); F_i8 shard].

Definition hobject_fields (o : HObject) : list Field :=
  [F_bytes (ho_key o); F_bytes (ho_object o); F_u64 (ho_snapshot o); F_u32 (ho_hash o); F_bool (ho_max o);
   F_bytes (ho_namespace o); F_i64 (ho_pool o)].

(** The values are in the ranges of their Rust types. *)
Definition hobject_ok (o : HObject) : Prop := Forall field_valid (hobject_fields o).

Definition spg_image (pg : PG) (shard : Z) : list byte := versioned_image 1 1 (fields_image (spg_fields pg shard)).

Definition hobject_image (o : HObject) : list byte := versioned_image 4 3 (fields_image (hobject_fields o)).

(** An envelope around fields, when there is room for it. *)
Lemma versioned_fields e version compatible fs :
  in_u 8 version -> in_u 8 compatible -> Forall field_valid fs -> zlen (fields_image fs) < 2 ^ 32 ->
  fits e (versioned_image version compatible (fields_image fs)) ->
  Encoder_versioned e version compatible (fun e => put_fields e fs)
  = written e (versioned_image version compatible (fields_image fs)).
Proof.
  intros Hv Hc Hf Hl Hfit. pose proof (zlen_nonneg (fields_image fs)). apply Encoder_versioned_image; try done.
  apply put_fields_image; [done|]. destruct Hfit as [_ Hfit]. split; [done|].
  unfold versioned_image in Hfit. autorewrite with zlen in Hfit. cbn [Encoder_new enc_bytes enc_limit].
  pose proof (zlen_nonneg (enc_bytes e)). change (zlen (@nil byte)) with 0. unfold u32_max. lia.
Qed.

(** Opening an envelope and reading its fields, to the last byte. *)
Lemma within_envelope {A} (read : Z * Decoder -> WM A) local version compatible fs a d rest :
  in_u 8 version -> in_u 8 compatible -> compatible <= local -> in_u 32 (zlen (fields_image fs)) ->
  zlen (fields_image fs) <= dec_max_bytes d ->
  unread d (versioned_image version compatible (fields_image fs) ++ rest) ->
  read (version, Decoder_new (fields_image fs) (dec_max_bytes d))
    (advanced d (zlen (versioned_image version compatible (fields_image fs))))
  = Ok (a, advanced d (zlen (versioned_image version compatible (fields_image fs)))) ->
  (vp ← rd (fun d => Decoder_versioned d local); _ ← wire_finished; read vp) d
  = Ok (a, advanced d (zlen (versioned_image version compatible (fields_image fs)))).
Proof.
  intros Hv Hc Hle Hl Hm Hu Hr. unfold rd at 1. unfold mbind at 1, DM_bind at 1.
  rewrite (Decoder_versioned_image d local version compatible _ rest) by done.
  apply unread_app in Hu. unfold wire_finished. by rewrite (finish_with_unread _ _ _ _ Hu).
Qed.

Lemma wire_exact_done {B} (k : unit -> WM B) d : unread d [] -> (wire_exact ≫= k) d = k tt d.
Proof.
  intros Hu. apply DM_bind_Ok. unfold wire_exact, wire_finished.
  by rewrite (finish_with_unread _ _ _ _ Hu), (remaining_unread _ _ _ Hu).
Qed.

Lemma DM_bind_assoc {E A B C} (m : DM E A) (f : A -> DM E B) (k : B -> DM E C) d :
  ((m ≫= f) ≫= k) d = (m ≫= (fun a => f a ≫= k)) d.
Proof. unfold mbind, DM_bind. by destruct (m d) as [[a d']|]. Qed.

Lemma DM_ret_bind {E A B} (a : A) (k : A -> DM E B) d : (mret a ≫= k) d = k a d.
Proof. done. Qed.

Lemma inside_Ok {A} payload (m : WM A) a d : (exists d', m payload = Ok (a, d')) -> inside payload m d = Ok (a, d).
Proof. intros [d' H]. unfold inside, lift. by rewrite H. Qed.

Lemma decode_hobject_image o d rest :
  hobject_ok o -> in_u 32 (zlen (fields_image (hobject_fields o))) ->
  zlen (fields_image (hobject_fields o)) <= dec_max_bytes d -> unread d (hobject_image o ++ rest) ->
  decode_hobject d = Ok (o, advanced d (zlen (hobject_image o))).
Proof.
  intros Ho Hl Hm Hu. apply (within_envelope _ 4 4 3 _ _ _ rest); try done.
  cbn [fst snd]. rewrite throw_if_false by done. apply inside_Ok.
  remember (dec_max_bytes d) as max eqn:Emax. clear Emax Hu. eexists.
  assert (unread (Decoder_new (fields_image (hobject_fields o)) max) (fields_image (hobject_fields o))) as Hu by done.
  unfold hobject_ok, hobject_fields in *. repeat apply Forall_cons in Ho as [? Ho].
  unfold fields_image in Hu at 2, Hm. cbn [map concat field_image] in Hu, Hm. autorewrite with zlen in Hm.
  pose proof (zlen_nonneg (ho_key o)). pose proof (zlen_nonneg (ho_object o)). pose proof (zlen_nonneg (ho_namespace o)).
  do 5 (read_step; [|cbn; lia..]). cbn [Z.leb Z.compare Pos.compare Pos.compare_cont].
  rewrite DM_bind_assoc. read_step; [|cbn; lia..]. rewrite DM_bind_assoc. read_step.
  rewrite DM_ret_bind, wire_exact_done by done. unfold mret, DM_ret. do 2 f_equal. by destruct o.
Qed.

Lemma decode_spg_image pg shard d rest :
  Forall field_valid (spg_fields pg shard) -> 32 <= dec_max_bytes d -> unread d (spg_image pg shard ++ rest) ->
  decode_spg d = Ok ((pg, shard), advanced d (zlen (spg_image pg shard))).
Proof.
  intros Hv Hm Hu.
  assert (zlen (fields_image (spg_fields pg shard)) = 18) as Hl
    by (unfold fields_image; cbn [spg_fields map concat field_image]; by autorewrite with zlen).
  apply (within_envelope _ 1 1 1 _ _ _ rest); try done; try (rewrite ?Hl; unfold in_u; lia). cbn [fst snd]. apply inside_Ok.
  remember (dec_max_bytes d) as max eqn:Emax. clear Emax Hu. eexists.
  assert (unread (Decoder_new (fields_image (spg_fields pg shard)) max) (fields_image (spg_fields pg shard))) as Hu by done.
  unfold spg_fields in *. repeat apply Forall_cons in Hv as [? Hv].
  unfold fields_image in Hu at 2. cbn [map concat field_image] in Hu.
  read_step. rewrite throw_if_false by done. do 4 read_step. rewrite wire_exact_done by done. unfold mret, DM_ret. do 3 f_equal. by destruct pg.
Qed.

Lemma encode_hobject_image o e :
  hobject_ok o -> zlen (fields_image (hobject_fields o)) < 2 ^ 32 -> fits e (hobject_image o) ->
  encode_hobject e o = written e (hobject_image o).
Proof. intros. by apply (versioned_fields e 4 3 (hobject_fields o)). Qed.

Lemma encode_spg_image pg shard e :
  Forall field_valid (spg_fields pg shard) -> fits e (spg_image pg shard) ->
  encode_spg e pg shard = written e (spg_image pg shard).
Proof. intros. by apply (versioned_fields e 1 1 (spg_fields pg shard)). Qed.

Lemma zlen_hobject_image o : zlen (hobject_image o) = 6 + zlen (fields_image (hobject_fields o)).
Proof. unfold hobject_image, versioned_image. autorewrite with zlen. lia. Qed.

(** The values are in the ranges of their Rust types. *)
Record backoff_ok (b : Backoff) : Prop := {
  bk_spg : Forall field_valid (spg_fields (bo_pg b) (bo_shard b));
  bk_epoch : in_u 32 (bo_map_epoch b);
  bk_operation : in_u 8 (bo_operation b);
  bk_id : in_u 64 (bo_id b);
  bk_begin : hobject_ok (bo_begin b);
  bk_end : hobject_ok (bo_end b)
}.

Definition backoff_image (b : Backoff) : list byte :=
  spg_image (bo_pg b) (bo_shard b) ++ le_bytes 4 (bo_map_epoch b) ++ le_bytes 1 (bo_operation b)
  ++ le_bytes 8 (bo_id b) ++ hobject_image (bo_begin b) ++ hobject_image (bo_end b) ++ [].

Lemma zlen_backoff_image b :
  zlen (backoff_image b) = 37 + zlen (hobject_image (bo_begin b)) + zlen (hobject_image (bo_end b)).
Proof.
  unfold backoff_image, spg_image, versioned_image, fields_image. cbn [spg_fields map concat field_image].
  autorewrite with zlen. lia.
Qed.

Lemma Backoff_encode_image b limits :
  backoff_ok b -> in_u 32 (ol_max_bytes limits) -> zlen (backoff_image b) <= ol_max_bytes limits ->
  Backoff_encode b (bo_operation b) limits
  = Ok (mkMessage (mkMessageHeader 0 0 MESSAGE_OSD_BACKOFF 0 1 0 0 0 0 1 0)
          (mkMessageLengths (zlen (backoff_image b)) 0 0) (backoff_image b) [] []).
Proof.
  intros [] Hm Hl. unfold in_u in Hm. pose proof (zlen_backoff_image b) as Hz. rewrite !zlen_hobject_image in Hz.
  pose proof (zlen_nonneg (fields_image (hobject_fields (bo_begin b)))).
  pose proof (zlen_nonneg (fields_image (hobject_fields (bo_end b)))).
  assert (fits (Encoder_new (ol_max_bytes limits)) (backoff_image b)) as Hf
    by (split; [done|]; cbn; change (zlen (@nil byte)) with 0; lia).
  unfold Backoff_encode, backoff_image in *. cbv zeta.
  apply fits_app in Hf as [F1 Hf]. rewrite encode_spg_image by done.
  apply fits_app in Hf as [F2 Hf]. rewrite (put_image (put := Encoder_u32)) by done.
  apply fits_app in Hf as [F3 Hf]. rewrite (put_image (put := Encoder_u8)) by done.
  apply fits_app in Hf as [F4 Hf]. rewrite (put_image (put := Encoder_u64)) by done.
  apply fits_app in Hf as [F5 Hf]. rewrite (encode_hobject_image (bo_begin b)) by (done || lia).
  apply fits_app in Hf as [F6 _]. rewrite encode_hobject_image by (done || lia).
  rewrite !written_app, app_nil_r. cbn [written Encoder_new enc_bytes enc_error Encoder_finish mbind result_bind app].
  rewrite app_nil_r in Hl, Hz. unfold try_u.
  by rewrite (proj2 (Z.leb_le _ _)), (proj2 (Z.ltb_lt _ _)) by lia.
Qed.

Lemma decode_front_image b d :
  backoff_ok b -> zlen (backoff_image b) <= dec_max_bytes d -> dec_max_bytes d < 2 ^ 32 ->
  bo_operation b = BACKOFF_BLOCK \/ bo_operation b = BACKOFF_UNBLOCK -> unread d (backoff_image b) ->
  exists d', decode_backoff_front d = Ok (b, d').
Proof.
  intros [] Hl Hm Hop Hu. pose proof (zlen_backoff_image b) as Hz. rewrite !zlen_hobject_image in Hz.
  pose proof (zlen_nonneg (fields_image (hobject_fields (bo_begin b)))).
  pose proof (zlen_nonneg (fields_image (hobject_fields (bo_end b)))).
  assert (32 <= dec_max_bytes d) as H32 by lia. eexists.
  unfold backoff_image in Hu. unfold decode_backoff_front.
  rewrite (DM_bind_Ok _ _ _ _ _ (decode_spg_image _ _ _ _ bk_spg0 H32 Hu)). apply unread_app in Hu.
  do 2 read_step. rewrite throw_if_false by (by destruct Hop as [->| ->]). read_step.
  erewrite DM_bind_Ok; [|eapply decode_hobject_image; [exact bk_begin0|unfold in_u; lia|cbn [dec_max_bytes advanced Decoder_new]; lia|exact Hu]]. apply unread_app in Hu.
  erewrite DM_bind_Ok; [|eapply decode_hobject_image; [exact bk_end0|unfold in_u; lia|cbn [dec_max_bytes advanced Decoder_new]; lia|exact Hu]]. apply unread_app in Hu.
  rewrite wire_exact_done by done. unfold mret, DM_ret. do 2 f_equal. by destruct b.
Qed.

(** A backoff within the limit survives the wire: its encoding succeeds and
    [decode_backoff] gives back the group, shard, epoch, range and identifier. *)
Theorem backoff_roundtrip b limits :
  backoff_ok b -> in_u 32 (ol_max_bytes limits) -> zlen (backoff_image b) <= ol_max_bytes limits ->
  bo_operation b = BACKOFF_BLOCK \/ bo_operation b = BACKOFF_UNBLOCK ->
  exists m, Backoff_encode b (bo_operation b) limits = Ok m /\ decode_backoff m limits = Ok b.
Proof.
  intros Hb Hm Hl Hop. eexists. split; [by apply Backoff_encode_image|]. unfold in_u in Hm.
  pose proof (zlen_backoff_image b). pose proof (zlen_nonneg (hobject_image (bo_begin b))).
  pose proof (zlen_nonneg (hobject_image (bo_end b))).
  unfold decode_backoff. cbn [header front middle data message_type version compat_version].
  rewrite (proj2 (Z.eqb_neq (ol_max_bytes limits) 0)), (proj2 (Z.ltb_ge (ol_max_bytes limits) (zlen (backoff_image b)))) by lia.
  cbn [negb orb]. change (zlen (@nil byte) =? 0) with true. cbn [negb orb Z.eqb Z.ltb Z.compare].
  destruct (decode_front_image b (Decoder_new (backoff_image b) (ol_max_bytes limits))) as [d' ->];
    (done || (cbn [dec_max_bytes Decoder_new]; lia)).
Qed.

(** A cursor of at most 1024 bytes comes back as the caller handed it out. *)
Lemma cursor_roundtrip o :
  hobject_ok o -> zlen (hobject_image o) <= CURSOR_MAX_BYTES ->
  exists bytes, marshal_cursor o = Ok bytes /\ unmarshal_cursor bytes = Ok o.
Proof.
  intros Ho Hl. exists (hobject_image o). pose proof (zlen_hobject_image o). unfold CURSOR_MAX_BYTES in *.
  pose proof (zlen_nonneg (fields_image (hobject_fields o))). split.
  - unfold marshal_cursor, CURSOR_MAX_BYTES. rewrite encode_hobject_image; [done|done|lia|].
    split; [done|]. cbn [Encoder_new enc_bytes enc_limit]. change (zlen (@nil byte)) with 0. lia.
  - unfold unmarshal_cursor, CURSOR_MAX_BYTES.
    assert (unread (Decoder_new (hobject_image o) 1024) (hobject_image o ++ [])) as Hu by (by rewrite app_nil_r).
    erewrite DM_bind_Ok; [|eapply decode_hobject_image; [exact Ho|unfold in_u; lia|cbn [dec_max_bytes advanced Decoder_new]; lia|exact Hu]].
    apply unread_app in Hu. by rewrite (remaining_unread _ _ _ Hu).
Qed.

(** ** Witnesses *)

Definition test_object (name : list byte) : HObject := mkHObject [] name (2 ^ 64 - 2) 5 false [] 3.

Definition test_backoff : Backoff :=
  mkBackoff (mkPG 3 5 (-1)) (-1) 9 BACKOFF_BLOCK 77 (test_object [x61]) (test_object [x63]).

Lemma test_backoff_ok : backoff_ok test_backoff.
Proof. constructor; repeat constructor; unfold in_u, in_i; vm_compute; intuition discriminate. Qed.

Lemma backoff_roundtrip_witness :
  exists m, Backoff_encode test_backoff BACKOFF_BLOCK (mkOsdLimits 4096 16) = Ok m
    /\ decode_backoff m (mkOsdLimits 4096 16) = Ok test_backoff.
Proof.
  apply (backoff_roundtrip test_backoff (mkOsdLimits 4096 16)); [apply test_backoff_ok| |vm_compute; discriminate|by left].
  vm_compute. intuition discriminate.
Defined.

Lemma backoff_split_witness :
  Backoff_contains test_backoff (test_object [x62])
  = xorb (Backoff_contains (with_range test_backoff (test_object [x61]) (test_object [x61; x7a])) (test_object [x62]))
         (Backoff_contains (with_range test_backoff (test_object [x61; x7a]) (test_object [x63])) (test_object [x62])).
Proof. apply (backoff_split test_backoff (test_object [x61; x7a])); vm_compute; reflexivity. Defined.

Lemma hobject_total_order_witness :
  compare_hobject (test_object [x61]) (test_object [x62]) = Lt
  /\ compare_hobject (test_object [x62]) (test_object [x61])
     = CompOpp (compare_hobject (test_object [x61]) (test_object [x62])).
Proof.
  split; [vm_compute; reflexivity|].
  assert (in_u 32 5) as H5 by (unfold in_u; lia).
  exact (proj1 (hobject_total_order (test_object [x61]) (test_object [x62]) (test_object []) H5 H5)).
Defined.
