(* ===== verification/MapStore.v ===== *)
(** * The map store

    Models [src/src/maps/store.rs]: the current pair of a monitor map and an
    OSD map and the pairs before it.  The lock of the store is a parameter of
    each operation: whether an earlier panic poisoned it. *)

From S2P Require Import Prelude Codec MapBase MonMap Pool OsdMap.
From Stdlib Require Import ZArith Lia Strings.Byte.
From stdpp Require Import base option gmap sorting numbers list.

Open Scope Z_scope.

Record MapSnapshot : Type := mkMapSnapshot {
  ms_monmap : MonMap;
  ms_osdmap : OSDMap
}.

Definition MapSnapshot_new (monmap : MonMap) (osdmap : OSDMap) : result MapError MapSnapshot :=
  if negb (bool_decide (mm_fsid monmap = om_fsid osdmap)) then Err ME_FsidMismatch
  else Ok (mkMapSnapshot monmap osdmap).

Definition snapshot_fsid (s : MapSnapshot) : list byte := om_fsid (ms_osdmap s).

Record PublishedMaps : Type := mkPublishedMaps {
  pm_current : MapSnapshot;
  pm_history : list MapSnapshot
}.

Record MapStore : Type := mkMapStore {
  store_history_limit : Z;
  store_published : PublishedMaps
}.

Definition MapStore_new (initial : MapSnapshot) (limit : Z) : MapStore :=
  mkMapStore limit (mkPublishedMaps initial []).

Definition MapStore_load (poisoned : bool) (s : MapStore) : result MapError MapSnapshot :=
  if poisoned then Err ME_LockPoisoned else Ok (pm_current (store_published s)).

Definition MapStore_publish (poisoned : bool) (next : MapSnapshot) (s : MapStore) : result MapError MapSnapshot * MapStore :=
  let current := pm_current (store_published s) in
  if poisoned then (Err ME_LockPoisoned, s)
  else if negb (bool_decide (snapshot_fsid next = snapshot_fsid current)) then (Err ME_FsidMismatch, s)
  else if (om_epoch (ms_osdmap next) <=? om_epoch (ms_osdmap current))
          || (mm_epoch (ms_monmap next) <? mm_epoch (ms_monmap current))
  then (Err ME_InvalidSequence, s)
  else
    let history := if negb (store_history_limit s =? 0)
                   then take (Z.to_nat (store_history_limit s)) (current :: pm_history (store_published s))
                   else pm_history (store_published s) in
    (Ok next, mkMapStore (store_history_limit s) (mkPublishedMaps next history)).

Definition MapStore_history (poisoned : bool) (s : MapStore) : result MapError (list MapSnapshot) :=
  if poisoned then Err ME_LockPoisoned else Ok (pm_history (store_published s)).

(** ** What the store holds *)

(** A sequence of attempts to publish, each with the state of the lock. *)
Fixpoint publish_all (attempts : list (bool * MapSnapshot)) (s : MapStore) : MapStore :=
  match attempts with
  | [] => s
  | (poisoned, next) :: attempts => publish_all attempts (MapStore_publish poisoned next s).2
  end.

(** The snapshots a log would hold, newest first: the initial one and the
    ones accepted. *)
Fixpoint publish_log (attempts : list (bool * MapSnapshot)) (log : list MapSnapshot) : list MapSnapshot :=
  match attempts, log with
  | (poisoned, next) :: attempts, current :: _ =>
      publish_log attempts
        (if negb poisoned && bool_decide (snapshot_fsid next = snapshot_fsid current)
            && (om_epoch (ms_osdmap current) <? om_epoch (ms_osdmap next))
            && (mm_epoch (ms_monmap current) <=? mm_epoch (ms_monmap next))
         then next :: log else log)
  | _, _ => log
  end.

(** [a] was published after [b]. *)
Definition supersedes (a b : MapSnapshot) : Prop :=
  snapshot_fsid a = snapshot_fsid b /\ om_epoch (ms_osdmap b) < om_epoch (ms_osdmap a)
  /\ mm_epoch (ms_monmap b) <= mm_epoch (ms_monmap a).

(** The store keeps the newest of the log, as many as its limit asks for. *)
Definition keeps_log (s : MapStore) (log : list MapSnapshot) : Prop :=
  exists current earlier, log = current :: earlier /\ pm_current (store_published s) = current
  /\ pm_history (store_published s) = take (Z.to_nat (store_history_limit s)) earlier
  /\ StronglySorted supersedes log.

Lemma take_shorter {A} n (x : A) l : take n (x :: take n l) = take n (x :: l).
Proof. destruct n as [|n]; [done|]. cbn. f_equal. rewrite take_take. f_equal. lia. Qed.

Lemma supersedes_trans : Transitive supersedes.
Proof. intros a b c (H1 & H2 & H3) (H4 & H5 & H6). split_and!; [congruence|lia|lia]. Qed.

Lemma publish_keeps poisoned next s log :
  keeps_log s log ->
  keeps_log (MapStore_publish poisoned next s).2
    (if negb poisoned && bool_decide (snapshot_fsid next = snapshot_fsid (pm_current (store_published s)))
        && (om_epoch (ms_osdmap (pm_current (store_published s))) <? om_epoch (ms_osdmap next))
        && (mm_epoch (ms_monmap (pm_current (store_published s))) <=? mm_epoch (ms_monmap next))
     then next :: log else log)
  /\ store_history_limit (MapStore_publish poisoned next s).2 = store_history_limit s.
Proof.
  intros (current & earlier & -> & Hc & Hh & Hs). unfold MapStore_publish. rewrite Hc.
  destruct poisoned; cbn [negb andb]; [split; [by exists current, earlier|done]|].
  case_bool_decide as Hf; cbn [negb andb]; [|split; [by exists current, earlier|done]].
  rewrite (Z.ltb_antisym (om_epoch (ms_osdmap next))), (Z.leb_antisym (mm_epoch (ms_monmap next))), <- negb_orb.
  destruct (_ || _) eqn:He; cbn [negb snd]; [split; [by exists current, earlier|done]|]. bool_prop. split; [|done].
  exists next, (current :: earlier). cbn. split_and!; [done|done| |].
  - rewrite Hh. destruct (Z.eqb_spec (store_history_limit s) 0) as [Hz|Hz]; cbn [negb]; [by rewrite Hz|apply take_shorter].
  - constructor; [done|]. assert (supersedes next current) as Hn by (split_and!; [done|lia|lia]). constructor; [done|].
    inversion Hs as [|? ? _ Hall]; subst. eapply Forall_impl; [exact Hall|]. intros x. by apply supersedes_trans.
Qed.

Lemma publish_all_keeps attempts : forall s log,
  keeps_log s log ->
  keeps_log (publish_all attempts s) (publish_log attempts log)
  /\ store_history_limit (publish_all attempts s) = store_history_limit s.
Proof.
  induction attempts as [|[poisoned next] attempts IH]; intros s log Hk; [done|].
  destruct (publish_keeps poisoned next s log Hk) as [Hk' Hl']. destruct Hk as (current & earlier & -> & Hc & _).
  cbn [publish_all publish_log]. rewrite Hc in Hk'. destruct (IH _ _ Hk') as [IH1 IH2].
  split; [done|]. by rewrite IH2.
Qed.

(** Whatever is published and whenever the lock is poisoned, the store is
    the head of the log of what was accepted: its current snapshot is the last
    accepted one, its history the ones before it, newest first and no more of
    them than the limit. Along the log the cluster stays the same, the epochs
    of the OSD map grow and those of the monitor map never shrink. *)
Theorem store_is_log attempts initial limit :
  let s := publish_all attempts (MapStore_new initial limit) in
  exists current earlier,
    publish_log attempts [initial] = current :: earlier
    /\ MapStore_load false s = Ok current
    /\ MapStore_history false s = Ok (take (Z.to_nat limit) earlier)
    /\ StronglySorted supersedes (current :: earlier).
Proof.
  intros s. destruct (publish_all_keeps attempts (MapStore_new initial limit) [initial]) as [Hk Hlim].
  { exists initial, []. cbn. rewrite take_nil. split_and!; [done|done|done|by repeat constructor]. }
  destruct Hk as (current & earlier & Hlog & Hc & Hh & Hs). exists current, earlier. rewrite Hlog in Hs.
  unfold MapStore_load, MapStore_history, s. by rewrite Hc, Hh, Hlim.
Qed.
