(* ===== verification/Incremental.v ===== *)
(** * Incremental OSD maps

    Models [src/src/maps/incremental.rs]: the decoder of an incremental and
    its application to a map.  The application walks hash maps, whose order
    Rust leaves open; the order is a parameter of the model. *)

From S2P Require Import Prelude Codec Frame Address MapBase MonMap Pool OsdMap.
From Stdlib Require Import ZArith Lia Strings.Byte Strings.String.
From stdpp Require Import base option gmap sorting numbers list.

Open Scope Z_scope.

Definition DEFAULT_PRIMARY_AFFINITY : Z := 0x10000.

(** ** Data *)

Record OSDMapIncremental : Type := mkOSDMapIncremental {
  in_fsid : list byte;
  in_epoch : Z;
  in_modified : UTime;
  in_new_pool_max : Z;
  in_new_flags : Z;
  in_full_map : list byte;
  in_crush_data : list byte;
  in_new_max_osd : Z;
  in_new_pools : gmap Z Pool;
  in_new_pool_names : gmap Z (list byte);
  in_old_pools : list Z;
  in_new_up_client : gmap Z (list EntityAddr);
  in_new_state : gmap Z Z;
  in_new_weight : gmap Z Z;
  in_new_pg_temp : gmap PG (list Z);
  in_new_primary_temp : gmap PG Z;
  in_new_primary_affinity : gmap Z Z;
  in_new_erasure_profiles : gmap (list byte) StringMap;
  in_old_erasure_profiles : list (list byte);
  in_new_pg_upmap : gmap PG (list Z);
  in_old_pg_upmap : list PG;
  in_new_pg_upmap_items : gmap PG (list OSDRemap);
  in_old_pg_upmap_items : list PG;
  in_new_removed_snapshots : gmap Z (list Interval);
  in_new_purged_snapshots : gmap Z (list Interval);
  in_new_last_up_change : UTime;
  in_new_last_in_change : UTime;
  in_new_pg_upmap_primaries : gmap PG Z;
  in_old_pg_upmap_primaries : list PG;
  in_incremental_crc : Z;
  in_full_crc : Z
}.

(** Assignments to the fields of a map. *)

Definition set_epoch (x : Z) (m : OSDMap) : OSDMap :=
  mkOSDMap (om_fsid m) x (om_created m) (om_modified m) (om_pools m) (om_name_to_id m)
    (om_pool_max m) (om_flags m) (om_max_osd m) (om_osd_state m) (om_osd_weight m)
    (om_client_addresses m) (om_pg_temp m) (om_primary_temp m) (om_primary_affinity m)
    (om_crush_data m) (om_erasure_code_profiles m) (om_pg_upmap m) (om_pg_upmap_items m)
    (om_crush_version m) (om_new_removed_snapshots m) (om_new_purged_snapshots m)
    (om_last_up_change m) (om_last_in_change m) (om_pg_upmap_primaries m) (om_crc m)
    (om_crc_verified m) (om_applied_incremental m).

Definition set_modified (x : UTime) (m : OSDMap) : OSDMap :=
  mkOSDMap (om_fsid m) (om_epoch m) (om_created m) x (om_pools m) (om_name_to_id m) (om_pool_max
    m) (om_flags m) (om_max_osd m) (om_osd_state m) (om_osd_weight m) (om_client_addresses m)
    (om_pg_temp m) (om_primary_temp m) (om_primary_affinity m) (om_crush_data m)
    (om_erasure_code_profiles m) (om_pg_upmap m) (om_pg_upmap_items m) (om_crush_version m)
    (om_new_removed_snapshots m) (om_new_purged_snapshots m) (om_last_up_change m)
    (om_last_in_change m) (om_pg_upmap_primaries m) (om_crc m) (om_crc_verified m)
    (om_applied_incremental m).

Definition set_pools (x : gmap Z Pool) (m : OSDMap) : OSDMap :=
  mkOSDMap (om_fsid m) (om_epoch m) (om_created m) (om_modified m) x (om_name_to_id m)
    (om_pool_max m) (om_flags m) (om_max_osd m) (om_osd_state m) (om_osd_weight m)
    (om_client_addresses m) (om_pg_temp m) (om_primary_temp m) (om_primary_affinity m)
    (om_crush_data m) (om_erasure_code_profiles m) (om_pg_upmap m) (om_pg_upmap_items m)
    (om_crush_version m) (om_new_removed_snapshots m) (om_new_purged_snapshots m)
    (om_last_up_change m) (om_last_in_change m) (om_pg_upmap_primaries m) (om_crc m)
    (om_crc_verified m) (om_applied_incremental m).

Definition set_name_to_id (x : gmap (list byte) Z) (m : OSDMap) : OSDMap :=
  mkOSDMap (om_fsid m) (om_epoch m) (om_created m) (om_modified m) (om_pools m) x (om_pool_max
    m) (om_flags m) (om_max_osd m) (om_osd_state m) (om_osd_weight m) (om_client_addresses m)
    (om_pg_temp m) (om_primary_temp m) (om_primary_affinity m) (om_crush_data m)
    (om_erasure_code_profiles m) (om_pg_upmap m) (om_pg_upmap_items m) (om_crush_version m)
    (om_new_removed_snapshots m) (om_new_purged_snapshots m) (om_last_up_change m)
    (om_last_in_change m) (om_pg_upmap_primaries m) (om_crc m) (om_crc_verified m)
    (om_applied_incremental m).

Definition set_pool_max (x : Z) (m : OSDMap) : OSDMap :=
  mkOSDMap (om_fsid m) (om_epoch m) (om_created m) (om_modified m) (om_pools m) (om_name_to_id
    m) x (om_flags m) (om_max_osd m) (om_osd_state m) (om_osd_weight m) (om_client_addresses m)
    (om_pg_temp m) (om_primary_temp m) (om_primary_affinity m) (om_crush_data m)
    (om_erasure_code_profiles m) (om_pg_upmap m) (om_pg_upmap_items m) (om_crush_version m)
    (om_new_removed_snapshots m) (om_new_purged_snapshots m) (om_last_up_change m)
    (om_last_in_change m) (om_pg_upmap_primaries m) (om_crc m) (om_crc_verified m)
    (om_applied_incremental m).

Definition set_flags (x : Z) (m : OSDMap) : OSDMap :=
  mkOSDMap (om_fsid m) (om_epoch m) (om_created m) (om_modified m) (om_pools m) (om_name_to_id
    m) (om_pool_max m) x (om_max_osd m) (om_osd_state m) (om_osd_weight m) (om_client_addresses
    m) (om_pg_temp m) (om_primary_temp m) (om_primary_affinity m) (om_crush_data m)
    (om_erasure_code_profiles m) (om_pg_upmap m) (om_pg_upmap_items m) (om_crush_version m)
    (om_new_removed_snapshots m) (om_new_purged_snapshots m) (om_last_up_change m)
    (om_last_in_change m) (om_pg_upmap_primaries m) (om_crc m) (om_crc_verified m)
    (om_applied_incremental m).

Definition set_max_osd (x : Z) (m : OSDMap) : OSDMap :=
  mkOSDMap (om_fsid m) (om_epoch m) (om_created m) (om_modified m) (om_pools m) (om_name_to_id
    m) (om_pool_max m) (om_flags m) x (om_osd_state m) (om_osd_weight m) (om_client_addresses m)
    (om_pg_temp m) (om_primary_temp m) (om_primary_affinity m) (om_crush_data m)
    (om_erasure_code_profiles m) (om_pg_upmap m) (om_pg_upmap_items m) (om_crush_version m)
    (om_new_removed_snapshots m) (om_new_purged_snapshots m) (om_last_up_change m)
    (om_last_in_change m) (om_pg_upmap_primaries m) (om_crc m) (om_crc_verified m)
    (om_applied_incremental m).

Definition set_osd_state (x : list Z) (m : OSDMap) : OSDMap :=
  mkOSDMap (om_fsid m) (om_epoch m) (om_created m) (om_modified m) (om_pools m) (om_name_to_id
    m) (om_pool_max m) (om_flags m) (om_max_osd m) x (om_osd_weight m) (om_client_addresses m)
    (om_pg_temp m) (om_primary_temp m) (om_primary_affinity m) (om_crush_data m)
    (om_erasure_code_profiles m) (om_pg_upmap m) (om_pg_upmap_items m) (om_crush_version m)
    (om_new_removed_snapshots m) (om_new_purged_snapshots m) (om_last_up_change m)
    (om_last_in_change m) (om_pg_upmap_primaries m) (om_crc m) (om_crc_verified m)
    (om_applied_incremental m).

Definition set_osd_weight (x : list Z) (m : OSDMap) : OSDMap :=
  mkOSDMap (om_fsid m) (om_epoch m) (om_created m) (om_modified m) (om_pools m) (om_name_to_id
    m) (om_pool_max m) (om_flags m) (om_max_osd m) (om_osd_state m) x (om_client_addresses m)
    (om_pg_temp m) (om_primary_temp m) (om_primary_affinity m) (om_crush_data m)
    (om_erasure_code_profiles m) (om_pg_upmap m) (om_pg_upmap_items m) (om_crush_version m)
    (om_new_removed_snapshots m) (om_new_purged_snapshots m) (om_last_up_change m)
    (om_last_in_change m) (om_pg_upmap_primaries m) (om_crc m) (om_crc_verified m)
    (om_applied_incremental m).

Definition set_client_addresses (x : list (list EntityAddr)) (m : OSDMap) : OSDMap :=
  mkOSDMap (om_fsid m) (om_epoch m) (om_created m) (om_modified m) (om_pools m) (om_name_to_id
    m) (om_pool_max m) (om_flags m) (om_max_osd m) (om_osd_state m) (om_osd_weight m) x
    (om_pg_temp m) (om_primary_temp m) (om_primary_affinity m) (om_crush_data m)
    (om_erasure_code_profiles m) (om_pg_upmap m) (om_pg_upmap_items m) (om_crush_version m)
    (om_new_removed_snapshots m) (om_new_purged_snapshots m) (om_last_up_change m)
    (om_last_in_change m) (om_pg_upmap_primaries m) (om_crc m) (om_crc_verified m)
    (om_applied_incremental m).

Definition set_pg_temp (x : gmap PG (list Z)) (m : OSDMap) : OSDMap :=
  mkOSDMap (om_fsid m) (om_epoch m) (om_created m) (om_modified m) (om_pools m) (om_name_to_id
    m) (om_pool_max m) (om_flags m) (om_max_osd m) (om_osd_state m) (om_osd_weight m)
    (om_client_addresses m) x (om_primary_temp m) (om_primary_affinity m) (om_crush_data m)
    (om_erasure_code_profiles m) (om_pg_upmap m) (om_pg_upmap_items m) (om_crush_version m)
    (om_new_removed_snapshots m) (om_new_purged_snapshots m) (om_last_up_change m)
    (om_last_in_change m) (om_pg_upmap_primaries m) (om_crc m) (om_crc_verified m)
    (om_applied_incremental m).

Definition set_primary_temp (x : gmap PG Z) (m : OSDMap) : OSDMap :=
  mkOSDMap (om_fsid m) (om_epoch m) (om_created m) (om_modified m) (om_pools m) (om_name_to_id
    m) (om_pool_max m) (om_flags m) (om_max_osd m) (om_osd_state m) (om_osd_weight m)
    (om_client_addresses m) (om_pg_temp m) x (om_primary_affinity m) (om_crush_data m)
    (om_erasure_code_profiles m) (om_pg_upmap m) (om_pg_upmap_items m) (om_crush_version m)
    (om_new_removed_snapshots m) (om_new_purged_snapshots m) (om_last_up_change m)
    (om_last_in_change m) (om_pg_upmap_primaries m) (om_crc m) (om_crc_verified m)
    (om_applied_incremental m).

Definition set_primary_affinity (x : list Z) (m : OSDMap) : OSDMap :=
  mkOSDMap (om_fsid m) (om_epoch m) (om_created m) (om_modified m) (om_pools m) (om_name_to_id
    m) (om_pool_max m) (om_flags m) (om_max_osd m) (om_osd_state m) (om_osd_weight m)
    (om_client_addresses m) (om_pg_temp m) (om_primary_temp m) x (om_crush_data m)
    (om_erasure_code_profiles m) (om_pg_upmap m) (om_pg_upmap_items m) (om_crush_version m)
    (om_new_removed_snapshots m) (om_new_purged_snapshots m) (om_last_up_change m)
    (om_last_in_change m) (om_pg_upmap_primaries m) (om_crc m) (om_crc_verified m)
    (om_applied_incremental m).

Definition set_crush_data (x : list byte) (m : OSDMap) : OSDMap :=
  mkOSDMap (om_fsid m) (om_epoch m) (om_created m) (om_modified m) (om_pools m) (om_name_to_id
    m) (om_pool_max m) (om_flags m) (om_max_osd m) (om_osd_state m) (om_osd_weight m)
    (om_client_addresses m) (om_pg_temp m) (om_primary_temp m) (om_primary_affinity m) x
    (om_erasure_code_profiles m) (om_pg_upmap m) (om_pg_upmap_items m) (om_crush_version m)
    (om_new_removed_snapshots m) (om_new_purged_snapshots m) (om_last_up_change m)
    (om_last_in_change m) (om_pg_upmap_primaries m) (om_crc m) (om_crc_verified m)
    (om_applied_incremental m).

Definition set_erasure_code_profiles (x : gmap (list byte) StringMap) (m : OSDMap) : OSDMap :=
  mkOSDMap (om_fsid m) (om_epoch m) (om_created m) (om_modified m) (om_pools m) (om_name_to_id
    m) (om_pool_max m) (om_flags m) (om_max_osd m) (om_osd_state m) (om_osd_weight m)
    (om_client_addresses m) (om_pg_temp m) (om_primary_temp m) (om_primary_affinity m)
    (om_crush_data m) x (om_pg_upmap m) (om_pg_upmap_items m) (om_crush_version m)
    (om_new_removed_snapshots m) (om_new_purged_snapshots m) (om_last_up_change m)
    (om_last_in_change m) (om_pg_upmap_primaries m) (om_crc m) (om_crc_verified m)
    (om_applied_incremental m).

Definition set_pg_upmap (x : gmap PG (list Z)) (m : OSDMap) : OSDMap :=
  mkOSDMap (om_fsid m) (om_epoch m) (om_created m) (om_modified m) (om_pools m) (om_name_to_id
    m) (om_pool_max m) (om_flags m) (om_max_osd m) (om_osd_state m) (om_osd_weight m)
    (om_client_addresses m) (om_pg_temp m) (om_primary_temp m) (om_primary_affinity m)
    (om_crush_data m) (om_erasure_code_profiles m) x (om_pg_upmap_items m) (om_crush_version m)
    (om_new_removed_snapshots m) (om_new_purged_snapshots m) (om_last_up_change m)
    (om_last_in_change m) (om_pg_upmap_primaries m) (om_crc m) (om_crc_verified m)
    (om_applied_incremental m).

Definition set_pg_upmap_items (x : gmap PG (list OSDRemap)) (m : OSDMap) : OSDMap :=
  mkOSDMap (om_fsid m) (om_epoch m) (om_created m) (om_modified m) (om_pools m) (om_name_to_id
    m) (om_pool_max m) (om_flags m) (om_max_osd m) (om_osd_state m) (om_osd_weight m)
    (om_client_addresses m) (om_pg_temp m) (om_primary_temp m) (om_primary_affinity m)
    (om_crush_data m) (om_erasure_code_profiles m) (om_pg_upmap m) x (om_crush_version m)
    (om_new_removed_snapshots m) (om_new_purged_snapshots m) (om_last_up_change m)
    (om_last_in_change m) (om_pg_upmap_primaries m) (om_crc m) (om_crc_verified m)
    (om_applied_incremental m).

Definition set_crush_version (x : Z) (m : OSDMap) : OSDMap :=
  mkOSDMap (om_fsid m) (om_epoch m) (om_created m) (om_modified m) (om_pools m) (om_name_to_id
    m) (om_pool_max m) (om_flags m) (om_max_osd m) (om_osd_state m) (om_osd_weight m)
    (om_client_addresses m) (om_pg_temp m) (om_primary_temp m) (om_primary_affinity m)
    (om_crush_data m) (om_erasure_code_profiles m) (om_pg_upmap m) (om_pg_upmap_items m) x
    (om_new_removed_snapshots m) (om_new_purged_snapshots m) (om_last_up_change m)
    (om_last_in_change m) (om_pg_upmap_primaries m) (om_crc m) (om_crc_verified m)
    (om_applied_incremental m).

Definition set_new_removed_snapshots (x : gmap Z (list Interval)) (m : OSDMap) : OSDMap :=
  mkOSDMap (om_fsid m) (om_epoch m) (om_created m) (om_modified m) (om_pools m) (om_name_to_id
    m) (om_pool_max m) (om_flags m) (om_max_osd m) (om_osd_state m) (om_osd_weight m)
    (om_client_addresses m) (om_pg_temp m) (om_primary_temp m) (om_primary_affinity m)
    (om_crush_data m) (om_erasure_code_profiles m) (om_pg_upmap m) (om_pg_upmap_items m)
    (om_crush_version m) x (om_new_purged_snapshots m) (om_last_up_change m) (om_last_in_change
    m) (om_pg_upmap_primaries m) (om_crc m) (om_crc_verified m) (om_applied_incremental m).

Definition set_new_purged_snapshots (x : gmap Z (list Interval)) (m : OSDMap) : OSDMap :=
  mkOSDMap (om_fsid m) (om_epoch m) (om_created m) (om_modified m) (om_pools m) (om_name_to_id
    m) (om_pool_max m) (om_flags m) (om_max_osd m) (om_osd_state m) (om_osd_weight m)
    (om_client_addresses m) (om_pg_temp m) (om_primary_temp m) (om_primary_affinity m)
    (om_crush_data m) (om_erasure_code_profiles m) (om_pg_upmap m) (om_pg_upmap_items m)
    (om_crush_version m) (om_new_removed_snapshots m) x (om_last_up_change m) (om_last_in_change
    m) (om_pg_upmap_primaries m) (om_crc m) (om_crc_verified m) (om_applied_incremental m).

Definition set_last_up_change (x : UTime) (m : OSDMap) : OSDMap :=
  mkOSDMap (om_fsid m) (om_epoch m) (om_created m) (om_modified m) (om_pools m) (om_name_to_id
    m) (om_pool_max m) (om_flags m) (om_max_osd m) (om_osd_state m) (om_osd_weight m)
    (om_client_addresses m) (om_pg_temp m) (om_primary_temp m) (om_primary_affinity m)
    (om_crush_data m) (om_erasure_code_profiles m) (om_pg_upmap m) (om_pg_upmap_items m)
    (om_crush_version m) (om_new_removed_snapshots m) (om_new_purged_snapshots m) x
    (om_last_in_change m) (om_pg_upmap_primaries m) (om_crc m) (om_crc_verified m)
    (om_applied_incremental m).

Definition set_last_in_change (x : UTime) (m : OSDMap) : OSDMap :=
  mkOSDMap (om_fsid m) (om_epoch m) (om_created m) (om_modified m) (om_pools m) (om_name_to_id
    m) (om_pool_max m) (om_flags m) (om_max_osd m) (om_osd_state m) (om_osd_weight m)
    (om_client_addresses m) (om_pg_temp m) (om_primary_temp m) (om_primary_affinity m)
    (om_crush_data m) (om_erasure_code_profiles m) (om_pg_upmap m) (om_pg_upmap_items m)
    (om_crush_version m) (om_new_removed_snapshots m) (om_new_purged_snapshots m)
    (om_last_up_change m) x (om_pg_upmap_primaries m) (om_crc m) (om_crc_verified m)
    (om_applied_incremental m).

Definition set_pg_upmap_primaries (x : gmap PG Z) (m : OSDMap) : OSDMap :=
  mkOSDMap (om_fsid m) (om_epoch m) (om_created m) (om_modified m) (om_pools m) (om_name_to_id
    m) (om_pool_max m) (om_flags m) (om_max_osd m) (om_osd_state m) (om_osd_weight m)
    (om_client_addresses m) (om_pg_temp m) (om_primary_temp m) (om_primary_affinity m)
    (om_crush_data m) (om_erasure_code_profiles m) (om_pg_upmap m) (om_pg_upmap_items m)
    (om_crush_version m) (om_new_removed_snapshots m) (om_new_purged_snapshots m)
    (om_last_up_change m) (om_last_in_change m) x (om_crc m) (om_crc_verified m)
    (om_applied_incremental m).

Definition set_crc (x : Z) (m : OSDMap) : OSDMap :=
  mkOSDMap (om_fsid m) (om_epoch m) (om_created m) (om_modified m) (om_pools m) (om_name_to_id
    m) (om_pool_max m) (om_flags m) (om_max_osd m) (om_osd_state m) (om_osd_weight m)
    (om_client_addresses m) (om_pg_temp m) (om_primary_temp m) (om_primary_affinity m)
    (om_crush_data m) (om_erasure_code_profiles m) (om_pg_upmap m) (om_pg_upmap_items m)
    (om_crush_version m) (om_new_removed_snapshots m) (om_new_purged_snapshots m)
    (om_last_up_change m) (om_last_in_change m) (om_pg_upmap_primaries m) x (om_crc_verified m)
    (om_applied_incremental m).

Definition set_crc_verified (x : bool) (m : OSDMap) : OSDMap :=
  mkOSDMap (om_fsid m) (om_epoch m) (om_created m) (om_modified m) (om_pools m) (om_name_to_id
    m) (om_pool_max m) (om_flags m) (om_max_osd m) (om_osd_state m) (om_osd_weight m)
    (om_client_addresses m) (om_pg_temp m) (om_primary_temp m) (om_primary_affinity m)
    (om_crush_data m) (om_erasure_code_profiles m) (om_pg_upmap m) (om_pg_upmap_items m)
    (om_crush_version m) (om_new_removed_snapshots m) (om_new_purged_snapshots m)
    (om_last_up_change m) (om_last_in_change m) (om_pg_upmap_primaries m) (om_crc m) x
    (om_applied_incremental m).

Definition set_applied_incremental (x : bool) (m : OSDMap) : OSDMap :=
  mkOSDMap (om_fsid m) (om_epoch m) (om_created m) (om_modified m) (om_pools m) (om_name_to_id
    m) (om_pool_max m) (om_flags m) (om_max_osd m) (om_osd_state m) (om_osd_weight m)
    (om_client_addresses m) (om_pg_temp m) (om_primary_temp m) (om_primary_affinity m)
    (om_crush_data m) (om_erasure_code_profiles m) (om_pg_upmap m) (om_pg_upmap_items m)
    (om_crush_version m) (om_new_removed_snapshots m) (om_new_purged_snapshots m)
    (om_last_up_change m) (om_last_in_change m) (om_pg_upmap_primaries m) (om_crc m)
    (om_crc_verified m) x.

(** ** Decoding *)

Definition decode_int_address_map (limits : MapLimits) : MapM (gmap Z (list EntityAddr)) :=
  read_map (ml_osds limits) 9
    (osd ← rd Decoder_i32; addresses ← decode_addresses (ml_addresses limits); mret (osd, addresses))
    (ME_Malformed "duplicate OSD address").

Definition decode_int_u32_map (maximum : Z) : MapM (gmap Z Z) :=
  read_map maximum 8 (key ← rd Decoder_i32; value ← rd Decoder_u32; mret (key, value))
    (ME_Malformed "duplicate OSD value").

Definition decode_pg_set (limits : MapLimits) : MapM (list PG) :=
  read_set (ml_pg_mappings limits) 17 decode_pg (ME_Malformed "duplicate PG set entry").

(** The pools that are new, renamed and removed. *)
Definition decode_pool_changes (limits : MapLimits)
    : MapM (gmap Z Pool * gmap Z (list byte) * list Z) :=
  count ← bounded_count (ml_pools limits) 14;
  pools ← read_entries (Z.to_nat count) (decode_pool_entry limits)
            (ME_Malformed "duplicate new pool") ∅;
  count ← bounded_count (ml_pools limits) 12;
  names ← read_entries (Z.to_nat count)
            (id ← rd Decoder_i64; name ← rd Decoder_string; mret (id, name))
            (ME_Malformed "duplicate renamed pool") ∅;
  count ← bounded_count (ml_pools limits) 8;
  old ← read_distinct (Z.to_nat count) (rd Decoder_i64) (ME_Malformed "duplicate removed pool") [];
  mret (pools, names, old).

Definition decode_incremental_client (limits : MapLimits) : MapM OSDMapIncremental :=
  fsid ← decode_fsid;
  epoch ← rd Decoder_u32;
  modified ← decode_utime;
  pool_max ← rd Decoder_i64;
  flags ← rd Decoder_i32;
  full_map ← rd Decoder_bytes;
  crush ← rd Decoder_bytes;
  max_osd ← rd Decoder_i32;
  _ ← throw_if ((0 <=? max_osd) && (ml_osds limits <? max_osd)) (ME_Wire LimitExceeded);
  changes ← decode_pool_changes limits;
  up_client ← decode_int_address_map limits;
  state ← decode_int_u32_map (ml_osds limits);
  weight ← decode_int_u32_map (ml_osds limits);
  temp ← decode_pg_vector_map limits;
  primary ← decode_pg_int_map limits;
  affinity ← decode_int_u32_map (ml_osds limits);
  new_profiles ← decode_nested_string_map (ml_collection_entries limits);
  old_profiles ← decode_strings (ml_collection_entries limits);
  new_upmap ← decode_pg_vector_map limits;
  old_upmap ← decode_pg_set limits;
  new_items ← decode_pg_remap_items limits;
  old_items ← decode_pg_set limits;
  removed ← decode_pool_interval_map limits;
  purged ← decode_pool_interval_map limits;
  up_change ← decode_utime;
  in_change ← decode_utime;
  new_primaries ← decode_pg_int_map limits;
  old_primaries ← decode_pg_set limits;
  _ ← finished;
  mret (mkOSDMapIncremental fsid epoch modified pool_max flags full_map crush max_osd
          changes.1.1 changes.1.2 changes.2 up_client state weight temp primary affinity
          new_profiles old_profiles new_upmap old_upmap new_items old_items removed purged
          up_change in_change new_primaries old_primaries 0 0).

Definition with_crcs (incremental full : Z) (i : OSDMapIncremental) : OSDMapIncremental :=
  mkOSDMapIncremental (in_fsid i) (in_epoch i) (in_modified i) (in_new_pool_max i) (in_new_flags i)
    (in_full_map i) (in_crush_data i) (in_new_max_osd i) (in_new_pools i) (in_new_pool_names i)
    (in_old_pools i) (in_new_up_client i) (in_new_state i) (in_new_weight i) (in_new_pg_temp i)
    (in_new_primary_temp i) (in_new_primary_affinity i) (in_new_erasure_profiles i)
    (in_old_erasure_profiles i) (in_new_pg_upmap i) (in_old_pg_upmap i) (in_new_pg_upmap_items i)
    (in_old_pg_upmap_items i) (in_new_removed_snapshots i) (in_new_purged_snapshots i)
    (in_new_last_up_change i) (in_new_last_in_change i) (in_new_pg_upmap_primaries i)
    (in_old_pg_upmap_primaries i) incremental full.

Definition decode_incremental_wrapper (limits : MapLimits) : MapM OSDMapIncremental :=
  vp ← open_versioned 9 9;
  i ← inside vp.2 (decode_incremental_client limits);
  vp ← open_versioned 12 0;
  _ ← inside vp.2 finished;
  incremental ← rd Decoder_u32;
  full ← rd Decoder_u32;
  _ ← finished;
  mret (with_crcs incremental full i).

Definition decode_osdmap_incremental `{Crc32cCrate} (data : list byte) (limits : MapLimits)
    : result MapError OSDMapIncremental :=
  _ ← validate_limits limits;
  '(i, _) ←
    (vp ← open_versioned 8 8;
     i ← inside vp.2 (decode_incremental_wrapper limits);
     _ ← finished;
     left_ ← remaining;
     _ ← throw_if (negb (left_ =? 0) || (zlen data <? 14))
           (ME_Malformed "trailing or short incremental");
     mret i) (Decoder_new data (ml_bytes limits));
  let offset := Z.to_nat (zlen data - 8) in
  if negb (crc32c (crc32c u32_max (take offset data)) (drop (offset + 4) data)
           =? in_incremental_crc i)
  then Err (ME_Malformed "incremental CRC mismatch")
  else Ok i.

(** ** Application *)

(** The entries of a hash map in the order a loop visits them. *)
Class HashOrder : Type := {
  hash_entries {K V : Type} `{Countable K} (m : gmap K V) : list (K * V);
  hash_entries_perm {K V : Type} `{Countable K} (m : gmap K V) :
    hash_entries m ≡ₚ map_to_list m
}.

(** What may stop the application: an error, or an index out of range. *)
Inductive ApplyFault : Type :=
| AF_Error (e : MapError)
| AF_Panic.

Abbreviation Apply := (result ApplyFault).

(** [for entry in entries { ...? }]. *)
Fixpoint try_fold {E A B} (f : A -> B -> result E B) (l : list A) (b : B) : result E B :=
  match l with
  | [] => Ok b
  | a :: l => b ← f a b; try_fold f l b
  end.

(** [vec[i] = f(vec[i])]. *)
Definition update_at {A} (l : list A) (i : Z) (f : A -> A) : Apply (list A) :=
  match zget l i with
  | Some a => Ok (<[Z.to_nat i := f a]> l)
  | None => Err AF_Panic
  end.

Definition valid_osd (m : OSDMap) (osd : Z) : Apply Z :=
  if (0 <=? osd) && (osd <? zlen (om_osd_state m)) then Ok osd
  else Err (AF_Error (ME_Malformed "OSD outside map size")).

Definition resize_osds (size : nat) (m : OSDMap) : OSDMap :=
  let m := set_osd_state (resize size 0 (om_osd_state m)) m in
  let m := set_osd_weight (resize size 0 (om_osd_weight m)) m in
  let m := match om_primary_affinity m with
           | [] => m
           | l => set_primary_affinity (resize size DEFAULT_PRIMARY_AFFINITY l) m
           end in
  set_client_addresses (resize size [] (om_client_addresses m)) m.

Definition ensure_primary_affinity (m : OSDMap) : OSDMap :=
  match om_primary_affinity m with
  | [] => set_primary_affinity
            (replicate (Z.to_nat (zlen (om_osd_state m))) DEFAULT_PRIMARY_AFFINITY) m
  | _ => m
  end.

Definition apply_pg_vectors (empty_deletes : bool) (entries : list (PG * list Z))
    (target : gmap PG (list Z)) : gmap PG (list Z) :=
  fold_left (fun t e => if empty_deletes && (zlen e.2 =? 0) then delete e.1 t else <[e.1 := e.2]> t)
    entries target.

Definition apply_pg_ints (deleted : Z) (entries : list (PG * Z)) (target : gmap PG Z) : gmap PG Z :=
  fold_left (fun t e => if e.2 =? deleted then delete e.1 t else <[e.1 := e.2]> t) entries target.

(** [for (key, value) in entries { map.insert(key, value) }]. *)
Definition insert_all {K V} `{Countable K} (entries : list (K * V)) (m : gmap K V) : gmap K V :=
  fold_left (fun m e => <[e.1 := e.2]> m) entries m.

(** [for key in keys { map.remove(key) }]. *)
Definition remove_all {K V} `{Countable K} (keys : list K) (m : gmap K V) : gmap K V :=
  fold_left (fun m k => delete k m) keys m.

(** A new pool keeps the name of the pool it replaces. *)
Definition add_pool (e : Z * Pool) (pools : gmap Z Pool) : gmap Z Pool :=
  let '(id, pool) := e in
  <[id := match pools !! id with Some old => with_pool_name (pool_name old) pool | None => pool end]>
    pools.

Definition rename_pool (e : Z * list byte) (m : OSDMap) : Apply OSDMap :=
  let '(id, name) := e in
  match om_pools m !! id with
  | None => Err (AF_Error (ME_Malformed "rename for unknown pool"))
  | Some pool =>
      if match om_name_to_id m !! name with Some old => negb (old =? id) | None => false end
      then Err (AF_Error (ME_Malformed "duplicate pool name"))
      else
        let m := set_pools (<[id := with_pool_name name pool]> (om_pools m)) m in
        Ok (set_name_to_id (<[name := id]> (delete (pool_name pool) (om_name_to_id m))) m)
  end.

Definition remove_pool (id : Z) (m : OSDMap) : OSDMap :=
  match om_pools m !! id with
  | None => m
  | Some pool =>
      let m := set_pools (delete id (om_pools m)) m in
      set_name_to_id (delete (pool_name pool) (om_name_to_id m)) m
  end.

Definition apply_weight (e : Z * Z) (m : OSDMap) : Apply OSDMap :=
  let '(osd, weight) := e in
  id ← valid_osd m osd;
  weights ← update_at (om_osd_weight m) id (fun _ => weight);
  let m := set_osd_weight weights m in
  if weight =? 0 then Ok m
  else
    state ← update_at (om_osd_state m) id (fun s => Z.ldiff s (Z.lor (Z.shiftl 1 2) (Z.shiftl 1 3)));
    Ok (set_osd_state state m).

Definition apply_affinity (e : Z * Z) (m : OSDMap) : Apply OSDMap :=
  let '(osd, affinity) := e in
  id ← valid_osd m osd;
  let m := ensure_primary_affinity m in
  l ← update_at (om_primary_affinity m) id (fun _ => affinity);
  Ok (set_primary_affinity l m).

(** An OSD whose [EXISTS] bit is cleared loses its state, affinity and addresses. *)
Definition apply_state (e : Z * Z) (m : OSDMap) : Apply OSDMap :=
  let '(osd, value) := e in
  id ← valid_osd m osd;
  let state := if value =? 0 then Z.shiftl 1 1 else value in
  match zget (om_osd_state m) id with
  | None => Err AF_Panic
  | Some old =>
      if negb (Z.land old 1 =? 0) && negb (Z.land state 1 =? 0) then
        states ← update_at (om_osd_state m) id (fun _ => 0);
        let m := ensure_primary_affinity (set_osd_state states m) in
        l ← update_at (om_primary_affinity m) id (fun _ => DEFAULT_PRIMARY_AFFINITY);
        let m := set_primary_affinity l m in
        addresses ← update_at (om_client_addresses m) id (fun _ => []);
        Ok (set_client_addresses addresses m)
      else
        states ← update_at (om_osd_state m) id (fun s => Z.lxor s state);
        Ok (set_osd_state states m)
  end.

Definition apply_up (e : Z * list EntityAddr) (m : OSDMap) : Apply OSDMap :=
  let '(osd, addresses) := e in
  id ← valid_osd m osd;
  states ← update_at (om_osd_state m) id (fun s => Z.ldiff (Z.lor s 3) (Z.shiftl 1 12));
  let m := set_osd_state states m in
  l ← update_at (om_client_addresses m) id (fun _ => addresses);
  Ok (set_client_addresses l m).

Section Application.
  Context {crc_crate : Crc32cCrate} {order : HashOrder}.

(** The fields a map takes over from an incremental. *)
Definition apply_fields (i : OSDMapIncremental) (m : OSDMap) : Apply OSDMap :=
  let m := set_epoch (in_epoch i) m in
  let m := set_modified (in_modified i) m in
  let m := set_crc (in_full_crc i) m in
  let m := set_crc_verified false m in
  let m := set_applied_incremental true m in
  let m := if in_new_pool_max i =? -1 then m else set_pool_max (in_new_pool_max i) m in
  let m := if 0 <=? in_new_flags i then set_flags (in_new_flags i) m else m in
  let m := if 0 <=? in_new_max_osd i
           then resize_osds (Z.to_nat (in_new_max_osd i)) (set_max_osd (in_new_max_osd i) m)
           else m in
  match in_crush_data i with
  | [] => Ok m
  | crush =>
      let m := set_crush_data crush m in
      version ← ok_or (checked_add 32 (om_crush_version m) 1) (AF_Error ME_InvalidSequence);
      Ok (set_crush_version version m)
  end.

Definition apply_pools (i : OSDMapIncremental) (m : OSDMap) : Apply OSDMap :=
  let m := set_pools (fold_left (fun p e => add_pool e p) (hash_entries (in_new_pools i)) (om_pools m)) m in
  m ← try_fold rename_pool (hash_entries (in_new_pool_names i)) m;
  Ok (fold_left (fun m id => remove_pool id m) (in_old_pools i) m).

Definition apply_osds (i : OSDMapIncremental) (m : OSDMap) : Apply OSDMap :=
  m ← try_fold apply_weight (hash_entries (in_new_weight i)) m;
  m ← try_fold apply_affinity (hash_entries (in_new_primary_affinity i)) m;
  m ← try_fold apply_state (hash_entries (in_new_state i)) m;
  try_fold apply_up (hash_entries (in_new_up_client i)) m.

Definition apply_overrides (i : OSDMapIncremental) (m : OSDMap) : OSDMap :=
  let m := set_pg_temp (apply_pg_vectors true (hash_entries (in_new_pg_temp i)) (om_pg_temp m)) m in
  let m := set_primary_temp (apply_pg_ints (-1) (hash_entries (in_new_primary_temp i)) (om_primary_temp m)) m in
  let m := set_erasure_code_profiles
             (insert_all (hash_entries (in_new_erasure_profiles i))
                (remove_all (in_old_erasure_profiles i) (om_erasure_code_profiles m))) m in
  let m := set_pg_upmap
             (remove_all (in_old_pg_upmap i)
                (apply_pg_vectors false (hash_entries (in_new_pg_upmap i)) (om_pg_upmap m))) m in
  let m := set_pg_upmap_items
             (remove_all (in_old_pg_upmap_items i)
                (insert_all (hash_entries (in_new_pg_upmap_items i)) (om_pg_upmap_items m))) m in
  let m := set_new_removed_snapshots (in_new_removed_snapshots i) m in
  let m := set_new_purged_snapshots (in_new_purged_snapshots i) m in
  let m := if bool_decide (in_new_last_up_change i = mkUTime 0 0) then m
           else set_last_up_change (in_new_last_up_change i) m in
  let m := if bool_decide (in_new_last_in_change i = mkUTime 0 0) then m
           else set_last_in_change (in_new_last_in_change i) m in
  set_pg_upmap_primaries
    (remove_all (in_old_pg_upmap_primaries i)
       (insert_all (hash_entries (in_new_pg_upmap_primaries i)) (om_pg_upmap_primaries m))) m.

Definition nameless (p : Pool) : bool := zlen (pool_name p) =? 0.

(** A full map that replaces the current one. *)
Definition apply_full (current : OSDMap) (i : OSDMapIncremental) (limits : MapLimits) : Apply OSDMap :=
  replacement ← map_err AF_Error (decode_osdmap (in_full_map i) limits);
  if bool_decide (om_fsid replacement <> om_fsid current)
     || negb (om_epoch replacement =? in_epoch i) || negb (om_crc replacement =? in_full_crc i)
  then Err (AF_Error (ME_Malformed "replacement full map identity or CRC mismatch"))
  else Ok replacement.

Definition apply_osdmap_incremental (current : OSDMap) (i : OSDMapIncremental) (limits : MapLimits)
    : Apply OSDMap :=
  if bool_decide (in_fsid i <> om_fsid current) then Err (AF_Error ME_FsidMismatch)
  else
    expected ← ok_or (checked_add 32 (om_epoch current) 1) (AF_Error ME_InvalidSequence);
    if negb (in_epoch i =? expected) then Err (AF_Error ME_InvalidSequence)
    else if negb (zlen (in_full_map i) =? 0) then apply_full current i limits
    else
      next ← apply_fields i current;
      next ← apply_pools i next;
      next ← apply_osds i next;
      let next := apply_overrides i next in
      if existsb nameless (map_to_list (om_pools next)).*2
      then Err (AF_Error (ME_Malformed "pool has no name"))
      else Ok next.

End Application.
