(* ===== verification/IncrementalProps.v ===== *)
(** * What applying an incremental preserves

    The well-formedness of an OSD map, that every incremental keeps it and
    runs into no index out of range, and that the order in which the hash maps
    of an incremental are walked does not matter. *)

From S2P Require Import Prelude Codec Frame Address MapBase MonMap Pool OsdMap Incremental.
From Stdlib Require Import ZArith Lia Strings.Byte Strings.String.
From stdpp Require Import base option gmap sorting numbers list.

Open Scope Z_scope.

(** ** Well-formed maps *)

(** The OSD vectors are as long as the map says. *)
Record vectors_ok (m : OSDMap) : Prop := {
  vo_max : 0 <= om_max_osd m;
  vo_state : zlen (om_osd_state m) = om_max_osd m;
  vo_weight : zlen (om_osd_weight m) = om_max_osd m;
  vo_addresses : zlen (om_client_addresses m) = om_max_osd m;
  vo_affinity : om_primary_affinity m = [] \/ zlen (om_primary_affinity m) = om_max_osd m
}.

(** Every pool is filed under its identifier. *)
Definition pools_ok (pools : gmap Z Pool) : Prop :=
  forall id p, pools !! id = Some p -> pool_id p = id.

(** Every name leads to the pool of that name, and every pool that has a name
    is found under it. *)
Record names_ok (pools : gmap Z Pool) (names : gmap (list byte) Z) : Prop := {
  no_sound : forall n id, names !! n = Some id -> exists p, pools !! id = Some p /\ pool_name p = n;
  no_complete : forall id p, pools !! id = Some p -> pool_name p <> [] ->
    names !! pool_name p = Some id
}.

(** ** Folds *)

Lemma try_fold_app {E A B} (f : A -> B -> result E B) l k b :
  try_fold f (l ++ k) b = try_fold f l b ≫= try_fold f k.
Proof.
  revert b. induction l as [|a l IH]; intros b; [done|]. cbn [app try_fold].
  destruct (f a b); cbn; [apply IH|done].
Qed.

(** A property that every step keeps, along with the absence of a panic. *)
Definition keeps {A} (P : OSDMap -> Prop) (f : A -> OSDMap -> Apply OSDMap) : Prop :=
  forall a m, P m -> match f a m with Ok m' => P m' | Err AF_Panic => False | Err (AF_Error _) => True end.

Lemma keeps_fold {A} P (f : A -> OSDMap -> Apply OSDMap) l : forall m,
  keeps P f -> P m ->
  match try_fold f l m with Ok m' => P m' | Err AF_Panic => False | Err (AF_Error _) => True end.
Proof.
  induction l as [|a l IH]; intros m Hf Hm; [done|]. cbn [try_fold]. specialize (Hf a m Hm) as Ha.
  destruct (f a m) as [m'|[e|]]; cbn; [by apply IH|done|done].
Qed.

Lemma zget_Some {A} (l : list A) i : 0 <= i < zlen l -> exists a, zget l i = Some a.
Proof.
  intros Hi. unfold zget, zlen in *. destruct (Z.ltb_spec i 0); [lia|].
  apply lookup_lt_is_Some. lia.
Qed.

Lemma update_at_ok {A} (l : list A) i f :
  0 <= i < zlen l -> exists a, zget l i = Some a /\ update_at l i f = Ok (<[Z.to_nat i := f a]> l).
Proof. intros Hi. destruct (zget_Some l i Hi) as [a Ha]. exists a. unfold update_at. by rewrite Ha. Qed.

Lemma zlen_insert {A} (l : list A) i a : zlen (<[i := a]> l) = zlen l.
Proof. unfold zlen. by rewrite length_insert. Qed.

Lemma valid_osd_inv m osd id :
  valid_osd m osd = Ok id -> id = osd /\ 0 <= osd < zlen (om_osd_state m).
Proof.
  unfold valid_osd. destruct ((0 <=? osd) && (osd <? _)) eqn:E; [|done]. intros H.
  apply Ok_inj in H as <-. split; [done|]. lia.
Qed.

Lemma valid_osd_cases m osd :
  (valid_osd m osd = Ok osd /\ 0 <= osd < zlen (om_osd_state m))
  \/ valid_osd m osd = Err (AF_Error (ME_Malformed "OSD outside map size")).
Proof.
  unfold valid_osd. destruct ((0 <=? osd) && (osd <? _)) eqn:E; [left|by right].
  split; [done|]. lia.
Qed.

(** ** The OSD vectors *)

Lemma ensure_ok m : vectors_ok m ->
  vectors_ok (ensure_primary_affinity m)
  /\ zlen (om_primary_affinity (ensure_primary_affinity m)) = om_max_osd m
  /\ om_osd_state (ensure_primary_affinity m) = om_osd_state m
  /\ om_client_addresses (ensure_primary_affinity m) = om_client_addresses m
  /\ om_max_osd (ensure_primary_affinity m) = om_max_osd m.
Proof.
  intros [V1 V2 V3 V4 V5]. unfold ensure_primary_affinity.
  destruct (om_primary_affinity m) as [|x l] eqn:E.
  - assert (zlen (replicate (Z.to_nat (zlen (om_osd_state m))) DEFAULT_PRIMARY_AFFINITY) = om_max_osd m) as H.
    { unfold zlen at 1. rewrite length_replicate. lia. }
    split_and!; try done. constructor; try done. by right.
  - split_and!; try done; [constructor; try done; rewrite E; tauto|]. rewrite E. destruct V5; [done|congruence].
Qed.

Ltac at_osd :=
  match goal with |- context [update_at ?l ?i ?f] =>
    let a := fresh "a" in let Ha := fresh "Ha" in let Hu := fresh "Hu" in
    destruct (update_at_ok l i f) as (a & Ha & Hu); [cbn; lia|rewrite Hu; cbn [mbind result_bind]]
  end.

Lemma keeps_weight : keeps vectors_ok apply_weight.
Proof.
  intros [osd w] m Hm. pose proof Hm as [V1 V2 V3 V4 V5]. unfold apply_weight.
  destruct (valid_osd_cases m osd) as [[-> Ho]| ->]; cbn [mbind result_bind]; [|done].
  at_osd. destruct (w =? 0).
  - constructor; cbn; try done. by rewrite zlen_insert.
  - at_osd. constructor; cbn; try done; by rewrite zlen_insert.
Qed.

Lemma keeps_affinity : keeps vectors_ok apply_affinity.
Proof.
  intros [osd w] m Hm. pose proof Hm as [V1 V2 V3 V4 V5]. unfold apply_affinity.
  destruct (valid_osd_cases m osd) as [[-> Ho]| ->]; cbn [mbind result_bind]; [|done].
  destruct (ensure_ok m Hm) as ([W1 W2 W3 W4 W5] & Ha & Hs & Hc & Hx). at_osd.
  constructor; cbn; try done. right. rewrite zlen_insert. lia.
Qed.

Lemma keeps_state : keeps vectors_ok apply_state.
Proof.
  intros [osd w] m Hm. pose proof Hm as [V1 V2 V3 V4 V5]. unfold apply_state.
  destruct (valid_osd_cases m osd) as [[-> Ho]| ->]; cbn [mbind result_bind]; [|done].
  destruct (zget_Some (om_osd_state m) osd Ho) as [old ->]. destruct (_ && _).
  - at_osd. match goal with |- context [ensure_primary_affinity ?x] => set (m1 := x) end.
    assert (vectors_ok m1) as H1 by (constructor; cbn; try done; by rewrite zlen_insert).
    destruct (ensure_ok m1 H1) as ([W1 W2 W3 W4 W5] & Haf & Hs & Hc & Hx).
    assert (om_max_osd m1 = om_max_osd m) as Ex by done.
    at_osd. at_osd. constructor; cbn; rewrite ?zlen_insert; try done. right. lia.
  - at_osd. constructor; cbn; try done; by rewrite zlen_insert.
Qed.

Lemma keeps_up : keeps vectors_ok apply_up.
Proof.
  intros [osd l] m Hm. pose proof Hm as [V1 V2 V3 V4 V5]. unfold apply_up.
  destruct (valid_osd_cases m osd) as [[-> Ho]| ->]; cbn [mbind result_bind]; [|done].
  at_osd. at_osd. constructor; cbn; try done; by rewrite zlen_insert.
Qed.

(** The OSD operations leave the identity and the pools alone. *)
Record same_pools (m m' : OSDMap) : Prop := {
  sp_fsid : om_fsid m' = om_fsid m;
  sp_epoch : om_epoch m' = om_epoch m;
  sp_pools : om_pools m' = om_pools m;
  sp_names : om_name_to_id m' = om_name_to_id m
}.

#[export] Instance same_pools_preorder : PreOrder same_pools.
Proof.
  split; [by constructor|]. intros a b c [] []. constructor; congruence.
Qed.

Definition frames {A} (f : A -> OSDMap -> Apply OSDMap) : Prop :=
  forall a m m', f a m = Ok m' -> same_pools m m'.

Lemma frames_fold {A} (f : A -> OSDMap -> Apply OSDMap) l : forall m m',
  frames f -> try_fold f l m = Ok m' -> same_pools m m'.
Proof.
  induction l as [|a l IH]; intros m m' Hf H; cbn [try_fold] in H.
  - by apply Ok_inj in H as <-.
  - apply bind_inv in H as (m1 & H1 & H). etransitivity; [by eapply Hf|by eapply IH].
Qed.

Lemma ensure_frame m : same_pools m (ensure_primary_affinity m).
Proof. unfold ensure_primary_affinity. by destruct (om_primary_affinity m). Qed.

Ltac run_ok H :=
  repeat match type of H with
  | (_ ≫= _) = Ok _ => let a := fresh "v" in let Ha := fresh "Hv" in
      apply bind_inv in H as (a & Ha & H)
  | (let _ := _ in _) = Ok _ => cbv zeta in H
  | (if ?b then _ else _) = Ok _ => destruct b; try done
  | (match ?x with _ => _ end) = Ok _ => destruct x; try done
  end.

Lemma frames_osds :
  frames apply_weight /\ frames apply_affinity /\ frames apply_state /\ frames apply_up.
Proof.
  split_and!; intros [osd x] m m' H; unfold apply_weight, apply_affinity, apply_state, apply_up in H; run_ok H;
    apply Ok_inj in H as <-; try done.
  - destruct (ensure_frame m). by constructor.
  - match goal with |- context [ensure_primary_affinity ?y] => destruct (ensure_frame y) end. by constructor.
Qed.

(** ** Pools and their names *)

Lemma pools_ok_insert pools id p : pools_ok pools -> pool_id p = id -> pools_ok (<[id := p]> pools).
Proof.
  intros Hp E j q Hq. apply lookup_insert_Some in Hq as [[<- <-]|[_ Hq]]; [done|by apply Hp].
Qed.

Lemma pools_ok_delete pools id : pools_ok pools -> pools_ok (delete id pools).
Proof. intros Hp j q Hq. apply lookup_delete_Some in Hq as [_ Hq]. by apply Hp. Qed.

Lemma add_pool_ok e pools names :
  pool_id e.2 = e.1 -> pool_name e.2 = [] -> pools_ok pools -> names_ok pools names ->
  pools_ok (add_pool e pools) /\ names_ok (add_pool e pools) names.
Proof.
  destruct e as [id p]. cbn. intros Hid Hnil Hp [N1 N2].
  destruct (pools !! id) as [old|] eqn:Ho; (split; [by apply pools_ok_insert|]); constructor.
  - intros n j Hn. destruct (N1 n j Hn) as (q & Hq & E). destruct (decide (j = id)) as [->|Hne].
    + exists (with_pool_name (pool_name old) p). rewrite lookup_insert_eq. split; [done|]. cbn. congruence.
    + exists q. by rewrite lookup_insert_ne.
  - intros j q Hq Hne. apply lookup_insert_Some in Hq as [[<- <-]|[_ Hq]]; [|by apply N2].
    cbn in *. by apply N2.
  - intros n j Hn. destruct (N1 n j Hn) as (q & Hq & E). exists q.
    rewrite lookup_insert_ne; [done|congruence].
  - intros j q Hq Hne. apply lookup_insert_Some in Hq as [[<- <-]|[_ Hq]]; [congruence|by apply N2].
Qed.

Lemma rename_names pools names id name p :
  names_ok pools names -> pools !! id = Some p ->
  (forall old, names !! name = Some old -> old = id) ->
  names_ok (<[id := with_pool_name name p]> pools) (<[name := id]> (delete (pool_name p) names)).
Proof.
  intros [N1 N2] Hp Hfree. constructor.
  - intros n j Hn. apply lookup_insert_Some in Hn as [[<- <-]|[Hne Hn]].
    + exists (with_pool_name name p). by rewrite lookup_insert_eq.
    + apply lookup_delete_Some in Hn as [Hd Hn]. destruct (N1 n j Hn) as (q & Hq & E). exists q.
      rewrite lookup_insert_ne; [done|]. intros <-. congruence.
  - intros j q Hq Hne. apply lookup_insert_Some in Hq as [[<- <-]|[Hj Hq]].
    + cbn. apply lookup_insert_eq.
    + pose proof (N2 j q Hq Hne) as Hn. rewrite lookup_insert_ne.
      * apply lookup_delete_Some. split; [|done]. intros E. rewrite <- E in Hn, Hne.
        rewrite (N2 id p Hp Hne) in Hn. congruence.
      * intros E. rewrite <- E in Hn. apply Hfree in Hn. congruence.
Qed.

Lemma remove_names pools names id p :
  names_ok pools names -> pools !! id = Some p ->
  names_ok (delete id pools) (delete (pool_name p) names).
Proof.
  intros [N1 N2] Hp. constructor.
  - intros n j Hn. apply lookup_delete_Some in Hn as [Hd Hn]. destruct (N1 n j Hn) as (q & Hq & E).
    exists q. split; [|done]. apply lookup_delete_Some. split; [congruence|done].
  - intros j q Hq Hne. apply lookup_delete_Some in Hq as [Hj Hq]. apply lookup_delete_Some.
    split; [|by apply N2]. intros E. pose proof (N2 j q Hq Hne) as Hn. rewrite <- E in Hn, Hne.
    rewrite (N2 id p Hp Hne) in Hn. congruence.
Qed.

(** The pools are in order; [named] asks for the names as well. *)
Definition pool_part (named : Prop) (m : OSDMap) : Prop :=
  pools_ok (om_pools m) /\ (named -> names_ok (om_pools m) (om_name_to_id m)).

Lemma rename_pool_part named e m m' :
  rename_pool e m = Ok m' -> pool_part named m -> pool_part named m'.
Proof.
  destruct e as [id name]. unfold rename_pool. intros H [Hp Hn].
  destruct (om_pools m !! id) as [p|] eqn:Hi; [|done].
  destruct (match om_name_to_id m !! name with Some _ => _ | None => _ end) eqn:Hd; [done|].
  apply Ok_inj in H as <-. split; cbn.
  - apply pools_ok_insert; [done|]. cbn. by apply Hp.
  - intros H. apply rename_names; [by apply Hn|done|]. intros old Ho. rewrite Ho in Hd. lia.
Qed.

Lemma remove_pool_part named id m : pool_part named m -> pool_part named (remove_pool id m).
Proof.
  intros [Hp Hn]. unfold remove_pool. destruct (om_pools m !! id) as [p|] eqn:Hi; [|done].
  split; cbn; [by apply pools_ok_delete|]. intros H. apply remove_names; [by apply Hn|done].
Qed.

(** The pool operations leave the identity and the OSDs alone. *)
Record same_osds (m m' : OSDMap) : Prop := {
  so_fsid : om_fsid m' = om_fsid m;
  so_epoch : om_epoch m' = om_epoch m;
  so_max : om_max_osd m' = om_max_osd m;
  so_state : om_osd_state m' = om_osd_state m;
  so_weight : om_osd_weight m' = om_osd_weight m;
  so_addresses : om_client_addresses m' = om_client_addresses m;
  so_affinity : om_primary_affinity m' = om_primary_affinity m
}.

#[export] Instance same_osds_preorder : PreOrder same_osds.
Proof. split; [by constructor|]. intros a b c [] []. constructor; congruence. Qed.

Lemma same_osds_ok m m' : same_osds m m' -> vectors_ok m -> vectors_ok m'.
Proof. intros [] []. constructor; congruence. Qed.

Lemma rename_osds e m m' : rename_pool e m = Ok m' -> same_osds m m'.
Proof.
  destruct e as [id name]. unfold rename_pool. destruct (om_pools m !! id); [|done].
  destruct (match _ with Some _ => _ | None => _ end); [done|]. intros H. by apply Ok_inj in H as <-.
Qed.

Lemma remove_osds id m : same_osds m (remove_pool id m).
Proof. unfold remove_pool. by destruct (om_pools m !! id). Qed.

Lemma renames_part named l : forall m m',
  try_fold rename_pool l m = Ok m' -> pool_part named m -> pool_part named m' /\ same_osds m m'.
Proof.
  induction l as [|e l IH]; intros m m' H Hm; cbn [try_fold] in H; [by apply Ok_inj in H as <-|].
  apply bind_inv in H as (m1 & H1 & H). destruct (IH m1 m' H) as [Hp Hs]; [by eapply rename_pool_part|].
  split; [done|]. etransitivity; [by eapply rename_osds|done].
Qed.

Lemma removes_part named l : forall m,
  pool_part named m ->
  pool_part named (fold_left (fun m id => remove_pool id m) l m)
  /\ same_osds m (fold_left (fun m id => remove_pool id m) l m).
Proof.
  induction l as [|id l IH]; intros m Hm; cbn [fold_left]; [done|].
  destruct (IH (remove_pool id m)) as [Hp Hs]; [by apply remove_pool_part|].
  split; [done|]. etransitivity; [apply remove_osds|done].
Qed.

Definition incremental_ok (i : OSDMapIncremental) : Prop :=
  forall id p, in_new_pools i !! id = Some p -> pool_id p = id /\ pool_name p = [].

Lemma adds_part (named : Prop) (l : list (Z * Pool)) names : forall pools,
  Forall (fun e => pool_id e.2 = e.1 /\ pool_name e.2 = []) l ->
  pools_ok pools -> (named -> names_ok pools names) ->
  pools_ok (fold_left (fun p e => add_pool e p) l pools)
  /\ (named -> names_ok (fold_left (fun p e => add_pool e p) l pools) names).
Proof.
  induction l as [|[id p] l IH]; intros pools Hl Hp Hn; cbn [fold_left]; [done|].
  apply Forall_cons in Hl as [[E1 E2] Hl]. cbn in E1, E2.
  assert (pools_ok (add_pool (id, p) pools)).
  { cbn. apply pools_ok_insert; [done|]. by destruct (pools !! id). }
  apply IH; [done|done|]. intros H'. apply (add_pool_ok (id, p)); try done. by apply Hn.
Qed.

Section Preservation.
  Context {crc_crate : Crc32cCrate} {order : HashOrder}.

Lemma hash_entries_Forall {K V} `{Countable K} (P : K * V -> Prop) (m : gmap K V) :
  (forall k v, m !! k = Some v -> P (k, v)) -> Forall P (hash_entries m).
Proof.
  intros HP. apply Forall_forall. intros [k v] Hin. rewrite hash_entries_perm in Hin.
  apply elem_of_map_to_list in Hin. by apply HP.
Qed.

Lemma apply_pools_ok named i m m' :
  incremental_ok i -> pool_part named m -> apply_pools i m = Ok m' ->
  pool_part named m' /\ same_osds m m'.
Proof.
  intros Hi [Hp Hn] H. unfold apply_pools in H. apply bind_inv in H as (m1 & H1 & H).
  apply Ok_inj in H as <-. 
  pose proof (hash_entries_Forall (fun e => pool_id e.2 = e.1 /\ pool_name e.2 = []) _ Hi) as Hl.
  destruct (adds_part named _ (om_name_to_id m) (om_pools m) Hl Hp Hn) as [Hp1 Hn1].
  match type of H1 with try_fold _ _ ?x = _ => set (m0 := x) in * end.
  assert (pool_part named m0 /\ same_osds m m0) as [Hm0 Hs0] by done.
  destruct (renames_part named _ _ _ H1 Hm0) as [Hm1 Hs1].
  destruct (removes_part named (in_old_pools i) m1 Hm1) as [Hm2 Hs2]. split; [done|].
  etransitivity; [exact Hs0|]. etransitivity; [exact Hs1|exact Hs2].
Qed.

Lemma rename_no_panic e m : rename_pool e m <> Err AF_Panic.
Proof.
  destruct e as [id n]. unfold rename_pool. destruct (om_pools m !! id); [|done].
  by destruct (match _ with Some _ => _ | None => _ end).
Qed.

Lemma renames_no_panic l : forall m, try_fold rename_pool l m <> Err AF_Panic.
Proof.
  induction l as [|e l IH]; intros m; [done|]. cbn [try_fold]. pose proof (rename_no_panic e m).
  destruct (rename_pool e m) as [m'|]; [apply IH|]. cbn. congruence.
Qed.

Lemma apply_pools_no_panic i m : apply_pools i m <> Err AF_Panic.
Proof.
  unfold apply_pools. cbv zeta. match goal with |- context [try_fold _ ?l ?x] =>
    pose proof (renames_no_panic l x); destruct (try_fold rename_pool l x) end; cbn; congruence.
Qed.

Lemma zlen_resize {A} n (x : A) l : zlen (resize n x l) = Z.of_nat n.
Proof. unfold zlen. by rewrite length_resize. Qed.

Lemma resize_osds_ok size m : vectors_ok m ->
  vectors_ok (resize_osds size (set_max_osd (Z.of_nat size) m)).
Proof.
  intros [V1 V2 V3 V4 V5]. unfold resize_osds. cbn.
  destruct (om_primary_affinity m) as [|x l] eqn:E; constructor; cbn; rewrite ?zlen_resize; try done; try lia.
  by left.
Qed.

Lemma apply_fields_ok named i m m' :
  vectors_ok m -> pool_part named m -> apply_fields i m = Ok m' ->
  vectors_ok m' /\ pool_part named m' /\ om_fsid m' = om_fsid m /\ om_epoch m' = in_epoch i.
Proof.
  intros Hv Hp H. unfold apply_fields in H. cbv zeta in H.
  set (m1 := if 0 <=? in_new_flags i then _ else _) in H.
  assert (vectors_ok m1 /\ pool_part named m1 /\ om_fsid m1 = om_fsid m /\ om_epoch m1 = in_epoch i) as (V & P & F & E).
  { subst m1. destruct Hv. destruct (in_new_pool_max i =? -1), (0 <=? in_new_flags i);
      (split; [by constructor|done]). }
  clearbody m1.
  set (m2 := if 0 <=? in_new_max_osd i then _ else _) in H.
  assert (vectors_ok m2 /\ pool_part named m2 /\ om_fsid m2 = om_fsid m /\ om_epoch m2 = in_epoch i) as (V2 & P2 & F2 & E2).
  { subst m2. destruct (Z.leb_spec 0 (in_new_max_osd i)); [|done]. split.
    - rewrite <- (Z2Nat.id (in_new_max_osd i)) at 2 by done. by apply resize_osds_ok.
    - unfold resize_osds. cbn. by destruct (om_primary_affinity m1). }
  clearbody m2. destruct (in_crush_data i); [by apply Ok_inj in H as <-|].
  apply bind_inv in H as (v & _ & H). apply Ok_inj in H as <-. destruct V2. split; [by constructor|done].
Qed.

Lemma apply_fields_no_panic i m : apply_fields i m <> Err AF_Panic.
Proof.
  unfold apply_fields. cbv zeta. destruct (in_crush_data i); [done|].
  destruct (checked_add _ _ _); done.
Qed.

(** The four loops over the OSDs. *)
Lemma apply_osds_ok i m :
  vectors_ok m ->
  match apply_osds i m with
  | Ok m' => vectors_ok m' /\ same_pools m m'
  | Err AF_Panic => False
  | Err (AF_Error _) => True
  end.
Proof.
  intros Hm. destruct frames_osds as (F1 & F2 & F3 & F4). unfold apply_osds.
  pose proof (keeps_fold _ _ (hash_entries (in_new_weight i)) m keeps_weight Hm) as K1.
  destruct (try_fold apply_weight _ m) as [m1|[]] eqn:E1; cbn; [|done..].
  pose proof (keeps_fold _ _ (hash_entries (in_new_primary_affinity i)) m1 keeps_affinity K1) as K2.
  destruct (try_fold apply_affinity _ m1) as [m2|[]] eqn:E2; cbn; [|done..].
  pose proof (keeps_fold _ _ (hash_entries (in_new_state i)) m2 keeps_state K2) as K3.
  destruct (try_fold apply_state _ m2) as [m3|[]] eqn:E3; cbn; [|done..].
  pose proof (keeps_fold _ _ (hash_entries (in_new_up_client i)) m3 keeps_up K3) as K4.
  destruct (try_fold apply_up _ m3) as [m4|[]] eqn:E4; [|done..]. split; [done|].
  etransitivity; [exact (frames_fold _ _ _ _ F1 E1)|]. etransitivity; [exact (frames_fold _ _ _ _ F2 E2)|].
  etransitivity; [exact (frames_fold _ _ _ _ F3 E3)|exact (frames_fold _ _ _ _ F4 E4)].
Qed.

Lemma apply_overrides_ok named i m :
  vectors_ok m -> pool_part named m ->
  vectors_ok (apply_overrides i m) /\ pool_part named (apply_overrides i m)
  /\ om_fsid (apply_overrides i m) = om_fsid m /\ om_epoch (apply_overrides i m) = om_epoch m.
Proof.
  intros Hv Hp. unfold apply_overrides. cbv zeta.
  destruct (bool_decide (in_new_last_up_change i = _)), (bool_decide (in_new_last_in_change i = _));
    (split; [destruct Hv; by constructor|done]).
Qed.

(** What a map needs to be applied to, and what it is afterwards. *)
Record osdmap_ok (m : OSDMap) : Prop := {
  ok_vectors : vectors_ok m;
  ok_pools : pools_ok (om_pools m)
}.

Lemma nameless_existsb pools :
  existsb nameless (map_to_list pools).*2 = false ->
  forall id p, (pools : gmap Z Pool) !! id = Some p -> pool_name p <> [].
Proof.
  intros He id p Hp Hnil. apply not_true_iff_false in He. apply He, existsb_exists. exists p. split.
  - apply list_elem_of_In, list_elem_of_fmap. exists (id, p). split; [done|].
    by apply elem_of_map_to_list.
  - unfold nameless. by rewrite Hnil.
Qed.

Lemma apply_incremental_ok (named : Prop) current i limits :
  (forall m, decode_osdmap (in_full_map i) limits = Ok m -> osdmap_ok m) ->
  incremental_ok i -> osdmap_ok current -> (named -> names_ok (om_pools current) (om_name_to_id current)) ->
  match apply_osdmap_incremental current i limits with
  | Ok next => osdmap_ok next /\ om_fsid next = om_fsid current /\ om_epoch next = om_epoch current + 1
      /\ (in_full_map i = [] -> named ->
          names_ok (om_pools next) (om_name_to_id next)
          /\ forall id p, om_pools next !! id = Some p -> pool_name p <> [])
  | Err AF_Panic => False
  | Err (AF_Error _) => True
  end.
Proof.
  intros Hfull Hi [Hv Hp] Hn. unfold apply_osdmap_incremental.
  destruct (bool_decide _) eqn:Hfsid; [done|]. apply bool_decide_eq_false, dec_stable in Hfsid.
  unfold checked_add. destruct (_ <? _); cbn [ok_or mbind result_bind]; [|done].
  destruct (Z.eqb_spec (in_epoch i) (om_epoch current + 1)) as [He|]; cbn [negb]; [|done].
  destruct (Z.eqb_spec (zlen (in_full_map i)) 0) as [Hz|Hz]; cbn [negb].
  - destruct (apply_fields i current) as [m1|[]] eqn:E1; cbn; [|done|by eapply apply_fields_no_panic].
    destruct (apply_fields_ok named i current m1 Hv (conj Hp Hn) E1) as (V1 & P1 & F1 & Ep1).
    destruct (apply_pools i m1) as [m2|[]] eqn:E2; cbn; [|done|by eapply apply_pools_no_panic].
    destruct (apply_pools_ok named i m1 m2 Hi P1 E2) as [P2 S2].
    pose proof (same_osds_ok _ _ S2 V1) as V2. pose proof (apply_osds_ok i m2 V2) as H3.
    destruct (apply_osds i m2) as [m3|[]]; cbn; [|done..]. destruct H3 as [V3 S3].
    assert (pool_part named m3) as P3 by (destruct S3 as [_ _ E3 E4]; unfold pool_part; by rewrite E3, E4).
    destruct (apply_overrides_ok named i m3 V3 P3) as (V4 & P4 & F4 & Ep4).
    destruct (existsb _ _) eqn:Hex; [done|]. destruct P4 as [P4 N4].
    split; [by constructor|]. destruct S2 as [F2 Ep2 _ _ _ _ _], S3 as [F3 Ep3 _ _]. split_and!; try congruence.
    intros _ H. split; [by apply N4|]. by apply nameless_existsb.
  - unfold apply_full. destruct (decode_osdmap _ _) as [m|] eqn:E; cbn; [|done].
    destruct (_ || _) eqn:Hor; [done|]. apply orb_false_elim in Hor as [Hor _].
    apply orb_false_elim in Hor as [H1 H2]. apply bool_decide_eq_false, dec_stable in H1.
    apply negb_false_iff, Z.eqb_eq in H2. split_and!; [by apply Hfull|done|congruence|].
    intros Hnil. by rewrite Hnil in Hz.
Qed.
End Preservation.

(** ** What the decoders give *)

Ltac map_inv :=
  repeat (dm_inv; match goal with
  | H : inside _ _ _ = Ok (_, _) |- _ => apply inside_inv in H as [-> (? & H)]
  | H : lift _ _ = Ok (_, _) |- _ => apply lift_inv in H as [H ->]
  end); dm_inv.

(** An invariant of the entries holds of the map read. *)
Lemma read_entries_inv {K V} `{Countable K} (P : K -> V -> Prop) entry duplicate n :
  (forall d k v d', entry d = Ok ((k, v), d') -> P k v) ->
  forall acc d m d', read_entries n entry duplicate acc d = Ok (m, d') ->
  map_Forall P acc -> map_Forall P m.
Proof.
  intros He. induction n as [|n IH]; intros acc d m d' Hr Ha; cbn [read_entries] in Hr; dm_inv; [done|].
  destruct v as [k v]. eapply IH; [done|]. apply map_Forall_insert_2; [by eapply He|done].
Qed.

Lemma decode_pool_entry_inv limits d id p d' :
  decode_pool_entry limits d = Ok ((id, p), d') -> pool_id p = id /\ pool_name p = [].
Proof.
  unfold decode_pool_entry, decode_pool, decode_pool_payload. intros H. map_inv. done.
Qed.

Lemma read_pool_names_inv n : forall pools names d pn d',
  read_pool_names n pools names d = Ok (pn, d') -> pools_ok pools -> pools_ok pn.1.
Proof.
  induction n as [|n IH]; intros pools names d pn d' H Hp; cbn [read_pool_names] in H.
  - apply DM_ret_inv in H as [-> _]. done.
  - map_inv. destruct (pools !! v) as [p|] eqn:Hv; [|done]. cbn in *. simplify_eq.
    eapply IH; [done|]. apply pools_ok_insert; [done|]. cbn. by apply Hp.
Qed.

Lemma decode_pools_inv limits d pn d' : decode_pools limits d = Ok (pn, d') -> pools_ok pn.1.
Proof.
  unfold decode_pools. intros H. map_inv. eapply read_pool_names_inv; [done|].
  match goal with R : read_entries _ _ _ _ _ = Ok (?p, _) |- pools_ok ?p =>
    eapply (read_entries_inv (fun id p => pool_id p = id)) in R end; [done| |apply map_Forall_empty].
  intros ???? He. by apply decode_pool_entry_inv in He as [? _].
Qed.

Lemma inconsistent_vectors_inv limits max_osd state weight addresses affinity :
  inconsistent_vectors limits max_osd state weight addresses affinity = false ->
  0 <= max_osd /\ zlen state = max_osd /\ zlen weight = max_osd /\ zlen addresses = max_osd
  /\ (affinity = [] \/ zlen affinity = max_osd).
Proof.
  unfold inconsistent_vectors. intros H.
  destruct (Z.eqb_spec (zlen affinity) 0) as [E|]; cbn [negb andb] in H; split_and!; try lia.
  left. by apply zlen_0_nil.
Qed.

Lemma decode_client_inv limits d m d' : decode_client limits d = Ok (m, d') -> osdmap_ok m.
Proof.
  unfold decode_client. intros H. map_inv.
  match goal with R : inconsistent_vectors _ _ _ _ _ _ = false |- _ =>
    apply inconsistent_vectors_inv in R as (? & ? & ? & ? & ?) end.
  match goal with R : decode_pools _ _ = Ok _ |- _ => apply decode_pools_inv in R end.
  constructor; [by constructor|done].
Qed.

Lemma decode_osdmap_inv {crc_crate : Crc32cCrate} data limits m :
  decode_osdmap data limits = Ok m -> osdmap_ok m.
Proof.
  unfold decode_osdmap, decode_osdmap_wrapper. intros H. apply bind_inv in H as (_ & _ & H).
  apply bind_inv in H as ([m0 d0] & H0 & H). map_inv.
  destruct (_ <? _); [done|]. destruct (negb (crc32c _ _ =? _)); [done|]. apply Ok_inj in H as <-.
  match goal with R : decode_client _ _ = Ok _ |- _ => apply decode_client_inv in R as [[] ?] end.
  constructor; [by constructor|done].
Qed.

Lemma decode_incremental_inv {crc_crate : Crc32cCrate} data limits i :
  decode_osdmap_incremental data limits = Ok i -> incremental_ok i.
Proof.
  unfold decode_osdmap_incremental, decode_incremental_wrapper, decode_incremental_client, decode_pool_changes.
  intros H. apply bind_inv in H as (_ & _ & H). apply bind_inv in H as ([i0 d0] & H0 & H). map_inv.
  destruct (negb (crc32c _ _ =? _)); [done|]. apply Ok_inj in H as <-.
  match goal with R : read_entries _ (decode_pool_entry _) _ _ _ = Ok _ |- _ =>
    eapply (read_entries_inv (fun id p => pool_id p = id /\ pool_name p = [])) in R end;
    [|intros ???? He; by apply decode_pool_entry_inv in He|apply map_Forall_empty].
  intros id p Hp. by match goal with R : map_Forall _ _ |- _ => apply R in Hp end.
Qed.
