(* ===== verification/IncrementalOrder.v ===== *)
(** * The order of an incremental's hash maps

    Rust does not fix the order in which a loop visits a hash map.  Applying an
    incremental gives the same map, or the same error, in every order, as long
    as its renames do not reuse each other's names; when they do, the order
    decides whether the incremental is accepted. *)

From S2P Require Import Prelude Codec Frame Address MapBase MonMap Pool OsdMap Incremental IncrementalProps.
From Stdlib Require Import ZArith Lia Strings.Byte Strings.String.
From stdpp Require Import base option gmap sorting numbers list.

Open Scope Z_scope.

(** ** Folds that commute *)

Lemma try_fold_perm {E A B} (P : B -> Prop) (f : A -> B -> result E B) l l' :
  (forall a b b', P b -> f a b = Ok b' -> P b') ->
  l ≡ₚ l' -> NoDup l ->
  (forall x y b, x ∈ l -> y ∈ l -> x <> y -> P b -> (f x b ≫= f y) = (f y b ≫= f x)) ->
  forall b, P b -> try_fold f l b = try_fold f l' b.
Proof.
  intros HP Hl. induction Hl as [|x l l' Hl IH|x y l|l1 l2 l3 H12 IH12 H23 IH23]; intros Hn Hc b Hb.
  - done.
  - apply NoDup_cons in Hn as [_ Hn]. cbn [try_fold]. destruct (f x b) as [bx|] eqn:Ex; cbn; [|done].
    apply IH; [done| |by eapply HP]. intros; apply Hc; try done; by right.
  - apply NoDup_cons in Hn as [Hy Hn]. cbn [try_fold].
    assert (x <> y) as Hxy by (intros ->; apply Hy; left).
    pose proof (Hc x y b ltac:(right; left) ltac:(left) Hxy Hb) as H.
    destruct (f x b) as [bx|], (f y b) as [by_|]; cbn in *; try (by rewrite H); try (by rewrite <- H); congruence.
  - rewrite IH12 by done. apply IH23; [by rewrite <- H12| |done].
    intros u v c Hu Hv. apply Hc; by rewrite H12.
Qed.

Lemma fold_try {A B} (f : B -> A -> B) (E : Type) l : forall b,
  try_fold (fun a b => @Ok E B (f b a)) l b = Ok (fold_left f l b).
Proof. induction l as [|a l IH]; intros b; [done|]. cbn [try_fold fold_left]. apply IH. Qed.

Lemma fold_perm {A B} (f : B -> A -> B) l l' b :
  l ≡ₚ l' -> NoDup l ->
  (forall x y b, x ∈ l -> y ∈ l -> x <> y -> f (f b x) y = f (f b y) x) ->
  fold_left f l b = fold_left f l' b.
Proof.
  intros Hl Hn Hc. apply (Ok_inj (E := unit)). rewrite <- !fold_try.
  apply (try_fold_perm (fun _ => True)); try done. intros x y c Hx Hy Hxy _. cbn. by rewrite Hc.
Qed.

(** The entries of a hash map: distinct keys, in any two orders a permutation. *)
Lemma entries_perm {o1 o2 : HashOrder} {K V} `{Countable K} (m : gmap K V) :
  hash_entries (HashOrder := o1) m ≡ₚ hash_entries (HashOrder := o2) m.
Proof. by rewrite !hash_entries_perm. Qed.

Lemma entries_NoDup {o : HashOrder} {K V} `{Countable K} (m : gmap K V) : NoDup (hash_entries m).
Proof. rewrite hash_entries_perm. apply NoDup_map_to_list. Qed.

Lemma entries_lookup {o : HashOrder} {K V} `{Countable K} (m : gmap K V) x :
  x ∈ hash_entries m -> m !! x.1 = Some x.2.
Proof. rewrite hash_entries_perm. destruct x. apply elem_of_map_to_list. Qed.

Lemma entries_keys {o : HashOrder} {K V} `{Countable K} (m : gmap K V) x y :
  x ∈ hash_entries m -> y ∈ hash_entries m -> x <> y -> x.1 <> y.1.
Proof.
  intros Hx%entries_lookup Hy%entries_lookup Hne E. apply Hne. destruct x, y. cbn in *. congruence.
Qed.

Section Orders.
  Context (o1 o2 : HashOrder).

(** A loop over a hash map that changes one key of another map at a time. *)
Lemma map_fold_order {K V W} `{Countable K} (g : W -> option V) (m : gmap K W) (t : gmap K V) :
  fold_left (fun t e => partial_alter (fun _ => g e.2) e.1 t) (hash_entries (HashOrder := o1) m) t
  = fold_left (fun t e => partial_alter (fun _ => g e.2) e.1 t) (hash_entries (HashOrder := o2) m) t.
Proof.
  apply fold_perm; [apply entries_perm|apply entries_NoDup|].
  intros x y b Hx Hy Hne. apply partial_alter_partial_alter_ne. pose proof (entries_keys m x y Hx Hy Hne). congruence.
Qed.

Lemma fold_left_ext {A B} (f g : B -> A -> B) l b :
  (forall b a, f b a = g b a) -> fold_left f l b = fold_left g l b.
Proof. intros E. revert b. induction l as [|a l IH]; intros b; [done|]. cbn. by rewrite E, IH. Qed.

Lemma fold_order_by {K V W} `{Countable K} (f : gmap K V -> K * W -> gmap K V) (g : W -> option V) m t :
  (forall t e, f t e = partial_alter (fun _ => g e.2) e.1 t) ->
  fold_left f (hash_entries (HashOrder := o1) m) t = fold_left f (hash_entries (HashOrder := o2) m) t.
Proof.
  intros E. rewrite !(fold_left_ext f (fun t e => partial_alter (fun _ => g e.2) e.1 t)) by done.
  apply map_fold_order.
Qed.

Lemma insert_all_order {K V} `{Countable K} (m t : gmap K V) :
  insert_all (hash_entries (HashOrder := o1) m) t = insert_all (hash_entries (HashOrder := o2) m) t.
Proof. apply (map_fold_order Some). Qed.

Lemma pg_vectors_order b (m t : gmap PG (list Z)) :
  apply_pg_vectors b (hash_entries (HashOrder := o1) m) t
  = apply_pg_vectors b (hash_entries (HashOrder := o2) m) t.
Proof.
  apply (fold_order_by _ (fun v => if b && (zlen v =? 0) then None else Some v)).
  intros ? [? ?]. cbn. by destruct (_ && _).
Qed.

Lemma pg_ints_order d (m t : gmap PG Z) :
  apply_pg_ints d (hash_entries (HashOrder := o1) m) t
  = apply_pg_ints d (hash_entries (HashOrder := o2) m) t.
Proof.
  apply (fold_order_by _ (fun v => if v =? d then None else Some v)).
  intros ? [? ?]. cbn. by destruct (_ =? _).
Qed.

Lemma overrides_order i m :
  apply_overrides (order := o1) i m = apply_overrides (order := o2) i m.
Proof.
  unfold apply_overrides. cbv zeta.
  rewrite !pg_vectors_order, !pg_ints_order.
  rewrite (insert_all_order (in_new_erasure_profiles i)), (insert_all_order (in_new_pg_upmap_items i)),
    (insert_all_order (in_new_pg_upmap_primaries i)). done.
Qed.

Lemma add_pools_order (m : gmap Z Pool) pools :
  fold_left (fun p e => add_pool e p) (hash_entries (HashOrder := o1) m) pools
  = fold_left (fun p e => add_pool e p) (hash_entries (HashOrder := o2) m) pools.
Proof.
  apply fold_perm; [apply entries_perm|apply entries_NoDup|].
  intros [a p] [b q] c Ha Hb Hne. pose proof (entries_keys m _ _ Ha Hb Hne) as Hk.
  cbn in Hk. unfold add_pool.
  rewrite !lookup_insert_ne by congruence. by apply insert_insert_ne.
Qed.
End Orders.

(** ** OSDs *)

(** What one entry does to one OSD. *)
Record Touch : Type := mkTouch {
  t_state : Z -> Z;
  t_weight : Z -> Z;
  t_affinity : option (Z -> Z);
  t_addresses : list EntityAddr -> list EntityAddr
}.

Definition full_affinity (m : OSDMap) : list Z := om_primary_affinity (ensure_primary_affinity m).

Definition touch (o : nat) (t : Touch) (m : OSDMap) : OSDMap :=
  set_client_addresses (alter (t_addresses t) o (om_client_addresses m))
    (set_primary_affinity
       match t_affinity t with None => om_primary_affinity m | Some f => alter f o (full_affinity m) end
       (set_osd_weight (alter (t_weight t) o (om_osd_weight m))
          (set_osd_state (alter (t_state t) o (om_osd_state m)) m))).

(** An operation on one OSD: it depends on the state of that OSD only. *)
Definition acts {A} (f : Z * A -> OSDMap -> Apply OSDMap) : Prop :=
  exists t : A -> Z -> Touch, forall o a m, vectors_ok m ->
    f (o, a) m
    = if (0 <=? o) && (o <? zlen (om_osd_state m))
      then Ok (touch (Z.to_nat o) (t a (nth (Z.to_nat o) (om_osd_state m) 0)) m)
      else Err (AF_Error (ME_Malformed "OSD outside map size")).

Lemma alter_same {A} i (l : list A) : alter (fun x => x) i l = l.
Proof. revert i. induction l as [|a l IH]; intros [|i]; cbn; [done..|]. f_equal. apply IH. Qed.

Lemma insert_alter {A} (l : list A) i a f : l !! i = Some a -> <[i := f a]> l = alter f i l.
Proof.
  revert i. induction l as [|b l IH]; intros [|i] H; simplify_eq/=; [done|]. f_equal. by apply IH.
Qed.

Lemma zget_at {A} (l : list A) i a : zget l i = Some a -> l !! Z.to_nat i = Some a.
Proof. unfold zget. by destruct (i <? 0). Qed.

Lemma update_alter {A} (l : list A) i f : 0 <= i < zlen l -> update_at l i f = Ok (alter f (Z.to_nat i) l).
Proof.
  intros Hi. destruct (update_at_ok l i f Hi) as (a & Ha & ->). f_equal.
  apply insert_alter. by apply zget_at.
Qed.

Lemma full_affinity_length (l : list Z) m : zlen (om_osd_state m) = zlen l ->
  full_affinity (set_osd_state l m) = full_affinity m.
Proof.
  intros E. unfold full_affinity, ensure_primary_affinity. cbn. rewrite <- E.
  by destruct (om_primary_affinity m).
Qed.

Lemma zlen_alter {A} f i (l : list A) : zlen (alter f i l) = zlen l.
Proof. unfold zlen. by rewrite length_alter. Qed.

Lemma valid_osd_eq m o :
  valid_osd m o = if (0 <=? o) && (o <? zlen (om_osd_state m)) then Ok o
                  else Err (AF_Error (ME_Malformed "OSD outside map size")).
Proof. done. Qed.

Lemma acts_weight : acts apply_weight.
Proof.
  exists (fun w _ => mkTouch (if w =? 0 then fun s => s else fun s => Z.ldiff s (Z.lor (Z.shiftl 1 2) (Z.shiftl 1 3)))
            (fun _ => w) None (fun l => l)).
  intros o w m [V1 V2 V3 V4 V5]. unfold apply_weight. rewrite valid_osd_eq.
  destruct (_ && _) eqn:Ho; cbn [mbind result_bind]; [|done].
  rewrite update_alter by lia. cbn [mbind result_bind]. unfold touch. cbn [t_state t_weight t_affinity t_addresses].
  destruct (w =? 0); rewrite ?alter_same.
  - by destruct m.
  - cbn. rewrite update_alter by lia. by destruct m.
Qed.

Lemma acts_affinity : acts apply_affinity.
Proof.
  exists (fun w _ => mkTouch (fun s => s) (fun w => w) (Some (fun _ => w)) (fun l => l)).
  intros o w m Hm. pose proof Hm as [V1 V2 V3 V4 V5]. unfold apply_affinity. rewrite valid_osd_eq.
  destruct (_ && _) eqn:Ho; cbn [mbind result_bind]; [|done].
  destruct (ensure_ok m Hm) as (_ & Ha & _). rewrite update_alter by lia. cbn [mbind result_bind].
  unfold touch. cbn [t_state t_weight t_affinity t_addresses]. rewrite !alter_same. f_equal.
  unfold full_affinity, ensure_primary_affinity. by destruct (om_primary_affinity m), m.
Qed.

Lemma acts_state : acts apply_state.
Proof.
  exists (fun v old =>
    let state := if v =? 0 then Z.shiftl 1 1 else v in
    if negb (Z.land old 1 =? 0) && negb (Z.land state 1 =? 0)
    then mkTouch (fun _ => 0) (fun w => w) (Some (fun _ => DEFAULT_PRIMARY_AFFINITY)) (fun _ => [])
    else mkTouch (fun s => Z.lxor s state) (fun w => w) None (fun l => l)).
  intros o v m Hm. pose proof Hm as [V1 V2 V3 V4 V5]. unfold apply_state. rewrite valid_osd_eq.
  destruct (_ && _) eqn:Ho; cbn [mbind result_bind]; [|done].
  destruct (zget_Some (om_osd_state m) o) as [old Hold]; [lia|]. rewrite Hold.
  rewrite (nth_lookup_Some _ _ 0 _ (zget_at _ _ _ Hold)). cbv zeta.
  destruct (negb (Z.land old 1 =? 0) && _).
  - rewrite update_alter by lia. cbn [mbind result_bind]. set (m1 := set_osd_state _ m).
    assert (vectors_ok m1) as H1 by (constructor; cbn; try done; by rewrite zlen_alter).
    destruct (ensure_ok m1 H1) as (_ & Ha & _ & Hc & _). change (om_max_osd m1) with (om_max_osd m) in Ha.
    rewrite update_alter by lia. cbn [mbind result_bind om_client_addresses set_primary_affinity].
    rewrite update_alter by (rewrite Hc; cbn; lia). cbn [mbind result_bind].
    unfold touch. cbn [t_state t_weight t_affinity t_addresses]. rewrite !alter_same. f_equal.
    rewrite Hc. change (om_primary_affinity (ensure_primary_affinity m1)) with (full_affinity m1).
    assert (full_affinity m1 = full_affinity m) as -> by (apply full_affinity_length; by rewrite zlen_alter).
    subst m1.
    unfold ensure_primary_affinity. cbn. by destruct (om_primary_affinity m), m.
  - rewrite update_alter by lia. unfold touch. cbn. rewrite !alter_same. by destruct m.
Qed.

Lemma acts_up : acts apply_up.
Proof.
  exists (fun l _ => mkTouch (fun s => Z.ldiff (Z.lor s 3) (Z.shiftl 1 12)) (fun w => w) None (fun _ => l)).
  intros o l m [V1 V2 V3 V4 V5]. unfold apply_up. rewrite valid_osd_eq.
  destruct (_ && _) eqn:Ho; cbn [mbind result_bind]; [|done].
  rewrite update_alter by lia. cbn [mbind result_bind om_client_addresses set_osd_state].
  rewrite update_alter by lia. unfold touch. cbn. rewrite !alter_same. by destruct m.
Qed.

Lemma full_affinity_touch i t m :
  full_affinity (touch i t m)
  = match t_affinity t with None => full_affinity m | Some f => alter f i (full_affinity m) end.
Proof.
  unfold full_affinity, ensure_primary_affinity, touch. cbn. rewrite zlen_alter.
  destruct (t_affinity t) as [f|].
  - unfold full_affinity, ensure_primary_affinity.
    destruct (om_primary_affinity m) as [|x l] eqn:E; cbn; rewrite ?E; [|by destruct i].
    destruct (replicate _ _) eqn:Er; [done|by destruct i].
  - destruct (om_primary_affinity m) eqn:E; cbn; by rewrite ?E.
Qed.

Lemma touch_commute i j t u m : i <> j -> touch i t (touch j u m) = touch j u (touch i t m).
Proof.
  intros Hne. pose proof (full_affinity_touch i t m) as Ei. pose proof (full_affinity_touch j u m) as Ej.
  unfold touch at 1 3. cbn [om_client_addresses om_primary_affinity om_osd_weight om_osd_state
    set_client_addresses set_primary_affinity set_osd_weight set_osd_state].
  rewrite Ei, Ej. unfold touch. cbn.
  rewrite (list_alter_alter_ne (t_addresses t)), (list_alter_alter_ne (t_weight t)), (list_alter_alter_ne (t_state t)) by done.
  destruct (t_affinity t) as [f|], (t_affinity u) as [g|]; cbn; try done. by rewrite (list_alter_alter_ne f g).
Qed.

Lemma nth_alter_ne {A} f i j (l : list A) d : i <> j -> nth i (alter f j l) d = nth i l d.
Proof.
  intros Hne. revert i j Hne. induction l as [|x l IH]; intros [|i] [|j] Hne; cbn; try done.
  apply IH. congruence.
Qed.

Lemma touch_ok i t m : vectors_ok m -> vectors_ok (touch i t m).
Proof.
  intros Hm. pose proof Hm as [V1 V2 V3 V4 V5]. constructor; cbn; rewrite ?zlen_alter; try done.
  destruct (t_affinity t); [|done]. right. rewrite zlen_alter.
  by destruct (ensure_ok m Hm) as (_ & ? & _).
Qed.

Lemma acts_ok {A} (f : Z * A -> OSDMap -> Apply OSDMap) e m m' :
  acts f -> vectors_ok m -> f e m = Ok m' -> vectors_ok m'.
Proof.
  destruct e as [o a]. intros [t Hf] Hm H. rewrite Hf in H by done. destruct (_ && _); [|done].
  apply Ok_inj in H as <-. by apply touch_ok.
Qed.

Lemma acts_commute {A} (f : Z * A -> OSDMap -> Apply OSDMap) x y m :
  acts f -> vectors_ok m -> x.1 <> y.1 -> (f x m ≫= f y) = (f y m ≫= f x).
Proof.
  destruct x as [o a], y as [p b]. intros [t Hf] Hm Hne. cbn in Hne. rewrite !Hf by done.
  destruct ((0 <=? o) && _) eqn:Ho, ((0 <=? p) && _) eqn:Hp; cbn [mbind result_bind]; try done;
    rewrite ?Hf by (by apply touch_ok); cbn [om_osd_state touch set_client_addresses set_primary_affinity
      set_osd_weight set_osd_state]; rewrite ?zlen_alter, ?Ho, ?Hp; try done.
  rewrite !nth_alter_ne by lia. f_equal. apply touch_commute. lia.
Qed.

Section Loops.
  Context (o1 o2 : HashOrder).

Lemma acts_order {A} (f : Z * A -> OSDMap -> Apply OSDMap) (g : gmap Z A) m :
  acts f -> vectors_ok m ->
  try_fold f (hash_entries (HashOrder := o1) g) m = try_fold f (hash_entries (HashOrder := o2) g) m.
Proof.
  intros Hf Hm. apply (try_fold_perm vectors_ok); try done.
  - intros e b b' Hb He. by eapply acts_ok.
  - apply entries_perm.
  - apply entries_NoDup.
  - intros x y b Hx Hy Hne Hb. apply acts_commute; [done|done|]. exact (entries_keys g _ _ Hx Hy Hne).
Qed.

Lemma osds_order i m : vectors_ok m ->
  apply_osds (order := o1) i m = apply_osds (order := o2) i m.
Proof.
  intros Hm. unfold apply_osds. rewrite (acts_order apply_weight) by (apply acts_weight || done).
  destruct (try_fold apply_weight _ m) as [m1|] eqn:E1; cbn; [|done].
  assert (vectors_ok m1) as H1.
  { pose proof (keeps_fold _ _ (hash_entries (in_new_weight i)) m keeps_weight Hm) as K. by rewrite E1 in K. }
  rewrite (acts_order apply_affinity) by (apply acts_affinity || done).
  destruct (try_fold apply_affinity _ m1) as [m2|] eqn:E2; cbn; [|done].
  assert (vectors_ok m2) as H2.
  { pose proof (keeps_fold _ _ (hash_entries (in_new_primary_affinity i)) m1 keeps_affinity H1) as K. by rewrite E2 in K. }
  rewrite (acts_order apply_state) by (apply acts_state || done).
  destruct (try_fold apply_state _ m2) as [m3|] eqn:E3; cbn; [|done].
  assert (vectors_ok m3) as H3.
  { pose proof (keeps_fold _ _ (hash_entries (in_new_state i)) m2 keeps_state H2) as K. by rewrite E3 in K. }
  apply acts_order; [apply acts_up|done].
Qed.

(** ** Renames *)

(** The renames take names that no other pool has, and all different. *)
Record renames_fresh (names : gmap (list byte) Z) (renames : gmap Z (list byte)) : Prop := {
  rf_named : forall id n, renames !! id = Some n -> n <> [];
  rf_free : forall id n old, renames !! id = Some n -> names !! n = Some old -> old = id;
  rf_distinct : forall id id' n, renames !! id = Some n -> renames !! id' = Some n -> id = id'
}.

Definition renamable (renames : gmap Z (list byte)) (m : OSDMap) : Prop :=
  names_ok (om_pools m) (om_name_to_id m)
  /\ forall id n old, renames !! id = Some n -> om_name_to_id m !! n = Some old -> old = id.

Definition renamed (id : Z) (name : list byte) (p : Pool) (m : OSDMap) : OSDMap :=
  let m := set_pools (<[id := with_pool_name name p]> (om_pools m)) m in
  set_name_to_id (<[name := id]> (delete (pool_name p) (om_name_to_id m))) m.

Lemma rename_eq renames id n m :
  renamable renames m -> renames !! id = Some n ->
  rename_pool (id, n) m
  = match om_pools m !! id with
    | None => Err (AF_Error (ME_Malformed "rename for unknown pool"))
    | Some p => Ok (renamed id n p m)
    end.
Proof.
  intros [_ Hf] Hr. unfold rename_pool. destruct (om_pools m !! id) as [p|]; [|done].
  destruct (om_name_to_id m !! n) as [old|] eqn:Ho; [|done].
  rewrite (Hf id n old Hr Ho), Z.eqb_refl. done.
Qed.

Lemma renamed_renamable names renames id n p m :
  renames_fresh names renames -> renamable renames m -> renames !! id = Some n ->
  om_pools m !! id = Some p -> renamable renames (renamed id n p m).
Proof.
  intros Hfresh [Hn Hf] Hr Hp. split; cbn.
  - apply rename_names; [done|done|]. intros old Ho. by eapply Hf.
  - intros j k old Hj Ho. apply lookup_insert_Some in Ho as [[<- <-]|[_ Ho]].
    + exact (rf_distinct _ _ Hfresh id j n Hr Hj).
    + apply lookup_delete_Some in Ho as [_ Ho]. by eapply Hf.
Qed.

(** Two renames do not get in each other's way. *)
Lemma renamed_commute id id' n n' p p' m :
  id <> id' -> n <> n' -> pool_name p' <> n -> pool_name p <> n' ->
  renamed id' n' p' (renamed id n p m) = renamed id n p (renamed id' n' p' m).
Proof.
  intros Hid Hn Hp' Hp. unfold renamed. cbn.
  rewrite (insert_insert_ne (om_pools m) id id') by done.
  assert (forall names : gmap (list byte) Z,
    <[n' := id']> (delete (pool_name p') (<[n := id]> (delete (pool_name p) names)))
    = <[n := id]> (delete (pool_name p) (<[n' := id']> (delete (pool_name p') names)))) as E.
  { intros names. apply map_eq. intros k.
    rewrite !lookup_insert, !lookup_delete, !lookup_insert, !lookup_delete.
    repeat case_decide; congruence. }
  by rewrite E.
Qed.

Lemma other_name m id p n id' :
  names_ok (om_pools m) (om_name_to_id m) -> om_pools m !! id = Some p -> n <> [] -> id <> id' ->
  (forall old, om_name_to_id m !! n = Some old -> old = id') -> pool_name p <> n.
Proof.
  intros [_ N2] Hp Hn Hid Hf E. subst n. apply Hid, Hf. by apply N2.
Qed.

Lemma renames_commute names renames x y m :
  renames_fresh names renames -> renamable renames m ->
  renames !! x.1 = Some x.2 -> renames !! y.1 = Some y.2 -> x.1 <> y.1 ->
  (rename_pool x m ≫= rename_pool y) = (rename_pool y m ≫= rename_pool x).
Proof.
  destruct x as [id n], y as [id' n']. cbn [fst snd]. intros Hfresh Hm Hx Hy Hne. pose proof Hm as [Hn Hf].
  rewrite (rename_eq renames id n) by done. rewrite (rename_eq renames id' n') by done.
  destruct (om_pools m !! id) as [p|] eqn:Hp, (om_pools m !! id') as [p'|] eqn:Hp'; cbn [mbind result_bind].
  - rewrite (rename_eq renames id' n'), (rename_eq renames id n) by (done || by eapply renamed_renamable).
    cbn [om_pools renamed set_pools set_name_to_id]. rewrite !lookup_insert_ne by done. rewrite Hp, Hp'. f_equal.
    assert (n <> n') by (intros <-; apply Hne; exact (rf_distinct _ _ Hfresh _ _ _ Hx Hy)).
    apply renamed_commute; try done.
    + apply (other_name m id' p' n id); try done; [by eapply rf_named|]. intros old. by apply Hf.
    + apply (other_name m id p n' id'); try done; [by eapply rf_named|]. intros old. by apply Hf.
  - rewrite (rename_eq renames id' n') by (done || by eapply renamed_renamable).
    cbn [om_pools renamed set_pools set_name_to_id]. by rewrite lookup_insert_ne, Hp' by done.
  - rewrite (rename_eq renames id n) by (done || by eapply renamed_renamable).
    cbn [om_pools renamed set_pools set_name_to_id]. by rewrite lookup_insert_ne, Hp by done.
  - done.
Qed.

Lemma renames_order names (renames : gmap Z (list byte)) m :
  renames_fresh names renames -> renamable renames m ->
  try_fold rename_pool (hash_entries (HashOrder := o1) renames) m
  = try_fold rename_pool (hash_entries (HashOrder := o2) renames) m.
Proof.
  intros Hfresh Hm.
  (* Only the renames themselves keep the map renamable. *)
  set (f := fun e m => if bool_decide (renames !! e.1 = Some e.2) then rename_pool e m
                       else Err (AF_Error ME_LockPoisoned)).
  assert (forall l m, Forall (fun e => renames !! e.1 = Some e.2) l -> try_fold rename_pool l m = try_fold f l m) as Hf.
  { induction l as [|e l IH]; intros c Hl; [done|]. apply Forall_cons in Hl as [He Hl]. cbn [try_fold].
    assert (f e c = rename_pool e c) as -> by (unfold f; by rewrite bool_decide_true).
    destruct (rename_pool e c); cbn; [by apply IH|done]. }
  rewrite !Hf by (apply Forall_forall; intros e He; exact (entries_lookup _ _ He)).
  apply (try_fold_perm (renamable renames)); try done; [|apply entries_perm|apply entries_NoDup|].
  - intros [id n] b b' Hb He. unfold f in He. case_bool_decide as Hr; [|done]. cbn in Hr.
    rewrite (rename_eq renames) in He by done. destruct (om_pools b !! id) eqn:Hp; [|done].
    apply Ok_inj in He as <-. by eapply renamed_renamable.
  - intros x y b Hx%entries_lookup Hy%entries_lookup Hne Hb. 
    assert (forall c, f x c = rename_pool x c) as Ex by (intros c; unfold f; by rewrite bool_decide_true).
    assert (forall c, f y c = rename_pool y c) as Ey by (intros c; unfold f; by rewrite bool_decide_true).
    rewrite Ex, Ey. transitivity (rename_pool x b ≫= rename_pool y); [by destruct (rename_pool x b); cbn|].
    transitivity (rename_pool y b ≫= rename_pool x); [|by destruct (rename_pool y b); cbn].
    eapply renames_commute; try done. intros E. apply Hne. destruct x, y. cbn in *. congruence.
Qed.
End Loops.

Section Theorems.
  Context {crc_crate : Crc32cCrate} (o1 o2 : HashOrder).

Lemma pools_order i m :
  incremental_ok i -> pools_ok (om_pools m) -> names_ok (om_pools m) (om_name_to_id m) ->
  renames_fresh (om_name_to_id m) (in_new_pool_names i) ->
  apply_pools (order := o1) i m = apply_pools (order := o2) i m.
Proof.
  intros Hi Hp Hn Hf. unfold apply_pools. cbv zeta. rewrite (add_pools_order o1 o2 (in_new_pools i)).
  set (m0 := set_pools _ m). rewrite (renames_order o1 o2 (om_name_to_id m) _ m0); [done|done|].
  pose proof (hash_entries_Forall (order := o2) (fun e => pool_id e.2 = e.1 /\ pool_name e.2 = []) _ Hi) as Hl.
  destruct (adds_part True _ (om_name_to_id m) (om_pools m) Hl Hp (fun _ => Hn)) as [_ Hn1].
  split; [by apply Hn1|]. intros id n old Hr Ho. exact (rf_free _ _ Hf id n old Hr Ho).
Qed.

Lemma apply_fields_names i m m' : apply_fields i m = Ok m' ->
  om_pools m' = om_pools m /\ om_name_to_id m' = om_name_to_id m.
Proof.
  unfold apply_fields, resize_osds. cbv zeta. intros H.
  destruct (in_crush_data i); [apply Ok_inj in H as <-|apply bind_inv in H as (v & _ & H); apply Ok_inj in H as <-];
    destruct (in_new_pool_max i =? -1), (0 <=? in_new_flags i), (0 <=? in_new_max_osd i); cbn; try done;
    by destruct (om_primary_affinity m).
Qed.

(** C32. The outcome of applying an incremental does not depend on the order
    in which its hash maps are walked: any two orders give the same map or the
    same error.  This is for a well-formed map whose index of names holds exactly
    the names of its named pools, for new pools that come without a name, and for
    renames to distinct, nonempty names that no other pool has. *)
Theorem incremental_order_irrelevant current i limits :
  osdmap_ok current -> names_ok (om_pools current) (om_name_to_id current) -> incremental_ok i ->
  renames_fresh (om_name_to_id current) (in_new_pool_names i) ->
  apply_osdmap_incremental (order := o1) current i limits
  = apply_osdmap_incremental (order := o2) current i limits.
Proof.
  intros [Hv Hp] Hn Hi Hf. unfold apply_osdmap_incremental.
  destruct (bool_decide _); [done|]. destruct (ok_or _ _) as [e|]; cbn [mbind result_bind]; [|done].
  destruct (negb _); [done|]. destruct (negb (zlen (in_full_map i) =? 0)); [done|].
  destruct (apply_fields i current) as [m1|] eqn:E1; cbn [mbind result_bind]; [|done].
  destruct (apply_fields_ok True i current m1 Hv (conj Hp (fun _ => Hn)) E1) as (V1 & [P1 N1] & _).
  destruct (apply_fields_names i current m1 E1) as [_ En].
  rewrite pools_order; [|done|done|by apply N1|by rewrite En].
  destruct (apply_pools i m1) as [m2|] eqn:E2; cbn [mbind result_bind]; [|done].
  destruct (apply_pools_ok True i m1 m2 Hi (conj P1 N1) E2) as [_ S2].
  rewrite (osds_order o1 o2) by (by eapply same_osds_ok).
  destruct (apply_osds i m2) as [m3|]; cbn [mbind result_bind]; [|done]. by rewrite (overrides_order o1 o2).
Qed.
End Theorems.

(** ** Two orders *)

Definition in_order : HashOrder :=
  {| hash_entries K V _ _ m := map_to_list m; hash_entries_perm K V _ _ m := Permutation_refl _ |}.

Lemma reversed_perm {K V : Type} `{Countable K} (m : gmap K V) :
  reverse (map_to_list m) ≡ₚ map_to_list m.
Proof. apply reverse_Permutation. Qed.

Definition reversed : HashOrder :=
  {| hash_entries K V _ _ m := reverse (map_to_list m); hash_entries_perm K V _ _ m := reversed_perm m |}.

Definition test_pool (id : Z) (name : list byte) : Pool :=
  mkPool id name 1 3 2 0 2 32 32 0 1 0 ∅ [] ∅ ∅.

Definition test_osdmap : OSDMap :=
  mkOSDMap (replicate 16 x00) 7 (mkUTime 0 0) (mkUTime 0 0)
    {[1 := test_pool 1 [x61]; 2 := test_pool 2 [x62]]} {[[x61] := 1; [x62] := 2]} 2 0 1 [3] [65536]
    [[]] ∅ ∅ [] [] ∅ ∅ ∅ 0 ∅ ∅ (mkUTime 0 0) (mkUTime 0 0) ∅ 0 false false.

Definition test_incremental (names : gmap Z (list byte)) : OSDMapIncremental :=
  mkOSDMapIncremental (replicate 16 x00) 8 (mkUTime 1 0) (-1) (-1) [] [] 2 ∅ names []
    ∅ {[0 := 2]} {[1 := 65536]} ∅ ∅ {[0 := 0]} ∅ [] ∅ [] ∅ [] ∅ ∅ (mkUTime 0 0) (mkUTime 0 0) ∅ [] 0 0.

Definition test_map_limits : MapLimits := mkMapLimits 4096 8 8 8 8 8 8 8.

(** Renaming pool 1 to the name pool 2 gives up in the same incremental is
    accepted or refused depending on the order of the hash map. *)
Lemma rename_order_matters :
  let i := test_incremental {[1 := [x62]; 2 := [x63]]} in
  is_ok (apply_osdmap_incremental (crc_crate := reference_crc) (order := in_order) test_osdmap i test_map_limits)
  <> is_ok (apply_osdmap_incremental (crc_crate := reference_crc) (order := reversed) test_osdmap i test_map_limits).
Proof. vm_compute. discriminate. Qed.

Lemma test_osdmap_ok : osdmap_ok test_osdmap.
Proof.
  constructor; [constructor; cbn; try done; by left|]. intros id p Hp. cbn in Hp.
  apply lookup_insert_Some in Hp as [[<- <-]|[_ Hp]]; [done|]. apply lookup_singleton_Some in Hp as [<- <-]. done.
Qed.

Lemma test_names_ok : names_ok (om_pools test_osdmap) (om_name_to_id test_osdmap).
Proof.
  constructor.
  - intros n id Hn. cbn in Hn. apply lookup_insert_Some in Hn as [[<- <-]|[_ Hn]]; [by eexists|].
    apply lookup_singleton_Some in Hn as [<- <-]. by eexists.
  - intros id p Hp _. cbn in Hp. apply lookup_insert_Some in Hp as [[<- <-]|[_ Hp]]; [done|].
    by apply lookup_singleton_Some in Hp as [<- <-].
Qed.

Lemma incremental_order_irrelevant_witness :
  apply_osdmap_incremental (crc_crate := reference_crc) (order := in_order) test_osdmap
    (test_incremental {[1 := [x64]; 2 := [x63]]}) test_map_limits
  = apply_osdmap_incremental (crc_crate := reference_crc) (order := reversed) test_osdmap
      (test_incremental {[1 := [x64]; 2 := [x63]]}) test_map_limits.
Proof.
  apply incremental_order_irrelevant; [apply test_osdmap_ok|apply test_names_ok|by intros id p Hp|].
  assert (forall id n, ({[1 := [x64]; 2 := [x63]]} : gmap Z (list byte)) !! id = Some n ->
    (id = 1 /\ n = [x64]) \/ (id = 2 /\ n = [x63])) as Hr.
  { intros id n Hn. apply lookup_insert_Some in Hn as [[<- <-]|[_ Hn]]; [by left|].
    apply lookup_singleton_Some in Hn as [<- <-]. by right. }
  constructor; cbn [in_new_pool_names test_incremental].
  - intros id n Hn. apply Hr in Hn as [[_ ->]|[_ ->]]; done.
  - intros id n old Hn Ho. apply Hr in Hn as [[-> ->]|[-> ->]]; vm_compute in Ho; discriminate.
  - intros id id' n Hn Hn'. apply Hr in Hn as [[-> ->]|[-> ->]], Hn' as [[-> ?]|[-> ?]]; done.
Defined.

(** The check for missing pool names compares only the numbers of pools and
    names: two names for pool 1 leave pool 2 nameless, and the counts agree. *)
Lemma pool_names_only_counted :
  let pools := {[1 := test_pool 1 []; 2 := test_pool 2 []]} : gmap Z Pool in
  let data := le_bytes 8 1 ++ le_bytes 4 1 ++ [x61] ++ le_bytes 8 1 ++ le_bytes 4 1 ++ [x62] in
  match read_pool_names 2 pools ∅ (Decoder_new data 100) with
  | Ok (pn, _) => size pn.2 = size pn.1 /\ (pool_name <$> pn.1 !! 2) = Some []
  | Err _ => False
  end.
Proof. vm_compute. split; reflexivity. Qed.
