(* ===== verification/MapPlacement.v ===== *)
(** * From an object to its OSDs

    Models [src/src/maps/placement.rs]: the placement group of an object, the
    CRUSH placement of the group, the exceptions a map lists for it, and the
    sets of OSDs that are up and acting, with their primaries. *)

From S2P Require Import Prelude Codec CrushHash CrushLn CrushMap CrushPlace MapBase Pool OsdMap.
From Stdlib Require Import ZArith Lia Strings.Byte Strings.String.
From stdpp Require Import base option gmap sorting numbers list.

Open Scope Z_scope.

Definition OBJECT_HASH_RJENKINS : Z := 2.
Definition POOL_TYPE_REPLICATED : Z := 1.
Definition POOL_FLAG_HASHPSPOOL : Z := Z.shiftl 1 0.
Definition POOL_FLAG_EC_OPTIMIZATIONS : Z := Z.shiftl 1 19.
Definition DEFAULT_PRIMARY_AFFINITY : Z := 0x10000.

(** An error, a panic, or a loop of the placement that does not end. *)
Inductive PlaceFault : Type :=
| PF_Error (e : MapError)
| PF_Panic
| PF_Diverges.

Definition unsupported {A} (reason : string) : result PlaceFault A :=
  Err (PF_Error (ME_UnsupportedPlacement reason)).

Record ObjectPlacement : Type := mkObjectPlacement {
  raw_hash : Z;
  raw_pg : PG;
  pl_pg : PG;
  placement_seed : Z;
  pl_raw : list Z;
  up : list Z;
  up_primary : Z;
  acting : list Z;
  acting_primary : Z;
  primary_shard : Z;
  sharded : bool
}.

(** ** OSDs of a map *)

Definition osd_exists (m : OSDMap) (osd : Z) : bool :=
  match zget (om_osd_state m) osd with
  | Some state => negb (Z.land state (Z.shiftl 1 0) =? 0)
  | None => false
  end.

Definition is_up (m : OSDMap) (osd : Z) : bool :=
  match zget (om_osd_state m) osd with
  | Some state => negb (Z.land state (Z.shiftl 1 0) =? 0) && negb (Z.land state (Z.shiftl 1 1) =? 0)
  | None => false
  end.

Definition first_osd (osds : list Z) : Z :=
  match List.find (fun osd => negb (osd =? ITEM_NONE)) osds with Some osd => osd | None => -1 end.

Definition contains_osd (osds : list Z) (target : Z) : bool := existsb (Z.eqb target) osds.

Fixpoint validate_set_loop (m : OSDMap) (name : string) (allow_duplicates : bool) (seen osds : list Z)
    : result PlaceFault unit :=
  match osds with
  | [] => Ok tt
  | osd :: osds =>
      if osd =? ITEM_NONE then validate_set_loop m name allow_duplicates seen osds
      else if negb (osd_exists m osd) then unsupported (name ++ " references nonexistent OSD")
      else if negb allow_duplicates && bool_decide (osd ∈ seen)
      then unsupported (name ++ " contains duplicate OSD")
      else validate_set_loop m name allow_duplicates (osd :: seen) osds
  end.

Definition validate_placement_set (m : OSDMap) (name : string) (osds : list Z) (allow_duplicates : bool)
    : result PlaceFault unit :=
  validate_set_loop m name allow_duplicates [] osds.

Definition only_up (m : OSDMap) (source : list Z) (preserve_slots : bool) : list Z :=
  omap (fun osd => if is_up m osd then Some osd else if preserve_slots then Some ITEM_NONE else None) source.

(** ** Exceptions for a group *)

(** Whether an OSD of the map has weight zero. *)
Definition weight_is_zero (m : OSDMap) (osd : Z) : bool :=
  match zget (om_osd_weight m) osd with Some w => w =? 0 | None => false end.

(** The scan for the source and the target of a remap. *)
Fixpoint scan_remap (r : OSDRemap) (target_out : bool) (i : nat) (position : option nat) (l : list Z)
    : bool * option nat :=
  match l with
  | [] => (false, position)
  | osd :: l =>
      if osd =? remap_to r then (true, position)
      else
        let position := if (osd =? remap_from r) && bool_decide (position = None) && negb target_out
                        then Some i else position in
        scan_remap r target_out (S i) position l
  end.

Definition apply_remap (m : OSDMap) (osds : list Z) (r : OSDRemap) : list Z :=
  let target_out := negb (remap_to r =? ITEM_NONE) && (0 <=? remap_to r) && weight_is_zero m (remap_to r) in
  match scan_remap r target_out 0 None osds with
  | (false, Some i) => <[i := remap_to r]> osds
  | _ => osds
  end.

(** [result.swap(0, index)] for the first index from 1 on that holds
    [primary]. *)
Definition move_first (primary : Z) (osds : list Z) : list Z :=
  match osds with
  | [] => []
  | first :: rest =>
      match list_find (fun osd => osd = primary) rest with
      | Some (i, _) => primary :: <[i := first]> rest
      | None => osds
      end
  end.

Definition apply_upmap_items (m : OSDMap) (pg : PG) (osds : list Z) : list Z :=
  match om_pg_upmap_items m !! pg with
  | Some remaps => fold_left (apply_remap m) remaps osds
  | None => osds
  end.

Definition apply_upmap_primary (m : OSDMap) (pg : PG) (osds : list Z) : list Z :=
  match om_pg_upmap_primaries m !! pg with
  | Some primary =>
      if negb (primary =? ITEM_NONE) && (0 <=? primary)
         && match zget (om_osd_weight m) primary with Some w => negb (w =? 0) | None => false end
      then move_first primary osds else osds
  | None => osds
  end.

Definition apply_upmap (m : OSDMap) (pg : PG) (source : list Z) : list Z :=
  match om_pg_upmap m !! pg with
  | Some replacement =>
      if forallb (fun osd => (osd =? ITEM_NONE) || (osd <? 0) || negb (weight_is_zero m osd)) replacement
      then apply_upmap_primary m pg (apply_upmap_items m pg replacement)
      else source
  | None => apply_upmap_primary m pg (apply_upmap_items m pg source)
  end.

Definition validate_upmap (m : OSDMap) (pg : PG) : result PlaceFault unit :=
  _ ← match om_pg_upmap m !! pg with
      | Some replacement => validate_placement_set m "pg_upmap" replacement false
      | None => Ok tt
      end;
  match om_pg_upmap_items m !! pg with
  | Some remaps =>
      if existsb (fun r => negb (remap_to r =? ITEM_NONE) && negb (osd_exists m (remap_to r))) remaps
      then unsupported "pg_upmap_items references nonexistent OSD" else Ok tt
  | None => Ok tt
  end.

Definition temp_mapping (m : OSDMap) (pg : PG) (preserve_slots : bool) : result PlaceFault (list Z * Z) :=
  let primary := default (-1) (om_primary_temp m !! pg) in
  match om_pg_temp m !! pg with
  | None => Ok ([], primary)
  | Some source =>
      _ ← validate_placement_set m "pg_temp" source preserve_slots;
      let osds := only_up m source preserve_slots in
      Ok (osds, if primary =? -1 then first_osd osds else primary)
  end.

(** The OSD that is to be primary: the first that its affinity does not
    reject, or else the first that has an affinity at all. *)
Fixpoint affinity_scan (m : OSDMap) (seed : Z) (i : nat) (position : option nat) (l : list Z) : option nat :=
  match l with
  | [] => position
  | osd :: l =>
      if (osd =? ITEM_NONE) || (osd <? 0) then affinity_scan m seed (S i) position l
      else
        match zget (om_primary_affinity m) osd with
        | None => affinity_scan m seed (S i) position l
        | Some affinity =>
            if (affinity <? DEFAULT_PRIMARY_AFFINITY)
               && (affinity <=? Z.shiftr (hash32_pair seed (wrap 32 osd)) 16)
            then affinity_scan m seed (S i) (match position with None => Some i | p => p end) l
            else Some i
        end
  end.

(** [osds.copy_within(0..index, 1); osds[0] = primary]. *)
Definition shift_to_front (index : nat) (primary : Z) (osds : list Z) : list Z :=
  primary :: take index osds ++ drop (S index) osds.

Definition apply_primary_affinity (m : OSDMap) (seed : Z) (osds : list Z) (primary : Z)
    (shift_primary : bool) : result PlaceFault (list Z * Z) :=
  if zlen (om_primary_affinity m) =? 0 then Ok (osds, primary)
  else
    match affinity_scan m seed 0 None osds with
    | None => Ok (osds, primary)
    | Some index =>
        primary ← ok_or (osds !! index) PF_Panic;
        Ok (if shift_primary && negb (index =? 0)%nat then shift_to_front index primary osds else osds, primary)
    end.

(** ** The group of an object *)

Definition map_raw_hash (m : OSDMap) (pool_id hash : Z) : result PlaceFault ObjectPlacement :=
  if pool_id <? 0 then unsupported "negative pool id"
  else
    match om_pools m !! pool_id with
    | None => unsupported "pool does not exist"
    | Some pool =>
        if negb (pool_object_hash pool =? OBJECT_HASH_RJENKINS) then unsupported "unsupported object hash"
        else if Z.land (pool_flags pool) POOL_FLAG_HASHPSPOOL =? 0
        then unsupported "pool does not use HASHPSPOOL"
        else if (pg_count pool =? 0) || (placement_pg_count pool =? 0)
                || (pg_count pool <? placement_pg_count pool)
        then unsupported "invalid PG geometry"
        else
          let placement_pg := stable_mod hash (placement_pg_count pool) in
          let pool_seed := Z.land pool_id u32_max in
          Ok (mkObjectPlacement hash (mkPG pool_id hash (-1)) (mkPG pool_id (stable_mod hash (pg_count pool)) (-1))
                (hash32_pair placement_pg pool_seed) [] [] (-1) [] (-1) 0 false)
    end.

Definition map_object (m : OSDMap) (pool_id : Z) (object locator namespace : list byte)
    : result PlaceFault ObjectPlacement :=
  map_raw_hash m pool_id (object_hash object locator namespace).

Definition decode_crush_payload (m : OSDMap) : result PlaceFault ValidatedMap :=
  let len := zlen (om_crush_data m) in
  max_bytes ← ok_or (try_u 32 len) (PF_Error (ME_UnsupportedPlacement "CRUSH map exceeds supported size"));
  structural ← ok_or (try_u 32 (Z.max (len / 4) 1))
                 (PF_Error (ME_UnsupportedPlacement "CRUSH map exceeds supported size"));
  match Map_decode (om_crush_data m) (mkDecodeLimits max_bytes structural structural structural structural) with
  | Err (DE_Wire _) => unsupported "invalid CRUSH map"
  | Err DE_Unsupported => unsupported "unsupported CRUSH map"
  | Ok map =>
      match ValidatedMap_new map with
      | Ok v => Ok v
      | Err _ => unsupported "invalid CRUSH placement"
      end
  end.

Section Place.
  Context {base64 : Base64Engine}.

(** Which faults of the CRUSH placement are errors of the map. *)
Definition place_crush (v : ValidatedMap) (rule seed replicas : Z) (weights : list Z)
    : result PlaceFault (list Z) :=
  match ValidatedMap_place v rule seed replicas weights with
  | Ok raw => Ok raw
  | Err F_PlacementError => unsupported "invalid CRUSH placement"
  | Err F_Panic => Err PF_Panic
  | Err F_Fuel => Err PF_Diverges
  end.

(** The acting set of a group whose up set is known. *)
Definition acting_set (m : OSDMap) (pg : PG) (is_sharded : bool) (up_set : list Z) (primary : Z)
    : result PlaceFault (list Z * Z) :=
  '(temp, temp_primary) ← temp_mapping m pg is_sharded;
  let '(set, set_primary) :=
    if zlen temp =? 0 then (up_set, if temp_primary =? -1 then primary else temp_primary)
    else (temp, temp_primary) in
  if negb (set_primary =? -1) && negb (contains_osd set set_primary)
  then unsupported "temporary primary is not in the acting set"
  else Ok (set, set_primary).

(** The shard of the primary: its first position in the acting set. *)
Definition find_shard (set : list Z) (primary : Z) : result PlaceFault (Z * bool) :=
  match list_find (fun osd => osd = primary) set with
  | None => Ok (0, false)
  | Some (i, _) =>
      if 127 <? Z.of_nat i then unsupported "erasure primary shard exceeds wire range"
      else Ok (Z.of_nat i, true)
  end.

Definition place_mapped (m : OSDMap) (pool_id : Z) (p : ObjectPlacement) : result PlaceFault ObjectPlacement :=
  match om_pools m !! pool_id with
  | None => unsupported "pool does not exist"
  | Some pool =>
      if negb (pool_type pool =? POOL_TYPE_REPLICATED) && negb (pool_type pool =? POOL_TYPE_ERASURE)
      then unsupported "unsupported pool type"
      else if (pool_type pool =? POOL_TYPE_ERASURE)
              && negb (Z.land (pool_flags pool) POOL_FLAG_EC_OPTIMIZATIONS =? 0)
      then unsupported "optimized erasure placement is not supported"
      else if pool_size pool =? 0 then unsupported "pool has zero replicas"
      else
        crush_map ← decode_crush_payload m;
        raw ← place_crush crush_map (crush_rule pool) (placement_seed p) (pool_size pool) (om_osd_weight m);
        _ ← validate_upmap m (pl_pg p);
        let is_sharded := pool_type pool =? POOL_TYPE_ERASURE in
        let up_set := only_up m (apply_upmap m (pl_pg p) raw) is_sharded in
        '(up_set, primary) ←
          apply_primary_affinity m (placement_seed p) up_set (first_osd up_set) (negb is_sharded);
        '(set, set_primary) ← acting_set m (pl_pg p) is_sharded up_set primary;
        '(shard, found) ← (if is_sharded then find_shard set set_primary
                           else Ok (primary_shard p, sharded p));
        Ok (mkObjectPlacement (raw_hash p) (raw_pg p) (pl_pg p) (placement_seed p) raw up_set primary
              set set_primary (if found : bool then shard else primary_shard p) (sharded p || found))
  end.

Definition place_raw_hash (m : OSDMap) (pool_id hash : Z) : result PlaceFault ObjectPlacement :=
  p ← map_raw_hash m pool_id hash;
  place_mapped m pool_id p.

Definition place_object (m : OSDMap) (pool_id : Z) (object locator namespace : list byte)
    : result PlaceFault ObjectPlacement :=
  p ← map_object m pool_id object locator namespace;
  place_mapped m pool_id p.

End Place.
