(* ===== verification/MapPlacementProps.v ===== *)
(** * Theorems on the placement of objects

    An object is placed without panics, on OSDs that are up, with primaries
    that belong to their sets; the groups of a replicated pool have no OSD
    twice. *)

From S2P Require Import Prelude Codec CrushHash CrushLn CrushMap CrushPlace MapBase Pool OsdMap Incremental IncrementalProps MapPlacement.
From Stdlib Require Import ZArith Lia Strings.Byte Strings.String.
From stdpp Require Import base option gmap sorting numbers list.

Open Scope Z_scope.

(** ** Sets of OSDs *)

(** No OSD twice; holes may repeat. *)
Definition no_repeats (l : list Z) : Prop := NoDup (filter (fun x => x <> ITEM_NONE) l).

#[export] Instance no_repeats_proper : Proper ((≡ₚ) ==> iff) no_repeats.
Proof. intros a b Hab. unfold no_repeats. by rewrite Hab. Qed.

Lemma no_repeats_distinct l : no_repeats l <-> distinct l.
Proof.
  split; [|apply distinct_NoDup]. unfold no_repeats. induction l as [|x l IH]; intros Hn i j y Hi Hj Hy; [done|].
  rewrite filter_cons in Hn. assert (y ∈ l -> y = x -> False) as Hx.
  { intros Hin ->. rewrite decide_True in Hn by done. apply NoDup_cons in Hn as [Hn _]. apply Hn.
    by apply list_elem_of_filter. }
  assert (NoDup (filter (fun x => x <> ITEM_NONE) l)) as Hl.
  { destruct (decide (x <> ITEM_NONE)); [by apply NoDup_cons in Hn as [_ Hn]|done]. }
  destruct i as [|i], j as [|j]; cbn in Hi, Hj; simplify_eq; [done|..].
  - exfalso. apply Hx; [by eapply list_elem_of_lookup_2|done].
  - exfalso. apply Hx; [by eapply list_elem_of_lookup_2|done].
  - f_equal. by eapply IH.
Qed.

Section Osds.
  Context (m : OSDMap).

Lemma validate_set_inv name seen : forall osds,
  validate_set_loop m name false seen osds = Ok tt ->
  no_repeats osds /\ forall x, x ∈ osds -> x <> ITEM_NONE -> x ∉ seen.
Proof.
  intros osds. revert seen. induction osds as [|x l IH]; intros seen H; cbn [validate_set_loop] in H.
  - split; [constructor|]. intros x Hx. by apply not_elem_of_nil in Hx.
  - unfold no_repeats. rewrite filter_cons. destruct (Z.eqb_spec x ITEM_NONE) as [->|Hx].
    + destruct (IH seen H) as [H1 H2]. rewrite decide_False by auto. split; [done|].
      intros y Hy. apply elem_of_cons in Hy as [->|Hy]; [done|by apply H2].
    + destruct (negb (osd_exists m x)); [done|]. cbn [negb andb] in H.
      destruct (bool_decide (x ∈ seen)) eqn:Hs; [done|]. apply bool_decide_eq_false in Hs.
      destruct (IH _ H) as [H1 H2]. rewrite decide_True by done. split.
      * constructor; [|done]. intros Hin. apply list_elem_of_filter in Hin as [_ Hin].
        apply (H2 x Hin Hx). by constructor.
      * intros y Hy Hny. apply elem_of_cons in Hy as [->|Hy]; [done|]. intros Hs'. apply (H2 y Hy Hny). by constructor.
Qed.

(** *** Upmaps *)

Lemma scan_remap_absent r out l : forall i p q,
  scan_remap r out i p l = (false, q) -> remap_to r ∉ l.
Proof.
  induction l as [|x l IH]; intros i p q H; cbn [scan_remap] in H; [apply not_elem_of_nil|].
  destruct (Z.eqb_spec x (remap_to r)) as [|Hne]; [done|]. apply IH in H. apply not_elem_of_cons. auto.
Qed.

Lemma apply_remap_distinct l r : distinct l -> distinct (apply_remap m l r).
Proof.
  intros Hl. unfold apply_remap. destruct (scan_remap _ _ _ _ _) as [[] [i|]] eqn:E; try done.
  apply scan_remap_absent in E. by apply distinct_insert.
Qed.

Lemma move_first_perm primary l : move_first primary l ≡ₚ l.
Proof.
  destruct l as [|x l]; [done|]. cbn [move_first].
  destruct (list_find _ l) as [[i y]|] eqn:E; [|done]. apply list_find_Some in E as (Hi & -> & _).
  rewrite (insert_take_drop l) by (by eapply lookup_lt_Some). rewrite <- (take_drop_middle l i primary) at 3 by done.
  rewrite <- !Permutation_middle. apply Permutation_swap.
Qed.

Lemma upmap_items_distinct pg l : distinct l -> distinct (apply_upmap_items m pg l).
Proof.
  intros Hl. unfold apply_upmap_items. destruct (om_pg_upmap_items m !! pg) as [rs|]; [|done].
  revert l Hl. induction rs as [|r rs IH]; intros l Hl; [done|]. cbn. apply IH. by apply apply_remap_distinct.
Qed.

Lemma upmap_primary_perm pg l : apply_upmap_primary m pg l ≡ₚ l.
Proof.
  unfold apply_upmap_primary. destruct (om_pg_upmap_primaries m !! pg); [|done].
  destruct (_ && _); [apply move_first_perm|done].
Qed.

Lemma apply_upmap_repeats pg l :
  validate_upmap m pg = Ok tt -> distinct l -> no_repeats (apply_upmap m pg l).
Proof.
  intros Hv Hl. unfold apply_upmap, validate_upmap in *. apply bind_inv in Hv as ([] & Hv & _).
  destruct (om_pg_upmap m !! pg) as [r|].
  - destruct (forallb _ _); [|by apply no_repeats_distinct]. rewrite upmap_primary_perm.
    apply no_repeats_distinct, upmap_items_distinct, no_repeats_distinct.
    by apply validate_set_inv in Hv as [Hv _].
  - rewrite upmap_primary_perm. by apply no_repeats_distinct, upmap_items_distinct.
Qed.

(** *** The OSDs that are up *)

(** The state vector has fewer entries than the mark of a hole. *)
Definition small_map : Prop := zlen (om_osd_state m) <= i32_max.

(** The OSD has a state in the map, with the bits for existing and up. *)
Definition live (x : Z) : Prop :=
  exists state, zget (om_osd_state m) x = Some state /\ Z.testbit state 0 = true /\ Z.testbit state 1 = true.

Lemma land_bit state i : 0 <= i -> negb (Z.land state (Z.shiftl 1 i) =? 0) = Z.testbit state i.
Proof.
  intros Hi. rewrite Z.shiftl_1_l, Z.land_comm. destruct (Z.testbit state i) eqn:E.
  - apply negb_true_iff, Z.eqb_neq. intros H0. apply (f_equal (fun z => Z.testbit z i)) in H0.
    by rewrite Z.land_spec, Z.pow2_bits_true, E, Z.bits_0 in H0 by done.
  - apply negb_false_iff, Z.eqb_eq, Z.bits_inj'. intros j Hj. rewrite Z.land_spec, Z.bits_0, Z.pow2_bits_eqb by done.
    by destruct (Z.eqb_spec i j) as [->|]; rewrite ?E.
Qed.

Lemma is_up_live x : is_up m x = true -> live x.
Proof.
  unfold is_up, live. destruct (zget _ x) as [state|]; [|done]. rewrite !land_bit by done.
  intros [H0 H1]%andb_true_iff. by exists state.
Qed.

Lemma none_not_up : small_map -> is_up m ITEM_NONE = false.
Proof.
  unfold small_map, is_up, zget, zlen, ITEM_NONE, i32_max. intros Hs. cbn [Z.ltb Z.compare].
  by rewrite (proj2 (lookup_ge_None (om_osd_state m) _)) by lia.
Qed.

Lemma only_up_live l slots : Forall (fun x => x = ITEM_NONE \/ live x) (only_up m l slots).
Proof.
  apply Forall_forall. intros x Hx. unfold only_up in Hx. apply list_elem_of_omap in Hx as (y & _ & Hy).
  destruct (is_up m y) eqn:E; [right; simplify_eq; by apply is_up_live|]. destruct slots; [left; congruence|done].
Qed.

Lemma only_up_slots l : only_up m l true = (fun x => if is_up m x then x else ITEM_NONE) <$> l.
Proof.
  induction l as [|x l IH]; [done|]. unfold only_up in *. cbn. rewrite IH. by destruct (is_up m x).
Qed.

Lemma only_up_filter l : only_up m l false = filter (fun x => is_up m x = true) l.
Proof.
  induction l as [|x l IH]; [done|]. rewrite filter_cons, <- IH. unfold only_up. cbn.
  destruct (is_up m x) eqn:E; [by rewrite decide_True|by rewrite decide_False].
Qed.

Lemma only_up_NoDup l : small_map -> no_repeats l -> NoDup (only_up m l false) /\ Forall live (only_up m l false).
Proof.
  intros Hs Hl. rewrite only_up_filter. split.
  - assert (filter (fun x => is_up m x = true) l = filter (fun x => is_up m x = true) (filter (fun x => x <> ITEM_NONE) l)) as ->.
    { rewrite list_filter_filter_l; [done|]. intros x Hx ->. by rewrite none_not_up in Hx. }
    by apply NoDup_filter.
  - apply Forall_forall. intros x Hx. apply list_elem_of_filter in Hx as [Hx _]. by apply is_up_live.
Qed.

(** *** Primaries *)

(** A primary is an OSD of its set that is up, or there is none to choose. *)
Definition primary_of (l : list Z) (primary : Z) : Prop :=
  (primary ∈ l /\ live primary) \/ (primary = -1 /\ Forall (fun x => x = ITEM_NONE) l).

Lemma first_osd_primary l : Forall (fun x => x = ITEM_NONE \/ live x) l -> primary_of l (first_osd l).
Proof.
  unfold first_osd. intros Hl. destruct (find _ l) as [x|] eqn:E.
  - apply find_some in E as [Hx Hne]. left. apply list_elem_of_In in Hx. split; [done|].
    rewrite Forall_forall in Hl. destruct (Hl x Hx) as [->|]; [done|done].
  - right. split; [done|]. apply Forall_forall. intros x Hx. apply list_elem_of_In in Hx.
    pose proof (find_none _ _ E x Hx) as Hn. apply negb_false_iff, Z.eqb_eq in Hn. done.
Qed.

(** The scan finds a position that holds an OSD. *)
Lemma affinity_scan_inv seed all l : forall i p j,
  (forall k, p = Some k -> exists x, all !! k = Some x /\ x <> ITEM_NONE) -> l = drop i all ->
  affinity_scan m seed i p l = Some j -> exists x, all !! j = Some x /\ x <> ITEM_NONE.
Proof.
  induction l as [|x l IH]; intros i p j Hp Hl H; cbn [affinity_scan] in H; [by apply Hp|].
  assert (all !! i = Some x) as Hi.
  { rewrite <- (Nat.add_0_r i), <- lookup_drop, <- Hl. done. }
  assert (l = drop (S i) all) as Hl'.
  { replace (S i) with (i + 1)%nat by lia. rewrite <- drop_drop, <- Hl. done. }
  destruct ((x =? ITEM_NONE) || (x <? 0)) eqn:Hx; [by eapply IH|].
  apply orb_false_elim in Hx as [Hx _]. apply Z.eqb_neq in Hx.
  destruct (zget _ _); [|by eapply IH]. destruct (_ && _); [|by simplify_eq; eauto].
  eapply IH; [|done|exact H]. destruct p; [done|]. intros k Hk. simplify_eq. eauto.
Qed.

Lemma shift_perm i x l : l !! i = Some x -> shift_to_front i x l ≡ₚ l.
Proof.
  intros Hi. unfold shift_to_front. rewrite <- (take_drop_middle l i x) at 3 by done. apply Permutation_middle.
Qed.

Lemma affinity_spec seed l primary shift :
  Forall (fun x => x = ITEM_NONE \/ live x) l -> primary_of l primary ->
  exists l' primary', apply_primary_affinity m seed l primary shift = Ok (l', primary')
    /\ l' ≡ₚ l /\ primary_of l' primary' /\ (shift = false -> l' = l).
Proof.
  intros Hl Hp. unfold apply_primary_affinity. destruct (_ =? _); [by exists l, primary|].
  destruct (affinity_scan m seed 0 None l) as [i|] eqn:E; [|by exists l, primary].
  destruct (affinity_scan_inv seed l l 0 None i ltac:(done) eq_refl E) as (x & Hi & Hx).
  rewrite Hi. cbn [ok_or mbind result_bind]. eexists _, _. split; [done|].
  assert (x ∈ l /\ live x) as [Hin Hlive].
  { split; [by eapply list_elem_of_lookup_2|]. rewrite Forall_forall in Hl.
    destruct (Hl x) as [->|]; [by eapply list_elem_of_lookup_2|done|done]. }
  destruct shift; cbn [andb]; [|by split_and!; [|left|]]. destruct (i =? 0)%nat; cbn [negb]; [by split_and!; [|left|]|].
  split_and!; [by apply shift_perm| |done]. left. split; [|done]. by rewrite shift_perm.
Qed.

(** *** Acting sets *)

(** A set of a group: OSDs that are up, and holes only in a sharded pool. *)
Definition group_ok (is_sharded : bool) (l : list Z) : Prop :=
  Forall (fun x => x = ITEM_NONE \/ live x) l /\ (is_sharded = false -> NoDup l /\ Forall live l).

Lemma only_up_group l is_sharded :
  small_map -> (is_sharded = false -> no_repeats l) -> group_ok is_sharded (only_up m l is_sharded).
Proof.
  intros Hs Hl. split; [apply only_up_live|]. intros ->. by apply only_up_NoDup, Hl.
Qed.

Lemma group_perm is_sharded l l' : l' ≡ₚ l -> group_ok is_sharded l -> group_ok is_sharded l'.
Proof.
  intros Hp [H1 H2]. split; [rewrite Hp; exact H1|]. intros E. destruct (H2 E) as [H3 H4].
  split; rewrite Hp; [exact H3|exact H4].
Qed.

(** The acting primary: an OSD of the set that is up, or none, or the hole
    that the map itself names as temporary primary. *)
Definition acting_primary_of (pg : PG) (l : list Z) (primary : Z) : Prop :=
  primary_of l primary \/ (primary = ITEM_NONE /\ ITEM_NONE ∈ l /\ om_primary_temp m !! pg = Some ITEM_NONE).

Lemma contains_osd_inv l x : contains_osd l x = true -> x ∈ l.
Proof. unfold contains_osd. intros H. apply existsb_exists in H as (y & Hy & E). apply Z.eqb_eq in E as ->. by apply list_elem_of_In. Qed.

Lemma temp_mapping_inv pg is_sharded temp primary :
  small_map -> temp_mapping m pg is_sharded = Ok (temp, primary) ->
  group_ok is_sharded temp
  /\ ((primary = default (-1) (om_primary_temp m !! pg) /\ (temp = [] \/ primary <> -1))
      \/ primary_of temp primary).
Proof.
  intros Hs H. unfold temp_mapping in H. destruct (om_pg_temp m !! pg) as [source|].
  - apply bind_inv in H as ([] & Hv & H). apply Ok_inj in H. injection H as <- <-. split.
    + apply only_up_group; [done|]. intros ->. by apply validate_set_inv in Hv as [Hv _].
    + destruct (Z.eqb_spec (default (-1) (om_primary_temp m !! pg)) (-1)) as [E|E]; [right|by left; auto].
      apply first_osd_primary, only_up_live.
  - apply Ok_inj in H. injection H as <- <-. split; [|by left; auto]. split; [constructor|]. split; constructor.
Qed.

Lemma acting_set_inv pg is_sharded up_set primary set set_primary :
  small_map -> group_ok is_sharded up_set -> primary_of up_set primary ->
  acting_set m pg is_sharded up_set primary = Ok (set, set_primary) ->
  group_ok is_sharded set /\ acting_primary_of pg set set_primary.
Proof.
  intros Hs Hu Hp H. unfold acting_set in H. apply bind_inv in H as ([temp tp] & Ht & H).
  apply temp_mapping_inv in Ht as [Hg Ht]; [|done].
  assert (forall l p, group_ok is_sharded l ->
    (if negb (p =? -1) && negb (contains_osd l p) then unsupported "temporary primary is not in the acting set"
     else Ok (l, p)) = Ok (set, set_primary) ->
    (p = default (-1) (om_primary_temp m !! pg) /\ p <> -1 \/ primary_of l p) ->
    group_ok is_sharded set /\ acting_primary_of pg set set_primary) as Hend.
  { intros l p Hl Hif Hor. destruct (negb (p =? -1) && negb (contains_osd l p)) eqn:E; [done|].
    apply Ok_inj in Hif. injection Hif as <- <-. split; [done|]. destruct Hor as [[Hd Hne]|]; [|by left].
    destruct (Z.eqb_spec p (-1)); [done|]. cbn [negb andb] in E. apply negb_false_iff, contains_osd_inv in E.
    destruct Hl as [Hl _]. rewrite Forall_forall in Hl. destruct (Hl p E) as [->|Hlive]; [right|left; left; done].
    split_and!; [done|done|]. destruct (om_primary_temp m !! pg); cbn in Hd; [congruence|done]. }
  destruct (Z.eqb_spec (zlen temp) 0) as [E|E].
  - apply (Hend _ _ Hu H). apply zlen_0_nil in E as ->.
    destruct (Z.eqb_spec tp (-1)) as [->|Hne]; [by right|]. left. split; [|done].
    destruct Ht as [[-> _]|[[Hin _]|[? _]]]; [done|by apply not_elem_of_nil in Hin|done].
  - apply (Hend _ _ Hg H). destruct Ht as [[Ht [->|Hne]]|Ht]; [done|by left|by right].
Qed.
End Osds.

(** ** The theorem *)

(** A pool whose numbers fit their types. *)
Record typed_pool (p : Pool) : Prop := {
  tp_pg : in_u 32 (pg_count p);
  tp_placement_pg : in_u 32 (placement_pg_count p);
  tp_size : in_u 8 (pool_size p)
}.

Record placement_ok (m : OSDMap) (pool : Pool) (p : ObjectPlacement) : Prop := {
  po_group : 0 <= pg_seed (pl_pg p) < pg_count pool;
  po_raw : no_repeats (pl_raw p) /\ zlen (pl_raw p) <= pool_size pool;
  po_up : group_ok m (is_erasure_coded pool) (up p);
  po_up_primary : primary_of m (up p) (up_primary p);
  po_acting : group_ok m (is_erasure_coded pool) (acting p);
  po_acting_primary : acting_primary_of m (pl_pg p) (acting p) (acting_primary p);
  po_replicated : is_erasure_coded pool = false -> sharded p = false /\ primary_shard p = 0;
  po_shard : sharded p = true ->
    0 <= primary_shard p <= 127
    /\ acting p !! Z.to_nat (primary_shard p) = Some (acting_primary p)
    /\ forall j, (j < Z.to_nat (primary_shard p))%nat -> acting p !! j <> Some (acting_primary p);
  po_no_shard : is_erasure_coded pool = true -> sharded p = false -> acting_primary p ∉ acting p
}.

(** What placing an object may come to. *)
Definition placed_or_refused (m : OSDMap) (pool : Pool) (r : result PlaceFault ObjectPlacement) : Prop :=
  match r with
  | Ok p => placement_ok m pool p
  | Err (PF_Error _) => True
  | Err PF_Panic | Err PF_Diverges => False
  end.

Section Placing.
  Context {base64 : Base64Engine}.

Lemma decode_crush_inv m v :
  decode_crush_payload m = Ok v -> exists c, crush_wf c /\ ValidatedMap_new c = Ok v.
Proof.
  unfold decode_crush_payload. intros H. apply bind_inv in H as (b & _ & H). apply bind_inv in H as (st & _ & H).
  destruct (Map_decode _ _) as [c|[]] eqn:E; [|done..]. exists c. split; [by eapply decoded_wf|].
  by destruct (ValidatedMap_new c); simplify_eq.
Qed.

Lemma decode_crush_fault m e : decode_crush_payload m = Err e -> exists e', e = PF_Error e'.
Proof.
  unfold decode_crush_payload, unsupported. cbv zeta. intros H.
  destruct (try_u 32 (zlen _)); cbn [ok_or mbind result_bind] in H; [|by simplify_eq; eexists].
  destruct (try_u 32 _); cbn [ok_or mbind result_bind] in H; [|by simplify_eq; eexists].
  destruct (Map_decode _ _) as [c|[]]; [|by simplify_eq; eexists..].
  destruct (ValidatedMap_new c); by simplify_eq; eexists.
Qed.

Lemma place_crush_spec m v rule seed replicas ws :
  decode_crush_payload m = Ok v -> 0 <= replicas ->
  match place_crush v rule seed replicas ws with
  | Ok raw => no_repeats raw /\ zlen raw <= replicas
  | Err e => exists e', e = PF_Error e'
  end.
Proof.
  intros Hd Hr. apply decode_crush_inv in Hd as (c & Hwf & Hv). unfold place_crush.
  rewrite (ValidatedMap_place_eq c) by done. pose proof (placed_distinct c Hwf rule seed replicas ws Hr) as Hp.
  destruct (place c _ _ _ _) as [raw|e].
  - destruct Hp as (Hl & Hd & _). split; [|done]. by apply no_repeats_distinct.
  - rewrite Hp. by eexists.
Qed.

Lemma map_object_inv m pool_id pool object locator namespace p :
  om_pools m !! pool_id = Some pool -> typed_pool pool ->
  map_object m pool_id object locator namespace = Ok p ->
  0 <= pg_seed (pl_pg p) < pg_count pool /\ sharded p = false /\ primary_shard p = 0.
Proof.
  intros Hm [[] [] _] Ho. unfold map_object, map_raw_hash in Ho. destruct (pool_id <? 0); [done|]. rewrite Hm in Ho.
  destruct (negb _); [done|]. destruct (_ =? 0); [done|].
  destruct ((_ =? 0) || (_ =? 0) || _) eqn:E; [done|]. apply Ok_inj in Ho as <-. cbn. split; [|done].
  apply stable_mod_range; [|lia]. destruct (object_hash_range object locator namespace). lia.
Qed.

Lemma validate_set_fault m name allow osds e : forall seen,
  validate_set_loop m name allow seen osds = Err e -> exists e', e = PF_Error e'.
Proof.
  induction osds as [|x l IH]; intros seen Hv; cbn [validate_set_loop] in Hv; [done|].
  destruct (x =? ITEM_NONE); [by eapply IH|]. destruct (negb (osd_exists m x)); [unfold unsupported in Hv; simplify_eq; by eexists|].
  destruct (negb allow && _); [unfold unsupported in Hv; simplify_eq; by eexists|by eapply IH].
Qed.

Lemma validate_upmap_fault m pg e : validate_upmap m pg = Err e -> exists e', e = PF_Error e'.
Proof.
  unfold validate_upmap. intros Hv. destruct (match om_pg_upmap m !! pg with Some _ => _ | None => _ end) as [[]|e'] eqn:E.
  - cbn [mbind result_bind] in Hv. destruct (om_pg_upmap_items m !! pg); [|done].
    destruct (existsb _ _); [|done]. unfold unsupported in Hv. simplify_eq. by eexists.
  - cbn [mbind result_bind] in Hv. simplify_eq. destruct (om_pg_upmap m !! pg); [|done]. by eapply validate_set_fault.
Qed.

Lemma acting_set_fault m pg sh l p e : acting_set m pg sh l p = Err e -> exists e', e = PF_Error e'.
Proof.
  unfold acting_set, temp_mapping. intros Ha. destruct (om_pg_temp m !! pg) as [source|].
  - destruct (validate_placement_set m _ source sh) as [|e'] eqn:E; cbn [mbind result_bind] in Ha.
    + repeat (case_match; try done); unfold unsupported in Ha; simplify_eq; by eexists.
    + simplify_eq. by eapply validate_set_fault.
  - cbn [mbind result_bind] in Ha. repeat (case_match; try done); unfold unsupported in Ha; simplify_eq; by eexists.
Qed.

Lemma find_shard_spec set primary :
  match find_shard set primary with
  | Ok (i, true) => 0 <= i <= 127 /\ set !! Z.to_nat i = Some primary
      /\ forall j, (j < Z.to_nat i)%nat -> set !! j <> Some primary
  | Ok (_, false) => primary ∉ set
  | Err e => exists e', e = PF_Error e'
  end.
Proof.
  unfold find_shard. destruct (list_find _ set) as [[i x]|] eqn:E.
  - apply list_find_Some in E as (Hi & -> & Hj). destruct (Z.ltb_spec 127 (Z.of_nat i)); [by eexists|].
    rewrite Nat2Z.id. split_and!; [lia|lia|done|]. intros j Hlt Hs. by apply (Hj j primary).
  - intros Hin. apply list_find_None in E. rewrite Forall_forall in E. by apply (E primary).
Qed.

Lemma place_object_sound m pool_id pool object locator namespace :
  small_map m -> om_pools m !! pool_id = Some pool -> typed_pool pool ->
  placed_or_refused m pool (place_object m pool_id object locator namespace).
Proof.
  intros Hs Hm Ht. unfold placed_or_refused, place_object.
  destruct (map_object m pool_id object locator namespace) as [p|[]] eqn:Ho; cbn [mbind result_bind]; [|done|..].
  2,3: unfold map_object, map_raw_hash in Ho; repeat (case_match; try done).
  destruct (map_object_inv _ _ _ _ _ _ _ Hm Ht Ho) as (Hg & Hsh & Hps). unfold place_mapped. rewrite Hm.
  destruct (negb _ && negb _); [done|]. destruct (_ && _); [done|]. destruct (_ =? 0); [done|].
  destruct (decode_crush_payload m) as [v|e] eqn:Hv; cbn [mbind result_bind];
    [|by destruct (decode_crush_fault _ _ Hv) as [? ->]].
  pose proof (place_crush_spec m v (crush_rule pool) (placement_seed p) (pool_size pool) (om_osd_weight m) Hv
    (proj1 (tp_size _ Ht))) as Hr.
  destruct (place_crush v _ _ _ _) as [raw|e]; cbn [mbind result_bind]; [destruct Hr as [Hraw Hlen]|by destruct Hr as [? ->]].
  destruct (validate_upmap m (pl_pg p)) as [[]|e] eqn:Hu; cbn [mbind result_bind];
    [|by destruct (validate_upmap_fault _ _ _ Hu) as [? ->]].
  fold (is_erasure_coded pool). set (sh := is_erasure_coded pool).
  assert (group_ok m sh (only_up m (apply_upmap m (pl_pg p) raw) sh)) as Hgu.
  { apply only_up_group; [done|]. intros _. by apply apply_upmap_repeats, no_repeats_distinct. }
  destruct (affinity_spec m (placement_seed p) _ _ (negb sh) (proj1 Hgu) (first_osd_primary m _ (proj1 Hgu)))
    as (up' & pr & -> & Hperm & Hpr & _). cbn [mbind result_bind]. apply (group_perm m _ _ _ Hperm) in Hgu.
  destruct (acting_set m (pl_pg p) sh up' pr) as [[set spr]|e] eqn:Ha; cbn [mbind result_bind];
    [|by destruct (acting_set_fault _ _ _ _ _ _ Ha) as [? ->]].
  destruct (acting_set_inv m _ _ _ _ _ _ Hs Hgu Hpr Ha) as [Hga Hpa].
  destruct sh eqn:Esh; subst sh.
  - pose proof (find_shard_spec set spr) as Hf. destruct (find_shard set spr) as [[i []]|e]; cbn [mbind result_bind].
    + constructor; cbn -[is_erasure_coded]; rewrite ?Esh, ?Hsh; done.
    + constructor; cbn -[is_erasure_coded]; rewrite ?Esh, ?Hsh; done.
    + by destruct Hf as [? ->].
  - cbn [mbind result_bind]. rewrite Hsh, Hps. constructor; cbn -[is_erasure_coded]; rewrite ?Esh; done.
Qed.

(** C1. Placing an object never panics and always ends, and what it returns is
    a placement: a group of the pool, the OSDs of the group that are up, with
    no OSD twice and no hole in a replicated pool, primaries that are up
    members of their sets, and for an erasure-coded pool the position of the
    acting primary. *)
Theorem place_object_correct m pool_id pool object locator namespace :
  small_map m -> om_pools m !! pool_id = Some pool -> typed_pool pool ->
  placed_or_refused m pool (place_object m pool_id object locator namespace).
Proof. apply place_object_sound. Qed.
End Placing.

(** ** Witness *)

(** One host of two devices, with a rule that chooses among them. *)
Definition test_crush_bytes : list byte :=
  concat (map (le_bytes 4) [MAGIC; 1; 1; 2; 5; 2^32 - 1])
  ++ concat (map (le_bytes 2) [10; 5]) ++ concat (map (le_bytes 4) [131072; 2; 0; 1; 65536; 65536])
  ++ concat (map (le_bytes 4) [1; 3]) ++ [x00; x01; x00; x00]
  ++ concat (map (le_bytes 4) [RULE_TAKE; 2^32 - 1; 0; RULE_CHOOSE_FIRST_N; 0; 0; RULE_EMIT; 0; 0])
  ++ concat (map (le_bytes 4) [0; 0; 0; 0; 0; 50; 1]) ++ [x01; x00] ++ le_bytes 4 22 ++ [x01].

Definition test_placed_pool : Pool := mkPool 1 [x61] 1 2 1 0 2 32 32 0 1 0 ∅ [] ∅ ∅.

Definition test_placed_map : OSDMap :=
  mkOSDMap (replicate 16 x00) 7 (mkUTime 0 0) (mkUTime 0 0) {[1 := test_placed_pool]} {[[x61] := 1]} 2 0 2
    [3; 3] [65536; 65536] [[]; []] ∅ ∅ [65536; 0] test_crush_bytes ∅ ∅ ∅ 0 ∅ ∅ (mkUTime 0 0) (mkUTime 0 0) ∅ 0 false false.

Lemma place_object_correct_witness :
  is_ok (decode_crush_payload test_placed_map) = true
  /\ placed_or_refused test_placed_map test_placed_pool
       (place_object (base64 := reference_engine) test_placed_map 1 [x6f] [] []).
Proof.
  split; [vm_compute; reflexivity|].
  apply (place_object_correct test_placed_map 1 test_placed_pool [x6f] [] []);
    [discriminate|reflexivity|constructor; by vm_compute].
Defined.
