(* ===== verification/OsdMapTyped.v ===== *)
(** * Every map the client holds can be placed on

    The numbers of an OSD map fit their types: of a map that was decoded, and of
    the one that applying a decoded incremental to such a map gives.  With the
    theorems of [MapPlacementProps] this composes decoding, incrementals and
    placement: whatever bytes the monitors send, placing an object on the map
    they lead to neither panics nor runs forever. *)

From S2P Require Import Prelude Codec Frame Address CrushHash CrushLn CrushMap CrushPlace MapBase MonMap Pool OsdMap Incremental IncrementalProps MapPlacement MapPlacementProps.
From Stdlib Require Import ZArith Lia Strings.Byte Strings.String.
From stdpp Require Import base option gmap sorting numbers list.

Open Scope Z_scope.

(** A map whose numbers fit their types and whose vectors and pools are in
    order. *)
Record typed_map (m : OSDMap) : Prop := {
  tm_ok : osdmap_ok m;
  tm_max : om_max_osd m <= i32_max;
  tm_pools : map_Forall (fun _ p => typed_pool p) (om_pools m)
}.

Lemma typed_small m : typed_map m -> small_map m.
Proof. intros [[[_ Hs _ _ _] _] Hm _]. unfold small_map. lia. Qed.

(** An incremental whose numbers fit their types. *)
Record typed_incremental (i : OSDMapIncremental) : Prop := {
  ti_ok : incremental_ok i;
  ti_max : in_new_max_osd i <= i32_max;
  ti_pools : map_Forall (fun _ p => typed_pool p) (in_new_pools i)
}.

(** ** Decoding *)

Lemma decode_i32_max d v d' : Decoder_i32 d = (v, d') -> v <= i32_max.
Proof.
  unfold Decoder_i32. destruct (Decoder_u32 d) as [u d1]. intros H. simplify_eq.
  pose proof (swrap_range 32 u) as Hr. unfold in_i, i32_max in *. cbn in Hr. lia.
Qed.

Lemma decode_uint_range n d v d' : Decoder_uint n d = (v, d') -> in_u (8 * Z.of_nat n) v.
Proof.
  unfold Decoder_uint. destruct (Decoder_take d (Z.of_nat n)) as [p d1]. intros H. simplify_eq.
  destruct (Nat.eqb_spec (length p) n) as [<-|]; [apply le_value_range|].
  unfold in_u. split; [lia|apply Z.pow_pos_nonneg; lia].
Qed.

Lemma typed_with_id id p : typed_pool p -> typed_pool (with_pool_id id p).
Proof. intros []. by constructor. Qed.

Lemma typed_with_name name p : typed_pool p -> typed_pool (with_pool_name name p).
Proof. intros []. by constructor. Qed.

Lemma decode_pool_typed limits version d p d' : decode_pool_payload version limits d = Ok (p, d') -> typed_pool p.
Proof.
  unfold decode_pool_payload. intros H.
  do 6 (apply DM_bind_inv in H as (? & ? & ?%rd_inv%decode_uint_range & H)). dm_inv. by constructor.
Qed.

Lemma decode_pool_entry_typed limits d id p d' :
  decode_pool_entry limits d = Ok ((id, p), d') -> typed_pool p.
Proof.
  unfold decode_pool_entry, decode_pool. intros H. map_inv. apply typed_with_id. by eapply decode_pool_typed.
Qed.

Lemma read_pool_names_typed n : forall pools names d pn d',
  read_pool_names n pools names d = Ok (pn, d') ->
  map_Forall (fun _ p => typed_pool p) pools -> map_Forall (fun _ p => typed_pool p) pn.1.
Proof.
  induction n as [|n IH]; intros pools names d pn d' H Hp; cbn [read_pool_names] in H.
  - apply DM_ret_inv in H as [-> _]. done.
  - map_inv. destruct (pools !! v) as [p|] eqn:Hv; [|done]. cbn in *. simplify_eq.
    eapply IH; [done|]. apply map_Forall_insert_2; [|done]. apply typed_with_name. by eapply Hp.
Qed.

Lemma decode_pools_typed limits d pn d' :
  decode_pools limits d = Ok (pn, d') -> map_Forall (fun _ p => typed_pool p) pn.1.
Proof.
  unfold decode_pools. intros H. map_inv. eapply read_pool_names_typed; [done|].
  match goal with R : read_entries _ _ _ _ _ = Ok _ |- _ =>
    eapply (read_entries_inv (fun _ p => typed_pool p)) in R end; [done| |apply map_Forall_empty].
  intros ????. apply decode_pool_entry_typed.
Qed.

Section Decoding.
  Context {crc_crate : Crc32cCrate}.

Lemma decode_osdmap_typed data limits m : decode_osdmap data limits = Ok m -> typed_map m.
Proof.
  intros H. pose proof (decode_osdmap_inv _ _ _ H) as Hok.
  enough (om_max_osd m <= i32_max /\ map_Forall (fun _ p => typed_pool p) (om_pools m)) as [H1 H2] by by constructor.
  clear Hok. unfold decode_osdmap, decode_osdmap_wrapper in H. apply bind_inv in H as (_ & _ & H).
  apply bind_inv in H as ([m0 d0] & H0 & H). map_inv.
  destruct (_ <? _); [done|]. destruct (negb (crc32c _ _ =? _)); [done|]. apply Ok_inj in H as <-. cbn.
  match goal with R : decode_client _ _ = Ok _ |- _ => unfold decode_client in R end. map_inv. cbn.
  split; [|by eapply decode_pools_typed].
  by eapply decode_i32_max.
Qed.

Lemma decode_incremental_typed data limits i :
  decode_osdmap_incremental data limits = Ok i -> typed_incremental i.
Proof.
  intros H. pose proof (decode_incremental_inv _ _ _ H) as Hok.
  enough (in_new_max_osd i <= i32_max /\ map_Forall (fun _ p => typed_pool p) (in_new_pools i)) as [H1 H2]
    by by constructor.
  clear Hok. unfold decode_osdmap_incremental, decode_incremental_wrapper, decode_incremental_client, decode_pool_changes in H.
  apply bind_inv in H as (_ & _ & H). apply bind_inv in H as ([i0 d0] & H0 & H). map_inv.
  destruct (negb (crc32c _ _ =? _)); [done|]. apply Ok_inj in H as <-. cbn.
  match goal with R : read_entries _ (decode_pool_entry _) _ _ _ = Ok _ |- _ =>
    eapply (read_entries_inv (fun _ p => typed_pool p)) in R end;
    [|intros ????; apply decode_pool_entry_typed|apply map_Forall_empty].
  split; [by eapply decode_i32_max|done].
Qed.
End Decoding.

(** ** Applying incrementals *)

(** The part of [typed_map] that no loop over OSDs touches. *)
Definition sized (m : OSDMap) : Prop :=
  om_max_osd m <= i32_max /\ map_Forall (fun _ p => typed_pool p) (om_pools m).

Lemma try_fold_inv {A} (P : OSDMap -> Prop) (f : A -> OSDMap -> Apply OSDMap) l : forall m m',
  (forall a m m', f a m = Ok m' -> P m -> P m') -> try_fold f l m = Ok m' -> P m -> P m'.
Proof.
  induction l as [|a l IH]; intros m m' Hf H Hm; cbn [try_fold] in H; [by apply Ok_inj in H as <-|].
  apply bind_inv in H as (m1 & H1 & H). eapply IH; [done|done|]. by eapply Hf.
Qed.

Lemma ensure_sized m : sized m -> sized (ensure_primary_affinity m).
Proof. unfold ensure_primary_affinity. by destruct (om_primary_affinity m). Qed.

Lemma osds_sized :
  (forall e m m', apply_weight e m = Ok m' -> sized m -> sized m')
  /\ (forall e m m', apply_affinity e m = Ok m' -> sized m -> sized m')
  /\ (forall e m m', apply_state e m = Ok m' -> sized m -> sized m')
  /\ (forall e m m', apply_up e m = Ok m' -> sized m -> sized m').
Proof.
  split_and!; intros [osd x] m m' H Hm; unfold apply_weight, apply_affinity, apply_state, apply_up in H; run_ok H;
    apply Ok_inj in H as <-; try done.
  - by apply ensure_sized.
  - by apply (ensure_sized (set_osd_state _ _)).
Qed.

Lemma rename_sized e m m' : rename_pool e m = Ok m' -> sized m -> sized m'.
Proof.
  destruct e as [id name]. unfold rename_pool. destruct (om_pools m !! id) as [p|] eqn:Hi; [|done].
  destruct (match _ with Some _ => _ | None => _ end); [done|]. intros H [H1 H2]. apply Ok_inj in H as <-.
  split; [done|]. cbn. apply map_Forall_insert_2; [|done]. apply typed_with_name. by eapply H2.
Qed.

Lemma removes_sized l : forall m, sized m -> sized (fold_left (fun m id => remove_pool id m) l m).
Proof.
  induction l as [|id l IH]; intros m Hm; cbn [fold_left]; [done|]. apply IH. unfold remove_pool.
  destruct (om_pools m !! id); [|done]. destruct Hm as [H1 H2]. split; [done|]. by apply map_Forall_delete.
Qed.

Lemma adds_typed l : forall pools,
  Forall (fun e => typed_pool e.2) l -> map_Forall (fun _ p => typed_pool p) pools ->
  map_Forall (fun _ p => typed_pool p) (fold_left (fun p e => add_pool e p) l pools).
Proof.
  induction l as [|[id p] l IH]; intros pools Hl Hp; cbn [fold_left]; [done|].
  apply Forall_cons in Hl as [Ht Hl]. apply IH; [done|]. cbn. apply map_Forall_insert_2; [|done].
  destruct (pools !! id); [by apply typed_with_name|done].
Qed.

Section Applying.
  Context {crc_crate : Crc32cCrate} {order : HashOrder}.

Lemma apply_fields_sized i m m' : in_new_max_osd i <= i32_max -> apply_fields i m = Ok m' -> sized m -> sized m'.
Proof.
  intros Hi H [H1 H2]. unfold apply_fields in H. cbv zeta in H.
  set (m1 := if 0 <=? in_new_flags i then _ else _) in H.
  assert (sized m1) as S1.
  { subst m1. by destruct (in_new_pool_max i =? -1), (0 <=? in_new_flags i). }
  clearbody m1. set (m2 := if 0 <=? in_new_max_osd i then _ else _) in H.
  assert (sized m2) as S2.
  { subst m2. destruct (0 <=? in_new_max_osd i); [|done]. destruct S1 as [S1 S1'].
    unfold resize_osds. cbn. by destruct (om_primary_affinity m1). }
  clearbody m2. destruct (in_crush_data i); [by apply Ok_inj in H as <-|].
  apply bind_inv in H as (v & _ & H). by apply Ok_inj in H as <-.
Qed.

Lemma apply_pools_sized i m m' :
  map_Forall (fun _ p => typed_pool p) (in_new_pools i) -> apply_pools i m = Ok m' -> sized m -> sized m'.
Proof.
  intros Hi H [H1 H2]. unfold apply_pools in H. apply bind_inv in H as (m1 & Hr & H). apply Ok_inj in H as <-.
  apply removes_sized. eapply (try_fold_inv sized); [apply rename_sized|exact Hr|]. split; [done|]. cbn.
  apply adds_typed; [|done]. by apply (hash_entries_Forall (fun e => typed_pool e.2)).
Qed.

Lemma apply_osds_sized i m m' : apply_osds i m = Ok m' -> sized m -> sized m'.
Proof.
  intros H Hm. destruct osds_sized as (F1 & F2 & F3 & F4). unfold apply_osds in H. run_ok H.
  eapply (try_fold_inv sized); [exact F4|done|]. eapply (try_fold_inv sized); [exact F3|done|].
  eapply (try_fold_inv sized); [exact F2|done|]. by eapply (try_fold_inv sized); [exact F1|done|].
Qed.

Lemma apply_overrides_sized i m : sized m -> sized (apply_overrides i m).
Proof.
  intros Hm. unfold apply_overrides. cbv zeta.
  by destruct (bool_decide (in_new_last_up_change i = _)), (bool_decide (in_new_last_in_change i = _)).
Qed.

Lemma apply_incremental_sized current i limits next :
  typed_incremental i -> sized current -> apply_osdmap_incremental current i limits = Ok next -> sized next.
Proof.
  intros [_ Hmax Hpools] Hc H. unfold apply_osdmap_incremental in H.
  destruct (bool_decide _); [done|]. apply bind_inv in H as (e & _ & H). destruct (negb _); [done|].
  destruct (negb _).
  - unfold apply_full in H. apply bind_inv in H as (m & Hm & H).
    destruct (decode_osdmap (in_full_map i) limits) as [r|] eqn:Hd; [|done]. cbn in Hm. simplify_eq.
    destruct (_ || _); [done|]. simplify_eq. by destruct (decode_osdmap_typed _ _ _ Hd).
  - apply bind_inv in H as (m1 & H1 & H). apply bind_inv in H as (m2 & H2 & H). apply bind_inv in H as (m3 & H3 & H).
    cbv zeta in H. destruct (existsb _ _); [done|]. apply Ok_inj in H as <-.
    eapply apply_overrides_sized, apply_osds_sized; [done|]. eapply apply_pools_sized; [done|done|].
    by eapply apply_fields_sized.
Qed.

(** C16. The maps of a client are well typed: a decoded OSD map, and the map
    that a decoded incremental makes of a well-typed one, has OSD vectors of the
    length it says, within the range of OSD identifiers, and pools filed under
    their own identifier with replica and group counts within their types; and
    placing an object in a pool of a well-typed map ends without panic, with a
    correct placement or a refusal. *)
Theorem osdmap_typed `{Base64Engine} :
  (forall data limits m, decode_osdmap data limits = Ok m -> typed_map m)
  /\ (forall data limits i current next, decode_osdmap_incremental data limits = Ok i -> typed_map current ->
        apply_osdmap_incremental current i limits = Ok next -> typed_map next)
  /\ (forall m pool_id pool object locator namespace, typed_map m -> om_pools m !! pool_id = Some pool ->
        placed_or_refused m pool (place_object m pool_id object locator namespace)).
Proof.
  split_and!.
  - apply decode_osdmap_typed.
  - intros data limits i current next Hi%decode_incremental_typed [Hok Hmax Hp] Ha.
    destruct (apply_incremental_sized current i limits next Hi) as [H1 H2]; [done|done|].
    pose proof (apply_incremental_ok False current i limits) as Hn. rewrite Ha in Hn.
    destruct Hn as [Hn _]; [|apply Hi|done|done|by constructor]. intros m. apply decode_osdmap_inv.
  - intros m pool_id pool object locator namespace Hm Hpool.
    apply place_object_sound; [by apply typed_small|done|]. by eapply (tm_pools _ Hm).
Qed.
End Applying.
