(* ===== verification/Interaction.v ===== *)
(** * Programs that interact with their environment

    The asynchronous functions of the client suspend at calls whose results
    other tasks, the network or the clock decide.  Such a function is modelled
    as a program: a tree of calls with a continuation for every answer.  An
    environment answers each call, and may let the answer depend on everything
    that happened before, so a property of all environments is a property of
    all interleavings. *)

From S2P Require Import Prelude.
From Stdlib Require Import ZArith Lia.
From stdpp Require Import base option list.

(** Why a program stops without a result: it panics, or it has not returned
    within the fuel of its loops. *)
Inductive Halted : Type := Panicked | StillRunning.

Inductive Prog (E : Type -> Type) (A : Type) : Type :=
| Ret (a : A)
| Stop (h : Halted)
| Vis (X : Type) (e : E X) (k : X -> Prog E A).
Arguments Ret {E A} a.
Arguments Stop {E A} h.
Arguments Vis {E A X} e k.

#[export] Instance Prog_ret {E} : MRet (Prog E) := fun A a => Ret a.

#[export] Instance Prog_bind {E} : MBind (Prog E) := fun A B f =>
  fix go (p : Prog E A) : Prog E B :=
    match p with
    | Ret a => f a
    | Stop h => Stop h
    | Vis e k => Vis e (fun x => go (k x))
    end.

(** A single call. *)
Definition call {E X} (e : E X) : Prog E X := Vis e Ret.

(** [?] on a value. *)
Definition question {E Er A B} (r : result Er A) (k : A -> Prog E (result Er B)) : Prog E (result Er B) :=
  match r with
  | Ok a => k a
  | Err e => Ret (Err e)
  end.

(** [?] on the result of a suspended computation. *)
Definition await {E Er A B} (p : Prog E (result Er A)) (k : A -> Prog E (result Er B)) : Prog E (result Er B) :=
  r ← p; question r k.

(** What is left to do when the program panics. *)
Fixpoint on_panic {E A} (p q : Prog E A) : Prog E A :=
  match p with
  | Ret a => Ret a
  | Stop Panicked => q
  | Stop StillRunning => Stop StillRunning
  | Vis e k => Vis e (fun x => on_panic (k x) q)
  end.

(** Calls replaced by programs that answer them. *)
Fixpoint interp {E F A} (h : forall X, E X -> Prog F X) (p : Prog E A) : Prog F A :=
  match p with
  | Ret a => Ret a
  | Stop s => Stop s
  | Vis e k => h _ e ≫= fun x => interp h (k x)
  end.

(** ** Environments *)

Section Run.
  Context {E : Type -> Type} {O : Type} (see : forall X, E X -> X -> O).

(** The calls made, with their answers, and the outcome. *)
Fixpoint run {A} (answer : forall X, E X -> list O -> X) (p : Prog E A) (trace : list O)
    : list O * result Halted A :=
  match p with
  | Ret a => (trace, Ok a)
  | Stop h => (trace, Err h)
  | Vis e k => let x := answer _ e trace in run answer (k x) (trace ++ [see _ e x])
  end.

(** [Q] holds of every possible trace and outcome. *)
Fixpoint always {A} (p : Prog E A) (trace : list O) (Q : list O -> result Halted A -> Prop) : Prop :=
  match p with
  | Ret a => Q trace (Ok a)
  | Stop h => Q trace (Err h)
  | Vis e k => forall x, always (k x) (trace ++ [see _ e x]) Q
  end.

Lemma always_run {A} answer (p : Prog E A) trace Q :
  always p trace Q -> Q (run answer p trace).1 (run answer p trace).2.
Proof.
  revert trace. induction p as [a|h|X e k IH]; intros trace H; cbn [run fst snd]; [done|done|].
  apply IH. apply H.
Qed.

Lemma always_mono {A} (p : Prog E A) trace (Q Q' : list O -> result Halted A -> Prop) :
  (forall t r, Q t r -> Q' t r) -> always p trace Q -> always p trace Q'.
Proof.
  intros HQ. revert trace. induction p as [a|h|X e k IH]; intros trace H; [by apply HQ|by apply HQ|].
  intros x. apply IH, H.
Qed.

Lemma always_bind {A B} (p : Prog E A) (f : A -> Prog E B) trace Q :
  always p trace (fun t r => match r with Ok a => always (f a) t Q | Err h => Q t (Err h) end) ->
  always (p ≫= f) trace Q.
Proof.
  revert trace. induction p as [a|h|X e k IH]; intros trace H; [done|done|].
  intros x. apply IH, H.
Qed.

Lemma always_call {X B} (e : E X) (f : X -> Prog E B) trace Q :
  (forall x, always (f x) (trace ++ [see _ e x]) Q) -> always (call e ≫= f) trace Q.
Proof. intros H x. apply H. Qed.

Lemma always_question {Er A B} (r : result Er A) (k : A -> Prog E (result Er B)) trace Q :
  (forall a, r = Ok a -> always (k a) trace Q) -> (forall e, r = Err e -> Q trace (Ok (Err e))) ->
  always (question r k) trace Q.
Proof. intros Hk He. destruct r; [by apply Hk|by apply He]. Qed.

Lemma always_await {Er A B} (p : Prog E (result Er A)) (k : A -> Prog E (result Er B)) trace Q :
  always p trace (fun t r => match r with
    | Ok (Ok a) => always (k a) t Q
    | Ok (Err e) => Q t (Ok (Err e))
    | Err h => Q t (Err h) end) ->
  always (await p k) trace Q.
Proof.
  intros H. apply always_bind. eapply always_mono; [|exact H]. intros t [[a|e]|h]; done.
Qed.

(** A condition every call keeps from one end of the program to the other. *)
Lemma always_trace {A} (p : Prog E A) trace (I : list O -> Prop) :
  (forall t X (e : E X) x, I t -> I (t ++ [see _ e x])) -> I trace ->
  always p trace (fun t _ => I t).
Proof.
  intros Hs. revert trace. induction p as [a|h|X e k IH]; intros trace H; [done|done|].
  intros x. apply IH. by apply Hs.
Qed.

Lemma always_and {A} (p : Prog E A) trace (Q Q' : list O -> result Halted A -> Prop) :
  always p trace Q -> always p trace Q' -> always p trace (fun t r => Q t r /\ Q' t r).
Proof. revert trace. induction p as [a|h|X e k IH]; intros trace H H'; [done|done|]. intros x. by apply IH. Qed.

Lemma always_on_panic {A} (p q : Prog E A) trace Q :
  always p trace (fun t r => match r with Err Panicked => always q t Q | _ => Q t r end) ->
  always (on_panic p q) trace Q.
Proof.
  revert trace. induction p as [a|[]|X e k IH]; intros trace H; [done..|]. intros x. apply IH, H.
Qed.

(** The trace only grows. *)
Lemma always_prefix {A} (p : Prog E A) trace : always p trace (fun t _ => trace `prefix_of` t).
Proof.
  apply always_trace; [|done]. intros t X e x H. etrans; [done|]. by eexists.
Qed.

Lemma always_weaken {A} (p : Prog E A) trace (Q Q' : list O -> result Halted A -> Prop) :
  always p trace Q -> (forall t r, trace `prefix_of` t -> Q t r -> Q' t r) -> always p trace Q'.
Proof.
  intros H HQ. eapply always_mono; [|exact (always_and _ _ _ _ (always_prefix p trace) H)].
  intros t r [H1 H2]. by apply HQ.
Qed.
End Run.

Arguments run {E O} see {A} answer p trace.
Arguments always {E O} see {A} p trace Q.

(** ** Programs in place of calls *)

Section Interp.
  Context {E F : Type -> Type} {O U : Type} (see : forall X, E X -> X -> O) (see' : forall X, F X -> X -> U)
    (h : forall X, E X -> Prog F X) (R : list O -> list U -> Prop).

(** If every handler keeps the relation of the two traces, what always holds of
    the program holds of what its handlers make of it. *)
Lemma always_interp {A} (p : Prog E A) t u (Q : list O -> result Halted A -> Prop) :
  (forall X (e : E X) t u, R t u ->
     always see' (h X e) u (fun u' r => match r with Ok x => R (t ++ [see X e x]) u' | Err _ => True end)) ->
  R t u -> always see p t Q ->
  always see' (interp h p) u (fun u' r =>
    match r with Ok a => exists t', R t' u' /\ Q t' (Ok a) | Err _ => True end).
Proof.
  intros Hh. revert t u. induction p as [a|s|X e k IH]; intros t u HR HQ; cbn; [by exists t|done|].
  apply always_bind. eapply always_mono; [|by apply Hh].
  intros u' [x|s] HR'; [|done]. by apply (IH x (t ++ [see X e x])); [|apply HQ].
Qed.
End Interp.

(** A program whose calls are calls of a larger environment. *)
Section Embed.
  Context {E F : Type -> Type} {O U : Type} (see : forall X, E X -> X -> O) (see' : forall X, F X -> X -> U)
    (f : forall X, E X -> F X) (g : O -> U) (Hg : forall X (e : E X) x, see' X (f X e) x = g (see X e x)).

Lemma always_embed {A} (p : Prog E A) t u (Q : list O -> result Halted A -> Prop) :
  always see p t Q ->
  always see' (interp (fun X e => call (f X e)) p) (u ++ (g <$> t)) (fun u' r => exists t', u' = u ++ (g <$> t') /\ Q t' r).
Proof.
  revert t. induction p as [a|s|X e k IH]; intros t H; cbn; [by exists t|by exists t|].
  intros x. specialize (IH x (t ++ [see X e x]) (H x)). rewrite fmap_app, app_assoc in IH. cbn in IH.
  by rewrite Hg.
Qed.
End Embed.

(** ** Timeouts *)

(** [tokio::time::timeout] drops a computation at one of the calls at which it
    suspends. *)
Inductive Timed (E : Type -> Type) : Type -> Type :=
| Prompt {X} (e : E X) : Timed E X
| Suspended {X} (e : E X) : Timed E (option X).
Arguments Prompt {E X} e.
Arguments Suspended {E X} e.

Fixpoint within {E A} (suspends : forall X, E X -> bool) (p : Prog E A) : Prog (Timed E) (option A) :=
  match p with
  | Ret a => Ret (Some a)
  | Stop h => Stop h
  | Vis e k =>
      if suspends _ e
      then Vis (Suspended e) (fun x => match x with Some x => within suspends (k x) | None => Ret None end)
      else Vis (Prompt e) (fun x => within suspends (k x))
  end.

Section Timeouts.
  Context {E : Type -> Type} {O : Type} (see : forall X, E X -> X -> O) (timeout : O) (suspends : forall X, E X -> bool).

Definition see_timed (X : Type) (e : Timed E X) : X -> O :=
  match e in Timed _ X return X -> O with
  | Prompt e => fun x => see _ e x
  | Suspended e => fun x => match x with Some x => see _ e x | None => timeout end
  end.

(** What always holds of a computation holds of it under a timeout, unless it
    is dropped. *)
Lemma always_within {A} (p : Prog E A) trace Q :
  always see p trace Q ->
  always see_timed (within suspends p) trace (fun t r =>
    match r with
    | Ok (Some a) => Q t (Ok a)
    | Ok None => last t = Some timeout
    | Err h => Q t (Err h)
    end).
Proof.
  revert trace. induction p as [a|h|X e k IH]; intros trace H; [done|done|]. cbn [within]. destruct (suspends X e).
  - intros [x|]; [apply IH, H|]. cbn. by rewrite last_snoc.
  - intros x. apply IH, H.
Qed.
End Timeouts.
