(* ===== verification/Transport.v ===== *)
(** * Connections

    Models [src/src/msgr/budget.rs], the bound on what the connections of a
    client may hold of received frames, and [src/src/msgr/transport.rs], the
    tasks of one connection: the reader that turns the bytes of the peer into
    frames, the writer that encodes the frames it is given one after the other,
    and the timer of credential renewal.  The tasks are programs; the socket,
    the owner of the connection and the clock are their environment. *)

From S2P Require Import Prelude Codec Frame Message Address Control Secure SessionState Interaction.
From Stdlib Require Import ZArith Lia Strings.Byte.
From stdpp Require Import base option gmap sorting numbers list.

Open Scope Z_scope.

(** ** The receive budget *)

Definition DEFAULT_MAX_SESSIONS : Z := 256.
Definition DEFAULT_MAX_RECEIVE_BYTES : Z := Z.shiftl 256 20.
Definition RECEIVE_COPY_FACTOR : Z := 5.
Definition CONTROL_BYTES_PER_SESSION : Z := Z.shiftl 16 10.

(** The permits that each of the three semaphores has left. *)
Record ReceiveBudget : Type := mkReceiveBudget {
  rb_sessions : Z;
  rb_bytes : Z;
  rb_controls : Z
}.

(** [max_permits] is [Semaphore::MAX_PERMITS]. *)
Definition ReceiveBudget_new (max_permits sessions bytes : Z) : result FrameError ReceiveBudget :=
  controls ← ok_or (checked_mul 64 sessions CONTROL_BYTES_PER_SESSION) FE_Malformed;
  if (sessions =? 0) || (bytes =? 0) || (max_permits <? sessions) || (max_permits <? bytes)
     || (max_permits <? controls)
  then Err FE_Malformed
  else Ok (mkReceiveBudget sessions bytes controls).

(** [try_acquire_many_owned] takes all its permits or none. *)
Definition try_acquire (available permits : Z) : option Z :=
  if permits <=? available then Some (available - permits) else None.

Definition ReceiveBudget_admit (b : ReceiveBudget) : result FrameError ReceiveBudget :=
  sessions ← ok_or (try_acquire (rb_sessions b) 1) FE_LimitExceeded;
  Ok (mkReceiveBudget sessions (rb_bytes b) (rb_controls b)).

(** What a charge holds: the pool and the number of permits. *)
Record ReceiveCharge : Type := mkReceiveCharge { rc_message : bool; rc_permits : Z }.

Definition ReceiveBudget_reserve (b : ReceiveBudget) (tag : Tag) (wire_bytes : Z)
    : result FrameError (ReceiveCharge * ReceiveBudget) :=
  bytes ← ok_or (bytes ← checked_mul 64 wire_bytes RECEIVE_COPY_FACTOR; try_u 32 bytes) FE_LimitExceeded;
  if bool_decide (tag = T_Message) then
    left ← ok_or (try_acquire (rb_bytes b) bytes) FE_LimitExceeded;
    Ok (mkReceiveCharge true bytes, mkReceiveBudget (rb_sessions b) left (rb_controls b))
  else
    left ← ok_or (try_acquire (rb_controls b) bytes) FE_LimitExceeded;
    Ok (mkReceiveCharge false bytes, mkReceiveBudget (rb_sessions b) (rb_bytes b) left).

(** Dropping the last clone of a charge gives its permits back. *)
Definition ReceiveCharge_drop (c : ReceiveCharge) (b : ReceiveBudget) : ReceiveBudget :=
  if rc_message c then mkReceiveBudget (rb_sessions b) (rb_bytes b + rc_permits c) (rb_controls b)
  else mkReceiveBudget (rb_sessions b) (rb_bytes b) (rb_controls b + rc_permits c).

Definition Session_permit_drop (b : ReceiveBudget) : ReceiveBudget :=
  mkReceiveBudget (rb_sessions b + 1) (rb_bytes b) (rb_controls b).

(** The charges and sessions that hold permits of a budget. *)
Record BudgetRun : Type := mkBudgetRun {
  br_budget : ReceiveBudget;
  br_sessions : Z;
  br_charges : list ReceiveCharge
}.

Definition permits (message : bool) (l : list ReceiveCharge) : Z :=
  foldr (fun c n => (if Bool.eqb (rc_message c) message then rc_permits c else 0) + n) 0 l.

#[global] Arguments permits : simpl never.

Lemma permits_cons message c l :
  permits message (c :: l) = (if Bool.eqb (rc_message c) message then rc_permits c else 0) + permits message l.
Proof. done. Qed.

(** Frames arrive and messages are dropped, sessions start and end. *)
Inductive budget_step : BudgetRun -> BudgetRun -> Prop :=
| budget_admit b b' n l : ReceiveBudget_admit b = Ok b' -> budget_step (mkBudgetRun b n l) (mkBudgetRun b' (n + 1) l)
| budget_leave b n l : 0 < n -> budget_step (mkBudgetRun b n l) (mkBudgetRun (Session_permit_drop b) (n - 1) l)
| budget_reserve b b' n l tag bytes c : 0 <= bytes -> ReceiveBudget_reserve b tag bytes = Ok (c, b') ->
    budget_step (mkBudgetRun b n l) (mkBudgetRun b' n (c :: l))
| budget_release b n l i c : l !! i = Some c ->
    budget_step (mkBudgetRun b n l) (mkBudgetRun (ReceiveCharge_drop c b) n (delete i l)).

(** Nothing more is held than the budget allows. *)
Record budget_ok (sessions bytes : Z) (r : BudgetRun) : Prop := {
  bk_left : 0 <= rb_sessions (br_budget r) /\ 0 <= rb_bytes (br_budget r) /\ 0 <= rb_controls (br_budget r);
  bk_charges : Forall (fun c => 0 <= rc_permits c <= u32_max) (br_charges r);
  bk_sessions : 0 <= br_sessions r /\ rb_sessions (br_budget r) + br_sessions r = sessions;
  bk_bytes : rb_bytes (br_budget r) + permits true (br_charges r) = bytes;
  bk_controls : rb_controls (br_budget r) + permits false (br_charges r) = sessions * CONTROL_BYTES_PER_SESSION
}.

Lemma try_acquire_inv a n b : try_acquire a n = Some b -> b = a - n /\ 0 <= b.
Proof. unfold try_acquire. destruct (Z.leb_spec n a); [|done]. intros E. simplify_eq. lia. Qed.

Lemma permits_delete message l : forall i c, l !! i = Some c ->
  permits message (delete i l) = permits message l - (if Bool.eqb (rc_message c) message then rc_permits c else 0).
Proof.
  induction l as [|d l IH]; intros [|i] c H; simplify_eq/=; rewrite !permits_cons; [lia|]. rewrite (IH _ _ H). lia.
Qed.

(** The permits left and the permits held are those the budget started with:
    however sessions and frames come and go, the copies of received frames held
    at a time never exceed it. *)
Theorem receive_budget_conserved max_permits sessions bytes b r :
  0 <= sessions -> 0 <= bytes -> ReceiveBudget_new max_permits sessions bytes = Ok b ->
  rtc budget_step (mkBudgetRun b 0 []) r -> budget_ok sessions bytes r.
Proof.
  intros Hs Hb Hn Hr. unfold ReceiveBudget_new in Hn.
  destruct (checked_mul 64 sessions _) as [c|] eqn:Ec; cbn [ok_or] in Hn; [|done]. rewrite bind_Ok in Hn.
  unfold checked_mul in Ec. destruct (_ <? _); [|done]. simplify_eq Ec. intros <-.
  destruct (_ || _); [done|]. apply Ok_inj in Hn as <-.
  assert (budget_ok sessions bytes (mkBudgetRun (mkReceiveBudget sessions bytes (sessions * CONTROL_BYTES_PER_SESSION)) 0 []))
    as H0.
  { change CONTROL_BYTES_PER_SESSION with 16384. constructor; cbn [br_budget br_sessions br_charges rb_sessions rb_bytes
      rb_controls permits foldr]; [lia|constructor|lia|unfold permits; cbn; lia|unfold permits; cbn; change CONTROL_BYTES_PER_SESSION with 16384; lia]. }
  revert H0. induction Hr as [|r r1 r2 Hstep _ IH]; [done|]. intros H0. apply IH. clear IH r2.
  destruct Hstep as [b b' n l Ha|b n l Hl|b b' n l tag w c Hw Hc|b n l i c Hi]; destruct H0 as [? ? ? ? ?]; cbn in *.
  - unfold ReceiveBudget_admit in Ha. destruct (try_acquire _ _) as [s|] eqn:E; cbn in Ha; [|done].
    apply Ok_inj in Ha as <-. apply try_acquire_inv in E. constructor; cbn; (done || lia).
  - constructor; cbn; (done || lia).
  - unfold ReceiveBudget_reserve, checked_mul in Hc. destruct (w * RECEIVE_COPY_FACTOR <? 2 ^ 64); cbn in Hc; [|done].
    destruct (try_u 32 (w * RECEIVE_COPY_FACTOR)) as [n'|] eqn:Et; cbn in Hc; [|done].
    apply try_u_inv in Et as [-> Ht]. unfold in_u, u32_max, RECEIVE_COPY_FACTOR in *.
    destruct (bool_decide (tag = T_Message)).
    all: destruct (try_acquire _ _) as [s|] eqn:E; cbn in Hc; [|done].
    all: apply Ok_inj in Hc; injection Hc as <- <-; apply try_acquire_inv in E.
    all: constructor; cbn; rewrite ?permits_cons; cbn; unfold u32_max; try (constructor; [cbn|done]); lia.
  - pose proof (Forall_lookup_1 _ _ _ _ bk_charges0 Hi) as Hc. cbn in Hc.
    unfold ReceiveCharge_drop. destruct c as [[] p]; constructor; cbn in *; rewrite ?(permits_delete _ _ _ _ Hi); cbn;
      try lia; by apply Forall_delete.
Qed.

(** ** Codecs *)

(** [Codec], and the [Encoder] and [Decoder] it is split into. *)
Inductive FrameCodec : Type :=
| CrcFrames (codec : CrcCodec)
| SecureFrames (codec : SecureCodec).

Definition FrameCodec_split (c : FrameCodec) : FrameCodec * FrameCodec :=
  match c with
  | CrcFrames codec => (CrcFrames codec, CrcFrames codec)
  | SecureFrames codec => let (e, d) := SecureCodec_split codec in (SecureFrames e, SecureFrames d)
  end.

(** The modes a session has used: bit 0 for secure, bit 1 for CRC frames. *)
Definition ObservedModes_record (codec : FrameCodec) (modes : Z) : Z :=
  Z.lor modes (match codec with SecureFrames _ => 1 | CrcFrames _ => 2 end).

Definition ObservedModes_snapshot (modes : Z) : bool * bool :=
  (negb (Z.land modes 1 =? 0), negb (Z.land modes 2 =? 0)).

Section Codecs.
  Context {crc_crate : Crc32cCrate} {aes_crate : AesGcmCrate}.

Definition FrameCodec_encode (c : FrameCodec) (frame : Frame) (limits : Limits)
    : result SecureFault (list byte) * FrameCodec :=
  match c with
  | CrcFrames codec => (frame_result (CrcCodec_encode codec frame limits), c)
  | SecureFrames codec =>
      let '(r, d) := SecureCodec_encode frame limits (tx codec) in
      (r, SecureFrames (mkSecureCodec d (rx codec)))
  end.

(** Reading a frame, when [granted] is what the reservation answers. *)
Definition FrameCodec_read (c : FrameCodec) (limits : Limits) (granted : result FrameError unit)
    (reader : list byte) : result SecureFault Frame * FrameCodec * list byte :=
  match c with
  | CrcFrames codec =>
      match CrcCodec_read_reserved codec limits (fun _ _ => granted) reader with
      | Ok (frame, reader) => (Ok frame, c, reader)
      | Err e => (Err (SF_Error e), c, reader)
      end
  | SecureFrames codec =>
      let '(r, (d, reader)) := SecureCodec_read_reserved limits (fun _ _ => granted) (rx codec, reader) in
      (r, SecureFrames (mkSecureCodec (tx codec) d), reader)
  end.

(** The reservation a reader asks for, once it has seen the head of a frame. *)
Definition crc_asks (limits : Limits) (reader : list byte) : result FrameError (Tag * Z) :=
  '(preamble, _) ← read_exact PREAMBLE_SIZE reader;
  '(tag, ds) ← decode_preamble preamble;
  wire_bytes ← descriptors_and_crc_size_from_descriptors ds limits;
  Ok (tag, wire_bytes).

Definition secure_asks (limits : Limits) : St (Direction * list byte) SecureFault (Tag * Z) :=
  d ← on_rx (st_gets Ok);
  _ ← st_fail_if (negb (available d 1)) (SF_Error FE_CounterExhausted);
  _ ← st_fail_if (max_frame_bytes limits <? SECURE_PREAMBLE_SIZE) (SF_Error FE_LimitExceeded);
  first_ciphertext ← read_bytes SECURE_PREAMBLE_SIZE;
  first ← on_rx (open_record first_ciphertext);
  preamble ← st_lift (slice first 0 PREAMBLE_SIZE);
  '(tag, ds) ← st_lift (frame_result (decode_preamble preamble));
  '(wire_size, _) ← st_lift (validate_descriptors ds limits);
  mret (tag, wire_size).

Definition FrameCodec_asks (c : FrameCodec) (limits : Limits) (reader : list byte) : option (Tag * Z) :=
  match c with
  | CrcFrames _ => match crc_asks limits reader with Ok x => Some x | Err _ => None end
  | SecureFrames codec => match (secure_asks limits (rx codec, reader)).1 with Ok x => Some x | Err _ => None end
  end.

(** ** Tasks *)

Inductive TransportEvent : Type :=
| TE_Frame (generation : Z) (frame : Frame)
| TE_WriteComplete (generation : Z) (request_id : option Z) (r : result SessionError unit)
| TE_Fault (generation : Z) (error : SessionError)
| TE_RenewalDue (generation : Z).

(** How [write_all] ends: it writes everything, or fails or is abandoned when
    the connection closes, having written some bytes. *)
Inductive IoKind : Type := OutOfMemory | OtherKind.

Inductive Written : Type :=
| WroteAll
| WriteFailed (n : nat) (kind : IoKind)
| WriteAbandoned (n : nat).

Definition map_io_error (kind : IoKind) : SessionError :=
  match kind with
  | OutOfMemory => SE_Frame FE_LimitExceeded
  | OtherKind => SE_Disconnected
  end.

(** [T_Closing] asks whether the connection is to be closed before what the
    task waits for happens; [T_Publish] whether the owner was sent the event. *)
Inductive TransportE : Type -> Type :=
| T_Closing : TransportE bool
| T_Reserve (tag : Tag) (bytes : Z) : TransportE (result FrameError unit)
| T_Publish (e : TransportEvent) : TransportE bool
| T_Take : TransportE (option (option Z * Frame))
| T_Write (wire : list byte) : TransportE Written.

(** [Decoder::read]; the flag says whether the budget refused the frame. *)
Definition Decoder_read (c : FrameCodec) (limits : Limits) (budgeted : bool) (reader : list byte)
    : Prog TransportE (result SessionError Frame * FrameCodec * list byte) :=
  granted ← match FrameCodec_asks c limits reader with
            | Some (tag, bytes) => if budgeted then call (T_Reserve tag bytes) else Ret (Ok tt)
            | None => Ret (Ok tt)
            end;
  let '(r, c, reader) := FrameCodec_read c limits granted reader in
  match r with
  | Ok frame => Ret (Ok frame, c, reader)
  | Err (SF_Error e) => Ret (Err (if is_ok granted then SE_Frame e else SE_QueueSaturated), c, reader)
  | Err SF_Panic => Stop Panicked
  end.

Fixpoint reader_loop (fuel : nat) (generation : Z) (c : FrameCodec) (limits : Limits) (budgeted : bool)
    (reader : list byte) : Prog TransportE unit :=
  match fuel with
  | O => Stop StillRunning
  | S fuel =>
      closing ← call T_Closing;
      if (closing : bool) then Ret tt
      else
        '(r, c, reader) ← Decoder_read c limits budgeted reader;
        match r with
        | Ok frame =>
            sent ← call (T_Publish (TE_Frame generation frame));
            if (sent : bool) then reader_loop fuel generation c limits budgeted reader else Ret tt
        | Err error => _ ← call (T_Publish (TE_Fault generation error)); Ret tt
        end
  end.

(** A frame takes bytes from the stream, so that a stream of [n] bytes ends
    within [n + 1] rounds. *)
Definition reader_task (generation : Z) (c : FrameCodec) (limits : Limits) (budgeted : bool)
    (reader : list byte) : Prog TransportE unit :=
  reader_loop (S (length reader)) generation c limits budgeted reader.

(** [None] when the connection closes during the write. *)
Definition write_frame (c : FrameCodec) (limits : Limits) (frame : Frame)
    : Prog TransportE (option (result SessionError unit) * FrameCodec) :=
  let '(r, c) := FrameCodec_encode c frame limits in
  match r with
  | Ok wire =>
      w ← call (T_Write wire);
      Ret (match w with
           | WroteAll => Some (Ok tt)
           | WriteFailed _ kind => Some (Err (map_io_error kind))
           | WriteAbandoned _ => None
           end, c)
  | Err (SF_Error e) => Ret (Some (Err (SE_Frame e)), c)
  | Err SF_Panic => Stop Panicked
  end.

Fixpoint writer_task (fuel : nat) (generation : Z) (c : FrameCodec) (limits : Limits) : Prog TransportE unit :=
  match fuel with
  | O => Stop StillRunning
  | S fuel =>
      closing ← call T_Closing;
      if (closing : bool) then Ret tt
      else
        task ← call T_Take;
        match task with
        | None => Ret tt
        | Some (request_id, frame) =>
            '(r, c) ← write_frame c limits frame;
            match r with
            | None => Ret tt
            | Some r =>
                published ← call (T_Publish (TE_WriteComplete generation request_id r));
                if negb published || negb (is_ok r) then Ret tt
                else writer_task fuel generation c limits
            end
        end
  end.

(** [spawn_renewal]: closing and the delay race. *)
Definition renewal_task (generation : Z) (renewal_after : option Z) : Prog TransportE unit :=
  match renewal_after with
  | None => Ret tt
  | Some _ =>
      closing ← call T_Closing;
      if (closing : bool) then Ret tt
      else _ ← call (T_Publish (TE_RenewalDue generation)); Ret tt
  end.

End Codecs.

(** ** Observations *)

Inductive TransportObs : Type :=
| N_Closing (closing : bool)
| N_Reserve (tag : Tag) (bytes : Z) (r : result FrameError unit)
| N_Publish (e : TransportEvent) (sent : bool)
| N_Take (task : option (option Z * Frame))
| N_Write (wire : list byte) (w : Written).

Definition see_transport (X : Type) (e : TransportE X) : X -> TransportObs :=
  match e with
  | T_Closing => N_Closing
  | T_Reserve tag bytes => N_Reserve tag bytes
  | T_Publish e => N_Publish e
  | T_Take => N_Take
  | T_Write wire => N_Write wire
  end.

(** The frames a reader has handed to the owner. *)
Definition handed (t : list TransportObs) : list Frame :=
  omap (fun o => match o with N_Publish (TE_Frame _ f) true => Some f | _ => None end) t.

(** The frames a writer was given. *)
Definition given (t : list TransportObs) : list Frame :=
  omap (fun o => match o with N_Take (Some (_, f)) => Some f | _ => None end) t.

(** The bytes a writer has put on the wire. *)
Definition written (o : TransportObs) : list byte :=
  match o with
  | N_Write wire WroteAll => wire
  | N_Write wire (WriteFailed n _) | N_Write wire (WriteAbandoned n) => take n wire
  | _ => []
  end.

Definition on_wire (t : list TransportObs) : list byte := concat (written <$> t).

(** How many frames were written to the end. *)
Definition finished (t : list TransportObs) : nat :=
  length (omap (fun o => match o with N_Write _ WroteAll => Some tt | _ => None end) t).

(** Neither closing nor the budget nor the owner stopped the reader. *)
Definition disturbs (o : TransportObs) : bool :=
  match o with
  | N_Closing true | N_Reserve _ _ (Err _) | N_Publish (TE_Frame _ _) false => true
  | _ => false
  end.

Definition undisturbed (t : list TransportObs) : Prop := forallb (fun o => negb (disturbs o)) t = true.

(** ** Readers take what they need *)

(** More bytes behind those a reader has taken do not change what it reads. *)
Definition extends {E A} (f : list byte -> result E (A * list byte)) : Prop :=
  forall p a r s, f p = Ok (a, r) -> f (p ++ s) = Ok (a, r ++ s).

Definition st_extends {A} (m : St (Direction * list byte) SecureFault A) : Prop :=
  forall d p a d' r s, m (d, p) = (Ok a, (d', r)) -> m (d, p ++ s) = (Ok a, (d', r ++ s)).

Lemma extends_read_exact n : extends (read_exact n).
Proof.
  intros p a r s. unfold read_exact. rewrite zlen_app. pose proof (zlen_nonneg s).
  destruct (Z.ltb_spec (zlen p) n); [done|]. destruct (Z.ltb_spec (zlen p + zlen s) n); [lia|].
  unfold zlen in *. intros Hx. apply Ok_inj in Hx. injection Hx as <- <-.
  rewrite take_app_le, drop_app_le by lia. done.
Qed.

Lemma extends_bind {E A B} (f : list byte -> result E (A * list byte))
    (k : A -> list byte -> result E (B * list byte)) :
  extends f -> (forall a, extends (k a)) -> extends (fun p => '(a, q) ← f p; k a q).
Proof.
  intros Hf Hk p b r s H. apply bind_inv in H as ([a q] & Ha & H). rewrite (Hf _ _ _ s Ha), bind_Ok.
  by apply Hk.
Qed.

Lemma extends_lift {E A B} (x : result E A) (k : A -> list byte -> result E (B * list byte)) :
  (forall a, extends (k a)) -> extends (fun p => a ← x; k a p).
Proof. intros Hk p b r s H. apply bind_inv in H as (a & -> & H). rewrite bind_Ok. by apply Hk. Qed.

Lemma extends_ret {E A} (a : A) : extends (fun p => @Ok E _ (a, p)).
Proof. intros p b r s H. apply Ok_inj in H. by injection H as <- <-. Qed.

Create HintDb extends.

Section Extending.
  Context {crc_crate : Crc32cCrate} {aes_crate : AesGcmCrate}.

Lemma extends_read_segments codec ds : forall first, extends (read_segments codec first ds).
Proof.
  induction ds as [|d ds IH]; intros first; [apply extends_ret|].
  intros p a r s H. cbn [read_segments] in *. revert p a r s H.
  apply extends_bind; [apply extends_read_exact|]. intros data p a r s H.
  apply bind_inv in H as (q & Hq & H). apply bind_inv in H as ([segs q'] & Hs & H).
  apply Ok_inj in H. injection H as <- <-.
  assert ((if first && (0 <? d_length d)
     then '(encoded, reader) ← read_exact 4 (p ++ s);
          if with_data_crc codec && negb (crc32c u32_max data =? le_value encoded)
          then Err FE_Integrity else Ok reader
     else Ok (p ++ s)) = Ok (q ++ s)) as ->.
  { destruct (first && _); [|by apply Ok_inj in Hq as ->].
    apply bind_inv in Hq as ([e q2] & He & Hq). rewrite (extends_read_exact _ _ _ _ s He), bind_Ok.
    destruct (with_data_crc codec && _); [done|]. by apply Ok_inj in Hq as ->. }
  by rewrite bind_Ok, (IH _ _ _ _ s Hs), bind_Ok.
Qed.

Lemma extends_crc_read codec limits reserve : extends (CrcCodec_read_reserved codec limits reserve).
Proof.
  intros p f r s H. unfold CrcCodec_read_reserved in *. revert p f r s H.
  apply extends_bind; [apply extends_read_exact|]. intros preamble.
  intros p f r s H. apply bind_inv in H as ([tag ds] & -> & H). rewrite bind_Ok. revert p f r s H.
  apply extends_lift. intros w. apply extends_lift. intros [].
  apply extends_bind; [apply extends_read_segments|]. intros segs p f r s H.
  apply bind_inv in H as (q & Hq & H). apply Ok_inj in H. injection H as <- <-.
  destruct (1 <? zlen ds).
  - apply bind_inv in Hq as ([e q2] & He & Hq). rewrite (extends_read_exact _ _ _ _ s He), bind_Ok.
    apply bind_inv in Hq as ([] & -> & Hq). rewrite bind_Ok. apply bind_inv in Hq as ([] & -> & Hq).
    rewrite bind_Ok. by apply Ok_inj in Hq as ->.
  - by apply Ok_inj in Hq as ->.
Qed.

Lemma st_extends_bind {A B} (m : St (Direction * list byte) SecureFault A)
    (k : A -> St (Direction * list byte) SecureFault B) :
  st_extends m -> (forall a, st_extends (k a)) -> st_extends (m ≫= k).
Proof.
  intros Hm Hk d p b d' r s H. apply St_bind_inv in H as (a & [d1 q] & Ha & H).
  rewrite (St_bind_Ok _ _ _ _ _ (Hm _ _ _ _ _ s Ha)). by apply Hk.
Qed.

Lemma st_extends_lift {A} (x : result SecureFault A) : st_extends (st_lift x).
Proof. intros d p a d' r s H. unfold st_lift in *. by injection H as -> <- <-. Qed.

Lemma st_extends_ret {A} (a : A) : st_extends (mret a).
Proof. exact (st_extends_lift (Ok a)). Qed.

Lemma st_extends_rx {A} (m : St Direction SecureFault A) : st_extends (on_rx m).
Proof. intros d p a d' r s H. unfold on_rx in *. destruct (m d) as [x d1]. by injection H as -> <- <-. Qed.

Lemma st_extends_read n : st_extends (read_bytes n).
Proof.
  intros d p a d' r s H. unfold read_bytes in *.
  destruct (read_exact n p) as [[x q]|] eqn:E; cbn in H; [|done]. injection H as <- <- <-.
  by rewrite (extends_read_exact _ _ _ _ s E).
Qed.

#[local] Hint Resolve st_extends_lift st_extends_ret st_extends_rx st_extends_read : extends.
#[local] Ltac extending :=
  repeat first
    [ progress eauto with extends
    | apply st_extends_bind; [|intros ?]
    | case_match; subst
    | apply st_extends_lift ].

Lemma st_extends_tail tag ds first wire_size : st_extends (read_tail tag ds first wire_size).
Proof.
  unfold read_tail, read_first, read_others, st_fail_if. cbv zeta. extending.
Qed.

Lemma st_extends_secure_read limits reserve : st_extends (SecureCodec_read_reserved limits reserve).
Proof.
  unfold SecureCodec_read_reserved, st_fail_if. extending. apply st_extends_tail.
Qed.
End Extending.

(** ** The two ends of a connection *)

(** The decoder reads what the encoder writes. *)
Definition peers (e d : FrameCodec) : Prop :=
  match e, d with
  | CrcFrames a, CrcFrames b => a = b
  | SecureFrames a, SecureFrames b => rx b = tx a /\ direction_ok (tx a)
  | _, _ => False
  end.

Section Peers.
  Context {crc_crate : Crc32cCrate} {aes_crate : AesGcmCrate} `{!AesGcmLaws aes_crate}.

(** Frames encoded one after the other. *)
Inductive encodes (limits : Limits) : FrameCodec -> list Frame -> list (list byte) -> Prop :=
| encodes_nil c : encodes limits c [] []
| encodes_cons c c' f w fs ws :
    FrameCodec_encode c f limits = (Ok w, c') -> encodes limits c' fs ws ->
    encodes limits c (f :: fs) (w :: ws).

Lemma read_encoded limits e e' d f w rest :
  peers e d -> Forall segment_ok (segments f) -> FrameCodec_encode e f limits = (Ok w, e') ->
  exists g d', normalized f g /\ peers e' d'
    /\ FrameCodec_read d limits (Ok tt) (w ++ rest) = (Ok g, d', rest).
Proof.
  intros Hp Hs He. destruct e as [a|a], d as [b|b]; try done; cbn in He, Hp.
  - subst b. destruct (CrcCodec_encode a f limits) as [x|] eqn:E; cbn in He; [|done]. injection He as -> <-.
    destruct (crc_read_encode a f limits w rest (fun _ _ => Ok tt) Hs E eq_refl) as (ns & Hn & Hr).
    exists (mkFrame (frame_tag f) ns), (CrcFrames a). split; [done|]. split; [done|]. cbn. by rewrite Hr.
  - destruct Hp as [Hp Hd]. destruct (SecureCodec_encode f limits (tx a)) as [x t] eqn:E. injection He as -> <-.
    destruct (secure_read_encode f limits (fun _ _ => Ok tt) _ w t rest Hs Hd E eq_refl) as (ns & Hn & Hr).
    exists (mkFrame (frame_tag f) ns), (SecureFrames (mkSecureCodec (tx b) t)). split; [done|].
    split; [split; [done|by eapply encode_direction_ok]|]. cbn. by rewrite Hp, Hr.
Qed.

Lemma read_extends limits granted d p f d' r s :
  FrameCodec_read d limits granted p = (Ok f, d', r) ->
  FrameCodec_read d limits granted (p ++ s) = (Ok f, d', r ++ s).
Proof.
  destruct d as [c|c]; cbn.
  - destruct (CrcCodec_read_reserved c limits _ p) as [[g q]|] eqn:E; [|done]. intros H. simplify_eq.
    by rewrite (extends_crc_read _ _ _ _ _ _ s E).
  - destruct (SecureCodec_read_reserved limits _ (rx c, p)) as [x [d1 q]] eqn:E. intros H. simplify_eq.
    by rewrite (st_extends_secure_read _ _ _ _ _ _ _ s E).
Qed.

Lemma read_refused limits e d p f d' r : FrameCodec_read d limits (Err e) p <> (Ok f, d', r).
Proof.
  destruct d as [c|c]; cbn.
  - destruct (CrcCodec_read_reserved c limits _ p) as [[g q]|] eqn:E; [|done]. intros _.
    unfold CrcCodec_read_reserved in E. apply bind_inv in E as ([? ?] & _ & E).
    apply bind_inv in E as ([? ?] & _ & E). by apply bind_inv in E as (? & _ & E).
  - destruct (SecureCodec_read_reserved limits _ (rx c, p)) as [x [d1 q]] eqn:E. intros H. simplify_eq.
    unfold SecureCodec_read_reserved in E.
    do 6 (apply St_bind_inv in E as (? & ? & _ & E)).
    apply St_bind_inv in E as ([? ?] & ? & _ & E). by apply St_bind_inv in E as ([? ?] & ? & _ & E).
Qed.

Lemma read_nothing limits granted d : is_ok (FrameCodec_read d limits granted []).1.1 = false.
Proof.
  destruct d as [c|c]; [done|]. cbn.
  destruct (SecureCodec_read_reserved limits _ (rx c, [])) as [[f|e] [d r]] eqn:E; [|done].
  unfold SecureCodec_read_reserved in E. apply St_bind_inv in E as (d0 & s0 & H0 & E).
  apply St_bind_inv in E as ([] & s1 & H1 & E). apply St_bind_inv in E as ([] & s2 & H2 & E).
  apply St_bind_inv in E as (x & s3 & H3 & _). unfold st_fail_if, st_lift in *. cbn in H0.
  injection H0 as <- <-. injection H1 as _ <-. injection H2 as _ <-. done.
Qed.

Lemma read_no_panic limits granted d p : (FrameCodec_read d limits granted p).1.1 <> Err SF_Panic.
Proof.
  destruct d as [c|c]; cbn.
  - by destruct (CrcCodec_read_reserved c limits _ p) as [[g q]|].
  - pose proof (read_reserved_no_panic limits (fun _ _ => granted) (rx c) p) as H. unfold no_panic in H.
    by destruct (SecureCodec_read_reserved limits _ (rx c, p)) as [x [d1 q]].
Qed.

(** A frame read from the first bytes of an encoded stream is its first
    frame, and the rest is the beginning of the rest of the stream. *)
Lemma read_stream limits e d fs ws p f d' r :
  peers e d -> Forall (fun f => Forall segment_ok (segments f)) fs -> encodes limits e fs ws ->
  p `prefix_of` concat ws -> FrameCodec_read d limits (Ok tt) p = (Ok f, d', r) ->
  exists g w fs' ws' e', fs = g :: fs' /\ ws = w :: ws' /\ p = w ++ r /\ normalized g f
    /\ peers e' d' /\ encodes limits e' fs' ws' /\ r `prefix_of` concat ws' /\ (length r < length p)%nat.
Proof.
  intros Hp Hs He [s Hpre] Hr. destruct He as [c|c c' g w fs ws Hg He].
  { cbn in Hpre. destruct p; [|done]. pose proof (read_nothing limits (Ok tt) d) as Hn. by rewrite Hr in Hn. }
  apply Forall_cons in Hs as [Hg1 Hs]. cbn in Hpre.
  destruct (read_encoded limits c c' d g w (concat ws) Hp Hg1 Hg) as (f' & d1 & Hn & Hp' & Hread).
  apply (read_extends _ _ _ _ _ _ _ s) in Hr as Hx. rewrite <- Hpre, Hread in Hx. injection Hx as <- <- Hc.
  assert (p = w ++ r) as ->.
  { apply (app_inj_2 _ _ s s); [done|]. by rewrite <- app_assoc, <- Hc. }
  exists g, w, fs, ws, c'. split_and!; try done; [by exists s|].
  rewrite length_app. destruct w; [|cbn [length]; lia].
  destruct (read_encoded limits c c' d g [] [] Hp Hg1 Hg) as (? & ? & _ & _ & Hz).
  pose proof (read_nothing limits (Ok tt) d) as Hn0. change ([] ++ []) with (@nil byte) in Hz. by rewrite Hz in Hn0.
Qed.
End Peers.

(** ** Writers and readers *)

Section Delivery.
  Context {crc_crate : Crc32cCrate} {aes_crate : AesGcmCrate} `{!AesGcmLaws aes_crate}.

(** What a writer leaves behind: the wire holds the beginning of an encoding of
    the frames it was given, at least the frames it has finished. *)
Definition wrote (limits : Limits) (c : FrameCodec) (t : list TransportObs) : Prop :=
  exists fs ws, fs `prefix_of` given t /\ encodes limits c fs ws /\ on_wire t `prefix_of` concat ws
    /\ (finished t <= length ws)%nat /\ concat (take (finished t) ws) `prefix_of` on_wire t.

Lemma wrote_nothing limits c t : on_wire t = [] -> finished t = 0%nat -> wrote limits c t.
Proof.
  intros H1 H2. exists [], []. rewrite H1, H2. split_and!; [apply prefix_nil|constructor|done|done|done].
Qed.

Lemma wrote_part limits c c' closing request_id f w x n t :
  FrameCodec_encode c f limits = (Ok w, c') -> x <> WroteAll -> written (N_Write w x) = take n w ->
  on_wire t = [] -> finished t = 0%nat ->
  wrote limits c (N_Closing closing :: N_Take (Some (request_id, f)) :: N_Write w x :: t).
Proof.
  intros He Hx Ho Ht1 Ht2. set (t' := _ :: _). exists [f], [w].
  assert (on_wire t' = take n w) as ->.
  { unfold on_wire in *. cbn [t' fmap list_fmap concat written app] in *. by rewrite Ht1, app_nil_r, Ho. }
  assert (finished t' = 0%nat) as -> by (unfold finished in *; by destruct x).
  cbn. rewrite app_nil_r. split_and!; [by eexists|repeat econstructor; done| |lia|apply prefix_nil].
  exists (drop n w). by rewrite take_drop.
Qed.

Lemma writer_wrote limits generation fuel : forall c t0,
  always see_transport (writer_task fuel generation c limits) t0
    (fun t _ => exists t', t = t0 ++ t' /\ wrote limits c t').
Proof.
  induction fuel as [|fuel IH]; intros c t0; cbn [writer_task].
  { exists []. rewrite app_nil_r. split; [done|]. by apply wrote_nothing. }
  apply always_call. intros [].
  { eexists. split; [done|]. by apply wrote_nothing. }
  apply always_call. intros [[request_id f]|].
  2:{ rewrite <- app_assoc. eexists. split; [done|]. by apply wrote_nothing. }
  apply always_bind. unfold write_frame.
  destruct (FrameCodec_encode c f limits) as [[w|[e|]] c'] eqn:He.
  - apply always_call. intros o. cbn [always].
    destruct o as [|n kind|n].
    + apply always_call. intros published. cbn [is_ok negb]. rewrite orb_false_r.
      destruct (negb published).
      * cbn. rewrite <- !app_assoc. eexists. split; [done|]. exists [f], [w]. cbn.
        split_and!; [by eexists|repeat econstructor; done|by rewrite !app_nil_r|done|by rewrite !app_nil_r].
      * eapply always_mono; [|apply IH]. intros t _ (t' & -> & fs & ws & H1 & H2 & H3 & H4 & H5).
        rewrite <- !app_assoc. eexists. split; [done|]. exists (f :: fs), (w :: ws). cbn.
        split_and!; [by apply prefix_cons|by econstructor|by apply prefix_app|unfold finished in *; cbn; lia|].
        by apply prefix_app.
    + apply always_call. intros published. cbn [is_ok negb]. rewrite orb_true_r. cbn.
      rewrite <- !app_assoc. eexists. split; [done|]. cbn [app]. by eapply (wrote_part _ _ _ _ _ _ _ _ n).
    + cbn. rewrite <- !app_assoc. eexists. split; [done|]. cbn [app]. by eapply (wrote_part _ _ _ _ _ _ _ _ n).
  - cbn [always]. apply always_call. intros published. cbn [is_ok negb]. rewrite orb_true_r. cbn.
    rewrite <- !app_assoc. eexists. split; [done|]. by apply wrote_nothing.
  - cbn. rewrite <- app_assoc. eexists. split; [done|]. by apply wrote_nothing.
Qed.

(** What a reader of the first bytes of a stream has handed on. *)
Definition handed_on (fs : list Frame) (ws : list (list byte)) (p : list byte) (t : list TransportObs) : Prop :=
  (exists k, Forall2 normalized (take k fs) (handed t))
  /\ (undisturbed t -> forall n, (n <= length ws)%nat -> concat (take n ws) `prefix_of` p ->
      (n <= length (handed t))%nat).

Lemma handed_none fs ws p t : handed t = [] -> (undisturbed t -> forall w ws', ws = w :: ws' -> ~ w `prefix_of` p) ->
  handed_on fs ws p t.
Proof.
  intros Ht Hn. split; [exists 0%nat; rewrite Ht; constructor|]. intros Hu n Hl Hp. destruct n; [lia|].
  destruct ws as [|w ws]; [cbn in Hl; lia|]. destruct (Hn Hu _ _ eq_refl). cbn in Hp.
  destruct Hp as [s ->]. rewrite <- app_assoc. by eexists.
Qed.

Lemma undisturbed_app t t' : undisturbed (t ++ t') <-> undisturbed t /\ undisturbed t'.
Proof. unfold undisturbed. rewrite forallb_app, andb_true_iff. done. Qed.

(** What happens before a frame is handed on. *)
Definition preliminary (o : TransportObs) : Prop :=
  match o with N_Reserve _ _ _ | N_Closing _ => True | _ => False end.

Lemma handed_preliminary t t' : Forall preliminary t -> handed (t ++ t') = handed t'.
Proof. unfold handed. rewrite omap_app. induction 1 as [|[] l Ho Hl IH]; done. Qed.

(** One frame is read, and what the rest of the task does with the rest. *)
Lemma handed_more g f fs w ws r generation budget t :
  normalized g f -> Forall preliminary budget ->
  handed_on fs ws r t ->
  handed_on (g :: fs) (w :: ws) (w ++ r) (budget ++ N_Publish (TE_Frame generation f) true :: t).
Proof.
  intros Hn Hb [[k Hk] Hc].
  assert (handed (budget ++ N_Publish (TE_Frame generation f) true :: t) = f :: handed t) as Hh.
  { by rewrite handed_preliminary. }
  unfold handed_on. rewrite Hh. split; [exists (S k); by constructor|].
  intros Hu n Hl Hp. apply undisturbed_app in Hu as [_ Hu]. apply (undisturbed_app [_]) in Hu as [_ Hu].
  destruct n as [|n]; cbn in *; [lia|]. apply prefix_app_inv in Hp.
  specialize (Hc Hu n). pose proof (Hc ltac:(lia) Hp). lia.
Qed.

Lemma Decoder_read_always limits budgeted d p t0 Q :
  (forall granted t, Forall preliminary t ->
     (is_ok granted = false -> ~ undisturbed t) ->
     forall f d' r, FrameCodec_read d limits granted p = (f, d', r) ->
     Q (t0 ++ t) (Ok (map_err (fun x => match x with
                       | SF_Error e => if is_ok granted then SE_Frame e else SE_QueueSaturated
                       | SF_Panic => SE_QueueSaturated end) f, d', r))) ->
  always see_transport (Decoder_read d limits budgeted p) t0 Q.
Proof.
  intros HQ. unfold Decoder_read.
  assert (forall granted t, Forall preliminary t ->
     (is_ok granted = false -> ~ undisturbed t) ->
     always see_transport (let '(r, c, reader) := FrameCodec_read d limits granted p in
       match r with
       | Ok frame => Ret (Ok frame, c, reader)
       | Err (SF_Error e) => Ret (Err (if is_ok granted then SE_Frame e else SE_QueueSaturated), c, reader)
       | Err SF_Panic => Stop Panicked
       end) (t0 ++ t) Q) as Hgo.
  { intros granted t Ht Hu. pose proof (read_no_panic limits granted d p) as Hp.
    destruct (FrameCodec_read d limits granted p) as [[f d'] r] eqn:E. specialize (HQ granted t Ht Hu f d' r E).
    by destruct f as [f|[e|]]. }
  destruct (FrameCodec_asks d limits p) as [[tag bytes]|].
  - destruct budgeted.
    + apply always_call. intros granted. apply Hgo; [by repeat constructor|]. by destruct granted.
    + specialize (Hgo (Ok tt) []). rewrite app_nil_r in Hgo. by apply Hgo.
  - specialize (Hgo (Ok tt) []). rewrite app_nil_r in Hgo. by apply Hgo.
Qed.

Lemma reader_handed limits generation budgeted fuel : forall e d fs ws p t0,
  peers e d -> Forall (fun f => Forall segment_ok (segments f)) fs -> encodes limits e fs ws ->
  p `prefix_of` concat ws -> (length p < fuel)%nat ->
  always see_transport (reader_loop fuel generation d limits budgeted p) t0
    (fun t r => r = Ok tt /\ exists t', t = t0 ++ t' /\ handed_on fs ws p t').
Proof.
  induction fuel as [|fuel IH]; intros e d fs ws p t0 Hp Hs He Hpre Hf; [lia|]. cbn [reader_loop].
  apply always_call. intros [].
  { split; [done|]. eexists. split; [done|]. by apply handed_none. }
  apply always_bind, Decoder_read_always. intros granted t Ht Hg f d' r Hr.
  assert (Forall preliminary
    (N_Closing false :: t)) as Ht' by (by constructor).
  destruct f as [f|x]; cbn [map_err].
  - assert (granted = Ok tt) as -> by (destruct granted as [[]|]; [done|by apply read_refused in Hr]).
    destruct (read_stream limits e d fs ws p f d' r Hp Hs He Hpre Hr)
      as (g & w & fs' & ws' & e' & -> & -> & -> & Hn & Hp' & He' & Hpre' & Hlt).
    apply always_call. intros [].
    + apply Forall_cons in Hs as [_ Hs]. eapply always_mono; [|apply (IH e' d' fs' ws'); (done || lia)].
      intros t' res (-> & t2 & -> & Hh). split; [done|]. rewrite <- !app_assoc. eexists. split; [done|].
      by apply (handed_more g f fs' w ws' r generation (N_Closing false :: t)).
    + split; [done|]. rewrite <- !app_assoc. eexists. split; [done|].
      apply handed_none; [by apply (handed_preliminary (N_Closing false :: t))|]. intros Hu. apply (undisturbed_app [_]) in Hu as [_ Hu].
      by apply undisturbed_app in Hu as [_ Hu].
  - apply always_call. intros sent. split; [done|]. rewrite <- !app_assoc. eexists. split; [done|].
    apply handed_none; [by apply (handed_preliminary (N_Closing false :: t))|].
    intros Hu w ws' -> [q ->]. apply (undisturbed_app [_]) in Hu as [_ Hu]. apply undisturbed_app in Hu as [Hu _].
    assert (granted = Ok tt) as -> by (destruct granted as [[]|]; [done|by destruct Hg]).
    inversion He as [|? c' g ? ? ? Hge He']; subst. apply Forall_cons in Hs as [Hs _].
    destruct (read_encoded limits e c' d g w q Hp Hs Hge) as (? & ? & _ & _ & Hz). by rewrite Hr in Hz.
Qed.

(** C23. A connection hands on what was sent, in order: whatever happens to
    either end, to the wire between them and to the budget, the frames a reader
    reports are the first of the frames the writer at the other end was given,
    each without its trailing empty segments and none twice, skipped or made
    up; and a reader that is not disturbed reports every frame of which all
    bytes arrived.  The reader always ends, and never by a panic. *)
Theorem transport_delivers answer answer' fuel generation generation' e d limits budgeted bytes :
  peers e d ->
  let (tw, _) := run see_transport answer (writer_task fuel generation e limits) [] in
  let (tr, r) := run see_transport answer' (reader_task generation' d limits budgeted bytes) [] in
  Forall (fun f => Forall segment_ok (segments f)) (given tw) -> bytes `prefix_of` on_wire tw ->
  r = Ok tt
  /\ (exists k, Forall2 normalized (take k (given tw)) (handed tr))
  /\ (undisturbed tr -> bytes = on_wire tw -> (finished tw <= length (handed tr))%nat).
Proof.
  intros Hp. pose proof (always_run _ answer _ _ _ (writer_wrote limits generation fuel e [])) as Hw.
  destruct (run see_transport answer _ []) as [tw rw]. cbn [fst snd] in Hw.
  destruct Hw as (t' & -> & fs & ws & H1 & H2 & H3 & H4 & H5). cbn [app].
  destruct (run see_transport answer' _ []) as [tr r] eqn:Er. intros Hs Hb.
  assert (Forall (fun f => Forall segment_ok (segments f)) fs) as Hs'.
  { destruct H1 as [l Hl]. rewrite Hl in Hs. by apply Forall_app in Hs as [Hs _]. }
  assert (bytes `prefix_of` concat ws) as Hpre by (by etrans).
  pose proof (always_run _ answer' _ _ _ (reader_handed limits generation' budgeted (S (length bytes)) e d fs ws bytes []
    Hp Hs' H2 Hpre ltac:(lia))) as Hr.
  change (reader_loop _ _ _ _ _ _) with (reader_task generation' d limits budgeted bytes) in Hr.
  rewrite Er in Hr. cbn [fst snd] in Hr. destruct Hr as (-> & t & -> & [k Hk] & Hc). split; [done|]. split.
  - exists (k `min` length fs)%nat. destruct H1 as [l ->]. rewrite take_app_le by lia.
    cbn [app]. by rewrite <- take_take, firstn_all.
  - intros Hu ->. by apply Hc.
Qed.
End Delivery.

(** One frame is sent and received. *)
Definition one_frame (X : Type) (e : TransportE X) : list TransportObs -> X :=
  match e with
  | T_Closing => fun _ => false
  | T_Reserve _ _ => fun _ => Ok tt
  | T_Publish _ => fun _ => true
  | T_Take => fun t => match given t with [] => Some (Some 7, test_frame) | _ => None end
  | T_Write _ => fun _ => WroteAll
  end.

Lemma transport_delivers_witness :
  peers (CrcFrames (mkCrcCodec true)) (CrcFrames (mkCrcCodec true))
  /\ let tr := (run see_transport one_frame
        (reader_task (crc_crate := reference_crc) (aes_crate := reference_aes) 1 (CrcFrames (mkCrcCodec true))
           test_limits true test_wire) []).1 in
     exists k, Forall2 normalized (take k [test_frame]) (handed tr).
Proof.
  split; [done|]. pose proof (transport_delivers (crc_crate := reference_crc) (aes_crate := reference_aes)
    one_frame one_frame 2 1 1 (CrcFrames (mkCrcCodec true)) (CrcFrames (mkCrcCodec true)) test_limits true test_wire eq_refl) as H.
  assert (given (run see_transport one_frame (writer_task (crc_crate := reference_crc) (aes_crate := reference_aes)
    2 1 (CrcFrames (mkCrcCodec true)) test_limits) []).1 = [test_frame]) as Hg by (vm_compute; reflexivity).
  assert (on_wire (run see_transport one_frame (writer_task (crc_crate := reference_crc) (aes_crate := reference_aes)
    2 1 (CrcFrames (mkCrcCodec true)) test_limits) []).1 = test_wire) as Hw by (vm_compute; reflexivity).
  destruct (run see_transport one_frame (writer_task _ _ _ _) []) as [tw ?]. cbn [fst] in Hg, Hw.
  destruct (run see_transport one_frame (reader_task _ _ _ _ _) []) as [tr res]. cbv zeta. cbn [fst].
  rewrite Hg, Hw in H. destruct H as (_ & H & _); [by repeat constructor|done|exact H].
Defined.
