(* ===== verification/Supervisor.v ===== *)
(** * The owner of a session

    Models [src/src/msgr/supervisor.rs]: the task that owns the session machine,
    feeds it what the callers, the connection and the connector say, and carries
    out its effects; and the handle through which callers admit requests, cancel
    them and wait for room.  The methods of the owner are programs over the
    channels and tasks it talks to.  The system of handle and owner is a step
    relation, whose steps are the channel operations of the callers and the
    rounds of the owner's loop. *)

From S2P Require Import Prelude Codec Frame Message Address Control Secure SessionState Session Interaction Transport.
From Stdlib Require Import ZArith Lia Strings.Byte.
From stdpp Require Import base option gmap sorting numbers list.

Open Scope Z_scope.

(** ** Data *)

Record ConnectionSetup : Type := mkConnectionSetup {
  cs_codec : FrameCodec;
  cs_requires_identification : bool;
  cs_authenticated_global_id : option Z;
  cs_credential_identity : option (list byte);
  cs_renewal_after : option Z
}.

(** Without the channels on which the caller is answered, which the request
    number stands for. *)
Inductive Command : Type :=
| K_Admit (request_id : Z) (message : Message) (one_way : bool) (control_generation : option Z)
| K_Cancel (request_id : Z)
| K_ConsumeIncoming
| K_RenewalDue
| K_Snapshot.

(** [rs_admitted]: the sender that reports the admission is still there. *)
Record Response : Type := mkResponse { rs_admitted : bool }.

Record ConnectResult : Type := mkConnectResult {
  cr_generation : Z;
  cr_result : result SessionError ConnectionSetup
}.

(** [ow_connection] is the generation of the connection. *)
Record Owner : Type := mkOwner {
  ow_machine : Machine;
  ow_connection : option Z;
  ow_responses : gmap Z Response;
  ow_dropped_events : Z;
  ow_unreported_dropped_events : Z;
  ow_observed_modes : option Z
}.

Definition set_machine (m : Machine) (o : Owner) : Owner :=
  mkOwner m (ow_connection o) (ow_responses o) (ow_dropped_events o) (ow_unreported_dropped_events o)
    (ow_observed_modes o).
Definition set_connection (c : option Z) (o : Owner) : Owner :=
  mkOwner (ow_machine o) c (ow_responses o) (ow_dropped_events o) (ow_unreported_dropped_events o)
    (ow_observed_modes o).
Definition set_responses (r : gmap Z Response) (o : Owner) : Owner :=
  mkOwner (ow_machine o) (ow_connection o) r (ow_dropped_events o) (ow_unreported_dropped_events o)
    (ow_observed_modes o).
Definition set_dropped (dropped unreported : Z) (o : Owner) : Owner :=
  mkOwner (ow_machine o) (ow_connection o) (ow_responses o) dropped unreported (ow_observed_modes o).
Definition set_modes (modes : option Z) (o : Owner) : Owner :=
  mkOwner (ow_machine o) (ow_connection o) (ow_responses o) (ow_dropped_events o)
    (ow_unreported_dropped_events o) modes.

(** How [try_send] ends. *)
Inductive TrySend : Type := Sent | Full | ChannelClosed.

(** What the owner's loop is woken by. *)
Inductive Selected : Type :=
| S_Stop
| S_Command (c : option Command)
| S_ControlCommand (c : Command)
| S_Transport (e : option TransportEvent)
| S_Connect (r : option ConnectResult)
| S_Joined.

(** The calls of the owner. *)
Inductive OwnerE : Type -> Type :=
| W_Select : OwnerE Selected
| W_Connect (generation : Z) : OwnerE unit
| W_Install (generation : Z) (setup : ConnectionSetup) : OwnerE unit
| W_Close (generation : Z) : OwnerE unit
| W_Write (generation : Z) (request_id : option Z) (frame : Frame) : OwnerE bool
| W_Admitted (request_id : Z) (r : result SessionError Z) : OwnerE unit
| W_Result (request_id : Z) (r : result SessionError (option Message)) : OwnerE unit
| W_Incoming (message : Message) (control_generation : Z) : OwnerE bool
| W_Event (e : Event) : OwnerE TrySend
| W_Terminal (e : SessionError) : OwnerE unit
| W_Snapshot (s : Snapshot) : OwnerE unit
| W_Capacity (s : Snapshot) : OwnerE unit
| W_StopConnectors : OwnerE unit.

(** ** Effects *)

Section Owner.
  Context {crc_crate : Crc32cCrate}.

(** [self.machine.step(input)]. *)
Definition Owner_step (o : Owner) (i : Input) : Owner * list Effect :=
  let (m, effects) := step (ow_machine o) i in (set_machine m o, effects).

Definition limits_of (o : Owner) : Limits := cfg_limits (m_config (ow_machine o)).

Definition Owner_send (o : Owner) (generation : Z) (request_id : option Z) (frame : Frame)
    : Prog OwnerE (Owner * list Effect) :=
  r ← (if bool_decide (ow_connection o = Some generation)
       then accepted ← call (W_Write generation request_id frame);
            Ret (if (accepted : bool) then Ok tt else Err SE_Disconnected)
       else Ret (Err SE_Disconnected));
  Ret (match r with
       | Ok _ => (o, [])
       | Err error => Owner_step o (I_WriteComplete generation request_id (Err error))
       end).

(** A frame that cannot be encoded counts as one that cannot be written. *)
Definition Owner_encoded (o : Owner) (generation : Z) (request_id : option Z) (r : result FrameError Frame)
    : Prog OwnerE (Owner * list Effect) :=
  match r with
  | Ok frame => Owner_send o generation request_id frame
  | Err e => Ret (Owner_step o (I_WriteComplete generation request_id (Err (SE_Frame e))))
  end.

Definition count_dropped (o : Owner) : Owner :=
  set_dropped (Z.min u64_max (ow_dropped_events o + 1)) (Z.min u64_max (ow_unreported_dropped_events o + 1)) o.

Definition emit_one (o : Owner) (e : Event) : Prog OwnerE Owner :=
  r ← call (W_Event e);
  Ret (match r with Full => count_dropped o | _ => o end).

Definition Owner_emit_event (o : Owner) (e : Event) : Prog OwnerE Owner :=
  if ow_unreported_dropped_events o =? 0 then emit_one o e
  else
    r ← call (W_Event (E_EventsDropped (ow_dropped_events o)));
    match r with
    | Sent => emit_one (set_dropped (ow_dropped_events o) 0 o) e
    | Full => Ret (count_dropped o)
    | ChannelClosed => Ret o
    end.

(** The answer of an admission, if it is still awaited. *)
Definition answer_admission (o : Owner) (request_id : Z) (r : result SessionError Z) : Prog OwnerE Owner :=
  match ow_responses o !! request_id with
  | Some (mkResponse true) =>
      _ ← call (W_Admitted request_id r);
      Ret (set_responses (<[request_id := mkResponse false]> (ow_responses o)) o)
  | _ => Ret o
  end.

Definition answer_request (o : Owner) (request_id : Z) (a : result SessionError Z)
    (r : result SessionError (option Message)) : Prog OwnerE Owner :=
  match ow_responses o !! request_id with
  | Some response =>
      _ ← (if rs_admitted response then call (W_Admitted request_id a) else Ret tt);
      _ ← call (W_Result request_id r);
      Ret (set_responses (delete request_id (ow_responses o)) o)
  | None => Ret o
  end.

Definition close_connection (o : Owner) (generation : Z) : Prog OwnerE Owner :=
  if bool_decide (ow_connection o = Some generation) then
    _ ← call (W_Close generation); Ret (set_connection None o)
  else Ret o.

Definition deliver_incoming (o : Owner) (message : Message) : Prog OwnerE (Owner * list Effect) :=
  accepted ← call (W_Incoming message (m_control_generation (ow_machine o)));
  Ret (if (accepted : bool) then (o, [])
       else Owner_step o (I_Fault (m_generation (ow_machine o)) SE_QueueSaturated)).

(** No effect comes of an effect but a failed delivery. *)
Definition quietly (p : Prog OwnerE Owner) : Prog OwnerE (Owner * list Effect) := o ← p; Ret (o, []).

Definition apply_effect (o : Owner) (e : Effect) : Prog OwnerE (Owner * list Effect) :=
  match e with
  | F_Connect generation => quietly (_ ← call (W_Connect generation); Ret o)
  | F_CloseTransport generation => quietly (close_connection o generation)
  | F_SendControl generation control =>
      Owner_encoded o generation None (Control_encode control (limits_of o))
  | F_SendMessage generation request_id message =>
      Owner_encoded o generation (Some request_id) (Message_encode message (limits_of o))
  | F_Admitted request_id transaction => quietly (answer_admission o request_id (Ok transaction))
  | F_Completed request_id reply => quietly (answer_request o request_id (Ok 0) (Ok reply))
  | F_Failed request_id error => quietly (answer_request o request_id (Err error) (Err error))
  | F_Incoming message => deliver_incoming o message
  | F_Event e => quietly (Owner_emit_event o e)
  | F_Terminal error => quietly (_ ← call (W_Terminal error); Ret o)
  end.

(** The queue of effects is worked off from the front and extended at the back. *)
Fixpoint apply_loop (fuel : nat) (o : Owner) (pending : list Effect) : Prog OwnerE Owner :=
  match pending with
  | [] => Ret o
  | e :: pending =>
      match fuel with
      | O => Stop StillRunning
      | S fuel => '(o, more) ← apply_effect o e; apply_loop fuel o (pending ++ more)
      end
  end.

(** The effects that can fail, and then extend the queue. *)
Definition can_fail (e : Effect) : bool :=
  match e with
  | F_SendControl _ _ | F_SendMessage _ _ _ | F_Incoming _ => true
  | _ => false
  end.

(** A failure brings at most one effect for each pending request and twelve
    others; [apply_enough] shows that this fuel is enough. *)
Definition apply_fuel (m : Machine) (effects : list Effect) : nat :=
  foldr (fun e n => (if can_fail e then 13 + length (m_pending m) else 1) + n)%nat 0%nat effects.

Definition Owner_apply (o : Owner) (effects : list Effect) : Prog OwnerE Owner :=
  apply_loop (apply_fuel (ow_machine o) effects) o effects.

Fixpoint dispatch_loop (fuel : nat) (o : Owner) : Prog OwnerE Owner :=
  match fuel with
  | O => Stop StillRunning
  | S fuel =>
      let (o, effects) := Owner_step o I_Dispatch in
      match effects with
      | [] => Ret o
      | _ => o ← Owner_apply o effects; dispatch_loop fuel o
      end
  end.

(** Every round but two takes a control message from its queue;
    [dispatch_enough] shows it. *)
Definition Owner_dispatch (o : Owner) : Prog OwnerE Owner :=
  dispatch_loop (3 + length (m_controls (ow_machine o))) o.

Definition Owner_drive (o : Owner) (i : Input) : Prog OwnerE Owner :=
  let (o, effects) := Owner_step o i in
  o ← Owner_apply o effects;
  Owner_dispatch o.

(** ** What the owner receives *)

Definition with_dropped_events (n : Z) (s : Snapshot) : Snapshot :=
  mkSnapshot (s_state s) (s_generation s) (s_next_outbound_sequence s) (s_last_inbound_sequence s)
    (s_next_transaction_id s) (s_client_cookie s) (s_server_cookie s) (s_server_global_id s)
    (s_server_addresses s) (s_server_features s) (s_global_sequence s) (s_connect_sequence s)
    (s_queued s) (s_in_flight s) (s_replay s) (s_retained_bytes s) (s_control_generation s)
    (s_control_messages s) (s_control_bytes s) (s_reconnect_attempts s) (s_handshake_transitions s) n.

Definition admit_input (request_id : Z) (message : Message) (one_way : bool) (control_generation : option Z) : Input :=
  match control_generation with
  | Some generation => I_AdmitControl request_id message generation
  | None => I_Admit request_id message one_way
  end.

Definition Owner_command (o : Owner) (c : Command) : Prog OwnerE Owner :=
  match c with
  | K_Admit request_id message one_way control_generation =>
      Owner_drive (set_responses (<[request_id := mkResponse true]> (ow_responses o)) o)
        (admit_input request_id message one_way control_generation)
  | K_Cancel request_id => Owner_drive o (I_Cancel request_id)
  | K_ConsumeIncoming => Owner_drive o I_ConsumeIncoming
  | K_RenewalDue => Owner_drive o (I_RenewalDue (m_generation (ow_machine o)))
  | K_Snapshot =>
      _ ← call (W_Snapshot (with_dropped_events (ow_dropped_events o) (snapshot (ow_machine o)))); Ret o
  end.

(** The input a frame is for the machine. *)
Definition frame_input (limits : Limits) (generation : Z) (frame : Frame) : Input :=
  if bool_decide (frame_tag frame = T_Message) then
    match Message_decode frame limits with
    | Ok message => I_Message generation message
    | Err e => I_Fault generation (SE_Frame e)
    end
  else
    match Control_decode frame limits with
    | Ok control => I_Control generation control
    | Err e => I_Fault generation (SE_Frame e)
    end.

Definition Owner_transport_event (o : Owner) (e : TransportEvent) : Prog OwnerE Owner :=
  Owner_drive o
    match e with
    | TE_Frame generation frame => frame_input (limits_of o) generation frame
    | TE_WriteComplete generation request_id r => I_WriteComplete generation request_id r
    | TE_Fault generation error => I_Fault generation error
    | TE_RenewalDue generation => I_RenewalDue generation
    end.

(** The new connection takes the place of the old one. *)
Definition Owner_install (o : Owner) (generation : Z) (setup : ConnectionSetup) : Prog OwnerE Owner :=
  let o := set_modes (ObservedModes_record (cs_codec setup) <$> ow_observed_modes o) o in
  _ ← call (W_Install generation setup);
  Ret (set_connection (Some generation) o).

(** The effects of a connection are applied once it is installed. *)
Definition Owner_connect (o : Owner) (setup : ConnectionSetup) (effects : list Effect) : Prog OwnerE Owner :=
  o ← Owner_install o (m_generation (ow_machine o)) setup;
  o ← Owner_apply o effects;
  Owner_dispatch o.

Definition Owner_connected (o : Owner) (r : ConnectResult) : Prog OwnerE Owner :=
  match cr_result r with
  | Ok setup =>
      if cr_generation r =? m_generation (ow_machine o) then
        let (o, effects) := Owner_step o (I_Connected (cr_generation r) (cs_authenticated_global_id setup)
                                            (cs_credential_identity setup)) in
        Owner_connect o setup effects
      else Ret o
  | Err _ => Owner_drive o (I_ConnectFailed (cr_generation r))
  end.

(** One round of the loop, and whether it is the last one. *)
Definition Owner_round (o : Owner) (s : Selected) : Prog OwnerE (Owner * bool) :=
  match s with
  | S_Stop | S_Command None => o ← Owner_drive o I_Stop; Ret (o, true)
  | S_Command (Some c) | S_ControlCommand c => o ← Owner_command o c; Ret (o, false)
  | S_Transport (Some e) => o ← Owner_transport_event o e; Ret (o, false)
  | S_Connect (Some r) => o ← Owner_connected o r; Ret (o, false)
  | S_Transport None | S_Connect None | S_Joined => Ret (o, false)
  end.

Definition Owner_shutdown (o : Owner) : Prog OwnerE Owner :=
  _ ← call W_StopConnectors;
  match ow_connection o with
  | Some generation => _ ← call (W_Close generation); Ret (set_connection None o)
  | None => Ret o
  end.

Definition Owner_new (m : Machine) (modes : option Z) : Owner := mkOwner m None ∅ 0 0 modes.

(** The inputs of an initial connection that needs no identification. *)
Definition initial_steps (o : Owner) (setup : ConnectionSetup) : Owner * list Effect :=
  if cs_requires_identification setup then
    Owner_step o (I_InitialConnection (cs_authenticated_global_id setup) (cs_credential_identity setup))
  else
    let (o, e1) := Owner_step o (I_Start true) in
    let (o, e2) := Owner_step o (I_InitialIdentity (m_generation (ow_machine o))
                                   (cs_authenticated_global_id setup) (cs_credential_identity setup)) in
    (o, e1 ++ e2).

Definition Owner_start (o : Owner) (initial : option ConnectionSetup) : Prog OwnerE Owner :=
  match initial with
  | Some setup => let (o, effects) := initial_steps o setup in Owner_connect o setup effects
  | None => Owner_drive o (I_Start false)
  end.

Fixpoint same_addresses (l k : list EntityAddr) : bool :=
  match l, k with
  | [], [] => true
  | a :: l, b :: k => EntityAddr_eq a b && same_addresses l k
  | _, _ => false
  end.

(** [PartialEq] of snapshots, with that of addresses. *)
Definition Snapshot_eq (a b : Snapshot) : bool :=
  bool_decide (s_state a = s_state b) && same_addresses (s_server_addresses a) (s_server_addresses b)
  && (s_generation a =? s_generation b)
  && (s_next_outbound_sequence a =? s_next_outbound_sequence b)
  && (s_last_inbound_sequence a =? s_last_inbound_sequence b)
  && (s_next_transaction_id a =? s_next_transaction_id b)
  && (s_client_cookie a =? s_client_cookie b)
  && (s_server_cookie a =? s_server_cookie b)
  && (s_server_global_id a =? s_server_global_id b)
  && (s_server_features a =? s_server_features b)
  && (s_global_sequence a =? s_global_sequence b)
  && (s_connect_sequence a =? s_connect_sequence b)
  && (s_queued a =? s_queued b)
  && (s_in_flight a =? s_in_flight b)
  && (s_replay a =? s_replay b)
  && (s_retained_bytes a =? s_retained_bytes b)
  && (s_control_generation a =? s_control_generation b)
  && (s_control_messages a =? s_control_messages b)
  && (s_control_bytes a =? s_control_bytes b)
  && (s_reconnect_attempts a =? s_reconnect_attempts b)
  && (s_handshake_transitions a =? s_handshake_transitions b)
  && (s_dropped_events a =? s_dropped_events b).

(** [capacity_tx.send_if_modified]. *)
Definition publish_capacity (old : Snapshot) (o : Owner) : Prog OwnerE Snapshot :=
  let current := snapshot (ow_machine o) in
  if Snapshot_eq old current then Ret old else _ ← call (W_Capacity current); Ret current.

Fixpoint owner_rounds (rounds : nat) (o : Owner) (published : Snapshot) : Prog OwnerE unit :=
  match rounds with
  | O => Stop StillRunning
  | S rounds =>
      s ← call W_Select;
      '(o, last) ← Owner_round o s;
      if (last : bool) then _ ← Owner_shutdown o; Ret tt
      else published ← publish_capacity published o; owner_rounds rounds o published
  end.

Definition run_owner (rounds : nat) (m : Machine) (initial : option ConnectionSetup) (modes : option Z)
    : Prog OwnerE unit :=
  o ← Owner_start (Owner_new m modes) initial;
  _ ← call (W_Capacity (snapshot (ow_machine o)));
  owner_rounds rounds o (snapshot (ow_machine o)).

End Owner.

(** ** The handle *)

(** The size a message is counted with. *)
Definition message_bytes (m : Message) : result SessionError Z :=
  ok_or (a ← checked_add 64 MESSAGE_HEADER_SIZE (front_len (lengths m));
         b ← checked_add 64 a (middle_len (lengths m));
         checked_add 64 b (data_len (lengths m))) SE_Malformed.

(** There is room for [bytes] behind a snapshot. *)
Definition has_room (queue_limit retained_limit bytes : Z) (s : Snapshot) : bool :=
  (s_queued s + s_in_flight s <? queue_limit)
  && (bytes <=? saturating_sub retained_limit (s_retained_bytes s)).

(** What waiting for room asks: a place among those who wait, the lock that
    puts them in line, and the state of the session. *)
Inductive HandleE : Type -> Type :=
| H_Waiter : HandleE bool
| H_Lock : HandleE unit
| H_Stop : HandleE bool
| H_Terminal : HandleE (option SessionError)
| H_Snapshot : HandleE (result SessionError Snapshot)
| H_Changed : HandleE bool.

Fixpoint capacity_loop (fuel : nat) (queue_limit retained_limit bytes : Z)
    : Prog HandleE (result SessionError unit) :=
  match fuel with
  | O => Stop StillRunning
  | S fuel =>
      stopped ← call H_Stop;
      if (stopped : bool) then Ret (Err SE_Closed)
      else
        terminal ← call H_Terminal;
        match terminal with
        | Some error => Ret (Err error)
        | None =>
            await (call H_Snapshot) (fun snapshot =>
            if has_room queue_limit retained_limit bytes snapshot then Ret (Ok tt)
            else
              changed ← call H_Changed;
              if (changed : bool) then capacity_loop fuel queue_limit retained_limit bytes
              else Ret (Err SE_Closed))
        end
  end.

Definition Session_wait_for_capacity (fuel : nat) (queue_limit retained_limit : Z) (m : Message)
    : Prog HandleE (result SessionError unit) :=
  question (message_bytes m) (fun bytes =>
  if retained_limit <? bytes then Ret (Err SE_QueueSaturated)
  else
    waiter ← call H_Waiter;
    if negb waiter then Ret (Err SE_QueueSaturated)
    else _ ← call H_Lock; capacity_loop fuel queue_limit retained_limit bytes).

(** ** Handle and owner *)

(** What the owner was seen to do. *)
Inductive OwnerObs : Type :=
| Q_Admitted (request_id : Z) (r : result SessionError Z)
| Q_Result (request_id : Z) (r : result SessionError (option Message))
| Q_Incoming (message : Message) (accepted : bool)
| Q_Write (generation : Z) (request_id : option Z) (frame : Frame) (accepted : bool)
| Q_Other.

Definition see_owner (X : Type) (e : OwnerE X) : X -> OwnerObs :=
  match e with
  | W_Admitted request_id r => fun _ => Q_Admitted request_id r
  | W_Result request_id r => fun _ => Q_Result request_id r
  | W_Incoming message _ => Q_Incoming message
  | W_Write generation request_id frame => Q_Write generation request_id frame
  | _ => fun _ => Q_Other
  end.

(** The session as its callers share it: the two command channels, the counter
    of requests, and the owner.  [sv_accepted] and [sv_told] record the
    requests that went into a channel and what the owner did. *)
Record Supervised : Type := mkSupervised {
  sv_next_request_id : Z;
  sv_commands : list Command;
  sv_control_commands : list Command;
  sv_owner : Owner;
  sv_running : bool;
  sv_accepted : list Z;
  sv_told : list OwnerObs
}.

Definition queue_limit (s : Supervised) : Z := max_queued_messages (m_config (ow_machine (sv_owner s))).

Definition push_command (control : bool) (c : Command) (s : Supervised) : Supervised :=
  if control then
    mkSupervised (sv_next_request_id s) (sv_commands s) (sv_control_commands s ++ [c]) (sv_owner s)
      (sv_running s) (sv_accepted s) (sv_told s)
  else
    mkSupervised (sv_next_request_id s) (sv_commands s ++ [c]) (sv_control_commands s) (sv_owner s)
      (sv_running s) (sv_accepted s) (sv_told s).

(** [try_send] on one of the channels. *)
Definition try_send (control : bool) (c : Command) (s : Supervised) : result SessionError Supervised :=
  if negb (sv_running s) then Err SE_Closed
  else if (if control then MAX_CONTROL_MESSAGES <=? zlen (sv_control_commands s)
           else queue_limit s <=? zlen (sv_commands s))
  then Err SE_QueueSaturated
  else Ok (push_command control c s).

Definition accept (request_id : Z) (s : Supervised) : Supervised :=
  mkSupervised (sv_next_request_id s) (sv_commands s) (sv_control_commands s) (sv_owner s)
    (sv_running s) (request_id :: sv_accepted s) (sv_told s).

Definition advance (next : Z) (s : Supervised) : Supervised :=
  mkSupervised next (sv_commands s) (sv_control_commands s) (sv_owner s) (sv_running s)
    (sv_accepted s) (sv_told s).

(** [admit_kind] up to the point where it waits for the admission. *)
Definition Session_admit_kind (message : Message) (one_way : bool) (control_generation : option Z) (s : Supervised)
    : result SessionError Z * Supervised :=
  let request_id := sv_next_request_id s in
  match checked_add 64 request_id 1 with
  | None => (Err SE_TransitionLimit, s)
  | Some next =>
      let s := advance next s in
      match try_send (bool_decide (is_Some control_generation))
              (K_Admit request_id message one_way control_generation) s with
      | Err e => (Err e, s)
      | Ok s => (Ok request_id, accept request_id s)
      end
  end.

(** [admitted_rx.await.map_err(|_| Closed)??]: the channel is closed when the
    owner is gone. *)
Definition admission_result (answer : option (result SessionError Z)) : result SessionError Z :=
  match answer with
  | Some r => r
  | None => Err SE_Closed
  end.

(** [Request::cancel]: [sent] when the command went into the channel. *)
Definition cancel_result (sent : bool) (answer : option (result SessionError (option Message)))
    : result SessionError (option Message) :=
  match answer with
  | Some r => r
  | None => if sent then Err SE_Closed else Err SE_OutcomeUnknown
  end.

(** What wakes the owner. *)
Inductive Wake : Type :=
| Wake_Stop | Wake_Command | Wake_Control | Wake_Dropped
| Wake_Transport (e : option TransportEvent)
| Wake_Connect (r : option ConnectResult)
| Wake_Joined.

Definition receive (w : Wake) (s : Supervised) : option (Selected * Supervised) :=
  match w with
  | Wake_Stop => Some (S_Stop, s)
  | Wake_Command =>
      match sv_commands s with
      | c :: rest =>
          Some (S_Command (Some c),
                mkSupervised (sv_next_request_id s) rest (sv_control_commands s) (sv_owner s)
                  (sv_running s) (sv_accepted s) (sv_told s))
      | [] => None
      end
  | Wake_Dropped => match sv_commands s with [] => Some (S_Command None, s) | _ => None end
  | Wake_Control =>
      match sv_control_commands s with
      | c :: rest =>
          Some (S_ControlCommand c,
                mkSupervised (sv_next_request_id s) (sv_commands s) rest (sv_owner s)
                  (sv_running s) (sv_accepted s) (sv_told s))
      | [] => None
      end
  | Wake_Transport e => Some (S_Transport e, s)
  | Wake_Connect r => Some (S_Connect r, s)
  | Wake_Joined => Some (S_Joined, s)
  end.

Definition after_round (o : Owner) (last : bool) (t : list OwnerObs) (s : Supervised) : Supervised :=
  mkSupervised (sv_next_request_id s) (sv_commands s) (sv_control_commands s) o (negb last)
    (sv_accepted s) (sv_told s ++ t).

Definition is_admission (c : Command) : bool := match c with K_Admit _ _ _ _ => true | _ => false end.

Section Steps.
  Context {crc_crate : Crc32cCrate}.

Inductive supervised_step : Supervised -> Supervised -> Prop :=
| sup_admit s message one_way control_generation :
    supervised_step s (Session_admit_kind message one_way control_generation s).2
| sup_command s s' control c :
    is_admission c = false -> try_send control c s = Ok s' -> supervised_step s s'
| sup_round s w sel s1 answer t o last :
    sv_running s = true -> receive w s = Some (sel, s1) ->
    run see_owner answer (Owner_round (sv_owner s1) sel) [] = (t, Ok (o, last)) ->
    supervised_step s (after_round o last t s1).

(** A session of a configuration, from its start. *)
Inductive supervised (cfg : Config) : Supervised -> Prop :=
| supervised_start m initial modes answer t o :
    Machine_new cfg = Ok m ->
    run see_owner answer (Owner_start (Owner_new m modes) initial) [] = (t, Ok o) ->
    supervised cfg (mkSupervised 1 [] [] o true [] t)
| supervised_next s s' : supervised cfg s -> supervised_step s s' -> supervised cfg s'.

End Steps.
