(* ===== verification/SupervisorProps.v ===== *)
(** * What the owner of a session promises its callers

    The loops of the owner end, every request that goes into a command channel
    is answered exactly once, and the room a caller waits for is the room the
    machine has. *)

From S2P Require Import Prelude Codec Frame Message Address Control Secure SessionState Session SessionInv SessionProps Interaction Transport Supervisor.
From Stdlib Require Import ZArith Lia Strings.Byte Permutation.
From stdpp Require Import base option gmap sorting numbers list.

Open Scope Z_scope.

(** ** How many effects a failure brings *)

(** Effects that answer no request. *)
Definition aside (e : Effect) : Z :=
  match e with F_Completed _ _ | F_Failed _ _ => 0 | _ => 1 end.

(** An operation with at most [n] effects besides answers, none of which can
    fail. *)
Definition mild {A} (n : Z) (x : SM A) (m : Machine) : Prop :=
  weight aside (x m).2 <= n /\ Forall (fun e => can_fail e = false) (x m).2.

Lemma mild_bind {A B} a b (x : SM A) (k : A -> SM B) m :
  mild a x m -> (forall y m1, mild b (k y) m1) -> mild (a + b) (x ≫= k) m.
Proof.
  unfold mild, mbind, SM_bind. intros [Hx Fx] Hk. destruct (x m) as [[y m1] e1]. destruct (Hk y m1) as [Hy Fy].
  destruct (k y m1) as [[z m2] e2]. cbn in *. rewrite weight_app. split; [lia|by apply Forall_app].
Qed.

Lemma mild_le {A} a b (x : SM A) m : a <= b -> mild a x m -> mild b x m.
Proof. intros H [H1 H2]. split; [lia|done]. Qed.

Lemma mild_none {A} (x : SM A) m : (x m).2 = [] -> mild 0 x m.
Proof. intros H. unfold mild. by rewrite H. Qed.

Lemma mild_emit e m : can_fail e = false -> mild 1 (emit e) m.
Proof.
  intros H. split; [|by constructor]. cbn. rewrite weight_cons. change (weight aside []) with 0. destruct e; cbn; lia.
Qed.

Lemma mild_set_state s m : mild 1 (set_state s) m.
Proof.
  unfold set_state. apply (mild_bind 0 1); [by apply mild_none|intros m0 m1].
  destruct (bool_decide _); [by apply (mild_le 0); [lia|apply mild_none]|].
  apply (mild_bind 0 1); [by apply mild_none|intros ? ?]. by apply mild_emit.
Qed.

Lemma mild_fail_requests l : forall m, mild 0 (fail_requests l) m.
Proof.
  induction l as [|[r e] l IH]; intros m; cbn [fail_requests]; [by apply mild_none|].
  apply (mild_bind 0 0); [by apply mild_none|intros ? ?]. apply (mild_bind 0 0); [|intros ? ?; apply IH]. split; [done|by constructor].
Qed.

Lemma mild_fail_all e m : mild 0 (fail_all e) m.
Proof.
  unfold fail_all. rewrite <- (Z.add_0_l 0). apply mild_bind; [by apply mild_none|intros m0 m1].
  apply (mild_bind 0 0); [|intros ? ?; by apply mild_none]. unfold mild, emits. cbn.
  induction (m_pending m0) as [|p l [IH1 IH2]]; [done|]. cbn [map]. rewrite weight_cons. cbn.
  split; [lia|by constructor].
Qed.

Lemma mild_fail_terminal e m : mild 4 (fail_terminal e) m.
Proof.
  unfold fail_terminal. apply (mild_bind 0 4); [by apply mild_none|intros m0 m1].
  destruct (bool_decide _); [by apply (mild_le 0); [lia|apply mild_none]|].
  apply (mild_bind 0 4); [by apply mild_none|intros ? ?].
  apply (mild_bind 1 3); [by apply mild_emit|intros ? ?].
  apply (mild_bind 1 2); [by apply mild_emit|intros ? ?].
  do 3 (apply (mild_bind 0 2); [by apply mild_none|intros ? ?]).
  apply (mild_bind 1 1); [by apply mild_emit|intros ? ?].
  apply (mild_bind 0 1); [apply mild_fail_all|intros ? ?]. apply mild_set_state.
Qed.

Lemma mild_invalidate_controls m : mild 4 invalidate_controls m.
Proof.
  unfold invalidate_controls. apply (mild_bind 0 4); [by apply mild_none|intros m0 m1].
  destruct (checked_add _ _ _).
  - apply (mild_le 0); [lia|]. apply (mild_bind 0 0); [by apply mild_none|intros ? ?].
    apply (mild_bind 0 0); [apply mild_fail_requests|intros ? ?]. by apply mild_none.
  - apply (mild_bind 4 0); [apply mild_fail_terminal|intros ? ?]. by apply mild_none.
Qed.

Lemma mild_fault_pending m : mild 0 fault_pending m.
Proof.
  assert (forall m, mild 0 fail_sent_unknown m) as Hu.
  { intros m1. unfold fail_sent_unknown. apply (mild_bind 0 0); [by apply mild_none|intros ? ?].
    apply (mild_bind 0 0); [apply mild_fail_requests|intros ? ?]. by apply mild_none. }
  unfold fault_pending. apply (mild_bind 0 0); [by apply mild_none|intros m0 m1]. destruct (negb _).
  - apply (mild_bind 0 0); [apply Hu|intros ? ?]. unfold reset_for_new_identity.
    do 6 (apply (mild_bind 0 0); [by apply mild_none|intros ? ?]). apply mild_fail_all.
  - destruct (reconnect_policy _); [apply mild_fail_all|]. destruct (_ =? _); [apply Hu|by apply mild_none].
Qed.

Lemma mild_begin_reconnect m : mild 4 begin_reconnect m.
Proof.
  unfold begin_reconnect. apply (mild_bind 0 4); [by apply mild_none|intros m0 m1]. cbv zeta.
  destruct (_ || _); [apply mild_fail_terminal|].
  do 2 (apply (mild_bind 0 4); [by apply mild_none|intros ? ?]).
  destruct (checked_add _ _ _); [|apply mild_fail_terminal]. apply (mild_le 1); [lia|].
  apply (mild_bind 0 1); [by apply mild_none|intros ? ?]. by apply mild_emit.
Qed.

Lemma mild_fault e m : mild 12 (fault e) m.
Proof.
  unfold fault. apply (mild_bind 0 12); [by apply mild_none|intros m0 m1].
  destruct (_ || _); [by apply (mild_le 0); [lia|apply mild_none]|].
  apply (mild_bind 4 8); [apply mild_invalidate_controls|intros ok ?].
  destruct (negb ok); [by apply (mild_le 0); [lia|apply mild_none]|].
  destruct (bool_decide _); [apply (mild_le 4); [lia|apply mild_fail_terminal]|].
  apply (mild_bind 1 7); [by apply mild_emit|intros ? ?].
  apply (mild_bind 1 6); [by apply mild_emit|intros ? ?].
  do 2 (apply (mild_bind 0 6); [by apply mild_none|intros ? ?]).
  apply (mild_bind 0 6); [apply mild_fault_pending|intros ? ?].
  apply (mild_bind 1 5); [apply mild_set_state|intros ? ?].
  apply (mild_le 4); [lia|apply mild_begin_reconnect].
Qed.

(** The requests a list of effects answers. *)
Definition answered_ids (es : list Effect) : list Z :=
  omap (fun e => match e with F_Completed r _ | F_Failed r _ => Some r | _ => None end) es.

Lemma answered_length es : zlen es = weight aside es + zlen (answered_ids es).
Proof.
  induction es as [|e es IH]; [done|]. rewrite weight_cons, zlen_cons, IH.
  destruct e; cbn [answered_ids omap list_omap aside]; rewrite ?zlen_cons; unfold answered_ids; lia.
Qed.

Lemma count_answered r es : Z.of_nat (count_occ Z.eq_dec (answered_ids es) r) = resolved r es.
Proof.
  unfold resolved. induction es as [|e es IH]; [done|]. rewrite weight_cons, <- IH.
  assert (forall x l, Z.of_nat (count_occ Z.eq_dec (x :: l) r)
    = (if x =? r then 1 else 0) + Z.of_nat (count_occ Z.eq_dec l r)) as Hc.
  { intros x l. cbn [count_occ]. destruct (Z.eq_dec x r), (Z.eqb_spec x r); lia. }
  destruct e; cbn [answered_ids omap list_omap resolves]; rewrite ?Hc; unfold answered_ids; lia.
Qed.

Lemma count_pending r m : Z.of_nat (count_occ Z.eq_dec (map p_request_id (m_pending m)) r) = pend r m.
Proof.
  unfold pend. induction (m_pending m) as [|p l IH]; [done|]. cbn [map count_occ]. rewrite weight_cons, <- IH.
  unfold is_request. destruct (Z.eq_dec _ r) as [->|n]; rewrite ?Z.eqb_refl; [lia|].
  rewrite (proj2 (Z.eqb_neq _ r) n). lia.
Qed.

(** What an operation without new requests answers is no longer pending. *)
Lemma goes_shrinks m m' es :
  goes none m m' es -> zlen (m_pending m') = zlen (m_pending m) - zlen (answered_ids es).
Proof.
  intros [_ Hl _ _ _].
  assert (answered_ids es ++ map p_request_id (m_pending m') ≡ₚ map p_request_id (m_pending m)) as Hp.
  { apply (Permutation_count_occ Z.eq_dec). intros r. rewrite count_occ_app.
    specialize (Hl r). unfold none in Hl. rewrite <- count_answered, <- !count_pending in Hl. lia. }
  apply Permutation_length in Hp. rewrite length_app, !length_map in Hp. unfold zlen. lia.
Qed.

(** ** What callers are told *)

(** Request [r] is registered; its admission is still to be answered. *)
Definition holds (r : Z) (o : Owner) : Z := match ow_responses o !! r with Some _ => 1 | None => 0 end.
Definition awaits (r : Z) (o : Owner) : Z :=
  match ow_responses o !! r with Some (mkResponse true) => 1 | _ => 0 end.

(** How often the result and the admission of [r] were answered. *)
Definition results (r : Z) (t : list OwnerObs) : Z :=
  weight (fun q => match q with Q_Result x _ => if x =? r then 1 else 0 | _ => 0 end) t.
Definition admissions (r : Z) (t : list OwnerObs) : Z :=
  weight (fun q => match q with Q_Admitted x _ => if x =? r then 1 else 0 | _ => 0 end) t.

(** The registered requests are those that are pending or about to be
    answered. *)
Definition balanced (es : list Effect) (o : Owner) : Prop :=
  machine_ok (ow_machine o) /\ forall r, holds r o = pend r (ow_machine o) + resolved r es.

(** Nobody is answered who was not registered, and nobody is forgotten. *)
Definition accounts (o : Owner) (t : list OwnerObs) (o' : Owner) (t' : list OwnerObs) : Prop :=
  forall r, results r t' + holds r o' = results r t + holds r o
    /\ admissions r t' + awaits r o' = admissions r t + awaits r o.

Lemma accounts_trans o t o1 t1 o2 t2 : accounts o t o1 t1 -> accounts o1 t1 o2 t2 -> accounts o t o2 t2.
Proof. intros H1 H2 r. destruct (H1 r), (H2 r). lia. Qed.

Lemma accounts_same o t o' t' :
  ow_responses o' = ow_responses o -> (forall r, results r t' = results r t /\ admissions r t' = admissions r t) ->
  accounts o t o' t'.
Proof. intros Hr Ht r. unfold holds, awaits. rewrite Hr. destruct (Ht r). lia. Qed.

(** A call that answers nobody. *)
Definition silent_obs (q : OwnerObs) : Prop := match q with Q_Admitted _ _ | Q_Result _ _ => False | _ => True end.

Lemma silent_told q t r : silent_obs q -> results r (t ++ [q]) = results r t /\ admissions r (t ++ [q]) = admissions r t.
Proof.
  intros H. unfold results, admissions. rewrite !weight_app, !weight_cons.
  change (weight _ []) with 0. by destruct q; cbn; rewrite ?Z.add_0_r.
Qed.

Lemma told_result r x y t :
  results r (t ++ [Q_Result x y]) = results r t + (if x =? r then 1 else 0)
  /\ admissions r (t ++ [Q_Result x y]) = admissions r t.
Proof.
  unfold results, admissions. rewrite !weight_app, !weight_cons. change (weight _ []) with 0. cbn. lia.
Qed.

Lemma told_admitted r x y t :
  results r (t ++ [Q_Admitted x y]) = results r t
  /\ admissions r (t ++ [Q_Admitted x y]) = admissions r t + (if x =? r then 1 else 0).
Proof.
  unfold results, admissions. rewrite !weight_app, !weight_cons. change (weight _ []) with 0. cbn. lia.
Qed.

Section Owner.
  Context {crc_crate : Crc32cCrate}.

(** What becomes of an effect that fails. *)
Definition failing (e : Effect) (i : Input) : Prop :=
  match e with
  | F_SendControl g _ => exists x, i = I_WriteComplete g None (Err x)
  | F_SendMessage g r _ => exists x, i = I_WriteComplete g (Some r) (Err x)
  | F_Incoming _ => exists g, i = I_Fault g SE_QueueSaturated
  | _ => False
  end.

Definition outcome (o : Owner) (e : Effect) (o' : Owner) (more : list Effect) : Prop :=
  more = [] /\ ow_machine o' = ow_machine o
  \/ exists i, failing e i /\ step (ow_machine o) i = (ow_machine o', more).

(** An effect removes the request it answers. *)
Record carried (e : Effect) (o : Owner) (t : list OwnerObs) (o' : Owner) (more : list Effect) (t' : list OwnerObs)
    : Prop := {
  ca_outcome : outcome o e o' more;
  ca_holds : forall r, holds r o' = (if resolves r e =? 0 then holds r o else 0);
  ca_accounts : accounts o t o' t'
}.

Lemma carried_same e o t o' more t' :
  (forall r, resolves r e = 0) -> outcome o e o' more -> ow_responses o' = ow_responses o ->
  (forall r, results r t' = results r t /\ admissions r t' = admissions r t) -> carried e o t o' more t'.
Proof.
  intros He Ho Hr Ht. constructor; [done| |by apply accounts_same].
  intros r. rewrite He. unfold holds. by rewrite Hr.
Qed.

Lemma Owner_step_eq o i m es : step (ow_machine o) i = (m, es) -> Owner_step o i = (set_machine m o, es).
Proof. unfold Owner_step. by intros ->. Qed.

(** Writing a frame: it is accepted, or the machine is told that it failed. *)
Lemma encoded_carried o e g q r t :
  (forall r, resolves r e = 0) -> (forall x, failing e (I_WriteComplete g q (Err x))) ->
  always see_owner (Owner_encoded o g q r) t (fun t' x => exists o' more, x = Ok (o', more) /\ carried e o t o' more t').
Proof.
  intros He Hf.
  assert (forall x t', (forall r, results r t' = results r t /\ admissions r t' = admissions r t) ->
    exists o' more, @Ok Halted _ (Owner_step o (I_WriteComplete g q (Err x))) = Ok (o', more) /\ carried e o t o' more t') as Hs.
  { intros x t' Ht. destruct (step (ow_machine o) (I_WriteComplete g q (Err x))) as [m es] eqn:E.
    rewrite (Owner_step_eq _ _ _ _ E). do 2 eexists. split; [done|]. apply carried_same; try done.
    right. eexists. split; [apply Hf|done]. }
  unfold Owner_encoded, Owner_send. destruct r as [frame|x]; [|by apply Hs].
  destruct (bool_decide _); [|by apply Hs].
  intros []; cbn -[Owner_step].
  - do 2 eexists. split; [done|]. apply carried_same; try done; [by left|]. intros r. by apply silent_told.
  - apply Hs. intros r. by apply silent_told.
Qed.

Lemma quietly_carried o e p t :
  (forall r, resolves r e = 0) ->
  always see_owner p t (fun t' x => exists o', x = Ok o' /\ ow_machine o' = ow_machine o /\ ow_responses o' = ow_responses o
    /\ forall r, results r t' = results r t /\ admissions r t' = admissions r t) ->
  always see_owner (quietly p) t (fun t' x => exists o' more, x = Ok (o', more) /\ carried e o t o' more t').
Proof.
  intros He Hp. apply always_bind. eapply always_mono; [|exact Hp]. intros t' x (o' & -> & Hm & Hr & Ht).
  do 2 eexists. split; [done|]. apply carried_same; try done. by left.
Qed.

Lemma holds_insert r x v o :
  holds r (set_responses (<[x := v]> (ow_responses o)) o) = (if x =? r then 1 else holds r o).
Proof.
  unfold holds. cbn. destruct (Z.eqb_spec x r) as [->|]; [by rewrite lookup_insert_eq|by rewrite lookup_insert_ne].
Qed.

Lemma holds_delete r x o : holds r (set_responses (delete x (ow_responses o)) o) = (if x =? r then 0 else holds r o).
Proof.
  unfold holds. cbn. destruct (Z.eqb_spec x r) as [->|]; [by rewrite lookup_delete_eq|by rewrite lookup_delete_ne].
Qed.

Lemma awaits_insert r x b o :
  awaits r (set_responses (<[x := mkResponse b]> (ow_responses o)) o) = (if x =? r then if b then 1 else 0 else awaits r o).
Proof.
  unfold awaits. cbn. destruct (Z.eqb_spec x r) as [->|]; [by rewrite lookup_insert_eq|by rewrite lookup_insert_ne].
Qed.

Lemma awaits_delete r x o : awaits r (set_responses (delete x (ow_responses o)) o) = (if x =? r then 0 else awaits r o).
Proof.
  unfold awaits. cbn. destruct (Z.eqb_spec x r) as [->|]; [by rewrite lookup_delete_eq|by rewrite lookup_delete_ne].
Qed.

Lemma holds_Some r o v : ow_responses o !! r = Some v -> holds r o = 1.
Proof. unfold holds. by intros ->. Qed.

Lemma admission_carried o x a t :
  always see_owner (quietly (answer_admission o x (Ok a))) t
    (fun t' y => exists o' more, y = Ok (o', more) /\ carried (F_Admitted x a) o t o' more t').
Proof.
  unfold quietly, answer_admission. destruct (ow_responses o !! x) as [[[]]|] eqn:Hx.
  2,3: do 2 eexists; split; [done|]; apply carried_same; (done || by left).
  intros []. do 2 eexists. split; [done|]. constructor; [by left| |].
  - intros r. rewrite holds_insert. cbn. destruct (Z.eqb_spec x r) as [<-|]; [|done]. by apply holds_Some in Hx.
  - intros r. rewrite holds_insert, awaits_insert. cbn [see_owner]. destruct (told_admitted r x (Ok a) t) as [-> ->].
    unfold holds, awaits. destruct (Z.eqb_spec x r) as [<-|]; [|lia]. rewrite Hx. lia.
Qed.

Lemma answer_carried o e x a b t :
  (forall r, resolves r e = if x =? r then 1 else 0) ->
  always see_owner (quietly (answer_request o x a b)) t
    (fun t' y => exists o' more, y = Ok (o', more) /\ carried e o t o' more t').
Proof.
  intros He. unfold quietly, answer_request. destruct (ow_responses o !! x) as [v|] eqn:Hx.
  2:{ do 2 eexists. split; [done|]. constructor; [by left| |by apply accounts_same].
      intros r. rewrite He. destruct (Z.eqb_spec x r) as [<-|]; [|done]. unfold holds. by rewrite Hx. }
  assert (forall t1, (forall r, results r t1 = results r t
      /\ admissions r t1 = admissions r t + (if x =? r then if rs_admitted v then 1 else 0 else 0)) ->
    exists o' more, @Ok Halted _ (set_responses (delete x (ow_responses o)) o, @nil Effect) = Ok (o', more)
      /\ carried e o t o' more (t1 ++ [Q_Result x b])) as Hend.
  { intros t1 Ht1. do 2 eexists. split; [done|]. constructor; [by left| |].
    - intros r. rewrite He, holds_delete. by destruct (x =? r).
    - intros r. rewrite holds_delete, awaits_delete. destruct (told_result r x b t1) as [-> ->].
      destruct (Ht1 r) as [-> ->]. unfold holds, awaits. destruct (Z.eqb_spec x r) as [<-|]; [|lia].
      rewrite Hx. destruct v as [[]]; cbn; lia. }
  destruct (rs_admitted v) eqn:Hv; cbn.
  - intros [] []. apply Hend. intros r. apply told_admitted.
  - intros []. apply Hend. intros r. split; [done|]. destruct (x =? r); lia.
Qed.

Lemma event_carried o e t :
  always see_owner (Owner_emit_event o e) t (fun t' x => exists o', x = Ok o' /\ ow_machine o' = ow_machine o
    /\ ow_responses o' = ow_responses o /\ forall r, results r t' = results r t /\ admissions r t' = admissions r t).
Proof.
  assert (forall o1 t1, ow_machine o1 = ow_machine o -> ow_responses o1 = ow_responses o ->
    (forall r, results r t1 = results r t /\ admissions r t1 = admissions r t) ->
    always see_owner (emit_one o1 e) t1 (fun t' x => exists o', x = Ok o' /\ ow_machine o' = ow_machine o
      /\ ow_responses o' = ow_responses o /\ forall r, results r t' = results r t /\ admissions r t' = admissions r t)) as H1.
  { intros o1 t1 Hm Hr Ht y. cbn. eexists. split; [done|]. destruct y; cbn; (split; [done|]; split; [done|]);
      intros r; destruct (Ht r) as [<- <-]; by apply silent_told. }
  unfold Owner_emit_event. destruct (_ =? 0); [by apply H1|]. intros [].
  - apply H1; [done|done|]. intros r. by apply silent_told.
  - eexists. split; [done|]. split; [done|]. split; [done|]. intros r. by apply silent_told.
  - eexists. split; [done|]. split; [done|]. split; [done|]. intros r. by apply silent_told.
Qed.

Lemma apply_effect_carried o e t :
  always see_owner (apply_effect o e) t
    (fun t' x => exists o' more, x = Ok (o', more) /\ carried e o t o' more t').
Proof.
  destruct e; cbn [apply_effect].
  - apply quietly_carried; [done|]. intros []. eexists. do 3 (split; [done|]). intros r. by apply silent_told.
  - apply quietly_carried; [done|]. unfold close_connection. destruct (bool_decide _).
    + intros []. eexists. do 3 (split; [done|]). intros r. by apply silent_told.
    + by eexists.
  - apply encoded_carried; [done|]. intros x. by exists x.
  - apply encoded_carried; [done|]. intros x. by exists x.
  - apply admission_carried.
  - by apply answer_carried.
  - by apply answer_carried.
  - unfold deliver_incoming. intros []; cbn -[Owner_step].
    + do 2 eexists. split; [done|]. apply carried_same; try done; [by left|]. intros r. by apply silent_told.
    + destruct (step (ow_machine o) (I_Fault (m_generation (ow_machine o)) SE_QueueSaturated)) as [m es] eqn:E.
      rewrite (Owner_step_eq _ _ _ _ E). do 2 eexists. split; [done|]. apply carried_same; try done.
      * right. eexists. split; [by eexists|done].
      * intros r. by apply silent_told.
  - apply quietly_carried; [done|]. apply event_carried.
  - apply quietly_carried; [done|]. intros []. eexists. do 3 (split; [done|]). intros r. by apply silent_told.
Qed.

(** ** The queue of effects is worked off *)

Lemma failing_step e i m :
  failing e i -> machine_ok m ->
  goes none m (step m i).1 (step m i).2 /\ Forall (fun e => can_fail e = false) (step m i).2
  /\ zlen (step m i).2 + zlen (m_pending (step m i).1) <= zlen (m_pending m) + 12.
Proof.
  intros Hf Hm. pose proof (goes_step m i Hm) as Hg.
  assert (goes none m (step m i).1 (step m i).2) as Hn.
  { eapply goes_ext; [|exact Hg]. intros r. destruct e; try done; by destruct Hf as [? ->]. }
  assert (mild 12 (run_input i) m) as Hi.
  { destruct e; try done; destruct Hf as [x ->]; cbn [run_input].
    1,2: unfold write_complete; apply (mild_bind 0 12); [by apply mild_none|intros m0 m1];
      destruct (negb _); [by apply (mild_le 0); [lia|apply mild_none]|];
      apply (mild_bind 0 12); [by apply mild_none|intros ? ?]; apply mild_fault.
    unfold current. apply (mild_bind 0 12); [by apply mild_none|intros m0 m1].
    destruct (_ =? _); [apply mild_fault|by apply (mild_le 0); [lia|apply mild_none]]. }
  split; [done|]. apply goes_shrinks in Hn as Hz. revert Hi Hz. unfold step, mild.
  destruct (run_input i m) as [[[] m'] es]. cbn [fst snd]. intros [H1 H2] Hz. split; [done|].
  pose proof (answered_length es). lia.
Qed.

Lemma resolves_nonneg r e : 0 <= resolves r e.
Proof. destruct e; cbn; repeat case_match; lia. Qed.

Lemma resolved_nonneg r es : 0 <= resolved r es.
Proof. apply weight_nonneg. rewrite Forall_forall. intros e _. apply resolves_nonneg. Qed.

Lemma holds_bounds r o : 0 <= holds r o <= 1.
Proof. unfold holds. destruct (_ !! r); lia. Qed.

Lemma pend_nonneg r m : 0 <= pend r m.
Proof. apply weight_nonneg. rewrite Forall_forall. intros q _. unfold is_request. case_match; lia. Qed.

Lemma carried_balanced e es o t o' more t' :
  balanced (e :: es) o -> carried e o t o' more t' ->
  balanced (es ++ more) o' /\ Forall (fun e => can_fail e = false) more
  /\ (if can_fail e then zlen more + zlen (m_pending (ow_machine o')) <= zlen (m_pending (ow_machine o)) + 12
      else more = [] /\ ow_machine o' = ow_machine o).
Proof.
  intros [Hm Hb] [Ho Hh _]. destruct Ho as [[-> Hs]|(i & Hf & Hs)].
  - rewrite app_nil_r. split; [split; [by rewrite Hs|]|]; [|split; [done|]; rewrite Hs; destruct (can_fail e)].
    2: change (zlen (@nil Effect)) with 0; lia. 2: done.
    intros r. rewrite Hh, Hs. specialize (Hb r). unfold resolved in *. rewrite weight_cons in Hb.
    pose proof (holds_bounds r o). pose proof (pend_nonneg r (ow_machine o)).
    pose proof (resolved_nonneg r es). unfold resolved in *. pose proof (resolves_nonneg r e).
    destruct (Z.eqb_spec (resolves r e) 0); lia.
  - destruct (failing_step _ _ _ Hf Hm) as (Hg & Hc & Hl). rewrite Hs in Hg, Hc, Hl. cbn in Hg, Hc, Hl.
    assert (forall r, resolves r e = 0) as He by (by destruct e).
    split; [split; [apply Hg|]|split; [done|]; destruct e; done].
    intros r. rewrite Hh, He, Hb, resolved_app. destruct Hg as [_ Hg _ _ _]. specialize (Hg r). unfold none in Hg.
    unfold resolved in *. rewrite weight_cons, He. cbn. lia.
Qed.

Lemma apply_fuel_app m es es' : apply_fuel m (es ++ es') = (apply_fuel m es + apply_fuel m es')%nat.
Proof. unfold apply_fuel. induction es as [|e es IH]; [done|]. cbn [app foldr]. rewrite IH. lia. Qed.

Lemma apply_fuel_mono m m' es :
  zlen (m_pending m') <= zlen (m_pending m) -> (apply_fuel m' es <= apply_fuel m es)%nat.
Proof.
  unfold zlen, apply_fuel. intros H. induction es as [|e es IH]; [done|]. cbn [foldr]. destruct (can_fail e); lia.
Qed.

Lemma apply_fuel_mild m es : Forall (fun e => can_fail e = false) es -> apply_fuel m es = length es.
Proof. unfold apply_fuel. induction 1 as [|e es He _ IH]; [done|]. cbn [foldr length]. rewrite He, IH. done. Qed.

(** The machine behind the effects: the only ones that touch it are those that
    fail. *)
Definition left_by (m : Machine) (es : list Effect) (m' : Machine) : Prop :=
  (Forall (fun e => can_fail e = false) es -> m' = m)
  /\ (forall e, es = [e] -> m' = m \/ exists i, failing e i /\ m' = (step m i).1).

Lemma apply_enough fuel : forall o es t,
  balanced es o -> (apply_fuel (ow_machine o) es <= fuel)%nat ->
  always see_owner (apply_loop fuel o es) t
    (fun t' x => exists o', x = Ok o' /\ balanced [] o' /\ accounts o t o' t' /\ left_by (ow_machine o) es (ow_machine o')).
Proof.
  induction fuel as [|fuel IH]; intros o es t Hb Hf; destruct es as [|e es]; cbn [apply_loop].
  1,3: exists o; split; [done|]; split; [done|]; split; [by apply accounts_same|by split].
  { unfold apply_fuel in Hf. cbn in Hf. destruct (can_fail e); lia. }
  apply always_bind. eapply always_mono; [|apply apply_effect_carried].
  intros t1 x (o1 & more & -> & Hc). destruct (carried_balanced _ _ _ _ _ _ _ Hb Hc) as (Hb1 & Hm & Hl).
  assert (zlen (m_pending (ow_machine o1)) <= zlen (m_pending (ow_machine o))) as Hp.
  { pose proof Hc.(ca_outcome _ _ _ _ _ _) as [[_ ->]|(i & Hi & Hs)]; [lia|].
    destruct (failing_step _ _ _ Hi (proj1 Hb)) as (Hg & _). apply goes_shrinks in Hg. rewrite Hs in Hg. cbn [fst snd] in Hg.
    pose proof (zlen_nonneg (answered_ids more)). lia. }
  eapply always_mono; [|apply IH; [done|]].
  - intros t2 x (o2 & -> & Hb2 & Ha & Hl1 & Hl2). exists o2. split; [done|]. split; [done|].
    split; [by eapply accounts_trans; [apply Hc|]|]. split.
    + intros Hall. apply Forall_cons in Hall as [He Hall]. rewrite He in Hl. destruct Hl as [-> <-].
      apply Hl1. by rewrite app_nil_r.
    + intros e' [= -> ->]. rewrite (Hl1 Hm). destruct Hc.(ca_outcome _ _ _ _ _ _) as [[_ ->]|(i & Hi & Hs)]; [by left|].
      right. exists i. split; [done|]. by rewrite Hs.
  - rewrite apply_fuel_app, (apply_fuel_mild _ more) by done.
    apply (apply_fuel_mono _ _ es) in Hp. unfold apply_fuel in Hf. cbn [foldr] in Hf. fold (apply_fuel (ow_machine o) es) in Hf.
    destruct (can_fail e); [unfold zlen in Hl; lia|]. destruct Hl as [-> _]. cbn. lia.
Qed.

Lemma Owner_apply_always o es t :
  balanced es o ->
  always see_owner (Owner_apply o es) t
    (fun t' x => exists o', x = Ok o' /\ balanced [] o' /\ accounts o t o' t' /\ left_by (ow_machine o) es (ow_machine o')).
Proof. intros Hb. by apply apply_enough. Qed.

(** ** The dispatch loop ends *)

(** Nothing is dispatched. *)
Definition resting (m : Machine) : bool :=
  m_write_busy m || bool_decide (m_state m = Disconnected) || bool_decide (m_state m = Wait)
  || bool_decide (m_state m = Stopped).

Lemma resting_dispatch m : resting m = true -> step m I_Dispatch = (m, []).
Proof.
  intros H. unfold step. cbn [run_input]. unfold dispatch. rewrite gets_bind. unfold id.
  unfold resting in H. by rewrite H.
Qed.

(** What a dispatch with effects leaves: a session that is down, or one frame
    on its way, whose failure the machine will not ignore unless the queue of
    control messages got shorter. *)
Definition sends (m m' : Machine) (es : list Effect) : Prop :=
  m_state m' = Disconnected /\ Forall (fun e => can_fail e = false) es
  \/ exists e, es = [e] /\ m_write_busy m' = true
     /\ (forall i, failing e i -> exists q x, i = I_WriteComplete (m_generation m') q (Err x))
     /\ ((length (m_controls m') < length (m_controls m))%nat \/ faultless m' = false).

Lemma send_sends m i q m1 m' es :
  m_state m1 = Ready -> m_terminal_error m1 = None ->
  (let '(_, m2, e2) := send i q m1 in (m2, e2)) = (m', es) -> sends m m' es.
Proof.
  intros H1 H2. unfold send. rewrite gets_bind. unfold id, mbind, SM_bind, modify, emit.
  intros [= <- <-]. right. eexists. split; [done|]. unfold sent_at.
  destruct (bool_decide (p_request_id q ∈ _)); cbn; split_and!; try done.
  all: try (intros j [x ->]; by do 2 eexists).
  all: right; unfold faultless; cbn; by rewrite H1, H2.
Qed.

Lemma fault_sends m e m1 m' es :
  (let '(_, m2, e2) := fault e m1 in (m2, e2)) = (m', es) -> es <> [] -> sends m m' es.
Proof.
  pose proof (fault_outcome e m1) as Ho. pose proof (mild_fault e m1) as [_ Hf]. destruct (faultless m1).
  - rewrite Ho. by intros [= <- <-].
  - destruct (fault e m1) as [[[] m2] e2]. cbn in *. intros [= <- <-] _. by left.
Qed.

Lemma fail_terminal_sends m e m1 m' es :
  (let '(_, m2, e2) := fail_terminal e m1 in (m2, e2)) = (m', es) -> es <> [] -> sends m m' es.
Proof.
  pose proof (fail_terminal_halts e m1) as Hh. pose proof (mild_fail_terminal e m1) as [_ Hf].
  destruct Hh as [->|Hh]; [by intros [= <- <-]|].
  destruct (fail_terminal e m1) as [[[] m2] e2]. cbn in *. intros [= <- <-] _. by left.
Qed.

Lemma dispatch_request_sends m m' es :
  machine_ok m -> m_state m = Ready ->
  (let '(_, m2, e2) := dispatch_request m in (m2, e2)) = (m', es) -> es <> [] -> sends m m' es.
Proof.
  intros Hm Hs. unfold dispatch_request. rewrite gets_bind. unfold id.
  destruct (select _ _ _ _) as [i|]; [|by intros [= <- <-]].
  destruct (m_pending m !! i) as [p|] eqn:Hp; [|by intros [= <- <-]].
  assert (m_terminal_error m = None) as Ht.
  { destruct (m_terminal_error m) eqn:E; [|done]. pose proof (mo_terminal _ Hm ltac:(by rewrite E)) as Hnil.
    by rewrite Hnil in Hp. }
  destruct (_ =? 0); [|intros H _; by eapply send_sends].
  unfold allocate_sequence, mbind at 1, SM_bind at 1. rewrite gets_bind. unfold id.
  destruct (m_next_outbound m) as [n|].
  - destruct (take_counter n) as [v next]. unfold mbind, SM_bind, modify, mret, SM_ret.
    intros H _. eapply (send_sends m i (sequenced v p) (with_next_outbound next m)); [done|done|].
    by destruct (send i _ _) as [[? ?] ?].
  - cbn [mret SM_ret]. intros H He. eapply (fail_terminal_sends m SE_TransitionLimit m); [|done].
    by destruct (fail_terminal _ m) as [[? ?] ?].
Qed.

Lemma dispatch_sends m m' es :
  machine_ok m -> step m I_Dispatch = (m', es) -> es <> [] -> sends m m' es.
Proof.
  intros Hm. unfold step. cbn [run_input]. unfold dispatch. rewrite gets_bind. unfold id.
  destruct (_ || _) eqn:Hr; [by intros [= <- <-]|].
  destruct (m_controls m) as [|c cs] eqn:Hc.
  2:{ cbn. intros [= <- <-] _. right. eexists. split; [done|]. cbn. rewrite Hc. cbn. split_and!; [done| |left; lia].
      intros i [x ->]. by do 2 eexists. }
  destruct (bool_decide (m_state m <> Ready)) eqn:Hs; [by intros [= <- <-]|].
  apply bool_decide_eq_false, dec_stable in Hs.
  destruct (bool_decide (m_renewal m = R_Draining) && _); [|by apply dispatch_request_sends].
  destruct (in_flight_count m =? 0); [|by intros [= <- <-]]. intros H He.
  eapply (fault_sends m SE_Renewal (with_renewal R_Reconnecting m)); [|done]. revert H.
  unfold mbind, SM_bind, modify. by destruct (fault _ _) as [[? ?] ?].
Qed.

(** A frame that could not be written. *)
Lemma write_failed m q x :
  resting (step m (I_WriteComplete (m_generation m) q (Err x))).1 = true
  \/ faultless m = true
     /\ m_controls (step m (I_WriteComplete (m_generation m) q (Err x))).1 = m_controls m.
Proof.
  unfold step. cbn [run_input]. unfold write_complete. rewrite gets_bind. unfold id. rewrite Z.eqb_refl. cbn [negb].
  unfold mbind, SM_bind, modify. pose proof (fault_outcome x (with_write_busy false m)) as Ho.
  change (faultless (with_write_busy false m)) with (faultless m) in Ho. destruct (faultless m).
  - right. by rewrite Ho.
  - left. destruct (fault x _) as [[? m2] e2]. cbn in *. unfold resting. rewrite Ho. by destruct (m_write_busy m2).
Qed.

Lemma step_balanced o i o' es :
  (forall r, admits r i = 0) -> balanced [] o -> Owner_step o i = (o', es) ->
  balanced es o' /\ ow_responses o' = ow_responses o /\ step (ow_machine o) i = (ow_machine o', es).
Proof.
  intros Hi [Hm Hb]. unfold Owner_step. pose proof (goes_step (ow_machine o) i Hm) as Hg.
  destruct (step (ow_machine o) i) as [m es']. intros [= <- <-]. cbn in Hg |- *. split; [|done].
  split; [apply Hg|]. intros r. cbn. change (holds r o = pend r m + resolved r es'). rewrite Hb, resolved_nil.
  destruct Hg as [_ Hg _ _ _]. specialize (Hg r). cbv beta in Hg. rewrite Hi in Hg. lia.
Qed.

Lemma dispatch_enough fuel : forall o t,
  balanced [] o -> (resting (ow_machine o) = true /\ 1 <= fuel \/ 2 + length (m_controls (ow_machine o)) <= fuel)%nat ->
  always see_owner (dispatch_loop fuel o) t
    (fun t' x => exists o', x = Ok o' /\ balanced [] o' /\ accounts o t o' t').
Proof.
  induction fuel as [|fuel IH]; intros o t Hb Hf; [lia|]. cbn [dispatch_loop].
  destruct (Owner_step o I_Dispatch) as [o1 es] eqn:E. apply step_balanced in E as (Hb1 & Hr & E); [|done|done].
  destruct es as [|e es]; [exists o1; split; [done|]; split; [done|]; by apply accounts_same|].
  destruct Hf as [[Hf _]|Hf]; [by rewrite (resting_dispatch _ Hf) in E|].
  apply always_bind. eapply always_mono; [|apply Owner_apply_always; exact Hb1].
  intros t1 x (o2 & -> & Hb2 & Ha & Hl1 & Hl2). eapply always_mono; [|apply IH; [done|]].
  - intros t2 x (o3 & -> & Hb3 & Ha3). exists o3. split; [done|]. split; [done|].
    eapply accounts_trans; [|done]. eapply accounts_trans; [|exact Ha]. by apply accounts_same.
  - destruct (dispatch_sends _ _ _ (proj1 Hb) E) as [[Hs Hc]|(e' & He & Hw & Hi & Hc)]; [done| |].
    + left. split; [|lia]. rewrite (Hl1 Hc). unfold resting. rewrite Hs. by destruct (m_write_busy _).
    + destruct (Hl2 _ He) as [->|(i & Hfi & ->)]; [left; split; [|lia]; unfold resting; by rewrite Hw|].
      destruct (Hi _ Hfi) as (q & y & ->). destruct (write_failed (ow_machine o1) q y) as [Hre|[Hfl Hco]].
      * left. split; [done|lia].
      * right. rewrite Hco. destruct Hc as [Hc|Hc]; [lia|by rewrite Hc in Hfl].
Qed.

(** A method of the owner that keeps everything in balance, from a machine that
    the requests [extra] are new to. *)
Definition serves {A} (o : Owner) (p : Prog OwnerE A) (owner : A -> Owner) : Prop :=
  forall t, always see_owner p t
    (fun t' x => exists a, x = Ok a /\ balanced [] (owner a) /\ accounts o t (owner a) t').

Lemma Owner_dispatch_serves o : balanced [] o -> serves o (Owner_dispatch o) id.
Proof. intros Hb t. apply dispatch_enough; [done|right; lia]. Qed.

Lemma applied_serves o es : balanced es o -> serves o (o ← Owner_apply o es; Owner_dispatch o) id.
Proof.
  intros Hb t. apply always_bind. eapply always_mono; [|by apply Owner_apply_always].
  intros t1 x (o1 & -> & Hb1 & Ha & _). eapply always_mono; [|by apply Owner_dispatch_serves].
  intros t2 x (o2 & -> & Hb2 & Ha2). exists o2. split; [done|]. split; [done|]. by eapply accounts_trans.
Qed.

Lemma serves_from o o' p : ow_responses o' = ow_responses o -> serves o' p id -> serves o p id.
Proof.
  intros Hr Hp t. eapply always_mono; [|apply Hp]. intros t1 x (o1 & -> & Hb & Ha). exists o1. split; [done|].
  split; [done|]. eapply accounts_trans; [|exact Ha]. by apply accounts_same.
Qed.

Lemma drive_serves o i : (forall r, admits r i = 0) -> balanced [] o -> serves o (Owner_drive o i) id.
Proof.
  intros Hi Hb. unfold Owner_drive. destruct (Owner_step o i) as [o1 es] eqn:E.
  apply step_balanced in E as (Hb1 & Hr & _); [|done|done]. eapply serves_from; [exact Hr|]. by apply applied_serves.
Qed.

(** The owner with a new request. *)
Definition registered (r : Z) (o : Owner) : Owner := set_responses (<[r := mkResponse true]> (ow_responses o)) o.

Lemma admit_serves o r msg one_way cg :
  balanced [] o -> holds r o = 0 -> serves (registered r o) (Owner_command o (K_Admit r msg one_way cg)) id.
Proof.
  intros [Hm Hb] Hr. cbn [Owner_command]. fold (registered r o). unfold Owner_drive, Owner_step.
  set (i := admit_input r msg one_way cg). pose proof (goes_step (ow_machine o) i Hm) as Hg.
  change (ow_machine (registered r o)) with (ow_machine o). destruct (step (ow_machine o) i) as [m es]. cbn in Hg.
  eapply serves_from; [|apply applied_serves]; [done|]. split; [apply Hg|]. intros x.
  change (holds x (set_machine m (registered r o))) with (holds x (registered r o)). unfold registered.
  rewrite holds_insert. destruct Hg as [_ Hg _ _ _]. specialize (Hg x). specialize (Hb x). rewrite resolved_nil in Hb.
  assert (admits x i = if r =? x then 1 else 0) as Hi by (by destruct cg). rewrite Hi in Hg. cbn.
  destruct (Z.eqb_spec r x) as [<-|]; lia.
Qed.

Lemma connect_serves o setup es : balanced es o -> serves o (Owner_connect o setup es) id.
Proof.
  intros Hb t. unfold Owner_connect, Owner_install. apply always_bind, always_bind. intros []. cbn [always].
  eapply always_mono; [|by apply (applied_serves (set_connection (Some (m_generation (ow_machine o)))
    (set_modes (ObservedModes_record (cs_codec setup) <$> ow_observed_modes o) o)) es)].
  intros t1 x (o1 & -> & Hb1 & Ha). exists o1. split; [done|]. split; [done|].
  eapply accounts_trans; [|exact Ha]. apply accounts_same; [done|]. intros r. by apply silent_told.
Qed.

Lemma connected_serves o r : balanced [] o -> serves o (Owner_connected o r) id.
Proof.
  intros Hb. unfold Owner_connected. destruct (cr_result r) as [setup|]; [|by apply drive_serves].
  destruct (_ =? _); [|intros t; exists o; split; [done|]; split; [done|]; by apply accounts_same].
  destruct (Owner_step o _) as [o1 es] eqn:E. apply step_balanced in E as (Hb1 & Hr & _); [|done|done].
  eapply serves_from; [exact Hr|]. by apply connect_serves.
Qed.

Lemma command_serves o c : is_admission c = false -> balanced [] o -> serves o (Owner_command o c) id.
Proof.
  intros Hc Hb. destruct c; [done|by apply drive_serves..|]. intros t []. exists o. split; [done|]. split; [done|].
  apply accounts_same; [done|]. intros r. by apply silent_told.
Qed.

Lemma start_serves m modes initial :
  machine_ok m -> m_pending m = [] -> serves (Owner_new m modes) (Owner_start (Owner_new m modes) initial) id.
Proof.
  intros Hm Hp. assert (balanced [] (Owner_new m modes)) as Hb.
  { split; [done|]. intros r. unfold holds, pend. cbn. rewrite Hp, lookup_empty. done. }
  unfold Owner_start. destruct initial as [setup|]; [|by apply drive_serves]. unfold initial_steps.
  destruct (cs_requires_identification setup).
  - destruct (Owner_step _ _) as [o1 es] eqn:E. apply step_balanced in E as (Hb1 & Hr & _); [|done|done].
    eapply serves_from; [exact Hr|]. by apply connect_serves.
  - destruct (Owner_step _ (I_Start true)) as [o1 e1] eqn:E1. apply step_balanced in E1 as (Hb1 & Hr1 & _); [|done|done].
    destruct (Owner_step o1 _) as [o2 e2] eqn:E2.
    assert (balanced (e1 ++ e2) o2 /\ ow_responses o2 = ow_responses o1) as [Hb2 Hr2].
    { revert E2. unfold Owner_step. destruct Hb1 as [Hm1 Hb1].
      set (i := I_InitialIdentity _ _ _). pose proof (goes_step (ow_machine o1) i Hm1) as Hg.
      destruct (step (ow_machine o1) i) as [m2 es2]. intros [= <- <-]. split; [|done]. split; [apply Hg|].
      intros r. change (holds r (set_machine m2 o1)) with (holds r o1). rewrite Hb1, resolved_app. cbn.
      destruct Hg as [_ Hg _ _ _]. specialize (Hg r). cbn in Hg. lia. }
    eapply serves_from; [by rewrite Hr2|]. by apply connect_serves.
Qed.

(** After the stop nobody is registered. *)
Lemma stop_serves o t :
  balanced [] o ->
  always see_owner (Owner_drive o I_Stop) t
    (fun t' x => exists o', x = Ok o' /\ balanced [] o' /\ accounts o t o' t' /\ forall r, holds r o' = 0).
Proof.
  intros Hb. unfold Owner_drive. destruct (Owner_step o I_Stop) as [o1 es] eqn:E.
  apply step_balanced in E as (Hb1 & Hr & E); [|done|done].
  assert (m_state (ow_machine o1) = Stopped /\ Forall (fun e => can_fail e = false) es) as [Hs Hc].
  { revert E. unfold step. cbn [run_input]. unfold stop. rewrite gets_bind. unfold id.
    destruct (bool_decide (m_state (ow_machine o) = Stopped)) eqn:Hd.
    { intros [= <- <-]. by apply bool_decide_eq_true in Hd. }
    intros H. assert (mild 2 (_ ← set_state Stopped; _ ← fail_all SE_Closed; _ ← modify (with_connect_pending false);
      emit (F_CloseTransport (m_generation (ow_machine o)))) (ow_machine o)) as [_ Hm].
    { apply (mild_bind 1 1); [apply mild_set_state|intros ? ?]. apply (mild_bind 0 1); [apply mild_fail_all|intros ? ?].
      apply (mild_bind 0 1); [by apply mild_none|intros ? ?]. by apply mild_emit. }
    revert H Hm. unfold mbind, SM_bind, modify, emit. pose proof (set_state_state Stopped (ow_machine o)) as Hs.
    destruct (set_state Stopped _) as [[? m1] e1]. cbn in Hs. cbn. intros [= <- <-] Hm. by split. }
  apply always_bind. eapply always_mono; [|by apply Owner_apply_always].
  intros t1 x (o2 & -> & Hb2 & Ha & Hl & _). specialize (Hl Hc).
  unfold Owner_dispatch. cbn [dispatch_loop Nat.add].
  assert (step (ow_machine o2) I_Dispatch = (ow_machine o2, [])) as Hd.
  { apply resting_dispatch. unfold resting. rewrite Hl, Hs. by destruct (m_write_busy _). }
  rewrite (Owner_step_eq _ _ _ _ Hd). cbn [always]. eexists. split; [done|]. split; [done|]. split.
  - eapply accounts_trans; [|by apply accounts_same]. eapply accounts_trans; [|exact Ha]. by apply accounts_same.
  - intros r. change (holds r o2 = 0). destruct Hb2 as [Hm2 Hb2]. rewrite Hb2, resolved_nil. unfold pend.
    rewrite (mo_stopped _ Hm2); [done|]. by rewrite Hl.
Qed.

Lemma transport_serves o e : balanced [] o -> serves o (Owner_transport_event o e) id.
Proof.
  intros Hb. unfold Owner_transport_event. apply drive_serves; [|done]. intros r.
  destruct e; try done. unfold frame_input. repeat case_match; done.
Qed.

(** The request a round is about to register. *)
Definition admitting (sel : Selected) : option Z :=
  match sel with
  | S_Command (Some (K_Admit r _ _ _)) | S_ControlCommand (K_Admit r _ _ _) => Some r
  | _ => None
  end.

Definition before_round (sel : Selected) (o : Owner) : Owner :=
  match admitting sel with Some r => registered r o | None => o end.

Lemma round_serves o sel t :
  balanced [] o -> (forall r, admitting sel = Some r -> holds r o = 0) ->
  always see_owner (Owner_round o sel) t
    (fun t' x => exists o' last, x = Ok (o', last) /\ balanced [] o' /\ accounts (before_round sel o) t o' t'
      /\ (last = true -> forall r, holds r o' = 0)).
Proof.
  intros Hb Hr.
  assert (forall p, serves (before_round sel o) p id ->
    always see_owner (o1 ← p; Ret (o1, false)) t
      (fun t' x => exists o' last, x = Ok (o', last) /\ balanced [] o' /\ accounts (before_round sel o) t o' t'
        /\ (last = true -> forall r, holds r o' = 0))) as Hgo.
  { intros p Hp. apply always_bind. eapply always_mono; [|apply Hp]. intros t1 x (o1 & -> & Hb1 & Ha1).
    exists o1, false. by split_and!. }
  assert (forall c, (forall r, admitting (S_ControlCommand c) = Some r -> holds r o = 0) ->
    serves (before_round (S_ControlCommand c) o) (Owner_command o c) id) as Hcmd.
  { intros c Hc. destruct c; [|by apply command_serves..]. apply admit_serves; [done|]. by apply Hc. }
  assert (always see_owner (o1 ← Owner_drive o I_Stop; Ret (o1, true)) t
    (fun t' x => exists o' last, x = Ok (o', last) /\ balanced [] o' /\ accounts o t o' t'
      /\ (last = true -> forall r, holds r o' = 0))) as Hstop.
  { apply always_bind. eapply always_mono; [|by apply stop_serves]. intros t1 x (o1 & -> & Hb1 & Ha1 & Hh).
    exists o1, true. by split_and!. }
  destruct sel as [|[c|]|c|[e|]|[r|]|]; cbn [Owner_round]; try exact Hstop.
  1,2: apply Hgo; by apply Hcmd.
  all: try (exists o, false; split_and!; [done|done|by apply accounts_same|done]).
  - apply Hgo. by apply transport_serves.
  - apply Hgo. by apply connected_serves.
Qed.

(** ** Handle and owner *)

Definition admit_of (r : Z) (c : Command) : Z :=
  match c with K_Admit x _ _ _ => if x =? r then 1 else 0 | _ => 0 end.

(** How often request [r] is in a channel, and was put there. *)
Definition in_channels (r : Z) (s : Supervised) : Z :=
  weight (admit_of r) (sv_commands s) + weight (admit_of r) (sv_control_commands s).
Definition accepted (r : Z) (s : Supervised) : Z := if bool_decide (r ∈ sv_accepted s) then 1 else 0.

Record supervised_ok (s : Supervised) : Prop := {
  so_balanced : balanced [] (sv_owner s);
  so_accepted : Forall (fun r => 1 <= r < sv_next_request_id s) (sv_accepted s);
  so_next : 1 <= sv_next_request_id s;
  so_once : forall r, in_channels r s + holds r (sv_owner s) + results r (sv_told s) = accepted r s;
  so_admission : forall r, admissions r (sv_told s) + awaits r (sv_owner s) = results r (sv_told s) + holds r (sv_owner s);
  so_ended : sv_running s = false -> forall r, holds r (sv_owner s) = 0
}.

Lemma weight_nonneg_fn {A} (w : A -> Z) l : (forall a, 0 <= w a) -> 0 <= weight w l.
Proof. intros H. apply weight_nonneg. rewrite Forall_forall. intros a _. apply H. Qed.

Lemma admit_of_nonneg r c : 0 <= admit_of r c.
Proof. destruct c; cbn; try lia. destruct (_ =? _); lia. Qed.

Lemma in_channels_nonneg r s : 0 <= in_channels r s.
Proof. unfold in_channels. pose proof (weight_nonneg_fn (admit_of r)) as H. pose proof (H (sv_commands s) (admit_of_nonneg r)).
  pose proof (H (sv_control_commands s) (admit_of_nonneg r)). lia. Qed.

Lemma results_nonneg r t : 0 <= results r t.
Proof. apply weight_nonneg_fn. intros []; try lia. destruct (_ =? _); lia. Qed.

Lemma weight_snoc {A} (w : A -> Z) l x : weight w (l ++ [x]) = weight w l + w x.
Proof. rewrite weight_app, weight_cons. change (weight w []) with 0. lia. Qed.

Lemma push_in_channels control c s r : in_channels r (push_command control c s) = in_channels r s + admit_of r c.
Proof. unfold in_channels, push_command. destruct control; cbn; rewrite weight_snoc; lia. Qed.

Lemma push_rest control c s :
  sv_owner (push_command control c s) = sv_owner s /\ sv_told (push_command control c s) = sv_told s
  /\ sv_accepted (push_command control c s) = sv_accepted s /\ sv_running (push_command control c s) = sv_running s
  /\ sv_next_request_id (push_command control c s) = sv_next_request_id s.
Proof. by destruct control. Qed.

Lemma try_send_inv control c s s' : try_send control c s = Ok s' -> sv_running s = true /\ s' = push_command control c s.
Proof.
  unfold try_send. destruct (sv_running s); cbn; [|done]. destruct (if control then _ else _); [done|].
  intros H. by apply Ok_inj in H as <-.
Qed.

Lemma admit_kind_ok message one_way cg s : supervised_ok s -> supervised_ok (Session_admit_kind message one_way cg s).2.
Proof.
  intros Hs. unfold Session_admit_kind. destruct (checked_add 64 _ 1) as [next|] eqn:En; [|done].
  apply checked_add_inv in En as [-> _]. destruct Hs as [H1 H2 H3 H4 H5 H6].
  assert (supervised_ok (advance (sv_next_request_id s + 1) s)) as Ha.
  { constructor; cbn; try done; [|lia]. eapply Forall_impl; [exact H2|]. cbn. lia. }
  destruct (try_send _ _ _) as [s'|e] eqn:E; cbn; [|done]. apply try_send_inv in E as [Hr ->].
  set (b := bool_decide _). set (c := K_Admit _ _ _ _). destruct (push_rest b c (advance (sv_next_request_id s + 1) s)) as (P1 & P2 & P3 & P4 & P5).
  constructor; cbn -[push_command advance]; rewrite ?P1, ?P2, ?P3, ?P4, ?P5; cbn; try done.
  - constructor; [lia|]. eapply Forall_impl; [exact H2|]. cbn. lia.
  - lia.
  - intros r. unfold in_channels, accepted in *. cbn -[push_command]. specialize (H4 r).
    pose proof (push_in_channels b c (advance (sv_next_request_id s + 1) s) r) as Hp. unfold in_channels in Hp.
    rewrite Hp, P3. cbn. destruct (Z.eqb_spec (sv_next_request_id s) r) as [<-|Hne].
    + rewrite (bool_decide_eq_true_2 (_ ∈ _ :: _)) by left.
      rewrite (bool_decide_eq_false_2 (_ ∈ sv_accepted s)) in H4 by (intros Hin; rewrite Forall_forall in H2; apply H2 in Hin; lia).
      lia.
    + rewrite (bool_decide_ext (r ∈ _ :: _) (r ∈ sv_accepted s)) by (rewrite elem_of_cons; naive_solver). lia.
Qed.

Definition takes (r : Z) (sel : Selected) : Z := match admitting sel with Some x => if x =? r then 1 else 0 | None => 0 end.

Lemma receive_inv w s sel s1 :
  receive w s = Some (sel, s1) ->
  sv_owner s1 = sv_owner s /\ sv_told s1 = sv_told s /\ sv_accepted s1 = sv_accepted s
  /\ sv_next_request_id s1 = sv_next_request_id s /\ forall r, in_channels r s = in_channels r s1 + takes r sel.
Proof.
  unfold receive, in_channels. intros H. destruct w; simplify_eq; try (split_and!; try done; intros ?; unfold takes; cbn; lia).
  - destruct (sv_commands s) as [|c l]; [done|]. simplify_eq. split_and!; try done. intros r. cbn. rewrite weight_cons.
    destruct c; cbn; lia.
  - destruct (sv_control_commands s) as [|c l]; [done|]. simplify_eq. split_and!; try done. intros r. cbn. rewrite weight_cons.
    destruct c; cbn; lia.
  - destruct (sv_commands s) as [|c l] eqn:E; [|done]. simplify_eq. split_and!; try done. intros r. unfold takes. cbn. rewrite E. lia.
Qed.

Lemma before_round_counts sel o r :
  (forall x, admitting sel = Some x -> holds x o = 0) ->
  holds r (before_round sel o) = holds r o + takes r sel /\ awaits r (before_round sel o) = awaits r o + takes r sel.
Proof.
  intros H. unfold before_round, takes. destruct (admitting sel) as [x|]; [|lia]. specialize (H x eq_refl).
  unfold registered. rewrite holds_insert, awaits_insert. destruct (Z.eqb_spec x r) as [<-|]; [|lia].
  split; [lia|]. revert H. unfold holds, awaits. by destruct (ow_responses o !! x).
Qed.

Lemma fresh_admission s w sel s1 x :
  supervised_ok s -> receive w s = Some (sel, s1) -> admitting sel = Some x -> holds x (sv_owner s) = 0.
Proof.
  intros [_ _ _ H4 _ _] Hr Hx. apply receive_inv in Hr as (_ & _ & _ & _ & Hc). specialize (Hc x). unfold takes in Hc.
  rewrite Hx, Z.eqb_refl in Hc. specialize (H4 x). pose proof (results_nonneg x (sv_told s)).
  pose proof (in_channels_nonneg x s1). pose proof (holds_bounds x (sv_owner s)).
  unfold accepted in H4. destruct (bool_decide _); lia.
Qed.

Lemma results_app r t t' : results r (t ++ t') = results r t + results r t'.
Proof. apply weight_app. Qed.

Lemma admissions_app r t t' : admissions r (t ++ t') = admissions r t + admissions r t'.
Proof. apply weight_app. Qed.

Lemma supervised_step_ok s s' : supervised_ok s -> supervised_step s s' -> supervised_ok s'.
Proof.
  intros Hs Hstep. destruct Hstep as [s message one_way cg|s s' control c Hc Ht|s w sel s1 answer t o last Hrun Hr Ho].
  - by apply admit_kind_ok.
  - apply try_send_inv in Ht as [Hrun ->]. destruct Hs as [H1 H2 H3 H4 H5 H6].
    destruct (push_rest control c s) as (P1 & P2 & P3 & P4 & P5).
    constructor; rewrite ?P1, ?P2, ?P3, ?P4, ?P5; try done. intros r. unfold accepted. rewrite P3, push_in_channels.
    specialize (H4 r). unfold accepted in H4. destruct c; cbn; (done || lia).
  - pose proof (fresh_admission s w sel s1) as Hf. apply receive_inv in Hr as Hi. destruct Hi as (P1 & P2 & P3 & P4 & P5).
    assert (forall r, admitting sel = Some r -> holds r (sv_owner s) = 0) as Hfresh by (intros r; by apply Hf).
    destruct Hs as [H1 H2 H3 H4 H5 H6]. rewrite P1 in Ho.
    pose proof (always_run _ answer _ _ _ (round_serves (sv_owner s) sel [] H1 Hfresh)) as Ha. rewrite Ho in Ha.
    destruct Ha as (o' & last' & [= <- <-] & Hb & Hacc & Hl). cbn [fst snd] in *.
    constructor; cbn; rewrite ?P2, ?P3, ?P4; try done.
    + intros r. unfold accepted. cbn. rewrite P3. specialize (H4 r). unfold accepted in H4. rewrite results_app.
      destruct (Hacc r) as [Hx _]. destruct (before_round_counts sel (sv_owner s) r Hfresh) as [Hy _]. specialize (P5 r).
      unfold in_channels in *. cbn. change (results r []) with 0 in Hx. lia.
    + intros r. specialize (H5 r). rewrite results_app, admissions_app. destruct (Hacc r) as [Hx Hx'].
      destruct (before_round_counts sel (sv_owner s) r Hfresh) as [Hy Hy'].
      change (results r []) with 0 in Hx. change (admissions r []) with 0 in Hx'. lia.
    + intros Hn. apply Hl. by destruct last.
Qed.

Lemma supervised_all_ok cfg s : config_ok cfg -> supervised cfg s -> supervised_ok s.
Proof.
  intros Hc. induction 1 as [m initial modes answer t o Hm Ho|s s' _ IH Hstep]; [|by eapply supervised_step_ok].
  destruct (Machine_new_pending _ _ Hm) as [Hp _]. apply (Machine_new_ok _ _ Hc) in Hm.
  pose proof (always_run _ answer _ _ _ (start_serves m modes initial Hm Hp [])) as Ha. rewrite Ho in Ha.
  destruct Ha as (o' & [= <-] & Hb & Hacc). cbn [fst snd id] in *.
  assert (forall r, results r t + holds r o = 0 /\ admissions r t + awaits r o = 0) as H0.
  { intros r. destruct (Hacc r) as [Hx Hy]. change (results r []) with 0 in Hx. change (admissions r []) with 0 in Hy.
    rewrite Hx, Hy. unfold holds, awaits. cbn. by rewrite lookup_empty. }
  constructor; cbn; try done; intros r; destruct (H0 r); [|lia]. unfold in_channels, accepted. cbn.
  rewrite bool_decide_eq_false_2 by apply not_elem_of_nil. change (weight (admit_of r) []) with 0. lia.
Qed.

(** C4. Every caller gets an answer, once: however callers admit and cancel
    requests, connections come and go and the channels fill up, each request
    that went into a command channel is in exactly one place: still in the
    channel, registered with the owner, or answered; it is registered exactly
    as long as the session machine has it pending; its admission is answered at
    most once, and not later than its result; and when the owner has ended
    nobody is left registered. *)
Theorem supervisor_answers cfg s r :
  config_ok cfg -> supervised cfg s ->
  in_channels r s + holds r (sv_owner s) + results r (sv_told s) = (if bool_decide (r ∈ sv_accepted s) then 1 else 0)
  /\ holds r (sv_owner s) = pend r (ow_machine (sv_owner s))
  /\ admissions r (sv_told s) <= 1 /\ results r (sv_told s) <= admissions r (sv_told s)
  /\ (sv_running s = false -> holds r (sv_owner s) = 0).
Proof.
  intros Hc Hs. destruct (supervised_all_ok _ _ Hc Hs) as [[_ H1] _ _ H4 H5 H6].
  specialize (H1 r). specialize (H4 r). specialize (H5 r). rewrite resolved_nil in H1. unfold accepted in H4.
  pose proof (in_channels_nonneg r s). pose proof (results_nonneg r (sv_told s)).
  assert (0 <= awaits r (sv_owner s) <= holds r (sv_owner s)) as Ha.
  { unfold awaits, holds. destruct (_ !! r) as [[[]]|]; lia. }
  split_and!; [done|lia|destruct (bool_decide _); lia|lia|by intros Hr; apply H6].
Qed.

(** C26. The owner never hangs on its own account: whatever wakes it, and
    however the channels and the connection answer, a round of its loop ends,
    although carrying out an effect can bring more effects and dispatching goes
    on until nothing is left to send. *)
Theorem owner_rounds_end cfg s w sel s1 answer :
  config_ok cfg -> supervised cfg s -> receive w s = Some (sel, s1) ->
  exists t o last, run see_owner answer (Owner_round (sv_owner s1) sel) [] = (t, Ok (o, last)).
Proof.
  intros Hc Hs Hr. apply (supervised_all_ok _ _ Hc) in Hs.
  pose proof (fun r => fresh_admission s w sel s1 r Hs Hr) as Hf. apply receive_inv in Hr as (-> & _).
  pose proof (always_run _ answer _ _ _ (round_serves (sv_owner s) sel [] (so_balanced _ Hs) Hf)) as Ha.
  destruct (run see_owner answer _ []) as [t x]. destruct Ha as (o & last & Hx & _). cbn in Hx. subst x. by do 3 eexists.
Qed.

(** ** Room *)

Lemma unsent_and_sent l :
  zlen (filter (fun p => p_sent p = false /\ p_control p = None) l) + weight flying l = weight data_one l.
Proof.
  rewrite weight_filter. induction l as [|p l IH]; [done|]. rewrite !weight_cons. unfold flying, data_one, is_control in *.
  destruct (p_sent p) eqn:Hs, (p_control p) eqn:Hc; repeat (destruct (decide _)); try (naive_solver lia);
    repeat (destruct (bool_decide _) eqn:?); bool_prop; try (naive_solver lia).
Qed.

(** The room of a snapshot is the room of the machine: the check of the handle
    and that of the machine agree. *)
Lemma capacity_agrees m n bytes :
  machine_ok m ->
  has_room (max_queued_messages (m_config m)) (max_retained_bytes (m_config m)) bytes (with_dropped_events n (snapshot m))
  = negb (saturated m false bytes).
Proof.
  intros Hm. unfold has_room, saturated. cbn [with_dropped_events snapshot s_queued s_in_flight s_retained_bytes].
  rewrite in_flight_weight, unsent_and_sent, (mo_control_messages _ Hm).
  replace (zlen (m_pending m) - weight control_one (m_pending m)) with (weight data_one (m_pending m))
    by (pose proof (data_control_count (m_pending m)); lia).
  rewrite negb_orb, Z.ltb_antisym, (Z.leb_antisym _ bytes). done.
Qed.

(** Handle and machine count the same bytes. *)
Lemma admission_message_bytes cfg msg bytes : admission_bytes cfg msg = Ok bytes -> message_bytes msg = Ok bytes.
Proof.
  unfold admission_bytes, message_bytes. intros H. apply bind_inv in H as (f & _ & H).
  apply bind_inv in H as (mi & _ & H). apply bind_inv in H as (da & _ & H). destruct (_ || _) eqn:E; [done|].
  bool_prop. apply bind_inv in H as (b & Hb & H). apply bind_inv in H as (fr & _ & H). destruct (_ || _); [done|].
  apply Ok_inj in H as <-. subst. by rewrite Hb.
Qed.

(** What waiting for room has seen. *)
Inductive HandleObs : Type :=
| J_Snapshot (r : result SessionError Snapshot)
| J_Changed (changed : bool)
| J_Other.

Definition see_handle (X : Type) (e : HandleE X) : X -> HandleObs :=
  match e with
  | H_Snapshot => J_Snapshot
  | H_Changed => J_Changed
  | _ => fun _ => J_Other
  end.

Definition changes (t : list HandleObs) : nat :=
  length (omap (fun q => match q with J_Changed true => Some tt | _ => None end) t).

Lemma changes_app t t' : changes (t ++ t') = (changes t + changes t')%nat.
Proof. unfold changes. by rewrite omap_app, length_app. Qed.

Lemma capacity_loop_always queue retained bytes fuel : forall t,
  always see_handle (capacity_loop fuel queue retained bytes) t (fun t' r =>
    match r with
    | Ok (Ok _) => exists s, last t' = Some (J_Snapshot (Ok s)) /\ has_room queue retained bytes s = true
    | Ok (Err _) => True
    | Err h => h = StillRunning /\ (changes t + fuel <= changes t')%nat
    end).
Proof.
  induction fuel as [|fuel IH]; intros t; cbn [capacity_loop]; [split; [done|lia]|].
  apply always_call. intros []; [done|]. apply always_call. intros [e|]; [done|]. apply always_await.
  intros [s|e]; [|done]. cbn [always]. destruct (has_room _ _ _ s) eqn:Hr; [by exists s; rewrite last_snoc|].
  apply always_call. intros []; [|done]. eapply always_mono; [|apply IH].
  intros t' [[[]|]|h]; try done. rewrite !changes_app. cbn. intros [-> H]. split; [done|]. lia.
Qed.

(** The room a caller waits for is the room there is: waiting ends with
    success only on a snapshot with room for the message, and a session machine
    in the state of that snapshot does not refuse the message as one too many
    or too big; and waiting goes on only as long as the session changes. *)
Theorem wait_for_capacity_sound answer fuel cfg msg :
  let (t, r) := run see_handle answer
    (Session_wait_for_capacity fuel (max_queued_messages cfg) (max_retained_bytes cfg) msg) [] in
  match r with
  | Ok (Ok _) => exists s, last t = Some (J_Snapshot (Ok s))
      /\ forall m n bytes, machine_ok m -> same_limits cfg (m_config m) -> s = with_dropped_events n (snapshot m) ->
           admission_bytes (m_config m) msg = Ok bytes -> saturated m false bytes = false
  | Ok (Err _) => True
  | Err h => h = StillRunning /\ (fuel <= changes t)%nat
  end.
Proof.
  match goal with |- context [run see_handle answer ?p []] => assert (always see_handle p [] (fun t r =>
    match r with
    | Ok (Ok _) => exists s bytes, message_bytes msg = Ok bytes /\ last t = Some (J_Snapshot (Ok s))
        /\ has_room (max_queued_messages cfg) (max_retained_bytes cfg) bytes s = true
    | Ok (Err _) => True
    | Err h => h = StillRunning /\ (fuel <= changes t)%nat
    end)) as Ha end.
  { unfold Session_wait_for_capacity. apply always_question; [|done]. intros bytes Hb.
    destruct (_ <? _); [done|]. apply always_call. intros []; [|done]. cbn [negb]. apply always_call. intros [].
    eapply always_mono; [|apply capacity_loop_always]. intros t [[[]|]|h]; try done.
    intros (s & H1 & H2). by exists s, bytes. }
  apply (always_run _ answer) in Ha. destruct (run see_handle answer _ []) as [t [[[]|e]|h]]; try done. cbn in Ha.
  destruct Ha as (s & bytes & Hb & Hl & Hr). exists s. split; [done|]. intros m n b Hm (_ & Hq & Hre & _) -> Hab.
  apply admission_message_bytes in Hab. rewrite Hb in Hab. apply Ok_inj in Hab as <-.
  rewrite Hq, Hre, capacity_agrees in Hr by done. by apply negb_true_iff in Hr.
Qed.
End Owner.

(** ** The theorems at work *)

(** Channels that take everything. *)
Definition obliging (X : Type) (e : OwnerE X) : list OwnerObs -> X :=
  match e with
  | W_Select => fun _ => S_Stop
  | W_Connect _ | W_Install _ _ | W_Close _ | W_Admitted _ _ | W_Result _ _ | W_Terminal _
  | W_Snapshot _ | W_Capacity _ | W_StopConnectors => fun _ => tt
  | W_Write _ _ _ | W_Incoming _ _ => fun _ => true
  | W_Event _ => fun _ => Sent
  end.

Definition test_owner : Owner :=
  mkOwner (Session.step (crc_crate := reference_crc) test_machine (I_Start false)).1 None ∅ 0 0 None.

Definition test_supervised : Supervised := mkSupervised 1 [] [] test_owner true [] [Q_Other].

Lemma test_supervised_ok : supervised (crc_crate := reference_crc) test_config test_supervised.
Proof. eapply (supervised_start _ test_machine None None obliging); [done|]. vm_compute. reflexivity. Qed.

Lemma supervisor_answers_witness :
  let s := (Session_admit_kind test_request false None test_supervised).2 in
  in_channels 1 s = 1 /\ in_channels 1 s + holds 1 (sv_owner s) + results 1 (sv_told s) = 1.
Proof.
  cbv zeta. split; [vm_compute; reflexivity|].
  refine (proj1 (supervisor_answers (crc_crate := reference_crc) test_config _ 1 _ _)); [by split_and!|].
  eapply supervised_next; [apply test_supervised_ok|]. apply sup_admit.
Defined.

Lemma owner_rounds_end_witness :
  exists t o last, run see_owner obliging (Owner_round (crc_crate := reference_crc) test_owner S_Stop) []
    = (t, Ok (o, last)).
Proof.
  apply (owner_rounds_end (crc_crate := reference_crc) test_config test_supervised Wake_Stop S_Stop test_supervised);
    [by split_and!|apply test_supervised_ok|done].
Defined.
