(* ===== verification/CephxCrypto.v ===== *)
(** * The encryption of CephX

    Models [src/src/cephx/crypto.rs]: the two kinds of keys, AES-128 in CBC mode
    and the AES-256 profile of RFC 8009, which the source builds from single
    block encryptions with ciphertext stealing and a truncated HMAC; the magic
    envelope of every encrypted payload; and the challenge of the first
    authentication.  The block ciphers, the padded CBC mode and the HMACs are
    third-party crates: they are the class [CephxCrates], with the laws the
    client relies on in [CephxLaws]. *)

From S2P Require Import Prelude.
From Stdlib Require Import ZArith Lia Strings.Byte Strings.String.
From stdpp Require Import base option gmap sorting numbers list.

Open Scope Z_scope.

(** ** The crates *)

Class CephxCrates : Type := {
  aes256_encrypt_block : list byte -> list byte -> list byte;
  aes256_decrypt_block : list byte -> list byte -> list byte;
  cbc_aes128_encrypt : list byte -> list byte -> list byte -> list byte;
  cbc_aes128_decrypt : list byte -> list byte -> list byte -> option (list byte);
  hmac_sha384 : list byte -> list byte -> list byte;
  hmac_sha256 : list byte -> list byte -> list byte
}.

(** A block cipher is a permutation of blocks, padded CBC mode is undone by its
    inverse and pads up to the next block, and HMACs have their size. *)
Class CephxLaws (crates : CephxCrates) : Prop := {
  aes256_decrypt_encrypt key b :
    length b = 16%nat -> aes256_decrypt_block key (aes256_encrypt_block key b) = b;
  aes256_encrypt_length key b : length b = 16%nat -> length (aes256_encrypt_block key b) = 16%nat;
  cbc_decrypt_encrypt key iv p : cbc_aes128_decrypt key iv (cbc_aes128_encrypt key iv p) = Some p;
  cbc_encrypt_length key iv p : zlen (cbc_aes128_encrypt key iv p) = zlen p + (16 - zlen p mod 16);
  hmac_sha384_length key data : length (hmac_sha384 key data) = 48%nat
}.

(** ** Data *)

Definition CRYPTO_AES : Z := 1.
Definition CRYPTO_AES256_KRB5 : Z := 2.
Definition AES_BLOCK_SIZE : nat := 16.
Definition AES256_KEY_SIZE : nat := 32.
Definition RFC8009_CHECKSUM_SIZE : nat := 24.
Definition CEPH_AES_IV : list byte := list_byte_of_string "cephsageyudagreg".
Definition AUTH_ENC_MAGIC : Z := 0xff009cad8826aa55.

Definition KEY_USAGE_AUTH_CONNECTION_SECRET : Z := 0x03.
Definition KEY_USAGE_TICKET_SESSION_KEY : Z := 0x04.
Definition KEY_USAGE_TICKET_BLOB : Z := 0x05.
Definition KEY_USAGE_AUTHORIZE : Z := 0x10.
Definition KEY_USAGE_AUTHORIZE_CHALLENGE : Z := 0x11.
Definition KEY_USAGE_AUTHORIZE_REPLY : Z := 0x12.

Inductive CephxError : Type :=
| CX_CredentialNotFound | CX_InvalidCredential | CX_InvalidKeyring | CX_InvalidMagic | CX_InvalidMode
| CX_InvalidNonce | CX_InvalidStatus | CX_InvalidVersion | CX_LimitExceeded | CX_MalformedPayload
| CX_MissingTicket | CX_ExpiredTicket | CX_UnsupportedType.

Record CryptoKey : Type := mkCryptoKey { ck_type_id : Z; ck_secret : list byte }.

Record CryptoLimits : Type := mkCryptoLimits {
  cl_max_auth_bytes : Z;
  cl_max_ticket_blob_bytes : Z;
  cl_max_decrypt_bytes : Z;
  cl_max_encrypt_bytes : Z;
  cl_max_connection_secret_bytes : Z;
  cl_max_tickets : Z
}.

Definition CryptoLimits_default : CryptoLimits :=
  mkCryptoLimits (Z.shiftl 1 20) (Z.shiftl 1 20) (Z.shiftl 1 20) (Z.shiftl 1 20) 64 64.

(** ** Blocks *)

Definition byte_xor (a b : byte) : byte := byte_of_Z (Z.lxor (Z_of_byte a) (Z_of_byte b)).

(** [zip] stops at the shorter of the two. *)
Definition xor_bytes (a b : list byte) : list byte := zip_with byte_xor a b.

Definition zero_bytes (n : nat) : list byte := replicate n x00.

(** [as_chunks::<n>().0]: the complete chunks. *)
Fixpoint chunks_loop (fuel n : nat) (l : list byte) : list (list byte) :=
  match fuel with
  | O => []
  | S fuel => if (length l <? n)%nat then [] else take n l :: chunks_loop fuel n (drop n l)
  end.

(** A chunk takes bytes, so that the length is enough fuel. *)
Definition as_chunks (n : nat) (l : list byte) : list (list byte) := chunks_loop (length l) n l.

(** The blocks at [offset] and behind it change places. *)
Definition swap_blocks (offset : nat) (l : list byte) : list byte :=
  take offset l ++ take AES_BLOCK_SIZE (drop (offset + AES_BLOCK_SIZE) l)
  ++ take AES_BLOCK_SIZE (drop offset l) ++ drop (offset + 2 * AES_BLOCK_SIZE) l.

Section Crypto.
  Context {crates : CephxCrates}.

(** The chaining loop of [cts_encrypt]. *)
Fixpoint chain_encrypt (key previous : list byte) (chunks : list (list byte)) : list (list byte) :=
  match chunks with
  | [] => []
  | chunk :: chunks =>
      let block := aes256_encrypt_block key (xor_bytes chunk previous) in
      block :: chain_encrypt key block chunks
  end.

Fixpoint chain_decrypt (key previous : list byte) (chunks : list (list byte)) : list (list byte) :=
  match chunks with
  | [] => []
  | chunk :: chunks => xor_bytes (aes256_decrypt_block key chunk) previous :: chain_decrypt key chunk chunks
  end.

Definition cbc_decrypt_no_padding (key ciphertext iv : list byte) : result CephxError (list byte) :=
  if negb (length ciphertext mod AES_BLOCK_SIZE =? 0)%nat then Err CX_MalformedPayload
  else Ok (concat (chain_decrypt key iv (as_chunks AES_BLOCK_SIZE ciphertext))).

(** [Aes256::new_from_slice]. *)
Definition check_aes256_key (key : list byte) : result CephxError unit :=
  if (length key =? AES256_KEY_SIZE)%nat then Ok tt else Err CX_UnsupportedType.

Definition cts_encrypt (key plaintext : list byte) : result CephxError (list byte) :=
  if (length plaintext <? AES_BLOCK_SIZE)%nat then Err CX_MalformedPayload
  else
    _ ← check_aes256_key key;
    let remainder := (length plaintext mod AES_BLOCK_SIZE)%nat in
    let padded := if (remainder =? 0)%nat then plaintext
                  else plaintext ++ zero_bytes (AES_BLOCK_SIZE - remainder) in
    let blocks := concat (chain_encrypt key (zero_bytes AES_BLOCK_SIZE) (as_chunks AES_BLOCK_SIZE padded)) in
    let blocks := if (AES_BLOCK_SIZE <? length blocks)%nat
                  then swap_blocks (length blocks - 2 * AES_BLOCK_SIZE) blocks else blocks in
    Ok (take (length plaintext) blocks).

(** The last two blocks, of which the last one is not complete. *)
Definition decrypt_stolen (key prefix penultimate last_partial : list byte) (remainder : nat) : list byte :=
  let previous := if bool_decide (prefix = []) then zero_bytes AES_BLOCK_SIZE
                  else drop (length prefix - AES_BLOCK_SIZE) prefix in
  let intermediate := aes256_decrypt_block key penultimate in
  let reconstructed_last := last_partial ++ drop remainder intermediate in
  let last_plain := xor_bytes (aes256_decrypt_block key reconstructed_last) previous in
  let penultimate_plain := xor_bytes (aes256_decrypt_block key penultimate) reconstructed_last in
  last_plain ++ take remainder penultimate_plain.

Definition cts_decrypt (key ciphertext : list byte) : result CephxError (list byte) :=
  if (length ciphertext <? AES_BLOCK_SIZE)%nat then Err CX_MalformedPayload
  else
    _ ← check_aes256_key key;
    let remainder := (length ciphertext mod AES_BLOCK_SIZE)%nat in
    if (remainder =? 0)%nat then
      let swapped := if (AES_BLOCK_SIZE <? length ciphertext)%nat
                     then swap_blocks (length ciphertext - 2 * AES_BLOCK_SIZE) ciphertext else ciphertext in
      cbc_decrypt_no_padding key swapped (zero_bytes AES_BLOCK_SIZE)
    else
      let tail_start := (length ciphertext - remainder - AES_BLOCK_SIZE)%nat in
      let prefix := take tail_start ciphertext in
      let tail := drop tail_start ciphertext in
      plaintext ← cbc_decrypt_no_padding key prefix (zero_bytes AES_BLOCK_SIZE);
      Ok (plaintext ++ decrypt_stolen key prefix (take AES_BLOCK_SIZE tail) (drop AES_BLOCK_SIZE tail) remainder).

(** ** Payloads *)

Definition rfc8009_derive_key (key : list byte) (usage constant bits : Z) : list byte :=
  take (Z.to_nat (bits / 8))
    (hmac_sha384 key (be_bytes 4 1 ++ be_bytes 4 usage ++ [byte_of_Z constant; x00] ++ be_bytes 4 bits)).

(** The HMAC over an empty state of 16 bytes and the ciphertext. *)
Definition rfc8009_mac (secret : list byte) (usage : Z) (ciphertext : list byte) : list byte :=
  hmac_sha384 (rfc8009_derive_key secret usage 0x55 192) (zero_bytes AES_BLOCK_SIZE ++ ciphertext).

Definition encrypt_rfc8009_with_confounder (secret : CryptoKey) (plaintext : list byte) (usage : Z)
    (confounder : list byte) (limits : CryptoLimits) : result CephxError (list byte) :=
  if negb (ck_type_id secret =? CRYPTO_AES256_KRB5) || negb (length (ck_secret secret) =? AES256_KEY_SIZE)%nat
  then Err CX_UnsupportedType
  else if cl_max_encrypt_bytes limits <? zlen plaintext then Err CX_LimitExceeded
  else
    ciphertext ← cts_encrypt (rfc8009_derive_key (ck_secret secret) usage 0xaa 256) (confounder ++ plaintext);
    Ok (ciphertext ++ take RFC8009_CHECKSUM_SIZE (rfc8009_mac (ck_secret secret) usage ciphertext)).

Definition encrypt_cbc (secret : CryptoKey) (plaintext : list byte) (limits : CryptoLimits)
    : result CephxError (list byte) :=
  if negb (ck_type_id secret =? CRYPTO_AES) || negb (length (ck_secret secret) =? AES_BLOCK_SIZE)%nat
  then Err CX_UnsupportedType
  else if cl_max_encrypt_bytes limits <? zlen plaintext then Err CX_LimitExceeded
  else
    padded_length ← ok_or (checked_add 64 (zlen plaintext) (16 - zlen plaintext mod 16)) CX_LimitExceeded;
    if Z.min u64_max (cl_max_encrypt_bytes limits + 16) <? padded_length then Err CX_LimitExceeded
    else Ok (cbc_aes128_encrypt (ck_secret secret) CEPH_AES_IV plaintext).

Definition decrypt_cbc (secret : CryptoKey) (ciphertext : list byte) (limits : CryptoLimits)
    : result CephxError (list byte) :=
  if negb (ck_type_id secret =? CRYPTO_AES) || negb (length (ck_secret secret) =? AES_BLOCK_SIZE)%nat
  then Err CX_UnsupportedType
  else if (zlen ciphertext <? 16) || negb (zlen ciphertext mod 16 =? 0) then Err CX_MalformedPayload
  else if Z.min u64_max (cl_max_decrypt_bytes limits + 16) <? zlen ciphertext then Err CX_LimitExceeded
  else ok_or (cbc_aes128_decrypt (ck_secret secret) CEPH_AES_IV ciphertext) CX_MalformedPayload.

Definition decrypt_rfc8009 (secret : CryptoKey) (ciphertext : list byte) (usage : Z) (limits : CryptoLimits)
    : result CephxError (list byte) :=
  if negb (length (ck_secret secret) =? AES256_KEY_SIZE)%nat then Err CX_UnsupportedType
  else if (length ciphertext <? AES_BLOCK_SIZE + RFC8009_CHECKSUM_SIZE)%nat then Err CX_MalformedPayload
  else if Z.min u64_max (cl_max_decrypt_bytes limits + 40) <? zlen ciphertext then Err CX_LimitExceeded
  else
    let split := (length ciphertext - RFC8009_CHECKSUM_SIZE)%nat in
    let encrypted := take split ciphertext in
    let checksum := drop split ciphertext in
    if negb (bool_decide (take (length checksum) (rfc8009_mac (ck_secret secret) usage encrypted) = checksum))
    then Err CX_MalformedPayload
    else
      plaintext ← cts_decrypt (rfc8009_derive_key (ck_secret secret) usage 0xaa 256) encrypted;
      Ok (drop AES_BLOCK_SIZE plaintext).

Definition encrypt_payload (secret : CryptoKey) (plaintext : list byte) (usage : Z) (limits : CryptoLimits)
    : result CephxError (list byte) :=
  if cl_max_encrypt_bytes limits <? zlen plaintext then Err CX_LimitExceeded
  else if ck_type_id secret =? CRYPTO_AES then encrypt_cbc secret plaintext limits
  else if ck_type_id secret =? CRYPTO_AES256_KRB5 then Err CX_MalformedPayload
  else Err CX_UnsupportedType.

Definition decrypt_payload (secret : CryptoKey) (ciphertext : list byte) (usage : Z) (limits : CryptoLimits)
    : result CephxError (list byte) :=
  if ck_type_id secret =? CRYPTO_AES then decrypt_cbc secret ciphertext limits
  else if ck_type_id secret =? CRYPTO_AES256_KRB5 then decrypt_rfc8009 secret ciphertext usage limits
  else Err CX_UnsupportedType.

Definition magic_header : list byte := x01 :: le_bytes 8 AUTH_ENC_MAGIC.

Definition encrypt_with_magic (secret : CryptoKey) (payload : list byte) (usage : Z)
    (confounder : option (list byte)) (limits : CryptoLimits) : result CephxError (list byte) :=
  let plaintext := magic_header ++ payload in
  if ck_type_id secret =? CRYPTO_AES then encrypt_payload secret plaintext usage limits
  else if ck_type_id secret =? CRYPTO_AES256_KRB5 then
    confounder ← ok_or confounder CX_MalformedPayload;
    encrypt_rfc8009_with_confounder secret plaintext usage confounder limits
  else Err CX_UnsupportedType.

Definition decrypt_with_magic (secret : CryptoKey) (ciphertext : list byte) (usage : Z) (limits : CryptoLimits)
    : result CephxError (list byte) :=
  plaintext ← decrypt_payload secret ciphertext usage limits;
  if (length plaintext <? 9)%nat then Err CX_MalformedPayload
  else if negb (bool_decide (take 1 plaintext = [x01])) then Err CX_InvalidVersion
  else if negb (le_value (take 8 (drop 1 plaintext)) =? AUTH_ENC_MAGIC) then Err CX_InvalidMagic
  else Ok (drop 9 plaintext).

(** The exclusive or of the complete words of a string. *)
Definition fold_words (l : list byte) : Z :=
  fold_left (fun value word => Z.lxor value (le_value word)) (as_chunks 8 l) 0.

Definition calculate_challenge (secret : CryptoKey) (server_challenge client_challenge : Z) (limits : CryptoLimits)
    : result CephxError Z :=
  let challenge := le_bytes 8 server_challenge ++ le_bytes 8 client_challenge in
  folded ← (if ck_type_id secret =? CRYPTO_AES then
              encrypted ← encrypt_with_magic secret challenge 0 None limits;
              len ← ok_or (try_u 32 (zlen encrypted)) CX_LimitExceeded;
              Ok (le_bytes 4 len ++ encrypted)
            else if ck_type_id secret =? CRYPTO_AES256_KRB5 then Ok (hmac_sha256 (ck_secret secret) challenge)
            else Err CX_UnsupportedType);
  Ok (fold_words folded).

Definition transcript_signature (secret : CryptoKey) (transcript : list byte) : list byte :=
  hmac_sha256 (ck_secret secret) transcript.

Definition verify_transcript_signature (secret : CryptoKey) (transcript signature : list byte) : bool :=
  bool_decide (hmac_sha256 (ck_secret secret) transcript = signature).

End Crypto.

(** ** Blocks, one after the other *)

Lemma byte_xor_cancel a b : byte_xor (byte_xor a b) b = a.
Proof.
  apply Z_of_byte_inj. unfold byte_xor. rewrite !Z_of_byte_of_Z.
  pose proof (Z_of_byte_range a) as Ha. pose proof (Z_of_byte_range b) as Hb.
  pose proof (lxor_range 8 (Z_of_byte a) (Z_of_byte b) ltac:(lia) Ha Hb) as Hx.
  rewrite (Z.mod_small (Z.lxor (Z_of_byte a) (Z_of_byte b))) by exact Hx.
  rewrite Z.lxor_assoc, Z.lxor_nilpotent, Z.lxor_0_r. by apply Z.mod_small.
Qed.

Lemma byte_xor_zero b : byte_xor x00 b = b.
Proof. by destruct b. Qed.

Lemma xor_bytes_cancel a b : (length a <= length b)%nat -> xor_bytes (xor_bytes a b) b = a.
Proof.
  revert b. induction a as [|x a IH]; intros [|y b] H; cbn in *; [done..|lia|].
  unfold xor_bytes in *. rewrite byte_xor_cancel, IH by lia. done.
Qed.

Lemma xor_bytes_length a b : length (xor_bytes a b) = (length a `min` length b)%nat.
Proof. apply length_zip_with. Qed.

(** Zeros leave the other side alone. *)
Lemma xor_bytes_zeros n b : (length b <= n)%nat -> xor_bytes (zero_bytes n) b = b.
Proof.
  revert b. induction n as [|n IH]; intros [|x b] H; cbn in *; [done|lia|done|].
  unfold xor_bytes, zero_bytes in *. rewrite byte_xor_zero, IH by lia. done.
Qed.

Definition blocks_ok (l : list (list byte)) : Prop := Forall (fun b => length b = 16%nat) l.

Lemma concat_length l : blocks_ok l -> length (concat l) = (16 * length l)%nat.
Proof. induction 1 as [|b l Hb Hl IH]; [done|]. cbn [concat length]. rewrite length_app, IH, Hb. lia. Qed.

Lemma chunks_concat l : forall fuel, blocks_ok l -> (length l <= fuel)%nat -> chunks_loop fuel 16 (concat l) = l.
Proof.
  induction l as [|b l IH]; intros fuel Hl Hf.
  - destruct fuel; [done|]. by cbn.
  - destruct fuel as [|fuel]; [cbn in Hf; lia|]. apply Forall_cons in Hl as [Hb Hl]. cbn [chunks_loop concat].
    destruct (Nat.ltb_spec (length (b ++ concat l)) 16) as [H|_]; [rewrite length_app in H; lia|].
    rewrite take_app_length', drop_app_length' by done. rewrite IH; [done|done|]. cbn in Hf. lia.
Qed.

Lemma as_chunks_concat l : blocks_ok l -> as_chunks 16 (concat l) = l.
Proof. intros H. unfold as_chunks. apply chunks_concat; [done|]. rewrite concat_length by done. lia. Qed.

(** A string of whole blocks. *)
Lemma split_blocks n : forall l, length l = (16 * n)%nat -> exists bs, l = concat bs /\ blocks_ok bs /\ length bs = n.
Proof.
  induction n as [|n IH]; intros l Hl.
  - exists []. destruct l; [|cbn in Hl; lia]. split_and!; [done|constructor|done].
  - destruct (IH (drop 16 l)) as (bs & Hd & Hb & Hn); [rewrite length_drop; lia|].
    exists (take 16 l :: bs). cbn [concat]. rewrite <- Hd, take_drop. split; [done|].
    split; [constructor; [rewrite length_take; lia|done]|cbn; lia].
Qed.

(** Swapping the last two blocks. *)
Lemma swap_last l a b :
  length a = 16%nat -> length b = 16%nat ->
  swap_blocks (length (l ++ a ++ b) - 32) (l ++ a ++ b) = l ++ b ++ a.
Proof.
  intros Ha Hb. unfold swap_blocks, AES_BLOCK_SIZE. rewrite !length_app, Ha, Hb.
  replace (length l + (16 + 16) - 32)%nat with (length l) by lia.
  rewrite take_app_length, drop_app_length. rewrite !drop_app_add. cbn [Nat.mul Nat.add].
  rewrite (drop_app_length' a b 16), (take_app_length' a b 16), (take_ge b 16) by lia.
  rewrite (drop_ge (a ++ b) 32) by (rewrite length_app; lia). by rewrite app_nil_r.
Qed.

Section Stealing.
  Context {crates : CephxCrates} `{!CephxLaws crates}.

Definition last_block (previous : list byte) (l : list (list byte)) : list byte := default previous (last l).

Lemma chain_encrypt_ok key l : forall previous,
  length previous = 16%nat -> blocks_ok l ->
  blocks_ok (chain_encrypt key previous l) /\ length (chain_encrypt key previous l) = length l.
Proof.
  induction l as [|b l IH]; intros previous Hp Hl; [by split; [constructor|]|].
  apply Forall_cons in Hl as [Hb Hl]. cbn [chain_encrypt length].
  assert (length (aes256_encrypt_block key (xor_bytes b previous)) = 16%nat) as Hc.
  { apply aes256_encrypt_length. rewrite xor_bytes_length. lia. }
  destruct (IH _ Hc Hl) as [H1 H2]. split; [by constructor|by rewrite H2].
Qed.

Lemma chain_encrypt_app key l k : forall previous,
  chain_encrypt key previous (l ++ k)
  = chain_encrypt key previous l ++ chain_encrypt key (last_block previous (chain_encrypt key previous l)) k.
Proof.
  induction l as [|b l IH]; intros previous; [done|]. cbn [app chain_encrypt]. rewrite IH. f_equal. f_equal.
  unfold last_block. rewrite last_cons. by destruct (last _).
Qed.

Lemma chain_decrypt_encrypt key l : forall previous,
  length previous = 16%nat -> blocks_ok l -> chain_decrypt key previous (chain_encrypt key previous l) = l.
Proof.
  induction l as [|b l IH]; intros previous Hp Hl; [done|]. apply Forall_cons in Hl as [Hb Hl].
  cbn [chain_encrypt chain_decrypt]. assert (length (xor_bytes b previous) = 16%nat) as Hx by (rewrite xor_bytes_length; lia).
  rewrite aes256_decrypt_encrypt, xor_bytes_cancel by lia. rewrite IH; [done| |done]. by apply aes256_encrypt_length.
Qed.

Lemma chain_decrypt_concat key l :
  blocks_ok l ->
  cbc_decrypt_no_padding key (concat (chain_encrypt key (zero_bytes 16) l)) (zero_bytes 16) = Ok (concat l).
Proof.
  intros Hl. destruct (chain_encrypt_ok key l (zero_bytes 16)) as [H1 H2]; [done|done|].
  unfold cbc_decrypt_no_padding, AES_BLOCK_SIZE. rewrite concat_length by done.
  replace ((16 * _) mod 16)%nat with 0%nat by (symmetry; rewrite Nat.mul_comm; apply Nat.Div0.mod_mul).
  cbn [Nat.eqb negb]. by rewrite as_chunks_concat, chain_decrypt_encrypt.
Qed.

(** Whole blocks: the last two change places and back. *)
Lemma cts_whole key l :
  blocks_ok l -> length key = 32%nat -> l <> [] ->
  exists c, cts_encrypt key (concat l) = Ok c /\ length c = length (concat l) /\ cts_decrypt key c = Ok (concat l).
Proof.
  intros Hl Hk Hne. destruct (chain_encrypt_ok key l (zero_bytes 16)) as [H1 H2]; [done|done|].
  set (cs := chain_encrypt key (zero_bytes 16) l) in *. assert (length l <> 0%nat) as Hn by (by destruct l).
  assert (length (concat cs) = length (concat l)) as Hlen by (by rewrite !concat_length, H2).
  assert ((length (concat l) mod 16)%nat = 0%nat) as Hmod
    by (rewrite concat_length, Nat.mul_comm by done; apply Nat.Div0.mod_mul).
  assert (exists c, (if (16 <? length (concat cs))%nat then swap_blocks (length (concat cs) - 32) (concat cs) else concat cs) = c
    /\ length c = length (concat l)
    /\ (if (16 <? length c)%nat then swap_blocks (length c - 32) c else c) = concat cs) as (c & Hc & Hcl & Hcs).
  { destruct (Nat.ltb_spec 16 (length (concat cs))) as [Hlt|Hge].
    - assert (exists cs0 a b, cs = cs0 ++ [a; b]) as (cs0 & a & b & Ecs).
      { destruct cs as [|b cs1 _] using rev_ind; [cbn in Hlt; lia|]. destruct cs1 as [|a cs0 _] using rev_ind.
        - apply Forall_cons in H1 as [H1 _]. cbn in Hlt. rewrite app_nil_r in Hlt. lia.
        - exists cs0, a, b. by rewrite <- app_assoc. }
      rewrite Ecs in H1. apply Forall_app in H1 as [H0 Hab]. apply Forall_cons in Hab as [Ha Hb].
      apply Forall_cons in Hb as [Hb _]. rewrite Ecs, concat_app in *. cbn [concat] in *. rewrite app_nil_r in *.
      rewrite swap_last by done. eexists. split; [done|].
      assert (length (concat cs0 ++ b ++ a) = length (concat cs0 ++ a ++ b)) as Hs by (rewrite !length_app; lia).
      split; [lia|]. rewrite Hs. destruct (Nat.ltb_spec 16 (length (concat cs0 ++ a ++ b))); [|lia].
      rewrite <- Hs. by apply swap_last.
    - eexists. split; [done|]. split; [done|]. destruct (Nat.ltb_spec 16 (length (concat cs))); [lia|done]. }
  exists c. unfold cts_encrypt, cts_decrypt, check_aes256_key, AES_BLOCK_SIZE, AES256_KEY_SIZE. cbv zeta.
  rewrite Hk, Hmod, Hcl, Hmod. cbn [Nat.eqb Nat.mul Nat.add].
  assert ((length (concat l) <? 16)%nat = false) as -> by (apply Nat.ltb_ge; rewrite concat_length by done; lia).
  rewrite !bind_Ok, as_chunks_concat by done. fold cs. rewrite Hc. split; [by rewrite <- Hcl, firstn_all|].
  split; [done|]. rewrite Hcl in Hcs. rewrite Hcs. by apply chain_decrypt_concat.
Qed.

(** The last block of a chain is what the source finds at the end of it. *)
Lemma last_block_drop l :
  blocks_ok l ->
  (if bool_decide (concat l = []) then zero_bytes 16 else drop (length (concat l) - 16) (concat l))
  = last_block (zero_bytes 16) l.
Proof.
  intros Hl. unfold last_block. destruct l as [|b l _] using rev_ind; [done|].
  apply Forall_app in Hl as [_ Hb]. apply Forall_cons in Hb as [Hb _]. rewrite last_snoc, concat_app. cbn [concat].
  rewrite app_nil_r, bool_decide_eq_false_2 by (intros H; apply app_eq_nil in H as [_ ->]; done).
  rewrite length_app, Hb. replace (length (concat l) + 16 - 16)%nat with (length (concat l)) by lia.
  by rewrite drop_app_length.
Qed.

Lemma last_block_length previous l : length previous = 16%nat -> blocks_ok l -> length (last_block previous l) = 16%nat.
Proof.
  intros Hp Hl. unfold last_block. destruct (last l) as [b|] eqn:E; [|done]. cbn.
  apply last_Some in E as [l' ->]. apply Forall_app in Hl as [_ Hb]. by apply Forall_cons in Hb as [Hb _].
Qed.

(** The missing end of the last block is what the zeros of the padding leave. *)
Lemma stolen_end tail a :
  (length tail <= 16)%nat -> length a = 16%nat ->
  take (length tail) a ++ drop (length tail) (xor_bytes (tail ++ zero_bytes (16 - length tail)) a) = a.
Proof.
  intros Ht Ha. rewrite <- (take_drop (length tail) a) at 3. f_equal. unfold xor_bytes.
  rewrite zip_with_drop, drop_app_length. apply xor_bytes_zeros. rewrite length_drop. lia.
Qed.

(** An incomplete last block: its end is stolen from the block before. *)
Lemma cts_stolen key l x tail :
  blocks_ok l -> length x = 16%nat -> (0 < length tail < 16)%nat -> length key = 32%nat ->
  let p := concat l ++ x ++ tail in
  exists c, cts_encrypt key p = Ok c /\ length c = length p /\ cts_decrypt key c = Ok p.
Proof.
  intros Hl Hx Ht Hk p. set (r := length tail) in *. set (y := tail ++ zero_bytes (16 - r)).
  assert (length y = 16%nat) as Hy by (unfold y, zero_bytes; rewrite length_app, length_replicate; fold r; lia).
  destruct (chain_encrypt_ok key l (zero_bytes 16)) as [H1 H2]; [done|done|].
  set (cs := chain_encrypt key (zero_bytes 16) l) in *. set (prev := last_block (zero_bytes 16) cs).
  assert (length prev = 16%nat) as Hprev by (by apply last_block_length).
  set (a := aes256_encrypt_block key (xor_bytes x prev)). set (b := aes256_encrypt_block key (xor_bytes y a)).
  assert (length a = 16%nat) as Ha by (apply aes256_encrypt_length; rewrite xor_bytes_length; lia).
  assert (length b = 16%nat) as Hb by (apply aes256_encrypt_length; rewrite xor_bytes_length; lia).
  assert (length p = 16 * length l + 16 + r)%nat as Hp by (unfold p; rewrite !length_app, concat_length by done; fold r; lia).
  assert (length (concat cs) = 16 * length l)%nat as Hcs by (by rewrite concat_length, H2).
  assert (length p mod 16 = r)%nat as Hmod.
  { rewrite Hp. replace (16 * length l + 16 + r)%nat with (r + (length l + 1) * 16)%nat by lia.
    rewrite Nat.Div0.mod_add. apply Nat.mod_small. lia. }
  exists (concat cs ++ b ++ take r a).
  assert (length (concat cs ++ b ++ take r a) = length p) as Hlen by (rewrite !length_app, length_take, Hcs, Hp; lia).
  unfold cts_encrypt, cts_decrypt, check_aes256_key, AES_BLOCK_SIZE, AES256_KEY_SIZE. cbv zeta.
  rewrite Hk, Hlen, Hmod, Nat.eqb_refl, !bind_Ok.
  assert ((length p <? 16)%nat = false) as -> by (apply Nat.ltb_ge; lia).
  assert ((r =? 0)%nat = false) as -> by (apply Nat.eqb_neq; lia). split; [|split; [done|]].
  - replace (p ++ zero_bytes (16 - r)) with (concat (l ++ [x; y]))
      by (rewrite concat_app; cbn; unfold p, y; by rewrite app_nil_r, <- !app_assoc).
    rewrite as_chunks_concat by (apply Forall_app; by repeat constructor).
    rewrite chain_encrypt_app, concat_app. fold cs prev. cbn [chain_encrypt concat]. fold a b. rewrite app_nil_r.
    assert ((16 <? length (concat cs ++ a ++ b))%nat = true) as -> by (apply Nat.ltb_lt; rewrite !length_app; lia).
    change (2 * 16)%nat with 32%nat. rewrite swap_last by done. f_equal. rewrite !app_assoc.
    rewrite take_app_ge by (rewrite length_app, Hcs; lia). f_equal. f_equal. rewrite length_app, Hcs. lia.
  - replace (length p - r - 16)%nat with (length (concat cs)) by lia. rewrite take_app_length, drop_app_length.
    rewrite (take_app_length' b _ 16), (drop_app_length' b _ 16) by done. unfold cs. rewrite chain_decrypt_concat by done.
    rewrite bind_Ok. fold cs. f_equal. unfold p. f_equal. unfold decrypt_stolen, AES_BLOCK_SIZE.
    rewrite last_block_drop by done. fold prev. unfold b. rewrite aes256_decrypt_encrypt by (rewrite xor_bytes_length; lia).
    unfold y, r. rewrite stolen_end by (fold r; lia). unfold a.
    rewrite aes256_decrypt_encrypt, xor_bytes_cancel by (rewrite ?xor_bytes_length; lia). f_equal. fold a.
    rewrite xor_bytes_cancel by (fold r y; lia). by rewrite take_app_length.
Qed.

Lemma cts_roundtrip key p :
  (16 <= length p)%nat -> length key = 32%nat ->
  exists c, cts_encrypt key p = Ok c /\ length c = length p /\ cts_decrypt key c = Ok p.
Proof.
  intros Hp Hk. pose proof (Nat.div_mod_eq (length p) 16) as Hd. pose proof (Nat.mod_upper_bound (length p) 16 ltac:(lia)) as Hm.
  set (k := (length p / 16)%nat) in *. set (r := (length p mod 16)%nat) in *.
  destruct (decide (r = 0%nat)) as [Hr|Hr].
  - destruct (split_blocks k p) as (l & -> & Hl & Hk'); [lia|]. apply cts_whole; [done|done|].
    intros ->. cbn in Hp. lia.
  - assert (1 <= k)%nat as Hk1 by lia.
    destruct (split_blocks (k - 1) (take (16 * (k - 1)) p)) as (l & Hl & Hb & _); [rewrite length_take; lia|].
    assert (p = concat l ++ take 16 (drop (16 * (k - 1)) p) ++ drop 16 (drop (16 * (k - 1)) p)) as ->.
    { by rewrite <- Hl, !take_drop. }
    apply cts_stolen; [done| | |done]; rewrite ?length_take, ?length_drop; lia.
Qed.
End Stealing.

(** ** Payloads *)

(** The keys there are. *)
Definition key_ok (key : CryptoKey) : Prop :=
  ck_type_id key = CRYPTO_AES /\ length (ck_secret key) = 16%nat
  \/ ck_type_id key = CRYPTO_AES256_KRB5 /\ length (ck_secret key) = 32%nat.

(** What can be encrypted can be decrypted. *)
Definition crypto_limits_ok (limits : CryptoLimits) : Prop :=
  0 <= cl_max_encrypt_bytes limits <= cl_max_decrypt_bytes limits /\ cl_max_decrypt_bytes limits < 2 ^ 63.

Section Payloads.
  Context {crates : CephxCrates} `{!CephxLaws crates}.

Lemma cbc_payload key p limits :
  ck_type_id key = CRYPTO_AES -> length (ck_secret key) = 16%nat -> crypto_limits_ok limits ->
  zlen p <= cl_max_encrypt_bytes limits ->
  exists c, encrypt_cbc key p limits = Ok c /\ decrypt_cbc key c limits = Ok p /\ zlen c <= zlen p + 40.
Proof.
  intros Ht Hl [[H0 H1] H2] Hp. unfold encrypt_cbc, decrypt_cbc, AES_BLOCK_SIZE. rewrite Ht, Hl. cbn [negb orb Z.eqb Nat.eqb Pos.eqb CRYPTO_AES].
  pose proof (zlen_nonneg p). pose proof (Z.mod_pos_bound (zlen p) 16 ltac:(lia)) as Hm.
  pose proof (Z.mod_le (zlen p) 16 ltac:(lia) ltac:(lia)).
  destruct (Z.ltb_spec (cl_max_encrypt_bytes limits) (zlen p)); [lia|].
  unfold checked_add. destruct (Z.ltb_spec (zlen p + (16 - zlen p mod 16)) (2 ^ 64)); [|lia]. cbn [ok_or]. rewrite bind_Ok.
  unfold u64_max. destruct (Z.ltb_spec (Z.min 18446744073709551615 (cl_max_encrypt_bytes limits + 16)) (zlen p + (16 - zlen p mod 16))); [lia|].
  eexists. split; [done|]. rewrite cbc_encrypt_length.
  assert ((zlen p + (16 - zlen p mod 16)) mod 16 = 0) as ->.
  { replace (zlen p + (16 - zlen p mod 16)) with ((zlen p / 16 + 1) * 16) by (pose proof (Z.div_mod (zlen p) 16); lia).
    apply Z.mod_mul. lia. }
  destruct (Z.ltb_spec (zlen p + (16 - zlen p mod 16)) 16); [lia|]. cbn [orb negb Z.eqb].
  destruct (Z.ltb_spec (Z.min 18446744073709551615 (cl_max_decrypt_bytes limits + 16)) (zlen p + (16 - zlen p mod 16))); [lia|].
  split; [by rewrite cbc_decrypt_encrypt|lia].
Qed.

Lemma rfc8009_payload key p usage confounder limits :
  ck_type_id key = CRYPTO_AES256_KRB5 -> length (ck_secret key) = 32%nat -> length confounder = 16%nat ->
  crypto_limits_ok limits -> zlen p <= cl_max_encrypt_bytes limits ->
  exists c, encrypt_rfc8009_with_confounder key p usage confounder limits = Ok c
    /\ decrypt_rfc8009 key c usage limits = Ok p /\ zlen c <= zlen p + 40.
Proof.
  intros Ht Hl Hc [[H0 H1] H2] Hp. set (k := rfc8009_derive_key (ck_secret key) usage 0xaa 256).
  assert (length k = 32%nat) as Hk by (unfold k, rfc8009_derive_key; rewrite length_take, hmac_sha384_length; done).
  destruct (cts_roundtrip k (confounder ++ p)) as (c & He & Hlc & Hd); [rewrite length_app; lia|done|].
  rewrite length_app, Hc in Hlc. unfold encrypt_rfc8009_with_confounder, decrypt_rfc8009. rewrite Ht, Hl.
  unfold AES256_KEY_SIZE. cbn [negb orb Z.eqb Nat.eqb Pos.eqb CRYPTO_AES256_KRB5].
  destruct (Z.ltb_spec (cl_max_encrypt_bytes limits) (zlen p)); [lia|]. fold k. rewrite He, bind_Ok.
  set (mac := take RFC8009_CHECKSUM_SIZE _). assert (length mac = 24%nat) as Hmac.
  { unfold mac, rfc8009_mac, RFC8009_CHECKSUM_SIZE. rewrite length_take, hmac_sha384_length. done. }
  eexists. split; [done|]. unfold AES_BLOCK_SIZE, RFC8009_CHECKSUM_SIZE.
  assert (length (c ++ mac) = 16 + length p + 24)%nat as Hlen by (rewrite length_app; lia).
  destruct (Nat.ltb_spec (length (c ++ mac)) (16 + 24)); [lia|].
  unfold u64_max, zlen in *. rewrite Hlen.
  destruct (Z.ltb_spec (Z.min 18446744073709551615 (cl_max_decrypt_bytes limits + 40)) (Z.of_nat (16 + length p + 24))); [lia|].
  replace (16 + length p + 24 - 24)%nat with (length c) by lia. rewrite take_app_length, drop_app_length, Hmac.
  rewrite bool_decide_eq_true_2 by done. cbn [negb]. rewrite Hd, bind_Ok. split; [f_equal; by apply drop_app_length'|lia].
Qed.

(** A payload that fits is encrypted, and decrypted again. *)
Lemma envelope_roundtrip key payload usage confounder limits :
  key_ok key -> length confounder = 16%nat -> crypto_limits_ok limits ->
  9 + zlen payload <= cl_max_encrypt_bytes limits ->
  exists c, encrypt_with_magic key payload usage (Some confounder) limits = Ok c
    /\ decrypt_with_magic key c usage limits = Ok payload /\ zlen c <= zlen payload + 49.
Proof.
  intros Hk Hc Hl Hp. set (p := magic_header ++ payload).
  assert (zlen p <= cl_max_encrypt_bytes limits) as Hz by (unfold p; rewrite zlen_app; exact Hp).
  assert (exists c, encrypt_with_magic key payload usage (Some confounder) limits = Ok c
    /\ decrypt_payload key c usage limits = Ok p /\ zlen c <= zlen p + 40) as (c & He & Hd & Hlen).
  { unfold encrypt_with_magic, decrypt_payload, encrypt_payload. fold p. destruct Hk as [[Ht Hs]|[Ht Hs]]; rewrite Ht.
    - cbn [Z.eqb CRYPTO_AES Pos.eqb]. destruct (Z.ltb_spec (cl_max_encrypt_bytes limits) (zlen p)); [lia|]. by apply cbc_payload.
    - cbn [Z.eqb CRYPTO_AES CRYPTO_AES256_KRB5 Pos.eqb ok_or]. rewrite bind_Ok. by apply rfc8009_payload. }
  exists c. split; [done|]. split; [|unfold p in Hlen; rewrite zlen_app in Hlen; change (zlen magic_header) with 9 in Hlen; lia].
  unfold decrypt_with_magic. rewrite Hd, bind_Ok. unfold p.
  destruct (Nat.ltb_spec (length (magic_header ++ payload)) 9) as [H|_]; [rewrite length_app in H; change (length magic_header) with 9%nat in H; lia|].
  rewrite (drop_app_length' magic_header payload 9) by done.
  assert (take 8 (drop 1 (magic_header ++ payload)) = le_bytes 8 AUTH_ENC_MAGIC) as -> by done.
  rewrite le_value_bytes. done.
Qed.

(** What was encrypted is decrypted. *)
Lemma envelope_inverse key payload usage confounder limits c :
  key_ok key -> length confounder = 16%nat -> crypto_limits_ok limits ->
  encrypt_with_magic key payload usage (Some confounder) limits = Ok c ->
  decrypt_with_magic key c usage limits = Ok payload /\ zlen c <= zlen payload + 49.
Proof.
  intros Hk Hc Hl He. destruct (Z.le_gt_cases (9 + zlen payload) (cl_max_encrypt_bytes limits)) as [H|H].
  - destruct (envelope_roundtrip key payload usage confounder limits Hk Hc Hl H) as (c' & He' & Hd).
    rewrite He' in He. by apply Ok_inj in He as <-.
  - unfold encrypt_with_magic, encrypt_payload, encrypt_rfc8009_with_confounder in He.
    rewrite zlen_app in He. change (zlen magic_header) with 9 in He. rewrite (proj2 (Z.ltb_lt _ _) H) in He.
    destruct (ck_type_id key =? CRYPTO_AES); [done|]. destruct (ck_type_id key =? CRYPTO_AES256_KRB5); [|done].
    cbn [ok_or] in He. rewrite bind_Ok in He. by destruct (_ || _).
Qed.

(** A challenge can be answered with any key. *)
Lemma calculate_challenge_ok key a b limits :
  key_ok key -> 25 <= cl_max_encrypt_bytes limits -> crypto_limits_ok limits ->
  is_ok (calculate_challenge key a b limits) = true.
Proof.
  intros [[Ht Hs]|[Ht Hs]] Hm Hl; unfold calculate_challenge; rewrite Ht; cbn [Z.eqb CRYPTO_AES CRYPTO_AES256_KRB5 Pos.eqb]; [|done].
  unfold encrypt_with_magic, encrypt_payload. rewrite Ht. cbn [Z.eqb CRYPTO_AES Pos.eqb].
  set (p := magic_header ++ _). assert (zlen p = 25) as Hp by done. rewrite Hp.
  rewrite (proj2 (Z.ltb_ge _ _)) by lia. destruct (cbc_payload key p limits Ht Hs Hl) as (c & -> & _ & Hc); [lia|].
  rewrite bind_Ok. unfold try_u. pose proof (zlen_nonneg c).
  rewrite (proj2 (Z.leb_le _ _)), (proj2 (Z.ltb_lt _ _)) by lia. done.
Qed.
End Payloads.

(** ** Crates that keep the laws *)

(** The padding of PKCS 7. *)
Definition reference_pad (p : list byte) : list byte :=
  let n := (16 - length p mod 16)%nat in p ++ replicate n (byte_of_Z (Z.of_nat n)).

Definition reference_unpad (c : list byte) : option (list byte) :=
  match last c with
  | None => None
  | Some b => Some (take (length c - Z.to_nat (Z_of_byte b)) c)
  end.

(** Ciphers that change nothing, and HMACs that depend on nothing. *)
#[local] Instance reference_crates : CephxCrates := {
  aes256_encrypt_block _ b := b;
  aes256_decrypt_block _ b := b;
  cbc_aes128_encrypt _ _ p := reference_pad p;
  cbc_aes128_decrypt _ _ c := reference_unpad c;
  hmac_sha384 _ _ := zero_bytes 48;
  hmac_sha256 _ _ := zero_bytes 32
}.

Lemma reference_unpad_pad p : reference_unpad (reference_pad p) = Some p.
Proof.
  unfold reference_unpad, reference_pad. pose proof (Nat.mod_upper_bound (length p) 16 ltac:(lia)) as Hm.
  set (n := (16 - length p mod 16)%nat). assert (0 < n <= 16)%nat as Hn by (unfold n; lia).
  assert (last (p ++ replicate n (byte_of_Z (Z.of_nat n))) = Some (byte_of_Z (Z.of_nat n))) as ->.
  { destruct n as [|m] eqn:E; [lia|]. rewrite <- E. rewrite E at 1. rewrite replicate_S_end, app_assoc. apply last_snoc. }
  rewrite Z_of_byte_of_Z, Z.mod_small, Nat2Z.id by lia. rewrite length_app, length_replicate.
  f_equal. apply take_app_length'. lia.
Qed.

#[local] Instance reference_laws : CephxLaws reference_crates.
Proof.
  split; cbn; [done|done| | |done].
  - intros _ _ p. apply reference_unpad_pad.
  - intros _ _ p. unfold reference_pad, zlen. rewrite length_app, length_replicate, Nat2Z.inj_add, Nat2Z.inj_sub.
    + by rewrite Nat2Z.inj_mod.
    + pose proof (Nat.mod_upper_bound (length p) 16). lia.
Qed.

(** ** Properties *)

Section Properties.
  Context {crates : CephxCrates} `{!CephxLaws crates}.

(** Encryption is undone by decryption: with a key of either kind, every
    payload that fits with the header of nine bytes into the limit is
    encrypted, AES-128 in padded CBC mode and AES-256 with ciphertext stealing,
    whatever its length, and the confounder; the ciphertext is at most 49
    bytes longer, and decrypting it with the same key and usage gives back the
    payload. *)
Theorem cephx_roundtrip key payload usage confounder limits :
  key_ok key -> length confounder = 16%nat -> crypto_limits_ok limits ->
  9 + zlen payload <= cl_max_encrypt_bytes limits ->
  exists c, encrypt_with_magic key payload usage (Some confounder) limits = Ok c
    /\ decrypt_with_magic key c usage limits = Ok payload /\ zlen c <= zlen payload + 49.
Proof. apply envelope_roundtrip. Qed.
End Properties.

Lemma cephx_roundtrip_witness :
  let key := mkCryptoKey CRYPTO_AES256_KRB5 (replicate 32 x2a) in
  let payload := list_byte_of_string "twenty-one bytes long" in
  exists c, encrypt_with_magic key payload KEY_USAGE_AUTHORIZE (Some (replicate 16 x01)) CryptoLimits_default = Ok c
    /\ decrypt_with_magic key c KEY_USAGE_AUTHORIZE CryptoLimits_default = Ok payload /\ zlen c <= zlen payload + 49.
Proof.
  intros key payload. apply (cephx_roundtrip key payload).
  - by right.
  - done.
  - split; [split|]; vm_compute; (discriminate || reflexivity).
  - vm_compute. discriminate.
Defined.
