(* ===== verification/CephxCore.v ===== *)
(** * The payloads of CephX

    Models [src/src/cephx/core.rs] and the keys of [src/src/cephx/mod.rs]: the
    requests of an authentication, the replies with tickets and the connection
    secret, and the authorizers that prove to a service that the client holds a
    ticket.  A [Duration] is its number of nanoseconds. *)

From S2P Require Import Prelude Codec MapBase Text Frame Address BTree CephxCrypto.
From Stdlib Require Import ZArith Lia Strings.Byte Strings.String.
From stdpp Require Import base option gmap sorting numbers list.

Open Scope Z_scope.

(** ** Data *)

Definition AUTH_MODE_MON : Z := 10.
Definition CONNECTION_MODE_CRC : Z := 1.
Definition CONNECTION_MODE_SECURE : Z := 2.
Definition CONNECTION_SECRET_SIZE_SECURE : Z := 64.
Definition SERVICE_MONITOR : Z := 0x01.
Definition SERVICE_OSD : Z := 0x04.
Definition SERVICE_MANAGER : Z := 0x10.
Definition SERVICE_AUTH : Z := 0x20.
Definition CORE_ENTITY_CLIENT : Z := 0x08.
Definition GET_AUTH_SESSION_KEY : Z := 0x0100.
Definition GET_PRINCIPAL_SESSION_KEY : Z := 0x0200.

(** The first duration that is too long. *)
Definition duration_end : Z := 2 ^ 64 * 1000000000.

Record Credential : Type := mkCredential {
  cr_entity : list byte;
  cr_created_seconds : Z;
  cr_created_nanoseconds : Z;
  cr_secret : CryptoKey
}.

Record TicketBlob : Type := mkTicketBlob { tb_secret_id : Z; tb_blob : list byte }.

Record ServiceTicket : Type := mkServiceTicket {
  st_service_id : Z;
  st_ticket : TicketBlob;
  st_session_key : CryptoKey;
  st_expires_at : Z;
  st_renew_after : Z
}.

Record AuthSessionReply : Type := mkAuthSessionReply {
  as_request_type : Z;
  as_auth_session_key : CryptoKey;
  as_connection_secret : list byte;
  as_tickets : list (Z * ServiceTicket)
}.

Record Authorizer : Type := mkAuthorizer {
  az_base : list byte;
  az_payload : list byte;
  az_nonce : Z;
  az_service_id : Z
}.

(** [From<WireError>]. *)
Definition cephx_wire_error (e : WireError) : CephxError :=
  match e with
  | LimitExceeded => CX_LimitExceeded
  | Malformed | UnsupportedVersion _ _ => CX_MalformedPayload
  end.

(** [encoder.finish().map_err(Into::into)]. *)
Definition cephx_finish (e : Encoder) : result CephxError (list byte) :=
  map_err cephx_wire_error (Encoder_finish e).

(** ** Reading *)

Abbreviation CM := (DM CephxError).

Definition cephx_read_finish : CM unit := finish_with cephx_wire_error.

Definition cephx_finish_exact : CM unit :=
  _ ← cephx_read_finish;
  n ← remaining;
  throw_if (negb (n =? 0)) CX_MalformedPayload.

(** A decoder of its own on [payload]. *)
Definition reading {A} (payload : list byte) (max : Z) (m : CM A) : result CephxError A :=
  fst <$> m (Decoder_new payload max).

Definition encode_ticket_blob (e : Encoder) (t : TicketBlob) : Encoder :=
  Encoder_bytes (Encoder_u64 (Encoder_u8 e 1) (tb_secret_id t)) (tb_blob t).

Definition decode_ticket_blob (limits : CryptoLimits) : CM TicketBlob :=
  version ← rd Decoder_u8;
  secret_id ← rd Decoder_u64;
  blob ← rd Decoder_bytes;
  _ ← throw_if (negb (version =? 1)) CX_InvalidVersion;
  _ ← throw_if (cl_max_ticket_blob_bytes limits <? zlen blob) CX_LimitExceeded;
  mret (mkTicketBlob secret_id blob).

Definition decode_utime : CM Z :=
  seconds ← rd Decoder_u32;
  nanoseconds ← rd Decoder_u32;
  _ ← throw_if (1000000000 <=? nanoseconds) CX_MalformedPayload;
  mret (seconds * 1000000000 + nanoseconds).

Definition valid_key_parameters (type_id secret_length : Z) : bool :=
  (type_id =? CRYPTO_AES) && (secret_length =? 16)
  || (type_id =? CRYPTO_AES256_KRB5) && (secret_length =? 32).

Definition decode_secret_key (limits : CryptoLimits) : CM CryptoKey :=
  type_id ← rd Decoder_u16;
  _ ← decode_utime;
  len ← rd Decoder_u16;
  _ ← throw_if (negb (valid_key_parameters type_id len)) CX_UnsupportedType;
  _ ← throw_if (cl_max_decrypt_bytes limits <? len) CX_LimitExceeded;
  secret ← rd (fun d => Decoder_raw d len);
  mret (mkCryptoKey type_id secret).

(** ** Requests *)

Definition build_initial_payload (credential : Credential) (global_id : Z) (limits : CryptoLimits)
    : result CephxError (list byte) :=
  match strip_prefix_bytes (list_byte_of_string "client.") (cr_entity credential) with
  | None => Err CX_InvalidCredential
  | Some name =>
      let e := Encoder_new (cl_max_auth_bytes limits) in
      let e := Encoder_u8 e AUTH_MODE_MON in
      let e := Encoder_u32 e CORE_ENTITY_CLIENT in
      let e := Encoder_bytes e name in
      let e := Encoder_u64 e global_id in
      cephx_finish e
  end.

Definition parse_server_challenge (payload : list byte) (limits : CryptoLimits) : result CephxError Z :=
  if cl_max_auth_bytes limits <? zlen payload then Err CX_LimitExceeded
  else
    reading payload (cl_max_auth_bytes limits)
      (version ← rd Decoder_u8;
       challenge ← rd Decoder_u64;
       _ ← cephx_finish_exact;
       _ ← throw_if (negb (version =? 1)) CX_InvalidVersion;
       mret challenge).

Definition build_service_ticket_request (authorizer : list byte) (requested_keys : Z) (limits : CryptoLimits)
    : result CephxError (list byte) :=
  if cl_max_auth_bytes limits <? zlen authorizer then Err CX_LimitExceeded
  else
    let e := Encoder_new (cl_max_auth_bytes limits) in
    let e := Encoder_u16 e GET_PRINCIPAL_SESSION_KEY in
    let e := Encoder_raw e authorizer in
    let e := Encoder_u8 e 1 in
    let e := Encoder_u32 e requested_keys in
    cephx_finish e.

Section Core.
  Context {crates : CephxCrates}.

Definition build_challenge_request (credential : Credential) (server_challenge client_challenge : Z)
    (old_ticket : TicketBlob) (requested_keys : Z) (limits : CryptoLimits) : result CephxError (list byte) :=
  if cl_max_ticket_blob_bytes limits <? zlen (tb_blob old_ticket) then Err CX_LimitExceeded
  else
    challenge_key ← calculate_challenge (cr_secret credential) server_challenge client_challenge limits;
    let e := Encoder_new (cl_max_auth_bytes limits) in
    let e := Encoder_u16 e GET_AUTH_SESSION_KEY in
    let e := Encoder_u8 e 3 in
    let e := Encoder_u64 e client_challenge in
    let e := Encoder_u64 e challenge_key in
    let e := encode_ticket_blob e old_ticket in
    let e := Encoder_u32 e requested_keys in
    cephx_finish e.

(** ** Replies *)

Definition decode_envelope (key : CryptoKey) (usage : Z) (limits : CryptoLimits) : CM (list byte) :=
  encrypted ← rd Decoder_bytes;
  _ ← cephx_read_finish;
  lift (decrypt_with_magic key encrypted usage limits).

Definition decrypt_envelope (key : CryptoKey) (encoded : list byte) (usage : Z) (limits : CryptoLimits)
    : result CephxError (list byte) :=
  reading encoded (cl_max_auth_bytes limits)
    (value ← decode_envelope key usage limits;
     _ ← cephx_finish_exact;
     mret value).

(** What the encrypted part of a ticket says: its session key and validity. *)
Definition read_service_payload (payload : list byte) (limits : CryptoLimits) : result CephxError (CryptoKey * Z) :=
  reading payload (cl_max_auth_bytes limits)
    (version ← rd Decoder_u8;
     _ ← throw_if (negb (version =? 1)) CX_InvalidVersion;
     session_key ← decode_secret_key limits;
     validity ← decode_utime;
     _ ← cephx_finish_exact;
     mret (session_key, validity)).

Definition read_ticket_payload (existing_auth_key : option CryptoKey) (limits : CryptoLimits) : CM (list byte) :=
  flag ← rd Decoder_u8;
  if flag =? 0 then rd Decoder_bytes
  else if flag =? 1 then
    key ← lift (ok_or existing_auth_key CX_MissingTicket);
    encrypted ← decode_envelope key KEY_USAGE_TICKET_BLOB limits;
    lift (reading encrypted (cl_max_auth_bytes limits)
               (value ← rd Decoder_bytes; _ ← cephx_finish_exact; mret value))
  else throw CX_MalformedPayload.

(** One round of the loop over the tickets of a reply. *)
Definition parse_ticket (decrypt_key : CryptoKey) (existing_auth_key : option CryptoKey) (now : Z)
    (limits : CryptoLimits) (tickets : list (Z * ServiceTicket)) : CM (list (Z * ServiceTicket)) :=
  service_id ← rd Decoder_u32;
  _ ← throw_if (bool_decide (is_Some (btree_get Z.compare service_id tickets))) CX_MalformedPayload;
  version ← rd Decoder_u8;
  _ ← throw_if (negb (version =? 1)) CX_InvalidVersion;
  service_payload ← decode_envelope decrypt_key KEY_USAGE_TICKET_SESSION_KEY limits;
  '(session_key, validity) ← lift (read_service_payload service_payload limits);
  _ ← throw_if (validity =? 0) CX_ExpiredTicket;
  ticket_payload ← read_ticket_payload existing_auth_key limits;
  ticket ← lift (reading ticket_payload (cl_max_auth_bytes limits)
                      (t ← decode_ticket_blob limits; _ ← cephx_finish_exact; mret t));
  _ ← throw_if (duration_end <=? now + validity) CX_LimitExceeded;
  let expires_at := now + validity in
  _ ← throw_if (expires_at <? validity / 4) CX_MalformedPayload;
  let renew_after := expires_at - validity / 4 in
  mret (btree_insert Z.compare service_id
          (mkServiceTicket service_id ticket session_key expires_at renew_after) tickets).

Fixpoint parse_tickets (n : nat) (decrypt_key : CryptoKey) (existing_auth_key : option CryptoKey) (now : Z)
    (limits : CryptoLimits) (tickets : list (Z * ServiceTicket)) : CM (list (Z * ServiceTicket)) :=
  match n with
  | O => mret tickets
  | S n =>
      tickets ← parse_ticket decrypt_key existing_auth_key now limits tickets;
      parse_tickets n decrypt_key existing_auth_key now limits tickets
  end.

Definition parse_service_ticket_reply (decrypt_key : CryptoKey) (existing_auth_key : option CryptoKey) (now : Z)
    (limits : CryptoLimits) (max_tickets : Z) : CM (list (Z * ServiceTicket)) :=
  version ← rd Decoder_u8;
  count ← rd Decoder_u32;
  _ ← throw_if (negb (version =? 1)) CX_InvalidVersion;
  _ ← throw_if (max_tickets <? count) CX_LimitExceeded;
  parse_tickets (Z.to_nat count) decrypt_key existing_auth_key now limits [].

(** [for (service_id, ticket) in extra], which may not name a service again. *)
Fixpoint merge_tickets (tickets extra : list (Z * ServiceTicket)) : result CephxError (list (Z * ServiceTicket)) :=
  match extra with
  | [] => Ok tickets
  | (service_id, ticket) :: extra =>
      if bool_decide (is_Some (btree_get Z.compare service_id tickets)) then Err CX_MalformedPayload
      else merge_tickets (btree_insert Z.compare service_id ticket tickets) extra
  end.

Definition read_connection_secret (auth_session_key : CryptoKey) (connection_blob : list byte)
    (connection_mode : Z) (limits : CryptoLimits) : result CephxError (list byte) :=
  if bool_decide (connection_blob = []) then Ok []
  else if negb (connection_mode =? CONNECTION_MODE_SECURE) then Err CX_InvalidMode
  else
    plaintext ← decrypt_envelope auth_session_key connection_blob KEY_USAGE_AUTH_CONNECTION_SECRET limits;
    reading plaintext (cl_max_connection_secret_bytes limits)
      (secret ← rd Decoder_bytes;
       _ ← cephx_finish_exact;
       _ ← throw_if (negb (zlen secret =? CONNECTION_SECRET_SIZE_SECURE)) CX_MalformedPayload;
       mret secret).

Definition read_extra_tickets (auth_session_key : CryptoKey) (extra_tickets_blob : list byte) (now : Z)
    (limits : CryptoLimits) (tickets : list (Z * ServiceTicket)) : result CephxError (list (Z * ServiceTicket)) :=
  if bool_decide (extra_tickets_blob = []) then Ok tickets
  else
    let remaining := saturating_sub (cl_max_tickets limits) (zlen tickets) in
    extra ← reading extra_tickets_blob (cl_max_auth_bytes limits)
              (extra ← parse_service_ticket_reply auth_session_key None now limits remaining;
               _ ← cephx_finish_exact;
               mret extra);
    merge_tickets tickets extra.

Definition parse_auth_session_reply (payload : list byte) (principal_secret : CryptoKey)
    (existing_auth_key : option CryptoKey) (connection_mode now : Z) (limits : CryptoLimits)
    : result CephxError AuthSessionReply :=
  if negb ((connection_mode =? CONNECTION_MODE_CRC) || (connection_mode =? CONNECTION_MODE_SECURE))
  then Err CX_InvalidMode
  else if cl_max_auth_bytes limits <? zlen payload then Err CX_LimitExceeded
  else
    reading payload (cl_max_auth_bytes limits)
      (request_type ← rd Decoder_u16;
       status ← rd Decoder_i32;
       _ ← cephx_read_finish;
       _ ← throw_if (negb (status =? 0)) CX_InvalidStatus;
       _ ← throw_if (negb (request_type =? GET_AUTH_SESSION_KEY)) CX_UnsupportedType;
       tickets ← parse_service_ticket_reply principal_secret existing_auth_key now limits (cl_max_tickets limits);
       ticket ← lift (ok_or (btree_get Z.compare SERVICE_AUTH tickets) CX_MissingTicket);
       let auth_session_key := st_session_key ticket in
       rest ← remaining;
       if rest =? 0 then mret (mkAuthSessionReply request_type auth_session_key [] tickets)
       else
         connection_blob ← rd Decoder_bytes;
         extra_tickets_blob ← rd Decoder_bytes;
         _ ← cephx_finish_exact;
         connection_secret ← lift (read_connection_secret auth_session_key connection_blob connection_mode limits);
         tickets ← lift (read_extra_tickets auth_session_key extra_tickets_blob now limits tickets);
         mret (mkAuthSessionReply request_type auth_session_key connection_secret tickets)).

(** ** Authorizers *)

Definition encrypt_authorize (session_key : CryptoKey) (nonce : Z) (challenge_plus_one : option Z)
    (confounder : option (list byte)) (limits : CryptoLimits) : result CephxError (list byte) :=
  let e := Encoder_new (cl_max_auth_bytes limits) in
  let e := Encoder_u8 e 2 in
  let e := Encoder_u64 e nonce in
  let e := Encoder_bool e (bool_decide (is_Some challenge_plus_one)) in
  let e := Encoder_u64 e (default 0 challenge_plus_one) in
  plaintext ← cephx_finish e;
  encrypted ← encrypt_with_magic session_key plaintext KEY_USAGE_AUTHORIZE confounder limits;
  cephx_finish (Encoder_bytes (Encoder_new (cl_max_auth_bytes limits)) encrypted).

Definition build_authorizer (service_id global_id : Z) (ticket : ServiceTicket) (now nonce : Z)
    (confounder : option (list byte)) (limits : CryptoLimits) : result CephxError Authorizer :=
  if negb (st_service_id ticket =? service_id) then Err CX_MalformedPayload
  else if (st_expires_at ticket =? 0) || (st_expires_at ticket <=? now) then Err CX_ExpiredTicket
  else
    let e := Encoder_new (cl_max_auth_bytes limits) in
    let e := Encoder_u8 e 1 in
    let e := Encoder_u64 e global_id in
    let e := Encoder_u32 e service_id in
    let e := encode_ticket_blob e (st_ticket ticket) in
    base ← cephx_finish e;
    encrypted ← encrypt_authorize (st_session_key ticket) nonce None confounder limits;
    let payload := base ++ encrypted in
    if cl_max_auth_bytes limits <? zlen payload then Err CX_LimitExceeded
    else Ok (mkAuthorizer base payload nonce service_id).

Definition add_authorizer_challenge (authorizer : Authorizer) (challenge : list byte) (session_key : CryptoKey)
    (confounder : option (list byte)) (limits : CryptoLimits) : result CephxError Authorizer :=
  plaintext ← decrypt_with_magic session_key challenge KEY_USAGE_AUTHORIZE_CHALLENGE limits;
  server_challenge ← reading plaintext (cl_max_auth_bytes limits)
    (version ← rd Decoder_u8;
     server_challenge ← rd Decoder_u64;
     _ ← cephx_finish_exact;
     _ ← throw_if (negb (version =? 1)) CX_InvalidVersion;
     mret server_challenge);
  encrypted ← encrypt_authorize session_key (az_nonce authorizer) (Some (wrap 64 (server_challenge + 1)))
                confounder limits;
  let payload := az_base authorizer ++ encrypted in
  if cl_max_auth_bytes limits <? zlen payload then Err CX_LimitExceeded
  else Ok (mkAuthorizer (az_base authorizer) payload (az_nonce authorizer) (az_service_id authorizer)).

Definition verify_authorizer_reply (payload : list byte) (session_key : CryptoKey) (nonce : Z)
    (limits : CryptoLimits) : result CephxError (list byte) :=
  encrypted ← reading payload (cl_max_auth_bytes limits)
    (encrypted ← rd Decoder_bytes; _ ← cephx_finish_exact; mret encrypted);
  plaintext ← decrypt_with_magic session_key encrypted KEY_USAGE_AUTHORIZE_REPLY limits;
  reading plaintext (cl_max_auth_bytes limits)
    (version ← rd Decoder_u8;
     nonce_plus_one ← rd Decoder_u64;
     secret ← (if 2 <=? version then rd Decoder_bytes else mret []);
     _ ← cephx_finish_exact;
     _ ← throw_if (version <? 1) CX_InvalidVersion;
     _ ← throw_if (negb (nonce_plus_one =? wrap 64 (nonce + 1))) CX_InvalidNonce;
     _ ← throw_if (cl_max_connection_secret_bytes limits <? zlen secret) CX_LimitExceeded;
     mret secret).

End Core.

(** ** Lemmas on readers *)

Lemma read_to_ok d d' : read_to d d' -> cursor_ok d'.
Proof. by intros (_ & _ & C & _). Qed.

Lemma read_to_error d d' : read_to d d' -> dec_error d' = None -> dec_error d = None.
Proof. intros (_ & _ & _ & _ & H). exact H. Qed.

Lemma cursor_new l m : cursor_ok (Decoder_new l m).
Proof. unfold cursor_ok, Decoder_new. cbn. pose proof (zlen_nonneg l). lia. Qed.

Lemma reading_inv {A} payload max (m : CM A) a :
  reading payload max m = Ok a -> exists d, m (Decoder_new payload max) = Ok (a, d).
Proof.
  unfold reading. destruct (m _) as [[x d]|]; [|done]. intros H. apply Ok_inj in H. exists d. by rewrite <- H.
Qed.

Lemma finish_exact_inv d u d' :
  cephx_finish_exact d = Ok (u, d') -> d' = d /\ dec_error d = None /\ Decoder_remaining d = 0.
Proof.
  unfold cephx_finish_exact. intros H. apply DM_bind_inv in H as ([] & d1 & H1 & H).
  apply finish_inv in H1 as [-> E]. apply DM_bind_inv in H as (n & d2 & H2 & H).
  apply Ok_inj in H2. injection H2 as <- <-. apply throw_if_inv in H as [H ->].
  apply negb_false_iff, Z.eqb_eq in H. done.
Qed.

(** Takes a successful run of these decoders apart. *)
Ltac cm_inv :=
  repeat first
    [ progress dm_inv
    | match goal with
      | H : lift _ _ = Ok (_, _) |- _ => apply lift_inv in H as [H ->]
      | H : reading _ _ _ = Ok _ |- _ => apply reading_inv in H as (? & H)
      | H : cephx_finish_exact _ = Ok (_, _) |- _ => apply finish_exact_inv in H as (-> & ? & ?)
      | H : cephx_read_finish _ = Ok (_, _) |- _ => apply finish_inv in H as (-> & ?)
      | H : negb _ = false |- _ => apply negb_false_iff in H
      | H : (_ =? _) = true |- _ => apply Z.eqb_eq in H
      | H : (_ =? _) = false |- _ => apply Z.eqb_neq in H
      | H : (_ <? _) = false |- _ => apply Z.ltb_ge in H
      | H : (_ <=? _) = false |- _ => apply Z.leb_gt in H
      end ].

(** ** Tickets *)

Lemma decode_utime_spec d v d' :
  cursor_ok d -> decode_utime d = Ok (v, d') -> read_to d d' /\ 0 <= v < 2 ^ 32 * 1000000000.
Proof.
  intros C H. unfold decode_utime in H. cm_inv.
  apply Decoder_uint_spec in R as (R1 & V1 & _); [|done]. apply Decoder_uint_spec in R0 as (R2 & V2 & _); [|by eapply read_to_ok].
  split; [by eapply read_to_trans|]. unfold in_u in *. lia.
Qed.

Lemma decode_secret_key_spec limits d k d' :
  cursor_ok d -> decode_secret_key limits d = Ok (k, d') ->
  read_to d d' /\ (dec_error d' = None -> key_ok k).
Proof.
  intros C H. unfold decode_secret_key in H. cm_inv.
  match goal with K : Decoder_u16 d = _ |- _ => apply Decoder_uint_spec in K as (T1 & _); [|done] end.
  match goal with K : decode_utime _ = _ |- _ => apply decode_utime_spec in K as (T2 & _); [|by eapply read_to_ok] end.
  match goal with K : Decoder_u16 _ = _ |- _ => apply Decoder_uint_spec in K as (T3 & V3 & _); [|by eapply read_to_ok] end.
  match goal with K : Decoder_raw _ _ = _ |- _ =>
    apply Decoder_take_spec in K as (T4 & Hl & _); [|by eapply read_to_ok|unfold in_u in V3; lia] end.
  split; [by do 3 (eapply read_to_trans; [eassumption|])|]. intros E. destruct (Hl E) as (Hz & _).
  unfold key_ok, valid_key_parameters, zlen in *. cbn [ck_type_id ck_secret].
  match goal with K : _ || _ = true |- _ => apply orb_true_iff in K as [K|K]; apply andb_true_iff in K as [K1 K2] end;
    apply Z.eqb_eq in K1, K2; [left|right]; (split; [done|lia]).
Qed.

(** What a ticket filed under a service is: it is for that service, its key can
    be used, it is not yet expired, and three quarters of its validity pass
    before it is renewed. *)
Definition ticket_ok (limits : CryptoLimits) (now : Z) (e : Z * ServiceTicket) : Prop :=
  let (service_id, t) := e in
  st_service_id t = service_id /\ key_ok (st_session_key t)
  /\ zlen (tb_blob (st_ticket t)) <= cl_max_ticket_blob_bytes limits
  /\ now < st_expires_at t < duration_end
  /\ st_renew_after t = st_expires_at t - (st_expires_at t - now) / 4.

Definition tickets_ok (limits : CryptoLimits) (now : Z) (l : list (Z * ServiceTicket)) : Prop :=
  btree_sorted l /\ Forall (ticket_ok limits now) l.

Lemma tickets_ok_insert limits now k t l :
  tickets_ok limits now l -> ticket_ok limits now (k, t) -> tickets_ok limits now (btree_insert Z.compare k t l).
Proof.
  intros [Hs Hl] Ht. split; [by apply btree_insert_sorted|]. rewrite Forall_forall in *. intros e He.
  apply btree_insert_elem in He as [->|He]; [done|by apply Hl].
Qed.

Section Replies.
  Context {crates : CephxCrates}.

Lemma read_service_payload_spec payload limits k validity :
  read_service_payload payload limits = Ok (k, validity) -> key_ok k /\ 0 <= validity.
Proof.
  unfold read_service_payload. intros H. apply reading_inv in H as (d & H). cm_inv.
  match goal with K : Decoder_u8 _ = _ |- _ => apply Decoder_uint_spec in K as (T1 & _); [|apply cursor_new] end.
  match goal with K : decode_secret_key _ _ = _ |- _ => apply decode_secret_key_spec in K as (T2 & Hk); [|by eapply read_to_ok] end.
  match goal with K : decode_utime _ = _ |- _ => apply decode_utime_spec in K as (T3 & Hv); [|by eapply read_to_ok] end.
  split; [|lia]. apply Hk. by eapply read_to_error.
Qed.

Lemma parse_ticket_spec key existing now limits tickets d tickets' d' :
  tickets_ok limits now tickets -> parse_ticket key existing now limits tickets d = Ok (tickets', d') ->
  tickets_ok limits now tickets' /\ (length tickets' <= S (length tickets))%nat.
Proof.
  intros Ht H. unfold parse_ticket in H. apply DM_bind_inv in H as (service_id & d0 & _ & H). cm_inv.
  split; [|by apply btree_insert_length]. apply tickets_ok_insert; [done|].
  match goal with K : read_service_payload _ _ = _ |- _ => apply read_service_payload_spec in K as [Hk Hv] end.
  unfold ticket_ok. cbn [st_service_id st_session_key st_ticket st_expires_at st_renew_after].
  split; [done|]. split; [done|]. split; [|split; [lia|f_equal; f_equal; lia]].
  match goal with K : (_ ≫= _) _ = _ |- _ => idtac | K : decode_ticket_blob _ _ = _ |- _ => unfold decode_ticket_blob in K end.
  cm_inv. done.
Qed.

Lemma parse_tickets_spec key existing now limits n : forall tickets d tickets' d',
  tickets_ok limits now tickets -> parse_tickets n key existing now limits tickets d = Ok (tickets', d') ->
  tickets_ok limits now tickets' /\ (length tickets' <= n + length tickets)%nat.
Proof.
  induction n as [|n IH]; intros tickets d tickets' d' Ht H; cbn [parse_tickets] in H.
  - apply DM_ret_inv in H as [-> _]. split; [done|lia].
  - apply DM_bind_inv in H as (t1 & d1 & H1 & H). apply parse_ticket_spec in H1 as [Ht1 Hl]; [|done].
    apply IH in H as [Ht2 Hl2]; [|done]. split; [done|lia].
Qed.

Lemma parse_reply_spec key existing now limits max d tickets d' :
  cursor_ok d -> parse_service_ticket_reply key existing now limits max d = Ok (tickets, d') ->
  tickets_ok limits now tickets /\ zlen tickets <= max.
Proof.
  intros C H. unfold parse_service_ticket_reply in H. cm_inv.
  match goal with K : Decoder_u8 _ = _ |- _ => apply Decoder_uint_spec in K as (T1 & _); [|done] end.
  match goal with K : Decoder_u32 _ = _ |- _ => apply Decoder_uint_spec in K as (T2 & V2 & _); [|by eapply read_to_ok] end.
  apply parse_tickets_spec in H as [Ht Hl]; [|split; constructor]. split; [done|].
  unfold zlen, in_u in *. cbn [length] in Hl. lia.
Qed.

Lemma merge_tickets_spec limits now extra : forall tickets tickets',
  tickets_ok limits now tickets -> Forall (ticket_ok limits now) extra ->
  merge_tickets tickets extra = Ok tickets' ->
  tickets_ok limits now tickets' /\ (length tickets' <= length tickets + length extra)%nat
  /\ forall t, btree_get Z.compare SERVICE_AUTH tickets = Some t -> btree_get Z.compare SERVICE_AUTH tickets' = Some t.
Proof.
  induction extra as [|[k t] extra IH]; intros tickets tickets' Ht He H; cbn in H.
  - apply Ok_inj in H as <-. split; [done|]. split; [lia|done].
  - destruct (bool_decide_reflect (is_Some (btree_get Z.compare k tickets))) as [|Hn]; [done|]. inversion He; subst.
    apply IH in H as (T1 & T2 & T3); [|by apply tickets_ok_insert|done]. pose proof (btree_insert_length k t tickets).
    split; [done|]. split; [cbn; lia|]. intros s Hs. apply T3. rewrite btree_get_insert_ne; [done|].
    intros ->. apply Hn. by rewrite Hs.
Qed.
Lemma read_extra_spec key blob now limits tickets tickets' :
  tickets_ok limits now tickets -> zlen tickets <= cl_max_tickets limits ->
  read_extra_tickets key blob now limits tickets = Ok tickets' ->
  tickets_ok limits now tickets' /\ zlen tickets' <= cl_max_tickets limits
  /\ forall t, btree_get Z.compare SERVICE_AUTH tickets = Some t -> btree_get Z.compare SERVICE_AUTH tickets' = Some t.
Proof.
  intros Ht Hn H. unfold read_extra_tickets in H. case_bool_decide; [by apply Ok_inj in H as <-|].
  apply bind_inv in H as (extra & He & H). apply reading_inv in He as (d & He). cm_inv.
  match goal with K : parse_service_ticket_reply _ _ _ _ _ _ = _ |- _ =>
    apply parse_reply_spec in K as [Ht' Hn']; [|apply cursor_new] end.
  apply (merge_tickets_spec limits now) in H as (T1 & T2 & T3); [|done|apply Ht'].
  split; [done|]. split; [|done]. unfold saturating_sub, zlen in *. lia.
Qed.

Lemma read_connection_secret_spec key blob mode limits secret :
  read_connection_secret key blob mode limits = Ok secret ->
  secret = [] \/ mode = CONNECTION_MODE_SECURE /\ zlen secret = CONNECTION_SECRET_SIZE_SECURE.
Proof.
  unfold read_connection_secret. case_bool_decide; intros H0; [left; by apply Ok_inj in H0 as <-|].
  destruct (Z.eqb_spec mode CONNECTION_MODE_SECURE); [|done]. right. cbn [negb] in H0.
  apply bind_inv in H0 as (plain & _ & H0). cm_inv. done.
Qed.

(** C17. Whatever bytes a monitor sends, an authentication reply is rejected or
    gives tickets that can be used: each is filed under its own service, in
    the order of the services and no more than the limit, holds a key of the
    size its cipher needs and a blob within the limit, is still valid and is
    renewed when a quarter of its validity is left; there is one for the
    authentication service, whose key is the session key; and a connection
    secret is only taken in secure mode, and has its size. *)
Theorem auth_reply_sound payload secret existing mode now limits reply :
  parse_auth_session_reply payload secret existing mode now limits = Ok reply ->
  (mode = CONNECTION_MODE_CRC \/ mode = CONNECTION_MODE_SECURE)
  /\ as_request_type reply = GET_AUTH_SESSION_KEY
  /\ tickets_ok limits now (as_tickets reply) /\ zlen (as_tickets reply) <= cl_max_tickets limits
  /\ (exists t, btree_get Z.compare SERVICE_AUTH (as_tickets reply) = Some t
               /\ st_session_key t = as_auth_session_key reply)
  /\ (as_connection_secret reply = []
      \/ mode = CONNECTION_MODE_SECURE /\ zlen (as_connection_secret reply) = CONNECTION_SECRET_SIZE_SECURE).
Proof.
  unfold parse_auth_session_reply. destruct ((mode =? _) || _) eqn:Em; [|done]. cbn [negb].
  destruct (_ <? _); [done|]. intros H. apply reading_inv in H as (d & H). apply orb_true_iff in Em. rewrite !Z.eqb_eq in Em.
  split; [done|]. cm_inv.
  match goal with K : Decoder_u16 _ = _ |- _ => apply Decoder_uint_spec in K as (T1 & _); [|apply cursor_new] end.
  match goal with K : Decoder_i32 _ = _ |- _ => unfold Decoder_i32 in K;
    destruct (Decoder_u32 _) as [w dw] eqn:Eu in K; injection K as _ <- end.
  apply Decoder_uint_spec in Eu as (T2 & _); [|by eapply read_to_ok].
  match goal with K : parse_service_ticket_reply _ _ _ _ _ _ = _ |- _ =>
    apply parse_reply_spec in K as [Ht Hn]; [|by eapply read_to_ok] end.
  match goal with K : ok_or _ _ = _ |- _ => apply ok_or_inv in K end.
  match goal with K : (if ?c then _ else _) _ = _ |- _ => destruct c end; cm_inv; cbn.
  - split_and!; eauto.
  - match goal with K : read_extra_tickets _ _ _ _ _ = _ |- _ => apply read_extra_spec in K as (U1 & U2 & U3); [|done..] end.
    match goal with K : read_connection_secret _ _ _ _ = _ |- _ => apply read_connection_secret_spec in K end.
    split_and!; eauto.
Qed.
End Replies.
