(* ===== verification/CephxProps.v ===== *)
(** * The exchanges of CephX

    What the other ends send, from the layout of their messages, and that the
    client of [CephxCore] understands them: the monitor's reply to an
    authentication, and the exchange of authorizers with a service. *)

From S2P Require Import Prelude Codec Frame Address BTree CephxCrypto CephxCore.
From Stdlib Require Import ZArith Lia Strings.Byte Strings.String.
From stdpp Require Import base option gmap sorting numbers list.

Open Scope Z_scope.

(** ** Readers that succeed *)

(** [m] takes [a] from [d] and leaves [rest]. *)
Definition takes {E A} (m : DM E A) (d : Decoder) (a : A) (rest : list byte) : Prop :=
  exists d', m d = Ok (a, d') /\ unread d' rest /\ dec_max_bytes d' = dec_max_bytes d.

Lemma unread_new p max : unread (Decoder_new p max) p.
Proof. by split_and!. Qed.

Lemma takes_bind {E A B} (m : DM E A) (k : A -> DM E B) d a mid b rest :
  takes m d a mid ->
  (forall d', unread d' mid -> dec_max_bytes d' = dec_max_bytes d -> takes (k a) d' b rest) ->
  takes (m ≫= k) d b rest.
Proof.
  intros (d1 & H1 & Hu & Hm) Hk. destruct (Hk d1 Hu Hm) as (d2 & H2 & Hu2 & Hm2).
  exists d2. rewrite (DM_bind_Ok _ _ _ _ _ H1). split_and!; [done|done|congruence].
Qed.

Lemma takes_rd {E A} {put get image valid bounded} `{!WireFormat put get image valid bounded} d (a : A) rest :
  unread d (image a ++ rest) -> valid a -> bounded (dec_max_bytes d) a -> takes (E := E) (rd get) d a rest.
Proof.
  intros Hu Hv Hb. eexists. split; [unfold rd; by rewrite (get_image d a rest Hv Hb Hu)|].
  split; [by apply unread_app|done].
Qed.

Lemma takes_ret {E A} (a : A) d rest : unread d rest -> takes (E := E) (mret a) d a rest.
Proof. intros Hu. by exists d. Qed.

Lemma takes_throw {E} c (e : E) d rest : unread d rest -> c = false -> takes (throw_if c e) d tt rest.
Proof. intros Hu ->. by exists d. Qed.

Lemma takes_lift {E A} (r : result E A) a d rest : unread d rest -> r = Ok a -> takes (lift r) d a rest.
Proof. intros Hu ->. by exists d. Qed.

Lemma takes_finish d rest : unread d rest -> takes cephx_read_finish d tt rest.
Proof.
  intros Hu. exists d. unfold cephx_read_finish, finish_with, Decoder_finish. pose proof Hu as (-> & _). done.
Qed.

Lemma takes_exact d : unread d [] -> takes cephx_finish_exact d tt [].
Proof.
  intros Hu. unfold cephx_finish_exact. eapply takes_bind; [by apply takes_finish|]. intros d1 Hu1 _.
  eapply (takes_bind _ _ _ 0 []); [|intros d2 Hu2 _; by apply takes_throw].
  exists d1. unfold remaining. rewrite (unread_remaining _ _ Hu1). done.
Qed.

Lemma takes_remaining {E} d rest : unread d rest -> takes (E := E) remaining d (zlen rest) rest.
Proof. intros Hu. exists d. unfold remaining. by rewrite (unread_remaining _ _ Hu). Qed.

Lemma takes_raw {E} d p rest : unread d (p ++ rest) -> takes (E := E) (rd (fun d => Decoder_raw d (zlen p))) d p rest.
Proof.
  intros Hu. eexists. split; [unfold rd, Decoder_raw; by rewrite (Decoder_take_unread _ _ _ Hu)|].
  split; [by apply unread_app|done].
Qed.

Lemma takes_bytes {E} d v rest :
  unread d (le_bytes 4 (zlen v) ++ v ++ rest) -> zlen v < 2 ^ 32 -> zlen v <= dec_max_bytes d ->
  takes (E := E) (rd Decoder_bytes) d v rest.
Proof.
  intros Hu H32 Hm. rewrite app_assoc in Hu. pose proof (zlen_nonneg v).
  eapply takes_rd; [exact Hu|unfold in_u; lia|done].
Qed.

Lemma takes_reading {A} payload max (m : CM A) a rest :
  takes m (Decoder_new payload max) a rest -> reading payload max m = Ok a.
Proof. intros (d & H & _). unfold reading. by rewrite H. Qed.

(** Runs one step of a reader whose input is known. *)
Ltac takes_step :=
  lazymatch goal with
  | Hu : unread ?d _ |- takes (mbind _ _) ?d _ _ =>
      eapply takes_bind;
      [ lazymatch goal with
        | |- takes (rd (fun d => Decoder_raw d _)) _ _ _ => eapply takes_raw; exact Hu
        | |- takes (rd Decoder_bytes) _ _ _ => eapply takes_bytes; [exact Hu| |]
        | |- takes (rd _) _ _ _ => eapply takes_rd; [exact Hu|try done|try exact I]
        | |- takes (throw_if _ _) _ _ _ => eapply takes_throw; [exact Hu|try done]
        | |- takes cephx_read_finish _ _ _ => eapply takes_finish; exact Hu
        | |- takes cephx_finish_exact _ _ _ => eapply takes_exact; exact Hu
        | |- takes remaining _ _ _ => eapply takes_remaining; exact Hu
        | |- takes (lift _) _ _ _ => eapply takes_lift; [exact Hu|]
        | |- _ => idtac
        end
      | let Hm := fresh "Hm" in let d' := fresh "d" in
        clear Hu; intros d' Hu Hm; rewrite ?Hm in * ]
  | Hu : unread ?d _ |- takes (mret _) ?d _ _ => eapply takes_ret; exact Hu
  end.

(** ** Tickets a monitor grants *)

Record Grant : Type := mkGrant {
  gr_service : Z;
  gr_key : CryptoKey;
  gr_validity : Z;
  gr_ticket : TicketBlob;
  gr_confounder : list byte
}.

Definition ticket_image (t : TicketBlob) : list byte :=
  fields_image [F_u8 1; F_u64 (tb_secret_id t); F_bytes (tb_blob t)].

Definition service_image (g : Grant) : list byte :=
  le_bytes 1 1 ++ le_bytes 2 (ck_type_id (gr_key g)) ++ le_bytes 4 0 ++ le_bytes 4 0
  ++ le_bytes 2 (zlen (ck_secret (gr_key g))) ++ ck_secret (gr_key g)
  ++ le_bytes 4 (gr_validity g / 1000000000) ++ le_bytes 4 (gr_validity g mod 1000000000).

Definition grant_ok (limits : CryptoLimits) (now : Z) (g : Grant) : Prop :=
  in_u 32 (gr_service g) /\ key_ok (gr_key g)
  /\ 0 < gr_validity g < 2 ^ 32 * 1000000000 /\ now + gr_validity g < duration_end
  /\ in_u 64 (tb_secret_id (gr_ticket g)) /\ zlen (tb_blob (gr_ticket g)) <= cl_max_ticket_blob_bytes limits
  /\ zlen (tb_blob (gr_ticket g)) + 13 <= cl_max_auth_bytes limits /\ length (gr_confounder g) = 16%nat.

(** What the client makes of a grant. *)
Definition granted (now : Z) (g : Grant) : ServiceTicket :=
  mkServiceTicket (gr_service g) (gr_ticket g) (gr_key g) (now + gr_validity g)
    (now + gr_validity g - gr_validity g / 4).

Definition file_grants (now : Z) (gs : list Grant) (tickets : list (Z * ServiceTicket)) : list (Z * ServiceTicket) :=
  fold_left (fun l g => btree_insert Z.compare (gr_service g) (granted now g) l) gs tickets.

(** The limits of a session: room for a key in an envelope. *)
Definition auth_limits_ok (limits : CryptoLimits) : Prop :=
  crypto_limits_ok limits /\ 200 <= cl_max_auth_bytes limits < 2 ^ 32 /\ 200 <= cl_max_encrypt_bytes limits.

Section Monitor.
  Context {crates : CephxCrates} `{!CephxLaws crates}.

Definition grant_image (key : CryptoKey) (limits : CryptoLimits) (g : Grant) : result CephxError (list byte) :=
  encrypted ← encrypt_with_magic key (service_image g) KEY_USAGE_TICKET_SESSION_KEY (Some (gr_confounder g)) limits;
  Ok (fields_image [F_u32 (gr_service g); F_u8 1; F_bytes encrypted; F_u8 0; F_bytes (ticket_image (gr_ticket g))]).

Fixpoint grants_image (key : CryptoKey) (limits : CryptoLimits) (gs : list Grant) : result CephxError (list byte) :=
  match gs with
  | [] => Ok []
  | g :: gs =>
      image ← grant_image key limits g;
      images ← grants_image key limits gs;
      Ok (image ++ images)
  end.

Lemma takes_utime d v rest :
  0 <= v < 2 ^ 32 * 1000000000 ->
  unread d (le_bytes 4 (v / 1000000000) ++ le_bytes 4 (v mod 1000000000) ++ rest) -> takes decode_utime d v rest.
Proof.
  intros Hv Hu. pose proof (Z.mod_pos_bound v 1000000000 ltac:(lia)).
  assert (in_u 32 (v / 1000000000)) by (split; [apply Z.div_pos; lia|apply Z.div_lt_upper_bound; lia]).
  unfold decode_utime. takes_step. takes_step; [unfold in_u; lia|]. takes_step; [apply Z.leb_gt; lia|].
  rewrite (Z.div_mod v 1000000000) at 3 by lia. rewrite (Z.mul_comm 1000000000). takes_step.
Qed.

Lemma key_ok_parameters k :
  key_ok k -> in_u 16 (ck_type_id k) /\ in_u 16 (zlen (ck_secret k))
    /\ valid_key_parameters (ck_type_id k) (zlen (ck_secret k)) = true /\ zlen (ck_secret k) <= 32.
Proof. unfold zlen. intros [[-> ->]|[-> ->]]; vm_compute; intuition congruence. Qed.

Lemma takes_secret_key limits k d rest :
  key_ok k -> 32 <= cl_max_decrypt_bytes limits ->
  unread d (le_bytes 2 (ck_type_id k) ++ le_bytes 4 0 ++ le_bytes 4 0 ++ le_bytes 2 (zlen (ck_secret k))
            ++ ck_secret k ++ rest) ->
  takes (decode_secret_key limits) d k rest.
Proof.
  intros Hk Hm Hu.
  destruct (key_ok_parameters k Hk) as (K1 & K2 & K3 & K4).
  unfold decode_secret_key. takes_step. takes_step; [by apply (takes_utime _ 0)|]. takes_step.
  takes_step; [by rewrite K3|]. takes_step; [apply Z.ltb_ge; lia|]. takes_step.
  destruct k. takes_step.
Qed.

Lemma takes_ticket_blob limits t d rest :
  in_u 64 (tb_secret_id t) -> zlen (tb_blob t) <= cl_max_ticket_blob_bytes limits ->
  zlen (tb_blob t) <= dec_max_bytes d -> dec_max_bytes d < 2 ^ 32 ->
  unread d (ticket_image t ++ rest) -> takes (decode_ticket_blob limits) d t rest.
Proof.
  intros Hs Hb Hm H32 Hu. unfold ticket_image, fields_image in Hu. cbn [map concat field_image] in Hu.
  rewrite <- !app_assoc in Hu. cbn [app] in Hu.
  unfold decode_ticket_blob. takes_step. takes_step. takes_step; [lia|lia|]. takes_step.
  takes_step; [apply Z.ltb_ge; lia|]. destruct t. takes_step.
Qed.

Lemma takes_envelope key payload usage confounder limits c d rest :
  key_ok key -> length confounder = 16%nat -> crypto_limits_ok limits ->
  encrypt_with_magic key payload usage (Some confounder) limits = Ok c ->
  zlen c < 2 ^ 32 -> zlen c <= dec_max_bytes d -> unread d (le_bytes 4 (zlen c) ++ c ++ rest) ->
  takes (decode_envelope key usage limits) d payload rest.
Proof.
  intros Hk Hc Hl He H32 Hm Hu. unfold decode_envelope. takes_step; [done..|]. takes_step.
  eapply takes_lift; [exact Hu|]. by apply (envelope_inverse _ _ _ _ _ _ Hk Hc Hl He).
Qed.

Lemma zlen_service_image g : key_ok (gr_key g) -> zlen (service_image g) <= 53.
Proof.
  intros Hk. unfold service_image. rewrite !zlen_app, !zlen_le_bytes. unfold zlen. destruct Hk as [[_ ->]|[_ ->]]; lia.
Qed.

Lemma read_service_image g limits :
  auth_limits_ok limits -> key_ok (gr_key g) -> 0 < gr_validity g < 2 ^ 32 * 1000000000 ->
  read_service_payload (service_image g) limits = Ok (gr_key g, gr_validity g).
Proof.
  intros [[[_ Hl1] Hl2] [Hl3 Hl4]] Hk Hv. unfold read_service_payload. eapply takes_reading.
  pose proof (unread_new (service_image g) (cl_max_auth_bytes limits)) as Hu. unfold service_image in Hu at 2.
  takes_step. takes_step. takes_step; [apply (takes_secret_key _ (gr_key g)); [done|lia|exact Hu]|].
  rewrite <- (app_nil_r (le_bytes 4 (_ mod _))) in Hu. takes_step; [apply (takes_utime _ (gr_validity g)); [lia|exact Hu]|].
  takes_step. takes_step.
Qed.

Lemma takes_grant key existing now limits tickets g image d rest :
  auth_limits_ok limits -> key_ok key -> 0 <= now -> grant_ok limits now g ->
  btree_get Z.compare (gr_service g) tickets = None ->
  grant_image key limits g = Ok image -> dec_max_bytes d = cl_max_auth_bytes limits ->
  unread d (image ++ rest) ->
  takes (parse_ticket key existing now limits tickets) d
    (btree_insert Z.compare (gr_service g) (granted now g) tickets) rest.
Proof.
  intros Hl Hk Hnow (G1 & G2 & G3 & G4 & G5 & G6 & G7 & G8) Hn Hi Hm Hu. pose proof Hl as [Hc [Ha He]].
  unfold grant_image in Hi. apply bind_inv in Hi as (c & Hc' & Hi). apply Ok_inj in Hi as <-.
  destruct (envelope_inverse _ _ _ _ _ _ Hk G8 Hc Hc') as [_ Hlen]. pose proof (zlen_service_image g G2).
  unfold fields_image in Hu. cbn [map concat field_image] in Hu. rewrite <- !app_assoc in Hu. cbn [app] in Hu.
  assert (zlen (ticket_image (gr_ticket g)) = zlen (tb_blob (gr_ticket g)) + 13) as Ht.
  { unfold ticket_image, fields_image. cbn [map concat field_image]. rewrite !zlen_app, !zlen_le_bytes, zlen_nil. lia. }
  unfold parse_ticket. takes_step. takes_step; [by rewrite Hn|]. takes_step. takes_step.
  takes_step; [eapply (takes_envelope key); try done; lia|].
  takes_step; [by apply read_service_image|]. cbv beta iota.
  takes_step; [apply Z.eqb_neq; lia|].
  takes_step; [unfold read_ticket_payload; takes_step; eapply takes_bytes; [exact Hu|lia|lia]|].
  takes_step.
  { eapply takes_reading. pose proof (unread_new (ticket_image (gr_ticket g)) (cl_max_auth_bytes limits)) as Hv.
    rewrite <- (app_nil_r (ticket_image _)) in Hv at 2. clear Hu.
    takes_step; [apply takes_ticket_blob; [done|done| | |exact Hv]; cbn; lia|]. takes_step. takes_step. }
  takes_step; [apply Z.leb_gt; lia|].
  takes_step; [apply Z.ltb_ge; pose proof (Z.div_le_upper_bound (gr_validity g) 4 (gr_validity g)); lia|]. takes_step.
Qed.

(** The services of the grants are new, and each is named once. *)
Definition services_new (gs : list Grant) (tickets : list (Z * ServiceTicket)) : Prop :=
  NoDup (gr_service <$> gs) /\ forall g, g ∈ gs -> btree_get Z.compare (gr_service g) tickets = None.

Lemma services_new_cons now g gs tickets :
  services_new (g :: gs) tickets ->
  btree_get Z.compare (gr_service g) tickets = None
  /\ services_new gs (btree_insert Z.compare (gr_service g) (granted now g) tickets).
Proof.
  intros [Hd Hn]. cbn in Hd. inversion Hd as [|? ? Hg Hd']; subst. split; [apply Hn; set_solver|]. split; [done|].
  intros g' Hg'. rewrite btree_get_insert_ne; [apply Hn; set_solver|]. intros E. apply Hg. rewrite E.
  by apply list_elem_of_fmap_2.
Qed.

Lemma takes_grants key existing now limits gs : forall tickets image d rest,
  auth_limits_ok limits -> key_ok key -> 0 <= now -> Forall (grant_ok limits now) gs ->
  services_new gs tickets -> grants_image key limits gs = Ok image -> dec_max_bytes d = cl_max_auth_bytes limits ->
  unread d (image ++ rest) ->
  takes (parse_tickets (length gs) key existing now limits tickets) d (file_grants now gs tickets) rest.
Proof.
  induction gs as [|g gs IH]; intros tickets image d rest Hl Hk Hnow Hg Hn Hi Hm Hu; cbn [grants_image] in Hi.
  - apply Ok_inj in Hi as <-. by apply takes_ret.
  - apply bind_inv in Hi as (i1 & H1 & Hi). apply bind_inv in Hi as (i2 & H2 & Hi). apply Ok_inj in Hi as <-.
    inversion Hg; subst. destruct (services_new_cons now _ _ _ Hn) as [Hn1 Hn2]. rewrite <- app_assoc in Hu.
    cbn [length parse_tickets]. takes_step; [by eapply takes_grant|].
    apply (IH _ i2); try done. congruence.
Qed.

(** A section of tickets. *)
Definition section_image (key : CryptoKey) (limits : CryptoLimits) (gs : list Grant) : result CephxError (list byte) :=
  image ← grants_image key limits gs;
  Ok (le_bytes 1 1 ++ le_bytes 4 (zlen gs) ++ image).

Lemma takes_section key existing now limits max gs image d rest :
  auth_limits_ok limits -> key_ok key -> 0 <= now -> Forall (grant_ok limits now) gs ->
  services_new gs [] -> zlen gs <= max -> zlen gs < 2 ^ 32 -> section_image key limits gs = Ok image ->
  dec_max_bytes d = cl_max_auth_bytes limits -> unread d (image ++ rest) ->
  takes (parse_service_ticket_reply key existing now limits max) d (file_grants now gs []) rest.
Proof.
  intros Hl Hk Hnow Hg Hn Hc H32 Hi Hm Hu. apply bind_inv in Hi as (i & Hi & He). apply Ok_inj in He as <-.
  rewrite <- !app_assoc in Hu. pose proof (zlen_nonneg gs). unfold parse_service_ticket_reply. takes_step.
  takes_step. takes_step. takes_step; [apply Z.ltb_ge; lia|].
  unfold zlen. rewrite Nat2Z.id. eapply takes_grants; try done. congruence.
Qed.

(** What is filed are the grants. *)
Lemma file_grants_spec now gs : forall tickets, btree_sorted tickets -> services_new gs tickets ->
  btree_sorted (file_grants now gs tickets)
  /\ (forall e, e ∈ file_grants now gs tickets <-> (exists g, g ∈ gs /\ e = (gr_service g, granted now g)) \/ e ∈ tickets)
  /\ (length (file_grants now gs tickets) <= length gs + length tickets)%nat.
Proof.
  induction gs as [|g gs IH]; intros tickets Hs Hn.
  - split_and!; [done| |cbn; lia]. intros e. split; [by right|]. intros [(? & ? & _)|?]; [set_solver|done].
  - destruct (services_new_cons now _ _ _ Hn) as [Hn1 Hn2].
    destruct (IH _ (btree_insert_sorted _ (granted now g) _ Hs) Hn2) as (T1 & T2 & T3).
    split_and!; [done| |pose proof (btree_insert_length (gr_service g) (granted now g) tickets); etrans; [exact T3|]; cbn [length]; lia].
    intros e. cbn [file_grants fold_left]. rewrite T2, btree_insert_iff by done. set_solver.
Qed.

Lemma merge_tickets_ok extra : forall tickets,
  btree_sorted tickets -> NoDup extra.*1 -> (forall k t, (k, t) ∈ extra -> btree_get Z.compare k tickets = None) ->
  exists merged, merge_tickets tickets extra = Ok merged /\ btree_sorted merged
    /\ forall e, e ∈ merged <-> e ∈ tickets \/ e ∈ extra.
Proof.
  induction extra as [|[k t] extra IH]; intros tickets Hs Hd Hn; cbn.
  - exists tickets. split_and!; [done|done|set_solver].
  - rewrite (Hn k t) by set_solver. rewrite bool_decide_false by (by intros []).
    cbn in Hd. inversion Hd as [|? ? Hk Hd']; subst.
    destruct (IH (btree_insert Z.compare k t tickets)) as (m & Hm & Hsm & He).
    + by apply btree_insert_sorted.
    + done.
    + intros k' t' Hk'. rewrite btree_get_insert_ne; [apply (Hn k' t'); set_solver|]. intros ->. apply Hk.
      by apply (list_elem_of_fmap_2' fst _ (k', t')).
    + exists m. split_and!; [done|done|]. intros e. rewrite He, btree_insert_iff by (done || (apply (Hn k t); set_solver)).
      set_solver.
Qed.

(** ** The reply of a monitor *)

Definition connection_image (key : CryptoKey) (limits : CryptoLimits) (secret confounder : list byte)
    : result CephxError (list byte) :=
  if bool_decide (secret = []) then Ok []
  else
    c ← encrypt_with_magic key (le_bytes 4 (zlen secret) ++ secret) KEY_USAGE_AUTH_CONNECTION_SECRET
          (Some confounder) limits;
    Ok (le_bytes 4 (zlen c) ++ c).

Definition extras_image (key : CryptoKey) (limits : CryptoLimits) (gs : list Grant) : result CephxError (list byte) :=
  if bool_decide (gs = []) then Ok [] else section_image key limits gs.

Record MonitorReply : Type := mkMonitorReply {
  mr_grants : list Grant;
  mr_auth : Grant;
  mr_secret : list byte;
  mr_confounder : list byte;
  mr_extras : list Grant
}.

Definition reply_image (principal : CryptoKey) (limits : CryptoLimits) (r : MonitorReply)
    : result CephxError (list byte) :=
  section ← section_image principal limits (mr_grants r);
  connection ← connection_image (gr_key (mr_auth r)) limits (mr_secret r) (mr_confounder r);
  extras ← extras_image (gr_key (mr_auth r)) limits (mr_extras r);
  Ok (le_bytes 2 GET_AUTH_SESSION_KEY ++ le_bytes 4 0 ++ section
      ++ le_bytes 4 (zlen connection) ++ connection ++ le_bytes 4 (zlen extras) ++ extras).

Record monitor_reply_ok (limits : CryptoLimits) (mode now : Z) (r : MonitorReply) : Prop := {
  mr_grants_ok : Forall (grant_ok limits now) (mr_grants r ++ mr_extras r);
  mr_services_once : NoDup (gr_service <$> mr_grants r ++ mr_extras r);
  mr_auth_granted : mr_auth r ∈ mr_grants r /\ gr_service (mr_auth r) = SERVICE_AUTH;
  mr_count : zlen (mr_grants r ++ mr_extras r) <= cl_max_tickets limits /\ zlen (mr_grants r ++ mr_extras r) < 2 ^ 32;
  mr_mode : mr_secret r = [] /\ (mode = CONNECTION_MODE_CRC \/ mode = CONNECTION_MODE_SECURE)
            \/ zlen (mr_secret r) = CONNECTION_SECRET_SIZE_SECURE /\ mode = CONNECTION_MODE_SECURE;
  mr_secret_room : CONNECTION_SECRET_SIZE_SECURE <= cl_max_connection_secret_bytes limits;
  mr_confounder_ok : length (mr_confounder r) = 16%nat
}.

Lemma takes_connection limits mode now r image :
  auth_limits_ok limits -> monitor_reply_ok limits mode now r -> key_ok (gr_key (mr_auth r)) ->
  connection_image (gr_key (mr_auth r)) limits (mr_secret r) (mr_confounder r) = Ok image ->
  read_connection_secret (gr_key (mr_auth r)) image mode limits = Ok (mr_secret r).
Proof.
  intros [Hc [Ha He]] [_ _ _ _ Hm Hr Hf] Hk Hi. unfold connection_image in Hi. unfold read_connection_secret.
  case_bool_decide as E; [apply Ok_inj in Hi as <-; by rewrite E|].
  destruct Hm as [[? _]|[Hz ->]]; [done|]. apply bind_inv in Hi as (c & He' & Hi). apply Ok_inj in Hi as <-.
  rewrite bool_decide_false by done. cbn [negb CONNECTION_MODE_SECURE Z.eqb Pos.eqb].
  destruct (envelope_inverse _ _ _ _ _ _ Hk Hf Hc He') as [_ Hlen]. rewrite zlen_app, zlen_le_bytes, Hz in Hlen.
  unfold CONNECTION_SECRET_SIZE_SECURE in *. unfold decrypt_envelope.
  pose proof (unread_new (le_bytes 4 (zlen c) ++ c) (cl_max_auth_bytes limits)) as Hu.
  rewrite <- (app_nil_r c) in Hu at 4. erewrite takes_reading.
  2:{ takes_step; [eapply (takes_envelope (gr_key (mr_auth r))); try done; cbn; lia|]. takes_step. takes_step. }
  rewrite bind_Ok. eapply takes_reading.
  pose proof (unread_new (le_bytes 4 (zlen (mr_secret r)) ++ mr_secret r) (cl_max_connection_secret_bytes limits)) as Hv.
  rewrite <- (app_nil_r (mr_secret r)) in Hv at 4. clear Hu.
  takes_step; [lia|cbn; lia|]. takes_step. takes_step; [by rewrite Hz|]. takes_step.
Qed.

Lemma services_split gs es :
  NoDup (gr_service <$> gs ++ es) ->
  services_new gs [] /\ services_new es []
  /\ forall g e, g ∈ gs -> e ∈ es -> gr_service g <> gr_service e.
Proof.
  rewrite fmap_app, NoDup_app. intros (Hg & Hx & He). split_and!; [by split|by split|].
  intros g e Hg' He' E. apply (Hx (gr_service g)); [by apply list_elem_of_fmap_2|]. rewrite E. by apply list_elem_of_fmap_2.
Qed.

Lemma takes_extras limits mode now r image :
  auth_limits_ok limits -> monitor_reply_ok limits mode now r -> key_ok (gr_key (mr_auth r)) -> 0 <= now ->
  extras_image (gr_key (mr_auth r)) limits (mr_extras r) = Ok image ->
  exists tickets, read_extra_tickets (gr_key (mr_auth r)) image now limits (file_grants now (mr_grants r) []) = Ok tickets
    /\ btree_sorted tickets
    /\ forall e, e ∈ tickets <-> exists g, g ∈ mr_grants r ++ mr_extras r /\ e = (gr_service g, granted now g).
Proof.
  intros Hl [Hg Hd _ [Hc H32] _ _ _] Hk Hnow Hi. destruct (services_split _ _ Hd) as (Hn1 & Hn2 & Hx).
  destruct (file_grants_spec now _ [] ltac:(constructor) Hn1) as (S1 & E1 & L1).
  destruct (file_grants_spec now _ [] ltac:(constructor) Hn2) as (S2 & E2 & L2).
  apply Forall_app in Hg as [_ Hg]. unfold extras_image in Hi. unfold read_extra_tickets. rewrite zlen_app in *.
  case_bool_decide as E.
  { apply Ok_inj in Hi as <-. rewrite bool_decide_true by done. eexists. split_and!; [done|done|].
    intros e. rewrite E1, E, app_nil_r. set_solver. }
  rewrite bool_decide_false by (intros ->; by apply bind_inv in Hi as (? & _ & ?)).
  erewrite takes_reading.
  2:{ pose proof (unread_new image (cl_max_auth_bytes limits)) as Hu. rewrite <- (app_nil_r image) in Hu at 2.
      takes_step; [|takes_step; takes_step]. eapply takes_section; try done; unfold saturating_sub, zlen in *; cbn [length] in *; lia. }
  rewrite bind_Ok. destruct (merge_tickets_ok (file_grants now (mr_extras r) []) _ S1) as (m & Hm & Sm & Em).
  - by apply btree_sorted_NoDup.
  - intros k t He. apply E2 in He as [(g & He & [= -> _])|]; [|set_solver].
    destruct (btree_get _ _ _) as [t'|] eqn:G; [|done]. apply btree_get_elem, E1 in G as [(g' & Hg' & [= Hs _])|]; [|set_solver].
    by destruct (Hx g' g Hg' He).
  - exists m. split_and!; [done|done|]. intros e. rewrite Em, E1, E2. set_solver.
Qed.

Lemma parse_reply_image principal existing limits mode now r payload :
  auth_limits_ok limits -> key_ok principal -> 0 <= now -> monitor_reply_ok limits mode now r ->
  reply_image principal limits r = Ok payload -> zlen payload <= cl_max_auth_bytes limits ->
  exists tickets,
    parse_auth_session_reply payload principal existing mode now limits
    = Ok (mkAuthSessionReply GET_AUTH_SESSION_KEY (gr_key (mr_auth r)) (mr_secret r) tickets)
    /\ btree_sorted tickets
    /\ forall e, e ∈ tickets <-> exists g, g ∈ mr_grants r ++ mr_extras r /\ e = (gr_service g, granted now g).
Proof.
  intros Hl Hp Hnow Hr Hi Hz. pose proof Hr as [Hg Hd [Ha Hs] [Hc H32] Hm _ _].
  destruct (services_split _ _ Hd) as (Hn1 & _ & _).
  destruct (file_grants_spec now _ [] ltac:(constructor) Hn1) as (S1 & E1 & _).
  assert (key_ok (gr_key (mr_auth r))) as Hk by (rewrite Forall_forall in Hg; apply Hg; set_solver).
  apply bind_inv in Hi as (sec & H1 & Hi). apply bind_inv in Hi as (conn & H2 & Hi).
  apply bind_inv in Hi as (ext & H3 & Hi). apply Ok_inj in Hi as <-.
  destruct (takes_extras limits mode now r ext Hl Hr Hk Hnow H3) as (tickets & He & St & Et).
  exists tickets. split; [|done]. unfold parse_auth_session_reply.
  assert ((mode =? CONNECTION_MODE_CRC) || (mode =? CONNECTION_MODE_SECURE) = true) as ->.
  { destruct Hm as [[_ [-> | ->]]|[_ ->]]; done. }
  cbn [negb]. rewrite (proj2 (Z.ltb_ge _ _)) by done. eapply takes_reading.
  set (payload := le_bytes 2 _ ++ _) in *. pose proof (unread_new payload (cl_max_auth_bytes limits)) as Hu.
  rewrite <- (app_nil_r payload) in Hu at 2. unfold payload in Hu at 2. rewrite <- !app_assoc in Hu.
  pose proof Hl as [_ [Hmax _]]. unfold payload in Hz. rewrite !zlen_app, !zlen_le_bytes in *.
  pose proof (zlen_nonneg sec). pose proof (zlen_nonneg conn). pose proof (zlen_nonneg ext).
  pose proof (zlen_nonneg (mr_extras r)). apply Forall_app in Hg as [Hg _].
  do 5 takes_step.
  assert (dec_max_bytes d3 = cl_max_auth_bytes limits) as Hd3 by (cbn in *; congruence).
  takes_step; [eapply (takes_section principal existing now limits _ (mr_grants r)); try done; lia|].
  takes_step.
  { rewrite (btree_elem_get SERVICE_AUTH (granted now (mr_auth r))); [done..|]. apply E1. left. exists (mr_auth r).
    by rewrite Hs. }
  cbn [granted st_session_key]. takes_step. rewrite zlen_app, zlen_le_bytes, !zlen_app, !zlen_le_bytes.
  rewrite (proj2 (Z.eqb_neq _ _)) by (rewrite zlen_nil; lia).
  takes_step; [lia|lia|]. takes_step; [lia|lia|]. takes_step. takes_step; [by eapply takes_connection|].
  takes_step; [exact He|]. takes_step.
Qed.

(** C37. The client understands a monitor: the reply a monitor builds for tickets
    of services that are named once, in its main part under the client's key
    and in its extra part under the session key, with or without a connection
    secret, is accepted; the client has the session key and the connection
    secret the monitor chose, and exactly the tickets it granted, each with
    the key, the blob and the times it was granted with. *)
Theorem auth_reply_roundtrip principal existing limits mode now r payload :
  auth_limits_ok limits -> key_ok principal -> 0 <= now -> monitor_reply_ok limits mode now r ->
  reply_image principal limits r = Ok payload -> zlen payload <= cl_max_auth_bytes limits ->
  exists reply, parse_auth_session_reply payload principal existing mode now limits = Ok reply
    /\ as_auth_session_key reply = gr_key (mr_auth r) /\ as_connection_secret reply = mr_secret r
    /\ forall k t, btree_get Z.compare k (as_tickets reply) = Some t
         <-> exists g, g ∈ mr_grants r ++ mr_extras r /\ k = gr_service g /\ t = granted now g.
Proof.
  intros Hl Hp Hnow Hr Hi Hz.
  destruct (parse_reply_image principal existing limits mode now r payload Hl Hp Hnow Hr Hi Hz) as (tickets & H & Hs & He).
  eexists. split; [exact H|]. split; [done|]. split; [done|]. cbn. intros k t. split.
  - intros G%btree_get_elem. apply He in G as (g & G & [= -> ->]). by exists g.
  - intros (g & G & -> & ->). apply btree_elem_get; [done|]. apply He. by exists g.
Qed.
End Monitor.

(** ** Authorizers *)

Lemma cephx_finish_fields limit fs :
  Forall field_valid fs -> zlen (fields_image fs) <= limit ->
  cephx_finish (put_fields (Encoder_new limit) fs) = Ok (fields_image fs).
Proof. intros Hv Hz. unfold cephx_finish. rewrite put_fields_image; [done|done|]. by split. Qed.

(** The proof a client sends to a service. *)
Definition authorize_image (nonce : Z) (challenge_plus_one : option Z) : list byte :=
  fields_image [F_u8 2; F_u64 nonce; F_bool (bool_decide (is_Some challenge_plus_one)); F_u64 (default 0 challenge_plus_one)].

Definition base_image (service_id global_id : Z) (t : TicketBlob) : list byte :=
  fields_image [F_u8 1; F_u64 global_id; F_u32 service_id; F_u8 1; F_u64 (tb_secret_id t); F_bytes (tb_blob t)].

Section Service.
  Context {crates : CephxCrates} `{!CephxLaws crates}.

(** What a service that holds the session key sends: its challenge, and its
    answer to the nonce of an authorizer. *)
Definition challenge_image (key : CryptoKey) (challenge : Z) (confounder : list byte) (limits : CryptoLimits)
    : result CephxError (list byte) :=
  encrypt_with_magic key (fields_image [F_u8 1; F_u64 challenge]) KEY_USAGE_AUTHORIZE_CHALLENGE (Some confounder) limits.

Definition service_reply (key : CryptoKey) (nonce : Z) (secret confounder : list byte) (limits : CryptoLimits)
    : result CephxError (list byte) :=
  c ← encrypt_with_magic key (fields_image [F_u8 2; F_u64 (wrap 64 (nonce + 1)); F_bytes secret])
        KEY_USAGE_AUTHORIZE_REPLY (Some confounder) limits;
  Ok (le_bytes 4 (zlen c) ++ c).

(** A payload proves the nonce, and the challenge if there was one, to a
    service that holds the session key. *)
Definition proves (key : CryptoKey) (limits : CryptoLimits) (base payload : list byte) (nonce : Z)
    (challenge_plus_one : option Z) : Prop :=
  exists env, payload = base ++ le_bytes 4 (zlen env) ++ env
    /\ decrypt_with_magic key env KEY_USAGE_AUTHORIZE limits = Ok (authorize_image nonce challenge_plus_one).

Lemma encrypt_authorize_ok key nonce cpo confounder limits :
  auth_limits_ok limits -> key_ok key -> length confounder = 16%nat -> in_u 64 nonce -> in_u 64 (default 0 cpo) ->
  exists out, encrypt_authorize key nonce cpo (Some confounder) limits = Ok out /\ zlen out <= 71
    /\ forall base, proves key limits base (base ++ out) nonce cpo.
Proof.
  intros [Hc [Ha He]] Hk Hf Hn Hp. unfold encrypt_authorize.
  assert (zlen (authorize_image nonce cpo) = 18) as Hz by done.
  destruct (envelope_roundtrip key (authorize_image nonce cpo) KEY_USAGE_AUTHORIZE confounder limits Hk Hf Hc)
    as (env & E & D & L); [lia|]. rewrite Hz in L.
  pose proof (cephx_finish_fields (cl_max_auth_bytes limits)
    [F_u8 2; F_u64 nonce; F_bool (bool_decide (is_Some cpo)); F_u64 (default 0 cpo)]) as Hb.
  cbn [put_fields fold_left put_field] in Hb. rewrite Hb, bind_Ok.
  2:{ repeat constructor; try done; apply Hn || apply Hp. }
  2:{ change (zlen _) with 18. lia. }
  fold (authorize_image nonce cpo). rewrite E, bind_Ok.
  pose proof (cephx_finish_fields (cl_max_auth_bytes limits) [F_bytes env]) as Hb2.
  cbn [put_fields fold_left put_field] in Hb2. pose proof (zlen_nonneg env).
  assert (fields_image [F_bytes env] = le_bytes 4 (zlen env) ++ env) as Hi by (unfold fields_image; cbn; by rewrite app_nil_r).
  assert (zlen (fields_image [F_bytes env]) <= 71) as Hz2 by (rewrite Hi, zlen_app, zlen_le_bytes; lia).
  rewrite Hb2; [|constructor; [cbn; unfold in_u; lia|constructor]|lia]. eexists. split; [done|]. split; [done|].
  intros base. exists env. by rewrite Hi.
Qed.

Lemma build_authorizer_ok service global ticket now nonce confounder limits :
  auth_limits_ok limits -> key_ok (st_session_key ticket) -> length confounder = 16%nat ->
  in_u 32 service -> in_u 64 global -> in_u 64 nonce -> in_u 64 (tb_secret_id (st_ticket ticket)) ->
  st_service_id ticket = service -> 0 <= now < st_expires_at ticket ->
  zlen (tb_blob (st_ticket ticket)) + 97 <= cl_max_auth_bytes limits ->
  exists a, build_authorizer service global ticket now nonce (Some confounder) limits = Ok a
    /\ az_base a = base_image service global (st_ticket ticket) /\ az_nonce a = nonce /\ az_service_id a = service
    /\ proves (st_session_key ticket) limits (az_base a) (az_payload a) nonce None.
Proof.
  intros Hl Hk Hf Hs Hg Hn Ht He Hnow Hb. destruct (encrypt_authorize_ok _ nonce None confounder limits Hl Hk Hf Hn) as (out & E & L & P); [done|].
  unfold build_authorizer. rewrite He, Z.eqb_refl. cbn [negb].
  rewrite (proj2 (Z.eqb_neq _ _)), (proj2 (Z.leb_gt _ _)) by lia. cbn [orb].
  pose proof Hl as [_ [Ha _]]. pose proof (zlen_nonneg (tb_blob (st_ticket ticket))).
  assert (zlen (base_image service global (st_ticket ticket)) = zlen (tb_blob (st_ticket ticket)) + 26) as Hz.
  { unfold base_image, fields_image. cbn [map concat field_image]. rewrite !zlen_app, !zlen_le_bytes, zlen_nil. lia. }
  pose proof (cephx_finish_fields (cl_max_auth_bytes limits)
    [F_u8 1; F_u64 global; F_u32 service; F_u8 1; F_u64 (tb_secret_id (st_ticket ticket)); F_bytes (tb_blob (st_ticket ticket))]) as F.
  fold (base_image service global (st_ticket ticket)) in F. cbn [put_fields fold_left put_field] in F.
  unfold encode_ticket_blob. rewrite F, bind_Ok, E, bind_Ok; [|repeat constructor; (apply Hg || apply Hs || apply Ht || done || cbn; unfold in_u; lia)|lia].
  rewrite (proj2 (Z.ltb_ge _ _)) by (rewrite zlen_app; lia). eexists. by split_and!.
Qed.

Lemma add_challenge_ok a key challenge ch confounder confounder' limits :
  auth_limits_ok limits -> key_ok key -> length confounder = 16%nat -> length confounder' = 16%nat ->
  in_u 64 (az_nonce a) -> in_u 64 challenge -> zlen (az_base a) + 71 <= cl_max_auth_bytes limits ->
  challenge_image key challenge confounder limits = Ok ch ->
  exists a', add_authorizer_challenge a ch key (Some confounder') limits = Ok a'
    /\ az_base a' = az_base a /\ az_nonce a' = az_nonce a /\ az_service_id a' = az_service_id a
    /\ proves key limits (az_base a') (az_payload a') (az_nonce a) (Some (wrap 64 (challenge + 1))).
Proof.
  intros Hl Hk Hf Hf' Hn Hc Hb Hi. pose proof Hl as [Hcl [Ha _]].
  destruct (encrypt_authorize_ok key (az_nonce a) (Some (wrap 64 (challenge + 1))) confounder' limits Hl Hk Hf' Hn)
    as (out & E & L & P); [by apply wrap_range|].
  unfold add_authorizer_challenge. destruct (envelope_inverse _ _ _ _ _ _ Hk Hf Hcl Hi) as [-> _]. rewrite bind_Ok.
  rewrite (takes_reading _ _ _ challenge []), bind_Ok.
  - rewrite E, bind_Ok, (proj2 (Z.ltb_ge _ _)) by (rewrite zlen_app; lia). eexists. by split_and!.
  - pose proof (unread_new (fields_image [F_u8 1; F_u64 challenge]) (cl_max_auth_bytes limits)) as Hu.
    unfold fields_image in Hu at 2. cbn [map concat field_image] in Hu.
    takes_step. takes_step. takes_step. takes_step. takes_step.
Qed.

(** A step of a reader that may fail later. *)
Lemma takes_then {E A B} (m : DM E A) (k : A -> DM E B) d a mid r :
  takes m d a mid -> (forall d', unread d' mid -> dec_max_bytes d' = dec_max_bytes d -> k a d' = r) -> (m ≫= k) d = r.
Proof. intros (d' & Hm & Hu & Hd) Hk. rewrite (DM_bind_Ok _ _ _ _ _ Hm). by apply Hk. Qed.

Lemma wrap_succ_inj a b : in_u 64 a -> in_u 64 b -> wrap 64 (a + 1) = wrap 64 (b + 1) <-> a = b.
Proof.
  intros Ha Hb. unfold in_u, wrap in *. split; [|by intros ->]. intros H.
  destruct (Z.eq_dec a (2 ^ 64 - 1)) as [->|], (Z.eq_dec b (2 ^ 64 - 1)) as [->|]; [done| | |].
  - rewrite (Z.mod_small (b + 1)) in H by lia. change ((2 ^ 64 - 1 + 1) mod 2 ^ 64) with 0 in H. lia.
  - rewrite (Z.mod_small (a + 1)) in H by lia. change ((2 ^ 64 - 1 + 1) mod 2 ^ 64) with 0 in H. lia.
  - rewrite !Z.mod_small in H by lia. lia.
Qed.

Lemma verify_reply_ok key nonce m secret payload confounder limits :
  auth_limits_ok limits -> key_ok key -> length confounder = 16%nat -> in_u 64 nonce -> in_u 64 m ->
  zlen secret <= cl_max_connection_secret_bytes limits -> zlen secret + 100 <= cl_max_auth_bytes limits ->
  service_reply key m secret confounder limits = Ok payload ->
  verify_authorizer_reply payload key nonce limits = if m =? nonce then Ok secret else Err CX_InvalidNonce.
Proof.
  intros [Hcl [Ha _]] Hk Hf Hn Hm Hs Hsa Hi. apply bind_inv in Hi as (c & Hi & Hp). apply Ok_inj in Hp as <-.
  destruct (envelope_inverse _ _ _ _ _ _ Hk Hf Hcl Hi) as [Hd Hlen]. pose proof (zlen_nonneg secret).
  set (plain := fields_image _) in *.
  assert (zlen plain = zlen secret + 13) as Hz.
  { unfold plain, fields_image. cbn [map concat field_image]. rewrite !zlen_app, !zlen_le_bytes, zlen_nil. lia. }
  unfold verify_authorizer_reply. rewrite (takes_reading _ _ _ c []), bind_Ok, Hd, bind_Ok.
  2:{ pose proof (unread_new (le_bytes 4 (zlen c) ++ c) (cl_max_auth_bytes limits)) as Hu.
      rewrite <- (app_nil_r c) in Hu at 4. takes_step; [lia|cbn; lia|]. takes_step. takes_step. }
  pose proof (unread_new plain (cl_max_auth_bytes limits)) as Hu. unfold plain in Hu at 2. unfold fields_image in Hu.
  cbn [map concat field_image] in Hu. rewrite <- !app_assoc in Hu. pose proof (wrap_range 64 (m + 1) ltac:(lia)) as Hw.
  assert (wrap 64 (m + 1) = wrap 64 (nonce + 1) <-> m = nonce) as Hinj by by apply wrap_succ_inj.
  destruct (Z.eqb_spec m nonce) as [E|E].
  - eapply takes_reading. do 2 takes_step. takes_step; [eapply takes_bytes; [exact Hu|lia|cbn in *; lia]|].
    takes_step. takes_step. takes_step; [apply negb_false_iff, Z.eqb_eq; tauto|]. takes_step; [by apply Z.ltb_ge|]. takes_step.
  - unfold reading. match goal with |- fst <$> ?x = _ => assert (x = Err CX_InvalidNonce) as -> end; [|done].
    eapply takes_then; [eapply takes_rd; [exact Hu|done|exact I]|]. clear Hu. intros d1 Hu M1.
    eapply takes_then; [eapply takes_rd; [exact Hu|done|exact I]|]. clear Hu. intros d2 Hu M2.
    eapply takes_then; [eapply takes_bytes; [exact Hu|lia|cbn in *; lia]|]. clear Hu. intros d3 Hu M3.
    eapply takes_then; [by apply takes_exact|]. clear Hu. intros d4 Hu M4.
    rewrite throw_if_false by done. rewrite (proj2 (Z.eqb_neq _ _)) by tauto. done.
Qed.

(** C18. The exchange of a client with a service that shares the session key of a
    ticket: from when the ticket was granted until it expires, and not after, the
    client has an authorizer for it, with the ticket, that proves its nonce; challenged, it has a second one that
    proves the same nonce and the challenge plus one; and it takes the
    connection secret from the service's answer to its nonce, and rejects an
    answer to any other nonce, such as one recorded from an earlier exchange. *)
Theorem authorizer_exchange limits ticket service global granted_at now nonce c1 c2 c3 c4 :
  auth_limits_ok limits -> ticket_ok limits granted_at (service, ticket) ->
  0 <= granted_at -> granted_at <= now < st_expires_at ticket ->
  in_u 32 service -> in_u 64 global -> in_u 64 nonce -> in_u 64 (tb_secret_id (st_ticket ticket)) ->
  zlen (tb_blob (st_ticket ticket)) + 97 <= cl_max_auth_bytes limits ->
  Forall (fun c => length c = 16%nat) [c1; c2; c3; c4] ->
  let key := st_session_key ticket in
  exists a, build_authorizer service global ticket now nonce (Some c1) limits = Ok a
    /\ az_base a = base_image service global (st_ticket ticket)
    /\ proves key limits (az_base a) (az_payload a) nonce None
    /\ (forall challenge ch, in_u 64 challenge -> challenge_image key challenge c2 limits = Ok ch ->
         exists a', add_authorizer_challenge a ch key (Some c3) limits = Ok a' /\ az_nonce a' = nonce
           /\ proves key limits (az_base a) (az_payload a') nonce (Some (wrap 64 (challenge + 1))))
    /\ (forall m secret payload, in_u 64 m -> zlen secret <= cl_max_connection_secret_bytes limits ->
         zlen secret + 100 <= cl_max_auth_bytes limits -> service_reply key m secret c4 limits = Ok payload ->
         verify_authorizer_reply payload key nonce limits = if m =? nonce then Ok secret else Err CX_InvalidNonce)
    /\ (forall later, st_expires_at ticket <= later ->
         build_authorizer service global ticket later nonce (Some c1) limits = Err CX_ExpiredTicket).
Proof.
  intros Hl (T1 & T2 & _ & T4 & _) H0 Hnow Hs Hg Hn Ht Hb Hc key.
  repeat apply Forall_cons in Hc as [? Hc].
  destruct (build_authorizer_ok service global ticket now nonce c1 limits) as (a & Ha & B1 & B2 & _ & B4); try done; [lia|].
  exists a. split; [done|]. split; [done|]. split; [done|]. split_and!.
  - intros challenge ch Hch Hi.
    destruct (add_challenge_ok a key challenge ch c2 c3 limits) as (a' & A1 & A2 & A3 & _ & A5); try done.
    + by rewrite B2.
    + rewrite B1. unfold base_image, fields_image. cbn [map concat field_image].
      rewrite !zlen_app, !zlen_le_bytes, zlen_nil. lia.
    + exists a'. rewrite <- A2, A3, <- B2. by split_and!.
  - intros m secret payload Hm S1 S2 Hr. by apply (verify_reply_ok key nonce m secret payload c4 limits).
  - intros later Hlater. unfold build_authorizer. rewrite T1, Z.eqb_refl. cbn [negb].
    by rewrite (proj2 (Z.leb_le _ _) Hlater), orb_true_r.
Qed.
End Service.

(** ** A session of the reference crates *)

#[local] Existing Instances reference_crates reference_laws.

Definition sample_key : CryptoKey := mkCryptoKey CRYPTO_AES256_KRB5 (replicate 32 x2a).
Definition sample_principal : CryptoKey := mkCryptoKey CRYPTO_AES (replicate 16 x17).
Definition sample_auth : Grant := mkGrant SERVICE_AUTH sample_key 60000000000 (mkTicketBlob 7 [x41; x42]) (replicate 16 x01).
Definition sample_osd : Grant := mkGrant SERVICE_OSD sample_key 3600000000000 (mkTicketBlob 9 [x43]) (replicate 16 x02).
Definition sample_reply : MonitorReply :=
  mkMonitorReply [sample_auth] sample_auth (replicate 64 x5a) (replicate 16 x03) [sample_osd].
Definition sample_payload : list byte :=
  match reply_image sample_principal CryptoLimits_default sample_reply with Ok p => p | Err _ => [] end.

Lemma sample_limits : auth_limits_ok CryptoLimits_default.
Proof. split; [|split; [split|]]; [split; [split|]|..]; vm_compute; (discriminate || reflexivity). Qed.

Lemma sample_grant_ok g : g = sample_auth \/ g = sample_osd -> grant_ok CryptoLimits_default 1000 g.
Proof.
  intros [-> | ->]; unfold grant_ok; (split; [by vm_compute|]; split; [by right|]);
    (repeat split; vm_compute; (discriminate || reflexivity)).
Qed.

Lemma sample_reply_ok : monitor_reply_ok CryptoLimits_default CONNECTION_MODE_SECURE 1000 sample_reply.
Proof.
  split; cbn.
  - repeat constructor; apply sample_grant_ok; auto.
  - repeat constructor; set_solver.
  - split; [set_solver|done].
  - by vm_compute.
  - by right.
  - done.
  - done.
Qed.

Lemma auth_reply_roundtrip_witness :
  exists reply, parse_auth_session_reply sample_payload sample_principal None CONNECTION_MODE_SECURE 1000
      CryptoLimits_default = Ok reply
    /\ as_auth_session_key reply = sample_key /\ as_connection_secret reply = replicate 64 x5a
    /\ forall k t, btree_get Z.compare k (as_tickets reply) = Some t
         <-> exists g, g ∈ [sample_auth; sample_osd] /\ k = gr_service g /\ t = granted 1000 g.
Proof.
  apply (auth_reply_roundtrip sample_principal None CryptoLimits_default CONNECTION_MODE_SECURE 1000 sample_reply).
  - exact sample_limits.
  - by left.
  - done.
  - exact sample_reply_ok.
  - vm_compute. reflexivity.
  - vm_compute. discriminate.
Defined.

Definition sample_parsed : AuthSessionReply :=
  mkAuthSessionReply GET_AUTH_SESSION_KEY sample_key (replicate 64 x5a)
    [(SERVICE_OSD, granted 1000 sample_osd); (SERVICE_AUTH, granted 1000 sample_auth)].

Lemma auth_reply_sound_witness :
  parse_auth_session_reply sample_payload sample_principal None CONNECTION_MODE_SECURE 1000 CryptoLimits_default
    = Ok sample_parsed
  /\ tickets_ok CryptoLimits_default 1000 (as_tickets sample_parsed).
Proof.
  assert (parse_auth_session_reply sample_payload sample_principal None CONNECTION_MODE_SECURE 1000 CryptoLimits_default
    = Ok sample_parsed) as H by (vm_compute; reflexivity).
  split; [exact H|]. refine (proj1 (proj2 (proj2 (auth_reply_sound _ _ _ _ _ _ _ H)))).
Defined.

Lemma authorizer_exchange_witness :
  let key := sample_key in let ticket := granted 1000 sample_osd in let c := replicate 16 x11 in
  exists a, build_authorizer SERVICE_OSD 42 ticket 2000 77 (Some c) CryptoLimits_default = Ok a
    /\ az_base a = base_image SERVICE_OSD 42 (st_ticket ticket)
    /\ proves key CryptoLimits_default (az_base a) (az_payload a) 77 None.
Proof.
  intros key ticket c.
  destruct (authorizer_exchange CryptoLimits_default ticket SERVICE_OSD 42 1000 2000 77 c c c c) as (a & H1 & H2 & H3 & _).
  - exact sample_limits.
  - split; [done|]. split; [by right|]. split_and!; vm_compute; (discriminate || reflexivity).
  - done.
  - by vm_compute.
  - by vm_compute.
  - by vm_compute.
  - by vm_compute.
  - by vm_compute.
  - vm_compute. discriminate.
  - by repeat constructor.
  - exists a. split; [exact H1|]. split; [exact H2|exact H3].
Defined.
