(* ===== verification/CephxConnector.v ===== *)
(** * Authenticated connections

    Models [src/src/cephx/connector.rs]: the handshake of a connection to a
    monitor, with which the client authenticates, and of a connection to an OSD
    or a manager, for which it presents a service ticket.  A handshake is a
    program over the stream of the connection, the clock, the random source and
    the tickets the connectors share; it carries the codec, the bytes that have
    arrived and the transcript both sides sign. *)

From S2P Require Import Prelude Codec Frame Message Address Control Secure Banner BTree SessionState Interaction Transport Supervisor CephxCrypto CephxCore.
From Stdlib Require Import ZArith Lia Strings.Byte Strings.String.
From stdpp Require Import base option gmap sorting numbers list.

Open Scope Z_scope.

(** The hash of the [sha2] crate. *)
Class Sha256Crate : Type := { sha256 : list byte -> list byte }.

Definition AUTH_METHOD_CEPHX : Z := 2.
Definition ENTITY_MONITOR : Z := 1.
Definition ENTITY_OSD : Z := 4.
Definition ENTITY_CLIENT : Z := 8.
Definition ENTITY_MANAGER : Z := 16.

Inductive ConnectorError : Type :=
| CE_InvalidConfig
| CE_Timeout
| CE_Io
| CE_Frame (e : FrameError)
| CE_Cephx (e : CephxError)
| CE_WrongPeer
| CE_Rejected
| CE_Downgrade
| CE_InvalidGlobalId
| CE_UnexpectedFlow
| CE_SignatureMismatch.

(** [From<ConnectorError> for SessionError]. *)
Definition connector_session_error (e : ConnectorError) : SessionError :=
  match e with
  | CE_Frame e => SE_Frame e
  | CE_Downgrade => SE_UnsupportedFeature
  | CE_UnexpectedFlow | CE_WrongPeer => SE_Malformed
  | _ => SE_Disconnected
  end.

(** ** Tickets *)

Record TicketMetadata : Type := mkTicketMetadata {
  tm_service_id : Z;
  tm_secret_id : Z;
  tm_fingerprint : list byte;
  tm_expires_at : Z;
  tm_renew_after : Z
}.

Record AuthMetadata : Type := mkAuthMetadata {
  am_global_id : Z;
  am_method : Z;
  am_mode : Z;
  am_tickets : list (Z * TicketMetadata)
}.

(** [State]: what the monitors have granted. *)
Record Authority : Type := mkAuthority {
  au_global_id : Z;
  au_mode : Z;
  au_tickets : list (Z * ServiceTicket)
}.

Definition Authority_default : Authority := mkAuthority 0 0 [].

Definition no_ticket : TicketBlob := mkTicketBlob 0 [].

Definition expired (now : Z) (t : ServiceTicket) : bool := (st_expires_at t =? 0) || (st_expires_at t <=? now).

Definition renewal_snapshot (now : Z) (s : Authority) : Authority * (Z * TicketBlob * option CryptoKey) :=
  match btree_get Z.compare SERVICE_AUTH (au_tickets s) with
  | None => (s, (au_global_id s, no_ticket, None))
  | Some t =>
      if expired now t then (Authority_default, (0, no_ticket, None))
      else (s, (au_global_id s, st_ticket t, Some (st_session_key t)))
  end.

(** The part of [service_authorization] under the lock. *)
Definition take_ticket (service_id now : Z) (s : Authority) : Authority * result ConnectorError (Z * ServiceTicket) :=
  match btree_get Z.compare service_id (au_tickets s) with
  | None => (s, Err (CE_Cephx CX_MissingTicket))
  | Some t =>
      if expired now t then
        (if service_id =? SERVICE_AUTH then Authority_default
         else mkAuthority (au_global_id s) (au_mode s) (btree_remove Z.compare service_id (au_tickets s)),
         Err (CE_Cephx CX_ExpiredTicket))
      else (s, Ok (au_global_id s, t))
  end.

Definition store_authenticated (global_id mode : Z) (tickets : list (Z * ServiceTicket)) (s : Authority) : Authority :=
  mkAuthority global_id mode tickets.

Definition service_renewal_time (t : ServiceTicket) : Z :=
  if st_expires_at t <? st_renew_after t then st_renew_after t
  else st_renew_after t + (st_expires_at t - st_renew_after t) / 2.

Section Metadata.
  Context {sha : Sha256Crate}.

Definition ticket_metadata (e : Z * ServiceTicket) : Z * TicketMetadata :=
  let '(service_id, t) := e in
  (service_id, mkTicketMetadata service_id (tb_secret_id (st_ticket t)) (sha256 (tb_blob (st_ticket t)))
                 (st_expires_at t) (st_renew_after t)).

Definition metadata (global_id mode : Z) (tickets : list (Z * ServiceTicket)) : AuthMetadata :=
  mkAuthMetadata global_id (if mode =? 0 then 0 else AUTH_METHOD_CEPHX) mode (ticket_metadata <$> tickets).

(** The seconds and the nanoseconds of a duration. *)
Definition duration_image (d : Z) : list byte := le_bytes 8 (d / 1000000000) ++ le_bytes 4 (d mod 1000000000).

Definition ticket_image (t : TicketMetadata) : list byte :=
  le_bytes 4 (tm_service_id t) ++ le_bytes 8 (tm_secret_id t) ++ tm_fingerprint t
  ++ duration_image (tm_expires_at t) ++ duration_image (tm_renew_after t).

Definition credential_identity (m : AuthMetadata) : list byte :=
  sha256 (le_bytes 8 (am_global_id m) ++ le_bytes 4 (am_method m) ++ le_bytes 4 (am_mode m)
          ++ concat (ticket_image ∘ snd <$> am_tickets m)).
End Metadata.

(** ** Handshakes *)

(** [cn_now] and the challenge of the configuration are asked of the
    environment. *)
Record ConnectorConfig : Type := mkConnectorConfig {
  cn_credential : Credential;
  cn_target_address : EntityAddr;
  cn_message_limits : Limits;
  cn_cephx_limits : CryptoLimits;
  cn_handshake_timeout : Z;
  cn_max_banner_payload : Z;
  cn_requested_keys : Z;
  cn_allow_crc : bool;
  cn_global_id : Z;
  cn_old_ticket : TicketBlob
}.

Record ServiceConfig : Type := mkServiceConfig {
  sc_authority : ConnectorConfig;
  sc_service_type : Z;
  sc_target_address : EntityAddr;
  sc_message_limits : Limits;
  sc_handshake_timeout : Z;
  sc_max_banner_payload : Z;
  sc_allow_crc : bool
}.

Definition no_limits (l : Limits) : bool :=
  (max_segment_bytes l =? 0) || (max_frame_bytes l =? 0) || (max_auth_bytes l =? 0).

Definition MonitorConnector_new (c : ConnectorConfig) : result ConnectorError (ConnectorConfig * Authority) :=
  if (cn_handshake_timeout c =? 0) || (cn_max_banner_payload c <? 16) || no_limits (cn_message_limits c)
  then Err CE_InvalidConfig
  else Ok (c, Authority_default).

Definition ServiceConnector_new (c : ServiceConfig) : result ConnectorError ServiceConfig :=
  if negb ((sc_service_type c =? ENTITY_OSD) || (sc_service_type c =? ENTITY_MANAGER))
     || (sc_handshake_timeout c =? 0) || (sc_max_banner_payload c <? 16) || no_limits (sc_message_limits c)
  then Err CE_InvalidConfig
  else Ok c.

Definition preferred_modes (allow_crc : bool) : list Z :=
  if allow_crc then [CONNECTION_MODE_SECURE; CONNECTION_MODE_CRC] else [CONNECTION_MODE_SECURE].

Definition classify_bad_method (allow_crc : bool) (v : AuthBadMethod) : ConnectorError :=
  let method_allowed := bool_decide (AUTH_METHOD_CEPHX ∈ ab_allowed_methods v) in
  let mode_allowed := existsb (fun mode => bool_decide (mode ∈ preferred_modes allow_crc)) (ab_allowed_modes v) in
  if negb (ab_method v =? AUTH_METHOD_CEPHX) || negb method_allowed || negb mode_allowed
  then CE_Downgrade else CE_Rejected.

(** [Y_Arrive]: the bytes that have arrived since the last read; when they do
    not suffice for it, the stream has ended or failed. *)
Inductive ConnE : Type -> Type :=
| Y_Gate : ConnE unit
| Y_Now : ConnE Z
| Y_Renewal (now : Z) : ConnE (Z * TicketBlob * option CryptoKey)
| Y_Ticket (service_id now : Z) : ConnE (result ConnectorError (Z * ServiceTicket))
| Y_Store (global_id mode : Z) (tickets : list (Z * ServiceTicket)) : ConnE unit
| Y_Write (wire : list byte) : ConnE bool
| Y_Arrive : ConnE (list byte)
| Y_Challenge : ConnE (result ConnectorError Z)
| Y_Random (n : nat) : ConnE (option (list byte)).

(** [TranscriptStream] with the codec of the handshake and what has arrived and
    not been read. *)
Record Handshake : Type := mkHandshake {
  hs_codec : FrameCodec;
  hs_reader : list byte;
  hs_tx : list byte;
  hs_rx : list byte;
  hs_capture : bool
}.

Definition Handshake_new : Handshake := mkHandshake (CrcFrames (mkCrcCodec true)) [] [] [] true.

Definition HM (A : Type) : Type := Handshake -> Prog ConnE (result ConnectorError (A * Handshake)).

#[export] Instance HM_ret : MRet HM := fun A a s => Ret (Ok (a, s)).
#[export] Instance HM_bind : MBind HM := fun A B f m s => await (m s) (fun '(a, s) => f a s).

Definition h_fail {A} (e : ConnectorError) : HM A := fun _ => Ret (Err e).
Definition h_lift {A} (r : result ConnectorError A) : HM A := fun s => question r (fun a => Ret (Ok (a, s))).
Definition h_call {X} (e : ConnE X) : HM X := fun s => x ← call e; Ret (Ok (x, s)).

Definition h_get : HM Handshake := fun s => Ret (Ok (s, s)).
Definition h_modify (f : Handshake -> Handshake) : HM unit := fun s => Ret (Ok (tt, f s)).

Definition cephx {A} (r : result CephxError A) : result ConnectorError A := map_err CE_Cephx r.

(** What a write adds to the transcript. *)
Definition sent (wire : list byte) (s : Handshake) : Handshake :=
  mkHandshake (hs_codec s) (hs_reader s) (if hs_capture s then hs_tx s ++ wire else hs_tx s) (hs_rx s) (hs_capture s).

(** What reading up to [rest] adds to it. *)
Definition received (reader rest : list byte) (s : Handshake) : Handshake :=
  let taken := take (length reader - length rest) reader in
  mkHandshake (hs_codec s) rest (hs_tx s) (if hs_capture s then hs_rx s ++ taken else hs_rx s) (hs_capture s).

Definition set_codec (c : FrameCodec) (s : Handshake) : Handshake :=
  mkHandshake c (hs_reader s) (hs_tx s) (hs_rx s) (hs_capture s).

Definition stop_capture (s : Handshake) : Handshake :=
  mkHandshake (hs_codec s) (hs_reader s) (hs_tx s) (hs_rx s) false.

Definition write_all (wire : list byte) : HM unit := fun s =>
  ok ← call (Y_Write wire);
  Ret (if ok : bool then Ok (tt, sent wire s) else Err CE_Io).

(** The bytes of [read_banner]. *)
Definition parse_banner (max_payload : Z) (reader : list byte) : result ConnectorError (Banner * list byte) :=
  '(header, reader) ← map_err (fun _ => CE_Io) (read_exact 10 reader);
  if negb (bool_decide (take 8 header = BANNER_PREFIX)) then Err (CE_Frame FE_Malformed)
  else
    let size := le_value (drop 8 header) in
    if size <? 16 then Err (CE_Frame FE_Malformed)
    else if max_payload <? size then Err (CE_Frame FE_LimitExceeded)
    else
      '(payload, reader) ← map_err (fun _ => CE_Io) (read_exact size reader);
      Ok (mkBanner (le_value (take 8 payload)) (le_value (take 8 (drop 8 payload))), reader).

Definition read_banner (max_payload : Z) : HM Banner := fun s =>
  more ← call Y_Arrive;
  let reader := hs_reader s ++ more in
  question (parse_banner max_payload reader) (fun '(banner, rest) => Ret (Ok (banner, received reader rest s))).

Section Wire.
  Context {crc_crate : Crc32cCrate} {aes_crate : AesGcmCrate}.

Definition write_control (control : Control) (limits : Limits) : HM unit := fun s =>
  question (map_err CE_Frame (Control_encode control limits)) (fun frame =>
  let '(r, codec) := FrameCodec_encode (hs_codec s) frame limits in
  match r with
  | Ok wire => write_all wire (set_codec codec s)
  | Err (SF_Error e) => Ret (Err (CE_Frame e))
  | Err SF_Panic => Stop Panicked
  end).

Definition read_control (limits : Limits) : HM Control := fun s =>
  more ← call Y_Arrive;
  let reader := hs_reader s ++ more in
  let '(r, codec, rest) := FrameCodec_read (hs_codec s) limits (Ok tt) reader in
  match r with
  | Ok frame =>
      question (map_err CE_Frame (Control_decode frame limits)) (fun control =>
      Ret (Ok (control, set_codec codec (received reader rest s))))
  | Err (SF_Error e) => Ret (Err (CE_Frame e))
  | Err SF_Panic => Stop Panicked
  end.

(** The start of both handshakes: banners, and a greeting of the right kind of
    peer. *)
Definition greet (max_banner_payload : Z) (target : EntityAddr) (limits : Limits) (peer : Z) : HM unit :=
  _ ← write_all (Banner_encode Banner_client);
  peer_banner ← read_banner max_banner_payload;
  _ ← h_lift (map_err CE_Frame (Banner_negotiate Banner_client peer_banner));
  _ ← write_control (C_Hello (mkHello ENTITY_CLIENT target)) limits;
  answer ← read_control limits;
  match answer with
  | C_Hello hello => if entity_type hello =? peer then mret tt else h_fail CE_WrongPeer
  | _ => h_fail CE_UnexpectedFlow
  end.

Definition mode_allowed (allow_crc : bool) (mode : Z) : bool :=
  (mode =? CONNECTION_MODE_SECURE) || allow_crc && (mode =? CONNECTION_MODE_CRC).

Definition secure_codec (secret : list byte) : HM FrameCodec := fun s =>
  match SecureCodec_new secret false with
  | Ok codec => Ret (Ok (SecureFrames codec, s))
  | Err (SF_Error e) => Ret (Err (CE_Frame e))
  | Err SF_Panic => Stop Panicked
  end.

Context {crates : CephxCrates}.

(** The end of both handshakes: the signatures of the transcript, under the
    negotiated codec. *)
Definition exchange_signatures (key : CryptoKey) (codec : FrameCodec) (limits : Limits) : HM unit :=
  s ← h_get;
  let client_signature := transcript_signature key (hs_rx s) in
  _ ← h_modify (fun s => set_codec codec (stop_capture s));
  _ ← write_control (C_AuthSignature client_signature) limits;
  answer ← read_control limits;
  match answer with
  | C_AuthSignature server_signature =>
      if negb (verify_transcript_signature key (hs_tx s) server_signature) then h_fail CE_SignatureMismatch else mret tt
  | _ => h_fail CE_UnexpectedFlow
  end.

(** The smallest time to the renewal of a ticket. *)
Definition first_renewal (now : Z) (tickets : list (Z * ServiceTicket)) : option Z :=
  match (fun e => saturating_sub (st_renew_after e.2) now) <$> tickets with
  | [] => None
  | d :: ds => Some (fold_left Z.min ds d)
  end.

Definition valid_global_id (id : Z) : bool := negb (id =? 0) && (id <=? 2 ^ 63 - 1).

Context {sha : Sha256Crate}.

(** [MonitorConnector::connect_inner]. *)
Definition monitor_handshake (c : ConnectorConfig) : HM ConnectionSetup :=
  let limits := cn_message_limits c in
  _ ← h_call Y_Gate;
  now ← h_call Y_Now;
  '(global_id, old_ticket, old_auth_key) ← h_call (Y_Renewal now);
  let requested_global_id := if global_id =? 0 then cn_global_id c else global_id in
  let old_ticket := if bool_decide (tb_blob old_ticket = []) then cn_old_ticket c else old_ticket in
  _ ← greet (cn_max_banner_payload c) (cn_target_address c) limits ENTITY_MONITOR;
  initial ← h_lift (cephx (build_initial_payload (cn_credential c) requested_global_id (cn_cephx_limits c)));
  _ ← write_control (C_AuthRequest (mkAuthRequest AUTH_METHOD_CEPHX (preferred_modes (cn_allow_crc c)) initial)) limits;
  answer ← read_control limits;
  challenge_payload ← match answer with
                      | C_AuthReplyMore payload => mret payload
                      | C_AuthBadMethod v => h_fail (classify_bad_method (cn_allow_crc c) v)
                      | _ => h_fail CE_UnexpectedFlow
                      end;
  server_challenge ← h_lift (cephx (parse_server_challenge challenge_payload (cn_cephx_limits c)));
  challenge ← h_call Y_Challenge;
  client_challenge ← h_lift challenge;
  response ← h_lift (cephx (build_challenge_request (cn_credential c) server_challenge client_challenge old_ticket
                              (cn_requested_keys c) (cn_cephx_limits c)));
  _ ← write_control (C_AuthRequestMore response) limits;
  answer ← read_control limits;
  done ← match answer with
         | C_AuthDone done => mret done
         | C_AuthBadMethod v => h_fail (classify_bad_method (cn_allow_crc c) v)
         | _ => h_fail CE_UnexpectedFlow
         end;
  if negb (valid_global_id (ad_global_id done)) then h_fail CE_InvalidGlobalId
  else if negb (mode_allowed (cn_allow_crc c) (ad_connection_mode done)) then h_fail CE_Downgrade
  else
    reply ← h_lift (cephx (parse_auth_session_reply (ad_auth_payload done) (cr_secret (cn_credential c)) old_auth_key
                             (ad_connection_mode done) now (cn_cephx_limits c)));
    codec ← (if ad_connection_mode done =? CONNECTION_MODE_SECURE then secure_codec (as_connection_secret reply)
             else if ad_connection_mode done =? CONNECTION_MODE_CRC then mret (CrcFrames (mkCrcCodec true))
             else h_fail CE_Downgrade);
    _ ← exchange_signatures (as_auth_session_key reply) codec limits;
    let m := metadata (ad_global_id done) (ad_connection_mode done) (as_tickets reply) in
    s ← h_get;
    _ ← h_call (Y_Store (ad_global_id done) (ad_connection_mode done) (as_tickets reply));
    mret (mkConnectionSetup (hs_codec s) true (Some (ad_global_id done)) (Some (credential_identity m))
            (first_renewal now (as_tickets reply))).

(** [service_authorization]. *)
Definition service_authorization (c : ConnectorConfig) (service_id : Z) : HM (Z * ServiceTicket * Authorizer) :=
  now ← h_call Y_Now;
  taken ← h_call (Y_Ticket service_id now);
  '(global_id, ticket) ← h_lift taken;
  random ← h_call (Y_Random 24);
  random ← h_lift (ok_or random CE_Io);
  authorizer ← h_lift (cephx (build_authorizer service_id global_id ticket now (le_value (take 8 random))
                                (Some (drop 8 random)) (cn_cephx_limits c)));
  mret (global_id, ticket, authorizer).

(** [ServiceConnector::connect_inner]. *)
Definition service_handshake (c : ServiceConfig) : HM ConnectionSetup :=
  let limits := sc_message_limits c in
  let service_id := sc_service_type c in
  _ ← h_call Y_Gate;
  '(global_id, ticket, authorizer) ← service_authorization (sc_authority c) service_id;
  _ ← greet (sc_max_banner_payload c) (sc_target_address c) limits (sc_service_type c);
  _ ← write_control (C_AuthRequest (mkAuthRequest AUTH_METHOD_CEPHX (preferred_modes (sc_allow_crc c))
                                      (az_payload authorizer))) limits;
  response ← read_control limits;
  '(response, authorizer) ←
    match response with
    | C_AuthReplyMore challenge =>
        confounder ← h_call (Y_Random 16);
        confounder ← h_lift (ok_or confounder CE_Io);
        authorizer ← h_lift (cephx (add_authorizer_challenge authorizer challenge (st_session_key ticket)
                                      (Some confounder) (cn_cephx_limits (sc_authority c))));
        _ ← write_control (C_AuthRequestMore (az_payload authorizer)) limits;
        response ← read_control limits;
        mret (response, authorizer)
    | _ => mret (response, authorizer)
    end;
  done ← match response with
         | C_AuthDone done => mret done
         | C_AuthBadMethod v => h_fail (classify_bad_method (cn_allow_crc (sc_authority c)) v)
         | _ => h_fail CE_UnexpectedFlow
         end;
  if negb (valid_global_id (ad_global_id done)) || negb (ad_global_id done =? global_id) then h_fail CE_InvalidGlobalId
  else if negb (mode_allowed (sc_allow_crc c) (ad_connection_mode done)) then h_fail CE_Downgrade
  else
    secret ← h_lift (cephx (verify_authorizer_reply (ad_auth_payload done) (st_session_key ticket) (az_nonce authorizer)
                              (cn_cephx_limits (sc_authority c))));
    codec ← (if ad_connection_mode done =? CONNECTION_MODE_SECURE then
               if zlen secret =? CONNECTION_SECRET_SIZE_SECURE then secure_codec secret
               else h_fail (CE_Cephx CX_MalformedPayload)
             else if ad_connection_mode done =? CONNECTION_MODE_CRC then
               if bool_decide (secret = []) then mret (CrcFrames (mkCrcCodec true)) else h_fail (CE_Cephx CX_InvalidMode)
             else h_fail CE_Downgrade);
    _ ← exchange_signatures (st_session_key ticket) codec limits;
    let m := metadata global_id (ad_connection_mode done) [(service_id, ticket)] in
    now ← h_call Y_Now;
    s ← h_get;
    mret (mkConnectionSetup (hs_codec s) true (Some global_id) (Some (credential_identity m))
            (Some (saturating_sub (service_renewal_time ticket) now))).
End Wire.
