(* ===== verification/CephxHandshake.v ===== *)
(** * What an authenticated connection means

    A handshake that succeeds has spoken with the right kind of peer in an
    allowed mode, and the peer has signed every byte the client sent with the
    key the authentication gave. *)

From S2P Require Import Prelude Codec Frame Message Address Control Secure Banner BTree SessionState Interaction Transport Supervisor CephxCrypto CephxCore CephxProps CephxConnector.
From Stdlib Require Import ZArith Lia Strings.Byte Strings.String.
From stdpp Require Import base option gmap sorting numbers list.

Open Scope Z_scope.

(** ** Readers leave a suffix *)

Definition leaves {E A} (f : list byte -> result E (A * list byte)) : Prop :=
  forall p a r, f p = Ok (a, r) -> exists w, p = w ++ r.

Definition st_leaves {A} (m : St (Direction * list byte) SecureFault A) : Prop :=
  forall d p a d' r, m (d, p) = (Ok a, (d', r)) -> exists w, p = w ++ r.

Lemma leaves_read_exact n : leaves (read_exact n).
Proof.
  intros p a r. unfold read_exact. destruct (_ <? n); [done|]. intros H. apply Ok_inj in H. injection H as <- <-.
  exists (take (Z.to_nat n) p). by rewrite take_drop.
Qed.

Lemma leaves_bind {E A B} (f : list byte -> result E (A * list byte)) (k : A -> list byte -> result E (B * list byte)) :
  leaves f -> (forall a, leaves (k a)) -> leaves (fun p => '(a, q) ← f p; k a q).
Proof.
  intros Hf Hk p b r H. apply bind_inv in H as ([a q] & Ha & H). destruct (Hf _ _ _ Ha) as [w ->].
  destruct (Hk _ _ _ _ H) as [w' ->]. exists (w ++ w'). by rewrite app_assoc.
Qed.

Lemma leaves_lift {E A B} (x : result E A) (k : A -> list byte -> result E (B * list byte)) :
  (forall a, leaves (k a)) -> leaves (fun p => a ← x; k a p).
Proof. intros Hk p b r H. apply bind_inv in H as (a & _ & H). by eapply Hk. Qed.

Lemma leaves_ret {E A} (a : A) : leaves (fun p => @Ok E _ (a, p)).
Proof. intros p b r H. apply Ok_inj in H. injection H as <- <-. by exists []. Qed.

Section Leaving.
  Context {crc_crate : Crc32cCrate} {aes_crate : AesGcmCrate}.

Lemma leaves_read_segments codec ds : forall first, leaves (read_segments codec first ds).
Proof.
  induction ds as [|d ds IH]; intros first; [apply leaves_ret|].
  intros p a r H. cbn [read_segments] in H. revert p a r H.
  apply leaves_bind; [apply leaves_read_exact|]. intros data p a r H.
  apply bind_inv in H as (q & Hq & H). apply bind_inv in H as ([segs q'] & Hs & H).
  apply Ok_inj in H. injection H as <- <-. destruct (IH _ _ _ _ Hs) as [w ->].
  destruct (first && _); [|apply Ok_inj in Hq as ->; by exists w].
  apply bind_inv in Hq as ([e q2] & He & Hq). destruct (leaves_read_exact _ _ _ _ He) as [v ->].
  destruct (with_data_crc codec && _); [done|]. apply Ok_inj in Hq as ->. exists (v ++ w). by rewrite app_assoc.
Qed.

Lemma leaves_crc_read codec limits reserve : leaves (CrcCodec_read_reserved codec limits reserve).
Proof.
  intros p f r H. unfold CrcCodec_read_reserved in H. revert p f r H.
  apply leaves_bind; [apply leaves_read_exact|]. intros preamble.
  intros p f r H. apply bind_inv in H as ([tag ds] & _ & H). revert p f r H.
  apply leaves_lift. intros w. apply leaves_lift. intros [].
  apply leaves_bind; [apply leaves_read_segments|]. intros segs p f r H.
  apply bind_inv in H as (q & Hq & H). apply Ok_inj in H. injection H as <- <-.
  destruct (1 <? zlen ds); [|apply Ok_inj in Hq as ->; by exists []].
  apply bind_inv in Hq as ([e q2] & He & Hq). apply bind_inv in Hq as ([] & _ & Hq). apply bind_inv in Hq as ([] & _ & Hq).
  apply Ok_inj in Hq as ->. by apply leaves_read_exact in He.
Qed.

Lemma st_leaves_bind {A B} (m : St (Direction * list byte) SecureFault A)
    (k : A -> St (Direction * list byte) SecureFault B) :
  st_leaves m -> (forall a, st_leaves (k a)) -> st_leaves (m ≫= k).
Proof.
  intros Hm Hk d p b d' r H. apply St_bind_inv in H as (a & [d1 q] & Ha & H).
  destruct (Hm _ _ _ _ _ Ha) as [w ->]. destruct (Hk _ _ _ _ _ _ H) as [w' ->]. exists (w ++ w'). by rewrite app_assoc.
Qed.

Lemma st_leaves_lift {A} (x : result SecureFault A) : st_leaves (st_lift x).
Proof. intros d p a d' r H. unfold st_lift in H. injection H as _ _ <-. by exists []. Qed.

Lemma st_leaves_ret {A} (a : A) : st_leaves (mret a).
Proof. exact (st_leaves_lift (Ok a)). Qed.

Lemma st_leaves_rx {A} (m : St Direction SecureFault A) : st_leaves (on_rx m).
Proof. intros d p a d' r H. unfold on_rx in H. destruct (m d) as [x d1]. injection H as _ _ <-. by exists []. Qed.

Lemma st_leaves_read n : st_leaves (read_bytes n).
Proof.
  intros d p a d' r H. unfold read_bytes in H. destruct (read_exact n p) as [[x q]|] eqn:E; cbn in H; [|done].
  injection H as <- <- <-. by apply leaves_read_exact in E.
Qed.

Create HintDb leaves.
#[local] Hint Resolve st_leaves_lift st_leaves_ret st_leaves_rx st_leaves_read : leaves.
#[local] Ltac leaving :=
  repeat first
    [ progress eauto with leaves
    | apply st_leaves_bind; [|intros ?]
    | case_match; subst
    | apply st_leaves_lift ].

Lemma st_leaves_secure_read limits reserve : st_leaves (SecureCodec_read_reserved limits reserve).
Proof.
  unfold SecureCodec_read_reserved, st_fail_if. leaving. unfold read_tail, read_first, read_others, st_fail_if. cbv zeta. leaving.
Qed.

Lemma read_leaves limits granted d p f d' r :
  FrameCodec_read d limits granted p = (Ok f, d', r) -> exists w, p = w ++ r.
Proof.
  destruct d as [c|c]; cbn.
  - destruct (CrcCodec_read_reserved c limits _ p) as [[g q]|] eqn:E; [|done]. intros H. simplify_eq. by apply leaves_crc_read in E.
  - destruct (SecureCodec_read_reserved limits _ (rx c, p)) as [x [d1 q]] eqn:E. intros H. simplify_eq.
    by apply st_leaves_secure_read in E.
Qed.
End Leaving.

(** ** What a handshake does *)

Inductive ConnObs : Type :=
| YO_Gate
| YO_Now (now : Z)
| YO_Renewed (r : Z * TicketBlob * option CryptoKey)
| YO_Ticket (r : result ConnectorError (Z * ServiceTicket))
| YO_Stored (global_id mode : Z) (tickets : list (Z * ServiceTicket))
| YO_Wrote (wire : list byte) (ok : bool)
| YO_Arrived (bytes : list byte)
| YO_Challenge (r : result ConnectorError Z)
| YO_Random (r : option (list byte))
| YO_TimedOut.

Definition see_conn (X : Type) (e : ConnE X) : X -> ConnObs :=
  match e in ConnE X return X -> ConnObs with
  | Y_Gate => fun _ => YO_Gate
  | Y_Now => fun now => YO_Now now
  | Y_Renewal _ => fun r => YO_Renewed r
  | Y_Ticket _ _ => fun r => YO_Ticket r
  | Y_Store global_id mode tickets => fun _ => YO_Stored global_id mode tickets
  | Y_Write wire => fun ok => YO_Wrote wire ok
  | Y_Arrive => fun bytes => YO_Arrived bytes
  | Y_Challenge => fun r => YO_Challenge r
  | Y_Random _ => fun r => YO_Random r
  end.

(** The writes that succeeded, the bytes that arrived, and what was stored. *)
Definition written_wires (t : list ConnObs) : list (list byte) :=
  omap (fun o => match o with YO_Wrote wire true => Some wire | _ => None end) t.

Definition arrived (t : list ConnObs) : list byte :=
  concat (omap (fun o => match o with YO_Arrived bytes => Some bytes | _ => None end) t).

Definition stored (t : list ConnObs) : list (Z * Z * list (Z * ServiceTicket)) :=
  omap (fun o => match o with YO_Stored g m ts => Some (g, m, ts) | _ => None end) t.

Abbreviation crc_frames := (CrcFrames (mkCrcCodec true)).

Section Handshakes.
  Context {crc_crate : Crc32cCrate} {aes_crate : AesGcmCrate} {crates : CephxCrates} {sha : Sha256Crate}.

(** Control frames read one after the other from a stream, and written. *)
Inductive hears (limits : Limits) : FrameCodec -> list byte -> list Control -> FrameCodec -> list byte -> Prop :=
| hears_nil c r : hears limits c r [] c r
| hears_cons c r f c' r' control controls c'' r'' :
    FrameCodec_read c limits (Ok tt) r = (Ok f, c', r') -> Control_decode f limits = Ok control ->
    hears limits c' r' controls c'' r'' -> hears limits c r (control :: controls) c'' r''.

Inductive says (limits : Limits) : FrameCodec -> list Control -> list (list byte) -> FrameCodec -> Prop :=
| says_nil c : says limits c [] [] c
| says_cons c control f w c' controls ws c'' :
    Control_encode control limits = Ok f -> FrameCodec_encode c f limits = (Ok w, c') ->
    says limits c' controls ws c'' -> says limits c (control :: controls) (w :: ws) c''.

Lemma hears_snoc limits c r cs c' r' f c'' r'' control :
  hears limits c r cs c' r' -> FrameCodec_read c' limits (Ok tt) r' = (Ok f, c'', r'') ->
  Control_decode f limits = Ok control -> hears limits c r (cs ++ [control]) c'' r''.
Proof. induction 1; intros Hr Hd; cbn; econstructor; eauto. constructor. Qed.

Lemma says_snoc limits c cs ws c' f w c'' control :
  says limits c cs ws c' -> Control_encode control limits = Ok f -> FrameCodec_encode c' f limits = (Ok w, c'') ->
  says limits c (cs ++ [control]) (ws ++ [w]) c''.
Proof. induction 1; intros He Hw; cbn; econstructor; eauto. constructor. Qed.

Lemma hears_extends limits c r cs c' r' more :
  hears limits c r cs c' r' -> hears limits c (r ++ more) cs c' (r' ++ more).
Proof. induction 1; econstructor; eauto. by apply read_extends. Qed.

Lemma parse_banner_reads max_payload reader peer rest :
  parse_banner max_payload reader = Ok (peer, rest) ->
  exists w, reader = w ++ rest /\ Banner_read reader max_payload = Ok (peer, rest).
Proof.
  unfold parse_banner, Banner_read. change BANNER_PAYLOAD_SIZE with 16.
  destruct (read_exact 10 reader) as [[header r1]|e] eqn:E1; cbn [map_err]; [|done]. rewrite !bind_Ok.
  destruct (negb _); [done|]. destruct (_ <? 16); [done|]. destruct (max_payload <? _); [done|].
  destruct (read_exact (le_value (drop 8 header)) r1) as [[payload r2]|e] eqn:E5; cbn [map_err]; [|done]. rewrite !bind_Ok.
  intros H. apply Ok_inj in H. injection H as <- <-.
  destruct (leaves_read_exact _ _ _ _ E1) as [w1 ->]. destruct (leaves_read_exact _ _ _ _ E5) as [w2 ->].
  exists (w1 ++ w2). by rewrite <- app_assoc.
Qed.

(** A condition that a failed handshake meets when it has stored nothing. *)
Record lenient {A} (Q : list ConnObs -> result Halted (result ConnectorError A) -> Prop) : Prop := {
  lenient_error t e : stored t = [] -> Q t (Ok (Err e));
  lenient_halt t h : Q t (Err h)
}.

Section Steps.
  Context {A B : Type} (Q : list ConnObs -> result Halted (result ConnectorError (B * Handshake)) -> Prop) (HQ : lenient Q).

Lemma stored_snoc t o : stored (t ++ [o]) = stored t ++ stored [o].
Proof. apply omap_app. Qed.

Lemma step_call {X} (e : ConnE X) (k : X -> HM B) s t :
  (forall x, always see_conn (k x s) (t ++ [see_conn X e x]) Q) -> always see_conn ((h_call e ≫= k) s) t Q.
Proof. intros H x. apply H. Qed.

Lemma step_lift {X} (r : result ConnectorError X) (k : X -> HM B) s t :
  stored t = [] -> (forall x, r = Ok x -> always see_conn (k x s) t Q) -> always see_conn ((h_lift r ≫= k) s) t Q.
Proof. intros Ht H. destruct r; [by apply H|]. by apply HQ. Qed.

Lemma step_write wire (k : unit -> HM B) s t :
  stored t = [] -> always see_conn (k tt (sent wire s)) (t ++ [YO_Wrote wire true]) Q ->
  always see_conn ((write_all wire ≫= k) s) t Q.
Proof. intros Ht H []; [exact H|]. apply HQ. rewrite stored_snoc, Ht. done. Qed.

Lemma step_write_control control limits (k : unit -> HM B) s t :
  stored t = [] ->
  (forall f w c', Control_encode control limits = Ok f -> FrameCodec_encode (hs_codec s) f limits = (Ok w, c') ->
     always see_conn (k tt (sent w (set_codec c' s))) (t ++ [YO_Wrote w true]) Q) ->
  always see_conn ((write_control control limits ≫= k) s) t Q.
Proof.
  intros Ht H. unfold mbind, HM_bind, write_control. destruct (Control_encode control limits) as [f|e] eqn:Ec; cbn [map_err question]; [|by apply HQ].
  destruct (FrameCodec_encode (hs_codec s) f limits) as [[w|[e|]] c'] eqn:Ef; [|by apply HQ|by apply HQ].
  apply (step_write w k (set_codec c' s) t); [done|]. by apply (H f w c').
Qed.

Lemma received_taken reader w rest s :
  reader = w ++ rest ->
  received reader rest s = mkHandshake (hs_codec s) rest (hs_tx s) (if hs_capture s then hs_rx s ++ w else hs_rx s) (hs_capture s).
Proof.
  intros ->. unfold received. rewrite length_app, take_app_length' by lia. done.
Qed.

Lemma step_read_control limits (k : Control -> HM B) s t :
  stored t = [] ->
  (forall more f c' w rest control, hs_reader s ++ more = w ++ rest ->
     FrameCodec_read (hs_codec s) limits (Ok tt) (w ++ rest) = (Ok f, c', rest) -> Control_decode f limits = Ok control ->
     always see_conn (k control (mkHandshake c' rest (hs_tx s) (if hs_capture s then hs_rx s ++ w else hs_rx s) (hs_capture s)))
       (t ++ [YO_Arrived more]) Q) ->
  always see_conn ((read_control limits ≫= k) s) t Q.
Proof.
  intros Ht H more. cbn [see_conn].
  assert (stored (t ++ [YO_Arrived more]) = []) as Ht' by (by rewrite stored_snoc, Ht).
  change (always see_conn
    ((let '(r, codec, rest) := FrameCodec_read (hs_codec s) limits (Ok tt) (hs_reader s ++ more) in
      match r with
      | Ok frame => question (map_err CE_Frame (Control_decode frame limits)) (fun control =>
          Ret (Ok (control, set_codec codec (received (hs_reader s ++ more) rest s))))
      | Err (SF_Error e) => Ret (Err (CE_Frame e))
      | Err SF_Panic => Stop Panicked
      end) ≫= (fun r => question r (fun '(a, s) => k a s))) (t ++ [YO_Arrived more]) Q).
  destruct (FrameCodec_read (hs_codec s) limits (Ok tt) (hs_reader s ++ more)) as [[[f|[e|]] c'] rest] eqn:Er; [|by apply HQ..].
  destruct (Control_decode f limits) as [control|e] eqn:Ed; [|by apply HQ].
  cbn. destruct (read_leaves _ _ _ _ _ _ _ Er) as [w Hw]. rewrite (received_taken _ w) by done. rewrite Hw in Er.
  by apply (H more f c' w rest control).
Qed.

Lemma step_read_banner max_payload (k : Banner -> HM B) s t :
  stored t = [] ->
  (forall more w rest peer, hs_reader s ++ more = w ++ rest -> Banner_read (w ++ rest) max_payload = Ok (peer, rest) ->
     always see_conn (k peer (mkHandshake (hs_codec s) rest (hs_tx s) (if hs_capture s then hs_rx s ++ w else hs_rx s) (hs_capture s)))
       (t ++ [YO_Arrived more]) Q) ->
  always see_conn ((read_banner max_payload ≫= k) s) t Q.
Proof.
  intros Ht H more. cbn [see_conn].
  assert (stored (t ++ [YO_Arrived more]) = []) as Ht' by (by rewrite stored_snoc, Ht).
  destruct (parse_banner max_payload (hs_reader s ++ more)) as [[peer rest]|e] eqn:E.
  - destruct (parse_banner_reads _ _ _ _ E) as (w & Hw & Hb).
    assert (always see_conn (k peer (received (hs_reader s ++ more) rest s)) (t ++ [YO_Arrived more]) Q) as Hk.
    { rewrite (received_taken _ w) by done. apply (H more w rest peer); [done|]. by rewrite <- Hw. }
    cbn. rewrite E. exact Hk.
  - cbn. rewrite E. by apply HQ.
Qed.
End Steps.

(** ** The dialogue before the signatures *)

Record dialogue (max_payload : Z) (limits : Limits) (t : list ConnObs) (s : Handshake) (said heard : list Control) : Prop := {
  dg_capture : hs_capture s = true;
  dg_codec : hs_codec s = crc_frames;
  dg_tx : hs_tx s = concat (written_wires t);
  dg_rx : arrived t = hs_rx s ++ hs_reader s;
  dg_said : exists ws, written_wires t = Banner_encode Banner_client :: ws /\ says limits crc_frames said ws crc_frames;
  dg_heard : exists peer r0, Banner_read (arrived t) max_payload = Ok (peer, r0)
      /\ is_ok (Banner_negotiate Banner_client peer) = true
      /\ hears limits crc_frames r0 heard crc_frames (hs_reader s);
  dg_stored : stored t = []
}.

Lemma written_snoc t o : written_wires (t ++ [o]) = written_wires t ++ written_wires [o].
Proof. apply omap_app. Qed.

Lemma arrived_snoc t o : arrived (t ++ [o]) = arrived t ++ arrived [o].
Proof. unfold arrived. by rewrite omap_app, concat_app. Qed.

(** Neither bytes nor tickets. *)
Definition aside (o : ConnObs) : bool :=
  match o with YO_Stored _ _ _ | YO_Wrote _ _ | YO_Arrived _ => false | _ => true end.

Lemma aside_neutral t o :
  aside o = true -> written_wires (t ++ [o]) = written_wires t /\ arrived (t ++ [o]) = arrived t /\ stored (t ++ [o]) = stored t.
Proof. intros H. rewrite written_snoc, arrived_snoc, stored_snoc. destruct o; cbn in *; by rewrite ?app_nil_r. Qed.

Lemma dialogue_aside max_payload limits t s said heard o :
  aside o = true -> dialogue max_payload limits t s said heard -> dialogue max_payload limits (t ++ [o]) s said heard.
Proof. intros Ho []. destruct (aside_neutral t o Ho) as (H1 & H2 & H3). by split; rewrite ?H1, ?H2, ?H3. Qed.

Lemma extends_banner max_payload : extends (fun p => Banner_read p max_payload).
Proof.
  unfold Banner_read. apply extends_bind; [apply extends_read_exact|]. intros header p a r more H.
  destruct (negb _); [done|]. destruct (_ <? _); [done|]. destruct (_ <? _); [done|].
  apply bind_inv in H as ([payload q] & H1 & H). apply Ok_inj in H. injection H as <- <-.
  by rewrite (extends_read_exact _ _ _ _ more H1), bind_Ok.
Qed.

Lemma crc_encodes_same f limits w c' : FrameCodec_encode crc_frames f limits = (Ok w, c') -> c' = crc_frames.
Proof. cbn. intros H. by injection H. Qed.

Lemma crc_reads_same r limits f c' r' : FrameCodec_read crc_frames limits (Ok tt) r = (Ok f, c', r') -> c' = crc_frames.
Proof. cbn. destruct (CrcCodec_read_reserved _ _ _ r) as [[g q]|]; [|done]. intros H. by injection H. Qed.

Section Dialogue.
  Context {B : Type} (Q : list ConnObs -> result Halted (result ConnectorError (B * Handshake)) -> Prop) (HQ : lenient Q)
    (max_payload : Z) (limits : Limits).

Lemma say control (k : unit -> HM B) s t said heard :
  dialogue max_payload limits t s said heard ->
  (forall t' s', t `prefix_of` t' -> dialogue max_payload limits t' s' (said ++ [control]) heard -> always see_conn (k tt s') t' Q) ->
  always see_conn ((write_control control limits ≫= k) s) t Q.
Proof.
  intros [] H. apply step_write_control; [done|done|]. intros f w c' Ec Ef. rewrite dg_codec0 in Ef.
  pose proof (crc_encodes_same _ _ _ _ Ef) as ->. apply H; [by eexists|]. split; cbn [sent set_codec hs_capture hs_codec hs_tx hs_rx hs_reader].
  - done.
  - done.
  - rewrite dg_capture0, written_snoc, concat_app, dg_tx0. cbn. by rewrite app_nil_r.
  - rewrite arrived_snoc, app_nil_r. done.
  - destruct dg_said0 as (ws & Hw & Hs). exists (ws ++ [w]). rewrite written_snoc, Hw. split; [done|]. by eapply says_snoc.
  - rewrite arrived_snoc, app_nil_r. done.
  - by rewrite stored_snoc, dg_stored0.
Qed.

Lemma hear (k : Control -> HM B) s t said heard :
  dialogue max_payload limits t s said heard ->
  (forall control t' s', t `prefix_of` t' -> dialogue max_payload limits t' s' said (heard ++ [control]) -> always see_conn (k control s') t' Q) ->
  always see_conn ((read_control limits ≫= k) s) t Q.
Proof.
  intros [] H. apply step_read_control; [done|done|]. intros more f c' w rest control Hw Hf Hc. rewrite dg_codec0 in Hf.
  pose proof (crc_reads_same _ _ _ _ _ Hf) as ->. apply H; [by eexists|]. rewrite dg_capture0.
  split; cbn [hs_capture hs_codec hs_tx hs_rx hs_reader].
  - done.
  - done.
  - by rewrite written_snoc, app_nil_r.
  - rewrite arrived_snoc, dg_rx0, <- app_assoc. cbn. by rewrite app_nil_r, Hw, app_assoc.
  - destruct dg_said0 as (ws & Hws & Hs). exists ws. by rewrite written_snoc, app_nil_r.
  - destruct dg_heard0 as (peer & r0 & H1 & H2 & H3). exists peer, (r0 ++ more). rewrite arrived_snoc. cbn. rewrite app_nil_r.
    split; [by apply (extends_banner max_payload)|]. split; [done|].
    apply (hears_extends _ _ _ _ _ _ more) in H3. rewrite Hw in H3. by eapply hears_snoc.
  - by rewrite stored_snoc, dg_stored0.
Qed.

Lemma ask {X} (e : ConnE X) (k : X -> HM B) s t said heard :
  (forall x, aside (see_conn X e x) = true) -> dialogue max_payload limits t s said heard ->
  (forall x, dialogue max_payload limits (t ++ [see_conn X e x]) s said heard -> always see_conn (k x s) (t ++ [see_conn X e x]) Q) ->
  always see_conn ((h_call e ≫= k) s) t Q.
Proof. intros He Hd H. apply step_call. intros x. apply H. by apply dialogue_aside. Qed.

Lemma conclude {X} (r : result ConnectorError X) (k : X -> HM B) s t said heard :
  dialogue max_payload limits t s said heard ->
  (forall x, r = Ok x -> always see_conn (k x s) t Q) -> always see_conn ((h_lift r ≫= k) s) t Q.
Proof. intros [] H. by apply step_lift. Qed.

Lemma abandon s t e said heard : dialogue max_payload limits t s said heard -> always see_conn (h_fail e s) t Q.
Proof. intros []. by apply HQ. Qed.

Lemma hm_assoc {X Y} (m : HM X) (f : X -> HM Y) (g : Y -> HM B) s t :
  always see_conn ((m ≫= fun x => f x ≫= g) s) t Q -> always see_conn (((m ≫= f) ≫= g) s) t Q.
Proof.
  unfold mbind, HM_bind. unfold await. generalize (m s). intros p. revert t.
  induction p as [[[x s']|e]|h|Z' e k IH]; intros t H; [exact H|exact H|exact H|]. intros z. apply IH, H.
Qed.

Lemma hm_match {X} (x : X) (k : X -> HM B) s t : always see_conn (k x s) t Q -> always see_conn ((mret x ≫= k) s) t Q.
Proof. done. Qed.

Lemma meet target peer (k : unit -> HM B) t :
  written_wires t = [] -> arrived t = [] -> stored t = [] ->
  (forall t' s' hello, t `prefix_of` t' -> entity_type hello = peer ->
     dialogue max_payload limits t' s' [C_Hello (mkHello ENTITY_CLIENT target)] [C_Hello hello] -> always see_conn (k tt s') t' Q) ->
  always see_conn ((greet max_payload target limits peer ≫= k) Handshake_new) t Q.
Proof.
  intros Hw Ha Hs H. unfold greet. apply hm_assoc, step_write; [done|done|]. apply hm_assoc, step_read_banner; [done|by rewrite stored_snoc, Hs|].
  intros more w rest banner Hr Hb. cbn [sent Handshake_new hs_reader hs_codec hs_tx hs_rx hs_capture app] in *.
  apply hm_assoc. apply step_lift; [done|by rewrite !stored_snoc, Hs|]. intros x Hx.
  assert (is_ok (Banner_negotiate Banner_client banner) = true) as Hn by (by destruct (Banner_negotiate _ _)).
  set (t1 := (t ++ _) ++ _). set (s1 := mkHandshake _ _ _ _ _).
  assert (dialogue max_payload limits t1 s1 [] []) as Hd.
  { unfold t1, s1. split; cbn [hs_capture hs_codec hs_tx hs_rx hs_reader].
    - done.
    - done.
    - rewrite !written_snoc, Hw. cbn. by rewrite !app_nil_r.
    - rewrite !arrived_snoc, Ha. cbn. by rewrite app_nil_r.
    - exists []. rewrite !written_snoc, Hw. split; [done|constructor].
    - exists banner, rest. rewrite !arrived_snoc, Ha. cbn. rewrite app_nil_r, Hr. split_and!; [done|done|constructor].
    - by rewrite !stored_snoc, Hs. }
  assert (t `prefix_of` t1) as Hp by (unfold t1; rewrite <- app_assoc; by eexists).
  clearbody t1 s1. apply hm_assoc. eapply say; [done|]. intros t2 s2 Hp2 Hd2.
  apply hm_assoc. eapply hear; [done|]. intros control t3 s3 Hp3 Hd3.
  destruct control; try by eapply abandon.
  destruct (Z.eqb_spec (entity_type v) peer) as [E|E]; [|by eapply abandon].
  apply (H t3 s3 v); [by do 2 (etrans; [eassumption|])|done|done].
Qed.
End Dialogue.

(** ** The signatures *)

(** Everything both sides sent up to the signatures was signed by both with the
    key, under the codec. *)
Definition signed (max_payload : Z) (limits : Limits) (said heard : list Control) (key : CryptoKey) (codec : FrameCodec)
    (t : list ConnObs) (codec' : FrameCodec) : Prop :=
  exists peer r0 heard_bytes rest later codec1 ws w,
    Banner_read (arrived t) max_payload = Ok (peer, r0) /\ is_ok (Banner_negotiate Banner_client peer) = true
    /\ arrived t = heard_bytes ++ rest /\ hears limits crc_frames r0 heard crc_frames rest
    /\ written_wires t = (Banner_encode Banner_client :: ws) ++ [w] /\ says limits crc_frames said ws crc_frames
    /\ says limits codec [C_AuthSignature (transcript_signature key heard_bytes)] [w] codec1
    /\ hears limits codec1 rest [C_AuthSignature (transcript_signature key (concat (Banner_encode Banner_client :: ws)))]
         codec' later.

Lemma sign {B} (Q : list ConnObs -> result Halted (result ConnectorError (B * Handshake)) -> Prop) (HQ : lenient Q)
    max_payload limits key codec (k : unit -> HM B) s t said heard :
  dialogue max_payload limits t s said heard ->
  (forall t' s', t `prefix_of` t' -> stored t' = [] -> signed max_payload limits said heard key codec t' (hs_codec s') ->
     always see_conn (k tt s') t' Q) ->
  always see_conn ((exchange_signatures key codec limits ≫= k) s) t Q.
Proof.
  intros [] H. unfold exchange_signatures. do 2 apply hm_assoc.
  change (always see_conn (((write_control (C_AuthSignature (transcript_signature key (hs_rx s))) limits ≫= fun _ =>
    answer ← read_control limits;
    match answer with
    | C_AuthSignature server_signature =>
        if negb (verify_transcript_signature key (hs_tx s) server_signature) then h_fail CE_SignatureMismatch else mret tt
    | _ => h_fail CE_UnexpectedFlow
    end) ≫= k) (set_codec codec (stop_capture s))) t Q).
  apply hm_assoc, step_write_control; [done|done|]. intros f w c1 Ec Ef. cbn [set_codec stop_capture hs_codec] in Ef.
  apply hm_assoc, step_read_control; [done|by rewrite stored_snoc, dg_stored0|].
  intros more g c2 u rest control Hr Hg Hd. cbn [sent set_codec stop_capture hs_codec hs_reader hs_capture hs_tx hs_rx] in *.
  assert (stored ((t ++ [YO_Wrote w true]) ++ [YO_Arrived more]) = []) as Hs by (by rewrite !stored_snoc, dg_stored0).
  destruct control; try by apply HQ.
  destruct (verify_transcript_signature key (hs_tx s) signature) eqn:V; cbn [negb]; [|by apply HQ].
  apply H; [rewrite <- app_assoc; by eexists|done|].
  unfold verify_transcript_signature in V. apply bool_decide_eq_true in V.
  destruct dg_said0 as (ws & Hw & Hsaid). destruct dg_heard0 as (peer & r0 & H1 & H2 & H3).
  exists peer, (r0 ++ more), (hs_rx s), (hs_reader s ++ more), rest, c1, ws, w.
  rewrite !arrived_snoc, !written_snoc. cbn. rewrite !app_nil_r.
  split_and!.
  - by apply (extends_banner max_payload).
  - done.
  - by rewrite dg_rx0, app_assoc.
  - by apply hears_extends.
  - by rewrite Hw.
  - done.
  - econstructor; [done|done|constructor].
  - rewrite Hr. econstructor; [exact Hg| |constructor]. rewrite Hd. unfold transcript_signature. by rewrite <- V, dg_tx0, Hw.
Qed.

(** ** Monitors *)

(** The codec the mode of the connection calls for. *)
Definition mode_codec (allow_crc : bool) (mode : Z) (secret : list byte) (codec : FrameCodec) : Prop :=
  mode = CONNECTION_MODE_SECURE /\ (exists sc, SecureCodec_new secret false = Ok sc /\ codec = SecureFrames sc)
  \/ allow_crc = true /\ mode = CONNECTION_MODE_CRC /\ codec = crc_frames.

(** What a monitor's connection rests on. *)
Definition authenticated (c : ConnectorConfig) (t : list ConnObs) (setup : ConnectionSetup) : Prop :=
  exists now gid0 ticket0 key0 hello initial challenge server_challenge client_challenge response done reply codec,
    YO_Now now ∈ t /\ YO_Renewed (gid0, ticket0, key0) ∈ t /\ entity_type hello = ENTITY_MONITOR
    /\ build_initial_payload (cn_credential c) (if gid0 =? 0 then cn_global_id c else gid0) (cn_cephx_limits c) = Ok initial
    /\ parse_server_challenge challenge (cn_cephx_limits c) = Ok server_challenge /\ YO_Challenge (Ok client_challenge) ∈ t
    /\ build_challenge_request (cn_credential c) server_challenge client_challenge
         (if bool_decide (tb_blob ticket0 = []) then cn_old_ticket c else ticket0) (cn_requested_keys c) (cn_cephx_limits c)
       = Ok response
    /\ signed (cn_max_banner_payload c) (cn_message_limits c)
         [C_Hello (mkHello ENTITY_CLIENT (cn_target_address c));
          C_AuthRequest (mkAuthRequest AUTH_METHOD_CEPHX (preferred_modes (cn_allow_crc c)) initial);
          C_AuthRequestMore response]
         [C_Hello hello; C_AuthReplyMore challenge; C_AuthDone done]
         (as_auth_session_key reply) codec t (cs_codec setup)
    /\ valid_global_id (ad_global_id done) = true
    /\ parse_auth_session_reply (ad_auth_payload done) (cr_secret (cn_credential c)) key0 (ad_connection_mode done) now
         (cn_cephx_limits c) = Ok reply
    /\ mode_codec (cn_allow_crc c) (ad_connection_mode done) (as_connection_secret reply) codec
    /\ stored t = [(ad_global_id done, ad_connection_mode done, as_tickets reply)]
    /\ setup = mkConnectionSetup (cs_codec setup) true (Some (ad_global_id done))
                 (Some (credential_identity (metadata (ad_global_id done) (ad_connection_mode done) (as_tickets reply))))
                 (first_renewal now (as_tickets reply)).

Definition monitor_post (c : ConnectorConfig) (t : list ConnObs)
    (r : result Halted (result ConnectorError (ConnectionSetup * Handshake))) : Prop :=
  match r with
  | Ok (Ok (setup, _)) => authenticated c t setup
  | Ok (Err _) => stored t = []
  | Err _ => True
  end.

Lemma monitor_lenient c : lenient (monitor_post c).
Proof. by split. Qed.

(** Chooses the codec of the connection. *)
Lemma choose_codec {B} (Q : list ConnObs -> result Halted (result ConnectorError (B * Handshake)) -> Prop) (HQ : lenient Q)
    allow_crc mode secret (k : FrameCodec -> HM B) s t :
  stored t = [] -> mode_allowed allow_crc mode = true ->
  (forall codec, mode_codec allow_crc mode secret codec -> always see_conn (k codec s) t Q) ->
  always see_conn (((if mode =? CONNECTION_MODE_SECURE then secure_codec secret
                     else if mode =? CONNECTION_MODE_CRC then mret crc_frames else h_fail CE_Downgrade) ≫= k) s) t Q.
Proof.
  intros Ht Hm H. unfold mode_allowed in Hm. destruct (Z.eqb_spec mode CONNECTION_MODE_SECURE) as [Es|Es].
  - unfold mbind, HM_bind, secure_codec. destruct (SecureCodec_new secret false) as [sc|[e|]] eqn:E; [|by apply HQ..].
    apply H. left. split; [done|]. by exists sc.
  - cbn [orb] in Hm. apply andb_true_iff in Hm as [Ha Hm]. rewrite Hm. apply H. right. by apply Z.eqb_eq in Hm.
Qed.

Lemma cephx_inv {A} (r : result CephxError A) a : cephx r = Ok a -> r = Ok a.
Proof. destruct r; cbn; [by intros [= ->]|done]. Qed.

Lemma signed_stored max_payload limits said heard key codec t codec' o :
  (forall w, o <> YO_Wrote w true) -> arrived [o] = [] ->
  signed max_payload limits said heard key codec t codec' -> signed max_payload limits said heard key codec (t ++ [o]) codec'.
Proof.
  intros Hw Ha H. unfold signed in *. rewrite arrived_snoc, written_snoc, Ha.
  replace (written_wires [o]) with (@nil (list byte)); [by rewrite !app_nil_r|].
  destruct o as [| | | | |w []| | | |]; try done. by destruct (Hw w).
Qed.

Lemma monitor_handshake_trace c :
  always see_conn (monitor_handshake c Handshake_new) [] (monitor_post c).
Proof.
  pose proof (monitor_lenient c) as HQ. unfold monitor_handshake.
  apply step_call. intros []. apply step_call. intros now. apply step_call. intros [[gid0 ticket0] key0].
  cbn [see_conn app]. apply meet; [done..|]. intros t1 s1 hello P1 Hhello D1.
  eapply conclude; [done|done|]. intros initial Hinitial. eapply say; [done|done|]. intros t2 s2 P2 D2.
  eapply hear; [done|done|]. intros answer t3 s3 P3 D3.
  destruct answer as [| | | | | | | | | | | | | |v|challenge| | | |]; try by eapply abandon.
  apply hm_match. eapply conclude; [done|done|]. intros server_challenge Hserver.
  eapply ask; [done|done|]. intros client D4. eapply conclude; [done|done|]. intros client_challenge ->.
  eapply conclude; [done|done|]. intros response Hresponse. eapply say; [done|done|]. intros t5 s5 P5 D5.
  eapply hear; [done|done|]. intros answer t6 s6 P6 D6.
  destruct answer as [| | | | | | | | | | | | | | | | |done| |]; try by eapply abandon.
  apply hm_match. destruct (valid_global_id (ad_global_id done)) eqn:V; [|by eapply abandon]. cbn [negb].
  destruct (mode_allowed (cn_allow_crc c) (ad_connection_mode done)) eqn:M; [|by eapply abandon]. cbn [negb].
  eapply conclude; [done|done|]. intros reply Hreply. eapply choose_codec; [done|apply D6|done|]. intros codec Hcodec.
  eapply sign; [done|done|]. intros t7 s7 P7 S7 Hsigned.
  assert (t3 ++ [YO_Challenge (Ok client_challenge)] `prefix_of` t7) as P by (etrans; [exact P5|]; by etrans).
  assert ([YO_Gate; YO_Now now; YO_Renewed (gid0, ticket0, key0)] `prefix_of` t3) as P0 by (etrans; [exact P1|]; by etrans).
  cbn. intros [].
  apply cephx_inv in Hinitial, Hserver, Hresponse, Hreply. destruct P as [u ->], P0 as [v ->].
  exists now, gid0, ticket0, key0, hello, initial, challenge, server_challenge, client_challenge, response, done, reply, codec.
  split; [set_solver|]. split; [set_solver|]. split; [done|]. split; [done|]. split; [done|]. split; [set_solver|]. split; [done|].
  split; [by apply signed_stored|]. split; [done|]. split; [done|]. split; [done|]. split; [|done].
  by rewrite stored_snoc, S7.
Qed.

(** C6. A handshake with a monitor that succeeds: the peer is a monitor, the
    mode is secure, or CRC where that is allowed, with the codec the mode calls
    for; the reply is the one the monitor's own key decrypts, with a valid
    global id; the client has signed every byte it received and the monitor
    every byte the client sent, with the session key of the reply; the tickets
    of the reply are stored, and are stored only then. *)
Theorem monitor_handshake_sound c :
  always see_conn (monitor_handshake c Handshake_new) [] (monitor_post c).
Proof. apply monitor_handshake_trace. Qed.

(** ** Services *)

(** What was said and heard after the greeting: the authorizer was accepted at
    once, or after a challenge. *)
Definition presented (c : ServiceConfig) (t : list ConnObs) (ticket : ServiceTicket) (first final : Authorizer)
    (hello : Hello) (done : AuthDone) (said heard : list Control) : Prop :=
  let greeting := C_Hello (mkHello ENTITY_CLIENT (sc_target_address c)) in
  let request := C_AuthRequest (mkAuthRequest AUTH_METHOD_CEPHX (preferred_modes (sc_allow_crc c)) (az_payload first)) in
  final = first /\ said = [greeting; request] /\ heard = [C_Hello hello; C_AuthDone done]
  \/ exists challenge confounder, YO_Random (Some confounder) ∈ t
       /\ add_authorizer_challenge first challenge (st_session_key ticket) (Some confounder)
            (cn_cephx_limits (sc_authority c)) = Ok final
       /\ said = [greeting; request; C_AuthRequestMore (az_payload final)]
       /\ heard = [C_Hello hello; C_AuthReplyMore challenge; C_AuthDone done].

(** What the connection to an OSD or a manager rests on. *)
Definition authorized (c : ServiceConfig) (t : list ConnObs) (setup : ConnectionSetup) : Prop :=
  exists now then_ global_id ticket random first final hello done said heard secret codec,
    YO_Now now ∈ t /\ YO_Now then_ ∈ t /\ YO_Ticket (Ok (global_id, ticket)) ∈ t /\ YO_Random (Some random) ∈ t
    /\ build_authorizer (sc_service_type c) global_id ticket now (le_value (take 8 random)) (Some (drop 8 random))
         (cn_cephx_limits (sc_authority c)) = Ok first
    /\ entity_type hello = sc_service_type c /\ presented c t ticket first final hello done said heard
    /\ signed (sc_max_banner_payload c) (sc_message_limits c) said heard (st_session_key ticket) codec t (cs_codec setup)
    /\ ad_global_id done = global_id /\ valid_global_id global_id = true
    /\ verify_authorizer_reply (ad_auth_payload done) (st_session_key ticket) (az_nonce final)
         (cn_cephx_limits (sc_authority c)) = Ok secret
    /\ mode_codec (sc_allow_crc c) (ad_connection_mode done) secret codec
    /\ (ad_connection_mode done = CONNECTION_MODE_SECURE <-> zlen secret = CONNECTION_SECRET_SIZE_SECURE)
    /\ setup = mkConnectionSetup (cs_codec setup) true (Some global_id)
                 (Some (credential_identity (metadata global_id (ad_connection_mode done) [(sc_service_type c, ticket)])))
                 (Some (saturating_sub (service_renewal_time ticket) then_)).

Definition service_post (c : ServiceConfig) (t : list ConnObs)
    (r : result Halted (result ConnectorError (ConnectionSetup * Handshake))) : Prop :=
  match r with
  | Ok (Ok (setup, _)) => authorized c t setup /\ stored t = []
  | Ok (Err _) => stored t = []
  | Err _ => True
  end.

Lemma service_lenient c : lenient (service_post c).
Proof. by split. Qed.

(** Chooses the codec of the connection, for the secret of the reply. *)
Lemma choose_service_codec {B} (Q : list ConnObs -> result Halted (result ConnectorError (B * Handshake)) -> Prop)
    (HQ : lenient Q) allow_crc mode secret (k : FrameCodec -> HM B) s t :
  stored t = [] -> mode_allowed allow_crc mode = true ->
  (forall codec, mode_codec allow_crc mode secret codec ->
     (mode = CONNECTION_MODE_SECURE <-> zlen secret = CONNECTION_SECRET_SIZE_SECURE) -> always see_conn (k codec s) t Q) ->
  always see_conn
    (((if mode =? CONNECTION_MODE_SECURE then
         if zlen secret =? CONNECTION_SECRET_SIZE_SECURE then secure_codec secret else h_fail (CE_Cephx CX_MalformedPayload)
       else if mode =? CONNECTION_MODE_CRC then
         if bool_decide (secret = []) then mret crc_frames else h_fail (CE_Cephx CX_InvalidMode)
       else h_fail CE_Downgrade) ≫= k) s) t Q.
Proof.
  intros Ht Hm H. unfold mode_allowed in Hm. destruct (Z.eqb_spec mode CONNECTION_MODE_SECURE) as [Es|Es].
  - destruct (Z.eqb_spec (zlen secret) CONNECTION_SECRET_SIZE_SECURE); [|by apply HQ].
    unfold mbind, HM_bind, secure_codec. destruct (SecureCodec_new secret false) as [sc|[e'|]] eqn:E; [|by apply HQ..].
    apply H; [|done]. left. split; [done|]. by exists sc.
  - cbn [orb] in Hm. apply andb_true_iff in Hm as [Ha Hm]. rewrite Hm. case_bool_decide as Hs; [|by apply HQ].
    apply H; [|by rewrite Hs]. right. by apply Z.eqb_eq in Hm.
Qed.

Section Service.
  Context (c : ServiceConfig).

(** The end of the handshake, when the peer has accepted the authorizer. *)
Definition service_finish (global_id : Z) (ticket : ServiceTicket) (response : Control) (authorizer : Authorizer)
    : HM ConnectionSetup :=
  let limits := sc_message_limits c in
  done ← match response with
         | C_AuthDone done => mret done
         | C_AuthBadMethod v => h_fail (classify_bad_method (cn_allow_crc (sc_authority c)) v)
         | _ => h_fail CE_UnexpectedFlow
         end;
  if negb (valid_global_id (ad_global_id done)) || negb (ad_global_id done =? global_id) then h_fail CE_InvalidGlobalId
  else if negb (mode_allowed (sc_allow_crc c) (ad_connection_mode done)) then h_fail CE_Downgrade
  else
    secret ← h_lift (cephx (verify_authorizer_reply (ad_auth_payload done) (st_session_key ticket) (az_nonce authorizer)
                              (cn_cephx_limits (sc_authority c))));
    codec ← (if ad_connection_mode done =? CONNECTION_MODE_SECURE then
               if zlen secret =? CONNECTION_SECRET_SIZE_SECURE then secure_codec secret
               else h_fail (CE_Cephx CX_MalformedPayload)
             else if ad_connection_mode done =? CONNECTION_MODE_CRC then
               if bool_decide (secret = []) then mret crc_frames else h_fail (CE_Cephx CX_InvalidMode)
             else h_fail CE_Downgrade);
    _ ← exchange_signatures (st_session_key ticket) codec limits;
    now ← h_call Y_Now;
    s ← h_get;
    mret (mkConnectionSetup (hs_codec s) true (Some global_id)
            (Some (credential_identity (metadata global_id (ad_connection_mode done) [(sc_service_type c, ticket)])))
            (Some (saturating_sub (service_renewal_time ticket) now))).

Lemma service_finish_sound global_id ticket first final hello now random response said heard s t :
  YO_Now now ∈ t -> YO_Ticket (Ok (global_id, ticket)) ∈ t -> YO_Random (Some random) ∈ t ->
  build_authorizer (sc_service_type c) global_id ticket now (le_value (take 8 random)) (Some (drop 8 random))
    (cn_cephx_limits (sc_authority c)) = Ok first ->
  entity_type hello = sc_service_type c -> dialogue (sc_max_banner_payload c) (sc_message_limits c) t s said heard ->
  (forall done, response = C_AuthDone done -> presented c t ticket first final hello done said heard) ->
  always see_conn (service_finish global_id ticket response final s) t (service_post c).
Proof.
  intros T1 T2 T3 Hf Hh D Hp. pose proof (service_lenient c) as HQ. unfold service_finish.
  destruct response as [| | | | | | | | | | | | | | | | |done| |]; try by eapply abandon.
  apply hm_match. specialize (Hp done eq_refl). destruct (valid_global_id (ad_global_id done)) eqn:V; [|by eapply abandon]. cbn [negb orb].
  destruct (Z.eqb_spec (ad_global_id done) global_id) as [Eg|]; [|by eapply abandon]. cbn [negb].
  destruct (mode_allowed (sc_allow_crc c) (ad_connection_mode done)) eqn:M; [|by eapply abandon]. cbn [negb].
  eapply conclude; [done|done|]. intros secret Hs%cephx_inv. eapply choose_service_codec; [done|apply D|done|]. intros codec Hc Hz.
  eapply sign; [done|done|]. intros t' s' [u ->] S' Hsigned. apply step_call. intros later. cbn.
  split; [|by rewrite stored_snoc, S'].
  exists now, later, global_id, ticket, random, first, final, hello, done, said, heard, secret, codec.
  split; [set_solver|]. split; [set_solver|]. split; [set_solver|]. split; [set_solver|]. split; [done|]. split; [done|].
  split. { destruct Hp as [Hp|(ch & cf & H1 & Hp)]; [by left|]. right. exists ch, cf. split; [set_solver|done]. }
  split; [by apply signed_stored|]. split; [done|]. split; [by rewrite <- Eg|]. by split_and!.
Qed.

Lemma service_handshake_trace :
  always see_conn (service_handshake c Handshake_new) [] (service_post c).
Proof.
  pose proof (service_lenient c) as HQ. unfold service_handshake, service_authorization. apply step_call. intros [].
  apply hm_assoc, step_call. intros now. apply hm_assoc, step_call. intros taken.
  apply hm_assoc, step_lift; [done|done|]. intros [global_id ticket] ->.
  apply hm_assoc, step_call. intros random. apply hm_assoc, step_lift; [done|done|]. intros bytes Hr%ok_or_inv. subst random.
  apply hm_assoc, step_lift; [done|done|]. intros first Hfirst%cephx_inv. apply hm_match. cbn [see_conn app].
  apply meet; [done..|]. intros t1 s1 hello P1 Hhello D1.
  eapply say; [done|done|]. intros t2 s2 P2 D2. eapply hear; [done|done|]. intros answer t3 s3 P3 D3.
  assert (exists u, t3 = [YO_Gate; YO_Now now; YO_Ticket (Ok (global_id, ticket)); YO_Random (Some bytes)] ++ u) as [u Hu].
  { destruct P1 as [u1 ->], P2 as [u2 ->], P3 as [u3 ->]. eexists. by rewrite <- !app_assoc. }
  assert (always see_conn (service_finish global_id ticket answer first s3) t3 (service_post c)) as Hdirect.
  { eapply (service_finish_sound global_id ticket first first hello now bytes);
      [rewrite Hu; set_solver..|exact Hfirst|exact Hhello|exact D3|].
    intros done ->. left. done. }
  destruct answer as [| | | | | | | | | | | | | | |challenge| | | |]; try exact Hdirect.
  apply hm_assoc, step_call. intros random. apply hm_assoc. eapply step_lift; [done|by rewrite stored_snoc, (dg_stored _ _ _ _ _ _ D3)|].
  intros confounder Hc%ok_or_inv. subst random. cbn [see_conn].
  pose proof (dialogue_aside _ _ _ _ _ _ (YO_Random (Some confounder)) eq_refl D3) as D4.
  apply hm_assoc. eapply conclude; [done|done|]. intros final Hfinal%cephx_inv.
  apply hm_assoc. eapply say; [done|done|]. intros t5 s5 [u5 ->] D5.
  apply hm_assoc. eapply hear; [done|done|]. intros response t6 s6 [u6 ->] D6. apply hm_match.
  eapply (service_finish_sound global_id ticket first final hello now bytes);
    [rewrite Hu; set_solver..|exact Hfirst|exact Hhello|exact D6|].
  intros done ->. right. exists challenge, confounder. split; [set_solver|done].
Qed.

(** C7. A handshake with an OSD or a manager that succeeds: the peer is of that
    kind, it has shown that it could read the authorizer made from a ticket for
    the service by answering its nonce, under the client's own global id; the
    mode is secure, with a secret of its size, or CRC where that is allowed;
    and both have signed every byte the other sent with the session key of the
    ticket.  The handshake stores nothing. *)
Theorem service_handshake_sound :
  always see_conn (service_handshake c Handshake_new) [] (service_post c).
Proof. apply service_handshake_trace. Qed.
End Service.
End Handshakes.

(** ** Tickets at hand *)

(** The authority keeps its tickets under their services. *)
Definition authority_ok (a : Authority) : Prop :=
  btree_sorted (au_tickets a) /\ Forall (fun e => st_service_id e.2 = e.1) (au_tickets a).

Lemma btree_remove_elem {V} k (l : list (Z * V)) e : e ∈ btree_remove Z.compare k l -> e ∈ l.
Proof.
  induction l as [|[k' v] l IH]; cbn; [done|]. destruct (Z.compare k k'); intros H; [by right|done|].
  apply elem_of_cons in H as [->|H]; [by left|]. right. by apply IH.
Qed.

Lemma btree_remove_sorted {V} k (l : list (Z * V)) : btree_sorted l -> btree_sorted (btree_remove Z.compare k l).
Proof.
  unfold btree_sorted. induction l as [|[k' v] l IH]; cbn; [done|]. intros H. apply StronglySorted_inv in H as [Hs Hf].
  destruct (Z.compare k k'); [done|by constructor|]. cbn. constructor; [by apply IH|].
  apply Forall_forall. intros x Hx. apply list_elem_of_fmap in Hx as (e & -> & He). apply btree_remove_elem in He.
  rewrite Forall_forall in Hf. apply Hf. apply list_elem_of_fmap. by exists e.
Qed.

(** A ticket that is handed out is one for the service, and has not expired;
    expired ones are dropped, and with the one of the authentication service
    the whole authority. *)
Lemma take_ticket_spec service_id now a :
  authority_ok a ->
  authority_ok (take_ticket service_id now a).1
  /\ forall global_id t, (take_ticket service_id now a).2 = Ok (global_id, t) ->
       global_id = au_global_id a /\ st_service_id t = service_id /\ now < st_expires_at t /\ st_expires_at t <> 0.
Proof.
  intros [Hs Hf]. unfold take_ticket. destruct (btree_get Z.compare service_id (au_tickets a)) as [t|] eqn:E; [|by split].
  destruct (expired now t) eqn:X; cbn [fst snd].
  - split; [|done]. destruct (service_id =? SERVICE_AUTH); [split; constructor|]. split; [by apply btree_remove_sorted|]. cbn.
    rewrite Forall_forall in *. intros e He. apply Hf. by eapply btree_remove_elem.
  - split; [done|]. intros g u H. simplify_eq. unfold expired in X. bool_prop. apply btree_get_elem in E.
    rewrite Forall_forall in Hf. by split_and!; [|exact (Hf _ E)|..].
Qed.

Lemma renewal_snapshot_ok now a : authority_ok a -> authority_ok (renewal_snapshot now a).1.
Proof.
  intros H. unfold renewal_snapshot. destruct (btree_get _ _ _); [|done]. destruct (expired now s); [|done]. split; constructor.
Qed.

(** ** A monitor that is accepted *)

#[local] Existing Instance reference_crates.
#[local] Instance example_crc : Crc32cCrate := reference_crc.
#[local] Instance example_aes : AesGcmCrate := reference_aes.
#[local] Instance example_sha : Sha256Crate := {| sha256 := fun l => take 32 (l ++ replicate 32 x00) |}.

Definition example_connector : ConnectorConfig :=
  mkConnectorConfig (mkCredential (list_byte_of_string "client.admin") 0 0 sample_principal)
    (entity_addr_from_endpoint AT_V2 0 (SA_V4 [x0a; x00; x00; x01] 3300)) (mkLimits 4096 8192 8 4096) CryptoLimits_default
    1 64 0 false 0 no_ticket.

Definition example_wire (codec : FrameCodec) (control : Control) : list byte :=
  match Control_encode control (cn_message_limits example_connector) with
  | Ok f => match (FrameCodec_encode codec f (cn_message_limits example_connector)).1 with Ok w => w | Err _ => [] end
  | Err _ => []
  end.

(** The monitor's end of the connection. *)
Definition monitor_codec : FrameCodec :=
  match SecureCodec_new (replicate 64 x5a) true with Ok c => SecureFrames c | Err _ => crc_frames end.

Definition example_monitor (X : Type) (e : ConnE X) (t : list ConnObs) : X :=
  match e in ConnE X return X with
  | Y_Gate => tt
  | Y_Now => 1000
  | Y_Renewal _ => (0, no_ticket, None)
  | Y_Ticket _ _ => Err CE_Io
  | Y_Store _ _ _ => tt
  | Y_Write _ => true
  | Y_Arrive =>
      match length (written_wires t) with
      | 1%nat => Banner_encode Banner_client
      | 2%nat => example_wire crc_frames (C_Hello (mkHello ENTITY_MONITOR (cn_target_address example_connector)))
      | 3%nat => example_wire crc_frames (C_AuthReplyMore ([x01] ++ le_bytes 8 5))
      | 4%nat => example_wire crc_frames (C_AuthDone (mkAuthDone 42 CONNECTION_MODE_SECURE sample_payload))
      | _ => example_wire monitor_codec
               (C_AuthSignature (transcript_signature sample_key (concat (take 4 (written_wires t)))))
      end
  | Y_Challenge => Ok 6
  | Y_Random _ => None
  end.

(** A monitor that follows the protocol is connected to, in secure mode. *)
Lemma monitor_accepted :
  exists setup s, (run see_conn example_monitor (monitor_handshake example_connector Handshake_new) []).2 = Ok (Ok (setup, s))
    /\ cs_authenticated_global_id setup = Some 42.
Proof.
  eexists _, _. split; [vm_compute; reflexivity|]. reflexivity.
Qed.
