(* ===== verification/CephxKeys.v ===== *)
(** * Keys and keyrings

    Models [src/src/cephx/mod.rs]: the canonical text of a key, and the subset
    of keyring files the client reads. *)

From S2P Require Import Prelude Codec MapBase Text CrushLn CephxCrypto CephxCore CephxProps.
From Stdlib Require Import ZArith Lia Strings.Byte Strings.String.
From stdpp Require Import base option gmap sorting numbers list.

Open Scope Z_scope.

Definition DEFAULT_MAX_KEY_BYTES : Z := 256.
Definition DEFAULT_MAX_KEYRING_BYTES : Z := Z.shiftl 1 20.

Definition valid_client_entity (entity : list byte) : bool :=
  match strip_prefix_bytes (str "client.") entity with
  | Some name =>
      negb (bool_decide (name = []))
      && negb (existsb (fun b => bool_decide (b ∈ [x5b; x5d; x0d; x0a; x00])) name)
  | None => false
  end.

(** The loop of [strip_comment]: the bytes before the comment, [None] when
    there is none. *)
Fixpoint comment_start (quote : option byte) (line : list byte) : option (list byte) :=
  match line with
  | [] => None
  | b :: line =>
      let next quote := cons b <$> comment_start quote line in
      if bool_decide (b ∈ [x27; x22]) && bool_decide (quote = None) then next (Some b)
      else if bool_decide (b ∈ [x27; x22]) && bool_decide (quote = Some b) then next None
      else if bool_decide (b ∈ [x23; x3b]) && bool_decide (quote = None) then Some []
      else next quote
  end.

Definition strip_comment (line : list byte) : list byte :=
  match comment_start None line with Some before => trim before | None => line end.

Section Keys.
  Context {base64 : Base64Engine}.

(** The twelve bytes before the secret. *)
Definition read_key (entity data : list byte) (maximum : Z) : result CephxError Credential :=
  if (maximum <? zlen data) || (zlen data <? 12) then Err CX_InvalidCredential
  else
    let type_id := le_value (take 2 data) in
    let created_seconds := le_value (take 4 (drop 2 data)) in
    let created_nanoseconds := le_value (take 4 (drop 6 data)) in
    let secret_length := le_value (take 2 (drop 10 data)) in
    if negb (valid_key_parameters type_id secret_length)
       || (1000000000 <=? created_nanoseconds)
       || negb (zlen data =? 12 + secret_length)
    then Err CX_InvalidCredential
    else Ok (mkCredential entity created_seconds created_nanoseconds (mkCryptoKey type_id (drop 12 data))).

Definition parse_key (entity encoded : list byte) (max_bytes : Z) : result CephxError Credential :=
  if negb (valid_client_entity entity) then Err CX_InvalidCredential
  else
    let maximum := if max_bytes =? 0 then DEFAULT_MAX_KEY_BYTES else max_bytes in
    let encoded := trim encoded in
    if bool_decide (encoded = []) || (Z.min u64_max (maximum * 2) <? zlen encoded) then Err CX_InvalidCredential
    else
      data ← ok_or (STANDARD_decode encoded) CX_InvalidCredential;
      read_key entity data maximum.

(** ** Keyrings *)

Record KeyringScan : Type := mkKeyringScan {
  ks_section : list byte;
  ks_key : option (list byte);
  ks_found : bool
}.

Definition unquoted (value : list byte) : list byte :=
  if (2 <=? length value)%nat
     && ((starts_with [x22] value && ends_with [x22] value) || (starts_with [x27] value && ends_with [x27] value))
  then take (length value - 2) (drop 1 value)
  else value.

(** [line[1..line.len() - 1].trim()] of a line in brackets. *)
Definition section_name (line : list byte) : list byte := trim (take (length line - 2) (drop 1 line)).

Definition malformed_section (line : list byte) : bool :=
  negb (ends_with [x5d] line) || negb (count_byte x5b line =? 1)%nat || negb (count_byte x5d line =? 1)%nat.

Definition keyring_line (maximum : Z) (entity raw_line : list byte) (s : KeyringScan)
    : result CephxError KeyringScan :=
  if maximum <? zlen raw_line then Err CX_InvalidKeyring
  else
    let line := strip_comment (trim raw_line) in
    if bool_decide (line = []) then Ok s
    else if starts_with [x5b] line then
      if malformed_section line then Err CX_InvalidKeyring
      else
        let section := section_name line in
        if bool_decide (section = entity) then
          if ks_found s then Err CX_InvalidKeyring else Ok (mkKeyringScan section (ks_key s) true)
        else Ok (mkKeyringScan section (ks_key s) (ks_found s))
    else
      '(name, value) ← ok_or (split_once x3d line) CX_InvalidKeyring;
      if bool_decide (trim name = []) || bool_decide (ks_section s = []) then Err CX_InvalidKeyring
      else if negb (bool_decide (ks_section s = entity)) then Ok s
      else
        let property := trim name in
        if bool_decide (property = str "auid") || starts_with (str "caps ") property
           || starts_with (str "caps_") property
        then Ok s
        else if negb (bool_decide (property = str "key")) || bool_decide (is_Some (ks_key s))
        then Err CX_InvalidKeyring
        else Ok (mkKeyringScan (ks_section s) (Some (unquoted (trim value))) (ks_found s)).

Fixpoint keyring_lines (maximum : Z) (entity : list byte) (l : list (list byte)) (s : KeyringScan)
    : result CephxError KeyringScan :=
  match l with
  | [] => Ok s
  | line :: l => s ← keyring_line maximum entity line s; keyring_lines maximum entity l s
  end.

Definition parse_keyring (data entity : list byte) (max_bytes : Z) : result CephxError Credential :=
  if negb (valid_client_entity entity) then Err CX_InvalidKeyring
  else
    let maximum := if max_bytes =? 0 then DEFAULT_MAX_KEYRING_BYTES else max_bytes in
    if maximum <? zlen data then Err CX_InvalidKeyring
    else
      text ← ok_or (from_utf8 data) CX_InvalidKeyring;
      s ← keyring_lines maximum entity (lines text) (mkKeyringScan [] None false);
      if negb (ks_found s) then Err CX_CredentialNotFound
      else
        key ← ok_or (ks_key s) CX_CredentialNotFound;
        map_err (fun _ => CX_InvalidKeyring) (parse_key entity key DEFAULT_MAX_KEY_BYTES).

End Keys.

(** ** The text of a key *)

Definition key_image (c : Credential) : list byte :=
  le_bytes 2 (ck_type_id (cr_secret c)) ++ le_bytes 4 (cr_created_seconds c)
  ++ le_bytes 4 (cr_created_nanoseconds c) ++ le_bytes 2 (zlen (ck_secret (cr_secret c))) ++ ck_secret (cr_secret c).

Definition key_text (c : Credential) : list byte := base64_encode (key_image c).

Definition credential_ok (c : Credential) : Prop :=
  valid_client_entity (cr_entity c) = true /\ in_u 32 (cr_created_seconds c)
  /\ 0 <= cr_created_nanoseconds c < 1000000000 /\ key_ok (cr_secret c).

(** Characters that mean nothing to the scanners. *)
Definition quiet (b : byte) : bool := negb (bool_decide (b ∈ [x27; x22; x23; x3b])).

Definition plain (b : byte) : bool := visible b && quiet b && negb (bool_decide (b ∈ [x5b; x5d])).

Lemma sextet_plain n : plain (sextet n) = true.
Proof.
  assert (forallb plain base64_alphabet = true) as H by done. rewrite forallb_forall in H. apply H.
  unfold sextet. apply nth_In. pose proof (Z.mod_pos_bound n 64 ltac:(lia)).
  change (List.length base64_alphabet) with 64%nat. lia.
Qed.

Lemma base64_plain l : Forall (fun b => plain b = true) (base64_encode l).
Proof.
  enough (forall n l, (length l <= n)%nat -> Forall (fun b => plain b = true) (base64_encode l)) as H by by apply (H (length l)).
  clear l. induction n as [|n IH]; intros l Hl; [by destruct l; [constructor|cbn in Hl; lia]|].
  destruct l as [|a [|b [|c rest]]]; cbn [base64_encode]; repeat (constructor; [first [apply sextet_plain|done]|]);
    [constructor..|]. apply IH. cbn in Hl. lia.
Qed.

Lemma base64_length l : (3 * length (base64_encode l) <= 4 * length l + 8)%nat.
Proof.
  enough (forall n l, (length l <= n)%nat -> (3 * length (base64_encode l) <= 4 * length l + 8)%nat) as H by by apply (H (length l)).
  clear l. induction n as [|n IH]; intros l Hl; [destruct l; cbn in *; lia|].
  destruct l as [|a [|b [|c rest]]]; cbn [base64_encode length]; [lia..|].
  cbn [length] in Hl. specialize (IH rest ltac:(lia)). lia.
Qed.

Lemma plain_visible l : Forall (fun b => plain b = true) l -> Forall (fun b => visible b = true) l.
Proof. intros Hl. eapply Forall_impl; [exact Hl|]. intros b H. unfold plain in H. by destruct (visible b). Qed.

Lemma plain_quiet l : Forall (fun b => plain b = true) l -> Forall (fun b => quiet b = true) l.
Proof. intros Hl. eapply Forall_impl; [exact Hl|]. intros b H. unfold plain in H. by destruct (visible b), (quiet b). Qed.

Lemma read_key_image c maximum :
  credential_ok c -> 44 <= maximum -> read_key (cr_entity c) (key_image c) maximum = Ok c.
Proof.
  intros (_ & Hs & Hn & Hk) Hm. unfold read_key.
  assert (in_u 16 (ck_type_id (cr_secret c)) /\ in_u 16 (zlen (ck_secret (cr_secret c)))
    /\ valid_key_parameters (ck_type_id (cr_secret c)) (zlen (ck_secret (cr_secret c))) = true
    /\ zlen (ck_secret (cr_secret c)) <= 32) as (K1 & K2 & K3 & K4) by by apply key_ok_parameters.
  assert (zlen (key_image c) = 12 + zlen (ck_secret (cr_secret c))) as Hz.
  { unfold key_image. rewrite !zlen_app, !zlen_le_bytes. lia. }
  rewrite Hz. pose proof (zlen_nonneg (ck_secret (cr_secret c))).
  rewrite (proj2 (Z.ltb_ge _ _)), (proj2 (Z.ltb_ge _ 12)) by lia. cbn [orb].
  assert (take 2 (key_image c) = le_bytes 2 (ck_type_id (cr_secret c))) as -> by by apply take_app_length'.
  assert (take 4 (drop 2 (key_image c)) = le_bytes 4 (cr_created_seconds c)) as ->.
  { unfold key_image. rewrite drop_app_length' by done. by apply take_app_length'. }
  assert (take 4 (drop 6 (key_image c)) = le_bytes 4 (cr_created_nanoseconds c)) as ->.
  { unfold key_image. rewrite (app_assoc (le_bytes 2 _)), drop_app_length' by done. by apply take_app_length'. }
  assert (take 2 (drop 10 (key_image c)) = le_bytes 2 (zlen (ck_secret (cr_secret c)))) as ->.
  { unfold key_image. rewrite (app_assoc (le_bytes 4 _)), (app_assoc (le_bytes 2 _)), drop_app_length' by done. by apply take_app_length'. }
  assert (drop 12 (key_image c) = ck_secret (cr_secret c)) as ->.
  { unfold key_image. rewrite !app_assoc. by apply drop_app_length'. }
  rewrite !le_value_bytes, !Z.mod_small by (done || lia). rewrite K3, Z.eqb_refl, (proj2 (Z.leb_gt _ _)) by lia.
  destruct c as [e s n [t k]]. done.
Qed.

Lemma comment_start_quiet a b q :
  Forall (fun b => quiet b = true) a -> comment_start q (a ++ b) = app a <$> comment_start q b.
Proof.
  intros H. induction H as [|x a Hx _ IH]; [cbn [app]; by destruct (comment_start q b)|]. cbn [app comment_start].
  unfold quiet in Hx. apply negb_true_iff, bool_decide_eq_false in Hx.
  rewrite !(bool_decide_false (x ∈ _)) by set_solver. cbn [andb]. rewrite IH. by destruct (comment_start q b).
Qed.

Lemma comment_start_quoted v : x22 ∉ v -> comment_start (Some x22) (v ++ [x22]) = None.
Proof.
  induction v as [|b v IH]; intros H; [done|]. cbn [app comment_start]. rewrite IH by set_solver.
  rewrite !(bool_decide_false (Some x22 = None)) by done. rewrite !andb_false_r.
  rewrite (bool_decide_false (Some x22 = Some b)) by (intros [= <-]; set_solver). by rewrite !andb_false_r.
Qed.

Lemma strip_comment_quiet l : Forall (fun b => quiet b = true) l -> strip_comment l = l.
Proof.
  intros H. unfold strip_comment. rewrite <- (app_nil_r l) at 1. by rewrite comment_start_quiet by done.
Qed.

(** ** The text of a keyring *)

Record KeyringSection : Type := mkKeyringSection {
  kg_credential : Credential;
  kg_caps : list (list byte * list byte)
}.

Definition kg_entity (s : KeyringSection) : list byte := cr_entity (kg_credential s).

Definition header_line (s : KeyringSection) : list byte := [x5b] ++ kg_entity s ++ [x5d].
Definition key_line (s : KeyringSection) : list byte := [x09] ++ str "key = " ++ key_text (kg_credential s).
Definition caps_line (c : list byte * list byte) : list byte :=
  [x09] ++ (str "caps " ++ c.1 ++ str " = ") ++ [x22] ++ c.2 ++ [x22].

Definition section_lines (s : KeyringSection) : list (list byte) :=
  header_line s :: key_line s :: (caps_line <$> kg_caps s).

Definition keyring_text (ss : list KeyringSection) : list byte :=
  concat ((fun line => line ++ [x0a]) <$> concat (section_lines <$> ss)).

Definition section_ok (s : KeyringSection) : Prop :=
  credential_ok (kg_credential s) /\ Forall (fun b => plain b = true) (kg_entity s)
  /\ Forall (fun c => c.1 <> [] /\ Forall (fun b => plain b = true /\ b <> x3d) c.1
                     /\ Forall (fun b => printable b = true /\ b <> x22) c.2) (kg_caps s).

Lemma plain_absent b l : plain b = false -> Forall (fun b => plain b = true) l -> b ∉ l.
Proof. intros Hb Hl Hin. rewrite Forall_forall in Hl. by rewrite (Hl _ Hin) in Hb. Qed.

Lemma ascii_of {P : byte -> Prop} l : (forall b, P b -> is_ascii b = true) -> Forall P l -> Forall (fun b => is_ascii b = true) l.
Proof. intros H Hl. by eapply Forall_impl. Qed.

Lemma plain_ascii b : plain b = true -> is_ascii b = true.
Proof. unfold plain. destruct (visible b) eqn:E; [|done]. intros _. by apply visible_ascii. Qed.

Lemma header_scan maximum entity s st :
  section_ok s -> zlen (header_line s) <= maximum ->
  keyring_line maximum entity (header_line s) st
  = if bool_decide (kg_entity s = entity) then
      if ks_found st then Err CX_InvalidKeyring else Ok (mkKeyringScan (kg_entity s) (ks_key st) true)
    else Ok (mkKeyringScan (kg_entity s) (ks_key st) (ks_found st)).
Proof.
  intros (_ & Hp & _) Hz. unfold keyring_line. rewrite (proj2 (Z.ltb_ge _ _)) by done.
  unfold header_line. rewrite trim_id.
  2:{ repeat apply Forall_app_2; [by apply Forall_singleton|by eapply ascii_of; [apply plain_ascii|]|by apply Forall_singleton]. }
  2:{ by intros x [= <-]. }
  2:{ intros x. rewrite app_assoc, last_snoc. by intros [= <-]. }
  rewrite strip_comment_quiet by (repeat apply Forall_app_2; try done; [by apply Forall_singleton|by apply plain_quiet|by apply Forall_singleton]).
  rewrite bool_decide_false by done. rewrite starts_with_app.
  assert (malformed_section ([x5b] ++ kg_entity s ++ [x5d]) = false) as ->.
  { unfold malformed_section. rewrite app_assoc, ends_with_app, !count_byte_app.
    by rewrite !(count_byte_absent _ (kg_entity s)) by (by apply plain_absent). }
  assert (section_name ([x5b] ++ kg_entity s ++ [x5d]) = kg_entity s) as ->.
  { unfold section_name. rewrite !length_app. cbn [length app]. rewrite drop_0 || change (drop 1 (x5b :: ?l)) with l.
    rewrite take_app_length' by lia. by apply visible_trim, plain_visible. }
  by case_bool_decide.
Qed.

Lemma key_text_ends c : key_text c <> [] /\ Forall (fun b => plain b = true) (key_text c).
Proof. split; [|apply base64_plain]. unfold key_text, key_image. by destruct (ck_secret _). Qed.

(** A line of the form "name = value" behind a tab. *)
Lemma property_line maximum entity name value st :
  let raw := [x09] ++ (name ++ str " = ") ++ value in
  zlen raw <= maximum -> Forall (fun b => is_ascii b = true) name -> Forall (fun b => is_ascii b = true) value ->
  (forall x, head name = Some x -> visible x = true /\ x <> x5b) -> name <> [] -> value <> [] ->
  (forall x, last value = Some x -> visible x = true) -> x3d ∉ name ->
  comment_start None ((name ++ str " = ") ++ value) = None -> ks_section st <> [] -> trim (name ++ [x20]) = name ->
  keyring_line maximum entity raw st =
    if negb (bool_decide (ks_section st = entity)) then Ok st
    else if bool_decide (name = str "auid") || starts_with (str "caps ") name || starts_with (str "caps_") name then Ok st
    else if negb (bool_decide (name = str "key")) || bool_decide (is_Some (ks_key st)) then Err CX_InvalidKeyring
    else Ok (mkKeyringScan (ks_section st) (Some (unquoted (trim (x20 :: value)))) (ks_found st)).
Proof.
  intros raw Hz Hn Hv Hh Hne Hve Hl Heq Hc Hs Ht. unfold keyring_line, raw. rewrite (proj2 (Z.ltb_ge _ _)) by done.
  assert (Forall (fun b => is_ascii b = true) ((name ++ str " = ") ++ value)) as Ha.
  { repeat apply Forall_app_2; try done. by repeat constructor. }
  cbn [app]. rewrite trim_lead by done. rewrite trim_id; [|done| |].
  2:{ intros x Hx. apply Hh. by destruct name. }
  2:{ intros x. rewrite last_app. destruct (last value) eqn:E; [intros [= <-]; by apply Hl|]. by apply last_None in E. }
  unfold strip_comment. rewrite Hc. rewrite bool_decide_false by (by destruct name).
  assert (starts_with [x5b] ((name ++ str " = ") ++ value) = false) as ->.
  { unfold starts_with. apply bool_decide_false. destruct name as [|x name]; [done|]. cbn. intros [= ->]. by destruct (Hh x5b eq_refl). }
  replace ((name ++ str " = ") ++ value) with ((name ++ [x20]) ++ x3d :: x20 :: value) by (by rewrite <- !app_assoc).
  rewrite split_once_app by (apply not_elem_of_app; split; [done|set_solver]).
  cbn [ok_or]. rewrite bind_Ok, Ht. by rewrite !(bool_decide_false (_ = [])) by done.
Qed.

Lemma key_scan maximum entity s st :
  zlen (key_line s) <= maximum -> ks_section st = kg_entity s -> kg_entity s <> [] ->
  (kg_entity s = entity -> ks_key st = None) ->
  keyring_line maximum entity (key_line s) st
  = Ok (if bool_decide (kg_entity s = entity)
        then mkKeyringScan (kg_entity s) (Some (key_text (kg_credential s))) (ks_found st) else st).
Proof.
  intros Hz Hs Hne Hk. destruct (key_text_ends (kg_credential s)) as [Kn Kp].
  change (key_line s) with ([x09] ++ (str "key" ++ str " = ") ++ key_text (kg_credential s)) in *.
  rewrite property_line; try done.
  - rewrite Hs. case_bool_decide as E; [|done]. rewrite (Hk E). cbn [negb orb]. rewrite !bool_decide_false by done.
    cbn [orb]. rewrite bool_decide_true, bool_decide_false by (done || by intros []). cbn [negb orb].
    rewrite trim_lead by (done || by eapply ascii_of; [apply plain_ascii|]). rewrite visible_trim by by apply plain_visible.
    unfold unquoted. assert (forall q, plain q = false -> starts_with [q] (key_text (kg_credential s)) = false) as Hq.
    { intros q Hq. unfold starts_with. apply bool_decide_false. destruct (key_text _) as [|x l]; [done|].
      cbn. intros [= ->]. inversion Kp; congruence. }
    by rewrite !Hq, andb_false_r by done.
  - by repeat constructor.
  - by eapply ascii_of; [apply plain_ascii|].
  - by intros x [= <-].
  - intros x Hx. apply plain_visible in Kp. rewrite Forall_forall in Kp. by apply Kp, last_Some_elem_of.
  - set_solver.
  - rewrite comment_start_quiet by (by repeat constructor). rewrite <- (app_nil_r (key_text _)).
    by rewrite comment_start_quiet by by apply plain_quiet.
  - by rewrite Hs.
Qed.

Lemma caps_scan maximum entity c st :
  zlen (caps_line c) <= maximum -> ks_section st <> [] -> c.1 <> [] ->
  Forall (fun b => plain b = true /\ b <> x3d) c.1 -> Forall (fun b => printable b = true /\ b <> x22) c.2 ->
  keyring_line maximum entity (caps_line c) st = Ok st.
Proof.
  intros Hz Hs Hn H1 H2. destruct c as [n v]. cbn [fst snd] in *.
  assert (Forall (fun b => plain b = true) n) as Pn by (eapply Forall_impl; [exact H1|]; by intros b []).
  assert (x3d ∉ n) as Hq by (intros Hin; rewrite Forall_forall in H1; by destruct (H1 _ Hin)).
  assert (x22 ∉ v) as Hv by (intros Hin; rewrite Forall_forall in H2; by destruct (H2 _ Hin)).
  assert (Forall (fun b => is_ascii b = true) (str "caps " ++ n)) as An.
  { apply Forall_app_2; [by repeat constructor|by eapply ascii_of; [apply plain_ascii|]]. }
  assert (Forall (fun b => quiet b = true) ((str "caps " ++ n) ++ str " = ")) as Qn.
  { repeat apply Forall_app_2; [by repeat constructor|by apply plain_quiet|by repeat constructor]. }
  assert (caps_line (n, v) = [x09] ++ ((str "caps " ++ n) ++ str " = ") ++ [x22] ++ v ++ [x22]) as E.
  { unfold caps_line. cbn [fst snd]. by rewrite <- !app_assoc. }
  rewrite E in *. rewrite property_line; try done.
  - rewrite starts_with_app, orb_true_r. cbn [orb]. by destruct (negb _).
  - repeat apply Forall_app_2; [by apply Forall_singleton| |by apply Forall_singleton].
    eapply Forall_impl; [exact H2|]. intros b [Hb _]. by apply printable_ascii.
  - by intros x [= <-].
  - intros x. rewrite app_assoc, last_snoc. by intros [= <-].
  - apply not_elem_of_app. split; [set_solver|done].
  - rewrite comment_start_quiet by done. cbn [app comment_start]. by rewrite comment_start_quoted.
  - apply trim_snoc; try done.
    + by intros x [= <-].
    + intros x. rewrite last_app. destruct (last n) eqn:El; [|by apply last_None in El].
      intros [= <-]. apply plain_visible in Pn. rewrite Forall_forall in Pn. by apply Pn, last_Some_elem_of.
Qed.

Lemma keyring_lines_app maximum entity a b : forall s,
  keyring_lines maximum entity (a ++ b) s = (s ← keyring_lines maximum entity a s; keyring_lines maximum entity b s).
Proof.
  induction a as [|l a IH]; intros s; [done|]. cbn [app keyring_lines].
  destruct (keyring_line maximum entity l s) as [s'|]; [|done]. rewrite !bind_Ok. apply IH.
Qed.

Lemma caps_scans maximum entity caps st :
  Forall (fun l => zlen l <= maximum) (caps_line <$> caps) -> ks_section st <> [] ->
  Forall (fun c => c.1 <> [] /\ Forall (fun b => plain b = true /\ b <> x3d) c.1
                 /\ Forall (fun b => printable b = true /\ b <> x22) c.2) caps ->
  keyring_lines maximum entity (caps_line <$> caps) st = Ok st.
Proof.
  intros Hz Hs Hc. induction Hc as [|c caps (H1 & H2 & H3) _ IH]; [done|]. cbn [fmap list_fmap keyring_lines] in *.
  apply Forall_cons in Hz as [Hz Hzs]. rewrite caps_scan by done. rewrite bind_Ok. by apply IH.
Qed.

Lemma valid_entity_nonempty e : valid_client_entity e = true -> e <> [].
Proof. by intros H ->. Qed.

(** Scanning a section of the entity, and one of another. *)
Lemma section_scan maximum entity s st :
  section_ok s -> Forall (fun l => zlen l <= maximum) (section_lines s) ->
  (kg_entity s = entity -> ks_found st = false /\ ks_key st = None) ->
  keyring_lines maximum entity (section_lines s) st
  = Ok (if bool_decide (kg_entity s = entity)
        then mkKeyringScan (kg_entity s) (Some (key_text (kg_credential s))) true
        else mkKeyringScan (kg_entity s) (ks_key st) (ks_found st)).
Proof.
  intros Hok Hz Hst. pose proof Hok as ((Hv & _) & _ & Hc). apply valid_entity_nonempty in Hv as Hne.
  unfold section_lines in *. apply Forall_cons in Hz as [Z1 Hz]. apply Forall_cons in Hz as [Z2 Z3].
  cbn [keyring_lines]. rewrite header_scan by done. case_bool_decide as E.
  - destruct (Hst E) as [-> Hk]. rewrite bind_Ok, key_scan by done. rewrite bind_Ok, bool_decide_true by done.
    by apply caps_scans.
  - rewrite bind_Ok, key_scan by done. rewrite bind_Ok, bool_decide_false by done. by apply caps_scans.
Qed.

(** The section of an entity. *)
Definition find_section (entity : list byte) (ss : list KeyringSection) : option KeyringSection :=
  snd <$> list_find (fun s => kg_entity s = entity) ss.

Lemma sections_scan maximum entity ss : forall st,
  Forall section_ok ss -> NoDup (kg_entity <$> ss) ->
  Forall (fun l => zlen l <= maximum) (concat (section_lines <$> ss)) ->
  (entity ∈ kg_entity <$> ss -> ks_found st = false /\ ks_key st = None) ->
  exists section, keyring_lines maximum entity (concat (section_lines <$> ss)) st
    = Ok (match find_section entity ss with
          | Some s => mkKeyringScan section (Some (key_text (kg_credential s))) true
          | None => mkKeyringScan section (ks_key st) (ks_found st)
          end).
Proof.
  induction ss as [|s ss IH]; intros st Hok Hd Hz Hst; [by exists (ks_section st); destruct st|].
  apply Forall_cons in Hok as [Hs Hok]. cbn [fmap list_fmap] in Hd. inversion Hd as [|? ? Hn Hd']; subst.
  cbn [fmap list_fmap concat] in *. apply Forall_app in Hz as [Z1 Z2].
  rewrite keyring_lines_app, section_scan by (done || intros E; apply Hst; rewrite E; by left).
  rewrite bind_Ok. unfold find_section in *. cbn [list_find fmap option_fmap option_map].
  case_bool_decide as E.
  - rewrite decide_True by done. destruct (IH (mkKeyringScan (kg_entity s) (Some (key_text (kg_credential s))) true)) as (sec & ->);
      [done..| |].
    + subst entity. intros Hin. by destruct Hn.
    + exists sec. destruct (list_find _ ss) as [[i x]|] eqn:F; [|done]. exfalso. apply Hn.
      apply list_find_Some in F as (F & Fe & _). rewrite E, <- Fe. apply list_elem_of_fmap_2. by eapply list_elem_of_lookup_2.
  - rewrite decide_False by done. destruct (IH (mkKeyringScan (kg_entity s) (ks_key st) (ks_found st))) as (sec & ->);
      [done..|intros Hin; apply Hst; by right|]. exists sec. by destruct (list_find _ ss) as [[i x]|].
Qed.

Lemma section_text s :
  section_ok s -> Forall (fun l => Forall (fun b => printable b = true \/ b = x09) l) (section_lines s).
Proof.
  intros (_ & He & Hc).
  assert (forall l, Forall (fun b => plain b = true) l -> Forall (fun b => printable b = true \/ b = x09) l) as Hp.
  { intros l Hl. apply plain_visible in Hl. eapply Forall_impl; [exact Hl|]. intros b Hb. left. by apply (byte_in_mono b 0x21 0x7e). }
  assert (forall t, forallb printable t = true -> Forall (fun b => printable b = true \/ b = x09) t) as Hs.
  { intros t Ht. apply Forall_forall. intros b Hb. left. rewrite forallb_forall in Ht. apply Ht. by apply list_elem_of_In. }
  constructor; [|constructor].
  - unfold header_line. repeat apply Forall_app_2; [by apply Hs|by apply Hp|by apply Hs].
  - unfold key_line. repeat apply Forall_app_2; [|by apply Hs|apply Hp, base64_plain]. apply Forall_singleton. by right.
  - apply Forall_fmap. eapply Forall_impl; [exact Hc|]. intros c (_ & H1 & H2). unfold compose, caps_line.
    repeat apply Forall_app_2; [apply Forall_singleton; by right|by apply Hs| |by apply Hs|by apply Hs| |by apply Hs].
    + apply Hp. eapply Forall_impl; [exact H1|]. by intros b [].
    + eapply Forall_impl; [exact H2|]. intros b []. by left.
Qed.

Lemma keyring_ascii ss : Forall section_ok ss -> Forall (fun b => is_ascii b = true) (keyring_text ss).
Proof.
  intros H. unfold keyring_text. apply Forall_concat, Forall_fmap, Forall_concat, Forall_fmap.
  eapply Forall_impl; [exact H|]. intros s Hs. unfold compose. eapply Forall_impl; [by apply section_text|].
  intros l Hl. apply Forall_app_2; [|by apply Forall_singleton]. eapply Forall_impl; [exact Hl|].
  intros b [Hb| ->]; [by apply printable_ascii|done].
Qed.

Lemma keyring_text_lines ss : Forall section_ok ss -> lines (keyring_text ss) = concat (section_lines <$> ss).
Proof.
  intros H. apply lines_concat, Forall_concat, Forall_fmap. eapply Forall_impl; [exact H|]. intros s Hs. unfold compose.
  eapply Forall_impl; [by apply section_text|]. intros l Hl. rewrite Forall_forall in Hl.
  split; intros Hin; destruct (Hl _ Hin) as [Hp|Hp]; done.
Qed.

Section Properties.
  Context {base64 : Base64Engine}.

Lemma parse_key_text c max_bytes :
  credential_ok c -> 44 <= (if max_bytes =? 0 then DEFAULT_MAX_KEY_BYTES else max_bytes) ->
  parse_key (cr_entity c) (key_text c) max_bytes = Ok c.
Proof.
  intros Hc Hm. unfold parse_key. pose proof Hc as (-> & _ & _ & Hk). cbn [negb]. set (maximum := if max_bytes =? 0 then _ else _) in *.
  destruct (key_text_ends c) as [Hne Hp]. rewrite visible_trim by by apply plain_visible.
  rewrite bool_decide_false by done. cbn [orb].
  assert (length (key_text c) <= 61)%nat as Hl.
  { pose proof (base64_length (key_image c)) as Hl. unfold key_text. unfold key_image in Hl at 2.
    rewrite !length_app, !length_le_bytes in Hl. destruct Hk as [[_ Hs]|[_ Hs]]; rewrite Hs in Hl; lia. }
  unfold u64_max, zlen. rewrite (proj2 (Z.ltb_ge _ _)) by lia.
  unfold key_text. rewrite STANDARD_decode_encode. cbn [ok_or]. rewrite bind_Ok. by apply read_key_image.
Qed.

(** C31. A keyring is read back: from the text of a keyring with one section per
    entity, each with the entity's key and any capabilities, quoted and with
    whatever comment signs they hold, the client takes for a valid entity
    exactly the credential of its section, and finds none when there is no such
    section. *)
Theorem keyring_roundtrip ss entity max_bytes :
  Forall section_ok ss -> NoDup (kg_entity <$> ss) -> valid_client_entity entity = true ->
  zlen (keyring_text ss) <= (if max_bytes =? 0 then DEFAULT_MAX_KEYRING_BYTES else max_bytes) ->
  parse_keyring (keyring_text ss) entity max_bytes
  = match find_section entity ss with
    | Some s => Ok (kg_credential s)
    | None => Err CX_CredentialNotFound
    end.
Proof.
  intros Hok Hd Hv Hz. unfold parse_keyring. rewrite Hv. cbn [negb]. set (maximum := if max_bytes =? 0 then _ else _) in *.
  rewrite (proj2 (Z.ltb_ge _ _)) by done. rewrite from_utf8_ascii by by apply keyring_ascii. cbn [ok_or].
  rewrite bind_Ok, keyring_text_lines by done.
  destruct (sections_scan maximum entity ss (mkKeyringScan [] None false)) as (section & ->); [done|done| |done|].
  { eapply Forall_impl; [apply line_short|]. intros l Hl. cbv beta in *. etrans; [exact Hl|exact Hz]. }
  rewrite bind_Ok. destruct (find_section entity ss) as [s|] eqn:F; [|done]. cbn [ks_found ks_key negb ok_or]. rewrite bind_Ok.
  unfold find_section in F. apply fmap_Some in F as ([i x] & F & ->). apply list_find_Some in F as (F & <- & _).
  rewrite Forall_lookup in Hok. destruct (Hok _ _ F) as (Hc & _). unfold kg_entity. by rewrite parse_key_text.
Qed.
End Properties.

Definition sample_section (name : string) (secret : byte) : KeyringSection :=
  mkKeyringSection (mkCredential (str "client." ++ str name) 1 2 (mkCryptoKey CRYPTO_AES (replicate 16 secret)))
    [(str "mon", str "allow r # all"); (str "osd", str "allow rw; pool=test")].

Lemma keyring_roundtrip_witness :
  let ss := [sample_section "admin" x01; sample_section "test" x02] in
  parse_keyring (base64 := reference_engine) (keyring_text ss) (str "client.test") 0
  = Ok (kg_credential (sample_section "test" x02)).
Proof.
  intros ss. rewrite (keyring_roundtrip (base64 := reference_engine) ss).
  - reflexivity.
  - repeat constructor; try done; try (by vm_compute); by left.
  - repeat constructor; set_solver.
  - reflexivity.
  - vm_compute. discriminate.
Defined.
