(* ===== verification/Config.v ===== *)
(** * Configuration

    Models [src/src/config.rs]: the builder of the client's configuration, the
    subset of configuration files it reads, its overlays by arguments and
    environment variables, and the durations it prints and parses.  The file
    system is a function from paths to contents, the environment one from names
    to values, both arguments of what uses them. *)

From S2P Require Import Prelude Codec MapBase Text BTree CrushLn CephxCrypto CephxCore CephxProps CephxKeys.
From Stdlib Require Import ZArith Lia Strings.Byte Strings.String.
From stdpp Require Import base option gmap sorting numbers list.

Open Scope Z_scope.

Definition MAX_CONFIG_BYTES : Z := Z.shiftl 1 20.
Definition MAX_CONFIG_OPTIONS : Z := 256.
Definition MAX_MONITORS : Z := 64.
Definition MAX_MONITOR_BYTES : Z := 1024.
Definition MAX_ENTITY_BYTES : Z := 256.
Definition MAX_KEY_BYTES : Z := 65536.
Definition MAX_KEYRING_BYTES : Z := Z.shiftl 1 20.
Definition MAX_GO_DURATION_NANOS : Z := 2 ^ 63 - 1.

Definition FILE_OPTIONS : list (list byte) :=
  str <$> ["cluster"; "entity"; "name"; "mon_host"; "fsid"; "key"; "keyring"; "ms_mode"; "dial_timeout";
           "handshake_timeout"; "operation_timeout"]%string.

Definition ENV_OPTIONS : list (list byte * list byte) :=
  (fun p => (str p.1, str p.2)) <$>
    [("CLUSTER", "cluster"); ("ENTITY", "entity"); ("MON_HOST", "mon_host"); ("KEYRING", "keyring");
     ("FSID", "fsid"); ("KEY", "key"); ("MS_MODE", "ms_mode"); ("DIAL_TIMEOUT", "dial_timeout");
     ("HANDSHAKE_TIMEOUT", "handshake_timeout"); ("OPERATION_TIMEOUT", "operation_timeout")]%string.

(** [Error::invalid] of an operation. *)
Inductive ConfigError : Type := InvalidConfig (operation : string).

Inductive SecurityMode : Type := Mode_Secure | Mode_Crc.

(** A [Duration] is its number of nanoseconds; [BTreeMap]s are in the order of
    their keys. *)
Record Config : Type := mkConfig {
  cf_cluster : list byte;
  cf_monitors : list (list byte);
  cf_entity : list byte;
  cf_cluster_fsid : option (list byte);
  cf_key : option (list byte);
  cf_keyring : option (list byte);
  cf_options : list (list byte * list byte);
  cf_security_mode : SecurityMode;
  cf_dial_timeout : Z;
  cf_handshake_timeout : Z;
  cf_operation_timeout : Z
}.

Definition Config_default : Config :=
  mkConfig (str "ceph") [] (str "client.admin") None None None [] Mode_Secure
    10000000000 15000000000 30000000000.

Definition set_cluster (x : list byte) (c : Config) : Config :=
  mkConfig x (cf_monitors c) (cf_entity c) (cf_cluster_fsid c) (cf_key c) (cf_keyring c) (cf_options c)
    (cf_security_mode c) (cf_dial_timeout c) (cf_handshake_timeout c) (cf_operation_timeout c).
Definition set_monitors (x : list (list byte)) (c : Config) : Config :=
  mkConfig (cf_cluster c) x (cf_entity c) (cf_cluster_fsid c) (cf_key c) (cf_keyring c) (cf_options c)
    (cf_security_mode c) (cf_dial_timeout c) (cf_handshake_timeout c) (cf_operation_timeout c).
Definition set_entity (x : list byte) (c : Config) : Config :=
  mkConfig (cf_cluster c) (cf_monitors c) x (cf_cluster_fsid c) (cf_key c) (cf_keyring c) (cf_options c)
    (cf_security_mode c) (cf_dial_timeout c) (cf_handshake_timeout c) (cf_operation_timeout c).
Definition set_cluster_fsid (x : option (list byte)) (c : Config) : Config :=
  mkConfig (cf_cluster c) (cf_monitors c) (cf_entity c) x (cf_key c) (cf_keyring c) (cf_options c)
    (cf_security_mode c) (cf_dial_timeout c) (cf_handshake_timeout c) (cf_operation_timeout c).
Definition set_key (x : option (list byte)) (c : Config) : Config :=
  mkConfig (cf_cluster c) (cf_monitors c) (cf_entity c) (cf_cluster_fsid c) x (cf_keyring c) (cf_options c)
    (cf_security_mode c) (cf_dial_timeout c) (cf_handshake_timeout c) (cf_operation_timeout c).
Definition set_keyring (x : option (list byte)) (c : Config) : Config :=
  mkConfig (cf_cluster c) (cf_monitors c) (cf_entity c) (cf_cluster_fsid c) (cf_key c) x (cf_options c)
    (cf_security_mode c) (cf_dial_timeout c) (cf_handshake_timeout c) (cf_operation_timeout c).
Definition set_options (x : list (list byte * list byte)) (c : Config) : Config :=
  mkConfig (cf_cluster c) (cf_monitors c) (cf_entity c) (cf_cluster_fsid c) (cf_key c) (cf_keyring c) x
    (cf_security_mode c) (cf_dial_timeout c) (cf_handshake_timeout c) (cf_operation_timeout c).
Definition set_security_mode (x : SecurityMode) (c : Config) : Config :=
  mkConfig (cf_cluster c) (cf_monitors c) (cf_entity c) (cf_cluster_fsid c) (cf_key c) (cf_keyring c) (cf_options c)
    x (cf_dial_timeout c) (cf_handshake_timeout c) (cf_operation_timeout c).
Definition set_timeouts (dial handshake operation : Z) (c : Config) : Config :=
  mkConfig (cf_cluster c) (cf_monitors c) (cf_entity c) (cf_cluster_fsid c) (cf_key c) (cf_keyring c) (cf_options c)
    (cf_security_mode c) dial handshake operation.

(** ** Text *)

(** The loop of [strip_hash_comment] and, with [semicolons], of
    [strip_comment]: the characters before the comment. *)
Fixpoint comment_before (semicolons : bool) (previous quote : option (list byte)) (l : list (list byte))
    : option (list (list byte)) :=
  match l with
  | [] => None
  | c :: l =>
      let next quote := cons c <$> comment_before semicolons (Some c) quote l in
      if bool_decide (c ∈ [[x27]; [x22]]) && bool_decide (quote = None) then next (Some c)
      else if bool_decide (c ∈ [[x27]; [x22]]) && bool_decide (quote = Some c) then next None
      else if bool_decide (c = [x23]) && bool_decide (quote = None) then Some []
      else if semicolons && bool_decide (c = [x3b]) && bool_decide (quote = None)
              && match previous with None => true | Some p => is_whitespace p end
      then Some []
      else next quote
  end.

Definition strip_comment_with (semicolons : bool) (line : list byte) : list byte :=
  match comment_before semicolons None None (chars line) with
  | Some before => trim (concat before)
  | None => line
  end.

Definition Config_strip_comment : list byte -> list byte := strip_comment_with true.
Definition strip_hash_comment : list byte -> list byte := strip_comment_with false.

Definition unquote (value : list byte) : list byte :=
  if (2 <=? length value)%nat
     && (bool_decide (head value = Some x27 /\ last value = Some x27)
         || bool_decide (head value = Some x22 /\ last value = Some x22))
  then take (length value - 2) (drop 1 value)
  else value.

(** [join("_")]. *)
Definition normalize_option_name (name : list byte) : list byte :=
  text_join [x5f] (split_whitespace ((fun b => if bool_decide (b = x2d) then x5f else b)
                                     <$> to_ascii_lowercase (trim name))).

Definition is_argument_option (name : list byte) : bool :=
  bool_decide (name ∈ (str <$> ["name"; "id"; "cluster"; "mon_host"; "fsid"; "key"; "keyring"; "ms_mode";
                                "dial_timeout"; "handshake_timeout"; "operation_timeout"]%string)).

Definition valid_simple_name (value : list byte) : bool :=
  negb (bool_decide (value = [])) && (zlen value <=? MAX_ENTITY_BYTES)
  && negb (existsb (fun b => bool_decide (b ∈ [x5b; x5d; x2f; x5c; x00; x0d; x0a])) value).

(** The bytes of a UUID. *)
Definition valid_fsid (value : list byte) : bool :=
  (length value =? 36)%nat
  && forallb (fun p => if bool_decide (p.1 ∈ [8; 13; 18; 23]%nat) then bool_decide (p.2 = x2d) else is_ascii_hexdigit p.2)
       (imap pair value).

(** [str::replace], left to right. *)
Fixpoint replace_loop (fuel : nat) (pattern by_ l : list byte) : list byte :=
  match fuel, l with
  | S fuel, b :: rest =>
      if starts_with pattern l then by_ ++ replace_loop fuel pattern by_ (drop (length pattern) l)
      else b :: replace_loop fuel pattern by_ rest
  | _, _ => []
  end.

(** Each round takes bytes. *)
Definition replace_text (pattern by_ l : list byte) : list byte := replace_loop (length l) pattern by_ l.

(** [value.contains(['\0', '\r', '\n'])]. *)
Definition has_breaks (value : list byte) : bool := existsb (fun b => bool_decide (b ∈ [x00; x0d; x0a])) value.

Definition is_bracket (c : list byte) : bool := bool_decide (c ∈ [[x5b]; [x5d]]).

Definition parse_monitor_seeds (value : list byte) : result ConfigError (list (list byte)) :=
  if has_breaks value then Err (InvalidConfig "Config::parse")
  else
    let value := trim value in
    let value := default value (v ← strip_prefix_bytes [x5b] value; strip_suffix_bytes [x5d] v) in
    let pieces := split_at (fun c => bool_decide (c ∈ [[x2c]; [x3b]]) || is_whitespace c) (chars value) in
    let monitors := filter (fun m => m <> [] /\ starts_with (str "v1:") m = false)
                      ((fun piece => concat (trim_chars is_bracket piece)) <$> pieces) in
    if bool_decide (monitors = []) || (MAX_MONITORS <? zlen monitors)
       || existsb (fun m => MAX_MONITOR_BYTES <? zlen m) monitors
    then Err (InvalidConfig "Config::parse")
    else Ok monitors.

(** ** Durations *)

(** The digits behind the point, at most nineteen of them. *)
Fixpoint fraction_digits (numerator scale : Z) (digits : list byte) : result ConfigError (Z * Z) :=
  match digits with
  | [] => Ok (numerator, scale)
  | b :: digits =>
      scale ← ok_or (checked_mul 128 scale 10) (InvalidConfig "Config::with_option");
      numerator ← ok_or (n ← checked_mul 128 numerator 10; checked_add 128 n (Z_of_byte b - 48))
                    (InvalidConfig "Config::with_option");
      fraction_digits numerator scale digits
  end.

Definition parse_duration_number (number : list byte) (multiplier : Z) : result ConfigError Z :=
  let invalid := InvalidConfig "Config::with_option" in
  let '(integer, fraction) :=
    match split_once x2e number with
    | None => (number, None)
    | Some (integer, fraction) => (integer, Some fraction)
    end in
  if bool_decide (integer = []) && bool_decide (fraction = None \/ fraction = Some []) then Err invalid
  else if negb (forallb is_ascii_digit integer) || negb (forallb is_ascii_digit (default [] fraction)) then Err invalid
  else
    value ← (if bool_decide (integer = []) then Ok 0 else ok_or (parse_unsigned 128 integer) invalid);
    whole ← ok_or (checked_mul 128 value multiplier) invalid;
    match fraction with
    | Some ((_ :: _) as digits) =>
        '(numerator, scale) ← fraction_digits 0 1 (take 19 digits);
        product ← ok_or (checked_mul 128 numerator multiplier) invalid;
        ok_or (checked_add 128 whole (product / scale)) invalid
    | _ => Ok whole
    end.

Definition unit_multiplier (unit_ : list byte) : option Z :=
  if bool_decide (unit_ = str "ns") then Some 1
  else if bool_decide (unit_ = str "us") || bool_decide (unit_ = [xc2; xb5; x73]) then Some 1000
  else if bool_decide (unit_ = str "ms") then Some 1000000
  else if bool_decide (unit_ = str "s") then Some 1000000000
  else if bool_decide (unit_ = str "m") then Some (60 * 1000000000)
  else if bool_decide (unit_ = str "h") then Some (60 * 60 * 1000000000)
  else None.

Definition in_number (b : byte) : bool := is_ascii_digit b || bool_decide (b = x2e).

Fixpoint duration_loop (fuel : nat) (total : Z) (remaining : list byte) : result ConfigError Z :=
  let invalid := InvalidConfig "Config::with_option" in
  match fuel, remaining with
  | _, [] => Ok total
  | O, _ => Ok total
  | S fuel, _ =>
      let (number, rest) := span in_number remaining in
      if bool_decide (rest = []) then Err invalid
      else
        let (unit_, rest) := span (fun b => negb (in_number b)) rest in
        multiplier ← ok_or (unit_multiplier unit_) invalid;
        segment ← parse_duration_number number multiplier;
        total ← ok_or (t ← checked_add 128 total segment; if t <=? MAX_GO_DURATION_NANOS then Some t else None) invalid;
        duration_loop fuel total rest
  end.

(** A round takes the bytes of a unit. *)
Definition parse_duration (value : list byte) : result ConfigError Z :=
  let value := default value (strip_prefix_bytes [x2b] value) in
  if bool_decide (value = []) then Err (InvalidConfig "Config::with_option")
  else
    total ← duration_loop (length value) 0 value;
    if total =? 0 then Err (InvalidConfig "Config::with_option") else Ok total.

(** [{}] of a number of up to 128 bits. *)
Definition decimal (n : Z) : list byte := digits 39 10 n.

(** [{fraction:0width$}]. *)
Definition padded (width : nat) (n : Z) : list byte :=
  let text := decimal n in replicate (width - length text) x30 ++ text.

(** [ilog10] of the units there are. *)
Fixpoint ilog10_loop (fuel : nat) (n : Z) : nat :=
  match fuel with
  | O => 0
  | S fuel => if n <? 10 then 0 else S (ilog10_loop fuel (n / 10))
  end.

Definition format_decimal_duration (value unit_ : Z) (suffix : list byte) : list byte :=
  let whole := value / unit_ in
  let fraction := value mod unit_ in
  if fraction =? 0 then decimal whole ++ suffix
  else
    let width := ilog10_loop 39 unit_ in
    decimal whole ++ [x2e]
      ++ reverse (drop_while (fun b => bool_decide (b = x30)) (reverse (padded width fraction))) ++ suffix.

Definition format_duration (nanos : Z) : list byte :=
  if nanos <? 1000 then decimal nanos ++ str "ns"
  else if nanos <? 1000000 then format_decimal_duration nanos 1000 [xc2; xb5; x73]
  else if nanos <? 1000000000 then format_decimal_duration nanos 1000000 (str "ms")
  else
    let hours := nanos / 3600000000000 in
    let after_hours := nanos mod 3600000000000 in
    let minutes := after_hours / 60000000000 in
    let seconds_nanos := after_hours mod 60000000000 in
    let seconds := format_decimal_duration seconds_nanos 1000000000 (str "s") in
    if negb (hours =? 0) then decimal hours ++ str "h" ++ decimal minutes ++ str "m" ++ seconds
    else if negb (minutes =? 0) then decimal minutes ++ str "m" ++ seconds
    else seconds.

(** ** Keys *)

Definition SecretKey_new (value : list byte) : result ConfigError (list byte) :=
  if bool_decide (value = []) || (MAX_KEY_BYTES <? zlen value) then Err (InvalidConfig "SecretKey::new") else Ok value.

(** [read_bounded_file]: at most one byte more than the limit is read. *)
Definition read_bounded_file (files : list byte -> option (list byte)) (path : list byte) (limit : Z)
    (operation : string) : result ConfigError (list byte) :=
  data ← ok_or (files path) (InvalidConfig operation);
  let data := take (Z.to_nat (limit + 1)) data in
  if limit <? zlen data then Err (InvalidConfig operation) else Ok data.

Fixpoint encoded_key_lines (entity section : list byte) (l : list (list byte)) : option (list byte) :=
  match l with
  | [] => None
  | raw_line :: l =>
      let line := Config_strip_comment (trim raw_line) in
      if bool_decide (line = []) then encoded_key_lines entity section l
      else if starts_with [x5b] line && ends_with [x5d] line then encoded_key_lines entity (section_name line) l
      else if negb (bool_decide (section = entity)) then encoded_key_lines entity section l
      else
        '(name, value) ← split_once x3d line;
        if bool_decide (trim name = str "key") then Some (unquote (trim value))
        else encoded_key_lines entity section l
  end.

Definition encoded_key_from_keyring (data entity : list byte) : option (list byte) :=
  text ← from_utf8 data;
  encoded_key_lines entity [] (lines text).

Section Configuration.
  Context {base64 : Base64Engine} (files : list byte -> option (list byte)).

Definition load_keyring (path entity : list byte) : result ConfigError (list byte) :=
  let entity := if bool_decide (entity = []) then str "client.admin" else entity in
  data ← read_bounded_file files path MAX_KEYRING_BYTES "Config::load_keyring";
  _ ← map_err (fun _ => InvalidConfig "Config::load_keyring") (parse_keyring data entity MAX_KEYRING_BYTES);
  encoded ← ok_or (encoded_key_from_keyring data entity) (InvalidConfig "Config::load_keyring");
  SecretKey_new encoded.

Definition load_configured_keyring (c : Config) : result ConfigError Config :=
  keyring ← ok_or (cf_keyring c) (InvalidConfig "Config::load_keyring");
  let path := replace_text (str "$name") (cf_entity c) (replace_text (str "$cluster") (cf_cluster c) keyring) in
  key ← load_keyring path (cf_entity c);
  Ok (set_key (Some key) c).

(** ** Options *)

Definition parse_mode (value : list byte) : option SecurityMode :=
  if bool_decide (to_ascii_lowercase value = str "secure") then Some Mode_Secure
  else if bool_decide (to_ascii_lowercase value = str "crc") then Some Mode_Crc
  else None.

Definition with_option_internal (c : Config) (name value : list byte) (load : bool) : result ConfigError Config :=
  let invalid := InvalidConfig "Config::with_option" in
  let name := normalize_option_name name in
  if bool_decide (name = []) then Err invalid
  else
    let value := trim value in
    if bool_decide (name = str "cluster") then
      if negb (valid_simple_name value) then Err invalid else Ok (set_cluster value c)
    else if bool_decide (name ∈ [str "entity"; str "name"]) then
      if (MAX_ENTITY_BYTES <? zlen value) || negb (valid_client_entity value) then Err invalid
      else Ok (set_entity value c)
    else if bool_decide (name = str "mon_host") then
      monitors ← parse_monitor_seeds value; Ok (set_monitors monitors c)
    else if bool_decide (name = str "fsid") then
      if negb (valid_fsid value) then Err invalid else Ok (set_cluster_fsid (Some value) c)
    else if bool_decide (name = str "key") then
      _ ← map_err (fun _ => invalid) (parse_key (cf_entity c) value MAX_KEY_BYTES);
      key ← SecretKey_new value;
      Ok (set_key (Some key) c)
    else if bool_decide (name = str "keyring") then
      if bool_decide (value = []) || has_breaks value then Err invalid
      else
        let c := set_keyring (Some value) c in
        if load then load_configured_keyring c else Ok c
    else if bool_decide (name = str "ms_mode") then
      mode ← ok_or (parse_mode value) invalid; Ok (set_security_mode mode c)
    else if bool_decide (name = str "dial_timeout") then
      d ← parse_duration value; Ok (set_timeouts d (cf_handshake_timeout c) (cf_operation_timeout c) c)
    else if bool_decide (name = str "handshake_timeout") then
      d ← parse_duration value; Ok (set_timeouts (cf_dial_timeout c) d (cf_operation_timeout c) c)
    else if bool_decide (name = str "operation_timeout") then
      d ← parse_duration value; Ok (set_timeouts (cf_dial_timeout c) (cf_handshake_timeout c) d c)
    else if negb (bool_decide (is_Some (btree_get bytes_compare name (cf_options c))))
            && (MAX_CONFIG_OPTIONS <=? zlen (cf_options c))
    then Err invalid
    else Ok (set_options (btree_insert bytes_compare name value (cf_options c)) c).

Definition with_option (c : Config) (name value : list byte) : result ConfigError Config :=
  with_option_internal c name value true.

(** [Config::option]: the effective value. *)
Definition Config_option (c : Config) (name : list byte) : option (list byte) :=
  let name := normalize_option_name name in
  if bool_decide (name = str "cluster") then Some (cf_cluster c)
  else if bool_decide (name ∈ [str "entity"; str "name"]) then Some (cf_entity c)
  else if bool_decide (name = str "mon_host") && negb (bool_decide (cf_monitors c = []))
  then Some (text_join [x2c] (cf_monitors c))
  else if bool_decide (name = str "fsid") then cf_cluster_fsid c
  else if bool_decide (name = str "key") then from_utf8_lossy <$> cf_key c
  else if bool_decide (name = str "keyring") then cf_keyring c
  else if bool_decide (name = str "ms_mode") then
    Some (match cf_security_mode c with Mode_Secure => str "secure" | Mode_Crc => str "crc" end)
  else if bool_decide (name = str "dial_timeout") then Some (format_duration (cf_dial_timeout c))
  else if bool_decide (name = str "handshake_timeout") then Some (format_duration (cf_handshake_timeout c))
  else if bool_decide (name = str "operation_timeout") then Some (format_duration (cf_operation_timeout c))
  else btree_get bytes_compare name (cf_options c).

(** ** Files *)

Record SectionScan : Type := mkSectionScan {
  ss_sections : list (list byte * list (list byte * list byte));
  ss_section : list byte;
  ss_option_count : Z
}.

(** [sections.entry(name).or_default()]. *)
Definition section_entry (name : list byte) (sections : list (list byte * list (list byte * list byte)))
    : list (list byte * list byte) :=
  default [] (btree_get bytes_compare name sections).

Definition section_line (raw_line : list byte) (s : SectionScan) : result ConfigError SectionScan :=
  let invalid := InvalidConfig "Config::parse" in
  let line := strip_hash_comment (trim raw_line) in
  if bool_decide (line = []) then Ok s
  else if starts_with [x5b] line then
    let line := Config_strip_comment line in
    if malformed_section line then Err invalid
    else
      let section := section_name line in
      if bool_decide (section = []) then Err invalid
      else Ok (mkSectionScan (btree_insert bytes_compare section (section_entry section (ss_sections s)) (ss_sections s))
                 section (ss_option_count s))
  else
    '(name, value) ← ok_or (split_once x3d line) invalid;
    let name := normalize_option_name name in
    if bool_decide (name = []) then Err invalid
    else if bool_decide (name ∈ [str "include"; str "include_dir"]) then Err invalid
    else
      let value := if bool_decide (name = str "mon_host") then trim value else Config_strip_comment (trim value) in
      option_count ← ok_or (checked_add 64 (ss_option_count s) 1) invalid;
      if MAX_CONFIG_OPTIONS <? option_count then Err invalid
      else
        let entry := btree_insert bytes_compare name (unquote value) (section_entry (ss_section s) (ss_sections s)) in
        Ok (mkSectionScan (btree_insert bytes_compare (ss_section s) entry (ss_sections s)) (ss_section s) option_count).

Fixpoint section_lines_loop (l : list (list byte)) (s : SectionScan) : result ConfigError SectionScan :=
  match l with
  | [] => Ok s
  | line :: l => s ← section_line line s; section_lines_loop l s
  end.

Definition parse_sections (data : list byte) : result ConfigError (list (list byte * list (list byte * list byte))) :=
  if MAX_CONFIG_BYTES <? zlen data then Err (InvalidConfig "Config::parse")
  else
    text ← ok_or (from_utf8 data) (InvalidConfig "Config::parse");
    s ← section_lines_loop (lines text) (mkSectionScan [(str "global", [])] (str "global") 0);
    Ok (ss_sections s).

Fixpoint apply_options (names : list (list byte)) (section : list (list byte * list byte)) (c : Config)
    : result ConfigError Config :=
  match names with
  | [] => Ok c
  | name :: names =>
      c ← match btree_get bytes_compare name section with
          | Some value => with_option_internal c name value false
          | None => Ok c
          end;
      apply_options names section c
  end.

Definition apply_section (section : option (list (list byte * list byte))) (c : Config) : result ConfigError Config :=
  match section with
  | None => Ok c
  | Some section =>
      if bool_decide (is_Some (btree_get bytes_compare (str "include") section))
         || bool_decide (is_Some (btree_get bytes_compare (str "include_dir") section))
      then Err (InvalidConfig "Config::parse")
      else apply_options FILE_OPTIONS section c
  end.

Definition Config_parse (data : list byte) : result ConfigError Config :=
  sections ← parse_sections data;
  c ← apply_section (btree_get bytes_compare (str "global") sections) Config_default;
  apply_section (btree_get bytes_compare (cf_entity c) sections) c.

Definition Config_load (path : list byte) : result ConfigError Config :=
  data ← read_bounded_file files path MAX_CONFIG_BYTES "Config::load";
  c ← Config_parse data;
  if bool_decide (cf_key c = None) && bool_decide (is_Some (cf_keyring c)) then load_configured_keyring c else Ok c.

(** ** Arguments and environment *)

Record ArgumentScan : Type := mkArgumentScan {
  ag_config : Config;
  ag_remainder : list (list byte);
  ag_option_count : Z;
  ag_key_seen : bool;
  ag_keyring_seen : bool
}.

Definition keep_argument (argument : list byte) (s : ArgumentScan) : ArgumentScan :=
  mkArgumentScan (ag_config s) (ag_remainder s ++ [argument]) (ag_option_count s) (ag_key_seen s) (ag_keyring_seen s).

(** One option with its value. *)
Definition argument_option (normalized value : list byte) (option_count : Z) (s : ArgumentScan)
    : result ConfigError ArgumentScan :=
  let '(normalized, value) :=
    if bool_decide (normalized = str "id") then (str "entity", str "client." ++ value) else (normalized, value) in
  c ← with_option_internal (ag_config s) normalized value false;
  Ok (mkArgumentScan c (ag_remainder s) option_count
        (ag_key_seen s || bool_decide (normalized = str "key"))
        (ag_keyring_seen s || bool_decide (normalized = str "keyring"))).

Fixpoint argument_loop (arguments : list (list byte)) (s : ArgumentScan) : result ConfigError ArgumentScan :=
  match arguments with
  | [] => Ok s
  | argument :: rest =>
      if bool_decide (argument = str "--") then
        Ok (mkArgumentScan (ag_config s) (ag_remainder s ++ arguments) (ag_option_count s) (ag_key_seen s)
              (ag_keyring_seen s))
      else
        match strip_prefix_bytes (str "--") argument with
        | None => argument_loop rest (keep_argument argument s)
        | Some name_value =>
            let '(name, inline_value) :=
              match split_once x3d name_value with
              | None => (name_value, None)
              | Some (name, value) => (name, Some value)
              end in
            let normalized := normalize_option_name name in
            if negb (is_argument_option normalized) then argument_loop rest (keep_argument argument s)
            else
              let option_count := ag_option_count s + 1 in
              if MAX_CONFIG_OPTIONS <? option_count then Err (InvalidConfig "Config::parse_args")
              else
                match inline_value, rest with
                | Some value, _ =>
                    s ← argument_option normalized value option_count s; argument_loop rest s
                | None, value :: rest =>
                    s ← argument_option normalized value option_count s; argument_loop rest s
                | None, [] => Err (InvalidConfig "Config::parse_args")
                end
        end
  end.

Definition parse_args (c : Config) (arguments : list (list byte)) : result ConfigError (Config * list (list byte)) :=
  s ← argument_loop arguments (mkArgumentScan c [] 0 false false);
  c ← (if ag_keyring_seen s && negb (ag_key_seen s) then load_configured_keyring (ag_config s) else Ok (ag_config s));
  Ok (c, ag_remainder s).

Fixpoint env_options (prefix : list byte) (lookup : list byte -> option (list byte)) (options : list (list byte * list byte))
    (credential : option (list byte)) (c : Config) : result ConfigError (Config * option (list byte)) :=
  match options with
  | [] => Ok (c, credential)
  | (suffix, name) :: options =>
      match lookup (prefix ++ [x5f] ++ suffix) with
      | None => env_options prefix lookup options credential c
      | Some value =>
          let credential := if bool_decide (name ∈ [str "key"; str "keyring"]) then Some name else credential in
          c ← with_option_internal c name value false;
          env_options prefix lookup options credential c
      end
  end.

Definition parse_env_from (c : Config) (prefix : list byte) (lookup : list byte -> option (list byte))
    : result ConfigError Config :=
  let prefix := default (trim prefix) (strip_suffix_bytes [x5f] (trim prefix)) in
  let prefix := if bool_decide (prefix = []) then str "GO_LIBRADOS" else prefix in
  '(c, credential) ← env_options prefix lookup ENV_OPTIONS None c;
  if bool_decide (credential = Some (str "keyring")) then load_configured_keyring c else Ok c.

(** ** Builders *)

Definition with_monitors (c : Config) (monitors : list (list byte)) : result ConfigError Config :=
  if bool_decide (monitors = []) || (MAX_MONITORS <? zlen monitors)
     || existsb (fun m => bool_decide (m = []) || (MAX_MONITOR_BYTES <? zlen m)) monitors
  then Err (InvalidConfig "Config::with_monitors")
  else Ok (set_monitors monitors c).

Definition with_entity (c : Config) (entity : list byte) : result ConfigError Config :=
  if bool_decide (entity = []) || (MAX_ENTITY_BYTES <? zlen entity)
  then Err (InvalidConfig "Config::with_entity")
  else Ok (set_entity entity c).

Definition with_cluster_fsid (c : Config) (fsid : list byte) : result ConfigError Config :=
  if negb (valid_fsid fsid) then Err (InvalidConfig "Config::with_cluster_fsid")
  else Ok (set_cluster_fsid (Some fsid) c).

Definition with_timeouts (c : Config) (dial handshake operation : Z) : result ConfigError Config :=
  if existsb (fun d => MAX_GO_DURATION_NANOS <? d) [dial; handshake; operation]
  then Err (InvalidConfig "Config::with_timeouts")
  else Ok (set_timeouts (if dial =? 0 then 10000000000 else dial)
             (if handshake =? 0 then 15000000000 else handshake)
             (if operation =? 0 then 30000000000 else operation) c).

Definition Config_validate (c : Config) : result ConfigError unit :=
  if bool_decide (cf_monitors c = []) then Err (InvalidConfig "Client::new") else Ok tt.

End Configuration.
