(* ===== verification/ConfigProps.v ===== *)
(** * Properties of the configuration

    Durations are read as they are printed, every configuration that can be
    built is in order, and what the overlays do. *)

From S2P Require Import Prelude Codec MapBase Text BTree CrushLn CephxCrypto CephxCore CephxProps CephxKeys Config.
From Stdlib Require Import ZArith Lia Strings.Byte Strings.String.
From stdpp Require Import base option gmap sorting numbers list.

Open Scope Z_scope.

(** ** Digits *)

(** The number digits stand for, behind [acc]. *)
Definition digits_value (acc : Z) (l : list byte) : Z :=
  fold_left (fun a b => 10 * a + (Z_of_byte b - 48)) l acc.

Lemma digits_value_app acc a b : digits_value acc (a ++ b) = digits_value (digits_value acc a) b.
Proof. apply fold_left_app. Qed.

Lemma digits_value_shift acc l : digits_value acc l = acc * 10 ^ zlen l + digits_value 0 l.
Proof.
  revert acc. induction l as [|b l IH]; intros acc; [change (10 ^ zlen (@nil byte)) with 1; cbn [digits_value fold_left]; lia|].
  change (digits_value acc (b :: l)) with (digits_value (10 * acc + (Z_of_byte b - 48)) l).
  change (digits_value 0 (b :: l)) with (digits_value (Z_of_byte b - 48) l).
  rewrite IH, (IH (Z_of_byte b - 48)), zlen_cons, Z.pow_add_r by (lia || apply zlen_nonneg). lia.
Qed.

Lemma is_digit_ascii b : is_digit 10 b <-> is_ascii_digit b = true.
Proof.
  unfold is_ascii_digit, byte_in. rewrite andb_true_iff, !Z.leb_le. split.
  - intros (d & Hd & ->). rewrite Z_of_digit by lia. rewrite (proj2 (Z.ltb_lt _ _)) by lia. lia.
  - intros H. exists (Z_of_byte b - 48). split; [lia|]. apply Z_of_byte_inj. rewrite Z_of_digit by lia.
    rewrite (proj2 (Z.ltb_lt _ _)) by lia. lia.
Qed.

Lemma digits_value_digits fuel : forall n, 0 <= n < 10 ^ Z.of_nat fuel -> digits_value 0 (digits fuel 10 n) = n.
Proof.
  induction fuel as [|fuel IH]; intros n Hn; cbn [digits]; [change (10 ^ Z.of_nat 0) with 1 in Hn; cbn; lia|].
  rewrite Nat2Z.inj_succ, Z.pow_succ_r in Hn by lia. rewrite digits_value_app.
  pose proof (Z.mod_pos_bound n 10 ltac:(lia)). pose proof (Z.div_mod n 10 ltac:(lia)).
  assert (digits_value 0 (if n <? 10 then [] else digits fuel 10 (n / 10)) = n / 10) as ->.
  { destruct (Z.ltb_spec n 10); [cbn; symmetry; apply Z.div_small; lia|]. apply IH.
    split; [apply Z.div_pos; lia|apply Z.div_lt_upper_bound; lia]. }
  cbn [digits_value fold_left]. rewrite Z_of_digit by lia. rewrite (proj2 (Z.ltb_lt _ _)) by lia. lia.
Qed.

Lemma digits_length fuel : forall n k, 0 <= n < 10 ^ Z.of_nat k -> (0 < k)%nat -> (length (digits fuel 10 n) <= k)%nat.
Proof.
  induction fuel as [|fuel IH]; intros n k Hn Hk; cbn [digits length]; [lia|]. rewrite length_app. cbn [length].
  destruct (Z.ltb_spec n 10); [cbn; lia|]. destruct k as [|[|k]]; [lia|change (10 ^ Z.of_nat 1) with 10 in Hn; lia|].
  enough (length (digits fuel 10 (n / 10)) <= S k)%nat by lia. apply IH; [|lia].
  rewrite Nat2Z.inj_succ, Z.pow_succ_r in Hn by lia. split; [apply Z.div_pos; lia|apply Z.div_lt_upper_bound; lia].
Qed.

Lemma decimal_digits n : 0 <= n -> Forall (fun b => is_ascii_digit b = true) (decimal n).
Proof.
  intros Hn. eapply Forall_impl; [apply digits_are_digits; [lia|done]|]. intros b Hb. by apply is_digit_ascii.
Qed.

Lemma decimal_nonempty n : decimal n <> [].
Proof. apply digits_nonempty. lia. Qed.

Lemma parse_decimal n : 0 <= n < 2 ^ 128 -> parse_unsigned 128 (decimal n) = Some n.
Proof.
  intros Hn. pose proof (digits_are_digits 39 10 n ltac:(lia) ltac:(lia)) as Hd.
  pose proof (decimal_nonempty n) as Hne. unfold decimal in *.
  pose proof (parse_digits_digits 10 (2 ^ 128) 39 n ltac:(lia) Hn ltac:(cbn; lia)) as Hp.
  destruct (digits 39 10 n) as [|b text]; [done|]. unfold parse_unsigned, parse_number.
  apply Forall_cons in Hd as [(d & Hr & ->) _].
  rewrite bool_decide_eq_false_2; [done|]. eapply digit_not; [exact Hr|lia|left; done].
Qed.

(** ** Fractions *)

Lemma zeros_value k l : digits_value 0 (replicate k x30 ++ l) = digits_value 0 l.
Proof. induction k as [|k IH]; [done|]. exact IH. Qed.

Lemma digits_value_zeros l k : digits_value 0 (l ++ replicate k x30) = digits_value 0 l * 10 ^ Z.of_nat k.
Proof.
  rewrite digits_value_app, digits_value_shift.
  assert (digits_value 0 (replicate k x30) = 0) as -> by (rewrite <- (app_nil_r (replicate k x30)); by rewrite zeros_value).
  unfold zlen. rewrite length_replicate. lia.
Qed.

Lemma digits_value_bound l :
  Forall (fun b => is_ascii_digit b = true) l -> 0 <= digits_value 0 l < 10 ^ zlen l.
Proof.
  induction l as [|b l IH] using rev_ind; intros H; [done|]. apply Forall_app in H as [H Hb].
  specialize (IH H). apply Forall_cons in Hb as [Hb _]. rewrite digits_value_app, zlen_app, Z.pow_add_r by (apply zlen_nonneg || done).
  cbn [digits_value fold_left]. change (10 ^ zlen [b]) with 10. unfold is_ascii_digit, byte_in in Hb.
  apply andb_true_iff in Hb as [H1%Z.leb_le H2%Z.leb_le]. lia.
Qed.

Lemma fraction_digits_ok l : forall numerator scale,
  Forall (fun b => is_ascii_digit b = true) l -> 0 <= numerator < scale -> scale * 10 ^ zlen l <= 10 ^ 19 ->
  fraction_digits numerator scale l = Ok (digits_value numerator l, scale * 10 ^ zlen l).
Proof.
  induction l as [|b l IH]; intros numerator scale Hl Hn Hs; cbn [fraction_digits].
  - do 2 f_equal. change (10 ^ zlen (@nil byte)) with 1. lia.
  - apply Forall_cons in Hl as [Hb Hl]. rewrite zlen_cons, Z.pow_add_r in * by (lia || apply zlen_nonneg).
    change (10 ^ 1) with 10 in *. pose proof (Z.pow_pos_nonneg 10 (zlen l) ltac:(lia) (zlen_nonneg l)).
    assert (scale * 10 <= 10 ^ 19) by nia. unfold is_ascii_digit, byte_in in Hb.
    apply andb_true_iff in Hb as [H1%Z.leb_le H2%Z.leb_le].
    unfold checked_mul, checked_add. rewrite (proj2 (Z.ltb_lt (scale * 10) _)) by lia. cbn [ok_or]. rewrite bind_Ok.
    rewrite (proj2 (Z.ltb_lt (numerator * 10) _)) by lia. cbn [mbind option_bind].
    rewrite (proj2 (Z.ltb_lt (numerator * 10 + _) _)) by lia. cbn [ok_or]. rewrite bind_Ok, IH by (done || nia).
    do 2 f_equal; [|lia]. change (digits_value numerator (b :: l)) with (digits_value (10 * numerator + (Z_of_byte b - 48)) l).
    f_equal. lia.
Qed.

(** A string of digits without the zeros at its end. *)
Definition trim_zeros (l : list byte) : list byte :=
  reverse (drop_while (fun b => bool_decide (b = x30)) (reverse l)).

Lemma trim_zeros_spec l : exists k, l = trim_zeros l ++ replicate k x30.
Proof.
  enough (forall r, exists k, reverse r = reverse (drop_while (fun b => bool_decide (b = x30)) r) ++ replicate k x30) as H.
  { destruct (H (reverse l)) as [k Hk]. exists k. by rewrite reverse_involutive in Hk. }
  induction r as [|b r [k IH]]; [by exists 0%nat|]. cbn [drop_while]. case_bool_decide as E.
  - subst b. exists (S k). rewrite reverse_cons, IH, <- app_assoc. f_equal. by rewrite replicate_S_end.
  - exists 0%nat. by rewrite app_nil_r.
Qed.

Lemma padded_digits width f :
  0 <= f -> Forall (fun b => is_ascii_digit b = true) (padded width f).
Proof. intros Hf. unfold padded. apply Forall_app_2; [by apply Forall_replicate|by apply decimal_digits]. Qed.

Lemma padded_length width f : (0 < width <= 39)%nat -> 0 <= f < 10 ^ Z.of_nat width -> length (padded width f) = width.
Proof.
  intros Hw Hf. unfold padded. rewrite length_app, length_replicate. unfold decimal.
  pose proof (digits_length 39 f width Hf ltac:(lia)). lia.
Qed.

Lemma padded_value width f : 0 <= f < 10 ^ 39 -> digits_value 0 (padded width f) = f.
Proof. intros Hf. unfold padded. rewrite zeros_value. by apply digits_value_digits. Qed.

(** ** Numbers of durations *)

Lemma digits_no_dot l : Forall (fun b => is_ascii_digit b = true) l -> x2e ∉ l.
Proof. rewrite Forall_forall. intros H Hin. by specialize (H _ Hin). Qed.

Lemma split_once_absent c l : c ∉ l -> split_once c l = None.
Proof.
  induction l as [|b l IH]; intros H; [done|]. cbn. rewrite bool_decide_false by set_solver. by rewrite IH by set_solver.
Qed.

Lemma forallb_digits l : Forall (fun b => is_ascii_digit b = true) l -> forallb is_ascii_digit l = true.
Proof. intros H. apply forallb_forall. intros b Hb. rewrite Forall_forall in H. by apply H, list_elem_of_In. Qed.

Lemma parse_number_whole n multiplier :
  0 <= n -> 1 <= multiplier -> n * multiplier < 2 ^ 128 -> parse_duration_number (decimal n) multiplier = Ok (n * multiplier).
Proof.
  intros Hn Hm Hb. pose proof (decimal_digits n Hn) as Hd. unfold parse_duration_number.
  rewrite split_once_absent by by apply digits_no_dot. rewrite bool_decide_false by apply decimal_nonempty.
  cbn [andb default]. rewrite forallb_digits by done. cbn [negb orb forallb].
  rewrite parse_decimal by nia. cbn [ok_or]. rewrite bind_Ok. unfold checked_mul. by rewrite (proj2 (Z.ltb_lt _ _)) by done.
Qed.

Lemma trim_zeros_digits l :
  Forall (fun b => is_ascii_digit b = true) l -> Forall (fun b => is_ascii_digit b = true) (trim_zeros l).
Proof. intros H. destruct (trim_zeros_spec l) as [k Hk]. rewrite Hk in H. by apply Forall_app in H as [H _]. Qed.

Lemma parse_number_fraction w f width :
  0 <= w -> (0 < width <= 19)%nat -> 0 < f < 10 ^ Z.of_nat width -> (w + 1) * 10 ^ Z.of_nat width < 2 ^ 64 ->
  parse_duration_number (decimal w ++ [x2e] ++ trim_zeros (padded width f)) (10 ^ Z.of_nat width)
  = Ok (w * 10 ^ Z.of_nat width + f).
Proof.
  intros Hw Hwd Hf Hb. set (ds := trim_zeros (padded width f)).
  assert (10 ^ Z.of_nat width <= 10 ^ 19) as Hp by (apply Z.pow_le_mono_r; lia).
  pose proof (Z.pow_pos_nonneg 10 (Z.of_nat width) ltac:(lia) ltac:(lia)).
  pose proof (padded_digits width f ltac:(lia)) as Hd. pose proof (trim_zeros_digits _ Hd) as Hds. fold ds in Hds.
  destruct (trim_zeros_spec (padded width f)) as [k Hk]. fold ds in Hk.
  assert (digits_value 0 ds * 10 ^ Z.of_nat k = f) as Hv.
  { rewrite <- digits_value_zeros, <- Hk. apply padded_value. lia. }
  assert (length ds + k = width)%nat as Hl.
  { rewrite <- (padded_length width f) by lia. rewrite Hk, length_app, length_replicate. done. }
  pose proof (digits_value_bound ds Hds) as Hdb.
  pose proof (Z.pow_pos_nonneg 10 (zlen ds) ltac:(lia) (zlen_nonneg ds)).
  assert (10 ^ zlen ds * 10 ^ Z.of_nat k = 10 ^ Z.of_nat width) as Hpow.
  { rewrite <- Z.pow_add_r by (lia || apply zlen_nonneg). f_equal. unfold zlen. lia. }
  assert (10 ^ zlen ds <= 10 ^ 19) by (apply Z.pow_le_mono_r; [lia|unfold zlen; lia]).
  destruct ds as [|d ds'] eqn:Eds; [change (digits_value 0 []) with 0 in Hv; lia|]. rewrite <- Eds in *.
  pose proof (decimal_digits w Hw) as Hdw. unfold parse_duration_number.
  change (decimal w ++ [x2e] ++ ds) with (decimal w ++ x2e :: ds). rewrite split_once_app by by apply digits_no_dot.
  rewrite bool_decide_false by apply decimal_nonempty. cbn [andb default]. rewrite !forallb_digits by done.
  cbn [negb orb]. rewrite parse_decimal by nia. cbn [ok_or]. rewrite bind_Ok. unfold checked_mul.
  rewrite (proj2 (Z.ltb_lt (w * _) _)) by nia. cbn [ok_or]. rewrite bind_Ok. rewrite Eds. cbv iota. rewrite <- Eds.
  rewrite take_ge by lia. rewrite fraction_digits_ok; [|done|lia|lia]. rewrite bind_Ok, Z.mul_1_l.
  rewrite (proj2 (Z.ltb_lt _ _)) by nia. cbn [ok_or]. rewrite bind_Ok.
  assert (digits_value 0 ds * 10 ^ Z.of_nat width / 10 ^ zlen ds = f) as ->.
  { rewrite <- Hpow, <- Hv. rewrite (Z.mul_comm (10 ^ zlen ds)), Z.mul_assoc. apply Z.div_mul. lia. }
  unfold checked_add. by rewrite (proj2 (Z.ltb_lt _ _)) by nia.
Qed.

(** ** Segments of a duration *)

Lemma span_app p a b :
  Forall (fun x => p x = true) a -> (forall x, head b = Some x -> p x = false) -> span p (a ++ b) = (a, b).
Proof.
  intros Ha Hb. induction Ha as [|x a Hx _ IH]; cbn [app span].
  - destruct b as [|y b]; [done|]. cbn. by rewrite Hb.
  - by rewrite Hx, IH.
Qed.

(** A number and its unit, in front of the rest of a duration. *)
Lemma duration_segment fuel total number unit_ multiplier segment rest :
  number <> [] -> Forall (fun b => in_number b = true) number -> unit_multiplier unit_ = Some multiplier ->
  unit_ <> [] -> Forall (fun b => in_number b = false) unit_ -> (forall x, head rest = Some x -> in_number x = true) ->
  parse_duration_number number multiplier = Ok segment -> 0 <= total -> 0 <= segment -> total + segment <= MAX_GO_DURATION_NANOS ->
  duration_loop (S fuel) total (number ++ unit_ ++ rest) = duration_loop fuel (total + segment) rest.
Proof.
  intros Hne Hn Hm Hu Hf Hr Hp H0 H1 Hb. destruct (number ++ unit_ ++ rest) as [|b l] eqn:E; [by destruct number|].
  cbn [duration_loop]. rewrite <- E. rewrite span_app; [|done|].
  2:{ intros x Hx. destruct unit_ as [|u unit_]; [done|]. injection Hx as <-. by apply Forall_cons in Hf as [? _]. }
  rewrite bool_decide_false by (by destruct unit_). rewrite span_app.
  2:{ eapply Forall_impl; [exact Hf|]. by intros x ->. }
  2:{ intros x Hx. by rewrite Hr. }
  rewrite Hm. cbn [ok_or]. rewrite bind_Ok, Hp, bind_Ok. unfold MAX_GO_DURATION_NANOS, checked_add in *.
  rewrite (proj2 (Z.ltb_lt _ _)) by lia. cbn [mbind option_bind]. by rewrite (proj2 (Z.leb_le _ _)) by lia.
Qed.

Lemma digits_in_number l : Forall (fun b => is_ascii_digit b = true) l -> Forall (fun b => in_number b = true) l.
Proof. intros H. eapply Forall_impl; [exact H|]. intros b Hb. unfold in_number. by rewrite Hb. Qed.

(** The text of a decimal duration is a number and its unit. *)
Lemma decimal_duration_number value width suffix :
  (0 < width <= 9)%nat -> 0 <= value < 2 ^ 63 -> ilog10_loop 39 (10 ^ Z.of_nat width) = width ->
  exists number, format_decimal_duration value (10 ^ Z.of_nat width) suffix = number ++ suffix
    /\ number <> [] /\ Forall (fun b => in_number b = true) number
    /\ parse_duration_number number (10 ^ Z.of_nat width) = Ok value.
Proof.
  intros Hw Hv Hi. set (unit_ := 10 ^ Z.of_nat width) in *.
  assert (1 < unit_ <= 10 ^ 9) as Hu.
  { split; [apply Z.pow_gt_1; lia|]. apply Z.pow_le_mono_r; lia. }
  pose proof (Z.mod_pos_bound value unit_ ltac:(lia)). pose proof (Z.div_mod value unit_ ltac:(lia)).
  assert (0 <= value / unit_) by (apply Z.div_pos; lia).
  unfold format_decimal_duration. destruct (Z.eqb_spec (value mod unit_) 0) as [E|E].
  - exists (decimal (value / unit_)). split; [done|]. split; [apply decimal_nonempty|].
    split; [by apply digits_in_number, decimal_digits|]. rewrite parse_number_whole by nia. f_equal. lia.
  - exists (decimal (value / unit_) ++ [x2e] ++ trim_zeros (padded width (value mod unit_))). rewrite Hi.
    split; [by rewrite <- !app_assoc|]. split; [by destruct (decimal _)|]. split.
    + apply Forall_app_2; [by apply digits_in_number, decimal_digits|]. apply Forall_app_2; [by apply Forall_singleton|].
      apply digits_in_number, trim_zeros_digits, padded_digits. lia.
    + unfold unit_ in *. rewrite parse_number_fraction by (lia || nia). f_equal. lia.
Qed.

(** ** Printed durations *)

Lemma unit_chars u m : unit_multiplier u = Some m -> u <> [] /\ Forall (fun b => in_number b = false) u.
Proof.
  unfold unit_multiplier. intros H. repeat case_bool_decide; subst; try done; split; try done; by repeat constructor.
Qed.

Lemma duration_loop_nil fuel total : duration_loop fuel total [] = Ok total.
Proof. by destruct fuel. Qed.

Lemma number_head number rest :
  number <> [] -> Forall (fun b => in_number b = true) number ->
  forall x, head (number ++ rest) = Some x -> in_number x = true.
Proof. intros Hne Hn x Hx. destruct number as [|y number]; [done|]. injection Hx as <-. by apply Forall_cons in Hn as [? _]. Qed.

(** A duration printed as one number. *)
Lemma parse_single number u multiplier value fuel total :
  number <> [] -> Forall (fun b => in_number b = true) number -> unit_multiplier u = Some multiplier ->
  parse_duration_number number multiplier = Ok value -> 0 <= total -> 0 <= value -> total + value <= MAX_GO_DURATION_NANOS ->
  duration_loop (S fuel) total (number ++ u) = Ok (total + value).
Proof.
  intros Hne Hn Hu Hp H0 H1 Hb. destruct (unit_chars u multiplier Hu) as [Hune Huf]. rewrite <- (app_nil_r u).
  erewrite duration_segment; try done. apply duration_loop_nil.
Qed.

(** Hours or minutes in front of a duration. *)
Lemma parse_leading n u multiplier rest fuel total :
  0 <= n -> 1 <= multiplier -> unit_multiplier u = Some multiplier -> n * multiplier < 2 ^ 128 ->
  (forall x, head rest = Some x -> in_number x = true) -> 0 <= total -> total + n * multiplier <= MAX_GO_DURATION_NANOS ->
  duration_loop (S fuel) total (decimal n ++ u ++ rest) = duration_loop fuel (total + n * multiplier) rest.
Proof.
  intros Hn Hm Hu Hb Hr H0 Ht. destruct (unit_chars u multiplier Hu) as [Hune Huf]. eapply duration_segment; try done.
  - apply decimal_nonempty.
  - by apply digits_in_number, decimal_digits.
  - by apply parse_number_whole.
  - nia.
Qed.

Lemma decimal_long n : (1 <= length (decimal n))%nat.
Proof. pose proof (decimal_nonempty n). destruct (decimal n); cbn; [done|lia]. Qed.

Lemma seconds_text n :
  0 <= n < 2 ^ 63 -> exists number, format_decimal_duration n 1000000000 (str "s") = number ++ str "s"
    /\ number <> [] /\ Forall (fun b => in_number b = true) number
    /\ parse_duration_number number 1000000000 = Ok n.
Proof. intros Hn. apply (decimal_duration_number n 9 (str "s")); [lia|done|done]. Qed.

(** Durations below a second are one number. *)
Lemma parse_small n fuel :
  0 < n < 1000000000 -> (length (format_duration n) <= fuel)%nat -> duration_loop fuel 0 (format_duration n) = Ok n.
Proof.
  intros Hn Hf.
  assert (forall number u m, number <> [] -> Forall (fun b => in_number b = true) number -> unit_multiplier u = Some m ->
    parse_duration_number number m = Ok n -> (length (number ++ u) <= fuel)%nat -> duration_loop fuel 0 (number ++ u) = Ok n) as Hone.
  { intros number u m Hne Hnn Hu Hp Hl. destruct fuel as [|fuel]; [destruct number; cbn in Hl; [done|lia]|].
    erewrite parse_single; try done; unfold MAX_GO_DURATION_NANOS; lia. }
  unfold format_duration in *. destruct (Z.ltb_spec n 1000).
  { apply (Hone _ _ 1); try done; [apply decimal_nonempty|apply digits_in_number, decimal_digits; lia|].
    rewrite parse_number_whole by lia. f_equal. lia. }
  destruct (Z.ltb_spec n 1000000).
  { destruct (decimal_duration_number n 3 [xc2; xb5; x73]) as (number & E & N1 & N2 & N3); [lia|lia|done|].
    change (10 ^ Z.of_nat 3) with 1000 in *. rewrite E in *. by apply (Hone _ _ 1000). }
  rewrite (proj2 (Z.ltb_lt _ _)) in * by lia.
  destruct (decimal_duration_number n 6 (str "ms")) as (number & E & N1 & N2 & N3); [lia|lia|done|].
  change (10 ^ Z.of_nat 6) with 1000000 in *. rewrite E in *. by apply (Hone _ _ 1000000).
Qed.

(** Longer ones are hours, minutes and seconds. *)
Lemma parse_large n fuel :
  1000000000 <= n <= MAX_GO_DURATION_NANOS -> (length (format_duration n) <= fuel)%nat ->
  duration_loop fuel 0 (format_duration n) = Ok n.
Proof.
  intros Hn Hf. unfold format_duration in *. rewrite !(proj2 (Z.ltb_ge _ _)) in * by lia.
  pose proof (Z.div_mod n 3600000000000 ltac:(lia)) as D1. pose proof (Z.mod_pos_bound n 3600000000000 ltac:(lia)) as M1.
  set (r := n mod 3600000000000) in *. assert (0 <= n / 3600000000000) as Hh by (apply Z.div_pos; lia).
  pose proof (Z.div_mod r 60000000000 ltac:(lia)) as D2. pose proof (Z.mod_pos_bound r 60000000000 ltac:(lia)) as M2.
  assert (0 <= r / 60000000000) as Hm by (apply Z.div_pos; lia). unfold MAX_GO_DURATION_NANOS in Hn.
  destruct (seconds_text (r mod 60000000000)) as (number & E & N1 & N2 & N3); [lia|]. rewrite E in *.
  assert (forall fuel total, (1 <= fuel)%nat -> 0 <= total -> total + r mod 60000000000 = n ->
    duration_loop fuel total (number ++ str "s") = Ok n) as Hs.
  { intros [|k] total Hk H0 Ht; [lia|]. rewrite <- Ht. apply (parse_single number (str "s") 1000000000); unfold MAX_GO_DURATION_NANOS; (done || lia). }
  assert (forall fuel total, (2 <= fuel)%nat -> 0 <= total -> total + r = n ->
    duration_loop fuel total (decimal (r / 60000000000) ++ str "m" ++ number ++ str "s") = Ok n) as Hms.
  { intros [|k] total Hk H0 Ht; [lia|].
    rewrite (parse_leading _ _ 60000000000); unfold MAX_GO_DURATION_NANOS; try done; try lia; [|by apply number_head].
    apply Hs; lia. }
  destruct (Z.eqb_spec (n / 3600000000000) 0) as [Eh|Eh]; cbn [negb] in *.
  - destruct (Z.eqb_spec (r / 60000000000) 0) as [Em|Em]; cbn [negb] in *.
    + apply Hs; [|lia|lia]. rewrite length_app in Hf. cbn in Hf. lia.
    + apply Hms; [|lia|lia]. rewrite !length_app in Hf. cbn in Hf. pose proof (decimal_long (r / 60000000000)). lia.
  - destruct fuel as [|fuel]; [rewrite !length_app in Hf; cbn in Hf; lia|].
    rewrite !length_app in Hf. cbn [str list_byte_of_string length] in Hf. pose proof (decimal_long (n / 3600000000000)).
    rewrite (parse_leading _ _ 3600000000000); unfold MAX_GO_DURATION_NANOS; try done; try lia.
    + apply Hms; [cbn in Hf; lia|lia|lia].
    + apply number_head; [apply decimal_nonempty|by apply digits_in_number, decimal_digits].
Qed.

Lemma format_not_empty n : 0 < n -> format_duration n <> [] /\ strip_prefix_bytes [x2b] (format_duration n) = None.
Proof.
  intros Hn.
  assert (forall m rest, 0 <= m -> decimal m ++ rest <> [] /\ strip_prefix_bytes [x2b] (decimal m ++ rest) = None) as H.
  { intros m rest Hm. pose proof (decimal_digits m Hm) as Hd. pose proof (decimal_nonempty m) as Hne.
    destruct (decimal m) as [|b l]; [done|]. split; [done|]. unfold strip_prefix_bytes, starts_with.
    apply Forall_cons in Hd as [Hb _]. rewrite bool_decide_false; [done|]. cbn. by intros [= ->]. }
  assert (forall v u s, 0 <= v -> 0 < u -> format_decimal_duration v u s <> []
    /\ strip_prefix_bytes [x2b] (format_decimal_duration v u s) = None) as Hf.
  { intros v u s Hv Hu. assert (0 <= v / u) by (by apply Z.div_pos). unfold format_decimal_duration.
    destruct (v mod u =? 0); by apply H. }
  unfold format_duration. pose proof (Z.mod_pos_bound n 3600000000000 ltac:(lia)).
  pose proof (Z.mod_pos_bound (n mod 3600000000000) 60000000000 ltac:(lia)).
  assert (0 <= n / 3600000000000) by (apply Z.div_pos; lia).
  assert (0 <= n mod 3600000000000 / 60000000000) by (apply Z.div_pos; lia).
  repeat case_match; try (apply H; lia); apply Hf; lia.
Qed.

(** A duration is read as it is printed: every duration that a configuration
    can hold, from a nanosecond to the longest of 292 years, is printed as a
    text that parses to the same duration, to the nanosecond. *)
Theorem duration_roundtrip n :
  0 < n <= MAX_GO_DURATION_NANOS -> parse_duration (format_duration n) = Ok n.
Proof.
  intros Hn. destruct (format_not_empty n ltac:(lia)) as [Hne Hp]. unfold parse_duration. rewrite Hp. cbn [default].
  rewrite bool_decide_false by done.
  assert (duration_loop (length (format_duration n)) 0 (format_duration n) = Ok n) as ->.
  { destruct (Z.lt_ge_cases n 1000000000); [apply parse_small|apply parse_large]; lia. }
  rewrite bind_Ok. by rewrite (proj2 (Z.eqb_neq _ _)) by lia.
Qed.

Lemma duration_roundtrip_witness :
  format_duration 5400000000001 = str "1h30m0.000000001s" /\ parse_duration (format_duration 5400000000001) = Ok 5400000000001.
Proof. split; [vm_compute; reflexivity|]. apply (duration_roundtrip 5400000000001). vm_compute. split; [reflexivity|discriminate]. Defined.

(** ** Parsed durations *)

Lemma span_spec p l : forall a b, span p l = (a, b) -> l = a ++ b /\ (forall x, head b = Some x -> p x = false).
Proof.
  induction l as [|y l IH]; intros a b H; cbn in H; [by simplify_eq|].
  destruct (p y) eqn:E.
  - destruct (span p l) as [c d]. simplify_eq. destruct (IH _ _ eq_refl) as [-> Hd]. by split.
  - simplify_eq. split; [done|]. by intros x [= <-].
Qed.

(** A round takes at least the first byte of a unit, so that the length of the
    text is enough fuel. *)
Lemma duration_loop_enough fuel : forall fuel' total l,
  (length l <= fuel)%nat -> (length l <= fuel')%nat -> duration_loop fuel total l = duration_loop fuel' total l.
Proof.
  induction fuel as [|fuel IH]; intros fuel' total l H1 H2.
  - destruct l; [by destruct fuel'|cbn in H1; lia].
  - destruct l as [|b l]; [by destruct fuel'|]. destruct fuel' as [|fuel']; [cbn in H2; lia|].
    cbn [duration_loop]. destruct (span in_number (b :: l)) as [number rest] eqn:S1. case_bool_decide; [done|].
    destruct (span (fun b => negb (in_number b)) rest) as [u rest2] eqn:S2.
    destruct (span_spec _ _ _ _ S1) as [E1 Hh]. destruct (span_spec _ _ _ _ S2) as [E2 Hh2].
    assert (length rest2 <= length l)%nat as Hl.
    { assert (u <> []) as Hu.
      { intros ->. cbn in E2. subst rest2. destruct rest as [|x rest]; [done|]. specialize (Hh x eq_refl). specialize (Hh2 x eq_refl).
        by rewrite Hh in Hh2. }
      apply (f_equal length) in E1. rewrite E2, !length_app in E1. cbn in E1. destruct u; [done|]. cbn in E1. lia. }
    destruct (ok_or (unit_multiplier u) _) as [m|]; [|done]. rewrite !bind_Ok.
    destruct (parse_duration_number number m) as [seg|]; [|done]. rewrite !bind_Ok.
    destruct (ok_or _ _) as [t|]; [|done]. rewrite !bind_Ok. apply IH; cbn in *; lia.
Qed.

Lemma fraction_digits_nonneg l : forall numerator scale n s,
  forallb is_ascii_digit l = true -> 0 <= numerator -> 0 < scale ->
  fraction_digits numerator scale l = Ok (n, s) -> 0 <= n /\ 0 < s.
Proof.
  induction l as [|b l IH]; intros numerator scale n s Hl Hn Hs H; cbn [fraction_digits] in H; [by simplify_eq|].
  cbn in Hl. apply andb_true_iff in Hl as [Hb Hl]. unfold is_ascii_digit, byte_in in Hb.
  apply andb_true_iff in Hb as [H1%Z.leb_le H2%Z.leb_le].
  apply bind_inv in H as (s1 & E1 & H). apply bind_inv in H as (n1 & E2 & H). apply ok_or_inv in E1, E2.
  unfold checked_mul, checked_add in *. destruct (scale * 10 <? _); simplify_eq.
  destruct (numerator * 10 <? _); [|done]. cbn in E2. destruct (_ <? _); simplify_eq. eapply IH; [done| | |done]; lia.
Qed.

Lemma parse_digits_nonneg base bound l : forall acc v,
  0 <= acc -> 0 <= base -> parse_digits base bound acc l = Some v -> 0 <= v.
Proof.
  induction l as [|b l IH]; intros acc v Ha Hb H; cbn in H; [by simplify_eq|].
  destruct (digit_value base b) as [d|] eqn:E; [|done]. cbn in H. destruct (_ <? bound); [|done].
  apply (IH (base * acc + d) v); [|done|done]. enough (0 <= d) by nia.
  unfold digit_value in E. cbv zeta in E. pose proof (Z_of_byte_range b).
  repeat (match type of E with context [if ?c then _ else _] => destruct c eqn:? end); simplify_eq; bool_prop; lia.
Qed.

Lemma parse_unsigned_nonneg w l v : parse_unsigned w l = Some v -> 0 <= v.
Proof.
  unfold parse_unsigned, parse_number. destruct l as [|b l]; [done|]. case_bool_decide.
  - destruct l; [done|]. by apply parse_digits_nonneg.
  - by apply parse_digits_nonneg.
Qed.

Lemma forallb_take {A} (p : A -> bool) n : forall l, forallb p l = true -> forallb p (take n l) = true.
Proof.
  induction n as [|n IH]; intros [|x l] H; try done. cbn in *. apply andb_true_iff in H as [-> H]. by apply IH.
Qed.

Lemma parse_duration_number_nonneg number multiplier v :
  0 <= multiplier -> parse_duration_number number multiplier = Ok v -> 0 <= v.
Proof.
  intros Hm H. unfold parse_duration_number in H. cbv zeta in H.
  destruct (match split_once x2e number with Some (_, _) => _ | None => _ end) as [integer fraction].
  destruct (bool_decide _ && _); [done|]. destruct (forallb is_ascii_digit integer); [|done]. cbn [negb orb] in H.
  destruct (forallb is_ascii_digit (default [] fraction)) eqn:Ef; [|done]. cbn [negb] in H.
  apply bind_inv in H as (i & Hi & H). apply bind_inv in H as (w & Hw & H). apply ok_or_inv in Hw.
  assert (0 <= i) as H0.
  { case_bool_decide; [by simplify_eq|]. apply ok_or_inv in Hi. by eapply parse_unsigned_nonneg. }
  unfold checked_mul in Hw. destruct (i * multiplier <? _); simplify_eq.
  destruct fraction as [[|d ds]|]; [by simplify_eq; nia| |by simplify_eq; nia].
  apply bind_inv in H as ([n s] & Hf & H). apply bind_inv in H as (p & Hp & H). apply ok_or_inv in Hp, H.
  apply fraction_digits_nonneg in Hf as [Hn Hs]; [|by apply forallb_take|lia|lia].
  unfold checked_mul, checked_add in *. destruct (n * multiplier <? _); simplify_eq. destruct (_ <? _); simplify_eq.
  assert (0 <= n * multiplier / s) by (apply Z.div_pos; nia). nia.
Qed.

Lemma duration_loop_range fuel : forall total l v,
  0 <= total <= MAX_GO_DURATION_NANOS -> duration_loop fuel total l = Ok v -> 0 <= v <= MAX_GO_DURATION_NANOS.
Proof.
  induction fuel as [|fuel IH]; intros total l v Ht H; [destruct l; cbn in H; by simplify_eq|].
  destruct l as [|b l]; cbn [duration_loop] in H; [by simplify_eq|].
  destruct (span in_number (b :: l)) as [number rest]. case_bool_decide; [done|].
  destruct (span _ rest) as [u rest2]. apply bind_inv in H as (m & Hm & H). apply bind_inv in H as (seg & Hs & H).
  apply bind_inv in H as (t & Htt & H). apply ok_or_inv in Hm, Htt.
  assert (0 <= seg) as Hseg.
  { eapply parse_duration_number_nonneg; [|exact Hs]. unfold unit_multiplier in Hm. repeat case_match; simplify_eq; lia. }
  unfold checked_add in Htt. destruct (total + seg <? _); [|done]. cbn in Htt.
  destruct (Z.leb_spec (total + seg) MAX_GO_DURATION_NANOS); simplify_eq. eapply IH; [|exact H]. lia.
Qed.

Lemma parse_duration_range l v : parse_duration l = Ok v -> 0 < v <= MAX_GO_DURATION_NANOS.
Proof.
  unfold parse_duration. case_bool_decide; [done|]. intros H0. apply bind_inv in H0 as (t & Ht & H0).
  apply duration_loop_range in Ht; [|by vm_compute]. destruct (Z.eqb_spec t 0); simplify_eq. lia.
Qed.

(** ** Configurations in order *)

Record config_ok (c : Config) : Prop := {
  ok_cluster : valid_simple_name (cf_cluster c) = true;
  ok_monitors : zlen (cf_monitors c) <= MAX_MONITORS
    /\ Forall (fun m => m <> [] /\ zlen m <= MAX_MONITOR_BYTES) (cf_monitors c);
  ok_entity : cf_entity c <> [] /\ zlen (cf_entity c) <= MAX_ENTITY_BYTES;
  ok_fsid : from_option (fun f => valid_fsid f = true) True (cf_cluster_fsid c);
  ok_key : from_option (fun k => k <> [] /\ zlen k <= MAX_KEY_BYTES) True (cf_key c);
  ok_keyring : from_option (fun k => k <> [] /\ has_breaks k = false) True (cf_keyring c);
  ok_options : zlen (cf_options c) <= MAX_CONFIG_OPTIONS;
  ok_dial : 0 < cf_dial_timeout c <= MAX_GO_DURATION_NANOS;
  ok_handshake : 0 < cf_handshake_timeout c <= MAX_GO_DURATION_NANOS;
  ok_operation : 0 < cf_operation_timeout c <= MAX_GO_DURATION_NANOS
}.

Lemma config_ok_default : config_ok Config_default.
Proof. split; try done; vm_compute; repeat constructor; discriminate. Qed.

Lemma SecretKey_new_spec v k : SecretKey_new v = Ok k -> k <> [] /\ zlen k <= MAX_KEY_BYTES.
Proof. unfold SecretKey_new. intros H. split_if. bool_prop. by apply Ok_inj in H as <-. Qed.

Lemma existsb_false {A} (p : A -> bool) l : existsb p l = false -> Forall (fun x => p x = false) l.
Proof. induction l as [|x l IH]; cbn; [constructor|]. intros [? ?]%orb_false_iff. constructor; auto. Qed.

Lemma parse_monitor_seeds_spec v ms :
  parse_monitor_seeds v = Ok ms -> zlen ms <= MAX_MONITORS /\ Forall (fun m => m <> [] /\ zlen m <= MAX_MONITOR_BYTES) ms.
Proof.
  unfold parse_monitor_seeds. cbv zeta. set (l := filter _ _). intros H. split_if. bool_prop. apply Ok_inj in H as <-.
  split; [done|]. apply Forall_forall. intros m Hm. split; [apply list_elem_of_filter in Hm; tauto|].
  apply Z.ltb_ge. by eapply (proj1 (Forall_forall _ _) (existsb_false _ _ H1)).
Qed.

(** Inserting follows the path of a lookup. *)
Lemma btree_insert_replaces {V} k (v : V) l :
  length (btree_insert bytes_compare k v l)
  = (if bool_decide (is_Some (btree_get bytes_compare k l)) then length l else S (length l)).
Proof.
  induction l as [|[k' v'] l IH]; [done|]. cbn [btree_insert btree_get].
  destruct (bytes_compare k k'); [done..|]. cbn [length]. rewrite IH. by case_bool_decide.
Qed.

Section Reachable.
  Context {base64 : Base64Engine} (files : list byte -> option (list byte)).

Lemma load_configured_keyring_ok c c' :
  config_ok c -> load_configured_keyring files c = Ok c' -> config_ok c'.
Proof.
  intros [] H. unfold load_configured_keyring, load_keyring in H. apply bind_inv in H as (k & _ & H). apply bind_inv in H as (key & Hk & H).
  apply bind_inv in Hk as (data & _ & Hk). apply bind_inv in Hk as (cr & _ & Hk). apply bind_inv in Hk as (e & _ & Hk).
  apply Ok_inj in H as <-. apply SecretKey_new_spec in Hk. by split.
Qed.

Lemma valid_client_entity_nonempty e : valid_client_entity e = true -> e <> [].
Proof. by intros H ->. Qed.

Lemma with_option_ok c name value load c' :
  config_ok c -> with_option_internal files c name value load = Ok c' -> config_ok c'.
Proof.
  intros Hc H. pose proof Hc as []. unfold with_option_internal in H. cbv zeta in H.
  assert (config_ok (set_keyring (Some (trim value)) c) \/ trim value = [] \/ has_breaks (trim value) = true) as Hk.
  { destruct (decide (trim value = [])); [auto|]. destruct (has_breaks (trim value)) eqn:?; [auto|].
    left. by split. }
  split_if; bool_prop; ok_inv; subst.
  all: repeat match goal with
    | H : SecretKey_new _ = Ok _ |- _ => apply SecretKey_new_spec in H
    | H : parse_monitor_seeds _ = Ok _ |- _ => apply parse_monitor_seeds_spec in H
    | H : parse_duration _ = Ok _ |- _ => apply parse_duration_range in H
    | H : load_configured_keyring _ _ = Ok _ |- config_ok _ => eapply load_configured_keyring_ok, H; destruct Hk as [|[]]; [done|congruence..]
    | H : valid_client_entity _ = true |- _ => pose proof (valid_client_entity_nonempty _ H); clear H
    end.
  all: try by split.
  split; try done.
  cbn [cf_options set_options]. unfold zlen in *. rewrite btree_insert_replaces.
  case_bool_decide; [done|]. cbn [negb andb] in *. bool_prop. lia.
Qed.

Lemma apply_options_ok names section c c' : config_ok c -> apply_options files names section c = Ok c' -> config_ok c'.
Proof.
  revert c. induction names as [|name names IH]; intros c Hc H; cbn in H; [by apply Ok_inj in H as <-|].
  apply bind_inv in H as (c1 & H1 & H). apply (IH c1); [|done].
  destruct (btree_get _ _ _); [by eapply with_option_ok|by apply Ok_inj in H1 as <-].
Qed.

Lemma apply_section_ok section c c' : config_ok c -> apply_section files section c = Ok c' -> config_ok c'.
Proof.
  intros Hc H. unfold apply_section in H. destruct section; [|by apply Ok_inj in H as <-].
  split_if. by eapply apply_options_ok.
Qed.

Lemma Config_parse_ok data c : Config_parse files data = Ok c -> config_ok c.
Proof.
  intros H. unfold Config_parse in H. apply bind_inv in H as (sections & _ & H). apply bind_inv in H as (c1 & H1 & H).
  eapply apply_section_ok, H. eapply apply_section_ok, H1. apply config_ok_default.
Qed.

Lemma Config_load_ok path c : Config_load files path = Ok c -> config_ok c.
Proof.
  intros H. unfold Config_load in H. apply bind_inv in H as (data & _ & H). apply bind_inv in H as (c1 & H1%Config_parse_ok & H).
  split_if; [by eapply load_configured_keyring_ok|by apply Ok_inj in H as <-].
Qed.

Lemma argument_option_ok name value n s s' :
  config_ok (ag_config s) -> argument_option files name value n s = Ok s' -> config_ok (ag_config s').
Proof.
  intros Hc H. unfold argument_option in H. destruct (if bool_decide _ then _ else _) as [name' value'] in H.
  apply bind_inv in H as (c & H1 & H). apply Ok_inj in H as <-.
  by eapply with_option_ok.
Qed.

Lemma argument_loop_ok arguments s s' :
  config_ok (ag_config s) -> argument_loop files arguments s = Ok s' -> config_ok (ag_config s').
Proof.
  remember (length arguments) as n eqn:En. revert arguments s En.
  induction n as [n IH] using lt_wf_ind. intros [|a l] s -> Hs H; cbn [argument_loop] in H; [by apply Ok_inj in H as <-|].
  case_bool_decide; [by apply Ok_inj in H as <-|].
  destruct (strip_prefix_bytes _ a) as [nv|]; [|by eapply (IH (length l)); [cbn; lia|..|exact H]].
  destruct (match split_once _ nv with Some _ => _ | None => _ end) as [name [value|]]; cbv zeta in H;
    (destruct (negb _); [by eapply (IH (length l)); [cbn; lia|..|exact H]|]); destruct (_ <? _); try done.
  - apply bind_inv in H as (s1 & H1%argument_option_ok & H); [|done]. by eapply (IH (length l)); [cbn; lia|..|exact H].
  - destruct l as [|v l]; [done|]. apply bind_inv in H as (s1 & H1%argument_option_ok & H); [|done].
    by eapply (IH (length l)); [cbn; lia|..|exact H].
Qed.

Lemma parse_args_ok c arguments r : config_ok c -> parse_args files c arguments = Ok r -> config_ok r.1.
Proof.
  intros Hc H. unfold parse_args in H. apply bind_inv in H as (s & H1%argument_loop_ok & H); [|done].
  apply bind_inv in H as (c1 & H2 & H). apply Ok_inj in H as <-.
  destruct (_ && _); [by eapply load_configured_keyring_ok|by apply Ok_inj in H2 as <-].
Qed.

Lemma env_options_ok prefix lookup options credential c r :
  config_ok c -> env_options files prefix lookup options credential c = Ok r -> config_ok r.1.
Proof.
  revert credential c. induction options as [|[suffix name] options IH]; intros credential c Hc H; cbn [env_options] in H;
    [by apply Ok_inj in H as <-|].
  destruct (lookup _); [|by eapply IH]. apply bind_inv in H as (c1 & H1%with_option_ok & H); [|done]. by eapply IH.
Qed.

Lemma parse_env_from_ok c prefix lookup c' : config_ok c -> parse_env_from files c prefix lookup = Ok c' -> config_ok c'.
Proof.
  intros Hc H. unfold parse_env_from in H. apply bind_inv in H as ([c1 credential] & H1%env_options_ok & H); [|done].
  split_if; [by eapply load_configured_keyring_ok|by apply Ok_inj in H as <-].
Qed.

Lemma with_monitors_ok c ms c' : config_ok c -> with_monitors c ms = Ok c' -> config_ok c'.
Proof.
  intros [] H. unfold with_monitors in H. split_if. bool_prop. apply Ok_inj in H as <-. split; try done. split; [done|].
  eapply Forall_impl; [by apply existsb_false|]. intros m Hm. cbn in Hm. by bool_prop.
Qed.

Lemma with_entity_ok c e c' : config_ok c -> with_entity c e = Ok c' -> config_ok c'.
Proof. intros [] H. unfold with_entity in H. split_if. bool_prop. apply Ok_inj in H as <-. by split. Qed.

Lemma with_cluster_fsid_ok c f c' : config_ok c -> with_cluster_fsid c f = Ok c' -> config_ok c'.
Proof. intros [] H. unfold with_cluster_fsid in H. split_if. bool_prop. apply Ok_inj in H as <-. by split. Qed.

(** Durations are nonnegative by type. *)
Lemma with_timeouts_ok c d h o c' :
  0 <= d -> 0 <= h -> 0 <= o -> config_ok c -> with_timeouts c d h o = Ok c' -> config_ok c'.
Proof.
  intros Hd Hh Ho [] H. unfold with_timeouts in H. split_if; cbn [existsb] in *; bool_prop; apply Ok_inj in H as <-; split; try done;
    cbn [set_timeouts cf_dial_timeout cf_handshake_timeout cf_operation_timeout]; unfold MAX_GO_DURATION_NANOS in *; lia.
Qed.

(** The configurations a program can hold: the default one, one read from
    text or a file, and what the overlays and builders make of them. *)
Inductive configured : Config -> Prop :=
| configured_default : configured Config_default
| configured_parse data c : Config_parse files data = Ok c -> configured c
| configured_load path c : Config_load files path = Ok c -> configured c
| configured_option c name value c' : configured c -> with_option files c name value = Ok c' -> configured c'
| configured_args c arguments c' remainder :
    configured c -> parse_args files c arguments = Ok (c', remainder) -> configured c'
| configured_env c prefix lookup c' : configured c -> parse_env_from files c prefix lookup = Ok c' -> configured c'
| configured_monitors c monitors c' : configured c -> with_monitors c monitors = Ok c' -> configured c'
| configured_entity c entity c' : configured c -> with_entity c entity = Ok c' -> configured c'
| configured_fsid c fsid c' : configured c -> with_cluster_fsid c fsid = Ok c' -> configured c'
| configured_key c value key : configured c -> SecretKey_new value = Ok key -> configured (set_key (Some key) c)
| configured_mode c mode : configured c -> configured (set_security_mode mode c)
| configured_timeouts c d h o c' :
    configured c -> 0 <= d -> 0 <= h -> 0 <= o -> with_timeouts c d h o = Ok c' -> configured c'.

(** C28. Every configuration a program can hold is in order: the cluster name
    is a simple name, there are at most 64 monitors, none empty or longer
    than 1024 bytes, the entity is not empty and at most 256 bytes, the fsid
    is one, the key is not empty and at most 65,536 bytes, the keyring path is
    one line, at most 256 further options are kept and each timeout is
    positive and within the range of a signed 64-bit count of nanoseconds. *)
Theorem config_invariant c : configured c -> config_ok c.
Proof.
  induction 1 as [|data c H|path c H|c name value c' _ IH H|c arguments c' remainder _ IH H|c prefix lookup c' _ IH H
    |c monitors c' _ IH H|c entity c' _ IH H|c fsid c' _ IH H|c value key _ IH H|c mode _ IH|c d h o c' _ IH Hd Hh Ho H].
  - apply config_ok_default.
  - by apply Config_parse_ok in H.
  - by apply Config_load_ok in H.
  - by apply with_option_ok in H.
  - by apply parse_args_ok in H.
  - by apply parse_env_from_ok in H.
  - by apply with_monitors_ok in H.
  - by apply with_entity_ok in H.
  - by apply with_cluster_fsid_ok in H.
  - destruct IH. apply SecretKey_new_spec in H. by split.
  - destruct IH. by split.
  - by apply with_timeouts_ok in H.
Qed.
End Reachable.

(** ** Witness *)

(** The reference engine of [Cephx] and no files. *)
#[local] Instance config_engine : Base64Engine := reference_engine.

Definition no_files : list byte -> option (list byte) := fun _ => None.

Lemma config_invariant_witness :
  let c := set_monitors [str "10.0.0.1"; str "10.0.0.2:3300"] Config_default in
  with_option no_files Config_default (str "mon host") (str "10.0.0.1, 10.0.0.2:3300") = Ok c /\ config_ok c.
Proof.
  intros c. assert (with_option no_files Config_default (str "mon host") (str "10.0.0.1, 10.0.0.2:3300") = Ok c) as H
    by (vm_compute; reflexivity).
  split; [exact H|]. apply (config_invariant no_files). eapply configured_option; [apply configured_default|exact H].
Defined.

(** ** A comment after a key *)

(** A keyring whose key is followed by a semicolon at once. *)
Definition commented_key : Credential := kg_credential (sample_section "admin" x01).

Definition commented_keyring : list byte :=
  str "[client.admin]" ++ [x0a] ++ str "key = " ++ key_text commented_key ++ str ";note" ++ [x0a].

(** The keyring is accepted: the reader that validates it takes a semicolon
    anywhere for a comment.  The text handed on as the key still holds the
    comment, and is no key. *)
Lemma commented_keyring_key :
  let key := key_text commented_key ++ str ";note" in
  load_keyring (fun _ => Some commented_keyring) (str "keyring") (str "client.admin") = Ok key
  /\ parse_keyring commented_keyring (str "client.admin") MAX_KEYRING_BYTES = Ok commented_key
  /\ parse_key (str "client.admin") key MAX_KEY_BYTES = Err CX_InvalidCredential.
Proof. split; [|split]; vm_compute; reflexivity. Qed.
