(* ===== verification/OsdMessages.v ===== *)
(** * OSD requests and replies

    Models [src/src/osd/messages.rs]: the operations of a request, their
    38-byte descriptors, the request around them and the decoder of replies
    and redirects. *)

From S2P Require Import Prelude Codec Message Frame Address Control MapBase OsdMap Backoff.
From Stdlib Require Import ZArith Lia Strings.Byte.
From stdpp Require Import base option gmap sorting numbers list.

Open Scope Z_scope.

Definition MESSAGE_OSD_OP : Z := 42.
Definition MESSAGE_OSD_OP_REPLY : Z := 43.
Definition OP_READ : Z := 0x1201.
Definition OP_STAT : Z := 0x1202.
Definition OP_SPARSE_READ : Z := 0x1205.
Definition OP_NOTIFY : Z := 0x1206.
Definition OP_NOTIFY_ACK : Z := 0x1207.
Definition OP_ASSERT_VERSION : Z := 0x1208.
Definition OP_LIST_WATCHERS : Z := 0x1209.
Definition OP_OMAP_GET_VALUES : Z := 0x1212.
Definition OP_OMAP_GET_HEADER : Z := 0x1213.
Definition OP_OMAP_GET_VALUES_BY_KEYS : Z := 0x1214.
Definition OP_OMAP_COMPARE : Z := 0x1219.
Definition OP_COMPARE_EXTENT : Z := 0x1220.
Definition OP_CHECKSUM : Z := 0x121f.
Definition OP_GET_XATTR : Z := 0x1301.
Definition OP_GET_XATTRS : Z := 0x1302.
Definition OP_CALL : Z := 0x1401.
Definition OP_PGN_LIST : Z := 0x1505.
Definition OP_SCRUB_LIST : Z := 0x1507.
Definition OP_WRITE : Z := 0x2201.
Definition OP_WRITE_FULL : Z := 0x2202.
Definition OP_TRUNCATE : Z := 0x2203.
Definition OP_ZERO : Z := 0x2204.
Definition OP_DELETE : Z := 0x2205.
Definition OP_APPEND : Z := 0x2206.
Definition OP_ROLLBACK : Z := 0x220e.
Definition OP_COPY_FROM : Z := 0x221a.
Definition OP_SET_ALLOCATION_HINT : Z := 0x2223.
Definition OP_WRITE_SAME : Z := 0x2226.
Definition OP_COPY_FROM2 : Z := 0x222d.
Definition OP_WATCH : Z := 0x220f.
Definition OP_CREATE : Z := 0x220d.
Definition OP_OMAP_SET_VALUES : Z := 0x2215.
Definition OP_OMAP_SET_HEADER : Z := 0x2216.
Definition OP_OMAP_CLEAR : Z := 0x2217.
Definition OP_OMAP_REMOVE_KEYS : Z := 0x2218.
Definition OP_OMAP_REMOVE_RANGE : Z := 0x222c.
Definition OP_SET_XATTR : Z := 0x2301.
Definition OP_REMOVE_XATTR : Z := 0x2304.
Definition OP_FLAG_EXCLUSIVE : Z := 0x0001.
Definition OP_FLAG_FAIL_OK : Z := 0x0002.
Definition FLAG_ACK : Z := 0x0001.
Definition FLAG_ON_DISK : Z := 0x0004.
Definition FLAG_READ : Z := 0x0010.
Definition FLAG_PG_OP : Z := 0x0400.
Definition FLAG_WRITE : Z := 0x0020.
Definition FLAG_RETRY : Z := 0x0008.
Definition FLAG_IGNORE_CACHE : Z := 0x8000.
Definition FLAG_IGNORE_OVERLAY : Z := 0x20000.
Definition FLAG_REDIRECTED : Z := 0x200000.
Definition FLAG_RETURN_VECTOR : Z := 0x04000000.
Definition NO_SNAP : Z := u64_max - 1.
Definition OPERATION_DESCRIPTOR_SIZE : Z := 38.

Inductive Operation : Type :=
| Op_Read (offset length : Z)
| Op_SparseRead (offset length : Z)
| Op_Checksum (offset length chunk kind : Z) (seed : list byte)
| Op_Stat
| Op_AssertVersion (version : Z)
| Op_CompareExtent (offset : Z) (data : list byte)
| Op_GetXattr (name : list byte)
| Op_GetXattrs
| Op_SetXattr (name value : list byte)
| Op_RemoveXattr (name : list byte)
| Op_OmapGetValues (data : list byte)
| Op_OmapGetHeader
| Op_OmapGetValuesByKeys (data : list byte)
| Op_OmapCompare (data : list byte)
| Op_OmapSetValues (data : list byte)
| Op_OmapSetHeader (data : list byte)
| Op_OmapClear
| Op_OmapRemoveKeys (data : list byte)
| Op_OmapRemoveRange (data : list byte)
| Op_Call (class_length method_length input_length : Z) (data : list byte) (mutation : bool)
| Op_Watch (cookie version operation generation timeout : Z)
| Op_Notify (cookie : Z) (data : list byte)
| Op_NotifyAck (cookie : Z) (data : list byte)
| Op_ListWatchers
| Op_PGNList (cursor : list byte) (cursor_hash count start_epoch : Z)
| Op_ScrubList (data : list byte)
| Op_Create (exclusive : bool)
| Op_Write (offset : Z) (data : list byte)
| Op_WriteFull (data : list byte)
| Op_Append (data : list byte)
| Op_Rollback (snapshot : Z)
| Op_WriteSame (offset length : Z) (pattern : list byte)
| Op_AllocationHint (expected_object_size expected_write_size : Z)
| Op_CopyFrom (source_snapshot source_version : Z) (source : list byte)
| Op_CopyFrom2 (source_snapshot source_version : Z) (source : list byte)
| Op_Truncate (size : Z)
| Op_Zero (offset length : Z)
| Op_Remove
| Op_WithFlags (operation : Operation) (flags : Z).

Fixpoint Operation_code (op : Operation) : Z :=
  match op with
  | Op_Read _ _ => OP_READ
  | Op_SparseRead _ _ => OP_SPARSE_READ
  | Op_Checksum _ _ _ _ _ => OP_CHECKSUM
  | Op_Stat => OP_STAT
  | Op_Notify _ _ => OP_NOTIFY
  | Op_NotifyAck _ _ => OP_NOTIFY_ACK
  | Op_AssertVersion _ => OP_ASSERT_VERSION
  | Op_ListWatchers => OP_LIST_WATCHERS
  | Op_CompareExtent _ _ => OP_COMPARE_EXTENT
  | Op_GetXattr _ => OP_GET_XATTR
  | Op_GetXattrs => OP_GET_XATTRS
  | Op_SetXattr _ _ => OP_SET_XATTR
  | Op_RemoveXattr _ => OP_REMOVE_XATTR
  | Op_OmapGetValues _ => OP_OMAP_GET_VALUES
  | Op_OmapGetHeader => OP_OMAP_GET_HEADER
  | Op_OmapGetValuesByKeys _ => OP_OMAP_GET_VALUES_BY_KEYS
  | Op_OmapCompare _ => OP_OMAP_COMPARE
  | Op_OmapSetValues _ => OP_OMAP_SET_VALUES
  | Op_OmapSetHeader _ => OP_OMAP_SET_HEADER
  | Op_OmapClear => OP_OMAP_CLEAR
  | Op_OmapRemoveKeys _ => OP_OMAP_REMOVE_KEYS
  | Op_OmapRemoveRange _ => OP_OMAP_REMOVE_RANGE
  | Op_Call _ _ _ _ _ => OP_CALL
  | Op_Watch _ _ _ _ _ => OP_WATCH
  | Op_PGNList _ _ _ _ => OP_PGN_LIST
  | Op_ScrubList _ => OP_SCRUB_LIST
  | Op_Create _ => OP_CREATE
  | Op_Write _ _ => OP_WRITE
  | Op_WriteFull _ => OP_WRITE_FULL
  | Op_Append _ => OP_APPEND
  | Op_Rollback _ => OP_ROLLBACK
  | Op_WriteSame _ _ _ => OP_WRITE_SAME
  | Op_AllocationHint _ _ => OP_SET_ALLOCATION_HINT
  | Op_CopyFrom _ _ _ => OP_COPY_FROM
  | Op_CopyFrom2 _ _ _ => OP_COPY_FROM2
  | Op_Truncate _ => OP_TRUNCATE
  | Op_Zero _ _ => OP_ZERO
  | Op_Remove => OP_DELETE
  | Op_WithFlags op _ => Operation_code op
  end.

Fixpoint Operation_is_mutation (op : Operation) : bool :=
  match op with
  | Op_WithFlags op _ => Operation_is_mutation op
  | Op_Call _ _ _ _ mutation => mutation
  | _ => negb (Z.land (Operation_code op) 0x2000 =? 0)
  end.

Fixpoint Operation_route_hash (op : Operation) : option Z :=
  match op with
  | Op_PGNList _ cursor_hash _ _ => Some cursor_hash
  | Op_WithFlags op _ => Operation_route_hash op
  | _ => None
  end.

Fixpoint Operation_append_data (op : Operation) (output : list byte) : list byte :=
  match op with
  | Op_Write _ data | Op_WriteFull data | Op_Append data | Op_Checksum _ _ _ _ data
  | Op_WriteSame _ _ data | Op_CopyFrom _ _ data | Op_CopyFrom2 _ _ data
  | Op_CompareExtent _ data | Op_GetXattr data | Op_RemoveXattr data
  | Op_OmapGetValues data | Op_OmapGetValuesByKeys data | Op_OmapCompare data
  | Op_OmapSetValues data | Op_OmapSetHeader data | Op_OmapRemoveKeys data
  | Op_OmapRemoveRange data | Op_Call _ _ _ data _ | Op_Notify _ data
  | Op_NotifyAck _ data | Op_PGNList data _ _ _ | Op_ScrubList data => output ++ data
  | Op_SetXattr name value => (output ++ name) ++ value
  | Op_WithFlags op _ => Operation_append_data op output
  | _ => output
  end.

Fixpoint Operation_data_len (op : Operation) : Z :=
  match op with
  | Op_SetXattr name value => Z.min (zlen name + zlen value) u64_max
  | Op_WithFlags op _ => Operation_data_len op
  | Op_Write _ data | Op_WriteFull data | Op_Append data | Op_Checksum _ _ _ _ data
  | Op_WriteSame _ _ data | Op_CopyFrom _ _ data | Op_CopyFrom2 _ _ data
  | Op_CompareExtent _ data | Op_GetXattr data | Op_RemoveXattr data
  | Op_OmapGetValues data | Op_OmapGetValuesByKeys data | Op_OmapCompare data
  | Op_OmapSetValues data | Op_OmapSetHeader data | Op_OmapRemoveKeys data
  | Op_OmapRemoveRange data | Op_Call _ _ _ data _ | Op_Notify _ data
  | Op_NotifyAck _ data | Op_PGNList data _ _ _ | Op_ScrubList data => zlen data
  | _ => 0
  end.

Fixpoint Operation_flags (op : Operation) : Z :=
  match op with
  | Op_Create true => OP_FLAG_EXCLUSIVE
  | Op_AllocationHint _ _ => OP_FLAG_FAIL_OK
  | Op_WithFlags op flags => Z.lor (Operation_flags op) flags
  | _ => 0
  end.

Record Request : Type := mkRequest {
  rq_map_epoch : Z;
  rq_pg : PG;
  rq_shard : Z;
  rq_sharded : bool;
  rq_object_hash : Z;
  rq_pool_id : Z;
  rq_object : list byte;
  rq_locator : list byte;
  rq_namespace : list byte;
  rq_snapshot : Z;
  rq_snapshot_sequence : Z;
  rq_write_snapshots : list Z;
  rq_transaction_id : Z;
  rq_client_global_id : Z;
  rq_client_incarnation : Z;
  rq_retry : Z;
  rq_flags : Z;
  rq_features : Z;
  rq_operations : list Operation
}.

Record OperationResult : Type := mkOperationResult {
  or_operation : Z;
  or_code : Z;
  or_data : list byte
}.

Record Redirect : Type := mkRedirect {
  rd_pool : Z;
  rd_locator : list byte;
  rd_namespace : list byte;
  rd_object : list byte
}.

Record Reply : Type := mkReply {
  rp_object : list byte;
  rp_pg : PG;
  rp_flags : Z;
  rp_result : Z;
  rp_map_epoch : Z;
  rp_retry : Z;
  rp_version : Z;
  rp_redirect : option Redirect;
  rp_operations : list OperationResult
}.

Inductive OsdMessageError : Type :=
| OE_Wire (e : WireError)
| OE_Malformed
| OE_UnsupportedVersion.

#[export] Instance OsdMessageError_eq_dec : EqDecision OsdMessageError.
Proof. solve_decision. Defined.

(** ** Encoding *)

(** [u32::try_from(len).unwrap_or(u32::MAX)]. *)
Definition u32_or_max (len : Z) : Z := default u32_max (try_u 32 len).

(** [encoder.raw(&[0; n])]. *)
Definition Encoder_zeros (e : Encoder) (n : nat) : Encoder := Encoder_raw e (replicate n x00).

Definition encode_pg (e : Encoder) (pg : PG) : Encoder :=
  let e := Encoder_u8 e 1 in
  let e := Encoder_u64 e (pg_pool pg) in
  let e := Encoder_u32 e (pg_seed pg) in
  Encoder_i32 e (pg_preferred pg).

Definition encode_locator (e : Encoder) (pool : Z) (locator namespace : list byte) : Encoder :=
  Encoder_versioned e 6 3 (fun e =>
    let e := Encoder_i64 e pool in
    let e := Encoder_i32 e (-1) in
    let e := Encoder_bytes e locator in
    let e := Encoder_bytes e namespace in
    Encoder_i64 e (-1)).

(** The three words most descriptors consist of. *)
Definition encode_extent (e : Encoder) (offset length : Z) : Encoder :=
  Encoder_zeros (Encoder_u64 (Encoder_u64 e offset) length) 12.

(** [None] where the source returns [false], having written nothing. *)
Definition encode_special_operation (e : Encoder) (op : Operation) : option Encoder :=
  match op with
  | Op_SparseRead offset length =>
      Some (Encoder_u32 (Encoder_u64 (Encoder_u64 (Encoder_u64 e offset) length) 0) 0)
  | Op_Checksum offset length chunk kind _ =>
      Some (Encoder_zeros (Encoder_u8 (Encoder_u32 (Encoder_u64 (Encoder_u64 e offset) length) chunk)
                             kind) 7)
  | Op_Rollback snapshot => Some (Encoder_zeros (Encoder_u64 e snapshot) 20)
  | Op_WriteSame offset length pattern =>
      Some (Encoder_u32 (Encoder_u64 (Encoder_u64 (Encoder_u64 e offset) length) (zlen pattern)) 0)
  | Op_AllocationHint object_size write_size =>
      Some (Encoder_zeros (Encoder_u32 (Encoder_u64 (Encoder_u64 e object_size) write_size) 0) 8)
  | Op_CopyFrom snapshot version _ | Op_CopyFrom2 snapshot version _ =>
      Some (Encoder_zeros (Encoder_u32 (Encoder_u8 (Encoder_u64 (Encoder_u64 e snapshot) version) 0) 0) 7)
  | _ => None
  end.

Definition encode_auxiliary_operation (e : Encoder) (op : Operation) : option Encoder :=
  match op with
  | Op_GetXattr name | Op_RemoveXattr name =>
      Some (Encoder_zeros (Encoder_u32 (Encoder_u32 e (u32_or_max (zlen name))) 0) 20)
  | Op_GetXattrs => Some (Encoder_zeros e 28)
  | Op_SetXattr name value =>
      Some (Encoder_zeros (Encoder_u32 (Encoder_u32 e (u32_or_max (zlen name)))
                             (u32_or_max (zlen value))) 20)
  | Op_Call class_length method_length input_length _ _ =>
      Some (Encoder_zeros (Encoder_u32 (Encoder_u8 (Encoder_u8 (Encoder_u8 e class_length)
                             method_length) 0) input_length) 21)
  | _ => None
  end.

(** The [match] of [encode_operation]; [None] where it is [unreachable!]. *)
Definition encode_plain_operation (e : Encoder) (op : Operation) : option Encoder :=
  match op with
  | Op_AssertVersion version => Some (encode_extent e 0 version)
  | Op_Read offset length | Op_Zero offset length => Some (encode_extent e offset length)
  | Op_Write offset data | Op_CompareExtent offset data => Some (encode_extent e offset (zlen data))
  | Op_WriteFull data | Op_Append data | Op_OmapGetValues data | Op_OmapGetValuesByKeys data
  | Op_OmapCompare data | Op_OmapSetValues data | Op_OmapSetHeader data
  | Op_OmapRemoveKeys data | Op_OmapRemoveRange data => Some (encode_extent e 0 (zlen data))
  | Op_Truncate size => Some (encode_extent e size 0)
  | Op_Watch cookie version operation generation timeout =>
      Some (Encoder_zeros (Encoder_u32 (Encoder_u32 (Encoder_u8 (Encoder_u64 (Encoder_u64 e cookie)
                             version) operation) generation) timeout) 3)
  | Op_Notify cookie _ | Op_NotifyAck cookie _ => Some (Encoder_zeros (Encoder_u64 e cookie) 20)
  | Op_PGNList _ _ count start_epoch =>
      Some (Encoder_zeros (Encoder_u32 (Encoder_u64 e count) start_epoch) 16)
  | Op_ScrubList _ | Op_Stat | Op_ListWatchers | Op_OmapGetHeader | Op_OmapClear | Op_Create _
  | Op_Remove => Some (encode_extent e 0 0)
  | _ => None
  end.

Definition unwrapped_operation (op : Operation) : Operation :=
  match op with
  | Op_WithFlags op _ => op
  | op => op
  end.

(** [None] is the panic of [unreachable!]. *)
Definition encode_operation (e : Encoder) (op : Operation) : option Encoder :=
  let e := Encoder_u16 e (Operation_code op) in
  let e := Encoder_u32 e (Operation_flags op) in
  let op := unwrapped_operation op in
  match encode_special_operation e op with
  | Some e => Some (Encoder_u32 e (u32_or_max (Operation_data_len op)))
  | None =>
      match encode_auxiliary_operation e op with
      | Some e => Some (Encoder_u32 e (u32_or_max (Operation_data_len op)))
      | None =>
          e ← encode_plain_operation e op;
          Some (Encoder_u32 e (u32_or_max (Operation_data_len op)))
      end
  end.

(** [snapshots.iter().enumerate().all(..)]; [previous] is the element before. *)
Fixpoint descending (sequence : Z) (previous : option Z) (snapshots : list Z) : bool :=
  match snapshots with
  | [] => true
  | s :: snapshots =>
      (s <=? sequence) && match previous with None => true | Some p => s <? p end
      && descending sequence (Some s) snapshots
  end.

Definition valid_snapshot_context (sequence : Z) (snapshots : list Z) : bool :=
  descending sequence None snapshots.

(** What [encode_request] may end in besides a message. *)
Inductive RequestFault : Type :=
| Returned (e : OsdMessageError)
| Unreachable.

(** The sum of the data lengths, checked at the width of [usize]. *)
Definition total_data_len (ops : list Operation) : option Z :=
  fold_left (fun total op => total ← total; checked_add 64 total (Operation_data_len op)) ops (Some 0).

(** The loop that writes the descriptors. *)
Definition encode_operations (e : Encoder) (ops : list Operation) : option Encoder :=
  fold_left (fun e op => e ← e; encode_operation e op) ops (Some e).

(** What precedes the descriptors. *)
Definition encode_request_head (e : Encoder) (r : Request) (count : Z) : Encoder :=
  let mutation := existsb Operation_is_mutation (rq_operations r) in
  let e := Encoder_versioned e 1 1 (fun e =>
             Encoder_i8 (encode_pg e (rq_pg r)) (if rq_sharded r then rq_shard r else -1)) in
  let e := Encoder_u32 e (rq_object_hash r) in
  let e := Encoder_u32 e (rq_map_epoch r) in
  let e := Encoder_u32 e (Z.lor (if mutation then Z.lor FLAG_WRITE FLAG_ON_DISK else FLAG_READ)
                            (rq_flags r)) in
  let e := Encoder_versioned e 2 2 (fun e =>
             Encoder_i32 (Encoder_u64 (Encoder_u64 (Encoder_u8 e 8) (rq_client_global_id r))
                            (rq_transaction_id r)) (rq_client_incarnation r)) in
  let e := Encoder_zeros e 24 in
  let e := Encoder_i32 e (rq_client_incarnation r) in
  let e := Encoder_zeros e 8 in
  let e := encode_locator e (rq_pool_id r) (rq_locator r) (rq_namespace r) in
  let e := Encoder_bytes e (rq_object r) in
  Encoder_u16 e count.

(** What follows the descriptors. *)
Definition encode_request_tail (e : Encoder) (r : Request) (count : Z) : Encoder :=
  let e := Encoder_u64 e (rq_snapshot r) in
  let e := Encoder_u64 e (rq_snapshot_sequence r) in
  let e := Encoder_u32 e count in
  let e := fold_left Encoder_u64 (rq_write_snapshots r) e in
  let e := Encoder_i32 e (rq_retry r) in
  Encoder_u64 e (rq_features r).

Definition encode_request (r : Request) (limits : OsdLimits) : result RequestFault Message :=
  let ops := rq_operations r in
  let limit_exceeded := Returned (OE_Wire LimitExceeded) in
  if (ol_max_bytes limits =? 0) || (ol_max_operations limits =? 0) || (rq_pool_id r <? 0)
     || (zlen ops =? 0) || (ol_max_operations limits <? zlen ops) || (65535 <? zlen ops)
     || (u32_max <? zlen (rq_write_snapshots r))
  then Err limit_exceeded
  else if negb (valid_snapshot_context (rq_snapshot_sequence r) (rq_write_snapshots r))
  then Err (Returned (OE_Wire Malformed))
  else
    data_length ← ok_or (total_data_len ops) limit_exceeded;
    count ← ok_or (try_u 16 (zlen ops)) limit_exceeded;
    e ← ok_or (encode_operations (encode_request_head (Encoder_new (ol_max_bytes limits)) r count) ops)
          Unreachable;
    snapshots ← ok_or (try_u 32 (zlen (rq_write_snapshots r))) limit_exceeded;
    front ← map_err (Returned ∘ OE_Wire) (Encoder_finish (encode_request_tail e r snapshots));
    if ol_max_bytes limits <? Z.min (zlen front + data_length) u64_max then Err limit_exceeded
    else
      let data := fold_left (fun output op => Operation_append_data op output) ops [] in
      front_length ← ok_or (try_u 32 (zlen front)) limit_exceeded;
      data_length ← ok_or (try_u 32 (zlen data)) limit_exceeded;
      Ok (mkMessage (mkMessageHeader 0 (rq_transaction_id r) MESSAGE_OSD_OP 0 8 0 0 0 0 3 0)
            (mkMessageLengths front_length 0 data_length) front [] data).

(** ** Decoding *)

Abbreviation OsM := (DM OsdMessageError).

(** [decoder.finish()?]. *)
Definition reply_finished : OsM unit := finish_with OE_Wire.

(** [if decoder.remaining() != 0 { return Err(Error::Malformed) }]. *)
Definition reply_exhausted : OsM unit :=
  left_ ← remaining;
  throw_if (negb (left_ =? 0)) OE_Malformed.

Definition decode_pg : OsM PG :=
  first ← rd Decoder_u8;
  _ ← throw_if (negb (first =? 1)) OE_UnsupportedVersion;
  pool ← rd Decoder_u64;
  seed ← rd Decoder_u32;
  preferred ← rd Decoder_i32;
  _ ← reply_finished;
  mret (mkPG pool seed preferred).

(** The locator inside a redirect: its pool, key and namespace. *)
Definition decode_redirect_locator (version : Z) : OsM (Z * list byte * list byte) :=
  _ ← throw_if (version <? 3) OE_UnsupportedVersion;
  pool ← rd Decoder_i64;
  _ ← rd Decoder_i32;
  key ← rd Decoder_bytes;
  namespace ← rd Decoder_bytes;
  _ ← (if 6 <=? version then _ ← rd Decoder_i64; mret tt else mret tt);
  _ ← reply_finished;
  _ ← reply_exhausted;
  mret (pool, key, namespace).

Definition decode_redirect : OsM Redirect :=
  outer ← rd (fun d => Decoder_versioned d 1);
  _ ← reply_finished;
  _ ← throw_if (negb (outer.1 =? 1)) OE_UnsupportedVersion;
  inside outer.2
    (inner ← rd (fun d => Decoder_versioned d 6);
     _ ← reply_finished;
     '(pool, key, namespace) ← inside inner.2 (decode_redirect_locator inner.1);
     object ← rd Decoder_bytes;
     legacy_length ← rd Decoder_u32;
     left_ ← remaining;
     _ ← throw_if (left_ <? legacy_length) OE_Malformed;
     _ ← rd (fun d => Decoder_raw d legacy_length);
     _ ← reply_finished;
     _ ← reply_exhausted;
     mret (mkRedirect pool key namespace object)).

(** A descriptor of the reply: the operation's code and the length of its data. *)
Definition decode_descriptor : OsM (Z * Z) :=
  operation ← rd Decoder_u16;
  _ ← rd (fun d => Decoder_raw d 32);
  length ← rd Decoder_u32;
  mret (operation, length).

(** The end of the front, after the version of the object; [finish] builds the
    reply from the redirect. *)
Definition decode_reply_end (version : Z) (finish : option Redirect -> Reply * list Z) : OsM (Reply * list Z) :=
  redirected ← (if 7 <=? version then rd Decoder_bool else mret false);
  redirect ← (if (redirected : bool) then r ← decode_redirect; mret (Some r) else mret None);
  _ ← (if 8 <=? version then _ ← rd (fun d => Decoder_raw d 24); mret tt else mret tt);
  _ ← reply_finished;
  _ ← reply_exhausted;
  mret (finish redirect).

(** The front of a reply of the given version: the reply without its data, and
    the lengths of the operations' data. *)
Definition decode_reply_front (version : Z) (limits : OsdLimits)
    : OsM (Reply * list Z) :=
  object ← rd Decoder_bytes;
  pg ← decode_pg;
  flags ← rd Decoder_i64;
  result ← rd Decoder_i32;
  _ ← rd (fun d => Decoder_raw d 12);
  map_epoch ← rd Decoder_u32;
  count ← rd Decoder_u32;
  _ ← reply_finished;
  left_ ← remaining;
  _ ← throw_if ((ol_max_operations limits <? count)
                || (left_ <? Z.min (count * OPERATION_DESCRIPTOR_SIZE) u64_max))
        (OE_Wire LimitExceeded);
  descriptors ← repeat_read (Z.to_nat count) decode_descriptor;
  retry ← rd Decoder_i32;
  codes ← repeat_read (Z.to_nat count) (rd Decoder_i32);
  _ ← rd (fun d => Decoder_raw d 12);
  object_version ← rd Decoder_u64;
  _ ← throw_if (version =? 6) OE_UnsupportedVersion;
  decode_reply_end version (fun redirect =>
    (mkReply object pg flags result map_epoch retry object_version redirect
       (zip_with (fun d code => mkOperationResult d.1 code []) descriptors codes),
     descriptors.*2)).

(** [data.get(offset..end)] for [offset <= end]. *)
Definition slice (l : list byte) (offset end_ : Z) : option (list byte) :=
  if zlen l <? end_ then None
  else Some (take (Z.to_nat (end_ - offset)) (drop (Z.to_nat offset) l)).

(** The loop that gives every operation its part of the message's data. *)
Fixpoint distribute (data : list byte) (offset : Z) (ops : list OperationResult) (lengths : list Z)
    : result OsdMessageError (list OperationResult * Z) :=
  match ops, lengths with
  | op :: ops, length :: lengths =>
      end_ ← ok_or (checked_add 64 offset length) (OE_Wire LimitExceeded);
      part ← ok_or (slice data offset end_) OE_Malformed;
      '(ops, end_) ← distribute data end_ ops lengths;
      Ok (mkOperationResult (or_operation op) (or_code op) part :: ops, end_)
  | _, _ => Ok (ops, offset)
  end.

Definition with_operations (r : Reply) (ops : list OperationResult) : Reply :=
  mkReply (rp_object r) (rp_pg r) (rp_flags r) (rp_result r) (rp_map_epoch r) (rp_retry r)
    (rp_version r) (rp_redirect r) ops.

Definition decode_reply (m : Message) (limits : OsdLimits) : result OsdMessageError Reply :=
  total ← ok_or (part ← checked_add 64 (zlen (front m)) (zlen (middle m));
                 checked_add 64 part (zlen (data m))) (OE_Wire LimitExceeded);
  if (ol_max_bytes limits =? 0) || (ol_max_operations limits =? 0)
     || negb (message_type (header m) =? MESSAGE_OSD_OP_REPLY)
     || (version (header m) <? 4) || (8 <? compat_version (header m))
     || (ol_max_bytes limits <? total)
  then Err OE_Malformed
  else
    '(r, lengths) ← fst <$> decode_reply_front (version (header m)) limits
                              (Decoder_new (front m) (ol_max_bytes limits));
    '(ops, offset) ← distribute (data m) 0 (rp_operations r) lengths;
    if negb (offset =? zlen (data m)) then Err OE_Malformed
    else Ok (with_operations r ops).

(** ** What an encoder that did not fail has written

    Once an encoder has failed it stays failed, so the bytes of a finished one
    are the concatenation of everything it was given. *)

Record appends (e e' : Encoder) (p : list byte) : Prop := {
  appends_limit : enc_limit e' = enc_limit e;
  appends_alive : enc_error e' = None -> enc_error e = None;
  appends_content : enc_error e' = None -> enc_bytes e' = enc_bytes e ++ p;
  appends_within : enc_error e' = None -> zlen (enc_bytes e) <= enc_limit e ->
                   zlen (enc_bytes e') <= enc_limit e'
}.

Lemma appends_refl e : appends e e [].
Proof. split; try done. intros _. by rewrite app_nil_r. Qed.

Lemma appends_trans e1 e2 e3 p q : appends e1 e2 p -> appends e2 e3 q -> appends e1 e3 (p ++ q).
Proof.
  intros [L1 A1 C1 W1] [L2 A2 C2 W2]. split; [congruence|auto|..].
  - intros H. rewrite C2, C1, app_assoc by auto. done.
  - intros H Hb. auto.
Qed.

Lemma appends_raw e p : appends e (Encoder_raw e p) p.
Proof.
  unfold Encoder_raw, Encoder_reserve, saturating_sub. destruct (enc_error e) eqn:E.
  { split; congruence. }
  destruct (Z.ltb_spec (Z.max 0 (enc_limit e - zlen (enc_bytes e))) (zlen p)); [by split|].
  split; cbn; try done. intros _ Hb. autorewrite with zlen. lia.
Qed.

Lemma appends_bytes e v : appends e (Encoder_bytes e v) (le_bytes 4 (zlen v) ++ v).
Proof.
  unfold Encoder_bytes, try_u. destruct (_ && _); [|by split].
  eapply appends_trans; apply appends_raw.
Qed.

(** What a new encoder that only appended finishes with. *)
Lemma finish_appends limit e' p bs :
  appends (Encoder_new limit) e' p -> 0 <= limit -> Encoder_finish e' = Ok bs ->
  bs = p /\ zlen p <= limit.
Proof.
  intros [L A C W] H0 H. unfold Encoder_finish in H. destruct (enc_error e') eqn:E; [done|]. simplify_eq.
  specialize (C eq_refl). specialize (W eq_refl H0). rewrite C, L in *. done.
Qed.

Lemma appends_eq e e' p q : appends e e' p -> p = q -> appends e e' q.
Proof. by intros H <-. Qed.

(** Collects what a chain of writes appends. *)
Ltac appending :=
  lazymatch goal with
  | |- appends ?e ?e _ => apply appends_refl
  | |- _ => eapply appends_trans; [|solve [apply appends_bytes | apply appends_raw | eauto]]; appending
  end.

Lemma appends_versioned e version compatible encode p :
  (forall limit, appends (Encoder_new limit) (encode (Encoder_new limit)) p) ->
  appends e (Encoder_versioned e version compatible encode) (versioned_image version compatible p).
Proof.
  intros Hp. unfold Encoder_versioned. specialize (Hp (Z.min (enc_limit e) u32_max)).
  unfold Encoder_finish. destruct (enc_error (encode _)) eqn:E; [by split|].
  rewrite (appends_content _ _ _ Hp E).
  cbn [Encoder_new enc_bytes app]. unfold try_u. destruct (_ && _); [|by split].
  eapply appends_eq; [appending|]. unfold versioned_image. by rewrite <- !app_assoc.
Qed.

(** ** Descriptors *)

(** What an operation adds to the data of its request. *)
Definition operation_data (op : Operation) : list byte := Operation_append_data op [].

(** Flags are wrapped around an operation at most once. *)
Definition flat (op : Operation) : Prop :=
  match op with
  | Op_WithFlags (Op_WithFlags _ _) _ => False
  | _ => True
  end.

#[export] Instance flat_dec op : Decision (flat op).
Proof. destruct op as [| | | | | | | | | | | | | | | | | | | | | | | | | | | | | | | | | | | | | |[] f]; first [by left | right; intros []]. Defined.

Lemma append_data_app op output : Operation_append_data op output = output ++ operation_data op.
Proof.
  unfold operation_data. revert output. induction op; intros output; cbn [Operation_append_data app];
    rewrite ?app_nil_r; solve [done | by rewrite <- app_assoc | apply IHop].
Qed.

Lemma data_len_operation_data op :
  zlen (operation_data op) <= u64_max -> Operation_data_len op = zlen (operation_data op).
Proof.
  unfold operation_data. induction op; cbn [Operation_append_data Operation_data_len app]; try done.
  autorewrite with zlen. lia.
Qed.

Lemma data_len_unwrapped op : Operation_data_len (unwrapped_operation op) = Operation_data_len op.
Proof. by destruct op. Qed.

(** A flat operation writes one descriptor: its code, its flags, 28 bytes of
    arguments and the length of its data. *)
Lemma encode_operation_appends op e :
  flat op ->
  exists e' arguments, encode_operation e op = Some e' /\ zlen arguments = 28
    /\ appends e e' (le_bytes 2 (Operation_code op) ++ le_bytes 4 (Operation_flags op)
                     ++ arguments ++ le_bytes 4 (u32_or_max (Operation_data_len op))).
Proof.
  intros Hf. unfold encode_operation. rewrite data_len_unwrapped.
  set (e1 := Encoder_u32 _ _).
  assert (appends e e1 (le_bytes 2 (Operation_code op) ++ le_bytes 4 (Operation_flags op))) as H1
    by (eapply appends_trans; apply appends_raw).
  assert (exists e2 arguments, zlen arguments = 28 /\ appends e1 e2 arguments
    /\ (encode_special_operation e1 (unwrapped_operation op) = Some e2
        \/ encode_special_operation e1 (unwrapped_operation op) = None
           /\ (encode_auxiliary_operation e1 (unwrapped_operation op) = Some e2
               \/ encode_auxiliary_operation e1 (unwrapped_operation op) = None
                  /\ encode_plain_operation e1 (unwrapped_operation op) = Some e2)))
    as (e2 & arguments & Hl & H2 & Hc).
  { clearbody e1. assert (forall op, match op with Op_WithFlags _ _ => False | _ => True end ->
      exists e2 arguments, zlen arguments = 28 /\ appends e1 e2 arguments
        /\ (encode_special_operation e1 op = Some e2
            \/ encode_special_operation e1 op = None
               /\ (encode_auxiliary_operation e1 op = Some e2
                   \/ encode_auxiliary_operation e1 op = None
                      /\ encode_plain_operation e1 op = Some e2))) as Hp.
    { clear. intros op Hop. destruct op; try done;
        (eexists; eexists; split_and!;
          [| |first [left; reflexivity | right; split; [reflexivity|left; reflexivity]
                    | right; split; [reflexivity|right; split; reflexivity]]];
          [|appending]; by autorewrite with zlen). }
    apply Hp. by destruct op as [| | | | | | | | | | | | | | | | | | | | | | | | | | | | | | | | | | | | | |[] f]. }
  exists (Encoder_u32 e2 (u32_or_max (Operation_data_len op))), arguments. split_and!; [|done|].
  - destruct Hc as [->|[-> [->|[-> ->]]]]; done.
  - rewrite app_assoc. eapply appends_trans; [done|]. eapply appends_trans; [done|]. apply appends_raw.
Qed.

(** What an OSD finds in the descriptor of an operation. *)
Record descriptor_of (op : Operation) (d : list byte) : Prop := {
  descriptor_size : zlen d = OPERATION_DESCRIPTOR_SIZE;
  descriptor_code : le_value (take 2 d) = Operation_code op;
  descriptor_flags : le_value (take 4 (drop 2 d)) = wrap 32 (Operation_flags op);
  descriptor_length : le_value (drop 34 d) = zlen (operation_data op)
}.

Lemma code_range op : in_u 16 (Operation_code op).
Proof. induction op; try done; by unfold in_u. Qed.

Lemma descriptor_image op arguments :
  zlen arguments = 28 -> zlen (operation_data op) < 2 ^ 32 ->
  descriptor_of op (le_bytes 2 (Operation_code op) ++ le_bytes 4 (Operation_flags op)
    ++ arguments ++ le_bytes 4 (u32_or_max (Operation_data_len op))).
Proof.
  intros Ha Hd. pose proof (zlen_nonneg (operation_data op)).
  rewrite data_len_operation_data by (unfold u64_max; lia). unfold u32_or_max, try_u.
  replace (_ && _) with true by lia. cbn [default]. unfold zlen in Ha. split.
  - autorewrite with zlen. unfold zlen at 1. by rewrite Ha.
  - rewrite take_app_length' by (by rewrite length_le_bytes). rewrite le_value_bytes.
    apply Z.mod_small, code_range.
  - rewrite drop_app_length', take_app_length' by (by rewrite length_le_bytes). by rewrite le_value_bytes.
  - rewrite !app_assoc, drop_app_length'
      by (rewrite !length_app, !length_le_bytes; lia).
    rewrite le_value_bytes. apply Z.mod_small. lia.
Qed.

Lemma encode_operations_None ops : fold_left (fun e op => e ← e; encode_operation e op) ops None = None.
Proof. by induction ops. Qed.

Lemma encode_operations_appends ops : forall e,
  Forall flat ops -> Forall (fun op => zlen (operation_data op) < 2 ^ 32) ops ->
  exists e' ds, encode_operations e ops = Some e' /\ Forall2 descriptor_of ops ds
    /\ appends e e' (concat ds).
Proof.
  unfold encode_operations. induction ops as [|op ops IH]; intros e Hf Hl.
  { exists e, []. split_and!; [done|done|apply appends_refl]. }
  apply Forall_cons in Hf as [Hf Hfs]. apply Forall_cons in Hl as [Hl Hls].
  destruct (encode_operation_appends op e Hf) as (e1 & arguments & E & Ha & H1).
  destruct (IH e1 Hfs Hls) as (e2 & ds & E2 & Hds & H2).
  exists e2, ((le_bytes 2 (Operation_code op) ++ le_bytes 4 (Operation_flags op)
    ++ arguments ++ le_bytes 4 (u32_or_max (Operation_data_len op))) :: ds).
  split_and!; [|by constructor; [apply descriptor_image|]|by eapply appends_trans].
  cbn [fold_left]. cbn. by rewrite E.
Qed.

(** A nested wrapper is the only operation that reaches [unreachable!]. *)
Lemma encode_operations_flat ops : forall e e',
  encode_operations e ops = Some e' -> Forall flat ops.
Proof.
  unfold encode_operations. induction ops as [|op ops IH]; intros e e' H; [done|].
  cbn [fold_left] in H. destruct (decide (flat op)) as [Hf|Hf].
  - destruct (encode_operation_appends op e Hf) as (e1 & ? & E & _). cbn in H. rewrite E in H. eauto.
  - destruct op; try done. destruct op; try done. cbn in H. by rewrite encode_operations_None in H.
Qed.

Lemma fold_append_data ops : forall output,
  fold_left (fun output op => Operation_append_data op output) ops output
  = output ++ concat (operation_data <$> ops).
Proof.
  induction ops as [|op ops IH]; intros output; cbn [fold_left fmap list_fmap concat];
    [by rewrite app_nil_r|].
  by rewrite IH, append_data_app, app_assoc.
Qed.

Lemma concat_bound {A} (f : A -> list byte) ops b :
  zlen (concat (f <$> ops)) < b -> Forall (fun op => zlen (f op) < b) ops.
Proof.
  induction ops as [|op ops IH]; intros H; constructor; cbn [fmap list_fmap concat] in H;
    autorewrite with zlen in H; pose proof (zlen_nonneg (f op));
    pose proof (zlen_nonneg (concat (f <$> ops))); [lia|apply IH; lia].
Qed.

Lemma total_data_len_concat ops total :
  zlen (concat (operation_data <$> ops)) < 2 ^ 64 -> total_data_len ops = Some total ->
  total = zlen (concat (operation_data <$> ops)).
Proof.
  intros Hb. pose proof (concat_bound _ _ _ Hb) as Hops. unfold total_data_len.
  assert (forall t0, fold_left (fun total op => total ← total; checked_add 64 total (Operation_data_len op))
    ops (Some t0) = Some total -> total = t0 + zlen (concat (operation_data <$> ops))) as H.
  { clear Hb. induction Hops as [|op ops Hop Hops IH]; intros t0 H; cbn [fold_left] in H;
      [simplify_eq; cbn [fmap list_fmap concat]; rewrite zlen_nil; lia|].
    cbn [fmap list_fmap concat]. autorewrite with zlen. cbn in H.
    rewrite data_len_operation_data in H by (unfold u64_max; lia). unfold checked_add in H at 2.
    destruct (_ <? _); [apply IH in H; lia|].
    assert (forall l, fold_left (fun total op => total ← total;
      checked_add 64 total (Operation_data_len op)) l None = None) as Hn by (by induction l).
    by rewrite Hn in H. }
  intros Ht. by rewrite (H 0 Ht).
Qed.

(** What precedes and what follows the descriptors. *)
Lemma encode_request_head_appends e r count : exists p, appends e (encode_request_head e r count) p.
Proof.
  unfold encode_request_head, encode_locator. cbv zeta. eexists.
  do 2 (eapply appends_trans; [|first [apply appends_bytes|apply appends_raw]]).
  eapply appends_trans; [|apply appends_versioned; intros limit; appending].
  do 3 (eapply appends_trans; [|apply appends_raw]).
  eapply appends_trans; [|apply appends_versioned; intros limit; appending].
  do 3 (eapply appends_trans; [|apply appends_raw]).
  apply appends_versioned; intros limit; unfold encode_pg; appending.
Qed.

Lemma fold_u64_appends l : forall e, exists p, appends e (fold_left Encoder_u64 l e) p.
Proof.
  induction l as [|v l IH]; intros e; [exists []; apply appends_refl|].
  destruct (IH (Encoder_u64 e v)) as [p Hp]. eexists. eapply appends_trans; [apply appends_raw|done].
Qed.

Lemma encode_request_tail_appends e r count : exists p, appends e (encode_request_tail e r count) p.
Proof.
  unfold encode_request_tail. cbv zeta.
  destruct (fold_u64_appends (rq_write_snapshots r)
    (Encoder_u32 (Encoder_u64 (Encoder_u64 e (rq_snapshot r)) (rq_snapshot_sequence r)) count)) as [p Hp].
  eexists. do 2 (eapply appends_trans; [|apply appends_raw]).
  eapply appends_trans; [|exact Hp]. do 2 (eapply appends_trans; [|apply appends_raw]). apply appends_raw.
Qed.

(** The shape of an encoded request. *)
Record request_message (r : Request) (limits : OsdLimits) (m : Message) : Prop := {
  request_front : exists head ds tail,
    front m = head ++ concat ds ++ tail /\ Forall2 descriptor_of (rq_operations r) ds;
  request_data : data m = concat (operation_data <$> rq_operations r);
  request_lengths : lengths m = mkMessageLengths (zlen (front m)) 0 (zlen (data m));
  request_bounded : zlen (front m) + zlen (data m) <= ol_max_bytes limits
}.

Lemma encode_request_Ok r limits m :
  encode_request r limits = Ok m -> request_message r limits m.
Proof.
  intros H. unfold encode_request in H. cbv zeta in H. split_if. ok_inv.
  destruct (_ <? Z.min _ _) eqn:Hb in H; [done|]. ok_inv.
  apply ok_or_inv in R, R1, R4, R5. apply try_u_inv in R4 as [-> Hf], R5 as [-> Hd].
  rewrite fold_append_data, app_nil_l in *. apply total_data_len_concat in R as ->;
    [|unfold in_u in Hd; lia].
  pose proof (encode_operations_flat _ _ _ R1) as Hflat.
  destruct (encode_operations_appends (rq_operations r)
    (encode_request_head (Encoder_new (ol_max_bytes limits)) r a0) Hflat) as (e' & ds & E & Hds & Ha);
    [apply concat_bound; unfold in_u in Hd; lia|].
  rewrite E in R1. simplify_eq.
  destruct (encode_request_head_appends (Encoder_new (ol_max_bytes limits)) r a0) as [head Hh].
  destruct (encode_request_tail_appends a1 r a2) as [tail Ht].
  unfold Encoder_finish in R3. destruct (enc_error (encode_request_tail a1 r a2)) eqn:Ee; [done|].
  pose proof (appends_content _ _ _ (appends_trans _ _ _ _ _ Hh (appends_trans _ _ _ _ _ Ha Ht)) Ee) as Hbytes.
  cbn in R3. simplify_eq. bool_prop. unfold u64_max in *. unfold in_u in Hf, Hd.
  split; cbn [front data lengths]; [|done|done|].
  - exists head, ds, tail. split; [|done]. cbn in Hbytes. by rewrite Hbytes.
  - lia.
Qed.

Lemma encode_operations_nested ops : forall e, encode_operations e ops = None -> ~ Forall flat ops.
Proof.
  unfold encode_operations. induction ops as [|op ops IH]; intros e H Hf; [done|].
  apply Forall_cons in Hf as [Hop Hf]. cbn [fold_left] in H.
  destruct (encode_operation_appends op e Hop) as (e1 & ? & E & _). cbn in H. rewrite E in H. by eapply IH.
Qed.

(** A request that is not encoded. *)
Lemma encode_request_fault r limits f :
  encode_request r limits = Err f ->
  match f with Returned e => exists w, e = OE_Wire w | Unreachable => ~ Forall flat (rq_operations r) end.
Proof.
  intros H. unfold encode_request, compose in H. cbv zeta in H.
  repeat match goal with
  | H : (if ?b then _ else _) = Err _ |- _ => destruct b; [by simplify_eq; eauto|]
  | H : (ok_or ?o _ ≫= _) = Err _ |- _ => destruct o eqn:?; cbn [ok_or] in H; [rewrite bind_Ok in H|]
  | H : (map_err _ ?o ≫= _) = Err _ |- _ => destruct o; cbn [map_err] in H; [rewrite bind_Ok in H|]
  | H : (Err _ ≫= _) = Err _ |- _ => cbn in H; simplify_eq
  | H : Ok _ = Err _ |- _ => discriminate H
  end; eauto.
  by eapply encode_operations_nested.
Qed.

Lemma encode_request_flat r limits : Forall flat (rq_operations r) -> encode_request r limits <> Err Unreachable.
Proof. intros Hf H. by apply encode_request_fault in H. Qed.

(** An OSD can take a request apart: in an encoded request every operation
    has one 38-byte descriptor with its code, its flags and the length of its
    data, the message's data is the operations' data in that order, the
    declared segment lengths are the real ones, and front and data together
    stay within the limit.  A request that is not encoded either reports a
    codec error or nests one flags wrapper in another, the only case in which
    the encoder panics. *)
Theorem request_layout r limits :
  match encode_request r limits with
  | Ok m => request_message r limits m
  | Err (Returned e) => exists w, e = OE_Wire w
  | Err Unreachable => ~ Forall flat (rq_operations r)
  end.
Proof.
  destruct (encode_request r limits) as [m|[e|]] eqn:H; [by apply encode_request_Ok| |];
    by apply encode_request_fault in H.
Qed.

(** ** Readers that consume their input to the end *)

Definition reads_end {E A} (max : Z) (m : DM E A) (img : list byte) (a : A) : Prop :=
  forall d, dec_max_bytes d = max -> unread d img -> exists d', m d = Ok (a, d').

Section ReadsEnd.
  Context {E : Type} (max : Z).

Lemma reads_end_bind {A B} (m : DM E A) (k : A -> DM E B) img1 img2 a b :
  reads max m img1 a -> reads_end max (k a) img2 b -> reads_end max (m ≫= k) (img1 ++ img2) b.
Proof.
  intros Hm Hk d Hd Hu. rewrite (DM_bind_Ok _ _ _ _ _ (Hm _ _ Hd Hu)). apply unread_app in Hu.
  by apply Hk.
Qed.

Lemma reads_end_unit {A B} (m : DM E A) (k : A -> DM E B) img a b :
  reads max m [] a -> reads_end max (k a) img b -> reads_end max (m ≫= k) img b.
Proof. apply (reads_end_bind m k []). Qed.

Lemma reads_end_assoc {A B C} (m : DM E A) (f : A -> DM E B) (k : B -> DM E C) img c :
  reads_end max (m ≫= (fun a => f a ≫= k)) img c -> reads_end max ((m ≫= f) ≫= k) img c.
Proof. intros H d Hd Hu. rewrite DM_bind_assoc. by apply H. Qed.

Lemma reads_end_ret {A} (a : A) : reads_end max (mret a : DM E A) [] a.
Proof. intros d _ _. by exists d. Qed.

Lemma reads_bytes v :
  zlen v < 2 ^ 32 -> zlen v <= max ->
  reads max (rd Decoder_bytes : DM E _) (le_bytes 4 (zlen v) ++ v) v.
Proof.
  intros Hv Hm. pose proof (zlen_nonneg v).
  pose proof (reads_rd (E := E) (get := Decoder_bytes) max v) as H1. apply H1; [|done]. unfold in_u. lia.
Qed.

Lemma reads_bool (b : bool) : reads max (rd Decoder_bool : DM E _) (le_bytes 1 (if b then 1 else 0)) b.
Proof. pose proof (reads_rd (E := E) (get := Decoder_bool) max b) as H1. by apply H1. Qed.

(** A look at how much is left. *)
Lemma reads_end_remaining {B} (k : Z -> DM E B) img b :
  reads_end max (k (zlen img)) img b -> reads_end max (remaining ≫= k) img b.
Proof. intros Hk d Hd Hu. rewrite (remaining_unread _ _ _ Hu). by apply Hk. Qed.

Lemma reads_end_new {A} (m : DM E A) img a :
  reads_end max m img a -> fst <$> m (Decoder_new img max) = Ok a.
Proof. intros H. by destruct (H (Decoder_new img max)) as [d' ->]. Qed.

Lemma reads_unit {A B} (m : DM E A) (k : A -> DM E B) img a b :
  reads max m [] a -> reads max (k a) img b -> reads max (m ≫= k) img b.
Proof. apply (reads_bind max m k []). Qed.

Lemma reads_versioned local version compatible payload :
  in_u 8 version -> in_u 8 compatible -> compatible <= local ->
  zlen payload <= max -> zlen payload < 2 ^ 32 ->
  reads max (rd (fun d => Decoder_versioned d local) : DM E _) (versioned_image version compatible payload)
    (version, Decoder_new payload max).
Proof.
  intros Hv Hc Hl Hm Hb d rest Hd Hu. pose proof (zlen_nonneg payload). unfold rd.
  rewrite (Decoder_versioned_image d local version compatible payload rest), Hd;
    [done..|unfold in_u; lia|done|lia|done].
Qed.

Lemma reads_repeat_map {A X} (m : DM E A) (image : X -> list byte) (f : X -> A) l :
  Forall (fun x => reads max m (image x) (f x)) l ->
  reads max (repeat_read (length l) m) (concat (map image l)) (f <$> l).
Proof.
  induction 1 as [|x l Hx Hl IH]; [apply reads_ret|].
  cbn [length repeat_read map concat]. eapply reads_bind; [done|].
  eapply reads_eq; [apply app_nil_r|]. eapply reads_bind; [done|]. apply reads_ret.
Qed.

Lemma reads_inside {A} (m : DM E A) payload a :
  reads_end max m payload a -> reads max (inside (Decoder_new payload max) m) [] a.
Proof.
  intros H d rest Hd Hu. pose proof (reads_ret (E := E) max a d rest Hd Hu) as Hr.
  destruct (H (Decoder_new payload max)) as [d' E1]; [done|done|].
  unfold inside, lift. rewrite E1. exact Hr.
Qed.
End ReadsEnd.

(** [remaining() == 0] at the end of the input. *)
Lemma reads_end_exhausted {B} max (k : unit -> OsM B) b :
  reads_end max (k tt) [] b -> reads_end max (reply_exhausted ≫= k) [] b.
Proof.
  intros Hk d Hd Hu. unfold reply_exhausted. rewrite DM_bind_assoc, (remaining_unread _ _ _ Hu). by apply Hk.
Qed.

(** Reads the plain field of value [v], with more to come. *)
Ltac reads_end_field v :=
  lazymatch goal with
  | |- reads_end ?max (rd ?g ≫= _) _ _ =>
      eapply reads_end_bind; [apply (reads_rd (get := g) max v); [try done|try exact I]|]
  end.

(** ** Replies as an OSD writes them *)

Section ReplyLayout.
  (** What the client skips: the old replay version, the user version's epoch,
      the trace and the echo of each operation's arguments. *)
  Context (old_version user_version trace legacy : list byte) (echo : OperationResult -> list byte).
  Hypothesis old_version_size : zlen old_version = 12.
  Hypothesis user_version_size : zlen user_version = 12.
  Hypothesis trace_size : zlen trace = 24.
  Hypothesis echo_size : forall op, zlen (echo op) = 32.
  Hypothesis legacy_size : zlen legacy < 2 ^ 32.

Definition redirect_locator_image (r : Redirect) : list byte :=
  le_bytes 8 (rd_pool r) ++ le_bytes 4 (-1) ++ (le_bytes 4 (zlen (rd_locator r)) ++ rd_locator r)
  ++ (le_bytes 4 (zlen (rd_namespace r)) ++ rd_namespace r) ++ le_bytes 8 (-1) ++ [].

Definition redirect_payload (r : Redirect) : list byte :=
  versioned_image 6 3 (redirect_locator_image r)
  ++ (le_bytes 4 (zlen (rd_object r)) ++ rd_object r) ++ le_bytes 4 (zlen legacy) ++ legacy ++ [].

Definition redirect_image (r : Redirect) : list byte := versioned_image 1 1 (redirect_payload r).

Definition result_descriptor (op : OperationResult) : list byte :=
  le_bytes 2 (or_operation op) ++ echo op ++ le_bytes 4 (zlen (or_data op)) ++ [].

Definition reply_trailer (version : Z) (r : Reply) : list byte :=
  (if 7 <=? version then
     le_bytes 1 (if bool_decide (is_Some (rp_redirect r)) then 1 else 0)
     ++ match rp_redirect r with Some t => redirect_image t | None => [] end
   else [])
  ++ (if 8 <=? version then trace else []).

Definition reply_front (version : Z) (r : Reply) : list byte :=
  (le_bytes 4 (zlen (rp_object r)) ++ rp_object r)
  ++ (le_bytes 1 1 ++ le_bytes 8 (pg_pool (rp_pg r)) ++ le_bytes 4 (pg_seed (rp_pg r))
      ++ le_bytes 4 (pg_preferred (rp_pg r)) ++ [])
  ++ le_bytes 8 (rp_flags r) ++ le_bytes 4 (rp_result r) ++ old_version
  ++ le_bytes 4 (rp_map_epoch r) ++ le_bytes 4 (zlen (rp_operations r))
  ++ concat (map result_descriptor (rp_operations r))
  ++ le_bytes 4 (rp_retry r) ++ concat (map (le_bytes 4) (or_code <$> rp_operations r))
  ++ user_version ++ le_bytes 8 (rp_version r) ++ reply_trailer version r.

Definition reply_message (version compat : Z) (r : Reply) : Message :=
  let front := reply_front version r in
  let data := concat (or_data <$> rp_operations r) in
  mkMessage (mkMessageHeader 0 0 MESSAGE_OSD_OP_REPLY 0 version 0 0 0 0 compat 0)
    (mkMessageLengths (zlen front) 0 (zlen data)) front [] data.

Record redirect_ok (max : Z) (r : Redirect) : Prop := {
  redirect_pool_ok : in_i 64 (rd_pool r);
  redirect_fits : zlen (redirect_payload r) <= max
}.

Record reply_ok (r : Reply) : Prop := {
  reply_pg_ok : in_u 64 (pg_pool (rp_pg r)) /\ in_u 32 (pg_seed (rp_pg r)) /\ in_i 32 (pg_preferred (rp_pg r));
  reply_flags_ok : in_i 64 (rp_flags r);
  reply_result_ok : in_i 32 (rp_result r);
  reply_epoch_ok : in_u 32 (rp_map_epoch r);
  reply_retry_ok : in_i 32 (rp_retry r);
  reply_version_ok : in_u 64 (rp_version r);
  reply_operations_ok : Forall (fun op => in_u 16 (or_operation op) /\ in_i 32 (or_code op)) (rp_operations r);
  reply_redirect_ok : forall t, rp_redirect r = Some t -> in_i 64 (rd_pool t)
}.

Lemma reads_end_unit_raw {B} max (k : list byte -> OsM B) p n img b :
  zlen p = n -> reads_end max (k p) img b ->
  reads_end max (rd (fun d => Decoder_raw d n) ≫= k) (p ++ img) b.
Proof. intros <- Hk. eapply reads_end_bind; [by apply reads_raw|done]. Qed.

Lemma reads_redirect_locator max r :
  in_i 64 (rd_pool r) -> zlen (redirect_locator_image r) <= max -> max <= u32_max ->
  reads_end max (decode_redirect_locator 6) (redirect_locator_image r)
    (rd_pool r, rd_locator r, rd_namespace r).
Proof.
  intros Hp Hm Hx. unfold redirect_locator_image in *. autorewrite with zlen in Hm.
  pose proof (zlen_nonneg (rd_locator r)). pose proof (zlen_nonneg (rd_namespace r)). unfold u32_max in Hx.
  unfold decode_redirect_locator. eapply reads_end_unit; [by apply reads_pass|].
  reads_end_field (rd_pool r). reads_end_field (-1).
  do 2 (eapply reads_end_bind; [apply reads_bytes; lia|]).
  eapply reads_end_bind.
  { change (6 <=? 6) with true. cbv iota. eapply reads_by; [reads_field (-1); apply reads_ret|].
    by rewrite app_nil_r. }
  eapply reads_end_unit; [apply reads_finish|]. apply reads_end_exhausted, reads_end_ret.
Qed.

Lemma reads_redirect max r :
  in_i 64 (rd_pool r) -> zlen (redirect_payload r) <= max -> max <= u32_max ->
  reads max decode_redirect (redirect_image r) r.
Proof.
  intros Hp Hm Hx. unfold decode_redirect, redirect_image. eapply reads_by; [|apply app_nil_r].
  unfold u32_max in Hx. eapply reads_bind; [apply reads_versioned; by (done || lia)|].
  eapply reads_unit; [apply reads_finish|]. eapply reads_unit; [by apply reads_pass|].
  apply reads_inside. unfold redirect_payload in *. unfold versioned_image in Hm at 1.
  autorewrite with zlen in Hm. pose proof (zlen_nonneg (redirect_locator_image r)).
  pose proof (zlen_nonneg (rd_object r)). pose proof (zlen_nonneg legacy).
  eapply reads_end_bind; [apply reads_versioned; by (done || lia)|].
  eapply reads_end_unit; [apply reads_finish|]. eapply reads_end_unit.
  { apply reads_inside, reads_redirect_locator; [done|lia|unfold u32_max; lia]. }
  cbv beta iota. eapply reads_end_bind; [apply reads_bytes; lia|].
  reads_end_field (zlen legacy). apply reads_end_remaining.
  eapply reads_end_unit; [apply reads_pass; rewrite app_nil_r; lia|].
  apply reads_end_unit_raw; [done|]. eapply reads_end_unit; [apply reads_finish|].
  apply reads_end_exhausted. destruct r. apply reads_end_ret.
Qed.

Lemma reads_descriptor max op :
  in_u 16 (or_operation op) -> zlen (or_data op) < 2 ^ 32 ->
  reads max decode_descriptor (result_descriptor op) (or_operation op, zlen (or_data op)).
Proof.
  intros Ho Hd. unfold decode_descriptor, result_descriptor. pose proof (zlen_nonneg (or_data op)).
  reads_field (or_operation op). eapply reads_bind; [by apply reads_raw|].
  assert (in_u 32 (zlen (or_data op))) by (unfold in_u; lia).
  reads_field (zlen (or_data op)). apply reads_ret.
Qed.

Lemma zlen_result_descriptor op : zlen (result_descriptor op) = OPERATION_DESCRIPTOR_SIZE.
Proof. unfold result_descriptor. autorewrite with zlen. by rewrite echo_size. Qed.

Lemma reads_pg max pg :
  in_u 64 (pg_pool pg) -> in_u 32 (pg_seed pg) -> in_i 32 (pg_preferred pg) ->
  reads max decode_pg (le_bytes 1 1 ++ le_bytes 8 (pg_pool pg) ++ le_bytes 4 (pg_seed pg)
                       ++ le_bytes 4 (pg_preferred pg) ++ []) pg.
Proof.
  intros H1 H2 H3. unfold decode_pg. reads_field 1. eapply reads_unit; [by apply reads_pass|].
  reads_field (pg_pool pg). reads_field (pg_seed pg). reads_field (pg_preferred pg).
  eapply reads_unit; [apply reads_finish|]. destruct pg. apply reads_ret.
Qed.

(** The reply before its operations have their data. *)
Definition reply_outline (r : Reply) : Reply :=
  with_operations r ((fun op => mkOperationResult (or_operation op) (or_code op) []) <$> rp_operations r).

Lemma zlen_descriptors ops :
  zlen (concat (map result_descriptor ops)) = zlen ops * OPERATION_DESCRIPTOR_SIZE.
Proof.
  induction ops as [|op ops IH]; [done|]. cbn [map concat].
  rewrite zlen_app, zlen_cons, zlen_result_descriptor, IH. lia.
Qed.

Lemma reads_reply_end max version r finish :
  (version < 7 -> rp_redirect r = None) -> max <= u32_max ->
  (forall t, rp_redirect r = Some t -> in_i 64 (rd_pool t) /\ zlen (redirect_payload t) <= max) ->
  reads_end max (decode_reply_end version finish) (reply_trailer version r) (finish (rp_redirect r)).
Proof.
  intros Hv Hm Hr. rewrite <- (app_nil_r (reply_trailer version r)). unfold reply_trailer.
  rewrite <- app_assoc. unfold decode_reply_end.
  assert (forall v, reads_end max
    (_ ← (if 8 <=? version then _ ← rd (fun d => Decoder_raw d 24); mret tt else mret tt);
     _ ← reply_finished; _ ← reply_exhausted; mret (finish v))
    ((if 8 <=? version then trace else []) ++ []) (finish v)) as Hend.
  { intros v. eapply (reads_end_bind _ _ _ _ _ tt).
    - destruct (8 <=? version); [|apply reads_ret]. eapply reads_by; [|apply app_nil_r].
      eapply reads_bind; [by apply reads_raw|apply reads_ret].
    - eapply reads_end_unit; [apply reads_finish|]. apply reads_end_exhausted, reads_end_ret. }
  destruct (Z.leb_spec 7 version).
  - rewrite <- app_assoc. eapply reads_end_bind; [apply reads_bool|].
    destruct (rp_redirect r) as [t|] eqn:Et.
    + rewrite bool_decide_true by eauto. eapply reads_end_bind; [|apply Hend].
      eapply reads_by; [|apply app_nil_r]. destruct (Hr t eq_refl).
      eapply reads_bind; [by apply reads_redirect|apply reads_ret].
    + rewrite bool_decide_false by (by intros []). eapply reads_end_unit; [apply reads_ret|apply Hend].
  - rewrite Hv by lia. eapply reads_end_unit; [apply reads_ret|].
    eapply reads_end_unit; [apply reads_ret|apply Hend].
Qed.

Lemma reads_reply_front version limits r :
  reply_ok r -> version <> 6 -> (version < 7 -> rp_redirect r = None) ->
  zlen (reply_front version r) <= ol_max_bytes limits <= u32_max ->
  zlen (rp_operations r) <= ol_max_operations limits ->
  zlen (concat (or_data <$> rp_operations r)) < 2 ^ 32 ->
  reads_end (ol_max_bytes limits) (decode_reply_front version limits) (reply_front version r)
    (reply_outline r, (zlen ∘ or_data) <$> rp_operations r).
Proof.
  intros [(Hp1 & Hp2 & Hp3) ? ? ? ? ? Hops Hred] Hv6 Hv7 [Hm Hx] Hmo Hd.
  pose proof (zlen_nonneg (rp_operations r)) as Hn. unfold u32_max in Hx.
  unfold reply_front in *. autorewrite with zlen in Hm. rewrite zlen_descriptors in Hm.
  pose proof (zlen_nonneg (rp_object r)). pose proof (zlen_nonneg (reply_trailer version r)).
  pose proof (zlen_nonneg (concat (map (le_bytes 4) (or_code <$> rp_operations r)))).
  unfold OPERATION_DESCRIPTOR_SIZE in *. assert (in_u 32 (zlen (rp_operations r))) by (unfold in_u; lia).
  unfold decode_reply_front. eapply reads_end_bind; [apply reads_bytes; lia|].
  eapply reads_end_bind; [by apply reads_pg|]. reads_end_field (rp_flags r). reads_end_field (rp_result r).
  apply reads_end_unit_raw; [done|]. reads_end_field (rp_map_epoch r).
  reads_end_field (zlen (rp_operations r)). eapply reads_end_unit; [apply reads_finish|].
  apply reads_end_remaining. eapply reads_end_unit.
  { apply reads_pass. autorewrite with zlen. rewrite zlen_descriptors.
    unfold OPERATION_DESCRIPTOR_SIZE, u64_max. apply orb_false_intro; apply Z.ltb_ge; lia. }
  replace (Z.to_nat (zlen (rp_operations r))) with (length (rp_operations r)) by (unfold zlen; lia).
  eapply reads_end_bind.
  { apply reads_repeat_map with (f := fun op => (or_operation op, zlen (or_data op))).
    pose proof (concat_bound _ _ _ Hd) as Hb.
    eapply Forall_impl; [apply Forall_and; exact (conj Hops Hb)|]. intros op [[? ?] ?]. by apply reads_descriptor. }
  reads_end_field (rp_retry r). eapply reads_end_bind.
  { replace (length (rp_operations r)) with (length (or_code <$> rp_operations r)) by apply length_fmap.
    apply reads_repeat. rewrite Forall_fmap. eapply Forall_impl; [exact Hops|]. intros op [_ Ho].
    by apply (reads_rd (get := Decoder_i32) _ (or_code op)). }
  apply reads_end_unit_raw; [done|]. reads_end_field (rp_version r).
  eapply reads_end_unit; [apply reads_pass; lia|].
  match goal with |- reads_end _ (decode_reply_end _ ?f) _ ?v =>
    replace v with (f (rp_redirect r)) by
      (unfold reply_outline, with_operations; f_equal; [f_equal|];
       [by rewrite zip_with_fmap_l, zip_with_fmap_r, zip_with_diag|by rewrite <- list_fmap_compose]) end.
  apply reads_reply_end; [done|by unfold u32_max|]. unfold reply_trailer in Hm |- *. intros t Ht. rewrite Ht in Hm.
  destruct (Z.leb_spec 7 version); [|by rewrite Hv7 in Ht]. unfold redirect_image, versioned_image in Hm.
  autorewrite with zlen in Hm. cbn in Hm. pose proof (zlen_nonneg (if 8 <=? version then trace else [])).
  split; [by apply Hred|lia].
Qed.

Lemma to_nat_zlen {A} (l : list A) : Z.to_nat (zlen l) = length l.
Proof. apply Nat2Z.id. Qed.

(** Every operation gets back the data it was written with. *)
Lemma distribute_concat ops : forall prefix,
  zlen prefix + zlen (concat (or_data <$> ops)) < 2 ^ 64 ->
  distribute (prefix ++ concat (or_data <$> ops)) (zlen prefix)
    ((fun op => mkOperationResult (or_operation op) (or_code op) []) <$> ops) ((zlen ∘ or_data) <$> ops)
  = Ok (ops, zlen (prefix ++ concat (or_data <$> ops))).
Proof.
  induction ops as [|op ops IH]; intros prefix Hb; cbn [fmap list_fmap concat distribute] in *;
    [by rewrite app_nil_r|].
  unfold compose in *. autorewrite with zlen in Hb. pose proof (zlen_nonneg (or_data op)).
  pose proof (zlen_nonneg (concat (or_data <$> ops))). pose proof (zlen_nonneg prefix).
  unfold checked_add. rewrite (proj2 (Z.ltb_lt _ _)), ok_or_Some, bind_Ok by lia.
  unfold slice. rewrite (proj2 (Z.ltb_ge _ _)) by (autorewrite with zlen; lia).
  replace (zlen prefix + zlen (or_data op) - zlen prefix) with (zlen (or_data op)) by lia.
  rewrite !to_nat_zlen, drop_app_length, take_app_length, ok_or_Some, bind_Ok.
  specialize (IH (prefix ++ or_data op)). autorewrite with zlen in IH. rewrite <- app_assoc in IH.
  rewrite IH, bind_Ok by lia. autorewrite with zlen. rewrite !Z.add_assoc. by destruct op.
Qed.

(** What the client needs to accept a reply. *)
Record reply_acceptable (version compat : Z) (limits : OsdLimits) (r : Reply) : Prop := {
  acceptable_values : reply_ok r;
  acceptable_version : 4 <= version /\ version <> 6 /\ compat <= 8;
  acceptable_redirect : version < 7 -> rp_redirect r = None;
  acceptable_operations : 0 < ol_max_operations limits /\ zlen (rp_operations r) <= ol_max_operations limits;
  acceptable_size : zlen (reply_front version r) + zlen (concat (or_data <$> rp_operations r))
                    <= ol_max_bytes limits <= u32_max
}.

Lemma decode_reply_message version compat limits r :
  reply_acceptable version compat limits r -> decode_reply (reply_message version compat r) limits = Ok r.
Proof.
  intros [Hok (Hv4 & Hv6 & Hc) Hr [Ho0 Ho] [Hs Hx]]. unfold u32_max in Hx.
  pose proof (zlen_nonneg (reply_front version r)) as Hf0.
  pose proof (zlen_nonneg (concat (or_data <$> rp_operations r))) as Hd0.
  assert (0 < zlen (reply_front version r)) as Hpos.
  { unfold reply_front in *. autorewrite with zlen. repeat match goal with
      |- context [zlen ?l] => lazymatch goal with H : 0 <= zlen l |- _ => fail
                              | _ => pose proof (zlen_nonneg l) end end. lia. }
  unfold decode_reply, reply_message. cbn [front middle data header message_type Message.version compat_version].
  unfold checked_add. change (zlen (@nil byte)) with 0. rewrite Z.add_0_r.
  rewrite (proj2 (Z.ltb_lt (zlen (reply_front version r)) _)) by lia.
  change (Some ?x ≫= ?f) with (f x). cbv beta.
  rewrite (proj2 (Z.ltb_lt (_ + _) _)), ok_or_Some, bind_Ok by lia.
  replace (_ || _) with false by (symmetry; rewrite Z.eqb_refl; lia).
  rewrite (reads_end_new _ _ _ _ (reads_reply_front version limits r Hok Hv6 Hr
    ltac:(unfold u32_max; lia) Ho ltac:(lia))), bind_Ok.
  change (rp_operations (reply_outline r)) with
    ((fun op => mkOperationResult (or_operation op) (or_code op) []) <$> rp_operations r).
  pose proof (distribute_concat (rp_operations r) [] ltac:(rewrite zlen_nil; lia)) as Hdist.
  rewrite !app_nil_l in Hdist. change (zlen (@nil byte)) with 0 in Hdist.
  rewrite Hdist, bind_Ok, Z.eqb_refl. by destruct r.
Qed.
End ReplyLayout.

(** ** Replies from anywhere *)

Lemma repeat_read_Forall {E A} (P : A -> Prop) (m : DM E A) :
  (forall d a d', m d = Ok (a, d') -> P a) ->
  forall n d l d', repeat_read n m d = Ok (l, d') -> Forall P l.
Proof.
  intros Hm n. induction n as [|n IH]; intros d l d' H; cbn [repeat_read] in H; dm_inv; [done|].
  constructor; eauto.
Qed.

Lemma Decoder_uint_nonneg n d v d' : Decoder_uint n d = (v, d') -> 0 <= v.
Proof.
  unfold Decoder_uint. destruct (Decoder_take d (Z.of_nat n)) as [p d1]. intros H. simplify_eq.
  destruct (_ =? _)%nat; [apply le_value_range|done].
Qed.

Lemma decode_reply_end_inv version finish d x d' :
  decode_reply_end version finish d = Ok (x, d') -> exists t, x = finish t.
Proof. unfold decode_reply_end. intros H. dm_inv. eauto. Qed.

Lemma decode_reply_front_inv version limits d r lengths d' :
  decode_reply_front version limits d = Ok ((r, lengths), d') ->
  version <> 6 /\ length lengths = length (rp_operations r) /\ Forall (fun n => 0 <= n) lengths
  /\ zlen (rp_operations r) <= ol_max_operations limits.
Proof.
  unfold decode_reply_front. intros H. dm_inv. bool_prop.
  apply decode_reply_end_inv in H as [t ?]. simplify_eq. cbn [rp_operations].
  pose proof (repeat_read_length _ _ _ _ _ R9) as L1. pose proof (repeat_read_length _ _ _ _ _ R11) as L2.
  rewrite length_fmap, length_zip_with. split_and!; [done|lia| |].
  - apply Forall_fmap. eapply repeat_read_Forall; [|exact R9]. intros dd [a b] dd' Hd. unfold decode_descriptor in Hd.
    dm_inv. cbn. by eapply Decoder_uint_nonneg.
  - unfold zlen. rewrite length_zip_with. apply Decoder_uint_nonneg in R5. lia.
Qed.

Lemma distribute_parts data : forall lengths ops offset ops' end_,
  0 <= offset <= zlen data -> Forall (fun n => 0 <= n) lengths -> length lengths = length ops ->
  distribute data offset ops lengths = Ok (ops', end_) ->
  offset <= end_ <= zlen data /\ zlen <$> (or_data <$> ops') = lengths
  /\ concat (or_data <$> ops') = take (Z.to_nat (end_ - offset)) (drop (Z.to_nat offset) data)
  /\ or_code <$> ops' = or_code <$> ops /\ or_operation <$> ops' = or_operation <$> ops.
Proof.
  induction lengths as [|n lengths IH]; intros [|op ops] offset ops' end_ Ho Hn Hl H; try done.
  { cbn in H. simplify_eq. split_and!; [lia|lia|done|..|done|done]. by rewrite Z.sub_diag. }
  apply Forall_cons in Hn as [Hn Hns]. cbn [distribute] in H. ok_inv. subst.
  apply ok_or_inv in R, R0. unfold checked_add in R. unfold slice in R0.
  destruct (_ <? _) in R; [|done]. destruct (_ <? _) eqn:Hz in R0; [done|]. simplify_eq. bool_prop.
  apply IH in R1 as (Hb & E1 & E2 & E3 & E4); [|lia|done|by simplify_eq/=].
  cbn [fmap list_fmap concat or_data or_code or_operation]. rewrite E1, E3, E4. split_and!; [lia|lia| |  |done|done].
  - f_equal. unfold zlen. rewrite length_take, length_drop. unfold zlen in Hz, Ho. lia.
  - rewrite E2. replace (Z.to_nat (end_ - offset)) with (Z.to_nat n + Z.to_nat (end_ - (offset + n)))%nat by lia.
    rewrite <- take_take_drop, drop_drop. f_equal; [f_equal; lia|]. do 2 f_equal. lia.
Qed.

(** No byte of a reply's data is lost, invented or given twice: whatever an
    OSD sends, when the client accepts a reply, the data of its operations, in
    order, is the data of the message, there are no more operations than the
    limit allows, and the message is a reply of a version the client
    understands and of a size within the limit. *)
Theorem reply_partition m limits r :
  decode_reply m limits = Ok r ->
  concat (or_data <$> rp_operations r) = data m
  /\ zlen (rp_operations r) <= ol_max_operations limits
  /\ zlen (front m) + zlen (middle m) + zlen (data m) <= ol_max_bytes limits
  /\ message_type (header m) = MESSAGE_OSD_OP_REPLY
  /\ 4 <= version (header m) /\ version (header m) <> 6.
Proof.
  unfold decode_reply. intros H. ok_inv. apply ok_or_inv in R. split_if. ok_inv.
  destruct (negb _) eqn:Hz in H; [done|]. ok_inv. subst r. bool_prop. subst.
  destruct (decode_reply_front _ _ _) as [[[r' l'] d']|] eqn:Hf; [|done]. cbn in R0. simplify_eq.
  apply decode_reply_front_inv in Hf as (Hv & Hl & Hn & Hm). cbn [with_operations rp_operations].
  pose proof (zlen_nonneg (data m)).
  apply distribute_parts in R1 as (_ & E1 & E2 & E3 & _); [|lia|done|done].
  assert (a = zlen (front m) + zlen (middle m) + zlen (data m)) as ->.
  { unfold checked_add in R. destruct (_ <? _) in R; [|done]. cbn in R. destruct (_ <? _) in R; by simplify_eq. }
  split_and!; try done; try lia.
  - rewrite E2, Z.sub_0_r, to_nat_zlen, drop_0. apply firstn_all.
  - apply (f_equal length) in E3. rewrite !length_fmap in E3. unfold zlen in *. lia.
Qed.

(** C35. Replies are understood: a reply with values in range, written in the
    layout of its version around whatever the client skips, and within the
    limits, is decoded to exactly that reply: its object, placement group,
    flags, result, version and redirect, and every operation with its code,
    its result and its data. *)
Theorem reply_roundtrip old_version user_version trace legacy echo version compat limits r :
  zlen old_version = 12 -> zlen user_version = 12 -> zlen trace = 24 ->
  (forall op, zlen (echo op) = 32) -> zlen legacy < 2 ^ 32 ->
  reply_acceptable old_version user_version trace legacy echo version compat limits r ->
  decode_reply (reply_message old_version user_version trace legacy echo version compat r) limits = Ok r.
Proof. intros. by apply decode_reply_message. Qed.

(** ** Witnesses *)

Definition test_pg : PG := mkPG 7 3 (-1).

Definition test_reply : Reply :=
  mkReply [x6f] test_pg 4 (-2) 9 0 77 (Some (mkRedirect 8 [] [x6e] [x70]))
    [mkOperationResult OP_READ 0 [x61; x62]; mkOperationResult OP_STAT (-2) [x63]].

Definition test_limits : OsdLimits := mkOsdLimits 4096 4.

Definition test_message : Message :=
  reply_message (replicate 12 x00) (replicate 12 x01) (replicate 24 x02) [x05]
    (fun _ => replicate 32 x03) 8 8 test_reply.

Lemma test_reply_acceptable :
  reply_acceptable (replicate 12 x00) (replicate 12 x01) (replicate 24 x02) [x05]
    (fun _ => replicate 32 x03) 8 8 test_limits test_reply.
Proof.
  split; [|done..|by vm_compute].
  split; try done; [repeat constructor; done|]. cbn. intros t [= <-]. done.
Qed.

Lemma reply_roundtrip_witness : decode_reply test_message test_limits = Ok test_reply.
Proof. apply reply_roundtrip; [done..|apply test_reply_acceptable]. Defined.

Lemma reply_partition_witness :
  concat (or_data <$> rp_operations test_reply) = data test_message
  /\ zlen (rp_operations test_reply) <= ol_max_operations test_limits
  /\ zlen (front test_message) + zlen (middle test_message) + zlen (data test_message)
     <= ol_max_bytes test_limits
  /\ message_type (header test_message) = MESSAGE_OSD_OP_REPLY
  /\ 4 <= version (header test_message) /\ version (header test_message) <> 6.
Proof. apply (reply_partition test_message test_limits test_reply). vm_compute. reflexivity. Defined.
