(* ===== verification/OsdMetadata.v ===== *)
(** * Object maps, sparse reads, checksums and copies

    Models [src/src/osd/metadata.rs] and [src/src/osd/special.rs]: the payloads
    of the operations on an object's key-value map, and those of sparse reads,
    checksums and server-side copies. *)

From S2P Require Import Prelude Codec Message Frame Address Control MapBase OsdMap BTree Backoff OsdMessages.
From Stdlib Require Import ZArith Lia Strings.Byte.
From stdpp Require Import base option gmap sorting numbers list.

Open Scope Z_scope.

Record Entry : Type := mkEntry { en_key : list byte; en_value : list byte }.

#[export] Instance Entry_eq_dec : EqDecision Entry.
Proof. solve_decision. Defined.

(** ** Requests *)

Definition encode_list_request (after : list byte) (limit max_bytes : Z) : result WireError (list byte) :=
  let e := Encoder_new max_bytes in
  let e := Encoder_bytes e after in
  let e := Encoder_u64 e limit in
  let e := Encoder_bytes e [] in
  Encoder_finish e.

(** [left <= right] of byte strings. *)
Definition bytes_le (a b : list byte) : Prop := bytes_compare a b <> Gt.
Definition bytes_lt (a b : list byte) : Prop := bytes_compare a b = Lt.

#[export] Instance bytes_le_dec a b : Decision (bytes_le a b).
Proof. unfold bytes_le. apply _. Defined.
#[export] Instance bytes_lt_dec a b : Decision (bytes_lt a b).
Proof. unfold bytes_lt. apply _. Defined.

Definition key_le (a b : Entry) : Prop := bytes_le (en_key a) (en_key b).

#[export] Instance key_le_dec a b : Decision (key_le a b).
Proof. unfold key_le. apply _. Defined.

(** [keys.windows(2).any(|pair| pair[0] == pair[1])]. *)
Fixpoint adjacent_equal (keys : list (list byte)) : bool :=
  match keys with
  | a :: ((b :: _) as keys) => bool_decide (a = b) || adjacent_equal keys
  | _ => false
  end.

(** Sorting is not stable in the source, but it is followed by the rejection of
    equal keys, so the order of what is written does not depend on it. *)
Definition encode_map (entries : list Entry) (max_bytes : Z) : result WireError (list byte) :=
  let entries := merge_sort key_le entries in
  if (u32_max <? zlen entries) || adjacent_equal (en_key <$> entries) then Err Malformed
  else
    count ← ok_or (try_u 32 (zlen entries)) LimitExceeded;
    Encoder_finish (fold_left (fun e entry => Encoder_bytes (Encoder_bytes e (en_key entry)) (en_value entry))
                      entries (Encoder_u32 (Encoder_new max_bytes) count)).

Definition encode_keys (keys : list (list byte)) (max_bytes : Z) : result WireError (list byte) :=
  let keys := merge_sort bytes_le keys in
  if (u32_max <? zlen keys) || adjacent_equal keys then Err Malformed
  else
    count ← ok_or (try_u 32 (zlen keys)) LimitExceeded;
    Encoder_finish (fold_left Encoder_bytes keys (Encoder_u32 (Encoder_new max_bytes) count)).

Definition encode_range (begin end_ : list byte) (max_bytes : Z) : result WireError (list byte) :=
  if bool_decide (bytes_le end_ begin) then Err Malformed
  else Encoder_finish (Encoder_bytes (Encoder_bytes (Encoder_new max_bytes) begin) end_).

Definition encode_compare (key value : list byte) (comparison max_bytes : Z) : result WireError (list byte) :=
  let e := Encoder_new max_bytes in
  let e := Encoder_u32 e 1 in
  let e := Encoder_bytes e key in
  let e := Encoder_bytes e value in
  let e := Encoder_i32 e comparison in
  Encoder_finish e.

(** ** Replies *)

(** The loop over the entries; [previous] is the key of [entries.last()]. *)
Fixpoint read_entries_after (n : nat) (previous : option (list byte)) : WM (list Entry) :=
  match n with
  | O => mret []
  | S n =>
      key ← rd Decoder_bytes;
      value ← rd Decoder_bytes;
      _ ← wire_finished;
      _ ← throw_if (match previous with Some p => bool_decide (bytes_le key p) | None => false end) Malformed;
      entries ← read_entries_after n (Some key);
      mret (mkEntry key value :: entries)
  end.

Definition decode_entries (max_entries : Z) : WM (list Entry) :=
  count ← rd Decoder_u32;
  _ ← wire_finished;
  left_ ← remaining;
  _ ← throw_if ((max_entries <? count) || (left_ <? Z.min (count * 8) u64_max)) LimitExceeded;
  read_entries_after (Z.to_nat count) None.

Definition decode_omap (data : list byte) (max_bytes max_entries : Z) : result WireError (list Entry) :=
  fst <$> (entries ← decode_entries max_entries; _ ← wire_exact; mret entries) (Decoder_new data max_bytes).

Definition decode_omap_page (data : list byte) (max_bytes max_entries : Z)
    : result WireError (list Entry * bool) :=
  fst <$> (entries ← decode_entries max_entries;
           more ← rd Decoder_bool;
           _ ← wire_exact;
           mret (entries, more)) (Decoder_new data max_bytes).

(** ** Copies *)

Record CopySource : Type := mkCopySource {
  cs_object : list byte;
  cs_pool : Z;
  cs_locator : list byte;
  cs_namespace : list byte
}.

Definition encode_copy_source (s : CopySource) (truncate : option (Z * Z)) (max_bytes : Z)
    : result WireError (list byte) :=
  if (zlen (cs_object s) =? 0) || (cs_pool s <? 0) then Err Malformed
  else
    let e := Encoder_bytes (Encoder_new max_bytes) (cs_object s) in
    let e := Encoder_versioned e 6 3 (fun e =>
               let e := Encoder_i64 e (cs_pool s) in
               let e := Encoder_i32 e (-1) in
               let e := Encoder_bytes e (cs_locator s) in
               let e := Encoder_bytes e (cs_namespace s) in
               Encoder_i64 e (-1)) in
    let e := match truncate with
             | Some (sequence, size) => Encoder_u64 (Encoder_u32 e sequence) size
             | None => e
             end in
    Encoder_finish e.

(** ** Sparse reads *)

Record SparseExtent : Type := mkSparseExtent { se_offset : Z; se_data : list byte }.

(** The loop over the ranges: what it has pushed, and the running total. *)
Fixpoint read_ranges (n : nat) (request_offset request_end total previous_end : Z)
    : WM (list (Z * Z) * Z) :=
  match n with
  | O => mret ([], total)
  | S n =>
      offset ← rd Decoder_u64;
      length ← rd Decoder_u64;
      end_ ← lift (ok_or (checked_add 64 offset length) Malformed);
      _ ← throw_if ((length =? 0) || (offset <? request_offset) || (offset <? previous_end)
                    || (request_end <? end_)) Malformed;
      total ← lift (ok_or (checked_add 64 total length) LimitExceeded);
      '(ranges, total) ← read_ranges n request_offset request_end total end_;
      mret ((offset, length) :: ranges, total)
  end.

(** The slices of the extents; the source would panic past the end of [bytes]. *)
Fixpoint cut (bytes : list byte) (ranges : list (Z * Z)) : list SparseExtent :=
  match ranges with
  | [] => []
  | (offset, length) :: ranges =>
      mkSparseExtent offset (take (Z.to_nat length) bytes) :: cut (drop (Z.to_nat length) bytes) ranges
  end.

Definition decode_sparse_read (data : list byte)
    (request_offset request_length max_bytes max_extents : Z) : result WireError (list SparseExtent) :=
  request_end ← ok_or (checked_add 64 request_offset request_length) Malformed;
  fst <$>
    (count ← rd Decoder_u32;
     _ ← wire_finished;
     left_ ← remaining;
     _ ← throw_if ((max_extents <? count) || (left_ <? Z.min (count * 16) u64_max)) LimitExceeded;
     '(ranges, total) ← read_ranges (Z.to_nat count) request_offset request_end 0 request_offset;
     bytes ← rd Decoder_bytes;
     _ ← wire_finished;
     left_ ← remaining;
     _ ← throw_if (negb (left_ =? 0) || negb (zlen bytes =? total)) Malformed;
     mret (cut bytes ranges)) (Decoder_new data max_bytes).

(** ** Checksums *)

Definition checked_mul (a b : Z) : option Z := if a * b <? 2 ^ 64 then Some (a * b) else None.

Definition validate_checksum (data : list byte) (checksum_bytes max_bytes : Z) : result WireError unit :=
  fst <$>
    (count ← rd Decoder_u32;
     _ ← wire_finished;
     expected ← lift (ok_or (checked_mul count checksum_bytes) LimitExceeded);
     left_ ← remaining;
     _ ← throw_if (negb (left_ =? expected)) Malformed;
     _ ← rd (fun d => Decoder_raw d expected);
     _ ← wire_finished;
     mret tt) (Decoder_new data max_bytes).

(** ** Sorted keys *)

#[export] Instance bytes_le_trans : Transitive bytes_le.
Proof.
  intros a b c. unfold bytes_le. intros H1 H2 H.
  destruct (bytes_compare a b) eqn:E1; [apply cmp_eq in E1 as ->; done| |done].
  destruct (bytes_compare b c) eqn:E2; [apply cmp_eq in E2 as <-; congruence| |done].
  by rewrite (cmp_lt _ _ _ E1 E2) in H.
Qed.

#[export] Instance bytes_le_total : Total bytes_le.
Proof.
  intros a b. unfold bytes_le. rewrite (cmp_opp (cmp := bytes_compare) a b).
  destruct (bytes_compare a b); [left|left|right]; done.
Qed.

Lemma bytes_le_lt a b : bytes_le a b -> a <> b -> bytes_lt a b.
Proof.
  unfold bytes_le, bytes_lt. intros H1 H2. destruct (bytes_compare a b) eqn:E; [|done|done].
  by apply cmp_eq in E.
Qed.

Lemma bytes_lt_le a b : bytes_lt a b -> ~ bytes_le b a.
Proof.
  unfold bytes_le, bytes_lt. intros H1 H2. apply H2. by rewrite (cmp_opp (cmp := bytes_compare) a b), H1.
Qed.

#[export] Instance bytes_lt_trans : Transitive bytes_lt.
Proof. intros a b c. apply cmp_lt. Qed.

#[export] Instance key_le_trans : Transitive key_le.
Proof. intros a b c. unfold key_le. apply bytes_le_trans. Qed.

#[export] Instance key_le_total : Total key_le.
Proof. intros a b. unfold key_le. apply bytes_le_total. Qed.

(** Sorted keys no two of which are adjacent and equal are strictly ascending. *)
Lemma ascending_keys keys :
  StronglySorted bytes_le keys -> adjacent_equal keys = false -> StronglySorted bytes_lt keys.
Proof.
  induction 1 as [|a keys Hs IH Ha]; intros Hd; [constructor|].
  destruct keys as [|b keys]; [by repeat constructor|]. cbn [adjacent_equal] in Hd.
  apply orb_false_elim in Hd as [Hab Hd]. apply bool_decide_eq_false in Hab. specialize (IH Hd).
  apply Forall_cons in Ha as [Hb _]. pose proof (bytes_le_lt _ _ Hb Hab) as Hlt.
  constructor; [done|]. constructor; [done|]. apply StronglySorted_inv in IH as [_ Hf].
  eapply Forall_impl; [exact Hf|]. intros x. by apply bytes_lt_trans.
Qed.

(** What a list of distinct entries looks like once it is sorted. *)
Definition ascending (entries : list Entry) : Prop := StronglySorted bytes_lt (en_key <$> entries).

Lemma sorted_entries entries :
  adjacent_equal (en_key <$> merge_sort key_le entries) = false -> ascending (merge_sort key_le entries).
Proof.
  intros Hd. apply ascending_keys; [|done].
  pose proof (StronglySorted_merge_sort key_le entries) as Hs. induction Hs as [|x l Hs IH Hx]; [constructor|].
  cbn [fmap list_fmap]. constructor; [|by apply Forall_fmap].
  apply IH. cbn [fmap list_fmap] in Hd. destruct l as [|y l]; [done|]. cbn in Hd. by bool_prop.
Qed.

(** ** Writing and reading entries *)

Definition entry_image (en : Entry) : list byte :=
  (le_bytes 4 (zlen (en_key en)) ++ en_key en) ++ (le_bytes 4 (zlen (en_value en)) ++ en_value en).

Lemma entries_appends entries : forall e,
  appends e (fold_left (fun e entry => Encoder_bytes (Encoder_bytes e (en_key entry)) (en_value entry)) entries e)
    (concat (entry_image <$> entries)).
Proof.
  induction entries as [|en entries IH]; intros e; [apply appends_refl|].
  cbn [fold_left fmap list_fmap concat]. eapply appends_trans; [|apply IH].
  eapply appends_trans; apply appends_bytes.
Qed.

Lemma entry_bounds entries b :
  zlen (concat (entry_image <$> entries)) <= b ->
  Forall (fun en => zlen (en_key en) <= b /\ zlen (en_value en) <= b) entries
  /\ zlen entries * 8 <= zlen (concat (entry_image <$> entries)).
Proof.
  induction entries as [|en entries IH]; cbn [fmap list_fmap concat]; [done|].
  unfold entry_image at 1 3. autorewrite with zlen. intros H.
  pose proof (zlen_nonneg (concat (entry_image <$> entries))).
  pose proof (zlen_nonneg (en_key en)). pose proof (zlen_nonneg (en_value en)).
  destruct IH as [IH1 IH2]; [lia|]. split; [|lia]. constructor; [lia|done].
Qed.

Lemma reads_entries max entries : forall previous,
  Forall (fun en => zlen (en_key en) <= max /\ zlen (en_value en) <= max) entries -> max < 2 ^ 32 ->
  ascending entries ->
  match previous, entries with Some p, en :: _ => bytes_lt p (en_key en) | _, _ => True end ->
  reads max (read_entries_after (length entries) previous) (concat (entry_image <$> entries)) entries.
Proof.
  induction entries as [|en entries IH]; intros previous Hb Hm Ha Hp; [apply reads_ret|].
  apply Forall_cons in Hb as [[Hk Hv] Hb]. apply StronglySorted_inv in Ha as [Ha Hf].
  cbn [length read_entries_after fmap list_fmap concat]. unfold entry_image at 1. rewrite <- app_assoc.
  eapply reads_bind; [apply reads_bytes; lia|]. eapply reads_bind; [apply reads_bytes; lia|].
  eapply reads_unit; [apply reads_finish|]. eapply reads_unit.
  { apply reads_pass. destruct previous as [p|]; [|done]. apply bool_decide_eq_false.
    by apply bytes_lt_le. }
  eapply reads_by; [|apply app_nil_r]. eapply reads_bind; [apply IH; try done|].
  - destruct entries as [|en' entries]; [done|]. by apply Forall_cons in Hf as [? _].
  - destruct en. apply reads_ret.
Qed.

Lemma reads_end_exact {B} max (k : unit -> WM B) b :
  reads_end max (k tt) [] b -> reads_end max (wire_exact ≫= k) [] b.
Proof. intros Hk d Hd Hu. rewrite wire_exact_done by done. by apply Hk. Qed.

Lemma decode_map_image max max_entries entries :
  ascending entries -> zlen entries <= max_entries -> max < 2 ^ 32 ->
  zlen (concat (entry_image <$> entries)) <= max ->
  decode_omap (le_bytes 4 (zlen entries) ++ concat (entry_image <$> entries)) max max_entries = Ok entries.
Proof.
  intros Ha Hn Hx Hm. destruct (entry_bounds _ _ Hm) as [Hb H8]. pose proof (zlen_nonneg entries).
  apply reads_end_new. assert (in_u 32 (zlen entries)) as Hu by (unfold in_u; lia).
  unfold decode_entries. apply reads_end_assoc. reads_end_field (zlen entries).
  apply reads_end_assoc. eapply reads_end_unit; [apply reads_finish|].
  apply reads_end_assoc, reads_end_remaining, reads_end_assoc. eapply reads_end_unit.
  { apply reads_pass. unfold u64_max. apply orb_false_intro; apply Z.ltb_ge; lia. }
  rewrite to_nat_zlen, <- (app_nil_r (concat _)).
  eapply reads_end_bind; [by apply reads_entries|]. apply reads_end_exact, reads_end_ret.
Qed.

Lemma encode_map_Ok entries max_bytes bs :
  0 <= max_bytes -> encode_map entries max_bytes = Ok bs ->
  let sorted := merge_sort key_le entries in
  ascending sorted /\ bs = le_bytes 4 (zlen sorted) ++ concat (entry_image <$> sorted) /\ zlen bs <= max_bytes.
Proof.
  intros H0 H sorted. unfold encode_map in H. cbv zeta in H. fold sorted in H.
  destruct (_ || _) eqn:Hd in H; [done|]. apply orb_false_elim in Hd as [_ Hd]. ok_inv.
  split; [by apply sorted_entries|]. apply ok_or_inv in R. apply try_u_inv in R as [-> _].
  eapply finish_appends in H as [-> Hl]; [done| |done].
  eapply appends_trans; [apply appends_raw|apply entries_appends].
Qed.

(** ** Properties *)

(** The keys and values written to an object's map are the ones read from
    it: when the client can encode a map, an OSD that sends the same bytes back
    is understood, and what is read is a rearrangement of what was written, in
    strictly ascending order of its keys. *)
Theorem omap_roundtrip entries max_bytes bs max_entries :
  0 <= max_bytes < 2 ^ 32 -> zlen entries <= max_entries -> encode_map entries max_bytes = Ok bs ->
  exists sorted, decode_omap bs max_bytes max_entries = Ok sorted
    /\ sorted ≡ₚ entries /\ ascending sorted /\ NoDup (en_key <$> entries).
Proof.
  intros [H0 Hx] Hn H. apply encode_map_Ok in H as (Ha & -> & Hl); [|done].
  pose proof (merge_sort_Permutation key_le entries) as Hp. set (sorted := merge_sort key_le entries) in *.
  exists sorted. split_and!; [|done|done|].
  - autorewrite with zlen in Hl. apply decode_map_image; [done| |done|lia].
    unfold zlen in *. by rewrite Hp.
  - rewrite <- Hp. unfold ascending in Ha. clear -Ha. induction Ha as [|x l Hs IH Hx]; constructor; [|done].
    intros Hin. rewrite Forall_forall in Hx. specialize (Hx _ Hin). unfold bytes_lt in Hx.
    by rewrite (proj2 (cmp_eq x x) eq_refl) in Hx.
Qed.

(** ** Replies from anywhere *)

Lemma read_entries_ascending n : forall previous d entries d',
  read_entries_after n previous d = Ok (entries, d') ->
  length entries = n /\ ascending entries
  /\ (forall p, previous = Some p -> Forall (bytes_lt p) (en_key <$> entries)).
Proof.
  induction n as [|n IH]; intros previous d entries d' H; cbn [read_entries_after] in H; dm_inv.
  { split_and!; [done|constructor|]. intros p _. constructor. }
  rename select (read_entries_after _ _ _ = _) into Hr. apply IH in Hr as (Hl & Ha & Hp).
  specialize (Hp _ eq_refl). cbn [length fmap list_fmap]. split_and!; [by rewrite Hl|by constructor|].
  intros p ->. rename select (bool_decide _ = false) into Hd. apply bool_decide_eq_false in Hd.
  assert (bytes_lt p v) as Hlt.
  { apply bytes_le_lt; [|by intros ->; apply Hd; unfold bytes_le; rewrite (proj2 (cmp_eq v v) eq_refl)].
    by destruct (bytes_le_total p v). }
  constructor; [done|]. eapply Forall_impl; [exact Hp|]. intros x. by apply bytes_lt_trans.
Qed.

(** The extents lie in [lo, hi), in order and without overlap. *)
Fixpoint extents_within (lo hi : Z) (extents : list SparseExtent) : Prop :=
  match extents with
  | [] => True
  | x :: extents =>
      lo <= se_offset x /\ 0 < zlen (se_data x) /\ se_offset x + zlen (se_data x) <= hi
      /\ extents_within (se_offset x + zlen (se_data x)) hi extents
  end.

Fixpoint ranges_within (lo hi : Z) (ranges : list (Z * Z)) : Prop :=
  match ranges with
  | [] => True
  | (offset, length) :: ranges =>
      lo <= offset /\ 0 < length /\ offset + length <= hi /\ ranges_within (offset + length) hi ranges
  end.

Definition total_length (ranges : list (Z * Z)) : Z := foldr (fun r t => r.2 + t) 0 ranges.

Lemma read_ranges_within n : forall lo hi total previous d ranges total' d',
  lo <= previous -> read_ranges n lo hi total previous d = Ok ((ranges, total'), d') ->
  length ranges = n /\ ranges_within previous hi ranges /\ total' = total + total_length ranges.
Proof.
  induction n as [|n IH]; intros lo hi total previous d ranges total' d' Hlo H;
    cbn [read_ranges] in H; dm_inv; [cbn; split_and!; by (done || lia)|].
  rename select (read_ranges _ _ _ _ _ _ = _) into Hr. bool_prop.
  repeat match goal with R : lift (ok_or _ _) _ = Ok _ |- _ =>
    unfold lift in R; ok_inv; simplify_eq end.
  repeat match goal with R : ok_or _ _ = Ok _ |- _ => apply ok_or_inv in R end.
  unfold checked_add in *. split_if. simplify_eq.
  repeat match goal with R : Decoder_u64 _ = _ |- _ => apply Decoder_uint_nonneg in R end.
  apply IH in Hr as (Hl & Hw & Ht); [|lia]. cbn [length ranges_within total_length foldr snd].
  fold (total_length l). split_and!; by (lia || done).
Qed.

Lemma cut_within ranges : forall lo hi bytes,
  ranges_within lo hi ranges -> zlen bytes = total_length ranges ->
  extents_within lo hi (cut bytes ranges) /\ concat (se_data <$> cut bytes ranges) = bytes.
Proof.
  induction ranges as [|[offset length] ranges IH]; intros lo hi bytes Hw Hl; cbn [cut].
  { split; [done|]. by apply zlen_0_nil in Hl as ->. }
  destruct Hw as (H1 & H2 & H3 & Hw). cbn [total_length foldr snd] in Hl. fold (total_length ranges) in Hl.
  assert (0 <= total_length ranges) as Ht.
  { clear -Hw. revert Hw. generalize (offset + length). induction ranges as [|[o n] ranges IH]; [done|].
    intros lo (_ & H & _ & Hw). cbn [total_length foldr snd]. fold (total_length ranges). apply IH in Hw. lia. }
  assert (zlen (take (Z.to_nat length) bytes) = length) as Hz by (unfold zlen in *; rewrite length_take; lia).
  destruct (IH _ _ (drop (Z.to_nat length) bytes) Hw) as [I1 I2].
  { unfold zlen in *. rewrite length_drop. lia. }
  cbn [extents_within se_offset se_data fmap list_fmap concat]. rewrite Hz, I2. split; [by split_and!|].
  apply take_drop.
Qed.

Lemma decode_sparse_read_Ok bytes offset length max_bytes max_extents extents :
  decode_sparse_read bytes offset length max_bytes max_extents = Ok extents ->
  extents_within offset (offset + length) extents /\ zlen extents <= max_extents.
Proof.
  unfold decode_sparse_read. intros H. ok_inv. apply ok_or_inv in R. unfold checked_add in R. split_if. simplify_eq.
  match type of H with fst <$> ?r = _ => destruct r as [[x d']|] eqn:E; [|done] end. cbn in H. simplify_eq.
  dm_inv. rename select (read_ranges _ _ _ _ _ _ = _) into Hr. bool_prop.
  repeat match goal with R : Decoder_u32 _ = _ |- _ => apply Decoder_uint_nonneg in R end.
  apply read_ranges_within in Hr as (Hl & Hw & Ht); [|lia]. rewrite Z.add_0_l in Ht. subst.
  split; [by apply cut_within|].
  assert (forall b r, zlen (cut b r) = zlen r) as ->.
  { clear. intros b r. revert b. induction r as [|[o n] r IH]; intros b; [done|]. cbn [cut].
    rewrite !zlen_cons. by rewrite IH. }
  unfold zlen. lia.
Qed.

Lemma extents_total hi extents : forall lo,
  lo <= hi -> extents_within lo hi extents -> zlen (concat (se_data <$> extents)) <= hi - lo.
Proof.
  induction extents as [|x extents IH]; intros lo Hlo H; cbn [fmap list_fmap concat].
  { rewrite zlen_nil. lia. }
  destruct H as (H1 & H2 & H3 & H4). autorewrite with zlen. apply IH in H4; lia.
Qed.

(** A sparse read answers only what was asked: whatever an OSD sends, the
    extents the client accepts are not empty, lie within the requested range
    in ascending order without overlapping, carry together no more bytes than
    were requested, and are no more than the limit allows. *)
Theorem sparse_read_sound bytes offset length max_bytes max_extents extents :
  0 <= length -> decode_sparse_read bytes offset length max_bytes max_extents = Ok extents ->
  extents_within offset (offset + length) extents
  /\ zlen (concat (se_data <$> extents)) <= length /\ zlen extents <= max_extents.
Proof.
  intros H0 H. apply decode_sparse_read_Ok in H as [Hw Hn]. split_and!; [done| |done].
  apply extents_total in Hw; lia.
Qed.

(** A page of an object's map is in order: whatever an OSD sends, the keys
    of the page or map the client accepts are strictly ascending, hence
    distinct, and no more than the limit allows. *)
Theorem omap_page_sound bytes max_bytes max_entries entries :
  (decode_omap bytes max_bytes max_entries = Ok entries
   \/ exists more, decode_omap_page bytes max_bytes max_entries = Ok (entries, more)) ->
  ascending entries /\ zlen entries <= max_entries.
Proof.
  assert (forall d d', decode_entries max_entries d = Ok (entries, d') ->
    ascending entries /\ zlen entries <= max_entries) as Hd.
  { intros d d' H. unfold decode_entries in H. dm_inv. bool_prop. apply read_entries_ascending in H as (Hl & Ha & _).
    repeat match goal with R : Decoder_u32 _ = _ |- _ => apply Decoder_uint_nonneg in R end.
    split; [done|]. unfold zlen. lia. }
  unfold decode_omap, decode_omap_page. intros [H|[more H]];
    (match type of H with fst <$> ?r = _ => destruct r as [[x d']|] eqn:E; [|done] end);
    cbn in H; simplify_eq; dm_inv; eauto.
Qed.

(** ** Witnesses *)

Definition test_entries : list Entry := [mkEntry [x62] [x32]; mkEntry [x61; x00] []; mkEntry [x61] [x31; x31]].

Definition test_map : list byte :=
  [x03; x00; x00; x00] ++ [x01; x00; x00; x00; x61] ++ [x02; x00; x00; x00; x31; x31]
  ++ [x02; x00; x00; x00; x61; x00] ++ [x00; x00; x00; x00] ++ [x01; x00; x00; x00; x62] ++ [x01; x00; x00; x00; x32].

Lemma omap_roundtrip_witness :
  exists sorted, decode_omap test_map 64 4 = Ok sorted
    /\ sorted ≡ₚ test_entries /\ ascending sorted /\ NoDup (en_key <$> test_entries).
Proof. apply (omap_roundtrip test_entries 64 test_map 4); [done|done|vm_compute; reflexivity]. Defined.

Definition test_extents : list byte :=
  le_bytes 4 2 ++ le_bytes 8 10 ++ le_bytes 8 1 ++ le_bytes 8 20 ++ le_bytes 8 2
  ++ le_bytes 4 3 ++ [x61; x62; x63].

Lemma sparse_read_sound_witness :
  let extents := [mkSparseExtent 10 [x61]; mkSparseExtent 20 [x62; x63]] in
  extents_within 8 28 extents /\ zlen (concat (se_data <$> extents)) <= 20 /\ zlen extents <= 4.
Proof. apply (sparse_read_sound test_extents 8 20 256 4); [done|vm_compute; reflexivity]. Defined.

Lemma omap_page_sound_witness :
  ascending [mkEntry [x61] [x31]] /\ zlen [mkEntry [x61] [x31]] <= 4.
Proof.
  apply (omap_page_sound (le_bytes 4 1 ++ le_bytes 4 1 ++ [x61] ++ le_bytes 4 1 ++ [x31; x01]) 64 4).
  right. exists true. vm_compute. reflexivity.
Defined.
