(* ===== verification/OsdWatch.v ===== *)
(** * Watches, notifications and advisory locks

    Models [src/src/osd/watch.rs] and [src/src/osd/lock.rs]: the payloads and
    messages of watches, notifications and advisory locks, with the text of the
    addresses of watchers and lock holders. *)

From S2P Require Import Prelude Codec Message Frame Address Control MapBase Text IpText OsdMap Backoff OsdMessages.
From Stdlib Require Import ZArith Lia Strings.Byte Strings.String.
From stdpp Require Import base option gmap sorting numbers list.

Open Scope Z_scope.

Definition MESSAGE_WATCH_NOTIFY : Z := 44.
Definition OPERATION_UNWATCH : Z := 0.
Definition OPERATION_REGISTER : Z := 3.
Definition OPERATION_RECONNECT : Z := 5.
Definition OPERATION_PING : Z := 7.
Definition EVENT_NOTIFY : Z := 1.
Definition EVENT_COMPLETE : Z := 2.
Definition EVENT_DISCONNECT : Z := 3.
Definition ENTITY_CLIENT : Z := 8.

(** ** The text of an address *)

(** [address.endpoint().map_or_else(String::new, |value| value.to_string())];
    [endpoint] does not panic on a decoded address ([endpoint_total]). *)
Definition endpoint_text (a : EntityAddr) : list byte :=
  match endpoint a with
  | Ok (Some s) => SocketAddr_to_string s
  | Ok None | Err _ => []
  end.

(** ** Watches *)

Record Notification : Type := mkNotification {
  nt_cookie : Z;
  nt_version : Z;
  nt_notify_id : Z;
  nt_opcode : Z;
  nt_data : list byte;
  nt_result : Z;
  nt_notifier : Z
}.

Record Acknowledgment : Type := mkAcknowledgment { ak_client : Z; ak_cookie : Z; ak_data : list byte }.

Record WatchTimeout : Type := mkWatchTimeout { wt_client : Z; wt_cookie : Z }.

Record WatcherInfo : Type := mkWatcherInfo {
  wi_client : Z;
  wi_cookie : Z;
  wi_timeout_seconds : Z;
  wi_address : list byte
}.

Definition encode_notify (timeout_seconds : Z) (data : list byte) (max_bytes : Z) : result WireError (list byte) :=
  let e := Encoder_new max_bytes in
  let e := Encoder_u32 e 1 in
  let e := Encoder_u32 e timeout_seconds in
  Encoder_finish (Encoder_bytes e data).

Definition encode_ack (notify_id cookie : Z) (data : list byte) (max_bytes : Z) : result WireError (list byte) :=
  if (notify_id =? 0) || (cookie =? 0) then Err Malformed
  else
    let e := Encoder_new max_bytes in
    let e := Encoder_u64 e notify_id in
    let e := Encoder_u64 e cookie in
    Encoder_finish (Encoder_bytes e data).

(** The front of a notification of the given version, and whether it carries
    data of its own. *)
Definition decode_notification_front (version : Z) (message_data : list byte) : WM Notification :=
  message_version ← rd Decoder_u8;
  opcode ← rd Decoder_u8;
  cookie ← rd Decoder_u64;
  object_version ← rd Decoder_u64;
  notify_id ← rd Decoder_u64;
  _ ← throw_if ((message_version =? 0) || (cookie =? 0)
                || negb ((opcode =? EVENT_NOTIFY) || (opcode =? EVENT_COMPLETE) || (opcode =? EVENT_DISCONNECT)))
        Malformed;
  front_data ← rd Decoder_bytes;
  _ ← throw_if (negb (zlen front_data =? 0) && negb (zlen message_data =? 0)) Malformed;
  result ← (if 2 <=? version then rd Decoder_i32 else mret 0);
  notifier ← (if 3 <=? version then rd Decoder_u64 else mret 0);
  _ ← wire_exact;
  mret (mkNotification cookie object_version notify_id opcode
          (if zlen message_data =? 0 then front_data else message_data) result notifier).

Definition decode_notification (m : Message) (max_bytes : Z) : result WireError Notification :=
  total ← ok_or (checked_add 64 (zlen (front m)) (zlen (data m))) LimitExceeded;
  if (max_bytes =? 0) || negb (message_type (header m) =? MESSAGE_WATCH_NOTIFY)
     || negb ((1 <=? version (header m)) && (version (header m) <=? 3))
     || (1 <? compat_version (header m)) || negb (zlen (middle m) =? 0) || (max_bytes <? total)
  then Err Malformed
  else fst <$> decode_notification_front (version (header m)) (data m) (Decoder_new (front m) max_bytes).

Definition read_acknowledgment : WM Acknowledgment :=
  client ← rd Decoder_u64;
  cookie ← rd Decoder_u64;
  data ← rd Decoder_bytes;
  _ ← wire_finished;
  mret (mkAcknowledgment client cookie data).

Definition read_timeout : WM WatchTimeout :=
  client ← rd Decoder_u64;
  cookie ← rd Decoder_u64;
  mret (mkWatchTimeout client cookie).

(** [decoder.u32() as usize], which must not exceed [maximum] and leave
    [bytes] bytes for each item. *)
Definition wire_count (maximum bytes : Z) : WM Z :=
  count ← rd Decoder_u32;
  _ ← wire_finished;
  left_ ← remaining;
  _ ← throw_if ((maximum <? count) || (left_ <? Z.min (count * bytes) u64_max)) LimitExceeded;
  mret count.

Definition decode_notify_result (data : list byte) (max_bytes max_entries : Z)
    : result WireError (list Acknowledgment * list WatchTimeout) :=
  fst <$>
    (count ← wire_count max_entries 20;
     acknowledged ← repeat_read (Z.to_nat count) read_acknowledgment;
     count ← wire_count (saturating_sub max_entries (zlen acknowledged)) 16;
     timed_out ← repeat_read (Z.to_nat count) read_timeout;
     _ ← wire_exact;
     mret (acknowledged, timed_out)) (Decoder_new data max_bytes).

(** A watcher, in an envelope of its own. *)
Definition read_watcher : WM WatcherInfo :=
  item ← rd (fun d => Decoder_versioned d 2);
  _ ← wire_finished;
  inside item.2
    (_ ← throw_if (negb ((1 <=? item.1) && (item.1 <=? 2))) Malformed;
     entity ← rd Decoder_u8;
     _ ← throw_if (negb (entity =? ENTITY_CLIENT)) Malformed;
     client ← rd Decoder_i64;
     cookie ← rd Decoder_u64;
     timeout_seconds ← rd Decoder_u32;
     _ ← throw_if ((client <? 0) || (cookie =? 0)) Malformed;
     address ← (if 2 <=? item.1 then a ← EntityAddr_decode; mret (endpoint_text a) else mret []);
     _ ← wire_exact;
     client ← lift (ok_or (try_u 64 client) Malformed);
     mret (mkWatcherInfo client cookie timeout_seconds address)).

Definition decode_watchers (data : list byte) (max_bytes max_watchers : Z) : result WireError (list WatcherInfo) :=
  fst <$>
    (outer ← rd (fun d => Decoder_versioned d 1);
     _ ← wire_finished;
     _ ← throw_if (negb (outer.1 =? 1)) Malformed;
     inside outer.2
       (count ← wire_count max_watchers 17;
        watchers ← repeat_read (Z.to_nat count) read_watcher;
        _ ← wire_exact;
        mret watchers)) (Decoder_new data max_bytes).

(** ** Locks *)

Definition LOCK_EXCLUSIVE : Z := 1.
Definition LOCK_SHARED : Z := 2.
Definition LOCK_MAY_RENEW : Z := 1.

(** The duration is its whole seconds and its nanoseconds below a second. *)
Record LockRequest : Type := mkLockRequest {
  lk_name : list byte;
  lk_type : Z;
  lk_cookie : list byte;
  lk_tag : list byte;
  lk_description : list byte;
  lk_duration : UTime;
  lk_renew : bool
}.

(** The expiration is its distance from [UNIX_EPOCH]. *)
Record LockHolder : Type := mkLockHolder {
  lh_client : Z;
  lh_cookie : list byte;
  lh_address : list byte;
  lh_description : list byte;
  lh_expiration : UTime
}.

Record LockInfo : Type := mkLockInfo {
  li_holders : list LockHolder;
  li_type : Z;
  li_tag : list byte
}.

Definition encode_lock (r : LockRequest) (max_bytes : Z) : result WireError (list byte) :=
  if (zlen (lk_name r) =? 0) || (zlen (lk_cookie r) =? 0)
     || negb ((lk_type r =? LOCK_EXCLUSIVE) || (lk_type r =? LOCK_SHARED))
     || (u32_max <? seconds (lk_duration r))
  then Err Malformed
  else
    secs ← ok_or (try_u 32 (seconds (lk_duration r))) Malformed;
    Encoder_finish (Encoder_versioned (Encoder_new max_bytes) 1 1 (fun e =>
      let e := Encoder_bytes e (lk_name r) in
      let e := Encoder_u8 e (lk_type r) in
      let e := Encoder_bytes e (lk_cookie r) in
      let e := Encoder_bytes e (lk_tag r) in
      let e := Encoder_bytes e (lk_description r) in
      let e := Encoder_u32 e secs in
      let e := Encoder_u32 e (nanoseconds (lk_duration r)) in
      Encoder_u8 e (if lk_renew r then LOCK_MAY_RENEW else 0))).

Definition encode_unlock (name cookie : list byte) (max_bytes : Z) : result WireError (list byte) :=
  if (zlen name =? 0) || (zlen cookie =? 0) then Err Malformed
  else
    Encoder_finish (Encoder_versioned (Encoder_new max_bytes) 1 1 (fun e =>
      Encoder_bytes (Encoder_bytes e name) cookie)).

Definition i64_max : Z := 9223372036854775807.

Definition encode_break (name : list byte) (client : Z) (cookie : list byte) (max_bytes : Z)
    : result WireError (list byte) :=
  if (zlen name =? 0) || (zlen cookie =? 0) || (i64_max <? client) then Err Malformed
  else
    Encoder_finish (Encoder_versioned (Encoder_new max_bytes) 1 1 (fun e =>
      let e := Encoder_bytes e name in
      let e := Encoder_u8 e ENTITY_CLIENT in
      let e := Encoder_i64 e client in
      Encoder_bytes e cookie)).

Definition encode_get_info (name : list byte) (max_bytes : Z) : result WireError (list byte) :=
  if zlen name =? 0 then Err Malformed
  else Encoder_finish (Encoder_versioned (Encoder_new max_bytes) 1 1 (fun e => Encoder_bytes e name)).

(** [String::from_utf8]: a string is left alone by the lossy conversion exactly
    when it is well formed, since what replaces an ill-formed part is not part
    of an ill-formed sequence. *)
Definition from_utf8 (l : list byte) : option (list byte) :=
  if bool_decide (from_utf8_lossy l = l) then Some l else None.

Definition strict_string : WM (list byte) :=
  bytes ← rd Decoder_bytes;
  lift (ok_or (from_utf8 bytes) Malformed).

Definition decode_holder : WM LockHolder :=
  identity ← rd (fun d => Decoder_versioned d 1);
  _ ← wire_finished;
  '(client, cookie) ← inside identity.2
    (_ ← throw_if (negb (identity.1 =? 1)) Malformed;
     entity ← rd Decoder_u8;
     _ ← throw_if (negb (entity =? ENTITY_CLIENT)) Malformed;
     client ← rd Decoder_i64;
     cookie ← strict_string;
     _ ← wire_finished;
     left_ ← remaining;
     _ ← throw_if ((client <? 0) || negb (left_ =? 0)) Malformed;
     mret (client, cookie));
  info ← rd (fun d => Decoder_versioned d 1);
  _ ← wire_finished;
  '(expiration, address, description) ← inside info.2
    (_ ← throw_if (negb (info.1 =? 1)) Malformed;
     secs ← rd Decoder_u32;
     nanos ← rd Decoder_u32;
     _ ← throw_if (1000000000 <=? nanos) Malformed;
     address ← EntityAddr_decode;
     description ← strict_string;
     _ ← wire_exact;
     mret (mkUTime secs nanos, address, description));
  client ← lift (ok_or (try_u 64 client) Malformed);
  mret (mkLockHolder client cookie (endpoint_text address) description expiration).

Definition decode_info (data : list byte) (max_bytes max_holders : Z) : result WireError LockInfo :=
  fst <$>
    (outer ← rd (fun d => Decoder_versioned d 1);
     _ ← wire_finished;
     _ ← throw_if (negb (outer.1 =? 1)) (UnsupportedVersion 1 outer.1);
     inside outer.2
       (count ← wire_count max_holders 13;
        holders ← repeat_read (Z.to_nat count) decode_holder;
        lock_type ← rd Decoder_u8;
        tag ← strict_string;
        _ ← wire_finished;
        left_ ← remaining;
        _ ← throw_if (negb (left_ =? 0)
              || negb ((lock_type =? 0) || (lock_type =? LOCK_EXCLUSIVE) || (lock_type =? LOCK_SHARED))
              || ((lock_type =? 0) && negb (zlen holders =? 0))) Malformed;
        mret (mkLockInfo holders lock_type tag))) (Decoder_new data max_bytes).

(** ** Replies from anywhere *)

Lemma wire_count_bound maximum bytes d n d' :
  wire_count maximum bytes d = Ok (n, d') -> 0 <= n <= maximum.
Proof.
  unfold wire_count. intros H. dm_inv. bool_prop.
  repeat match goal with R : Decoder_u32 _ = _ |- _ => apply Decoder_uint_nonneg in R end. lia.
Qed.

(** A holder the client accepts. *)
Record holder_ok (h : LockHolder) : Prop := {
  holder_client : in_u 63 (lh_client h);
  holder_cookie : from_utf8_lossy (lh_cookie h) = lh_cookie h;
  holder_description : from_utf8_lossy (lh_description h) = lh_description h;
  holder_expiration : 0 <= seconds (lh_expiration h) /\ 0 <= nanoseconds (lh_expiration h) < 1000000000
}.

Lemma strict_string_inv d s d' : strict_string d = Ok (s, d') -> from_utf8_lossy s = s.
Proof.
  unfold strict_string. intros H. dm_inv. apply lift_inv in H as [H _]. apply ok_or_inv in H.
  unfold from_utf8 in H. case_bool_decide; by simplify_eq.
Qed.

Lemma Decoder_i64_range d v d' : Decoder_i64 d = (v, d') -> in_i 64 v.
Proof. unfold Decoder_i64. destruct (Decoder_u64 d) as [u d1]. intros H. simplify_eq. by apply swrap_range. Qed.

Lemma decode_holder_ok d h d' : decode_holder d = Ok (h, d') -> holder_ok h.
Proof.
  unfold decode_holder. intros H. dm_inv.
  repeat match goal with R : inside _ _ _ = Ok _ |- _ => apply inside_inv in R as [_ [? R]] end. dm_inv.
  repeat match goal with R : lift _ _ = Ok _ |- _ => apply lift_inv in R as [R ->] end.
  rename select (ok_or _ _ = Ok _) into Hc. apply ok_or_inv in Hc. apply try_u_inv in Hc as [-> Hc].
  repeat match goal with R : strict_string _ = Ok _ |- _ => apply strict_string_inv in R
                       | R : Decoder_u32 _ = _ |- _ => apply Decoder_uint_nonneg in R
                       | R : Decoder_i64 _ = _ |- _ => apply Decoder_i64_range in R end.
  bool_prop. split; cbn; try done; unfold in_u, in_i in *; lia.
Qed.

(** What the client reports about a lock is consistent: whatever an OSD
    sends, an accepted report has a known lock type, no holder when the object
    is not locked, no more holders than the limit, and every holder has an
    identity of a client, well-formed text and an expiration that is a time. *)
Theorem lock_info_sound bytes max_bytes max_holders info :
  decode_info bytes max_bytes max_holders = Ok info ->
  zlen (li_holders info) <= max_holders /\ Forall holder_ok (li_holders info)
  /\ (li_type info = 0 /\ li_holders info = [] \/ li_type info = LOCK_EXCLUSIVE \/ li_type info = LOCK_SHARED).
Proof.
  unfold decode_info. intros H.
  match type of H with fst <$> ?r = _ => destruct r as [[x d']|] eqn:E; [|done] end. cbn in H. simplify_eq. dm_inv.
  apply inside_inv in E as [_ [d1 E]]. dm_inv. cbn [li_holders li_type].
  rename select (wire_count _ _ _ = _) into Hc. apply wire_count_bound in Hc.
  rename select (repeat_read _ _ _ = _) into Hr. pose proof (repeat_read_length _ _ _ _ _ Hr) as Hl.
  split_and!; [unfold zlen; lia|eapply repeat_read_Forall; [|exact Hr]; apply decode_holder_ok|].
  bool_prop. rename select (_ && _ = false) into Hz.
  destruct (Z.eqb_spec v4 0) as [->|]; cbn in Hz.
  - left. split; [done|]. apply negb_false_iff, Z.eqb_eq in Hz. by apply zlen_0_nil.
  - right. rename select (_ || _ = true) into Ht. cbn in Ht. unfold LOCK_EXCLUSIVE, LOCK_SHARED in *. lia.
Qed.

(** A notification's answers are bounded: the acknowledgments and the
    timeouts the client accepts are together no more than the limit. *)
Theorem notify_result_bounded bytes max_bytes max_entries acknowledged timed_out :
  decode_notify_result bytes max_bytes max_entries = Ok (acknowledged, timed_out) ->
  zlen acknowledged + zlen timed_out <= max_entries.
Proof.
  unfold decode_notify_result. intros H.
  match type of H with fst <$> ?r = _ => destruct r as [[x d']|] eqn:E; [|done] end. cbn in H. simplify_eq. dm_inv.
  repeat match goal with R : repeat_read _ _ _ = _ |- _ => apply repeat_read_length in R
                       | R : wire_count _ _ _ = _ |- _ => apply wire_count_bound in R end.
  unfold zlen, saturating_sub in *. lia.
Qed.

(** ** Witnesses *)

(** One exclusive holder: client 5, cookie "c", at 10.0.0.2:6789. *)
Definition test_holder : list byte :=
  versioned_image 1 1 ([x08] ++ le_bytes 8 5 ++ le_bytes 4 1 ++ [x63])
  ++ versioned_image 1 1 (le_bytes 4 9 ++ le_bytes 4 7 ++
       address_image MONITOR_CLIENT (entity_addr_from_endpoint AT_V2 0 (SA_V4 [x0a; x00; x00; x02] 6789))
       ++ le_bytes 4 0).

Definition test_info : list byte :=
  versioned_image 1 1 (le_bytes 4 1 ++ test_holder ++ [x01] ++ le_bytes 4 1 ++ [x74]).

Lemma lock_info_sound_witness :
  let info := mkLockInfo [mkLockHolder 5 [x63] (list_byte_of_string "10.0.0.2:6789") [] (mkUTime 9 7)] 1 [x74] in
  zlen (li_holders info) <= 4 /\ Forall holder_ok (li_holders info)
  /\ (li_type info = 0 /\ li_holders info = [] \/ li_type info = LOCK_EXCLUSIVE \/ li_type info = LOCK_SHARED).
Proof. apply (lock_info_sound test_info 256 4). vm_compute. reflexivity. Defined.

Lemma notify_result_bounded_witness :
  zlen [mkAcknowledgment 5 7 [x61]] + zlen [mkWatchTimeout 6 8] <= 2.
Proof.
  apply (notify_result_bounded
    (le_bytes 4 1 ++ le_bytes 8 5 ++ le_bytes 8 7 ++ le_bytes 4 1 ++ [x61]
     ++ le_bytes 4 1 ++ le_bytes 8 6 ++ le_bytes 8 8) 256 2). vm_compute. reflexivity.
Defined.
