(* ===== verification/OsdCommand.v ===== *)
(** * Commands to an OSD, inconsistent objects and enumeration requests

    Models [src/src/osd/command.rs], [src/src/osd/inconsistent.rs] and the
    request of [src/src/osd/enumeration.rs]; its pages are in [Backoff.v]. *)

From S2P Require Import Prelude Codec Message Frame Address Control MapBase Text OsdMap BTree Backoff OsdMessages OsdMetadata OsdWatch.
From Stdlib Require Import ZArith Lia Strings.Byte Strings.String.
From stdpp Require Import base option gmap sorting numbers list.

Open Scope Z_scope.

(** ** Commands *)

Definition MESSAGE_COMMAND : Z := 97.
Definition MESSAGE_COMMAND_REPLY : Z := 98.

Record CommandRequest : Type := mkCommandRequest {
  cq_fsid : list byte;
  cq_transaction_id : Z;
  cq_command : list (list byte);
  cq_input : list byte
}.

Record OsdCommandReply : Type := mkOsdCommandReply {
  oc_transaction_id : Z;
  oc_result : Z;
  oc_status : list byte;
  oc_output : list byte
}.

Inductive CommandError : Type :=
| CE_Wire (e : WireError)
| CE_MalformedReply
| CE_UnsupportedVersion.

Definition encode_command_request (r : CommandRequest) (max_bytes : Z) : result CommandError Message :=
  if (max_bytes =? 0) || (zlen (cq_command r) =? 0) || (max_bytes <? zlen (cq_input r))
  then Err (CE_Wire LimitExceeded)
  else if existsb (fun argument => u32_max <? zlen argument) (cq_command r)
  then Err (CE_Wire LimitExceeded)
  else
    count ← ok_or (try_u 32 (zlen (cq_command r))) (CE_Wire LimitExceeded);
    front ← map_err CE_Wire (Encoder_finish
      (fold_left Encoder_bytes (cq_command r)
         (Encoder_u32 (Encoder_raw (Encoder_new max_bytes) (cq_fsid r)) count)));
    if max_bytes <? Z.min (zlen front + zlen (cq_input r)) u64_max then Err (CE_Wire LimitExceeded)
    else
      front_length ← ok_or (try_u 32 (zlen front)) (CE_Wire LimitExceeded);
      data_length ← ok_or (try_u 32 (zlen (cq_input r))) (CE_Wire LimitExceeded);
      Ok (mkMessage (mkMessageHeader 0 (cq_transaction_id r) MESSAGE_COMMAND 0 1 0 0 0 0 0 0)
            (mkMessageLengths front_length 0 data_length) front [] (cq_input r)).

Definition decode_osd_command_reply (m : Message) (max_bytes : Z) : result CommandError OsdCommandReply :=
  if max_bytes =? 0 then Err (CE_Wire LimitExceeded)
  else if negb (message_type (header m) =? MESSAGE_COMMAND_REPLY) then Err CE_MalformedReply
  else if (version (header m) <? 1) || (1 <? compat_version (header m)) then Err CE_UnsupportedVersion
  else if negb (zlen (middle m) =? 0) then Err CE_MalformedReply
  else if max_bytes <? Z.min (zlen (front m) + zlen (data m)) u64_max then Err (CE_Wire LimitExceeded)
  else
    f ← ok_or (try_u 32 (zlen (front m))) (CE_Wire LimitExceeded);
    d ← ok_or (try_u 32 (zlen (data m))) (CE_Wire LimitExceeded);
    if negb (front_len (lengths m) =? f) || negb (data_len (lengths m) =? d) then Err CE_MalformedReply
    else
      let d := Decoder_new (front m) max_bytes in
      let '(result, d) := Decoder_i32 d in
      let '(status, d) := Decoder_string d in
      if negb (is_ok (Decoder_finish d)) || negb (Decoder_remaining d =? 0) then Err CE_MalformedReply
      else Ok (mkOsdCommandReply (transaction_id (header m)) result status (data m)).

(** ** Placement groups by name *)

(** ['s', 'S', 'p', 'P', '_']. *)
Definition shard_marks : list byte := [x73; x53; x70; x50; x5f].

Definition parse_pg (text : list byte) : result WireError PG :=
  '(position, _) ← ok_or (list_find (fun b => b = dot) text) Malformed;
  if (position =? 0)%nat || (saturating_sub (zlen text) 1 <=? Z.of_nat position) then Err Malformed
  else
    let pool_text := take position text in
    let seed_text := drop (S position) text in
    if existsb (fun b => bool_decide (b ∈ shard_marks)) seed_text then Err Malformed
    else
      pool ← ok_or (parse_i64 pool_text) Malformed;
      pool ← ok_or (try_u 64 pool) Malformed;
      seed ← ok_or (parse_hex_u32 seed_text) Malformed;
      Ok (mkPG pool seed (-1)).

(** ** Enumeration *)

Definition encode_list_operation (cursor : HObject) (count start_epoch max_bytes : Z) : result WireError Operation :=
  if count =? 0 then Err Malformed
  else
    bytes ← Encoder_finish (encode_hobject (Encoder_new max_bytes) cursor);
    Ok (Op_PGNList bytes (ho_hash cursor) count start_epoch).

(** ** Inconsistent objects *)

Record InconsistentObject : Type := mkInconsistentObject {
  io_object : list byte;
  io_namespace : list byte;
  io_locator : list byte;
  io_snapshot : Z;
  io_shards : list Z;
  io_errors : list (list byte)
}.

Definition encode_scrub_list (interval : Z) (start : InconsistentObject) (maximum max_bytes : Z)
    : result WireError Operation :=
  if (maximum =? 0) || (max_bytes =? 0) then Err LimitExceeded
  else
    bytes ← Encoder_finish (Encoder_versioned (Encoder_new max_bytes) 1 1 (fun e =>
      let e := Encoder_u32 e interval in
      let e := Encoder_u32 e 0 in
      let e := Encoder_bytes e (io_object start) in
      let e := Encoder_bytes e (io_namespace start) in
      let e := Encoder_u64 e (io_snapshot start) in
      Encoder_u64 e maximum));
    Ok (Op_ScrubList bytes).

Definition OBJECT_ERROR_NAMES : list (Z * string) :=
  [(Z.shiftl 1 1, "object_info_inconsistency"); (Z.shiftl 1 4, "data_digest_mismatch");
   (Z.shiftl 1 5, "omap_digest_mismatch"); (Z.shiftl 1 6, "size_mismatch");
   (Z.shiftl 1 7, "attr_value_mismatch"); (Z.shiftl 1 8, "attr_name_mismatch");
   (Z.shiftl 1 9, "snapset_inconsistency"); (Z.shiftl 1 10, "hinfo_inconsistency");
   (Z.shiftl 1 11, "size_too_large")]%string.

Definition SHARD_ERROR_NAMES : list (Z * string) :=
  [(Z.shiftl 1 1, "shard_missing"); (Z.shiftl 1 2, "shard_stat_error");
   (Z.shiftl 1 3, "shard_read_error"); (Z.shiftl 1 9, "data_digest_mismatch_info");
   (Z.shiftl 1 10, "omap_digest_mismatch_info"); (Z.shiftl 1 11, "size_mismatch_info");
   (Z.shiftl 1 12, "shard_ec_hash_mismatch"); (Z.shiftl 1 13, "shard_ec_size_mismatch");
   (Z.shiftl 1 14, "info_missing"); (Z.shiftl 1 15, "info_corrupted");
   (Z.shiftl 1 16, "snapset_missing"); (Z.shiftl 1 17, "snapset_corrupted");
   (Z.shiftl 1 18, "object_size_info_mismatch"); (Z.shiftl 1 19, "hinfo_missing");
   (Z.shiftl 1 20, "hinfo_corrupted")]%string.

(** The bits that have a name. *)
Definition known_bits (names : list (Z * string)) : Z := foldr (fun n => Z.lor n.1) 0 names.

(** [bits & !known] at 64 bits; [{unknown:x}] has at most 16 digits. *)
Definition error_names (bits : Z) (names : list (Z * string)) : list (list byte) :=
  let named := (fun n => list_byte_of_string n.2)
                 <$> filter (fun n => Is_true (negb (Z.land bits n.1 =? 0))) names in
  let unknown := Z.ldiff bits (known_bits names) in
  if unknown =? 0 then named else named ++ [list_byte_of_string "unknown_0x" ++ digits 16 16 unknown].

(** [let (version, payload) = decoder.versioned(v); decoder.finish()?], and the
    rejection of every other version. *)
Definition open_only (v : Z) : WM Decoder :=
  vp ← rd (fun d => Decoder_versioned d v);
  _ ← wire_finished;
  _ ← throw_if (negb (vp.1 =? v)) (UnsupportedVersion v vp.1);
  mret vp.2.

(** The state of one shard: its OSD and its errors. *)
Definition read_shard (max_entries : Z) : WM (Z * Z) :=
  shard ← open_only 1;
  osd_id ← inside shard (id ← rd Decoder_i32; _ ← rd Decoder_i8; _ ← wire_exact; mret id);
  info ← open_only 3;
  errors ← inside info
    (errors ← rd Decoder_u64;
     _ ← rd Decoder_bool;
     _ ← (if Z.land errors (Z.shiftl 1 1) =? 0 then
            attributes ← rd Decoder_u32;
            _ ← throw_if (max_entries <? attributes) LimitExceeded;
            _ ← repeat_read (Z.to_nat attributes) (_ ← rd Decoder_bytes; rd Decoder_bytes);
            _ ← rd Decoder_u64;
            _ ← rd Decoder_bool;
            _ ← rd Decoder_u32;
            _ ← rd Decoder_bool;
            _ ← rd Decoder_u32;
            _ ← rd Decoder_bool;
            mret tt
          else mret tt);
     _ ← wire_exact;
     mret errors);
  mret (osd_id, errors).

Definition decode_inconsistent_object (data : list byte) (max_bytes max_entries : Z)
    : result WireError InconsistentObject :=
  fst <$>
    (payload ← open_only 2;
     inside payload
       (object_errors ← rd Decoder_u64;
        inner ← open_only 1;
        '(object, namespace, locator, snapshot) ← inside inner
          (object ← rd Decoder_bytes;
           namespace ← rd Decoder_bytes;
           locator ← rd Decoder_bytes;
           snapshot ← rd Decoder_u64;
           _ ← wire_exact;
           mret (object, namespace, locator, snapshot));
        _ ← rd Decoder_u64;
        shard_count ← rd Decoder_u32;
        _ ← throw_if (max_entries <? shard_count) LimitExceeded;
        shards ← repeat_read (Z.to_nat shard_count) (read_shard max_entries);
        union_errors ← rd Decoder_u64;
        _ ← wire_exact;
        let shard_errors := foldr Z.lor union_errors shards.*2 in
        mret (mkInconsistentObject object namespace locator snapshot
                (merge_sort Z.le shards.*1)
                (merge_sort bytes_le (error_names object_errors OBJECT_ERROR_NAMES
                                      ++ error_names shard_errors SHARD_ERROR_NAMES)))))
    (Decoder_new data max_bytes).

Definition decode_scrub_list (data : list byte) (max_bytes max_entries : Z)
    : result WireError (Z * list InconsistentObject) :=
  if (max_bytes =? 0) || (max_entries =? 0) then Err LimitExceeded
  else
    fst <$>
      (payload ← open_only 1;
       '(interval, objects, rest) ← inside payload
         (interval ← rd Decoder_u32;
          count ← rd Decoder_u32;
          _ ← throw_if (max_entries <? count) LimitExceeded;
          objects ← repeat_read (Z.to_nat count)
            (bytes ← rd Decoder_bytes; lift (decode_inconsistent_object bytes max_bytes max_entries));
          _ ← wire_finished;
          rest ← remaining;
          mret (interval, objects, rest));
       left_ ← remaining;
       _ ← throw_if (negb (rest =? 0) || negb (left_ =? 0)) Malformed;
       mret (interval, objects)) (Decoder_new data max_bytes).

Lemma find_dot text rest :
  dot ∉ text -> list_find (fun b => b = dot) (text ++ dot :: rest) = Some (length text, dot).
Proof.
  induction text as [|b text IH]; intros H; cbn; [done|].
  rewrite decide_False by set_solver. rewrite IH by set_solver. done.
Qed.

(** The name of a placement group, as Ceph prints it. *)
Definition pg_name (pool seed : Z) : list byte := digits 19 10 pool ++ dot :: digits 8 16 seed.

(** Placement groups are addressed by name: for every pool number that a
    Ceph pool can have and every seed, parsing the printed name of the group
    gives the group back. *)
Theorem pg_name_roundtrip pool seed :
  0 <= pool < 2 ^ 63 -> 0 <= seed < 2 ^ 32 -> parse_pg (pg_name pool seed) = Ok (mkPG pool seed (-1)).
Proof.
  intros Hp Hs. pose proof (digits_are_digits 19 10 pool ltac:(lia) ltac:(lia)) as Hpd.
  pose proof (digits_are_digits 8 16 seed ltac:(lia) ltac:(lia)) as Hsd.
  unfold parse_pg, pg_name.
  rewrite find_dot by (eapply digits_avoid; [|exact Hpd|left]; done). rewrite ok_or_Some, bind_Ok.
  rewrite take_app_length, (cons_middle dot), app_assoc, drop_app_length' by (rewrite length_app; cbn; lia).
  pose proof (digits_nonempty 19 10 pool ltac:(lia)) as Hne1.
  pose proof (digits_nonempty 8 16 seed ltac:(lia)) as Hne2.
  assert ((length (digits 19 10 pool) =? 0)%nat
    || (saturating_sub (zlen ((digits 19 10 pool ++ [dot]) ++ digits 8 16 seed)) 1
        <=? Z.of_nat (length (digits 19 10 pool))) = false) as ->.
  { destruct (digits 19 10 pool) as [|a ta]; [done|]. destruct (digits 8 16 seed) as [|c tc]; [done|].
    unfold saturating_sub, zlen. rewrite !length_app. cbn [length Nat.eqb orb]. apply Z.leb_gt. lia. }
  assert (existsb (fun b => bool_decide (b ∈ shard_marks)) (digits 8 16 seed) = false) as ->.
  { apply not_true_iff_false. rewrite existsb_exists. intros (b & Hin & Hb).
    apply bool_decide_eq_true in Hb. apply list_elem_of_In in Hin.
    assert (b ∉ digits 8 16 seed); [|done]. eapply digits_avoid; [|exact Hsd|]; [done|].
    unfold shard_marks in Hb. rewrite !elem_of_cons, elem_of_nil in Hb. destruct_or?; subst; cbn; lia || done. }
  rewrite parse_i64_digits, ok_or_Some, bind_Ok by lia. unfold try_u.
  rewrite (proj2 (Z.leb_le _ _)), (proj2 (Z.ltb_lt _ _)) by lia. cbn [andb]. rewrite ok_or_Some, bind_Ok.
  by rewrite parse_hex_digits, ok_or_Some, bind_Ok by lia.
Qed.

Lemma pg_name_roundtrip_witness : parse_pg (list_byte_of_string "7.1f") = Ok (mkPG 7 31 (-1)).
Proof. apply (pg_name_roundtrip 7 31); lia. Defined.
