(* ===== verification/OpBuilder.v ===== *)
(** * Compound operations

    Models [src/src/operation.rs]: the builders of atomic compound reads and
    writes, with [ObjectRef::copy_operation] of [src/src/client.rs]. *)

From S2P Require Import Prelude Codec Message Frame Address Control MapBase OsdMap BTree Backoff OsdMessages OsdMetadata.
From Stdlib Require Import ZArith Lia Strings.Byte Strings.String.
From stdpp Require Import base option gmap sorting numbers list.

Open Scope Z_scope.

Definition MAX_SUB_OPERATIONS : Z := 16.
Definition MAX_OPERATION_BYTES : Z := 64 * 1024 * 1024.

(** [FRAME_LIMITS.max_frame_bytes]. *)
Definition max_frame_bytes_client : Z := Z.shiftl 32 20.

(** [Error::invalid(operation)]. *)
Inductive Invalid : Type := InvalidArgument (operation : string).

Abbreviation Build := (result Invalid).

Definition invalid {A} (operation : string) : Build A := Err (InvalidArgument operation).

(** [if cond { return Err(Error::invalid(operation)) }]. *)
Definition reject (cond : bool) (operation : string) : Build unit :=
  if cond then invalid operation else Ok tt.

(** [offset.checked_add(length).is_none()]. *)
Definition past_end (offset length : Z) : bool := 2 ^ 64 <=? offset + length.

(** [length.is_multiple_of(n)]. *)
Definition is_multiple_of (length n : Z) : bool := if n =? 0 then length =? 0 else length mod n =? 0.

Definition valid_xattr_name (name : list byte) (operation : string) : Build (list byte) :=
  _ ← reject ((zlen name =? 0) || bool_decide (x00 ∈ name) || (u32_max <? zlen name)) operation;
  Ok name.

Definition class_operation (class method input : list byte) (mutation : bool) (operation : string)
    : Build Operation :=
  retained ← ok_or (n ← checked_add 64 (zlen class) (zlen method); checked_add 64 n (zlen input))
               (InvalidArgument operation);
  _ ← reject ((zlen class =? 0) || (zlen method =? 0) || bool_decide (x00 ∈ class)
              || bool_decide (x00 ∈ method) || (255 <? zlen class) || (255 <? zlen method)
              || (u32_max <? zlen input) || (MAX_OPERATION_BYTES <? retained)) operation;
  class_length ← ok_or (try_u 8 (zlen class)) (InvalidArgument operation);
  method_length ← ok_or (try_u 8 (zlen method)) (InvalidArgument operation);
  input_length ← ok_or (try_u 32 (zlen input)) (InvalidArgument operation);
  Ok (Op_Call class_length method_length input_length ((class ++ method) ++ input) mutation).

(** ** Reads *)

Inductive ReadAction : Type :=
| RA_Read (offset length : Z)
| RA_SparseRead (offset length : Z)
| RA_Checksum (offset length chunk kind : Z) (seed : list byte)
| RA_Stat
| RA_AssertExists
| RA_AssertVersion (version : Z)
| RA_GetXattr (name : list byte)
| RA_GetOmapHeader
| RA_ListOmap (payload : list byte)
| RA_Exec (operation : Operation)
| RA_WithFlags (action : ReadAction) (flags : Z).

Fixpoint read_operation (action : ReadAction) : Operation :=
  match action with
  | RA_Read offset length => Op_Read offset length
  | RA_SparseRead offset length => Op_SparseRead offset length
  | RA_Checksum offset length chunk kind seed => Op_Checksum offset length chunk kind seed
  | RA_Stat | RA_AssertExists => Op_Stat
  | RA_AssertVersion version => Op_AssertVersion version
  | RA_GetXattr name => Op_GetXattr name
  | RA_GetOmapHeader => Op_OmapGetHeader
  | RA_ListOmap payload => Op_OmapGetValues payload
  | RA_Exec operation => operation
  | RA_WithFlags action flags => Op_WithFlags (read_operation action) flags
  end.

Definition ReadOp : Type := list ReadAction.

Definition ReadOp_new : ReadOp := [].

Definition ReadOp_push (op : ReadOp) (action : ReadAction) : Build ReadOp :=
  if zlen op =? MAX_SUB_OPERATIONS then invalid "ReadOp" else Ok (op ++ [action]).

Definition ReadOp_read (op : ReadOp) (offset length : Z) : Build ReadOp :=
  _ ← reject (past_end offset length) "ReadOp::read";
  _ ← reject (MAX_OPERATION_BYTES <? length) "ReadOp::read";
  ReadOp_push op (RA_Read offset length).

Definition ReadOp_sparse_read (op : ReadOp) (offset length : Z) : Build ReadOp :=
  _ ← reject ((i32_max <? length) || past_end offset length) "ReadOp::sparse_read";
  ReadOp_push op (RA_SparseRead offset length).

Inductive ChecksumType : Type := XxHash32 | XxHash64 | Crc32c.

(** The wire number of a checksum and the width of its seed. *)
Definition checksum_kind (kind : ChecksumType) : Z * Z :=
  match kind with XxHash32 => (0, 4) | XxHash64 => (1, 8) | Crc32c => (2, 4) end.

Definition ReadOp_checksum (op : ReadOp) (kind : ChecksumType) (seed : list byte) (offset length chunk : Z)
    : Build ReadOp :=
  let '(kind, width) := checksum_kind kind in
  _ ← reject (negb (zlen seed =? width) || (i32_max <? length) || past_end offset length
              || (u32_max <? chunk)
              || (negb (chunk =? 0) && ((length =? 0) || negb (is_multiple_of length chunk))))
        "ReadOp::checksum";
  chunk ← ok_or (try_u 32 chunk) (InvalidArgument "ReadOp::checksum");
  ReadOp_push op (RA_Checksum offset length chunk kind seed).

Definition ReadOp_stat (op : ReadOp) : Build ReadOp := ReadOp_push op RA_Stat.
Definition ReadOp_assert_exists (op : ReadOp) : Build ReadOp := ReadOp_push op RA_AssertExists.
Definition ReadOp_assert_version (op : ReadOp) (version : Z) : Build ReadOp :=
  ReadOp_push op (RA_AssertVersion version).

Definition ReadOp_get_xattr (op : ReadOp) (name : list byte) : Build ReadOp :=
  name ← valid_xattr_name name "ReadOp::get_xattr";
  ReadOp_push op (RA_GetXattr name).

Definition ReadOp_get_omap_header (op : ReadOp) : Build ReadOp := ReadOp_push op RA_GetOmapHeader.

Definition ReadOp_list_omap (op : ReadOp) (after : list byte) (limit : Z) : Build ReadOp :=
  _ ← reject (limit =? 0) "ReadOp::list_omap";
  payload ← map_err (fun _ => InvalidArgument "ReadOp::list_omap")
              (encode_list_request after limit MAX_OPERATION_BYTES);
  ReadOp_push op (RA_ListOmap payload).

Definition ReadOp_exec (op : ReadOp) (class method input : list byte) : Build ReadOp :=
  operation ← class_operation class method input false "ReadOp::exec";
  ReadOp_push op (RA_Exec operation).

(** [actions.remove(index)], and [actions.insert(index, wrapped)]. *)
Definition ReadOp_set_flags (op : ReadOp) (index flags : Z) : Build ReadOp :=
  match (if (zlen op <=? index) || negb (Z.ldiff flags OP_FLAG_FAIL_OK =? 0) then None else zget op index) with
  | None => invalid "ReadOp::set_flags"
  | Some action =>
      let action := match action with RA_WithFlags action _ => action | action => action end in
      Ok (take (Z.to_nat index) op ++ RA_WithFlags action flags :: drop (S (Z.to_nat index)) op)
  end.

Definition ReadOp_into_operations (op : ReadOp) : Build (list Operation) :=
  _ ← reject (zlen op =? 0) "ReadOp";
  Ok (read_operation <$> op).

(** ** Writes *)

Section Writes.
  (** The handle of a connected client. *)
  Context {Client : Type}.

Inductive WriteAction : Type :=
| WA_Create (exclusive : bool)
| WA_Write (offset : Z) (data : list byte)
| WA_WriteFull (data : list byte)
| WA_Append (data : list byte)
| WA_Rollback (snapshot : Z)
| WA_WriteSame (offset length : Z) (pattern : list byte)
| WA_AllocationHint (expected_object_size expected_write_size : Z)
| WA_Copy (operation : Operation) (source_client : Client)
| WA_Truncate (size : Z)
| WA_Zero (offset length : Z)
| WA_Remove
| WA_AssertVersion (version : Z)
| WA_CompareExtent (offset : Z) (data : list byte)
| WA_SetXattr (name value : list byte)
| WA_RemoveXattr (name : list byte)
| WA_SetOmap (payload : list byte)
| WA_RemoveOmap (payload : list byte)
| WA_RemoveOmapRange (payload : list byte)
| WA_ClearOmap
| WA_SetOmapHeader (value : list byte)
| WA_CompareOmap (payload : list byte)
| WA_Exec (operation : Operation)
| WA_WithFlags (action : WriteAction) (flags : Z).

Fixpoint write_operation (action : WriteAction) : Operation :=
  match action with
  | WA_Create exclusive => Op_Create exclusive
  | WA_Write offset data => Op_Write offset data
  | WA_WriteFull data => Op_WriteFull data
  | WA_Append data => Op_Append data
  | WA_Rollback snapshot => Op_Rollback snapshot
  | WA_WriteSame offset length pattern => Op_WriteSame offset length pattern
  | WA_AllocationHint object_size write_size => Op_AllocationHint object_size write_size
  | WA_Copy operation _ | WA_Exec operation => operation
  | WA_Truncate size => Op_Truncate size
  | WA_Zero offset length => Op_Zero offset length
  | WA_Remove => Op_Remove
  | WA_AssertVersion version => Op_AssertVersion version
  | WA_CompareExtent offset data => Op_CompareExtent offset data
  | WA_SetXattr name value => Op_SetXattr name value
  | WA_RemoveXattr name => Op_RemoveXattr name
  | WA_SetOmap payload => Op_OmapSetValues payload
  | WA_RemoveOmap payload => Op_OmapRemoveKeys payload
  | WA_RemoveOmapRange payload => Op_OmapRemoveRange payload
  | WA_ClearOmap => Op_OmapClear
  | WA_SetOmapHeader value => Op_OmapSetHeader value
  | WA_CompareOmap payload => Op_OmapCompare payload
  | WA_WithFlags action flags => Op_WithFlags (write_operation action) flags
  end.

Record WriteOp : Type := mkWriteOp { wo_actions : list WriteAction; wo_retained_bytes : Z }.

Definition WriteOp_new : WriteOp := mkWriteOp [] 0.

Definition WriteOp_push (op : WriteOp) (action : WriteAction) (retained_bytes : Z) : Build WriteOp :=
  total ← ok_or (checked_add 64 (wo_retained_bytes op) retained_bytes) (InvalidArgument "WriteOp");
  _ ← reject ((zlen (wo_actions op) =? MAX_SUB_OPERATIONS) || (MAX_OPERATION_BYTES <? total)) "WriteOp";
  Ok (mkWriteOp (wo_actions op ++ [action]) total).

Definition WriteOp_create (op : WriteOp) (exclusive : bool) : Build WriteOp :=
  WriteOp_push op (WA_Create exclusive) 0.

Definition WriteOp_write (op : WriteOp) (offset : Z) (data : list byte) : Build WriteOp :=
  _ ← reject (past_end offset (zlen data)) "WriteOp::write";
  WriteOp_push op (WA_Write offset data) (zlen data).

Definition WriteOp_write_full (op : WriteOp) (data : list byte) : Build WriteOp :=
  WriteOp_push op (WA_WriteFull data) (zlen data).

Definition WriteOp_append (op : WriteOp) (data : list byte) : Build WriteOp :=
  WriteOp_push op (WA_Append data) (zlen data).

Definition WriteOp_rollback (op : WriteOp) (snapshot : Z) (operation : string) : Build WriteOp :=
  _ ← reject (snapshot =? 0) operation;
  WriteOp_push op (WA_Rollback snapshot) 0.

Definition WriteOp_rollback_to_snapshot (op : WriteOp) (snapshot : Z) : Build WriteOp :=
  WriteOp_rollback op snapshot "WriteOp::rollback_to_snapshot".

Definition WriteOp_rollback_to_self_managed_snapshot (op : WriteOp) (snapshot : Z) : Build WriteOp :=
  WriteOp_rollback op snapshot "WriteOp::rollback_to_self_managed_snapshot".

Definition WriteOp_write_same (op : WriteOp) (offset length : Z) (pattern : list byte) : Build WriteOp :=
  _ ← reject ((zlen pattern =? 0) || (length =? 0) || negb (is_multiple_of length (zlen pattern))
              || past_end offset length) "WriteOp::write_same";
  WriteOp_push op (WA_WriteSame offset length pattern) (zlen pattern).

Definition WriteOp_set_allocation_hint (op : WriteOp) (object_size write_size : Z) : Build WriteOp :=
  WriteOp_push op (WA_AllocationHint object_size write_size) 0.

(** What [copy_operation] reads of an [ObjectRef] and its pool view. *)
Record ObjectRef : Type := mkObjectRef {
  obj_client : Client;
  obj_pool_id : option Z;
  obj_name : list byte;
  obj_namespace : list byte;
  obj_locator : list byte;
  obj_read_snapshot : option Z
}.

Definition copy_operation (source : ObjectRef) (source_version : Z) (truncate : option (Z * Z))
    (operation : string) : Build (Operation * Client) :=
  source_pool ← ok_or (obj_pool_id source) (InvalidArgument operation);
  encoded ← map_err (fun _ => InvalidArgument operation)
              (encode_copy_source (mkCopySource (obj_name source) source_pool (obj_locator source)
                                     (obj_namespace source)) truncate max_frame_bytes_client);
  let source_snapshot := default NO_SNAP (obj_read_snapshot source) in
  let osd_operation := match truncate with
                       | Some _ => Op_CopyFrom2 source_snapshot source_version encoded
                       | None => Op_CopyFrom source_snapshot source_version encoded
                       end in
  Ok (osd_operation, obj_client source).

Definition WriteOp_copy (op : WriteOp) (source : ObjectRef) (source_version : Z) (truncate : option (Z * Z))
    (operation_name : string) : Build WriteOp :=
  '(operation, source_client) ← copy_operation source source_version truncate operation_name;
  WriteOp_push op (WA_Copy operation source_client) (Operation_data_len operation).

Definition WriteOp_copy_from (op : WriteOp) (source : ObjectRef) (source_version : Z) : Build WriteOp :=
  WriteOp_copy op source source_version None "WriteOp::copy_from".

Definition WriteOp_copy_from2 (op : WriteOp) (source : ObjectRef)
    (source_version truncate_sequence truncate_size : Z) : Build WriteOp :=
  WriteOp_copy op source source_version (Some (truncate_sequence, truncate_size)) "WriteOp::copy_from2".

Definition WriteOp_truncate (op : WriteOp) (size : Z) : Build WriteOp := WriteOp_push op (WA_Truncate size) 0.

Definition WriteOp_zero (op : WriteOp) (offset length : Z) : Build WriteOp :=
  _ ← reject (past_end offset length) "WriteOp::zero";
  WriteOp_push op (WA_Zero offset length) 0.

Definition WriteOp_remove (op : WriteOp) : Build WriteOp := WriteOp_push op WA_Remove 0.

Definition WriteOp_assert_version (op : WriteOp) (version : Z) : Build WriteOp :=
  WriteOp_push op (WA_AssertVersion version) 0.

Definition WriteOp_compare_extent (op : WriteOp) (offset : Z) (data : list byte) : Build WriteOp :=
  _ ← reject (past_end offset (zlen data)) "WriteOp::compare_extent";
  WriteOp_push op (WA_CompareExtent offset data) (zlen data).

Definition WriteOp_set_xattr (op : WriteOp) (name value : list byte) : Build WriteOp :=
  name ← valid_xattr_name name "WriteOp::set_xattr";
  retained ← ok_or (checked_add 64 (zlen name) (zlen value)) (InvalidArgument "WriteOp::set_xattr");
  WriteOp_push op (WA_SetXattr name value) retained.

Definition WriteOp_remove_xattr (op : WriteOp) (name : list byte) : Build WriteOp :=
  name ← valid_xattr_name name "WriteOp::remove_xattr";
  WriteOp_push op (WA_RemoveXattr name) (zlen name).

Definition WriteOp_set_omap (op : WriteOp) (values : list Entry) : Build WriteOp :=
  payload ← map_err (fun _ => InvalidArgument "WriteOp::set_omap") (encode_map values MAX_OPERATION_BYTES);
  WriteOp_push op (WA_SetOmap payload) (zlen payload).

Definition WriteOp_remove_omap (op : WriteOp) (keys : list (list byte)) : Build WriteOp :=
  payload ← map_err (fun _ => InvalidArgument "WriteOp::remove_omap") (encode_keys keys MAX_OPERATION_BYTES);
  WriteOp_push op (WA_RemoveOmap payload) (zlen payload).

Definition WriteOp_remove_omap_range (op : WriteOp) (begin end_ : list byte) : Build WriteOp :=
  payload ← map_err (fun _ => InvalidArgument "WriteOp::remove_omap_range")
              (encode_range begin end_ MAX_OPERATION_BYTES);
  WriteOp_push op (WA_RemoveOmapRange payload) (zlen payload).

Definition WriteOp_clear_omap (op : WriteOp) : Build WriteOp := WriteOp_push op WA_ClearOmap 0.

Definition WriteOp_set_omap_header (op : WriteOp) (value : list byte) : Build WriteOp :=
  WriteOp_push op (WA_SetOmapHeader value) (zlen value).

Definition WriteOp_compare_omap (op : WriteOp) (key value : list byte) : Build WriteOp :=
  payload ← map_err (fun _ => InvalidArgument "WriteOp::compare_omap")
              (encode_compare key value 1 MAX_OPERATION_BYTES);
  WriteOp_push op (WA_CompareOmap payload) (zlen payload).

Definition WriteOp_exec (op : WriteOp) (class method input : list byte) : Build WriteOp :=
  operation ← class_operation class method input true "WriteOp::exec";
  WriteOp_push op (WA_Exec operation) (Operation_data_len operation).

Definition WriteOp_set_flags (op : WriteOp) (index flags : Z) : Build WriteOp :=
  let actions := wo_actions op in
  match (if (zlen actions <=? index) || negb (Z.ldiff flags OP_FLAG_FAIL_OK =? 0)
         then None else zget actions index) with
  | None => invalid "WriteOp::set_flags"
  | Some action =>
      let action := match action with WA_WithFlags action _ => action | action => action end in
      Ok (mkWriteOp (take (Z.to_nat index) actions
                     ++ WA_WithFlags action flags :: drop (S (Z.to_nat index)) actions)
            (wo_retained_bytes op))
  end.

Definition WriteOp_into_operations (op : WriteOp) : Build (list Operation) :=
  _ ← reject (zlen (wo_actions op) =? 0) "WriteOp";
  Ok (write_operation <$> wo_actions op).

Fixpoint write_action_copy_source (action : WriteAction) : option Client :=
  match action with
  | WA_Copy _ source_client => Some source_client
  | WA_WithFlags action _ => write_action_copy_source action
  | _ => None
  end.

Definition copy_sources (op : WriteOp) : list Client := omap write_action_copy_source (wo_actions op).
End Writes.

(** ** Every sequence of builder calls *)

Inductive read_step (op op' : ReadOp) : Prop :=
| RS_read offset length : ReadOp_read op offset length = Ok op' -> read_step op op'
| RS_sparse_read offset length : ReadOp_sparse_read op offset length = Ok op' -> read_step op op'
| RS_checksum kind seed offset length chunk :
    ReadOp_checksum op kind seed offset length chunk = Ok op' -> read_step op op'
| RS_stat : ReadOp_stat op = Ok op' -> read_step op op'
| RS_assert_exists : ReadOp_assert_exists op = Ok op' -> read_step op op'
| RS_assert_version version : ReadOp_assert_version op version = Ok op' -> read_step op op'
| RS_get_xattr name : ReadOp_get_xattr op name = Ok op' -> read_step op op'
| RS_get_omap_header : ReadOp_get_omap_header op = Ok op' -> read_step op op'
| RS_list_omap after limit : ReadOp_list_omap op after limit = Ok op' -> read_step op op'
| RS_exec class method input : ReadOp_exec op class method input = Ok op' -> read_step op op'
| RS_set_flags index flags : ReadOp_set_flags op index flags = Ok op' -> read_step op op'.

Inductive read_built : ReadOp -> Prop :=
| RB_new : read_built ReadOp_new
| RB_step op op' : read_built op -> read_step op op' -> read_built op'.

Inductive write_step {Client} (op op' : WriteOp (Client := Client)) : Prop :=
| WS_create exclusive : WriteOp_create op exclusive = Ok op' -> write_step op op'
| WS_write offset data : WriteOp_write op offset data = Ok op' -> write_step op op'
| WS_write_full data : WriteOp_write_full op data = Ok op' -> write_step op op'
| WS_append data : WriteOp_append op data = Ok op' -> write_step op op'
| WS_rollback snapshot : WriteOp_rollback_to_snapshot op snapshot = Ok op' -> write_step op op'
| WS_rollback_self snapshot :
    WriteOp_rollback_to_self_managed_snapshot op snapshot = Ok op' -> write_step op op'
| WS_write_same offset length pattern : WriteOp_write_same op offset length pattern = Ok op' -> write_step op op'
| WS_hint object_size write_size :
    WriteOp_set_allocation_hint op object_size write_size = Ok op' -> write_step op op'
| WS_copy source version : WriteOp_copy_from op source version = Ok op' -> write_step op op'
| WS_copy2 source version sequence size :
    WriteOp_copy_from2 op source version sequence size = Ok op' -> write_step op op'
| WS_truncate size : WriteOp_truncate op size = Ok op' -> write_step op op'
| WS_zero offset length : WriteOp_zero op offset length = Ok op' -> write_step op op'
| WS_remove : WriteOp_remove op = Ok op' -> write_step op op'
| WS_assert version : WriteOp_assert_version op version = Ok op' -> write_step op op'
| WS_compare offset data : WriteOp_compare_extent op offset data = Ok op' -> write_step op op'
| WS_set_xattr name value : WriteOp_set_xattr op name value = Ok op' -> write_step op op'
| WS_remove_xattr name : WriteOp_remove_xattr op name = Ok op' -> write_step op op'
| WS_set_omap values : WriteOp_set_omap op values = Ok op' -> write_step op op'
| WS_remove_omap keys : WriteOp_remove_omap op keys = Ok op' -> write_step op op'
| WS_remove_range begin end_ : WriteOp_remove_omap_range op begin end_ = Ok op' -> write_step op op'
| WS_clear : WriteOp_clear_omap op = Ok op' -> write_step op op'
| WS_header value : WriteOp_set_omap_header op value = Ok op' -> write_step op op'
| WS_compare_omap key value : WriteOp_compare_omap op key value = Ok op' -> write_step op op'
| WS_exec class method input : WriteOp_exec op class method input = Ok op' -> write_step op op'
| WS_set_flags index flags : WriteOp_set_flags op index flags = Ok op' -> write_step op op'.

Inductive write_built {Client} : WriteOp (Client := Client) -> Prop :=
| WB_new : write_built WriteOp_new
| WB_step op op' : write_built op -> write_step op op' -> write_built op'.

(** ** Invariants *)

(** An operation without a flags wrapper. *)
Definition bare (op : Operation) : Prop := match op with Op_WithFlags _ _ => False | _ => True end.

(** A read action is bare, or flags around a bare one, and changes nothing. *)
Definition read_action_ok (action : ReadAction) : Prop :=
  match action with
  | RA_WithFlags action _ => bare (read_operation action) /\ Operation_is_mutation (read_operation action) = false
  | action => bare (read_operation action) /\ Operation_is_mutation (read_operation action) = false
  end.

Definition read_op_ok (op : ReadOp) : Prop := zlen op <= MAX_SUB_OPERATIONS /\ Forall read_action_ok op.

Definition write_action_ok {Client} (action : WriteAction (Client := Client)) : Prop :=
  match action with
  | WA_WithFlags action _ => bare (write_operation action)
  | action => bare (write_operation action)
  end.

(** The bytes the actions keep. *)
Definition retained {Client} (actions : list (WriteAction (Client := Client))) : Z :=
  foldr (fun a t => Operation_data_len (write_operation a) + t) 0 actions.

Definition write_op_ok {Client} (op : WriteOp (Client := Client)) : Prop :=
  zlen (wo_actions op) <= MAX_SUB_OPERATIONS /\ Forall write_action_ok (wo_actions op)
  /\ retained (wo_actions op) = wo_retained_bytes op /\ wo_retained_bytes op <= MAX_OPERATION_BYTES.

Lemma bare_flat op flags : bare op -> flat (Op_WithFlags op flags).
Proof. by destruct op. Qed.

Lemma bare_is_flat op : bare op -> flat op.
Proof. by destruct op. Qed.

Lemma class_operation_Ok class method input mutation name op :
  class_operation class method input mutation name = Ok op ->
  bare op /\ Operation_is_mutation op = mutation.
Proof. unfold class_operation. intros H. ok_inv. by subst. Qed.

Lemma ReadOp_push_ok op op' action :
  read_op_ok op -> read_action_ok action -> ReadOp_push op action = Ok op' -> read_op_ok op'.
Proof.
  intros [Hn Hf] Ha. unfold ReadOp_push. destruct (Z.eqb_spec (zlen op) MAX_SUB_OPERATIONS); [done|].
  intros H. ok_inv. subst. split; [autorewrite with zlen; lia|]. apply Forall_app. by split; [|constructor].
Qed.

Lemma zget_Forall {A} (P : A -> Prop) l i x : Forall P l -> zget l i = Some x -> P x.
Proof.
  unfold zget. destruct (_ <? _); [done|]. intros Hf Hx. rewrite Forall_lookup in Hf. by eapply Hf.
Qed.

Lemma replace_at {A} (l : list A) i x y :
  zget l i = Some x ->
  exists before after, l = before ++ x :: after
    /\ take (Z.to_nat i) l ++ y :: drop (S (Z.to_nat i)) l = before ++ y :: after.
Proof.
  unfold zget. destruct (_ <? _); [done|]. intros Hx.
  exists (take (Z.to_nat i) l), (drop (S (Z.to_nat i)) l). split; [|done].
  by rewrite take_drop_middle.
Qed.

Lemma ReadOp_set_flags_ok op op' index flags :
  read_op_ok op -> ReadOp_set_flags op index flags = Ok op' -> read_op_ok op'.
Proof.
  intros [Hn Hf]. unfold ReadOp_set_flags. destruct (_ || _); [done|].
  destruct (zget op index) as [a|] eqn:Ea; [|done]. intros H. ok_inv.
  pose proof (zget_Forall _ _ _ _ Hf Ea) as Ha.
  destruct (replace_at _ _ _ (RA_WithFlags match a with RA_WithFlags a _ => a | a => a end flags) Ea)
    as (before & after & -> & E). rewrite E in H. subst op'.
  apply Forall_app in Hf as [Hb Hf]. apply Forall_cons in Hf as [_ Hc].
  split; [autorewrite with zlen in *; lia|]. apply Forall_app. split; [done|]. constructor; [|done].
  by destruct a.
Qed.

Lemma read_step_ok op op' : read_op_ok op -> read_step op op' -> read_op_ok op'.
Proof.
  intros Hop [].
  all: try (eapply ReadOp_set_flags_ok; [done|eassumption]).
  all: unfold ReadOp_read, ReadOp_sparse_read, ReadOp_checksum, ReadOp_stat, ReadOp_assert_exists,
         ReadOp_assert_version, ReadOp_get_xattr, ReadOp_get_omap_header, ReadOp_list_omap, ReadOp_exec in *.
  all: try destruct (checksum_kind _) as [k w].
  all: ok_inv; try (by eapply ReadOp_push_ok; [done| |eassumption]).
  rename select (class_operation _ _ _ _ _ = _) into Hc. apply class_operation_Ok in Hc.
  by eapply ReadOp_push_ok; [done| |eassumption].
Qed.

Lemma retained_app {Client} (l k : list (WriteAction (Client := Client))) :
  retained (l ++ k) = retained l + retained k.
Proof. induction l as [|a l IH]; [done|]. cbn [app retained foldr]. fold (retained (l ++ k)) (retained l). lia. Qed.

Lemma WriteOp_push_ok {Client} (op op' : WriteOp (Client := Client)) action n :
  write_op_ok op -> write_action_ok action -> Operation_data_len (write_operation action) = n ->
  WriteOp_push op action n = Ok op' -> write_op_ok op'.
Proof.
  intros (Hn & Hf & Hr & Hb) Ha <-. unfold WriteOp_push, reject. intros H. ok_inv.
  destruct (_ || _) eqn:Hc in R0; [done|]. apply orb_false_elim in Hc as [H1 H2]. subst op'.
  apply ok_or_inv in R. unfold checked_add in R. split_if. simplify_eq.
  apply Z.eqb_neq in H1. apply Z.ltb_ge in H2. unfold write_op_ok. cbn [wo_actions wo_retained_bytes].
  rewrite retained_app. cbn [retained foldr]. autorewrite with zlen. rewrite Forall_app, Hr.
  split_and!; [lia|done|by constructor|lia|lia].
Qed.

Lemma WriteOp_set_flags_ok {Client} (op op' : WriteOp (Client := Client)) index flags :
  write_op_ok op -> WriteOp_set_flags op index flags = Ok op' -> write_op_ok op'.
Proof.
  intros (Hn & Hf & Hr & Hb). unfold WriteOp_set_flags. cbv zeta. destruct (_ || _); [done|].
  destruct (zget (wo_actions op) index) as [a|] eqn:Ea; [|done]. intros H. ok_inv. subst op'.
  pose proof (zget_Forall _ _ _ _ Hf Ea) as Ha.
  destruct (replace_at _ _ _ (WA_WithFlags match a with WA_WithFlags a _ => a | a => a end flags) Ea)
    as (before & after & E0 & E). unfold write_op_ok. cbn [wo_actions wo_retained_bytes]. rewrite E.
  rewrite E0 in *. apply Forall_app in Hf as [Hb' Hf]. apply Forall_cons in Hf as [_ Hc].
  rewrite retained_app in *. autorewrite with zlen in *. split_and!; [lia| | |done].
  - apply Forall_app. split; [done|]. constructor; [|done]. by destruct a.
  - rewrite <- Hr. f_equal. cbn [retained foldr]. f_equal. by destruct a.
Qed.

Lemma write_step_ok {Client} (op op' : WriteOp (Client := Client)) :
  write_op_ok op -> write_step op op' -> write_op_ok op'.
Proof.
  intros Hop [].
  all: try (eapply WriteOp_set_flags_ok; [done|eassumption]).
  all: unfold WriteOp_create, WriteOp_write, WriteOp_write_full, WriteOp_append, WriteOp_rollback_to_snapshot,
         WriteOp_rollback_to_self_managed_snapshot, WriteOp_rollback, WriteOp_write_same,
         WriteOp_set_allocation_hint, WriteOp_copy_from, WriteOp_copy_from2, WriteOp_copy, WriteOp_truncate,
         WriteOp_zero, WriteOp_remove, WriteOp_assert_version, WriteOp_compare_extent, WriteOp_set_xattr,
         WriteOp_remove_xattr, WriteOp_set_omap, WriteOp_remove_omap, WriteOp_remove_omap_range,
         WriteOp_clear_omap, WriteOp_set_omap_header, WriteOp_compare_omap, WriteOp_exec, copy_operation in *.
  all: ok_inv; try (by eapply WriteOp_push_ok; [done| | |eassumption]).
  all: match goal with
  | Hc : class_operation _ _ _ _ _ = _ |- _ =>
      apply class_operation_Ok in Hc as [Hc _]; by eapply WriteOp_push_ok; [done| | |eassumption]
  | Hc : ok_or (checked_add _ _ _) _ = _ |- _ =>
      apply ok_or_inv in Hc; unfold checked_add in Hc; split_if; simplify_eq;
      eapply WriteOp_push_ok; [done| | |eassumption]; [done|];
      cbn [write_operation Operation_data_len]; unfold u64_max; bool_prop; lia
  | _ => subst; by eapply WriteOp_push_ok; [done| | |eassumption]
  end.
Qed.

Lemma read_built_ok op : read_built op -> read_op_ok op.
Proof. induction 1 as [|op op' _ IH Hs]; [by split|]. by eapply read_step_ok. Qed.

Lemma write_built_ok {Client} (op : WriteOp (Client := Client)) : write_built op -> write_op_ok op.
Proof. induction 1 as [|op op' _ IH Hs]; [by split_and!|]. by eapply write_step_ok. Qed.

Lemma read_actions_flat op : Forall read_action_ok op -> Forall flat (read_operation <$> op).
Proof.
  intros H. apply Forall_fmap. eapply Forall_impl; [exact H|]. intros a Ha. unfold compose.
  destruct a; destruct Ha as [Ha _]; cbn [read_operation]; first [by apply bare_flat | by apply bare_is_flat].
Qed.

Lemma read_actions_pure op :
  Forall read_action_ok op -> Forall (fun o => Operation_is_mutation o = false) (read_operation <$> op).
Proof.
  intros H. apply Forall_fmap. eapply Forall_impl; [exact H|]. intros a Ha. unfold compose.
  destruct a; destruct Ha as [_ Ha]; done.
Qed.

Lemma write_actions_flat {Client} (actions : list (WriteAction (Client := Client))) :
  Forall write_action_ok actions -> Forall flat (write_operation <$> actions).
Proof.
  intros H. apply Forall_fmap. eapply Forall_impl; [exact H|]. intros a Ha. unfold compose.
  destruct a; cbn [write_operation]; first [by apply bare_flat | by apply bare_is_flat].
Qed.

Lemma data_len_nonneg op : 0 <= Operation_data_len op.
Proof.
  induction op; cbn [Operation_data_len]; try apply zlen_nonneg; try done.
  pose proof (zlen_nonneg name). pose proof (zlen_nonneg value). unfold u64_max. lia.
Qed.

Lemma total_data_len_sum ops : forall start,
  0 <= start -> start + foldr (fun o t => Operation_data_len o + t) 0 ops < 2 ^ 64 ->
  fold_left (fun total op => total ← total; checked_add 64 total (Operation_data_len op)) ops (Some start)
  = Some (start + foldr (fun o t => Operation_data_len o + t) 0 ops).
Proof.
  induction ops as [|o ops IH]; intros start Hs H; cbn [fold_left foldr] in *; [by rewrite Z.add_0_r|].
  pose proof (data_len_nonneg o).
  assert (0 <= foldr (fun o t => Operation_data_len o + t) 0 ops) as Hn.
  { clear. induction ops as [|o ops IH]; cbn; [done|]. pose proof (data_len_nonneg o). lia. }
  cbn. unfold checked_add at 2. rewrite (proj2 (Z.ltb_lt _ _)) by lia.
  rewrite IH by lia. f_equal. lia.
Qed.

Lemma retained_operations {Client} (actions : list (WriteAction (Client := Client))) :
  foldr (fun o t => Operation_data_len o + t) 0 (write_operation <$> actions) = retained actions.
Proof. induction actions as [|a actions IH]; [done|]. cbn [fmap list_fmap foldr retained]. by rewrite IH. Qed.

(** ** Properties *)

(** A compound read can always be sent as one: whatever sequence of builder
    calls succeeds, the operations it yields are between one and sixteen, none
    of them changes the object, and no request with them makes the encoder
    panic. *)
Theorem read_builder_sound op ops :
  read_built op -> ReadOp_into_operations op = Ok ops ->
  1 <= zlen ops <= MAX_SUB_OPERATIONS
  /\ Forall (fun o => Operation_is_mutation o = false) ops
  /\ forall r limits, rq_operations r = ops -> encode_request r limits <> Err Unreachable.
Proof.
  intros Hb H. apply read_built_ok in Hb as [Hn Hf]. unfold ReadOp_into_operations, reject in H. ok_inv.
  destruct (Z.eqb_spec (zlen op) 0) as [|Hz]; [done|]. subst ops.
  split_and!; [| |by apply read_actions_pure|].
  - unfold zlen in *. rewrite length_fmap. lia.
  - unfold zlen in *. by rewrite length_fmap.
  - intros r limits Hr. apply encode_request_flat. rewrite Hr. by apply read_actions_flat.
Qed.

(** A compound write stays within its bounds: whatever sequence of builder
    calls succeeds, the operations it yields are between one and sixteen, the
    data they carry is exactly what the builder counted, at most 64 MiB, and
    no request with them makes the encoder panic. *)
Theorem write_builder_sound {Client} (op : WriteOp (Client := Client)) ops :
  write_built op -> WriteOp_into_operations op = Ok ops ->
  1 <= zlen ops <= MAX_SUB_OPERATIONS
  /\ total_data_len ops = Some (wo_retained_bytes op) /\ wo_retained_bytes op <= MAX_OPERATION_BYTES
  /\ forall r limits, rq_operations r = ops -> encode_request r limits <> Err Unreachable.
Proof.
  intros Hb H. apply write_built_ok in Hb as (Hn & Hf & Hr & Hm). unfold WriteOp_into_operations, reject in H. ok_inv.
  destruct (Z.eqb_spec (zlen (wo_actions op)) 0) as [|Hz]; [done|]. subst ops.
  split_and!; [| | |done|].
  - unfold zlen in *. rewrite length_fmap. lia.
  - unfold zlen in *. by rewrite length_fmap.
  - unfold total_data_len. rewrite total_data_len_sum, retained_operations, Hr; [done|done|].
    rewrite retained_operations, Hr. unfold MAX_OPERATION_BYTES in Hm. lia.
  - intros r limits Hq. apply encode_request_flat. rewrite Hq. by apply write_actions_flat.
Qed.

(** ** Witnesses *)

(** [ReadOp::new().stat()?.read(0, 8)?.set_flags(0, FAIL_OK)?]. *)
Definition test_read : ReadOp := [RA_WithFlags RA_Stat 2; RA_Read 0 8].

Lemma test_read_built : read_built test_read.
Proof.
  eapply RB_step; [eapply RB_step; [eapply RB_step; [apply RB_new|]|]|].
  - apply RS_stat. reflexivity.
  - apply (RS_read _ _ 0 8). reflexivity.
  - apply (RS_set_flags _ _ 0 2). reflexivity.
Qed.

Lemma read_builder_sound_witness :
  1 <= zlen [Op_WithFlags Op_Stat 2; Op_Read 0 8] <= MAX_SUB_OPERATIONS
  /\ Forall (fun o => Operation_is_mutation o = false) [Op_WithFlags Op_Stat 2; Op_Read 0 8]
  /\ forall r limits, rq_operations r = [Op_WithFlags Op_Stat 2; Op_Read 0 8] ->
       encode_request r limits <> Err Unreachable.
Proof. apply (read_builder_sound test_read); [apply test_read_built|reflexivity]. Defined.

(** [WriteOp::new().write(3, "ab")?.set_xattr("n", "v")?]. *)
Definition test_write : WriteOp (Client := unit) :=
  mkWriteOp [WA_Write 3 [x61; x62]; WA_SetXattr [x6e] [x76]] 4.

Lemma test_write_built : write_built test_write.
Proof.
  eapply WB_step; [eapply WB_step; [apply WB_new|]|].
  - apply (WS_write _ _ 3 [x61; x62]). reflexivity.
  - apply (WS_set_xattr _ _ [x6e] [x76]). reflexivity.
Qed.

Lemma write_builder_sound_witness :
  let ops := [Op_Write 3 [x61; x62]; Op_SetXattr [x6e] [x76]] in
  1 <= zlen ops <= MAX_SUB_OPERATIONS
  /\ total_data_len ops = Some 4 /\ 4 <= MAX_OPERATION_BYTES
  /\ forall r limits, rq_operations r = ops -> encode_request r limits <> Err Unreachable.
Proof. apply (write_builder_sound test_write); [apply test_write_built|reflexivity]. Defined.
