(* ===== verification/OsdClient.v ===== *)
(** * The OSD client's bookkeeping

    Models the state [src/src/osd/client.rs] keeps outside of single requests:
    the errors and their conversions, the checks of replies, the accounting of
    mutations with its flush, the table of sessions, and the pager of
    inconsistent objects. *)

From S2P Require Import Prelude Codec Message Frame Address Control SessionState MapBase OsdMap Backoff OsdMessages OsdMetadata OsdCommand.
From Stdlib Require Import ZArith Lia Strings.Byte Strings.String.
From stdpp Require Import base option gmap sorting numbers list fin_maps.

Open Scope Z_scope.

Definition MAX_ATTEMPTS : nat := 4.
Definition MAX_RETIRED_SESSIONS : Z := 16.
Definition READ_REPLY_FRONT_BYTES : Z := 144.
Definition MAX_MUTATIONS : Z := 64.
Definition MAX_MUTATION_BYTES : Z := 64 * 32 * 1024 * 1024.
Definition SCRUB_PAGE_SIZE : Z := 1024.

Record Target : Type := mkTarget {
  tg_pool_id : Z;
  tg_object : list byte;
  tg_locator : list byte;
  tg_namespace : list byte;
  tg_snapshot : Z;
  tg_snapshot_sequence : Z;
  tg_write_snapshots : list Z
}.

Record ReadResult : Type := mkReadResult { rr_data : list byte; rr_version : Z }.

Record CommandResult : Type := mkCommandResult {
  cmr_result : Z;
  cmr_status : list byte;
  cmr_output : list byte
}.

Record CompoundResult : Type := mkCompoundResult {
  cp_operations : list OperationResult;
  cp_version : Z
}.

Inductive Mutation : Type :=
| Mu_Create (exclusive : bool)
| Mu_Write (offset : Z) (data : list byte)
| Mu_WriteFull (data : list byte)
| Mu_Append (data : list byte)
| Mu_Truncate (size : Z)
| Mu_Zero (offset length : Z)
| Mu_Remove.

Definition Mutation_into_owned (m : Mutation) : Operation :=
  match m with
  | Mu_Create exclusive => Op_Create exclusive
  | Mu_Write offset data => Op_Write offset data
  | Mu_WriteFull data => Op_WriteFull data
  | Mu_Append data => Op_Append data
  | Mu_Truncate size => Op_Truncate size
  | Mu_Zero offset length => Op_Zero offset length
  | Mu_Remove => Op_Remove
  end.

Inductive UnknownCause : Type := UC_Cancelled | UC_Timeout | UC_Transport.

#[export] Instance UnknownCause_eq_dec : EqDecision UnknownCause.
Proof. solve_decision. Defined.

Inductive OsdError : Type :=
| OX_Closed
| OX_NotConnected
| OX_StaleMap
| OX_NoPrimary
| OX_LimitExceeded
| OX_MalformedReply
| OX_Unsupported
| OX_Timeout
| OX_Cancelled
| OX_QueueSaturated
| OX_RecoveryExhausted
| OX_OutcomeUnknown (cause : UnknownCause)
| OX_WireErrno (code : Z).

#[export] Instance OsdError_eq_dec : EqDecision OsdError.
Proof. solve_decision. Defined.

(** ** Conversions of errors *)

Definition map_session_error (e : SessionError) : OsdError :=
  match e with
  | SE_Closed => OX_Closed
  | SE_Cancelled => OX_Cancelled
  | SE_QueueSaturated | SE_TooManyInFlight => OX_QueueSaturated
  | SE_UnsupportedFeature | SE_UnsupportedPayload => OX_Unsupported
  | SE_Disconnected | SE_TransitionLimit | SE_ReconnectExhausted | SE_OutcomeUnknown | SE_Renewal
  | SE_Malformed | SE_Frame _ => OX_NotConnected
  end.

Definition map_request_error (e : SessionError) (mutation : bool) : OsdError :=
  if mutation && bool_decide (e = SE_OutcomeUnknown) then OX_OutcomeUnknown UC_Transport
  else map_session_error e.

Definition cause_error (cause : UnknownCause) : OsdError :=
  match cause with
  | UC_Cancelled => OX_Cancelled
  | UC_Timeout => OX_Timeout
  | UC_Transport => OX_NotConnected
  end.

(** What the cancellation of a request comes to. *)
Definition classify_cancel (r : result SessionError (option Message)) (cause : UnknownCause) (mutation : bool)
    : result OsdError Message :=
  match r with
  | Ok (Some reply) => Ok reply
  | Ok None => Err OX_MalformedReply
  | Err SE_Cancelled => Err (cause_error cause)
  | Err SE_OutcomeUnknown =>
      if mutation then Err (OX_OutcomeUnknown cause) else Err (map_request_error SE_OutcomeUnknown mutation)
  | Err e => Err (map_request_error e mutation)
  end.

Definition map_wire_error (e : WireError) : OsdError :=
  match e with
  | LimitExceeded => OX_LimitExceeded
  | Malformed => OX_MalformedReply
  | UnsupportedVersion _ _ => OX_Unsupported
  end.

Definition map_message_error (e : OsdMessageError) : OsdError :=
  match e with
  | OE_Wire LimitExceeded => OX_LimitExceeded
  | OE_UnsupportedVersion | OE_Wire (UnsupportedVersion _ _) => OX_Unsupported
  | OE_Wire Malformed | OE_Malformed => OX_MalformedReply
  end.

Definition map_command_message_error (e : CommandError) : OsdError :=
  match e with
  | CE_Wire LimitExceeded => OX_LimitExceeded
  | CE_Wire Malformed | CE_MalformedReply => OX_MalformedReply
  | CE_Wire (UnsupportedVersion _ _) | CE_UnsupportedVersion => OX_Unsupported
  end.

Definition preserve_unknown (e : OsdError) (prior : option UnknownCause) : OsdError :=
  match prior with
  | Some cause => OX_OutcomeUnknown cause
  | None => e
  end.

(** ** Checks of replies *)

Definition validate_target (r : Reply) (object : list byte) (pg : PG) (attempt : Z) : result OsdError unit :=
  if bool_decide (rp_object r <> object) || bool_decide (rp_pg r <> pg)
     || ((0 <=? rp_retry r) && negb (rp_retry r =? attempt))
  then Err OX_MalformedReply else Ok tt.

Fixpoint validate_results (replies : list OperationResult) (ops : list Operation) : result OsdError unit :=
  match replies, ops with
  | r :: replies, op :: ops =>
      if negb (or_operation r =? Operation_code op) then Err OX_MalformedReply
      else
        match op with
        | Op_Read _ length =>
            if length <? zlen (or_data r) then Err OX_MalformedReply else validate_results replies ops
        | _ => validate_results replies ops
        end
  | _, _ => Ok tt
  end.

Definition validate_operations (r : Reply) (ops : list Operation) : result OsdError unit :=
  if negb (zlen (rp_operations r) =? zlen ops) then Err OX_MalformedReply
  else validate_results (rp_operations r) ops.

Definition validate_durable_reply (r : Reply) : result OsdError unit :=
  if (rp_result r =? 0) && (Z.land (rp_flags r) FLAG_ON_DISK =? 0)
  then Err (OX_OutcomeUnknown UC_Transport) else Ok tt.

(** Whether the operation may have an effect that is not undone by repeating it. *)
Fixpoint outcome_sensitive (op : Operation) : bool :=
  match op with
  | Op_Notify _ _ | Op_NotifyAck _ _ => true
  | Op_WithFlags op _ => outcome_sensitive op
  | _ => Operation_is_mutation op
  end.

Definition contains_outcome_sensitive (ops : list Operation) : bool := existsb outcome_sensitive ops.

Definition contains_durable_mutation (ops : list Operation) : bool := existsb Operation_is_mutation ops.

Fixpoint allows_unknown_retry (op : Operation) : bool :=
  match op with
  | Op_Call _ _ _ _ _ | Op_Notify _ _ | Op_NotifyAck _ _ => false
  | Op_WithFlags op _ => allows_unknown_retry op
  | _ => true
  end.

(** ** Mutations *)

Record MutationState : Type := mkMutationState {
  admission_closed : bool;
  next_sequence : Z;
  pending : gmap Z Z;
  mu_retained_bytes : Z;
  earliest_unknown : option Z
}.

Definition MutationState_default : MutationState := mkMutationState false 0 ∅ 0 None.

Definition is_unknown (e : option OsdError) : bool :=
  match e with Some (OX_OutcomeUnknown _) => true | _ => false end.

Definition complete_mutation_state (s : MutationState) (sequence : Z) (error : option OsdError)
    : bool * MutationState :=
  match pending s !! sequence with
  | None => (false, s)
  | Some retained =>
      let unknown :=
        if is_unknown error
           && match earliest_unknown s with None => true | Some u => sequence <? u end
        then Some sequence else earliest_unknown s in
      (true, mkMutationState (admission_closed s) (next_sequence s) (delete sequence (pending s))
               (mu_retained_bytes s - retained) unknown)
  end.

Definition admit_mutation_state (s : MutationState) (retained : Z)
    : result OsdError (option Z) * MutationState :=
  if admission_closed s then (Err OX_Closed, s)
  else if (MAX_MUTATIONS <=? Z.of_nat (size (pending s)))
          || (saturating_sub MAX_MUTATION_BYTES (mu_retained_bytes s) <? retained)
  then (Ok None, s)
  else
    match checked_add 64 (next_sequence s) 1 with
    | None => (Err OX_LimitExceeded, s)
    | Some sequence =>
        (Ok (Some sequence),
         mkMutationState (admission_closed s) sequence (<[sequence := retained]> (pending s))
           (mu_retained_bytes s + retained) (earliest_unknown s))
    end.

Definition close_mutation_admission_state (s : MutationState) : MutationState :=
  mkMutationState true (next_sequence s) (pending s) (mu_retained_bytes s) (earliest_unknown s).

(** *** Flush *)

(** [state.pending.keys().any(|sequence| *sequence <= watermark)]. *)
Definition flush_waiting (s : MutationState) (watermark : Z) : bool :=
  existsb (fun kv => kv.1 <=? watermark) (map_to_list (pending s)).

Definition flush_unknown (s : MutationState) (watermark : Z) : bool :=
  match earliest_unknown s with Some u => u <=? watermark | None => false end.

Definition flush_cause (e : OsdError) : UnknownCause :=
  match e with
  | OX_Cancelled => UC_Cancelled
  | OX_Timeout => UC_Timeout
  | _ => UC_Transport
  end.

(** One round of [flush]: the state it finds, how its wait for a change ends and
    the state it finds then. *)
Record FlushRound : Type := mkFlushRound {
  fr_state : MutationState;
  fr_wait : result OsdError unit;
  fr_after : MutationState
}.

(** [None] while it still waits. *)
Fixpoint flush (watermark : Z) (rounds : list FlushRound) : option (result OsdError unit) :=
  match rounds with
  | [] => None
  | r :: rounds =>
      let unknown := flush_unknown (fr_state r) watermark in
      if negb (flush_waiting (fr_state r) watermark)
      then Some (if unknown then Err (OX_OutcomeUnknown UC_Transport) else Ok tt)
      else
        match fr_wait r with
        | Ok _ => flush watermark rounds
        | Err e =>
            Some (if unknown || flush_unknown (fr_after r) watermark
                  then Err (OX_OutcomeUnknown (flush_cause e)) else Err e)
        end
  end.

(** [next_transaction_id], on the counter. *)
Definition next_transaction_id (next : Z) : result OsdError Z * Z :=
  match checked_add 64 next 1 with
  | Some next' => (Ok next, next')
  | None => (Err OX_LimitExceeded, next)
  end.

(** What [mutate_operations] checks before admission, and the bytes it retains. *)
Definition check_mutation (limits : OsdLimits) (target : Target) (ops : list Operation) : result OsdError Z :=
  if negb (tg_snapshot target =? NO_SNAP) || (zlen ops =? 0) || (ol_max_operations limits <? zlen ops)
     || negb (contains_outcome_sensitive ops)
  then Err OX_LimitExceeded
  else
    retained ← ok_or (total_data_len ops) OX_LimitExceeded;
    if ol_max_bytes limits <? retained then Err OX_LimitExceeded else Ok retained.

(** One round of [admit_mutation]: what it decides, with the mutations and the
    transaction counter after it; [Ok None] is the wait for a change. *)
Definition admit_round (closed : bool) (retained : Z) (s : MutationState) (next_transaction : Z)
    : result OsdError (option (Z * Z)) * MutationState * Z :=
  if closed then (Err OX_Closed, s, next_transaction)
  else
    match admit_mutation_state s retained with
    | (Err e, s) => (Err e, s, next_transaction)
    | (Ok None, s) => (Ok None, s, next_transaction)
    | (Ok (Some sequence), s) =>
        match next_transaction_id next_transaction with
        | (Ok transaction_id, next) => (Ok (Some (sequence, transaction_id)), s, next)
        | (Err e, next) => (Err e, (complete_mutation_state s sequence (Some e)).2, next)
        end
    end.

(** ** The session table *)

Record SessionEntry : Type := mkSessionEntry {
  sn_endpoint : SocketAddr;
  sn_authority : Z;
  sn_session : Z
}.

#[export] Instance SocketAddr_eq_dec : EqDecision SocketAddr.
Proof. solve_decision. Defined.

(** Sessions and authorities are named by numbers, as [Arc]s are by their
    pointers; [st_stopped] are the sessions that were told to close. *)
Record SessionTable : Type := mkSessionTable {
  st_closed : bool;
  st_sessions : gmap Z SessionEntry;
  st_retired : list Z;
  st_stopped : gset Z
}.

Definition socket_port (s : SocketAddr) : Z := match s with SA_V4 _ port | SA_V6 _ port => port end.

(** The first address with a port: [Err] is the panic of [endpoint]. *)
Fixpoint first_endpoint (addresses : list EntityAddr) : result IndexPanic (option (EntityAddr * SocketAddr)) :=
  match addresses with
  | [] => Ok None
  | a :: addresses =>
      e ← endpoint a;
      match e with
      | Some s => if socket_port s =? 0 then first_endpoint addresses else Ok (Some (a, s))
      | None => first_endpoint addresses
      end
  end.

(** What the table's operations see of the sessions themselves. *)
Record SessionView : Type := mkSessionView {
  sv_authority : option Z;
  sv_terminal : Z -> bool;
  sv_finished : Z -> bool;
  sv_spawn : result OsdError Z;
  sv_closed_after : bool
}.

Definition stop_session (t : SessionTable) (session : Z) : SessionTable :=
  mkSessionTable (st_closed t) (st_sessions t) (st_retired t) ({[ session ]} ∪ st_stopped t).

Definition retire (v : SessionView) (session : Z) (t : SessionTable) : result OsdError unit * SessionTable :=
  let t := stop_session t session in
  let kept := filter (fun s => Is_true (negb (sv_finished v s))) (st_retired t) in
  if MAX_RETIRED_SESSIONS <=? zlen kept
  then (Err OX_QueueSaturated, mkSessionTable (st_closed t) (st_sessions t) kept (st_stopped t))
  else (Ok tt, mkSessionTable (st_closed t) (st_sessions t) (kept ++ [session]) (st_stopped t)).

Definition put_session (t : SessionTable) (osd : Z) (e : SessionEntry) : SessionTable :=
  mkSessionTable (st_closed t) (<[osd := e]> (st_sessions t)) (st_retired t) (st_stopped t).

Definition drop_session (t : SessionTable) (osd : Z) : SessionTable :=
  mkSessionTable (st_closed t) (delete osd (st_sessions t)) (st_retired t) (st_stopped t).

(** A new session in the table; the client may have been closed meanwhile. *)
Definition install_session (v : SessionView) (osd : Z) (endpoint : SocketAddr) (authority : Z) (t : SessionTable)
    : result OsdError Z * SessionTable :=
  match sv_spawn v with
  | Err e => (Err e, t)
  | Ok session =>
      let entry := mkSessionEntry endpoint authority session in
      if sv_closed_after v then (Err OX_Closed, put_session (stop_session t session) osd entry)
      else (Ok session, put_session t osd entry)
  end.

(** [Client::session], once the addresses have an endpoint. *)
Definition client_session (v : SessionView) (osd : Z) (endpoint : option SocketAddr) (t : SessionTable)
    : result OsdError Z * SessionTable :=
  if st_closed t then (Err OX_Closed, t)
  else
    match endpoint, sv_authority v with
    | None, _ => (Err OX_NoPrimary, t)
    | Some _, None => (Err OX_NotConnected, t)
    | Some endpoint, Some authority =>
        match st_sessions t !! osd with
        | Some existing =>
            if bool_decide (sn_endpoint existing = endpoint) && (sn_authority existing =? authority)
               && negb (sv_terminal v (sn_session existing))
            then (Ok (sn_session existing), t)
            else
              match retire v (sn_session existing) t with
              | (Err e, t) => (Err e, t)
              | (Ok _, t) => install_session v osd endpoint authority (drop_session t osd)
              end
        | None => install_session v osd endpoint authority t
        end
    end.

Definition invalidate (v : SessionView) (osd failed : Z) (t : SessionTable) : SessionTable :=
  match st_sessions t !! osd with
  | Some entry =>
      if sn_session entry =? failed then
        match retire v failed t with
        | (Ok _, t) => drop_session t osd
        | (Err _, t) => t
        end
      else t
  | None => t
  end.

(** The part of [Client::close] that concerns sessions. *)
Definition close_sessions (t : SessionTable) : SessionTable :=
  mkSessionTable true (st_sessions t) (st_retired t)
    (list_to_set (sn_session ∘ snd <$> map_to_list (st_sessions t)) ∪ list_to_set (st_retired t) ∪ st_stopped t).

(** ** Paging through inconsistent objects *)

Record InconsistentPager : Type := mkInconsistentPager {
  ip_interval : Z;
  ip_start : InconsistentObject;
  ip_maximum : Z;
  ip_result : list InconsistentObject
}.

Definition InconsistentObject_default : InconsistentObject := mkInconsistentObject [] [] [] 0 [] [].

Definition InconsistentPager_new (maximum : Z) : InconsistentPager :=
  mkInconsistentPager 0 InconsistentObject_default maximum [].

Definition same_position (a b : InconsistentObject) : bool :=
  bool_decide (io_object a = io_object b) && bool_decide (io_namespace a = io_namespace b)
  && bool_decide (io_locator a = io_locator b) && (io_snapshot a =? io_snapshot b).

(** [Ok true] when the listing is complete. *)
Definition InconsistentPager_push (p : InconsistentPager) (next_interval : Z) (page : list InconsistentObject)
    : result OsdError (bool * InconsistentPager) :=
  if negb (ip_interval p =? 0) && negb (ip_interval p =? next_interval) then Err (OX_WireErrno (-11))
  else if ip_maximum p <? Z.min (zlen (ip_result p) + zlen page) u64_max then Err OX_LimitExceeded
  else
    let extended := ip_result p ++ page in
    if zlen page <? SCRUB_PAGE_SIZE
    then Ok (true, mkInconsistentPager next_interval (ip_start p) (ip_maximum p) extended)
    else
      match last page with
      | None => Err OX_MalformedReply
      | Some next =>
          if same_position next (ip_start p) then Err OX_MalformedReply
          else Ok (false, mkInconsistentPager next_interval next (ip_maximum p) extended)
      end.

(** The loop of [list_inconsistent_objects]: [fetch] answers a request for the
    page after a position of an interval.  [None] when the fuel runs out. *)
Fixpoint list_pages (fuel : nat) (fetch : Z -> InconsistentObject -> result OsdError (Z * list InconsistentObject))
    (p : InconsistentPager) : option (result OsdError (list InconsistentObject)) :=
  match fuel with
  | O => None
  | S fuel =>
      match fetch (ip_interval p) (ip_start p) with
      | Err e => Some (Err e)
      | Ok (interval, page) =>
          match InconsistentPager_push p interval page with
          | Err e => Some (Err e)
          | Ok (true, p) => Some (Ok (ip_result p))
          | Ok (false, p) => list_pages fuel fetch p
          end
      end
  end.

Definition list_inconsistent_objects (fuel : nat)
    (fetch : Z -> InconsistentObject -> result OsdError (Z * list InconsistentObject)) (max_bytes : Z)
    : option (result OsdError (list InconsistentObject)) :=
  let maximum := max_bytes / 12 in
  if maximum =? 0 then Some (Err OX_LimitExceeded)
  else list_pages fuel fetch (InconsistentPager_new maximum).

(** ** Accounting of mutations *)

(** A state with the mutations that have completed, and how. *)
Record MutationRun : Type := mkMutationRun {
  mr_state : MutationState;
  mr_done : list (Z * option OsdError)
}.

Inductive mutation_step : MutationRun -> MutationRun -> Prop :=
| MS_admit s done retained :
    0 <= retained -> mutation_step (mkMutationRun s done) (mkMutationRun (admit_mutation_state s retained).2 done)
| MS_complete s s' done sequence error :
    complete_mutation_state s sequence error = (true, s') ->
    mutation_step (mkMutationRun s done) (mkMutationRun s' ((sequence, error) :: done))
| MS_complete_again s s' done sequence error :
    complete_mutation_state s sequence error = (false, s') ->
    mutation_step (mkMutationRun s done) (mkMutationRun s' done)
| MS_close s done :
    mutation_step (mkMutationRun s done) (mkMutationRun (close_mutation_admission_state s) done).

Inductive mutation_reached : MutationRun -> Prop :=
| MR_init : mutation_reached (mkMutationRun MutationState_default [])
| MR_step r r' : mutation_reached r -> mutation_step r r' -> mutation_reached r'.

(** The bytes of the mutations under way. *)
Definition pending_bytes (m : gmap Z Z) : Z := map_fold (fun _ v t => v + t) 0 m.

Record mutation_inv (r : MutationRun) : Prop := {
  inv_next : 0 <= next_sequence (mr_state r);
  inv_bytes : mu_retained_bytes (mr_state r) = pending_bytes (pending (mr_state r));
  inv_sizes : forall q n, pending (mr_state r) !! q = Some n -> 0 <= n;
  inv_count : Z.of_nat (size (pending (mr_state r))) <= MAX_MUTATIONS;
  inv_limit : mu_retained_bytes (mr_state r) <= MAX_MUTATION_BYTES;
  inv_sequences : forall q, 1 <= q <= next_sequence (mr_state r) <->
                    is_Some (pending (mr_state r) !! q) \/ q ∈ (mr_done r).*1;
  inv_once : NoDup (mr_done r).*1;
  inv_disjoint : forall q, q ∈ (mr_done r).*1 -> pending (mr_state r) !! q = None;
  inv_unknown : forall q e, (q, e) ∈ mr_done r -> is_unknown e = true ->
                  exists u, earliest_unknown (mr_state r) = Some u /\ u <= q
}.

Lemma pending_bytes_insert m q n : m !! q = None -> pending_bytes (<[q := n]> m) = n + pending_bytes m.
Proof. intros Hq. unfold pending_bytes. apply (map_fold_insert_L (fun _ v t => v + t)); [intros; lia|done]. Qed.

Lemma pending_bytes_delete m q n : m !! q = Some n -> pending_bytes m = n + pending_bytes (delete q m).
Proof. intros Hq. unfold pending_bytes. apply (map_fold_delete_L (fun _ v t => v + t)); [intros; lia|done]. Qed.

Lemma admit_inv s done retained :
  0 <= retained -> mutation_inv (mkMutationRun s done) ->
  mutation_inv (mkMutationRun (admit_mutation_state s retained).2 done).
Proof.
  intros Hr Hi. unfold admit_mutation_state. destruct (admission_closed s); [done|].
  destruct (_ || _) eqn:Hc; [done|]. apply orb_false_elim in Hc as [Hn Hb].
  apply Z.leb_gt in Hn. apply Z.ltb_ge in Hb.
  unfold checked_add. destruct (_ <? 2 ^ 64); [|done].
  destruct Hi as [I1 I2 I3 I4 I5 I6 I7 I8 I9]. cbn [mr_state mr_done] in *.
  assert (pending s !! (next_sequence s + 1) = None) as Hfresh.
  { destruct (pending s !! (next_sequence s + 1)) eqn:E; [|done].
    assert (1 <= next_sequence s + 1 <= next_sequence s) by (apply I6; eauto). lia. }
  assert (next_sequence s + 1 ∉ done.*1) as Hnew.
  { intros Hin. assert (1 <= next_sequence s + 1 <= next_sequence s) by (apply I6; eauto). lia. }
  split; cbn [mr_state mr_done next_sequence mu_retained_bytes pending earliest_unknown snd].
  - lia.
  - rewrite pending_bytes_insert by done. lia.
  - intros q n. rewrite lookup_insert_Some. intros [[<- <-]|[_ H]]; eauto.
  - rewrite map_size_insert_None by done. unfold MAX_MUTATIONS in *. lia.
  - unfold saturating_sub in Hb. lia.
  - intros q. rewrite lookup_insert_is_Some. specialize (I6 q).
    destruct (decide (next_sequence s + 1 = q)) as [<-|Hne]; [intuition lia|].
    split; [intros H; assert (1 <= q <= next_sequence s) as H' by lia; apply I6 in H' as []; eauto|].
    intros [[?|[_ H]]|H]; [done|..]; (assert (1 <= q <= next_sequence s) by (apply I6; eauto)); lia.
  - done.
  - intros q Hq. rewrite lookup_insert_None. split; [by apply I8|]. intros <-. done.
  - done.
Qed.

Lemma complete_inv s s' done sequence error :
  mutation_inv (mkMutationRun s done) -> complete_mutation_state s sequence error = (true, s') ->
  mutation_inv (mkMutationRun s' ((sequence, error) :: done)).
Proof.
  intros [I1 I2 I3 I4 I5 I6 I7 I8 I9]. unfold complete_mutation_state. cbn [mr_state mr_done] in *.
  destruct (pending s !! sequence) as [n|] eqn:Hp; [|done]. cbv zeta. intros H.
  apply pair_equal_spec in H as [_ <-].
  assert (sequence ∉ done.*1) as Hnew by (intros Hin; apply I8 in Hin; congruence).
  pose proof (pending_bytes_delete _ _ _ Hp) as Hbytes. pose proof (I3 _ _ Hp) as Hn.
  split; cbn [mr_state mr_done next_sequence mu_retained_bytes pending earliest_unknown fmap list_fmap fst].
  - done.
  - lia.
  - intros q m. rewrite lookup_delete_Some. intros [_ H]. eauto.
  - rewrite map_size_delete_Some by eauto. unfold MAX_MUTATIONS in *. lia.
  - lia.
  - intros q. rewrite I6, lookup_delete_is_Some, elem_of_cons.
    destruct (decide (q = sequence)) as [->|]; [split; [auto|intros _; eauto]|]. intuition congruence.
  - by constructor.
  - intros q. rewrite elem_of_cons, lookup_delete_None. intros [->|H]; [by left|right; eauto].
  - intros q e. rewrite elem_of_cons. intros [[= -> ->]|Hin] Hu.
    + rewrite Hu. cbn [andb]. destruct (earliest_unknown s) as [u|]; [|by exists sequence].
      destruct (Z.ltb_spec sequence u); [by exists sequence|by exists u].
    + destruct (I9 _ _ Hin Hu) as (u & Eu & Hle). rewrite Eu.
      destruct (is_unknown error && _) eqn:Hc; [|by exists u].
      apply andb_prop in Hc as [_ Hc]. apply Z.ltb_lt in Hc. exists sequence. split; [done|lia].
Qed.

Lemma mutation_reached_inv r : mutation_reached r -> mutation_inv r.
Proof.
  induction 1 as [|r r' _ IH Hs].
  { split; cbn [mr_state mr_done MutationState_default next_sequence mu_retained_bytes pending earliest_unknown];
      [done|done|done|done|done| |constructor|done|].
    - intros q. split; [lia|]. intros [[? ?]|H]; [done|by apply elem_of_nil in H].
    - intros q e H. by apply elem_of_nil in H. }
  destruct Hs as [s done retained Hr|s s' done q e Hc|s s' done q e Hc|s done].
  - by apply admit_inv.
  - by eapply complete_inv.
  - unfold complete_mutation_state in Hc. destruct (pending s !! q); by simplify_eq.
  - by destruct IH as [I1 I2 I3 I4 I5 I6 I7 I8 I9]; split.
Qed.

(** C24. The bounds of concurrent mutations hold: however admissions,
    completions and the end of admission interleave, at most 64 mutations are
    under way, the bytes accounted for are exactly the bytes of the mutations
    under way and never more than the limit, and every sequence number handed
    out is either under way or was completed exactly once. *)
Theorem mutation_accounting r :
  mutation_reached r ->
  Z.of_nat (size (pending (mr_state r))) <= MAX_MUTATIONS
  /\ mu_retained_bytes (mr_state r) = pending_bytes (pending (mr_state r))
  /\ 0 <= mu_retained_bytes (mr_state r) <= MAX_MUTATION_BYTES
  /\ NoDup (mr_done r).*1
  /\ forall q, 1 <= q <= next_sequence (mr_state r) <->
       (is_Some (pending (mr_state r) !! q) /\ q ∉ (mr_done r).*1
        \/ pending (mr_state r) !! q = None /\ q ∈ (mr_done r).*1).
Proof.
  intros H. apply mutation_reached_inv in H as [I1 I2 I3 I4 I5 I6 I7 I8 I9].
  split_and!; try done.
  - rewrite I2. clear -I3. unfold pending_bytes. revert I3.
    induction (pending (mr_state r)) as [|q n m Hq IH] using map_ind; intros H3; [done|].
    rewrite (map_fold_insert_L (fun _ v t => v + t)); [|intros; lia|done].
    assert (0 <= n) by (apply (H3 q); by rewrite lookup_insert_eq).
    assert (0 <= map_fold (fun _ v t => v + t) 0 m); [|lia].
    apply IH. intros q' n' Hl. apply (H3 q'). rewrite lookup_insert_ne; [done|]. congruence.
  - intros q. rewrite I6. specialize (I8 q). split.
    + intros [Hp|Hd]; [left; split; [done|]; intros Hd; rewrite I8 in Hp by done; by destruct Hp|right; auto].
    + intros [[? _]|[_ ?]]; auto.
Qed.

(** *** Flush *)

Lemma flush_waiting_false s watermark q :
  flush_waiting s watermark = false -> is_Some (pending s !! q) -> watermark < q.
Proof.
  intros H [n Hq]. unfold flush_waiting in H. rewrite <- not_true_iff_false, existsb_exists in H.
  apply Z.nle_gt. intros Hle. apply H. exists (q, n). split; [|by apply Z.leb_le].
  apply list_elem_of_In. by apply elem_of_map_to_list.
Qed.

(** The round in which a flush ended well. *)
Lemma flush_Ok watermark rounds :
  flush watermark rounds = Some (Ok tt) ->
  exists r, r ∈ rounds /\ flush_waiting (fr_state r) watermark = false
    /\ flush_unknown (fr_state r) watermark = false.
Proof.
  induction rounds as [|r rounds IH]; [done|]. cbn [flush]. cbv zeta.
  destruct (flush_waiting (fr_state r) watermark) eqn:Hw; cbn [negb].
  - destruct (fr_wait r) as [?|e]; [|destruct (_ || _); done].
    intros H. apply IH in H as (r' & Hin & H). exists r'. split; [by apply elem_of_cons; right|done].
  - destruct (flush_unknown (fr_state r) watermark) eqn:Hu; [done|]. intros _. exists r.
    split; [by apply elem_of_cons; left|done].
Qed.

(** C25. A flush that succeeds means what it says: in some state it looked at,
    every mutation admitted up to its watermark had been completed, and none
    of them with an outcome reported as unknown. *)
Theorem flush_sound watermark rounds :
  (forall r, r ∈ rounds -> watermark <= next_sequence (fr_state r)) ->
  flush watermark rounds = Some (Ok tt) ->
  exists r, r ∈ rounds /\
  forall done, mutation_reached (mkMutationRun (fr_state r) done) ->
  forall q, 1 <= q <= watermark -> exists e, (q, e) ∈ done /\ is_unknown e = false.
Proof.
  intros Hm H. apply flush_Ok in H as (r & Hin & Hw & Hu). exists r. split; [done|].
  intros done Hr q Hq. specialize (Hm _ Hin).
  apply mutation_reached_inv in Hr as [I1 I2 I3 I4 I5 I6 I7 I8 I9]. cbn [mr_state mr_done] in *.
  assert (1 <= q <= next_sequence (fr_state r)) as Hq' by lia. apply I6 in Hq' as [Hp|Hd].
  { pose proof (flush_waiting_false _ _ _ Hw Hp). lia. }
  apply list_elem_of_fmap in Hd as ([q' e] & -> & Hin'). cbn in *. exists e. split; [done|].
  destruct (is_unknown e) eqn:He; [|done]. destruct (I9 _ _ Hin' He) as (u & Eu & Hle).
  unfold flush_unknown in Hu. rewrite Eu in Hu. apply Z.leb_gt in Hu. lia.
Qed.

(** ** The session table *)

Inductive table_step : SessionTable -> SessionTable -> Prop :=
| TS_session v osd endpoint t : table_step t (client_session v osd endpoint t).2
| TS_invalidate v osd failed t : table_step t (invalidate v osd failed t)
| TS_close t : table_step t (close_sessions t).

Inductive table_reached : SessionTable -> Prop :=
| TR_init : table_reached (mkSessionTable false ∅ [] ∅)
| TR_step t t' : table_reached t -> table_step t t' -> table_reached t'.

Record table_inv (t : SessionTable) : Prop := {
  inv_retired : zlen (st_retired t) <= MAX_RETIRED_SESSIONS;
  inv_stopped : forall s, s ∈ st_retired t -> s ∈ st_stopped t;
  inv_closed : st_closed t = true -> forall osd e, st_sessions t !! osd = Some e -> sn_session e ∈ st_stopped t
}.

Lemma retire_inv v session t r t' :
  table_inv t -> retire v session t = (r, t') ->
  table_inv t' /\ st_sessions t' = st_sessions t /\ st_closed t' = st_closed t
  /\ session ∈ st_stopped t' /\ st_stopped t ⊆ st_stopped t' /\ (r = Ok tt -> session ∈ st_retired t').
Proof.
  intros [I1 I2 I3]. unfold retire, stop_session. cbv zeta. cbn [st_retired st_closed st_sessions st_stopped].
  set (kept := filter _ (st_retired t)).
  assert (forall s, s ∈ kept -> s ∈ st_stopped t) as Hk.
  { intros s Hs. apply list_elem_of_filter in Hs as [_ Hs]. by apply I2. }
  assert (zlen kept <= MAX_RETIRED_SESSIONS) as Hl.
  { unfold zlen in *. pose proof (length_filter (fun s => Is_true (negb (sv_finished v s))) (st_retired t)) as Hle.
    change (length kept <= length (st_retired t))%nat in Hle. lia. }
  assert (st_closed t = true -> forall osd e, st_sessions t !! osd = Some e ->
    sn_session e ∈ {[ session ]} ∪ st_stopped t) as Hc by (intros Hc osd e He; specialize (I3 Hc osd e He); set_solver).
  destruct (Z.leb_spec MAX_RETIRED_SESSIONS (zlen kept)); intros [= <- <-];
    (split_and!; [split; cbn; [| |done]|done|done|set_solver|set_solver|]).
  - done.
  - intros s Hs. apply Hk in Hs. set_solver.
  - done.
  - autorewrite with zlen. lia.
  - intros s. rewrite elem_of_app, list_elem_of_singleton. intros [Hs| -> ]; [apply Hk in Hs|]; set_solver.
  - intros _. cbn. apply elem_of_app. right. by apply list_elem_of_singleton.
Qed.

Lemma install_inv v osd endpoint authority t :
  st_closed t = false -> table_inv t -> table_inv (install_session v osd endpoint authority t).2.
Proof.
  intros Hc [I1 I2 I3]. unfold install_session. destruct (sv_spawn v) as [session|e]; [|by split].
  destruct (sv_closed_after v); split; cbn; try done; try (by intros; congruence).
  intros s Hs. apply I2 in Hs. set_solver.
Qed.

Lemma drop_inv t osd : table_inv t -> table_inv (drop_session t osd).
Proof.
  intros [I1 I2 I3]. split; cbn; try done. intros Hc osd' e He. apply lookup_delete_Some in He as [_ He]. eauto.
Qed.

Lemma table_reached_inv t : table_reached t -> table_inv t.
Proof.
  induction 1 as [|t t' _ IH Hs]; [split; cbn; [done|intros s H; by apply elem_of_nil in H|done]|].
  destruct Hs as [v osd ep t|v osd failed t|t].
  - unfold client_session. destruct (st_closed t) eqn:Hc; [done|].
    destruct ep as [ep|], (sv_authority v) as [a|]; try done.
    destruct (st_sessions t !! osd) as [e|] eqn:He; [|by apply install_inv].
    destruct (_ && _); [done|]. destruct (retire v (sn_session e) t) as [r t1] eqn:Hr.
    apply retire_inv in Hr as (Hi & _ & Hc1 & _); [|done]. destruct r as [u|]; [|done].
    apply install_inv; [by cbn; rewrite Hc1|]. by apply drop_inv.
  - unfold invalidate. destruct (st_sessions t !! osd) as [e|]; [|done]. destruct (_ =? failed); [|done].
    destruct (retire v failed t) as [[u|] t1] eqn:Hr; apply retire_inv in Hr as (Hi & _); try done.
    by apply drop_inv.
  - destruct IH as [I1 I2 I3]. split; cbn; try done; [set_solver|]. intros _ osd e He.
    apply elem_of_union_l, elem_of_union_l, elem_of_list_to_set, list_elem_of_fmap.
    exists (osd, e). split; [done|]. by apply elem_of_map_to_list.
Qed.

(** Sessions are not leaked: however requests, failures and the closing of
    the client interleave, at most sixteen sessions are retired at a time, every
    retired session has been told to stop, a session leaves the table only when
    it has been retired, and after the client is closed every session it still
    has was told to stop. *)
Theorem sessions_accounted t :
  table_reached t ->
  zlen (st_retired t) <= MAX_RETIRED_SESSIONS
  /\ (forall s, s ∈ st_retired t -> s ∈ st_stopped t)
  /\ (st_closed t = true -> forall osd e, st_sessions t !! osd = Some e -> sn_session e ∈ st_stopped t)
  /\ (forall t' osd e, table_step t t' -> st_sessions t !! osd = Some e ->
        (exists e', st_sessions t' !! osd = Some e' /\ sn_session e' = sn_session e)
        \/ sn_session e ∈ st_retired t').
Proof.
  intros H. apply table_reached_inv in H as Hi. destruct Hi as [I1 I2 I3]. split_and!; try done.
  intros t' osd e Hs He. destruct Hs as [v osd' ep t|v osd' failed t|t]; [| |left; by exists e].
  - unfold client_session. destruct (st_closed t); [left; by exists e|].
    assert (forall endpoint authority t1, st_sessions t1 !! osd = Some e -> osd <> osd' ->
      exists e', st_sessions (install_session v osd' endpoint authority t1).2 !! osd = Some e'
        /\ sn_session e' = sn_session e) as Hput.
    { intros endpoint authority t1 He1 Hne. unfold install_session. destruct (sv_spawn v); [|by exists e].
      destruct (sv_closed_after v); cbn; exists e; by rewrite lookup_insert_ne. }
    destruct ep as [ep|], (sv_authority v) as [a|]; try (left; by exists e).
    destruct (st_sessions t !! osd') as [e'|] eqn:He'.
    2: { left. apply Hput; [done|]. congruence. }
    destruct (_ && _); [left; by exists e|]. destruct (retire v (sn_session e') t) as [r t1] eqn:Hr.
    apply retire_inv in Hr as (_ & Hss & _ & _ & _ & Hret); [|by apply table_reached_inv]. destruct r as [[]|]; [|left; exists e; cbn; by rewrite Hss].
    destruct (decide (osd = osd')) as [->|Hne].
    + right. simplify_eq. assert (forall t2, st_retired (install_session v osd' ep a t2).2 = st_retired t2) as ->.
      { intros t2. unfold install_session. destruct (sv_spawn v); [|done]. by destruct (sv_closed_after v). }
      by apply Hret.
    + left. apply Hput; [|done]. cbn. rewrite lookup_delete_ne by done. by rewrite Hss.
  - unfold invalidate. destruct (st_sessions t !! osd') as [e'|] eqn:He'; [|left; by exists e].
    destruct (Z.eqb_spec (sn_session e') failed) as [<-|]; [|left; by exists e].
    destruct (retire v (sn_session e') t) as [r t1] eqn:Hr.
    apply retire_inv in Hr as (_ & Hss & _ & _ & _ & Hret); [|by apply table_reached_inv]. destruct r as [[]|]; [|left; exists e; cbn; by rewrite Hss].
    destruct (decide (osd = osd')) as [->|Hne]; [right; simplify_eq; by apply Hret|].
    left. exists e. cbn. rewrite lookup_delete_ne by done. by rewrite Hss.
Qed.

(** ** Paging *)

Lemma push_more p interval page p' :
  InconsistentPager_push p interval page = Ok (false, p') ->
  ip_maximum p' = ip_maximum p /\ zlen (ip_result p) + SCRUB_PAGE_SIZE <= zlen (ip_result p')
  /\ (ip_maximum p <= u64_max - 1 -> zlen (ip_result p') <= ip_maximum p).
Proof.
  unfold InconsistentPager_push. destruct (_ && _); [done|]. destruct (Z.ltb_spec (ip_maximum p) (Z.min (zlen (ip_result p) + zlen page) u64_max)); [done|].
  cbv zeta. destruct (Z.ltb_spec (zlen page) SCRUB_PAGE_SIZE); [done|]. destruct (last page); [|done].
  destruct (same_position _ _); [done|]. intros [= <-]. cbn [ip_maximum ip_result]. autorewrite with zlen.
  split_and!; [done|lia|lia].
Qed.

Lemma push_done p interval page p' :
  InconsistentPager_push p interval page = Ok (true, p') ->
  ip_maximum p <= u64_max - 1 -> zlen (ip_result p') <= ip_maximum p.
Proof.
  unfold InconsistentPager_push. destruct (_ && _); [done|]. destruct (Z.ltb_spec (ip_maximum p) (Z.min (zlen (ip_result p) + zlen page) u64_max)); [done|].
  cbv zeta. destruct (Z.ltb_spec (zlen page) SCRUB_PAGE_SIZE); [|destruct (last page) as [n|]; [destruct (same_position n (ip_start p)); done|done]].
  intros [= <-]. cbn [ip_maximum ip_result]. autorewrite with zlen. lia.
Qed.

Lemma list_pages_end fetch : forall fuel p,
  ip_maximum p <= u64_max - 1 -> zlen (ip_result p) <= ip_maximum p ->
  (ip_maximum p - zlen (ip_result p)) / SCRUB_PAGE_SIZE + 1 < Z.of_nat fuel ->
  exists r, list_pages fuel fetch p = Some r
    /\ forall l, r = Ok l -> zlen l <= ip_maximum p.
Proof.
  induction fuel as [|fuel IH]; intros p Hm Hl Hf.
  { exfalso. assert (0 <= (ip_maximum p - zlen (ip_result p)) / SCRUB_PAGE_SIZE)
      by (apply Z.div_pos; unfold SCRUB_PAGE_SIZE; lia). lia. }
  cbn [list_pages]. destruct (fetch (ip_interval p) (ip_start p)) as [[interval page]|e]; [|eexists; by split].
  destruct (InconsistentPager_push p interval page) as [[[] p']|e] eqn:Hp; [| |eexists; by split].
  - eexists. split; [done|]. intros l [= <-]. by eapply push_done.
  - destruct (push_more _ _ _ _ Hp) as (Em & Hmore & Hle). specialize (Hle Hm).
    rewrite <- Em. apply IH; [lia|lia|].
    assert ((ip_maximum p' - zlen (ip_result p')) / SCRUB_PAGE_SIZE
      <= (ip_maximum p - zlen (ip_result p)) / SCRUB_PAGE_SIZE + -1); [|lia].
    rewrite <- Z.div_add by done. apply Z.div_le_mono; [done|]. unfold SCRUB_PAGE_SIZE in *. lia.
Qed.

(** Listing inconsistent objects ends: whatever pages an OSD answers with,
    the client asks for at most one page more than its limit divided by the
    page size, plus one, and a listing that succeeds has no more objects than
    the limit. *)
Theorem inconsistent_listing_ends fetch max_bytes fuel :
  0 <= max_bytes <= u32_max -> max_bytes / 12 / SCRUB_PAGE_SIZE + 1 < Z.of_nat fuel ->
  exists r, list_inconsistent_objects fuel fetch max_bytes = Some r
    /\ forall l, r = Ok l -> zlen l <= max_bytes / 12.
Proof.
  intros Hm Hf. unfold list_inconsistent_objects. cbv zeta. destruct (max_bytes / 12 =? 0); [eexists; by split|].
  assert (0 <= max_bytes / 12) by (apply Z.div_pos; lia).
  assert (max_bytes / 12 <= u32_max) by (unfold u32_max in *; apply Z.div_le_upper_bound; lia).
  apply (list_pages_end fetch fuel (InconsistentPager_new (max_bytes / 12))); cbn [InconsistentPager_new ip_maximum ip_result].
  - unfold u64_max, u32_max in *. lia.
  - by rewrite zlen_nil.
  - by rewrite zlen_nil, Z.sub_0_r.
Qed.

(** ** Witnesses *)

(** Two mutations admitted, the second of them completed. *)
Definition test_mutations : MutationRun :=
  mkMutationRun (mkMutationState false 2 {[ 1 := 10 ]} 10 None) [(2, Some OX_Timeout)].

Lemma test_mutations_reached : mutation_reached test_mutations.
Proof.
  eapply MR_step; [eapply MR_step; [eapply MR_step; [apply MR_init|]|]|].
  - apply (MS_admit _ _ 10). lia.
  - apply (MS_admit _ _ 7). lia.
  - replace test_mutations with (mkMutationRun (complete_mutation_state
      (admit_mutation_state (admit_mutation_state MutationState_default 10).2 7).2 2 (Some OX_Timeout)).2
      [(2, Some OX_Timeout)]) by reflexivity.
    apply (MS_complete _ _ _ 2 (Some OX_Timeout)). reflexivity.
Qed.

Lemma mutation_accounting_witness :
  Z.of_nat (size (pending (mr_state test_mutations))) <= MAX_MUTATIONS
  /\ mu_retained_bytes (mr_state test_mutations) = pending_bytes (pending (mr_state test_mutations))
  /\ 0 <= mu_retained_bytes (mr_state test_mutations) <= MAX_MUTATION_BYTES
  /\ NoDup (mr_done test_mutations).*1
  /\ forall q, 1 <= q <= next_sequence (mr_state test_mutations) <->
       (is_Some (pending (mr_state test_mutations) !! q) /\ q ∉ (mr_done test_mutations).*1
        \/ pending (mr_state test_mutations) !! q = None /\ q ∈ (mr_done test_mutations).*1).
Proof. apply mutation_accounting. apply test_mutations_reached. Defined.

(** A flush that waits once for the only mutation. *)
Definition test_rounds : list FlushRound :=
  [mkFlushRound (mkMutationState false 1 {[ 1 := 10 ]} 10 None) (Ok tt) (mkMutationState false 1 ∅ 0 None);
   mkFlushRound (mkMutationState false 1 ∅ 0 None) (Ok tt) (mkMutationState false 1 ∅ 0 None)].

Lemma flush_sound_witness :
  exists r, r ∈ test_rounds /\
  forall done, mutation_reached (mkMutationRun (fr_state r) done) ->
  forall q, 1 <= q <= 1 -> exists e, (q, e) ∈ done /\ is_unknown e = false.
Proof.
  apply (flush_sound 1 test_rounds); [|reflexivity].
  intros r Hr. apply elem_of_cons in Hr as [->|Hr]; [done|]. by apply list_elem_of_singleton in Hr as ->.
Defined.

Definition test_view : SessionView := mkSessionView (Some 1) (fun _ => false) (fun _ => false) (Ok 7) false.

Definition test_endpoint : SocketAddr := SA_V4 [x0a; x00; x00; x02] 6800.

Definition test_table : SessionTable :=
  (client_session test_view 3 (Some test_endpoint) (mkSessionTable false ∅ [] ∅)).2.

Lemma sessions_accounted_witness :
  zlen (st_retired test_table) <= MAX_RETIRED_SESSIONS
  /\ (forall s, s ∈ st_retired test_table -> s ∈ st_stopped test_table)
  /\ (st_closed test_table = true ->
       forall osd e, st_sessions test_table !! osd = Some e -> sn_session e ∈ st_stopped test_table)
  /\ (forall t' osd e, table_step test_table t' -> st_sessions test_table !! osd = Some e ->
        (exists e', st_sessions t' !! osd = Some e' /\ sn_session e' = sn_session e)
        \/ sn_session e ∈ st_retired t').
Proof. apply (sessions_accounted test_table). eapply TR_step; [apply TR_init|apply TS_session]. Defined.

Lemma inconsistent_listing_ends_witness :
  exists r, list_inconsistent_objects 3 (fun _ _ => Ok (1, [InconsistentObject_default])) 1200 = Some r
    /\ forall l, r = Ok l -> zlen l <= 1200 / 12.
Proof. apply inconsistent_listing_ends; by vm_compute. Defined.
