(* ===== verification/OsdSession.v ===== *)
(** * A session with one OSD

    Models [OSDSession] of [src/src/osd/client.rs]: the state the session's
    receiver and its submissions share (backoffs, registered submissions, the
    failure), the receiver's handling of every message with its queue of
    acknowledgments, and [submit_routed] and [submit_direct] as programs whose
    environment is the message session, the clock and that shared state. *)

From S2P Require Import Prelude Codec Message Frame SessionState MapBase OsdMap Backoff OsdMessages OsdWatch OsdClient Interaction.
From Stdlib Require Import ZArith Lia Strings.Byte.
From stdpp Require Import base option gmap sorting numbers list fin_maps.

Open Scope Z_scope.

(** ** The shared state *)

(** [sub_resend]: the sender of the resend signal has not been used. *)
Record Submission : Type := mkSubmission { sub_object : HObject; sub_resend : bool }.

Record OSDSessionState : Type := mkOSDSessionState {
  ss_backoffs : gmap Z Backoff;
  ss_next_submission : Z;
  ss_submissions : gmap PG (gmap Z Submission);
  ss_failure : option OsdError
}.

Definition OSDSessionState_default : OSDSessionState := mkOSDSessionState ∅ 0 ∅ None.

Definition with_backoffs (m : gmap Z Backoff) (s : OSDSessionState) : OSDSessionState :=
  mkOSDSessionState m (ss_next_submission s) (ss_submissions s) (ss_failure s).

Definition with_submissions (m : gmap PG (gmap Z Submission)) (s : OSDSessionState) : OSDSessionState :=
  mkOSDSessionState (ss_backoffs s) (ss_next_submission s) m (ss_failure s).

(** [submission.resend.take()] on the entries a backoff covers. *)
Definition take_resend (b : Backoff) (sub : Submission) : Submission :=
  if Backoff_contains b (sub_object sub) then mkSubmission (sub_object sub) false else sub.

(** The entries that are sent the signal. *)
Definition signalled (b : Backoff) (entries : gmap Z Submission) : list Z :=
  fst <$> filter (fun e => Backoff_contains b (sub_object e.2) && sub_resend e.2) (map_to_list entries).

Definition unblock (s : OSDSessionState) (b : Backoff) : OSDSessionState * list (PG * Z) :=
  let s := with_backoffs (delete (bo_id b) (ss_backoffs s)) s in
  match ss_submissions s !! bo_pg b with
  | None => (s, [])
  | Some entries =>
      (with_submissions (<[bo_pg b := take_resend b <$> entries]> (ss_submissions s)) s,
       pair (bo_pg b) <$> signalled b entries)
  end.

(** The counter of submissions; [None] when it would overflow. *)
Definition number_submission (s : OSDSessionState) : option OSDSessionState :=
  next ← checked_add 64 (ss_next_submission s) 1;
  Some (mkOSDSessionState (ss_backoffs s) next (ss_submissions s) (ss_failure s)).

Definition register (s : OSDSessionState) (pg : PG) (id : Z) (object : HObject) : OSDSessionState :=
  with_submissions
    (<[pg := <[id := mkSubmission object true]> (default ∅ (ss_submissions s !! pg))]> (ss_submissions s)) s.

(** [SubmissionGuard::drop]. *)
Definition unregister (s : OSDSessionState) (pg : PG) (id : Z) : OSDSessionState :=
  match ss_submissions s !! pg with
  | None => s
  | Some entries =>
      let entries := delete id entries in
      with_submissions
        (if decide (entries = ∅) then delete pg (ss_submissions s) else <[pg := entries]> (ss_submissions s)) s
  end.

(** [state.backoffs.values().any(..)]. *)
Definition blocked (s : OSDSessionState) (pg : PG) (object : HObject) : bool :=
  existsb (fun e => bool_decide (bo_pg e.2 = pg) && Backoff_contains e.2 object) (map_to_list (ss_backoffs s)).

(** ** The receiver *)

Record BackoffAck : Type := mkBackoffAck {
  ba_message : Message;
  ba_generation : Z;
  ba_bytes : Z
}.

(** What is broadcast: a decoded notification, or the loss of the session. *)
Inductive Broadcast : Type :=
| Forwarded (n : Notification)
| Disconnected.

(** The receiver, its counters and its effects: [sr_signals] are the resend
    signals sent, [sr_slots] and [sr_bytes] the free permits for
    acknowledgments, [sr_sending] the acknowledgment the sender has taken. *)
Record SessionRun : Type := mkSessionRun {
  sr_state : OSDSessionState;
  sr_generation : Z;
  sr_revision : Z;
  sr_broadcasts : list Broadcast;
  sr_closed : bool;
  sr_signals : list (PG * Z);
  sr_slots : Z;
  sr_bytes : Z;
  sr_queue : list BackoffAck;
  sr_sending : option BackoffAck;
  sr_receiving : bool
}.

Definition SessionRun_new (generation : Z) : SessionRun :=
  mkSessionRun OSDSessionState_default generation 0 [] false [] MAX_CONTROL_MESSAGES MAX_CONTROL_BYTES [] None true.

Definition update_state (s : OSDSessionState) (signals : list (PG * Z)) (r : SessionRun) : SessionRun :=
  mkSessionRun s (sr_generation r) (wrap 64 (sr_revision r + 1)) (sr_broadcasts r) (sr_closed r)
    (sr_signals r ++ signals) (sr_slots r) (sr_bytes r) (sr_queue r) (sr_sending r) (sr_receiving r).

Definition broadcast (b : Broadcast) (r : SessionRun) : SessionRun :=
  mkSessionRun (sr_state r) (sr_generation r) (sr_revision r) (sr_broadcasts r ++ [b]) (sr_closed r)
    (sr_signals r) (sr_slots r) (sr_bytes r) (sr_queue r) (sr_sending r) (sr_receiving r).

Definition sync_backoff_generation (observed : Z) (r : SessionRun) : SessionRun :=
  if observed =? sr_generation r then r
  else
    mkSessionRun (with_backoffs ∅ (sr_state r)) observed (wrap 64 (sr_revision r + 1)) (sr_broadcasts r)
      (sr_closed r) (sr_signals r) (sr_slots r) (sr_bytes r) (sr_queue r) (sr_sending r) (sr_receiving r).

(** The end of [fail_session] closes the message session. *)
Definition close_run (s : OSDSessionState) (r : SessionRun) : SessionRun :=
  mkSessionRun s (sr_generation r) (wrap 64 (sr_revision r + 1)) (sr_broadcasts r) true (sr_signals r)
    (sr_slots r) (sr_bytes r) (sr_queue r) (sr_sending r) (sr_receiving r).

Definition fail_session (e : OsdError) (r : SessionRun) : SessionRun :=
  let s := sr_state r in
  match ss_failure s with
  | Some _ => close_run s r
  | None =>
      close_run (mkOSDSessionState (ss_backoffs s) (ss_next_submission s) (ss_submissions s) (Some e))
        (broadcast Disconnected r)
  end.

(** The receiver has returned. *)
Definition stop_receiving (r : SessionRun) : SessionRun :=
  mkSessionRun (sr_state r) (sr_generation r) (sr_revision r) (sr_broadcasts r) (sr_closed r)
    (sr_signals r) (sr_slots r) (sr_bytes r) (sr_queue r) (sr_sending r) false.

(** [clock]: [Instant::now().checked_add(timeout)] is defined. *)
Definition queue_backoff_ack (clock : bool) (message : Message) (generation : Z) (r : SessionRun)
    : option SessionRun :=
  retained ← try_u 32 (MESSAGE_HEADER_SIZE + zlen (front message));
  if (sr_slots r <? 1) || (sr_bytes r <? retained) || negb clock
     || (MAX_CONTROL_MESSAGES <=? zlen (sr_queue r))
  then None
  else
    Some (mkSessionRun (sr_state r) (sr_generation r) (sr_revision r) (sr_broadcasts r) (sr_closed r)
            (sr_signals r) (sr_slots r - 1) (sr_bytes r - retained)
            (sr_queue r ++ [mkBackoffAck message generation retained]) (sr_sending r) (sr_receiving r)).

(** What the receiver does with a backoff of the current generation. *)
Definition apply_backoff (limits : OsdLimits) (clock : bool) (generation : Z) (b : Backoff) (r : SessionRun)
    : result Halted SessionRun :=
  if bo_operation b =? BACKOFF_BLOCK then
    let s := sr_state r in
    let r := update_state (with_backoffs (<[bo_id b := b]> (ss_backoffs s)) s) [] r in
    match encode_acknowledgment b limits with
    | Err _ => Ok (stop_receiving (fail_session OX_MalformedReply r))
    | Ok ack => Ok (default (stop_receiving r) (queue_backoff_ack clock ack generation r))
    end
  else if bo_operation b =? BACKOFF_UNBLOCK then
    let '(s, signals) := unblock (sr_state r) b in Ok (update_state s signals r)
  else Err Panicked.

(** The message type of an OSD map. *)
Definition MESSAGE_OSD_MAP_ON_OSD : Z := 41.

(** One message; [current] is the generation of the connection. *)
Definition receive_message (limits : OsdLimits) (clock : bool) (current : Z) (m : Message) (generation : Z)
    (r : SessionRun) : result Halted SessionRun :=
  if message_type (header m) =? MESSAGE_OSD_MAP_ON_OSD then Ok (stop_receiving (fail_session OX_StaleMap r))
  else if message_type (header m) =? MESSAGE_WATCH_NOTIFY then
    match decode_notification m (ol_max_bytes limits) with
    | Err _ => Ok (stop_receiving (fail_session OX_MalformedReply r))
    | Ok n => Ok (broadcast (Forwarded n) r)
    end
  else if negb (message_type (header m) =? MESSAGE_OSD_BACKOFF) then Ok r
  else
    let r := sync_backoff_generation current r in
    if negb (generation =? current) then Ok r
    else
      match decode_backoff m limits with
      | Err _ => Ok (stop_receiving (fail_session OX_MalformedReply r))
      | Ok b => apply_backoff limits clock generation b r
      end.

(** The sender of acknowledgments takes one, and is done with it. *)
Definition take_ack (r : SessionRun) : SessionRun :=
  match sr_sending r, sr_queue r with
  | None, a :: queue =>
      mkSessionRun (sr_state r) (sr_generation r) (sr_revision r) (sr_broadcasts r) (sr_closed r)
        (sr_signals r) (sr_slots r) (sr_bytes r) queue (Some a) (sr_receiving r)
  | _, _ => r
  end.

Definition drop_ack (r : SessionRun) : SessionRun :=
  match sr_sending r with
  | Some a =>
      mkSessionRun (sr_state r) (sr_generation r) (sr_revision r) (sr_broadcasts r) (sr_closed r)
        (sr_signals r) (sr_slots r + 1) (sr_bytes r + ba_bytes a) (sr_queue r) None (sr_receiving r)
  | None => r
  end.

(** The end of [run_incoming]. *)
Definition end_incoming (r : SessionRun) : SessionRun := stop_receiving (fail_session OX_NotConnected r).

Definition with_state (s : OSDSessionState) (r : SessionRun) : SessionRun :=
  mkSessionRun s (sr_generation r) (sr_revision r) (sr_broadcasts r) (sr_closed r)
    (sr_signals r) (sr_slots r) (sr_bytes r) (sr_queue r) (sr_sending r) (sr_receiving r).

(** The receiver, its sender of acknowledgments and the submissions take turns
    at the lock of the state. *)
Inductive session_step (limits : OsdLimits) (r : SessionRun) : SessionRun -> Prop :=
| step_generation current : sr_receiving r = true ->
    session_step limits r (sync_backoff_generation current r)
| step_message clock current m generation r' : sr_receiving r = true ->
    receive_message limits clock current m generation r = Ok r' -> session_step limits r r'
| step_take_ack : session_step limits r (take_ack r)
| step_drop_ack : session_step limits r (drop_ack r)
| step_end : session_step limits r (end_incoming r)
| step_number s : number_submission (sr_state r) = Some s -> session_step limits r (with_state s r)
| step_register s pg object : number_submission (sr_state r) = Some s ->
    session_step limits r (with_state (register s pg (ss_next_submission s) object) r)
| step_unregister pg id : session_step limits r (with_state (unregister (sr_state r) pg id) r).

Inductive session_reached (limits : OsdLimits) : SessionRun -> Prop :=
| reached_new generation : session_reached limits (SessionRun_new generation)
| reached_step r r' : session_reached limits r -> session_step limits r r' -> session_reached limits r'.

(** ** Submissions *)

(** A signal exists only where something can send it. *)
Inductive Signal : bool -> Type := the_signal : Signal true.

Definition no_signal {A} (s : Signal false) : A :=
  match s in Signal b return (if b then unit else A) with the_signal => tt end.

(** What the caller's options say: cancelled, or past the deadline. *)
Record OptionsView : Type := mkOptionsView { ov_canceled : bool; ov_expired : bool }.

Definition check_options (v : OptionsView) : result OsdError unit :=
  if ov_canceled v then Err OX_Cancelled
  else if ov_expired v then Err OX_Timeout
  else Ok tt.

(** How a wait ends: with the awaited result, at the caller's deadline, by the
    caller's cancellation, or with a changed route. *)
Inductive Waited (routed : bool) : Type :=
| W_Ready (r : result SessionError unit)
| W_Timeout
| W_Cancelled
| W_Route (signal : Signal routed).
Arguments W_Ready {routed} r.
Arguments W_Timeout {routed}.
Arguments W_Cancelled {routed}.
Arguments W_Route {routed} signal.

(** How the wait for the admission of a request ends; an interrupted one is
    still waited for. *)
Inductive AdmissionRace : Type :=
| A_Done (r : result SessionError Z)
| A_Interrupted (cause : UnknownCause) (r : result SessionError Z).

(** How the wait for a reply ends. *)
Inductive Settled (routed unblockable : bool) : Type :=
| S_Result (r : result SessionError (option Message))
| S_Interrupted (cause : UnknownCause)
| S_Route (signal : Signal routed)
| S_Unblocked (signal : Signal unblockable) (delivered : bool).
Arguments S_Result {routed unblockable} r.
Arguments S_Interrupted {routed unblockable} cause.
Arguments S_Route {routed unblockable} signal.
Arguments S_Unblocked {routed unblockable} signal delivered.

Inductive SubmitE : Type -> Type :=
| E_Lock : SubmitE OSDSessionState
| E_Options : SubmitE OptionsView
| E_Deadline : SubmitE bool
| E_Capacity (m : Message) (routed : bool) : SubmitE (Waited routed)
| E_Changed (routed : bool) : SubmitE (Waited routed)
| E_Number (id : Z) : SubmitE unit
| E_Admit (m : Message) : SubmitE AdmissionRace
| E_Cancel (request : Z) : SubmitE (result SessionError (option Message))
| E_Register (pg : PG) (id : Z) (object : HObject) : SubmitE unit
| E_Unregister (pg : PG) (id : Z) : SubmitE unit
| E_Settle (request : Z) (routed unblockable : bool) : SubmitE (Settled routed unblockable).

(** What a trace records: the state seen under the lock, the message admitted
    with its request, and how a request ended. *)
Inductive SubmitObs : Type :=
| O_Locked (s : OSDSessionState)
| O_Admitted (m : Message) (request : result SessionError Z)
| O_Ended (request : Z) (r : result SessionError (option Message))
| O_Wait.

Definition admission_result (a : AdmissionRace) : result SessionError Z :=
  match a with A_Done r | A_Interrupted _ r => r end.

Definition see_submit (X : Type) (e : SubmitE X) : X -> SubmitObs :=
  match e in SubmitE X return X -> SubmitObs with
  | E_Lock => fun s => O_Locked s
  | E_Admit m => fun a => O_Admitted m (admission_result a)
  | E_Cancel request => fun r => O_Ended request r
  | E_Settle request _ _ => fun r => match r with S_Result r => O_Ended request r | _ => O_Wait end
  | E_Options => fun _ => O_Wait
  | E_Deadline => fun _ => O_Wait
  | E_Capacity _ _ => fun _ => O_Wait
  | E_Changed _ => fun _ => O_Wait
  | E_Number _ => fun _ => O_Wait
  | E_Register _ _ _ => fun _ => O_Wait
  | E_Unregister _ _ => fun _ => O_Wait
  end.

Abbreviation SP := (Prog SubmitE).
Abbreviation SR A := (Prog SubmitE (result OsdError A)).

(** [wait_for] in a [select!] with the route. *)
Definition waited {routed} (w : Waited routed) : result OsdError unit :=
  match w with
  | W_Ready r => map_err map_session_error r
  | W_Timeout => Err OX_Timeout
  | W_Cancelled => Err OX_Cancelled
  | W_Route _ => Err OX_StaleMap
  end.

Inductive AdmissionOutcome : Type := AO_Request (request : Z) | AO_Reply (reply : Message).

Definition admit_with_cancellation (m : Message) (mutation : bool) : SR AdmissionOutcome :=
  options ← call E_Options;
  question (check_options options) (fun _ =>
  deadline ← call E_Deadline;
  if negb deadline then Ret (Err OX_Timeout)
  else
    race ← call (E_Admit m);
    match race with
    | A_Done r => Ret (map_err map_session_error (AO_Request <$> r))
    | A_Interrupted cause (Ok request) =>
        r ← call (E_Cancel request);
        Ret (AO_Reply <$> classify_cancel r cause mutation)
    | A_Interrupted cause (Err SE_Cancelled) => Ret (Err (cause_error cause))
    | A_Interrupted _ (Err e) => Ret (Err (map_session_error e))
    end).

Inductive SubmissionResult : Type := SR_Reply (reply : Message) | SR_Resend (uncertain : bool).

(** A delivered reply, as every wait treats it. *)
Definition delivered_reply (r : option Message) : result OsdError Message :=
  match r with
  | Some reply => Ok reply
  | None => Err OX_MalformedReply
  end.

Definition wait_for_submission (request : Z) (routed mutation : bool) : SR SubmissionResult :=
  deadline ← call E_Deadline;
  if negb deadline then Ret (Err OX_Timeout)
  else
    settled ← call (E_Settle request routed true);
    match settled with
    | S_Result (Ok r) => Ret (SR_Reply <$> delivered_reply r)
    | S_Result (Err e) => Ret (Err (map_request_error e mutation))
    | S_Interrupted cause =>
        r ← call (E_Cancel request); Ret (SR_Reply <$> classify_cancel r cause mutation)
    | S_Route _ =>
        r ← call (E_Cancel request);
        match r with
        | Ok r => Ret (SR_Reply <$> delivered_reply r)
        | Err SE_Cancelled => Ret (Err OX_StaleMap)
        | Err SE_OutcomeUnknown =>
            Ret (Err (if mutation then map_request_error SE_OutcomeUnknown mutation else OX_StaleMap))
        | Err e => Ret (Err (map_request_error e mutation))
        end
    | S_Unblocked _ false => Ret (Err OX_NotConnected)
    | S_Unblocked _ true =>
        r ← call (E_Cancel request);
        match r with
        | Ok r => Ret (SR_Reply <$> delivered_reply r)
        | Err SE_Cancelled => Ret (Ok (SR_Resend false))
        | Err SE_OutcomeUnknown => Ret (Ok (SR_Resend true))
        | Err e => Ret (Err (map_request_error e mutation))
        end
    end.

(** [if result.is_err() && failure == Some(Error::StaleMap)]. *)
Definition stale_or {A} (r : result OsdError A) : SR A :=
  match r with
  | Ok a => Ret (Ok a)
  | Err e =>
      s ← call E_Lock;
      Ret (Err (if bool_decide (ss_failure s = Some OX_StaleMap) then OX_StaleMap else e))
  end.

(** The reply of one admission, or whether its outcome is uncertain when the
    loop has to go round again. *)
Definition admitted_submission (pg : PG) (object : HObject) (routed mutation : bool) (id request : Z)
    : SR (Message + bool) :=
  _ ← call (E_Register pg id object);
  r ← wait_for_submission request routed mutation;
  _ ← call (E_Unregister pg id);
  match r with
  | Ok (SR_Resend uncertain) => Ret (Ok (inr uncertain))
  | Ok (SR_Reply reply) => Ret (Ok (inl reply))
  | Err e => stale_or (Err e)
  end.

(** The loop of [submit_routed], with the unknown outcome it ends with. *)
Fixpoint submit_loop (fuel : nat) (pg : PG) (object : HObject) (m : Message) (mutation routed : bool)
    (prior : option UnknownCause) : SP (result OsdError Message * option UnknownCause) :=
  match fuel with
  | O => Stop StillRunning
  | S fuel =>
      let again := submit_loop fuel pg object m mutation routed in
      s ← call E_Lock;
      match ss_failure s with
      | Some e => Ret (Err e, prior)
      | None =>
          slot ← call (E_Capacity m routed);
          match waited slot with
          | Err e => s ← call E_Lock; Ret (Err (default e (ss_failure s)), prior)
          | Ok _ =>
              s ← call E_Lock;
              match ss_failure s with
              | Some e => Ret (Err e, prior)
              | None =>
                  if blocked s pg object then
                    w ← call (E_Changed routed);
                    match waited w with
                    | Err e => Ret (Err e, prior)
                    | Ok _ => again prior
                    end
                  else
                    match number_submission s with
                    | None => Ret (Err OX_LimitExceeded, prior)
                    | Some numbered =>
                        let id := ss_next_submission numbered in
                        _ ← call (E_Number id);
                        admission ← admit_with_cancellation m mutation;
                        match admission with
                        | Err OX_QueueSaturated => again prior
                        | Err e => Ret (Err e, prior)
                        | Ok (AO_Reply reply) => Ret (Ok reply, prior)
                        | Ok (AO_Request request) =>
                            r ← admitted_submission pg object routed mutation id request;
                            match r with
                            | Ok (inl reply) => Ret (Ok reply, prior)
                            | Ok (inr uncertain) =>
                                again (if mutation && uncertain then Some UC_Transport else prior)
                            | Err e => Ret (Err e, prior)
                            end
                        end
                    end
              end
          end
      end
  end.

Definition submit_routed (fuel : nat) (pg : PG) (object : HObject) (m : Message) (mutation routed : bool)
    : SR Message :=
  '(r, prior) ← submit_loop fuel pg object m mutation routed None;
  Ret (map_err (fun e => preserve_unknown e prior) r).

(** [submit] watches no route. *)
Definition submit (fuel : nat) (pg : PG) (object : HObject) (m : Message) (mutation : bool) : SR Message :=
  submit_routed fuel pg object m mutation false.

Definition wait_for_request (request : Z) (mutation : bool) : SR Message :=
  deadline ← call E_Deadline;
  if negb deadline then Ret (Err OX_Timeout)
  else
    settled ← call (E_Settle request false false);
    match settled with
    | S_Result (Ok r) => Ret (delivered_reply r)
    | S_Result (Err e) => Ret (Err (map_request_error e mutation))
    | S_Interrupted cause => r ← call (E_Cancel request); Ret (classify_cancel r cause mutation)
    | S_Route signal => no_signal signal
    | S_Unblocked signal _ => no_signal signal
    end.

Definition submit_direct (m : Message) : SR Message :=
  s ← call E_Lock;
  match ss_failure s with
  | Some e => Ret (Err e)
  | None =>
      slot ← call (E_Capacity m false);
      match waited slot with
      | Err e => s ← call E_Lock; Ret (Err (default e (ss_failure s)))
      | Ok _ =>
          s ← call E_Lock;
          match ss_failure s with
          | Some e => Ret (Err e)
          | None =>
              await (admit_with_cancellation m false) (fun admission =>
              match admission with
              | AO_Reply reply => Ret (Ok reply)
              | AO_Request request => r ← wait_for_request request false; stale_or r
              end)
          end
      end
  end.

(** ** The shared state is well kept *)

Definition sub_at (s : OSDSessionState) (pg : PG) (id : Z) : option Submission :=
  entries ← ss_submissions s !! pg; entries !! id.

Record state_inv (s : OSDSessionState) (signals : list (PG * Z)) : Prop := {
  si_backoffs : forall id b, ss_backoffs s !! id = Some b -> bo_id b = id /\ bo_operation b = BACKOFF_BLOCK;
  si_entries : forall pg entries, ss_submissions s !! pg = Some entries -> entries <> ∅;
  si_next : 0 <= ss_next_submission s;
  si_ids : forall pg id sub, sub_at s pg id = Some sub -> 1 <= id <= ss_next_submission s;
  si_unique : forall pg pg' id sub sub', sub_at s pg id = Some sub -> sub_at s pg' id = Some sub' -> pg = pg';
  si_signal : forall pg id sub, sub_at s pg id = Some sub -> (sub_resend sub = false <-> (pg, id) ∈ signals);
  si_sent : forall pg id, (pg, id) ∈ signals -> 1 <= id <= ss_next_submission s;
  si_once : NoDup signals
}.

Lemma sub_at_register s pg id object pg' id' :
  sub_at (register s pg id object) pg' id'
  = if decide (pg = pg' /\ id = id') then Some (mkSubmission object true) else sub_at s pg' id'.
Proof.
  unfold sub_at, register. cbn [ss_submissions with_submissions].
  destruct (decide (pg = pg')) as [->|Hpg].
  - rewrite lookup_insert_eq. cbn. destruct (decide (id = id')) as [->|Hid].
    + by rewrite lookup_insert_eq, decide_True.
    + rewrite lookup_insert_ne, decide_False by naive_solver. by destruct (ss_submissions s !! pg').
  - by rewrite lookup_insert_ne, decide_False by naive_solver.
Qed.

Lemma sub_at_unregister s pg id pg' id' :
  sub_at (unregister s pg id) pg' id' = if decide (pg = pg' /\ id = id') then None else sub_at s pg' id'.
Proof.
  unfold sub_at, unregister. destruct (ss_submissions s !! pg) as [entries|] eqn:E.
  2:{ destruct (decide _) as [[<- <-]|]; [by rewrite E|done]. }
  cbn [ss_submissions with_submissions].
  destruct (decide (pg = pg')) as [->|Hpg].
  - rewrite E. cbn. transitivity (delete id entries !! id').
    + destruct (decide (delete id entries = ∅)) as [He|]; [|by rewrite lookup_insert_eq].
      rewrite lookup_delete_eq, He. done.
    + destruct (decide (id = id')) as [->|].
      * by rewrite lookup_delete_eq, decide_True.
      * by rewrite lookup_delete_ne, decide_False by naive_solver.
  - rewrite (decide_False (P := pg = pg' /\ id = id')) by naive_solver.
    destruct (decide (delete id entries = ∅)); [by rewrite lookup_delete_ne|by rewrite lookup_insert_ne].
Qed.

Lemma sub_at_unblock s b pg id :
  sub_at (unblock s b).1 pg id = (if decide (bo_pg b = pg) then take_resend b else Datatypes.id) <$> sub_at s pg id.
Proof.
  unfold sub_at, unblock. cbn [ss_submissions with_backoffs].
  destruct (ss_submissions s !! bo_pg b) as [entries|] eqn:E; cbn [fst ss_submissions with_submissions with_backoffs].
  - destruct (decide (bo_pg b = pg)) as [<-|Hpg].
    + rewrite lookup_insert_eq, E. cbn. by rewrite lookup_fmap.
    + rewrite lookup_insert_ne by done. by rewrite option_fmap_id.
  - destruct (decide (bo_pg b = pg)) as [<-|Hpg]; [by rewrite E|by rewrite option_fmap_id].
Qed.

Lemma unblock_signals s b pg id :
  (pg, id) ∈ (unblock s b).2
  <-> pg = bo_pg b /\ exists sub, sub_at s pg id = Some sub /\ Backoff_contains b (sub_object sub) = true
        /\ sub_resend sub = true.
Proof.
  unfold sub_at, unblock. cbn [ss_submissions with_backoffs].
  destruct (ss_submissions s !! bo_pg b) as [entries|] eqn:E; cbn [snd].
  2:{ rewrite elem_of_nil. split; [done|]. intros [-> (sub & Hs & _)]. by rewrite E in Hs. }
  unfold signalled. rewrite list_elem_of_fmap. setoid_rewrite list_elem_of_fmap.
  split.
  - intros (id' & [= -> ->] & [k sub] & -> & Hin). apply list_elem_of_filter in Hin as [Hc Hin].
    apply elem_of_map_to_list in Hin. rewrite E. cbn in *. apply andb_prop_elim in Hc as [Hc Hr].
    split; [done|]. exists sub. split; [done|]. split; by apply Is_true_true.
  - intros [-> (sub & Hs & Hc & Hr)]. rewrite E in Hs. cbn in Hs. exists id. split; [done|].
    exists (id, sub). split; [done|]. apply list_elem_of_filter. split; [cbn; by rewrite Hc, Hr|].
    by apply elem_of_map_to_list.
Qed.

Lemma unblock_signals_NoDup s b : NoDup (unblock s b).2.
Proof.
  unfold unblock. cbn [ss_submissions with_backoffs].
  destruct (ss_submissions s !! bo_pg b) as [entries|]; cbn [snd]; [|constructor].
  apply NoDup_fmap_2; [by intros ? ? [=]|]. unfold signalled.
  apply NoDup_fmap_fst; [|apply NoDup_filter, NoDup_map_to_list].
  intros id s1 s2 [_ H1%elem_of_map_to_list]%list_elem_of_filter [_ H2%elem_of_map_to_list]%list_elem_of_filter.
  congruence.
Qed.

Lemma unblock_frame s b :
  ss_next_submission (unblock s b).1 = ss_next_submission s
  /\ ss_failure (unblock s b).1 = ss_failure s
  /\ ss_backoffs (unblock s b).1 = delete (bo_id b) (ss_backoffs s).
Proof. unfold unblock. cbn. by destruct (ss_submissions s !! bo_pg b). Qed.

Lemma state_inv_register s signals pg object s' :
  state_inv s signals -> number_submission s = Some s' ->
  state_inv (register s' pg (ss_next_submission s') object) signals.
Proof.
  intros [Hb He Hn Hi Hu Hs Ht Ho] Hnum.
  assert (s' = mkOSDSessionState (ss_backoffs s) (ss_next_submission s + 1) (ss_submissions s) (ss_failure s)) as ->.
  { unfold number_submission, checked_add in Hnum. by case_match; simplify_option_eq. }
  set (s' := mkOSDSessionState _ _ _ _). assert (forall pg id, sub_at s' pg id = sub_at s pg id) as Hat by done.
  cbn [ss_next_submission s'].
  constructor; cbn [ss_backoffs ss_next_submission ss_submissions register with_submissions s'] in *; try done; try lia.
  - intros pg' entries. destruct (decide (pg = pg')) as [->|].
    + rewrite lookup_insert_eq. intros [= <-]. apply insert_non_empty.
    + rewrite lookup_insert_ne by done. apply He.
  - intros pg' id sub. rewrite sub_at_register, Hat. case_decide; [lia|]. intros Hat'%Hi. lia.
  - intros p1 p2 id sub1 sub2. rewrite !sub_at_register, !Hat. cbn [ss_next_submission s'].
    case_decide as D1; case_decide as D2; [naive_solver| | |by apply Hu]; intros E1 E2;
      [apply Hi in E2|apply Hi in E1]; lia.
  - intros p id sub. rewrite sub_at_register, Hat. cbn [ss_next_submission s'].
    case_decide as Hd; [|apply Hs]. intros [= <-]. destruct Hd as [<- <-]. cbn. split; [done|].
    intros Hin%Ht. lia.
  - intros p id Hin%Ht. lia.
Qed.

Lemma state_inv_number s signals s' :
  state_inv s signals -> number_submission s = Some s' -> state_inv s' signals.
Proof.
  intros [Hb He Hn Hi Hu Hs Ht Ho] Hnum. unfold number_submission, checked_add in Hnum.
  case_match; simplify_option_eq. constructor; cbn in *; try done; try lia.
  - intros pg id sub Hat. specialize (Hi pg id sub Hat). lia.
  - intros pg id Hin%Ht. lia.
Qed.

Lemma state_inv_unregister s signals pg id : state_inv s signals -> state_inv (unregister s pg id) signals.
Proof.
  intros [Hb He Hn Hi Hu Hs Ht Ho].
  assert (forall p i sub, sub_at (unregister s pg id) p i = Some sub -> sub_at s p i = Some sub) as Hat.
  { intros p i sub. rewrite sub_at_unregister. by case_decide. }
  assert (ss_backoffs (unregister s pg id) = ss_backoffs s
          /\ ss_next_submission (unregister s pg id) = ss_next_submission s) as [Eb En].
  { unfold unregister. by case_match. }
  constructor; rewrite ?Eb, ?En; try done; eauto.
  - intros p entries. unfold unregister. case_match eqn:E; [|apply He]. cbn.
    case_decide as Hd; [rewrite lookup_delete_Some; intros [_ H]; eauto|].
    destruct (decide (pg = p)) as [->|]; [rewrite lookup_insert_eq; by intros [= <-]|].
    rewrite lookup_insert_ne by done. apply He.
Qed.

Lemma state_inv_unblock s signals b :
  state_inv s signals -> state_inv (unblock s b).1 (signals ++ (unblock s b).2).
Proof.
  intros [Hb He Hn Hi Hu Hs Ht Ho]. destruct (unblock_frame s b) as (En & _ & Eb).
  assert (forall p i sub, sub_at (unblock s b).1 p i = Some sub -> is_Some (sub_at s p i)) as Hat.
  { intros p i sub. rewrite sub_at_unblock. intros (x & -> & _)%fmap_Some. by exists x. }
  constructor; rewrite ?Eb, ?En; try done.
  - intros id c [_ H]%lookup_delete_Some. by apply Hb.
  - intros p entries. unfold unblock. cbn [ss_submissions with_backoffs].
    case_match eqn:E; cbn; [|apply He]. destruct (decide (bo_pg b = p)) as [<-|].
    + rewrite lookup_insert_eq. intros [= <-]. rewrite fmap_empty_iff. by eapply He.
    + rewrite lookup_insert_ne by done. apply He.
  - intros p i sub [x Hx]%Hat. by eapply Hi.
  - intros p p' i sub sub' [x Hx]%Hat [x' Hx']%Hat. by eapply Hu.
  - intros p i sub. rewrite sub_at_unblock, elem_of_app, unblock_signals.
    intros (x & Hx & ->)%fmap_Some. rewrite Hx, <- (Hs _ _ _ Hx).
    destruct (decide (bo_pg b = p)) as [->|Hp]; [|unfold Datatypes.id; split; [by left|by intros [?|[-> _]]]].
    unfold take_resend. destruct (Backoff_contains b (sub_object x)) eqn:Ec; cbn.
    2:{ split; [by left|]. intros [?|[_ (y & [= <-] & Hc & _)]]; [done|congruence]. }
    split; [intros _; destruct (sub_resend x) eqn:Er; [right|by left]|done].
    split; [done|]. by exists x.
  - intros p i [H|H]%elem_of_app; [by apply Ht in H|].
    apply unblock_signals in H as [_ (x & Hx & _)]. by eapply Hi.
  - apply NoDup_app. split; [done|]. split; [|apply unblock_signals_NoDup].
    intros [p i] Hin [_ (x & Hx & _ & Hr)]%unblock_signals. apply (Hs _ _ _ Hx) in Hin. congruence.
Qed.

(** ** The receiver is well behaved *)

Definition ack_bytes (acks : list BackoffAck) : Z := foldr (fun a n => ba_bytes a + n) 0 acks.

Definition held_acks (r : SessionRun) : list BackoffAck := option_list (sr_sending r) ++ sr_queue r.

Definition is_disconnect (b : Broadcast) : Prop := match b with Disconnected => True | Forwarded _ => False end.

#[export] Instance is_disconnect_dec b : Decision (is_disconnect b).
Proof. destruct b; [right|left]; naive_solver. Defined.

Record run_inv (r : SessionRun) : Prop := {
  ri_state : state_inv (sr_state r) (sr_signals r);
  ri_failed : sr_closed r = true <-> is_Some (ss_failure (sr_state r));
  ri_told : length (filter is_disconnect (sr_broadcasts r)) = (if sr_closed r then 1 else 0)%nat;
  ri_running : sr_receiving r = true -> sr_closed r = false;
  ri_slots : sr_slots r + zlen (held_acks r) = MAX_CONTROL_MESSAGES;
  ri_bytes : sr_bytes r + ack_bytes (held_acks r) = MAX_CONTROL_BYTES;
  ri_free : 0 <= sr_slots r /\ 0 <= sr_bytes r;
  ri_acks : Forall (fun a => 0 <= ba_bytes a) (held_acks r)
}.

Lemma ack_bytes_app l l' : ack_bytes (l ++ l') = ack_bytes l + ack_bytes l'.
Proof. unfold ack_bytes. induction l as [|a l IH]; cbn; [done|]. rewrite IH. lia. Qed.

Lemma run_inv_new generation : run_inv (SessionRun_new generation).
Proof.
  constructor; cbn; try done.
  constructor; cbn; try done; try by setoid_rewrite elem_of_nil. constructor.
Qed.

(** A change of the state that keeps the failure. *)
Lemma run_inv_state r s signals generation revision :
  run_inv r -> state_inv s (sr_signals r ++ signals) -> ss_failure s = ss_failure (sr_state r) ->
  run_inv (mkSessionRun s generation revision (sr_broadcasts r) (sr_closed r) (sr_signals r ++ signals)
             (sr_slots r) (sr_bytes r) (sr_queue r) (sr_sending r) (sr_receiving r)).
Proof. intros [H1 H2 H3 H4 H5 H6 H7 H8] Hs Hf. constructor; cbn; try done. by rewrite Hf. Qed.

Lemma run_inv_set r s :
  run_inv r -> state_inv s (sr_signals r) -> ss_failure s = ss_failure (sr_state r) -> run_inv (with_state s r).
Proof. intros [H1 H2 H3 H4 H5 H6 H7 H8] Hs Hf. constructor; cbn; try done. by rewrite Hf. Qed.

Lemma state_inv_clear s signals : state_inv s signals -> state_inv (with_backoffs ∅ s) signals.
Proof. intros [Hb He Hn Hi Hu Hs Ht Ho]. constructor; try done. Qed.

Lemma run_inv_sync r current : run_inv r -> run_inv (sync_backoff_generation current r).
Proof.
  intros Hr. unfold sync_backoff_generation. case_match; [done|].
  destruct Hr as [H1 H2 H3 H4 H5 H6 H7 H8]. constructor; cbn; try done. by apply state_inv_clear.
Qed.

Lemma run_inv_fail r e : run_inv r -> run_inv (stop_receiving (fail_session e r)).
Proof.
  intros [[Hb He Hn Hi Hu Hs Ht Ho] H2 H3 H4 H5 H6 H7 H8]. unfold fail_session.
  destruct (ss_failure (sr_state r)) as [f|] eqn:Ef.
  - destruct (sr_closed r) eqn:Ec; [|destruct H2 as [_ H2]; discriminate H2; by eexists].
    by constructor.
  - destruct (sr_closed r) eqn:Ec; [destruct H2 as [H2 _]; destruct (H2 eq_refl) as [? [=]]|].
    constructor; cbn; try done.
    rewrite filter_app, length_app, H3. done.
Qed.

Lemma run_inv_stop r : run_inv r -> run_inv (stop_receiving r).
Proof. intros [H1 H2 H3 H4 H5 H6 H7 H8]. by constructor. Qed.

Lemma run_inv_forward r n : run_inv r -> run_inv (broadcast (Forwarded n) r).
Proof.
  intros [H1 H2 H3 H4 H5 H6 H7 H8]. constructor; cbn; try done.
  by rewrite filter_app, length_app, H3, Nat.add_0_r.
Qed.

Lemma run_inv_queue r clock ack generation r' :
  run_inv r -> queue_backoff_ack clock ack generation r = Some r' -> run_inv r'.
Proof.
  intros [H1 H2 H3 H4 H5 H6 H7 H8] H. unfold queue_backoff_ack in H.
  destruct (try_u 32 _) as [retained|] eqn:Et; [|done]. apply try_u_inv in Et as [-> Ht].
  cbn in H. case_match eqn:Ec; [done|]. simplify_eq. bool_prop.
  constructor; cbn; unfold held_acks in *; cbn; try done; try lia.
  - rewrite app_assoc, zlen_app. unfold zlen at 2. cbn. lia.
  - rewrite app_assoc, ack_bytes_app. cbn. lia.
  - rewrite app_assoc. apply Forall_app. split; [done|]. constructor; [cbn; unfold in_u in Ht; lia|done].
Qed.

Lemma decode_backoff_operation m limits b :
  decode_backoff m limits = Ok b -> bo_operation b = BACKOFF_BLOCK \/ bo_operation b = BACKOFF_UNBLOCK.
Proof.
  unfold decode_backoff. case_match; [done|]. intros Hd.
  destruct (decode_backoff_front _) as [[b' d]|] eqn:E; [|done]. cbn in Hd. simplify_eq.
  unfold decode_backoff_front in E. dm_inv. cbn. bool_prop. lia.
Qed.

Lemma run_inv_block r b :
  run_inv r -> bo_operation b = BACKOFF_BLOCK ->
  run_inv (update_state (with_backoffs (<[bo_id b := b]> (ss_backoffs (sr_state r))) (sr_state r)) [] r).
Proof.
  intros Hr Hb. apply run_inv_state; [done| |done]. rewrite app_nil_r.
  destruct (ri_state _ Hr) as [Hk He Hn Hi Hu Hs Ht Ho]. constructor; try done.
  intros id c. cbn. rewrite lookup_insert_Some. intros [[<- <-]|[_ H]]; [done|by apply Hk].
Qed.

Lemma receive_message_inv limits clock current m generation r :
  run_inv r ->
  exists r', receive_message limits clock current m generation r = Ok r' /\ run_inv r'.
Proof.
  intros Hr. unfold receive_message. repeat case_match; try (eexists; split; [done|]);
    auto using run_inv_fail, run_inv_forward, run_inv_sync.
  rename select (decode_backoff _ _ = Ok _) into Hd. apply decode_backoff_operation in Hd.
  pose proof (run_inv_sync _ current Hr) as Hr'. unfold apply_backoff.
  destruct (Z.eqb_spec (bo_operation a) BACKOFF_BLOCK) as [Hb|Hb].
  - pose proof (run_inv_block _ _ Hr' Hb) as Hr2.
    destruct (encode_acknowledgment a limits); eexists; (split; [done|]); [|by apply run_inv_fail].
    destruct (queue_backoff_ack _ _ _ _) eqn:Eq; cbn; [by eapply run_inv_queue|by apply run_inv_stop].
  - destruct Hd as [Hd|Hd]; [done|]. rewrite Hd. cbn.
    pose proof (state_inv_unblock _ _ a (ri_state _ Hr')) as Hs.
    destruct (unblock_frame (sr_state (sync_backoff_generation current r)) a) as (_ & Hf & _).
    destruct (unblock _ a) as [s signals]. eexists. split; [done|]. by apply run_inv_state.
Qed.

Lemma session_step_inv limits r r' : run_inv r -> session_step limits r r' -> run_inv r'.
Proof.
  intros Hr Hs. destruct Hs as [current _|clock current m generation r' _ H| | | |s H|s pg object H|pg id].
  - by apply run_inv_sync.
  - destruct (receive_message_inv limits clock current m generation r Hr) as (r2 & H2 & Hr2). congruence.
  - unfold take_ack. destruct (sr_sending r) eqn:Es; [done|]. destruct (sr_queue r) eqn:Eq; [done|].
    destruct Hr as [H1 H2 H3 H4 H5 H6 H7 H8]. unfold held_acks in *. rewrite Es, Eq in *. by constructor.
  - unfold drop_ack. destruct (sr_sending r) as [a|] eqn:Es; [|done]. destruct Hr as [H1 H2 H3 H4 H5 H6 H7 H8].
    unfold held_acks in *. rewrite Es in *. apply Forall_cons in H8 as [Ha H8].
    unfold zlen in *. constructor; unfold held_acks, zlen; cbn in *; try done; lia.
  - by apply run_inv_fail.
  - apply run_inv_set; [done|eapply state_inv_number; [apply Hr|done]|].
    unfold number_submission in H. by simplify_option_eq.
  - apply run_inv_set; [done|eapply state_inv_register; [apply Hr|done]|].
    unfold number_submission in H. by simplify_option_eq.
  - apply run_inv_set; [done|apply state_inv_unregister, Hr|]. unfold unregister. by case_match.
Qed.

Lemma session_reached_inv limits r : session_reached limits r -> run_inv r.
Proof. induction 1; [apply run_inv_new|by eapply session_step_inv]. Qed.

(** C15. However the receiver, the sender of acknowledgments and the
    submissions interleave, the state of a session with an OSD stays sound: no
    message panics the receiver; every registered submission has its own
    number; it is told to resend at most once, and is marked exactly when it
    was told; the first failure, and only the first, is broadcast, and closes
    the session for good; and the acknowledgments held never exceed 16 nor
    1 MiB. *)
Theorem osd_session_sound limits r :
  session_reached limits r ->
  (forall clock current m generation, is_ok (receive_message limits clock current m generation r) = true)
  /\ (forall pg pg' id sub sub', sub_at (sr_state r) pg id = Some sub -> sub_at (sr_state r) pg' id = Some sub' ->
        pg = pg' /\ 1 <= id <= ss_next_submission (sr_state r))
  /\ (forall pg id sub, sub_at (sr_state r) pg id = Some sub ->
        (sub_resend sub = false <-> (pg, id) ∈ sr_signals r))
  /\ NoDup (sr_signals r)
  /\ length (filter is_disconnect (sr_broadcasts r))
     = (if bool_decide (is_Some (ss_failure (sr_state r))) then 1 else 0)%nat
  /\ (is_Some (ss_failure (sr_state r)) -> sr_closed r = true /\ sr_receiving r = false)
  /\ zlen (held_acks r) <= MAX_CONTROL_MESSAGES /\ ack_bytes (held_acks r) <= MAX_CONTROL_BYTES.
Proof.
  intros Hr%session_reached_inv. pose proof Hr as [[Hb He Hn Hi Hu Hs Ht Ho] H2 H3 H4 H5 H6 H7 H8].
  split_and!; try done; try lia; eauto.
  - intros clock current m generation.
    by destruct (receive_message_inv limits clock current m generation r Hr) as (r' & -> & _).
  - rewrite H3. case_bool_decide as Hf; [by rewrite (proj2 H2 Hf)|].
    destruct (sr_closed r); [|done]. destruct Hf. by apply H2.
  - intros Hf%H2. split; [done|]. destruct (sr_receiving r); [|done]. by rewrite (H4 eq_refl) in Hf.
Qed.

(** An UNBLOCK of the session's current connection is heard by exactly the
    submissions it is for: every submission of its placement group whose object
    is in its range is marked, and told to resend unless it had been told
    before; every other submission is left alone; and the backoffs that remain
    are those of the current connection other than the one it ends. *)
Theorem unblock_wakes limits clock generation m b r r' :
  message_type (header m) = MESSAGE_OSD_BACKOFF -> decode_backoff m limits = Ok b ->
  bo_operation b = BACKOFF_UNBLOCK -> receive_message limits clock generation m generation r = Ok r' ->
  (forall pg id, sub_at (sr_state r') pg id
     = (if decide (pg = bo_pg b) then take_resend b else Datatypes.id) <$> sub_at (sr_state r) pg id)
  /\ (forall pg id, (pg, id) ∈ sr_signals r' <->
        (pg, id) ∈ sr_signals r
        \/ pg = bo_pg b /\ exists sub, sub_at (sr_state r) pg id = Some sub
             /\ Backoff_contains b (sub_object sub) = true /\ sub_resend sub = true)
  /\ ss_backoffs (sr_state r')
     = delete (bo_id b) (if sr_generation r =? generation then ss_backoffs (sr_state r) else ∅).
Proof.
  intros Ht Hd Hop. unfold receive_message. rewrite Ht, Z.eqb_refl, Hd. cbn -[apply_backoff].
  unfold apply_backoff. rewrite Hop. cbn -[unblock].
  set (r1 := sync_backoff_generation generation r).
  assert (ss_submissions (sr_state r1) = ss_submissions (sr_state r)
          /\ sr_signals r1 = sr_signals r
          /\ ss_backoffs (sr_state r1) = if sr_generation r =? generation then ss_backoffs (sr_state r) else ∅)
    as (E1 & E2 & E3).
  { unfold r1, sync_backoff_generation. rewrite Z.eqb_sym. by destruct (_ =? _). }
  assert (forall pg id, sub_at (sr_state r1) pg id = sub_at (sr_state r) pg id) as Hat.
  { intros. unfold sub_at. by rewrite E1. }
  destruct (unblock (sr_state r1) b) as [s signals] eqn:Eu. rewrite Z.eqb_refl. intros [= <-]. cbn.
  pose proof (sub_at_unblock (sr_state r1) b) as Hsub. pose proof (unblock_signals (sr_state r1) b) as Hsig.
  destruct (unblock_frame (sr_state r1) b) as (_ & _ & Hb). rewrite Eu in *. cbn in *.
  split_and!; [| |by rewrite Hb, E3].
  - intros pg id. rewrite Hsub, Hat. by repeat case_decide.
  - intros pg id. rewrite elem_of_app, Hsig, E2. by setoid_rewrite Hat.
Qed.

(** ** Submissions are well behaved *)

Definition last_locked (t : list SubmitObs) : option OSDSessionState :=
  fold_left (fun acc o => match o with O_Locked s => Some s | _ => acc end) t None.

(** The requests admitted and not yet ended. *)
Definition in_flight (t : list SubmitObs) : list Z :=
  fold_left (fun l o => match o with
    | O_Admitted _ (Ok q) => q :: l
    | O_Ended q _ => filter (fun q' => q' <> q) l
    | _ => l end) t [].

(** A request ended without the session knowing whether it took effect. *)
Definition uncertain (t : list SubmitObs) : Prop := exists q, O_Ended q (Err SE_OutcomeUnknown) ∈ t.

(** The reply came for a request that admitted the message [m]. *)
Definition delivered (m : Message) (t : list SubmitObs) (reply : Message) : Prop :=
  exists q, O_Admitted m (Ok q) ∈ t /\ O_Ended q (Ok (Some reply)) ∈ t.

(** Nothing stands in the way of a submission. *)
Definition unhindered (s : OSDSessionState) (pg : PG) (object : HObject) : Prop :=
  ss_failure s = None
  /\ forall id b, ss_backoffs s !! id = Some b -> bo_pg b = pg -> Backoff_contains b object = false.

(** Every admission is of the message [m], made while nothing stood in its way
    and no earlier copy was under way. *)
Definition orderly (pg : PG) (object : HObject) (m : Message) (t : list SubmitObs) : Prop :=
  forall before m' q after, t = before ++ O_Admitted m' q :: after ->
    m' = m /\ in_flight before = []
    /\ exists s, last_locked before = Some s /\ unhindered s pg object.

(** What makes a submission go round again: a backoff, a refused admission, or
    a request that ended without a reply. *)
Definition setback (pg : PG) (object : HObject) (o : SubmitObs) : Prop :=
  match o with
  | O_Locked s => blocked s pg object = true
  | O_Admitted _ (Err _) | O_Ended _ (Err _) => True
  | _ => False
  end.

#[export] Instance setback_dec pg object o : Decision (setback pg object o).
Proof. destruct o as [|? []|? []|]; cbn; apply _. Defined.

Definition setbacks (pg : PG) (object : HObject) (t : list SubmitObs) : nat :=
  length (filter (setback pg object) t).

Definition is_outcome_unknown (e : OsdError) : Prop := exists cause, e = OX_OutcomeUnknown cause.

Lemma last_locked_snoc t o :
  last_locked (t ++ [o]) = match o with O_Locked s => Some s | _ => last_locked t end.
Proof. unfold last_locked. rewrite fold_left_app. by destruct o. Qed.

Lemma in_flight_snoc t o :
  in_flight (t ++ [o]) = match o with
    | O_Admitted _ (Ok q) => q :: in_flight t
    | O_Ended q _ => filter (fun q' => q' <> q) (in_flight t)
    | _ => in_flight t end.
Proof. unfold in_flight. rewrite fold_left_app. destruct o as [|? []| |]; done. Qed.

Lemma uncertain_snoc t o :
  uncertain (t ++ [o])
  <-> uncertain t \/ match o with O_Ended _ r => r = Err SE_OutcomeUnknown | _ => False end.
Proof.
  unfold uncertain. setoid_rewrite elem_of_app. setoid_rewrite list_elem_of_singleton. split.
  - intros (q & [H|<-]); [left; by exists q|by right].
  - intros [[q H]|H]; [exists q; by left|]. destruct o; try done. subst. eexists. by right.
Qed.

Lemma setbacks_snoc pg object t o :
  setbacks pg object (t ++ [o]) = (setbacks pg object t + if decide (setback pg object o) then 1 else 0)%nat.
Proof. unfold setbacks. rewrite filter_app, length_app. f_equal. cbn. by case_decide. Qed.

Lemma delivered_snoc m t q reply :
  O_Admitted m (Ok q) ∈ t -> delivered m (t ++ [O_Ended q (Ok (Some reply))]) reply.
Proof.
  intros H. exists q. split; apply elem_of_app; [by left|right; by apply list_elem_of_singleton].
Qed.

Lemma in_flight_admitted t q : q ∈ in_flight t -> exists m, O_Admitted m (Ok q) ∈ t.
Proof.
  induction t as [|o t IH] using rev_ind; [by intros ?%elem_of_nil|]. rewrite in_flight_snoc.
  assert (q ∈ in_flight t -> exists m, O_Admitted m (Ok q) ∈ t ++ [o]) as Ht.
  { intros [m Hm]%IH. exists m. apply elem_of_app. by left. }
  destruct o as [s|m [q'|e]|q' r|]; try done.
  - intros [->|Hq]%elem_of_cons; [|by apply Ht]. exists m. apply elem_of_app. right. by apply list_elem_of_singleton.
  - intros [_ Hq]%list_elem_of_filter. by apply Ht.
Qed.

Lemma orderly_nil pg object m : orderly pg object m [].
Proof. intros before m' q after H. by destruct before. Qed.

Lemma orderly_snoc pg object m t o :
  orderly pg object m t ->
  (forall m' q, o = O_Admitted m' q -> m' = m /\ in_flight t = []
     /\ exists s, last_locked t = Some s /\ unhindered s pg object) ->
  orderly pg object m (t ++ [o]).
Proof.
  intros Ht Ho before m' q after H. destruct after as [|o' after _] using rev_ind.
  - apply app_inj_tail in H as [<- ->]. by eapply Ho.
  - rewrite app_comm_cons, app_assoc in H. apply app_inj_tail in H as [H _]. by eapply Ht.
Qed.

Lemma orderly_plain pg object m t o :
  orderly pg object m t -> (forall m' q, o <> O_Admitted m' q) -> orderly pg object m (t ++ [o]).
Proof. intros Ht Ho. apply orderly_snoc; [done|]. intros m' q ->. by destruct (Ho m' q). Qed.

Lemma orderly_admitted pg object m t q : orderly pg object m t -> q ∈ in_flight t -> O_Admitted m (Ok q) ∈ t.
Proof.
  intros Ho [m' Hm]%in_flight_admitted. apply list_elem_of_split in Hm as (before & after & ->).
  destruct (Ho before m' (Ok q) after eq_refl) as (-> & _). apply elem_of_app. right. by left.
Qed.

Lemma blocked_false s pg object :
  ss_failure s = None -> blocked s pg object = false -> unhindered s pg object.
Proof.
  intros Hf Hb. split; [done|]. intros id b Hl Hpg. unfold blocked in Hb.
  destruct (Backoff_contains b object) eqn:Ec; [|done].
  rewrite <- Hb. symmetry. apply existsb_exists. exists (id, b).
  split; [by apply list_elem_of_In, elem_of_map_to_list|]. cbn. by rewrite Ec, bool_decide_true.
Qed.

(** What holds of the trace wherever the loop starts over. *)
Record at_rest (pg : PG) (object : HObject) (m : Message) (t : list SubmitObs) : Prop := {
  rest_orderly : orderly pg object m t;
  rest_flight : in_flight t = []
}.

(** Facts about a trace that was just extended. *)
Ltac traced := rewrite ?in_flight_snoc, ?last_locked_snoc, ?uncertain_snoc; cbn [see_submit admission_result].
Ltac quiet := repeat (apply orderly_plain; [|done]).

(** What the cancellation of a request says of its outcome. *)
Lemma classify_cancel_spec r cause mutation :
  match classify_cancel r cause mutation with
  | Ok reply => r = Ok (Some reply)
  | Err e => mutation = true -> r = Err SE_OutcomeUnknown -> is_outcome_unknown e
  end.
Proof. destruct r as [[reply|]|[]]; cbn; try done. destruct mutation; [|done]. by eexists. Qed.

Lemma map_request_error_unknown e mutation :
  mutation = true -> e = SE_OutcomeUnknown -> is_outcome_unknown (map_request_error e mutation).
Proof. intros -> ->. by eexists. Qed.

Ltac step x := apply always_call; intros x; cbv beta; cbn [see_submit].

Section Submit.
  Context (pg : PG) (object : HObject) (m : Message) (mutation : bool).

(** An uncertain outcome of a mutation is reported as such. *)
Definition honest (t t' : list SubmitObs) (e : OsdError) : Prop :=
  mutation = true -> uncertain t' -> uncertain t \/ is_outcome_unknown e.

(** ... or given up for a stale map the session failed with. *)
Definition stale (t : list SubmitObs) (e : OsdError) : Prop :=
  e = OX_StaleMap /\ exists s, last_locked t = Some s /\ ss_failure s = Some OX_StaleMap.

Lemma admit_always t s :
  orderly pg object m t -> in_flight t = [] -> last_locked t = Some s -> unhindered s pg object ->
  always see_submit (admit_with_cancellation m mutation) t (fun t' r =>
    orderly pg object m t' /\
    match r with
    | Ok (Ok (AO_Request q)) => in_flight t' = [q] /\ (uncertain t' -> uncertain t)
    | Ok (Ok (AO_Reply reply)) => delivered m t' reply
    | Ok (Err e) => in_flight t' = [] /\ honest t t' e
    | Err _ => True
    end).
Proof.
  intros Ho Hf Hl Hu. unfold admit_with_cancellation. intros options.
  cbn. destruct (check_options options) as [[]|e].
  2:{ split; [by quiet|]. traced. split; [done|]. intros _. traced. tauto. }
  intros [|].
  2:{ split; [by quiet|]. traced. split; [done|]. intros _. traced. tauto. }
  intros race. set (t2 := (t ++ _) ++ _).
  assert (orderly pg object m (t2 ++ [O_Admitted m (admission_result race)])) as Ho2.
  { apply orderly_snoc; [unfold t2; by quiet|]. intros ? ? [= <- <-]. unfold t2. traced. eauto. }
  assert (in_flight t2 = []) as Hf2 by (unfold t2; by traced).
  assert (uncertain t2 -> uncertain t) as Hu2 by (unfold t2; traced; tauto).
  clearbody t2. cbn.
  destruct race as [[q|e]|cause [q|e]]; cbn in Ho2 |- *.
  - split; [done|]. traced. split; [by rewrite Hf2|tauto].
  - split; [done|]. traced. split; [done|]. intros _. traced. tauto.
  - intros r. cbn. pose proof (classify_cancel_spec r cause mutation) as Hc.
    destruct (classify_cancel r cause mutation) as [reply|e]; cbn; (split; [by quiet|]).
    + subst r. apply delivered_snoc, elem_of_app. right. by apply list_elem_of_singleton.
    + traced. rewrite Hf2, filter_cons_False by (intros H; by apply H). split; [done|].
      intros Hm. traced. intros [[Hx|[]]|Hx]; [by left; apply Hu2|right; by apply Hc].
  - assert (in_flight (t2 ++ [O_Admitted m (Err e)]) = []) as Hf3 by by traced.
    assert (uncertain (t2 ++ [O_Admitted m (Err e)]) -> uncertain t) as Hu3 by (traced; tauto).
    destruct e; (split; [done|]; split; [done|]; intros _; by left; apply Hu3).
Qed.

(** One request is under way, and nothing is uncertain that was not before. *)
Record under_way (t : list SubmitObs) (q : Z) (t' : list SubmitObs) : Prop := {
  uw_orderly : orderly pg object m t';
  uw_flight : in_flight t' = [q];
  uw_certain : uncertain t' -> uncertain t
}.

Lemma under_way_wait t q t' : under_way t q t' -> under_way t q (t' ++ [O_Wait]).
Proof. intros [Ho Hf Hc]. constructor; [by quiet|by traced|traced; tauto]. Qed.

Lemma under_way_ended t q t' r :
  under_way t q t' ->
  orderly pg object m (t' ++ [O_Ended q r]) /\ in_flight (t' ++ [O_Ended q r]) = []
  /\ (uncertain (t' ++ [O_Ended q r]) -> uncertain t \/ r = Err SE_OutcomeUnknown).
Proof.
  intros [Ho Hf Hc]. split_and!; [by quiet| |traced; tauto].
  traced. rewrite Hf. by rewrite filter_cons_False by (intros H; by apply H).
Qed.

Lemma under_way_error t q t' r e :
  under_way t q t' -> (mutation = true -> r = Err SE_OutcomeUnknown -> is_outcome_unknown e) ->
  honest t (t' ++ [O_Ended q r]) e.
Proof.
  intros (_ & _ & Hu)%(under_way_ended _ _ _ r) He Hm [Hx|Hx]%Hu; [by left|right; by apply He].
Qed.

Lemma under_way_delivered t q t' reply :
  under_way t q t' -> delivered m (t' ++ [O_Ended q (Ok (Some reply))]) reply.
Proof.
  intros [Ho Hf _]. apply delivered_snoc. eapply orderly_admitted; [done|]. rewrite Hf. by apply list_elem_of_singleton.
Qed.

Lemma wait_always t q routed :
  under_way t q t ->
  always see_submit (wait_for_submission q routed mutation) t (fun t' r =>
    orderly pg object m t' /\
    match r with
    | Ok (Ok (SR_Reply reply)) => delivered m t' reply
    | Ok (Ok (SR_Resend unsure)) => in_flight t' = [] /\ (uncertain t' -> uncertain t \/ unsure = true)
    | Ok (Err e) => honest t t' e
    | Err _ => True
    end).
Proof.
  intros Hw%under_way_wait. unfold wait_for_submission. intros [|]; cbn.
  2:{ split; [apply Hw|]. intros _ Hu. left. by apply (uw_certain _ _ _ Hw). }
  intros settled. pose proof (under_way_wait _ _ _ Hw) as Hw2.
  destruct settled as [[[reply|]|e]|cause|signal|signal [|]]; cbn.
  - split; [by eapply under_way_ended|by eapply under_way_delivered].
  - split; [by eapply under_way_ended|by eapply under_way_error].
  - split; [by eapply under_way_ended|eapply under_way_error; [done|]]. intros Hm [= ->].
    by apply map_request_error_unknown.
  - intros r. split; [by eapply under_way_ended|]. pose proof (classify_cancel_spec r cause mutation) as Hc.
    destruct (classify_cancel r cause mutation); cbn; [subst; by eapply under_way_delivered|by eapply under_way_error].
  - intros [[reply|]|e]; cbn.
    + split; [by eapply under_way_ended|by eapply under_way_delivered].
    + split; [by eapply under_way_ended|by eapply under_way_error].
    + destruct e; (split; [by eapply under_way_ended|eapply under_way_error; [done|]]); try done.
      intros -> _. by apply map_request_error_unknown.
  - intros [[reply|]|e]; cbn.
    + split; [by eapply under_way_ended|by eapply under_way_delivered].
    + split; [by eapply under_way_ended|by eapply under_way_error].
    + pose proof (under_way_ended _ _ _ (Err e) Hw2) as (Ho & Hf & Hu).
      destruct e; (split; [done|]); try (by eapply under_way_error); (split; [done|]); intros Hx%Hu;
        [left; by destruct Hx|by right].
  - split; [apply Hw2|]. intros _ Hu. left. by apply (uw_certain _ _ _ Hw2).
Qed.
(** What the loop comes to. *)
Definition loop_post (t : list SubmitObs) (r : result Halted (result OsdError Message * option UnknownCause)) : Prop :=
  orderly pg object m t /\
  match r with
  | Ok (Ok reply, _) => delivered m t reply
  | Ok (Err e, prior) =>
      mutation = true -> uncertain t -> is_Some prior \/ is_outcome_unknown e \/ stale t e
  | Err _ => True
  end.

Lemma at_rest_wait t o :
  at_rest pg object m t -> (o = O_Wait \/ exists s, o = O_Locked s) -> at_rest pg object m (t ++ [o]).
Proof. intros [Ho Hf] [->|[s ->]]; constructor; first [by quiet|by traced]. Qed.

Lemma admitted_always t q routed id :
  under_way t q t ->
  always see_submit (admitted_submission pg object routed mutation id q) t (fun t' r =>
    orderly pg object m t' /\
    match r with
    | Ok (Ok (inl reply)) => delivered m t' reply
    | Ok (Ok (inr unsure)) => in_flight t' = [] /\ (uncertain t' -> uncertain t \/ unsure = true)
    | Ok (Err e) => honest t t' e \/ stale t' e
    | Err _ => True
    end).
Proof.
  intros Hw. unfold admitted_submission. apply always_call. intros []. apply always_bind. eapply always_mono; [|apply wait_always].
  2:{ destruct (under_way_wait _ _ _ Hw) as [H1 H2 H3]. by constructor. }
  assert (uncertain (t ++ [O_Wait]) -> uncertain t) as Ht by (traced; tauto).
  intros t' [[[reply|unsure]|e]|h] [Ho Hr]; try done; intros []; cbn.
  - split; [by quiet|]. destruct Hr as (x & H1 & H2). exists x. split; apply elem_of_app; by left.
  - split; [by quiet|]. traced. split; [apply Hr|]. intros [Hx|[]]. apply Hr in Hx. tauto.
  - intros s. split; [by quiet|]. case_bool_decide as Hs.
    + right. split; [done|]. exists s. by traced.
    + left. intros Hm. traced. intros [[Hx|[]]|[]]. destruct (Hr Hm Hx); tauto.
Qed.

Lemma submit_loop_always routed : forall fuel t prior,
  at_rest pg object m t -> (mutation = true -> uncertain t -> is_Some prior) ->
  always see_submit (submit_loop fuel pg object m mutation routed prior) t loop_post.
Proof.
  induction fuel as [|fuel IH]; intros t prior Hr Hp; cbn [submit_loop]; [split; [apply Hr|done]|].
  assert (forall t', (uncertain t' -> uncertain t) -> forall e, orderly pg object m t' ->
          loop_post t' (Ok (Err e, prior))) as Hend.
  { intros t' Hu e Ho. split; [done|]. intros Hm Hx%Hu. left. by apply Hp. }
  assert (forall t', (uncertain t' -> uncertain t) -> at_rest pg object m t' ->
          always see_submit (submit_loop fuel pg object m mutation routed prior) t' loop_post) as Hagain.
  { intros t' Hu Ht'. apply IH; [done|]. intros Hm Hx%Hu. by apply Hp. }
  cbv zeta. step s. assert (at_rest pg object m (t ++ [O_Locked s])) as Hr1 by (apply at_rest_wait; [done|by right; eexists]).
  destruct (ss_failure s) as [f|]; [apply Hend; [traced; tauto|apply Hr1]|].
  step slot. apply (at_rest_wait _ O_Wait) in Hr1; [|by left].
  destruct (waited slot) as [[]|e].
  2:{ step s2. apply Hend; [traced; tauto|]. apply orderly_plain; [apply Hr1|done]. }
  step s2. apply (at_rest_wait _ (O_Locked s2)) in Hr1; [|by right; eexists].
  destruct (ss_failure s2) as [f|] eqn:Ef; [apply Hend; [traced; tauto|apply Hr1]|].
  destruct (blocked s2 pg object) eqn:Eb.
  { step w. apply (at_rest_wait _ O_Wait) in Hr1; [|by left].
    destruct (waited w); [apply Hagain; [traced; tauto|done]|apply Hend; [traced; tauto|apply Hr1]]. }
  destruct (number_submission s2) as [numbered|]; [|apply Hend; [traced; tauto|apply Hr1]].
  step u. apply (at_rest_wait _ O_Wait) in Hr1; [|by left].
  set (t1 := (((t ++ _) ++ _) ++ _) ++ _).
  assert (uncertain t1 -> uncertain t) as Hu1 by (unfold t1; traced; tauto).
  assert (last_locked t1 = Some s2) as Hl1 by (unfold t1; by traced).
  assert (at_rest pg object m t1) as Hr2 by done. clearbody t1. clear Hr1.
  apply always_bind. eapply always_mono; [|apply (admit_always t1 s2); [apply Hr2..|done|by apply blocked_false]].
  intros t2 [[[q|reply]|e]|h] [Ho H2]; [| | |by split].
  - destruct H2 as [Hf2 Hu2]. apply always_bind.
    eapply always_mono; [|apply (admitted_always t2); by constructor].
    intros t3 [[[reply|unsure]|e]|h] [Ho3 H3]; [by split| | |by split].
    + apply IH; [constructor; [done|apply H3]|]. intros Hm Hx. rewrite Hm. cbn.
      destruct unsure; cbn; [by eexists|]. apply Hp; [done|]. apply Hu1, Hu2. by destruct (proj2 H3 Hx).
    + split; [done|]. intros Hm Hx. destruct H3 as [H3|H3]; [|tauto].
      destruct (H3 Hm Hx) as [Hy|Hy]; [|tauto]. left. auto.
  - by split.
  - assert (mutation = true -> uncertain t2 -> is_Some prior \/ is_outcome_unknown e) as Hh.
    { intros Hm Hx. destruct (proj2 H2 Hm Hx) as [Hy|Hy]; [left; auto|by right]. }
    assert (loop_post t2 (Ok (Err e, prior))) as Hpost by (split; [done|]; intros Hm Hx; destruct (Hh Hm Hx); tauto).
    destruct e; try exact Hpost. apply IH; [by constructor; [|apply H2]|].
    intros Hm Hx. by destruct (Hh Hm Hx) as [?|[? [=]]].
Qed.
(** ** Submissions make progress *)

Abbreviation hurdles := (setbacks pg object).
Ltac hurdle := rewrite ?setbacks_snoc in *; repeat case_decide; cbn in *; first [lia|tauto].

Lemma admit_progress t :
  always see_submit (admit_with_cancellation m mutation) t (fun t' r =>
    match r with
    | Ok (Ok (AO_Reply _)) => True
    | Ok (Ok (AO_Request _)) => (hurdles t <= hurdles t')%nat
    | Ok (Err OX_QueueSaturated) => (hurdles t < hurdles t')%nat
    | Ok (Err _) => True
    | Err _ => False
    end).
Proof.
  unfold admit_with_cancellation. step options. unfold check_options. destruct options as [[|] [|]]; try done.
  step deadline. destruct deadline; [|done]. step race. cbn [negb].
  destruct race as [[q|e]|cause [q|e]].
  - cbn. hurdle.
  - cbn. destruct (map_session_error e); try done. hurdle.
  - step r. destruct r as [[reply|]|e]; cbn; try done.
    assert (hurdles t < hurdles ((((t ++ [O_Wait]) ++ [O_Wait]) ++ [O_Admitted m (Ok q)]) ++ [O_Ended q (Err e)]))%nat
      by hurdle.
    by repeat case_match.
  - assert (hurdles t < hurdles (((t ++ [O_Wait]) ++ [O_Wait]) ++ [O_Admitted m (Err e)]))%nat
      by hurdle.
    destruct e; cbn; by repeat case_match.
Qed.

Lemma wait_progress t q routed :
  always see_submit (wait_for_submission q routed mutation) t (fun t' r =>
    match r with
    | Ok (Ok (SR_Resend _)) => (hurdles t < hurdles t')%nat
    | Ok _ => True
    | Err _ => False
    end).
Proof.
  unfold wait_for_submission. step deadline. destruct deadline; [|done]. step settled.
  destruct settled as [[[reply|]|e]|cause|signal|signal [|]]; try done; step r.
  - by destruct (classify_cancel r cause mutation).
  - destruct r as [[|]|[]]; done.
  - destruct r as [[|]|e]; [done..|]. destruct e; cbn; try done; hurdle.
Qed.

Lemma submit_loop_progress routed : forall fuel t prior,
  always see_submit (submit_loop fuel pg object m mutation routed prior) t (fun t' r =>
    match r with
    | Ok _ => True
    | Err h => h = StillRunning /\ (hurdles t + fuel <= hurdles t')%nat
    end).
Proof.
  induction fuel as [|fuel IH]; intros t prior; cbn [submit_loop]; [split; [done|lia]|].
  assert (forall t' prior, (hurdles t < hurdles t')%nat ->
          always see_submit (submit_loop fuel pg object m mutation routed prior) t' (fun t' r =>
            match r with Ok _ => True | Err h => h = StillRunning /\ (hurdles t + S fuel <= hurdles t')%nat end))
    as Hagain.
  { intros t' p Hlt. eapply always_mono; [|apply IH]. intros t2 [|h]; [done|]. intros [? ?]. split; [done|lia]. }
  cbv zeta. step s. destruct (ss_failure s); [done|]. step slot.
  destruct (waited slot) as [[]|e]; [|by step s2]. step s2. destruct (ss_failure s2); [done|].
  destruct (blocked s2 pg object) eqn:Eb.
  { step w. destruct (waited w); [|done]. apply Hagain. hurdle. }
  destruct (number_submission s2) as [numbered|]; [|done]. step u.
  set (t1 := (((t ++ _) ++ _) ++ _) ++ _).
  assert (hurdles t <= hurdles t1)%nat as H1 by (unfold t1; hurdle). clearbody t1.
  apply always_bind. eapply always_mono; [|apply admit_progress].
  intros t2 [[[q|reply]|e]|h] H2; [| |destruct e; try done; apply Hagain; lia|done]; [|done].
  apply always_bind. unfold admitted_submission. step v. apply always_bind.
  eapply always_mono; [|apply wait_progress].
  intros t3 [[[reply|unsure]|e]|h] H3; try done; step w; cbn; try done.
  apply Hagain. hurdle.
Qed.
End Submit.

Lemma submit_always fuel pg object m mutation routed :
  always see_submit (submit_routed fuel pg object m mutation routed) [] (fun t r => orderly pg object m t /\
    match r with
    | Ok (Ok reply) => delivered m t reply
    | Ok (Err e) => mutation = true -> uncertain t -> is_outcome_unknown e \/ stale t e
    | Err _ => True
    end).
Proof.
  apply always_bind. eapply always_mono; [|apply submit_loop_always].
  - intros t [[[reply|e] prior]|h] [Ho H]; split; try done. cbn. intros Hm Hu.
    destruct (H Hm Hu) as [[cause ->]|[[cause ->]|Hs]]; cbn; [left; by eexists| |].
    + left. destruct prior; by eexists.
    + destruct prior; [left; by eexists|by right].
  - constructor; [apply orderly_nil|done].
  - intros _ [q Hq%elem_of_nil]. done.
Qed.

(** C11. Whatever the message session, the clock, the monitor's maps and the
    receiver do, a submission to an OSD admits its message only while the
    session has not failed, no backoff covers the object and no earlier copy is
    under way; a reply it returns was delivered for one of the requests it
    admitted; a mutation of which some copy ended with an unknown outcome fails
    with that, unless the session has failed over a stale map; and it still
    runs after [fuel] rounds only when every round met a backoff, a refused
    admission or a request that ended without a reply. *)
Theorem submit_sound answer fuel pg object m mutation routed :
  let (t, r) := run see_submit answer (submit_routed fuel pg object m mutation routed) [] in
  orderly pg object m t
  /\ match r with
     | Ok (Ok reply) => delivered m t reply
     | Ok (Err e) => mutation = true -> uncertain t -> is_outcome_unknown e \/ stale t e
     | Err h => h = StillRunning /\ (fuel <= setbacks pg object t)%nat
     end.
Proof.
  set (p := submit_routed _ _ _ _ _ _).
  pose proof (submit_always fuel pg object m mutation routed : always see_submit p [] _) as H1.
  assert (always see_submit p [] (fun t r =>
    match r with Ok _ => True | Err h => h = StillRunning /\ (fuel <= setbacks pg object t)%nat end)) as H2.
  { apply always_bind. eapply always_mono; [|apply (submit_loop_progress pg object)].
    by intros t [[[reply|e] prior]|h]. }
  apply (always_run _ answer) in H1, H2. destruct (run see_submit answer p []) as [t r]. cbn in *.
  destruct H1 as [Ho H1]. split; [done|]. by destruct r as [[]|].
Qed.

(** What a command guarantees so far: it admitted its message only. *)
Definition only_admits (m : Message) (t : list SubmitObs) : Prop := forall m' q, O_Admitted m' q ∈ t -> m' = m.

Lemma only_admits_snoc m t o : only_admits m t -> (forall m' q, o = O_Admitted m' q -> m' = m) -> only_admits m (t ++ [o]).
Proof. intros Ht Ho m' q [H|H%list_elem_of_singleton]%elem_of_app; [by eapply Ht|by eapply Ho]. Qed.

(** An unknown outcome of a command is reported as a lost connection. *)
Definition direct_post (m : Message) (t : list SubmitObs) (answer : result OsdError Message) : Prop :=
  only_admits m t
  /\ match answer with
     | Ok reply => delivered m t reply
     | Err e => uncertain t -> e = OX_NotConnected \/ e = OX_StaleMap
     end.

Ltac admits := repeat (apply only_admits_snoc; [|by intros; simplify_eq]).

Lemma direct_error m t e : only_admits m t -> ~ uncertain t -> direct_post m t (Err e).
Proof. intros Ho Hu. split; [done|]. intros H. by destruct Hu. Qed.

Lemma direct_cancelled m t q r cause :
  only_admits m t -> ~ uncertain t -> O_Admitted m (Ok q) ∈ t ->
  direct_post m (t ++ [O_Ended q r]) (classify_cancel r cause false).
Proof.
  intros Ho Hu Hq. split; [by admits|]. destruct r as [[reply|]|e]; cbn.
  - by apply delivered_snoc.
  - traced. by intros [H|H].
  - destruct e; cbn; traced; intros [H|H]; first [by destruct Hu|by left|congruence].
Qed.

Lemma direct_request_post m t q :
  only_admits m t -> ~ uncertain t -> O_Admitted m (Ok q) ∈ t ->
  always see_submit (wait_for_request q false) t (fun t' r =>
    match r with Ok answer => direct_post m t' answer | Err _ => True end).
Proof.
  intros Ho Hu Hq. unfold wait_for_request. step deadline. set (t1 := t ++ _).
  assert (only_admits m t1) as Ho1 by (unfold t1; by admits).
  assert (~ uncertain t1) as Hu1 by (unfold t1; traced; by intros [H|H]).
  assert (O_Admitted m (Ok q) ∈ t1) as Hq1 by (unfold t1; apply elem_of_app; by left). clearbody t1.
  destruct deadline; [|by apply direct_error]. cbn [negb]. step settled.
  destruct settled as [[[reply|]|e]|cause|signal|signal ?]; [| | |step r|exact (no_signal signal)|exact (no_signal signal)].
  - split; [by admits|]. by apply delivered_snoc.
  - apply direct_error; [by admits|]. traced. by intros [H|H].
  - split; [by admits|]. traced. intros [H|[= ->]]; [by destruct Hu1|by left].
  - apply direct_cancelled; [by admits| |apply elem_of_app; by left]. traced. by intros [H|H].
Qed.

(** A command admits its message only, and returns the reply that was delivered
    for it. *)
Lemma direct_always m :
  always see_submit (submit_direct m) [] (fun t r =>
    match r with Ok answer => direct_post m t answer | Err _ => True end).
Proof.
  assert (only_admits m []) as Ho0 by (by intros m' q Hq%elem_of_nil).
  assert (~ uncertain []) as Hu0 by (by intros [q Hq%elem_of_nil]).
  assert (forall t e, only_admits m t -> ~ uncertain t -> direct_post m t (Err e)) as Herr by (intros; by apply direct_error).
  unfold submit_direct. step s. destruct (ss_failure s); [apply Herr; [by admits|traced; tauto]|].
  step slot. destruct (waited slot); [|step s2; apply Herr; [by admits|traced; tauto]].
  step s2. destruct (ss_failure s2); [apply Herr; [by admits|traced; tauto]|].
  unfold await, admit_with_cancellation. step options.
  destruct (check_options options); cbn [question]; [|apply Herr; [by admits|traced; tauto]].
  step deadline. destruct deadline; cbn [negb]; [|apply Herr; [by admits|traced; tauto]].
  step race. set (t := _ ++ [O_Admitted m _]).
  assert (only_admits m t) as Ho by (unfold t; by admits).
  assert (~ uncertain t) as Hu by (unfold t; traced; tauto).
  assert (forall q, admission_result race = Ok q -> O_Admitted m (Ok q) ∈ t) as Hq.
  { intros q <-. unfold t. apply elem_of_app. right. by apply list_elem_of_singleton. }
  clearbody t. destruct race as [[q|e]|cause [q|e]]; cbn in Hq; [|by apply Herr| |by destruct e; apply Herr].
  - change (always see_submit (wait_for_request q false ≫= stale_or) t (fun t r =>
      match r with Ok answer => direct_post m t answer | Err _ => True end)). apply always_bind. eapply always_mono; [|apply (direct_request_post m t q); auto].
    intros t' [[reply|e]|h] H2; [done| |done]. destruct H2 as [Ho' H']. step s3. split; [by admits|].
    traced. intros [H|[]]. case_bool_decide; [by right|by apply H'].
  - step r. pose proof (direct_cancelled m t q r cause Ho Hu (Hq q eq_refl)) as H. by destruct (classify_cancel r cause false).
Qed.

(** ** Witnesses *)

Definition session_limits : OsdLimits := mkOsdLimits 4096 16.

Definition unblock_backoff : Backoff :=
  mkBackoff (bo_pg test_backoff) (bo_shard test_backoff) (bo_map_epoch test_backoff) BACKOFF_UNBLOCK
    (bo_id test_backoff) (bo_begin test_backoff) (bo_end test_backoff).

Definition unblock_message : Message :=
  match Backoff_encode unblock_backoff BACKOFF_UNBLOCK session_limits with
  | Ok m => m
  | Err _ => mkMessage (mkMessageHeader 0 0 0 0 0 0 0 0 0 0 0) (mkMessageLengths 0 0 0) [] [] []
  end.

Definition registered_run : SessionRun :=
  with_state (register (mkOSDSessionState ∅ 1 ∅ None) (bo_pg test_backoff) 1 (test_object [x62])) (SessionRun_new 0).

Definition unblocked_run : SessionRun :=
  match receive_message session_limits true 0 unblock_message 0 registered_run with
  | Ok r => r
  | Err _ => registered_run
  end.

Lemma unblocked_reached : session_reached session_limits unblocked_run.
Proof.
  eapply (reached_step _ registered_run).
  - eapply reached_step; [apply (reached_new _ 0)|].
    by apply (step_register _ _ (mkOSDSessionState ∅ 1 ∅ None)).
  - apply (step_message _ _ true 0 unblock_message 0); [done|]. vm_compute. reflexivity.
Qed.

Lemma osd_session_sound_witness :
  sr_signals unblocked_run = [(bo_pg test_backoff, 1)] /\ NoDup (sr_signals unblocked_run)
  /\ zlen (held_acks unblocked_run) <= MAX_CONTROL_MESSAGES.
Proof.
  pose proof (osd_session_sound session_limits unblocked_run unblocked_reached) as (_ & _ & _ & H1 & _ & _ & H2 & _).
  split; [vm_compute; reflexivity|]. by split.
Defined.

Lemma unblock_wakes_witness :
  sub_at (sr_state unblocked_run) (bo_pg test_backoff) 1 = Some (mkSubmission (test_object [x62]) false).
Proof.
  destruct (unblock_wakes session_limits true 0 unblock_message unblock_backoff registered_run unblocked_run)
    as (H & _ & _); [reflexivity|vm_compute; reflexivity|reflexivity|vm_compute; reflexivity|].
  rewrite H. vm_compute. reflexivity.
Defined.

(** A mutation is admitted; its connection breaks; and by the time the outcome
    is looked at the session has failed over a stale map. *)
Definition stale_environment (X : Type) (e : SubmitE X) (t : list SubmitObs) : X :=
  match e in SubmitE X return X with
  | E_Lock =>
      if existsb (fun o => match o with O_Admitted _ _ => true | _ => false end) t
      then mkOSDSessionState ∅ 1 ∅ (Some OX_StaleMap)
      else OSDSessionState_default
  | E_Options => mkOptionsView false false
  | E_Deadline => true
  | E_Capacity _ _ => W_Ready (Ok tt)
  | E_Changed _ => W_Ready (Ok tt)
  | E_Number _ => tt
  | E_Admit _ => A_Done (Ok 1)
  | E_Cancel _ => Err SE_OutcomeUnknown
  | E_Register _ _ _ => tt
  | E_Unregister _ _ => tt
  | E_Settle _ _ _ => S_Result (Err SE_OutcomeUnknown)
  end.

(** A request is admitted, and its connection breaks. *)
Definition lost_environment (X : Type) (e : SubmitE X) (t : list SubmitObs) : X :=
  match e in SubmitE X return X with
  | E_Lock => OSDSessionState_default
  | e => stale_environment _ e t
  end.

(** What is not submitted as a mutation loses its unknown outcome: a class call
    of a read is reported as not connected. *)
Lemma read_hides_outcome pg object m :
  let (t, r) := run see_submit lost_environment (submit_routed 1 pg object m false true) [] in
  uncertain t /\ r = Ok (Err OX_NotConnected).
Proof.
  cbn. split; [|done]. exists 1. apply list_elem_of_In. cbn. tauto.
Qed.

(** The exception of [submit_sound] is real: the unknown outcome of a sent
    mutation is replaced by the stale map, after which the client resends. *)
Lemma stale_map_hides_outcome pg object m :
  let (t, r) := run see_submit stale_environment (submit_routed 1 pg object m true true) [] in
  uncertain t /\ r = Ok (Err OX_StaleMap).
Proof.
  cbn. split; [|done]. exists 1. apply list_elem_of_In. cbn. tauto.
Qed.
