(* ===== verification/OsdExecute.v ===== *)
(** * Executing operations on objects

    Models the requests of [src/src/osd/client.rs] from the choice of an OSD to
    the accepted reply: [execute_routed], [execute_pg_routed] and
    [submit_command] with the waits for a usable route and for a change of
    primary, as programs whose environment is the monitor client's map, the
    sessions, the clock and the caller's options. *)

From S2P Require Import Prelude Codec Message Frame Address Control SessionState CrushHash CrushLn CrushMap CrushPlace MapBase Pool OsdMap MapPlacement Backoff OsdMessages OsdMetadata OsdCommand OsdClient Interaction OsdSession.
From Stdlib Require Import ZArith Lia Strings.Byte Strings.String.
From stdpp Require Import base option gmap sorting numbers list.

Open Scope Z_scope.

(** How a wait for a newer map ends. *)
Inductive Refreshed : Type := RF_Done | RF_Failed | RF_Timeout | RF_Cancelled.

(** What the functions ask of their environment.  [C_Clock] is whether
    [Instant::now().checked_add(..)] is defined, [C_Refresh] the race of
    [refresh_map], [C_Round] a round of [admit_mutation] under its lock, and [C_Submit] and [C_SubmitDirect] are [submit_routed] and
    [submit_direct] of a session. *)
Inductive ClientE : Type -> Type :=
| C_Closed : ClientE bool
| C_Options : ClientE OptionsView
| C_Clock : ClientE bool
| C_Terminal : ClientE bool
| C_Snapshot : ClientE (option OSDMap)
| C_Refresh (epoch : Z) : ClientE Refreshed
| C_Session (osd : Z) (endpoint : SocketAddr) : ClientE (result OsdError Z)
| C_Invalidate (osd session : Z) : ClientE unit
| C_GlobalId : ClientE Z
| C_Incarnation : ClientE (result OsdError Z)
| C_Transaction : ClientE (result OsdError Z)
| C_Submit (session : Z) (pg : PG) (object : HObject) (m : Message) (mutation routed : bool)
    : ClientE (result OsdError Message)
| C_SubmitDirect (session : Z) (m : Message) : ClientE (result OsdError Message)
| C_Round (retained : Z) : ClientE (result OsdError (option (Z * Z)))
| C_Changed : ClientE (Waited false)
| C_Complete (sequence : Z) (error : option OsdError) : ClientE unit.

(** One submission, with its answer. *)
Record Submitted : Type := mkSubmitted {
  sb_session : Z;
  sb_pg : PG;
  sb_object : HObject;
  sb_message : Message;
  sb_mutation : bool;
  sb_answer : result OsdError Message
}.

(** What a trace records of them. *)
Inductive ClientObs : Type :=
| V_Submit (s : Submitted)
| V_Direct (session : Z) (m : Message) (answer : result OsdError Message)
| V_Snapshot (map : option OSDMap)
| V_Session (osd : Z) (endpoint : SocketAddr) (answer : result OsdError Z)
| V_Round (answer : result OsdError (option (Z * Z)))
| V_Complete (sequence : Z) (error : option OsdError)
| V_Other.

Definition see_client (X : Type) (e : ClientE X) : X -> ClientObs :=
  match e in ClientE X return X -> ClientObs with
  | C_Submit session pg object m mutation _ => fun r => V_Submit (mkSubmitted session pg object m mutation r)
  | C_SubmitDirect session m => fun r => V_Direct session m r
  | C_Snapshot => fun r => V_Snapshot r
  | C_Session osd endpoint => fun r => V_Session osd endpoint r
  | C_Round _ => fun r => V_Round r
  | C_Complete sequence error => fun _ => V_Complete sequence error
  | C_Closed => fun _ => V_Other
  | C_Options => fun _ => V_Other
  | C_Clock => fun _ => V_Other
  | C_Terminal => fun _ => V_Other
  | C_Refresh _ => fun _ => V_Other
  | C_Invalidate _ _ => fun _ => V_Other
  | C_GlobalId => fun _ => V_Other
  | C_Incarnation => fun _ => V_Other
  | C_Transaction => fun _ => V_Other
  | C_Changed => fun _ => V_Other
  end.

Abbreviation CP := (Prog ClientE).
Abbreviation CR A := (Prog ClientE (result OsdError A)).

(** ** Maps and routes *)

Definition checked_options : CR unit := v ← call C_Options; Ret (check_options v).

(** [Instant::now().checked_add(..).ok_or(Error::LimitExceeded)]. *)
Definition checked_clock : CR unit :=
  ok ← call C_Clock; Ret (if (ok : bool) then Ok tt else Err OX_LimitExceeded).

(** [refresh_map], whose callers always set a deadline. *)
Definition refresh_map (epoch : Z) : CR unit :=
  await checked_options (fun _ =>
  r ← call (C_Refresh epoch);
  Ret (match r with
       | RF_Done => Ok tt
       | RF_Failed => Err OX_NotConnected
       | RF_Timeout => Err OX_Timeout
       | RF_Cancelled => Err OX_Cancelled
       end)).

Definition best_effort_refresh_map (epoch : Z) : CR unit :=
  await checked_options (fun _ =>
  await checked_clock (fun _ =>
  r ← refresh_map epoch;
  match r with
  | Err OX_Cancelled => Ret (Err OX_Cancelled)
  | _ => checked_options
  end)).

(** [addresses.0.iter().find_map(..)]; a panic of [endpoint] is the program's. *)
Definition usable_endpoint (addresses : list EntityAddr) : CP (option SocketAddr) :=
  match first_endpoint addresses with
  | Err IndexOutOfBounds => Stop Panicked
  | Ok found => Ret (snd <$> found)
  end.

(** [map.place_object(..).map_err(|_| Error::NoPrimary)]. *)
Definition placed (r : result PlaceFault ObjectPlacement) : CR ObjectPlacement :=
  match r with
  | Ok p => Ret (Ok p)
  | Err (PF_Error _) => Ret (Err OX_NoPrimary)
  | Err PF_Panic => Stop Panicked
  | Err PF_Diverges => Stop StillRunning
  end.

(** Whether the acting primary can be reached at all. *)
Definition reachable_primary (m : OSDMap) (p : ObjectPlacement) : CP bool :=
  if acting_primary p <? 0 then Ret false
  else
    match osd_client_addresses m (acting_primary p) with
    | None => Ret false
    | Some addresses => e ← usable_endpoint addresses; Ret (bool_decide (is_Some e))
    end.

Fixpoint wait_for_resolved_route (fuel : nat) (resolve : OSDMap -> result PlaceFault ObjectPlacement)
    : CR (OSDMap * ObjectPlacement) :=
  match fuel with
  | O => Stop StillRunning
  | S fuel =>
      await checked_options (fun _ =>
      terminal ← call C_Terminal;
      if (terminal : bool) then Ret (Err OX_NotConnected)
      else
        snapshot ← call C_Snapshot;
        match snapshot with
        | None => Ret (Err OX_NotConnected)
        | Some m =>
            await (placed (resolve m)) (fun p =>
            usable ← reachable_primary m p;
            if (usable : bool) then Ret (Ok (m, p))
            else await (best_effort_refresh_map (om_epoch m)) (fun _ => wait_for_resolved_route fuel resolve))
        end)
  end.

Section Execute.
  Context {base64 : Base64Engine}.

(** Where a target is, by its name or by the hash its operations carry. *)
Definition resolve_target (t : Target) (hash : option Z) (m : OSDMap) : result PlaceFault ObjectPlacement :=
  match hash with
  | None => place_object m (tg_pool_id t) (tg_object t) (tg_locator t) (tg_namespace t)
  | Some hash => place_raw_hash m (tg_pool_id t) hash
  end.

Definition wait_for_usable_route (fuel : nat) (t : Target) (hash : option Z) : CR (OSDMap * ObjectPlacement) :=
  wait_for_resolved_route fuel (resolve_target t hash).

(** What a submission depends on of its route, [RouteContext::changed]. *)
Definition route_signature (t : Target) (hash : option Z) (m : OSDMap)
    : option (PG * Z * Z * bool * list EntityAddr) :=
  match resolve_target t hash m with
  | Err _ => None
  | Ok p =>
      addresses ← osd_client_addresses m (acting_primary p);
      Some (pl_pg p, acting_primary p, primary_shard p, sharded p, addresses)
  end.

(** [==] on two lists of addresses. *)
Fixpoint addresses_eq (l l' : list EntityAddr) : bool :=
  match l, l' with
  | [], [] => true
  | a :: l, a' :: l' => EntityAddr_eq a a' && addresses_eq l l'
  | _, _ => false
  end.

(** Whether [wait_for_route_change] returns on the state of the monitor client. *)
Definition route_changes (t : Target) (hash : option Z) (expected : PG * Z * Z * bool * list EntityAddr)
    (map : option OSDMap) (terminal : bool) : bool :=
  match map ≫= route_signature t hash with
  | None => true
  | Some (route, addresses) =>
      negb (bool_decide (route = expected.1) && addresses_eq addresses expected.2)
  end || terminal.

(** The loop of [wait_for_primary_change] and [wait_for_pg_primary_change]. *)
Fixpoint primary_changes (attempts : nat) (resolve : OSDMap -> result PlaceFault ObjectPlacement)
    (previous_primary epoch : Z) : CP bool :=
  match attempts with
  | O => Ret false
  | S attempts =>
      options ← checked_options;
      match options with
      | Err _ => Ret false
      | Ok _ =>
          snapshot ← call C_Snapshot;
          match snapshot with
          | None => Ret false
          | Some m =>
              p ← placed (resolve m);
              match p with
              | Ok p =>
                  if negb (acting_primary p =? previous_primary) then Ret (0 <=? acting_primary p)
                  else
                    _ ← refresh_map (Z.max epoch (om_epoch m));
                    primary_changes attempts resolve previous_primary (Z.max epoch (om_epoch m))
              | Err _ =>
                  _ ← refresh_map (Z.max epoch (om_epoch m));
                  primary_changes attempts resolve previous_primary (Z.max epoch (om_epoch m))
              end
          end
      end
  end.

Definition wait_for_primary_change (t : Target) (previous_primary epoch : Z) : CP bool :=
  primary_changes MAX_ATTEMPTS (resolve_target t None) previous_primary epoch.

Definition wait_for_pg_primary_change (pg : PG) (previous_primary epoch : Z) : CP bool :=
  if 2 ^ 63 <=? pg_pool pg then Ret false
  else
    primary_changes MAX_ATTEMPTS (fun m => place_raw_hash m (pg_pool pg) (pg_seed pg)) previous_primary epoch.

(** [self.session(osd, addresses)]. *)
Definition session (osd : Z) (addresses : list EntityAddr) : CR Z :=
  closed ← call C_Closed;
  if (closed : bool) then Ret (Err OX_Closed)
  else
    found ← usable_endpoint addresses;
    match found with
    | None => Ret (Err OX_NoPrimary)
    | Some endpoint => call (C_Session osd endpoint)
    end.

(** [encode_request(..).map_err(map_message_error)?]. *)
Definition encoded_request (r : Request) (limits : OsdLimits) : CR Message :=
  match encode_request r limits with
  | Ok m => Ret (Ok m)
  | Err (Returned e) => Ret (Err (map_message_error e))
  | Err Unreachable => Stop Panicked
  end.

(** ** Routed execution *)

(** What one attempt leaves to the next. *)
Record AttemptState : Type := mkAttemptState {
  at_target : Target;
  at_transaction : Z;
  at_flags : Z;
  at_prior : option UnknownCause
}.

(** What one attempt comes to: a result, or another attempt. *)
Inductive Verdict : Type :=
| Finished (r : result OsdError CompoundResult)
| Again (a : AttemptState).

Definition fail (e : OsdError) : CP Verdict := Ret (Finished (Err e)).

(** [?] in the body of the loop. *)
Definition or_fail {A} (r : result OsdError A) (k : A -> CP Verdict) : CP Verdict :=
  match r with
  | Ok a => k a
  | Err e => fail e
  end.

(** [.map_err(|error| preserve_unknown(error, prior_unknown))?]. *)
Definition or_unknown {A} (prior : option UnknownCause) (r : result OsdError A) (k : A -> CP Verdict) : CP Verdict :=
  or_fail (map_err (fun e => preserve_unknown e prior) r) k.

Definition with_prior (a : AttemptState) (prior : option UnknownCause) : AttemptState :=
  mkAttemptState (at_target a) (at_transaction a) (at_flags a) prior.

(** The error for a reply that cannot be trusted. *)
Definition untrusted (mutation : bool) : OsdError :=
  if mutation then OX_OutcomeUnknown UC_Transport else OX_MalformedReply.

(** [operation_reply.code < 0 && operation.flags() & OP_FLAG_FAIL_OK == 0]. *)
Fixpoint first_failure (ops : list Operation) (results : list OperationResult) : option Z :=
  match ops, results with
  | op :: ops, r :: results =>
      if (or_code r <? 0) && (Z.land (Operation_flags op) OP_FLAG_FAIL_OK =? 0) then Some (or_code r)
      else first_failure ops results
  | _, _ => None
  end.

(** The end of an accepted reply. *)
Definition conclude (ops : list Operation) (r : Reply) : CP Verdict :=
  if rp_result r <? 0 then fail (OX_WireErrno (rp_result r))
  else
    match first_failure ops (rp_operations r) with
    | Some code => fail (OX_WireErrno code)
    | None => Ret (Finished (Ok (mkCompoundResult (rp_operations r) (rp_version r))))
    end.

Definition EAGAIN : Z := -11.

(** A reply that validly answers the request and is no redirect. *)
Definition judge_reply (ops : list Operation) (mutation durable : bool) (osd session_id epoch : Z) (a : AttemptState)
    (r : Reply) : CP Verdict :=
  if rp_result r =? EAGAIN then
    refreshed ← best_effort_refresh_map epoch; or_fail refreshed (fun _ => Ret (Again a))
  else
    match validate_operations r ops with
    | Err _ => _ ← call (C_Invalidate osd session_id); fail (untrusted mutation)
    | Ok _ =>
        if existsb (fun o => or_code o =? EAGAIN) (rp_operations r) then
          refreshed ← best_effort_refresh_map epoch; or_fail refreshed (fun _ => Ret (Again a))
        else if durable && negb (is_ok (validate_durable_reply r)) then
          _ ← call (C_Invalidate osd session_id); fail (OX_OutcomeUnknown UC_Transport)
        else conclude ops r
    end.

(** The target of a redirect. *)
Definition redirected (t : Target) (r : Redirect) : Target :=
  mkTarget (rd_pool r) (if zlen (rd_object r) =? 0 then tg_object t else rd_object r) (rd_locator r)
    (rd_namespace r) (tg_snapshot t) (tg_snapshot_sequence t) (tg_write_snapshots t).

Definition REDIRECT_FLAGS : Z := Z.lor (Z.lor FLAG_REDIRECTED FLAG_IGNORE_CACHE) FLAG_IGNORE_OVERLAY.

Definition follow_redirect (mutation : bool) (a : AttemptState) (r : Redirect) : CP Verdict :=
  let target := redirected (at_target a) r in
  let flags := Z.lor (at_flags a) REDIRECT_FLAGS in
  if mutation then
    transaction ← call C_Transaction;
    or_fail transaction (fun id => Ret (Again (mkAttemptState target id flags (at_prior a))))
  else Ret (Again (mkAttemptState target (at_transaction a) flags (at_prior a))).

(** What a message that came back means. *)
Definition receive_reply (limits : OsdLimits) (ops : list Operation) (mutation durable : bool) (attempt : Z)
    (pg : PG) (osd session_id epoch : Z) (a : AttemptState) (m : Message) : CP Verdict :=
  match decode_reply m limits with
  | Err _ => _ ← call (C_Invalidate osd session_id); fail (untrusted mutation)
  | Ok r =>
      match validate_target r (tg_object (at_target a)) pg attempt with
      | Err _ => _ ← call (C_Invalidate osd session_id); fail (untrusted mutation)
      | Ok _ =>
          let a := with_prior a None in
          match rp_redirect r with
          | Some redirect => follow_redirect mutation a redirect
          | None => judge_reply ops mutation durable osd session_id epoch a r
          end
      end
  end.

(** What an attempt without a reply means; [change] waits for a change of the
    primary. *)
Definition failed_attempt (retry_unknown : bool) (change : CP bool) (osd session_id epoch : Z) (a : AttemptState)
    (e : OsdError) : CP Verdict :=
  _ ← call (C_Invalidate osd session_id);
  closed ← call C_Closed;
  if (closed : bool) then fail (preserve_unknown OX_Closed (at_prior a))
  else
    match e with
    | OX_OutcomeUnknown cause =>
        let prior := default cause (at_prior a) in
        if retry_unknown then
          changed ← change;
          if (changed : bool) then Ret (Again (with_prior a (Some prior))) else fail (OX_OutcomeUnknown prior)
        else fail (OX_OutcomeUnknown prior)
    | OX_Timeout | OX_Cancelled => fail (preserve_unknown e (at_prior a))
    | _ =>
        refreshed ← best_effort_refresh_map epoch;
        or_unknown (at_prior a) refreshed (fun _ => Ret (Again a))
    end.

Definition receive_error (retry_unknown : bool) (change : CP bool) (osd session_id epoch : Z) (a : AttemptState)
    (e : OsdError) : CP Verdict :=
  if bool_decide (e = OX_QueueSaturated) then fail (preserve_unknown OX_QueueSaturated (at_prior a))
  else failed_attempt retry_unknown change osd session_id epoch a e.

Definition retry_flags (attempt : Z) (flags : Z) : Z :=
  if 0 <? attempt then Z.lor flags FLAG_RETRY else flags.

(** From the route to the answer: the session, the request with the client's
    global id, the deadline of the attempt, and the submission. *)
Definition send_request (limits : OsdLimits) (osd : Z) (addresses : list EntityAddr) (pg : PG) (object : HObject)
    (mutation routed : bool) (request : Z -> Request) (k : Z -> result OsdError Message -> CP Verdict) : CP Verdict :=
  found ← session osd addresses;
  or_fail found (fun session_id =>
  global_id ← call C_GlobalId;
  message ← encoded_request (request global_id) limits;
  or_fail message (fun message =>
  deadline ← checked_clock;
  or_fail deadline (fun _ =>
  answer ← call (C_Submit session_id pg object message mutation routed);
  k session_id answer))).

(** One round of the loop of [execute_routed]. *)
Definition routed_attempt (fuel : nat) (limits : OsdLimits) (ops : list Operation) (hash : option Z)
    (mutation : bool) (incarnation : Z) (attempt : Z) (a : AttemptState) : CP Verdict :=
  let prior := at_prior a in
  closed ← call C_Closed;
  if (closed : bool) then fail (preserve_unknown OX_Closed prior)
  else
    options ← checked_options;
    or_unknown prior options (fun _ =>
    route ← wait_for_usable_route fuel (at_target a) hash;
    or_unknown prior route (fun '(m, p) =>
    match osd_client_addresses m (acting_primary p) with
    | None => fail (preserve_unknown OX_NoPrimary prior)
    | Some addresses =>
        let t := at_target a in
        let flags := retry_flags attempt (at_flags a) in
        let a := mkAttemptState t (at_transaction a) flags prior in
        send_request limits (acting_primary p) addresses (pl_pg p)
          (mkHObject (tg_locator t) (tg_object t) (tg_snapshot t) (default (raw_hash p) hash)
             false (tg_namespace t) (tg_pool_id t))
          mutation true
          (fun global_id =>
             mkRequest (om_epoch m) (pl_pg p) (primary_shard p) (sharded p) (raw_hash p) (tg_pool_id t)
               (tg_object t) (tg_locator t) (tg_namespace t) (tg_snapshot t) (tg_snapshot_sequence t)
               (tg_write_snapshots t) (at_transaction a) global_id incarnation attempt flags OSD_CLIENT ops)
          (fun session_id answer =>
             match answer with
             | Ok reply =>
                 receive_reply limits ops mutation (contains_durable_mutation ops) attempt (pl_pg p)
                   (acting_primary p) session_id (om_epoch m) a reply
             | Err e =>
                 receive_error (forallb allows_unknown_retry ops)
                   (wait_for_primary_change t (acting_primary p) (om_epoch m))
                   (acting_primary p) session_id (om_epoch m) a e
             end)
    end)).

(** The loop over the attempts, for any body of the loop. *)
Fixpoint attempts (body : Z -> AttemptState -> CP Verdict) (n : nat) (attempt : Z) (a : AttemptState) : CR CompoundResult :=
  match n with
  | O => Ret (Err (preserve_unknown OX_RecoveryExhausted (at_prior a)))
  | S n =>
      verdict ← body attempt a;
      match verdict with
      | Finished r => Ret r
      | Again a => attempts body n (attempt + 1) a
      end
  end.

(** The flags a compound request starts with. *)
Definition vector_flag (ops : list Operation) (flags : Z) : Z :=
  if 1 <? zlen ops then Z.lor flags FLAG_RETURN_VECTOR else flags.

Definition execute_routed (fuel : nat) (limits : OsdLimits) (t : Target) (ops : list Operation)
    (transaction_id : Z) (mutation : bool) : CR CompoundResult :=
  let t := if mutation then t
           else mkTarget (tg_pool_id t) (tg_object t) (tg_locator t) (tg_namespace t) (tg_snapshot t) 0 [] in
  await (call C_Incarnation) (fun incarnation =>
  let hash := op ← head ops; Operation_route_hash op in
  if existsb (fun op => bool_decide (Operation_route_hash op <> hash)) (tail ops)
  then Ret (Err OX_LimitExceeded)
  else
    let flags := vector_flag ops (match hash with Some _ => Z.lor FLAG_PG_OP FLAG_IGNORE_OVERLAY | None => 0 end) in
    attempts (routed_attempt fuel limits ops hash mutation incarnation) MAX_ATTEMPTS 0
      (mkAttemptState t transaction_id flags None)).

Definition execute_operations (fuel : nat) (limits : OsdLimits) (t : Target) (ops : list Operation)
    : CR CompoundResult :=
  closed ← call C_Closed;
  if (closed : bool) then Ret (Err OX_Closed)
  else if (zlen ops =? 0) || (ol_max_operations limits <? zlen ops) then Ret (Err OX_LimitExceeded)
  else await (call C_Transaction) (fun id => execute_routed fuel limits t ops id false).

(** [execute], and the result [mutate] makes of a compound one. *)
Definition single_result (r : CompoundResult) : result OsdError ReadResult :=
  op ← ok_or (head (cp_operations r)) OX_MalformedReply;
  Ok (mkReadResult (or_data op) (cp_version r)).

Definition execute (fuel : nat) (limits : OsdLimits) (t : Target) (op : Operation) : CR ReadResult :=
  await (execute_operations fuel limits t [op]) (fun r => Ret (single_result r)).

Definition client_read (fuel : nat) (limits : OsdLimits) (t : Target) (offset length : Z) : CR ReadResult :=
  question (ok_or (checked_add 64 READ_REPLY_FRONT_BYTES (zlen (tg_object t))) OX_LimitExceeded)
    (fun minimum_reply_bytes =>
     if (2 ^ 64 <=? offset + length) || (ol_max_bytes limits <? minimum_reply_bytes)
        || (ol_max_bytes limits - minimum_reply_bytes <? length)
     then Ret (Err OX_LimitExceeded)
     else execute fuel limits t (Op_Read offset length)).

Definition client_stat (fuel : nat) (limits : OsdLimits) (t : Target) : CR ReadResult :=
  execute fuel limits t Op_Stat.

Definition client_pgnls (fuel : nat) (limits : OsdLimits) (pool_id : Z) (namespace : list byte)
    (cursor : HObject) (count : Z) : CR ListPage :=
  snapshot ← call C_Snapshot;
  match snapshot with
  | None => Ret (Err OX_NotConnected)
  | Some m =>
      question (map_err map_wire_error (encode_list_operation cursor count (om_epoch m) (ol_max_bytes limits)))
        (fun op =>
         await (execute_operations fuel limits (mkTarget pool_id [] [] namespace NO_SNAP 0 []) [op])
           (fun r =>
            question (ok_or (head (cp_operations r)) OX_MalformedReply) (fun first =>
            Ret (map_err map_wire_error
                   (decode_page (or_data first) (ol_max_bytes limits) (ol_max_bytes limits / 12))))))
  end.

(** ** Mutations *)

(** The rounds of [admit_mutation]: the sequence number and the transaction. *)
Fixpoint admit_rounds (fuel : nat) (retained : Z) : CR (Z * Z) :=
  match fuel with
  | O => Stop StillRunning
  | S fuel =>
      await checked_options (fun _ =>
      admission ← call (C_Round retained);
      question admission (fun admission =>
      match admission with
      | Some numbers => Ret (Ok numbers)
      | None => w ← call C_Changed; question (waited w) (fun _ => admit_rounds fuel retained)
      end))
  end.

Definition admit_mutation (fuel : nat) (retained : Z) : CR (Z * Z) :=
  if MAX_MUTATION_BYTES <? retained then Ret (Err OX_LimitExceeded) else admit_rounds fuel retained.

Definition execute_mutation (fuel : nat) (limits : OsdLimits) (t : Target) (ops : list Operation)
    (transaction_id : Z) : CR CompoundResult :=
  execute_routed fuel limits t ops transaction_id true.

(** The spawned task: [MutationCompletion] completes the mutation also when the
    task panics, and the caller then finds the channel closed. *)
Definition mutation_task (fuel : nat) (limits : OsdLimits) (t : Target) (ops : list Operation)
    (sequence transaction_id : Z) : CR CompoundResult :=
  let lost := Err (OX_OutcomeUnknown UC_Transport) in
  r ← on_panic (execute_mutation fuel limits t ops transaction_id) (Ret lost);
  _ ← call (C_Complete sequence (match r with Ok _ => None | Err e => Some e end));
  Ret r.

Definition mutate_operations (fuel : nat) (limits : OsdLimits) (t : Target) (ops : list Operation)
    : CR CompoundResult :=
  question (check_mutation limits t ops) (fun retained =>
  await (admit_mutation fuel retained) (fun '(sequence, transaction_id) =>
  mutation_task fuel limits t ops sequence transaction_id)).

Definition mutate (fuel : nat) (limits : OsdLimits) (t : Target) (m : Mutation) : CR ReadResult :=
  await (mutate_operations fuel limits t [Mutation_into_owned m]) (fun r => Ret (single_result r)).

(** ** Execution on a placement group *)

(** The route to a placement group, in the body of the loop. *)
Definition pg_route (pg : PG) (prior : option UnknownCause)
    (k : OSDMap -> ObjectPlacement -> list EntityAddr -> CP Verdict) : CP Verdict :=
  snapshot ← call C_Snapshot;
  match snapshot with
  | None => fail (preserve_unknown OX_NotConnected prior)
  | Some m =>
      match pool_by_id m (pg_pool pg) with
      | None => fail (preserve_unknown (OX_WireErrno (-2)) prior)
      | Some _ =>
          p ← placed (place_raw_hash m (pg_pool pg) (pg_seed pg));
          or_unknown prior p (fun p =>
          if acting_primary p <? 0 then fail (preserve_unknown OX_NoPrimary prior)
          else
            match osd_client_addresses m (acting_primary p) with
            | None => fail (preserve_unknown OX_NoPrimary prior)
            | Some addresses => k m p addresses
            end)
      end
  end.

(** A reply on a placement group: redirects only set flags. *)
Definition receive_pg_reply (limits : OsdLimits) (ops : list Operation) (attempt : Z) (pg : PG)
    (osd session_id epoch : Z) (a : AttemptState) (m : Message) : CP Verdict :=
  match decode_reply m limits with
  | Err _ => _ ← call (C_Invalidate osd session_id); fail OX_MalformedReply
  | Ok r =>
      match validate_target r [] pg attempt with
      | Err _ => _ ← call (C_Invalidate osd session_id); fail OX_MalformedReply
      | Ok _ =>
          let a := with_prior a None in
          match rp_redirect r with
          | Some _ => Ret (Again (mkAttemptState (at_target a) (at_transaction a) (Z.lor (at_flags a) REDIRECT_FLAGS) None))
          | None => judge_reply ops false false osd session_id epoch a r
          end
      end
  end.

Definition pg_attempt (limits : OsdLimits) (pg : PG) (ops : list Operation) (incarnation : Z)
    (attempt : Z) (a : AttemptState) : CP Verdict :=
  let prior := at_prior a in
  closed ← call C_Closed;
  if (closed : bool) then fail (preserve_unknown OX_Closed prior)
  else
    options ← checked_options;
    or_unknown prior options (fun _ =>
    pg_route pg prior (fun m p addresses =>
    let flags := retry_flags attempt (at_flags a) in
    let a := mkAttemptState (at_target a) (at_transaction a) flags prior in
    send_request limits (acting_primary p) addresses (pl_pg p)
      (mkHObject [] [] NO_SNAP (raw_hash p) false [] (pg_pool pg)) false false
      (fun global_id =>
         mkRequest (om_epoch m) (pl_pg p) (primary_shard p) (sharded p) (raw_hash p) (pg_pool pg) [] [] []
           NO_SNAP 0 [] (at_transaction a) global_id incarnation attempt flags OSD_CLIENT ops)
      (fun session_id answer =>
         match answer with
         | Ok reply =>
             receive_pg_reply limits ops attempt (pl_pg p) (acting_primary p) session_id (om_epoch m) a reply
         | Err e =>
             receive_error (forallb allows_unknown_retry ops)
               (wait_for_pg_primary_change pg (acting_primary p) (om_epoch m))
               (acting_primary p) session_id (om_epoch m) a e
         end))).

(** The attempts do not use the target of their state. *)
Definition execute_pg_routed (limits : OsdLimits) (pg : PG) (ops : list Operation) : CR CompoundResult :=
  closed ← call C_Closed;
  if (closed : bool) then Ret (Err OX_Closed)
  else if (zlen ops =? 0) || (ol_max_operations limits <? zlen ops) then Ret (Err OX_LimitExceeded)
  else if 2 ^ 63 <=? pg_pool pg then Ret (Err OX_LimitExceeded)
  else
    await (call C_Transaction) (fun transaction_id =>
    await (call C_Incarnation) (fun incarnation =>
    attempts (pg_attempt limits pg ops incarnation) MAX_ATTEMPTS 0
      (mkAttemptState (mkTarget 0 [] [] [] 0 0 []) transaction_id (vector_flag ops FLAG_PG_OP) None))).

(** ** Commands *)

Inductive CommandTarget : Type :=
| CT_Osd (id : Z)
| CT_PG (pg : PG).

Record CommandRoute : Type := mkCommandRoute {
  cr_epoch : Z;
  cr_primary : Z;
  cr_addresses : list EntityAddr
}.

Definition resolve_command_route (m : OSDMap) (target : CommandTarget) : CR CommandRoute :=
  match target with
  | CT_Osd id =>
      match osd_client_addresses m id with
      | None => Ret (Err OX_NoPrimary)
      | Some addresses => Ret (Ok (mkCommandRoute (om_epoch m) id addresses))
      end
  | CT_PG pg =>
      if (2 ^ 63 <=? pg_pool pg) || negb (bool_decide (is_Some (pool_by_id m (pg_pool pg))))
      then Ret (Err (OX_WireErrno (-2)))
      else
        await (placed (place_raw_hash m (pg_pool pg) (pg_seed pg))) (fun p =>
        if acting_primary p <? 0 then Ret (Err OX_NoPrimary)
        else
          match osd_client_addresses m (acting_primary p) with
          | None => Ret (Err OX_NoPrimary)
          | Some addresses => Ret (Ok (mkCommandRoute (om_epoch m) (acting_primary p) addresses))
          end)
  end.

(** What one attempt of a command comes to; [None] is another attempt. *)
Definition osd_command_reply (limits : OsdLimits) (transaction_id : Z) (route : CommandRoute) (session_id : Z)
    (m : Message) : CR (option (CommandResult * option OsdError)) :=
  match decode_osd_command_reply m (ol_max_bytes limits) with
  | Err _ => _ ← call (C_Invalidate (cr_primary route) session_id); Ret (Err OX_MalformedReply)
  | Ok reply =>
      if negb (oc_transaction_id reply =? transaction_id) then
        _ ← call (C_Invalidate (cr_primary route) session_id); Ret (Err OX_MalformedReply)
      else
        let r := mkCommandResult (oc_result reply) (oc_status reply) (oc_output reply) in
        if cmr_result r =? EAGAIN then
          await (best_effort_refresh_map (cr_epoch route)) (fun _ => Ret (Ok None))
        else if cmr_result r <? 0 then Ret (Ok (Some (r, Some (OX_WireErrno (cmr_result r)))))
        else Ret (Ok (Some (r, None)))
  end.

(** One round of the loop of [submit_command]. *)
Definition command_attempt (limits : OsdLimits) (target : CommandTarget) (request : CommandRequest)
    : CR (option (CommandResult * option OsdError)) :=
  closed ← call C_Closed;
  if (closed : bool) then Ret (Err OX_Closed)
  else
    await checked_options (fun _ =>
    snapshot ← call C_Snapshot;
    match snapshot with
    | None => Ret (Err OX_NotConnected)
    | Some m =>
        await (resolve_command_route m target) (fun route =>
        question (map_err map_command_message_error (encode_command_request request (ol_max_bytes limits)))
          (fun message =>
        await (session (cr_primary route) (cr_addresses route)) (fun session_id =>
        answer ← call (C_SubmitDirect session_id message);
        match answer with
        | Ok reply => osd_command_reply limits (cq_transaction_id request) route session_id reply
        | Err OX_QueueSaturated => Ret (Err OX_QueueSaturated)
        | Err (OX_OutcomeUnknown cause) => Ret (Err (OX_OutcomeUnknown cause))
        | Err e =>
            _ ← call (C_Invalidate (cr_primary route) session_id);
            match e with
            | OX_Timeout | OX_Cancelled => Ret (Err e)
            | _ => await (best_effort_refresh_map (cr_epoch route)) (fun _ => Ret (Ok None))
            end
        end)))
    end).

Fixpoint command_attempts (limits : OsdLimits) (target : CommandTarget) (request : CommandRequest) (n : nat)
    : CR (CommandResult * option OsdError) :=
  match n with
  | O => Ret (Err OX_RecoveryExhausted)
  | S n =>
      await (command_attempt limits target request) (fun done =>
      match done with
      | Some r => Ret (Ok r)
      | None => command_attempts limits target request n
      end)
  end.

(** The cluster's identity when no map has arrived is all zeros. *)
Definition submit_command (limits : OsdLimits) (target : CommandTarget) (command : list (list byte))
    (input : list byte) : CR (CommandResult * option OsdError) :=
  closed ← call C_Closed;
  if (closed : bool) then Ret (Err OX_Closed)
  else if zlen command =? 0 then Ret (Err OX_LimitExceeded)
  else
    await (call C_Transaction) (fun transaction_id =>
    snapshot ← call C_Snapshot;
    let fsid := match snapshot with Some m => om_fsid m | None => replicate 16 x00 end in
    command_attempts limits target (mkCommandRequest fsid transaction_id command input) MAX_ATTEMPTS).
End Execute.
