(* ===== verification/OsdExecuteProps.v ===== *)
(** * What executed operations guarantee

    The theorems of [OsdExecute]: for which target and to whom requests are
    sent, when a result is reported as a success, after which outcomes operations
    are sent again, by the client alone and over its sessions, and that every
    admitted mutation is accounted for. *)

From S2P Require Import Prelude Codec Message Frame Address Control SessionState CrushHash CrushLn CrushMap CrushPlace MapBase Pool OsdMap MapPlacement Backoff OsdMessages OsdMetadata OsdCommand OsdClient Interaction OsdSession OsdExecute.
From Stdlib Require Import ZArith Lia Strings.Byte.
From stdpp Require Import base option gmap sorting numbers list.

Open Scope Z_scope.

(** ** Programs without certain calls *)

Definition submissions (t : list ClientObs) : list Submitted :=
  omap (fun o => match o with V_Submit s => Some s | _ => None end) t.

Lemma submissions_app t t' : submissions (t ++ t') = submissions t ++ submissions t'.
Proof. apply omap_app. Qed.

(** Observations of interest: none are of maps, sessions or waits. *)
Class Ignores (P : ClientObs -> bool) : Prop := {
  ignores_other : P V_Other = false;
  ignores_snapshot m : P (V_Snapshot m) = false;
  ignores_session osd endpoint r : P (V_Session osd endpoint r) = false
}.

(** The programs that make no observation of interest. *)
Definition silent_on (P : ClientObs -> bool) {A} (p : CP A) : Prop :=
  forall t, always see_client p t (fun t' _ => List.filter P t' = List.filter P t).

Create HintDb silent discriminated.
Ltac silent := auto 20 with silent nocore.

Section Silent.
  Context (P : ClientObs -> bool) `{!Ignores P}.

Lemma silent_Ret {A} (a : A) : silent_on P (Ret a).
Proof. done. Qed.

Lemma silent_Stop {A} h : silent_on P (Stop (A := A) h).
Proof. done. Qed.

Lemma silent_call {X} (e : ClientE X) : (forall x, P (see_client X e x) = false) -> silent_on P (call e).
Proof. intros He t x. cbn. rewrite List.filter_app. cbn. by rewrite He, app_nil_r. Qed.

Lemma silent_bind {A B} (p : CP A) (f : A -> CP B) :
  silent_on P p -> (forall a, silent_on P (f a)) -> silent_on P (p ≫= f).
Proof.
  intros Hp Hf t. apply always_bind. eapply always_mono; [|apply Hp].
  intros t' [a|h] Ht; [|done]. eapply always_mono; [|apply Hf]. intros t2 r ->. done.
Qed.

Lemma silent_question {A B} (r : result OsdError A) (k : A -> CR B) :
  (forall a, silent_on P (k a)) -> silent_on P (question r k).
Proof. intros Hk. destruct r; [apply Hk|apply silent_Ret]. Qed.

Lemma silent_await {A B} (p : CR A) (k : A -> CR B) :
  silent_on P p -> (forall a, silent_on P (k a)) -> silent_on P (await p k).
Proof. intros Hp Hk. apply silent_bind; [done|]. intros a. by apply silent_question. Qed.

#[local] Hint Resolve silent_Ret silent_Stop silent_bind silent_question silent_await : silent.
#[local] Hint Extern 1 (silent_on _ (call _)) =>
  (apply silent_call; intros; first [apply ignores_other|apply ignores_snapshot|apply ignores_session]) : silent.
#[local] Hint Extern 2 (silent_on _ _) => case_match : silent.

Lemma silent_options : silent_on P checked_options.
Proof. unfold checked_options. silent. Qed.

Lemma silent_clock : silent_on P checked_clock.
Proof. unfold checked_clock. silent. Qed.
#[local] Hint Resolve silent_options silent_clock : silent.

Lemma silent_refresh_map epoch : silent_on P (refresh_map epoch).
Proof. unfold refresh_map. silent. Qed.
#[local] Hint Resolve silent_refresh_map : silent.

Lemma silent_refresh epoch : silent_on P (best_effort_refresh_map epoch).
Proof. unfold best_effort_refresh_map. silent. Qed.

Lemma silent_placed r : silent_on P (placed r).
Proof. unfold placed. silent. Qed.

Lemma silent_endpoint addresses : silent_on P (usable_endpoint addresses).
Proof. unfold usable_endpoint. silent. Qed.
#[local] Hint Resolve silent_refresh silent_placed silent_endpoint : silent.

Lemma silent_reachable m p : silent_on P (reachable_primary m p).
Proof. unfold reachable_primary. silent. Qed.
#[local] Hint Resolve silent_reachable : silent.

Lemma silent_route resolve : forall fuel, silent_on P (wait_for_resolved_route fuel resolve).
Proof. induction fuel; cbn [wait_for_resolved_route]; silent. Qed.

Lemma silent_primary resolve : forall n previous epoch, silent_on P (primary_changes n resolve previous epoch).
Proof. induction n; intros; cbn [primary_changes]; silent. Qed.

Lemma silent_session osd addresses : silent_on P (session osd addresses).
Proof. unfold session. silent. Qed.

Lemma silent_encoded r limits : silent_on P (encoded_request r limits).
Proof. unfold encoded_request. silent. Qed.

Lemma silent_judge ops mutation durable osd sid epoch a rep :
  silent_on P (judge_reply ops mutation durable osd sid epoch a rep).
Proof. unfold judge_reply, conclude, or_fail, fail. silent. Qed.
#[local] Hint Resolve silent_judge : silent.

Lemma silent_receive_reply limits ops mutation durable attempt pg osd sid epoch a reply :
  silent_on P (receive_reply limits ops mutation durable attempt pg osd sid epoch a reply).
Proof. unfold receive_reply, follow_redirect, or_fail, fail. silent. Qed.

Lemma silent_receive_pg_reply limits ops attempt pg osd sid epoch a reply :
  silent_on P (receive_pg_reply limits ops attempt pg osd sid epoch a reply).
Proof. unfold receive_pg_reply, fail. silent. Qed.

Lemma silent_receive_error retry change osd sid epoch a e :
  silent_on P change -> silent_on P (receive_error retry change osd sid epoch a e).
Proof. intros Hc. unfold receive_error, failed_attempt, or_unknown, or_fail, fail. silent. Qed.
End Silent.

#[export] Hint Resolve silent_Ret silent_Stop silent_bind silent_question silent_await
  silent_options silent_clock silent_refresh_map silent_refresh silent_placed silent_endpoint silent_reachable
  silent_route silent_primary silent_session silent_encoded silent_judge silent_receive_reply
  silent_receive_pg_reply silent_receive_error : silent.
#[export] Hint Extern 1 (silent_on _ (call _)) =>
  (apply silent_call; intros; first
     [apply ignores_other|apply ignores_snapshot|apply ignores_session|reflexivity]) : silent.
#[export] Hint Extern 1 (Ignores _) => (apply _) : silent.
#[export] Hint Extern 2 (silent_on _ _) => case_match : silent.

Definition is_submission (o : ClientObs) : bool := match o with V_Submit _ => true | _ => false end.

#[export] Instance submission_ignores : Ignores is_submission.
Proof. done. Qed.

Abbreviation silent_program := (silent_on is_submission).

Lemma submissions_filter t : submissions t = submissions (List.filter is_submission t).
Proof. unfold submissions. induction t as [|o t IH]; [done|]. destruct o; cbn; congruence. Qed.

Lemma silent_submissions {A} (p : CP A) t :
  silent_program p -> always see_client p t (fun t' _ => submissions t' = submissions t).
Proof.
  intros Hp. eapply always_mono; [|apply Hp]. intros t' r E. by rewrite submissions_filter, E, <- submissions_filter.
Qed.

(** ** Steps of an attempt *)

Ltac turn x := apply always_call; intros x; cbv beta; cbn [see_client].

Lemma always_silent {A B} (p : CP A) (f : A -> CP B) t (Q : list ClientObs -> result Halted B -> Prop) (R : list ClientObs -> A -> Prop) :
  silent_program p -> always see_client p t (fun t' r => match r with Ok a => R t' a | Err _ => True end) ->
  (forall t' a, t `prefix_of` t' -> submissions t' = submissions t -> R t' a -> always see_client (f a) t' Q) ->
  (forall t' h, t `prefix_of` t' -> submissions t' = submissions t -> Q t' (Err h)) ->
  always see_client (p ≫= f) t Q.
Proof.
  intros Hs Hr Hf He. apply always_bind. eapply always_weaken; [exact (always_and _ _ _ _ _ (silent_submissions p t Hs) Hr)|].
  intros t' [a|h] Hp [H1 H2]; auto.
Qed.

Lemma always_any {A} (p : CP A) t : always see_client p t (fun _ r => match r with Ok _ => True | Err _ => True end).
Proof. eapply always_mono; [|apply always_prefix]. by intros ? []. Qed.

Lemma always_after {A B} (p : CP A) (f : A -> CP B) t (Q : list ClientObs -> result Halted B -> Prop) :
  (forall t' a, t `prefix_of` t' -> always see_client (f a) t' Q) -> (forall t' h, Q t' (Err h)) ->
  always see_client (p ≫= f) t Q.
Proof.
  intros Hf He. apply always_bind. eapply always_mono; [|apply always_prefix]. intros t' [a|h] Ht; auto.
Qed.

Lemma snoc_in {A} (x : A) l : x ∈ l ++ [x].
Proof. apply elem_of_app. right. by apply list_elem_of_singleton. Qed.

Lemma elem_of_prefix {A} (x : A) l l' : x ∈ l -> l `prefix_of` l' -> x ∈ l'.
Proof. intros H [k ->]. apply elem_of_app. by left. Qed.

Lemma route_found resolve : forall fuel t,
  always see_client (wait_for_resolved_route fuel resolve) t (fun t' r =>
    match r with
    | Ok (Ok (m, p)) => V_Snapshot (Some m) ∈ t' /\ resolve m = Ok p /\ 0 <= acting_primary p
    | _ => True
    end).
Proof.
  induction fuel as [|fuel IH]; intros t; cbn [wait_for_resolved_route]; [done|].
  unfold await. apply always_after; [|done]. intros t1 options _. apply always_question; [|done]. intros _ _.
  turn terminal. destruct terminal; [done|]. turn snapshot. destruct snapshot as [m|]; [|done].
  apply always_bind. destruct (resolve m) as [p|[]] eqn:Er; cbn [placed always question]; try done.
  apply always_bind. unfold reachable_primary.
  assert (forall t', always see_client (if false then Ret (Ok (m, p))
            else best_effort_refresh_map (om_epoch m) ≫= fun r =>
                 question r (fun _ => wait_for_resolved_route fuel resolve)) t' (fun t' r =>
          match r with
          | Ok (Ok (m, p)) => V_Snapshot (Some m) ∈ t' /\ resolve m = Ok p /\ 0 <= acting_primary p
          | _ => True end)) as Hagain.
  { intros t'. apply always_after; [|done]. intros t2 r _. by apply always_question; [intros|]. }
  destruct (Z.ltb_spec (acting_primary p) 0) as [|Hp]; [apply Hagain|].
  destruct (osd_client_addresses m (acting_primary p)) as [addresses|]; [|apply Hagain].
  unfold usable_endpoint. destruct (first_endpoint addresses) as [[e|]|[]]; cbn [always mbind Prog_bind]; [|apply Hagain|done].
  cbn [fmap option_fmap option_map]. rewrite bool_decide_true by by eexists.
  split; [apply snoc_in|done].
Qed.

Lemma session_found osd addresses t :
  always see_client (session osd addresses) t (fun t' r =>
    match r with
    | Ok (Ok session) => exists address endpoint,
        first_endpoint addresses = Ok (Some (address, endpoint)) /\ V_Session osd endpoint (Ok session) ∈ t'
    | _ => True
    end).
Proof.
  unfold session, usable_endpoint. turn closed. destruct closed; [done|].
  destruct (first_endpoint addresses) as [[[address endpoint]|]|[]]; cbn [mbind Prog_bind always]; try done.
  intros [session|e]; cbn; [|done]. exists address, endpoint. split; [done|apply snoc_in].
Qed.

(** ** What is sent, and what is accepted *)

(** A request sent after the submissions [earlier]: the operations, numbered and
    marked as a retry from the second attempt on, addressed as [addressed] says,
    for the placement one of the seen maps gives it, on a session with the acting
    primary of that placement. *)
Record well_sent (resolve : OSDMap -> Request -> result PlaceFault ObjectPlacement)
    (addressed : list Submitted -> Submitted -> Request -> Prop) (limits : OsdLimits)
    (ops : list Operation) (t : list ClientObs) (earlier : list Submitted) (s : Submitted) (rq : Request) : Prop := {
  ws_encoded : encode_request rq limits = Ok (sb_message s);
  ws_operations : rq_operations rq = ops;
  ws_retry : rq_retry rq = Z.of_nat (length earlier);
  ws_flag : Z.land (rq_flags rq) FLAG_RETRY = if (length earlier =? 0)%nat then 0 else FLAG_RETRY;
  ws_addressed : addressed earlier s rq;
  ws_pg : rq_pg rq = sb_pg s;
  ws_placed : exists m p addresses address endpoint,
    V_Snapshot (Some m) ∈ t /\ rq_map_epoch rq = om_epoch m
    /\ resolve m rq = Ok p /\ rq_pg rq = pl_pg p /\ rq_shard rq = primary_shard p /\ 0 <= acting_primary p
    /\ osd_client_addresses m (acting_primary p) = Some addresses
    /\ first_endpoint addresses = Ok (Some (address, endpoint))
    /\ V_Session (acting_primary p) endpoint (Ok (sb_session s)) ∈ t
}.

(** The result of one operation answers it. *)
Record answers (op : Operation) (r : OperationResult) : Prop := {
  an_operation : or_operation r = Operation_code op;
  an_final : or_code r <> EAGAIN;
  an_code : or_code r < 0 -> Z.land (Operation_flags op) OP_FLAG_FAIL_OK <> 0;
  an_bounded : match op with Op_Read _ length => zlen (or_data r) <= length | _ => True end
}.

(** A success stands on the reply to the request. *)
Record accepted (limits : OsdLimits) (ops : list Operation) (s : Submitted) (rq : Request) (r : CompoundResult)
    (durable : bool) : Prop := mkAccepted {
  ac_reply : exists reply rep,
    sb_answer s = Ok reply /\ decode_reply reply limits = Ok rep
    /\ rp_object rep = rq_object rq /\ rp_pg rep = rq_pg rq
    /\ rp_redirect rep = None /\ 0 <= rp_result rep
    /\ r = mkCompoundResult (rp_operations rep) (rp_version rep)
    /\ (durable = true -> rp_result rep = 0 -> Z.land (rp_flags rep) FLAG_ON_DISK <> 0);
  ac_operations : Forall2 answers ops (cp_operations r)
}.

Definition unknown_answer (s : Submitted) : Prop := exists cause, sb_answer s = Err (OX_OutcomeUnknown cause).

Lemma validate_answers ops : forall results,
  length results = length ops -> validate_results results ops = Ok tt ->
  existsb (fun o => or_code o =? EAGAIN) results = false -> first_failure ops results = None ->
  Forall2 answers ops results.
Proof.
  induction ops as [|op ops IH]; intros [|r results] Hl Hv He Hf; try done.
  cbn in Hv, He, Hf. apply orb_false_elim in He as [He1 He2].
  destruct (Z.eqb_spec (or_operation r) (Operation_code op)) as [Ho|]; [|done]. cbn in Hv.
  destruct ((or_code r <? 0) && _) eqn:Ec; [done|].
  assert (validate_results results ops = Ok tt
          /\ match op with Op_Read _ length => zlen (or_data r) <= length | _ => True end) as [Hr Hb].
  { destruct op; try done. destruct (Z.ltb_spec length (zlen (or_data r))); [done|]. split; [done|lia]. }
  constructor; [|apply IH; [by injection Hl|done..]].
  constructor; [done|by apply Z.eqb_neq| |done].
  intros Hneg Hz. rewrite Hz in Ec. cbn in Ec. rewrite andb_true_r in Ec. apply Z.ltb_ge in Ec. lia.
Qed.

(** What an attempt that was answered may come to; [next] is what the next
    attempt needs. *)
Definition verdict_ok (limits : OsdLimits) (ops : list Operation) (durable retry : bool) (next : AttemptState -> Prop)
    (rq : Request) (s : Submitted) (v : result Halted Verdict) : Prop :=
  match v with
  | Ok (Finished (Ok r)) => accepted limits ops s rq r durable
  | Ok (Finished (Err e)) => unknown_answer s -> is_outcome_unknown e \/ e = OX_Closed
  | Ok (Again a) => next a /\ (unknown_answer s -> retry = true)
  | Err _ => unknown_answer s -> retry = true
  end.

Section Verdicts.
  Context (limits : OsdLimits) (ops : list Operation) (mutation durable : bool) (next : AttemptState -> Prop)
    (rq : Request).

Lemma judge_verdict osd sid epoch a rep retry s reply t :
  sb_answer s = Ok reply -> decode_reply reply limits = Ok rep -> rp_object rep = rq_object rq ->
  rp_pg rep = rq_pg rq -> rp_redirect rep = None -> next a ->
  always see_client (judge_reply ops mutation durable osd sid epoch a rep) t
    (fun _ v => verdict_ok limits ops durable retry next rq s v).
Proof.
  intros Ha Hd Ho Hp Hr Hn. assert (~ unknown_answer s) as Hu by (intros [c Hc]; congruence).
  assert (forall t' (p : CR unit), always see_client (p ≫= fun r => or_fail r (fun _ => Ret (Again a))) t'
            (fun _ v => verdict_ok limits ops durable retry next rq s v)) as Hagain.
  { intros t' p. apply always_after; [|intros t1 h H; by destruct Hu].
    intros t1 [[]|e] _; cbn; [split; [done|]|]; intros H; by destruct Hu. }
  unfold judge_reply. destruct (rp_result rep =? EAGAIN); [apply Hagain|].
  destruct (validate_operations rep ops) as [[]|] eqn:Ev; [|turn u; cbn; intros H; by destruct Hu].
  destruct (existsb _ _) eqn:Ee; [apply Hagain|].
  destruct (durable && _) eqn:Ed; [turn u; cbn; intros H; by destruct Hu|]. unfold conclude.
  destruct (Z.ltb_spec (rp_result rep) 0) as [Hneg|Hpos]; [cbn; intros H; by destruct Hu|].
  destruct (first_failure ops (rp_operations rep)) eqn:Ef; [cbn; intros H; by destruct Hu|]. cbn.
  unfold validate_operations in Ev. case_match eqn:El; [done|].
  apply negb_false_iff, Z.eqb_eq in El. unfold zlen in El.
  constructor; [|cbn; by apply validate_answers; [lia|..]].
  exists reply, rep. split_and!; try done. intros -> Hz. cbn in Ed. unfold validate_durable_reply in Ed.
  rewrite Hz in Ed. cbn in Ed. by destruct (Z.eqb_spec (Z.land (rp_flags rep) FLAG_ON_DISK) 0).
Qed.

Lemma validate_target_inv rep object pg attempt :
  validate_target rep object pg attempt = Ok tt -> rp_object rep = object /\ rp_pg rep = pg.
Proof.
  unfold validate_target. case_match eqn:E; [done|]. intros _.
  apply orb_false_elim in E as [E _]. apply orb_false_elim in E as [E1 E2].
  apply bool_decide_eq_false in E1, E2. split; by apply dec_stable.
Qed.

Lemma receive_reply_verdict attempt pg osd sid epoch a retry s reply t :
  sb_answer s = Ok reply -> tg_object (at_target a) = rq_object rq -> pg = rq_pg rq ->
  (forall rep, decode_reply reply limits = Ok rep ->
     match rp_redirect rep with
     | None => next (with_prior a None)
     | Some rd => forall id, (mutation = false -> id = at_transaction a) ->
         next (mkAttemptState (redirected (at_target a) rd) id (Z.lor (at_flags a) REDIRECT_FLAGS) None)
     end) ->
  always see_client (receive_reply limits ops mutation durable attempt pg osd sid epoch a reply) t
    (fun _ v => verdict_ok limits ops durable retry next rq s v).
Proof.
  intros Ha Ho -> Hn. assert (~ unknown_answer s) as Hu by (intros [c Hc]; congruence).
  unfold receive_reply. destruct (decode_reply reply limits) as [rep|] eqn:Ed; [|turn u; cbn; intros H; by destruct Hu].
  destruct (validate_target _ _ _ _) as [[]|] eqn:Ev; [|turn u; cbn; intros H; by destruct Hu].
  apply validate_target_inv in Ev as [Hv1 Hv2]. specialize (Hn rep eq_refl).
  destruct (rp_redirect rep) as [redirect|] eqn:Er; [|by eapply judge_verdict; [..|congruence| | |]].
  unfold follow_redirect. destruct mutation; [turn r; destruct r|]; cbn.
  - split; [by apply Hn|]. intros H. by destruct Hu.
  - intros H. by destruct Hu.
  - split; [by apply Hn|]. intros H. by destruct Hu.
Qed.

Lemma receive_error_verdict retry change osd sid epoch a s e t :
  sb_answer s = Err e -> (forall prior, next (with_prior a prior)) ->
  always see_client (receive_error retry change osd sid epoch a e) t
    (fun _ v => verdict_ok limits ops durable retry next rq s v).
Proof.
  intros Ha Hn. unfold receive_error. assert (next a) as Hna by (specialize (Hn (at_prior a)); by destruct a).
  assert ((forall cause, e <> OX_OutcomeUnknown cause) -> ~ unknown_answer s) as Hu.
  { intros He [c Hc]. rewrite Ha in Hc. injection Hc. apply He. }
  case_bool_decide as He; [subst; cbn; intros H; by destruct Hu|].
  unfold failed_attempt. turn u. turn closed. destruct closed.
  { cbn. intros _. unfold preserve_unknown. destruct (at_prior a); [left; by eexists|by right]. }
  assert (forall t', ~ unknown_answer s -> always see_client
            (refreshed ← best_effort_refresh_map epoch;
             or_unknown (at_prior a) refreshed (fun _ => Ret (Again a))) t'
            (fun _ v => verdict_ok limits ops durable retry next rq s v)) as Hagain.
  { intros t' Hk. apply always_after; [|intros t1 h H; by destruct Hk].
    intros t1 [[]|e'] _; cbn; [split; [done|]|]; intros H; by destruct Hk. }
  destruct e; try (apply Hagain, Hu; done); try (cbn; intros H; by destruct Hu).
  destruct retry; [|cbn; intros _; left; by eexists].
  apply always_after; [|done]. intros t1 [|] _; [by split|]. cbn. intros _. left. by eexists.
Qed.

End Verdicts.

(** What one attempt comes to: it ends without having sent anything, or sends
    one request and comes to a verdict on its answer. *)
Definition attempt_post (resolve : OSDMap -> Request -> result PlaceFault ObjectPlacement)
    (addressed : list Submitted -> Submitted -> Request -> Prop) (ready : list Submitted -> AttemptState -> Prop)
    (limits : OsdLimits) (ops : list Operation) (durable retry : bool) (t t' : list ClientObs)
    (v : result Halted Verdict) : Prop :=
  submissions t' = submissions t /\ match v with Ok (Finished (Ok _)) | Ok (Again _) => False | _ => True end
  \/ exists s rq, submissions t' = submissions t ++ [s]
       /\ well_sent resolve addressed limits ops t' (submissions t) s rq
       /\ verdict_ok limits ops durable retry (ready (submissions t ++ [s])) rq s v.

Lemma retry_flags_spec i flags :
  (i = 0%nat -> Z.land flags FLAG_RETRY = 0) ->
  Z.land (retry_flags (Z.of_nat i) flags) FLAG_RETRY = if (i =? 0)%nat then 0 else FLAG_RETRY.
Proof.
  intros H. unfold retry_flags. destruct i as [|i]; [by apply H|]. cbn [Nat.eqb].
  rewrite (proj2 (Z.ltb_lt _ _)) by lia. rewrite Z.land_lor_distr_l, Z.land_diag.
  apply Z.bits_inj'. intros n _. rewrite Z.lor_spec, Z.land_spec.
  destruct (Z.testbit FLAG_RETRY n); [apply orb_true_r|by rewrite andb_false_r].
Qed.

Section Attempts.
  Context {base64 : Base64Engine} (resolve : OSDMap -> Request -> result PlaceFault ObjectPlacement)
    (addressed : list Submitted -> Submitted -> Request -> Prop) (limits : OsdLimits) (ops : list Operation)
    (durable retry : bool).

Abbreviation sent := (well_sent resolve addressed limits ops).

(** What a whole execution guarantees. *)
Record execution_ok (t : list ClientObs) (r : result Halted (result OsdError CompoundResult)) : Prop := {
  ex_bounded : (length (submissions t) <= MAX_ATTEMPTS)%nat;
  ex_sent : forall earlier s later, submissions t = earlier ++ s :: later -> exists rq, sent t earlier s rq;
  ex_unknown : forall earlier s later, submissions t = earlier ++ s :: later -> unknown_answer s -> retry = false ->
    later = [] /\ exists e, r = Ok (Err e) /\ (is_outcome_unknown e \/ e = OX_Closed);
  ex_success : forall res, r = Ok (Ok res) -> exists earlier s rq,
    submissions t = earlier ++ [s] /\ sent t earlier s rq /\ accepted limits ops s rq res durable
}.

Lemma well_sent_mono t t' earlier s rq : t `prefix_of` t' -> sent t earlier s rq -> sent t' earlier s rq.
Proof.
  intros Hp [H1 H2 H3 H4 Hadr H5 (m & p & l & a & e & Hm & H6 & H7 & H8 & H9 & H10 & H11 & H12 & Hs)].
  constructor; try done. exists m, p, l, a, e. split_and!; try done; by eapply elem_of_prefix.
Qed.

(** The attempts so far went well and ask for another. *)
Record underway (t : list ClientObs) : Prop := {
  ud_sent : forall earlier s later, submissions t = earlier ++ s :: later -> exists rq, sent t earlier s rq;
  ud_unknown : forall s, s ∈ submissions t -> unknown_answer s -> retry = true
}.

Lemma underway_start t : submissions t = [] -> underway t.
Proof.
  intros E. constructor; rewrite E; [by intros [|x l] s later|]. by intros s Hs%elem_of_nil.
Qed.

Lemma underway_end t t' r :
  underway t -> (length (submissions t) <= MAX_ATTEMPTS)%nat -> t `prefix_of` t' -> submissions t' = submissions t ->
  (forall res, r <> Ok (Ok res)) -> execution_ok t' r.
Proof.
  intros [H1 H2] Hi Hp E Hr. constructor; rewrite ?E; [lia| | |].
  - intros earlier s later Hj. destruct (H1 _ _ _ Hj) as [rq Hq]. exists rq. by eapply well_sent_mono.
  - intros earlier s later Hj Hu Hf. rewrite (H2 s) in Hf; [done| |done]. rewrite Hj. set_solver.
  - intros res ->. by destruct (Hr res).
Qed.

Lemma snoc_split {A} (l : list A) x earlier y later :
  l ++ [x] = earlier ++ y :: later ->
  later = [] /\ earlier = l /\ y = x \/ exists later', later = later' ++ [x] /\ l = earlier ++ y :: later'.
Proof.
  destruct later as [|z later _] using rev_ind; intros H.
  - left. by apply app_inj_tail in H as [-> ->].
  - right. exists later. rewrite app_comm_cons, app_assoc in H. by apply app_inj_tail in H as [-> ->].
Qed.

Lemma sent_snoc t t' s rq :
  underway t -> t `prefix_of` t' -> submissions t' = submissions t ++ [s] -> sent t' (submissions t) s rq ->
  forall earlier s' later, submissions t' = earlier ++ s' :: later -> exists rq', sent t' earlier s' rq'.
Proof.
  intros [H1 H2] Hp E Hw earlier s' later. rewrite E.
  intros [(_ & -> & ->)|(later' & _ & Hl)]%snoc_split; [by exists rq|].
  destruct (H1 _ _ _ Hl) as [rq' Hq]. exists rq'. by eapply well_sent_mono.
Qed.

(** What an attempt needs of the earlier ones. *)
  Context (ready : list Submitted -> AttemptState -> Prop).

Abbreviation post := (attempt_post resolve addressed ready limits ops durable retry).

Lemma post_fail t t' v :
  submissions t' = submissions t -> match v with Ok (Finished (Ok _)) | Ok (Again _) => False | _ => True end ->
  post t t' v.
Proof. by left. Qed.

(** The common part of an attempt: from the route to the answer. *)
Lemma send_attempt t t0 m p addresses object mutation routed (request : Z -> Request)
    (k : Z -> result OsdError Message -> CP Verdict) :
  submissions t0 = submissions t ->
  V_Snapshot (Some m) ∈ t0 -> 0 <= acting_primary p -> osd_client_addresses m (acting_primary p) = Some addresses ->
  (forall id, rq_operations (request id) = ops /\ rq_retry (request id) = Z.of_nat (length (submissions t))
     /\ Z.land (rq_flags (request id)) FLAG_RETRY = (if (length (submissions t) =? 0)%nat then 0 else FLAG_RETRY)
     /\ rq_map_epoch (request id) = om_epoch m /\ resolve m (request id) = Ok p
     /\ rq_pg (request id) = pl_pg p /\ rq_shard (request id) = primary_shard p) ->
  (forall id s, sb_object s = object -> sb_mutation s = mutation -> addressed (submissions t) s (request id)) ->
  (forall sid r, silent_program (k sid r)) ->
  (forall sid r id t1 s, sb_answer s = r ->
     always see_client (k sid r) t1
       (fun _ v => verdict_ok limits ops durable retry (ready (submissions t ++ [s])) (request id) s v)) ->
  always see_client (send_request limits (acting_primary p) addresses (pl_pg p) object mutation routed request k) t0 (post t).
Proof.
  intros Ht Hm Hp Ha Hq Hadr Hs Hk. unfold send_request.
  eapply always_silent; [silent|apply session_found| |intros t' h _ E; left; by rewrite E].
  intros t1 [sid|e] Hpre1 E1 Hf; [|apply post_fail; [congruence|done]].
  destruct Hf as (address & endpoint & He & Hin). cbn [or_fail]. turn gid.
  unfold encoded_request. destruct (encode_request (request gid) limits) as [message|[e|]] eqn:Ee;
    cbn [mbind Prog_bind or_fail always fail];
    [|apply post_fail; [rewrite submissions_app, E1, app_nil_r|]; done..].
  apply (always_silent _ _ _ _ (fun _ _ => True)); [silent|eapply always_mono; [|apply always_any]; by intros ? []| |].
  2:{ intros t2 h _ E2. apply post_fail; [|done]. by rewrite E2, submissions_app, E1, app_nil_r. }
  intros t2 [[]|e] Hpre2 E2 _; cbn [or_fail].
  2:{ apply post_fail; [|done]. by rewrite E2, submissions_app, E1, app_nil_r. }
  turn answer. set (s := mkSubmitted sid (pl_pg p) object message mutation answer).
  eapply always_weaken;
    [exact (always_and _ _ _ _ _ (silent_submissions _ _ (Hs sid answer)) (Hk sid answer gid _ s eq_refl))|].
  intros t3 v Hpre3 [E3 Hv]. right. exists s, (request gid).
  rewrite E3, submissions_app, E2, submissions_app, E1, Ht, app_nil_r.
  split; [done|]. split; [|done]. destruct (Hq gid) as (Q1 & Q2 & Q3 & Q4 & Q5 & Q6 & Q7).
  assert (forall o, o ∈ t1 -> o ∈ t3) as Hin3.
  { intros o Ho. eapply elem_of_prefix; [|exact Hpre3]. apply elem_of_app. left.
    eapply elem_of_prefix; [|exact Hpre2]. apply elem_of_app. by left. }
  constructor; try done; [by apply Hadr|]. exists m, p, addresses, address, endpoint. split_and!; try done; apply Hin3; [|done].
  by eapply elem_of_prefix.
Qed.

Lemma attempts_ok (body : Z -> AttemptState -> CP Verdict) :
  (forall a t, ready (submissions t) a ->
     always see_client (body (Z.of_nat (length (submissions t))) a) t (post t)) ->
  forall n a t, (length (submissions t) + n = MAX_ATTEMPTS)%nat -> underway t -> ready (submissions t) a ->
  always see_client (attempts body n (Z.of_nat (length (submissions t))) a) t execution_ok.
Proof.
  intros Hbody. induction n as [|n IH]; intros a t Hn Hu Hready; cbn [attempts].
  { eapply underway_end; try done. lia. }
  apply always_bind. eapply always_weaken; [by apply Hbody|].
  intros t' v Hp [[E Hv]|(s & rq & E & Hw & Hv)].
  { destruct v as [[[res|e]|a']|h]; try done; eapply underway_end; try done; lia. }
  pose proof (sent_snoc _ _ _ _ Hu Hp E Hw) as Hsent. pose proof Hu as [H1 H2].
  assert (length (submissions t') = S (length (submissions t))) as Hl by (rewrite E, length_app; cbn; lia).
  assert (forall r, (unknown_answer s -> retry = false ->
             exists e, r = Ok (Err e) /\ (is_outcome_unknown e \/ e = OX_Closed)) ->
          (forall res, r = Ok (Ok res) -> accepted limits ops s rq res durable) -> execution_ok t' r) as Hend.
  { intros r Hr Ha. constructor; [lia|by apply Hsent| |].
    - intros earlier s' later. rewrite E. intros [(-> & -> & ->)|(later' & _ & Hx)]%snoc_split Hy Hf; [auto|].
      rewrite (H2 s') in Hf; [done| |done]. rewrite Hx. set_solver.
    - intros res ->. exists (submissions t), s, rq. split_and!; [done..|by apply Ha]. }
  destruct v as [[[res|e]|a']|h]; cbn in Hv |- *.
  - apply Hend; [|by intros ? [= <-]]. intros [c Hx]. destruct Hv as [(reply & rep & Hy & _) _]. congruence.
  - apply Hend; [|done]. intros Hx _. exists e. auto.
  - destruct Hv as [Hnext Hv]. rewrite <- E in Hnext.
    replace (Z.of_nat (length (submissions t)) + 1) with (Z.of_nat (length (submissions t'))) by lia.
    apply IH; [lia| |done]. constructor; [by apply Hsent|]. intros s'. rewrite E.
    intros [Hs|Hs%list_elem_of_singleton]%elem_of_app; [by apply H2|by subst].
  - apply Hend; [|done]. intros Hx Hf. rewrite Hv in Hf; done.
Qed.

Lemma attempts_start (body : Z -> AttemptState -> CP Verdict) a t :
  submissions t = [] ->
  (forall a t, ready (submissions t) a ->
     always see_client (body (Z.of_nat (length (submissions t))) a) t (post t)) ->
  ready [] a -> always see_client (attempts body MAX_ATTEMPTS 0 a) t execution_ok.
Proof.
  intros E Hbody Hready. pose proof (attempts_ok body Hbody MAX_ATTEMPTS a t) as H. rewrite E in H.
  apply H; [done|by apply underway_start|done].
Qed.
End Attempts.

(** ** Execution of operations *)

Section Theorems.
  Context {base64 : Base64Engine}.

(** Where the object of a request is, in a map. *)
Definition resolve_request (hash : option Z) (m : OSDMap) (rq : Request) : result PlaceFault ObjectPlacement :=
  match hash with
  | None => place_object m (rq_pool_id rq) (rq_object rq) (rq_locator rq) (rq_namespace rq)
  | Some hash => place_raw_hash m (rq_pool_id rq) hash
  end.

(** Where a reply sends the client instead. *)
Definition redirect_of (limits : OsdLimits) (s : Submitted) : option Redirect :=
  match sb_answer s with
  | Ok reply => match decode_reply reply limits with Ok rep => rp_redirect rep | Err _ => None end
  | Err _ => None
  end.

(** The target after the submissions so far: the caller's, as their redirects
    have changed it. *)
Definition current_target (limits : OsdLimits) (t : Target) (earlier : list Submitted) : Target :=
  foldl (fun t s => match redirect_of limits s with Some rd => redirected t rd | None => t end) t earlier.

(** Only mutations carry the snapshots of their target. *)
Definition starting_target (mutation : bool) (t : Target) : Target :=
  if mutation then t
  else mkTarget (tg_pool_id t) (tg_object t) (tg_locator t) (tg_namespace t) (tg_snapshot t) 0 [].

Definition request_target (rq : Request) : Target :=
  mkTarget (rq_pool_id rq) (rq_object rq) (rq_locator rq) (rq_namespace rq) (rq_snapshot rq)
    (rq_snapshot_sequence rq) (rq_write_snapshots rq).

(** A request and its submission are for the current target; its transaction is
    the caller's, but for a mutation that was redirected. *)
Record addressed_to (limits : OsdLimits) (t : Target) (hash : option Z) (transaction_id : Z) (mutation : bool)
    (earlier : list Submitted) (s : Submitted) (rq : Request) : Prop := {
  ad_target : request_target rq = current_target limits (starting_target mutation t) earlier;
  ad_object : sb_object s = mkHObject (rq_locator rq) (rq_object rq) (rq_snapshot rq)
    (default (rq_object_hash rq) hash) false (rq_namespace rq) (rq_pool_id rq);
  ad_transaction : (mutation = true -> Forall (fun s => redirect_of limits s = None) earlier) ->
    rq_transaction_id rq = transaction_id;
  ad_mutation : sb_mutation s = mutation
}.

(** What an attempt takes over from the earlier ones. *)
Record pursuing (limits : OsdLimits) (t : Target) (transaction_id : Z) (mutation : bool)
    (earlier : list Submitted) (a : AttemptState) : Prop := {
  pu_target : at_target a = current_target limits (starting_target mutation t) earlier;
  pu_transaction : (mutation = true -> Forall (fun s => redirect_of limits s = None) earlier) ->
    at_transaction a = transaction_id;
  pu_flags : earlier = [] -> Z.land (at_flags a) FLAG_RETRY = 0
}.

Lemma pursuing_on limits t transaction_id mutation earlier a s flags prior :
  pursuing limits t transaction_id mutation earlier a -> redirect_of limits s = None ->
  pursuing limits t transaction_id mutation (earlier ++ [s]) (mkAttemptState (at_target a) (at_transaction a) flags prior).
Proof.
  intros [H1 H2 H3] Hs. constructor; cbn; [| |by intros [_ ?]%app_eq_nil].
  - unfold current_target in *. rewrite foldl_app. cbn. by rewrite Hs.
  - intros H. apply H2. intros Hm. by apply H, Forall_app in Hm as [? _].
Qed.

Lemma pursuing_redirect limits t transaction_id mutation earlier a s rd id flags prior :
  pursuing limits t transaction_id mutation earlier a -> redirect_of limits s = Some rd ->
  (mutation = false -> id = at_transaction a) ->
  pursuing limits t transaction_id mutation (earlier ++ [s]) (mkAttemptState (redirected (at_target a) rd) id flags prior).
Proof.
  intros [H1 H2 H3] Hs Hid. constructor; cbn; [| |by intros [_ ?]%app_eq_nil].
  - unfold current_target in *. rewrite foldl_app. cbn. by rewrite Hs, H1.
  - intros H. destruct mutation; [|rewrite Hid by done; by apply H2].
    specialize (H eq_refl). apply Forall_app in H as [_ H]. apply Forall_inv in H. congruence.
Qed.

Section Routed.
  Context (limits : OsdLimits) (target : Target) (ops : list Operation) (transaction_id : Z) (mutation : bool).

Abbreviation hash := (op ← head ops; Operation_route_hash op).
Abbreviation routed_ok := (execution_ok (resolve_request hash) (addressed_to limits target hash transaction_id mutation)
  limits ops (contains_durable_mutation ops) (forallb allows_unknown_retry ops)).
Abbreviation routed_post := (attempt_post (resolve_request hash) (addressed_to limits target hash transaction_id mutation)
  (pursuing limits target transaction_id mutation) limits ops (contains_durable_mutation ops)
  (forallb allows_unknown_retry ops)).

Lemma routed_attempt_post fuel incarnation a t :
  pursuing limits target transaction_id mutation (submissions t) a ->
  always see_client (routed_attempt fuel limits ops hash mutation incarnation (Z.of_nat (length (submissions t))) a) t
    (routed_post t).
Proof.
  intros Ha. unfold routed_attempt.
  assert (forall t' e, submissions t' = submissions t -> always see_client (fail e) t' (routed_post t)) as Hfail
    by (intros; by left).
  turn closed. destruct closed; [apply Hfail; by rewrite submissions_app, app_nil_r|].
  eapply (always_silent _ _ _ _ (fun _ _ => True)); [silent|eapply always_mono; [|apply always_any]; by intros ? []| |].
  2:{ intros t' h _ E. left. by rewrite E, submissions_app, app_nil_r. }
  intros t1 [[]|e] _ E1 _; cbn [or_unknown or_fail map_err].
  2:{ apply Hfail. by rewrite E1, submissions_app, app_nil_r. }
  rewrite submissions_app, app_nil_r in E1.
  eapply always_silent; [unfold wait_for_usable_route; silent|apply route_found| |intros t' h _ E; left; by rewrite E].
  intros t2 [[m p]|e] _ E2 Hr; cbn [or_unknown or_fail map_err]; [|apply Hfail; congruence].
  destruct Hr as (Hm & Hres & Hp).
  destruct (osd_client_addresses m (acting_primary p)) as [addresses|] eqn:Eadr; [|apply Hfail; congruence].
  assert (forall s flags prior, redirect_of limits s = None -> pursuing limits target transaction_id mutation (submissions t ++ [s])
    (mkAttemptState (at_target a) (at_transaction a) flags prior)) as Hon by (intros; by apply pursuing_on).
  apply (send_attempt (resolve_request hash) _ limits ops _ _ _ t t2 m p); [congruence|done|done|done| | | |].
  - intros gid. cbn [rq_operations rq_retry rq_flags rq_map_epoch rq_pg rq_shard]. split_and!; try done.
    apply retry_flags_spec. intros Hl. by eapply pu_flags, nil_length_inv.
  - intros gid s Hs Hmu. constructor; cbn; [rewrite <- (pu_target _ _ _ _ _ _ Ha); by destruct (at_target a)|done| |done].
    by eapply pu_transaction.
  - intros sid [reply|e]; unfold wait_for_primary_change; silent.
  - intros sid [reply|e] gid t3 s Hs; [apply receive_reply_verdict; try done|apply receive_error_verdict; [done|]].
    + intros rep Hrep. assert (redirect_of limits s = rp_redirect rep) as Hrd by (unfold redirect_of; by rewrite Hs, Hrep).
      destruct (rp_redirect rep) as [rd|]; [|by apply Hon]. intros id Hid. by apply (pursuing_redirect _ _ _ _ _ a).
    + intros prior. apply Hon. unfold redirect_of. by rewrite Hs.
Qed.

Lemma execute_always fuel :
  always see_client (execute_routed fuel limits target ops transaction_id mutation) [] routed_ok.
Proof.
  unfold execute_routed, await. turn incarnation.
  assert (forall r, (forall res, r <> Ok (Ok res)) -> routed_ok ([] ++ [V_Other]) r) as Hend.
  { intros r Hr. apply (underway_end _ _ _ _ _ _ []); [by apply underway_start|cbn; lia|apply prefix_nil|done|done]. }
  destruct incarnation as [incarnation|e]; [|by apply Hend]. cbn [question].
  destruct (existsb _ _); [by apply Hend|].
  eapply attempts_start; [done|by apply routed_attempt_post|].
  constructor; [done|done|]. intros _. cbn [at_flags]. unfold vector_flag. by repeat case_match.
Qed.
End Routed.

(** The same for a request on a placement group. *)
Definition resolve_pg (pg : PG) (m : OSDMap) (rq : Request) : result PlaceFault ObjectPlacement :=
  place_raw_hash m (pg_pool pg) (pg_seed pg).

Record addressed_pg (pg : PG) (transaction_id : Z) (earlier : list Submitted) (s : Submitted) (rq : Request) : Prop := {
  ap_target : request_target rq = mkTarget (pg_pool pg) [] [] [] NO_SNAP 0 [];
  ap_object : sb_object s = mkHObject [] [] NO_SNAP (rq_object_hash rq) false [] (pg_pool pg);
  ap_transaction : rq_transaction_id rq = transaction_id
}.

Definition pursuing_pg (transaction_id : Z) (earlier : list Submitted) (a : AttemptState) : Prop :=
  at_transaction a = transaction_id /\ (earlier = [] -> Z.land (at_flags a) FLAG_RETRY = 0).

Lemma pursuing_pg_on transaction_id earlier a s target flags prior :
  pursuing_pg transaction_id earlier a ->
  pursuing_pg transaction_id (earlier ++ [s]) (mkAttemptState target (at_transaction a) flags prior).
Proof. intros [H _]. split; [done|]. by intros [_ ?]%app_eq_nil. Qed.

Lemma receive_pg_verdict limits ops attempt pg osd sid epoch a retry next rq s reply t :
  sb_answer s = Ok reply -> rq_object rq = [] -> pg = rq_pg rq ->
  (forall flags, next (mkAttemptState (at_target a) (at_transaction a) flags None)) ->
  always see_client (receive_pg_reply limits ops attempt pg osd sid epoch a reply) t
    (fun _ v => verdict_ok limits ops false retry next rq s v).
Proof.
  intros Ha Ho -> Hn. assert (~ unknown_answer s) as Hu by (intros [c Hc]; congruence).
  unfold receive_pg_reply. destruct (decode_reply reply limits) as [rep|] eqn:Ed;
    [|turn u; cbn; intros H; by destruct Hu].
  destruct (validate_target _ _ _ _) as [[]|] eqn:Ev; [|turn u; cbn; intros H; by destruct Hu].
  apply validate_target_inv in Ev as [Hv1 Hv2].
  destruct (rp_redirect rep) as [redirect|] eqn:Er.
  - cbn. split; [apply Hn|]. intros H. by destruct Hu.
  - eapply judge_verdict; [done..|congruence|done|done|apply Hn].
Qed.

Section PlacementGroup.
  Context (limits : OsdLimits) (pg : PG) (ops : list Operation) (transaction_id : Z).

Abbreviation pg_ok := (execution_ok (resolve_pg pg) (addressed_pg pg transaction_id) limits ops false
  (forallb allows_unknown_retry ops)).
Abbreviation pg_post := (attempt_post (resolve_pg pg) (addressed_pg pg transaction_id) (pursuing_pg transaction_id)
  limits ops false (forallb allows_unknown_retry ops)).

Lemma pg_attempt_post incarnation a t :
  pursuing_pg transaction_id (submissions t) a ->
  always see_client (pg_attempt limits pg ops incarnation (Z.of_nat (length (submissions t))) a) t (pg_post t).
Proof.
  intros Ha. unfold pg_attempt.
  assert (forall t' e, submissions t' = submissions t -> always see_client (fail e) t' (pg_post t)) as Hfail
    by (intros; by left).
  turn closed. destruct closed; [apply Hfail; by rewrite submissions_app, app_nil_r|].
  eapply (always_silent _ _ _ _ (fun _ _ => True)); [silent|eapply always_mono; [|apply always_any]; by intros ? []| |].
  2:{ intros t' h _ E. left. by rewrite E, submissions_app, app_nil_r. }
  intros t1 [[]|e] _ E1 _; cbn [or_unknown or_fail map_err].
  2:{ apply Hfail. by rewrite E1, submissions_app, app_nil_r. }
  rewrite submissions_app, app_nil_r in E1. unfold pg_route. turn snapshot.
  assert (submissions (t1 ++ [V_Snapshot snapshot]) = submissions t) as E2
    by (by rewrite submissions_app, app_nil_r).
  destruct snapshot as [m|]; [|by apply Hfail]. destruct (pool_by_id m (pg_pool pg)) as [pool|]; [|by apply Hfail].
  destruct (place_raw_hash m (pg_pool pg) (pg_seed pg)) as [p|[]] eqn:Ep;
    cbn [placed mbind Prog_bind or_unknown or_fail map_err]; [|by apply Hfail|by left|by left].
  destruct (Z.ltb_spec (acting_primary p) 0) as [|Hp]; [by apply Hfail|].
  destruct (osd_client_addresses m (acting_primary p)) as [addresses|] eqn:Ea; [|by apply Hfail].
  apply (send_attempt (resolve_pg pg) _ limits ops _ _ _ t _ m p); [done|apply snoc_in|done|done| | | |].
  - intros gid. cbn [rq_operations rq_retry rq_flags rq_map_epoch rq_pg rq_shard]. split_and!; try done.
    apply retry_flags_spec. intros Hl. by apply (proj2 Ha), nil_length_inv.
  - intros gid s Hs _. constructor; [done|done|apply Ha].
  - intros sid [reply|e]; unfold wait_for_pg_primary_change; silent.
  - intros sid [reply|e] gid t3 s Hs; [apply receive_pg_verdict; try done|apply receive_error_verdict; [done|]];
      intros; by apply (pursuing_pg_on _ _ a).
Qed.
End PlacementGroup.

(** The execution of operations on a placement group submits at most four
    requests, each for the placement of that group in a map the client holds and
    on a session with its acting primary; and a success stands on the reply to
    the last of them, which answers every operation. *)
Theorem execute_pg_sound answer limits pg ops :
  let (t, r) := run see_client answer (execute_pg_routed limits pg ops) [] in
  exists transaction_id,
    execution_ok (resolve_pg pg) (addressed_pg pg transaction_id) limits ops false (forallb allows_unknown_retry ops) t r.
Proof.
  set (p := execute_pg_routed _ _ _).
  enough (always see_client p [] (fun t r => exists transaction_id, execution_ok (resolve_pg pg)
    (addressed_pg pg transaction_id) limits ops false (forallb allows_unknown_retry ops) t r)) as H.
  { apply (always_run _ answer) in H. by destruct (run see_client answer p []). }
  assert (forall t r, submissions t = [] -> (forall res, r <> Ok (Ok res)) -> exists transaction_id,
    execution_ok (resolve_pg pg) (addressed_pg pg transaction_id) limits ops false (forallb allows_unknown_retry ops) t r) as Hend.
  { intros t r Ht Hr. exists 0. apply (underway_end _ _ _ _ _ _ []); [by apply underway_start|cbn; lia|apply prefix_nil|done|done]. }
  unfold p, execute_pg_routed, await. turn closed. destruct closed; [by apply Hend|].
  destruct (_ || _); [by apply Hend|]. destruct (_ <=? _); [by apply Hend|].
  turn transaction. destruct transaction as [transaction|]; [|by apply Hend]. cbn [question].
  turn incarnation. destruct incarnation as [incarnation|]; [|by apply Hend]. cbn [question].
  eapply always_mono; [|eapply (attempts_start _ (addressed_pg pg transaction)); [done|by apply pg_attempt_post|]].
  - intros t r H. by exists transaction.
  - split; [done|]. intros _. cbn [at_flags]. unfold vector_flag. by case_match.
Qed.
End Theorems.

(** ** Mutations are accounted for *)

Definition is_accounting (o : ClientObs) : bool :=
  match o with V_Round _ | V_Complete _ _ => true | _ => false end.

#[export] Instance accounting_ignores : Ignores is_accounting.
Proof. done. Qed.

(** The sequence numbers of the mutations admitted, and the completions. *)
Definition admitted (t : list ClientObs) : list Z :=
  omap (fun o => match o with V_Round (Ok (Some (sequence, _))) => Some sequence | _ => None end) t.

Definition completed (t : list ClientObs) : list (Z * option OsdError) :=
  omap (fun o => match o with V_Complete sequence e => Some (sequence, e) | _ => None end) t.

Lemma admitted_filter t : admitted t = admitted (List.filter is_accounting t).
Proof.
  unfold admitted. induction t as [|o t IH]; [done|]. destruct o as [| | | |[[[]|]|]| |]; cbn; congruence.
Qed.

Lemma completed_filter t : completed t = completed (List.filter is_accounting t).
Proof. unfold completed. induction t as [|o t IH]; [done|]. destruct o; cbn; congruence. Qed.

Lemma silent_on_panic P {A} (p q : CP A) : silent_on P p -> silent_on P q -> silent_on P (on_panic p q).
Proof.
  intros Hp Hq t. apply always_on_panic. eapply always_mono; [|apply Hp].
  intros t' [a|[]] E; [done| |done]. eapply always_mono; [|apply Hq]. intros t2 r ->. done.
Qed.

Section Mutations.
  Context {base64 : Base64Engine}.

Lemma silent_attempts P body : (forall i a, silent_on P (body i a)) ->
  forall n i a, silent_on P (attempts body n i a).
Proof.
  intros Hb. induction n as [|n IH]; intros i a; cbn [attempts]; [apply silent_Ret|].
  apply silent_bind; [apply Hb|]. intros [r|a']; [apply silent_Ret|apply IH].
Qed.

Lemma silent_execute P `{!Ignores P} fuel limits target ops transaction_id mutation :
  (forall s, P (V_Submit s) = false) ->
  silent_on P (execute_routed fuel limits target ops transaction_id mutation).
Proof.
  intros HP. assert (forall sid pg object m mut routed, silent_on P (call (C_Submit sid pg object m mut routed)))
    by (intros; apply silent_call; intros; apply HP).
  unfold execute_routed. apply silent_await; [silent|]. intros incarnation. case_match; [silent|].
  apply silent_attempts. intros i a. unfold routed_attempt, send_request, or_unknown, or_fail, fail.
  unfold wait_for_usable_route, wait_for_primary_change. silent.
Qed.

Lemma admission_counts retained : forall fuel t,
  always see_client (admit_rounds fuel retained) t (fun t' r =>
    completed t' = completed t /\ submissions t' = submissions t /\
    match r with
    | Ok (Ok (sequence, _)) => admitted t' = admitted t ++ [sequence]
    | Ok (Err _) => admitted t' = admitted t
    | Err h => h = StillRunning /\ admitted t' = admitted t
    end).
Proof.
  assert (forall t o, completed (t ++ [o]) = completed t ++ completed [o]) as Hc by (intros; apply omap_app).
  assert (forall t o, admitted (t ++ [o]) = admitted t ++ admitted [o]) as Ha by (intros; apply omap_app).
  induction fuel as [|fuel IH]; intros t; cbn [admit_rounds]; [done|]. unfold await, checked_options.
  turn v. cbn [mbind Prog_bind]. destruct (check_options v); cbn [question].
  2:{ cbn. rewrite Hc, Ha, submissions_app. cbn. by rewrite !app_nil_r. }
  turn admission. destruct admission as [[[sequence transaction]|]|e]; cbn [question].
  - cbn. rewrite !Hc, !Ha, !submissions_app. cbn. by rewrite !app_nil_r.
  - turn w. destruct (waited w); cbn [question].
    + eapply always_mono; [|apply IH]. intros t' r. rewrite !Hc, !Ha, !submissions_app. cbn. by rewrite !app_nil_r.
    + cbn. rewrite !Hc, !Ha, !submissions_app. cbn. by rewrite !app_nil_r.
  - cbn. rewrite !Hc, !Ha, !submissions_app. cbn. by rewrite !app_nil_r.
Qed.

Definition error_of {A} (r : result OsdError A) : option OsdError :=
  match r with Ok _ => None | Err e => Some e end.

(** C13. A mutation is accounted for exactly once, whatever happens to it: before
    it is admitted nothing is submitted; once it is admitted it is completed
    with the very error its caller sees, even when its task panics; and a
    mutation that is refused is not completed. *)
Theorem mutation_completed answer fuel limits target ops :
  let (t, r) := run see_client answer (mutate_operations fuel limits target ops) [] in
  (length (admitted t) <= 1)%nat /\ (admitted t = [] -> submissions t = [])
  /\ match r with
     | Ok res =>
         completed t = (fun sequence => (sequence, error_of res)) <$> admitted t
         /\ (is_ok res = true -> admitted t <> [])
     | Err h => h = StillRunning /\ completed t = []
     end.
Proof.
  set (p := mutate_operations _ _ _ _).
  enough (always see_client p [] (fun t r => (length (admitted t) <= 1)%nat /\ (admitted t = [] -> submissions t = [])
    /\ match r with
       | Ok res =>
           completed t = (fun sequence => (sequence, error_of res)) <$> admitted t
           /\ (is_ok res = true -> admitted t <> [])
       | Err h => h = StillRunning /\ completed t = []
       end)) as H.
  { apply (always_run _ answer) in H. by destruct (run see_client answer p []). }
  unfold p, mutate_operations. apply always_question; [|by intros e _; cbn; split_and!; try done; lia].
  intros retained _. unfold await, admit_mutation. case_match; [by cbn; split_and!; try done; lia|].
  apply always_bind. eapply always_mono; [|apply admission_counts].
  intros t1 [[[sequence transaction]|e]|h] (Hc & Hs & Ha); cbn in Hc, Hs, Ha.
  2:{ cbn. rewrite Ha, Hc. split_and!; try done; cbn; lia. }
  2:{ destruct Ha as [-> Ha]. rewrite Ha, Hc. split_and!; try done; cbn; lia. }
  cbn [question]. unfold mutation_task. apply always_bind.
  set (task := on_panic _ _).
  assert (always see_client task t1 (fun _ r => r <> Err Panicked)) as Hp.
  { apply always_on_panic. eapply always_mono; [|apply always_prefix]. by intros t' [|[]] _. }
  assert (silent_on is_accounting task) as Hq by (apply silent_on_panic; [by apply silent_execute; try apply _|apply silent_Ret]).
  eapply always_mono; [|exact (always_and _ _ _ _ _ (Hq t1) Hp)]. intros t2 r [E Hr].
  assert (admitted t2 = [sequence] /\ completed t2 = []) as [Ha2 Hc2].
  { by rewrite admitted_filter, completed_filter, E, <- admitted_filter, <- completed_filter. }
  destruct r as [res|[]]; [|done|].
  - turn u. cbn. unfold admitted, completed, submissions in *. rewrite !omap_app, Ha2, Hc2. cbn. by split_and!.
  - rewrite Ha2, Hc2. by split_and!.
Qed.
End Mutations.

(** ** Commands *)

Definition is_direct (o : ClientObs) : bool := match o with V_Direct _ _ _ => true | _ => false end.

#[export] Instance direct_ignores : Ignores is_direct.
Proof. done. Qed.

(** The messages sent to OSDs for commands, with their answers. *)
Record Directed : Type := mkDirected {
  di_session : Z;
  di_message : Message;
  di_answer : result OsdError Message
}.

Definition directs (t : list ClientObs) : list Directed :=
  omap (fun o => match o with V_Direct session m r => Some (mkDirected session m r) | _ => None end) t.

Lemma directs_filter t : directs t = directs (List.filter is_direct t).
Proof. unfold directs. induction t as [|o t IH]; [done|]. destruct o; cbn; congruence. Qed.

Lemma directs_app t t' : directs (t ++ t') = directs t ++ directs t'.
Proof. apply omap_app. Qed.

Lemma always_direct {A B} (p : CP A) (f : A -> CP B) t (Q : list ClientObs -> result Halted B -> Prop)
    (R : list ClientObs -> A -> Prop) :
  silent_on is_direct p -> always see_client p t (fun t' r => match r with Ok a => R t' a | Err _ => True end) ->
  (forall t' a, t `prefix_of` t' -> directs t' = directs t -> R t' a -> always see_client (f a) t' Q) ->
  (forall t' h, t `prefix_of` t' -> directs t' = directs t -> Q t' (Err h)) -> always see_client (p ≫= f) t Q.
Proof.
  intros Hp Hr Hf He. apply always_bind.
  eapply always_weaken; [exact (always_and _ _ _ _ _ (Hp t) Hr)|]. intros t' r Hpre [E H].
  assert (directs t' = directs t) as E' by by rewrite directs_filter, E, <- directs_filter.
  destruct r; auto.
Qed.

Lemma always_direct_any {A B} (p : CP A) (f : A -> CP B) t (Q : list ClientObs -> result Halted B -> Prop) :
  silent_on is_direct p ->
  (forall t' a, t `prefix_of` t' -> directs t' = directs t -> always see_client (f a) t' Q) ->
  (forall t' h, t `prefix_of` t' -> directs t' = directs t -> Q t' (Err h)) -> always see_client (p ≫= f) t Q.
Proof.
  intros Hp Hf He. eapply (always_direct _ _ _ _ (fun _ _ => True)); [done| |by auto|done].
  eapply always_mono; [|apply always_any]. by intros ? [].
Qed.

(** The OSD a command is for, in a map: the one named, or the acting primary of
    the placement group. *)
Definition command_osd {base64 : Base64Engine} (m : OSDMap) (target : CommandTarget) (osd : Z) : Prop :=
  match target with
  | CT_Osd id => osd = id
  | CT_PG pg => exists p, place_raw_hash m (pg_pool pg) (pg_seed pg) = Ok p
      /\ osd = acting_primary p /\ 0 <= acting_primary p
  end.

Section Commands.
  Context {base64 : Base64Engine} (limits : OsdLimits) (target : CommandTarget) (request : CommandRequest).

(** The request, on a session with the OSD the command is for in a seen map. *)
Record well_directed (t : list ClientObs) (d : Directed) : Prop := {
  wd_encoded : encode_command_request request (ol_max_bytes limits) = Ok (di_message d);
  wd_session : exists m osd addresses address endpoint,
    V_Snapshot (Some m) ∈ t /\ command_osd m target osd /\ osd_client_addresses m osd = Some addresses
    /\ first_endpoint addresses = Ok (Some (address, endpoint)) /\ V_Session osd endpoint (Ok (di_session d)) ∈ t
}.

(** The errors after which a command is not sent again. *)
Definition gives_up (e : OsdError) : Prop := e = OX_Timeout \/ e = OX_Cancelled \/ e = OX_QueueSaturated.

(** A reply to the command, and what it says. *)
Definition command_answered (reply : Message) (res : CommandResult) : Prop :=
  exists rep, decode_osd_command_reply reply (ol_max_bytes limits) = Ok rep
    /\ oc_transaction_id rep = cq_transaction_id request
    /\ res = mkCommandResult (oc_result rep) (oc_status rep) (oc_output rep).

(** Why a command may be sent again: the OSD asked for it, or the session failed
    it for another reason than the caller's. *)
Definition asks_again (a : result OsdError Message) : Prop :=
  match a with
  | Ok reply => exists res, command_answered reply res /\ cmr_result res = EAGAIN
  | Err e => ~ gives_up e
  end.

(** What a command guarantees. *)
Record command_ok (t : list ClientObs) (r : result Halted (result OsdError (CommandResult * option OsdError))) : Prop := {
  co_bounded : (length (directs t) <= MAX_ATTEMPTS)%nat;
  co_sent : Forall (well_directed t) (directs t);
  co_again : forall earlier d later, directs t = earlier ++ d :: later -> later <> [] -> asks_again (di_answer d);
  co_gives_up : forall d e, d ∈ directs t -> di_answer d = Err e -> gives_up e -> r = Ok (Err e);
  co_result : forall res e, r = Ok (Ok (res, e)) -> exists d reply,
    last (directs t) = Some d /\ di_answer d = Ok reply /\ command_answered reply res /\ cmr_result res <> EAGAIN
    /\ e = if cmr_result res <? 0 then Some (OX_WireErrno (cmr_result res)) else None
}.

(** The attempts so far. *)
Record command_underway (t : list ClientObs) : Prop := {
  cu_sent : Forall (well_directed t) (directs t);
  cu_again : Forall (fun d => asks_again (di_answer d)) (directs t)
}.

Lemma well_directed_mono t t' d : t `prefix_of` t' -> well_directed t d -> well_directed t' d.
Proof.
  intros Hp [H1 (m & osd & l & a & e & Hm & H2 & H3 & H4 & Hs)]. constructor; [done|].
  exists m, osd, l, a, e. split_and!; try done; by eapply elem_of_prefix.
Qed.

Lemma command_end t t' r :
  command_underway t -> (length (directs t) <= MAX_ATTEMPTS)%nat -> t `prefix_of` t' -> directs t' = directs t ->
  (forall res, r <> Ok (Ok res)) -> command_ok t' r.
Proof.
  intros [H1 H2] Hi Hp E Hr. rewrite Forall_forall in H2. constructor; rewrite ?E; [lia| | | |].
  - eapply Forall_impl; [exact H1|]. intros d. by apply well_directed_mono.
  - intros earlier d later Hd _. apply H2. rewrite Hd. set_solver.
  - intros d e Hd He Hg. specialize (H2 d Hd). rewrite He in H2. by destruct H2.
  - intros res e ->. by destruct (Hr (res, e)).
Qed.

(** What one attempt may say of the answer to its request. *)
Definition command_verdict (a : result OsdError Message)
    (r : result Halted (result OsdError (option (CommandResult * option OsdError)))) : Prop :=
  match r with
  | Ok (Ok None) => asks_again a
  | Ok (Ok (Some (res, e))) => exists reply, a = Ok reply /\ command_answered reply res /\ cmr_result res <> EAGAIN
      /\ e = if cmr_result res <? 0 then Some (OX_WireErrno (cmr_result res)) else None
  | Ok (Err e) => forall e', a = Err e' -> gives_up e' -> e = e'
  | Err _ => forall e', a = Err e' -> ~ gives_up e'
  end.

Lemma command_reply_post route sid reply t :
  always see_client (osd_command_reply limits (cq_transaction_id request) route sid reply) t (fun t' r =>
    directs t' = directs t /\ command_verdict (Ok reply) r).
Proof.
  unfold osd_command_reply. destruct (decode_osd_command_reply _ _) as [rep|] eqn:Ed.
  2:{ turn u. cbn. by rewrite directs_app, app_nil_r. }
  destruct (Z.eqb_spec (oc_transaction_id rep) (cq_transaction_id request)) as [Ht|]; cbn [negb].
  2:{ turn u. cbn. by rewrite directs_app, app_nil_r. }
  set (res := mkCommandResult (oc_result rep) (oc_status rep) (oc_output rep)).
  assert (command_answered reply res) as Hres by (by exists rep). clearbody res.
  destruct (Z.eqb_spec (cmr_result res) EAGAIN) as [Hr|Hr].
  { unfold await. apply always_direct_any; [silent| |by split]. intros t' [[]|e] _ E; (split; [done|]); [by exists res|done]. }
  destruct (cmr_result res <? 0) eqn:El; (split; [done|]); exists reply; rewrite El; by split_and!.
Qed.

Definition command_post (t t' : list ClientObs) (r : result Halted (result OsdError (option (CommandResult * option OsdError))))
    : Prop :=
  directs t' = directs t /\ match r with Ok (Ok _) => False | _ => True end
  \/ exists d, directs t' = directs t ++ [d] /\ well_directed t' d /\ command_verdict (di_answer d) r.

Lemma silent_command_route P `{!Ignores P} m : silent_on P (resolve_command_route m target).
Proof. unfold resolve_command_route. silent. Qed.

Lemma command_route_found m t :
  always see_client (resolve_command_route m target) t (fun _ r =>
    match r with
    | Ok (Ok route) => command_osd m target (cr_primary route)
        /\ osd_client_addresses m (cr_primary route) = Some (cr_addresses route)
    | _ => True
    end).
Proof.
  unfold resolve_command_route. destruct target as [id|pg].
  - by destruct (osd_client_addresses m id) as [addresses|] eqn:Ea.
  - destruct (_ || _); [done|]. unfold await. apply always_bind.
    destruct (place_raw_hash m (pg_pool pg) (pg_seed pg)) as [p|[]] eqn:Ep; cbn [placed always question]; try done.
    destruct (Z.ltb_spec (acting_primary p) 0); [done|].
    destruct (osd_client_addresses m (acting_primary p)) as [addresses|] eqn:Ea; [|done]. cbn.
    split; [by exists p|done].
Qed.

(** The end of an attempt whose request was sent. *)
Lemma command_answer_post route sid d t t' :
  directs t' = directs t ++ [d] -> well_directed t' d ->
  always see_client
    match di_answer d with
    | Ok reply => osd_command_reply limits (cq_transaction_id request) route sid reply
    | Err OX_QueueSaturated => Ret (Err OX_QueueSaturated)
    | Err (OX_OutcomeUnknown cause) => Ret (Err (OX_OutcomeUnknown cause))
    | Err e =>
        _ ← call (C_Invalidate (cr_primary route) sid);
        match e with
        | OX_Timeout | OX_Cancelled => Ret (Err e)
        | _ => await (best_effort_refresh_map (cr_epoch route)) (fun _ => Ret (Ok None))
        end
    end t' (command_post t).
Proof.
  intros E Hd.
  assert (forall t2 r, t' `prefix_of` t2 -> directs t2 = directs t' -> command_verdict (di_answer d) r ->
    command_post t t2 r) as Hend.
  { intros t2 r Hp E2 Hr. right. exists d. rewrite E2. split_and!; [done|by eapply well_directed_mono|done]. }
  destruct (di_answer d) as [reply|e] eqn:Ea.
  { eapply always_weaken; [apply command_reply_post|]. intros t2 r Hp [E2 Hr]. by apply Hend. }
  assert (forall t2, t' `prefix_of` t2 -> directs t2 = directs t' -> ~ gives_up e ->
    always see_client (await (best_effort_refresh_map (cr_epoch route)) (fun _ => Ret (Ok None))) t2 (command_post t))
    as Hagain.
  { intros t2 Hp E2 Hg. unfold await. apply always_direct_any; [silent| |].
    - intros t3 [[]|e'] Hp3 E3; (apply Hend; [by etrans|congruence|]); [done|]. by intros e2 [= <-].
    - intros t3 h Hp3 E3. apply Hend; [by etrans|congruence|]. by intros e2 [= <-]. }
  assert (t' `prefix_of` t' ++ [V_Other] /\ directs (t' ++ [V_Other]) = directs t') as [Hp1 E1].
  { split; [by eexists|]. by rewrite directs_app, app_nil_r. }
  assert (gives_up e -> forall t2, t' `prefix_of` t2 -> directs t2 = directs t' -> command_post t t2 (Ok (Err e))) as Hstop.
  { intros _ t2 Hp E2. apply Hend; [done..|]. by intros e2 [= <-]. }
  destruct e; first [apply Hstop; [unfold gives_up; tauto|done|done]
    |turn u; apply Hagain; [done|done|unfold gives_up; naive_solver]
    |turn u; apply Hstop; [unfold gives_up; tauto|done|done]|idtac].
  apply Hend; [done..|]. intros e2 [= <-]. unfold gives_up. naive_solver.
Qed.

Lemma command_attempt_post t : always see_client (command_attempt limits target request) t (command_post t).
Proof.
  assert (forall t' r, directs t' = directs t -> match r with Ok (Ok _) => False | _ => True end ->
            command_post t t' r) as Hend by (by left).
  unfold command_attempt. turn closed. destruct closed; [apply Hend; [by rewrite directs_app, app_nil_r|done]|].
  unfold await. apply always_direct_any; [silent| |].
  2:{ intros t' h _ E. apply Hend; [by rewrite E, directs_app, app_nil_r|done]. }
  intros t1 options _ E1. rewrite directs_app, app_nil_r in E1.
  apply always_question; [|intros e _; by apply Hend]. intros _ _. turn snapshot.
  assert (directs (t1 ++ [V_Snapshot snapshot]) = directs t) as E2 by (by rewrite directs_app, app_nil_r).
  destruct snapshot as [m|]; [|by apply Hend].
  eapply always_direct; [apply silent_command_route, _|apply command_route_found| |intros t' h _ E; apply Hend; [congruence|done]].
  intros t2 [route|e] Hp2 E3 Hroute; [|apply Hend; [congruence|done]]. destruct Hroute as [Hosd Hadr]. cbn [question].
  destruct (encode_command_request request (ol_max_bytes limits)) as [message|] eqn:Em; cbn [map_err question];
    [|apply Hend; [congruence|done]].
  eapply always_direct; [silent|apply session_found| |intros t' h _ E; apply Hend; [congruence|done]].
  intros t3 [sid|e] Hp3 E4 Hsid; [|apply Hend; [congruence|done]]. cbn [question].
  destruct Hsid as (address & endpoint & Hep & Hin).
  turn answer. set (d := mkDirected sid message answer). set (t4 := t3 ++ _).
  assert (directs t4 = directs t ++ [d]) as E5 by (unfold t4; by rewrite directs_app, E4, E3, E2).
  assert (well_directed t4 d) as Hd.
  { constructor; [done|]. exists m, (cr_primary route), (cr_addresses route), address, endpoint.
    split_and!; try done; apply elem_of_app; left; [|done].
    eapply elem_of_prefix; [|exact Hp3]. eapply elem_of_prefix; [|exact Hp2]. apply snoc_in. }
  change answer with (di_answer d). clearbody t4. apply (command_answer_post route sid d t t4 E5 Hd).
Qed.

Lemma command_attempts_ok : forall n t,
  (length (directs t) + n = MAX_ATTEMPTS)%nat -> command_underway t ->
  always see_client (command_attempts limits target request n) t command_ok.
Proof.
  induction n as [|n IH]; intros t Hi Hu; cbn [command_attempts]; [eapply command_end; try done; lia|].
  unfold await. apply always_bind. eapply always_weaken; [apply command_attempt_post|].
  intros t' r Hp [[E Hr]|(d & E & Hd & Hv)].
  { destruct r as [[|e]|h]; [done| |]; cbn [question]; eapply command_end; try done; lia. }
  pose proof Hu as [H1 H2].
  assert (length (directs t') = S (length (directs t))) as Hl by (rewrite E, length_app; cbn; lia).
  assert (Forall (well_directed t') (directs t')) as Hs.
  { rewrite E. apply Forall_app. split; [|by constructor]. eapply Forall_impl; [exact H1|].
    intros d'. by apply well_directed_mono. }
  assert (forall r', (forall e, di_answer d = Err e -> gives_up e -> r' = Ok (Err e)) ->
            (forall res e, r' = Ok (Ok (res, e)) -> command_verdict (di_answer d) (Ok (Ok (Some (res, e))))) ->
            command_ok t' r') as Hend.
  { intros r' Hg Hr'. rewrite Forall_forall in H2. constructor; [lia|done| | |]; rewrite E.
    - intros earlier d' later [(-> & _ & _)|(later' & _ & Hx)]%snoc_split Hne; [done|]. apply H2. rewrite Hx. set_solver.
    - intros d' e [Hx|Hx%list_elem_of_singleton]%elem_of_app He Hge; [|subst; by apply Hg].
      specialize (H2 d' Hx). rewrite He in H2. by destruct H2.
    - intros res e Hx. destruct (Hr' res e Hx) as (reply & Hy). exists d, reply. by rewrite last_snoc. }
  destruct r as [[[[res e]|]|e]|h]; cbn [question].
  - apply Hend; [|by intros res' e' [= <- <-]]. destruct Hv as (reply & -> & _). congruence.
  - apply IH; [lia|]. constructor; [done|]. rewrite E. apply Forall_app. by split; [|constructor].
  - apply Hend; [|done]. intros e' He Hg. by rewrite (Hv e' He Hg).
  - apply Hend; [|done]. intros e' He Hg. by destruct (Hv e' He).
Qed.
End Commands.

(** ** The client with its sessions *)

(** The calls of the client, and those its sessions make on their own. *)
Inductive FullE : Type -> Type :=
| F_Client (X : Type) (e : ClientE X) : FullE X
| F_Session (session : Z) (X : Type) (e : SubmitE X) : FullE X.
Arguments F_Client {X} e.
Arguments F_Session session {X} e.

Inductive FullObs : Type :=
| U_Client (o : ClientObs)
| U_Session (session : Z) (o : SubmitObs).

Definition see_full (X : Type) (e : FullE X) : X -> FullObs :=
  match e in FullE X return X -> FullObs with
  | F_Client e => fun x => U_Client (see_client _ e x)
  | F_Session session e => fun x => U_Session session (see_submit _ e x)
  end.

Definition on_session (session : Z) {A} (p : Prog SubmitE A) : Prog FullE A :=
  interp (fun X e => call (F_Session session e)) p.

Lemma on_session_always session {A} (p : Prog SubmitE A) u Q :
  always see_submit p [] Q ->
  always see_full (on_session session p) u (fun u' r => exists t, u' = u ++ (U_Session session <$> t) /\ Q t r).
Proof.
  intros H. pose proof (always_embed see_submit see_full (fun X e => F_Session session e) (U_Session session)
    (fun _ _ _ => eq_refl) p [] u Q H) as H'. cbn [fmap list_fmap] in H'. by rewrite app_nil_r in H'.
Qed.

(** A submission is [submit_routed] or [submit_direct] of the session it is for. *)
Definition with_sessions (rounds : nat) (X : Type) (e : ClientE X) : Prog FullE X :=
  match e in ClientE X return Prog FullE X with
  | C_Submit session pg object m mutation routed =>
      on_session session (submit_routed rounds pg object m mutation routed)
  | C_SubmitDirect session m => on_session session (submit_direct m)
  | e => call (F_Client e)
  end.

(** What a session does for a submission. *)
Definition submitted_as (s : Submitted) (x : list SubmitObs) : Prop :=
  orderly (sb_pg s) (sb_object s) (sb_message s) x
  /\ match sb_answer s with
     | Ok reply => delivered (sb_message s) x reply
     | Err e => sb_mutation s = true -> uncertain x -> is_outcome_unknown e \/ stale x e
     end.

(** One observation of the client, and what it is in the trace of both. *)
Definition plays (o : ClientObs) (w : list FullObs) : Prop :=
  match o with
  | V_Submit s => exists x, w = U_Session (sb_session s) <$> x /\ submitted_as s x
  | V_Direct session m answer => exists x, w = U_Session session <$> x /\ direct_post m x answer
  | o => w = [U_Client o]
  end.

(** The trace of both is that of the client, with every submission replaced by
    what its session does. *)
Definition played (t : list ClientObs) (u : list FullObs) : Prop :=
  exists w, u = concat w /\ Forall2 plays t w.

Lemma played_snoc t u o w : played t u -> plays o w -> played (t ++ [o]) (u ++ w).
Proof.
  intros (l & -> & Hl) Ho. exists (l ++ [w]). rewrite concat_app. cbn. rewrite app_nil_r. split; [done|].
  apply Forall2_app; [done|by constructor].
Qed.

Lemma with_sessions_played rounds X (e : ClientE X) t u :
  played t u ->
  always see_full (with_sessions rounds X e) u (fun u' r =>
    match r with Ok x => played (t ++ [see_client X e x]) u' | Err _ => True end).
Proof.
  intros H. destruct e; cbn [with_sessions]; try (intros x; by apply played_snoc).
  - eapply always_mono; [|apply on_session_always, submit_always].
    intros u' [answer|h] (x & -> & Hx); [|done]. apply played_snoc; [done|]. by exists x.
  - eapply always_mono; [|apply on_session_always, direct_always].
    intros u' [answer|h] (x & -> & Hx); [|done]. apply played_snoc; [done|]. by exists x.
Qed.

Lemma run_played {A} rounds answer (p : CP A) (Q : list ClientObs -> result Halted A -> Prop) :
  always see_client p [] Q ->
  let (u, r) := run see_full answer (interp (with_sessions rounds) p) [] in
  forall a, r = Ok a -> exists t, played t u /\ Q t (Ok a).
Proof.
  intros HQ. assert (played [] []) as H0 by (by exists []).
  pose proof (always_interp see_client see_full (with_sessions rounds) played p [] [] _ (with_sessions_played rounds) H0 HQ) as H.
  apply (always_run _ answer) in H. destruct (run see_full answer _ []) as [u r]. by intros a ->.
Qed.

(** Where an observation of the client is in the trace of both. *)
Lemma played_in t u o : played t u -> o ∈ t -> exists w, plays o w /\ forall f, f ∈ w -> f ∈ u.
Proof.
  intros (l & -> & Hl) [i Hi]%list_elem_of_lookup_1. destruct (Forall2_lookup_l _ _ _ _ _ Hl Hi) as (w & Hw & Ho).
  exists w. split; [done|]. intros f Hf. apply list_elem_of_In, in_concat. exists w.
  split; apply list_elem_of_In; [by eapply list_elem_of_lookup_2|done].
Qed.

Lemma played_client t u o :
  played t u -> o ∈ t -> is_submission o = false -> is_direct o = false -> U_Client o ∈ u.
Proof.
  intros Hp Ho H1 H2. destruct (played_in _ _ _ Hp Ho) as (w & Hw & Hin). apply Hin.
  destruct o; try done; cbn in Hw; subst w; by apply list_elem_of_singleton.
Qed.

Lemma delivered_in session m x reply (u : list FullObs) :
  (forall f, f ∈ (U_Session session <$> x) -> f ∈ u) -> delivered m x reply ->
  exists q, U_Session session (O_Admitted m (Ok q)) ∈ u /\ U_Session session (O_Ended q (Ok (Some reply))) ∈ u.
Proof. intros Hin (q & H1 & H2). exists q. split; by apply Hin, list_elem_of_fmap_2. Qed.

Lemma submission_in t s : s ∈ submissions t -> V_Submit s ∈ t.
Proof. unfold submissions. intros (o & Ho & E)%list_elem_of_omap. by destruct o; simplify_eq. Qed.

Lemma direct_in t d : d ∈ directs t -> V_Direct (di_session d) (di_message d) (di_answer d) ∈ t.
Proof. unfold directs. intros (o & Ho & E)%list_elem_of_omap. by destruct o; simplify_eq. Qed.

Lemma played_delivery t u s reply :
  played t u -> s ∈ submissions t -> sb_answer s = Ok reply ->
  exists q, U_Session (sb_session s) (O_Admitted (sb_message s) (Ok q)) ∈ u
    /\ U_Session (sb_session s) (O_Ended q (Ok (Some reply))) ∈ u.
Proof.
  intros Hp Hs%submission_in Ha. destruct (played_in _ _ _ Hp Hs) as (w & (x & -> & _ & Hx) & Hin).
  rewrite Ha in Hx. by eapply delivered_in.
Qed.

Lemma played_direct t u d reply :
  played t u -> d ∈ directs t -> di_answer d = Ok reply ->
  exists q, U_Session (di_session d) (O_Admitted (di_message d) (Ok q)) ∈ u
    /\ U_Session (di_session d) (O_Ended q (Ok (Some reply))) ∈ u.
Proof.
  intros Hp Hd%direct_in Ha. destruct (played_in _ _ _ Hp Hd) as (w & (x & -> & _ & Hx) & Hin).
  rewrite Ha in Hx. by eapply delivered_in.
Qed.

(** The targets a caller's target may become by the redirects delivered. *)
Inductive redirects_to (limits : OsdLimits) (u : list FullObs) (t : Target) : Target -> Prop :=
| rt_start : redirects_to limits u t t
| rt_redirected t' session q reply rep rd :
    redirects_to limits u t t' -> U_Session session (O_Ended q (Ok (Some reply))) ∈ u ->
    decode_reply reply limits = Ok rep -> rp_redirect rep = Some rd ->
    redirects_to limits u t (redirected t' rd).

Lemma current_target_redirects limits t u target : forall earlier,
  played t u -> (forall s, s ∈ earlier -> s ∈ submissions t) ->
  redirects_to limits u target (current_target limits target earlier).
Proof.
  induction earlier as [|s earlier IH] using rev_ind; intros Hp Hin; [constructor|].
  unfold current_target in *. rewrite foldl_app. cbn. assert (s ∈ submissions t) as Hs by (apply Hin; set_solver).
  specialize (IH Hp (fun s' H => Hin s' ltac:(set_solver))). unfold redirect_of.
  destruct (sb_answer s) as [reply|] eqn:Ea; [|done]. destruct (decode_reply reply limits) as [rep|] eqn:Ed; [|done].
  destruct (rp_redirect rep) as [rd|] eqn:Er; [|done].
  destruct (played_delivery _ _ _ _ Hp Hs Ea) as (q & _ & Hq). by eapply rt_redirected.
Qed.

(** C2. From the caller to the wire: when the client executes operations on an
    object over its sessions, a success it reports is what a reply says that the
    message session delivered for a request it admitted.  The request carries
    those operations for the caller's target, or for the one that delivered
    redirects made of it, is for the placement group that target has in a map
    the client held, and was admitted on a session with the acting primary of
    that placement, at the first usable of the addresses the map has for it.
    The reply names the object and the placement group and answers every
    operation, and the result of a mutation that reports zero is on disk. *)
Theorem execute_end_to_end {base64 : Base64Engine} answer rounds fuel limits target ops transaction_id mutation :
  let (u, r) := run see_full answer
    (interp (with_sessions rounds) (execute_routed fuel limits target ops transaction_id mutation)) [] in
  forall res, r = Ok (Ok res) -> exists session q rq m reply rep map p addresses address endpoint,
    redirects_to limits u (starting_target mutation target) (request_target rq)
    /\ encode_request rq limits = Ok m /\ rq_operations rq = ops
    /\ U_Client (V_Snapshot (Some map)) ∈ u /\ rq_map_epoch rq = om_epoch map
    /\ resolve_target (request_target rq) (op ← head ops; Operation_route_hash op) map = Ok p
    /\ rq_pg rq = pl_pg p /\ rq_shard rq = primary_shard p
    /\ 0 <= acting_primary p /\ osd_client_addresses map (acting_primary p) = Some addresses
    /\ first_endpoint addresses = Ok (Some (address, endpoint))
    /\ U_Client (V_Session (acting_primary p) endpoint (Ok session)) ∈ u
    /\ U_Session session (O_Admitted m (Ok q)) ∈ u /\ U_Session session (O_Ended q (Ok (Some reply))) ∈ u
    /\ decode_reply reply limits = Ok rep /\ rp_object rep = rq_object rq /\ rp_pg rep = rq_pg rq
    /\ rp_redirect rep = None /\ 0 <= rp_result rep
    /\ (contains_durable_mutation ops = true -> rp_result rep = 0 -> Z.land (rp_flags rep) FLAG_ON_DISK <> 0)
    /\ res = mkCompoundResult (rp_operations rep) (rp_version rep) /\ Forall2 answers ops (cp_operations res).
Proof.
  pose proof (run_played rounds answer _ _ (execute_always limits target ops transaction_id mutation fuel)) as H.
  destruct (run see_full answer _ []) as [u r]. intros res ->. destruct (H _ eq_refl) as (t & Hp & Hok).
  destruct (ex_success _ _ _ _ _ _ _ _ Hok res eq_refl) as (earlier & s & rq & Hs & Hw & [(reply & rep & Ha & Hrep) Hops]).
  assert (s ∈ submissions t) as Hin by (rewrite Hs; apply snoc_in).
  destruct Hrep as (Hdec & Ho & Hpg & Hrd & Hres & -> & Hdisk).
  destruct Hw as [Henc Hop _ _ [Htgt _ _ _] _ (map & p & l & a & e & Hm & Hep & Hpl & Hplpg & Hsh & Hpr & Hl & Hfe & Hse)].
  destruct (played_delivery _ _ _ _ Hp Hin Ha) as (q & Hq1 & Hq2).
  exists (sb_session s), q, rq, (sb_message s), reply, rep, map, p, l, a, e. split_and!; try done.
  - rewrite Htgt. eapply current_target_redirects; [done|]. intros s' Hs'. rewrite Hs. set_solver.
  - by eapply played_client.
  - by eapply played_client.
Qed.

Lemma execute_no_commands {base64 : Base64Engine} fuel limits target ops transaction_id mutation :
  always see_client (execute_routed fuel limits target ops transaction_id mutation) [] (fun t _ => directs t = []).
Proof.
  eapply always_mono; [|by apply (silent_execute is_direct)]. intros t r E. by rewrite directs_filter, E.
Qed.

(** A submission of which some copy ended with an unknown outcome is the last
    one, and reported, unless a copy of it was answered or the session had
    failed over a stale map. *)
Definition outcome_kept (t : list ClientObs) (w : list (list FullObs)) (r : result OsdError CompoundResult) : Prop :=
  forall i s x, t !! i = Some (V_Submit s) -> w !! i = Some (U_Session (sb_session s) <$> x) -> uncertain x ->
    is_ok (sb_answer s) = true
    \/ sb_answer s = Err OX_StaleMap /\ stale x OX_StaleMap
    \/ submissions (drop (S i) t) = [] /\ exists e, r = Err e /\ (is_outcome_unknown e \/ e = OX_Closed).

#[export] Instance session_inj session : Inj eq eq (U_Session session).
Proof. by intros ? ? [= ->]. Qed.

Lemma submitted_outcome s x :
  submitted_as s x -> sb_mutation s = true -> uncertain x ->
  is_ok (sb_answer s) = true \/ sb_answer s = Err OX_StaleMap /\ stale x OX_StaleMap \/ unknown_answer s.
Proof.
  intros [_ Hx] Hm Hu. destruct (sb_answer s) as [reply|e] eqn:Ea; [by left|right].
  destruct (Hx Hm Hu) as [[cause ->]|Hs]; [right; by exists cause|left]. pose proof Hs as [-> _]. by split.
Qed.


(** A command, whatever it meets. *)
Lemma command_always {base64 : Base64Engine} limits target command input :
  always see_client (submit_command limits target command input) [] (fun t r => exists snapshot transaction_id,
    (directs t <> [] -> V_Snapshot snapshot ∈ t)
    /\ command_ok limits target (mkCommandRequest (default (replicate 16 x00) (om_fsid <$> snapshot)) transaction_id command input) t r).
Proof.
  assert (forall t r, directs t = [] -> (forall res, r <> Ok (Ok res)) -> exists snapshot transaction_id,
    (directs t <> [] -> V_Snapshot snapshot ∈ t)
    /\ command_ok limits target (mkCommandRequest (default (replicate 16 x00) (om_fsid <$> snapshot)) transaction_id command input) t r) as Hend.
  { intros t r Ht Hr. exists None, 0. split; [by rewrite Ht|]. apply (command_end _ _ _ []); [by constructor|cbn; lia|apply prefix_nil|done|done]. }
  unfold submit_command, await. turn closed. destruct closed; [by apply Hend|]. case_match; [by apply Hend|].
  turn transaction. destruct transaction as [transaction|]; [|by apply Hend]. cbn [question]. turn snapshot.
  eapply always_weaken; [apply command_attempts_ok; [done|by constructor]|].
  intros t r Hp Hok. exists snapshot, transaction. split; [intros _; eapply elem_of_prefix; [|done]; apply snoc_in|].
  by destruct snapshot.
Qed.

(** C22. A command to an OSD or a placement group is sent at most four times,
    always as the same request, with one transaction and the cluster's identity,
    on a session with that OSD, or with the acting primary of that group, in a
    map the client holds.  It is sent again only when the OSD answers that it
    should be, or when its session fails it for another reason than the caller's
    deadline or cancellation or a full queue, with which the command fails.  The
    result, status and output it reports are those of the last reply, for its
    transaction, with the error its result means; and over the sessions
    themselves that reply was delivered for the request, on such a session. *)
Theorem command_sound {base64 : Base64Engine} limits target command input :
  let p := submit_command limits target command input in
  let request snapshot transaction_id :=
    mkCommandRequest (default (replicate 16 x00) (om_fsid <$> snapshot)) transaction_id command input in
  (forall answer, let (t, r) := run see_client answer p [] in exists snapshot transaction_id,
     (directs t <> [] -> V_Snapshot snapshot ∈ t) /\ command_ok limits target (request snapshot transaction_id) t r)
  /\ (forall rounds answer, let (u, r) := run see_full answer (interp (with_sessions rounds) p) [] in
     forall res e, r = Ok (Ok (res, e)) -> exists snapshot transaction_id session q m reply map osd addresses address endpoint,
       U_Client (V_Snapshot snapshot) ∈ u
       /\ encode_command_request (request snapshot transaction_id) (ol_max_bytes limits) = Ok m
       /\ U_Client (V_Snapshot (Some map)) ∈ u /\ command_osd map target osd
       /\ osd_client_addresses map osd = Some addresses /\ first_endpoint addresses = Ok (Some (address, endpoint))
       /\ U_Client (V_Session osd endpoint (Ok session)) ∈ u
       /\ U_Session session (O_Admitted m (Ok q)) ∈ u /\ U_Session session (O_Ended q (Ok (Some reply))) ∈ u
       /\ command_answered limits (request snapshot transaction_id) reply res /\ cmr_result res <> EAGAIN
       /\ e = if cmr_result res <? 0 then Some (OX_WireErrno (cmr_result res)) else None).
Proof.
  intros p request. pose proof (command_always limits target command input) as H. fold p in H.
  split; [intros answer; apply (always_run _ answer) in H; by destruct (run see_client answer p [])|].
  intros rounds answer. apply (run_played rounds answer) in H. destruct (run see_full answer _ []) as [u r].
  intros res e ->. destruct (H _ eq_refl) as (t & Hp & snapshot & transaction & Hsn & Hok).
  destruct (co_result _ _ _ _ _ Hok res e eq_refl) as (d & reply & Hl & Ha & Hans & Hr & He).
  assert (d ∈ directs t) as Hd by (by apply last_Some_elem_of).
  pose proof (co_sent _ _ _ _ _ Hok) as Hs. rewrite Forall_forall in Hs.
  destruct (Hs d Hd) as [Henc (map & osd & l & a & ep & Hm & Hosd & Hadr & Hep & Hse)].
  destruct (played_direct _ _ _ _ Hp Hd Ha) as (q & Hq1 & Hq2).
  exists snapshot, transaction, (di_session d), q, (di_message d), reply, map, osd, l, a, ep.
  split_and!; try done; eapply played_client; try done. apply Hsn. by intros E; rewrite E in Hd; apply elem_of_nil in Hd.
Qed.

(** ** Outcomes that are not preserved *)

(** An environment with one map, whose sessions admit every request and lose its
    connection. *)
Definition losing_environment (m : OSDMap) (X : Type) (e : FullE X) (u : list FullObs) : X :=
  match e in FullE X return X with
  | F_Client e =>
      match e in ClientE X return X with
      | C_Closed => false
      | C_Options => mkOptionsView false false
      | C_Clock => true
      | C_Terminal => false
      | C_Snapshot => Some m
      | C_Refresh _ => RF_Done
      | C_Session _ _ => Ok 1
      | C_Invalidate _ _ => tt
      | C_GlobalId => 1
      | C_Incarnation => Ok 1
      | C_Transaction => Ok 1
      | C_Submit _ _ _ _ _ _ => Err OX_NotConnected
      | C_SubmitDirect _ _ => Err OX_NotConnected
      | C_Round _ => Err OX_Closed
      | C_Changed => W_Timeout
      | C_Complete _ _ => tt
      end
  | F_Session _ e => lost_environment _ e []
  end.

(** The requests on the sessions, and how they ended. *)
Definition on_wire (u : list FullObs) : list FullObs :=
  List.filter (fun o => match o with U_Session _ (O_Admitted _ _ | O_Ended _ _) => true | _ => false end) u.

Section Resent.
  Context {base64 : Base64Engine} (limits : OsdLimits) (osd : Z) (map : OSDMap) (addresses : list EntityAddr)
    (found : EntityAddr * SocketAddr) (request : CommandRequest) (message : Message)
    (Hadr : osd_client_addresses map osd = Some addresses) (Hfound : first_endpoint addresses = Ok (Some found))
    (Hmessage : encode_command_request request (ol_max_bytes limits) = Ok message).

Abbreviation losing A := (run see_full (losing_environment map) (A := A)).

Ltac evaluate := cbn -[encode_command_request osd_client_addresses first_endpoint].

Lemma lost_attempt {A} (k : result OsdError (option (CommandResult * option OsdError)) -> CP A) u :
  exists u', losing A (interp (with_sessions 1) (command_attempt limits (CT_Osd osd) request ≫= k)) u
    = losing A (interp (with_sessions 1) (k (Ok None))) (u ++ u')
  /\ on_wire u' = [U_Session 1 (O_Admitted message (Ok 1)); U_Session 1 (O_Ended 1 (Err SE_OutcomeUnknown))].
Proof.
  eexists. split.
  - unfold command_attempt. evaluate. rewrite Hadr.
    evaluate. rewrite Hmessage.
    evaluate. unfold usable_endpoint. rewrite Hfound.
    evaluate. rewrite bool_decide_false by done. cbn. rewrite <- !app_assoc. reflexivity.
  - reflexivity.
Qed.

Lemma lost_attempts : forall n u, exists u',
  losing _ (interp (with_sessions 1) (command_attempts limits (CT_Osd osd) request n)) u
    = (u ++ u', Ok (Err OX_RecoveryExhausted))
  /\ on_wire u' = concat (replicate n
       [U_Session 1 (O_Admitted message (Ok 1)); U_Session 1 (O_Ended 1 (Err SE_OutcomeUnknown))]).
Proof.
  induction n as [|n IH]; intros u; cbn [command_attempts].
  { exists []. by rewrite app_nil_r. }
  unfold await. destruct (lost_attempt (fun r => question r (fun done =>
    match done with Some r => Ret (Ok r) | None => command_attempts limits (CT_Osd osd) request n end)) u) as (u1 & E1 & H1).
  cbn [question] in E1. destruct (IH (u ++ u1)) as (u2 & E2 & H2).
  exists (u1 ++ u2). rewrite E1, E2, app_assoc. split; [done|].
  unfold on_wire in *. rewrite List.filter_app, H1, H2. done.
Qed.
End Resent.

(** A command whose every copy was dispatched and has an unknown outcome is sent
    four times, and fails as if it had only run out of attempts. *)
Lemma command_resent {base64 : Base64Engine} limits osd command input map addresses found message :
  command <> [] -> osd_client_addresses map osd = Some addresses -> first_endpoint addresses = Ok (Some found) ->
  encode_command_request (mkCommandRequest (om_fsid map) 1 command input) (ol_max_bytes limits) = Ok message ->
  let (u, r) := run see_full (losing_environment map)
    (interp (with_sessions 1) (submit_command limits (CT_Osd osd) command input)) [] in
  r = Ok (Err OX_RecoveryExhausted)
  /\ on_wire u
     = concat (replicate 4 [U_Session 1 (O_Admitted message (Ok 1)); U_Session 1 (O_Ended 1 (Err SE_OutcomeUnknown))]).
Proof.
  intros Hc Ha He Hm. assert ((zlen command =? 0) = false) as Hz by (by destruct command).
  unfold submit_command. cbn [call mbind Prog_bind interp with_sessions run losing_environment]. rewrite Hz.
  cbn [question await call mbind Prog_bind interp with_sessions run losing_environment see_full see_client].
  destruct (lost_attempts limits osd map addresses found (mkCommandRequest (om_fsid map) 1 command input) message Ha He Hm
    4 ((([] ++ [U_Client V_Other]) ++ [U_Client V_Other]) ++ [U_Client (V_Snapshot (Some map))])) as (u' & E & Hu).
  change MAX_ATTEMPTS with 4%nat. rewrite E. split; [done|]. unfold on_wire in *. by rewrite List.filter_app, Hu.
Qed.

(** A mutation whose only request ended with an unknown outcome is reported as
    [Closed] when the client has been closed meanwhile, and counts as definite. *)
Lemma closing_hides_outcome retry change osd sid epoch a cause (answer : forall X, ClientE X -> list ClientObs -> X)
    t s sequence :
  at_prior a = None -> (forall t, answer bool C_Closed t = true) ->
  (run see_client answer (failed_attempt retry change osd sid epoch a (OX_OutcomeUnknown cause)) t).2
  = Ok (Finished (Err OX_Closed))
  /\ earliest_unknown (complete_mutation_state s sequence (Some OX_Closed)).2 = earliest_unknown s.
Proof.
  intros Hp Hc. split.
  - cbn. rewrite Hc. cbn. by rewrite Hp.
  - unfold complete_mutation_state. by destruct (pending s !! sequence).
Qed.

(** Any reply that names the object and the placement group, a refusal or a
    redirect included, makes the next attempt forget that the outcome of an
    earlier one is unknown. *)
Lemma reply_forgets_outcome limits ops mutation durable attempt pg osd sid epoch a reply t :
  always see_client (receive_reply limits ops mutation durable attempt pg osd sid epoch a reply) t
    (fun _ v => match v with Ok (Again a') => at_prior a' = None | _ => True end).
Proof.
  assert (forall b (p : CR unit) t, at_prior b = None ->
    always see_client (p ≫= fun r => or_fail r (fun _ => Ret (Again b))) t
      (fun _ v => match v with Ok (Again a') => at_prior a' = None | _ => True end)) as Hagain.
  { intros b p t' Hb. apply always_after; [|done]. by intros t1 [[]|e] _. }
  unfold receive_reply. destruct (decode_reply reply limits) as [rep|]; [|by turn u].
  destruct (validate_target _ _ _ _) as [[]|]; [|by turn u].
  destruct (rp_redirect rep) as [redirect|].
  - unfold follow_redirect. destruct mutation; [|done]. turn r. by destruct r.
  - unfold judge_reply. destruct (rp_result rep =? EAGAIN); [by apply Hagain|].
    destruct (validate_operations rep ops) as [[]|]; [|by turn u].
    destruct (existsb _ _); [by apply Hagain|]. destruct (durable && _); [by turn u|].
    unfold conclude. by repeat case_match.
Qed.
