(* ===== verification/MonMessages.v ===== *)
(** * Monitor messages

    Models [src/src/mon/messages.rs]: the requests a client sends to a monitor
    and the replies and maps it receives, with every bound the decoders
    check. *)

From S2P Require Import Prelude Codec Message Address MapBase MonMap OsdMap Incremental Frame BTree.
From Stdlib Require Import ZArith Lia Strings.Byte Strings.String.
From stdpp Require Import base option gmap sorting numbers list.

Open Scope Z_scope.

Definition MESSAGE_MON_MAP : Z := 4.
Definition MESSAGE_STATFS : Z := 13.
Definition MESSAGE_STATFS_REPLY : Z := 14.
Definition MESSAGE_MON_SUBSCRIBE : Z := 15.
Definition MESSAGE_MON_SUBSCRIBE_ACK : Z := 16.
Definition MESSAGE_OSD_MAP : Z := 41.
Definition MESSAGE_POOL_OPERATION_REPLY : Z := 48.
Definition MESSAGE_POOL_OPERATION : Z := 49.
Definition MESSAGE_MON_COMMAND : Z := 50.
Definition MESSAGE_MON_COMMAND_REPLY : Z := 51.
Definition MESSAGE_GET_POOL_STATS : Z := 58.
Definition MESSAGE_GET_POOL_STATS_REPLY : Z := 59.
Definition MESSAGE_MGR_MAP : Z := 0x704.
Definition SUBSCRIBE_ONCE : Z := 1.

Inductive PoolOperation : Type :=
| CreatePool
| DeletePool
| CreateSnapshot
| DeleteSnapshot
| CreateSelfManaged
| DeleteSelfManaged.

Definition PoolOperation_code (op : PoolOperation) : Z :=
  match op with
  | CreatePool => 0x01
  | DeletePool => 0x02
  | CreateSnapshot => 0x11
  | DeleteSnapshot => 0x12
  | CreateSelfManaged => 0x21
  | DeleteSelfManaged => 0x22
  end.

Record StatFsReply : Type := mkStatFsReply {
  sf_fsid : list byte;
  sf_version : Z;
  kib : Z;
  kib_used : Z;
  kib_available : Z;
  sf_objects : Z
}.

Record PoolStats : Type := mkPoolStats {
  bytes_used : Z;
  ps_objects : Z;
  read_bytes : Z;
  write_bytes : Z
}.

(** [pools] is a [BTreeMap] by name. *)
Record PoolStatsReply : Type := mkPoolStatsReply {
  psr_fsid : list byte;
  psr_version : Z;
  psr_pools : list (list byte * PoolStats)
}.

Record PoolOperationReply : Type := mkPoolOperationReply {
  por_fsid : list byte;
  por_result : Z;
  por_epoch : Z;
  response_data : list byte
}.

Record CommandReply : Type := mkCommandReply {
  cr_version : Z;
  cr_result : Z;
  cr_status : list byte;
  cr_command : list (list byte);
  cr_data : list byte
}.

Record Subscription : Type := mkSubscription { sub_start : Z; sub_flags : Z }.

Record SubscribeAck : Type := mkSubscribeAck { interval_seconds : Z; ack_fsid : list byte }.

Record MessageLimits : Type := mkMessageLimits { max_bytes : Z; max_maps : Z }.

(** The maps of a batch are [BTreeMap]s by epoch. *)
Record OSDMapBatch : Type := mkOSDMapBatch {
  batch_fsid : list byte;
  batch_incrementals : list (Z * list byte);
  batch_full_maps : list (Z * list byte);
  batch_trim_lower_bound : Z;
  batch_newest_map : Z
}.

Record DecodedOSDMapBatch : Type := mkDecodedOSDMapBatch {
  decoded_fsid : list byte;
  incrementals : list (Z * OSDMapIncremental);
  full_maps : list (Z * OSDMap);
  trim_lower_bound : Z;
  newest_map : Z
}.

Inductive MessageError : Type :=
| MsE_Wire (e : WireError)
| MsE_Map (e : MapError)
| MsE_Malformed (reason : string)
| MsE_UnsupportedVersion.

(** A decoder of a message's front. *)
Abbreviation MsM := (DM MessageError).

(** ** Shared by the messages *)

Definition front_message (type version compat : Z) (front : list byte) : result MessageError Message :=
  front_length ← ok_or (try_u 32 (zlen front)) (MsE_Wire LimitExceeded);
  Ok (mkMessage (mkMessageHeader 0 0 type 0 version 0 0 0 0 compat 0)
        (mkMessageLengths front_length 0 0) front [] []).

Definition validate_front_message (m : Message) (type max_bytes : Z) : result MessageError unit :=
  if (max_bytes =? 0) || (max_bytes <? zlen (front m)) then Err (MsE_Wire LimitExceeded)
  else if negb (message_type (header m) =? type) then Err (MsE_Malformed "message type")
  else
    front_length ← ok_or (try_u 32 (zlen (front m))) (MsE_Wire LimitExceeded);
    if negb (zlen (middle m) =? 0) || negb (zlen (data m) =? 0)
       || bool_decide (lengths m <> mkMessageLengths front_length 0 0)
    then Err (MsE_Malformed "segment lengths")
    else Ok tt.

Definition validate_message_payload (m : Message) (type max_bytes : Z) : result MessageError unit :=
  if (max_bytes =? 0) || (max_bytes <? zlen (front m)) || (max_bytes <? zlen (data m))
  then Err (MsE_Wire LimitExceeded)
  else if negb (message_type (header m) =? type) then Err (MsE_Malformed "message type")
  else
    f ← ok_or (try_u 32 (zlen (front m))) (MsE_Wire LimitExceeded);
    d ← ok_or (try_u 32 (zlen (data m))) (MsE_Wire LimitExceeded);
    if negb (zlen (middle m) =? 0) || bool_decide (lengths m <> mkMessageLengths f 0 d)
    then Err (MsE_Malformed "segment lengths")
    else Ok tt.

(** [decoder.finish()?]. *)
Definition front_finished : MsM unit := finish_with MsE_Wire.

Definition finish_exact (name : string) : MsM unit :=
  _ ← front_finished;
  left_ ← remaining;
  throw_if (negb (left_ =? 0)) (MsE_Malformed name).

Definition decode_message_fsid : MsM (list byte) :=
  bytes ← rd (fun d => Decoder_raw d 16);
  _ ← throw_if (negb (zlen bytes =? 16)) (MsE_Wire Malformed);
  mret bytes.

(** Runs a decoder on a message's front. *)
Definition on_front {A} (m : Message) (max_bytes : Z) (read : MsM A) : result MessageError A :=
  fst <$> read (Decoder_new (front m) max_bytes).

(** [encoder.finish()?]. *)
Definition encoded (e : Encoder) : result MessageError (list byte) := map_err MsE_Wire (Encoder_finish e).

Definition Encoder_string (e : Encoder) (value : list byte) : Encoder := Encoder_bytes e value.

(** The version, session and transaction a request to a paxos service starts
    with, and the cluster's identity. *)
Definition paxos_request (e : Encoder) (have_version : Z) (fsid : list byte) : Encoder :=
  let e := Encoder_u64 e have_version in
  let e := Encoder_i16 e (-1) in
  let e := Encoder_u64 e 0 in
  Encoder_raw e fsid.

(** ** Requests *)

Definition encode_subscribe (subscriptions : list (list byte * Subscription)) (hostname : list byte)
    (max_bytes : Z) : result MessageError Message :=
  if max_bytes =? 0 then Err (MsE_Wire LimitExceeded)
  else
    count ← ok_or (try_u 32 (zlen subscriptions)) (MsE_Wire LimitExceeded);
    let e := Encoder_u32 (Encoder_new max_bytes) count in
    let e := fold_left (fun e '(name, s) =>
               Encoder_u8 (Encoder_u64 (Encoder_string e name) (sub_start s)) (sub_flags s))
               subscriptions e in
    bytes ← encoded (Encoder_string e hostname);
    front_message MESSAGE_MON_SUBSCRIBE 3 1 bytes.

(** ["delete"]. *)
Definition delete_name : list byte := list_byte_of_string "delete".

Definition valid_pool_operation (op : PoolOperation) (pool snapshot : Z) (name : list byte) : bool :=
  let named := negb (zlen name =? 0) in
  match op with
  | CreatePool => (pool =? 0) && (snapshot =? 0) && named
  | DeletePool => negb (pool =? 0) && (snapshot =? 0) && bool_decide (name = delete_name)
  | CreateSnapshot | DeleteSnapshot => (snapshot =? 0) && named
  | CreateSelfManaged => (snapshot =? 0) && negb named
  | DeleteSelfManaged => negb (snapshot =? 0) && negb named
  end.

Definition encode_pool_operation (fsid : list byte) (have_version pool : Z) (op : PoolOperation)
    (snapshot : Z) (name : list byte) (max_bytes : Z) : result MessageError Message :=
  if negb (valid_pool_operation op pool snapshot name) || (max_bytes =? 0)
  then Err (MsE_Wire Malformed)
  else
    let e := paxos_request (Encoder_new max_bytes) have_version fsid in
    let e := Encoder_u32 e pool in
    let e := Encoder_u32 e (PoolOperation_code op) in
    let e := Encoder_u64 e 0 in
    let e := Encoder_u64 e snapshot in
    let e := Encoder_string e name in
    let e := Encoder_u8 e 0 in
    let e := Encoder_i16 e 0 in
    bytes ← encoded e;
    front_message MESSAGE_POOL_OPERATION 4 2 bytes.

Definition encode_statfs (fsid : list byte) (have_version max_bytes : Z) : result MessageError Message :=
  if max_bytes =? 0 then Err (MsE_Wire LimitExceeded)
  else
    bytes ← encoded (Encoder_u8 (paxos_request (Encoder_new max_bytes) have_version fsid) 0);
    front_message MESSAGE_STATFS 2 1 bytes.

(** The loop over the pool names, which must not be empty. *)
Fixpoint put_pool_names (e : Encoder) (pools : list (list byte)) : result MessageError Encoder :=
  match pools with
  | [] => Ok e
  | pool :: pools =>
      if zlen pool =? 0 then Err (MsE_Wire Malformed) else put_pool_names (Encoder_string e pool) pools
  end.

Definition encode_get_pool_stats (fsid : list byte) (have_version : Z) (pools : list (list byte))
    (max_bytes : Z) : result MessageError Message :=
  if (max_bytes =? 0) || (zlen pools =? 0) then Err (MsE_Wire LimitExceeded)
  else
    count ← ok_or (try_u 32 (zlen pools)) (MsE_Wire LimitExceeded);
    e ← put_pool_names (Encoder_u32 (paxos_request (Encoder_new max_bytes) have_version fsid) count) pools;
    bytes ← encoded e;
    front_message MESSAGE_GET_POOL_STATS 1 0 bytes.

Definition encode_command (fsid : list byte) (command : list (list byte)) (input : list byte)
    (max_bytes : Z) : result MessageError Message :=
  if (max_bytes =? 0) || (max_bytes <? zlen input) then Err (MsE_Wire LimitExceeded)
  else
    count ← ok_or (try_u 32 (zlen command)) (MsE_Wire LimitExceeded);
    let e := Encoder_u32 (paxos_request (Encoder_new max_bytes) 0 fsid) count in
    bytes ← encoded (fold_left Encoder_string command e);
    m ← front_message MESSAGE_MON_COMMAND 1 0 bytes;
    n ← ok_or (try_u 32 (zlen input)) (MsE_Wire LimitExceeded);
    Ok (mkMessage (header m) (mkMessageLengths (front_len (lengths m)) (middle_len (lengths m)) n)
          (front m) (middle m) input).

(** ** Replies *)

Definition decode_paxos_header : MsM Z :=
  version ← rd Decoder_u64;
  _ ← rd Decoder_i16;
  _ ← rd Decoder_u64;
  mret version.

Definition decode_statfs_reply (m : Message) (max_bytes : Z) : result MessageError StatFsReply :=
  _ ← validate_front_message m MESSAGE_STATFS_REPLY max_bytes;
  if (version (header m) <? 1) || (1 <? compat_version (header m)) then Err MsE_UnsupportedVersion
  else
    on_front m max_bytes
      (fsid ← decode_message_fsid;
       version ← rd Decoder_u64;
       kib ← rd Decoder_u64;
       used ← rd Decoder_u64;
       available ← rd Decoder_u64;
       objects ← rd Decoder_u64;
       _ ← finish_exact "statfs reply";
       mret (mkStatFsReply fsid version kib used available objects)).

Record RawPoolStats : Type := mkRawPoolStats {
  num_bytes : Z;
  raw_objects : Z;
  read_kib : Z;
  write_kib : Z;
  hit_set_bytes : Z;
  omap_bytes : Z;
  allocated : Z;
  omap_allocated : Z
}.

(** [decoder.versioned(v)], which must be read without error and be [v]. *)
Definition open_exact (v : Z) : MsM Decoder :=
  vp ← rd (fun d => Decoder_versioned d v);
  _ ← front_finished;
  _ ← throw_if (negb (vp.1 =? v)) MsE_UnsupportedVersion;
  mret vp.2.

(** [if d.finish().is_err() || d.remaining() != 0 { return Err(Malformed(name)) }]. *)
Definition closed (name : string) : MsM unit := fun d =>
  if negb (is_ok (Decoder_finish d)) || negb (Decoder_remaining d =? 0)
  then Err (MsE_Malformed name) else Ok (tt, d).

(** The forty counters of an object statistics sum, four of them 32 bits wide. *)
Definition read_counters : MsM (list Z) :=
  a ← repeat_read 28 (rd Decoder_i64);
  b ← repeat_read 4 (rd Decoder_i32);
  c ← repeat_read 8 (rd Decoder_i64);
  mret (a ++ b ++ c).

Definition counter (values : list Z) (i : nat) : Z := default 0 (values !! i).

Definition skip_object_stat_sum : MsM unit :=
  payload ← open_exact 20;
  inside payload (_ ← read_counters; closed "object stat sum").

(** The counters of the first sum; the sums by category are skipped. *)
Definition decode_stat_collection (max_entries : Z) : MsM (list Z) :=
  sum ← open_exact 20;
  values ← inside sum (v ← read_counters; _ ← closed "pool stats sum"; mret v);
  categories ← rd Decoder_u32;
  _ ← throw_if (max_entries <? categories) (MsE_Wire LimitExceeded);
  _ ← repeat_read (Z.to_nat categories) (_ ← rd Decoder_string; skip_object_stat_sum);
  _ ← closed "pool stats categories";
  mret values.

(** The space allocated for data and for maps. *)
Definition decode_store_stats : MsM (Z * Z) :=
  _ ← repeat_read 3 (rd Decoder_u64);
  allocated ← rd Decoder_i64;
  _ ← repeat_read 4 (rd Decoder_i64);
  omap_allocated ← rd Decoder_i64;
  _ ← rd Decoder_i64;
  _ ← closed "pool stats store";
  mret (allocated, omap_allocated).

Definition decode_pool_stats (max_entries : Z) : MsM RawPoolStats :=
  payload ← open_exact 7;
  inside payload
    (collection ← open_exact 2;
     values ← inside collection (decode_stat_collection max_entries);
     _ ← rd Decoder_i64;
     _ ← rd Decoder_i64;
     _ ← rd Decoder_i32;
     _ ← rd Decoder_i32;
     store ← open_exact 1;
     space ← inside store decode_store_stats;
     _ ← rd Decoder_i32;
     _ ← closed "pool stats payload";
     mret (mkRawPoolStats (counter values 0) (counter values 1) (counter values 8)
             (counter values 10) (counter values 22) (counter values 37) space.1 space.2)).

Definition add_u64_checked (values : list Z) : result MessageError Z :=
  fold_left (fun acc v => sum ← acc; ok_or (checked_add 64 sum v) (MsE_Wire LimitExceeded)) values (Ok 0).

(** The loop over the pools of the reply. *)
Fixpoint read_pool_stats (n : nat) (max_entries : Z) (raw : list (list byte * RawPoolStats))
    : MsM (list (list byte * RawPoolStats)) :=
  match n with
  | O => mret raw
  | S n =>
      name ← rd Decoder_string;
      _ ← throw_if (bool_decide (is_Some (btree_get bytes_compare name raw)))
            (MsE_Malformed "duplicate pool stats entry");
      stats ← decode_pool_stats max_entries;
      read_pool_stats n max_entries (btree_insert bytes_compare name stats raw)
  end.

(** The public statistics of a pool. *)
Definition convert_pool_stats (per_pool : bool) (s : RawPoolStats) : result MessageError PoolStats :=
  if existsb (fun v => v <? 0)
       [num_bytes s; raw_objects s; read_kib s; write_kib s; hit_set_bytes s; omap_bytes s;
        allocated s; omap_allocated s]
  then Err (MsE_Malformed "negative pool stats field")
  else
    used ← (if per_pool
            then add_u64_checked [wrap 64 (allocated s); wrap 64 (omap_allocated s)]
            else add_u64_checked [wrap 64 (num_bytes s); wrap 64 (hit_set_bytes s);
                                  wrap 64 (omap_bytes s)]);
    let rk := wrap 64 (read_kib s) in
    let wk := wrap 64 (write_kib s) in
    if (Z.shiftr u64_max 10 <? rk) || (Z.shiftr u64_max 10 <? wk)
    then Err (MsE_Wire LimitExceeded)
    else Ok (mkPoolStats used (wrap 64 (raw_objects s)) (wrap 64 (Z.shiftl rk 10))
               (wrap 64 (Z.shiftl wk 10))).

Fixpoint convert_all (per_pool : bool) (raw : list (list byte * RawPoolStats))
    (pools : list (list byte * PoolStats)) : result MessageError (list (list byte * PoolStats)) :=
  match raw with
  | [] => Ok pools
  | (name, s) :: raw =>
      stats ← convert_pool_stats per_pool s;
      convert_all per_pool raw (btree_insert bytes_compare name stats pools)
  end.

Definition decode_get_pool_stats_reply (m : Message) (max_bytes max_pools max_entries : Z)
    : result MessageError PoolStatsReply :=
  if (max_pools =? 0) || (max_entries =? 0) then Err (MsE_Wire LimitExceeded)
  else
    _ ← validate_front_message m MESSAGE_GET_POOL_STATS_REPLY max_bytes;
    if (version (header m) =? 0) || (2 <? version (header m)) || (1 <? compat_version (header m))
    then Err MsE_UnsupportedVersion
    else
      '(v, fsid, raw, per_pool) ← on_front m max_bytes
        (v ← decode_paxos_header;
         fsid ← decode_message_fsid;
         count ← rd Decoder_u32;
         _ ← throw_if (max_pools <? count) (MsE_Wire LimitExceeded);
         raw ← read_pool_stats (Z.to_nat count) max_entries [];
         per_pool ← (if 2 <=? version (header m) then rd Decoder_bool else mret false);
         _ ← finish_exact "get pool stats reply";
         mret (v, fsid, raw, per_pool));
      pools ← convert_all per_pool raw [];
      Ok (mkPoolStatsReply fsid v pools).

Definition decode_command_reply (m : Message) (max_bytes max_command_items : Z)
    : result MessageError CommandReply :=
  if max_command_items =? 0 then Err (MsE_Wire LimitExceeded)
  else
    _ ← validate_message_payload m MESSAGE_MON_COMMAND_REPLY max_bytes;
    on_front m max_bytes
      (version ← decode_paxos_header;
       result ← rd Decoder_i32;
       status ← rd Decoder_string;
       count ← rd Decoder_u32;
       _ ← front_finished;
       left_ ← remaining;
       _ ← throw_if ((max_command_items <? count) || (left_ / 4 <? count)) (MsE_Wire LimitExceeded);
       command ← repeat_read (Z.to_nat count) (rd Decoder_string);
       _ ← finish_exact "monitor command acknowledgement";
       mret (mkCommandReply version result status command (data m))).

Definition decode_pool_operation_reply (m : Message) (max_bytes : Z)
    : result MessageError PoolOperationReply :=
  _ ← validate_front_message m MESSAGE_POOL_OPERATION_REPLY max_bytes;
  if 1 <? compat_version (header m) then Err MsE_UnsupportedVersion
  else
    on_front m max_bytes
      (_ ← decode_paxos_header;
       fsid ← decode_message_fsid;
       result ← rd Decoder_i32;
       epoch ← rd Decoder_u32;
       has_response_data ← rd Decoder_u8;
       response ← (if has_response_data =? 0 then mret []
                   else if has_response_data =? 1 then rd Decoder_bytes
                   else throw (MsE_Malformed "pool operation response-data flag"));
       _ ← finish_exact "pool operation reply";
       mret (mkPoolOperationReply fsid result epoch response)).

Definition decode_allocated_snapshot_id (bytes : list byte) (max_bytes : Z) : result MessageError Z :=
  fst <$>
    (snapshot ← rd Decoder_u64;
     _ ← finish_exact "allocated snapshot ID";
     _ ← throw_if (snapshot =? 0) (MsE_Malformed "zero allocated snapshot ID");
     mret snapshot) (Decoder_new bytes max_bytes).

Definition decode_subscribe_ack (m : Message) (max_bytes : Z) : result MessageError SubscribeAck :=
  _ ← validate_front_message m MESSAGE_MON_SUBSCRIBE_ACK max_bytes;
  on_front m max_bytes
    (interval ← rd Decoder_u32;
     fsid ← decode_message_fsid;
     _ ← finish_exact "subscribe acknowledgement";
     mret (mkSubscribeAck interval fsid)).

(** ** Maps *)

Definition decode_monmap_message (m : Message) (limits : MapLimits) : result MessageError MonMap :=
  _ ← validate_front_message m MESSAGE_MON_MAP (ml_bytes limits);
  encoded ← on_front m (ml_bytes limits) (b ← rd Decoder_bytes; _ ← finish_exact "monmap"; mret b);
  map_err MsE_Map (decode_monmap encoded limits).

Definition decode_mgrmap_message (m : Message) (limits : MapLimits) : result MessageError MgrMap :=
  _ ← validate_front_message m MESSAGE_MGR_MAP (ml_bytes limits);
  if negb (version (header m) =? 1) || negb (compat_version (header m) =? 1)
  then Err MsE_UnsupportedVersion
  else map_err MsE_Map (decode_mgrmap (front m) limits).

(** The loop over the encoded maps. *)
Fixpoint read_map_blobs (n : nat) (values : list (Z * list byte)) : MsM (list (Z * list byte)) :=
  match n with
  | O => mret values
  | S n =>
      epoch ← rd Decoder_u32;
      value ← rd Decoder_bytes;
      _ ← front_finished;
      _ ← throw_if (bool_decide (is_Some (btree_get Z.compare epoch values)))
            (MsE_Malformed "duplicate osdmap epoch");
      read_map_blobs n (btree_insert Z.compare epoch value values)
  end.

Definition decode_map_blobs (maximum : Z) : MsM (list (Z * list byte)) :=
  count ← rd Decoder_u32;
  _ ← front_finished;
  _ ← throw_if (maximum <? count) (MsE_Wire LimitExceeded);
  left_ ← remaining;
  _ ← throw_if (left_ / 8 <? count) (MsE_Wire Malformed);
  read_map_blobs (Z.to_nat count) [].

Definition decode_osdmap_batch (m : Message) (limits : MessageLimits) : result MessageError OSDMapBatch :=
  if (max_bytes limits =? 0) || (max_maps limits =? 0) then Err (MsE_Wire LimitExceeded)
  else
    _ ← validate_front_message m MESSAGE_OSD_MAP (max_bytes limits);
    if (version (header m) <? 3) || (4 <? compat_version (header m)) then Err MsE_UnsupportedVersion
    else
      on_front m (max_bytes limits)
        (fsid ← decode_message_fsid;
         incrementals ← decode_map_blobs (max_maps limits);
         full_maps ← decode_map_blobs (max_maps limits);
         trim ← rd Decoder_u32;
         newest ← rd Decoder_u32;
         gap ← (if 4 <=? version (header m) then rd Decoder_u32 else mret 0);
         _ ← throw_if (negb (gap =? 0)) MsE_UnsupportedVersion;
         _ ← finish_exact "osdmap";
         mret (mkOSDMapBatch fsid incrementals full_maps trim newest)).

Definition validate_map_identity (expected_fsid : list byte) (expected_epoch : Z) (fsid : list byte)
    (epoch : Z) : result MessageError unit :=
  if bool_decide (fsid <> expected_fsid) then Err (MsE_Map ME_FsidMismatch)
  else if negb (epoch =? expected_epoch) then Err (MsE_Map ME_InvalidSequence)
  else Ok tt.

Section Batch.
  Context {crc_crate : Crc32cCrate}.

(** The loop over the maps of one kind. *)
Fixpoint decode_blobs {M} (decode : list byte -> MapLimits -> result MapError M) (fsid_of : M -> list byte)
    (epoch_of : M -> Z) (fsid : list byte) (limits : MapLimits) (blobs : list (Z * list byte))
    (acc : list (Z * M)) : result MessageError (list (Z * M)) :=
  match blobs with
  | [] => Ok acc
  | (epoch, bytes) :: blobs =>
      map ← map_err MsE_Map (decode bytes limits);
      _ ← validate_map_identity fsid epoch (fsid_of map) (epoch_of map);
      decode_blobs decode fsid_of epoch_of fsid limits blobs (btree_insert Z.compare epoch map acc)
  end.

Definition decode_osdmap_batch_maps (batch : OSDMapBatch) (limits : MapLimits)
    : result MessageError DecodedOSDMapBatch :=
  incrementals ← decode_blobs decode_osdmap_incremental in_fsid in_epoch (batch_fsid batch) limits
                   (batch_incrementals batch) [];
  full_maps ← decode_blobs decode_osdmap om_fsid om_epoch (batch_fsid batch) limits
                (batch_full_maps batch) [];
  Ok (mkDecodedOSDMapBatch (batch_fsid batch) incrementals full_maps (batch_trim_lower_bound batch)
        (batch_newest_map batch)).

End Batch.

(** ** What the decoders give *)

(** A decoded map has the batch's identity and the epoch it is listed under. *)
Definition identified {M} (decode : list byte -> MapLimits -> result MapError M) (fsid_of : M -> list byte)
    (epoch_of : M -> Z) (fsid : list byte) (limits : MapLimits) (e : Z * M) : Prop :=
  (exists bytes, decode bytes limits = Ok e.2) /\ fsid_of e.2 = fsid /\ epoch_of e.2 = e.1.

Lemma decode_blobs_inv {M} decode fsid_of epoch_of fsid limits blobs : forall (acc l : list (Z * M)),
  decode_blobs decode fsid_of epoch_of fsid limits blobs acc = Ok l ->
  btree_sorted acc -> Forall (identified decode fsid_of epoch_of fsid limits) acc ->
  btree_sorted l /\ Forall (identified decode fsid_of epoch_of fsid limits) l.
Proof.
  induction blobs as [|[epoch bytes] blobs IH]; intros acc l H Hs Hf; cbn [decode_blobs] in H.
  - by apply Ok_inj in H as <-.
  - apply bind_inv in H as (map & Hd & H). apply bind_inv in H as (u & Hv & H). eapply IH; [done| |].
    + by apply btree_insert_sorted.
    + apply Forall_forall. intros e He. apply btree_insert_elem in He as [->|He]; [|by rewrite Forall_forall in Hf; apply Hf].
      unfold validate_map_identity in Hv. destruct (bool_decide _) eqn:Hb; [done|].
      apply bool_decide_eq_false, dec_stable in Hb. destruct (Z.eqb_spec (epoch_of map) epoch); [|done].
      split; [|done]. exists bytes. cbn. by destruct (decode bytes limits); cbn in Hd; simplify_eq.
Qed.

Lemma decode_batch_inv {crc_crate : Crc32cCrate} batch limits maps :
  decode_osdmap_batch_maps batch limits = Ok maps ->
  (btree_sorted (incrementals maps)
   /\ Forall (identified decode_osdmap_incremental in_fsid in_epoch (batch_fsid batch) limits) (incrementals maps))
  /\ (btree_sorted (full_maps maps)
      /\ Forall (identified decode_osdmap om_fsid om_epoch (batch_fsid batch) limits) (full_maps maps))
  /\ decoded_fsid maps = batch_fsid batch.
Proof.
  unfold decode_osdmap_batch_maps. intros H. apply bind_inv in H as (i & Hi & H).
  apply bind_inv in H as (f & Hf & H). apply Ok_inj in H as <-. cbn. split; [|split; [|done]].
  - eapply decode_blobs_inv; [done|constructor|constructor].
  - eapply decode_blobs_inv; [done|constructor|constructor].
Qed.
