(* ===== verification/MonClient.v ===== *)
(** * The monitor client's owner task

    Models the owner of [src/src/mon/client.rs]: the task that holds the
    cluster maps, follows the messages of a monitor session, answers the
    requests of the client's callers and moves on to the next monitor when a
    session ends.

    A session is its interface to the owner: what a send returns and which
    events arrive.  The answer of a request goes to the one-shot channel the
    caller waits on; a channel that is dropped without an answer is recorded
    as dropped.  Time and cancellation are what the owner sees of them when an
    event is handled. *)

From S2P Require Import Prelude Codec Message Address Frame MapBase MonMap Pool OsdMap Incremental BTree MonMessages SessionState.
From Stdlib Require Import ZArith Lia Strings.Byte Strings.String.
From stdpp Require Import base option gmap sorting numbers list.

Open Scope Z_scope.

Inductive MonitorError : Type :=
| MnE_Closed
| MnE_InvalidConfig
| MnE_ConnectTimeout
| MnE_AttemptsExhausted
| MnE_ForeignCluster
| MnE_IdentityUnavailable
| MnE_MapGap
| MnE_Session (e : SessionError)
| MnE_Message (e : MessageError)
| MnE_Map (e : MapError)
| MnE_WireErrno (code : Z).

(** A step returns an error or panics. *)
Inductive MonitorFault : Type :=
| MF_Error (e : MonitorError)
| MF_Panic.

Record Endpoint : Type := mkEndpoint {
  ep_address : SocketAddr;
  ep_entity_address : EntityAddr;
  ep_priority : Z;
  ep_weight : Z
}.

#[export] Instance SocketAddr_eq_dec : EqDecision SocketAddr.
Proof. solve_decision. Defined.

(** Durations in nanoseconds. *)
Record MonitorConfig : Type := mkMonitorConfig {
  seeds : list Endpoint;
  expected_fsid : option (list byte);
  hostname : list byte;
  map_limits : MapLimits;
  message_limits : MessageLimits;
  max_seed_attempts : Z;
  history_limit : Z;
  operation_timeout : Z;
  retry_delay : Z;
  subscribe_period : Z;
  error_capacity : Z
}.

Definition MonitorConfig_validate (c : MonitorConfig) : result MonitorError unit :=
  if (zlen (seeds c) =? 0) || (max_seed_attempts c =? 0) || (operation_timeout c =? 0)
     || (subscribe_period c =? 0) || (error_capacity c =? 0) || (max_bytes (message_limits c) =? 0)
     || (max_maps (message_limits c) =? 0) || (ml_bytes (map_limits c) =? 0)
     || (ml_monitors (map_limits c) =? 0) || (ml_addresses (map_limits c) =? 0)
     || (ml_locations (map_limits c) =? 0) || (ml_pools (map_limits c) =? 0)
     || (ml_osds (map_limits c) =? 0) || (ml_pg_mappings (map_limits c) =? 0)
     || (ml_collection_entries (map_limits c) =? 0)
  then Err MnE_InvalidConfig else Ok tt.

Record MonitorState : Type := mkMonitorState {
  generation : Z;
  connected_fsid : option (list byte);
  ms_global_id : option Z;
  ms_client_addresses : option (list EntityAddr);
  ms_monmap : option MonMap;
  ms_osdmap : option OSDMap;
  ms_mgrmap : option MgrMap
}.

Definition MonitorState_default : MonitorState := mkMonitorState 0 None None None None None None.

Definition MonitorState_ready (s : MonitorState) : bool :=
  bool_decide (is_Some (connected_fsid s)) && bool_decide (is_Some (ms_monmap s))
  && bool_decide (is_Some (ms_osdmap s)).

(** The order of [list_pools]: by name, then by identifier. *)
Definition pool_before (p q : Pool) : Prop :=
  match bytes_compare (pool_name p) (pool_name q) with
  | Lt => True
  | Eq => pool_id p <= pool_id q
  | Gt => False
  end.

#[export] Instance pool_before_dec : RelDecision pool_before.
Proof. intros p q. unfold pool_before. destruct (bytes_compare _ _); apply _. Defined.

Definition list_pools (s : MonitorState) : list Pool :=
  match ms_osdmap s with
  | None => []
  | Some map => merge_sort pool_before (map_to_list (om_pools map)).*2
  end.

(** ** Requests *)

Record OperationOptions : Type := mkOperationOptions {
  deadline : option Z;
  cancellation : option Z
}.

(** What the owner sees of the world while it handles an event: the clock, the
    cancelled tokens, and what the session's sends return; a send under the
    operation timeout may also time out. *)
Record Env : Type := mkEnv {
  env_now : Z;
  env_canceled : Z -> bool;
  env_send : Message -> result SessionError unit;
  env_timed_send : Message -> option (result SessionError unit)
}.

Definition is_canceled (env : Env) (o : OperationOptions) : bool :=
  match cancellation o with Some token => env_canceled env token | None => false end.

Definition past_deadline (env : Env) (o : OperationOptions) : bool :=
  match deadline o with Some deadline => deadline <=? env_now env | None => false end.

(** [reply] names the one-shot channel the caller waits on. *)
Record MonitorCommand : Type := mkMonitorCommand {
  mc_transaction_id : Z;
  mc_command : list (list byte);
  mc_input : list byte;
  mc_options : OperationOptions;
  mc_reply : Z
}.

Record StatFsCommand : Type := mkStatFsCommand {
  sc_transaction_id : Z;
  sc_options : OperationOptions;
  sc_reply : Z
}.

Record PoolStatsCommand : Type := mkPoolStatsCommand {
  pc_transaction_id : Z;
  pc_pools : list (list byte);
  pc_options : OperationOptions;
  pc_reply : Z
}.

Record PoolOperationCommand : Type := mkPoolOperationCommand {
  oc_transaction_id : Z;
  oc_pool : Z;
  oc_operation : PoolOperation;
  oc_snapshot : Z;
  oc_name : list byte;
  oc_options : OperationOptions;
  oc_reply : Z
}.

Inductive Answer : Type :=
| A_Command (r : result MonitorError (CommandReply * option MonitorError))
| A_StatFs (r : result MonitorError StatFsReply)
| A_PoolStats (r : result MonitorError PoolStatsReply)
| A_PoolOperation (r : result MonitorError PoolOperationReply).

(** What the owner does to the outside, apart from publishing states. *)
Inductive Output : Type :=
| Out_Answer (channel : Z) (a : Answer)
| Out_Dropped (channel : Z)
| Out_Report (e : MonitorError)
| Out_Send (m : Message)
| Out_Close
| Out_Shutdown.

(** ** The owner *)

(** [published] is the value of the [state_tx] channel. *)
Record Owner : Type := mkOwner {
  next_seed : Z;
  pinned_fsid : option (list byte);
  ow_state : MonitorState;
  published : MonitorState;
  history : list MonitorState;
  refresh_epoch : option Z;
  next_transaction_id : Z;
  foreign_seeds : list SocketAddr
}.

Definition set_next_seed (x : Z) (o : Owner) : Owner :=
  mkOwner x (pinned_fsid o) (ow_state o) (published o) (history o) (refresh_epoch o)
    (next_transaction_id o) (foreign_seeds o).
Definition set_pinned_fsid (x : option (list byte)) (o : Owner) : Owner :=
  mkOwner (next_seed o) x (ow_state o) (published o) (history o) (refresh_epoch o)
    (next_transaction_id o) (foreign_seeds o).
Definition set_ow_state (x : MonitorState) (o : Owner) : Owner :=
  mkOwner (next_seed o) (pinned_fsid o) x (published o) (history o) (refresh_epoch o)
    (next_transaction_id o) (foreign_seeds o).
Definition set_published (x : MonitorState) (o : Owner) : Owner :=
  mkOwner (next_seed o) (pinned_fsid o) (ow_state o) x (history o) (refresh_epoch o)
    (next_transaction_id o) (foreign_seeds o).
Definition set_history (x : list MonitorState) (o : Owner) : Owner :=
  mkOwner (next_seed o) (pinned_fsid o) (ow_state o) (published o) x (refresh_epoch o)
    (next_transaction_id o) (foreign_seeds o).
Definition set_refresh_epoch (x : option Z) (o : Owner) : Owner :=
  mkOwner (next_seed o) (pinned_fsid o) (ow_state o) (published o) (history o) x
    (next_transaction_id o) (foreign_seeds o).
Definition set_next_transaction_id (x : Z) (o : Owner) : Owner :=
  mkOwner (next_seed o) (pinned_fsid o) (ow_state o) (published o) (history o) (refresh_epoch o)
    x (foreign_seeds o).
Definition set_foreign_seeds (x : list SocketAddr) (o : Owner) : Owner :=
  mkOwner (next_seed o) (pinned_fsid o) (ow_state o) (published o) (history o) (refresh_epoch o)
    (next_transaction_id o) x.

(** The owner [MonitorClient::spawn] starts, and the state it shows before. *)
Definition spawn (c : MonitorConfig) : result MonitorError Owner :=
  _ ← MonitorConfig_validate c;
  Ok (mkOwner 0 (expected_fsid c) MonitorState_default
        (mkMonitorState 0 (expected_fsid c) None None None None None) [] None 1 []).

Definition with_fsid (fsid : list byte) (s : MonitorState) : MonitorState :=
  mkMonitorState (generation s) (Some fsid) (ms_global_id s) (ms_client_addresses s) (ms_monmap s)
    (ms_osdmap s) (ms_mgrmap s).
Definition with_monmap (map : MonMap) (s : MonitorState) : MonitorState :=
  mkMonitorState (generation s) (connected_fsid s) (ms_global_id s) (ms_client_addresses s) (Some map)
    (ms_osdmap s) (ms_mgrmap s).
Definition with_osdmap (map : OSDMap) (s : MonitorState) : MonitorState :=
  mkMonitorState (generation s) (connected_fsid s) (ms_global_id s) (ms_client_addresses s)
    (ms_monmap s) (Some map) (ms_mgrmap s).
Definition with_mgrmap (map : MgrMap) (s : MonitorState) : MonitorState :=
  mkMonitorState (generation s) (connected_fsid s) (ms_global_id s) (ms_client_addresses s)
    (ms_monmap s) (ms_osdmap s) (Some map).
Definition with_identity (global_id : Z) (addresses : list EntityAddr) (s : MonitorState) : MonitorState :=
  mkMonitorState (generation s) (connected_fsid s) (Some global_id) (Some addresses) (ms_monmap s)
    (ms_osdmap s) (ms_mgrmap s).
Definition next_generation (s : MonitorState) : MonitorState :=
  mkMonitorState (Z.min (generation s + 1) u64_max) (connected_fsid s) (ms_global_id s)
    (ms_client_addresses s) (ms_monmap s) (ms_osdmap s) (ms_mgrmap s).

(** A method of the owner that may return early. *)
Abbreviation OwnerM := (St Owner MonitorFault).

Section Owner.
  Context {crc_crate : Crc32cCrate} {order : HashOrder} (config : MonitorConfig).

Definition publish (o : Owner) : Owner :=
  let o := set_ow_state (next_generation (ow_state o)) o in
  let previous := published o in
  let o := if negb (history_limit config =? 0) && negb (generation previous =? 0)
           then set_history (take (Z.to_nat (history_limit config)) (previous :: history o)) o
           else o in
  set_published (ow_state o) o.

Definition allocate_transaction_id (o : Owner) : Z * Owner :=
  let next := wrap 64 (next_transaction_id o + 1) in
  (next_transaction_id o, set_next_transaction_id (if next =? 0 then 1 else next) o).

(** ** Messages with maps *)

Definition update (f : Owner -> Owner) : OwnerM unit := fun o => (Ok tt, f o).

(** [?] on the result of a message decoder. *)
Definition try_message {A} (r : result MessageError A) : OwnerM A :=
  st_lift (map_err (fun e => MF_Error (MnE_Message e)) r).

Definition pin_fsid (fsid : list byte) : OwnerM unit :=
  pinned ← st_gets (fun o => Ok (pinned_fsid o));
  if match pinned with Some expected => bool_decide (expected <> fsid) | None => false end
  then st_lift (Err (MF_Error MnE_ForeignCluster))
  else update (fun o => set_ow_state (with_fsid fsid (ow_state o)) (set_pinned_fsid (Some fsid) o)).

(** [current.is_none_or(|current| epoch > current.epoch())]. *)
Definition newer_than {M} (epoch_of : M -> Z) (current : option M) (epoch : Z) : bool :=
  match current with Some m => epoch_of m <? epoch | None => true end.

(** The loop over the full maps of a batch. *)
Definition take_full_maps (l : list (Z * OSDMap)) (current : option OSDMap) : option OSDMap :=
  fold_left (fun current '(epoch, map) =>
    if newer_than om_epoch current epoch then Some map else current) l current.

(** The loop over the incrementals of a batch. *)
Fixpoint follow_incrementals (l : list (Z * OSDMapIncremental)) (current : option OSDMap)
    : result MonitorFault (option OSDMap) :=
  match l with
  | [] => Ok current
  | (epoch, incremental) :: l =>
      match current with
      | None => Err (MF_Error MnE_MapGap)
      | Some base =>
          if epoch <=? om_epoch base then follow_incrementals l current
          else if bool_decide (checked_add 32 (om_epoch base) 1 <> Some epoch)
          then Err (MF_Error MnE_MapGap)
          else
            match apply_osdmap_incremental base incremental (map_limits config) with
            | Ok next => follow_incrementals l (Some next)
            | Err (AF_Error e) => Err (MF_Error (MnE_Map e))
            | Err AF_Panic => Err MF_Panic
            end
      end
  end.

Inductive MessageAction : Type :=
| MA_None
| MA_Resubscribe.

Definition handle_subscribe_ack (m : Message) : OwnerM MessageAction :=
  ack ← try_message (decode_subscribe_ack m (max_bytes (message_limits config)));
  _ ← pin_fsid (ack_fsid ack);
  _ ← update publish;
  mret MA_None.

Definition handle_monmap (m : Message) : OwnerM MessageAction :=
  map ← try_message (decode_monmap_message m (map_limits config));
  _ ← pin_fsid (mm_fsid map);
  newer ← st_gets (fun o => Ok (newer_than mm_epoch (ms_monmap (ow_state o)) (mm_epoch map)));
  _ ← (if newer : bool
       then update (fun o => publish (set_ow_state (with_monmap map (ow_state o)) o))
       else mret tt);
  mret MA_None.

(** The map a batch leads to, which must reach the epochs it announces. *)
Definition advance_osdmap (maps : DecodedOSDMapBatch) (current : option OSDMap)
    : result MonitorFault (option OSDMap) :=
  current ← follow_incrementals (incrementals maps) (take_full_maps (full_maps maps) current);
  let current_epoch := match current with Some m => om_epoch m | None => 0 end in
  if (negb (newest_map maps =? 0) && (current_epoch <? newest_map maps))
     || (negb (trim_lower_bound maps =? 0) && (current_epoch <? trim_lower_bound maps))
  then Err (MF_Error MnE_MapGap)
  else Ok current.

Definition store_osdmap (map : OSDMap) (o : Owner) : Owner :=
  if newer_than om_epoch (ms_osdmap (ow_state o)) (om_epoch map)
  then publish (set_ow_state (with_osdmap map (ow_state o)) o) else o.

Definition handle_osdmap (m : Message) : OwnerM MessageAction :=
  batch ← try_message (decode_osdmap_batch m (message_limits config));
  maps ← try_message (decode_osdmap_batch_maps batch (map_limits config));
  _ ← pin_fsid (batch_fsid batch);
  let highest_full_epoch := btree_last_key (full_maps maps) in
  current ← st_gets (fun o => advance_osdmap maps (ms_osdmap (ow_state o)));
  _ ← update (fun o => match current with Some map => store_osdmap map o | None => o end);
  refresh ← st_gets (fun o => Ok (refresh_epoch o));
  if match refresh, highest_full_epoch with
     | Some required, Some epoch => required <=? epoch
     | _, _ => false
     end
  then (_ ← update (set_refresh_epoch None); mret MA_Resubscribe)
  else mret MA_None.

Definition handle_mgrmap (m : Message) : OwnerM MessageAction :=
  pinned ← st_gets (fun o => Ok (pinned_fsid o));
  match pinned with
  | None => st_lift (Err (MF_Error MnE_IdentityUnavailable))
  | Some _ =>
      map ← try_message (decode_mgrmap_message m (map_limits config));
      newer ← st_gets (fun o => Ok (newer_than mgr_epoch (ms_mgrmap (ow_state o)) (mgr_epoch map)));
      _ ← (if newer : bool
           then update (fun o => publish (set_ow_state (with_mgrmap map (ow_state o)) o))
           else mret tt);
      mret MA_None
  end.

Definition handle_message (m : Message) : OwnerM MessageAction :=
  let type := message_type (header m) in
  if type =? MESSAGE_MON_SUBSCRIBE_ACK then handle_subscribe_ack m
  else if type =? MESSAGE_MON_MAP then handle_monmap m
  else if type =? MESSAGE_OSD_MAP then handle_osdmap m
  else if type =? MESSAGE_MGR_MAP then handle_mgrmap m
  else mret MA_None.

(** ** A session *)

(** A step of a session: it changes the owner and has outputs. *)
Definition OM (A : Type) : Type := Owner -> A * Owner * list Output.

#[export] Instance OM_ret : MRet OM := fun A a o => (a, o, []).
#[export] Instance OM_bind : MBind OM := fun A B f x o =>
  let '(a, o, e1) := x o in
  let '(b, o, e2) := f a o in
  (b, o, e1 ++ e2).

Definition output (e : Output) : OM unit := fun o => (tt, o, [e]).
Definition outputs (l : list Output) : OM unit := fun o => (tt, o, l).
Definition owner_gets {A} (f : Owner -> A) : OM A := fun o => (f o, o, []).
Definition owner_update (f : Owner -> Owner) : OM unit := fun o => (tt, f o, []).
Definition owner_run {A} (m : OwnerM A) : OM (result MonitorFault A) := fun o => (m o, []).
Definition report (e : MonitorError) : OM unit := output (Out_Report e).

(** The requests a session has sent and awaits replies for. *)
Record Lanes : Type := mkLanes {
  pending_command : option MonitorCommand;
  pending_statfs : option StatFsCommand;
  pending_pool_stats : option PoolStatsCommand;
  pending_pool_operation : option PoolOperationCommand
}.

Definition no_lanes : Lanes := mkLanes None None None None.

Definition set_pending_command (x : option MonitorCommand) (l : Lanes) : Lanes :=
  mkLanes x (pending_statfs l) (pending_pool_stats l) (pending_pool_operation l).
Definition set_pending_statfs (x : option StatFsCommand) (l : Lanes) : Lanes :=
  mkLanes (pending_command l) x (pending_pool_stats l) (pending_pool_operation l).
Definition set_pending_pool_stats (x : option PoolStatsCommand) (l : Lanes) : Lanes :=
  mkLanes (pending_command l) (pending_statfs l) x (pending_pool_operation l).
Definition set_pending_pool_operation (x : option PoolOperationCommand) (l : Lanes) : Lanes :=
  mkLanes (pending_command l) (pending_statfs l) (pending_pool_stats l) x.

Inductive SessionOutcome : Type :=
| SO_Failover
| SO_ForeignCluster
| SO_Stop
| SO_Panic.

(** The loop goes on, or the session returns. *)
Inductive Flow : Type :=
| Continue (lanes : Lanes)
| Leave (outcome : SessionOutcome).

Inductive MonEvent : Type :=
| Ev_Stop
| Ev_Incoming (m : option Message)
| Ev_Failure (e : SessionError)
| Ev_Subscribe
| Ev_Refresh (epoch : option Z)
| Ev_Command (c : option MonitorCommand)
| Ev_StatFs (c : option StatFsCommand)
| Ev_PoolStats (c : option PoolStatsCommand)
| Ev_PoolOperation (c : option PoolOperationCommand)
| Ev_RequestCheck.

(** The channels of the requests that are pending, lane by lane. *)
Definition lane_channels (l : Lanes) : list Z :=
  option_list (mc_reply <$> pending_command l) ++ option_list (sc_reply <$> pending_statfs l)
  ++ option_list (pc_reply <$> pending_pool_stats l)
  ++ option_list (oc_reply <$> pending_pool_operation l).

(** Returning drops what is still pending. *)
Definition leave (outcome : SessionOutcome) (l : Lanes) : OM Flow :=
  _ ← outputs (Out_Dropped <$> lane_channels l);
  mret (Leave outcome).

(** [session.close(); session.shutdown().await; return outcome]. *)
Definition close_and_leave (outcome : SessionOutcome) (l : Lanes) : OM Flow :=
  _ ← output Out_Close;
  _ ← output Out_Shutdown;
  leave outcome l.

Definition OutcomeUnknown {A} : result MonitorError A := Err (MnE_Session SE_OutcomeUnknown).

Definition fail_pending_command (l : Lanes) : OM Lanes :=
  _ ← outputs (option_list ((fun c => Out_Answer (mc_reply c) (A_Command OutcomeUnknown)) <$> pending_command l));
  mret (set_pending_command None l).
Definition fail_pending_statfs (l : Lanes) : OM Lanes :=
  _ ← outputs (option_list ((fun c => Out_Answer (sc_reply c) (A_StatFs OutcomeUnknown)) <$> pending_statfs l));
  mret (set_pending_statfs None l).
Definition fail_pending_pool_stats (l : Lanes) : OM Lanes :=
  _ ← outputs (option_list ((fun c => Out_Answer (pc_reply c) (A_PoolStats OutcomeUnknown)) <$> pending_pool_stats l));
  mret (set_pending_pool_stats None l).
Definition fail_pending_pool_operation (l : Lanes) : OM Lanes :=
  _ ← outputs (option_list ((fun c => Out_Answer (oc_reply c) (A_PoolOperation OutcomeUnknown)) <$> pending_pool_operation l));
  mret (set_pending_pool_operation None l).

(** The four calls in a row. *)
Definition fail_all (l : Lanes) : OM Lanes :=
  l ← fail_pending_command l;
  l ← fail_pending_statfs l;
  l ← fail_pending_pool_stats l;
  fail_pending_pool_operation l.

(** ** Subscriptions *)

Definition next_epoch {M} (epoch_of : M -> Z) (map : option M) : Z :=
  match map with Some m => epoch_of m + 1 | None => 0 end.

Definition subscriptions (full_osdmap : bool) (s : MonitorState) : list (list byte * Subscription) :=
  if full_osdmap
  then btree_insert bytes_compare (list_byte_of_string "osdmap") (mkSubscription 0 SUBSCRIBE_ONCE) []
  else
    let m := btree_insert bytes_compare (list_byte_of_string "mgrmap")
               (mkSubscription (next_epoch mgr_epoch (ms_mgrmap s)) 0) [] in
    let m := btree_insert bytes_compare (list_byte_of_string "monmap")
               (mkSubscription (next_epoch mm_epoch (ms_monmap s)) 0) m in
    btree_insert bytes_compare (list_byte_of_string "osdmap")
      (mkSubscription (next_epoch om_epoch (ms_osdmap s)) 0) m.

Definition subscribe (env : Env) (full_osdmap : bool) : OM (result MonitorError unit) :=
  s ← owner_gets ow_state;
  match encode_subscribe (subscriptions full_osdmap s) (hostname config) (max_bytes (message_limits config)) with
  | Err e => mret (Err (MnE_Message e))
  | Ok m =>
      _ ← output (Out_Send m);
      mret match env_timed_send env m with
           | None => Err MnE_ConnectTimeout
           | Some (Err e) => Err (MnE_Session e)
           | Some (Ok _) => Ok tt
           end
  end.

(** [if let Err(error) = self.subscribe(..).await { self.report(error) }]. *)
Definition subscribe_or_report (env : Env) (full_osdmap : bool) : OM unit :=
  r ← subscribe env full_osdmap;
  match r with Ok _ => mret tt | Err e => report e end.

(** ** Replies *)

(** The reply of another cluster ends the session. *)
Definition foreign_reply (fsid : list byte) (o : Owner) : bool := bool_decide (Some fsid <> pinned_fsid o).

Definition uncorrelated (reason : string) (l : Lanes) : OM Flow :=
  _ ← report (MnE_Message (MsE_Malformed reason));
  mret (Continue l).

(** [take().expect(..)] under the guard of the transaction. *)
Definition command_reply (m : Message) (l : Lanes) : OM Flow :=
  match pending_command l with
  | Some pending =>
      if negb (mc_transaction_id pending =? transaction_id (header m))
      then uncorrelated "uncorrelated monitor command reply" l
      else
        let r := match decode_command_reply m (max_bytes (message_limits config))
                         (ml_collection_entries (map_limits config)) with
                 | Err e => Err (MnE_Message e)
                 | Ok reply =>
                     Ok (reply, if negb (cr_result reply =? 0) then Some (MnE_WireErrno (cr_result reply)) else None)
                 end in
        _ ← output (Out_Answer (mc_reply pending) (A_Command r));
        mret (Continue (set_pending_command None l))
  | None => uncorrelated "uncorrelated monitor command reply" l
  end.

Definition statfs_reply (m : Message) (l : Lanes) : OM Flow :=
  match pending_statfs l with
  | Some pending =>
      if negb (sc_transaction_id pending =? transaction_id (header m))
      then uncorrelated "uncorrelated statfs reply" l
      else
        let r := map_err MnE_Message (decode_statfs_reply m (max_bytes (message_limits config))) in
        let l := set_pending_statfs None l in
        foreign ← owner_gets (fun o => match r with Ok reply => foreign_reply (sf_fsid reply) o | Err _ => false end);
        if foreign : bool then
          _ ← output (Out_Answer (sc_reply pending) (A_StatFs (Err MnE_ForeignCluster)));
          l ← fail_pending_command l;
          l ← fail_pending_pool_stats l;
          l ← fail_pending_pool_operation l;
          _ ← report MnE_ForeignCluster;
          close_and_leave SO_ForeignCluster l
        else
          _ ← output (Out_Answer (sc_reply pending) (A_StatFs r));
          mret (Continue l)
  | None => uncorrelated "uncorrelated statfs reply" l
  end.

Definition pool_stats_reply (m : Message) (l : Lanes) : OM Flow :=
  match pending_pool_stats l with
  | Some pending =>
      if negb (pc_transaction_id pending =? transaction_id (header m))
      then uncorrelated "uncorrelated pool-stats reply" l
      else
        let r := map_err MnE_Message
                   (decode_get_pool_stats_reply m (max_bytes (message_limits config))
                      (ml_pools (map_limits config)) (ml_collection_entries (map_limits config))) in
        let l := set_pending_pool_stats None l in
        foreign ← owner_gets (fun o => match r with Ok reply => foreign_reply (psr_fsid reply) o | Err _ => false end);
        if foreign : bool then
          _ ← output (Out_Answer (pc_reply pending) (A_PoolStats (Err MnE_ForeignCluster)));
          l ← fail_pending_command l;
          l ← fail_pending_statfs l;
          l ← fail_pending_pool_operation l;
          _ ← report MnE_ForeignCluster;
          close_and_leave SO_ForeignCluster l
        else
          _ ← output (Out_Answer (pc_reply pending) (A_PoolStats r));
          mret (Continue l)
  | None => uncorrelated "uncorrelated pool-stats reply" l
  end.

Definition pool_operation_reply (m : Message) (l : Lanes) : OM Flow :=
  match pending_pool_operation l with
  | Some pending =>
      if negb (oc_transaction_id pending =? transaction_id (header m))
      then uncorrelated "uncorrelated pool operation reply" l
      else
        let r := map_err MnE_Message (decode_pool_operation_reply m (max_bytes (message_limits config))) in
        let l := set_pending_pool_operation None l in
        foreign ← owner_gets (fun o => match r with Ok reply => foreign_reply (por_fsid reply) o | Err _ => false end);
        if foreign : bool then
          _ ← output (Out_Answer (oc_reply pending) (A_PoolOperation (Err MnE_ForeignCluster)));
          l ← fail_pending_command l;
          l ← fail_pending_statfs l;
          l ← fail_pending_pool_stats l;
          _ ← report MnE_ForeignCluster;
          close_and_leave SO_ForeignCluster l
        else
          let r := reply ← r; if negb (por_result reply =? 0) then Err (MnE_WireErrno (por_result reply)) else Ok reply in
          _ ← output (Out_Answer (oc_reply pending) (A_PoolOperation r));
          mret (Continue l)
  | None => uncorrelated "uncorrelated pool operation reply" l
  end.

(** Every other message, and what the loop does with its result. *)
Definition map_message (env : Env) (m : Message) (l : Lanes) : OM Flow :=
  r ← owner_run (handle_message m);
  match r with
  | Ok MA_None => mret (Continue l)
  | Ok MA_Resubscribe => _ ← subscribe_or_report env false; mret (Continue l)
  | Err (MF_Error MnE_MapGap) =>
      _ ← report MnE_MapGap;
      refresh ← owner_gets refresh_epoch;
      match refresh with
      | Some _ => mret (Continue l)
      | None =>
          _ ← owner_update (fun o =>
                set_refresh_epoch
                  (Some match ms_osdmap (ow_state o) with
                        | Some map => Z.min (om_epoch map + 1) u32_max
                        | None => 1
                        end) o);
          _ ← subscribe_or_report env true;
          mret (Continue l)
      end
  | Err (MF_Error MnE_ForeignCluster) =>
      l ← fail_all l;
      _ ← report MnE_ForeignCluster;
      close_and_leave SO_ForeignCluster l
  | Err (MF_Error e) =>
      l ← fail_all l;
      _ ← report e;
      close_and_leave SO_Failover l
  | Err MF_Panic => leave SO_Panic l
  end.

(** ** Requests of the callers *)

Definition with_transaction (t : Z) (m : Message) : Message :=
  let h := header m in
  mkMessage (mkMessageHeader (sequence h) t (message_type h) (priority h) (version h)
               (data_pre_padding_length h) (data_offset h) (ack_sequence h) (header_flags h)
               (compat_version h) (reserved h))
    (lengths m) (front m) (middle m) (data m).

(** What every request checks before it is encoded: it is neither cancelled
    nor late, and the cluster is known. *)
Definition before_request (env : Env) (options : OperationOptions) (o : Owner)
    : result MonitorError (list byte) :=
  if is_canceled env options then Err (MnE_Session SE_Cancelled)
  else if past_deadline env options then Err MnE_ConnectTimeout
  else ok_or (pinned_fsid o) MnE_IdentityUnavailable.

(** The epoch a request to a paxos service names. *)
Definition have_version (o : Owner) : Z := match ms_osdmap (ow_state o) with Some map => om_epoch map | None => 0 end.

(** Sends an encoded request under a new transaction: [pend] makes it pending
    in its lane, and [fail] answers it when the send fails. *)
Definition dispatch_request (env : Env) (m : Message) (pend : Z -> Lanes) (cleared : Lanes)
    (fail : SessionError -> Output) : OM Flow :=
  t ← (fun o => (allocate_transaction_id o, []));
  let m := with_transaction t m in
  _ ← output (Out_Send m);
  match env_send env m with
  | Ok _ => mret (Continue (pend t))
  | Err e => _ ← output (fail e); close_and_leave SO_Failover cleared
  end.

Definition new_command (env : Env) (c : MonitorCommand) (l : Lanes) : OM Flow :=
  let answer e := Out_Answer (mc_reply c) (A_Command (Err e)) in
  checked ← owner_gets (before_request env (mc_options c));
  match checked with
  | Err e => _ ← output (answer e); mret (Continue l)
  | Ok fsid =>
      match encode_command fsid (mc_command c) (mc_input c) (max_bytes (message_limits config)) with
      | Err e => _ ← output (answer (MnE_Message e)); mret (Continue l)
      | Ok m =>
          dispatch_request env m
            (fun t => set_pending_command (Some (mkMonitorCommand t (mc_command c) (mc_input c) (mc_options c) (mc_reply c))) l)
            (set_pending_command None l) (fun e => answer (MnE_Session e))
      end
  end.

Definition new_statfs (env : Env) (c : StatFsCommand) (l : Lanes) : OM Flow :=
  let answer e := Out_Answer (sc_reply c) (A_StatFs (Err e)) in
  checked ← owner_gets (before_request env (sc_options c));
  match checked with
  | Err e => _ ← output (answer e); mret (Continue l)
  | Ok fsid =>
      epoch ← owner_gets have_version;
      match encode_statfs fsid epoch (max_bytes (message_limits config)) with
      | Err e => _ ← output (answer (MnE_Message e)); mret (Continue l)
      | Ok m =>
          dispatch_request env m
            (fun t => set_pending_statfs (Some (mkStatFsCommand t (sc_options c) (sc_reply c))) l)
            (set_pending_statfs None l) (fun e => answer (MnE_Session e))
      end
  end.

Definition new_pool_stats (env : Env) (c : PoolStatsCommand) (l : Lanes) : OM Flow :=
  let answer e := Out_Answer (pc_reply c) (A_PoolStats (Err e)) in
  checked ← owner_gets (before_request env (pc_options c));
  match checked with
  | Err e => _ ← output (answer e); mret (Continue l)
  | Ok fsid =>
      epoch ← owner_gets have_version;
      match encode_get_pool_stats fsid epoch (pc_pools c) (max_bytes (message_limits config)) with
      | Err e => _ ← output (answer (MnE_Message e)); mret (Continue l)
      | Ok m =>
          dispatch_request env m
            (fun t => set_pending_pool_stats (Some (mkPoolStatsCommand t (pc_pools c) (pc_options c) (pc_reply c))) l)
            (set_pending_pool_stats None l) (fun e => answer (MnE_Session e))
      end
  end.

Definition new_pool_operation (env : Env) (c : PoolOperationCommand) (l : Lanes) : OM Flow :=
  let answer e := Out_Answer (oc_reply c) (A_PoolOperation (Err e)) in
  checked ← owner_gets (before_request env (oc_options c));
  match checked with
  | Err e => _ ← output (answer e); mret (Continue l)
  | Ok fsid =>
      epoch ← owner_gets have_version;
      match encode_pool_operation fsid epoch (oc_pool c) (oc_operation c) (oc_snapshot c) (oc_name c)
              (max_bytes (message_limits config)) with
      | Err e => _ ← output (answer (MnE_Message e)); mret (Continue l)
      | Ok m =>
          dispatch_request env m
            (fun t => set_pending_pool_operation
                        (Some (mkPoolOperationCommand t (oc_pool c) (oc_operation c) (oc_snapshot c)
                                 (oc_name c) (oc_options c) (oc_reply c))) l)
            (set_pending_pool_operation None l) (fun e => answer (MnE_Session e))
      end
  end.

(** ** The session loop *)

Definition expired (env : Env) (o : OperationOptions) : bool := is_canceled env o || past_deadline env o.

Definition request_check (env : Env) (l : Lanes) : OM Flow :=
  let any {C} (options : C -> OperationOptions) (c : option C) :=
    match c with Some c => expired env (options c) | None => false end in
  if any mc_options (pending_command l) || any sc_options (pending_statfs l)
     || any pc_options (pending_pool_stats l) || any oc_options (pending_pool_operation l)
  then l ← fail_all l; close_and_leave SO_Failover l
  else mret (Continue l).

(** Which events the [select!] waits for. *)
Definition enabled (l : Lanes) (ev : MonEvent) : bool :=
  match ev with
  | Ev_Command _ => bool_decide (pending_command l = None)
  | Ev_StatFs _ => bool_decide (pending_statfs l = None)
  | Ev_PoolStats _ => bool_decide (pending_pool_stats l = None)
  | Ev_PoolOperation _ => bool_decide (pending_pool_operation l = None)
  | Ev_RequestCheck => negb (zlen (lane_channels l) =? 0)
  | _ => true
  end.

Definition incoming (env : Env) (m : Message) (l : Lanes) : OM Flow :=
  let type := message_type (header m) in
  if type =? MESSAGE_MON_COMMAND_REPLY then command_reply m l
  else if type =? MESSAGE_STATFS_REPLY then statfs_reply m l
  else if type =? MESSAGE_GET_POOL_STATS_REPLY then pool_stats_reply m l
  else if type =? MESSAGE_POOL_OPERATION_REPLY then pool_operation_reply m l
  else map_message env m l.

(** One turn of the loop. *)
Definition session_event (env : Env) (ev : MonEvent) (l : Lanes) : OM Flow :=
  match ev with
  | Ev_Stop => close_and_leave SO_Stop l
  | Ev_Incoming (Some m) => incoming env m l
  | Ev_Incoming None => l ← fail_all l; _ ← output Out_Shutdown; leave SO_Failover l
  | Ev_Failure e =>
      l ← fail_all l;
      _ ← report (MnE_Session e);
      _ ← output Out_Shutdown;
      leave SO_Failover l
  | Ev_Subscribe => _ ← subscribe_or_report env false; mret (Continue l)
  | Ev_Refresh (Some epoch) =>
      _ ← owner_update (fun o =>
            set_refresh_epoch
              (Some match refresh_epoch o with Some current => Z.max current epoch | None => epoch end) o);
      _ ← subscribe_or_report env true;
      mret (Continue l)
  | Ev_Command (Some c) => new_command env c l
  | Ev_StatFs (Some c) => new_statfs env c l
  | Ev_PoolStats (Some c) => new_pool_stats env c l
  | Ev_PoolOperation (Some c) => new_pool_operation env c l
  | Ev_Refresh None | Ev_Command None | Ev_StatFs None | Ev_PoolStats None | Ev_PoolOperation None =>
      mret (Continue l)
  | Ev_RequestCheck => request_check env l
  end.

(** [OpenedMonitorSession]; the session itself is the environment. *)
Record OpenedMonitorSession : Type := mkOpenedMonitorSession {
  opened_global_id : Z;
  opened_client_addresses : list EntityAddr
}.

(** What [run_session] does before its loop. *)
Definition session_start (env : Env) (opened : OpenedMonitorSession) : OM Flow :=
  _ ← owner_update (fun o =>
        publish (set_ow_state (with_identity (opened_global_id opened) (opened_client_addresses opened)
                                 (ow_state o)) o));
  r ← subscribe env false;
  match r with
  | Err e => _ ← report e; close_and_leave SO_Failover no_lanes
  | Ok _ =>
      refresh ← owner_gets refresh_epoch;
      _ ← (if bool_decide (is_Some refresh) then subscribe_or_report env true else mret tt);
      mret (Continue no_lanes)
  end.

(** ** The owner's life *)

(** One attempt to open a session: the stop flag is up before it, or stopping
    is signalled during it, or it ends in one of three ways. *)
Inductive Attempt : Type :=
| At_StopRequested
| At_StopChanged
| At_Opened (opened : OpenedMonitorSession)
| At_Failed (e : MonitorError)
| At_TimedOut.

Fixpoint open_next (n : nat) (attempt : nat -> Attempt)
    : OM (result MonitorFault (SocketAddr * OpenedMonitorSession)) :=
  match n with
  | O => mret (Err (MF_Error MnE_AttemptsExhausted))
  | S n =>
      match attempt n with
      | At_StopRequested => mret (Err (MF_Error MnE_Closed))
      | a =>
          seed ← owner_gets next_seed;
          match zget (seeds config) seed with
          | None => mret (Err MF_Panic)
          | Some endpoint =>
              _ ← owner_update (set_next_seed ((seed + 1) mod zlen (seeds config)));
              match a with
              | At_Opened opened => mret (Ok (ep_address endpoint, opened))
              | At_Failed e => _ ← report e; open_next n attempt
              | At_TimedOut => _ ← report MnE_ConnectTimeout; open_next n attempt
              | _ => mret (Err (MF_Error MnE_Closed))
              end
          end
      end
  end.

Inductive RunState : Type :=
| RS_Open
| RS_Session (address : SocketAddr) (lanes : Lanes)
| RS_Retry
| RS_Finished (e : MonitorError)
| RS_Panicked.

(** What drives the owner: attempts to open a session, the events of a
    session, and the end of the delay between sessions. *)
Inductive RunInput : Type :=
| In_Open (stopped : bool) (attempt : nat -> Attempt) (env : Env)
| In_Event (env : Env) (ev : MonEvent)
| In_Delay (stopped : bool).

(** After a session: another cluster's monitor is remembered, and when every
    seed belongs to another cluster the owner ends. *)
Definition after_session (address : SocketAddr) (outcome : SessionOutcome) : OM RunState :=
  match outcome with
  | SO_Panic => mret RS_Panicked
  | SO_Stop => mret (RS_Finished MnE_Closed)
  | SO_ForeignCluster =>
      _ ← owner_update (fun o =>
            set_foreign_seeds (if bool_decide (address ∈ foreign_seeds o) then foreign_seeds o
                               else address :: foreign_seeds o) o);
      foreign ← owner_gets foreign_seeds;
      if zlen foreign =? zlen (remove_dups (ep_address <$> seeds config))
      then mret (RS_Finished MnE_ForeignCluster) else mret RS_Retry
  | SO_Failover => mret RS_Retry
  end.

Definition after_flow (address : SocketAddr) (flow : Flow) : OM RunState :=
  match flow with
  | Continue lanes => mret (RS_Session address lanes)
  | Leave outcome => after_session address outcome
  end.

(** One step of [run]; an input that does not fit the state does nothing. *)
Definition run_step (input : RunInput) (rs : RunState) : OM RunState :=
  match rs, input with
  | RS_Open, In_Open stopped attempt env =>
      if stopped : bool then mret (RS_Finished MnE_Closed)
      else
        r ← open_next (Z.to_nat (max_seed_attempts config)) attempt;
        match r with
        | Ok (address, opened) => flow ← session_start env opened; after_flow address flow
        | Err (MF_Error e) => mret (RS_Finished e)
        | Err MF_Panic => mret RS_Panicked
        end
  | RS_Session address lanes, In_Event env ev =>
      if enabled lanes ev then flow ← session_event env ev lanes; after_flow address flow
      else mret rs
  | RS_Retry, In_Delay stopped =>
      if negb (retry_delay config =? 0) && stopped then mret (RS_Finished MnE_Closed) else mret RS_Open
  | _, _ => mret rs
  end.

(** A run of the owner: where it stands, and all it put out. *)
Fixpoint run_all (inputs : list RunInput) (rs : RunState) : OM RunState :=
  match inputs with
  | [] => mret rs
  | i :: inputs => rs ← run_step i rs; run_all inputs rs
  end.

End Owner.
