(* ===== verification/MonClientProps.v ===== *)
(** * What the monitor client keeps

    The invariant of the monitor client's owner and of every state it
    publishes, over all runs; the account of the callers' requests; and where
    the maps come from. *)

From S2P Require Import Prelude Codec Message Address Frame MapBase MonMap Pool OsdMap Incremental IncrementalProps BTree MonMessages SessionState MonClient.
From Stdlib Require Import ZArith Lia Strings.Byte Strings.String.
From stdpp Require Import base option gmap sorting numbers list.

Open Scope Z_scope.

(** Splits on the condition of the goal. *)
Ltac cond H := match goal with |- context [if ?c then _ else _] => destruct c eqn:H end.

(** ** States *)

(** What a published state shows of one cluster. *)
Record state_ok (pinned : option (list byte)) (s : MonitorState) : Prop := {
  st_generation : 0 <= generation s <= u64_max;
  st_fsid : forall f, connected_fsid s = Some f -> pinned = Some f;
  st_monmap : forall m, ms_monmap s = Some m -> pinned = Some (mm_fsid m);
  st_osdmap : forall m, ms_osdmap s = Some m -> pinned = Some (om_fsid m) /\ osdmap_ok m
}.

(** A map stays, or a later epoch takes its place. *)
Definition map_le {M} (epoch_of : M -> Z) (a b : option M) : Prop :=
  forall m, a = Some m -> exists m', b = Some m' /\ (m' = m \/ epoch_of m < epoch_of m').

Record state_le (s s' : MonitorState) : Prop := {
  le_generation : generation s <= generation s';
  le_monmap : map_le mm_epoch (ms_monmap s) (ms_monmap s');
  le_osdmap : map_le om_epoch (ms_osdmap s) (ms_osdmap s');
  le_mgrmap : map_le mgr_epoch (ms_mgrmap s) (ms_mgrmap s')
}.

#[export] Instance map_le_preorder {M} (epoch_of : M -> Z) : PreOrder (map_le epoch_of).
Proof.
  split; [by intros a m ->; exists m; auto|]. intros a b c Hab Hbc m Hm.
  destruct (Hab m Hm) as (m1 & H1 & O1). destruct (Hbc m1 H1) as (m2 & H2 & O2). exists m2. split; [done|].
  destruct O1 as [->|], O2 as [->|]; auto. right. lia.
Qed.

#[export] Instance state_le_preorder : PreOrder state_le.
Proof.
  split; [by constructor|]. intros a b c [] []. constructor; [lia|by etransitivity..].
Qed.

Lemma map_le_newer {M} (epoch_of : M -> Z) cur m :
  newer_than epoch_of cur (epoch_of m) = true -> map_le epoch_of cur (Some m).
Proof.
  unfold newer_than. intros H c ->. exists m. split; [done|]. right. by apply Z.ltb_lt.
Qed.

(** The fsid of the cluster, once known, stays. *)
Definition pinned_le (a b : option (list byte)) : Prop := forall f, a = Some f -> b = Some f.

#[export] Instance pinned_le_preorder : PreOrder pinned_le.
Proof. split; [by intros a f|]. intros a b c H1 H2 f Hf. auto. Qed.

Lemma state_ok_le p q s : pinned_le p q -> state_ok p s -> state_ok q s.
Proof.
  intros H [G F M O]. constructor; [done|..].
  - intros f Hf. by apply H, F.
  - intros m Hm. by apply H, M.
  - intros m Hm. destruct (O m Hm). split; [by apply H|done].
Qed.

(** ** The owner *)

(** The states from the newest to the oldest. *)
Definition states (o : Owner) : list MonitorState := ow_state o :: published o :: history o.

(** A state shows another: all but the identity of the cluster is the same.  The
    identity the owner expects is shown from the start, and the one it learns
    from an old map only with the next state it publishes. *)
Record shows (p s : MonitorState) : Prop := {
  sh_generation : generation p = generation s;
  sh_global_id : ms_global_id p = ms_global_id s;
  sh_addresses : ms_client_addresses p = ms_client_addresses s;
  sh_monmap : ms_monmap p = ms_monmap s;
  sh_osdmap : ms_osdmap p = ms_osdmap s;
  sh_mgrmap : ms_mgrmap p = ms_mgrmap s
}.

Section Invariant.
  Context {crc_crate : Crc32cCrate} {order : HashOrder} (config : MonitorConfig).

(** The states form a history of one cluster. *)
Record states_ok (o : Owner) : Prop := {
  oo_seed : 0 <= next_seed o < zlen (seeds config);
  oo_transaction : 0 < next_transaction_id o < 2 ^ 64;
  oo_states : Forall (state_ok (pinned_fsid o)) (states o);
  oo_order : StronglySorted (flip state_le) (states o);
  oo_history : (length (history o) <= Z.to_nat (history_limit config))%nat
}.

(** Besides, what the callers are shown is the owner's state. *)
Record owner_ok (o : Owner) : Prop := {
  oo_kept : states_ok o;
  oo_published : shows (published o) (ow_state o)
}.

Record advances (o o' : Owner) : Prop := {
  ad_state : state_le (ow_state o) (ow_state o');
  ad_pinned : pinned_le (pinned_fsid o) (pinned_fsid o')
}.

#[export] Instance advances_preorder : PreOrder advances.
Proof. split; [by constructor|]. intros a b c [] []. constructor; by etransitivity. Qed.

(** An operation keeps the invariant and only moves forward. *)
Definition moves (f : Owner -> Owner) : Prop :=
  forall o, owner_ok o -> owner_ok (f o) /\ advances o (f o).

Lemma moves_id : moves id.
Proof. by intros o Ho. Qed.

Lemma moves_compose f g : moves f -> moves g -> moves (fun o => g (f o)).
Proof.
  intros Hf Hg o Ho. destruct (Hf o Ho) as [H1 A1]. destruct (Hg _ H1) as [H2 A2].
  split; [done|by etransitivity].
Qed.

(** Operations on the fields outside the states. *)
Lemma moves_refresh x : moves (set_refresh_epoch x).
Proof. intros o [[] ?]. split; [by constructor; [constructor|]|by constructor]. Qed.

Lemma moves_foreign x : moves (fun o => set_foreign_seeds (x o) o).
Proof. intros o [[] ?]. split; [by constructor; [constructor|]|by constructor]. Qed.

Lemma moves_seed x : 0 <= x < zlen (seeds config) -> moves (set_next_seed x).
Proof. intros Hx o [[] ?]. split; [by constructor; [constructor|]|by constructor]. Qed.

Lemma moves_transaction : moves (fun o => (allocate_transaction_id o).2).
Proof.
  intros o [[] ?]. split; [|by constructor]. constructor; [|done]. constructor; cbn; try done.
  pose proof (wrap_range 64 (next_transaction_id o + 1) ltac:(lia)) as [? ?].
  destruct (Z.eqb_spec (wrap 64 (next_transaction_id o + 1)) 0); lia.
Qed.

(** A new state that shows the same cluster and is not older. *)
Lemma state_moves o s :
  states_ok o -> state_ok (pinned_fsid o) s -> state_le (ow_state o) s ->
  states_ok (set_ow_state s o) /\ advances o (set_ow_state s o).
Proof.
  intros [H1 H2 H3 H4 H5] Hs Hl. apply Forall_cons in H3 as [H3 H3'].
  apply StronglySorted_inv in H4 as [H4 H4'].
  split; [|by constructor]. constructor; cbn; try done; [by constructor|]. constructor; [done|].
  eapply Forall_impl; [done|]. cbn. intros s' Hle. unfold flip in *. by etransitivity.
Qed.

Lemma states_state_ok o : states_ok o -> state_ok (pinned_fsid o) (ow_state o).
Proof. intros [_ _ H _ _]. by apply Forall_cons in H as [H _]. Qed.

Lemma owner_state_ok o : owner_ok o -> state_ok (pinned_fsid o) (ow_state o).
Proof. intros [H _]. by apply states_state_ok. Qed.

Lemma publish_shows o : shows (published (publish config o)) (ow_state (publish config o)).
Proof. unfold publish. cbv zeta. by destruct (_ && _). Qed.

(** Publishing makes up for a state that is not shown yet. *)
Lemma publish_kept o : states_ok o -> owner_ok (publish config o) /\ advances o (publish config o).
Proof.
  intros Ho. destruct (states_state_ok o Ho) as [G F M O].
  destruct (state_moves o (next_generation (ow_state o)) Ho) as [[H1 H2 H3 H4 H5] A];
    [constructor; cbn; try done; lia|constructor; cbn; try done; lia|].
  enough (states_ok (publish config o) /\ advances o (publish config o)) as [? ?] by (by split; [split; [|apply publish_shows]|]).
  unfold publish. cbv zeta. set (o1 := set_ow_state _ o) in *.
  apply Forall_cons in H3 as [S1 H3]. apply StronglySorted_inv in H4 as [H4 L4].
  assert (forall h, (length h <= Z.to_nat (history_limit config))%nat ->
    Forall (state_ok (pinned_fsid o1)) h -> Forall (flip state_le (ow_state o1)) h ->
    StronglySorted (flip state_le) h ->
    states_ok (set_published (ow_state (set_history h o1)) (set_history h o1))) as Hok.
  { intros h Hh F1 F2 F3. constructor; cbn; try done; [by repeat (constructor; [done|])|].
    constructor; [by constructor|]. constructor; [unfold flip; done|done]. }
  split; [|destruct A; by destruct (_ && _)]. destruct (_ && _).
  - apply Hok; [rewrite length_take; lia|by apply Forall_take|by apply Forall_take|].
    eapply StronglySorted_app_1_l. by rewrite take_drop.
  - apply Forall_cons in H3 as [? H3], L4 as [? L4]. apply StronglySorted_inv in H4 as [H4 _].
    specialize (Hok (history o1) H5 H3 L4 H4). by destruct o1.
Qed.

Lemma moves_publish : moves (publish config).
Proof. intros o [Ho _]. by apply publish_kept. Qed.

(** ** Messages with maps *)

(** What a method of the owner does from one state. *)
Record safe_at {A} (m : OwnerM A) (o : Owner) : Prop := {
  sa_ok : owner_ok (m o).2;
  sa_advances : advances o (m o).2;
  sa_returns : (m o).1 <> Err MF_Panic
}.

Lemma safe_bind {A B} (m : OwnerM A) (k : A -> OwnerM B) o :
  safe_at m o -> (forall a o', m o = (Ok a, o') -> owner_ok o' -> safe_at (k a) o') ->
  safe_at (m ≫= k) o.
Proof.
  intros [H1 A1 P1] Hk. unfold mbind, St_bind.
  destruct (m o) as [[a|e] o1] eqn:E; cbn in *.
  - destruct (Hk a o1 eq_refl H1) as [H2 A2 P2].
    split; unfold mbind, St_bind; rewrite E; [done|by etransitivity|done].
  - split; unfold mbind, St_bind; rewrite E; cbn; [done..|]. congruence.
Qed.

Lemma safe_ret {A} (a : A) o : owner_ok o -> safe_at (mret a) o.
Proof. by split. Qed.

Lemma safe_lift {A} (r : result MonitorFault A) o : owner_ok o -> r <> Err MF_Panic -> safe_at (st_lift r) o.
Proof. by split. Qed.

Lemma safe_gets {A} (f : Owner -> result MonitorFault A) o :
  owner_ok o -> f o <> Err MF_Panic -> safe_at (st_gets f) o.
Proof. by split. Qed.

Lemma gets_inv {A} (f : Owner -> A) o a o' :
  (st_gets (fun o => Ok (f o)) : OwnerM A) o = (Ok a, o') -> a = f o /\ o' = o.
Proof. unfold st_gets. intros H. by simplify_eq. Qed.

Lemma safe_update f o : owner_ok (f o) /\ advances o (f o) -> safe_at (update f) o.
Proof. intros []. by split. Qed.

Lemma safe_try {A} (r : result MessageError A) o : owner_ok o -> safe_at (try_message r) o.
Proof. intros. apply safe_lift; [done|]. by destruct r. Qed.

Lemma pin_fsid_inv fsid o u o' : pin_fsid fsid o = (Ok u, o') ->
  pinned_fsid o' = Some fsid /\ ow_state o' = with_fsid fsid (ow_state o) /\ pinned_le (pinned_fsid o) (Some fsid)
  /\ refresh_epoch o' = refresh_epoch o.
Proof.
  unfold pin_fsid, mbind, St_bind, st_gets, update. cbn.
  destruct (pinned_fsid o) as [e|].
  - destruct (bool_decide (e <> fsid)) eqn:E; [done|]. apply bool_decide_eq_false, dec_stable in E as <-.
    cbn. intros ?. simplify_eq. by split_and!.
  - cbn. intros ?. simplify_eq. split_and!; [done|done|by intros f|done].
Qed.

Lemma safe_pin fsid o : owner_ok o -> safe_at (pin_fsid fsid) o.
Proof.
  intros Ho. unfold pin_fsid. apply safe_bind; [by apply safe_gets|]. intros a o1 E1 _. apply gets_inv in E1 as [-> ->].
  cond E; [by apply safe_lift|].
  apply safe_update. assert (pinned_le (pinned_fsid o) (Some fsid)) as Hle.
  { intros f Hf. rewrite Hf in E. apply bool_decide_eq_false, dec_stable in E. by subst. }
  destruct Ho as [Ho Hsh]. assert (states_ok (set_pinned_fsid (Some fsid) o)) as H1.
  { destruct Ho. constructor; try done. eapply Forall_impl; [done|]. intros s. by apply state_ok_le. }
  destruct (states_state_ok _ H1) as [G F M O].
  destruct (state_moves (set_pinned_fsid (Some fsid) o) (with_fsid fsid (ow_state o)) H1) as [H2 [A2 P2]];
    [by constructor|by constructor|].
  split; [|constructor; [done|]; cbn in *; by etransitivity]. constructor; [done|]. destruct Hsh. by constructor.
Qed.

(** A state of the owner, published. *)
Lemma publish_state o s :
  owner_ok o -> state_ok (pinned_fsid o) s -> state_le (ow_state o) s ->
  owner_ok (publish config (set_ow_state s o)) /\ advances o (publish config (set_ow_state s o)).
Proof.
  intros [Ho _] Hs Hl. destruct (state_moves o s Ho Hs Hl) as [H1 A1]. destruct (publish_kept _ H1) as [H2 A2].
  split; [done|by etransitivity].
Qed.

Lemma safe_subscribe_ack m o : owner_ok o -> safe_at (handle_subscribe_ack config m) o.
Proof.
  intros Ho. unfold handle_subscribe_ack. apply safe_bind; [by apply safe_try|]. intros a o1 _ H1.
  apply safe_bind; [by apply safe_pin|]. intros _ o2 _ H2.
  apply safe_bind; [by apply safe_update, moves_publish|]. intros _ o3 _ H3. by apply safe_ret.
Qed.

Lemma safe_monmap m o : owner_ok o -> safe_at (handle_monmap config m) o.
Proof.
  intros Ho. unfold handle_monmap. apply safe_bind; [by apply safe_try|]. intros map o1 _ H1.
  apply safe_bind; [by apply safe_pin|]. intros u o2 E2 H2. apply pin_fsid_inv in E2 as (Hp & _ & _ & _).
  apply safe_bind; [by apply safe_gets|]. intros newer o3 E3 _. apply gets_inv in E3 as [-> ->].
  apply safe_bind; [|intros _ o4 _ H4; by apply safe_ret].
  destruct (newer_than _ _ _) eqn:E; [|by apply safe_ret].
  apply safe_update. destruct (owner_state_ok _ H2) as [G F M O]. apply publish_state; [done|..].
  - constructor; try done. cbn. intros m' Hm. by simplify_eq.
  - constructor; try done. by apply map_le_newer.
Qed.

Lemma safe_mgrmap m o : owner_ok o -> safe_at (handle_mgrmap config m) o.
Proof.
  intros Ho. unfold handle_mgrmap. apply safe_bind; [by apply safe_gets|]. intros pinned o1 E1 H1.
  apply gets_inv in E1 as [-> ->]. destruct (pinned_fsid o); [|by apply safe_lift].
  apply safe_bind; [by apply safe_try|]. intros map o2 _ H2.
  apply safe_bind; [by apply safe_gets|]. intros newer o3 E3 _. apply gets_inv in E3 as [-> ->].
  apply safe_bind; [|intros _ o4 _ H4; by apply safe_ret].
  destruct (newer_than _ _ _) eqn:E; [|by apply safe_ret].
  apply safe_update. destruct (owner_state_ok _ H2) as [G F M O]. apply publish_state; [done|..].
  - by constructor.
  - constructor; try done. by apply map_le_newer.
Qed.

(** A map of the cluster [fsid]. *)
Definition map_of (fsid : list byte) (m : OSDMap) : Prop := om_fsid m = fsid /\ osdmap_ok m.

Lemma take_full_ok fsid l : forall cur,
  Forall (identified decode_osdmap om_fsid om_epoch fsid (map_limits config)) l ->
  (forall m, cur = Some m -> map_of fsid m) ->
  forall m, take_full_maps l cur = Some m -> map_of fsid m.
Proof.
  unfold take_full_maps. induction l as [|[epoch map] l IH]; intros cur Hl Hc m Hm; [by apply Hc|].
  apply Forall_cons in Hl as [[(bytes & Hd) [Hf He]] Hl]. eapply IH; [done| |exact Hm].
  cbn. destruct (newer_than _ _ _); [|done]. intros m' Hm'. simplify_eq. split; [done|]. by eapply decode_osdmap_inv.
Qed.

(** Applying a decoded incremental of the same cluster. *)
Lemma apply_map_of fsid base bytes i :
  map_of fsid base -> decode_osdmap_incremental bytes (map_limits config) = Ok i ->
  match apply_osdmap_incremental base i (map_limits config) with
  | Ok next => map_of fsid next /\ om_epoch next = om_epoch base + 1
  | Err AF_Panic => False
  | Err (AF_Error _) => True
  end.
Proof.
  intros [Hf Hb] Hd. pose proof (apply_incremental_ok False base i (map_limits config)) as Ha.
  destruct (apply_osdmap_incremental _ _ _) as [next|[]].
  - destruct Ha as (H1 & H2 & H3 & _); [by intros; eapply decode_osdmap_inv|by eapply decode_incremental_inv|done|done|].
    split; [split; congruence|done].
  - done.
  - apply Ha; [by intros; eapply decode_osdmap_inv|by eapply decode_incremental_inv|done|done].
Qed.

Lemma follow_ok fsid l : forall cur,
  Forall (identified decode_osdmap_incremental in_fsid in_epoch fsid (map_limits config)) l ->
  (forall m, cur = Some m -> map_of fsid m) ->
  match follow_incrementals config l cur with
  | Ok (Some m) => map_of fsid m
  | Ok None | Err (MF_Error _) => True
  | Err MF_Panic => False
  end.
Proof.
  induction l as [|[epoch i] l IH]; intros cur Hl Hc; cbn [follow_incrementals].
  - destruct cur; auto.
  - apply Forall_cons in Hl as [[(bytes & Hd) _] Hl]. destruct cur as [base|]; [|done].
    destruct (epoch <=? om_epoch base); [by apply IH|]. destruct (bool_decide _); [done|].
    pose proof (apply_map_of fsid base bytes i (Hc _ eq_refl) Hd) as Ha.
    destruct (apply_osdmap_incremental _ _ _) as [next|[]]; [|done..]. destruct Ha as [Ha _].
    apply IH; [done|]. intros m Hm. by simplify_eq.
Qed.

Lemma safe_osdmap m o : owner_ok o -> safe_at (handle_osdmap config m) o.
Proof.
  intros Ho. unfold handle_osdmap. apply safe_bind; [by apply safe_try|]. intros batch o1 _ H1.
  apply safe_bind; [by apply safe_try|]. intros maps o1' E1 _.
  assert (decode_osdmap_batch_maps batch (map_limits config) = Ok maps) as Hd.
  { unfold try_message, st_lift in E1. by destruct (decode_osdmap_batch_maps _ _); cbn in E1; simplify_eq. }
  assert (o1' = o1) as -> by (unfold try_message, st_lift in E1; congruence).
  apply decode_batch_inv in Hd as ((_ & Hi) & (_ & Hf) & _).
  apply safe_bind; [by apply safe_pin|]. intros u o2 E2 H2. apply pin_fsid_inv in E2 as (Hp & _ & _ & _).
  destruct (owner_state_ok _ H2) as [G F M O].
  assert (match advance_osdmap config maps (ms_osdmap (ow_state o2)) with
          | Ok (Some m) => map_of (batch_fsid batch) m
          | Ok None | Err (MF_Error _) => True | Err MF_Panic => False end) as Ha.
  { unfold advance_osdmap. pose proof (follow_ok _ _ (take_full_maps (full_maps maps) (ms_osdmap (ow_state o2))) Hi) as Hfo.
    destruct (follow_incrementals _ _ _) as [cur|[]]; cbn; [|done|].
    - destruct (_ || _); [done|]. apply Hfo. apply take_full_ok; [done|]. intros m' Hm'.
      destruct (O m' Hm'). split; [congruence|done].
    - apply Hfo. apply take_full_ok; [done|]. intros m' Hm'. destruct (O m' Hm'). split; [congruence|done]. }
  apply safe_bind; [apply safe_gets; [done|]; by destruct (advance_osdmap _ _ _) as [|[]]|].
  intros current o3 E3 _. unfold st_gets in E3. injection E3 as E3 <-. rewrite E3 in Ha.
  apply safe_bind.
  - apply safe_update. destruct current as [map|]; [|by apply moves_id]. destruct Ha as [Hm1 Hm2].
    unfold store_osdmap. destruct (newer_than _ _ _) eqn:E; [|by apply moves_id]. apply publish_state; [done|..].
    + constructor; try done. cbn. intros m' Hm'. simplify_eq. split; [by rewrite Hp, Hm1|done].
    + constructor; try done. by apply map_le_newer.
  - intros _ o4 _ H4. apply safe_bind; [by apply safe_gets|]. intros refresh o5 E5 _. apply gets_inv in E5 as [-> ->].
    cond E; [|by apply safe_ret].
    apply safe_bind; [by apply safe_update, moves_refresh|]. intros _ o6 _ H6. by apply safe_ret.
Qed.

Lemma safe_message m o : owner_ok o -> safe_at (handle_message config m) o.
Proof.
  intros Ho. unfold handle_message. cbv zeta. destruct (_ =? _); [by apply safe_subscribe_ack|].
  destruct (_ =? _); [by apply safe_monmap|]. destruct (_ =? _); [by apply safe_osdmap|].
  destruct (_ =? _); [by apply safe_mgrmap|by apply safe_ret].
Qed.

(** ** Sessions *)

(** A step of a session keeps the invariant, and what it returns is [Q]. *)
Record keeps {A} (x : OM A) (Q : A -> Prop) : Prop := {
  keeps_at o : owner_ok o -> owner_ok (x o).1.2 /\ advances o (x o).1.2 /\ Q (x o).1.1
}.

Lemma keeps_bind {A B} (x : OM A) (k : A -> OM B) P Q :
  keeps x P -> (forall a, P a -> keeps (k a) Q) -> keeps (x ≫= k) Q.
Proof.
  intros [Hx] Hk. constructor. intros o Ho. destruct (Hx o Ho) as (H1 & A1 & Q1). unfold mbind, OM_bind.
  destruct (x o) as [[a o1] e1]. cbn in *. destruct (keeps_at _ _ (Hk a Q1) o1 H1) as (H2 & A2 & Q2).
  destruct (k a o1) as [[b o2] e2]. cbn in *. split; [done|]. split; [by etransitivity|done].
Qed.

Lemma keeps_ret {A} (a : A) (Q : A -> Prop) : Q a -> keeps (mret a) Q.
Proof. intros Ha. by constructor. Qed.

Lemma keeps_outputs l (Q : unit -> Prop) : Q tt -> keeps (outputs l) Q.
Proof. intros Hq. by constructor. Qed.

Lemma keeps_output e (Q : unit -> Prop) : Q tt -> keeps (output e) Q.
Proof. intros Hq. by constructor. Qed.

Lemma keeps_gets {A} (f : Owner -> A) (Q : A -> Prop) : (forall o, owner_ok o -> Q (f o)) -> keeps (owner_gets f) Q.
Proof. intros Hf. constructor. intros o Ho. cbn. by split; [|split; [|apply Hf]]. Qed.

Lemma keeps_update f (Q : unit -> Prop) : moves f -> Q tt -> keeps (owner_update f) Q.
Proof. intros Hf Hq. constructor. intros o Ho. cbn. destruct (Hf o Ho). by split_and!. Qed.

Ltac keep := first
  [ apply keeps_ret | apply keeps_outputs | apply keeps_output
  | eapply keeps_bind with (P := fun _ => True); [|intros ? _] ]; try done.

Definition no_panic (flow : Flow) : Prop := flow <> Leave SO_Panic.

Lemma keeps_close outcome l : outcome <> SO_Panic -> keeps (close_and_leave outcome l) no_panic.
Proof. intros Ho. unfold close_and_leave, leave. repeat keep. unfold no_panic. congruence. Qed.

Lemma keeps_leave outcome l : outcome <> SO_Panic -> keeps (leave outcome l) no_panic.
Proof. intros Ho. unfold leave. repeat keep. unfold no_panic. congruence. Qed.

Lemma keeps_subscribe env full : keeps (subscribe config env full) (fun _ => True).
Proof.
  unfold subscribe. eapply keeps_bind with (P := fun _ => True); [by apply keeps_gets|]. intros st _.
  destruct (encode_subscribe _ _ _); repeat keep.
Qed.

Lemma keeps_subscribe_report env full : keeps (subscribe_or_report config env full) (fun _ => True).
Proof.
  unfold subscribe_or_report. eapply keeps_bind; [apply keeps_subscribe|]. intros [] _; unfold report; keep.
Qed.

Lemma keeps_fail_all l : keeps (fail_all l) (fun _ => True).
Proof. unfold fail_all, fail_pending_command, fail_pending_statfs, fail_pending_pool_stats, fail_pending_pool_operation. repeat keep. Qed.

Lemma keeps_uncorrelated reason l : keeps (uncorrelated reason l) no_panic.
Proof. unfold uncorrelated, report. repeat keep. Qed.

(** The replies only take requests out of their lanes. *)
Ltac reply_keeps :=
  repeat first
    [ apply keeps_uncorrelated
    | apply keeps_close; done
    | match goal with
      | |- keeps (match ?c with Some _ => _ | None => _ end) _ => destruct c
      | |- keeps (if ?c then _ else _) _ => destruct c
      | |- keeps (owner_gets _ ≫= _) _ =>
          eapply keeps_bind with (P := fun _ => True); [by apply keeps_gets|intros ? _]
      | |- keeps (_ ≫= _) _ => keep
      | |- keeps (mret _) _ => keep
      | |- keeps (report _) _ => unfold report; keep
      | |- keeps (fail_pending_command _) _ => unfold fail_pending_command
      | |- keeps (fail_pending_statfs _) _ => unfold fail_pending_statfs
      | |- keeps (fail_pending_pool_stats _) _ => unfold fail_pending_pool_stats
      | |- keeps (fail_pending_pool_operation _) _ => unfold fail_pending_pool_operation
      end ].

Lemma keeps_command_reply m l : keeps (command_reply config m l) no_panic.
Proof. unfold command_reply. reply_keeps. Qed.

Lemma keeps_statfs_reply m l : keeps (statfs_reply config m l) no_panic.
Proof. unfold statfs_reply. cbv zeta. reply_keeps. Qed.

Lemma keeps_pool_stats_reply m l : keeps (pool_stats_reply config m l) no_panic.
Proof. unfold pool_stats_reply. cbv zeta. reply_keeps. Qed.

Lemma keeps_pool_operation_reply m l : keeps (pool_operation_reply config m l) no_panic.
Proof. unfold pool_operation_reply. cbv zeta. reply_keeps. Qed.

Lemma keeps_run {A} (m : OwnerM A) :
  (forall o, owner_ok o -> safe_at m o) -> keeps (owner_run m) (fun r => r <> Err MF_Panic).
Proof. intros Hm. constructor. intros o Ho. unfold owner_run. destruct (Hm o Ho). by destruct (m o). Qed.

Lemma keeps_map_message env m l : keeps (map_message config env m l) no_panic.
Proof.
  unfold map_message. eapply keeps_bind; [apply keeps_run; intros; by apply safe_message|].
  intros r Hr. assert (forall e, keeps (l0 ← fail_all l; _ ← report e; close_and_leave SO_Failover l0) no_panic) as Hfail.
  { intros e. eapply keeps_bind; [apply keeps_fail_all|intros ? _]. unfold report. keep; by apply keeps_close. }
  destruct r as [[]|[e|]]; [keep| | |done].
  - eapply keeps_bind; [apply keeps_subscribe_report|intros; keep].
  - destruct e; try apply Hfail.
    + eapply keeps_bind; [apply keeps_fail_all|intros ? _]. unfold report. keep; by apply keeps_close.
    + unfold report. keep. eapply keeps_bind with (P := fun _ => True); [by apply keeps_gets|intros [] _]; [keep|].
      eapply keeps_bind with (P := fun _ => True); [apply keeps_update; [|done]|intros _ _].
      * intros o Ho. by apply moves_refresh.
      * eapply keeps_bind; [apply keeps_subscribe_report|intros; keep].
Qed.

Lemma keeps_dispatch env m pend cleared fail : keeps (dispatch_request env m pend cleared fail) no_panic.
Proof.
  unfold dispatch_request. eapply keeps_bind with (P := fun _ => True).
  { constructor. intros o Ho. destruct (moves_transaction o Ho). by split_and!. }
  intros t _. keep. destruct (env_send _ _); [keep|]. keep; by apply keeps_close.
Qed.

(** A new request is answered at once or sent. *)
Ltac request_keeps :=
  repeat first
    [ apply keeps_dispatch
    | match goal with
      | |- keeps (match ?c with Ok _ => _ | Err _ => _ end) _ => destruct c
      | |- keeps (owner_gets _ ≫= _) _ =>
          eapply keeps_bind with (P := fun _ => True); [by apply keeps_gets|intros ? _]
      | |- keeps (_ ≫= _) _ => keep
      | |- keeps (mret _) _ => keep
      end ].

Lemma keeps_event env ev l : keeps (session_event config env ev l) no_panic.
Proof.
  assert (keeps (fail_all l) (fun _ => True)) as Hf by apply keeps_fail_all.
  destruct ev as [|[m|]|e| |[epoch|]|[c|]|[c|]|[c|]|[c|]|]; cbn [session_event]; try (apply keeps_ret; done).
  - by apply keeps_close.
  - unfold incoming. cbv zeta. repeat (cond E; [first [apply keeps_command_reply|apply keeps_statfs_reply|
      apply keeps_pool_stats_reply|apply keeps_pool_operation_reply]|clear E]). apply keeps_map_message.
  - eapply keeps_bind; [exact Hf|intros ? _]. keep; by apply keeps_leave.
  - eapply keeps_bind; [exact Hf|intros ? _]. unfold report. repeat keep; by apply keeps_leave.
  - eapply keeps_bind; [apply keeps_subscribe_report|intros; keep].
  - eapply keeps_bind with (P := fun _ => True); [apply keeps_update; [|done]; intros o Ho; by apply moves_refresh|intros _ _].
    eapply keeps_bind; [apply keeps_subscribe_report|intros; keep].
  - unfold new_command. request_keeps.
  - unfold new_statfs. request_keeps.
  - unfold new_pool_stats. request_keeps.
  - unfold new_pool_operation. request_keeps.
  - unfold request_check. cbv zeta. cond E; [|keep]. eapply keeps_bind; [exact Hf|intros ? _]. by apply keeps_close.
Qed.

Lemma keeps_start env opened : keeps (session_start config env opened) no_panic.
Proof.
  unfold session_start. eapply keeps_bind with (P := fun _ => True).
  { apply keeps_update; [|done]. intros o Ho. destruct (owner_state_ok _ Ho). by apply publish_state. }
  intros _ _. eapply keeps_bind; [apply keeps_subscribe|intros [] _]; [|unfold report; keep; by apply keeps_close].
  eapply keeps_bind with (P := fun _ => True); [by apply keeps_gets|intros refresh _].
  eapply keeps_bind with (P := fun _ => True); [|intros; keep]. destruct (bool_decide _); [apply keeps_subscribe_report|keep].
Qed.

(** ** The owner's life *)

Definition running (rs : RunState) : Prop := rs <> RS_Panicked.

Lemma keeps_open n attempt : keeps (open_next config n attempt) (fun r => r <> Err MF_Panic).
Proof.
  induction n as [|n IH]; cbn [open_next]; [by keep|].
  assert (forall a, keeps
    (seed ← owner_gets next_seed;
     match zget (seeds config) seed with
     | None => mret (Err MF_Panic)
     | Some endpoint =>
         _ ← owner_update (set_next_seed ((seed + 1) mod zlen (seeds config)));
         match a with
         | At_Opened opened => mret (Ok (ep_address endpoint, opened))
         | At_Failed e => _ ← report e; open_next config n attempt
         | At_TimedOut => _ ← report MnE_ConnectTimeout; open_next config n attempt
         | _ => mret (Err (MF_Error MnE_Closed))
         end
     end) (fun r => r <> Err MF_Panic)) as Ha.
  { intros a. eapply keeps_bind with (P := fun x => 0 <= x < zlen (seeds config));
      [apply keeps_gets; by intros o [[]]|intros seed Hs].
    unfold zget. destruct (Z.ltb_spec seed 0); [lia|].
    destruct (lookup_lt_is_Some_2 (seeds config) (Z.to_nat seed)) as [endpoint ->]; [unfold zlen in Hs; lia|].
    eapply keeps_bind with (P := fun _ => True).
    - apply keeps_update; [|done]. apply moves_seed. apply Z.mod_pos_bound. lia.
    - intros _ _. unfold report. destruct a; repeat keep; apply IH. }
  destruct (attempt n) as [| |opened|e|];
    [by apply keeps_ret|exact (Ha At_StopChanged)|exact (Ha (At_Opened opened))|exact (Ha (At_Failed e))|exact (Ha At_TimedOut)].
Qed.

Lemma keeps_after address flow : no_panic flow -> keeps (after_flow config address flow) running.
Proof.
  intros Hf. destruct flow as [l|[]]; cbn; try by keep.
  eapply keeps_bind with (P := fun _ => True); [apply keeps_update; [apply moves_foreign|done]|intros _ _].
  eapply keeps_bind with (P := fun _ => True); [by apply keeps_gets|intros ? _]. cond E; keep.
Qed.

Lemma keeps_step input rs : running rs -> keeps (run_step config input rs) running.
Proof.
  intros Hr. destruct rs, input; cbn [run_step]; try by keep.
  - destruct stopped; [by keep|]. eapply keeps_bind; [apply keeps_open|].
    intros [[address opened]|[]] Ho; [|by keep|done].
    eapply keeps_bind; [apply keeps_start|]. intros. by apply keeps_after.
  - cond E; [|by keep]. eapply keeps_bind; [apply keeps_event|]. intros. by apply keeps_after.
  - cond E; keep.
Qed.

Lemma keeps_run_all inputs : forall rs, running rs -> keeps (run_all config inputs rs) running.
Proof.
  induction inputs as [|i inputs IH]; intros rs Hr; cbn [run_all]; [by keep|].
  eapply keeps_bind; [by apply keeps_step|]. intros. by apply IH.
Qed.

Lemma spawn_ok o : spawn config = Ok o -> 0 <= history_limit config -> owner_ok o.
Proof.
  unfold spawn, MonitorConfig_validate. cond E; [done|]. intros H Hh. apply Ok_inj in H as <-.
  do 14 apply orb_false_elim in E as [E _]. apply Z.eqb_neq in E.
  pose proof (zlen_nonneg (seeds config)). constructor; [|done]. constructor; cbn; [lia|lia| | |lia].
  - repeat constructor; cbn; try done; unfold u64_max; lia.
  - repeat constructor; cbn; try done; lia.
Qed.
End Invariant.

(** ** The account of the requests *)

(** The channels that got an answer or were dropped. *)
Definition closed_channels (l : list Output) : list Z :=
  omap (fun e => match e with Out_Answer ch _ | Out_Dropped ch => Some ch | _ => None end) l.

Definition flow_channels (flow : Flow) : list Z :=
  match flow with Continue l => lane_channels l | Leave _ => [] end.

(** The channel that comes with an event. *)
Definition event_channels (ev : MonEvent) : list Z :=
  match ev with
  | Ev_Command (Some c) => [mc_reply c]
  | Ev_StatFs (Some c) => [sc_reply c]
  | Ev_PoolStats (Some c) => [pc_reply c]
  | Ev_PoolOperation (Some c) => [oc_reply c]
  | _ => []
  end.

Lemma closed_app a b : closed_channels (a ++ b) = closed_channels a ++ closed_channels b.
Proof. apply omap_app. Qed.

Lemma closed_dropped l : closed_channels (Out_Dropped <$> l) = l.
Proof. induction l as [|x l IH]; cbn; [done|]. f_equal. apply IH. Qed.

(** After a step that started with the channels [before], each is pending or
    closed. *)
Record ledger (x : OM Flow) (before : list Z) : Prop := {
  ledger_at o : before ≡ₚ flow_channels (x o).1.1 ++ closed_channels (x o).2
}.

(** A step that closes the channels [ch]. *)
Record closes {A} (x : OM A) (ch : list Z) (Q : A -> Prop) : Prop := {
  closes_at o : closed_channels (x o).2 = ch /\ Q (x o).1.1
}.

Lemma ledger_bind {A} (x : OM A) (k : A -> OM Flow) ch Q before rest :
  closes x ch Q -> before ≡ₚ rest ++ ch -> (forall a, Q a -> ledger (k a) rest) -> ledger (x ≫= k) before.
Proof.
  intros [Hx] Hb Hk. constructor. intros o. destruct (Hx o) as [E Hq]. unfold mbind, OM_bind.
  destruct (x o) as [[a o1] e1]. cbn [fst snd] in *. destruct (Hk a Hq) as [Hk']. specialize (Hk' o1).
  destruct (k a o1) as [[b o2] e2]. cbn [fst snd] in *. rewrite closed_app, E, Hb, Hk'. solve_Permutation.
Qed.

Lemma ledger_ret l before : before ≡ₚ lane_channels l -> ledger (mret (Continue l)) before.
Proof. intros Hb. constructor. intros o. cbn. by rewrite app_nil_r. Qed.

Lemma closes_bind {A B} (x : OM A) (k : A -> OM B) c1 c2 P Q :
  closes x c1 P -> (forall a, P a -> closes (k a) c2 Q) -> closes (x ≫= k) (c1 ++ c2) Q.
Proof.
  intros [Hx] Hk. constructor. intros o. destruct (Hx o) as [E Hp]. unfold mbind, OM_bind.
  destruct (x o) as [[a o1] e1]. cbn [fst snd] in *. destruct (Hk a Hp) as [Hk']. destruct (Hk' o1) as [E2 Hq].
  destruct (k a o1) as [[b o2] e2]. cbn [fst snd] in *. by rewrite closed_app, E, E2.
Qed.

Lemma closes_outputs l : closes (outputs l) (closed_channels l) (fun _ => True).
Proof. by constructor. Qed.

Lemma closes_output e : closes (output e) (closed_channels [e]) (fun _ => True).
Proof. by constructor. Qed.

Lemma closes_ret {A} (a : A) : closes (mret a) [] (fun b => b = a).
Proof. by constructor. Qed.

Lemma closes_gets {A} (f : Owner -> A) : closes (owner_gets f) [] (fun _ => True).
Proof. by constructor. Qed.

Lemma closes_update f : closes (owner_update f) [] (fun _ => True).
Proof. by constructor. Qed.

Lemma ledger_leave outcome l before : before ≡ₚ lane_channels l -> ledger (leave outcome l) before.
Proof.
  intros Hb. constructor. intros o. unfold leave, mbind, OM_bind, outputs. cbn [fst snd mret OM_ret flow_channels].
  by rewrite app_nil_r, closed_dropped, Hb.
Qed.

Lemma ledger_silent {A} (x : OM A) (k : A -> OM Flow) Q before :
  closes x [] Q -> (forall a, ledger (k a) before) -> ledger (x ≫= k) before.
Proof. intros Hx Hk. eapply ledger_bind; [done|by rewrite app_nil_r|]. intros. apply Hk. Qed.

Lemma ledger_close outcome l before : before ≡ₚ lane_channels l -> ledger (close_and_leave outcome l) before.
Proof.
  intros Hb. unfold close_and_leave. eapply ledger_silent; [apply closes_output|intros _].
  eapply ledger_silent; [apply closes_output|intros _]. by apply ledger_leave.
Qed.

(** What a lane holds is among the pending channels. *)
Lemma lane_command l : lane_channels l ≡ₚ
  lane_channels (set_pending_command None l) ++ option_list (mc_reply <$> pending_command l).
Proof. unfold lane_channels. cbn. solve_Permutation. Qed.

Lemma lane_statfs l : lane_channels l ≡ₚ
  lane_channels (set_pending_statfs None l) ++ option_list (sc_reply <$> pending_statfs l).
Proof. unfold lane_channels. cbn. solve_Permutation. Qed.

Lemma lane_pool_stats l : lane_channels l ≡ₚ
  lane_channels (set_pending_pool_stats None l) ++ option_list (pc_reply <$> pending_pool_stats l).
Proof. unfold lane_channels. cbn. solve_Permutation. Qed.

Lemma lane_pool_operation l : lane_channels l ≡ₚ
  lane_channels (set_pending_pool_operation None l) ++ option_list (oc_reply <$> pending_pool_operation l).
Proof. unfold lane_channels. cbn. solve_Permutation. Qed.

Ltac silent := first
  [ eapply ledger_silent; [apply closes_output|intros _]
  | eapply ledger_silent; [apply closes_gets|intros ?]
  | eapply ledger_silent; [apply closes_update|intros _] ].

(** An answer closes the channel it goes to. *)
Lemma ledger_answer ch a (k : unit -> OM Flow) before rest :
  before ≡ₚ rest ++ [ch] -> ledger (k tt) rest -> ledger (output (Out_Answer ch a) ≫= k) before.
Proof. intros Hb Hk. eapply ledger_bind; [apply closes_output|exact Hb|]. by intros [] _. Qed.

(** Failing a lane closes the channel of its request. *)
Lemma closed_option {C} (f : C -> Z) (g : C -> Answer) (c : option C) :
  closed_channels (option_list ((fun c => Out_Answer (f c) (g c)) <$> c)) = option_list (f <$> c).
Proof. by destruct c. Qed.

Lemma closes_emit {A} l (a : A) : closes (_ ← outputs l; mret a) (closed_channels l) (fun b => b = a).
Proof.
  constructor. intros o. unfold mbind, OM_bind, outputs. cbn [fst snd mret OM_ret]. by rewrite app_nil_r.
Qed.

Lemma ledger_fail_command l k before :
  before ≡ₚ lane_channels l -> (ledger (k (set_pending_command None l)) (lane_channels (set_pending_command None l))) ->
  ledger (fail_pending_command l ≫= k) before.
Proof.
  intros Hb Hk. eapply ledger_bind with (ch := option_list (mc_reply <$> pending_command l)) (Q := fun a => a = _);
    [|by rewrite Hb; apply lane_command|by intros a ->].
  rewrite <- (closed_option mc_reply (fun _ => A_Command OutcomeUnknown)). apply closes_emit.
Qed.

Lemma ledger_fail_statfs l k before :
  before ≡ₚ lane_channels l -> (ledger (k (set_pending_statfs None l)) (lane_channels (set_pending_statfs None l))) ->
  ledger (fail_pending_statfs l ≫= k) before.
Proof.
  intros Hb Hk. eapply ledger_bind with (ch := option_list (sc_reply <$> pending_statfs l)) (Q := fun a => a = _);
    [|by rewrite Hb; apply lane_statfs|by intros a ->].
  rewrite <- (closed_option sc_reply (fun _ => A_StatFs OutcomeUnknown)). apply closes_emit.
Qed.

Lemma ledger_fail_pool_stats l k before :
  before ≡ₚ lane_channels l -> (ledger (k (set_pending_pool_stats None l)) (lane_channels (set_pending_pool_stats None l))) ->
  ledger (fail_pending_pool_stats l ≫= k) before.
Proof.
  intros Hb Hk. eapply ledger_bind with (ch := option_list (pc_reply <$> pending_pool_stats l)) (Q := fun a => a = _);
    [|by rewrite Hb; apply lane_pool_stats|by intros a ->].
  rewrite <- (closed_option pc_reply (fun _ => A_PoolStats OutcomeUnknown)). apply closes_emit.
Qed.

Lemma ledger_fail_pool_operation l k before :
  before ≡ₚ lane_channels l ->
  (ledger (k (set_pending_pool_operation None l)) (lane_channels (set_pending_pool_operation None l))) ->
  ledger (fail_pending_pool_operation l ≫= k) before.
Proof.
  intros Hb Hk. eapply ledger_bind with (ch := option_list (oc_reply <$> pending_pool_operation l)) (Q := fun a => a = _);
    [|by rewrite Hb; apply lane_pool_operation|by intros a ->].
  rewrite <- (closed_option oc_reply (fun _ => A_PoolOperation OutcomeUnknown)). apply closes_emit.
Qed.

Lemma closes_weaken {A} (x : OM A) ch (P Q : A -> Prop) :
  closes x ch P -> (forall a, P a -> Q a) -> closes x ch Q.
Proof. intros [Hx] Hpq. constructor. intros o. destruct (Hx o). auto. Qed.

Lemma closes_fail_all l : closes (fail_all l) (lane_channels l) (fun l' => lane_channels l' = []).
Proof.
  unfold fail_all, lane_channels.
  rewrite <- (closed_option mc_reply (fun _ => A_Command OutcomeUnknown)).
  rewrite <- (closed_option sc_reply (fun _ => A_StatFs OutcomeUnknown)).
  rewrite <- (closed_option pc_reply (fun _ => A_PoolStats OutcomeUnknown)).
  rewrite <- (closed_option oc_reply (fun _ => A_PoolOperation OutcomeUnknown)).
  eapply closes_bind; [apply closes_emit|intros ? ->]. eapply closes_bind; [apply closes_emit|intros ? ->].
  eapply closes_bind; [apply closes_emit|intros ? ->]. eapply closes_weaken; [apply closes_emit|by intros ? ->].
Qed.

Lemma ledger_fail_all l k before :
  before ≡ₚ lane_channels l -> (forall l', lane_channels l' = [] -> ledger (k l') []) ->
  ledger (fail_all l ≫= k) before.
Proof. intros Hb Hk. eapply (ledger_bind _ _ _ _ _ []); [apply closes_fail_all|exact Hb|done]. Qed.

Section Account.
  Context {crc_crate : Crc32cCrate} {order : HashOrder} (config : MonitorConfig).

Lemma ledger_uncorrelated reason l : ledger (uncorrelated reason l) (lane_channels l).
Proof. unfold uncorrelated, report. silent. by apply ledger_ret. Qed.

Lemma ledger_command_reply m l : ledger (command_reply config m l) (lane_channels l).
Proof.
  unfold command_reply. pose proof (lane_command l) as Hl.
  destruct (pending_command l); [|apply ledger_uncorrelated]. destruct (negb _); [apply ledger_uncorrelated|].
  cbv zeta. eapply ledger_answer; [exact Hl|]. by apply ledger_ret.
Qed.

Lemma ledger_statfs_reply m l : ledger (statfs_reply config m l) (lane_channels l).
Proof.
  unfold statfs_reply. pose proof (lane_statfs l) as Hl.
  destruct (pending_statfs l); [|apply ledger_uncorrelated]. destruct (negb _); [apply ledger_uncorrelated|].
  cbv zeta. silent. cond E; (eapply ledger_answer; [exact Hl|]); [|by apply ledger_ret].
  apply ledger_fail_command; [done|]. apply ledger_fail_pool_stats; [done|]. apply ledger_fail_pool_operation; [done|].
  unfold report. silent. by apply ledger_close.
Qed.

Lemma ledger_pool_stats_reply m l : ledger (pool_stats_reply config m l) (lane_channels l).
Proof.
  unfold pool_stats_reply. pose proof (lane_pool_stats l) as Hl.
  destruct (pending_pool_stats l); [|apply ledger_uncorrelated]. destruct (negb _); [apply ledger_uncorrelated|].
  cbv zeta. silent. cond E; (eapply ledger_answer; [exact Hl|]); [|by apply ledger_ret].
  apply ledger_fail_command; [done|]. apply ledger_fail_statfs; [done|]. apply ledger_fail_pool_operation; [done|].
  unfold report. silent. by apply ledger_close.
Qed.

Lemma ledger_pool_operation_reply m l : ledger (pool_operation_reply config m l) (lane_channels l).
Proof.
  unfold pool_operation_reply. pose proof (lane_pool_operation l) as Hl.
  destruct (pending_pool_operation l); [|apply ledger_uncorrelated]. destruct (negb _); [apply ledger_uncorrelated|].
  cbv zeta. silent. cond E; (eapply ledger_answer; [exact Hl|]); [|by apply ledger_ret].
  apply ledger_fail_command; [done|]. apply ledger_fail_statfs; [done|]. apply ledger_fail_pool_stats; [done|].
  unfold report. silent. by apply ledger_close.
Qed.

Lemma closes_subscribe env full : closes (subscribe config env full) [] (fun _ => True).
Proof.
  unfold subscribe. eapply (closes_bind _ _ [] []); [apply closes_gets|]. intros st _.
  destruct (encode_subscribe _ _ _); by constructor.
Qed.

Lemma closes_subscribe_report env full : closes (subscribe_or_report config env full) [] (fun _ => True).
Proof.
  unfold subscribe_or_report. eapply (closes_bind _ _ [] []); [apply closes_subscribe|]. by intros [].
Qed.

Lemma ledger_map_message env m l : ledger (map_message config env m l) (lane_channels l).
Proof.
  unfold map_message. eapply (ledger_silent _ _ (fun _ => True)); [by constructor|]. intros r.
  assert (forall e outcome, ledger (l0 ← fail_all l; _ ← report e; close_and_leave outcome l0) (lane_channels l)) as Hfail.
  { intros e outcome. apply ledger_fail_all; [done|]. intros l' Hl'. unfold report. silent. apply ledger_close. by rewrite Hl'. }
  assert (forall full, ledger (_ ← subscribe_or_report config env full; mret (Continue l)) (lane_channels l)) as Hsub.
  { intros full. eapply ledger_silent; [apply closes_subscribe_report|intros _]. by apply ledger_ret. }
  destruct r as [[]|[[]|]]; try apply Hfail; [by apply ledger_ret|apply Hsub| |by apply ledger_leave].
  unfold report. silent. silent. destruct a; [by apply ledger_ret|]. silent. apply Hsub.
Qed.

Lemma ledger_dispatch env m pend cleared fail ch before :
  (forall t, before ≡ₚ lane_channels (pend t)) -> before ≡ₚ lane_channels cleared ++ [ch] ->
  (forall e, exists a, fail e = Out_Answer ch a) ->
  ledger (dispatch_request env m pend cleared fail) before.
Proof.
  intros Hp Hc Hf. unfold dispatch_request. eapply (ledger_silent _ _ (fun _ => True)); [by constructor|]. intros t.
  silent. destruct (env_send _ _) as [|e]; [by apply ledger_ret|]. destruct (Hf e) as [a ->].
  eapply ledger_answer; [exact Hc|]. by apply ledger_close.
Qed.

(** A request that is answered at once leaves the lanes alone. *)
Lemma ledger_refuse ch a l before :
  before ≡ₚ lane_channels l ++ [ch] -> ledger (_ ← output (Out_Answer ch a); mret (Continue l)) before.
Proof. intros Hb. eapply ledger_answer; [exact Hb|]. by apply ledger_ret. Qed.

Ltac request_ledger c :=
  repeat match goal with
  | |- ledger (owner_gets _ ≫= _) _ => silent
  | |- ledger (match ?r with Ok _ => _ | Err _ => _ end) _ => destruct r
  | |- ledger (output _ ≫= _) _ => by apply ledger_refuse
  end;
  apply (ledger_dispatch _ _ _ _ _ c);
  [intros t; unfold lane_channels; cbn; solve_Permutation|done|by intros; eexists].

Lemma ledger_new_command env c l : pending_command l = None ->
  ledger (new_command config env c l) (lane_channels l ++ [mc_reply c]).
Proof.
  intros Hn. destruct l as [p1 p2 p3 p4]. cbn in Hn. subst p1. unfold new_command. request_ledger (mc_reply c).
Qed.

Lemma ledger_new_statfs env c l : pending_statfs l = None ->
  ledger (new_statfs config env c l) (lane_channels l ++ [sc_reply c]).
Proof.
  intros Hn. destruct l as [p1 p2 p3 p4]. cbn in Hn. subst p2. unfold new_statfs. request_ledger (sc_reply c).
Qed.

Lemma ledger_new_pool_stats env c l : pending_pool_stats l = None ->
  ledger (new_pool_stats config env c l) (lane_channels l ++ [pc_reply c]).
Proof.
  intros Hn. destruct l as [p1 p2 p3 p4]. cbn in Hn. subst p3. unfold new_pool_stats. request_ledger (pc_reply c).
Qed.

Lemma ledger_new_pool_operation env c l : pending_pool_operation l = None ->
  ledger (new_pool_operation config env c l) (lane_channels l ++ [oc_reply c]).
Proof.
  intros Hn. destruct l as [p1 p2 p3 p4]. cbn in Hn. subst p4. unfold new_pool_operation. request_ledger (oc_reply c).
Qed.

Lemma ledger_event env ev l : enabled l ev = true ->
  ledger (session_event config env ev l) (lane_channels l ++ event_channels ev).
Proof.
  intros He. destruct ev as [|[m|]|e| |[epoch|]|[c|]|[c|]|[c|]|[c|]|];
    cbn [session_event event_channels enabled] in *; try rewrite app_nil_r; try (by apply ledger_ret);
    try (apply bool_decide_eq_true in He).
  - by apply ledger_close.
  - unfold incoming. cbv zeta. destruct (_ =? _); [apply ledger_command_reply|].
    destruct (_ =? _); [apply ledger_statfs_reply|]. destruct (_ =? _); [apply ledger_pool_stats_reply|].
    destruct (_ =? _); [apply ledger_pool_operation_reply|apply ledger_map_message].
  - apply ledger_fail_all; [done|]. intros l' Hl'. silent. apply ledger_leave. by rewrite Hl'.
  - apply ledger_fail_all; [done|]. intros l' Hl'. unfold report. silent. silent. apply ledger_leave. by rewrite Hl'.
  - eapply ledger_silent; [apply closes_subscribe_report|intros _]. by apply ledger_ret.
  - silent. eapply ledger_silent; [apply closes_subscribe_report|intros _]. by apply ledger_ret.
  - by apply ledger_new_command.
  - by apply ledger_new_statfs.
  - by apply ledger_new_pool_stats.
  - by apply ledger_new_pool_operation.
  - unfold request_check. cbv zeta. cond E; [|by apply ledger_ret].
    apply ledger_fail_all; [done|]. intros l' Hl'. apply ledger_close. by rewrite Hl'.
Qed.
End Account.
