(* ===== verification/MonClientTheorems.v ===== *)
(** * Theorems on the monitor client

    What holds of every run of the monitor client's owner: its maps only move
    forward and belong to one cluster, every request is accounted for, only
    matching replies are answered, and every OSD map comes from the monitors
    step by step. *)

From S2P Require Import Prelude Codec Message Address Frame MapBase MonMap Pool OsdMap Incremental IncrementalProps IncrementalOrder BTree MonMessages SessionState MonClient MonClientProps.
From Stdlib Require Import ZArith Lia Strings.Byte Strings.String.
From stdpp Require Import base option gmap sorting numbers list.

Open Scope Z_scope.

Section Runs.
  Context {crc_crate : Crc32cCrate} {order : HashOrder} (config : MonitorConfig).

(** C20. At any two points of a run the owner has not panicked, its states
    form a history of one cluster in which maps are only replaced by later
    ones, the state its callers are shown has the generation, the maps and the
    session's identity of its own, and the later point shows maps and a cluster
    identity that are those of the earlier one or newer. *)
Theorem monitor_run_invariant o inputs later :
  spawn config = Ok o -> 0 <= history_limit config ->
  let '(rs1, o1, _) := run_all config inputs RS_Open o in
  let '(rs2, o2, _) := run_all config later rs1 o1 in
  rs2 <> RS_Panicked /\ owner_ok config o1 /\ owner_ok config o2 /\ advances o1 o2
  /\ pinned_le (expected_fsid config) (pinned_fsid o2).
Proof.
  intros Hs Hh. pose proof (spawn_ok config o Hs Hh) as Ho.
  assert (pinned_fsid o = expected_fsid config) as Hp.
  { unfold spawn in Hs. apply bind_inv in Hs as (u & _ & Hs). by apply Ok_inj in Hs as <-. }
  destruct (keeps_at _ _ _ (keeps_run_all config inputs RS_Open ltac:(done)) o Ho) as (H1 & A1 & R1).
  destruct (run_all config inputs RS_Open o) as [[rs1 o1] e1]. cbn in *.
  destruct (keeps_at _ _ _ (keeps_run_all config later rs1 R1) o1 H1) as (H2 & A2 & R2).
  destruct (run_all config later rs1 o1) as [[rs2 o2] e2]. cbn in *. split_and!; try done.
  rewrite <- Hp. destruct A1, A2. by etransitivity.
Qed.

(** ** The account of the requests *)

Definition run_channels (rs : RunState) : list Z :=
  match rs with RS_Session _ l => lane_channels l | _ => [] end.

(** The channel of the request an input brings, if the loop takes it. *)
Definition accepted (rs : RunState) (input : RunInput) : list Z :=
  match rs, input with
  | RS_Session _ l, In_Event _ ev => if enabled l ev then event_channels ev else []
  | _, _ => []
  end.

Fixpoint accepted_all (inputs : list RunInput) (rs : RunState) (o : Owner) : list Z :=
  match inputs with
  | [] => []
  | i :: inputs =>
      let '(rs', o', _) := run_step config i rs o in accepted rs i ++ accepted_all inputs rs' o'
  end.

Lemma after_flow_account address flow o :
  run_channels (after_flow config address flow o).1.1 = flow_channels flow
  /\ closed_channels (after_flow config address flow o).2 = [].
Proof.
  destruct flow as [l|[]]; try done. cbn [after_flow after_session].
  unfold mbind, OM_bind, owner_update, owner_gets. by destruct (zlen _ =? zlen _).
Qed.

Lemma closes_open n attempt : closes (open_next config n attempt) [] (fun _ => True).
Proof.
  induction n as [|n IH]; cbn [open_next]; [by constructor|].
  assert (forall e, closes (_ ← report e; open_next config n attempt) [] (fun _ => True)) as Hr.
  { intros e. eapply (closes_bind _ _ [] []); [apply closes_output|done]. }
  destruct (attempt n); [by constructor|..];
    (eapply (closes_bind _ _ [] []); [apply closes_gets|]; intros seed _; destruct (zget _ _); [|by constructor];
     eapply (closes_bind _ _ [] []); [apply closes_update|]; intros _ _; first [apply Hr|by constructor]).
Qed.

Lemma ledger_start env opened : ledger (session_start config env opened) [].
Proof.
  unfold session_start. silent. eapply ledger_silent; [apply closes_subscribe|intros []].
  - silent. eapply (ledger_silent _ _ (fun _ => True)); [|intros; by apply ledger_ret].
    destruct (bool_decide _); [apply closes_subscribe_report|by constructor].
  - unfold report. silent. by apply ledger_close.
Qed.

(** A step that runs [x] and goes on from its flow. *)
Lemma flow_account (x : OM Flow) address before o :
  ledger x before ->
  before ≡ₚ run_channels ((flow ← x; after_flow config address flow) o).1.1
            ++ closed_channels ((flow ← x; after_flow config address flow) o).2.
Proof.
  intros [Hx]. specialize (Hx o). unfold mbind, OM_bind. destruct (x o) as [[flow o1] e1]. cbn [fst snd] in *.
  destruct (after_flow_account address flow o1) as [E1 E2].
  destruct (after_flow config address flow o1) as [[rs o2] e2]. cbn [fst snd] in *.
  by rewrite closed_app, E1, E2, app_nil_r.
Qed.

Lemma step_account input rs o :
  run_channels rs ++ accepted rs input
  ≡ₚ run_channels (run_step config input rs o).1.1 ++ closed_channels (run_step config input rs o).2.
Proof.
  destruct rs as [|address l| |e|], input as [stopped attempt env|env ev|stopped]; cbn [run_step accepted run_channels];
    try (rewrite ?app_nil_r; done).
  - destruct stopped; [done|]. unfold mbind at 1 3, OM_bind at 1 3.
    destruct (closes_at _ _ _ (closes_open (Z.to_nat (max_seed_attempts config)) attempt) o) as [E _].
    destruct (open_next _ _ _ o) as [[r o1] e1]. cbn [fst snd] in *.
    destruct r as [[address opened]|[]]; [|by cbn [mret OM_ret fst snd]; rewrite closed_app, E..].
    pose proof (flow_account _ address [] o1 (ledger_start env opened)) as Hf.
    destruct ((flow ← session_start config env opened; after_flow config address flow) o1) as [[rs o2] e2].
    cbn [fst snd] in *. by rewrite closed_app, E.
  - destruct (enabled l ev) eqn:He; [|by rewrite !app_nil_r]. apply flow_account. by apply ledger_event.
  - by destruct (_ && _).
Qed.

(** C12. Every request the owner takes from a caller is accounted for exactly
    once: at the end of any run it is pending in the session or its channel
    was answered or dropped, one time each. *)
Theorem monitor_requests_accounted inputs : forall rs o,
  run_channels rs ++ accepted_all inputs rs o
  ≡ₚ run_channels (run_all config inputs rs o).1.1 ++ closed_channels (run_all config inputs rs o).2.
Proof.
  induction inputs as [|i inputs IH]; intros rs o; cbn [accepted_all run_all]; [done|].
  pose proof (step_account i rs o) as Hs. unfold mbind, OM_bind.
  destruct (run_step config i rs o) as [[rs1 o1] e1]. cbn [fst snd] in *. specialize (IH rs1 o1).
  destruct (run_all config inputs rs1 o1) as [[rs2 o2] e2]. cbn [fst snd] in *.
  rewrite closed_app, (assoc (++)), Hs. rewrite <- (assoc (++)), (comm (++) (closed_channels e1)), (assoc (++)), IH.
  solve_Permutation.
Qed.

(** ** Only matching replies succeed *)

(** Not a successful answer. *)
Definition quiet (e : Output) : Prop :=
  match e with
  | Out_Answer _ (A_Command (Ok _)) | Out_Answer _ (A_StatFs (Ok _))
  | Out_Answer _ (A_PoolStats (Ok _)) | Out_Answer _ (A_PoolOperation (Ok _)) => False
  | _ => True
  end.

(** A successful answer to a pending request: the message carries its
    transaction and decodes to the reply, which is of the pinned cluster. *)
Definition granted (m : Message) (l : Lanes) (o : Owner) (e : Output) : Prop :=
  let bytes := max_bytes (message_limits config) in
  let entries := ml_collection_entries (map_limits config) in
  let tid := transaction_id (header m) in
  match e with
  | Out_Answer ch (A_Command (Ok (reply, error))) =>
      exists c, pending_command l = Some c /\ mc_reply c = ch /\ mc_transaction_id c = tid
        /\ decode_command_reply m bytes entries = Ok reply /\ (error = None <-> cr_result reply = 0)
  | Out_Answer ch (A_StatFs (Ok reply)) =>
      exists c, pending_statfs l = Some c /\ sc_reply c = ch /\ sc_transaction_id c = tid
        /\ decode_statfs_reply m bytes = Ok reply /\ pinned_fsid o = Some (sf_fsid reply)
  | Out_Answer ch (A_PoolStats (Ok reply)) =>
      exists c, pending_pool_stats l = Some c /\ pc_reply c = ch /\ pc_transaction_id c = tid
        /\ decode_get_pool_stats_reply m bytes (ml_pools (map_limits config)) entries = Ok reply
        /\ pinned_fsid o = Some (psr_fsid reply)
  | Out_Answer ch (A_PoolOperation (Ok reply)) =>
      exists c, pending_pool_operation l = Some c /\ oc_reply c = ch /\ oc_transaction_id c = tid
        /\ decode_pool_operation_reply m bytes = Ok reply /\ por_result reply = 0
        /\ pinned_fsid o = Some (por_fsid reply)
  | _ => True
  end.

Lemma quiet_granted m l o e : quiet e -> granted m l o e.
Proof. by destruct e as [ch [[]|[]|[]|[]]| | | | |]. Qed.

(** The outputs of a step from one state. *)
Definition emits {A} (x : OM A) (P : Output -> Prop) (o : Owner) : Prop := Forall P (x o).2.

Lemma emits_bind {A B} (x : OM A) (k : A -> OM B) P o :
  emits x P o -> emits (k (x o).1.1) P (x o).1.2 -> emits (x ≫= k) P o.
Proof.
  unfold emits, mbind, OM_bind. destruct (x o) as [[a o1] e1]. cbn [fst snd].
  destruct (k a o1) as [[b o2] e2]. cbn [snd]. intros. by apply Forall_app.
Qed.

Lemma emits_output e (P : Output -> Prop) o : P e -> emits (output e) P o.
Proof. intros. by constructor. Qed.

Lemma emits_weaken {A} (x : OM A) (P Q : Output -> Prop) o :
  (forall e, P e -> Q e) -> emits x P o -> emits x Q o.
Proof. intros H He. by eapply Forall_impl. Qed.

Lemma quiet_outputs l o : Forall quiet l -> emits (outputs l) quiet o.
Proof. done. Qed.

Lemma quiet_leave outcome l o : emits (leave outcome l) quiet o.
Proof.
  apply emits_bind; [|constructor]. apply quiet_outputs. apply Forall_fmap, Forall_true. by intros.
Qed.

Lemma quiet_close outcome l o : emits (close_and_leave outcome l) quiet o.
Proof. by do 2 (apply emits_bind; [by apply emits_output|]); apply quiet_leave. Qed.

(** Failing a lane. *)
Lemma quiet_fail {C} (f : C -> Output) (c : option C) (l : Lanes) o :
  (forall c, quiet (f c)) -> emits (_ ← outputs (option_list (f <$> c)); mret l) quiet o.
Proof. intros Hf. apply emits_bind; [|constructor]. apply quiet_outputs. destruct c; by repeat constructor. Qed.

Ltac quiet_step :=
  match goal with
  | |- emits (close_and_leave _ _) quiet _ => apply quiet_close
  | |- emits (leave _ _) quiet _ => apply quiet_leave
  | |- emits (fail_pending_command _) quiet _ => by apply quiet_fail
  | |- emits (fail_pending_statfs _) quiet _ => by apply quiet_fail
  | |- emits (fail_pending_pool_stats _) quiet _ => by apply quiet_fail
  | |- emits (fail_pending_pool_operation _) quiet _ => by apply quiet_fail
  | |- emits (fail_all _) quiet _ => unfold fail_all
  | |- emits (mret _) quiet _ => constructor
  | |- emits (owner_gets _) quiet _ => constructor
  | |- emits (owner_update _) quiet _ => constructor
  | |- emits (owner_run _) quiet _ => constructor
  | |- emits (output _) quiet _ => by apply emits_output
  | |- emits (report _) quiet _ => by apply emits_output
  | |- emits (subscribe _ _ _) quiet _ => unfold subscribe
  | |- emits (subscribe_or_report _ _ _) quiet _ => unfold subscribe_or_report
  | |- emits (dispatch_request _ _ _ _ _) quiet _ => unfold dispatch_request; cbv zeta
  | |- emits (_ ≫= _) quiet _ => apply emits_bind
  | |- emits (match ?r with Ok _ => _ | Err _ => _ end) quiet _ => destruct r
  | |- emits (match ?r with Some _ => _ | None => _ end) quiet _ => destruct r
  | |- emits (if ?c then _ else _) quiet _ => destruct c
  | |- emits (fun _ => _) quiet _ => constructor
  end.

Lemma quiet_map_message env m l o : emits (map_message config env m l) quiet o.
Proof.
  unfold map_message. apply emits_bind; [constructor|].
  destruct ((owner_run (handle_message config m) o).1.1) as [[]|[[]|]]; repeat quiet_step.
Qed.

Lemma quiet_request env ev l o :
  match ev with Ev_Incoming (Some _) => True | _ => emits (session_event config env ev l) quiet o end.
Proof.
  destruct ev as [|[m|]|e| |[epoch|]|[c|]|[c|]|[c|]|[c|]|]; cbn [session_event]; try done;
    unfold new_command, new_statfs, new_pool_stats, new_pool_operation, request_check; repeat quiet_step.
Qed.

Lemma granted_uncorrelated reason m l o : emits (uncorrelated reason l) (granted m l o) o.
Proof. eapply emits_weaken; [apply quiet_granted|]. unfold uncorrelated. repeat quiet_step. Qed.

Lemma not_foreign fsid o : foreign_reply fsid o = false -> pinned_fsid o = Some fsid.
Proof. unfold foreign_reply. intros H. by apply bool_decide_eq_false, dec_stable in H. Qed.

(** The outputs of a reply from another cluster. *)
Ltac foreign_quiet := eapply emits_weaken; [apply quiet_granted|]; repeat quiet_step.

Lemma granted_command m l o : emits (command_reply config m l) (granted m l o) o.
Proof.
  unfold command_reply. destruct (pending_command l) as [c|] eqn:Hc; [|apply granted_uncorrelated].
  destruct (Z.eqb_spec (mc_transaction_id c) (transaction_id (header m))) as [Ht|]; cbn [negb];
    [|apply granted_uncorrelated].
  cbv zeta. apply emits_bind; [|constructor]. apply emits_output. cbn [granted].
  destruct (decode_command_reply _ _ _) as [reply|] eqn:Hd; [|done]. exists c. split_and!; try done.
  destruct (Z.eqb_spec (cr_result reply) 0); cbn; split; intros; (done || congruence).
Qed.

Lemma granted_statfs m l o : emits (statfs_reply config m l) (granted m l o) o.
Proof.
  unfold statfs_reply. destruct (pending_statfs l) as [c|] eqn:Hc; [|apply granted_uncorrelated].
  destruct (Z.eqb_spec (sc_transaction_id c) (transaction_id (header m))) as [Ht|]; cbn [negb];
    [|apply granted_uncorrelated].
  cbv zeta. apply emits_bind; [constructor|]. cbn [owner_gets fst snd].
  cond E; [foreign_quiet|]. apply emits_bind; [|constructor]. apply emits_output. cbn [granted].
  destruct (decode_statfs_reply _ _) as [reply|] eqn:Hd; [|done]. cbn [map_err] in *. exists c.
  split_and!; try done. by apply not_foreign.
Qed.

Lemma granted_pool_stats m l o : emits (pool_stats_reply config m l) (granted m l o) o.
Proof.
  unfold pool_stats_reply. destruct (pending_pool_stats l) as [c|] eqn:Hc; [|apply granted_uncorrelated].
  destruct (Z.eqb_spec (pc_transaction_id c) (transaction_id (header m))) as [Ht|]; cbn [negb];
    [|apply granted_uncorrelated].
  cbv zeta. apply emits_bind; [constructor|]. cbn [owner_gets fst snd].
  cond E; [foreign_quiet|]. apply emits_bind; [|constructor]. apply emits_output. cbn [granted].
  destruct (decode_get_pool_stats_reply _ _ _ _) as [reply|] eqn:Hd; [|done]. cbn [map_err] in *. exists c.
  split_and!; try done. by apply not_foreign.
Qed.

Lemma granted_pool_operation m l o : emits (pool_operation_reply config m l) (granted m l o) o.
Proof.
  unfold pool_operation_reply. destruct (pending_pool_operation l) as [c|] eqn:Hc; [|apply granted_uncorrelated].
  destruct (Z.eqb_spec (oc_transaction_id c) (transaction_id (header m))) as [Ht|]; cbn [negb];
    [|apply granted_uncorrelated].
  cbv zeta. apply emits_bind; [constructor|]. cbn [owner_gets fst snd].
  cond E; [foreign_quiet|]. apply emits_bind; [|constructor]. apply emits_output. cbn [granted].
  destruct (decode_pool_operation_reply _ _) as [reply|] eqn:Hd; [|done]. cbn [map_err mbind result_bind] in *.
  destruct (Z.eqb_spec (por_result reply) 0); cbn [negb]; [|done]. exists c.
  split_and!; try done. by apply not_foreign.
Qed.

(** C21. A caller gets a successful answer only from a message that carries the
    transaction of the request pending in that lane, decodes to the answer,
    and, where the reply names a cluster, is of the pinned one. *)
Theorem monitor_answers_match env ev l o e :
  e ∈ (session_event config env ev l o).2 ->
  match ev with Ev_Incoming (Some m) => granted m l o e | _ => quiet e end.
Proof.
  intros He. pose proof (quiet_request env ev l o) as Hq.
  destruct ev as [|[m|]| | | | | | | |]; try (unfold emits in Hq; rewrite Forall_forall in Hq; by apply Hq).
  assert (emits (incoming config env m l) (granted m l o) o) as Hi.
  { unfold incoming. cbv zeta. destruct (_ =? _); [apply granted_command|].
    destruct (_ =? _); [apply granted_statfs|]. destruct (_ =? _); [apply granted_pool_stats|].
    destruct (_ =? _); [apply granted_pool_operation|].
    eapply emits_weaken; [apply quiet_granted|apply quiet_map_message]. }
  unfold emits in Hi. rewrite Forall_forall in Hi. by apply Hi.
Qed.

(** ** Where an OSD map comes from *)

(** The maps the incrementals of a message lead to, one epoch at a time. *)
Inductive reaches (l : list (Z * OSDMapIncremental)) (start : OSDMap) : OSDMap -> Prop :=
| reaches_start : reaches l start start
| reaches_next base i next :
    reaches l start base -> (om_epoch base + 1, i) ∈ l ->
    apply_osdmap_incremental base i (map_limits config) = Ok next -> reaches l start next.

Lemma newer_trans cur map epoch :
  newer_than om_epoch cur (om_epoch map) = true -> om_epoch map < epoch -> newer_than om_epoch cur epoch = true.
Proof. unfold newer_than. destruct cur; [|done]. rewrite !Z.ltb_lt. lia. Qed.

(** The newest full map, when it is newer than the map that is there. *)
Lemma take_full_inv l : forall cur,
  Forall (fun e => om_epoch e.2 = e.1) l ->
  map_le om_epoch cur (take_full_maps l cur)
  /\ (take_full_maps l cur = cur
      \/ exists m, take_full_maps l cur = Some m /\ (om_epoch m, m) ∈ l /\ newer_than om_epoch cur (om_epoch m) = true)
  /\ (forall e, e ∈ l -> exists m, take_full_maps l cur = Some m /\ e.1 <= om_epoch m).
Proof.
  unfold take_full_maps. induction l as [|[epoch map] l IH]; intros cur Hl; cbn [fold_left].
  { split_and!; [done|by left|by intros e He%elem_of_nil]. }
  apply Forall_cons in Hl as [He Hl]. cbn in He. subst epoch.
  destruct (newer_than om_epoch cur (om_epoch map)) eqn:Hn.
  - destruct (IH (Some map) Hl) as (H1 & H2 & H3). split_and!.
    + etransitivity; [by apply map_le_newer|done].
    + right. destruct H2 as [->|(m & -> & Hm & Hlt)]; [exists map; split_and!; [done|by left|done]|].
      exists m. split_and!; [done|by right|]. apply Z.ltb_lt in Hlt. by eapply newer_trans.
    + intros e [->|He]%elem_of_cons; [|by apply H3]. destruct (H1 map eq_refl) as (m & Hm & Hle). exists m.
      split; [done|]. cbn. destruct Hle as [->|]; lia.
  - destruct (IH cur Hl) as (H1 & H2 & H3). split_and!; [done| |].
    + destruct H2 as [->|(m & -> & Hm & Hlt)]; [by left|]. right. exists m. split_and!; [done|by right|done].
    + intros e [->|He]%elem_of_cons; [|by apply H3]. unfold newer_than in Hn. destruct cur as [c|]; [|done].
      apply Z.ltb_ge in Hn. destruct (H1 c eq_refl) as (m & Hm & Hle). exists m. split; [done|]. cbn.
      destruct Hle as [->|]; lia.
Qed.

Lemma checked_epoch a b : checked_add 32 a 1 = Some b -> b = a + 1.
Proof. unfold checked_add. destruct (_ <? _); congruence. Qed.

Lemma follow_inv fsid all l : forall start base cur,
  Forall (identified decode_osdmap_incremental in_fsid in_epoch fsid (map_limits config)) l ->
  l ⊆ all -> map_of fsid base -> reaches all start base ->
  follow_incrementals config l (Some base) = Ok cur ->
  exists next, cur = Some next /\ reaches all start next /\ (next = base \/ om_epoch base < om_epoch next)
    /\ forall e, e ∈ l -> e.1 <= om_epoch next.
Proof.
  induction l as [|[epoch i] l IH]; intros start base cur Hl Hsub Hb Hr H; cbn [follow_incrementals] in H.
  - apply Ok_inj in H as <-. exists base. split_and!; [done|done|by left|by intros e He%elem_of_nil].
  - apply Forall_cons in Hl as [[(bytes & Hd) _] Hl]. assert (l ⊆ all) as Hsub' by set_solver.
    destruct (Z.leb_spec epoch (om_epoch base)).
    { destruct (IH start base cur Hl Hsub' Hb Hr H) as (n & -> & Hr' & Hn' & Hall). exists n. split_and!; try done.
      intros e [->|He]%elem_of_cons; [cbn; destruct Hn' as [->|]; lia|by apply Hall]. }
    destruct (bool_decide _) eqn:Hg; [done|]. apply bool_decide_eq_false, dec_stable, checked_epoch in Hg as ->.
    pose proof (apply_map_of config fsid base bytes i Hb Hd) as Ha.
    destruct (apply_osdmap_incremental _ _ _) as [next|[]] eqn:Hn; [|done..]. destruct Ha as [Ha He].
    destruct (IH start next cur Hl Hsub' Ha) as (n & -> & Hr' & Hn' & Hall); [|done|].
    + eapply reaches_next; [done| |done]. set_solver.
    + exists n. split_and!; try done; [right; destruct Hn' as [->|]; lia|].
      intros e [->|He2]%elem_of_cons; [cbn; destruct Hn' as [->|]; lia|by apply Hall].
Qed.

(** What a batch starts from: the newest of its full maps when that is newer
    than the map that is there, and otherwise the map that is there. *)
Definition starts (maps : DecodedOSDMapBatch) (old : option OSDMap) (start : OSDMap) : Prop :=
  (old = Some start
   \/ (om_epoch start, start) ∈ full_maps maps /\ newer_than om_epoch old (om_epoch start) = true)
  /\ forall epoch m, (epoch, m) ∈ full_maps maps -> epoch <= om_epoch start.

Lemma advance_inv fsid maps old new :
  Forall (identified decode_osdmap_incremental in_fsid in_epoch fsid (map_limits config)) (incrementals maps) ->
  Forall (identified decode_osdmap om_fsid om_epoch fsid (map_limits config)) (full_maps maps) ->
  (forall m, old = Some m -> map_of fsid m) -> advance_osdmap config maps old = Ok (Some new) ->
  (exists start, starts maps old start /\ reaches (incrementals maps) start new)
  /\ (forall epoch i, (epoch, i) ∈ incrementals maps -> epoch <= om_epoch new)
  /\ map_le om_epoch old (Some new)
  /\ (newest_map maps <> 0 -> newest_map maps <= om_epoch new)
  /\ (trim_lower_bound maps <> 0 -> trim_lower_bound maps <= om_epoch new).
Proof.
  intros Hi Hf Ho H. unfold advance_osdmap in H. apply bind_inv in H as (cur & Hc & H). cbv zeta in H.
  destruct (_ || _) eqn:Hg; [done|]. apply Ok_inj in H as ->.
  assert (Forall (fun e => om_epoch e.2 = e.1) (full_maps maps)) as Hf'.
  { eapply Forall_impl; [done|]. by intros e (_ & _ & He). }
  destruct (take_full_inv (full_maps maps) old Hf') as (Hle & Hsrc & Hmax).
  pose proof (take_full_ok config fsid (full_maps maps) old Hf Ho) as Hok.
  destruct (take_full_maps (full_maps maps) old) as [start|].
  - destruct (follow_inv fsid (incrementals maps) (incrementals maps) start start (Some new) Hi) as (n & E & Hr & Hn & Hall);
      [done|by apply Hok|constructor|done|]. injection E as <-. split_and!.
    + exists start. split; [|done]. split.
      * destruct Hsrc as [<-|(m & [= <-] & Hm & Hlt)]; [by left|by right].
      * intros epoch m Hm. by destruct (Hmax _ Hm) as (m' & [= <-] & ?).
    + intros epoch i Hin. by apply (Hall _ Hin).
    + etransitivity; [exact Hle|]. intros m Hm. simplify_eq. exists new. auto.
    + intros Hnz. destruct (Z.eqb_spec (newest_map maps) 0); [done|]. cbn [negb andb] in Hg.
      apply orb_false_elim in Hg as [Hg _]. by apply Z.ltb_ge in Hg.
    + intros Hnz. destruct (Z.eqb_spec (trim_lower_bound maps) 0); [done|]. cbn [negb andb] in Hg.
      apply orb_false_elim in Hg as [_ Hg]. by apply Z.ltb_ge in Hg.
  - destruct (incrementals maps) as [|[]]; cbn in Hc; simplify_eq.
Qed.

Lemma publish_osdmap o : ms_osdmap (ow_state (publish config o)) = ms_osdmap (ow_state o).
Proof. unfold publish. cbv zeta. by destruct (_ && _). Qed.

Lemma store_osdmap_state map o :
  map_le om_epoch (ms_osdmap (ow_state o)) (Some map) -> ms_osdmap (ow_state (store_osdmap config map o)) = Some map.
Proof.
  intros Hle. unfold store_osdmap. destruct (newer_than _ _ _) eqn:Hn; [by rewrite publish_osdmap|].
  unfold newer_than in Hn. destruct (ms_osdmap (ow_state o)) as [m|] eqn:E; [|done].
  destruct (Hle m eq_refl) as (m' & [= <-] & [->|]); [done|lia].
Qed.

Lemma advance_none fsid maps old :
  Forall (identified decode_osdmap om_fsid om_epoch fsid (map_limits config)) (full_maps maps) ->
  Forall (identified decode_osdmap_incremental in_fsid in_epoch fsid (map_limits config)) (incrementals maps) ->
  (forall m, old = Some m -> map_of fsid m) ->
  advance_osdmap config maps old = Ok None -> old = None.
Proof.
  intros Hf Hi Ho H. unfold advance_osdmap in H. apply bind_inv in H as (cur & Hc & H). cbv zeta in H.
  destruct (_ || _); [done|]. apply Ok_inj in H as ->.
  assert (Forall (fun e => om_epoch e.2 = e.1) (full_maps maps)) as Hf'.
  { eapply Forall_impl; [done|]. by intros e (_ & _ & He). }
  destruct (take_full_inv (full_maps maps) old Hf') as (Hle & _ & _).
  pose proof (take_full_ok config fsid (full_maps maps) old Hf Ho) as Hok.
  destruct (take_full_maps (full_maps maps) old) as [start|].
  - destruct (follow_inv fsid (incrementals maps) (incrementals maps) start start None Hi) as (n & E & _);
      [done|by apply Hok|constructor|done|done].
  - destruct old as [m|]; [|done]. by destruct (Hle m eq_refl) as (? & ? & _).
Qed.

Lemma try_inv {A B} (r : result MessageError A) (k : A -> OwnerM B) o b o' :
  (try_message r ≫= k) o = (Ok b, o') -> exists a, r = Ok a /\ k a o = (Ok b, o').
Proof. unfold try_message, mbind, St_bind, st_lift. destruct r as [a|]; [|done]. intros H. by exists a. Qed.

(** C10. When a message with OSD maps is accepted, the map the client then has
    is the newest full map of the message, or the one it had when no full map is
    newer, carried on by incrementals of the message, each exactly one epoch
    later; no incremental of the message is newer, and it has reached the newest
    epoch the message announces and the oldest the monitors keep. *)
Theorem osdmap_follows_monitors m o action o' :
  owner_ok config o -> handle_osdmap config m o = (Ok action, o') ->
  exists batch maps,
    decode_osdmap_batch m (message_limits config) = Ok batch
    /\ decode_osdmap_batch_maps batch (map_limits config) = Ok maps
    /\ pinned_fsid o' = Some (batch_fsid batch)
    /\ match ms_osdmap (ow_state o') with
       | Some new =>
           (exists start, starts maps (ms_osdmap (ow_state o)) start /\ reaches (incrementals maps) start new)
           /\ (forall epoch i, (epoch, i) ∈ incrementals maps -> epoch <= om_epoch new)
           /\ (newest_map maps <> 0 -> newest_map maps <= om_epoch new)
           /\ (trim_lower_bound maps <> 0 -> trim_lower_bound maps <= om_epoch new)
       | None => ms_osdmap (ow_state o) = None
       end.
Proof.
  intros Ho H. unfold handle_osdmap in H.
  apply try_inv in H as (batch & Eb & H). apply try_inv in H as (maps & Em & H).
  exists batch, maps. split; [done|]. split; [done|].
  pose proof (decode_batch_inv _ _ _ Em) as ((_ & Hi) & (_ & Hf) & _).
  apply St_bind_inv in H as (u & o1 & Ep & H). destruct (pin_fsid_inv _ _ _ _ Ep) as (P1 & S1 & L1 & _).
  assert (forall m, ms_osdmap (ow_state o1) = Some m -> map_of (batch_fsid batch) m) as Hof.
  { intros m' Hm'. rewrite S1 in Hm'. destruct (st_osdmap _ _ (owner_state_ok _ _ Ho) m' Hm') as [Hp Hok].
    split; [|done]. apply L1 in Hp. congruence. }
  assert (ms_osdmap (ow_state o) = ms_osdmap (ow_state o1)) as -> by by rewrite S1.
  apply St_bind_inv in H as (cur & o1' & Ea & H). unfold st_gets in Ea. injection Ea as Ea <-.
  apply St_bind_inv in H as (u' & o2 & E2 & H). unfold update in E2. injection E2 as _ E2.
  apply St_bind_inv in H as (refresh & o3 & E3 & H). apply gets_inv in E3 as [-> ->].
  assert (ow_state o' = ow_state o2 /\ pinned_fsid o' = pinned_fsid o2) as [-> ->].
  { match type of H with (if ?c then _ else _) _ = _ => destruct c end; unfold update, mbind, St_bind, mret, St_ret in H; cbn in H; by simplify_eq. }
  subst o2. destruct cur as [new|].
  - destruct (advance_inv _ _ _ _ Hi Hf Hof Ea) as (A1 & A2 & A3 & A4 & A5).
    rewrite store_osdmap_state by done. split; [|done]. unfold store_osdmap. destruct (newer_than _ _ _); [|done].
    unfold publish. cbv zeta. by destruct (_ && _).
  - rewrite (advance_none _ _ _ Hf Hi Hof Ea). done.
Qed.
End Runs.

(** ** Concrete runs *)

Definition test_fsid : list byte := replicate 16 x07.

Definition test_seed : Endpoint :=
  mkEndpoint (SA_V4 [x7f; x00; x00; x01] 3300) (mkEntityAddr AT_V2 0 AF_INET (replicate 14 x00) false) 0 0.

Definition test_monitor : MonitorConfig :=
  mkMonitorConfig [test_seed] None (list_byte_of_string "host") test_map_limits (mkMessageLimits 4096 8)
    2 2 1000 10 1000 4.

Definition test_env : Env := mkEnv 0 (fun _ => false) (fun _ => Ok tt) (fun _ => Some (Ok tt)).

Definition test_session : OpenedMonitorSession := mkOpenedMonitorSession 42 [].

(** A message with the given front. *)
Definition test_reply (type tid version compat : Z) (front : list byte) : Message :=
  mkMessage (mkMessageHeader 0 tid type 0 version 0 0 0 0 compat 0) (mkMessageLengths (zlen front) 0 0) front [] [].

Definition test_ack : Message := test_reply MESSAGE_MON_SUBSCRIBE_ACK 0 0 0 (le_bytes 4 30 ++ test_fsid).

Definition test_opening : RunInput := In_Open false (fun _ => At_Opened test_session) test_env.

Lemma monitor_run_invariant_witness : exists o,
  spawn test_monitor = Ok o /\
  let '(rs1, o1, _) := run_all (crc_crate := reference_crc) (order := in_order) test_monitor
    [test_opening; In_Event test_env (Ev_Incoming (Some test_ack))] RS_Open o in
  let '(rs2, o2, _) := run_all (crc_crate := reference_crc) (order := in_order) test_monitor
    [In_Event test_env Ev_Stop] rs1 o1 in
  rs2 <> RS_Panicked /\ owner_ok test_monitor o1 /\ owner_ok test_monitor o2 /\ advances o1 o2
  /\ pinned_le (expected_fsid test_monitor) (pinned_fsid o2).
Proof.
  eexists. split; [reflexivity|].
  apply (monitor_run_invariant (crc_crate := reference_crc) (order := in_order) test_monitor);
    [reflexivity|discriminate].
Defined.

(** The owner after a session was opened and the cluster is known. *)
Definition test_owner : Owner :=
  mkOwner 0 (Some test_fsid) (mkMonitorState 2 (Some test_fsid) (Some 42) (Some []) None None None)
    (mkMonitorState 2 (Some test_fsid) (Some 42) (Some []) None None None) [] None 9 [].

Definition test_options : OperationOptions := mkOperationOptions None None.

Definition test_lanes : Lanes := mkLanes None (Some (mkStatFsCommand 8 test_options 100)) None
  (Some (mkPoolOperationCommand 7 3 CreateSnapshot 0 [x61] test_options 101)).

Definition test_statfs_front : list byte :=
  test_fsid ++ le_bytes 8 1 ++ le_bytes 8 10 ++ le_bytes 8 4 ++ le_bytes 8 6 ++ le_bytes 8 2.

Lemma monitor_answers_match_witness :
  granted test_monitor (test_reply MESSAGE_STATFS_REPLY 8 1 1 test_statfs_front) test_lanes test_owner
    (Out_Answer 100 (A_StatFs (Ok (mkStatFsReply test_fsid 1 10 4 6 2)))).
Proof.
  apply (monitor_answers_match (crc_crate := reference_crc) (order := in_order) test_monitor test_env
    (Ev_Incoming (Some (test_reply MESSAGE_STATFS_REPLY 8 1 1 test_statfs_front)))).
  vm_compute. constructor.
Defined.

(** A request whose send fails ends the session, and the request that another
    lane has pending is dropped without the answer that its outcome is
    unknown. *)
Lemma send_failure_drops_requests :
  let env := mkEnv 0 (fun _ => false) (fun _ => Err SE_Disconnected) (fun _ => Some (Ok tt)) in
  let lanes := set_pending_statfs None test_lanes in
  let '(flow, _, out) := session_event (crc_crate := reference_crc) (order := in_order) test_monitor env
    (Ev_StatFs (Some (mkStatFsCommand 0 test_options 102))) lanes test_owner in
  flow = Leave SO_Failover
  /\ Out_Dropped 101 ∈ out /\ Out_Answer 102 (A_StatFs (Err (MnE_Session SE_Disconnected))) ∈ out.
Proof. vm_compute. split; [reflexivity|]. split; repeat (constructor; fail || constructor). Qed.

(** A full map without pools and OSDs, with its checksum. *)
Definition test_versioned (version compat : Z) (payload : list byte) : list byte :=
  le_bytes 1 version ++ le_bytes 1 compat ++ le_bytes 4 (zlen payload) ++ payload.

Definition test_map_client (epoch : Z) : list byte :=
  test_fsid ++ le_bytes 4 epoch ++ le_bytes 16 0 ++ le_bytes 8 0 ++ le_bytes 12 0 ++ le_bytes 12 0
  ++ le_bytes 12 0 ++ le_bytes 4 0 ++ le_bytes 12 0 ++ le_bytes 4 1 ++ le_bytes 8 0 ++ le_bytes 16 0 ++ le_bytes 4 0.

Definition test_map_bytes (epoch : Z) : list byte :=
  let body := test_versioned 10 1 (test_map_client epoch) ++ test_versioned 12 1 [] in
  let bytes := le_bytes 1 8 ++ le_bytes 1 7 ++ le_bytes 4 (zlen body + 4) ++ body in
  bytes ++ le_bytes 4 (crc32c (H := reference_crc) u32_max bytes).

Definition test_batch : Message :=
  test_reply MESSAGE_OSD_MAP 0 3 3
    (test_fsid ++ le_bytes 4 0 ++ le_bytes 4 1 ++ le_bytes 4 5 ++ le_bytes 4 (zlen (test_map_bytes 5))
     ++ test_map_bytes 5 ++ le_bytes 4 2 ++ le_bytes 4 5).

Lemma test_owner_ok : owner_ok test_monitor test_owner.
Proof.
  constructor; [|done]. constructor; [by vm_compute|by vm_compute| | |cbn; lia].
  - repeat constructor; cbn; try done; unfold u64_max; lia.
  - repeat constructor; cbn; try done; lia.
Qed.

Lemma osdmap_follows_monitors_witness :
  let o' := (handle_osdmap (crc_crate := reference_crc) (order := in_order) test_monitor test_batch test_owner).2 in
  (om_epoch <$> ms_osdmap (ow_state o')) = Some 5
  /\ exists batch maps,
    decode_osdmap_batch test_batch (message_limits test_monitor) = Ok batch
    /\ decode_osdmap_batch_maps (crc_crate := reference_crc) batch (map_limits test_monitor) = Ok maps
    /\ pinned_fsid o' = Some (batch_fsid batch)
    /\ match ms_osdmap (ow_state o') with
       | Some new =>
           (exists start, starts maps (ms_osdmap (ow_state test_owner)) start
              /\ reaches (crc_crate := reference_crc) (order := in_order) test_monitor (incrementals maps) start new)
           /\ (forall epoch i, (epoch, i) ∈ incrementals maps -> epoch <= om_epoch new)
           /\ (newest_map maps <> 0 -> newest_map maps <= om_epoch new)
           /\ (trim_lower_bound maps <> 0 -> trim_lower_bound maps <= om_epoch new)
       | None => ms_osdmap (ow_state test_owner) = None
       end.
Proof.
  split; [vm_compute; reflexivity|].
  apply (osdmap_follows_monitors (crc_crate := reference_crc) (order := in_order) test_monitor test_batch
    test_owner MA_None); [apply test_owner_ok|vm_compute; reflexivity].
Defined.
