(* ===== verification/Seeds.v ===== *)
(** * Monitor seeds

    Models [src/src/mon/seeds.rs]: the text of a seed, the lookups of host and
    service names, and the list of endpoints the monitor client dials.  The
    resolver is a trait in the code and a signature of calls here; the system
    resolver answers them with calls to the DNS library and to the random
    source. *)

From S2P Require Import Prelude Codec Address MapBase Text IpText Interaction MonClient.
From Stdlib Require Import ZArith Lia Strings.Byte Strings.String.
From stdpp Require Import base option gmap sorting numbers list.

Open Scope Z_scope.

Definition DEFAULT_MONITOR_V2_PORT : Z := 3300.

Record SrvRecord : Type := mkSrvRecord {
  srv_target : list byte;
  srv_port : Z;
  srv_priority : Z;
  srv_weight : Z
}.

Record SeedLimits : Type := mkSeedLimits {
  max_seeds : Z;
  max_addresses : Z
}.

(** The source of a failed lookup by its text. *)
Inductive SeedError : Type :=
| SdE_LimitExceeded
| SdE_Malformed (detail : string)
| SdE_UnsupportedVersion
| SdE_Lookup (operation : string) (name source : list byte).

Definition is_lookup (e : SeedError) : bool :=
  match e with SdE_Lookup _ _ _ => true | _ => false end.

Definition seed_wire_error (e : WireError) : SeedError :=
  match e with
  | LimitExceeded => SdE_LimitExceeded
  | Malformed | UnsupportedVersion _ _ => SdE_Malformed "invalid monitor IP"
  end.

(** ** The text of a seed *)

Definition parse_seed (text : list byte) : result SeedError (list byte * Z) :=
  let seed := trim text in
  seed ←
    match strip_prefix_bytes (str "v2:") seed with
    | Some value => Ok value
    | None => if starts_with (str "v1:") seed then Err SdE_UnsupportedVersion else Ok seed
    end;
  seed ←
    match rsplit_once x2f seed with
    | Some (endpoint, nonce) =>
        if bool_decide (nonce = []) || negb (bool_decide (is_Some (parse_unsigned 32 nonce)))
        then Err (SdE_Malformed "invalid monitor nonce")
        else Ok endpoint
    | None => Ok seed
    end;
  match parse_ip seed with
  | Some address => Ok (IpAddr_to_string address, DEFAULT_MONITOR_V2_PORT)
  | None =>
      if starts_with (str "[") seed then
        '(ip, port) ← ok_or (parse_socket_addr seed) (SdE_Malformed "invalid monitor seed");
        if port =? 0 then Err (SdE_Malformed "invalid monitor port")
        else Ok (IpAddr_to_string ip, port)
      else
        match rsplit_once x3a seed with
        | Some (host, port) =>
            if bool_decide (host = []) || bool_decide (x3a ∈ host) then Err (SdE_Malformed "invalid monitor seed")
            else
              port ← ok_or (port ← parse_unsigned 16 port; if port =? 0 then None else Some port) (SdE_Malformed "invalid monitor port");
              Ok (host, port)
        | None =>
            if bool_decide (seed = []) then Err (SdE_Malformed "invalid monitor seed")
            else Ok (seed, DEFAULT_MONITOR_V2_PORT)
        end
  end.

Definition is_unspecified (a : IpAddr) : bool :=
  match a with Ip4 octets | Ip6 octets => forallb (fun b => bool_decide (b = x00)) octets end.

Definition normalize_ip (a : IpAddr) : IpAddr :=
  match a with
  | Ip6 octets => match ipv4_mapped octets with Some ipv4 => Ip4 ipv4 | None => Ip6 octets end
  | Ip4 octets => Ip4 octets
  end.

(** [SocketAddr::new]. *)
Definition SocketAddr_new (ip : IpAddr) (port : Z) : SocketAddr :=
  match ip with
  | Ip4 octets => SA_V4 octets port
  | Ip6 octets => SA_V6 octets port
  end.

(** ** Endpoints *)

(** An IPv6 address without a scope is encoded by hand and decoded again. *)
Definition entity_address (a : SocketAddr) : result SeedError EntityAddr :=
  match a with
  | SA_V4 _ _ => map_err seed_wire_error (ipv4_v2 a)
  | SA_V6 octets port =>
      let socket := copy_at (copy_at (replicate 26 x00) 0 (be_bytes 2 port)) 6 octets in
      let encoder := Encoder_u8 (Encoder_new 64) 1 in
      let encoder := Encoder_versioned encoder 1 1 (fun payload =>
        let payload := Encoder_u32 payload 2 in
        let payload := Encoder_u32 payload 0 in
        let payload := Encoder_u32 payload 28 in
        let payload := Encoder_u16 payload 10 in
        Encoder_raw payload socket) in
      bytes ← map_err seed_wire_error (Encoder_finish encoder);
      '(address, _) ← map_err seed_wire_error (EntityAddr_decode (Decoder_new bytes (zlen bytes)));
      Ok address
  end.

(** The endpoints found, the addresses among them, and the last lookup that
    failed. *)
Record Found : Type := mkFound {
  found_endpoints : list Endpoint;
  found_seen : list SocketAddr;
  found_error : option SeedError
}.

Definition append_endpoint (a : SocketAddr) (metadata : Z * Z) (maximum : Z) (f : Found) : result SeedError Found :=
  if bool_decide (a ∈ found_seen f) then Ok f
  else if maximum <=? zlen (found_endpoints f) then Err SdE_LimitExceeded
  else
    entity ← entity_address a;
    Ok (mkFound (found_endpoints f ++ [mkEndpoint a entity metadata.1 metadata.2])
          (found_seen f ++ [a]) (found_error f)).

(** ** Resolution *)

(** The [Resolver] trait; [W_System] makes the system's resolver. *)
Inductive ResolverE : Type -> Type :=
| W_System : ResolverE (result SeedError unit)
| W_LookupIp (host : list byte) (maximum : Z) : ResolverE (result SeedError (list IpAddr))
| W_LookupSrv (service protocol name : list byte) (maximum : Z) : ResolverE (result SeedError (list SrvRecord)).

Abbreviation RP := (Prog ResolverE).

Fixpoint append_all (addresses : list IpAddr) (port : Z) (metadata : Z * Z) (maximum : Z) (f : Found) : result SeedError Found :=
  match addresses with
  | [] => Ok f
  | a :: addresses =>
      if is_unspecified a then append_all addresses port metadata maximum f
      else
        f ← append_endpoint (SocketAddr_new (normalize_ip a) port) metadata maximum f;
        append_all addresses port metadata maximum f
  end.

(** A lookup fails before anything is appended. *)
Definition resolve_host (host : list byte) (port : Z) (metadata : Z * Z) (maximum : Z) (f : Found) : RP (result SeedError Found) :=
  await (call (W_LookupIp host maximum)) (fun addresses =>
  if maximum <? zlen addresses then Ret (Err SdE_LimitExceeded)
  else Ret (append_all addresses port metadata maximum f)).

(** A failed lookup is remembered and passed over. *)
Definition note_lookup (f : Found) (r : result SeedError Found) : result SeedError Found :=
  match r with
  | Ok f => Ok f
  | Err e => if is_lookup e then Ok (mkFound (found_endpoints f) (found_seen f) (Some e)) else Err e
  end.

Fixpoint resolve_records (records : list SrvRecord) (maximum : Z) (f : Found) : RP (result SeedError Found) :=
  match records with
  | [] => Ret (Ok f)
  | record :: records =>
      let host := default (srv_target record) (strip_suffix_bytes (str ".") (srv_target record)) in
      r ← resolve_host host (srv_port record) (srv_priority record, srv_weight record) maximum f;
      question (note_lookup f r) (fun f => resolve_records records maximum f)
  end.

Definition resolve_service (name : list byte) (maximum : Z) (f : Found) : RP (result SeedError Found) :=
  let name := default name (strip_suffix_bytes (str ".") name) in
  if bool_decide (name = []) then Ret (Err (SdE_Malformed "empty monitor SRV name"))
  else
    r ← call (W_LookupSrv (str "ceph-mon") (str "tcp") name maximum);
    match r with
    | Ok records =>
        if maximum <? zlen records then Ret (Err SdE_LimitExceeded) else resolve_records records maximum f
    | Err e => Ret (note_lookup f (Err e))
    end.

Definition resolve_seed (seed : list byte) (maximum : Z) (f : Found) : RP (result SeedError Found) :=
  let seed := trim seed in
  if starts_with (str "v1:") seed then Ret (Ok f)
  else
    match strip_prefix_bytes (str "dns-srv:") seed with
    | Some name => resolve_service name maximum f
    | None =>
        question (parse_seed seed) (fun '(host, port) =>
        match parse_ip host with
        | Some a => Ret (append_endpoint (SocketAddr_new (normalize_ip a) port) (0, 0) maximum f)
        | None => r ← resolve_host host port (0, 0) maximum f; Ret (note_lookup f r)
        end)
    end.

Fixpoint resolve_all (seeds : list (list byte)) (maximum : Z) (f : Found) : RP (result SeedError Found) :=
  match seeds with
  | [] => Ret (Ok f)
  | seed :: seeds => await (resolve_seed seed maximum f) (fun f => resolve_all seeds maximum f)
  end.

(** [given]: the caller has a resolver. *)
Definition resolve_seeds (seeds : list (list byte)) (given : bool) (limits : SeedLimits) : RP (result SeedError (list Endpoint)) :=
  if bool_decide (seeds = []) || (max_seeds limits =? 0) || (max_addresses limits =? 0) || (max_seeds limits <? zlen seeds)
  then Ret (Err SdE_LimitExceeded)
  else if negb (existsb (fun seed => negb (starts_with (str "v1:") (trim seed))) seeds)
  then Ret (Err SdE_UnsupportedVersion)
  else
    await (if given then Ret (Ok tt) else call W_System) (fun _ =>
    await (resolve_all seeds (max_addresses limits) (mkFound [] [] None)) (fun f =>
    if bool_decide (found_endpoints f = [])
    then Ret (Err (default (SdE_Malformed "monitor seeds resolved to no addresses") (found_error f)))
    else Ret (Ok (found_endpoints f)))).

(** ** The system resolver *)

(** What an answer to an SRV query holds: SRV records, and others, which are
    passed over. *)
Inductive RData : Type :=
| RD_SRV (record : SrvRecord)
| RD_Other.

(** The DNS library, failing with a message, and the random source. *)
Inductive DnsE : Type -> Type :=
| N_Configure : DnsE (result (list byte) unit)
| N_LookupIp (host : list byte) : DnsE (result (list byte) (list IpAddr))
| N_SrvLookup (query : list byte) : DnsE (result (list byte) (list RData))
| N_Random : DnsE (option (list byte)).

Abbreviation DP := (Prog DnsE).

Definition lookup_error (operation : string) (name source : list byte) : SeedError := SdE_Lookup operation name source.

Definition ensure_below_limit (length_ maximum : Z) : result SeedError unit :=
  if maximum <=? length_ then Err SdE_LimitExceeded else Ok tt.

Fixpoint take_addresses (answers : list IpAddr) (maximum : Z) (addresses : list IpAddr) : result SeedError (list IpAddr) :=
  match answers with
  | [] => Ok addresses
  | a :: answers =>
      _ ← ensure_below_limit (zlen addresses) maximum;
      take_addresses answers maximum (addresses ++ [a])
  end.

Fixpoint take_records (answers : list RData) (maximum : Z) (records : list SrvRecord) : result SeedError (list SrvRecord) :=
  match answers with
  | [] => Ok records
  | RD_Other :: answers => take_records answers maximum records
  | RD_SRV r :: answers =>
      _ ← ensure_below_limit (zlen records) maximum;
      take_records answers maximum (records ++ [r])
  end.

(** [random_below]: draws until a value is at or above the threshold. *)
Fixpoint random_draw (fuel : nat) (upper threshold : Z) : DP (result SeedError Z) :=
  match fuel with
  | O => Stop StillRunning
  | S fuel =>
      bytes ← call N_Random;
      match bytes with
      | None => Ret (Err (SdE_Lookup "SRV ordering" (str "system random source") (str "random source unavailable")))
      | Some bytes =>
          let value := wrap 64 (le_value bytes) in
          if threshold <=? value then Ret (Ok (value mod upper)) else random_draw fuel upper threshold
      end
  end.

Definition random_below (fuel : nat) (upper : Z) : DP (result SeedError Z) :=
  random_draw fuel upper (wrap 64 (- upper) mod upper).

(** [position] with the running sum of the weights; [0] when none exceeds. *)
Fixpoint weighted_position (i : nat) (records : list SrvRecord) (cumulative selected : Z) : option nat :=
  match records with
  | [] => None
  | r :: records =>
      let cumulative := cumulative + srv_weight r in
      if selected <? cumulative then Some i else weighted_position (S i) records cumulative selected
  end.

(** [swap(0, index)]. *)
Definition swap_first {A} (l : list A) (i : nat) : list A :=
  match l !! 0%nat, l !! i with
  | Some x, Some y => <[0%nat := y]> (<[i := x]> l)
  | _, _ => l
  end.

Definition total_weight (records : list SrvRecord) : Z := foldr (fun r n => srv_weight r + n) 0 records.

(** The records not placed yet get shorter by one in every turn. *)
Fixpoint shuffle_loop (fuel : nat) (turns : nat) (total : Z) (remaining : list SrvRecord) : DP (result SeedError (list SrvRecord)) :=
  match turns with
  | O => Ret (Ok remaining)
  | S turns =>
      if (0 <? total) && (1 <? zlen remaining) then
        await (random_below fuel total) (fun selected =>
        let i := default 0%nat (weighted_position 0 remaining 0 selected) in
        match swap_first remaining i with
        | [] => Ret (Ok [])
        | first :: rest =>
            await (shuffle_loop fuel turns (total - srv_weight first) rest) (fun rest =>
            Ret (Ok (first :: rest)))
        end)
      else Ret (Ok remaining)
  end.

Definition shuffle_srv_weights (fuel : nat) (records : list SrvRecord) : DP (result SeedError (list SrvRecord)) :=
  shuffle_loop fuel (length records) (total_weight records) records.

(** [sort_by_key], which is stable. *)
Definition srv_le (a b : SrvRecord) : bool :=
  (srv_priority a <? srv_priority b) || ((srv_priority a =? srv_priority b) && (srv_weight a <=? srv_weight b)).

Fixpoint srv_insert (r : SrvRecord) (l : list SrvRecord) : list SrvRecord :=
  match l with
  | [] => [r]
  | x :: l => if srv_le r x then r :: x :: l else x :: srv_insert r l
  end.

Definition srv_sort (l : list SrvRecord) : list SrvRecord := foldr srv_insert [] l.

(** The records that share the first one's priority, and the others. *)
Fixpoint priority_group (priority : Z) (l : list SrvRecord) : list SrvRecord * list SrvRecord :=
  match l with
  | [] => ([], [])
  | r :: rest =>
      if srv_priority r =? priority then let (x, y) := priority_group priority rest in (r :: x, y) else ([], l)
  end.

(** A group has a record at least, so that the length bounds the turns. *)
Fixpoint shuffle_groups (fuel : nat) (turns : nat) (l : list SrvRecord) : DP (result SeedError (list SrvRecord)) :=
  match turns, l with
  | S turns, r :: _ =>
      let (group, rest) := priority_group (srv_priority r) l in
      await (shuffle_srv_weights fuel group) (fun group =>
      await (shuffle_groups fuel turns rest) (fun rest => Ret (Ok (group ++ rest))))
  | _, _ => Ret (Ok l)
  end.

Definition sort_srv_records (fuel : nat) (records : list SrvRecord) : DP (result SeedError (list SrvRecord)) :=
  shuffle_groups fuel (length records) (srv_sort records).

Definition SystemResolver_new : DP (result SeedError unit) :=
  r ← call N_Configure; Ret (map_err (lookup_error "resolver configuration" (str "system")) r).

Definition SystemResolver_lookup_ip (host : list byte) (maximum : Z) : DP (result SeedError (list IpAddr)) :=
  r ← call (N_LookupIp host);
  question (map_err (lookup_error "address" host) r) (fun answers => Ret (take_addresses answers maximum [])).

Definition SystemResolver_lookup_srv (fuel : nat) (service protocol name : list byte) (maximum : Z) : DP (result SeedError (list SrvRecord)) :=
  r ← call (N_SrvLookup (str "_" ++ service ++ str "._" ++ protocol ++ str "." ++ name));
  question (map_err (lookup_error "SRV" name) r) (fun answers =>
  question (take_records answers maximum []) (fun records => sort_srv_records fuel records)).

(** The trait's calls by the system resolver. *)
Definition SystemResolver (fuel : nat) (X : Type) (e : ResolverE X) : DP X :=
  match e with
  | W_System => SystemResolver_new
  | W_LookupIp host maximum => SystemResolver_lookup_ip host maximum
  | W_LookupSrv service protocol name maximum => SystemResolver_lookup_srv fuel service protocol name maximum
  end.
