(* ===== verification/SeedsProps.v ===== *)
(** * What the resolved seeds are

    Theorems about [Seeds]: every endpoint the monitor client is given carries
    an entity address that stands for the socket address it dials, the
    endpoints are distinct and within the limit, an address printed as a seed
    is understood without a lookup, and the order of service records respects
    their priorities. *)

From S2P Require Import Prelude Codec Address MapBase Text IpText Interaction MonClient Seeds.
From Stdlib Require Import ZArith Lia Strings.Byte Strings.String.
From stdpp Require Import base option gmap sorting numbers list.

Open Scope Z_scope.

(** ** Entity addresses *)

Definition seed_address (a : SocketAddr) : EntityAddr := entity_addr_from_endpoint AT_V2 0 a.

Lemma copied_twice n x y offset :
  length x = 2%nat -> (2 <= offset)%nat -> (offset + length y <= n)%nat ->
  copy_at (copy_at (replicate n x00) 0 x) offset y
  = x ++ replicate (offset - 2) x00 ++ y ++ replicate (n - offset - length y) x00.
Proof.
  intros Hx Ho Hn. unfold copy_at. rewrite take_0. cbn [app]. rewrite Hx. cbn [Nat.add].
  rewrite drop_replicate, take_app_ge, Hx, take_replicate by lia.
  rewrite drop_app_ge, Hx, drop_replicate by lia. rewrite <- !app_assoc.
  replace ((offset - 2) `min` (n - 2))%nat with (offset - 2)%nat by lia.
  replace (n - 2 - (offset + length y - 2))%nat with (n - offset - length y)%nat by lia. done.
Qed.

Lemma seed_address_ok a : socket_ok a -> address_ok (seed_address a) /\ endpoint (seed_address a) = Ok (Some a).
Proof.
  destruct a as [octets port|octets port]; cbn [socket_ok seed_address entity_addr_from_endpoint]; intros [Hl Hp].
  all: rewrite copied_twice by (rewrite ?length_be_bytes, ?Hl; lia).
  all: unfold address_ok, endpoint; cbn [address_type nonce family socket_data]; rewrite Hl.
  all: set (data := be_bytes 2 port ++ _); assert (be_value (take 2 data) = port) as Hport
    by (subst data; rewrite take_app_length' by (by rewrite length_be_bytes); rewrite be_value_bytes; apply Z.mod_small; cbn; lia).
  all: rewrite Hport.
  - assert (zlen data = 14) as Hz by (subst data; unfold zlen; rewrite !length_app, length_be_bytes, !length_replicate, Hl; done).
    rewrite Hz. split; [by split_and!|]. cbn [Z.ltb Z.compare AF_INET Z.eqb].
    subst data. rewrite drop_app_length' by (by rewrite length_be_bytes). cbn [replicate Nat.sub app].
    by rewrite take_app_length' by done.
  - assert (zlen data = 26) as Hz by (subst data; unfold zlen; rewrite !length_app, length_be_bytes, !length_replicate, Hl; done).
    rewrite Hz. split; [by split_and!|]. cbn.
    subst data. rewrite app_assoc, drop_app_length' by (rewrite length_app, length_be_bytes; done).
    by rewrite take_app_length' by done.
Qed.

Lemma ipv6_socket_length octets port :
  length octets = 16%nat -> zlen (copy_at (copy_at (replicate 26 x00) 0 (be_bytes 2 port)) 6 octets) = 26.
Proof.
  intros Hl. rewrite copied_twice by (rewrite ?length_be_bytes, ?Hl; lia).
  unfold zlen. by rewrite !length_app, length_be_bytes, !length_replicate, Hl.
Qed.

Definition seed_features : Z := Z.lor MESSAGE_ADDRESS_V2 SERVER_NAUTILUS_MASK.

Lemma entity_address_v6 octets port :
  length octets = 16%nat ->
  entity_address (SA_V6 octets port) =
    (e ← map_err seed_wire_error (EntityAddr_encode (seed_address (SA_V6 octets port)) (Encoder_new 64) seed_features);
     bytes ← map_err seed_wire_error (Encoder_finish e);
     '(address, _) ← map_err seed_wire_error (EntityAddr_decode (Decoder_new bytes (zlen bytes)));
     Ok address).
Proof.
  intros Hl. unfold entity_address, EntityAddr_encode, seed_address, entity_addr_from_endpoint.
  cbn [family socket_data address_type nonce]. rewrite ipv6_socket_length by done. done.
Qed.

Lemma entity_address_ok a : socket_ok a -> entity_address a = Ok (seed_address a).
Proof.
  intros Ha. pose proof (seed_address_ok a Ha) as [Hok _]. destruct a as [octets port|octets port]; [done|].
  destruct Ha as [Hl Hp]. rewrite entity_address_v6 by done.
  assert (zlen (address_image seed_features (seed_address (SA_V6 octets port))) = 47) as Hz.
  { unfold address_image. change (contains seed_features MESSAGE_ADDRESS_V2) with true. cbv iota.
    unfold versioned_image. autorewrite with zlen. rewrite zlen_address_payload.
    unfold address_seen. change (contains seed_features MESSAGE_ADDRESS_V2) with true. cbn [socket_data].
    unfold seed_address, entity_addr_from_endpoint. cbn [socket_data]. rewrite ipv6_socket_length by done. done. }
  rewrite address_encode_image; [|done|split; [done|rewrite Hz; done]].
  change (map_err seed_wire_error (Ok ?x)) with (Ok (E := SeedError) x). rewrite bind_Ok.
  change (Encoder_finish (written (Encoder_new 64) ?b)) with (Ok (E := WireError) b).
  change (map_err seed_wire_error (Ok ?x)) with (Ok (E := SeedError) x). rewrite bind_Ok.
  set (image := address_image _ _) in *.
  rewrite (address_decode_image seed_features (seed_address (SA_V6 octets port)) _ []); [done|done|by rewrite Hz|].
  by rewrite app_nil_r.
Qed.

(** ** What the parsers return *)

Lemma parse_digits_range base bound text : 0 <= base -> forall acc v,
  0 <= acc < bound -> parse_digits base bound acc text = Some v -> 0 <= v < bound.
Proof.
  intros Hb. induction text as [|b text IH]; intros acc v Ha; cbn [parse_digits]; [by intros [= <-]|].
  destruct (digit_value base b) as [d|] eqn:Hd; [|done]. cbn. destruct (Z.ltb_spec (base * acc + d) bound); [|done].
  apply IH. split; [|done]. assert (0 <= d); [|nia]. revert Hd. unfold digit_value. cbv zeta.
  pose proof (Z_of_byte_range b). destruct (_ <? base); [|done]. intros [= <-].
  repeat split_if; bool_prop; lia.
Qed.

Lemma parse_unsigned_range w text v : 0 <= w -> parse_unsigned w text = Some v -> 0 <= v < 2 ^ w.
Proof.
  intros Hw. pose proof (Z.pow_pos_nonneg 2 w ltac:(lia) Hw). unfold parse_unsigned, parse_number.
  destruct text as [|b text]; [done|]. case_bool_decide; [destruct text; [done|]|]; apply parse_digits_range; lia.
Qed.

Lemma read_number_range radix max_digits allow bound l v rest :
  0 <= radix -> 0 < bound -> read_number radix max_digits allow bound l = Some (v, rest) -> 0 <= v < bound.
Proof.
  intros Hr Hb. unfold read_number. destruct (span _ l). destruct (_ || _ || _); [done|].
  destruct (parse_digits _ _ _ _) eqn:Hp; [|done]. cbn. intros [= <- _]. by eapply parse_digits_range; [..|exact Hp]; lia.
Qed.

Lemma read_octets_length n : forall first l vs rest, read_octets n first l = Some (vs, rest) -> length vs = n.
Proof.
  induction n as [|n IH]; intros first l vs rest; cbn [read_octets]; [by intros [= <- _]|].
  destruct (read_separator _ _ _ l) as [[v l']|]; [|done]. cbn.
  destruct (read_octets n false l') as [[vs' l'']|] eqn:H; [|done]. cbn. intros [= <- _]. cbn. by rewrite (IH _ _ _ _ H).
Qed.

Lemma read_groups_length left_ : forall first l gs ipv4 rest,
  read_groups left_ first l = (gs, ipv4, rest) -> (length gs <= left_)%nat.
Proof.
  induction left_ as [|left_ IH]; intros first l gs ipv4 rest; cbn [read_groups]; [intros H; simplify_eq; done|].
  destruct (if (0 <? left_)%nat then _ else _) as [[octets l4]|] eqn:H4.
  - destruct (Nat.ltb_spec 0 left_) as [Hp|Hp]; [|done]. intros H. simplify_eq.
    assert (length octets = 4%nat) as Hl.
    { destruct first; cbn [read_separator] in H4; [by eapply read_octets_length|].
      destruct (read_given_char _ _); [|done]. by eapply read_octets_length. }
    destruct (octets_of_segments 2 octets Hl) as [_ ->]. lia.
  - destruct (read_separator _ _ (read_number _ _ _ _) l) as [[g l1]|]; [|intros H; simplify_eq; cbn; lia].
    destruct (read_groups left_ false l1) as [[gs' b] l2] eqn:H2. intros H. simplify_eq. cbn [length].
    apply IH in H2. lia.
Qed.

Lemma octets_of_length gs : length (octets_of gs) = (2 * length gs)%nat.
Proof.
  unfold octets_of. induction gs as [|g gs IH]; [done|]. cbn [fmap list_fmap concat length] in *.
  rewrite length_app, length_be_bytes, IH. lia.
Qed.

Lemma read_ipv6_length l octets rest : read_ipv6_addr l = Some (octets, rest) -> length octets = 16%nat.
Proof.
  unfold read_ipv6_addr. destruct (read_groups 8 true l) as [[gs b] l1] eqn:H1. apply read_groups_length in H1.
  destruct (Nat.eqb_spec (length gs) 8) as [He|He]; [intros [= <- _]; rewrite octets_of_length; lia|].
  destruct b; [done|]. destruct (read_given_char x3a l1) as [l2|]; [|done]. cbn [mbind option_bind].
  destruct (read_given_char x3a l2) as [l3|]; [|done]. cbn [mbind option_bind].
  destruct (read_groups _ true l3) as [[tl b'] l4] eqn:H2. apply read_groups_length in H2.
  intros [= <- _]. rewrite octets_of_length, !length_app, length_replicate. lia.
Qed.

Lemma parse_ip_ok l a : parse_ip l = Some a -> ip_ok a.
Proof.
  unfold parse_ip, parse_with, read_ip_addr. destruct (read_ipv4_addr l) as [[octets rest]|] eqn:H4.
  - destruct rest; [|done]. intros [= <-]. by apply read_octets_length in H4.
  - destruct (read_ipv6_addr l) as [[octets rest]|] eqn:H6; [|done]. cbn. destruct rest; [|done]. intros [= <-].
    by apply read_ipv6_length in H6.
Qed.

Lemma read_port_range l v rest : read_port l = Some (v, rest) -> 0 <= v < 2 ^ 16.
Proof. unfold read_port. destruct (read_given_char _ _); [|done]. by apply read_number_range. Qed.

Lemma parse_socket_port l ip port : parse_socket_addr l = Some (ip, port) -> 0 <= port < 2 ^ 16.
Proof.
  unfold parse_socket_addr, parse_with, read_socket_addr.
  intros H. destruct (_ ≫= _ : option (IpAddr * Z * list byte)) as [[[ip4 p4] l4]|] eqn:H4 in H.
  - destruct l4; [|done]. injection H as <- <-. destruct (read_ipv4_addr l) as [[o l1]|]; [|done]. cbn [mbind option_bind] in H4.
    destruct (read_port l1) as [[p l2]|] eqn:Hp; [|done]. injection H4 as _ <- _. by apply read_port_range in Hp.
  - destruct (read_given_char x5b l) as [l3|]; [|done]. cbn [mbind option_bind] in H.
    destruct (read_ipv6_addr l3) as [[o' l5]|]; [|done]. cbn [mbind option_bind] in H.
    destruct (read_given_char _ _); [|done]. cbn [mbind option_bind] in H.
    destruct (read_port _) as [[p l6]|] eqn:Hp; [|done]. cbn in H. destruct l6; [|done]. injection H as _ <-.
    by apply read_port_range in Hp.
Qed.

Lemma parse_seed_port text host port : parse_seed text = Ok (host, port) -> 0 < port < 2 ^ 16.
Proof.
  unfold parse_seed. cbv zeta. intros H. apply bind_inv in H as (seed & _ & H). apply bind_inv in H as (seed' & _ & H).
  destruct (parse_ip seed'); [apply Ok_inj in H; injection H as _ <-; done|]. destruct (starts_with _ _).
  - apply bind_inv in H as ([ip p] & Hp & H). apply ok_or_inv, parse_socket_port in Hp. split_if. bool_prop.
    apply Ok_inj in H. injection H as _ <-. lia.
  - destruct (rsplit_once x3a seed') as [[h p]|].
    + split_if. apply bind_inv in H as (v & Hv & H). apply Ok_inj in H. injection H as _ <-. apply ok_or_inv in Hv.
      destruct (parse_unsigned 16 p) as [v'|] eqn:Hp; [|done]. cbn in Hv. apply parse_unsigned_range in Hp; [|done].
      split_if. bool_prop. injection Hv as <-. lia.
    + destruct (bool_decide _); [done|]. apply Ok_inj in H. injection H as _ <-. done.
Qed.

(** ** Resolution *)

(** The calls of the resolver and their answers. *)
Inductive ResolverObs : Type :=
| WO_System (r : result SeedError unit)
| WO_Ips (host : list byte) (r : result SeedError (list IpAddr))
| WO_Records (name : list byte) (r : result SeedError (list SrvRecord)).

Definition see_resolver (X : Type) (e : ResolverE X) : X -> ResolverObs :=
  match e with
  | W_System => WO_System
  | W_LookupIp host _ => WO_Ips host
  | W_LookupSrv _ _ name _ => WO_Records name
  end.

(** The answers have the types of the trait: addresses of 4 or 16 bytes and
    16-bit ports. *)
Definition answer_typed (o : ResolverObs) : Prop :=
  match o with
  | WO_Ips _ (Ok addresses) => Forall ip_ok addresses
  | WO_Records _ (Ok records) => Forall (fun r => 0 <= srv_port r < 2 ^ 16) records
  | _ => True
  end.

(** An endpoint stands for an address that is no IPv4 address in disguise. *)
Definition endpoint_sound (t : list ResolverObs) (e : Endpoint) : Prop :=
  (exists ip, ep_address e = SocketAddr_new (normalize_ip ip) (match ep_address e with SA_V4 _ p | SA_V6 _ p => p end))
  /\ (Forall answer_typed t ->
      socket_ok (ep_address e) /\ is_v2 (ep_entity_address e) = true /\ nonce (ep_entity_address e) = 0
      /\ endpoint (ep_entity_address e) = Ok (Some (ep_address e))).

Record found_ok (maximum : Z) (t : list ResolverObs) (f : Found) : Prop := {
  fo_seen : found_seen f = ep_address <$> found_endpoints f;
  fo_distinct : NoDup (found_seen f);
  fo_limit : found_endpoints f = [] \/ zlen (found_endpoints f) <= maximum;
  fo_sound : Forall (endpoint_sound t) (found_endpoints f);
  fo_error : forall e, found_error f = Some e -> is_lookup e = true
}.

Lemma normalize_ip_ok a : ip_ok a -> ip_ok (normalize_ip a).
Proof.
  destruct a as [octets|octets]; [done|]. cbn. intros Hl. destruct (ipv4_mapped octets) eqn:Hm; [|done].
  by apply ipv4_mapped_inv in Hm as [_ Hm].
Qed.

Lemma SocketAddr_new_ok ip port : ip_ok ip -> 0 <= port < 2 ^ 16 -> socket_ok (SocketAddr_new ip port).
Proof. by destruct ip. Qed.

Lemma found_ok_more maximum t t' f : found_ok maximum t f -> found_ok maximum (t ++ t') f.
Proof.
  intros [H1 H2 H3 H4 H5]. split; try done. eapply Forall_impl; [exact H4|]. intros e [Ha Hb]. split; [done|].
  intros [Ht _]%Forall_app. by apply Hb.
Qed.

Lemma append_endpoint_ok maximum t f f' ip port metadata :
  found_ok maximum t f -> (Forall answer_typed t -> ip_ok ip /\ 0 <= port < 2 ^ 16) ->
  append_endpoint (SocketAddr_new (normalize_ip ip) port) metadata maximum f = Ok f' ->
  found_ok maximum t f'.
Proof.
  intros [H1 H2 H3 H4 H5] Hty. unfold append_endpoint. set (a := SocketAddr_new _ _).
  case_bool_decide as Hin; [by intros [= <-]|]. destruct (Z.leb_spec maximum (zlen (found_endpoints f))) as [|Hlt]; [done|].
  intros H. apply bind_inv in H as (ea & Hea & H). apply Ok_inj in H as <-. split; cbn [found_endpoints found_seen found_error].
  - by rewrite fmap_app, H1.
  - apply NoDup_app. split_and!; [done| |apply NoDup_singleton]. intros x Hx Hs. apply list_elem_of_singleton in Hs as ->. done.
  - right. unfold zlen in *. rewrite length_app. cbn [length]. lia.
  - apply Forall_app. split; [done|]. constructor; [|constructor]. split; cbn [ep_address ep_entity_address].
    + exists ip. unfold a. by destruct (normalize_ip ip).
    + intros [Hip Hp]%Hty. assert (socket_ok a) as Ha by (apply SocketAddr_new_ok; [by apply normalize_ip_ok|done]).
      split; [done|]. rewrite entity_address_ok in Hea by done. apply Ok_inj in Hea as <-.
      split_and!; [by destruct a|by destruct a|by apply seed_address_ok].
  - done.
Qed.

Lemma append_all_ok maximum t addresses port metadata : forall f f',
  found_ok maximum t f -> (Forall answer_typed t -> Forall ip_ok addresses /\ 0 <= port < 2 ^ 16) ->
  append_all addresses port metadata maximum f = Ok f' -> found_ok maximum t f'.
Proof.
  induction addresses as [|a addresses IH]; intros f f' Hf Hty; cbn [append_all]; [by intros [= <-]|].
  assert (Forall answer_typed t -> Forall ip_ok addresses /\ 0 <= port < 2 ^ 16) as Hty'.
  { intros Ht. destruct (Hty Ht) as [Hall Hp]. by inversion Hall. }
  destruct (is_unspecified a); [by apply IH|]. intros H. apply bind_inv in H as (f1 & H1 & H).
  eapply IH; [|done|exact H]. eapply append_endpoint_ok; [exact Hf| |exact H1].
  intros Ht. destruct (Hty Ht) as [Hall Hp]. by inversion Hall.
Qed.

Lemma append_all_error maximum addresses port metadata : forall f e,
  append_all addresses port metadata maximum f = Err e -> is_lookup e = false.
Proof.
  induction addresses as [|a addresses IH]; intros f e; cbn [append_all]; [done|].
  destruct (is_unspecified a); [by apply IH|]. unfold append_endpoint. case_bool_decide; [by apply IH|].
  split_if; [by intros [= <-]|]. destruct (entity_address _) as [ea|e'] eqn:He; [by apply IH|].
  intros [= <-]. revert He. unfold entity_address. destruct (SocketAddr_new _ _) as [|octets p]; [done|].
  destruct (Encoder_finish _) as [bytes|w]; cbn; [|by destruct w; intros [= <-]].
  destruct (EntityAddr_decode _) as [[a' d']|w]; cbn; [done|by destruct w; intros [= <-]].
Qed.

Abbreviation resolved_to := (always see_resolver).

Definition found_post (maximum : Z) (t : list ResolverObs) (r : result Halted (result SeedError Found)) : Prop :=
  match r with
  | Ok (Ok f) => found_ok maximum t f
  | Ok (Err _) => True
  | Err _ => False
  end.

Lemma note_lookup_ok maximum t f r :
  found_ok maximum t f -> (forall f', r = Ok f' -> found_ok maximum t f') ->
  found_post maximum t (Ok (note_lookup f r)).
Proof.
  intros Hf Hr. destruct r as [f'|e]; cbn; [by apply Hr|]. destruct (is_lookup e) eqn:He; [|done]. cbn.
  destruct Hf. split; try done. intros e' [= <-]. done.
Qed.

Lemma resolve_host_ok maximum t host port metadata f Q :
  found_ok maximum t f -> (Forall answer_typed t -> 0 <= port < 2 ^ 16) ->
  (forall t' r, t `prefix_of` t' -> found_ok maximum t' f -> (forall f', r = Ok f' -> found_ok maximum t' f') -> Q t' (Ok r)) ->
  resolved_to (resolve_host host port metadata maximum f) t Q.
Proof.
  intros Hf Hp HQ. apply always_await. intros [addresses|e]; cbn [always].
  - assert (found_ok maximum (t ++ [WO_Ips host (Ok addresses)]) f) as Hf' by (by apply found_ok_more).
    assert (t `prefix_of` t ++ [WO_Ips host (Ok addresses)]) by (by eexists).
    destruct (maximum <? zlen addresses); cbn [always]; [by apply HQ|]. apply HQ; [done|done|]. intros f' H'.
    eapply append_all_ok; [exact Hf'| |exact H']. intros [Ht Ha]%Forall_app. inversion Ha; subst. auto.
  - apply HQ; [by eexists|by apply found_ok_more|done].
Qed.

Lemma typed_prefix t t' : t `prefix_of` t' -> Forall answer_typed t' -> Forall answer_typed t.
Proof. intros [u ->] [H _]%Forall_app. done. Qed.

Lemma resolve_records_ok maximum records : forall t f,
  found_ok maximum t f -> (Forall answer_typed t -> Forall (fun r => 0 <= srv_port r < 2 ^ 16) records) ->
  resolved_to (resolve_records records maximum f) t (found_post maximum).
Proof.
  induction records as [|record records IH]; intros t f Hf Hty; [done|]. cbn [resolve_records]. apply always_bind.
  apply resolve_host_ok; [done|intros Ht; specialize (Hty Ht); by inversion Hty|].
  intros t' r Hpre Hf' Hr. pose proof (note_lookup_ok _ _ _ _ Hf' Hr) as Hn.
  destruct (note_lookup f r) as [f1|e]; cbn [question]; [|done]. apply IH; [done|]. intros Ht.
  specialize (Hty (typed_prefix _ _ Hpre Ht)). by inversion Hty.
Qed.

Lemma resolve_seed_ok maximum seed t f :
  found_ok maximum t f -> resolved_to (resolve_seed seed maximum f) t (found_post maximum).
Proof.
  intros Hf. unfold resolve_seed. cbv zeta. destruct (starts_with _ _); [done|].
  destruct (strip_prefix_bytes _ _) as [name|].
  - unfold resolve_service. cbv zeta. destruct (bool_decide _); [done|]. apply always_call. intros [records|e].
    + destruct (_ <? _); [done|]. apply resolve_records_ok; [by apply found_ok_more|].
      intros [_ Ht]%Forall_app. by inversion Ht.
    + apply note_lookup_ok; [by apply found_ok_more|done].
  - apply always_question; [|done]. intros [host port] Hp. apply parse_seed_port in Hp.
    destruct (parse_ip host) as [a|] eqn:Ha.
    + apply parse_ip_ok in Ha. cbn [always found_post]. destruct (append_endpoint _ _ _ _) as [f'|] eqn:H'; [|done].
      eapply append_endpoint_ok; [exact Hf| |exact H']. intros _. split; [done|lia].
    + apply always_bind. apply resolve_host_ok; [done|lia|]. intros t' r _ Hf' Hr. by apply note_lookup_ok.
Qed.

Lemma resolve_all_ok maximum seeds : forall t f,
  found_ok maximum t f -> resolved_to (resolve_all seeds maximum f) t (found_post maximum).
Proof.
  induction seeds as [|seed seeds IH]; intros t f Hf; [done|]. cbn [resolve_all]. apply always_await.
  eapply always_mono; [|by apply resolve_seed_ok]. intros t' [[f'|e]|h]; [apply IH|done|done].
Qed.

(** C29. Whatever the resolver answers, [resolve_seeds] returns; when it returns
    endpoints there is one at least, there are no more of them than the limit
    on addresses, no socket address is among them twice, none is an IPv4
    address in the disguise of an IPv6 one, and each carries a messenger v2
    entity address with nonce zero whose endpoint is the socket address to
    dial. *)
Theorem resolve_seeds_sound seeds given limits :
  always see_resolver (resolve_seeds seeds given limits) [] (fun t r =>
    match r with
    | Ok (Ok endpoints) =>
        endpoints <> [] /\ zlen endpoints <= max_addresses limits
        /\ NoDup (ep_address <$> endpoints) /\ Forall (endpoint_sound t) endpoints
    | Ok (Err _) => True
    | Err _ => False
    end).
Proof.
  unfold resolve_seeds. destruct (_ || _); [done|]. destruct (negb _); [done|].
  assert (forall t, found_ok (max_addresses limits) t (mkFound [] [] None)) as H0.
  { intros t. split; cbn; [done|constructor|by left|constructor|done]. }
  assert (forall t, resolved_to (resolve_all seeds (max_addresses limits) (mkFound [] [] None)) t (found_post (max_addresses limits))) as Hall
    by (intros t; by apply resolve_all_ok).
  apply always_await. destruct given; cbn [always]; [|intros [[]|e]; [|done]].
  all: apply always_await; (eapply always_mono; [|apply Hall]); intros t [[f|e]|h]; [|done|done];
    intros [H1 H2 H3 H4 _]; case_bool_decide; cbn [always]; [done|]; destruct H3; [done|]; by rewrite H1 in H2.
Qed.

(** ** An address is a seed for itself *)

Definition address_byte (b : byte) : Prop := is_radix_digit 16 b || bool_decide (b ∈ [x2e; x3a; x5b; x5d]) = true.

Lemma address_byte_visible b : address_byte b -> visible b = true /\ b <> x2f.
Proof. unfold address_byte. by destruct b. Qed.

Lemma digits_address fuel base n : 2 <= base <= 16 -> 0 <= n -> Forall address_byte (digits fuel base n).
Proof.
  intros Hb Hn. pose proof (digits_are_digits fuel base n ltac:(lia) Hn) as Hd. eapply Forall_impl; [exact Hd|].
  intros b (d & Hr & ->). unfold address_byte, is_radix_digit. rewrite digit_value_digit by lia.
  by rewrite bool_decide_eq_true_2.
Qed.

Lemma group_text_address gs : Forall (fun g => 0 <= g < 2 ^ 16) gs -> forall first, Forall address_byte (group_text first gs).
Proof.
  induction 1 as [|g gs Hg _ IH]; intros first; cbn [group_text]; [constructor|]. rewrite !Forall_app. split_and!; [|apply digits_address; lia|apply IH].
  destruct first; by repeat constructor.
Qed.

Lemma ipv4_text_bytes octets : length octets = 4%nat -> Forall address_byte (ipv4_text octets) /\ x3a ∉ ipv4_text octets.
Proof.
  intros Hl. destruct octets as [|a [|b [|c [|d []]]]]; try done. unfold ipv4_text. change (list_byte_of_string ".") with [x2e].
  cbn [fmap list_fmap text_join compose concat]. rewrite !Forall_app, !elem_of_app.
  assert (forall x, Forall address_byte (digits 3 10 (Z_of_byte x)) /\ x3a ∉ digits 3 10 (Z_of_byte x)) as Hd.
  { intros x. pose proof (Z_of_byte_range x). split; [apply digits_address; lia|].
    apply (digits_avoid 10); [lia|apply digits_are_digits; lia|right; left; by vm_compute]. }
  pose proof (Hd a) as [? ?]. pose proof (Hd b) as [? ?]. pose proof (Hd c) as [? ?]. pose proof (Hd d) as [? ?].
  assert (Forall address_byte [x2e]) by (by repeat constructor). split; [by split_and!|]. set_solver.
Qed.

Lemma ipv6_text_bytes octets : length octets = 16%nat -> Forall address_byte (ipv6_text octets).
Proof.
  intros Hl. unfold ipv6_text. destruct (ipv4_mapped octets) as [ipv4|] eqn:Hm.
  - apply ipv4_mapped_inv in Hm as [_ H4]; [|done]. apply Forall_app. split; [|by apply ipv4_text_bytes].
    by repeat constructor.
  - pose proof (segments_of_range octets) as Hg. cbv zeta. rewrite !segments_text_groups.
    destruct (1 <? _)%nat; [|by apply group_text_address]. rewrite !Forall_app. split_and!.
    + by apply group_text_address, Forall_take.
    + by repeat constructor.
    + by apply group_text_address, Forall_drop.
Qed.

Lemma socket_text_bytes a : socket_ok a -> Forall address_byte (SocketAddr_to_string a).
Proof.
  destruct a as [octets port|octets port]; cbn [SocketAddr_to_string socket_ok]; intros [Hl Hp]; rewrite !Forall_app; split_and!.
  all: first [by apply ipv4_text_bytes|by apply ipv6_text_bytes|apply digits_address; lia|by repeat constructor].
Qed.

Lemma rsplit_once_app c x y : c ∉ y -> rsplit_once c (x ++ c :: y) = Some (x, y).
Proof.
  intros Hy. unfold rsplit_once. rewrite reverse_app, reverse_cons, <- app_assoc. cbn [app].
  rewrite split_once_app by (by rewrite elem_of_reverse). cbn. by rewrite !reverse_involutive.
Qed.

Lemma split_once_none c l : c ∉ l -> split_once c l = None.
Proof.
  induction l as [|b l IH]; intros Hl; [done|]. cbn. rewrite bool_decide_eq_false_2 by set_solver.
  rewrite IH by set_solver. done.
Qed.

Lemma rsplit_once_none c l : c ∉ l -> rsplit_once c l = None.
Proof. intros Hl. unfold rsplit_once. by rewrite split_once_none by (by rewrite elem_of_reverse). Qed.

Lemma starts_with_other p c l : head p <> Some c -> p <> [] -> starts_with p (c :: l) = false.
Proof.
  intros Hp Hne. destruct p as [|b p]; [done|]. apply bool_decide_eq_false_2. cbn. intros [= -> _]. done.
Qed.

(** Where the text of an address begins. *)
Lemma ipv4_text_head octets : octets <> [] -> exists c l, ipv4_text octets = c :: l /\ is_radix_digit 10 c = true.
Proof.
  destruct octets as [|x octets]; [done|]. intros _. unfold ipv4_text. cbn [fmap list_fmap text_join compose].
  pose proof (Z_of_byte_range x). destruct (digits_shape 3 10 (Z_of_byte x)) as [Hd _]; [lia|lia|].
  pose proof (digits_nonempty 3 10 (Z_of_byte x) ltac:(lia)) as Hne.
  destruct (digits 3 10 (Z_of_byte x)) as [|c text]; [done|]. inversion Hd; subst. by eexists _, _.
Qed.

Lemma socket_text_head a : socket_ok a ->
  exists c l, SocketAddr_to_string a = c :: l /\ is_radix_digit 10 c || bool_decide (c = x5b) = true.
Proof.
  destruct a as [octets port|octets port]; cbn [socket_ok SocketAddr_to_string]; intros [Hl Hp]; [|by eexists _, _].
  destruct (ipv4_text_head octets) as (c & l & -> & Hc); [by destruct octets|]. eexists _, _. split; [done|]. by rewrite Hc.
Qed.

Lemma parse_unsigned_digits port : 0 <= port < 2 ^ 16 -> parse_unsigned 16 (digits 5 10 port) = Some port.
Proof.
  intros Hp. destruct (digits_shape 5 10 port) as [Hd _]; [lia|lia|].
  pose proof (digits_nonempty 5 10 port ltac:(lia)) as Hne.
  pose proof (parse_digits_digits 10 (2 ^ 16) 5 port ltac:(lia) ltac:(lia) ltac:(lia)) as Hv.
  destruct (digits 5 10 port) as [|b text]; [done|]. unfold parse_unsigned, parse_number.
  rewrite bool_decide_eq_false_2; [done|]. intros ->. inversion Hd; subst. by vm_compute in H1.
Qed.

Lemma read_groups_none left_ l : no_digit 16 l -> read_groups left_ true l = ([], false, l).
Proof.
  intros Hl. destruct left_ as [|left_]; [done|]. cbn [read_groups read_separator].
  rewrite read_ipv4_none, read_number_empty by done. by destruct (0 <? left_)%nat.
Qed.

Definition socket_ip (a : SocketAddr) : IpAddr := (socket_parts a).1.
Definition socket_port (a : SocketAddr) : Z := (socket_parts a).2.

Lemma socket_text_prefix a p b :
  socket_ok a -> head p = Some b -> is_radix_digit 10 b || bool_decide (b = x5b) = false ->
  starts_with p (SocketAddr_to_string a) = false.
Proof.
  intros Ha Hp Hb. destruct (socket_text_head a Ha) as (c & l & -> & Hc). apply starts_with_other; [|by destruct p].
  rewrite Hp. intros [= ->]. by rewrite Hc in Hb.
Qed.

Lemma socket_text_trim a : socket_ok a -> trim (SocketAddr_to_string a) = SocketAddr_to_string a /\ x2f ∉ SocketAddr_to_string a.
Proof.
  intros Ha. pose proof (socket_text_bytes a Ha) as Hb. split.
  - apply visible_trim. eapply Forall_impl; [exact Hb|]. intros b. apply address_byte_visible.
  - intros Hin. rewrite Forall_forall in Hb. by destruct (address_byte_visible _ (Hb _ Hin)).
Qed.

Lemma parse_seed_socket a :
  socket_ok a -> socket_port a <> 0 ->
  parse_seed (SocketAddr_to_string a) = Ok (IpAddr_to_string (socket_ip a), socket_port a).
Proof.
  intros Ha Hport. destruct (socket_text_trim a Ha) as [Ht Hslash]. unfold parse_seed. rewrite Ht. cbv zeta.
  unfold strip_prefix_bytes. rewrite !(socket_text_prefix a _ x76) by done. rewrite bind_Ok, rsplit_once_none, bind_Ok by done.
  pose proof (parse_socket_text a Ha) as Hparse.
  destruct a as [octets port|octets port]; destruct Ha as [Hl Hp]; cbn [socket_port socket_ip socket_parts snd fst] in *.
  - cbn [SocketAddr_to_string] in *. change (list_byte_of_string ":") with [x3a] in *. cbn [app] in *.
    assert (parse_ip (ipv4_text octets ++ x3a :: digits 5 10 port) = None) as ->.
    { unfold parse_ip, parse_with, read_ip_addr. by rewrite read_ipv4_text. }
    assert (starts_with (str "[") (ipv4_text octets ++ x3a :: digits 5 10 port) = false) as ->.
    { destruct (ipv4_text_head octets) as (c & l & -> & Hc); [by destruct octets|].
      apply starts_with_other; [|done]. by intros [= <-]. }
    rewrite rsplit_once_app by (apply (digits_avoid 10); [lia|apply digits_are_digits; lia|right; left; by vm_compute]).
    destruct (ipv4_text_bytes octets Hl) as [_ Hcolon].
    rewrite bool_decide_eq_false_2, bool_decide_eq_false_2; [|done|].
    2: { destruct (ipv4_text_head octets) as (c & l & -> & _); [by destruct octets|done]. }
    cbn [orb]. rewrite parse_unsigned_digits by done. cbn [mbind option_bind]. by rewrite (proj2 (Z.eqb_neq _ _)) by done.
  - assert (parse_ip (SocketAddr_to_string (SA_V6 octets port)) = None) as ->.
    { unfold parse_ip, parse_with, read_ip_addr, read_ipv6_addr. cbn [SocketAddr_to_string].
      change (list_byte_of_string "[" ++ ?t) with (x5b :: t). by rewrite read_ipv4_none, read_groups_none by done. }
    change (starts_with (str "[") (SocketAddr_to_string (SA_V6 octets port))) with true. cbv iota.
    rewrite Hparse, ok_or_Some, bind_Ok. by rewrite (proj2 (Z.eqb_neq _ _)) by done.
Qed.

Lemma socket_ip_ok a : socket_ok a -> ip_ok (socket_ip a) /\ 0 <= socket_port a < 2 ^ 16.
Proof. by destruct a. Qed.

(** C30. The text the client prints for a socket address is a seed for it: with
    that seed alone, [resolve_seeds] asks the resolver nothing and returns one
    endpoint, at that address (an IPv4 address where an IPv6 one stands for
    it) with the entity address made from it. *)
Theorem seed_roundtrip a limits :
  socket_ok a -> socket_port a <> 0 -> 0 < max_seeds limits -> 0 < max_addresses limits ->
  let target := SocketAddr_new (normalize_ip (socket_ip a)) (socket_port a) in
  resolve_seeds [SocketAddr_to_string a] true limits = Ret (Ok [mkEndpoint target (seed_address target) 0 0]).
Proof.
  intros Ha Hport Hs Hm target. destruct (socket_text_trim a Ha) as [Ht _]. destruct (socket_ip_ok a Ha) as [Hip Hp].
  assert (socket_ok target) as Htarget by (apply SocketAddr_new_ok; [by apply normalize_ip_ok|done]).
  unfold resolve_seeds. rewrite bool_decide_eq_false_2 by done. change (zlen [_]) with 1.
  rewrite (proj2 (Z.eqb_neq _ _)), (proj2 (Z.eqb_neq _ _)), (proj2 (Z.ltb_ge _ _)) by lia. cbn [orb existsb].
  rewrite Ht, (socket_text_prefix a _ x76) by done. cbn [orb negb]. unfold await at 1. cbn [mbind Prog_bind question resolve_all].
  unfold resolve_seed. rewrite Ht. cbv zeta. unfold strip_prefix_bytes.
  rewrite (socket_text_prefix a _ x76), (socket_text_prefix a _ x64), parse_seed_socket by done.
  cbn [question]. rewrite parse_ip_text by done. unfold append_endpoint. cbn [found_seen found_endpoints].
  rewrite bool_decide_eq_false_2 by set_solver. rewrite (proj2 (Z.leb_gt _ _)) by done.
  fold target. rewrite entity_address_ok by done. done.
Qed.

Lemma seed_roundtrip_witness :
  let a := SA_V6 (replicate 10 x00 ++ [xff; xff; x0a; x00; x00; x01]) 6789 in
  let target := SA_V4 [x0a; x00; x00; x01] 6789 in
  SocketAddr_to_string a = str "[::ffff:10.0.0.1]:6789"
  /\ resolve_seeds [SocketAddr_to_string a] true (mkSeedLimits 8 64) = Ret (Ok [mkEndpoint target (seed_address target) 0 0]).
Proof. intros a target. split; [done|]. by apply (seed_roundtrip a (mkSeedLimits 8 64)). Defined.

(** ** The order of service records *)

(** Every value below [upper] stands for as many of the values drawn and kept,
    so that none is preferred. *)
Lemma random_below_fair upper :
  0 < upper < 2 ^ 64 -> (2 ^ 64 - wrap 64 (- upper) mod upper) mod upper = 0.
Proof.
  intros Hu. unfold wrap. replace ((- upper) mod 2 ^ 64) with (2 ^ 64 - upper).
  2: { symmetry. rewrite <- (Z.mod_add (- upper) 1 (2 ^ 64)) by lia. rewrite Z.mod_small by lia. lia. }
  replace (2 ^ 64 - upper) with (2 ^ 64 + (-1) * upper) by lia. rewrite Z.mod_add by lia.
  rewrite Zminus_mod, Z.mod_mod, Z.sub_diag by lia. done.
Qed.

Inductive DnsObs : Type :=
| NO_Configured (r : result (list byte) unit)
| NO_Addresses (host : list byte) (r : result (list byte) (list IpAddr))
| NO_Answers (query : list byte) (r : result (list byte) (list RData))
| NO_Random (bytes : option (list byte)).

Definition see_dns (X : Type) (e : DnsE X) : X -> DnsObs :=
  match e with
  | N_Configure => NO_Configured
  | N_LookupIp host => NO_Addresses host
  | N_SrvLookup query => NO_Answers query
  | N_Random => NO_Random
  end.

Lemma random_below_range fuel upper t :
  0 < upper -> always see_dns (random_below fuel upper) t (fun _ r =>
    match r with Ok (Ok v) => 0 <= v < upper | Err Panicked => False | _ => True end).
Proof.
  intros Hu. unfold random_below. generalize (wrap 64 (- upper) mod upper) as threshold. intros threshold. revert t.
  induction fuel as [|fuel IH]; intros t; [done|]. cbn [random_draw]. apply always_call. intros [bytes|]; [|done].
  cbv zeta. destruct (_ <=? _); [|apply IH]. cbn. by apply Z.mod_pos_bound.
Qed.

Lemma swap_first_perm {A} (l : list A) i : swap_first l i ≡ₚ l.
Proof.
  unfold swap_first. destruct (l !! 0%nat) as [x|] eqn:Hx; [|done]. destruct (l !! i) as [y|] eqn:Hy; [|done].
  destruct l as [|z l]; [done|]. injection Hx as ->. destruct i as [|i]; [by injection Hy as ->|]. cbn in Hy. change (y :: <[i := x]> l ≡ₚ x :: l).
  apply list_elem_of_split_length in Hy as (l1 & l2 & -> & ->). rewrite insert_app_r_alt by lia. rewrite Nat.sub_diag. cbn.
  rewrite <- !Permutation_middle. apply Permutation_swap.
Qed.

(** What a shuffle may do: reorder its records, or fail to draw. *)
Definition shuffled (l : list SrvRecord) (r : result Halted (result SeedError (list SrvRecord))) : Prop :=
  match r with
  | Ok (Ok l') => l' ≡ₚ l
  | Ok (Err e) => is_lookup e = true
  | Err h => h = StillRunning
  end.

Lemma random_below_error fuel upper t :
  always see_dns (random_below fuel upper) t (fun _ r =>
    match r with Ok (Ok _) => True | Ok (Err e) => is_lookup e = true | Err h => h = StillRunning end).
Proof.
  unfold random_below. generalize (wrap 64 (- upper) mod upper) as threshold. intros threshold. revert t.
  induction fuel as [|fuel IH]; intros t; [done|]. cbn [random_draw]. apply always_call. intros [bytes|]; [|done].
  cbv zeta. destruct (_ <=? _); [done|apply IH].
Qed.

Lemma shuffle_loop_perm fuel turns : forall total l t,
  always see_dns (shuffle_loop fuel turns total l) t (fun _ => shuffled l).
Proof.
  induction turns as [|turns IH]; intros total l t; cbn [shuffle_loop]; [by apply Permutation_refl|].
  destruct ((0 <? total) && _); [|by apply Permutation_refl]. apply always_await. eapply always_mono; [|apply random_below_error].
  intros t1 [[selected|e]|h]; [intros _|done|done]. cbv zeta.
  pose proof (swap_first_perm l (default 0%nat (weighted_position 0 l 0 selected))) as Hp.
  destruct (swap_first _ _) as [|first rest]; [done|]. apply always_await. eapply always_mono; [|apply IH].
  intros t2 [[rest'|e]|h]; cbn; [|done|done]. intros Hr. by rewrite Hr.
Qed.

Lemma srv_insert_perm r l : srv_insert r l ≡ₚ r :: l.
Proof.
  induction l as [|x l IH]; [done|]. cbn. destruct (srv_le r x); [done|]. rewrite IH. apply Permutation_swap.
Qed.

Lemma srv_sort_perm l : srv_sort l ≡ₚ l.
Proof. induction l as [|r l IH]; [done|]. cbn. rewrite srv_insert_perm. by rewrite IH. Qed.

Definition by_priority (a b : SrvRecord) : Prop := srv_priority a <= srv_priority b.

Lemma srv_insert_sorted r l : StronglySorted by_priority l -> StronglySorted by_priority (srv_insert r l).
Proof.
  induction 1 as [|x l Hl IH Hx]; [by repeat constructor|]. cbn. destruct (srv_le r x) eqn:Hle.
  - assert (by_priority r x) as Hrx.
    { unfold srv_le in Hle. unfold by_priority. apply orb_prop in Hle as [H|H]; bool_prop; lia. }
    constructor; [by constructor|]. constructor; [done|]. eapply Forall_impl; [exact Hx|]. unfold by_priority in *. lia.
  - constructor; [done|]. rewrite srv_insert_perm. constructor; [|done].
    unfold srv_le in Hle. unfold by_priority. bool_prop. lia.
Qed.

Lemma srv_sort_sorted l : StronglySorted by_priority (srv_sort l).
Proof. induction l as [|r l IH]; [constructor|]. by apply srv_insert_sorted. Qed.

Lemma priority_group_parts p l : forall x y,
  priority_group p l = (x, y) -> l = x ++ y /\ Forall (fun r => srv_priority r = p) x.
Proof.
  induction l as [|r l IH]; intros x y; cbn [priority_group]; [intros [= <- <-]; split; [done|constructor]|].
  destruct (Z.eqb_spec (srv_priority r) p) as [Hp|Hp]; [|intros [= <- <-]; split; [done|constructor]].
  destruct (priority_group p l) as [x' y'] eqn:Hg. intros [= <- <-]. destruct (IH x' y' eq_refl) as [-> Hx].
  split; [done|by constructor].
Qed.

Lemma sorted_groups p x y :
  Forall (fun r => srv_priority r = p) x -> StronglySorted by_priority y -> Forall (fun r => p <= srv_priority r) y ->
  StronglySorted by_priority (x ++ y).
Proof.
  induction 1 as [|r x Hr Hx IH]; intros Hy Hp; [done|]. cbn. constructor; [by apply IH|]. apply Forall_app. split.
  - eapply Forall_impl; [exact Hx|]. unfold by_priority. intros; cbn in *; lia.
  - eapply Forall_impl; [exact Hp|]. unfold by_priority. intros; cbn in *; lia.
Qed.

Lemma strongly_sorted_app x y : StronglySorted by_priority (x ++ y) -> StronglySorted by_priority y.
Proof. induction x as [|r x IH]; [done|]. cbn. intros H. apply IH. by inversion H. Qed.

Definition ordered_result (l : list SrvRecord) (r : result Halted (result SeedError (list SrvRecord))) : Prop :=
  shuffled l r /\ forall l', r = Ok (Ok l') -> StronglySorted by_priority l'.

Lemma shuffle_groups_ordered fuel turns : forall l t,
  (length l <= turns)%nat -> StronglySorted by_priority l ->
  always see_dns (shuffle_groups fuel turns l) t (fun _ => ordered_result l).
Proof.
  induction turns as [|turns IH]; intros l t Hl Hs.
  { split; [apply Permutation_refl|]. by intros l' [= <-]. }
  destruct l as [|r l]; [split; [apply Permutation_refl|]; by intros l' [= <-]|]. cbn [shuffle_groups].
  destruct (priority_group (srv_priority r) (r :: l)) as [group rest] eqn:Hg.
  assert (group <> []) as Hne. { intros ->. cbn in Hg. rewrite Z.eqb_refl in Hg. destruct (priority_group _ l). done. }
  apply priority_group_parts in Hg as [Hlist Hgroup]. apply always_await.
  eapply always_mono; [|apply shuffle_loop_perm]. intros t1 [[group'|e]|h]; cbn [shuffled]; [|done|done]. intros Hperm.
  assert (length (group ++ rest) <= S turns)%nat as Hlen by (by rewrite <- Hlist).
  rewrite length_app in Hlen. rewrite Hlist in Hs. apply always_await.
  eapply always_mono; [|apply IH; [destruct group; [done|cbn in Hlen; lia]|by eapply strongly_sorted_app]].
  intros t2 [[rest'|e]|h]; [|by intros [? ?]|by intros [? ?]]. intros [Hrest Hsorted]. cbn in Hrest. rewrite Hlist.
  split; [cbn; by rewrite Hperm, Hrest|]. intros l' [= <-]. eapply (sorted_groups (srv_priority r)).
  - by rewrite Hperm.
  - by apply Hsorted.
  - rewrite Hrest. destruct group as [|g group]; [done|]. inversion Hgroup; subst. inversion Hs as [|? ? _ Hg]; subst.
    apply Forall_app in Hg as [_ Hg]. eapply Forall_impl; [exact Hg|]. unfold by_priority. intros; cbn in *; lia.
Qed.

(** Whatever the random source returns, [sort_srv_records] only reorders
    the records, and orders them by priority: within a priority the weights
    decide, between priorities nothing does. It fails only when the random
    source does. *)
Theorem srv_order fuel records :
  always see_dns (sort_srv_records fuel records) [] (fun _ r =>
    match r with
    | Ok (Ok sorted) => sorted ≡ₚ records /\ StronglySorted by_priority sorted
    | Ok (Err e) => is_lookup e = true
    | Err h => h = StillRunning
    end).
Proof.
  unfold sort_srv_records. eapply always_mono; [|apply shuffle_groups_ordered; [|apply srv_sort_sorted]].
  - intros t [[l|e]|h] [H1 H2]; [|done|done]. split; [|by apply H2]. cbn in H1. by rewrite H1, srv_sort_perm.
  - by rewrite srv_sort_perm.
Qed.
