(* ===== verification/Manager.v ===== *)
(** * The manager client

    Models [src/src/mgr/messages.rs] and [ManagerClient] of
    [src/src/mgr/client.rs]: the command message and its reply, the state the
    callers share under the client's lock, and [command] with its retries as a
    program whose environment is the snapshot of the manager map, the session
    factory, the sessions, the clock and the other callers. *)

From S2P Require Import Prelude Codec Message Frame Address Control SessionState Session MapBase MonMessages OsdSession Interaction.
From Stdlib Require Import ZArith Lia Strings.Byte Strings.String.
From stdpp Require Import base option gmap sorting numbers list.

Open Scope Z_scope.

(** ** Messages *)

Definition MESSAGE_MGR_COMMAND : Z := 0x709.
Definition MESSAGE_MGR_COMMAND_REPLY : Z := 0x70a.

Record MgrCommandReply : Type := mkMgrCommandReply {
  mc_result : Z;
  mc_status : list byte;
  mc_data : list byte
}.

(** [encode_command]. *)
Definition mgr_encode_command (fsid : list byte) (command : list (list byte)) (input : list byte)
    (max_bytes : Z) : result MessageError Message :=
  let limit := MsE_Wire LimitExceeded in
  if (max_bytes =? 0) || bool_decide (command = []) then Err limit
  else if max_bytes <? zlen input then Err limit
  else
    let e := Encoder_raw (Encoder_new max_bytes) fsid in
    count ← ok_or (try_u 32 (zlen command)) limit;
    front ← encoded (fold_left Encoder_string command (Encoder_u32 e count));
    if max_bytes <? Z.min u64_max (zlen front + zlen input) then Err limit
    else
      f ← ok_or (try_u 32 (zlen front)) limit;
      d ← ok_or (try_u 32 (zlen input)) limit;
      Ok (mkMessage (mkMessageHeader 0 0 MESSAGE_MGR_COMMAND 0 1 0 0 0 0 0 0) (mkMessageLengths f 0 d) front [] input).

(** [validate_message_payload]. *)
Definition mgr_validate_message_payload (m : Message) (type version_ compat max_bytes : Z) : result MessageError unit :=
  total ← ok_or (checked_add 64 (zlen (front m)) (zlen (data m))) (MsE_Wire LimitExceeded);
  if (max_bytes =? 0) || (max_bytes <? total) then Err (MsE_Wire LimitExceeded)
  else
    let malformed := Err (MsE_Malformed "message payload") in
    if negb (message_type (header m) =? type) || negb (version (header m) =? version_)
       || negb (compat_version (header m) =? compat) || negb (bool_decide (middle m = []))
    then malformed
    else
      f ← ok_or (try_u 32 (zlen (front m))) (MsE_Wire LimitExceeded);
      d ← ok_or (try_u 32 (zlen (data m))) (MsE_Wire LimitExceeded);
      if bool_decide (lengths m <> mkMessageLengths f 0 d) then malformed else Ok tt.

(** [decode_command_reply]. *)
Definition mgr_decode_command_reply (m : Message) (max_bytes : Z) : result MessageError MgrCommandReply :=
  _ ← mgr_validate_message_payload m MESSAGE_MGR_COMMAND_REPLY 1 1 max_bytes;
  on_front m max_bytes
    (result ← rd Decoder_i32;
     status ← rd Decoder_string;
     _ ← finish_exact "manager command reply";
     mret (mkMgrCommandReply result status (data m))).

(** ** The client's state *)

Inductive ManagerError : Type :=
| MX_Closed
| MX_InvalidConfig
| MX_NoActiveManager
| MX_IdentityUnavailable
| MX_UnsupportedManagerFeatures
| MX_Session (e : SessionError)
| MX_Message (e : MessageError)
| MX_WireErrno (code : Z).

Record ActiveTarget : Type := mkActiveTarget {
  at_epoch : Z;
  at_gid : Z;
  at_name : list byte;
  at_address : EntityAddr;
  at_features : Z
}.

Record Snapshot : Type := mkSnapshot {
  sn_fsid : option (list byte);
  sn_target : option ActiveTarget;
  sn_unsupported_features : bool
}.

Definition same_target (a b : ActiveTarget) : bool :=
  (at_gid a =? at_gid b) && bool_decide (at_name a = at_name b) && EntityAddr_eq (at_address a) (at_address b).

(** Sessions are told apart by numbers, as [Arc::ptr_eq] does. *)
Record SessionEntry : Type := mkSessionEntry { se_target : ActiveTarget; se_session : Z }.

Record MgrState : Type := mkMgrState {
  mg_closed : bool;
  mg_next_tid : Z;
  mg_session : option SessionEntry
}.

Record ManagerConfig : Type := mkManagerConfig {
  mf_frame_limits : Limits;
  mf_dial_timeout : Z;
  mf_handshake_timeout : Z;
  mf_allow_crc : bool;
  mf_address_nonce : Z;
  mf_message_max_bytes : Z;
  mf_retry_delay : Z;
  mf_max_attempts : nat
}.

(** [new_with_budget]: what it checks and the state it starts with. *)
Definition ManagerClient_new (c : ManagerConfig) : result ManagerError MgrState :=
  let l := mf_frame_limits c in
  if (mf_message_max_bytes c =? 0) || (mf_retry_delay c =? 0) || (mf_max_attempts c =? 0)%nat
     || (mf_dial_timeout c =? 0) || (mf_handshake_timeout c =? 0)
     || (max_segment_bytes l =? 0) || (max_frame_bytes l =? 0) || (max_auth_bytes l =? 0)
  then Err MX_InvalidConfig
  else Ok (mkMgrState false 1 None).

(** What happens under the lock: the number of a command, the test of the
    flag, the first and the second half of [get_session], [invalidate] and
    [close].  The sessions the answers hand out are stopped after the lock is
    released. *)
Inductive Taken : Type :=
| Tk_Closed
| Tk_Active (e : SessionEntry)
| Tk_Previous (e : option SessionEntry).

Inductive Installed : Type :=
| In_Closed
| In_Existing (e : SessionEntry)
| In_Replaced (e : SessionEntry)
| In_Fresh.

Inductive StateOp : Type -> Type :=
| Op_Next : StateOp (result ManagerError Z)
| Op_Closed : StateOp bool
| Op_Take (target : ActiveTarget) : StateOp Taken
| Op_Install (target : ActiveTarget) (created : Z) : StateOp Installed
| Op_Invalidate (active : SessionEntry) : StateOp (option SessionEntry)
| Op_Close : StateOp (option SessionEntry).

Definition next_transaction_id (s : MgrState) : MgrState * result ManagerError Z :=
  if mg_closed s then (s, Err MX_Closed)
  else if mg_next_tid s =? 0 then (s, Err (MX_Session SE_TransitionLimit))
  else (mkMgrState false (wrap 64 (mg_next_tid s + 1)) (mg_session s), Ok (mg_next_tid s)).

Definition take_session (target : ActiveTarget) (s : MgrState) : MgrState * Taken :=
  if mg_closed s then (s, Tk_Closed)
  else
    let taken := (mkMgrState (mg_closed s) (mg_next_tid s) None, Tk_Previous (mg_session s)) in
    match mg_session s with
    | Some active => if same_target (se_target active) target then (s, Tk_Active active) else taken
    | None => taken
    end.

Definition install_session (target : ActiveTarget) (created : Z) (s : MgrState) : MgrState * Installed :=
  let installed := mkMgrState (mg_closed s) (mg_next_tid s) (Some (mkSessionEntry target created)) in
  if mg_closed s then (s, In_Closed)
  else
    match mg_session s with
    | Some existing =>
        if same_target (se_target existing) target then (s, In_Existing existing) else (installed, In_Replaced existing)
    | None => (installed, In_Fresh)
    end.

Definition is_entry (active current : SessionEntry) : bool :=
  same_target (se_target current) (se_target active) && (se_session current =? se_session active).

Definition invalidate_session (active : SessionEntry) (s : MgrState) : MgrState * option SessionEntry :=
  match mg_session s with
  | Some current =>
      if is_entry active current then (mkMgrState (mg_closed s) (mg_next_tid s) None, Some current) else (s, None)
  | None => (s, None)
  end.

Definition close_client (s : MgrState) : MgrState * option SessionEntry :=
  if mg_closed s then (s, None) else (mkMgrState true (mg_next_tid s) None, mg_session s).

Definition apply_op {X} (op : StateOp X) : MgrState -> MgrState * X :=
  match op with
  | Op_Next => next_transaction_id
  | Op_Closed => fun s => (s, mg_closed s)
  | Op_Take target => take_session target
  | Op_Install target created => install_session target created
  | Op_Invalidate active => invalidate_session active
  | Op_Close => close_client
  end.

(** ** The program *)

(** How a turn of the [select!] of [submit_pending_aware] ends. *)
Inductive SubmitEvent : Type :=
| SV_Reply (r : result SessionError Message)
| SV_Done
| SV_Deadline
| SV_Cancellation
| SV_Tick.

(** How a turn of the [select!] of [wait_retry] ends. *)
Inductive RetryEvent : Type := RV_Delay | RV_Deadline | RV_Cancellation | RV_Done.

(** [G_Drop] lets a session go that was never used; dropping a session closes
    it.  [G_Cancel] signals the cancellation and waits for the submission. *)
Inductive MgrE : Type -> Type :=
| G_State {X} (op : StateOp X) : MgrE X
| G_Options : MgrE OptionsView
| G_Snapshot : MgrE Snapshot
| G_Open (target : ActiveTarget) : MgrE (result ManagerError Z)
| G_Stop (session : Z) : MgrE unit
| G_Drop (session : Z) : MgrE unit
| G_Submit (session : Z) (m : Message) : MgrE unit
| G_Select : MgrE SubmitEvent
| G_Cancel : MgrE (result SessionError Message)
| G_Retry : MgrE RetryEvent.

Abbreviation GP := (Prog MgrE).
Abbreviation GR A := (Prog MgrE (result ManagerError A)).

Definition cancelled_error : ManagerError := MX_Session SE_Cancelled.

(** The checks of the options the functions repeat. *)
Definition mgr_check_options : GR unit :=
  v ← call G_Options;
  Ret (if ov_canceled v || ov_expired v then Err cancelled_error else Ok tt).

Definition target_of (s : Snapshot) : result ManagerError (ActiveTarget * list byte) :=
  fsid ← ok_or (sn_fsid s) MX_IdentityUnavailable;
  if sn_unsupported_features s then Err MX_UnsupportedManagerFeatures
  else
    target ← ok_or (sn_target s) MX_NoActiveManager;
    Ok (target, fsid).

Definition current_target : GR (ActiveTarget * list byte) := s ← call G_Snapshot; Ret (target_of s).

Definition stop_entry (e : option SessionEntry) : GP unit :=
  match e with
  | Some e => call (G_Stop (se_session e))
  | None => Ret tt
  end.

Definition invalidate (active : SessionEntry) : GP unit :=
  stale ← call (G_State (Op_Invalidate active)); stop_entry stale.

Definition ManagerClient_close : GP unit := active ← call (G_State Op_Close); stop_entry active.

Fixpoint retry_loop (fuel : nat) : GR unit :=
  match fuel with
  | O => Stop StillRunning
  | S fuel =>
      e ← call G_Retry;
      match e with
      | RV_Delay => Ret (Ok tt)
      | RV_Deadline => Ret (Err cancelled_error)
      | RV_Cancellation =>
          v ← call G_Options;
          if ov_canceled v then Ret (Err cancelled_error) else retry_loop fuel
      | RV_Done => Ret (Err MX_Closed)
      end
  end.

Definition wait_retry (patience : nat) : GR unit := await mgr_check_options (fun _ => retry_loop patience).

Definition classify_cancel_result (r : result SessionError Message) : ManagerError :=
  match r with
  | Err SE_OutcomeUnknown => MX_Session SE_OutcomeUnknown
  | _ => cancelled_error
  end.

(** Cancels the submission and classifies how it ended. *)
Definition cancel_submit : GR (option Message) :=
  reply ← call G_Cancel; Ret (Err (classify_cancel_result reply)).

Definition is_unknown (r : result SessionError Message) : bool :=
  match r with Err SE_OutcomeUnknown => true | _ => false end.

Fixpoint submit_loop (fuel : nat) (active : SessionEntry) : GR (option Message) :=
  match fuel with
  | O => Stop StillRunning
  | S fuel =>
      v ← call G_Options;
      if ov_canceled v || ov_expired v then cancel_submit
      else
        e ← call G_Select;
        match e with
        | SV_Reply r => Ret (map_err MX_Session (Some <$> r))
        | SV_Done =>
            reply ← call G_Cancel;
            Ret (Err (if is_unknown reply then MX_Session SE_OutcomeUnknown else MX_Closed))
        | SV_Deadline => cancel_submit
        | SV_Cancellation =>
            v ← call G_Options;
            if ov_canceled v then cancel_submit else submit_loop fuel active
        | SV_Tick =>
            current ← current_target;
            if match current with Ok (current, _) => same_target current (se_target active) | Err _ => false end
            then submit_loop fuel active
            else
              reply ← call G_Cancel;
              if is_unknown reply then Ret (Err (MX_Session SE_OutcomeUnknown))
              else _ ← invalidate active; Ret (Ok None)
        end
  end.

Definition submit_pending_aware (patience : nat) (active : SessionEntry) (m : Message) : GR (option Message) :=
  _ ← call (G_Submit (se_session active) m);
  submit_loop patience active.

(** The second half of [get_session]: the created session is checked against
    the map once more and put in the slot. *)
Definition keep_created (target : ActiveTarget) (created : Z) : GR SessionEntry :=
  let entry := mkSessionEntry target created in
  current ← current_target;
  match current with
  | Err e => _ ← call (G_Drop created); Ret (Err e)
  | Ok (current, _) =>
      if negb (same_target current target) then _ ← call (G_Stop created); Ret (Err MX_NoActiveManager)
      else
        installed ← call (G_State (Op_Install target created));
        match installed with
        | In_Closed => _ ← call (G_Stop created); Ret (Err MX_Closed)
        | In_Existing active => _ ← call (G_Stop created); Ret (Ok active)
        | In_Replaced replaced => _ ← call (G_Stop (se_session replaced)); Ret (Ok entry)
        | In_Fresh => Ret (Ok entry)
        end
  end.

Definition get_session (target : ActiveTarget) : GR SessionEntry :=
  taken ← call (G_State (Op_Take target));
  match taken with
  | Tk_Closed => Ret (Err MX_Closed)
  | Tk_Active active => Ret (Ok active)
  | Tk_Previous previous =>
      _ ← stop_entry previous;
      await mgr_check_options (fun _ =>
      await (call (G_Open target)) (keep_created target))
  end.

Definition set_transaction_id (tid : Z) (m : Message) : Message :=
  let h := header m in
  mkMessage
    (mkMessageHeader (sequence h) tid (message_type h) (priority h) (version h) (data_pre_padding_length h)
       (data_offset h) (ack_sequence h) (header_flags h) (compat_version h) (reserved h))
    (lengths m) (front m) (middle m) (data m).

(** What a reply makes of the command. *)
Definition command_result (reply : MgrCommandReply) : MgrCommandReply * option ManagerError :=
  (reply, if mc_result reply <? 0 then Some (MX_WireErrno (mc_result reply)) else None).

Section Command.
  Context (c : ManagerConfig) (patience : nat) (command : list (list byte)) (input : list byte).

(** The attempts left and the error of the last one. *)
Fixpoint attempts (n : nat) (tid : Z) (last_error : option ManagerError)
    : GR (MgrCommandReply * option ManagerError) :=
  match n with
  | O => Ret (Err (default MX_NoActiveManager last_error))
  | S n =>
      let again e := await (wait_retry patience) (fun _ => attempts n tid (Some e)) in
      let again_or_break e := match n with O => Ret (Err e) | S _ => again e end in
      closed ← call (G_State Op_Closed);
      if closed : bool then Ret (Err MX_Closed)
      else
        await mgr_check_options (fun _ =>
        current ← current_target;
        match current with
        | Err MX_NoActiveManager => again MX_NoActiveManager
        | Err e => Ret (Err e)
        | Ok (target, fsid) =>
            question (map_err MX_Message (mgr_encode_command fsid command input (mf_message_max_bytes c))) (fun request =>
            session ← get_session target;
            match session with
            | Err MX_NoActiveManager => again MX_NoActiveManager
            | Err MX_Closed => Ret (Err MX_Closed)
            | Err e => again_or_break e
            | Ok session =>
                submitted ← submit_pending_aware patience session (set_transaction_id tid request);
                match submitted with
                | Ok None => again_or_break MX_NoActiveManager
                | Ok (Some reply) =>
                    if negb (transaction_id (header reply) =? tid) then
                      _ ← invalidate session;
                      Ret (Err (MX_Message (MsE_Malformed "manager command reply transaction")))
                    else
                      Ret (command_result <$> map_err MX_Message (mgr_decode_command_reply reply (mf_message_max_bytes c)))
                | Err (MX_Session SE_OutcomeUnknown) =>
                    _ ← invalidate session; Ret (Err (MX_Session SE_OutcomeUnknown))
                | Err MX_Closed => Ret (Err MX_Closed)
                | Err e => _ ← invalidate session; again_or_break e
                end
            end)
        end)
  end.

Definition manager_command : GR (MgrCommandReply * option ManagerError) :=
  if bool_decide (command = []) then Ret (Err MX_InvalidConfig)
  else
    await (call (G_State Op_Next)) (fun tid => attempts (mf_max_attempts c) tid None).
End Command.

(** ** The sessions of the manager *)

(** [ManagedSession::submit]: the request is admitted and waited for; the
    cancellation, or the loss of its sender, cancels the request and takes its
    result. *)
Inductive ManagedE : Type -> Type :=
| MG_Admit (m : Message) : ManagedE (result SessionError unit)
| MG_Canceled : ManagedE bool
| MG_Wait : ManagedE (result SessionError (option Message) + bool)
| MG_CancelRequest : ManagedE (result SessionError (option Message)).

Definition request_reply (r : result SessionError (option Message)) : result SessionError Message :=
  reply ← r; ok_or reply SE_Malformed.

(** [MG_Wait] answers with the result of the request, or with a change of the
    signal: whether its sender is gone. *)
Fixpoint managed_loop (fuel : nat) : Prog ManagedE (result SessionError Message) :=
  match fuel with
  | O => Stop StillRunning
  | S fuel =>
      canceled ← call MG_Canceled;
      if canceled : bool then r ← call MG_CancelRequest; Ret (request_reply r)
      else
        w ← call MG_Wait;
        match w with
        | inl r => Ret (request_reply r)
        | inr gone =>
            canceled ← (if gone : bool then Ret true else call MG_Canceled);
            if canceled : bool then r ← call MG_CancelRequest; Ret (request_reply r) else managed_loop fuel
        end
  end.

Definition managed_submit (patience : nat) (m : Message) : Prog ManagedE (result SessionError Message) :=
  await (call (MG_Admit m)) (fun _ => managed_loop patience).

(** [session_config]. *)
Definition mgr_session_config (c : ManagerConfig) (target_address : EntityAddr) : result ManagerError SessionState.Config :=
  placeholder ← map_err (fun _ => MX_InvalidConfig) (ipv4_v2 (SA_V4 [x00; x00; x00; x00] 0));
  let placeholder := with_nonce placeholder (mf_address_nonce c) in
  Ok (mkConfig (mf_frame_limits c) 16 (Z.shiftl 1 20) 16 2 16 ReplayPending
        (mkClientIdent [placeholder] target_address 0 0
           (Z.lor (Z.lor MONITOR_CLIENT MESSAGE_ADDRESS_V2) SERVER_OCTOPUS_MASK)
           (Z.lor MESSAGE_ADDRESS_V2 SERVER_OCTOPUS_MASK) 0 0)
        1 0 0 0 [2; 3; 4; 5]).
