(* ===== verification/ManagerProps.v ===== *)
(** * What the manager client promises

    A command is sent again only when no earlier submission may have been
    executed without an answer, its reply answers its own number, and every
    session a command takes out of the slot or creates in vain is stopped. *)

From S2P Require Import Prelude Codec Message Frame Address Control SessionState Session MapBase MonMessages OsdSession Interaction Manager.
From Stdlib Require Import ZArith Lia Strings.Byte Strings.String.
From stdpp Require Import base option gmap sorting numbers list.

Open Scope Z_scope.

(** ** What a command does *)

Inductive MgrObs : Type :=
| GO_Number (r : result ManagerError Z)
| GO_Snapshot (s : Snapshot)
| GO_Submitted (session : Z) (m : Message)
| GO_Answered (r : result SessionError Message)
| GO_Opened (session : Z)
| GO_Moved (given back : list Z)
| GO_Stopped (session : Z)
| GO_Other.

(** The sessions an operation on the state is handed, and the ones it hands
    back to be stopped. *)
Definition given {X} (op : StateOp X) : list Z :=
  match op with Op_Install _ created => [created] | _ => [] end.

Definition handed_back {X} (op : StateOp X) : X -> list Z :=
  match op in StateOp X return X -> list Z with
  | Op_Take _ => fun a => match a with Tk_Previous (Some e) => [se_session e] | _ => [] end
  | Op_Install _ created => fun a =>
      match a with In_Closed | In_Existing _ => [created] | In_Replaced e => [se_session e] | In_Fresh => [] end
  | Op_Invalidate _ => fun a => match a with Some e => [se_session e] | None => [] end
  | Op_Close => fun a => match a with Some e => [se_session e] | None => [] end
  | Op_Next => fun _ => []
  | Op_Closed => fun _ => []
  end.

Definition see_op {X} (op : StateOp X) : X -> MgrObs :=
  match op in StateOp X return X -> MgrObs with
  | Op_Next => fun r => GO_Number r
  | Op_Closed => fun _ => GO_Other
  | op => fun a => GO_Moved (given op) (handed_back op a)
  end.

Definition see_mgr (X : Type) (e : MgrE X) : X -> MgrObs :=
  match e in MgrE X return X -> MgrObs with
  | G_State op => see_op op
  | G_Snapshot => fun s => GO_Snapshot s
  | G_Open _ => fun r => match r with Ok session => GO_Opened session | Err _ => GO_Other end
  | G_Stop session => fun _ => GO_Stopped session
  | G_Drop session => fun _ => GO_Stopped session
  | G_Submit session m => fun _ => GO_Submitted session m
  | G_Select => fun e => match e with SV_Reply r => GO_Answered r | _ => GO_Other end
  | G_Cancel => fun r => GO_Answered r
  | G_Options => fun _ => GO_Other
  | G_Retry => fun _ => GO_Other
  end.

Definition submitted (t : list MgrObs) : list Message :=
  omap (fun o => match o with GO_Submitted _ m => Some m | _ => None end) t.

Definition answers (t : list MgrObs) : list (result SessionError Message) :=
  omap (fun o => match o with GO_Answered r => Some r | _ => None end) t.

Definition numbers (t : list MgrObs) : list (result ManagerError Z) :=
  omap (fun o => match o with GO_Number r => Some r | _ => None end) t.

(** The sessions a command holds that are neither in the slot nor stopped. *)
Fixpoint let_go (session : Z) (l : list Z) : list Z :=
  match l with
  | [] => []
  | s :: l => if s =? session then l else s :: let_go session l
  end.

Definition hold (held : list Z) (o : MgrObs) : list Z :=
  match o with
  | GO_Opened session => session :: held
  | GO_Moved given back => fold_right let_go held given ++ back
  | GO_Stopped session => let_go session held
  | _ => held
  end.

Definition held (t : list MgrObs) : list Z := fold_left hold t [].

(** ** Sessions *)

Lemma let_go_head s l : let_go s (s :: l) = l.
Proof. cbn. by rewrite Z.eqb_refl. Qed.

Lemma held_snoc t o : held (t ++ [o]) = hold (held t) o.
Proof. unfold held. by rewrite fold_left_app. Qed.

Definition slot (s : MgrState) : list Z := match mg_session s with Some e => [se_session e] | None => [] end.

(** An operation on the state neither loses nor makes up a session. *)
Lemma apply_op_conserves {X} (op : StateOp X) s :
  slot (apply_op op s).1 ++ handed_back op (apply_op op s).2 ≡ₚ given op ++ slot s.
Proof.
  unfold slot. destruct op as [| |target|target created|active|]; cbn [apply_op given handed_back app fst snd].
  - unfold next_transaction_id. destruct (mg_closed s), (mg_next_tid s =? 0); cbn; by rewrite ?app_nil_r.
  - by rewrite app_nil_r.
  - unfold take_session. destruct (mg_closed s), (mg_session s) as [e|] eqn:E; cbn; rewrite ?E; try done.
    by destruct (same_target _ _); cbn; rewrite ?E.
  - unfold install_session. destruct (mg_closed s), (mg_session s) as [e|] eqn:E; cbn; rewrite ?E; try done; [apply Permutation_swap|].
    destruct (same_target _ _); cbn; rewrite ?E; [apply Permutation_swap|done].
  - unfold invalidate_session. destruct (mg_session s) as [e|] eqn:E; cbn; rewrite ?E; [|done].
    by destruct (is_entry active e); cbn; rewrite ?E.
  - unfold close_client. destruct (mg_closed s), (mg_session s) as [e|] eqn:E; cbn; by rewrite ?E.
Qed.

(** A program that starts with some sessions in hand and ends with none. *)
Definition settles_from {A} (l : list Z) (p : GP A) : Prop :=
  forall t, held t = l -> always see_mgr p t (fun t' r => held t' = [] /\ r <> Err Panicked).

Abbreviation settles := (settles_from []).

Lemma from_bind {A B} l (p : GP A) (f : A -> GP B) : settles_from l p -> (forall a, settles (f a)) -> settles_from l (p ≫= f).
Proof.
  intros Hp Hf t Ht. apply always_bind. eapply always_mono; [|by apply Hp].
  intros t' [a|h] [H1 H2]; [by apply Hf|split; [done|by intros [= ->]]].
Qed.

Lemma from_call {X B} l (e : MgrE X) (f : X -> GP B) :
  (forall x, settles_from (hold l (see_mgr X e x)) (f x)) -> settles_from l (call e ≫= f).
Proof. intros H t Ht x. apply H. by rewrite held_snoc, Ht. Qed.

Lemma from_nested {X A B} l (e : MgrE X) (f : X -> GP A) (g : A -> GP B) :
  (forall x, settles_from (hold l (see_mgr X e x)) (f x ≫= g)) -> settles_from l ((call e ≫= f) ≫= g).
Proof. intros H t Ht x. apply H. by rewrite held_snoc, Ht. Qed.

Lemma from_call_only {X} l (e : MgrE X) : (forall x, hold l (see_mgr X e x) = []) -> settles_from l (call e).
Proof. intros H t Ht x. cbn. by rewrite held_snoc, Ht, H. Qed.

Lemma from_await {A B} l (p : GR A) (k : A -> GR B) :
  settles_from l p -> (forall a, settles (k a)) -> settles_from l (await p k).
Proof. intros Hp Hk. apply from_bind; [done|]. intros [a|e]; [apply Hk|]. by intros t Ht. Qed.

Lemma settles_ret {A} (a : A) : settles (Ret a : GP A).
Proof. by intros t Ht. Qed.

Lemma settles_still {A} : settles (Stop StillRunning : GP A).
Proof. by intros t Ht. Qed.

Lemma from_stop session : settles_from [session] (call (G_Stop session)).
Proof. apply from_call_only. intros []. cbn. by rewrite Z.eqb_refl. Qed.

Lemma from_drop session : settles_from [session] (call (G_Drop session)).
Proof. apply from_call_only. intros []. cbn. by rewrite Z.eqb_refl. Qed.

Lemma from_stop_entry e : settles_from (match e with Some e => [se_session e] | None => [] end) (stop_entry e).
Proof. destruct e; [apply from_stop|apply settles_ret]. Qed.

(** Takes the next step of a program. *)
Ltac settle :=
  cbv beta zeta iota; cbn [hold see_mgr see_op given handed_back fold_right let_go app]; rewrite ?Z.eqb_refl; cbn [app];
  lazymatch goal with
  | |- settles_from _ (Ret _) => apply settles_ret
  | |- settles_from _ (Stop StillRunning) => apply settles_still
  | |- settles_from _ (match ?x with _ => _ end) => destruct x; settle
  | |- settles_from _ (call (G_Stop _) ≫= _) => apply from_bind; [apply from_stop|intros; settle]
  | |- settles_from _ (call (G_Drop _) ≫= _) => apply from_bind; [apply from_drop|intros; settle]
  | |- settles_from _ (stop_entry ?e ≫= _) => apply from_bind; [apply from_stop_entry|intros; settle]
  | |- settles_from _ (stop_entry _) => apply from_stop_entry
  | |- settles_from _ (call _ ≫= _) => apply from_call; intros; settle
  | |- settles_from _ ((call _ ≫= _) ≫= _) => apply from_nested; intros; settle
  | |- settles_from ?l (Ret ?a ≫= ?f) => change (settles_from l (f a)); settle
  | |- settles_from _ (await (call _) _) => apply from_call; intros []; cbn [question]; settle
  | |- settles_from _ (await _ _) => apply from_await; intros; settle
  | |- settles_from _ (_ ≫= _) => apply from_bind; intros; settle
  | _ => try done
  end.

Lemma settles_check : settles mgr_check_options.
Proof. unfold mgr_check_options. settle. Qed.

Lemma settles_target : settles current_target.
Proof. unfold current_target. settle. Qed.

Lemma settles_invalidate active : settles (invalidate active).
Proof. unfold invalidate. settle. Qed.

Lemma settles_retry fuel : settles (wait_retry fuel).
Proof.
  unfold wait_retry. apply from_await; [apply settles_check|]. intros _. induction fuel as [|fuel IH]; cbn [retry_loop]; settle.
Qed.

Lemma settles_submit fuel active m : settles (submit_pending_aware fuel active m).
Proof.
  unfold submit_pending_aware. settle. induction fuel as [|fuel IH]; cbn [submit_loop]; unfold cancel_submit, current_target; settle.
  apply settles_invalidate.
Qed.

Lemma settles_get_session target : settles (get_session target).
Proof.
  unfold get_session, keep_created, mgr_check_options, current_target. settle.
Qed.

Lemma settles_attempts c patience command input n tid last :
  settles (attempts c patience command input n tid last).
Proof.
  revert last. induction n as [|n IH]; intros last; cbn [attempts]; settle; unfold question; settle.
  all: auto using settles_retry, settles_get_session, settles_submit, settles_invalidate, settles_check, settles_target.
Qed.

(** C27. The manager client keeps no session by accident: an operation on the
    shared slot neither loses nor makes up a session, and whatever a command
    takes out of the slot, is handed back, or opens and does not put there, it
    has stopped or dropped when it returns, in every interleaving with other
    commands and whatever fails on the way. *)
Theorem manager_sessions_settled c patience command input :
  (forall X (op : StateOp X) s,
     slot (apply_op op s).1 ++ handed_back op (apply_op op s).2 ≡ₚ given op ++ slot s)
  /\ always see_mgr (manager_command c patience command input) [] (fun t r => held t = [] /\ r <> Err Panicked).
Proof.
  split; [intros; apply apply_op_conserves|]. assert (settles (manager_command c patience command input)) as H; [|by apply H].
  unfold manager_command. settle. apply settles_attempts.
Qed.

(** ** Submissions *)

(** A program that submits nothing. *)
Definition quiet {A} (p : GP A) : Prop :=
  forall t, always see_mgr p t (fun t' r =>
    t `prefix_of` t' /\ submitted t' = submitted t /\ answers t' = answers t /\ r <> Err Panicked).

Definition quiet_obs (o : MgrObs) : bool :=
  match o with GO_Submitted _ _ | GO_Answered _ => false | _ => true end.

Lemma submitted_snoc t o : submitted (t ++ [o]) = submitted t ++ submitted [o].
Proof. apply omap_app. Qed.

Lemma answers_snoc t o : answers (t ++ [o]) = answers t ++ answers [o].
Proof. apply omap_app. Qed.

Lemma quiet_snoc t o :
  quiet_obs o = true -> t `prefix_of` t ++ [o] /\ submitted (t ++ [o]) = submitted t /\ answers (t ++ [o]) = answers t.
Proof.
  intros H. rewrite submitted_snoc, answers_snoc. split; [by eexists|]. by destruct o; cbn in *; rewrite ?app_nil_r.
Qed.

Lemma quiet_prog_bind {A B} (p : GP A) (f : A -> GP B) : quiet p -> (forall a, quiet (f a)) -> quiet (p ≫= f).
Proof.
  intros Hp Hf t. apply always_bind. eapply always_mono; [|by apply Hp].
  intros t' [a|h] (H1 & H2 & H3 & H4).
  - eapply always_mono; [|by apply Hf]. cbv beta. intros t2 r (K1 & K2 & K3 & K4). split_and!; [by etrans|congruence..|done].
  - split_and!; try done. by intros [= ->].
Qed.

Lemma quiet_await {A B} (p : GR A) (k : A -> GR B) : quiet p -> (forall a, quiet (k a)) -> quiet (await p k).
Proof. intros Hp Hk. apply quiet_prog_bind; [done|]. intros [a|e]; [apply Hk|]. by intros t. Qed.

Lemma quiet_ret {A} (a : A) : quiet (Ret a : GP A).
Proof. by intros t. Qed.

Lemma quiet_still {A} : quiet (Stop StillRunning : GP A).
Proof. by intros t. Qed.

Lemma quiet_call {X} (e : MgrE X) : (forall x, quiet_obs (see_mgr X e x) = true) -> quiet (call e).
Proof. intros H t x. destruct (quiet_snoc t _ (H x)) as (H1 & H2 & H3). cbn. by split_and!. Qed.

Ltac quieten :=
  cbv beta zeta iota;
  lazymatch goal with
  | |- quiet (Ret _) => apply quiet_ret
  | |- quiet (Stop StillRunning) => apply quiet_still
  | |- quiet (match ?x with _ => _ end) => destruct x; quieten
  | |- quiet (call _) => apply quiet_call; intros x; try destruct x; reflexivity
  | |- quiet (await _ _) => apply quiet_await; intros; quieten
  | |- quiet (_ ≫= _) => apply quiet_prog_bind; intros; quieten
  | _ => try done
  end.

Lemma quiet_check : quiet mgr_check_options.
Proof. unfold mgr_check_options. quieten. Qed.

Lemma quiet_target : quiet current_target.
Proof. unfold current_target. quieten. Qed.

Lemma quiet_invalidate active : quiet (invalidate active).
Proof. unfold invalidate, stop_entry. quieten. Qed.

Lemma quiet_retry fuel : quiet (wait_retry fuel).
Proof.
  unfold wait_retry, mgr_check_options. quieten. induction fuel as [|fuel IH]; cbn [retry_loop]; quieten.
Qed.

Lemma quiet_get_session target : quiet (get_session target).
Proof. unfold get_session, keep_created, mgr_check_options, current_target, stop_entry. quieten. Qed.

(** How a submission ends: it has one answer, and an unknown outcome is
    reported as one. *)
Definition submission_post (t : list MgrObs) (t' : list MgrObs) (r : result Halted (result ManagerError (option Message)))
    : Prop :=
  t `prefix_of` t' /\ submitted t' = submitted t /\
  match r with
  | Err h => h = StillRunning
  | Ok r => exists a, answers t' = answers t ++ [a] /\
      match r with
      | Ok (Some reply) => a = Ok reply
      | Ok None => is_unknown a = false
      | Err e => if is_unknown a then e = MX_Session SE_OutcomeUnknown else e <> MX_Session SE_OutcomeUnknown
      end
  end.

Lemma submission_quiet {A} (p : GP A) (f : A -> GR (option Message)) t :
  quiet p -> (forall a t, always see_mgr (f a) t (submission_post t)) -> always see_mgr (p ≫= f) t (submission_post t).
Proof.
  intros Hp Hf. apply always_bind. eapply always_mono; [|by apply Hp].
  intros t' [a|h] (H1 & H2 & H3 & H4); [|by destruct h].
  eapply always_mono; [|by apply Hf]. cbv beta. unfold submission_post. rewrite H2, H3. intros t2 r (K1 & K2 & K3).
  split_and!; [by etrans|done|done].
Qed.

(** The answer is the last thing but for quiet work after it. *)
Lemma submission_end t a (p : GR (option Message)) r :
  quiet p -> (forall t, always see_mgr p t (fun _ r' => r' = Ok r)) ->
  match r with
  | Ok (Some reply) => a = Ok reply
  | Ok None => is_unknown a = false
  | Err e => if is_unknown a then e = MX_Session SE_OutcomeUnknown else e <> MX_Session SE_OutcomeUnknown
  end ->
  always see_mgr p (t ++ [GO_Answered a]) (submission_post t).
Proof.
  intros Hp Hr Ha. eapply always_mono; [|exact (always_and _ _ _ _ _ (Hp _) (Hr _))]. cbv beta.
  intros t' r' ((H1 & H2 & H3 & _) & ->). rewrite submitted_snoc, app_nil_r in H2. rewrite answers_snoc in H3.
  split; [etrans; [by eexists|done]|]. split; [done|]. by exists a.
Qed.

Lemma invalidate_returns {A} active (r : result ManagerError A) t : always see_mgr (_ ← invalidate active; Ret r) t (fun _ r' => r' = Ok r).
Proof. intros [e|]; cbn; [by intros []|done]. Qed.

Lemma classified a :
  if is_unknown a then classify_cancel_result a = MX_Session SE_OutcomeUnknown
  else classify_cancel_result a <> MX_Session SE_OutcomeUnknown.
Proof. by destruct a as [|[]]. Qed.

Lemma cancel_submission t : always see_mgr cancel_submit t (submission_post t).
Proof. intros a. eapply (submission_end t a _ (Err _)); [apply quiet_ret|done|apply classified]. Qed.

Lemma submission_from p t o :
  quiet_obs o = true -> (forall t, always see_mgr p t (submission_post t)) -> always see_mgr p (t ++ [o]) (submission_post t).
Proof.
  intros Ho Hp. destruct (quiet_snoc t o Ho) as (H1 & H2 & H3). eapply always_mono; [|by apply Hp]. cbv beta.
  unfold submission_post. rewrite H2, H3. intros t2 r (K1 & K2 & K3). split_and!; [by etrans|done|done].
Qed.

Lemma submit_loop_post fuel active t : always see_mgr (submit_loop fuel active) t (submission_post t).
Proof.
  revert t. induction fuel as [|fuel IH]; intros t; [done|]. cbn [submit_loop].
  apply submission_quiet; [quieten|]. clear t. intros v t. destruct (_ || _); [apply cancel_submission|].
  intros [a| | | |]; cbn [see_mgr].
  - eapply (submission_end t a _ _); [apply quiet_ret|done|]. by destruct a as [|[]].
  - apply submission_from; [done|]. clear t. intros t a.
    eapply (submission_end _ a _ (Err _)); [apply quiet_ret|done|]. by destruct (is_unknown a).
  - apply submission_from; [done|]. apply cancel_submission.
  - apply submission_from; [done|]. clear t. intros t. apply submission_quiet; [quieten|]. intros w t2.
    destruct (ov_canceled w); [apply cancel_submission|apply IH].
  - apply submission_from; [done|]. clear t. intros t. apply submission_quiet; [apply quiet_target|]. intros current t2.
    destruct (match current with Ok _ => _ | Err _ => _ end); [apply IH|].
    apply always_call. intros a. cbn [see_mgr]. destruct (is_unknown a) eqn:U.
    + eapply (submission_end _ a _ (Err _)); [apply quiet_ret|done|by rewrite U].
    + eapply (submission_end _ a _ (Ok None)); [|apply invalidate_returns|done].
      apply quiet_prog_bind; [apply quiet_invalidate|intros; quieten].
Qed.

(** ** Commands *)

Definition known (a : result SessionError Message) : Prop := is_unknown a = false.

Section CommandSound.
  Context (c : ManagerConfig) (patience : nat) (command : list (list byte)) (input : list byte).

(** The message is the command for the cluster of an observed snapshot, with
    the number of the command. *)
Definition command_message (tid : Z) (t : list MgrObs) (m : Message) : Prop :=
  exists s fsid request, GO_Snapshot s ∈ t /\ sn_fsid s = Some fsid
    /\ mgr_encode_command fsid command input (mf_message_max_bytes c) = Ok request
    /\ m = set_transaction_id tid request.

(** Every submission has its answer, none of them unknown. *)
Record answered (tid : Z) (n : nat) (t : list MgrObs) : Prop := {
  an_paired : length (answers t) = length (submitted t);
  an_bound : (length (submitted t) <= n)%nat;
  an_known : Forall known (answers t);
  an_message : Forall (command_message tid t) (submitted t)
}.

Definition command_post (tid : Z) (n : nat) (t : list MgrObs)
    (r : result Halted (result ManagerError (MgrCommandReply * option ManagerError))) : Prop :=
  (length (submitted t) <= n)%nat /\ Forall (command_message tid t) (submitted t) /\
  match r with
  | Err h => h = StillRunning
  | Ok r => length (answers t) = length (submitted t) /\
      match r with
      | Ok (reply, e) => exists prior m, answers t = prior ++ [Ok m] /\ Forall known prior
          /\ transaction_id (header m) = tid
          /\ mgr_decode_command_reply m (mf_message_max_bytes c) = Ok reply
          /\ e = (if mc_result reply <? 0 then Some (MX_WireErrno (mc_result reply)) else None)
      | Err e => Forall known (answers t)
          \/ e = MX_Session SE_OutcomeUnknown
             /\ exists prior, answers t = prior ++ [Err SE_OutcomeUnknown] /\ Forall known prior
      end
  end.

Lemma command_message_mono tid t t' m : t `prefix_of` t' -> command_message tid t m -> command_message tid t' m.
Proof.
  intros [u ->] (s & fsid & request & H1 & H). exists s, fsid, request. split; [apply elem_of_app; by left|done].
Qed.

Lemma answered_quiet tid n t t' :
  answered tid n t -> t `prefix_of` t' -> submitted t' = submitted t -> answers t' = answers t -> answered tid n t'.
Proof.
  intros [] Hp Hs Ha. split; rewrite ?Hs, ?Ha; try done.
  eapply Forall_impl; [done|]. intros m. by apply command_message_mono.
Qed.

Lemma answered_post tid n t e : answered tid n t -> command_post tid n t (Ok (Err e)).
Proof. intros []. split; [done|]. split; [done|]. split; [done|]. by left. Qed.

(** A quiet step. *)
Lemma command_quiet {A} (p : GP A) f tid n t N :
  quiet p -> answered tid n t -> (n <= N)%nat ->
  (forall a t', answered tid n t' -> t `prefix_of` t' -> always see_mgr (f a) t' (command_post tid N)) ->
  always see_mgr (p ≫= f) t (command_post tid N).
Proof.
  intros Hp Ht Hn Hf. apply always_bind. eapply always_mono; [|by apply Hp].
  intros t' [a|h] (H1 & H2 & H3 & H4); pose proof (answered_quiet _ _ _ _ Ht H1 H2 H3) as Ht'; [by apply Hf|].
  destruct Ht'. split; [lia|]. split; [done|]. by destruct h.
Qed.

Lemma answered_more tid n N t : answered tid n t -> (n <= N)%nat -> answered tid N t.
Proof. intros [] ?. split; try done. lia. Qed.

Lemma command_quiet_await {A} (p : GR A) k tid n t N :
  quiet p -> answered tid n t -> (n <= N)%nat ->
  (forall a t', answered tid n t' -> t `prefix_of` t' -> always see_mgr (k a) t' (command_post tid N)) ->
  always see_mgr (await p k) t (command_post tid N).
Proof.
  intros Hp Ht Hn Hk. eapply command_quiet; [done|done|done|]. intros [a|e] t' Ht' Hpre; [by apply Hk|].
  cbn. apply answered_post. by eapply answered_more.
Qed.

(** What follows an attempt that ended with an error. *)
Definition goes_on (tid : Z) (n : nat) : Prop :=
  forall k t last, answered tid k t -> (k + n <= mf_max_attempts c)%nat ->
    always see_mgr (attempts c patience command input n tid last) t (command_post tid (mf_max_attempts c)).

Lemma attempt_again tid n k t e :
  goes_on tid n -> answered tid k t -> (k + n <= mf_max_attempts c)%nat ->
  always see_mgr (await (wait_retry patience) (fun _ => attempts c patience command input n tid (Some e))) t
    (command_post tid (mf_max_attempts c)).
Proof.
  intros IH Ht Hn. eapply command_quiet_await; [apply quiet_retry|done|lia|]. intros _ t' Ht' _. by eapply IH.
Qed.

Lemma attempt_again_or_break tid n k t e :
  goes_on tid n -> answered tid k t -> (k + n <= mf_max_attempts c)%nat ->
  always see_mgr
    match n with
    | O => Ret (Err e)
    | S _ => await (wait_retry patience) (fun _ => attempts c patience command input n tid (Some e))
    end t (command_post tid (mf_max_attempts c)).
Proof.
  intros IH Ht Hn. destruct n; [apply answered_post; eapply answered_more; [done|lia]|]. by eapply attempt_again.
Qed.

(** The submission of an attempt: one more message with its answer. *)
Lemma attempt_submitted tid k t session m :
  answered tid k t -> command_message tid t m ->
  always see_mgr (submit_pending_aware patience session m) t (fun t' r =>
    match r with
    | Err h => h = StillRunning /\ (length (submitted t') <= S k)%nat /\ Forall (command_message tid t') (submitted t')
    | Ok r => exists a prior, answers t' = prior ++ [a] /\ Forall known prior /\ length (answers t') = length (submitted t')
        /\ (length (submitted t') <= S k)%nat /\ Forall (command_message tid t') (submitted t') /\
        match r with
        | Ok (Some reply) => a = Ok reply
        | Ok None => known a
        | Err e => if is_unknown a then e = MX_Session SE_OutcomeUnknown else e <> MX_Session SE_OutcomeUnknown
        end
    end).
Proof.
  intros [] Hm. unfold submit_pending_aware. apply always_call. intros []. cbn [see_mgr].
  eapply always_mono; [|apply submit_loop_post]. cbv beta.
  intros t' r (Hp & Hs & Hr). rewrite submitted_snoc in Hs. rewrite answers_snoc, app_nil_r in Hr.
  assert (t `prefix_of` t') as Hp' by (etrans; [by eexists|exact Hp]).
  assert (Forall (command_message tid t') (submitted t')) as Hf.
  { rewrite Hs. apply Forall_app. split; [|constructor; [by eapply command_message_mono|constructor]].
    eapply Forall_impl; [exact an_message0|]. intros x. by apply command_message_mono. }
  assert (length (submitted t') = S (length (submitted t))) as Hl by (rewrite Hs, length_app; cbn; lia).
  destruct r as [r|h]; [|split_and!; [done|lia|done]].
  destruct Hr as (a & Ha & Hr). exists a, (answers t). split_and!; [done|done| |lia|done|done].
  rewrite Ha, length_app. cbn. lia.
Qed.

Lemma answered_again tid k t a prior :
  answers t = prior ++ [a] -> Forall known prior -> known a -> length (answers t) = length (submitted t) ->
  (length (submitted t) <= k)%nat -> Forall (command_message tid t) (submitted t) -> answered tid k t.
Proof. intros Ha Hp Hk H1 H2 H3. split; try done. rewrite Ha. apply Forall_app. split; [done|by constructor]. Qed.

Lemma quiet_invalidated {A} session (r : result ManagerError A) : quiet (_ ← invalidate session; Ret r).
Proof. apply quiet_prog_bind; [apply quiet_invalidate|intros; quieten]. Qed.

(** Quiet work after the end of a command does not change how it ended. *)
Lemma command_invalidated tid N t session r :
  command_post tid N t (Ok r) -> always see_mgr (_ ← invalidate session; Ret r) t (command_post tid N).
Proof.
  intros H. eapply always_mono; [|exact (always_and _ _ _ _ _ (quiet_invalidated session r t) (invalidate_returns session r t))].
  cbv beta. intros t' r' ((H1 & H2 & H3 & _) & ->). unfold command_post in *. rewrite H2, H3.
  destruct H as (K1 & K2 & K3). split; [done|]. split; [|done].
  eapply Forall_impl; [done|]. intros m. by apply command_message_mono.
Qed.

(** What becomes of an attempt when its submission has ended. *)
Definition concluded (n : nat) (tid : Z) (session : SessionEntry) (r : result ManagerError (option Message))
    : GR (MgrCommandReply * option ManagerError) :=
  let again_or_break e :=
    match n with
    | O => Ret (Err e)
    | S _ => await (wait_retry patience) (fun _ => attempts c patience command input n tid (Some e))
    end in
  match r with
  | Ok None => again_or_break MX_NoActiveManager
  | Ok (Some reply) =>
      if negb (transaction_id (header reply) =? tid) then
        _ ← invalidate session;
        Ret (Err (MX_Message (MsE_Malformed "manager command reply transaction")))
      else
        Ret (command_result <$> map_err MX_Message (mgr_decode_command_reply reply (mf_message_max_bytes c)))
  | Err (MX_Session SE_OutcomeUnknown) =>
      _ ← invalidate session; Ret (Err (MX_Session SE_OutcomeUnknown))
  | Err MX_Closed => Ret (Err MX_Closed)
  | Err e => _ ← invalidate session; again_or_break e
  end.

Lemma concluded_sound tid n k t session r a prior :
  goes_on tid n -> (S k + n <= mf_max_attempts c)%nat ->
  answers t = prior ++ [a] -> Forall known prior -> length (answers t) = length (submitted t) ->
  (length (submitted t) <= S k)%nat -> Forall (command_message tid t) (submitted t) ->
  match r with
  | Ok (Some reply) => a = Ok reply
  | Ok None => known a
  | Err e => if is_unknown a then e = MX_Session SE_OutcomeUnknown else e <> MX_Session SE_OutcomeUnknown
  end ->
  always see_mgr (concluded n tid session r) t (command_post tid (mf_max_attempts c)).
Proof.
  intros IH Hn Ha Hp Hl Hb Hm Hr.
  assert (known a -> answered tid (S k) t) as Hk by (intros; by eapply answered_again).
  assert (forall e, known a -> command_post tid (mf_max_attempts c) t (Ok (Err e))) as Hpost.
  { intros e K. apply answered_post. eapply answered_more; [by apply Hk|lia]. }
  destruct r as [[reply|]|e]; cbn [concluded].
  - subst a. destruct (Z.eqb_spec (transaction_id (header reply)) tid) as [E|E]; cbn [negb];
      [|by apply command_invalidated, Hpost].
    cbn [always]. destruct (mgr_decode_command_reply reply _) as [x|] eqn:D; cbn; [|by apply Hpost].
    split; [lia|]. split; [done|]. split; [done|]. by exists prior, reply.
  - eapply attempt_again_or_break; [done|by apply Hk|lia].
  - destruct (is_unknown a) eqn:U.
    + subst e. apply command_invalidated. split; [lia|]. split; [done|]. split; [done|]. right. split; [done|].
      exists prior. destruct a as [|[]]; done.
    + assert (always see_mgr (_ ← invalidate session; match n with
        | O => Ret (Err e)
        | S _ => await (wait_retry patience) (fun _ => attempts c patience command input n tid (Some e))
        end) t (command_post tid (mf_max_attempts c))) as H.
      { eapply command_quiet; [apply quiet_invalidate|by apply Hk|lia|]. intros _ t' Ht' _.
        eapply attempt_again_or_break; [done|done|lia]. }
      destruct e as [| | | | |[]| |]; try done. by apply Hpost.
Qed.

Lemma attempts_sound tid n : goes_on tid n.
Proof.
  induction n as [|n IH]; intros k t last Ht Hn; [apply answered_post; eapply answered_more; [done|lia]|].
  cbn [attempts]. eapply command_quiet; [quieten|done|lia|].
  intros [] t1 Ht1 _; [apply answered_post; eapply answered_more; [done|lia]|].
  eapply command_quiet_await; [apply quiet_check|done|lia|]. intros _ t2 Ht2 _.
  unfold current_target. apply always_bind, always_call. intros s. cbn [see_mgr].
  assert (answered tid k (t2 ++ [GO_Snapshot s])) as Hs.
  { destruct (quiet_snoc t2 (GO_Snapshot s) eq_refl) as (H1 & H2 & H3). by eapply answered_quiet. }
  cbn [always]. destruct (target_of s) as [[target fsid]|e] eqn:T.
  2: { destruct e; try (apply answered_post; eapply answered_more; [done|lia]). eapply (attempt_again _ _ k); [done|done|lia]. }
  apply always_question; [|intros e _; apply answered_post; eapply answered_more; [done|lia]].
  intros request Hr. eapply command_quiet; [apply quiet_get_session|done|lia|].
  intros [session|e] t3 Ht3 Hp.
  2: { destruct e; try (eapply (attempt_again _ _ k); [done|done|lia]); try (apply answered_post; eapply answered_more; [done|lia]);
       (eapply (attempt_again_or_break _ _ k); [done|done|lia]). }
  apply always_bind. eapply always_mono; [|apply (attempt_submitted tid k); [done|]].
  - intros t4 [r|h]; cbv beta.
    + intros (a & prior & H1 & H2 & H3 & H4 & H5 & H6). eapply (concluded_sound tid n k); [done|lia|done..].
    + intros (-> & H1 & H2). split; [lia|done].
  - destruct (mgr_encode_command fsid command input (mf_message_max_bytes c)) as [x|] eqn:E; [|done]. cbn in Hr. simplify_eq.
    exists s, fsid, request. destruct Hp as [u ->]. split; [set_solver|]. split_and!; try done.
    unfold target_of in T. apply bind_inv in T as (f & F%ok_or_inv & T). rewrite F. f_equal.
    destruct (sn_unsupported_features s), (sn_target s); cbn in T; by simplify_eq.
Qed.

(** C9. A manager command, in every interleaving with other callers, failovers
    and cancellations: it submits at most as many messages as it has attempts,
    each the command for the observed cluster under the number the command was
    given; each submission has its answer before the next one and before the
    command returns; a submission is followed by another one only if its
    outcome is known, and an unknown outcome is the last and is reported as
    such; success means that the last answer carries the command's number and
    decodes to the reply, and a negative result comes with its error. *)
Theorem manager_command_sound :
  always see_mgr (manager_command c patience command input) [] (fun t r =>
    match numbers t with
    | [] => submitted t = [] /\ r = Ok (Err MX_InvalidConfig)
    | Err e :: _ => submitted t = [] /\ r = Ok (Err e)
    | Ok tid :: _ => command_post tid (mf_max_attempts c) t r
    end).
Proof.
  unfold manager_command. case_bool_decide; [done|]. apply always_bind, always_call. intros [tid|e]; cbn [see_mgr see_op]; [|done].
  cbn [question]. eapply (always_weaken _ _ _ (command_post tid (mf_max_attempts c))).
  - by apply (attempts_sound tid (mf_max_attempts c) 0%nat).
  - by intros t r [u ->] Ht.
Qed.
End CommandSound.

(** ** An answered command sent again *)

(** The active manager changes while the reply of the first submission has
    just arrived: the tick is taken before the finished submission, and the
    cancellation then returns the reply. *)
Definition moving_target (n : nat) : ActiveTarget :=
  mkActiveTarget 1 (Z.of_nat n) (list_byte_of_string "x") (entity_addr_from_endpoint AT_V2 0 (SA_V4 [x0a; x00; x00; x01] 6800)) 0.

Definition success_reply : Message :=
  let front := le_bytes 4 0 ++ le_bytes 4 0 in
  mkMessage (mkMessageHeader 0 1 MESSAGE_MGR_COMMAND_REPLY 0 1 0 0 0 0 1 0) (mkMessageLengths 8 0 0) front [] [].

Definition moving_op {X} (op : StateOp X) : X :=
  match op in StateOp X return X with
  | Op_Next => Ok 1
  | Op_Closed => false
  | Op_Take _ => Tk_Previous None
  | Op_Install _ _ => In_Fresh
  | Op_Invalidate _ => None
  | Op_Close => None
  end.

Definition moving (X : Type) (e : MgrE X) (t : list MgrObs) : X :=
  let n := length (submitted t) in
  match e in MgrE X return X with
  | G_State op => moving_op op
  | G_Options => mkOptionsView false false
  | G_Snapshot => mkSnapshot (Some (replicate 16 x00)) (Some (moving_target n)) false
  | G_Open _ => Ok (Z.of_nat n)
  | G_Stop _ => tt
  | G_Drop _ => tt
  | G_Submit _ _ => tt
  | G_Select => match n with 1%nat => SV_Tick | _ => SV_Reply (Ok success_reply) end
  | G_Cancel => Ok success_reply
  | G_Retry => RV_Delay
  end.

Definition sample_manager : ManagerConfig := mkManagerConfig (mkLimits 4096 4096 4096 4) 1 1 false 0 1024 1 2.

(** The manager has answered the command, and it is sent to the next one. *)
Lemma answered_command_repeated :
  let t := (run see_mgr moving (manager_command sample_manager 2 [list_byte_of_string "x"] []) []).1 in
  answers t = [Ok success_reply; Ok success_reply] /\ length (submitted t) = 2%nat.
Proof. vm_compute. split; reflexivity. Qed.

(** ** Sessions with a manager *)

(** A client that could be made can make the machine of every session. *)
Lemma manager_machine_ready c s address :
  ManagerClient_new c = Ok s ->
  exists config machine, mgr_session_config c address = Ok config /\ Machine_new config = Ok machine
    /\ ci_target_address (client_ident config) = address.
Proof.
  intros H. unfold ManagerClient_new in H. split_if. bool_prop.
  eexists _, _. split; [reflexivity|]. split; [|done]. unfold Machine_new. cbn [cfg_limits max_queued_messages max_retained_bytes
    max_in_flight_transactions max_handshake_transitions cfg_global_sequence].
  rewrite (proj2 (Z.eqb_neq (max_segment_bytes _) 0)), (proj2 (Z.eqb_neq (max_frame_bytes _) 0)) by done. reflexivity.
Qed.

(** What a submission to a session sees: how its request ended. *)
Inductive ManagedObs : Type :=
| MO_Admitted (m : Message) (r : result SessionError unit)
| MO_Ended (r : result SessionError (option Message))
| MO_Other.

Definition see_managed (X : Type) (e : ManagedE X) : X -> ManagedObs :=
  match e in ManagedE X return X -> ManagedObs with
  | MG_Admit m => fun r => MO_Admitted m r
  | MG_Wait => fun r => match r with inl r => MO_Ended r | inr _ => MO_Other end
  | MG_CancelRequest => fun r => MO_Ended r
  | MG_Canceled => fun _ => MO_Other
  end.

Definition ends (t : list ManagedObs) : list (result SessionError (option Message)) :=
  omap (fun o => match o with MO_Ended r => Some r | _ => None end) t.

Lemma ends_app t u : ends (t ++ u) = ends t ++ ends u.
Proof. apply omap_app. Qed.

(** An admitted request is never abandoned: whatever the submission returns is
    how the request ended, and it is asked once. *)
Lemma managed_submit_ends patience m :
  always see_managed (managed_submit patience m) [] (fun t r =>
    match r with
    | Ok r => match t with
              | MO_Admitted m' (Ok _) :: t => m' = m /\ exists e, ends t = [e] /\ r = request_reply e
              | [MO_Admitted m' (Err e)] => m' = m /\ r = Err e
              | _ => False
              end
    | Err h => h = StillRunning
    end).
Proof.
  intros [[]|e]; [|done]. cbn [app see_managed question await].
  assert (forall u, ends u = [] -> always see_managed (managed_loop patience) (MO_Admitted m (Ok tt) :: u) (fun t r =>
    match r with
    | Ok r => exists v e, t = MO_Admitted m (Ok tt) :: v /\ ends v = [e] /\ r = request_reply e
    | Err h => h = StillRunning
    end)) as H.
  { induction patience as [|fuel IH]; intros u Hu; [done|]. cbn [managed_loop]. intros []; cbn [app see_managed].
    { intros e. exists (u ++ [MO_Other; MO_Ended e]), e. cbn. rewrite <- app_assoc, ends_app, Hu. done. }
    intros [e|gone]; cbn [app see_managed].
    { exists (u ++ [MO_Other; MO_Ended e]), e. cbn. rewrite <- app_assoc, ends_app, Hu. done. }
    destruct gone.
    - intros e. exists (u ++ [MO_Other; MO_Other; MO_Ended e]), e. cbn. rewrite <- !app_assoc, ends_app, Hu. done.
    - intros []; cbn [see_managed].
      + intros e. exists (u ++ [MO_Other; MO_Other; MO_Other; MO_Ended e]), e. cbn. rewrite <- !app_assoc, ends_app, Hu. done.
      + rewrite <- !app_assoc. cbn [app]. apply IH. by rewrite !ends_app, Hu. }
  eapply always_mono; [|exact (H [] eq_refl)]. cbv beta. intros t [r|h]; [|done]. intros (v & e & -> & Hv & ->). split; [done|]. by exists e.
Qed.
