(* ===== verification/Opening.v ===== *)
(** * Opening sessions

    Models how the three clients open their sessions: the monitor client's
    [authenticated_session_factory] ([src/src/mon/client.rs]), the manager
    client's [production_session_factory] ([src/src/mgr/client.rs]), the OSD
    client's [spawn_session] ([src/src/osd/client.rs]) and the connectors they
    give the session to reconnect with.  The handshakes of [CephxConnector] run
    inside them. *)

From S2P Require Import Prelude Codec Frame Message Address Control Secure Banner BTree SessionState Session Interaction Transport Supervisor CephxCrypto CephxCore CephxConnector CephxHandshake OsdClient MonClient Manager.
From Stdlib Require Import ZArith Lia Strings.Byte Strings.String.
From stdpp Require Import base option gmap sorting numbers list.

Open Scope Z_scope.

(** How [TcpStream::connect] under a timeout and [set_nodelay] end. *)
Inductive Dialed : Type := D_TimedOut | D_Failed | D_Connected.

(** [U_Resources] is the permit for one more session; [U_Handshake] a call of
    the handshake on the new stream. *)
Inductive OpenE : Type -> Type :=
| U_Resources : OpenE (result FrameError unit)
| U_Dial (address : SocketAddr) (timeout : Z) : OpenE Dialed
| U_Handshake {X} (e : Timed ConnE X) : OpenE X
| U_Authority : OpenE (option ConnectorConfig)
| U_Publish (authority : ConnectorConfig) : OpenE unit
| U_Random : OpenE (option (list byte)).

Abbreviation OP := (Prog OpenE).

(** Writing to the stream, waiting for it and for the gate suspend. *)
Definition conn_suspends (X : Type) (e : ConnE X) : bool :=
  match e with
  | Y_Gate | Y_Write _ | Y_Arrive => true
  | _ => false
  end.

Section Opening.
  Context {crc_crate : Crc32cCrate} {aes_crate : AesGcmCrate} {crates : CephxCrates} {sha : Sha256Crate}.

Definition connect (handshake : HM ConnectionSetup) : Prog (Timed ConnE) (result ConnectorError ConnectionSetup) :=
  r ← within conn_suspends (handshake Handshake_new);
  Ret (match r with
       | Some (Ok (setup, _)) => Ok setup
       | Some (Err e) => Err e
       | None => Err CE_Timeout
       end).

(** [MonitorConnector::connect] and [ServiceConnector::connect]. *)
Definition monitor_connect (c : ConnectorConfig) : OP (result ConnectorError ConnectionSetup) :=
  interp (fun X e => call (U_Handshake e)) (connect (monitor_handshake c)).

Definition service_connect (c : ServiceConfig) : OP (result ConnectorError ConnectionSetup) :=
  interp (fun X e => call (U_Handshake e)) (connect (service_handshake c)).

(** [ReceiveResources::new]. *)
Definition receive_resources : OP (result SessionError unit) :=
  r ← call U_Resources; Ret (map_err (fun _ => SE_QueueSaturated) r).

(** The stream of a reconnection, or of a first connection of the manager
    client: every way to fail is a disconnection. *)
Definition dial (address : SocketAddr) (timeout : Z) : OP (result SessionError unit) :=
  d ← call (U_Dial address timeout);
  Ret (match d with D_Connected => Ok tt | D_TimedOut | D_Failed => Err SE_Disconnected end).

(** ** Monitors *)

Record OpenedMonitorSession : Type := mkOpenedMonitorSession {
  om_machine : Machine;
  om_initial : ConnectionSetup;
  om_global_id : Z;
  om_client_addresses : list EntityAddr
}.

Definition with_target (target : EntityAddr) (c : ConnectorConfig) : ConnectorConfig :=
  mkConnectorConfig (cn_credential c) target (cn_message_limits c) (cn_cephx_limits c) (cn_handshake_timeout c)
    (cn_max_banner_payload c) (cn_requested_keys c) (cn_allow_crc c) (cn_global_id c) (cn_old_ticket c).

Definition session_with_target (target : EntityAddr) (c : SessionState.Config) : SessionState.Config :=
  let i := client_ident c in
  mkConfig (cfg_limits c) (max_queued_messages c) (max_retained_bytes c) (max_in_flight_transactions c)
    (max_reconnect_attempts c) (max_handshake_transitions c) (reconnect_policy c)
    (mkClientIdent (ci_addresses i) target (ci_global_id i) (ci_global_sequence i) (ci_supported_features i)
       (ci_required_features i) (ci_flags i) (ci_cookie i))
    (cfg_client_cookie c) (cfg_server_cookie c) (cfg_global_sequence c) (cfg_connect_sequence c) (cfg_replacement_cookies c).

Definition authenticated_session_factory (connector_config : ConnectorConfig) (session_config : SessionState.Config)
    (connect_timeout : Z) (endpoint : Endpoint) : OP (result MonitorError OpenedMonitorSession) :=
  let connector_config := with_target (ep_entity_address endpoint) connector_config in
  let session_config := session_with_target (ep_entity_address endpoint) session_config in
  resources ← receive_resources;
  question (map_err MnE_Session resources) (fun _ =>
  if connect_timeout =? 0 then Ret (Err MnE_InvalidConfig)
  else
    question (map_err (fun _ => MnE_InvalidConfig) (MonitorConnector_new connector_config)) (fun '(authority, _) =>
    stream ← call (U_Dial (ep_address endpoint) connect_timeout);
    match stream with
    | D_TimedOut => Ret (Err MnE_ConnectTimeout)
    | D_Failed => Ret (Err (MnE_Session SE_Disconnected))
    | D_Connected =>
        initial ← monitor_connect authority;
        question (map_err (MnE_Session ∘ connector_session_error) initial) (fun initial =>
        question (ok_or (cs_authenticated_global_id initial) MnE_IdentityUnavailable) (fun global_id =>
        _ ← call (U_Publish authority);
        question (map_err MnE_Session (Machine_new session_config)) (fun machine =>
        Ret (Ok (mkOpenedMonitorSession machine initial global_id (ci_addresses (client_ident session_config)))))))
    end)).

(** The connector of the monitor session. *)
Definition monitor_reconnect (authority : ConnectorConfig) (endpoint : SocketAddr) (connect_timeout : Z)
    : OP (result SessionError ConnectionSetup) :=
  await (dial endpoint connect_timeout) (fun _ =>
  r ← monitor_connect authority;
  Ret (map_err connector_session_error r)).

(** ** Managers *)

Definition manager_service (c : ManagerConfig) (authority : ConnectorConfig) (target : EntityAddr) : ServiceConfig :=
  mkServiceConfig authority ENTITY_MANAGER target (mf_frame_limits c) (mf_handshake_timeout c) 64 (mf_allow_crc c).

(** A socket address that does not parse stops the task. *)
Definition endpoint_of (a : EntityAddr) : OP (option SocketAddr) :=
  match endpoint a with Ok e => Ret e | Err _ => Stop Panicked end.

Definition port_of (a : SocketAddr) : Z := match a with SA_V4 _ p | SA_V6 _ p => p end.

Definition production_session_factory (c : ManagerConfig) (target : ActiveTarget)
    : OP (result ManagerError (Machine * ConnectionSetup)) :=
  resources ← receive_resources;
  question (map_err MX_Session resources) (fun _ =>
  e ← endpoint_of (at_address target);
  question (ok_or e MX_NoActiveManager) (fun endpoint =>
  if port_of endpoint =? 0 then Ret (Err MX_NoActiveManager)
  else
    authority ← call U_Authority;
    question (ok_or authority MX_IdentityUnavailable) (fun authority =>
    question (map_err (fun _ => MX_InvalidConfig) (ServiceConnector_new (manager_service c authority (at_address target))))
      (fun service =>
    stream ← dial endpoint (mf_dial_timeout c);
    question (map_err MX_Session stream) (fun _ =>
    initial ← service_connect service;
    question (map_err (MX_Session ∘ connector_session_error) initial) (fun initial =>
    question (mgr_session_config c (at_address target)) (fun config =>
    question (map_err MX_Session (Machine_new config)) (fun machine => Ret (Ok (machine, initial)))))))))).

(** The connector of the manager session asks for the authority anew. *)
Definition manager_reconnect (c : ManagerConfig) (target : EntityAddr) (endpoint : SocketAddr)
    : OP (result SessionError ConnectionSetup) :=
  authority ← call U_Authority;
  question (ok_or authority SE_Disconnected) (fun authority =>
  question (map_err (fun _ => SE_UnsupportedPayload) (ServiceConnector_new (manager_service c authority target))) (fun service =>
  await (dial endpoint (mf_dial_timeout c)) (fun _ =>
  r ← service_connect service;
  Ret (map_err connector_session_error r)))).

(** ** OSDs *)

Record OsdSessionConfig : Type := mkOsdSessionConfig {
  ox_frame_limits : Limits;
  ox_dial_timeout : Z;
  ox_handshake_timeout : Z;
  ox_allow_crc : bool;
  ox_address_nonce : Z
}.

Definition osd_service (c : OsdSessionConfig) (authority : ConnectorConfig) (target : EntityAddr) : ServiceConfig :=
  mkServiceConfig authority ENTITY_OSD target (ox_frame_limits c) (ox_handshake_timeout c) 64 (ox_allow_crc c).

Definition random_nonzero : OP (result OsdError Z) :=
  r ← call U_Random;
  Ret (match r with Some bytes => Ok (Z.max 1 (le_value bytes)) | None => Err OX_NotConnected end).

(** [spawn_session]: the machine and the service its connector speaks to. *)
Definition spawn_session (c : OsdSessionConfig) (authority : ConnectorConfig) (target : EntityAddr)
    : OP (result OsdError (Machine * ServiceConfig)) :=
  resources ← receive_resources;
  question (map_err map_session_error resources) (fun _ =>
  question (map_err (fun _ => OX_NotConnected) (ServiceConnector_new (osd_service c authority target))) (fun service =>
  question (map_err (fun _ => OX_NotConnected) (ipv4_v2 (SA_V4 [x00; x00; x00; x00] 0))) (fun placeholder =>
  await random_nonzero (fun client_cookie =>
  await random_nonzero (fun first =>
  await random_nonzero (fun second =>
  let config :=
    mkConfig (ox_frame_limits c) 16 (max_frame_bytes (ox_frame_limits c)) 16 2 16 ReplayPending
      (mkClientIdent [with_nonce placeholder (ox_address_nonce c)] target 0 0 OSD_CLIENT
         (Z.lor (Z.lor (Z.lor OSD_REPLY_MUX PGID64) NEW_OSD_OP_REPLY_ENCODING) MESSAGE_ADDRESS_V2) 0 0)
      client_cookie 0 0 0 [first; second] in
  question (map_err map_session_error (Machine_new config)) (fun machine => Ret (Ok (machine, service))))))))).

(** The connector of an OSD session. *)
Definition osd_reconnect (c : OsdSessionConfig) (service : ServiceConfig) (endpoint : SocketAddr)
    : OP (result SessionError ConnectionSetup) :=
  await (dial endpoint (ox_dial_timeout c)) (fun _ =>
  r ← service_connect service;
  Ret (map_err connector_session_error r)).
End Opening.

(** ** What is opened *)

Inductive OpenObs : Type :=
| UO_Dialed (address : SocketAddr) (d : Dialed)
| UO_Handshake (o : ConnObs)
| UO_Authority (a : option ConnectorConfig)
| UO_Published (authority : ConnectorConfig)
| UO_Other.

Definition see_open (X : Type) (e : OpenE X) : X -> OpenObs :=
  match e in OpenE X return X -> OpenObs with
  | U_Dial address _ => fun d => UO_Dialed address d
  | U_Handshake e => fun x => UO_Handshake (see_timed see_conn YO_TimedOut _ e x)
  | U_Authority => fun a => UO_Authority a
  | U_Publish authority => fun _ => UO_Published authority
  | U_Resources => fun _ => UO_Other
  | U_Random => fun _ => UO_Other
  end.

Definition handshakes (t : list OpenObs) : list ConnObs :=
  omap (fun o => match o with UO_Handshake o => Some o | _ => None end) t.

Lemma handshakes_app t u : handshakes (t ++ u) = handshakes t ++ handshakes u.
Proof. apply omap_app. Qed.

Lemma handshakes_fmap l : handshakes (UO_Handshake <$> l) = l.
Proof. induction l as [|o l IH]; [done|]. cbn. f_equal. exact IH. Qed.

Section Opened.
  Context {crc_crate : Crc32cCrate} {aes_crate : AesGcmCrate} {crates : CephxCrates} {sha : Sha256Crate}.

(** A handshake inside: what always holds of it at its success holds of the
    part of the trace it adds. *)
Lemma connect_sound (handshake : HM ConnectionSetup) (Q : list ConnObs -> ConnectionSetup -> Prop) t :
  always see_conn (handshake Handshake_new) [] (fun t r => match r with Ok (Ok (setup, _)) => Q t setup | _ => True end) ->
  always see_open (interp (fun X e => call (U_Handshake e)) (connect handshake)) t (fun t' r =>
    exists u, t' = t ++ (UO_Handshake <$> u) /\ match r with Ok (Ok setup) => Q u setup | _ => True end).
Proof.
  intros H. pose proof (always_within see_conn YO_TimedOut conn_suspends _ _ _ H) as Hw.
  assert (always (see_timed see_conn YO_TimedOut) (connect handshake) []
    (fun u r => match r with Ok (Ok setup) => Q u setup | _ => True end)) as Hc.
  { unfold connect. apply always_bind. eapply always_mono; [|exact Hw]. cbv beta. intros u [[[[setup s]|e]|]|h]; done. }
  pose proof (always_embed (see_timed see_conn YO_TimedOut) see_open (fun X e => U_Handshake e) UO_Handshake
    (fun X e x => eq_refl) (connect handshake) [] t _ Hc) as He.
  rewrite app_nil_r in He. eapply always_mono; [|exact He]. cbv beta. intros t' r (u & -> & Hr). by exists u.
Qed.

Lemma monitor_connect_sound c t :
  always see_open (monitor_connect c) t (fun t' r =>
    exists u, t' = t ++ (UO_Handshake <$> u) /\ match r with Ok (Ok setup) => authenticated c u setup | _ => True end).
Proof.
  apply connect_sound. eapply always_mono; [|apply monitor_handshake_trace]. by intros u [[[setup s]|e]|h].
Qed.

Lemma service_connect_sound c t :
  always see_open (service_connect c) t (fun t' r =>
    exists u, t' = t ++ (UO_Handshake <$> u) /\ match r with Ok (Ok setup) => authorized c u setup | _ => True end).
Proof.
  apply connect_sound. eapply always_mono; [|apply service_handshake_trace]. intros u [[[setup s]|e]|h]; [|done..]. by intros [].
Qed.

(** A session with a monitor rests on an authenticated connection to its
    address, and its authority is the one the other clients will use. *)
Definition monitor_opened (cc : ConnectorConfig) (sc : SessionState.Config) (e : Endpoint) (t : list OpenObs)
    (s : OpenedMonitorSession) : Prop :=
  let authority := with_target (ep_entity_address e) cc in
  UO_Dialed (ep_address e) D_Connected ∈ t /\ UO_Published authority ∈ t
  /\ authenticated authority (handshakes t) (om_initial s)
  /\ cs_authenticated_global_id (om_initial s) = Some (om_global_id s)
  /\ Machine_new (session_with_target (ep_entity_address e) sc) = Ok (om_machine s)
  /\ om_client_addresses s = ci_addresses (client_ident sc).

(** A session with a manager rests on a connection authorized by the authority
    at hand, to the address of the target. *)
Definition manager_opened (c : ManagerConfig) (target : ActiveTarget) (t : list OpenObs) (s : Machine * ConnectionSetup) : Prop :=
  exists address authority, endpoint (at_address target) = Ok (Some address) /\ port_of address <> 0
    /\ UO_Dialed address D_Connected ∈ t /\ UO_Authority (Some authority) ∈ t
    /\ authorized (manager_service c authority (at_address target)) (handshakes t) s.2
    /\ (mgr_session_config c (at_address target) ≫= fun config => map_err MX_Session (Machine_new config)) = Ok s.1.

Definition on_success {A} (Q : list OpenObs -> A -> Prop) {Er} (t : list OpenObs) (r : result Halted (result Er A)) : Prop :=
  match r with Ok (Ok a) => Q t a | _ => True end.

(** Steps that only matter when they succeed. *)
Lemma opens_question {X A Er} (r : result Er X) (k : X -> OP (result Er A)) t (Q : list OpenObs -> A -> Prop) :
  (forall x, r = Ok x -> always see_open (k x) t (on_success Q)) -> always see_open (question r k) t (on_success Q).
Proof. intros H. apply always_question; [done|by intros]. Qed.

Lemma opens_resources {A Er} (k : result SessionError unit -> OP (result Er A)) t (Q : list OpenObs -> A -> Prop) :
  (forall r, always see_open (k r) (t ++ [UO_Other]) (on_success Q)) -> always see_open (receive_resources ≫= k) t (on_success Q).
Proof. intros H r. apply H. Qed.

Lemma opens_connect {A Er} (p : OP (result ConnectorError ConnectionSetup)) (P : list ConnObs -> ConnectionSetup -> Prop)
    (k : result ConnectorError ConnectionSetup -> OP (result Er A)) t (Q : list OpenObs -> A -> Prop) :
  always see_open p t (fun t' r => exists u, t' = t ++ (UO_Handshake <$> u) /\ match r with Ok (Ok setup) => P u setup | _ => True end) ->
  (forall u r, match r with Ok setup => P u setup | Err _ => True end ->
     always see_open (k r) (t ++ (UO_Handshake <$> u)) (on_success Q)) ->
  always see_open (p ≫= k) t (on_success Q).
Proof.
  intros Hp Hk. apply always_bind. eapply always_mono; [|exact Hp]. cbv beta. intros t' [r|h] (u & -> & Hr); [|done]. by apply Hk.
Qed.

Lemma monitor_factory_sound cc sc timeout e :
  always see_open (authenticated_session_factory cc sc timeout e) [] (on_success (monitor_opened cc sc e)).
Proof.
  unfold authenticated_session_factory. apply opens_resources. intros r. apply opens_question. intros [] _.
  destruct (timeout =? 0); [done|]. apply opens_question. intros [authority a0] Ha%map_err_inv.
  apply always_call. intros []; [done..|]. eapply opens_connect; [apply monitor_connect_sound|]. intros u r' Hr.
  apply opens_question. intros initial ->%map_err_inv. apply opens_question. intros gid Hg%ok_or_inv.
  apply always_call. intros []. apply opens_question. intros machine Hm%map_err_inv. cbn [always on_success see_open].
  unfold MonitorConnector_new in Ha. split_if. apply Ok_inj in Ha. injection Ha as <- <-.
  unfold monitor_opened. rewrite !handshakes_app, handshakes_fmap. cbn. rewrite app_nil_r.
  split; [set_solver|]. split; [set_solver|]. by split_and!.
Qed.

Lemma manager_factory_sound c target :
  always see_open (production_session_factory c target) [] (on_success (manager_opened c target)).
Proof.
  unfold production_session_factory. apply opens_resources. intros r. apply opens_question. intros [] _.
  unfold endpoint_of. destruct (endpoint (at_address target)) as [address|] eqn:Ea; [|done].
  apply always_bind. cbn [always]. apply opens_question. intros e ->%ok_or_inv.
  destruct (Z.eqb_spec (port_of e) 0) as [|Hp]; [done|]. apply always_call. intros authority. apply opens_question.
  intros auth ->%ok_or_inv. apply opens_question. intros service Hs%map_err_inv.
  unfold dial. intros d. cbn [see_open]. apply opens_question. intros [] Hd%map_err_inv. destruct d; try done.
  eapply opens_connect; [apply service_connect_sound|]. intros u r' Hr.
  apply opens_question. intros initial ->%map_err_inv. apply opens_question. intros config Hc. apply opens_question.
  intros machine Hm. cbn [always on_success].
  unfold ServiceConnector_new in Hs. split_if. apply Ok_inj in Hs. subst service.
  exists e, auth. rewrite !handshakes_app, handshakes_fmap. cbn [handshakes omap list_omap app].
  split; [done|]. split; [done|]. split; [set_solver|]. split; [set_solver|]. split; [done|]. cbn [fst]. by rewrite Hc, bind_Ok.
Qed.

(** The stream of a connector, and the handshake on it. *)
Lemma reconnect_sound (p : OP (result ConnectorError ConnectionSetup)) (P : list ConnObs -> ConnectionSetup -> Prop) address timeout t :
  (forall t, always see_open p t (fun t' r =>
     exists u, t' = t ++ (UO_Handshake <$> u) /\ match r with Ok (Ok setup) => P u setup | _ => True end)) ->
  handshakes t = [] ->
  always see_open (await (dial address timeout) (fun _ => r ← p; Ret (map_err connector_session_error r))) t
    (on_success (fun t' setup => UO_Dialed address D_Connected ∈ t' /\ P (handshakes t') setup /\ t `prefix_of` t')).
Proof.
  intros Hp Ht d. cbn [see_open]. destruct d; [done..|].
  change (always see_open (p ≫= fun r => Ret (map_err connector_session_error r)) (t ++ [UO_Dialed address D_Connected])
    (on_success (fun t' setup => UO_Dialed address D_Connected ∈ t' /\ P (handshakes t') setup /\ t `prefix_of` t'))).
  eapply opens_connect; [apply Hp|]. intros u [setup|e] Hu; [|done]. cbn.
  rewrite !handshakes_app, handshakes_fmap, Ht. split; [set_solver|]. split; [done|]. rewrite <- app_assoc. by eexists.
Qed.

(** An OSD session's machine and the service its connector speaks to. *)
Definition osd_spawned (c : OsdSessionConfig) (authority : ConnectorConfig) (target : EntityAddr)
    (s : Machine * ServiceConfig) : Prop :=
  s.2 = osd_service c authority target /\ m_state s.1 = Disconnected /\ 1 <= m_client_cookie s.1.

Lemma opens_random {A} (k : Z -> OP (result OsdError A)) t (Q : list OpenObs -> A -> Prop) :
  (forall x t, 1 <= x -> always see_open (k x) t (on_success Q)) -> always see_open (await random_nonzero k) t (on_success Q).
Proof. intros H [bytes|]; [|done]. apply H. lia. Qed.

Lemma spawn_session_sound c authority target :
  always see_open (spawn_session c authority target) [] (on_success (fun _ => osd_spawned c authority target)).
Proof.
  unfold spawn_session. apply opens_resources. intros r. apply opens_question. intros [] _. apply opens_question. intros service Hs%map_err_inv.
  apply opens_question. intros placeholder _. apply opens_random. intros cookie t1 Hc. apply opens_random. intros x t2 _.
  apply opens_random. intros y t3 _. apply opens_question. intros machine Hm%map_err_inv. cbn [always on_success].
  unfold ServiceConnector_new in Hs. split_if. apply Ok_inj in Hs. subst service. split; [done|].
  unfold Machine_new in Hm. split_if. apply Ok_inj in Hm. subst machine. by split.
Qed.

(** C8. No session works on an unauthenticated connection.  The monitor client's
    sessions start on, and reconnect with, connections that passed the
    monitor's handshake at the endpoint's address, and publish the authority
    that did; the manager client's with connections authorized under the
    authority at hand, at the target's address; and the connector of an OSD
    session only yields connections authorized for the OSD's address. *)
Theorem sessions_authenticated cc sc timeout e mc target authority oc osd address :
  always see_open (authenticated_session_factory cc sc timeout e) [] (on_success (monitor_opened cc sc e))
  /\ always see_open (monitor_reconnect authority address timeout) [] (on_success (fun t setup =>
       UO_Dialed address D_Connected ∈ t /\ authenticated authority (handshakes t) setup))
  /\ always see_open (production_session_factory mc target) [] (on_success (manager_opened mc target))
  /\ always see_open (manager_reconnect mc osd address) [] (on_success (fun t setup =>
       UO_Dialed address D_Connected ∈ t
       /\ exists at_hand, UO_Authority (Some at_hand) ∈ t /\ authorized (manager_service mc at_hand osd) (handshakes t) setup))
  /\ always see_open (spawn_session oc authority osd) [] (on_success (fun _ => osd_spawned oc authority osd))
  /\ always see_open (osd_reconnect oc (osd_service oc authority osd) address) [] (on_success (fun t setup =>
       UO_Dialed address D_Connected ∈ t /\ authorized (osd_service oc authority osd) (handshakes t) setup)).
Proof.
  split; [apply monitor_factory_sound|]. split; [|split; [apply manager_factory_sound|split; [|split; [apply spawn_session_sound|]]]].
  - eapply always_mono; [|apply (reconnect_sound _ (authenticated authority)); [apply monitor_connect_sound|done]].
    intros t [[setup|]|]; try done. by intros (H1 & H2 & _).
  - unfold manager_reconnect. apply always_call. intros a. apply opens_question. intros auth ->%ok_or_inv.
    apply opens_question. intros service Hs%map_err_inv. unfold ServiceConnector_new in Hs. split_if. apply Ok_inj in Hs. subst service.
    eapply always_mono; [|apply (reconnect_sound _ (authorized (manager_service mc auth osd))); [apply service_connect_sound|done]].
    intros t [[setup|]|]; try done. intros (H1 & H2 & u & ->). split; [done|]. exists auth. split; [set_solver|done].
  - eapply always_mono; [|apply (reconnect_sound _ (authorized (osd_service oc authority osd))); [apply service_connect_sound|done]].
    intros t [[setup|]|]; try done. by intros (H1 & H2 & _).
Qed.
End Opened.
